(* ===== verification/_CoqProject ===== *)
-Q . S2P
Prelude.v
Text.v
Http.v
Json.v
Net.v
Protocol.v
InstanceCell.v
EffectLedger.v
CelldAuth.v
EffectCallback.v
FlowGraph.v
TaskStore.v
Idempotency.v
PushPolicy.v
Extensions.v
TaskHandlers.v
OperatorAuth.v
AdminApi.v
Dispatcher.v
Replay.v
SessionRegistry.v
CircuitBreaker.v
VmPool.v
CrashLoop.v
PtySession.v
PtyWs.v
SshGateway.v
TransportIdentity.v
AgentPlane.v
MessageDispatch.v
Disk.v
OrchTask.v
Lifecycle.v
Reconcile.v
Operations.v
Fleet.v
Events.v
Enrollment.v
AuditLog.v
Credentials.v
SecretsRotation.v
