(* ===== verification/Prelude.v ===== *)
(** * Agentic Sandbox: a verification development of the management plane

    Agentic Sandbox runs coding agents in virtual machines and containers.  Its
    management plane (management/ under src/) is a Rust service that keeps the
    authoritative records: which operation was requested and whether its effect
    was dispatched, which task an executor runs and how it ended, who controls a
    terminal session and what it shows.  This development models the parts of
    that service whose state decides those questions, as Rocq functions on
    explicit states, and proves what makes them correct.

    ** Parts of the program and the files that model them

    Instance cells and their effects (management/src/celld and http/celld.rs):
    a cell is the durable coordination record of one instance; it accepts
    commands, each of which becomes an effect that the management service
    carries out once and reports back on.
    - [InstanceCell]: celld/model.rs.  [InstanceCell] is the cell, [accept],
      [record_dispatched], [record_unknown], [record_terminal], [observe] and
      [reconcile] its handlers.
    - [EffectLedger]: celld/effect_ledger.rs.  The two SQLite tables as maps and
      every statement on them: [claim_managed], [begin_dispatch],
      [set_management_operation], [mark_unknown], [complete_with_code].
    - [CelldAuth]: celld/auth.rs.  Signing, [verify] and the nonce cache.
    - [EffectCallback]: the callback half of http/celld.rs.  The handlers
      [effect_callback] and [resume_effect] run concurrently over one ledger and
      one verifier; [receive] and [advance] execute one handler from one
      shared-state access or await point to the next, and [world_step]
      interleaves any number of them with cancellation and restarts.

    The executor's durable state (management/agentic-sandbox-executor):
    - [FlowGraph]: extensions/flow_graph.rs, the graph identity carried in task
      metadata and the event records written there.
    - [TaskStore]: store/task_store.rs, five SQLite tables with the task,
      artifact, push-callback, idempotency and fleet operations.
    - [Idempotency]: store/idempotency.rs and extensions/idempotency.rs.  The
      cache is proved against the class [IdempotencyStore]; [TaskStore]
      discharges its laws ([task_store_laws]).
    - [Protocol]: protocol.rs, the negotiation of A2A versions, the codecs
      between the 1.0 wire format and the stored one, and the middleware.
    - [Extensions]: extensions/mod.rs with the runtime, human-prompt and other
      handlers; the registry that runs their hooks.
    - [PushPolicy]: handlers/push_callback_policy.rs and push_delivery.rs, where
      a callback may go and how an event is delivered.
    - [TaskHandlers]: handlers/mod.rs, get_task.rs, list_tasks.rs,
      cancel_task.rs, graph_checkpoint.rs, push_notification.rs and
      send_message.rs over the store, the cache and the delivery queue.  A
      handler that reads and later writes, or awaits the runtime, is split
      there; [world_step] interleaves the pieces of any number of requests.

    The admin API (management/src/http):
    - [OperatorAuth]: operator_auth.rs, from certificates, peer credentials and
      tokens to roles; the middleware and the admin extractor.
    - [AdminApi]: idempotency.rs, the idempotency middleware and the storage
      handlers of admin_v2.rs, composed with [OperatorAuth] in [admin_service].

    Commands and missions:
    - [Dispatcher]: management/src/dispatch/dispatcher.rs (pending commands,
      sessions and their indexes), the mission store of aiwg_serve/mod.rs and
      http/dispatch.rs.  An operation returns the effects it has on agents,
      callers, the session registry and AIWG.
    - [MessageDispatch]: management/src/agent_message_dispatch.rs, from a message
      to a command of the instance's agent and from its output to the task's
      artifacts and outcome; joins [TaskHandlers], [AgentPlane], [Dispatcher]
      and [TaskStore].
    - [Fleet]: management/src/http/fleet.rs, the workloads of an orchestrator in
      the table of [TaskStore]; [fleet_step] interleaves the reading and the
      writing parts of handlers.
    - [Operations]: management/src/http/operations.rs, the tracked operations.
    - [Events]: management/src/http/events.rs, telemetry/log_buffer.rs and the
      streams of admin_v2.rs.  [event_step] interleaves the calls of
      [add_event] at their locks and at the writes to the archive file.

    The executor's terminal sockets (agentic-sandbox-executor/src/bindings):
    - [PtySession]: the sessions of pty_ws.rs with their frames, members, replay
      buffer and pty_bridge.rs's commands.
    - [PtyWs]: the upgrade and the operations of pty_ws.rs.  An operation that
      asks the bridge ends in [Await]; [resume] continues it with the answer,
      and [world_step] interleaves any number of sockets, answers and output.

    The ssh gateway (management/src):
    - [SshGateway]: ssh_gateway.rs and http/ssh_gateway.rs, the certificate
      leases, and ssh_gateway_connector.rs, from the prelude line to the audit.

    Terminal sessions (management/src/session):
    - [Replay]: session/mod.rs and session/replay.rs, frames and the ring buffer.
    - [SessionRegistry]: session/registry.rs, attachment, the controller lease,
      publishing, and fan-out, which runs after the session lock is released and
      so is a separate step of [registry_step].

    The orchestrator (management/src/orchestrator):
    - [CircuitBreaker]: circuit_breaker.rs.
    - [VmPool]: vm_pool.rs, with [acquire] split at its await.
    - [OrchTask]: task.rs, manifest.rs and checkpoint.rs, the states of a task,
      what a manifest must say, and the checkpoint files on [Disk].
    - [Lifecycle]: mod.rs, executor.rs and http/tasks.rs.  Tasks are shared
      through handles; [orch_step] interleaves the background runs, requests
      and restarts at every lock section and external call.
    - [Reconcile]: reconciliation.rs, multi_agent.rs and cleanup.rs, the passes
      that compare checkpoints with machines, and the tracker of child tasks.
    - [CrashLoop]: management/src/crash_loop.rs, the histories of the machines
      and the rebuilds.

    Agents and their identities (management/src):
    - [TransportIdentity]: transport_identity.rs and the authentication of
      grpc.rs, from a certificate or a socket peer to a SPIFFE id.
    - [AgentPlane]: registry.rs, heartbeat.rs and the control stream of grpc.rs,
      composed with [Dispatcher]; the clean-up of a stream and the monitor's
      pass are split where the source releases the registry.
    - [Enrollment]: bootstrap_enrollment.rs and http/bootstrap_enrollment.rs,
      the one-time tokens, their file and the handler in pieces, and
      runtime_bootstrap.rs.

    Secrets and the audit log (management/src):
    - [Credentials]: credentials.rs and http/credentials.rs, the credentials,
      their leases and handlers, and http/credential_proxy.rs.
    - [AuditLog]: audit/audit.rs, events, the hash-chained daily files with their
      write buffer, the check, queries and retention.
    - [SecretsRotation]: audit/secrets_rotation.rs and the rotation task of
      audit/mod.rs.

    This file holds what they share: machine integers, results with [?] as
    bind, [find]-and-update on lists, and the tactics.  [Json] holds
    [serde_json::Value] and the class [Env] of third-party text functions;
    [Text], [Net], [Http] and [Disk] hold what the sources use of [str], of
    [std::net], of HTTP requests and responses and of the file system.

    ** How code becomes definitions

    Pure code is a function.  A method that changes state takes the state and
    returns it with its result; an error result comes with the state the code
    leaves, which for a rolled-back transaction is the old one.  Code under a
    lock is one function; code that releases a lock or awaits in the middle is
    split there, and the pieces are steps of a relation whose closure is every
    interleaving.  Clocks are arguments.  Integers are [Z] with saturation and
    wrap-around written out ([sat_add], [wrap_add]); timestamps are
    nanoseconds.  Tables, hash maps and sets are [gmap]s.  Third-party code (hashes,
    HMAC, base64, RFC 3339 and JSON text, channels, the row order of SQL scans)
    is a class whose documented laws are hypotheses; each class has an instance
    that satisfies them, which the witnesses use.

    ** What the theorems show

    - One dispatch, authorised: the provider is asked to dispatch an operation at
      most once over all interleavings, dropped handlers and restarts
      ([provider_dispatched_at_most_once]), and only for commands that arrived in
      an authentic request naming them ([dispatched_commands_authorised]).  Every
      handler answers ([handler_terminates]), finished operations are answered
      from the ledger, and ledger calls cannot fail after the claim.
    - Authentication: exactly which requests are accepted, that the signed text
      determines its fields, that what is signed verifies, and the exact limit of
      replay protection ([accepted_nonce_not_replayed], with
      [ahead_request_accepted_twice] for what lies beyond it).
    - Cells and ledger: a command is accepted once, finished effects are final,
      outstanding effects belong to the current generation, generations advance
      one at a time after a destroy, reachable cells validate.
    - Task store: identity and terminal time are write-once, scoping by instance,
      exact purge and recovery, no orphans, one dispatch per fleet key.
    - Idempotency: a recorded response is replayed until it expires.
    - The wire: decoded 1.0 requests have the stored type and encode back to
      themselves ([decoded_request_typed], [v1_request_roundtrip]); a handler
      only sees requests the middleware admitted.
    - Task handlers: no interleaving panics ([handlers_never_panic]); one at a
      time they never change a finished task ([terminal_tasks_final]); a message
      handed to the runtime settles its task ([dispatched_message_settles]);
      which tasks a page can hold; secrets are not shown.
    - Callbacks: every delivery goes to a public address whatever DNS answers
      ([deliveries_reach_public_hosts]), with [is_public_ip] equal to membership
      in the special-use blocks, and a bound on the work of an event.
    - Admin API: who reaches a handler ([admin_handlers_guarded]), a keyed
      mutation runs once ([keyed_mutation_executes_once]), and which file a
      storage path names ([storage_path_shape]).
    - Dispatcher: a command completes at most once ([completed_at_most_once]); a
      disconnect and a closed socket clean up exactly what is theirs; shell
      lines give back their arguments ([shell_arguments_preserved]).
    - Sessions: one controller under any interleaving; the ring with what it
      evicted is the log of frames ([replay_refines_log]); attach and fan-out
      deliver exactly what they should.
    - Terminal sockets: under any interleaving only the controller drives the
      terminal ([terminal_driven_by_controller]), there is one controller
      ([one_controller_at_a_time]), the process is started once and the closing
      frame sent once; operations settle ([operation_settles]); the replay
      buffer is a function of the log and resuming loses nothing
      ([replay_buffer_refines_log], [resume_without_gap]); a cancel over the
      socket is the REST cancel ([ws_cancel_is_rest_cancel]).
    - The ssh gateway: leases are bounded and final once settled; a connection
      reaches only an authorised target and is sent exactly the bytes after the
      prelude, however the stream was cut ([connection_authorised],
      [prelude_independent_of_chunks]).
    - Crash loops: a machine is rebuilt exactly when the log of its crashes says
      so ([rebuild_iff_crash_loop]), and boundedly often.
    - Agents: an authenticated request names the instance of its certificate
      ([authenticated_instance_bound]); SPIFFE ids print and parse back
      ([spiffe_roundtrip]); the monitor removes exactly the agents that are
      silent and unconnected ([reaper_exact]), and the end of a stream takes
      away exactly what was its own ([stream_end_exact]).
    - Enrollment: over interleavings, failed writes and restarts a token buys at
      most one certificate ([one_certificate_across_restarts]), for the instance
      and id it was issued for ([certificate_bound_to_token]).
    - Credentials: no answer and no file depends on a secret
      ([secrets_not_observable]); the proxy sends a secret only under a live
      lease and to a permitted target, and does not give it back
      ([proxy_confines_secret]); an ended lease is ended for good; a limit on
      the rate; every change is audited.
    - Audit log: what was logged stays and the log checks ([logged_event_kept]);
      what the check certifies ([integrity_exact]), which edits it detects
      ([single_edit_detected]) and which it cannot ([forged_event_passes]);
      exact retention.
    - Rotation: what a rotation leaves ([rotation_replaces_secret]) and that the
      metadata survives a restart ([metadata_roundtrip]).
    - Orchestrator: when the breaker trips, fails fast and recovers; the pool's
      bounds and what maintenance achieves; exactly which manifests are accepted
      ([manifest_accepted_iff]); tasks move along their state machine under any
      interleaving ([tasks_follow_state_machine]) and every run ends
      ([every_run_ends]); a save that fails anywhere leaves every task readable
      ([checkpoint_crash_safe]) and checkpoints follow the tasks
      ([checkpoints_track_tasks]); what a reconciliation may destroy
      ([reconcile_destroys_only_orphans]) and a clean-up remove
      ([cleanup_keeps_unfinished_tasks]).
    - Forwarded messages: which commands a message can run
      ([message_command_confined]), and that the end of the command settles the
      task ([observer_settles_task]).
    - Fleet: stored workloads carry no credential keys
      ([stored_workloads_carry_no_secrets]), a retried dispatch is replayed
      ([dispatch_retry_replayed]), assigned identities stay, an accepted plan is
      current, and no route panics.
    - Events: the hot window is the newest events of each source
      ([hot_window_refines_log]); no event is lost while appends succeed and do
      not overlap ([events_not_lost]); replay, queries and log followers give
      exactly what is kept ([replay_exact], [query_exact], [log_follow_exact]).
    - Theorems that record a behaviour other than the intended one, each a closed
      run of the model: [replayed_completion_reactivates],
      [oversized_revision_breaks_inventory], [controller_rejoin_loses_lease],
      [delayed_fan_out_reorders], [concurrent_acquire_exceeds_max],
      [destroyed_cell_revived], [spaced_failures_trip],
      [per_user_quota_inert], [provisioned_name_collides],
      [user_data_rewritten], [same_millisecond_skipped],
      [concurrent_resend_dispatched_twice], [failed_dispatch_replayed_as_task],
      [capacity_evicts_recent], [concurrent_appends_reorder],
      [cooldown_not_consulted], [failed_machine_restarts],
      [result_of_another_agent_accepted], [reconnect_lost_by_old_cleanup],
      [reconnect_lost_by_reaper], [foreign_trust_domain_accepted],
      [stale_snapshot_revives_token], [redaction_recreates_secret],
      [two_windows_meet], [sequence_restarts], [torn_line_ends_queries],
      [dotted_name_shares_keys], [evicted_event_unreported],
      [late_event_skipped], [overlapping_appends_lose_events].
      Others hold for every input of the described shape:
      [hitl_answer_revives_canceled_task], [refused_push_config_strands_task],
      [unauthenticated_write], [report_adopts_all], [early_exit_leaves_ghost],
      [mission_result_lost], [task_operations_ignore_scope],
      [unjoined_socket_closes_session], [revocation_audited_as_holder],
      [registration_not_bound_to_identity], [forged_event_passes],
      [truncated_log_passes], [late_access_events_hidden],
      [revoked_secret_revived], [ssh_rotation_never_succeeds],
      [grace_never_ends_after_restart], [snapshot_cursor_skips],
      [completion_overwrites_canceled_task], [later_output_lost],
      [suffixed_task_not_listed], [early_failure_strands_task],
      [short_id_panics], [cancelled_provisioning_leaks_vm],
      [failed_provider_completes], [refused_cancel_overwrites_error],
      [download_reads_any_file], [prompt_split_by_shell],
      [reconcile_destroys_completing_vm], [moved_child_not_released],
      [missing_child_blocks_parent], [pipelined_observation_drops_identity].

    ** Bounds

    Most loops are recursions on the list or counter the source iterates over.
    Fuel is used where the source's recursion or loop is not of that form:
    [encode_value] is given the depth of the value, which is enough
    ([encode_value_fuel]); [begin_admin] retries after removing an expired entry
    and needs two rounds ([begin_loop_two]); [chunks] is given the length of the
    list; [walk], which follows page cursors in a theorem, quantifies over its
    fuel.  [handler_terminates] uses ten steps, the longest path of the callback
    handler, counted by [steps_left].

    ** Not modelled

    File and process I/O (opening databases and their migrations, key material
    beyond its length and mode, libvirt, Docker, ssh), HTTP routing and request
    decoding, gRPC and WebSocket transport, certificates, metrics and log
    output, activity records, the guest agent and the command line client.  Regular expressions
    (redaction, prompt detection) and floating-point policies are parameters or
    left out, as are the cell daemon's bundle validators (celld/validation.rs and
    diagnostics.rs), the orchestrator's retry, hang detection and degradation
    policies, and the rate limiter of http/ (token buckets in floating point). *)

From stdpp Require Export base option list list_numbers gmap strings numbers sorting pretty.
From coqutil Require Export Datatypes.RecordSettersUsingExistingGetters.
#[global] Arguments const {E} newValue _ /.
#[global] Arguments set {R E} getter {Setter} _ _ /.

#[global] Set Default Proof Using "Type".
#[global] Open Scope Z_scope.

(** ** Machine integers

    Rust integers are kept as [Z] at their width.  The source uses two kinds
    of arithmetic that matter here: [saturating_*] and the wrap-around of
    [AtomicU32]/[AtomicU64] [fetch_add] (and of [+=] in the release
    profile, which has no overflow checks). *)

Definition u16_max : Z := 65535.
Definition u32_max : Z := 4294967295.
Definition u64_max : Z := 18446744073709551615.
Definition i64_max : Z := 9223372036854775807.

Definition sat_add (max a b : Z) : Z := Z.min max (a + b).
Definition sat_sub (a b : Z) : Z := Z.max 0 (a - b).
Definition wrap_add (max a b : Z) : Z := (a + b) `mod` (max + 1).

(** The length of a [Vec]/[VecDeque] as the [usize] the code compares. *)
Definition len {A} (l : list A) : Z := Z.of_nat (length l).

Lemma len_nil {A} : len (@nil A) = 0.
Proof. done. Qed.
Lemma len_cons {A} (x : A) l : len (x :: l) = len l + 1.
Proof. unfold len. simpl. lia. Qed.
Lemma len_app {A} (l k : list A) : len (l ++ k) = len l + len k.
Proof. unfold len. rewrite length_app. lia. Qed.
Lemma len_nonneg {A} (l : list A) : 0 <= len l.
Proof. unfold len. lia. Qed.
Lemma len_zero_inv {A} (l : list A) : len l = 0 → l = [].
Proof. destruct l; [done|]. rewrite len_cons. pose proof (len_nonneg l). lia. Qed.
Lemma len_map {A B} (f : A → B) l : len (f <$> l) = len l.
Proof. unfold len. by rewrite length_fmap. Qed.

Lemma wrap_add_small max a b : 0 <= a + b <= max → wrap_add max a b = a + b.
Proof. intros. unfold wrap_add. apply Z.mod_small. lia. Qed.
Lemma wrap_add_range max a b : 0 <= max → 0 <= wrap_add max a b <= max.
Proof.
  intros. unfold wrap_add.
  pose proof (Z.mod_pos_bound (a + b) (max + 1)). lia.
Qed.
Lemma sat_add_small max a b : a + b <= max → sat_add max a b = a + b.
Proof. unfold sat_add. lia. Qed.
Lemma sat_add_le max a b : sat_add max a b <= max.
Proof. unfold sat_add. lia. Qed.

(** ** Results

    [Result<T, E>] with the [?] operator as monadic bind. *)

Inductive result (E A : Type) : Type :=
| Ok (a : A)
| Err (e : E).
Arguments Ok {E A} a.
Arguments Err {E A} e.

#[export] Instance result_ret E : MRet (result E) := λ A a, Ok a.
#[export] Instance result_bind E : MBind (result E) :=
  λ A B f m, match m with Ok a => f a | Err e => Err e end.
#[export] Instance result_fmap E : FMap (result E) :=
  λ A B f m, match m with Ok a => Ok (f a) | Err e => Err e end.

#[export] Instance result_eq_dec {E A} `{EqDecision E, EqDecision A} :
  EqDecision (result E A).
Proof. solve_decision. Defined.

Definition is_ok {E A} (r : result E A) : bool :=
  match r with Ok _ => true | Err _ => false end.

(** [Option::ok_or] *)
Definition ok_or {E A} (o : option A) (e : E) : result E A :=
  match o with Some a => Ok a | None => Err e end.

(** [Result::map_err] *)
Definition map_err {E F A} (f : E → F) (r : result E A) : result F A :=
  match r with Ok a => Ok a | Err e => Err (f e) end.

Lemma bind_Ok {E A B} (m : result E A) (f : A → result E B) b :
  m ≫= f = Ok b ↔ ∃ a, m = Ok a ∧ f a = Ok b.
Proof. destruct m; simpl; naive_solver. Qed.

Lemma bind_Err {E A B} (m : result E A) (f : A → result E B) e :
  m ≫= f = Err e ↔ m = Err e ∨ ∃ a, m = Ok a ∧ f a = Err e.
Proof. destruct m; simpl; naive_solver. Qed.

Lemma ok_or_Ok {E A} (o : option A) (e : E) a : ok_or o e = Ok a ↔ o = Some a.
Proof. destruct o; simpl; naive_solver. Qed.

(** A check that fails with a given error. *)
Definition ensure {E} (b : bool) (e : E) : result E unit := if b then Ok () else Err e.

Lemma ensure_Ok {E} b (e : E) u : ensure b e = Ok u ↔ b = true.
Proof. destruct b, u; naive_solver. Qed.

Lemma map_err_Ok {E F A} (f : E → F) (r : result E A) a : map_err f r = Ok a ↔ r = Ok a.
Proof. destruct r; simpl; naive_solver. Qed.

(** ** Updating the first matching element

    [iter_mut().find(p)] followed by a mutation of what was found. *)

Section update_first.
Context {A : Type}.
Implicit Types (p : A → bool) (f : A → A) (l : list A).

Fixpoint find_first p l : option A :=
  match l with
  | [] => None
  | x :: l' => if p x then Some x else find_first p l'
  end.

Fixpoint update_first p f l : list A :=
  match l with
  | [] => []
  | x :: l' => if p x then f x :: l' else x :: update_first p f l'
  end.

Lemma find_first_Some p l x : find_first p l = Some x → x ∈ l ∧ p x = true.
Proof.
  induction l as [|y l IH]; simpl; [done|].
  destruct (p y) eqn:Hp; intros ?; simplify_eq; [set_solver|].
  destruct IH; set_solver.
Qed.

Lemma find_first_None p l : find_first p l = None ↔ ∀ x, x ∈ l → p x = false.
Proof.
  induction l as [|y l IH]; simpl.
  - split; [intros _ x Hx; by apply elem_of_nil in Hx | done].
  - destruct (p y) eqn:Hp.
    + split; [done|]. intros Hall. rewrite (Hall y) in Hp by set_solver. done.
    + rewrite IH. setoid_rewrite elem_of_cons. naive_solver.
Qed.

Lemma length_update_first p f l : length (update_first p f l) = length l.
Proof. induction l as [|y l IH]; simpl; [done|]. destruct (p y); simpl; auto. Qed.

(** Every element after the update is either untouched or the image of
    an element that satisfied the test. *)
Lemma elem_of_update_first p f l y :
  y ∈ update_first p f l → y ∈ l ∨ ∃ x, find_first p l = Some x ∧ y = f x.
Proof.
  induction l as [|z l IH]; simpl; [set_solver|].
  destruct (p z) eqn:Hp; set_solver.
Qed.

Lemma Forall_update_first (P : A → Prop) p f l :
  Forall P l → (∀ x, find_first p l = Some x → P x → P (f x)) →
  Forall P (update_first p f l).
Proof.
  intros HP Hf. induction HP as [|x l Hx HP IH]; simpl in *; [constructor|].
  destruct (p x); constructor; auto.
Qed.

(** A projection the mutation keeps is unchanged pointwise. *)
Lemma fmap_update_first {B} (g : A → B) p f l :
  (∀ x, g (f x) = g x) → g <$> update_first p f l = g <$> l.
Proof.
  intros Hg. induction l as [|x l IH]; csimpl; [done|].
  destruct (p x); csimpl; by rewrite ?Hg, ?IH.
Qed.

Lemma find_first_update_same p f l x :
  (∀ y, p y = true → p (f y) = true) →
  find_first p l = Some x → find_first p (update_first p f l) = Some (f x).
Proof.
  intros Hf. induction l as [|y l IH]; simpl; [done|].
  destruct (p y) eqn:Hp; intros ?; simplify_eq/=.
  - by rewrite Hf.
  - rewrite Hp. auto.
Qed.

Lemma find_first_update_other p q f l :
  (∀ y, p y = true → q y = false ∧ q (f y) = false) →
  find_first q (update_first p f l) = find_first q l.
Proof.
  intros Hpq. induction l as [|y l IH]; simpl; [done|].
  destruct (p y) eqn:Hp; simpl.
  - destruct (Hpq _ Hp) as [-> ->]. done.
  - by rewrite IH.
Qed.

Lemma elem_of_update_first_inv p f l y :
  y ∈ l → y ∈ update_first p f l ∨ find_first p l = Some y.
Proof.
  induction l as [|z l IH]; simpl; [set_solver|].
  destruct (p z) eqn:Hp; set_solver.
Qed.

(** When a projection of the list only ever grows at its end, a search
    that looks at nothing but the projection keeps finding the element at
    the same position. *)
Lemma find_first_prefix {B} (g : A → B) p l k x :
  (∀ y z, g y = g z → p y = p z) →
  g <$> l `prefix_of` g <$> k → find_first p l = Some x →
  ∃ y, find_first p k = Some y ∧ g y = g x.
Proof.
  intros Hp. revert k. induction l as [|z l IH]; intros [|z' k]; csimpl; try done.
  { by intros ?%prefix_nil_not. }
  intros Hpre Hf. pose proof (prefix_cons_inv_1 _ _ _ _ Hpre) as Hz.
  apply prefix_cons_inv_2 in Hpre. rewrite <-(Hp z z') by done.
  destruct (p z); simplify_eq; eauto.
Qed.

Lemma find_first_app p l k :
  find_first p (l ++ k) =
  match find_first p l with Some x => Some x | None => find_first p k end.
Proof. induction l as [|y l IH]; simpl; [done|]. destruct (p y); auto. Qed.
End update_first.

Lemma existsb_cons {A} (p : A → bool) x l : existsb p (x :: l) = p x || existsb p l.
Proof. done. Qed.

Lemma existsb_true {A} (p : A → bool) l : existsb p l = true ↔ ∃ x, x ∈ l ∧ p x = true.
Proof. rewrite existsb_exists. by setoid_rewrite list_elem_of_In. Qed.

Lemma existsb_false {A} (p : A → bool) l : existsb p l = false ↔ ∀ x, x ∈ l → p x = false.
Proof.
  rewrite <-not_true_iff_false, existsb_true. split.
  - intros Hno x Hx. apply not_true_iff_false. eauto.
  - intros Hall (x & Hx & Hp). rewrite Hall in Hp; done.
Qed.

Lemma NoDup_fmap_filter {A B} (f : A → B) (P : A → Prop) `{!∀ x, Decision (P x)} l :
  NoDup (f <$> l) → NoDup (f <$> filter P l).
Proof.
  induction l as [|x l IH]; [done|]. csimpl. intros [Hx Hl]%NoDup_cons.
  rewrite filter_cons. case_decide; [|auto]. csimpl. constructor; [|auto].
  rewrite list_elem_of_fmap in Hx |- *. setoid_rewrite list_elem_of_filter. naive_solver.
Qed.

Lemma filter_all {A} (P : A → Prop) `{!∀ x, Decision (P x)} l : Forall P l → filter P l = l.
Proof.
  induction 1 as [|x l Hx _ IH]; [done|]. by rewrite filter_cons_True, IH by done.
Qed.

Lemma Forall_subset {A} (P : A → Prop) (l k : list A) :
  (∀ x, x ∈ l → x ∈ k) → Forall P k → Forall P l.
Proof. rewrite !Forall_forall. auto. Qed.

Lemma Forall_filter_sub {A} (P Q : A → Prop) `{!∀ x, Decision (Q x)} (l : list A) :
  Forall P l → Forall P (filter Q l).
Proof. apply Forall_subset. intros x. rewrite list_elem_of_filter. naive_solver. Qed.

Lemma Forall_impl_in {A} (P Q : A → Prop) (l : list A) :
  Forall (λ x, P x → Q x) l → Forall P l → Forall Q l.
Proof. rewrite !Forall_forall. auto. Qed.

Lemma list_insert_Permutation {A} (l : list A) i x y :
  l !! i = Some x → <[i := y]> l ≡ₚ y :: delete i l.
Proof.
  revert i. induction l as [|z l IH]; intros [|i]; simpl; intros Hi; simplify_eq; [done|].
  rewrite IH by done. apply Permutation_swap.
Qed.

Lemma elem_of_delete {A} (l : list A) i x : x ∈ delete i l → x ∈ l.
Proof.
  destruct (l !! i) as [y|] eqn:Hi.
  - rewrite (delete_Permutation _ _ _ Hi) at 2. by right.
  - rewrite delete_take_drop. apply lookup_ge_None in Hi.
    by rewrite take_ge, drop_ge, app_nil_r by lia.
Qed.

(** A property every step keeps holds along every run. *)
Lemma rtc_invariant {A} (R : relation A) (P : A → Prop) x y :
  (∀ a b, R a b → P a → P b) → rtc R x y → P x → P y.
Proof. intros Hstep. induction 1; eauto. Qed.

(** ** Sums *)

Fixpoint sum_with {A} (f : A → Z) (l : list A) : Z :=
  match l with [] => 0 | x :: l' => f x + sum_with f l' end.

Lemma sum_with_app {A} (f : A → Z) l k :
  sum_with f (l ++ k) = sum_with f l + sum_with f k.
Proof. induction l; simpl; lia. Qed.

Lemma sum_with_zero {A} (f : A → Z) l : (∀ x, x ∈ l → f x = 0) → sum_with f l = 0.
Proof.
  induction l as [|x l IH]; [done|]. intros Hz. simpl. rewrite (Hz x) by by left.
  rewrite IH; [done|]. intros y Hy. apply Hz. by right.
Qed.
Lemma sum_with_nonneg {A} (f : A → Z) l : (∀ x, 0 <= f x) → 0 <= sum_with f l.
Proof. intros Hf. induction l as [|x l IH]; simpl; [lia|]. pose proof (Hf x). lia. Qed.

Lemma sum_with_perm {A} (f : A → Z) l l' : l ≡ₚ l' → sum_with f l = sum_with f l'.
Proof. induction 1; simpl; lia. Qed.

Lemma drop_seqZ m n k :
  0 <= k <= n → drop (Z.to_nat k) (seqZ m n) = seqZ (m + k) (n - k).
Proof.
  intros. replace n with (k + (n - k)) at 1 by lia.
  rewrite seqZ_app by lia. apply drop_app_length'. by rewrite length_seqZ.
Qed.

(** ** Strings

    A Rust [String] is its bytes.  [char::is_whitespace] and the
    [is_ascii_*] tests are given on the ASCII range; the bytes of a
    multi-byte character satisfy none of them. *)

Definition byte_val (a : Ascii.ascii) : Z := Z.of_N (Ascii.N_of_ascii a).

Definition is_whitespace (a : Ascii.ascii) : bool :=
  let n := byte_val a in ((9 <=? n) && (n <=? 13)) || (n =? 32).

Definition is_ascii_alphanumeric (a : Ascii.ascii) : bool :=
  let n := byte_val a in
  ((48 <=? n) && (n <=? 57)) || ((65 <=? n) && (n <=? 90)) || ((97 <=? n) && (n <=? 122)).

Fixpoint string_forallb (p : Ascii.ascii → bool) (s : string) : bool :=
  match s with
  | String.EmptyString => true
  | String.String a s' => p a && string_forallb p s'
  end.

(** [s.trim().is_empty()] *)
Definition trim_is_empty (s : string) : bool := string_forallb is_whitespace s.

(** [s.len()], in bytes *)
Definition str_len (s : string) : Z := Z.of_nat (String.length s).

(** ** Automation *)

Create HintDb sandbox.
Create Rewrite HintDb sandbox.
#[export] Hint Resolve len_nonneg sat_add_le : sandbox.
#[export] Hint Rewrite @len_nil @len_cons @len_app @len_map : sandbox.

(** Split every [match]/[if] in sight and close the impossible branches. *)
Ltac split_matches :=
  repeat (case_match; simplify_eq/=; try done).

(** Invert an [Ok]/[Err] equation through the binds that produced it. *)
Ltac inv_result :=
  repeat match goal with
  | H : _ ≫= _ = Ok _ |- _ => apply bind_Ok in H as (? & ? & H)
  | H : ok_or _ _ = Ok _ |- _ => apply ok_or_Ok in H
  | H : map_err _ _ = Ok _ |- _ => apply map_err_Ok in H
  | H : Ok _ = Ok _ |- _ => injection H as H; subst
  | H : Err _ = Err _ |- _ => injection H as H; subst
  | H : Ok _ = Err _ |- _ => discriminate H
  | H : Err _ = Ok _ |- _ => discriminate H
  end.

(** Turn the boolean tests of the code into propositions. *)
Ltac reflect_bools :=
  repeat match goal with
  | H : andb _ _ = true |- _ => apply andb_true_iff in H as [? ?]
  | H : orb _ _ = false |- _ => apply orb_false_iff in H as [? ?]
  | H : negb _ = true |- _ => apply negb_true_iff in H
  | H : negb _ = false |- _ => apply negb_false_iff in H
  | H : bool_decide _ = true |- _ => apply bool_decide_eq_true in H
  | H : bool_decide _ = false |- _ => apply bool_decide_eq_false in H
  | H : (_ <? _) = true |- _ => apply Z.ltb_lt in H
  | H : (_ <? _) = false |- _ => apply Z.ltb_ge in H
  | H : (_ <=? _) = true |- _ => apply Z.leb_le in H
  | H : (_ <=? _) = false |- _ => apply Z.leb_gt in H
  | H : (_ =? _) = true |- _ => apply Z.eqb_eq in H
  | H : (_ =? _) = false |- _ => apply Z.eqb_neq in H
  | H : ¬ (_ ≠ _) |- _ => apply dec_stable in H
  end.

(** ** Hash maps

    The order in which a hash map is iterated: every entry once, in some order. *)

Class MapIter : Type := {
  iter : ∀ {A}, gmap string A → list (string * A);
  iter_perm : ∀ {A} (m : gmap string A), iter m ≡ₚ map_to_list m;
}.

(** An order for sample runs. *)
Definition sample_iter : MapIter :=
  {| iter := λ A m, map_to_list m; iter_perm := λ A m, Permutation_refl _ |}.

Lemma elem_of_iter `{MapIter} {A} (m : gmap string A) k x : (k, x) ∈ iter m ↔ m !! k = Some x.
Proof. rewrite iter_perm. apply elem_of_map_to_list. Qed.
