(* ===== verification/Text.v ===== *)
(** * [str] methods of the standard library

    Rust strings are their UTF-8 bytes.  These are the methods of [str] the
    modelled components call: trimming (Unicode [White_Space] in its UTF-8
    form), splitting, prefixes and suffixes, ASCII case and the decimal
    parsers, with the facts the components use: splitting is undone by
    joining, and printed numbers parse back. *)

From Stdlib Require Import Ascii.
From Stdlib Require Import Ascii.
From S2P Require Import Prelude.

Local Open Scope string_scope.
Local Open Scope list_scope.
Local Open Scope Z_scope.

Implicit Types (s t : string) (a c : Ascii.ascii).

(** ** Trimming *)

(** The characters of Unicode's [White_Space] beyond ASCII: two bytes
    (U+0085, U+00A0) or three (U+1680, U+2000 to U+200A, U+2028, U+2029,
    U+202F, U+205F, U+3000). *)
Definition ws2 (x y : Z) : bool := (x =? 194) && ((y =? 133) || (y =? 160)).
Definition ws3 (x y z : Z) : bool :=
  ((x =? 225) && (y =? 154) && (z =? 128))
  || ((x =? 226) && (y =? 128)
      && (((128 <=? z) && (z <=? 138)) || (z =? 168) || (z =? 169) || (z =? 175)))
  || ((x =? 226) && (y =? 129) && (z =? 159))
  || ((x =? 227) && (y =? 128) && (z =? 128)).

(** Drop leading characters, given the tests on one, two and three bytes. *)
Fixpoint trim_by (p2 : Z → Z → bool) (p3 : Z → Z → Z → bool) s : string :=
  match s with
  | EmptyString => EmptyString
  | String.String a s1 =>
      if is_whitespace a then trim_by p2 p3 s1
      else match s1 with
        | EmptyString => s
        | String.String b s2 =>
            if p2 (byte_val a) (byte_val b) then trim_by p2 p3 s2
            else match s2 with
              | EmptyString => s
              | String.String d s3 =>
                  if p3 (byte_val a) (byte_val b) (byte_val d) then trim_by p2 p3 s3 else s
              end
        end
  end.

Fixpoint str_rev_app s t : string :=
  match s with EmptyString => t | String.String a s' => str_rev_app s' (String.String a t) end.
Definition str_rev s : string := str_rev_app s EmptyString.

Definition trim_start s : string := trim_by ws2 ws3 s.
Definition trim_end s : string :=
  str_rev (trim_by (λ x y, ws2 y x) (λ x y z, ws3 z y x) (str_rev s)).

(** The order of [str]. *)
Definition string_le (x y : string) : Prop := String.leb x y = true.
#[export] Instance string_le_dec x y : Decision (string_le x y) := decide (String.leb x y = true).

(** [str::trim] *)
Definition trim s : string := trim_end (trim_start s).

(** ** Searching and splitting *)

Definition starts_with s p : bool := String.prefix p s.

Definition ends_with s p : bool := String.prefix (str_rev p) (str_rev s).

Fixpoint strip_prefix s p {struct p} : option string :=
  match p, s with
  | EmptyString, _ => Some s
  | String.String a p', String.String b s' =>
      if Ascii.eqb a b then strip_prefix s' p' else None
  | _, _ => None
  end.

Fixpoint contains_char s c : bool :=
  match s with
  | EmptyString => false
  | String.String a s' => Ascii.eqb a c || contains_char s' c
  end.

(** [s.contains(p)] *)
Fixpoint contains_str s p : bool :=
  starts_with s p || match s with EmptyString => false | String.String _ s' => contains_str s' p end.

(** [s.split(c)]: always at least one part. *)
Fixpoint split_char c s : list string :=
  match s with
  | EmptyString => [EmptyString]
  | String.String a s' =>
      if Ascii.eqb a c then EmptyString :: split_char c s'
      else match split_char c s' with
        | p :: ps => String.String a p :: ps
        | [] => [String.String a EmptyString]
        end
  end.

(** [s.split_once(c)]: the part before the first separator, and the rest. *)
Fixpoint split_once c s : option (string * string) :=
  match s with
  | EmptyString => None
  | String.String a s' =>
      if Ascii.eqb a c then Some (EmptyString, s')
      else '(x, y) ← split_once c s'; Some (String.String a x, y)
  end.

(** [s.rsplit_once(c)] *)
Definition rsplit_once c s : option (string * string) :=
  match reverse (split_char c s) with
  | [] | [_] => None
  | last :: rest =>
      Some (String.concat (String.String c EmptyString) (reverse rest), last)
  end.

(** [code.replace('.', '-')] *)
Fixpoint dots_to_dashes s : string :=
  match s with
  | EmptyString => EmptyString
  | String.String c s' => String.String (if Ascii.eqb c "."%char then "-"%char else c) (dots_to_dashes s')
  end.

(** [s.replace(from, to)] for a non-empty [from]. *)
Fixpoint replace_from (from to : string) (skip : nat) (s : string) : string :=
  match s with
  | EmptyString => EmptyString
  | String.String a rest =>
      match skip with
      | S skip => replace_from from to skip rest
      | O => if starts_with s from
             then to +:+ replace_from from to (pred (String.length from)) rest
             else String.String a (replace_from from to 0 rest)
      end
  end.

(** [s.trim_start_matches(c)], [s.trim_end_matches(c)] and [s.trim_matches(c)] *)
Fixpoint trim_start_matches c s : string :=
  match s with
  | String.String a s' => if Ascii.eqb a c then trim_start_matches c s' else s
  | EmptyString => EmptyString
  end.
Definition trim_end_matches c s : string := str_rev (trim_start_matches c (str_rev s)).
Definition trim_matches c s : string := trim_end_matches c (trim_start_matches c s).

(** ** ASCII case and classes *)

Definition is_ascii_uppercase a : bool := (65 <=? byte_val a) && (byte_val a <=? 90).
Definition is_ascii_lowercase a : bool := (97 <=? byte_val a) && (byte_val a <=? 122).
Definition is_ascii_digit a : bool := (48 <=? byte_val a) && (byte_val a <=? 57).
Definition is_ascii_hexdigit a : bool :=
  is_ascii_digit a || ((65 <=? byte_val a) && (byte_val a <=? 70))
  || ((97 <=? byte_val a) && (byte_val a <=? 102)).

Definition lower_byte a : Ascii.ascii :=
  if is_ascii_uppercase a then Ascii.ascii_of_N (Ascii.N_of_ascii a + 32) else a.

(** [to_ascii_lowercase] *)
Fixpoint to_ascii_lowercase s : string :=
  match s with
  | EmptyString => EmptyString
  | String.String a s' => String.String (lower_byte a) (to_ascii_lowercase s')
  end.

(** [eq_ignore_ascii_case] *)
Definition eq_ignore_ascii_case s t : bool :=
  bool_decide (to_ascii_lowercase s = to_ascii_lowercase t).

(** ** Decimal numbers *)

(** Digits after an accumulated prefix; [None] at a byte that is no digit. *)
Fixpoint digits_from (acc : Z) s : option Z :=
  match s with
  | EmptyString => Some acc
  | String.String a s' =>
      if is_ascii_digit a then digits_from (acc * 10 + (byte_val a - 48)) s' else None
  end.

Definition decimal s : option Z :=
  match s with EmptyString => None | _ => digits_from 0 s end.

(** [s.parse::<uN>()] for the type with maximum [max]: an optional plus sign,
    at least one digit, in range. *)
Definition parse_unsigned (max : Z) s : option Z :=
  let digits := match s with
    | String.String a s' => if Ascii.eqb a "+"%char then s' else s
    | EmptyString => s
    end in
  n ← decimal digits; if n <=? max then Some n else None.

(** [s.parse::<i64>()] *)
Definition parse_i64 s : option Z :=
  match s with
  | String.String a s' =>
      if Ascii.eqb a "-"%char
      then n ← decimal s'; if n <=? i64_max + 1 then Some (- n) else None
      else parse_unsigned i64_max s
  | EmptyString => None
  end.

(** ** Facts *)

Lemma split_char_nonempty c s : split_char c s ≠ [].
Proof. destruct s as [|a s]; simpl; [done|]. by repeat case_match. Qed.

(** Joining the parts with the separator gives the string back. *)
Lemma concat_split c s : String.concat (String.String c EmptyString) (split_char c s) = s.
Proof.
  induction s as [|a s IH]; simpl; [done|].
  destruct (Ascii.eqb_spec a c) as [->|Hne]; simpl.
  - destruct (split_char c s) eqn:E; [by destruct (split_char_nonempty c s)|]. by rewrite IH.
  - destruct (split_char c s) as [|p [|q ps]] eqn:E;
      [by destruct (split_char_nonempty c s)|simpl in *; by subst..].
Qed.

Lemma strip_prefix_Some s p r : strip_prefix s p = Some r ↔ s = p +:+ r.
Proof.
  revert s. induction p as [|a p IH]; intros s.
  { simpl. split; [by intros [= <-]|by intros ->]. }
  change (String.String a p +:+ r) with (String.String a (p +:+ r)).
  destruct s as [|b s]; simpl; [naive_solver|].
  destruct (Ascii.eqb_spec a b) as [->|Hne]; [rewrite IH|]; naive_solver.
Qed.

Lemma strip_prefix_app p s : strip_prefix (p +:+ s) p = Some s.
Proof. by apply strip_prefix_Some. Qed.

Lemma starts_with_app s p : starts_with s p = true ↔ ∃ r, s = p +:+ r.
Proof.
  unfold starts_with. revert s. induction p as [|a p IH]; intros s.
  { destruct s; simpl; (split; [by eexists|done]). }
  change (String.prefix (String.String a p) s = true ↔ ∃ r, s = String.String a (p +:+ r)).
  destruct s as [|b s]; simpl; [naive_solver|].
  destruct (Ascii.ascii_dec a b) as [->|Hne]; [rewrite IH|]; naive_solver.
Qed.

Lemma append_assoc s t u : (s +:+ t) +:+ u = s +:+ (t +:+ u).
Proof.
  induction s as [|a s IH]; [done|].
  change (String.String a ((s +:+ t) +:+ u) = String.String a (s +:+ (t +:+ u))). by rewrite IH.
Qed.

Lemma append_nil_r s : s +:+ EmptyString = s.
Proof.
  induction s as [|a s IH]; [done|].
  change (String.String a (s +:+ EmptyString) = String.String a s). by rewrite IH.
Qed.

Lemma append_inj_l (s t u : string) : s +:+ t = s +:+ u → t = u.
Proof. induction s as [|c s IH]; [done|]. intros Hs. apply IH. by injection Hs as Hs. Qed.

Lemma str_rev_app_spec s t : str_rev_app s t = str_rev s +:+ t.
Proof.
  unfold str_rev. revert t. induction s as [|a s IH]; intros t; simpl; [done|].
  rewrite IH, (IH (String.String a EmptyString)).
  by rewrite append_assoc.
Qed.

Lemma str_rev_append s t : str_rev (s +:+ t) = str_rev t +:+ str_rev s.
Proof.
  unfold str_rev. revert t. induction s as [|a s IH]; intros t; simpl.
  - symmetry. apply append_nil_r.
  - rewrite !(str_rev_app_spec _ (String.String a EmptyString)). unfold str_rev.
    by rewrite IH, append_assoc.
Qed.

Lemma str_rev_involutive s : str_rev (str_rev s) = s.
Proof.
  induction s as [|a s IH]; [done|]. unfold str_rev at 2. simpl.
  rewrite str_rev_app_spec, str_rev_append, IH. done.
Qed.

Lemma ends_with_app s p : ends_with s p = true ↔ ∃ r, s = r +:+ p.
Proof.
  unfold ends_with. fold (starts_with (str_rev s) (str_rev p)). rewrite starts_with_app. split.
  - intros [r Hr]. exists (str_rev r). apply (f_equal str_rev) in Hr.
    by rewrite str_rev_involutive, str_rev_append, str_rev_involutive in Hr.
  - intros [r ->]. exists (str_rev r). apply str_rev_append.
Qed.

(** Decimal text of a natural number parses back to it. *)
Lemma digits_from_app acc s t :
  digits_from acc (s +:+ t) = (v ← digits_from acc s; digits_from v t).
Proof. revert acc. induction s as [|a s IH]; intros acc; simpl; [done|]. by case_match. Qed.

Lemma byte_val_digit (n : N) :
  (n < 10)%N → is_ascii_digit (pretty_N_char n) = true ∧ byte_val (pretty_N_char n) - 48 = Z.of_N n.
Proof.
  intros Hn. assert (n ∈ [0; 1; 2; 3; 4; 5; 6; 7; 8; 9]%N) as Hin by (rewrite !elem_of_cons; lia).
  repeat (apply elem_of_cons in Hin as [->|Hin]; [done|]). by apply elem_of_nil in Hin.
Qed.

Lemma pretty_N_go_spec (x : N) s :
  ∃ t, pretty_N_go x s = t +:+ s ∧ (∀ acc, ∃ k, digits_from acc t = Some (acc * k + Z.of_N x))
    ∧ ((0 < x)%N → t ≠ EmptyString).
Proof.
  revert s. induction (N.lt_wf_0 x) as [x _ IH]. intros s.
  destruct (decide (0 < x)%N) as [Hx|Hx]; last first.
  { replace x with 0%N by lia. rewrite pretty_N_go_0. exists EmptyString.
    repeat split; [intros acc; exists 1; simpl; f_equal; lia|lia]. }
  rewrite pretty_N_go_step by done.
  destruct (IH (x `div` 10)%N (N.div_lt x 10 Hx eq_refl)
    (String.String (pretty_N_char (x `mod` 10)) s)) as (t & Ht & Hd & _).
  exists (t +:+ String.String (pretty_N_char (x `mod` 10)) EmptyString). split; [|split].
  - rewrite Ht. by rewrite append_assoc.
  - intros acc. destruct (Hd acc) as [k Hk]. exists (k * 10). rewrite digits_from_app, Hk. simpl.
    destruct (byte_val_digit (x `mod` 10)) as [-> ->]; [by apply N.mod_lt|]. f_equal.
    pose proof (N.div_mod x 10). lia.
  - intros _. by destruct t.
Qed.

Lemma digits_from_pretty (x : N) : decimal (pretty x) = Some (Z.of_N x).
Proof.
  unfold pretty, pretty_N. case_decide as Hx; [by subst|].
  destruct (pretty_N_go_spec x EmptyString) as (t & Ht & Hd & Hne). rewrite Ht.
  destruct (Hd 0) as [k Hk]. rewrite append_nil_r.
  unfold decimal. destruct t; [by destruct Hne; [lia|]|]. rewrite Hk. by rewrite Z.mul_0_l.
Qed.

(** A printed number does not start with a sign of the parsers. *)
Lemma pretty_N_head (x : N) :
  ∃ a t, pretty x = String.String a t ∧ is_ascii_digit a = true.
Proof.
  pose proof (digits_from_pretty x) as H. destruct (pretty x) as [|a t]; [done|].
  exists a, t. split; [done|]. simpl in H. by destruct (is_ascii_digit a).
Qed.

Lemma parse_unsigned_pretty max n :
  0 <= n <= max → parse_unsigned max (pretty n) = Some n.
Proof.
  intros Hn. assert (pretty n = pretty (Z.to_N n)) as ->.
  { destruct n; [done..|lia]. }
  destruct (pretty_N_head (Z.to_N n)) as (a & t & Ha & Hd). unfold parse_unsigned.
  rewrite Ha. destruct (Ascii.eqb_spec a "+"%char) as [->|_]; [done|]. rewrite <-Ha.
  rewrite digits_from_pretty. simpl. rewrite Z2N.id by lia.
  by rewrite (proj2 (Z.leb_le _ _)) by lia.
Qed.

Lemma parse_i64_pretty n : - (i64_max + 1) <= n <= i64_max → parse_i64 (pretty n) = Some n.
Proof.
  intros Hn. destruct (decide (0 <= n)) as [Hpos|Hneg].
  - pose proof (parse_unsigned_pretty i64_max n ltac:(lia)) as Hp. unfold parse_i64.
    assert (pretty n = pretty (Z.to_N n)) as E by (destruct n; [done..|lia]).
    destruct (pretty_N_head (Z.to_N n)) as (a & t & Ha & Hd). rewrite E, Ha in *.
    destruct (Ascii.eqb_spec a "-"%char) as [->|_]; [done|exact Hp].
  - destruct n as [|p|p]; [lia..|]. change (pretty (Z.neg p)) with ("-" +:+ pretty (Npos p)).
    change ((n ← decimal (pretty (Npos p)); if n <=? i64_max + 1 then Some (- n) else None)
      = Some (Z.neg p)).
    rewrite digits_from_pretty. simpl. by rewrite (proj2 (Z.leb_le _ _)) by lia.
Qed.

Lemma split_once_Some c s x y :
  split_once c s = Some (x, y) → s = x +:+ String.String c y ∧ contains_char x c = false.
Proof.
  revert x. induction s as [|a s IH]; intros x; [done|]. simpl.
  destruct (Ascii.eqb_spec a c) as [->|Hne]; [by intros [= <- <-]|].
  destruct (split_once c s) as [[x' y']|]; [|done]. simpl. intros [= <- <-].
  destruct (IH x' eq_refl) as [-> Hc]. split; [done|]. simpl. rewrite Hc.
  by destruct (Ascii.eqb_spec a c).
Qed.

Lemma split_once_app c x y : contains_char x c = false → split_once c (x +:+ String.String c y) = Some (x, y).
Proof.
  induction x as [|a x IH]; simpl.
  - intros _. by destruct (Ascii.eqb_spec c c).
  - destruct (Ascii.eqb_spec a c); [done|]. simpl. intros Hx. by rewrite IH.
Qed.

Lemma contains_tail s t p : contains_str (s +:+ t) p = false → contains_str t p = false.
Proof.
  induction s as [|c s IH]; [done|]. change (String.String c s +:+ t) with (String.String c (s +:+ t)).
  cbn [contains_str]. intros [_ Hc]%orb_false_iff. by apply IH.
Qed.

(** *** Splitting what was joined *)

Lemma split_char_absent c s : contains_char s c = false → split_char c s = [s].
Proof.
  induction s as [|a s IH]; [done|]. cbn [contains_char split_char]. intros [Ha Hs]%orb_false_iff.
  by rewrite Ha, IH.
Qed.

Lemma contains_char_append c s t : contains_char (s +:+ t) c = contains_char s c || contains_char t c.
Proof.
  induction s as [|a s IH]; [done|]. change (String.String a s +:+ t) with (String.String a (s +:+ t)).
  cbn [contains_char]. by rewrite IH, orb_assoc.
Qed.

Lemma length_append s t : String.length (s +:+ t) = (String.length s + String.length t)%nat.
Proof.
  induction s as [|a s IH]; [done|]. change (String.String a s +:+ t) with (String.String a (s +:+ t)).
  cbn [String.length]. by rewrite IH.
Qed.

Lemma split_char_app c x y :
  contains_char x c = false → split_char c (x +:+ String.String c y) = x :: split_char c y.
Proof.
  induction x as [|a x IH]; intros Hx.
  - change (EmptyString +:+ String.String c y) with (String.String c y). cbn [split_char]. by rewrite Ascii.eqb_refl.
  - cbn [contains_char] in Hx. apply orb_false_iff in Hx as [Ha Hx].
    change (String.String a x +:+ String.String c y) with (String.String a (x +:+ String.String c y)).
    cbn [split_char]. by rewrite Ha, IH.
Qed.
