(* ===== verification/Http.v ===== *)
(** * HTTP requests and responses

    What the modelled handlers and middleware see of [axum] and [http]: header
    maps, the parts of a request and of a response they read, and the status
    codes they answer with. *)

From S2P Require Import Prelude Text.

Local Open Scope string_scope.
Local Open Scope list_scope.
Local Open Scope Z_scope.

(** A header name (lower case) with its value; [None] is a value [to_str]
    refuses. *)
Abbreviation HeaderMap := (list (string * option string)).

(** [headers.get(name)]: the first value. *)
Definition header_value (headers : HeaderMap) (name : string) : option (option string) :=
  snd <$> find_first (λ h, bool_decide (h.1 = name)) headers.

(** [headers.get(name).and_then(|value| value.to_str().ok())] *)
Definition header (headers : HeaderMap) (name : string) : option string :=
  find_first (λ h, bool_decide (h.1 = name)) headers ≫= snd.

(** [headers.insert(name, value)]: replaces every value of the name. *)
Definition header_insert (headers : HeaderMap) (name value : string) : HeaderMap :=
  filter (λ h, h.1 ≠ name) headers ++ [(name, Some value)].

Record Request : Type := {
  req_method : string;
  req_path : string;
  req_headers : HeaderMap;
  req_body : string;
}.

Record HttpResponse : Type := {
  resp_status : Z;
  resp_headers : HeaderMap;
  resp_body : string;
}.

Definition OK : Z := 200.
Definition CREATED : Z := 201.
Definition ACCEPTED : Z := 202.
Definition NO_CONTENT : Z := 204.
Definition BAD_REQUEST : Z := 400.
Definition UNAUTHORIZED : Z := 401.
Definition FORBIDDEN : Z := 403.
Definition NOT_FOUND : Z := 404.
Definition CONFLICT : Z := 409.
Definition PAYLOAD_TOO_LARGE : Z := 413.
Definition UNSUPPORTED_MEDIA_TYPE : Z := 415.
Definition UNPROCESSABLE_ENTITY : Z := 422.
Definition TOO_MANY_REQUESTS : Z := 429.
Definition INTERNAL_SERVER_ERROR : Z := 500.
Definition BAD_GATEWAY : Z := 502.
Definition SERVICE_UNAVAILABLE : Z := 503.

Definition is_success (status : Z) : bool := (200 <=? status) && (status <? 300).
Definition is_server_error (status : Z) : bool := (500 <=? status) && (status <? 600).

Lemma header_insert_eq headers name value :
  header (header_insert headers name value) name = Some value.
Proof.
  unfold header, header_insert. rewrite find_first_app.
  destruct (find_first _ (filter _ _)) as [h|] eqn:E; simpl.
  - apply find_first_Some in E as [Hin Hn]. apply list_elem_of_filter in Hin as [Hne _].
    by apply bool_decide_eq_true in Hn.
  - by rewrite bool_decide_true.
Qed.
