(* ===== verification/Json.v ===== *)
(** * [serde_json::Value] and the environment of the pure code

    The JSON values the management plane stores and inspects, with the map
    operations of [serde_json::Map] that the source calls (the crate is built
    without [preserve_order], so a map is a [BTreeMap]: sorted by key), and
    the class [Env] of what the modelled code takes from third-party crates:
    RFC 3339 text ([chrono]), JSON text ([serde_json]), the JCS + SHA-256
    digest ([serde_jcs], [sha2], [hex]) and UUIDs ([uuid]). *)

From S2P Require Import Prelude Text.

Local Open Scope string_scope.
Local Open Scope list_scope.

#[warnings="-register-all"] Inductive json : Type :=
| JNull
| JBool (b : bool)
| JNum (n : Z)
| JStr (s : string)
| JArr (l : list json)
| JObj (m : list (string * json)).

Abbreviation json_map := (list (string * json)).

(** [Map::get] *)
Fixpoint map_get (m : json_map) (k : string) : option json :=
  match m with
  | [] => None
  | (k', v) :: m' => if decide (k' = k) then Some v else map_get m' k
  end.

(** [Map::insert]: replaces the value of a present key, keeps the map sorted. *)
Fixpoint map_insert (m : json_map) (k : string) (v : json) : json_map :=
  match m with
  | [] => [(k, v)]
  | (k', v') :: m' =>
      if decide (k' = k) then (k, v) :: m'
      else if String.ltb k k' then (k, v) :: (k', v') :: m'
      else (k', v') :: map_insert m' k v
  end.

(** [Map::remove] *)
Fixpoint map_remove (m : json_map) (k : string) : json_map :=
  match m with
  | [] => []
  | (k', v') :: m' => if decide (k' = k) then m' else (k', v') :: map_remove m' k
  end.

(** [Value::get] with a string index: [None] unless the value is an object. *)
Definition json_get (v : json) (k : string) : option json :=
  match v with JObj m => map_get m k | _ => None end.

(** [Value::as_object] and [Value::as_str] *)
Definition as_object (v : json) : option json_map :=
  match v with JObj m => Some m | _ => None end.
Definition as_str (v : json) : option string :=
  match v with JStr s => Some s | _ => None end.

(** [Value::as_u64] *)
Definition json_u64 (v : json) : option Z :=
  match v with JNum n => if (0 <=? n)%Z && (n <=? u64_max)%Z then Some n else None | _ => None end.

(** [value[k]]: [null] when there is none. *)
Definition json_index (v : json) (k : string) : json := default JNull (json_get v k).

(** [value.pointer(p)], for pointers of plain keys. *)
Definition pointer (v : json) (p : string) : option json :=
  match split_char (Ascii.ascii_of_nat 47) p with
  | EmptyString :: parts => foldl (λ v k, v ≫= λ v, json_get v k) (Some v) parts
  | _ => None
  end.

(** [value[k] = v]: an object is extended, [null] becomes an object, every
    other value panics ([None]). *)
Definition json_index_set (v : json) (k : string) (x : json) : option json :=
  match v with
  | JObj m => Some (JObj (map_insert m k x))
  | JNull => Some (JObj [(k, x)])
  | _ => None
  end.

(** [json!({...})]: the literal inserts its keys one by one. *)
Definition json_obj (kvs : list (string * json)) : json :=
  JObj (foldl (λ m kv, map_insert m kv.1 kv.2) [] kvs).

(** [Value::as_array] and [Map::contains_key] *)
Definition as_array (v : json) : option (list json) :=
  match v with JArr l => Some l | _ => None end.
Definition contains_key (m : json_map) (k : string) : bool := bool_decide (is_Some (map_get m k)).

(** [Map::retain] on the keys *)
Definition retain (p : string → bool) (m : json_map) : json_map :=
  filter (λ kv, p kv.1 = true) m.

(** [collect::<Map<_, _>>()] *)
Definition map_collect (kvs : list (string * json)) : json_map :=
  foldl (λ m kv, map_insert m kv.1 kv.2) [] kvs.

(** The nesting depth of a value, the fuel of recursions over values. *)
Fixpoint json_depth (v : json) : nat :=
  match v with
  | JArr l => S (foldr (λ x d, max (json_depth x) d) 0%nat l)
  | JObj m => S (foldr (λ kv d, max (json_depth kv.2) d) 0%nat m)
  | _ => 1%nat
  end.

(** What the modelled code takes from its third-party crates. *)
Class Env : Type := {
  (** [DateTime<Utc>::to_rfc3339] (and serde's rendering of a timestamp) *)
  rfc3339 : Z → string;
  (** [serde_json::to_string] of a [Value] and [serde_json::from_str] *)
  json_text : json → string;
  json_parse : string → option json;
  (** [hex(SHA-256(JCS(v)))]; canonicalization can fail *)
  jcs_sha256 : json → result string string;
  (** the i-th UUID drawn, in simple form *)
  uuid : Z → string;
}.

(** A concrete environment, for witnesses and sample runs: timestamps and
    digests carry the length of what they were computed from. *)
Fixpoint json_size (v : json) : Z :=
  match v with
  | JNull => 1
  | JBool _ => 1
  | JNum n => 1 + Z.abs n
  | JStr s => 1 + Z.of_nat (String.length s)
  | JArr l => 1 + (fix go (l : list json) : Z :=
      match l with [] => 0 | x :: l' => json_size x + go l' end) l
  | JObj m => 1 + (fix go (m : list (string * json)) : Z :=
      match m with
      | [] => 0
      | (k, x) :: m' => Z.of_nat (String.length k) + json_size x + go m'
      end) m
  end.

(** The text of a JSON value in that environment: its generic tree as a
    number, written in binary. *)
Fixpoint json_tree (v : json) : gen_tree (bool + Z + string) :=
  match v with
  | JNull => GenNode 0 []
  | JBool b => GenLeaf (inl (inl b))
  | JNum n => GenLeaf (inl (inr n))
  | JStr s => GenLeaf (inr s)
  | JArr l => GenNode 1 (json_tree <$> l)
  | JObj m => GenNode 2 ((λ kv, GenNode 3 [GenLeaf (inr kv.1); json_tree kv.2]) <$> m)
  end.

Fixpoint tree_json (t : gen_tree (bool + Z + string)) : json :=
  match t with
  | GenLeaf (inl (inl b)) => JBool b
  | GenLeaf (inl (inr n)) => JNum n
  | GenLeaf (inr s) => JStr s
  | GenNode 0 _ => JNull
  | GenNode 1 l => JArr (tree_json <$> l)
  | GenNode _ l => JObj ((λ kv, match kv with
      | GenNode _ [GenLeaf (inr k); v] => (k, tree_json v)
      | _ => (EmptyString, JNull)
      end) <$> l)
  end.

Definition bit_char (b : bool) : Ascii.ascii :=
  Ascii.Ascii b false false false true true false false.

Fixpoint bits_text (p : positive) : string :=
  match p with
  | xH => EmptyString
  | xO q => String.String (bit_char false) (bits_text q)
  | xI q => String.String (bit_char true) (bits_text q)
  end.

Fixpoint text_bits (s : string) : positive :=
  match s with
  | EmptyString => xH
  | String.String (Ascii.Ascii b _ _ _ _ _ _ _) s' =>
      if b then xI (text_bits s') else xO (text_bits s')
  end.

#[local] Instance sample_env : Env := {|
  rfc3339 := λ t, pretty.pretty t;
  json_text := λ v, bits_text (encode (json_tree v));
  json_parse := λ s, tree_json <$> decode (text_bits s);
  jcs_sha256 := λ v, Ok (pretty.pretty (json_size v));
  uuid := λ i, pretty.pretty i;
|}.

Section map_lemmas.
Implicit Types (m : json_map) (k : string) (v : json).

Lemma map_get_insert_eq m k v : map_get (map_insert m k v) k = Some v.
Proof.
  induction m as [|[k' v'] m IH]; simpl; [by case_decide|].
  repeat case_decide; simplify_eq/=; [by rewrite decide_True|].
  case_match; simpl; repeat case_decide; simplify_eq/=; done.
Qed.

Lemma map_get_insert_ne m k k' v :
  k ≠ k' → map_get (map_insert m k v) k' = map_get m k'.
Proof.
  intros Hne. induction m as [|[k1 v1] m IH]; simpl; [by rewrite decide_False|].
  repeat first [case_decide | case_match]; simplify_eq/=;
    repeat case_decide; simplify_eq/=; congruence.
Qed.

Lemma map_insert_insert m k v w : map_insert (map_insert m k v) k w = map_insert m k w.
Proof.
  induction m as [|[k' v'] m IH]; simpl; [by rewrite decide_True|].
  destruct (decide (k' = k)) as [->|Hne]; simpl; [by rewrite decide_True|].
  destruct (String.ltb k k') eqn:Hlt; simpl; [by rewrite decide_True|].
  by rewrite decide_False, Hlt, IH.
Qed.

Lemma map_get_remove_ne m k k' :
  k ≠ k' → map_get (map_remove m k) k' = map_get m k'.
Proof.
  intros Hne. induction m as [|[k1 v1] m IH]; simpl; [done|].
  repeat case_decide; simplify_eq/=; try done.
  - by rewrite decide_True.
  - by rewrite decide_False.
Qed.

Lemma map_remove_absent m k : map_get m k = None → map_remove m k = m.
Proof.
  induction m as [|[k1 v1] m IH]; simpl; [done|].
  case_decide; [done|]. intros. by rewrite IH.
Qed.
End map_lemmas.

#[export] Hint Rewrite map_get_insert_eq : sandbox.
#[export] Hint Rewrite map_get_insert_ne map_get_remove_ne using done : sandbox.

(** ** Sorted maps: what a [BTreeMap] always is *)

Definition sorted_map (m : json_map) : Prop :=
  StronglySorted (λ a b, String.ltb a b = true) m.*1.

Lemma string_ltb_trans a b c :
  String.ltb a b = true → String.ltb b c = true → String.ltb a c = true.
Proof.
  unfold String.ltb. revert b c.
  induction a as [|x a IH]; intros [|y b] [|z c]; simpl; try done.
  unfold Ascii.compare. specialize (IH b c).
  destruct (N.compare_spec (Ascii.N_of_ascii x) (Ascii.N_of_ascii y)) as [Hxy|Hxy|Hxy];
    destruct (N.compare_spec (Ascii.N_of_ascii y) (Ascii.N_of_ascii z)) as [Hyz|Hyz|Hyz];
    destruct (N.compare_spec (Ascii.N_of_ascii x) (Ascii.N_of_ascii z)) as [Hxz|Hxz|Hxz];
    try done; lia.
Qed.

Lemma string_ltb_irrefl a : String.ltb a a = false.
Proof.
  unfold String.ltb. induction a as [|x a IH]; simpl; [done|].
  unfold Ascii.compare. by rewrite N.compare_refl.
Qed.

Lemma sorted_map_above m k :
  Forall (λ b, String.ltb k b = true) m.*1 → map_get m k = None.
Proof.
  induction m as [|[k' v] m IH]; csimpl; [done|]. intros [Hk Hm]%Forall_cons.
  rewrite decide_False; [auto|]. intros ->. by rewrite string_ltb_irrefl in Hk.
Qed.

Lemma map_remove_insert m k v :
  sorted_map m → map_remove (map_insert m k v) k = map_remove m k.
Proof.
  unfold sorted_map. induction m as [|[k' v'] m IH]; csimpl; [by rewrite decide_True|].
  intros Hs. apply StronglySorted_inv in Hs as [Hm Hk].
  destruct (decide (k' = k)) as [->|Hne]; simpl; [by rewrite decide_True|].
  destruct (String.ltb k k') eqn:Hlt; simpl; [|by rewrite decide_False, IH].
  rewrite decide_True by done. f_equal. symmetry. apply map_remove_absent, sorted_map_above.
  eapply Forall_impl; [exact Hk|]. intros b Hb. by eapply string_ltb_trans.
Qed.

Lemma string_ltb_total a b : String.ltb a b = false → a ≠ b → String.ltb b a = true.
Proof.
  unfold String.ltb. intros Hab Hne. rewrite String.compare_antisym.
  destruct (String.compare a b) eqn:E; simpl; [|done..].
  by apply String.compare_eq_iff in E.
Qed.

Lemma map_insert_keys m k v : ∀ b, b ∈ (map_insert m k v).*1 → b = k ∨ b ∈ m.*1.
Proof.
  induction m as [|[k' v'] m IH]; simpl; intros b; [set_solver|].
  repeat case_match; csimpl; set_solver.
Qed.

Lemma sorted_map_insert m k v : sorted_map m → sorted_map (map_insert m k v).
Proof.
  unfold sorted_map. induction m as [|[k' v'] m IH]; csimpl; [by repeat constructor|].
  intros Hs. apply StronglySorted_inv in Hs as [Hm Hk].
  destruct (decide (k' = k)) as [->|Hne]; csimpl; [by constructor|].
  destruct (String.ltb k k') eqn:Hlt; csimpl.
  - constructor; [by constructor|]. constructor; [done|].
    eapply Forall_impl; [exact Hk|]. intros b Hb. by eapply string_ltb_trans.
  - constructor; [by apply IH|]. apply Forall_forall. intros b [->|Hb]%map_insert_keys.
    + by apply string_ltb_total.
    + by eapply Forall_forall in Hk.
Qed.

Lemma sorted_map_collect kvs : sorted_map (map_collect kvs).
Proof.
  unfold map_collect. assert (sorted_map []) as H by constructor. revert H.
  generalize (@nil (string * json)). induction kvs as [|[k v] kvs IH]; simpl; [done|].
  intros m Hm. by apply IH, sorted_map_insert.
Qed.

Lemma sorted_map_remove m k : sorted_map m → sorted_map (map_remove m k).
Proof.
  unfold sorted_map. induction m as [|[k' v'] m IH]; csimpl; [done|].
  intros Hs. apply StronglySorted_inv in Hs as [Hm Hk].
  case_decide; [done|]. csimpl. constructor; [auto|].
  apply (Forall_subset _ _ m.*1); [|exact Hk]. clear. induction m as [|[k1 v1] m IH]; csimpl; [done|].
  case_decide; csimpl; set_solver.
Qed.

Lemma sorted_map_filter (P : string * json → Prop) `{!∀ x, Decision (P x)} m :
  sorted_map m → sorted_map (filter P m).
Proof.
  unfold sorted_map. induction m as [|[k v] m IH]; csimpl; [done|]. intros Hs.
  apply StronglySorted_inv in Hs as [Hm Hk]. rewrite filter_cons. case_decide; [|auto].
  csimpl. constructor; [auto|]. apply (Forall_subset _ _ m.*1); [|exact Hk].
  intros x (y & -> & Hy)%list_elem_of_fmap. apply list_elem_of_filter in Hy as [_ Hy].
  by apply list_elem_of_fmap_2.
Qed.

Lemma sorted_map_fmap (f : string → json → json) m :
  sorted_map m → sorted_map ((λ kv, (kv.1, f kv.1 kv.2)) <$> m).
Proof. unfold sorted_map. by rewrite <-list_fmap_compose. Qed.

Lemma map_get_not_key m k : k ∉ m.*1 → map_get m k = None.
Proof.
  induction m as [|[k' v] m IH]; csimpl; [done|]. intros Hk. rewrite decide_False by set_solver.
  apply IH. set_solver.
Qed.

Lemma map_get_key m k v : map_get m k = Some v → k ∈ m.*1.
Proof.
  intros Hg. destruct (decide (k ∈ m.*1)) as [|Hk]; [done|]. by rewrite map_get_not_key in Hg.
Qed.

Lemma map_get_elem m k v : map_get m k = Some v → (k, v) ∈ m.
Proof.
  induction m as [|[k' v'] m IH]; simpl; [done|]. case_decide; intros ?; simplify_eq; set_solver.
Qed.

Lemma sorted_map_elem m k v : sorted_map m → (k, v) ∈ m → map_get m k = Some v.
Proof.
  unfold sorted_map. induction m as [|[k' v'] m IH]; csimpl; [set_solver|]. intros Hs Hin.
  apply StronglySorted_inv in Hs as [Hm Hk]. apply elem_of_cons in Hin as [[= -> ->]|Hin].
  - by rewrite decide_True.
  - rewrite decide_False; [auto|]. intros ->. rewrite Forall_forall in Hk.
    specialize (Hk k (list_elem_of_fmap_2 fst _ _ Hin)). by rewrite string_ltb_irrefl in Hk.
Qed.

(** A test for concrete maps. *)
Fixpoint sorted_keys (ks : list string) : bool :=
  match ks with
  | a :: ((b :: _) as rest) => String.ltb a b && sorted_keys rest
  | _ => true
  end.

Lemma sorted_keys_sorted m : sorted_keys m.*1 = true → sorted_map m.
Proof.
  unfold sorted_map. intros Hs. apply Sorted_StronglySorted.
  { intros a b c. apply string_ltb_trans. }
  induction (m.*1) as [|a [|b ks] IH]; [constructor|by repeat constructor|].
  apply andb_true_iff in Hs as [Hab Hs]. constructor; [auto|]. by constructor.
Qed.

(** Sorted maps with the same entries are the same list. *)
Lemma sorted_map_ext m1 m2 :
  sorted_map m1 → sorted_map m2 → (∀ k, map_get m1 k = map_get m2 k) → m1 = m2.
Proof.
  unfold sorted_map. revert m2. induction m1 as [|[k v] m1 IH]; intros [|[k2 v2] m2]; csimpl.
  - done.
  - intros _ _ H. specialize (H k2). by rewrite decide_True in H.
  - intros _ _ H. specialize (H k). by rewrite decide_True in H.
  - intros S1 S2 H. apply StronglySorted_inv in S1 as [S1 F1], S2 as [S2 F2].
    assert (k = k2) as <-.
    { destruct (decide (k = k2)) as [|Hne]; [done|]. exfalso.
      pose proof (H k) as Hk. pose proof (H k2) as Hk2.
      rewrite decide_True, decide_False in Hk by done. rewrite decide_False, decide_True in Hk2 by done.
      symmetry in Hk. apply map_get_key in Hk, Hk2.
      pose proof (proj1 (Forall_forall _ _) F1 _ Hk2) as L1.
      pose proof (proj1 (Forall_forall _ _) F2 _ Hk) as L2.
      pose proof (string_ltb_trans _ _ _ L1 L2) as L. by rewrite string_ltb_irrefl in L. }
    pose proof (H k) as Hk. rewrite !decide_True in Hk by done. simplify_eq.
    f_equal. apply IH; [done..|]. intros k'. specialize (H k').
    destruct (decide (k = k')) as [->|]; [|done].
    by rewrite !sorted_map_above by done.
Qed.

Lemma map_get_retain p m k : map_get (retain p m) k = if p k then map_get m k else None.
Proof.
  unfold retain. induction m as [|[k' v] m IH]; simpl; [by destruct (p k)|].
  rewrite filter_cons. simpl. destruct (decide (p k' = true)) as [Hp|Hp]; simpl.
  - case_decide; [subst; by rewrite Hp|done].
  - rewrite IH. case_decide; [subst; by destruct (p k)|done].
Qed.

Lemma map_get_fmap (f : string → json → json) m k :
  map_get ((λ kv, (kv.1, f kv.1 kv.2)) <$> m) k = f k <$> map_get m k.
Proof.
  induction m as [|[k' v] m IH]; csimpl; [done|]. case_decide; [by subst|done].
Qed.

Lemma map_get_remove_eq m k : sorted_map m → map_get (map_remove m k) k = None.
Proof.
  unfold sorted_map. induction m as [|[k' v] m IH]; csimpl; [done|]. intros Hs.
  apply StronglySorted_inv in Hs as [Hm Hk]. destruct (decide (k' = k)) as [->|].
  - by apply sorted_map_above.
  - simpl. rewrite decide_False by done. auto.
Qed.

Lemma map_collect_sorted m : sorted_map m → map_collect m = m.
Proof.
  intros Hs. apply sorted_map_ext; [apply sorted_map_collect|done|]. intros k.
  assert (∀ l acc, sorted_map l →
    map_get (foldl (λ m kv, map_insert m kv.1 kv.2) acc l) k =
    match map_get l k with Some v => Some v | None => map_get acc k end) as Hgen.
  { unfold sorted_map. induction l as [|[k1 v1] l IH]; csimpl; [done|]. intros acc Hl.
    apply StronglySorted_inv in Hl as [Hl Hk1]. rewrite IH by done.
    destruct (decide (k1 = k)) as [->|].
    - rewrite sorted_map_above by done. apply map_get_insert_eq.
    - by rewrite map_get_insert_ne. }
  unfold map_collect. rewrite Hgen by done. by destruct (map_get m k).
Qed.

Lemma contains_key_true m k : contains_key m k = true ↔ ∃ v, map_get m k = Some v.
Proof. unfold contains_key. by rewrite bool_decide_eq_true. Qed.

Lemma contains_key_false m k : contains_key m k = false ↔ map_get m k = None.
Proof. unfold contains_key. rewrite bool_decide_eq_false. by rewrite eq_None_not_Some. Qed.

(** ** Induction through arrays and objects *)

Fixpoint json_nested_ind (P : json → Prop)
    (Hnull : P JNull) (Hbool : ∀ b, P (JBool b)) (Hnum : ∀ n, P (JNum n)) (Hstr : ∀ s, P (JStr s))
    (Harr : ∀ l, Forall P l → P (JArr l)) (Hobj : ∀ m, Forall (λ kv, P kv.2) m → P (JObj m))
    (v : json) : P v.
Proof.
  destruct v as [|b|n|s|l|m]; [auto..| |].
  - apply Harr. induction l; constructor; [|done]. by apply json_nested_ind.
  - apply Hobj. induction m as [|[k x] m IH]; constructor; [|done]. by apply json_nested_ind.
Qed.

(** ** The JSON text of the sample environment parses back *)

Fixpoint tree_json_tree (v : json) : tree_json (json_tree v) = v.
Proof.
  destruct v as [| | | |l|m]; [reflexivity..| |].
  - simpl. f_equal. induction l as [|x l IH]; simpl; [reflexivity|].
    f_equal; [apply tree_json_tree|exact IH].
  - simpl. f_equal. induction m as [|[k x] m IH]; simpl; [reflexivity|].
    f_equal; [f_equal; apply tree_json_tree|exact IH].
Qed.

#[export] Instance json_eq_dec : EqDecision json.
Proof.
  intros x y. destruct (decide (json_tree x = json_tree y)) as [Heq|Hne]; [left|right; by intros ->].
  by rewrite <-(tree_json_tree x), Heq, tree_json_tree.
Defined.

Lemma text_bits_text p : text_bits (bits_text p) = p.
Proof. induction p; simpl; congruence. Qed.

(** What the code relies on from [serde_json]: text it wrote parses back. *)
Definition json_text_parses (H : Env) : Prop := ∀ v, json_parse (json_text v) = Some v.

Lemma sample_env_text_parses : json_text_parses sample_env.
Proof. intros v. simpl. rewrite text_bits_text, decode_encode. simpl. by rewrite tree_json_tree. Qed.
