(* ===== verification/Net.v ===== *)
(** * IP addresses of the standard library

    [std::net]: addresses as their octets and segments, the predicates and
    conversions the sources call, and the text forms ([Display] and
    [FromStr], following the grammar of the parser in [core::net]). *)

From Stdlib Require Import Ascii.
From S2P Require Import Prelude Text.

Local Open Scope string_scope.
Local Open Scope list_scope.
Local Open Scope Z_scope.

(** ** Addresses *)

Record Ipv4Addr : Type := V4Addr { oct0 : Z; oct1 : Z; oct2 : Z; oct3 : Z }.

Record Ipv6Addr : Type := V6Addr {
  seg0 : Z; seg1 : Z; seg2 : Z; seg3 : Z; seg4 : Z; seg5 : Z; seg6 : Z; seg7 : Z;
}.

Inductive IpAddr : Type :=
| V4 (ip : Ipv4Addr)
| V6 (ip : Ipv6Addr).

(** An IPv6 socket address also has a flow label and a scope id. *)
Inductive SocketAddr : Type :=
| SaV4 (ip : Ipv4Addr) (port : Z)
| SaV6 (ip : Ipv6Addr) (port flowinfo scope_id : Z).

#[export] Instance Ipv4Addr_eq_dec : EqDecision Ipv4Addr.
Proof. solve_decision. Defined.
#[export] Instance Ipv6Addr_eq_dec : EqDecision Ipv6Addr.
Proof. solve_decision. Defined.
#[export] Instance IpAddr_eq_dec : EqDecision IpAddr.
Proof. solve_decision. Defined.
#[export] Instance SocketAddr_eq_dec : EqDecision SocketAddr.
Proof. solve_decision. Defined.

Definition sa_ip (a : SocketAddr) : IpAddr :=
  match a with SaV4 ip _ => V4 ip | SaV6 ip _ _ _ => V6 ip end.
Definition sa_port (a : SocketAddr) : Z :=
  match a with SaV4 _ port => port | SaV6 _ port _ _ => port end.

(** [SocketAddr::new] *)
Definition socket_addr (ip : IpAddr) (port : Z) : SocketAddr :=
  match ip with V4 ip => SaV4 ip port | V6 ip => SaV6 ip port 0 0 end.

Definition segments (ip : Ipv6Addr) : list Z :=
  [seg0 ip; seg1 ip; seg2 ip; seg3 ip; seg4 ip; seg5 ip; seg6 ip; seg7 ip].

(** The values the types allow. *)
Definition is_u8 (n : Z) : Prop := 0 <= n < 256.
Definition is_u16 (n : Z) : Prop := 0 <= n < 65536.
Definition v4_wf (ip : Ipv4Addr) : Prop :=
  is_u8 (oct0 ip) ∧ is_u8 (oct1 ip) ∧ is_u8 (oct2 ip) ∧ is_u8 (oct3 ip).
Definition v6_wf (ip : Ipv6Addr) : Prop := Forall is_u16 (segments ip).
Definition ip_wf (ip : IpAddr) : Prop := match ip with V4 ip => v4_wf ip | V6 ip => v6_wf ip end.

(** [Ipv6Addr::to_ipv4]: IPv4-compatible and IPv4-mapped addresses. *)
Definition embedded_v4 (ab cd : Z) : Ipv4Addr :=
  V4Addr (ab / 256) (ab `mod` 256) (cd / 256) (cd `mod` 256).

Definition to_ipv4 (ip : Ipv6Addr) : option Ipv4Addr :=
  if (seg0 ip =? 0) && (seg1 ip =? 0) && (seg2 ip =? 0) && (seg3 ip =? 0) && (seg4 ip =? 0)
     && ((seg5 ip =? 0) || (seg5 ip =? 65535))
  then Some (embedded_v4 (seg6 ip) (seg7 ip)) else None.

Definition to_ipv4_mapped (ip : Ipv6Addr) : option Ipv4Addr :=
  if (seg0 ip =? 0) && (seg1 ip =? 0) && (seg2 ip =? 0) && (seg3 ip =? 0) && (seg4 ip =? 0)
     && (seg5 ip =? 65535)
  then Some (embedded_v4 (seg6 ip) (seg7 ip)) else None.

Definition v4_is_loopback (ip : Ipv4Addr) : bool := oct0 ip =? 127.
Definition v4_is_private (ip : Ipv4Addr) : bool :=
  (oct0 ip =? 10) || ((oct0 ip =? 172) && (16 <=? oct1 ip) && (oct1 ip <=? 31))
  || ((oct0 ip =? 192) && (oct1 ip =? 168)).
Definition v4_is_link_local (ip : Ipv4Addr) : bool := (oct0 ip =? 169) && (oct1 ip =? 254).

Definition v6_is_unspecified (ip : Ipv6Addr) : bool :=
  bool_decide (ip = V6Addr 0 0 0 0 0 0 0 0).
Definition v6_is_loopback (ip : Ipv6Addr) : bool :=
  bool_decide (ip = V6Addr 0 0 0 0 0 0 0 1).
Definition v6_is_multicast (ip : Ipv6Addr) : bool := Z.land (seg0 ip) 65280 =? 65280.
Definition v6_is_unique_local (ip : Ipv6Addr) : bool := Z.land (seg0 ip) 65024 =? 64512.
Definition v6_is_unicast_link_local (ip : Ipv6Addr) : bool := Z.land (seg0 ip) 65472 =? 65152.

Definition is_loopback (ip : IpAddr) : bool :=
  match ip with V4 ip => v4_is_loopback ip | V6 ip => v6_is_loopback ip end.

(** ** Text: [Display] *)

Definition v4_text (ip : Ipv4Addr) : string :=
  pretty (oct0 ip) +:+ "." +:+ pretty (oct1 ip) +:+ "." +:+ pretty (oct2 ip) +:+ "." +:+ pretty (oct3 ip).

Definition hex_char (d : Z) : ascii :=
  Ascii.ascii_of_N (Z.to_N (if d <? 10 then 48 + d else 87 + d)).

(** [{:x}] of a 16-bit number *)
Definition hex_text (n : Z) : string :=
  let d i := String.String (hex_char ((n / 16 ^ i) `mod` 16)) EmptyString in
  (if 4096 <=? n then d 3 else EmptyString) +:+ (if 256 <=? n then d 2 else EmptyString)
  +:+ (if 16 <=? n then d 1 else EmptyString) +:+ d 0.

Definition segments_text (l : list Z) : string := String.concat ":" (hex_text <$> l).

(** The first longest run of zero segments: its start and its length. *)
Definition longest_zeroes (l : list Z) : nat * nat :=
  let '(_, _, longest) := foldl (λ '(i, current, longest) segment,
    let current :=
      if segment =? 0 then (if decide (current.2 = 0)%nat then i else current.1, S current.2)
      else (0, 0)%nat in
    (S i, current, if decide (longest.2 < current.2)%nat then current else longest))
    (0%nat, (0, 0)%nat, (0, 0)%nat) l in
  longest.

Definition v6_text (ip : Ipv6Addr) : string :=
  match to_ipv4_mapped ip with
  | Some v4 => "::ffff:" +:+ v4_text v4
  | None =>
      let '(start, length) := longest_zeroes (segments ip) in
      if decide (1 < length)%nat
      then segments_text (take start (segments ip)) +:+ "::"
             +:+ segments_text (drop (start + length) (segments ip))
      else segments_text (segments ip)
  end.

Definition ip_text (ip : IpAddr) : string :=
  match ip with V4 ip => v4_text ip | V6 ip => v6_text ip end.

(** ** Text: [FromStr]

    Each reader consumes a prefix of the input and returns the rest. *)

Definition digit_value (radix : Z) (a : ascii) : option Z :=
  let n := byte_val a in
  let d := if is_ascii_digit a then n - 48
           else if is_ascii_lowercase a then n - 87
           else if is_ascii_uppercase a then n - 55 else 36 in
  if d <? radix then Some d else None.

Fixpoint read_digits (radix acc count : Z) (s : string) : Z * Z * string :=
  match s with
  | EmptyString => (acc, count, s)
  | String.String a rest =>
      match digit_value radix a with
      | Some d => read_digits radix (acc * radix + d) (count + 1) rest
      | None => (acc, count, s)
      end
  end.

Definition read_number (radix : Z) (max_digits : option Z) (allow_zero_prefix : bool) (max : Z)
    (s : string) : option (Z * string) :=
  let '(value, count, rest) := read_digits radix 0 0 s in
  let leading_zero := match s with String.String a _ => Ascii.eqb a "0"%char | _ => false end in
  if (count =? 0) || match max_digits with Some m => m <? count | None => false end
     || (negb allow_zero_prefix && leading_zero && (1 <? count)) || (max <? value)
  then None else Some (value, rest).

Definition read_given_char (c : ascii) (s : string) : option string :=
  match s with
  | String.String a rest => if Ascii.eqb a c then Some rest else None
  | EmptyString => None
  end.

Definition read_ipv4_addr (s : string) : option (Ipv4Addr * string) :=
  let octet := read_number 10 (Some 3) false 255 in
  '(a, s) ← octet s; s ← read_given_char "."%char s;
  '(b, s) ← octet s; s ← read_given_char "."%char s;
  '(c, s) ← octet s; s ← read_given_char "."%char s;
  '(d, s) ← octet s; Some (V4Addr a b c d, s).

(** A group is preceded by a colon unless it is the first. *)
Definition after_separator {A} (first : bool) (read : string → option (A * string)) (s : string)
    : option (A * string) :=
  if first then read s else s ← read_given_char ":"%char s; read s.

(** At most [slots] groups; an IPv4 address may stand for the last two.
    Returns the groups, whether they end in an IPv4 address, and the rest. *)
Fixpoint read_groups (slots : nat) (first : bool) (s : string) : list Z * bool * string :=
  match slots with
  | O => ([], false, s)
  | S slots' =>
      match (match slots' with O => None | S _ => after_separator first read_ipv4_addr s end) with
      | Some (v4, rest) => ([oct0 v4 * 256 + oct1 v4; oct2 v4 * 256 + oct3 v4], true, rest)
      | None =>
          match after_separator first (read_number 16 (Some 4) true u16_max) s with
          | Some (group, rest) =>
              let '(groups, ipv4, rest) := read_groups slots' false rest in
              (group :: groups, ipv4, rest)
          | None => ([], false, s)
          end
      end
  end.

Definition v6_of_segments (l : list Z) : Ipv6Addr :=
  V6Addr (nth 0 l 0) (nth 1 l 0) (nth 2 l 0) (nth 3 l 0) (nth 4 l 0) (nth 5 l 0) (nth 6 l 0) (nth 7 l 0).

Definition read_ipv6_addr (s : string) : option (Ipv6Addr * string) :=
  let '(head, head_ipv4, rest) := read_groups 8 true s in
  if decide (length head = 8)%nat then Some (v6_of_segments head, rest)
  else if (head_ipv4 : bool) then None
  else
    rest ← read_given_char ":"%char rest; rest ← read_given_char ":"%char rest;
    let '(tail, _, rest) := read_groups (7 - length head) true rest in
    Some (v6_of_segments (head ++ replicate (8 - length head - length tail) 0 ++ tail), rest).

Definition read_ip_addr (s : string) : option (IpAddr * string) :=
  match read_ipv4_addr s with
  | Some (ip, rest) => Some (V4 ip, rest)
  | None => '(ip, rest) ← read_ipv6_addr s; Some (V6 ip, rest)
  end.

Definition read_port (s : string) : option (Z * string) :=
  s ← read_given_char ":"%char s; read_number 10 None true u16_max s.

Definition read_scope_id (s : string) : option (Z * string) :=
  s ← read_given_char "%"%char s; read_number 10 None true u32_max s.

Definition read_socket_addr (s : string) : option (SocketAddr * string) :=
  match ('(ip, rest) ← read_ipv4_addr s; '(port, rest) ← read_port rest;
         Some (SaV4 ip port, rest)) with
  | Some x => Some x
  | None =>
      rest ← read_given_char "["%char s; '(ip, rest) ← read_ipv6_addr rest;
      let '(scope_id, rest) := default (0, rest) (read_scope_id rest) in
      rest ← read_given_char "]"%char rest; '(port, rest) ← read_port rest;
      Some (SaV6 ip port 0 scope_id, rest)
  end.

(** [parse_with]: the whole input must be read. *)
Definition read_all {A} (read : string → option (A * string)) (s : string) : option A :=
  '(x, rest) ← read s; if bool_decide (rest = EmptyString) then Some x else None.

(** [s.parse::<IpAddr>()] and [s.parse::<SocketAddr>()] *)
Definition parse_ip (s : string) : option IpAddr := read_all read_ip_addr s.
Definition parse_socket (s : string) : option SocketAddr := read_all read_socket_addr s.

(** The text forms on the addresses the policies are about. *)
Example parse_ip_samples :
  parse_ip <$> ["127.0.0.1"; "::1"; "::ffff:127.0.0.1"; "fd00:ec2::254"; "0177.0.0.1"; "1.2.3"; "host"] =
  [Some (V4 (V4Addr 127 0 0 1)); Some (V6 (V6Addr 0 0 0 0 0 0 0 1));
   Some (V6 (V6Addr 0 0 0 0 0 65535 32512 1)); Some (V6 (V6Addr 64768 3778 0 0 0 0 0 596));
   None; None; None].
Proof. reflexivity. Qed.

Example ip_text_samples :
  v6_text <$> [V6Addr 0 0 0 0 0 0 0 1; V6Addr 8193 3512 0 0 1 0 0 10; V6Addr 0 0 0 0 0 65535 32512 1]
  = ["::1"; "2001:db8::1:0:0:a"; "::ffff:127.0.0.1"].
Proof. reflexivity. Qed.
