(* ===== verification/Protocol.v ===== *)
(** * A2A protocol versions and wire codecs

    Models management/agentic-sandbox-executor/src/protocol.rs: negotiation of
    the [A2A-Version] header, the decoder of 1.0 requests into the executor's
    legacy message shape, the encoder of legacy responses into 1.0 ProtoJSON,
    and the middleware that applies them around a handler.

    The encoder recurses through arrays and objects; its Rocq form runs on
    fuel, and [encode_v1_response] passes the depth of the value, which is
    enough ([encode_value_fuel]). *)

From Stdlib Require Import Ascii.
From S2P Require Import Prelude Text Http Json.

Local Open Scope string_scope.
Local Open Scope list_scope.
Local Open Scope Z_scope.

(** ** Version negotiation *)

Inductive ProtocolVersion : Type := V0_3 | V1_0.

#[export] Instance ProtocolVersion_eq_dec : EqDecision ProtocolVersion.
Proof. solve_decision. Defined.

Definition as_header_value (v : ProtocolVersion) : string :=
  match v with V0_3 => "0.3" | V1_0 => "1.0" end.

Inductive NegotiationError : Type :=
| InvalidFormat (value : string)
| Unsupported (value : string)
| LegacyPath (value : string).

Definition is_major_minor (value : string) : bool :=
  match split_once "."%char value with
  | None => false
  | Some (major, minor) =>
      negb (bool_decide (major = EmptyString)) && negb (bool_decide (minor = EmptyString))
      && string_forallb is_ascii_digit major && string_forallb is_ascii_digit minor
      && negb (contains_char minor "."%char)
  end.

Definition negotiate (value : option string) (legacy_path : bool)
    : result NegotiationError ProtocolVersion :=
  let value := trim (default EmptyString value) in
  selected ← (if bool_decide (value = EmptyString) || bool_decide (value = "0.3") then Ok V0_3
              else if bool_decide (value = "1.0") then Ok V1_0
              else if negb (is_major_minor value) then Err (InvalidFormat value)
              else Err (Unsupported value));
  if legacy_path && bool_decide (selected ≠ V0_3) then Err (LegacyPath value) else Ok selected.

(** ** Decoding 1.0 requests *)

(** [base64::engine::general_purpose::STANDARD.decode(..).is_ok()] *)
Class Base64Check : Type := { base64_valid : string → bool }.

Definition among (allowed : list string) (field : string) : bool := bool_decide (field ∈ allowed).

Definition retain_known_map (object : json_map) (allowed : list string) : json_map :=
  retain (among allowed) object.

Definition retain_known_fields (value : json) (allowed : list string) (context : string)
    : result string json :=
  object ← ok_or (as_object value) (context +:+ " must be an object");
  Ok (JObj (retain_known_map object allowed)).

(** [target[key] = value] on an object. *)
Definition copy_optional (target : json_map) (key : string) (value : option json) : json_map :=
  match value with Some value => map_insert target key value | None => target end.

Section decode.
Context `{Base64Check}.

Definition part_fields : list string :=
  ["text"; "raw"; "url"; "data"; "metadata"; "filename"; "mediaType"].
Definition content_fields : list string := ["text"; "raw"; "url"; "data"].

(** The content test of one part. *)
Definition check_content (field : string) (object : json_map) : result string unit :=
  if bool_decide (field = "text") || bool_decide (field = "url") then
    match map_get object field with
    | Some (JStr _) => Ok ()
    | _ => Err (field +:+ " content must be a string")
    end
  else if bool_decide (field = "raw") then
    raw ← ok_or (map_get object "raw" ≫= as_str) "raw content must be a base64 string";
    if base64_valid raw then Ok () else Err "raw content must use valid base64"
  else Ok ().

(** [file.insert(legacy_field, ..)] and the two optional members. *)
Definition legacy_file (field : string) (content : json) (media_type filename : option json)
    : json_map :=
  let file := map_insert [] (if bool_decide (field = "raw") then "bytes" else "uri") content in
  copy_optional (copy_optional file "mimeType" media_type) "name" filename.

Definition decode_v1_part (part : json) : result string json :=
  object ← ok_or (as_object part) "part must be an object";
  if contains_key object "kind"
  then Err "1.0 parts must not contain the legacy 'kind' discriminator" else
  let object := retain_known_map object part_fields in
  match filter (λ field, contains_key object field = true) content_fields with
  | [field] =>
      _ ← check_content field object;
      let media_type := map_get object "mediaType" in
      let filename := map_get object "filename" in
      let metadata := map_get object "metadata" in
      let content := default JNull (map_get object field) in
      if bool_decide (field = "text") || bool_decide (field = "data") then
        let result := map_collect [("kind", JStr field); (field, content)] in
        Ok (JObj (copy_optional (copy_optional (copy_optional result
          "metadata" metadata) "mediaType" media_type) "filename" filename))
      else
        let file := legacy_file field content media_type filename in
        let result := map_collect [("kind", JStr "file"); ("file", JObj file)] in
        Ok (JObj (copy_optional result "metadata" metadata))
  | _ => Err "part must contain exactly one of text, raw, url, or data"
  end.

Fixpoint decode_parts (index : Z) (parts : list json) : result string (list json) :=
  match parts with
  | [] => Ok []
  | part :: rest =>
      decoded ← map_err (λ error, "message.parts[" +:+ pretty index +:+ "]: " +:+ error)
        (decode_v1_part part);
      rest ← decode_parts (index + 1) rest;
      Ok (decoded :: rest)
  end.

Definition message_fields : list string :=
  ["messageId"; "contextId"; "taskId"; "role"; "parts"; "metadata"; "extensions";
   "referenceTaskIds"].

Definition nonempty_array (v : json) : option (list json) :=
  match v with JArr (x :: l) => Some (x :: l) | _ => None end.

Definition decode_v1_message (message : json_map) : result string json_map :=
  let message := retain_known_map message message_fields in
  _ ← ok_or (id ← map_get message "messageId" ≫= as_str;
             if bool_decide (id = EmptyString) then None else Some id)
    "message.messageId is required";
  role ← ok_or (map_get message "role" ≫= as_str) "message.role is required";
  legacy_role ← (if bool_decide (role = "ROLE_USER") then Ok "user"
                 else if bool_decide (role = "ROLE_AGENT") then Ok "agent"
                 else Err ("unsupported message.role '" +:+ role +:+ "'"));
  let message := map_insert message "role" (JStr legacy_role) in
  parts ← ok_or (map_get message "parts" ≫= nonempty_array)
    "message.parts must contain at least one part";
  parts ← decode_parts 0 parts;
  Ok (map_insert message "parts" (JArr parts)).

Definition request_fields : list string := ["tenant"; "message"; "configuration"; "metadata"].
Definition configuration_fields : list string :=
  ["acceptedOutputModes"; "taskPushNotificationConfig"; "historyLength"; "returnImmediately"].

Definition decode_v1_request (body : json) : result string json :=
  object ← ok_or (as_object body) "request must be an object";
  let object := retain_known_map object request_fields in
  object ← (match map_get object "configuration" with
            | Some configuration =>
                configuration ← retain_known_fields configuration configuration_fields
                  "request.configuration";
                Ok (map_insert object "configuration" configuration)
            | None => Ok object
            end);
  message ← ok_or (map_get object "message" ≫= as_object) "request.message must be an object";
  if contains_key message "kind"
  then Err "1.0 messages must not contain the legacy 'kind' discriminator" else
  message ← decode_v1_message message;
  Ok (JObj (map_insert object "message" (JObj message))).
End decode.

(** ** Encoding responses *)

Definition protojson_field_name (key : string) : string :=
  if bool_decide (key = "artifact_id") then "artifactId"
  else if bool_decide (key = "task_id") then "taskId"
  else if bool_decide (key = "created_at") then "createdAt"
  else if bool_decide (key = "next_cursor") then "nextPageToken"
  else key.

Definition is_legacy_part (object : json_map) : bool :=
  match map_get object "kind" ≫= as_str with
  | Some kind => among ["text"; "data"; "file"] kind
  | None => false
  end.

Definition state_names : list (string * string) :=
  [("submitted", "TASK_STATE_SUBMITTED"); ("working", "TASK_STATE_WORKING");
   ("completed", "TASK_STATE_COMPLETED"); ("failed", "TASK_STATE_FAILED");
   ("canceled", "TASK_STATE_CANCELED"); ("rejected", "TASK_STATE_REJECTED");
   ("input-required", "TASK_STATE_INPUT_REQUIRED"); ("auth-required", "TASK_STATE_AUTH_REQUIRED")].

Definition encode_state (state : string) : string :=
  match find_first (λ kv, bool_decide (kv.1 = state)) state_names with
  | Some (_, name) => name
  | None => state
  end.

Definition encode_role (role : string) : string :=
  if bool_decide (role = "user") then "ROLE_USER"
  else if bool_decide (role = "agent") then "ROLE_AGENT" else role.

(** [if let Some(Value::String(s)) = object.get_mut(key) { *s = f(s) }] *)
Definition alter_str (key : string) (f : string → string) (object : json_map) : json_map :=
  match map_get object key with
  | Some (JStr s) => map_insert object key (JStr (f s))
  | _ => object
  end.

(** [value.strip_suffix("+00:00")], with [Z] in its place *)
Definition utc_suffix (value : string) : string :=
  match strip_prefix (str_rev value) (str_rev "+00:00") with
  | Some rest => str_rev rest +:+ "Z"
  | None => value
  end.

Definition or_else {A} (x y : option A) : option A := match x with Some _ => x | None => y end.

Definition encode_part (encode_value : json → option string → json) (object : json_map) : json :=
  let kind := map_get object "kind" ≫= as_str in
  let object := map_remove object "kind" in
  if bool_decide (kind = Some "file") then
    let file := default [] (map_get object "file" ≫= as_object) in
    let object := map_remove object "file" in
    let encoded := match or_else (map_get file "bytes") (map_get file "fileWithBytes") with
      | Some value => map_insert [] "raw" value
      | None => match or_else (map_get file "uri") (map_get file "fileWithUri") with
          | Some value => map_insert [] "url" value
          | None => []
          end
      end in
    let encoded := copy_optional encoded "mediaType" (map_get file "mimeType") in
    let encoded := copy_optional encoded "filename" (map_get file "name") in
    JObj (copy_optional encoded "metadata"
      ((λ value, encode_value value (Some "metadata")) <$> map_get object "metadata"))
  else if bool_decide (kind = Some "text") || bool_decide (kind = Some "data") then
    JObj (map_collect ((λ kv, (kv.1, encode_value kv.2 (Some kv.1))) <$> object))
  else JObj object.

Fixpoint encode_value (fuel : nat) (value : json) (parent_key : option string) : json :=
  match fuel with
  | O => value
  | S fuel =>
    match value with
    | JArr values => JArr ((λ value, encode_value fuel value parent_key) <$> values)
    | JObj object =>
        if is_legacy_part object then encode_part (encode_value fuel) object else
        let object :=
          if bool_decide (parent_key = Some "status") then
            let object := alter_str "state" encode_state object in
            map_remove (map_remove (map_remove object "fail_kind") "terminal_at") "error"
          else object in
        let object := map_remove (alter_str "role" encode_role object) "kind" in
        JObj (map_collect ((λ kv,
          (protojson_field_name kv.1, encode_value fuel kv.2 (Some kv.1))) <$> object))
    | JStr s => if bool_decide (parent_key = Some "timestamp") then JStr (utc_suffix s) else value
    | _ => value
    end
  end.

Definition encode_v1_response (value : json) : json := encode_value (json_depth value) value None.

Definition canonical_status_name (status : Z) : string :=
  if status =? BAD_REQUEST then "INVALID_ARGUMENT"
  else if status =? NOT_FOUND then "NOT_FOUND"
  else if (status =? CONFLICT) || (status =? UNPROCESSABLE_ENTITY) then "FAILED_PRECONDITION"
  else if status =? UNAUTHORIZED then "UNAUTHENTICATED"
  else if status =? FORBIDDEN then "PERMISSION_DENIED"
  else if status =? SERVICE_UNAVAILABLE then "UNAVAILABLE"
  else if status =? BAD_GATEWAY then "INTERNAL"
  else if is_server_error status then "INTERNAL"
  else "UNKNOWN".

Definition upper_byte (a : ascii) : ascii :=
  if is_ascii_lowercase a then Ascii.ascii_of_N (Ascii.N_of_ascii a - 32) else a.

(** The characters of the legacy code, upper-cased; a character that is not
    alphanumeric becomes one underscore, so the continuation bytes of a
    multi-byte character are dropped. *)
Fixpoint error_reason (code : string) : string :=
  match code with
  | EmptyString => EmptyString
  | String.String a rest =>
      if is_ascii_alphanumeric a then String.String (upper_byte a) (error_reason rest)
      else if (128 <=? byte_val a) && (byte_val a <? 192) then error_reason rest
      else String.String "_"%char (error_reason rest)
  end.

Definition encode_v1_error (value : json) (status : Z) : json :=
  match json_get value "error" with
  | Some _ => value
  | None =>
      let message := default "A2A request failed"
        (or_else (json_get value "detail") (json_get value "title") ≫= as_str) in
      let legacy_code := default "request.failed" (json_get value "code" ≫= as_str) in
      json_obj [("error", json_obj [
        ("code", JNum status);
        ("status", JStr (canonical_status_name status));
        ("message", JStr message);
        ("details", JArr [json_obj [
          ("@type", JStr "type.googleapis.com/google.rpc.ErrorInfo");
          ("reason", JStr (error_reason legacy_code));
          ("domain", JStr "a2a-protocol.org")]])])]
  end.

(** ** The middleware *)

Definition MAX_PROTOCOL_BODY_BYTES : Z := 4 * 1024 * 1024.
Definition A2A_VERSION_HEADER : string := "a2a-version".
Definition A2A_MEDIA_TYPE : string := "application/a2a+json".

Record ProtocolMetricsSnapshot : Type := {
  v03_requests : Z;
  v10_requests : Z;
  rejected_version_requests : Z;
}.

(** Error texts of [axum::body::to_bytes] and [serde_json::from_slice]. *)
Class WireText : Type := {
  body_limit_error : string;
  json_error : string → string;
}.

(** [to_bytes(body, MAX_PROTOCOL_BODY_BYTES)] *)
Definition to_bytes `{WireText} (body : string) : result string string :=
  if MAX_PROTOCOL_BODY_BYTES <? str_len body then Err body_limit_error else Ok body.

Section middleware.
Context `{Env, Base64Check, WireText}.

Definition google_error (http_status : Z) (media_type status message reason : string)
    (metadata : list (string * json)) : HttpResponse :=
  {| resp_status := http_status;
     resp_headers := [("content-type", Some media_type); (A2A_VERSION_HEADER, Some "1.0")];
     resp_body := json_text (json_obj [("error", json_obj [
       ("code", JNum http_status); ("status", JStr status); ("message", JStr message);
       ("details", JArr [json_obj ([
          ("@type", JStr "type.googleapis.com/google.rpc.ErrorInfo");
          ("reason", JStr reason); ("domain", JStr "a2a-protocol.org")] ++ metadata)])])]) |}.

Definition version_error (e : NegotiationError) (media_type : string) : HttpResponse :=
  let requested := match e with InvalidFormat v | Unsupported v | LegacyPath v => v end in
  let message := match e with
    | InvalidFormat _ => "A2A-Version must use the Major.Minor format"
    | Unsupported _ => "A2A protocol version '" +:+ requested
        +:+ "' is not supported; supported versions are 0.3 and 1.0"
    | LegacyPath _ => "The /v1 compatibility path supports A2A 0.3 only; use the unprefixed interface for A2A 1.0"
    end in
  google_error BAD_REQUEST media_type "FAILED_PRECONDITION" message "VERSION_NOT_SUPPORTED"
    [("metadata", json_obj [("requestedVersion", JStr requested);
                            ("supportedVersions", JStr "0.3,1.0")])].

Definition invalid_v1_request (message media_type : string) : HttpResponse :=
  google_error BAD_REQUEST media_type "INVALID_ARGUMENT" message "INVALID_REQUEST" [].

Definition unsupported_content_type (content_type media_type : string) : HttpResponse :=
  google_error UNSUPPORTED_MEDIA_TYPE media_type "UNIMPLEMENTED"
    ("Content-Type '" +:+ content_type +:+ "' is not supported") "CONTENT_TYPE_NOT_SUPPORTED" [].

Definition response_media_type (headers : HeaderMap) : string :=
  match or_else (header_value headers "content-type") (header_value headers "accept") with
  | Some (Some value) =>
      if existsb (λ item, starts_with (trim item) A2A_MEDIA_TYPE) (split_char ","%char value)
      then A2A_MEDIA_TYPE else "application/json"
  | _ => "application/json"
  end.

Definition is_message_path (path : string) : bool :=
  ends_with path "/message:send" || ends_with path "/message:stream"
  || ends_with path "/messages:send" || ends_with path "/messages:stream".

(** The body of a 1.0 request that is not a GET, as the handler gets it. *)
Definition decode_request (media_type : string) (request : Request)
    : result HttpResponse Request :=
  bytes ← map_err (λ e, invalid_v1_request ("request body could not be read: " +:+ e) media_type)
    (to_bytes (req_body request));
  if bool_decide (bytes = EmptyString) then Ok request else
  let content_type :=
    trim (default EmptyString
      (head (split_char ";"%char (default EmptyString (header (req_headers request) "content-type"))))) in
  if negb (among ["application/json"; A2A_MEDIA_TYPE] content_type)
  then Err (unsupported_content_type content_type media_type) else
  decoded ← map_err (λ e, invalid_v1_request e media_type)
    (value ← ok_or (json_parse bytes) (json_error bytes);
     if is_message_path (req_path request) then decode_v1_request value else Ok value);
  Ok {| req_method := req_method request; req_path := req_path request;
        req_headers := req_headers request; req_body := json_text decoded |}.

(** What happens to the response of a 1.0 request. *)
Definition encode_response (media_type path : string) (response : HttpResponse) : HttpResponse :=
  let headers := match header (resp_headers response) "location" with
    | Some location => header_insert (resp_headers response) "location"
        (replace_from "/v1/tasks/" "/tasks/" 0 location)
    | None => resp_headers response
    end in
  let content_type := default EmptyString (header headers "content-type") in
  let response := {| resp_status := resp_status response; resp_headers := headers;
                     resp_body := resp_body response |} in
  if starts_with content_type "text/event-stream" then response else
  match to_bytes (resp_body response) with
  | Err e => invalid_v1_request ("response body could not be encoded: " +:+ e) media_type
  | Ok bytes =>
      let with_type := header_insert headers "content-type" media_type in
      if bool_decide (bytes = EmptyString)
      then {| resp_status := resp_status response; resp_headers := with_type;
              resp_body := EmptyString |}
      else match json_parse bytes with
        | None => response
        | Some value =>
            let encoded :=
              if is_success (resp_status response) then
                let value := encode_v1_response value in
                if (ends_with path "/message:send" || ends_with path "/messages:send")
                   && bool_decide (is_Some (json_get value "id"))
                   && bool_decide (json_get value "task" = None)
                then json_obj [("task", value)] else value
              else encode_v1_error value (resp_status response) in
            {| resp_status := resp_status response; resp_headers := with_type;
               resp_body := json_text encoded |}
        end
  end.

(** [protocol_middleware] around a handler on a state [S]. *)
Context {S : Type} (next : S → Request → ProtocolVersion → S * HttpResponse).

Definition protocol_middleware (m : ProtocolMetricsSnapshot) (st : S) (request : Request)
    : ProtocolMetricsSnapshot * S * HttpResponse :=
  let legacy_path := existsb (λ part, bool_decide (part = "v1")) (split_char "/"%char (req_path request)) in
  let media_type := response_media_type (req_headers request) in
  match negotiate (header (req_headers request) A2A_VERSION_HEADER) legacy_path with
  | Err e => (m <| rejected_version_requests ::= wrap_add u64_max 1 |>, st, version_error e media_type)
  | Ok version =>
      let m := match version with
        | V0_3 => m <| v03_requests ::= wrap_add u64_max 1 |>
        | V1_0 => m <| v10_requests ::= wrap_add u64_max 1 |>
        end in
      match (if bool_decide (version = V1_0) && negb (bool_decide (req_method request = "GET"))
             then decode_request media_type request else Ok request) with
      | Err response => (m, st, response)
      | Ok request' =>
          let '(st, response) := next st request' version in
          let headers := header_insert (header_insert (resp_headers response)
            A2A_VERSION_HEADER (as_header_value version)) "vary" "A2A-Version, Accept" in
          let response := {| resp_status := resp_status response; resp_headers := headers;
                             resp_body := resp_body response |} in
          (m, st, match version with
            | V0_3 => response
            | V1_0 => encode_response media_type (req_path request) response
            end)
      end
  end.
End middleware.

(** ** Lemmas on objects *)

Lemma map_get_copy_optional t key v k :
  map_get (copy_optional t key v) k =
  if decide (k = key) then or_else v (map_get t k) else map_get t k.
Proof.
  unfold copy_optional, or_else. destruct v as [v|]; [|by case_decide].
  case_decide as Hk; [subst; apply map_get_insert_eq|]. by apply map_get_insert_ne.
Qed.

Lemma sorted_copy_optional t key v : sorted_map t → sorted_map (copy_optional t key v).
Proof. destruct v; [apply sorted_map_insert|done]. Qed.

(** ** Values the encoder leaves alone *)

(** Serde's maps are sorted at every level. *)
Fixpoint wf_json (v : json) : Prop :=
  match v with
  | JArr l => foldr (λ x P, wf_json x ∧ P) True l
  | JObj m => sorted_map m ∧ foldr (λ kv P, wf_json kv.2 ∧ P) True m
  | _ => True
  end.

(** The member names the encoder gives a meaning to. *)
Definition reserved : list string :=
  ["kind"; "role"; "status"; "timestamp"; "artifact_id"; "task_id"; "created_at"; "next_cursor"].

Fixpoint plain_json (v : json) : bool :=
  match v with
  | JArr l => forallb plain_json l
  | JObj m => forallb (λ kv, negb (among reserved kv.1) && plain_json kv.2) m
  | _ => true
  end.

Lemma wf_json_arr l : wf_json (JArr l) ↔ Forall wf_json l.
Proof. simpl. induction l; simpl; [by split; [constructor|]|]. rewrite Forall_cons. naive_solver. Qed.
Lemma wf_json_obj m : wf_json (JObj m) ↔ sorted_map m ∧ Forall (λ kv, wf_json kv.2) m.
Proof.
  simpl. f_equiv. induction m; simpl; [by split; [constructor|]|]. rewrite Forall_cons. naive_solver.
Qed.

Lemma forallb_Forall {A} (p : A → bool) l : forallb p l = true ↔ Forall (λ x, p x = true) l.
Proof. rewrite forallb_forall, Forall_forall. by setoid_rewrite list_elem_of_In. Qed.

Lemma among_false l x : among l x = false ↔ x ∉ l.
Proof. unfold among. by rewrite bool_decide_eq_false. Qed.
Lemma among_true l x : among l x = true ↔ x ∈ l.
Proof. unfold among. by rewrite bool_decide_eq_true. Qed.

Lemma plain_keys m k :
  forallb (λ kv, negb (among reserved kv.1) && plain_json kv.2) m = true →
  k ∈ reserved → map_get m k = None.
Proof.
  intros Hp Hk. apply map_get_not_key. intros ([k' v] & -> & Hin)%list_elem_of_fmap.
  apply forallb_Forall in Hp. rewrite Forall_forall in Hp. specialize (Hp _ Hin).
  reflect_bools. by apply among_false in H.
Qed.

Lemma protojson_id k :
  k ∉ ["artifact_id"; "task_id"; "created_at"; "next_cursor"] → protojson_field_name k = k.
Proof. unfold protojson_field_name. intros Hk. repeat case_bool_decide; subst; set_solver. Qed.

Lemma protojson_unreserved k : k ∉ reserved → protojson_field_name k = k.
Proof. intros Hk. apply protojson_id. unfold reserved in Hk. set_solver. Qed.

(** A value without reserved member names is a fixed point of the encoder,
    at any fuel and under any key but the two that rewrite their value. *)
Lemma encode_plain v : wf_json v → plain_json v = true →
  ∀ n pk, pk ≠ Some "status" → pk ≠ Some "timestamp" → encode_value n v pk = v.
Proof.
  induction v as [| | |s|l IH|m IH] using json_nested_ind;
    intros Hwf Hp [|fuel] pk Hs Ht; simpl; try done.
  - by rewrite bool_decide_false.
  - f_equal. apply wf_json_arr in Hwf. simpl in Hp. apply forallb_Forall in Hp.
    induction IH as [|x l Hx IH IHl]; [done|]. apply Forall_cons in Hwf as [? ?], Hp as [? ?].
    csimpl. by rewrite Hx, IHl.
  - apply wf_json_obj in Hwf as [Hsort Hwf]. simpl in Hp.
    assert (∀ k, k ∈ reserved → map_get m k = None) as Hnone by (intros; by eapply plain_keys).
    unfold is_legacy_part. rewrite (Hnone "kind") by set_solver. simpl.
    rewrite (bool_decide_false (pk = _)) by done.
    unfold alter_str. rewrite (Hnone "role") by set_solver.
    rewrite map_remove_absent by (apply Hnone; set_solver). f_equal.
    transitivity (map_collect m); [|by apply map_collect_sorted]. f_equal.
    apply forallb_Forall in Hp. clear Hsort Hnone.
    induction IH as [|[k x] m Hx IH IHm]; [done|].
    apply Forall_cons in Hwf as [? ?], Hp as [? ?]. csimpl in *. reflect_bools.
    apply among_false in H1. rewrite protojson_unreserved by done.
    rewrite Hx; [|done|done|intros [= ->]; apply H1; set_solver..]. by rewrite IHm.
Qed.

(** ** Round trip of 1.0 messages *)

Section roundtrip.
Context `{Base64Check}.

(** The fields 1.0 defines, at each level the decoder looks at. *)
Definition known_part (part : json) : json :=
  match part with JObj m => JObj (retain (among part_fields) m) | _ => part end.

(** Apply a function to the value of one key. *)
Definition at_key (key : string) (f : json → json) (k : string) (v : json) : json :=
  if bool_decide (k = key) then f v else v.
Definition alter_field (key : string) (f : json → json) (m : json_map) : json_map :=
  (λ kv, (kv.1, at_key key f kv.1 kv.2)) <$> m.

Definition known_parts (v : json) : json :=
  match v with JArr parts => JArr (known_part <$> parts) | _ => v end.

Definition known_message (v : json) : json :=
  match v with
  | JObj m => JObj (alter_field "parts" known_parts (retain (among message_fields) m))
  | _ => v
  end.

Definition known_configuration (v : json) : json :=
  match v with JObj m => JObj (retain (among configuration_fields) m) | _ => v end.

Definition known_request (body : json) : json :=
  match body with
  | JObj m => JObj (alter_field "message" known_message
      (alter_field "configuration" known_configuration (retain (among request_fields) m)))
  | _ => body
  end.

(** The free-form values of a request use no reserved member name. *)
Definition plain_fields (except : list string) (m : json_map) : bool :=
  forallb (λ kv, among except kv.1 || plain_json kv.2) m.

Definition plain_part (part : json) : bool :=
  match part with JObj m => plain_fields [] m | _ => true end.

Definition plain_message (m : json_map) : bool :=
  plain_fields ["role"; "parts"] m
  && match map_get m "parts" with Some (JArr parts) => forallb plain_part parts | _ => true end.

Definition plain_request (body : json) : bool :=
  match body with
  | JObj m => plain_fields ["message"] m
      && match map_get m "message" with Some (JObj message) => plain_message message | _ => true end
  | _ => true
  end.

Lemma plain_fields_get except m k v :
  plain_fields except m = true → map_get m k = Some v → k ∉ except → plain_json v = true.
Proof.
  unfold plain_fields. rewrite forallb_Forall, Forall_forall. intros Hp Hg%map_get_elem Hk.
  specialize (Hp _ Hg). simpl in Hp. by rewrite (proj2 (among_false _ _) Hk) in Hp.
Qed.

Lemma wf_json_get m k v : wf_json (JObj m) → map_get m k = Some v → wf_json v.
Proof.
  intros [_ Hwf]%wf_json_obj Hg%map_get_elem. rewrite Forall_forall in Hwf. exact (Hwf _ Hg).
Qed.

(** The single content field of a part: which one, and that the others are
    absent. *)
Lemma content_field (object : json_map) field :
  filter (λ f, contains_key object f = true) content_fields = [field] →
  (∃ v, map_get object field = Some v) ∧ field ∈ content_fields ∧
  ∀ f, f ∈ content_fields → f ≠ field → map_get object f = None.
Proof.
  intros Hf. assert (∀ f, f ∈ [field] ↔ contains_key object f = true ∧ f ∈ content_fields) as Hin.
  { intros f. by rewrite <-Hf, list_elem_of_filter. }
  split; [|split].
  - apply contains_key_true, (Hin field). set_solver.
  - apply (Hin field). set_solver.
  - intros f Hc Hne. apply contains_key_false. destruct (contains_key object f) eqn:E; [|done].
    exfalso. assert (f ∈ [field]) as Hx by (by apply Hin). set_solver.
Qed.

Lemma map_get_alter_field key f m k :
  map_get (alter_field key f m) k = at_key key f k <$> map_get m k.
Proof. apply map_get_fmap. Qed.

Lemma sorted_alter_field key f m : sorted_map m → sorted_map (alter_field key f m).
Proof. apply sorted_map_fmap. Qed.

(** Equality with the known fields of a part, member by member. *)
Lemma retained_part (m t : json_map) :
  sorted_map m → sorted_map t →
  (∀ k, k ∈ part_fields → map_get t k = map_get m k) → (∀ k, k ∉ part_fields → map_get t k = None) →
  t = retain (among part_fields) m.
Proof.
  intros Hm Ht Hin Hout. apply sorted_map_ext; [done|by apply sorted_map_filter|].
  intros k. rewrite map_get_retain. unfold among. case_bool_decide; auto.
Qed.

(** The value of a member of a part survives the encoder. *)
Lemma part_value_stable m k v n :
  wf_json (JObj m) → plain_fields [] m = true → map_get m k = Some v → k ∈ part_fields →
  encode_value n v (Some k) = v.
Proof.
  intros Hwf Hp Hg Hk. apply encode_plain; [by eapply wf_json_get| |intros [= ->]..].
  - eapply plain_fields_get; [done..|set_solver].
  - unfold part_fields in Hk. set_solver.
  - unfold part_fields in Hk. set_solver.
Qed.

Lemma encode_inline_part inner object kind :
  sorted_map object → map_get object "kind" = Some (JStr kind) → kind = "text" ∨ kind = "data" →
  (∀ k v, map_get object k = Some v → k ≠ "kind" → inner v (Some k) = v) →
  encode_part inner object = JObj (map_remove object "kind").
Proof.
  intros Hs Hk Hkind Hin. unfold encode_part. rewrite Hk. simpl.
  rewrite bool_decide_false by naive_solver. replace (_ || _) with true by (destruct Hkind; by subst).
  f_equal. rewrite <-(map_collect_sorted (map_remove object "kind")) at 2 by (by apply sorted_map_remove).
  f_equal. rewrite <-(list_fmap_id (map_remove object "kind")) at 2. apply list_fmap_ext.
  intros i [k v] Hi%list_elem_of_lookup_2. unfold id. simpl. f_equal.
  apply sorted_map_elem in Hi; [|by apply sorted_map_remove].
  destruct (decide (k = "kind")) as [->|Hne]; [by rewrite map_get_remove_eq in Hi|].
  rewrite map_get_remove_ne in Hi by done. by apply Hin.
Qed.

(** The legacy form of a text or data part, member by member. *)
Definition inline_part (field : string) (content : json) (object : json_map) : json_map :=
  copy_optional (copy_optional (copy_optional (map_collect [("kind", JStr field); (field, content)])
    "metadata" (map_get object "metadata")) "mediaType" (map_get object "mediaType"))
    "filename" (map_get object "filename").

Section inline.
Context (m : json_map) (field : string) (v : json).
Let object := retain_known_map m part_fields.
Hypothesis Hfield : field = "text" ∨ field = "data".
Hypothesis Hv : map_get object field = Some v.
Hypothesis Hother : ∀ f, f ∈ content_fields → f ≠ field → map_get object f = None.

Lemma object_get k : map_get object k = if among part_fields k then map_get m k else None.
Proof. apply map_get_retain. Qed.

Lemma inline_part_get k :
  map_get (inline_part field v object) k = if decide (k = "kind") then Some (JStr field) else map_get object k.
Proof using Hfield Hv Hother.
  unfold inline_part. rewrite !map_get_copy_optional.
  destruct (decide (k = field)) as [->|Hk].
  { destruct Hfield as [->| ->]; simpl; by rewrite Hv. }
  assert (map_get (map_collect [("kind", JStr field); (field, v)]) k =
    if decide (k = "kind") then Some (JStr field) else None) as Hc.
  { change (map_collect _) with (map_insert (map_insert [] "kind" (JStr field)) field v).
    rewrite map_get_insert_ne by done. simpl.
    destruct (decide (k = "kind")) as [->|Hne]; [done|]. by rewrite decide_False by congruence. }
  rewrite Hc. clear Hc.
  destruct (decide (k = "filename")) as [->|]; [by destruct (map_get object "filename")|].
  destruct (decide (k = "mediaType")) as [->|]; [by destruct (map_get object "mediaType")|].
  destruct (decide (k = "metadata")) as [->|]; [by destruct (map_get object "metadata")|].
  destruct (decide (k = "kind")); [done|]. symmetry.
  destruct (decide (k ∈ content_fields)) as [Hin|Hin]; [by apply Hother|].
  rewrite object_get. rewrite (proj2 (among_false _ _)); [done|].
  unfold part_fields, content_fields in *. set_solver.
Qed.

Lemma inline_part_sorted : sorted_map (inline_part field v object).
Proof. repeat apply sorted_copy_optional. apply sorted_map_collect. Qed.

Lemma inline_part_encoded inner :
  sorted_map m → map_get m "kind" = None →
  (∀ k x, map_get object k = Some x → inner x (Some k) = x) →
  encode_part inner (inline_part field v object) = JObj (retain (among part_fields) m).
Proof using Hfield Hv Hother.
  intros Hm Hkind Hin. rewrite (encode_inline_part _ _ field); try done.
  - f_equal. apply retained_part; [done|apply sorted_map_remove, inline_part_sorted|..]; intros k Hk.
    + rewrite map_get_remove_ne, inline_part_get by (intros <-; unfold part_fields in Hk; set_solver).
      rewrite decide_False by (intros ->; unfold part_fields in Hk; set_solver).
      rewrite object_get. by rewrite (proj2 (among_true _ _) Hk).
    + destruct (decide (k = "kind")) as [->|Hne].
      { apply map_get_remove_eq, inline_part_sorted. }
      rewrite map_get_remove_ne, inline_part_get, decide_False by done.
      rewrite object_get. by rewrite (proj2 (among_false _ _) Hk).
  - apply inline_part_sorted.
  - rewrite inline_part_get. by rewrite decide_True.
  - intros k x. rewrite inline_part_get. intros Hg Hne. rewrite decide_False in Hg by done. auto.
Qed.
End inline.

(** The same for a file part. *)
Lemma file_part_encoded inner (m : json_map) field v :
  let object := retain_known_map m part_fields in
  field = "raw" ∨ field = "url" → sorted_map m → map_get object field = Some v →
  (∀ f, f ∈ content_fields → f ≠ field → map_get object f = None) →
  (∀ k x, map_get object k = Some x → inner x (Some k) = x) →
  encode_part inner (copy_optional (map_collect [("kind", JStr "file"); ("file",
      JObj (legacy_file field v (map_get object "mediaType") (map_get object "filename")))])
      "metadata" (map_get object "metadata")) = JObj (retain (among part_fields) m).
Proof.
  intros object Hfield Hm Hv Hother Hin.
  assert (∀ k, k ∈ part_fields → map_get m k = map_get object k) as Hobj.
  { intros k Hk. unfold object, retain_known_map. rewrite map_get_retain.
    by rewrite (proj2 (among_true _ _) Hk). }
  assert (∀ t, sorted_map t → (∀ k, k ∈ part_fields → map_get t k = map_get object k) →
    Forall (λ kv, kv.1 ∈ part_fields) t → JObj t = JObj (retain (among part_fields) m)) as Hfin.
  { intros t Ht Hget Hkeys. f_equal. apply retained_part; [done..| |].
    - intros k Hk. by rewrite Hobj, Hget.
    - intros k Hk. apply map_get_not_key. intros (kv & -> & Hkv)%list_elem_of_fmap.
      rewrite Forall_forall in Hkeys. by apply Hk, Hkeys. }
  destruct (map_get object "metadata") as [meta|] eqn:Em;
    destruct (map_get object "mediaType") as [mt|] eqn:Et;
    destruct (map_get object "filename") as [fn|] eqn:En; destruct Hfield as [->| ->];
    (match goal with |- encode_part inner ?o = _ => let o' := eval vm_compute in o in change o with o' end);
    unfold encode_part; simpl; rewrite ?(Hin _ _ Em);
    (apply Hfin; [by apply sorted_keys_sorted| |by repeat (constructor; [by apply (bool_decide_unpack _)|])]).
  all: intros k Hk; unfold part_fields in Hk; rewrite !elem_of_cons, elem_of_nil in Hk.
  all: destruct Hk as [->|[->|[->|[->|[->|[->|[->|[]]]]]]]]; simpl; rewrite ?Em, ?Et, ?En, ?Hv;
    try done; symmetry; (apply Hother; [by apply (bool_decide_unpack _)|done]).
Qed.

Lemma encode_legacy n o pk kind :
  map_get o "kind" = Some (JStr kind) → kind ∈ ["text"; "data"; "file"] →
  encode_value (S n) (JObj o) pk = encode_part (encode_value n) o.
Proof.
  intros Hk Hin. simpl. unfold is_legacy_part. rewrite Hk. simpl.
  by rewrite (proj2 (among_true _ _) Hin).
Qed.

Lemma part_roundtrip p q n pk :
  wf_json p → plain_part p = true → decode_v1_part p = Ok q →
  encode_value (S n) q pk = known_part p.
Proof.
  intros Hwf Hplain Hd. destruct p as [| | | | |m]; try done. unfold decode_v1_part in Hd.
  simpl in Hd. destruct (contains_key m "kind") eqn:Hkind; [done|].
  apply contains_key_false in Hkind.
  destruct (filter _ content_fields) as [|field [|]] eqn:Hf; try done.
  apply content_field in Hf as ([v Hv] & Hfield & Hother). inv_result. simpl in Hd.
  rewrite Hv in Hd. simpl in Hd. pose proof (proj1 (proj1 (wf_json_obj m) Hwf)) as Hsort.
  assert (∀ k x, map_get (retain_known_map m part_fields) k = Some x → encode_value n x (Some k) = x)
    as Hstable.
  { intros k y. unfold retain_known_map. rewrite map_get_retain.
    destruct (among part_fields k) eqn:E; [|done]. apply among_true in E.
    intros Hg. by eapply part_value_stable. }
  assert (known_part (JObj m) = JObj (retain (among part_fields) m)) as -> by done.
  unfold content_fields in Hfield. rewrite !elem_of_cons, elem_of_nil in Hfield.
  destruct Hfield as [->|[->|[->|[->|[]]]]]; simpl in Hd; injection Hd as <-.
  - fold (inline_part "text" v (retain_known_map m part_fields)).
    rewrite (encode_legacy _ _ _ "text"); [|by rewrite inline_part_get by auto|set_solver].
    by apply inline_part_encoded; auto.
  - rewrite (encode_legacy _ _ _ "file"); [|by rewrite map_get_copy_optional|set_solver].
    by apply file_part_encoded; auto.
  - rewrite (encode_legacy _ _ _ "file"); [|by rewrite map_get_copy_optional|set_solver].
    by apply file_part_encoded; auto.
  - fold (inline_part "data" v (retain_known_map m part_fields)).
    rewrite (encode_legacy _ _ _ "data"); [|by rewrite inline_part_get by auto|set_solver].
    by apply inline_part_encoded; auto.
Qed.

Lemma parts_roundtrip n pk i parts decoded :
  Forall wf_json parts → forallb plain_part parts = true → decode_parts i parts = Ok decoded →
  (λ v, encode_value (S n) v pk) <$> decoded = known_part <$> parts.
Proof.
  intros Hwf. revert i decoded. induction Hwf as [|p parts Hp _ IH]; simpl; intros i decoded Hplain Hd.
  { by inv_result. }
  apply andb_true_iff in Hplain as [Hpp Hplain]. inv_result. csimpl. f_equal; [|by eapply IH].
  by apply part_roundtrip.
Qed.

(** An object that is neither a part nor a status is encoded member by member. *)
Lemma encode_object n o pk :
  sorted_map o → map_get o "kind" = None → pk ≠ Some "status" →
  (∀ k, k ∈ o.*1 → protojson_field_name k = k) →
  encode_value (S n) (JObj o) pk =
  JObj ((λ kv, (kv.1, encode_value n kv.2 (Some kv.1))) <$> alter_str "role" encode_role o).
Proof.
  intros Hs Hkind Hpk Hkeys. simpl. unfold is_legacy_part. rewrite Hkind. simpl.
  rewrite bool_decide_false by done.
  set (o' := alter_str "role" encode_role o).
  assert (sorted_map o' ∧ map_get o' "kind" = None ∧ ∀ k, k ∈ o'.*1 → protojson_field_name k = k)
    as (Hs' & Hkind' & Hkeys').
  { unfold o', alter_str. destruct (map_get o "role") as [[]|] eqn:Hr; try done.
    repeat split; [by apply sorted_map_insert|by rewrite map_get_insert_ne|].
    intros k [->|Hk]%map_insert_keys; [done|auto]. }
  rewrite map_remove_absent by done. f_equal.
  transitivity (map_collect ((λ kv, (kv.1, encode_value n kv.2 (Some kv.1))) <$> o')).
  - f_equal. apply list_fmap_ext. intros i [k v] Hi%list_elem_of_lookup_2. simpl. f_equal.
    apply Hkeys'. by apply (list_elem_of_fmap_2 fst _ _ Hi).
  - by apply map_collect_sorted, (sorted_map_fmap (λ k v, encode_value n v (Some k))).
Qed.

Lemma map_get_alter_str key f m k :
  map_get (alter_str key f m) k =
  (λ v, match v with JStr s => if decide (k = key) then JStr (f s) else v | _ => v end) <$> map_get m k.
Proof.
  unfold alter_str. destruct (decide (k = key)) as [->|Hne].
  - destruct (map_get m key) as [[]|] eqn:E; rewrite ?E, ?map_get_insert_eq; done.
  - assert (∀ o : option json, o = (λ v, match v with JStr s => v | _ => v end) <$> o) as Hid
      by (by intros [[]|]).
    rewrite <-Hid. destruct (map_get m key) as [[]|]; rewrite ?map_get_insert_ne by done; done.
Qed.

Lemma sorted_alter_str key f m : sorted_map m → sorted_map (alter_str key f m).
Proof. unfold alter_str. intros. repeat case_match; try done. by apply sorted_map_insert. Qed.

Lemma retained_get m fields k : k ∈ fields → map_get (retain_known_map m fields) k = map_get m k.
Proof. intros Hk. unfold retain_known_map. rewrite map_get_retain. by rewrite (proj2 (among_true _ _) Hk). Qed.

Lemma decode_message_inv m m' : decode_v1_message m = Ok m' → ∃ role legacy parts decoded,
  map_get m "role" = Some (JStr role) ∧ encode_role legacy = role ∧ legacy ∈ ["user"; "agent"] ∧
  map_get m "parts" = Some (JArr parts) ∧ parts ≠ [] ∧ decode_parts 0 parts = Ok decoded ∧
  m' = map_insert (map_insert (retain_known_map m message_fields) "role" (JStr legacy))
         "parts" (JArr decoded).
Proof.
  intros Hd. unfold decode_v1_message in Hd. inv_result.
  rewrite map_get_insert_ne in H3 by done. rewrite retained_get in H1, H3 by set_solver.
  destruct (map_get m "role") as [[| | |role| |]|]; try done. simpl in H1. injection H1 as ->.
  destruct (map_get m "parts") as [[| | | |[|p parts]|]|]; try done. simpl in H3. injection H3 as <-.
  eexists _, _, _, _. repeat split; [| |done|done].
  - repeat case_bool_decide; inv_result; simplify_eq; done.
  - repeat case_bool_decide; inv_result; simplify_eq; set_solver.
Qed.

Lemma message_roundtrip n m m' :
  wf_json (JObj m) → plain_message m = true → decode_v1_message m = Ok m' →
  encode_value (S (S (S n))) (JObj m') (Some "message") = known_message (JObj m).
Proof.
  intros Hwf Hplain (role & legacy & parts & decoded & Hrole & Hlegacy & _ & Hparts & _ & Hdec & ->)%decode_message_inv.
  apply andb_true_iff in Hplain as [Hfields Hpp]. rewrite Hparts in Hpp.
  pose proof (proj1 (proj1 (wf_json_obj m) Hwf)) as Hsort.
  set (o := map_insert _ "parts" _).
  assert (sorted_map o) as Hso by (by repeat apply sorted_map_insert; apply sorted_map_filter).
  assert (∀ k, k ∈ o.*1 → k ∈ message_fields) as Hkeys.
  { intros k [->|[->|Hk]%map_insert_keys]%map_insert_keys; [set_solver..|].
    apply list_elem_of_fmap in Hk as (kv & -> & Hkv). apply list_elem_of_filter in Hkv as [Hkv _].
    by apply among_true. }
  rewrite encode_object; [|done| |done|].
  2: { apply map_get_not_key. intros Hk%Hkeys. unfold message_fields in Hk. set_solver. }
  2: { intros k Hk%Hkeys. apply protojson_id. unfold message_fields in Hk. set_solver. }
  simpl. f_equal. apply sorted_map_ext.
  { by apply (sorted_map_fmap (λ k v, encode_value (S (S n)) v (Some k))), sorted_alter_str. }
  { by apply sorted_alter_field, sorted_map_filter. }
  intros k. rewrite (map_get_fmap (λ k v, encode_value (S (S n)) v (Some k))).
  rewrite map_get_alter_str, map_get_alter_field. unfold o. clear Hso Hkeys o.
  destruct (decide (k = "parts")) as [->|Hnp].
  { rewrite map_get_insert_eq. fold (retain_known_map m message_fields). rewrite retained_get by set_solver.
    rewrite Hparts. unfold at_key. rewrite bool_decide_true by done.
    change (Some (JArr ((λ v, encode_value (S n) v (Some "parts")) <$> decoded)) =
      Some (JArr (known_part <$> parts))).
    do 2 f_equal. eapply parts_roundtrip; [|done..]. eapply wf_json_arr, wf_json_get; done. }
  rewrite map_get_insert_ne by done. unfold at_key. rewrite bool_decide_false by done.
  destruct (decide (k = "role")) as [->|Hnr].
  { rewrite map_get_insert_eq. fold (retain_known_map m message_fields). rewrite retained_get by set_solver.
    rewrite Hrole. simpl. by rewrite Hlegacy. }
  rewrite map_get_insert_ne by done. unfold retain_known_map. rewrite map_get_retain.
  destruct (among message_fields k) eqn:Hk; [|done]. apply among_true in Hk.
  destruct (map_get m k) as [v|] eqn:Hg; [|done].
  change (Some (encode_value (S (S n)) (match v with JStr s => v | _ => v end) (Some k)) = Some v).
  f_equal. replace (match v with JStr _ => v | _ => v end) with v by (by destruct v).
  apply encode_plain; [by eapply wf_json_get|eapply plain_fields_get; [done..|set_solver]| |].
  - intros [= ->]. unfold message_fields in Hk. set_solver.
  - intros [= ->]. unfold message_fields in Hk. set_solver.
Qed.

(** The inversion of [decode_v1_request]. *)
Lemma decode_request_inv body d : decode_v1_request body = Ok d → ∃ m message message' configured,
  body = JObj m ∧ map_get m "message" = Some (JObj message) ∧ decode_v1_message message = Ok message' ∧
  d = JObj (map_insert configured "message" (JObj message')) ∧
  (configured = retain_known_map m request_fields ∧ map_get m "configuration" = None ∨
   ∃ c, map_get m "configuration" = Some (JObj c) ∧
     configured = map_insert (retain_known_map m request_fields) "configuration"
       (JObj (retain_known_map c configuration_fields))).
Proof.
  unfold decode_v1_request. intros Hd. destruct body as [| | | | |m]; try done. simpl in Hd.
  rewrite retained_get in Hd by set_solver. apply bind_Ok in Hd as (configured & Hc & Hd).
  assert (map_get configured "message" = map_get m "message" ∧
    (configured = retain_known_map m request_fields ∧ map_get m "configuration" = None ∨
     ∃ c, map_get m "configuration" = Some (JObj c) ∧
     configured = map_insert (retain_known_map m request_fields) "configuration"
       (JObj (retain_known_map c configuration_fields)))) as [Hmsg Hconf].
  { destruct (map_get m "configuration") as [c|]; last first.
    { injection Hc as <-. split; [by apply retained_get; set_solver|auto]. }
    apply bind_Ok in Hc as (c' & Hc' & [= <-]). destruct c as [| | | | |c]; try done.
    injection Hc' as <-. rewrite map_get_insert_ne, retained_get by (done || set_solver). eauto. }
  rewrite Hmsg in Hd. destruct (map_get m "message") as [[| | | | |message]|] eqn:Hget; try done. simpl in Hd.
  destruct (contains_key message "kind"); [done|]. inv_result.
  eexists m, message, _, configured. by split_and!.
Qed.

Lemma depth_get m k v : map_get m k = Some v → (S (json_depth v) <= json_depth (JObj m))%nat.
Proof.
  intros Hg%map_get_elem. simpl. apply le_n_S. induction m as [|kv m IH]; [by apply elem_of_nil in Hg|].
  simpl. apply elem_of_cons in Hg as [<-|Hg]; simpl; [lia|]. specialize (IH Hg). lia.
Qed.

Lemma depth_pos v : (1 <= json_depth v)%nat.
Proof. destruct v; simpl; lia. Qed.

Lemma decoded_depth body d : decode_v1_request body = Ok d → (4 <= json_depth d)%nat.
Proof.
  intros (m & message & message' & configured & -> & _ & Hm & -> & _)%decode_request_inv.
  apply decode_message_inv in Hm as (role & legacy & parts & decoded & _ & _ & _ & _ & Hne & Hd & ->).
  pose proof (depth_get _ _ _ (map_get_insert_eq configured "message" (JObj
    (map_insert (map_insert (retain_known_map message message_fields) "role" (JStr legacy)) "parts" (JArr decoded))))).
  pose proof (depth_get _ _ _ (map_get_insert_eq
    (map_insert (retain_known_map message message_fields) "role" (JStr legacy)) "parts" (JArr decoded))).
  assert (2 <= json_depth (JArr decoded))%nat; [|lia].
  destruct parts; [done|]. simpl in Hd. inv_result. simpl. pose proof (depth_pos x). lia.
Qed.

Lemma retained_keys m fields k : k ∈ (retain_known_map m fields).*1 → k ∈ fields.
Proof.
  intros (kv & -> & Hkv)%list_elem_of_fmap. apply list_elem_of_filter in Hkv as [Hkv _].
  by apply among_true.
Qed.

Lemma configuration_plain k v :
  wf_json v → plain_json v = true →
  let w := at_key "configuration" known_configuration k v in wf_json w ∧ plain_json w = true.
Proof.
  unfold at_key. case_bool_decide; [|done]. destruct v as [| | | | |c]; try done.
  intros [Hs Hwf]%wf_json_obj Hp. split.
  - apply wf_json_obj. split; [by apply sorted_map_filter|]. by apply Forall_filter_sub.
  - simpl in *. rewrite forallb_Forall in *. by apply Forall_filter_sub.
Qed.

(** The request object after its configuration was cleaned. *)
Lemma configured_spec m configured :
  sorted_map m →
  (configured = retain_known_map m request_fields ∧ map_get m "configuration" = None ∨
   ∃ c, map_get m "configuration" = Some (JObj c) ∧
     configured = map_insert (retain_known_map m request_fields) "configuration"
       (JObj (retain_known_map c configuration_fields))) →
  sorted_map configured ∧ (∀ k, k ∈ configured.*1 → k ∈ request_fields) ∧
  ∀ k, map_get configured k =
    if among request_fields k then at_key "configuration" known_configuration k <$> map_get m k else None.
Proof.
  intros Hsort Hconf. destruct Hconf as [[-> Hnone]|(c & Hc & ->)].
  - split_and!; [by apply sorted_map_filter|apply retained_keys|]. intros k.
    unfold retain_known_map, at_key. rewrite map_get_retain.
    destruct (among _ k); [|done]. case_bool_decide; [subst; by rewrite Hnone|by destruct (map_get m k)].
  - split_and!; [by apply sorted_map_insert, sorted_map_filter|..]; intros k.
    { intros [->|Hk]%map_insert_keys; [set_solver|by eapply retained_keys]. }
    unfold at_key. destruct (decide (k = "configuration")) as [->|Hne].
    { rewrite map_get_insert_eq, Hc. by rewrite bool_decide_true. }
    rewrite map_get_insert_ne, bool_decide_false by done. unfold retain_known_map.
    rewrite map_get_retain. destruct (among _ k); [|done]. by destruct (map_get m k).
Qed.

(** C34: A 1.0 request that the decoder accepts comes back unchanged from the
    response encoder, up to the members 1.0 does not define, when its free-form
    values (metadata, data, configuration) use no member name the encoder gives
    a meaning to. *)
Theorem v1_request_roundtrip body d :
  wf_json body → plain_request body = true → decode_v1_request body = Ok d →
  encode_v1_response d = known_request body.
Proof.
  intros Hwf Hplain Hd. pose proof (decoded_depth _ _ Hd) as Hdepth. unfold encode_v1_response.
  apply decode_request_inv in Hd as (m & message & message' & configured & -> & Hmsg & Hmd & -> & Hconf).
  destruct (json_depth _) as [|[|[|[|n]]]]; [lia..|]. clear Hdepth.
  simpl in Hplain. apply andb_true_iff in Hplain as [Hfields Hpm]. rewrite Hmsg in Hpm.
  pose proof (proj1 (proj1 (wf_json_obj m) Hwf)) as Hsort.
  apply configured_spec in Hconf as (Hsc & Hkc & Hget); [|done].
  set (o := map_insert configured "message" (JObj message')).
  assert (sorted_map o) as Hso by (by apply sorted_map_insert).
  assert (∀ k, k ∈ o.*1 → k ∈ request_fields) as Hkeys.
  { intros k [->|Hk]%map_insert_keys; [set_solver|auto]. }
  rewrite encode_object; [|done| |done|].
  2: { apply map_get_not_key. intros Hk%Hkeys. unfold request_fields in Hk. set_solver. }
  2: { intros k Hk%Hkeys. apply protojson_id. unfold request_fields in Hk. set_solver. }
  unfold known_request. f_equal. apply sorted_map_ext.
  { by apply (sorted_map_fmap (λ k v, encode_value (S (S (S n))) v (Some k))), sorted_alter_str. }
  { by apply sorted_alter_field, sorted_alter_field, sorted_map_filter. }
  intros k. rewrite (map_get_fmap (λ k v, encode_value (S (S (S n))) v (Some k))), map_get_alter_str.
  rewrite !map_get_alter_field, map_get_retain. unfold o.
  destruct (decide (k = "message")) as [->|Hnm].
  { rewrite map_get_insert_eq, Hmsg.
    change (Some (encode_value (S (S (S n))) (JObj message') (Some "message")) =
      Some (known_message (JObj message))).
    f_equal. apply message_roundtrip; [by eapply wf_json_get|done..]. }
  rewrite map_get_insert_ne, Hget by done. destruct (among request_fields k) eqn:Hk; [|done].
  apply among_true in Hk. destruct (map_get m k) as [v|] eqn:Hv; [|done].
  destruct (configuration_plain k v) as [Hw Hwp];
    [by eapply wf_json_get|eapply plain_fields_get; [done..|set_solver]|].
  unfold fmap, option_fmap, option_map.
  generalize dependent (at_key "configuration" known_configuration k v). intros w Hw Hwp.
  destruct (decide (k = "role")) as [->|_]; [unfold request_fields in Hk; set_solver|].
  replace (match w with JStr _ => w | _ => w end) with w by (by destruct w).
  unfold at_key. rewrite bool_decide_false by done. f_equal.
  apply encode_plain; [done..| |]; intros [= ->]; unfold request_fields in Hk; set_solver.
Qed.

(** ** What the decoder produces *)

(** A part in the executor's legacy shape. *)
Definition legacy_part (q : json) : Prop :=
  ∃ o, q = JObj o ∧
    (map_get o "kind" = Some (JStr "text") ∧ (∃ t, map_get o "text" = Some (JStr t))
     ∨ map_get o "kind" = Some (JStr "data") ∧ is_Some (map_get o "data")
     ∨ map_get o "kind" = Some (JStr "file") ∧ ∃ file, map_get o "file" = Some (JObj file) ∧
         ((∃ raw, map_get file "bytes" = Some (JStr raw) ∧ base64_valid raw = true)
          ∨ ∃ uri, map_get file "uri" = Some (JStr uri))).

(** A message in that shape. *)
Record legacy_message (m : json_map) : Prop := {
  lm_id : ∃ id, map_get m "messageId" = Some (JStr id) ∧ id ≠ EmptyString;
  lm_role : ∃ role, map_get m "role" = Some (JStr role) ∧ role ∈ ["user"; "agent"];
  lm_parts : ∃ parts, map_get m "parts" = Some (JArr parts) ∧ parts ≠ [] ∧ Forall legacy_part parts;
  lm_fields : ∀ k, k ∈ m.*1 → k ∈ message_fields;
}.

Lemma file_of_get field v mt fn :
  map_get (legacy_file field v mt fn) (if bool_decide (field = "raw") then "bytes" else "uri") = Some v.
Proof. unfold legacy_file. rewrite !map_get_copy_optional. by case_bool_decide. Qed.

Lemma decoded_part_typed p q : decode_v1_part p = Ok q → legacy_part q.
Proof.
  intros Hd. destruct p as [| | | | |m]; try done. unfold decode_v1_part in Hd. simpl in Hd.
  destruct (contains_key m "kind"); [done|].
  destruct (filter _ content_fields) as [|field [|]] eqn:Hf; try done.
  apply content_field in Hf as ([v Hv] & Hfield & Hother).
  apply bind_Ok in Hd as ([] & Hc & Hd). rewrite Hv in Hd. simpl in Hd.
  unfold content_fields in Hfield. rewrite !elem_of_cons, elem_of_nil in Hfield.
  destruct Hfield as [->|[->|[->|[->|[]]]]]; simpl in Hd; injection Hd as <-; eexists; (split; [done|]).
  - left. fold (inline_part "text" v (retain_known_map m part_fields)).
    rewrite !inline_part_get by auto. simpl. split; [done|].
    unfold check_content in Hc. simpl in Hc. rewrite Hv in *. destruct v; naive_solver.
  - right; right. rewrite !map_get_copy_optional. split; [done|]. eexists. split; [done|]. left.
    unfold check_content in Hc. simpl in Hc. rewrite Hv in Hc. destruct v; try done. simpl in Hc.
    eexists. split; [apply (file_of_get "raw")|by destruct (base64_valid s)].
  - right; right. rewrite !map_get_copy_optional. split; [done|]. eexists. split; [done|]. right.
    unfold check_content in Hc. simpl in Hc. rewrite Hv in Hc. destruct v; try done.
    eexists. apply (file_of_get "url").
  - right; left. fold (inline_part "data" v (retain_known_map m part_fields)).
    rewrite !inline_part_get by auto. simpl. split; [done|]. rewrite Hv. done.
Qed.

Lemma decoded_parts_typed i parts decoded :
  decode_parts i parts = Ok decoded → Forall legacy_part decoded ∧ length decoded = length parts.
Proof.
  revert i decoded. induction parts as [|p parts IH]; simpl; intros i decoded Hd; inv_result; [done|].
  edestruct IH as [? ?]; [done|]. split; [|simpl; congruence].
  constructor; [by eapply decoded_part_typed|done].
Qed.

(** Whatever 1.0 request the decoder accepts, the handler sees a message of
    the legacy shape: a non-empty id, a role of the two the executor knows, at
    least one part, each part text, data or a file with its content of the right
    type (valid base64 for inline bytes), and no member 1.0 does not define. *)
Theorem decoded_request_typed body d :
  decode_v1_request body = Ok d →
  ∃ o message, d = JObj o ∧ map_get o "message" = Some (JObj message) ∧ legacy_message message.
Proof.
  intros (m & message & message' & configured & -> & _ & Hm & -> & _)%decode_request_inv.
  eexists _, message'. split; [done|]. split; [apply map_get_insert_eq|].
  assert (∃ id, map_get message "messageId" = Some (JStr id) ∧ id ≠ EmptyString) as (id & Hid & Hne).
  { unfold decode_v1_message in Hm. apply bind_Ok in Hm as (id & Hid & _). apply ok_or_Ok in Hid.
    rewrite retained_get in Hid by set_solver.
    destruct (map_get message "messageId") as [[]|]; try done. simpl in Hid.
    case_bool_decide; naive_solver. }
  apply decode_message_inv in Hm as (role & legacy & parts & decoded & _ & _ & Hl & _ & Hnil & Hd & ->).
  apply decoded_parts_typed in Hd as [Hd Hlen]. constructor.
  - exists id. rewrite !map_get_insert_ne, retained_get by (done || set_solver). done.
  - exists legacy. by rewrite map_get_insert_ne, map_get_insert_eq.
  - exists decoded. split; [apply map_get_insert_eq|]. split; [|done]. by destruct decoded, parts.
  - intros k [->|[->|Hk]%map_insert_keys]%map_insert_keys; [set_solver..|by eapply retained_keys].
Qed.
End roundtrip.

(** ** The fuel of the encoder is enough *)

Lemma depth_elem m k v : (k, v) ∈ m → (S (json_depth v) <= json_depth (JObj m))%nat.
Proof.
  simpl. intros Hin. apply le_n_S. induction m as [|kv m IH]; [by apply elem_of_nil in Hin|].
  simpl. apply elem_of_cons in Hin as [<-|Hin]; simpl; [lia|]. specialize (IH Hin). lia.
Qed.

Lemma depth_arr l v : v ∈ l → (S (json_depth v) <= json_depth (JArr l))%nat.
Proof.
  simpl. intros Hin. apply le_n_S. induction l as [|x l IH]; [by apply elem_of_nil in Hin|].
  simpl. apply elem_of_cons in Hin as [->|Hin]; [lia|]. specialize (IH Hin). lia.
Qed.

Lemma elem_of_map_remove m k kv : kv ∈ map_remove m k → kv ∈ m.
Proof. induction m as [|[k' v] m IH]; simpl; [done|]. case_decide; set_solver. Qed.

(** The strings the encoder puts in place of others have depth one. *)
Lemma elem_of_map_insert m k v kv : kv ∈ map_insert m k v → kv = (k, v) ∨ kv ∈ m.
Proof. induction m as [|[k' v'] m IH]; simpl; [set_solver|]. repeat case_match; set_solver. Qed.

Lemma elem_of_alter_str key f m kv :
  kv ∈ alter_str key f m → kv ∈ m ∨ (∃ k v, (k, v) ∈ m) ∧ json_depth kv.2 = 1%nat.
Proof.
  unfold alter_str. destruct (map_get m key) as [[| | |s| |]|] eqn:Hg; auto.
  intros [->|Hin]%elem_of_map_insert; [|auto]. right. apply map_get_elem in Hg. eauto.
Qed.

Lemma encode_part_ext f g object :
  (∀ kv pk, kv ∈ object → f kv.2 pk = g kv.2 pk) → encode_part f object = encode_part g object.
Proof.
  intros Hfg. unfold encode_part. destruct (bool_decide (_ = Some "file")); [|destruct (_ || _); [|done]].
  - f_equal. f_equal. destruct (map_get (map_remove _ _) "metadata") as [v|] eqn:Hg; [|done].
    simpl. f_equal. apply (Hfg ("metadata", v)).
    by eapply elem_of_map_remove, elem_of_map_remove, map_get_elem.
  - do 2 f_equal. apply list_fmap_ext. intros i kv Hi%list_elem_of_lookup_2. f_equal.
    by eapply Hfg, elem_of_map_remove.
Qed.

Lemma encode_value_fuel n n' v pk :
  (json_depth v <= n)%nat → (json_depth v <= n')%nat → encode_value n v pk = encode_value n' v pk.
Proof.
  revert n' v pk. induction n as [|n IH]; intros [|n'] v pk Hn Hn'; try done;
    try (pose proof (depth_pos v); lia).
  destruct v as [| | |s|l|m]; try done.
  - simpl. f_equal. apply list_fmap_ext. intros i x Hi%list_elem_of_lookup_2.
    apply depth_arr in Hi. apply IH; lia.
  - simpl. destruct (is_legacy_part m).
    { apply encode_part_ext. intros [k x] pk' Hin%depth_elem. simpl in *. apply IH; lia. }
    f_equal. f_equal. apply list_fmap_ext. intros i [k x] Hi%list_elem_of_lookup_2. simpl. f_equal.
    assert (S (json_depth x) <= json_depth (JObj m))%nat as Hx; [|apply IH; lia].
    assert (∀ k v, (k, v) ∈ m → (2 <= json_depth (JObj m))%nat) as Htwo.
    { intros k' v Hin%depth_elem. pose proof (depth_pos v). lia. }
    apply elem_of_map_remove, elem_of_alter_str in Hi as [Hi|[(k' & v & Hi) Hd]]; simpl in *;
      (case_bool_decide; [repeat apply elem_of_map_remove in Hi;
        apply elem_of_alter_str in Hi as [Hi|[(k2 & v2 & Hi) Hd']]; simpl in *|]);
      repeat match goal with
      | H : (_, _) ∈ m |- _ => first [apply Htwo in H as ? | idtac]; apply depth_elem in H
      end; simpl in *; lia.
Qed.

(** ** The middleware around a handler *)

Section gate.
Context `{Env, Base64Check, WireText}.
Context {St : Type} (next : St → Request → ProtocolVersion → St * HttpResponse).

Lemma negotiate_v1 value legacy :
  negotiate value legacy = Ok V1_0 ↔ trim (default EmptyString value) = "1.0" ∧ legacy = false.
Proof.
  unfold negotiate. set (t := trim _). clearbody t. split.
  - intros Hn. inv_result. destruct (legacy && _) eqn:E; inv_result.
    destruct legacy; [done|]. split; [|done]. repeat case_bool_decide; simpl in *; try done; inv_result.
    all: by case_match.
  - intros [-> ->]. done.
Qed.

Lemma google_error_version status media s message reason metadata :
  header (resp_headers (google_error status media s message reason metadata)) A2A_VERSION_HEADER
  = Some "1.0".
Proof. done. Qed.

Lemma header_insert_ne headers name name' value :
  name ≠ name' → header (header_insert headers name value) name' = header headers name'.
Proof.
  intros Hne. unfold header, header_insert. rewrite find_first_app.
  replace (find_first (λ h, bool_decide (h.1 = name')) (filter (λ h, h.1 ≠ name) headers))
    with (find_first (λ h, bool_decide (h.1 = name')) headers).
  - destruct (find_first _ headers) as [h|]; [done|]. simpl. by rewrite bool_decide_false.
  - induction headers as [|h hs IH]; [done|]. rewrite filter_cons. simpl.
    destruct (decide (h.1 ≠ name)) as [Hh|Hh]; simpl; [by rewrite IH|].
    apply dec_stable in Hh. rewrite bool_decide_false by congruence. done.
Qed.

(** Encoding a response keeps its version header. *)
Lemma encode_response_version media path response :
  header (resp_headers response) A2A_VERSION_HEADER = Some "1.0" →
  header (resp_headers (encode_response media path response)) A2A_VERSION_HEADER = Some "1.0".
Proof.
  intros Hv. unfold encode_response.
  set (headers := match header _ "location" with Some _ => _ | None => _ end).
  assert (header headers A2A_VERSION_HEADER = Some "1.0") as Hh.
  { unfold headers. case_match; [by rewrite header_insert_ne|done]. }
  case_match; [done|]. case_match; [|done].
  case_bool_decide; simpl; [by rewrite header_insert_ne|].
  case_match; simpl; [by rewrite header_insert_ne|done].
Qed.

(** What a request must be for the handler to see [r] at version [v]. *)
Definition admitted (request r : Request) (v : ProtocolVersion) : Prop :=
  match v with
  | V0_3 => r = request
  | V1_0 =>
      trim (default EmptyString (header (req_headers request) A2A_VERSION_HEADER)) = "1.0" ∧
      ("v1" ∉ split_char "/"%char (req_path request)) ∧
      (req_method request = "GET" → r = request) ∧
      (req_method request ≠ "GET" → is_message_path (req_path request) = true →
       req_body request ≠ EmptyString →
       ∃ body d, json_parse (req_body request) = Some body ∧ decode_v1_request body = Ok d ∧
         req_body r = json_text d)
  end.

Lemma decode_request_admits media request r :
  decode_request media request = Ok r → is_message_path (req_path request) = true →
  req_body request ≠ EmptyString →
  ∃ body d, json_parse (req_body request) = Some body ∧ decode_v1_request body = Ok d ∧
    req_body r = json_text d.
Proof.
  unfold decode_request. intros Hd Hp Hb. inv_result. unfold to_bytes in *.
  destruct (_ <? _); inv_result. rewrite bool_decide_false in Hd by done.
  destruct (negb _); inv_result. rewrite Hp in *. eauto.
Qed.

Lemma decode_request_rejects media request response :
  decode_request media request = Err response →
  resp_status response ∈ [400; 415] ∧ header (resp_headers response) A2A_VERSION_HEADER = Some "1.0".
Proof.
  unfold decode_request. intros [Hd|(bytes & _ & Hd)]%bind_Err.
  { destruct (to_bytes _); simpl in Hd; inv_result. split; [simpl; set_solver|done]. }
  case_bool_decide; inv_result. destruct (negb _); inv_result; [split; [simpl; set_solver|done]|].
  apply bind_Err in Hd as [Hd|(d & _ & Hd)]; [|by inv_result].
  destruct (_ ≫= _) in Hd; simpl in Hd; inv_result. split; [simpl; set_solver|done].
Qed.

(** The middleware either answers itself and leaves the handler's state
    alone, or runs the handler once, on a request it admitted: unchanged for
    0.3; for 1.0 only off the legacy path and, on the message routes, with a
    body that decoded into the legacy shape.  Every answer carries the version. *)
Theorem handler_sees_admitted_request m st request :
  let '(m', st', response) := protocol_middleware next m st request in
  (st' = st ∧ resp_status response ∈ [400; 415] ∧
   header (resp_headers response) A2A_VERSION_HEADER = Some "1.0") ∨
  ∃ r v, negotiate (header (req_headers request) A2A_VERSION_HEADER)
           (bool_decide ("v1" ∈ split_char "/"%char (req_path request))) = Ok v ∧
    st' = (next st r v).1 ∧ admitted request r v ∧
    header (resp_headers response) A2A_VERSION_HEADER = Some (as_header_value v).
Proof.
  unfold protocol_middleware.
  replace (existsb (λ part, bool_decide (part = "v1")) (split_char "/"%char (req_path request)))
    with (bool_decide ("v1" ∈ split_char "/"%char (req_path request))).
  2: { symmetry. case_bool_decide as Hin.
    - apply existsb_true. eexists. split; [exact Hin|done].
    - apply existsb_false. intros x Hx. apply bool_decide_eq_false. by intros ->. }
  set (legacy := bool_decide _).
  destruct (negotiate _ legacy) as [v|e] eqn:Hneg; [|left; simpl; split_and!; [done|set_solver|done]].
  destruct (if bool_decide (v = V1_0) && _ then _ else _) as [r|response] eqn:Hdec; last first.
  { left. split; [done|]. destruct (_ && _); [|done]. by eapply decode_request_rejects. }
  destruct (next st r v) as [st' response] eqn:Hnext. right. exists r, v. rewrite Hnext.
  split; [done|]. split; [done|]. split.
  - destruct v; [by injection Hdec as ->|]. apply negotiate_v1 in Hneg as [Ht Hl].
    split; [done|]. split; [by apply bool_decide_eq_false in Hl|]. split.
    + intros Hget. rewrite (bool_decide_true (req_method _ = _)) in Hdec by done. by injection Hdec as ->.
    + intros Hget. rewrite (bool_decide_false (req_method _ = _)) in Hdec by done. by apply (decode_request_admits _ _ _ Hdec).
  - destruct v; simpl; [|apply encode_response_version; simpl];
      by rewrite header_insert_ne, header_insert_eq.
Qed.
End gate.

(** ** Sample requests *)

#[local] Instance sample_base64 : Base64Check := {| base64_valid := λ s, str_len s `mod` 4 =? 0 |}.

Definition sample_part_data (data : json) : json :=
  json_obj [("message", json_obj [("messageId", JStr "m-1"); ("role", JStr "ROLE_USER");
    ("parts", JArr [json_obj [("data", data)]])])].

Definition sample_v1_request : json :=
  json_obj [("message", json_obj [("messageId", JStr "m-1"); ("role", JStr "ROLE_AGENT");
    ("x-unknown", JNum 1); ("metadata", json_obj [("origin", JStr "test")]);
    ("parts", JArr [
       json_obj [("text", JStr "hello"); ("mediaType", JStr "text/plain")];
       json_obj [("raw", JStr "aGk="); ("filename", JStr "f")];
       json_obj [("url", JStr "https://example.test"); ("metadata", JNull)];
       json_obj [("data", json_obj [("answer", JNum 42)]); ("other", JNull)]])]);
   ("configuration", json_obj [("historyLength", JNum 3); ("blocking", JBool true)])].

Definition decoded_sample (body : json) : json :=
  match decode_v1_request body with Ok d => d | Err _ => JNull end.

Fixpoint wf_jsonb (v : json) : bool :=
  match v with
  | JArr l => forallb wf_jsonb l
  | JObj m => sorted_keys m.*1 && forallb (λ kv, wf_jsonb kv.2) m
  | _ => true
  end.

Lemma wf_jsonb_sound v : wf_jsonb v = true → wf_json v.
Proof.
  induction v as [| | | |l IH|m IH] using json_nested_ind; try done; simpl.
  - intros Hl%forallb_Forall. apply wf_json_arr. exact (Forall_impl_in _ _ _ IH Hl).
  - intros [Hs Hm%forallb_Forall]%andb_true_iff. apply wf_json_obj.
    split; [by apply sorted_keys_sorted|exact (Forall_impl_in _ _ _ IH Hm)].
Qed.

Lemma v1_request_roundtrip_witness :
  encode_v1_response (decoded_sample sample_v1_request) = known_request sample_v1_request.
Proof.
  apply (v1_request_roundtrip sample_v1_request (decoded_sample sample_v1_request)).
  - apply wf_jsonb_sound. reflexivity.
  - reflexivity.
  - reflexivity.
Defined.

Lemma decoded_request_typed_witness :
  ∃ o message, decoded_sample sample_v1_request = JObj o ∧
    map_get o "message" = Some (JObj message) ∧ legacy_message message.
Proof. apply (decoded_request_typed sample_v1_request). reflexivity. Defined.

(** User data is not opaque to the encoder: members named [kind] inside the
    data of a part are dropped and [task_id] is renamed when the part is sent
    back to a 1.0 client. *)
Theorem user_data_rewritten :
  ∃ d, decode_v1_request (sample_part_data (json_obj [("kind", JStr "invoice"); ("task_id", JNum 7)]))
       = Ok d ∧
    encode_v1_response d = sample_part_data (json_obj [("taskId", JNum 7)]).
Proof. eexists. split; reflexivity. Qed.
