(* ===== verification/InstanceCell.v ===== *)
(** * The instance cell ([management/src/celld/model.rs])

    One cell per logical sandbox instance: the desired lifecycle state, the
    ledger of effects (one per accepted operation id), the last management
    observation and a bounded event history.  Every handler of
    [impl InstanceCell] is a function from the cell to the cell and its
    result; [now] is the clock reading of the call. *)

From S2P Require Import Prelude Json.

Local Open Scope string_scope.
Local Open Scope list_scope.
Local Open Scope Z_scope.

Definition MAX_EFFECTS : Z := 1000.
Definition MAX_HISTORY : Z := 10000.

(** ** Data *)

Module Lifecycle.
Inductive LifecycleState : Type :=
| Requested | Provisioning | Enrolling | Ready | Stopping | Stopped
| Failed | Unknown | Destroyed.
End Lifecycle.
Abbreviation LifecycleState := Lifecycle.LifecycleState.

Module Action.
Inductive CellAction : Type :=
| Provision | Start | Stop | Destroy | Observe | Repair.
End Action.
Abbreviation CellAction := Action.CellAction.

Module Effect.
Inductive EffectStatus : Type :=
| Pending | Dispatched | Unknown | Succeeded | Failed | Rejected.
End Effect.
Abbreviation EffectStatus := Effect.EffectStatus.

#[export] Instance LifecycleState_eq_dec : EqDecision LifecycleState.
Proof. solve_decision. Defined.
#[export] Instance CellAction_eq_dec : EqDecision CellAction.
Proof. solve_decision. Defined.
#[export] Instance EffectStatus_eq_dec : EqDecision EffectStatus.
Proof. solve_decision. Defined.

(** [EffectStatus::is_terminal] *)
Definition effect_is_terminal (s : EffectStatus) : bool :=
  match s with
  | Effect.Succeeded | Effect.Failed | Effect.Rejected => true
  | _ => false
  end.

(** serde's [snake_case] names, as they appear in hashes and evidence *)
Definition action_json (a : CellAction) : json :=
  JStr match a with
       | Action.Provision => "provision" | Action.Start => "start"
       | Action.Stop => "stop" | Action.Destroy => "destroy"
       | Action.Observe => "observe" | Action.Repair => "repair"
       end.

Definition status_json (s : EffectStatus) : json :=
  JStr match s with
       | Effect.Pending => "pending" | Effect.Dispatched => "dispatched"
       | Effect.Unknown => "unknown" | Effect.Succeeded => "succeeded"
       | Effect.Failed => "failed" | Effect.Rejected => "rejected"
       end.

Record CellCommand : Type := {
  cmd_document_type : string;
  cmd_schema_version : string;
  cmd_operation_id : string;
  cmd_instance_id : string;
  cmd_generation : Z;
  cmd_action : CellAction;
  cmd_request_hash : string;
  cmd_issued_at : Z;
  cmd_payload : json_map;
}.

Record ManagementObservation : Type := {
  obs_generation : Z;
  obs_runtime_state : string;
  obs_agent_state : string;
  obs_runtime_id : option string;
  obs_provider : option string;
  obs_observed_at : Z;
}.

Record EffectRecord : Type := {
  eff_operation_id : string;
  eff_request_hash : string;
  eff_action : CellAction;
  eff_generation : Z;
  eff_payload : json_map;
  eff_status : EffectStatus;
  eff_attempts : Z;
  eff_retry_at : option Z;
  eff_terminal_code : option string;
  eff_management_operation_id : option string;
}.

Inductive CellEventKind : Type :=
| CommandAccepted | EffectDispatched | EffectUnknown | EffectTerminal
| ObservationRecorded | DivergenceDetected | RepairApplied | Tombstoned.

Record CellEvent : Type := {
  ev_document_type : string;
  ev_schema_version : string;
  ev_event_id : string;
  ev_instance_id : string;
  ev_operation_id : option string;
  ev_generation : Z;
  ev_sequence : Z;
  ev_kind : CellEventKind;
  ev_from_state : option LifecycleState;
  ev_to_state : option LifecycleState;
  ev_code : option string;
  ev_recorded_at : Z;
  ev_evidence : json_map;
}.

Record InstanceCell : Type := {
  document_type : string;
  schema_version : string;
  instance_id : string;
  generation : Z;
  desired_state : LifecycleState;
  observation : option ManagementObservation;
  effects : list EffectRecord;
  history_sequence : Z;
  tombstone_until : option Z;
  updated_at : Z;
  history : list CellEvent;
}.

Inductive CommandDisposition : Type :=
| Accepted
| Replayed (status : EffectStatus).

Module Class.
Inductive ReconcileClassification : Type :=
| Converged | EffectPending | OutcomeUnknown | DesiredObservedDivergence
| CellGenerationStale | ObservationStale | Tombstoned.
End Class.
Abbreviation ReconcileClassification := Class.ReconcileClassification.

#[export] Instance ReconcileClassification_eq_dec : EqDecision ReconcileClassification.
Proof. solve_decision. Defined.

Record ReconcileResult : Type := {
  rr_classification : ReconcileClassification;
  rr_instance_id : string;
  rr_generation : Z;
  rr_desired_state : LifecycleState;
  rr_observed_runtime_state : option string;
  rr_outstanding_operations : list string;
  rr_repair : option string;
}.

Inductive CellError : Type :=
| MissingInstanceId
| MissingOperationId
| InvalidGeneration
| InstanceMismatch
| StaleGeneration (command current : Z)
| FutureGeneration (command current : Z)
| OperationCollision
| RequestHashMismatch
| PayloadNotObject
| Canonicalization (msg : string)
| InvalidTransition (state : LifecycleState) (action : CellAction)
| OperationNotFound (op : string)
| OperationTerminal (op : string)
| EffectGenerationFenced (op : string) (gen current : Z)
| EffectLimit
| StaleObservation.

(** ** Commands *)

Definition is_identifier_byte (b : Ascii.ascii) : bool :=
  is_ascii_alphanumeric b ||
  let n := byte_val b in (n =? 46) || (n =? 95) || (n =? 58) || (n =? 45).

(** [validate_identifier] *)
Definition validate_identifier (value : string) : bool :=
  match value with
  | String.EmptyString => false
  | String.String b _ =>
      (str_len value <=? 128) && is_ascii_alphanumeric b &&
      string_forallb is_identifier_byte value
  end.

Section cell.
Context `{Env}.
Implicit Types (now : Z) (c : InstanceCell).

(** [canonical_request_hash] *)
Definition canonical_request_hash (operation_id instance_id : string) (generation : Z)
    (action : CellAction) (payload : json_map) : result CellError string :=
  map_err Canonicalization (jcs_sha256 (json_obj [
    ("operation_id", JStr operation_id);
    ("instance_id", JStr instance_id);
    ("generation", JNum generation);
    ("action", action_json action);
    ("payload", JObj payload)])).

(** [CellCommand::new] *)
Definition command_new now (operation_id instance_id : string) (generation : Z)
    (action : CellAction) (payload : json) : result CellError CellCommand :=
  payload ← ok_or (as_object payload) PayloadNotObject;
  request_hash ← canonical_request_hash operation_id instance_id generation action payload;
  Ok {| cmd_document_type := "instance-cell-command"; cmd_schema_version := "1";
        cmd_operation_id := operation_id; cmd_instance_id := instance_id;
        cmd_generation := generation; cmd_action := action;
        cmd_request_hash := request_hash; cmd_issued_at := now;
        cmd_payload := payload |}.

(** [CellCommand::verify_hash] *)
Definition verify_hash (cmd : CellCommand) : result CellError unit :=
  actual ← canonical_request_hash (cmd_operation_id cmd) (cmd_instance_id cmd)
             (cmd_generation cmd) (cmd_action cmd) (cmd_payload cmd);
  if decide (actual = cmd_request_hash cmd) then Ok () else Err RequestHashMismatch.

(** [CellCommand::validate] *)
Definition command_validate (cmd : CellCommand) : result CellError unit :=
  if negb (validate_identifier (cmd_operation_id cmd)) then Err MissingOperationId
  else if negb (validate_identifier (cmd_instance_id cmd)) then Err MissingInstanceId
  else if cmd_generation cmd =? 0 then Err InvalidGeneration
  else verify_hash cmd.

(** [EffectRecord::to_command] *)
Definition to_command now (e : EffectRecord) (instance_id : string) : result CellError CellCommand :=
  let command := {| cmd_document_type := "instance-cell-command"; cmd_schema_version := "1";
    cmd_operation_id := eff_operation_id e; cmd_instance_id := instance_id;
    cmd_generation := eff_generation e; cmd_action := eff_action e;
    cmd_request_hash := eff_request_hash e; cmd_issued_at := now;
    cmd_payload := eff_payload e |} in
  _ ← verify_hash command;
  Ok command.

(** ** Transition tables *)

(** [next_desired_state] *)
Definition next_desired_state (current : LifecycleState) (action : CellAction)
    : result CellError LifecycleState :=
  match action, current with
  | Action.Provision, (Lifecycle.Requested | Lifecycle.Stopped | Lifecycle.Failed) =>
      Ok Lifecycle.Provisioning
  | Action.Start, (Lifecycle.Stopped | Lifecycle.Failed) => Ok Lifecycle.Provisioning
  | Action.Stop, (Lifecycle.Provisioning | Lifecycle.Enrolling | Lifecycle.Ready
                 | Lifecycle.Unknown) => Ok Lifecycle.Stopping
  | Action.Destroy, _ =>
      if decide (current = Lifecycle.Destroyed) then Err (InvalidTransition current action)
      else Ok Lifecycle.Stopping
  | Action.Observe, _ => Ok current
  | Action.Repair, _ =>
      if decide (current = Lifecycle.Destroyed) then Err (InvalidTransition current action)
      else Ok Lifecycle.Unknown
  | _, _ => Err (InvalidTransition current action)
  end.

(** [terminal_desired_state] *)
Definition terminal_desired_state (action : CellAction) (status : EffectStatus)
    (current : LifecycleState) : LifecycleState :=
  match action, status with
  | (Action.Provision | Action.Start), Effect.Succeeded => Lifecycle.Enrolling
  | Action.Stop, Effect.Succeeded => Lifecycle.Stopped
  | Action.Destroy, Effect.Succeeded => Lifecycle.Destroyed
  | _, (Effect.Failed | Effect.Rejected) => Lifecycle.Failed
  | _, _ => current
  end.

(** [observation_matches_desired] *)
Definition observation_matches_desired (desired : LifecycleState)
    (observation : option ManagementObservation) : bool :=
  match observation with
  | None => bool_decide (desired = Lifecycle.Requested)
  | Some o =>
      let rt := obs_runtime_state o in let ag := obs_agent_state o in
      match desired with
      | Lifecycle.Requested => bool_decide (rt = "absent")
      | Lifecycle.Provisioning =>
          bool_decide (rt = "pending") || bool_decide (rt = "provisioning")
      | Lifecycle.Enrolling => bool_decide (rt = "ready") && bool_decide (ag ≠ "ready")
      | Lifecycle.Ready => bool_decide (rt = "ready") && bool_decide (ag = "ready")
      | Lifecycle.Stopping => bool_decide (rt = "stopping")
      | Lifecycle.Stopped => bool_decide (rt = "stopped")
      | Lifecycle.Failed => bool_decide (rt = "failed")
      | Lifecycle.Unknown => false
      | Lifecycle.Destroyed => bool_decide (rt = "destroyed")
      end
  end.

(** ** Handlers *)

(** [InstanceCell::new] *)
Definition cell_new now (instance_id : string) (generation : Z) : result CellError InstanceCell :=
  if trim_is_empty instance_id then Err MissingInstanceId
  else if generation =? 0 then Err InvalidGeneration
  else Ok {| document_type := "instance-cell-state"; schema_version := "1";
             instance_id := instance_id; generation := generation;
             desired_state := Lifecycle.Requested; observation := None; effects := [];
             history_sequence := 0; tombstone_until := None; updated_at := now;
             history := [] |}.

(** [InstanceCell::record_event]: number the event, append it, drop the
    oldest events beyond [MAX_HISTORY]. *)
Definition record_event now c (operation_id : option string) (kind : CellEventKind)
    (from_state to_state : option LifecycleState) (code : option string)
    (evidence : json) : InstanceCell :=
  let seq := sat_add u64_max (history_sequence c) 1 in
  let event := {| ev_document_type := "instance-cell-event"; ev_schema_version := "1";
    ev_event_id := "evt_" +:+ uuid seq; ev_instance_id := instance_id c;
    ev_operation_id := operation_id; ev_generation := generation c;
    ev_sequence := seq; ev_kind := kind; ev_from_state := from_state;
    ev_to_state := to_state; ev_code := code; ev_recorded_at := now;
    ev_evidence := match evidence with JObj m => m | _ => [] end |} in
  let pushed := history c ++ [event] in
  c <| history_sequence := seq |> <| updated_at := now |>
    <| history := if MAX_HISTORY <? len pushed
                  then drop (Z.to_nat (len pushed - MAX_HISTORY)) pushed else pushed |>.

Definition has_operation (operation_id : string) (e : EffectRecord) : bool :=
  bool_decide (eff_operation_id e = operation_id).

(** [InstanceCell::accept] *)
Definition accept now c (cmd : CellCommand) : InstanceCell * result CellError CommandDisposition :=
  match command_validate cmd with
  | Err e => (c, Err e)
  | Ok _ =>
    if decide (cmd_instance_id cmd ≠ instance_id c) then (c, Err InstanceMismatch)
    else if cmd_generation cmd <? generation c
    then (c, Err (StaleGeneration (cmd_generation cmd) (generation c)))
    else if generation c <? cmd_generation cmd
    then (c, Err (FutureGeneration (cmd_generation cmd) (generation c)))
    else match find_first (has_operation (cmd_operation_id cmd)) (effects c) with
    | Some e =>
        if decide (eff_request_hash e ≠ cmd_request_hash cmd) then (c, Err OperationCollision)
        else (c, Ok (Replayed (eff_status e)))
    | None =>
        if MAX_EFFECTS <=? len (effects c) then (c, Err EffectLimit)
        else match next_desired_state (desired_state c) (cmd_action cmd) with
        | Err e => (c, Err e)
        | Ok next_state =>
            let previous := desired_state c in
            let effect := {| eff_operation_id := cmd_operation_id cmd;
              eff_request_hash := cmd_request_hash cmd; eff_action := cmd_action cmd;
              eff_generation := cmd_generation cmd; eff_payload := cmd_payload cmd;
              eff_status := Effect.Pending; eff_attempts := 0; eff_retry_at := None;
              eff_terminal_code := None; eff_management_operation_id := None |} in
            let c' := c <| desired_state := next_state |>
                        <| effects := effects c ++ [effect] |> in
            (record_event now c' (Some (cmd_operation_id cmd)) CommandAccepted
               (Some previous) (Some next_state) None
               (json_obj [("request_hash", JStr (cmd_request_hash cmd));
                          ("action", action_json (cmd_action cmd))]),
             Ok Accepted)
        end
    end
  end.

(** [effect_mut] followed by a mutation of the effect it returns. *)
Definition update_effect c (operation_id : string) (f : EffectRecord → EffectRecord) : InstanceCell :=
  c <| effects := update_first (has_operation operation_id) f (effects c) |>.

(** [InstanceCell::record_dispatched] *)
Definition record_dispatched now c (operation_id : string)
    (management_operation_id : option string) : InstanceCell * result CellError unit :=
  match find_first (has_operation operation_id) (effects c) with
  | None => (c, Err (OperationNotFound operation_id))
  | Some e =>
      if eff_generation e <? generation c
      then (c, Err (EffectGenerationFenced operation_id (eff_generation e) (generation c)))
      else if effect_is_terminal (eff_status e) then (c, Err (OperationTerminal operation_id))
      else
        let c' := update_effect c operation_id (λ e,
          e <| eff_status := Effect.Dispatched |>
            <| eff_attempts := sat_add u32_max (eff_attempts e) 1 |>
            <| eff_management_operation_id := management_operation_id |>
            <| eff_retry_at := None |>) in
        (record_event now c' (Some operation_id) EffectDispatched None None None JNull, Ok ())
  end.

(** [InstanceCell::record_unknown] *)
Definition record_unknown now c (operation_id : string) (retry_after : Z) (code : string)
    : InstanceCell * result CellError unit :=
  let retry_at := now + retry_after in
  match find_first (has_operation operation_id) (effects c) with
  | None => (c, Err (OperationNotFound operation_id))
  | Some e =>
      if eff_generation e <? generation c
      then (c, Err (EffectGenerationFenced operation_id (eff_generation e) (generation c)))
      else if effect_is_terminal (eff_status e) then (c, Err (OperationTerminal operation_id))
      else
        let c' := update_effect c operation_id (λ e,
          e <| eff_status := Effect.Unknown |> <| eff_retry_at := Some retry_at |>) in
        let c'' := c' <| desired_state := Lifecycle.Unknown |> in
        (record_event now c'' (Some operation_id) EffectUnknown None (Some Lifecycle.Unknown)
           (Some code) (json_obj [("retry_at", JStr (rfc3339 retry_at))]), Ok ())
  end.

(** Nanoseconds in the 30 days a tombstone is kept. *)
Definition tombstone_ns : Z := 30 * 24 * 3600 * 1000000000.

(** [InstanceCell::record_terminal] *)
Definition record_terminal now c (operation_id : string) (status : EffectStatus)
    (code : option string) : InstanceCell * result CellError unit :=
  if negb (effect_is_terminal status)
  then (c, Err (InvalidTransition (desired_state c) Action.Repair))
  else
  let previous := desired_state c in
  match find_first (has_operation operation_id) (effects c) with
  | None => (c, Err (OperationNotFound operation_id))
  | Some e =>
      if effect_is_terminal (eff_status e) then
        if decide (eff_status e = status ∧ eff_terminal_code e = code) then (c, Ok ())
        else (c, Err (OperationTerminal operation_id))
      else
        let c1 := update_effect c operation_id (λ e,
          e <| eff_status := status |> <| eff_retry_at := None |>
            <| eff_terminal_code := code |>) in
        let next := terminal_desired_state (eff_action e) status (desired_state c) in
        let c2 := c1 <| desired_state := next |> in
        let c3 := if decide (next = Lifecycle.Destroyed)
                  then c2 <| tombstone_until := Some (now + tombstone_ns) |> else c2 in
        (record_event now c3 (Some operation_id)
           (if decide (next = Lifecycle.Destroyed) then Tombstoned else EffectTerminal)
           (Some previous) (Some next) code (json_obj [("status", status_json status)]),
         Ok ())
  end.

(** The effects a newer observed generation fences off. *)
Definition is_fenced (new_generation : Z) (e : EffectRecord) : bool :=
  (eff_generation e <? new_generation) && negb (effect_is_terminal (eff_status e)).

Definition fence_effect (e : EffectRecord) : EffectRecord :=
  e <| eff_status := Effect.Rejected |> <| eff_retry_at := None |>
    <| eff_terminal_code := Some "celld.stale_generation_fenced" |>.

(** [InstanceCell::observe] *)
Definition observe now c (o : ManagementObservation) : InstanceCell * result CellError unit :=
  if obs_generation o <? generation c then (c, Err StaleObservation)
  else
  let previous := desired_state c in
  let c1 :=
    if generation c <? obs_generation o then
      let new_generation := obs_generation o in
      let fenced := (λ e, (eff_operation_id e, eff_generation e)) <$>
                    filter (λ e, is_fenced new_generation e = true) (effects c) in
      let c' := c <| effects := (λ e, if is_fenced new_generation e then fence_effect e else e)
                                <$> effects c |>
                  <| generation := new_generation |>
                  <| desired_state := Lifecycle.Unknown |> in
      foldl (λ c f,
        record_event now c (Some f.1) EffectTerminal None (Some Lifecycle.Unknown)
          (Some "celld.stale_generation_fenced")
          (json_obj [("effect_generation", JNum f.2);
                     ("observed_generation", JNum new_generation);
                     ("status", status_json Effect.Rejected)])) c' fenced
    else if decide (obs_runtime_state o = "ready" ∧ obs_agent_state o = "ready")
    then c <| desired_state := Lifecycle.Ready |>
    else if decide (obs_runtime_state o = "stopped" ∧
                    (desired_state c = Lifecycle.Stopping ∨ desired_state c = Lifecycle.Unknown))
    then c <| desired_state := Lifecycle.Stopped |>
    else if decide (obs_runtime_state o = "destroyed")
    then c <| desired_state := Lifecycle.Destroyed |>
           <| tombstone_until := match tombstone_until c with
                                 | Some t => Some t
                                 | None => Some (now + tombstone_ns)
                                 end |>
    else c in
  let c2 := c1 <| observation := Some o |> in
  (record_event now c2 None ObservationRecorded (Some previous) (Some (desired_state c2)) None
     (json_obj [("observed_generation", JNum (obs_generation o));
                ("runtime_state", JStr (obs_runtime_state o));
                ("agent_state", JStr (obs_agent_state o))]),
   Ok ()).

(** [format!("{classification:?}").to_ascii_lowercase()] *)
Definition classification_code (k : ReconcileClassification) : string :=
  match k with
  | Class.Converged => "converged"
  | Class.EffectPending => "effectpending"
  | Class.OutcomeUnknown => "outcomeunknown"
  | Class.DesiredObservedDivergence => "desiredobserveddivergence"
  | Class.CellGenerationStale => "cellgenerationstale"
  | Class.ObservationStale => "observationstale"
  | Class.Tombstoned => "tombstoned"
  end.

Definition is_outstanding c (e : EffectRecord) : bool :=
  (eff_generation e =? generation c) && negb (effect_is_terminal (eff_status e)).

(** The classification of [InstanceCell::reconcile]. *)
Definition classify c (management_generation : Z) : ReconcileClassification * option string :=
  if decide (desired_state c = Lifecycle.Destroyed) then (Class.Tombstoned, None)
  else if generation c <? management_generation
  then (Class.CellGenerationStale, Some "refresh_cell_binding_from_management")
  else if management_generation <? generation c
  then (Class.ObservationStale, Some "refresh_management_inventory_without_effect")
  else if existsb (λ e, (eff_generation e =? generation c) &&
                        bool_decide (eff_status e = Effect.Unknown)) (effects c)
  then (Class.OutcomeUnknown, Some "lookup_original_operations_and_inventory")
  else if existsb (is_outstanding c) (effects c)
  then (Class.EffectPending, Some "dispatch_pending_effects_by_original_operation_id")
  else if observation_matches_desired (desired_state c) (observation c)
  then (Class.Converged, None)
  else (Class.DesiredObservedDivergence, Some "apply_generation_safe_repair_operation").

(** [InstanceCell::reconcile] *)
Definition reconcile now c (management_generation : Z) : InstanceCell * ReconcileResult :=
  let outstanding := eff_operation_id <$> filter (λ e, is_outstanding c e = true) (effects c) in
  let (classification, repair) := classify c management_generation in
  let c' := if decide (classification ≠ Class.Converged)
            then record_event now c None DivergenceDetected None None
                   (Some (classification_code classification))
                   (json_obj [("management_generation", JNum management_generation)])
            else c in
  (c', {| rr_classification := classification; rr_instance_id := instance_id c';
          rr_generation := generation c'; rr_desired_state := desired_state c';
          rr_observed_runtime_state := obs_runtime_state <$> observation c;
          rr_outstanding_operations := outstanding; rr_repair := repair |}).

(** The loop of [InstanceCell::validate_invariants] over the effects. *)
Fixpoint validate_effects (generation : Z) (ids : gset string) (es : list EffectRecord)
    : result CellError unit :=
  match es with
  | [] => Ok ()
  | e :: es' =>
      if decide (eff_operation_id e ∈ ids) then Err OperationCollision
      else if generation <? eff_generation e
      then Err (FutureGeneration (eff_generation e) generation)
      else validate_effects generation ({[eff_operation_id e]} ∪ ids) es'
  end.

(** [InstanceCell::validate_invariants] *)
Definition validate_invariants c : result CellError unit :=
  if trim_is_empty (instance_id c) then Err MissingInstanceId
  else if generation c =? 0 then Err InvalidGeneration
  else
  _ ← validate_effects (generation c) ∅ (effects c);
  if decide (desired_state c = Lifecycle.Destroyed ∧ tombstone_until c = None)
  then Err (InvalidTransition (desired_state c) Action.Destroy) else Ok ().

(** ** Reachable cells

    One step is one handler call, with any arguments and any clock. *)

Inductive cell_step : InstanceCell → InstanceCell → Prop :=
| step_accept now c cmd : cell_step c (accept now c cmd).1
| step_dispatched now c op m : cell_step c (record_dispatched now c op m).1
| step_unknown now c op retry code : cell_step c (record_unknown now c op retry code).1
| step_terminal now c op status code : cell_step c (record_terminal now c op status code).1
| step_observe now c o : cell_step c (observe now c o).1
| step_reconcile now c g : cell_step c (reconcile now c g).1.

(** A cell is created with a [u64] generation and then only stepped. *)
Definition cell_reachable c : Prop :=
  ∃ now id gen c0, 0 <= gen ∧ cell_new now id gen = Ok c0 ∧ rtc cell_step c0 c.

(** The part of an effect that is bound when the command is accepted. *)
Definition effect_binding (e : EffectRecord) : string * string * CellAction * Z * json_map :=
  (eff_operation_id e, eff_request_hash e, eff_action e, eff_generation e, eff_payload e).

(** ** The cell invariant *)

(** What holds of the effects, the generation and the tombstone. *)
Record effects_inv c : Prop := {
  inv_id : trim_is_empty (instance_id c) = false;
  inv_gen : 0 < generation c;
  inv_nodup : NoDup (eff_operation_id <$> effects c);
  inv_gens : Forall (λ e, eff_generation e <= generation c) (effects c);
  inv_fence : Forall (λ e, effect_is_terminal (eff_status e) = false →
                           eff_generation e = generation c) (effects c);
  inv_tombstone : desired_state c = Lifecycle.Destroyed → tombstone_until c ≠ None;
  inv_effects : len (effects c) <= MAX_EFFECTS;
}.

(** What holds of the history: it is bounded, and until the [u64] sequence
    saturates its events are numbered without a gap up to the sequence. *)
Record history_inv c : Prop := {
  inv_history : len (history c) <= MAX_HISTORY;
  inv_sequence : 0 <= history_sequence c;
  inv_numbering : history_sequence c < u64_max →
    ev_sequence <$> history c =
    seqZ (history_sequence c - len (history c) + 1) (len (history c));
}.

(** *** [record_event] *)

Lemma record_event_history now c op k f t code ev :
  history_inv c → history_inv (record_event now c op k f t code ev).
Proof.
  intros [Hlen Hseq Hnum]. unfold record_event.
  set (e := Build_CellEvent _ _ _ _ _ _ _ _ _ _ _ _ _).
  assert (ev_sequence e = sat_add u64_max (history_sequence c) 1) as He by done.
  clearbody e. unfold sat_add in *. constructor; simpl.
  - destruct (_ <? _) eqn:Hb; reflect_bools; [|lia].
    unfold len, MAX_HISTORY in *. rewrite length_drop. lia.
  - unfold u64_max. lia.
  - intros Hlt.
    assert (Z.min u64_max (history_sequence c + 1) = history_sequence c + 1)
      as Hmin by lia. rewrite Hmin in *.
    assert (ev_sequence <$> history c ++ [e] =
      seqZ (history_sequence c + 1 - len (history c ++ [e]) + 1) (len (history c ++ [e])))
      as Hpushed.
    { rewrite fmap_app, Hnum, len_app by lia. pose proof (len_nonneg (history c)).
      rewrite seqZ_app by (unfold len; simpl; lia). f_equal.
      - f_equal. unfold len. simpl. lia.
      - csimpl. rewrite He. unfold len; simpl. rewrite seqZ_cons by lia.
        rewrite seqZ_nil by lia. f_equal. lia. }
    destruct (_ <? _) eqn:Hb; [|done]. reflect_bools. unfold MAX_HISTORY in *.
    rewrite fmap_drop, Hpushed, drop_seqZ by lia.
    unfold len in *. rewrite length_drop. f_equal; lia.
Qed.

Lemma record_event_effects now c op k f t code ev :
  effects_inv c → effects_inv (record_event now c op k f t code ev).
Proof. by intros []. Qed.

Lemma foldl_record_event (P : InstanceCell → Prop) {A} now
    (fop : A → option string) (fk : A → CellEventKind) ff ft fc (fe : A → json) l c :
  (∀ c op k f t code ev, P c → P (record_event now c op k f t code ev)) →
  P c →
  P (foldl (λ c x, record_event now c (fop x) (fk x) (ff x) (ft x) (fc x) (fe x)) c l).
Proof. intros Hstep. revert c. induction l as [|x l IH]; simpl; auto. Qed.

(** *** Updating one effect *)

Lemma update_effect_inv c op f e :
  effects_inv c →
  (∀ e, effect_binding (f e) = effect_binding e) →
  find_first (has_operation op) (effects c) = Some e →
  effect_is_terminal (eff_status e) = false →
  effects_inv (update_effect c op f).
Proof.
  intros [] Hbind Hfind Hlive.
  assert (∀ e, eff_operation_id (f e) = eff_operation_id e) as Hop
    by (intros e'; specialize (Hbind e'); by simplify_eq/=).
  assert (∀ e, eff_generation (f e) = eff_generation e) as Hgen
    by (intros e'; specialize (Hbind e'); by simplify_eq/=).
  constructor; simpl; try done.
  - by rewrite fmap_update_first.
  - apply Forall_update_first; [done|]. intros. by rewrite Hgen.
  - apply Forall_update_first; [done|]. intros e' He' Hold _.
    rewrite Hgen. apply Hold. congruence.
  - unfold len. by rewrite length_update_first.
Qed.

Lemma history_inv_ext c c' :
  history c' = history c → history_sequence c' = history_sequence c →
  history_inv c → history_inv c'.
Proof. intros Hh Hs []. constructor; by rewrite ?Hh, ?Hs. Qed.

(** Only the desired state and the tombstone may differ, and a destroyed
    cell needs its tombstone. *)
Lemma effects_inv_frame c c' :
  effects_inv c →
  instance_id c' = instance_id c → generation c' = generation c → effects c' = effects c →
  (desired_state c' = Lifecycle.Destroyed → tombstone_until c' ≠ None) →
  effects_inv c'.
Proof. intros [] Hi Hg He Ht. constructor; by rewrite ?Hi, ?Hg, ?He. Qed.

(** *** Each handler keeps the invariant *)

Definition cell_inv c : Prop := effects_inv c ∧ history_inv c.

Lemma record_event_inv now c op k f t code ev :
  cell_inv c → cell_inv (record_event now c op k f t code ev).
Proof. intros []. split; [by apply record_event_effects|by apply record_event_history]. Qed.
Hint Resolve record_event_inv : core.

Lemma cell_new_inv now id gen c : 0 <= gen → cell_new now id gen = Ok c → cell_inv c.
Proof.
  unfold cell_new. intros. split_matches; reflect_bools.
  split; constructor; simpl; rewrite ?len_nil; try done;
    first [constructor | lia | unfold MAX_EFFECTS, MAX_HISTORY; lia].
Qed.

Lemma next_desired_not_destroyed d a d' :
  next_desired_state d a = Ok d' → d' = Lifecycle.Destroyed → d = Lifecycle.Destroyed.
Proof. destruct a, d; simpl; intros; congruence. Qed.

Lemma accept_inv now c cmd : cell_inv c → cell_inv (accept now c cmd).1.
Proof.
  intros [Heff Hhist]. unfold accept. case_match; [|done].
  repeat case_match; try done. reflect_bools.
  apply record_event_inv. split; [|by apply (history_inv_ext c)]. destruct Heff.
  match goal with Hf : find_first _ _ = None |- _ =>
    rewrite find_first_None in Hf; rename Hf into Hfresh end.
  constructor; simpl; try done.
  - rewrite fmap_app. apply NoDup_app. split_and!; [done| |apply NoDup_singleton].
    intros op Hop ->%list_elem_of_singleton. apply list_elem_of_fmap in Hop as (e & Heq & He).
    apply Hfresh in He. unfold has_operation in He. by case_bool_decide.
  - apply Forall_app_2; [done|]. apply Forall_singleton. simpl. lia.
  - apply Forall_app_2; [done|]. apply Forall_singleton. simpl. intros _. lia.
  - intros ->. eauto using next_desired_not_destroyed.
  - rewrite len_app. unfold len at 2; simpl. lia.
Qed.

Lemma record_dispatched_inv now c op m : cell_inv c → cell_inv (record_dispatched now c op m).1.
Proof.
  intros [Heff Hhist]. unfold record_dispatched. repeat case_match; try done.
  apply record_event_inv. split; [|by apply (history_inv_ext c)].
  by eapply update_effect_inv.
Qed.

Lemma record_unknown_inv now c op r code : cell_inv c → cell_inv (record_unknown now c op r code).1.
Proof.
  intros [Heff Hhist]. unfold record_unknown. repeat case_match; try done.
  apply record_event_inv. split; [|by apply (history_inv_ext c)].
  eapply (effects_inv_frame (update_effect c op _)); [|done|done|reflexivity|done].
  by eapply update_effect_inv.
Qed.

Lemma record_terminal_inv now c op st code : cell_inv c → cell_inv (record_terminal now c op st code).1.
Proof.
  intros [Heff Hhist]. unfold record_terminal.
  destruct (negb _); [done|]. destruct (find_first _ _) as [e|] eqn:Hfind; [|done].
  destruct (effect_is_terminal (eff_status e)) eqn:Hlive; [by case_decide|].
  apply record_event_inv.
  case_decide; (split; [|by apply (history_inv_ext c)]);
    (eapply (effects_inv_frame (update_effect c op _)); [|done|done|reflexivity|done]);
    by eapply update_effect_inv.
Qed.

Lemma fence_effects_inv c g :
  effects_inv c → generation c < g →
  effects_inv (c <| effects := (λ e, if is_fenced g e then fence_effect e else e) <$> effects c |>
                 <| generation := g |> <| desired_state := Lifecycle.Unknown |>).
Proof.
  intros [] Hg. constructor; simpl; try done.
  - lia.
  - rewrite <-list_fmap_compose.
    erewrite (list_fmap_ext _ eff_operation_id); [done|].
    intros ? e _. simpl. by case_match.
  - apply Forall_fmap. eapply Forall_impl; [exact inv_gens0|].
    intros e He. simpl in *. destruct (is_fenced g e); simpl; lia.
  - apply Forall_fmap. apply Forall_forall. simpl. intros e He.
    unfold is_fenced. rewrite Forall_forall in inv_gens0. specialize (inv_gens0 e He).
    destruct (effect_is_terminal (eff_status e)) eqn:Ht; simpl.
    + rewrite andb_false_r. congruence.
    + rewrite andb_true_r. destruct (_ <? _) eqn:?; simpl; [done|]. reflect_bools. lia.
  - by rewrite len_map.
Qed.

Lemma observe_inv now c o : cell_inv c → cell_inv (observe now c o).1.
Proof.
  intros [Heff Hhist]. unfold observe. case_match eqn:Hstale; [done|]. reflect_bools.
  apply record_event_inv.
  match goal with |- cell_inv (?d <| observation := _ |>) =>
    enough (cell_inv d) as [Hd Hh]
      by (split; [apply (effects_inv_frame d); by destruct Hd | by apply (history_inv_ext d)])
  end.
  case_match eqn:Hnew; reflect_bools.
  - apply foldl_record_event; [by intros; apply record_event_inv|].
    split; [by apply fence_effects_inv|by apply (history_inv_ext c)].
  - repeat case_decide; (split; [|by apply (history_inv_ext c)]); try done.
    + by apply (effects_inv_frame c).
    + by apply (effects_inv_frame c).
    + apply (effects_inv_frame c); try done. simpl. by case_match.
Qed.

Lemma reconcile_inv now c g : cell_inv c → cell_inv (reconcile now c g).1.
Proof. intros. unfold reconcile. repeat case_match; simpl; auto. Qed.

Lemma cell_step_inv c c' : cell_step c c' → cell_inv c → cell_inv c'.
Proof.
  intros []; eauto using accept_inv, record_dispatched_inv, record_unknown_inv,
    record_terminal_inv, observe_inv, reconcile_inv.
Qed.

Lemma cell_reachable_inv c : cell_reachable c → cell_inv c.
Proof.
  intros (now & id & gen & c0 & Hgen & Hnew & Hsteps).
  apply cell_new_inv in Hnew; [|done]. induction Hsteps; eauto using cell_step_inv.
Qed.

(** *** [validate_invariants] decides the invariant's part *)

Lemma validate_effects_ok g ids es :
  NoDup (eff_operation_id <$> es) →
  (∀ e, e ∈ es → eff_operation_id e ∉ ids) →
  Forall (λ e, eff_generation e <= g) es →
  validate_effects g ids es = Ok ().
Proof.
  revert ids. induction es as [|e es IH]; intros ids; csimpl; [done|].
  rewrite NoDup_cons, Forall_cons. intros [Hnin Hnd] Hids [He Hes].
  rewrite decide_False by set_solver. destruct (_ <? _) eqn:?; [reflect_bools; lia|].
  apply IH; [done| |done]. intros e' He'. apply not_elem_of_union. split; [|set_solver].
  apply not_elem_of_singleton. intros Heq. apply Hnin. rewrite <-Heq.
  by apply list_elem_of_fmap_2.
Qed.

(** *** What no handler changes *)

Lemma record_event_same now c op k f t code ev :
  effects (record_event now c op k f t code ev) = effects c.
Proof. done. Qed.

Lemma foldl_record_event_same {A} (now : Z) fop fk ff ft fc fe (l : list A) c :
  let c' := foldl (λ c x, record_event now c (fop x) (fk x) (ff x) (ft x) (fc x) (fe x)) c l in
  effects c' = effects c ∧ generation c' = generation c ∧ instance_id c' = instance_id c.
Proof.
  revert c. induction l as [|x l IH]; intros c; simpl; [done|].
  by edestruct IH as (-> & -> & ->).
Qed.

(** The effects after [observe]: fenced ones are rejected, the rest kept. *)
Lemma observe_effects now c o :
  effects (observe now c o).1 =
    (λ e, if (generation c <? obs_generation o) && is_fenced (obs_generation o) e
          then fence_effect e else e) <$> effects c.
Proof.
  unfold observe.
  assert (effects c = (λ e, e) <$> effects c) as Hid by (by rewrite list_fmap_id).
  destruct (_ <? _) eqn:H1.
  { destruct (generation c <? _) eqn:H2; [reflect_bools; lia|done]. }
  destruct (generation c <? _) eqn:H2; simpl.
  - by rewrite (proj1 (foldl_record_event_same _ _ _ _ _ _ _ _ _)).
  - by repeat case_decide.
Qed.

Lemma update_effect_binding c op f :
  (∀ e, effect_binding (f e) = effect_binding e) →
  effect_binding <$> effects (update_effect c op f) = effect_binding <$> effects c.
Proof. intros. by apply fmap_update_first. Qed.

Lemma step_bindings c c' :
  cell_step c c' → effect_binding <$> effects c `prefix_of` effect_binding <$> effects c'.
Proof.
  intros [now c0 cmd|now c0 op m|now c0 op r code|now c0 op st code|now c0 o|now c0 g].
  - unfold accept. repeat case_match; try done. simpl. rewrite fmap_app. by eexists.
  - unfold record_dispatched. repeat case_match; try done. simpl. by rewrite fmap_update_first.
  - unfold record_unknown. repeat case_match; try done. simpl. by rewrite fmap_update_first.
  - unfold record_terminal. repeat case_match; try done; simpl; by rewrite fmap_update_first.
  - rewrite observe_effects, <-list_fmap_compose.
    erewrite (list_fmap_ext (effect_binding ∘ _)); [done|]. intros ? e _. simpl. by case_match.
  - unfold reconcile. by repeat case_match.
Qed.

Lemma step_identity c c' :
  cell_step c c' → instance_id c' = instance_id c ∧ generation c <= generation c'.
Proof.
  intros [now c0 cmd|now c0 op m|now c0 op r code|now c0 op st code|now c0 o|now c0 g].
  - unfold accept. repeat case_match; simpl; split; done || lia.
  - unfold record_dispatched. repeat case_match; simpl; split; done || lia.
  - unfold record_unknown. repeat case_match; simpl; split; done || lia.
  - unfold record_terminal. repeat case_match; simpl; split; done || lia.
  - unfold observe. destruct (_ <? _) eqn:H1; simpl; [split; done || lia|].
    destruct (generation c0 <? _) eqn:H2; reflect_bools; simpl.
    + rewrite (proj1 (proj2 (foldl_record_event_same _ _ _ _ _ _ _ _ _))),
        (proj2 (proj2 (foldl_record_event_same _ _ _ _ _ _ _ _ _))).
      simpl. split; done || lia.
    + repeat case_decide; simpl; split; done || lia.
  - unfold reconcile. repeat case_match; simpl; split; done || lia.
Qed.

Lemma steps_bindings c c' :
  rtc cell_step c c' →
  effect_binding <$> effects c `prefix_of` effect_binding <$> effects c' ∧
  instance_id c' = instance_id c ∧ generation c <= generation c'.
Proof.
  induction 1 as [|c1 c2 c3 Hs _ (IH & Hid & Hg)]; [split_and!; done || lia|].
  apply step_bindings in Hs as Hb. apply step_identity in Hs as [Hid' Hg'].
  split_and!; [by etrans|congruence|lia].
Qed.

Lemma update_effect_terminal_kept c op f e e0 :
  e ∈ effects c → effect_is_terminal (eff_status e) = true →
  find_first (has_operation op) (effects c) = Some e0 →
  effect_is_terminal (eff_status e0) = false →
  e ∈ update_first (has_operation op) f (effects c).
Proof.
  intros He **.
  destruct (elem_of_update_first_inv (has_operation op) f _ _ He); [done|congruence].
Qed.

Lemma step_terminal_kept c c' e :
  cell_step c c' → e ∈ effects c → effect_is_terminal (eff_status e) = true → e ∈ effects c'.
Proof.
  intros [now c0 cmd|now c0 op m|now c0 op r code|now c0 op st code|now c0 o|now c0 g] He Ht.
  - unfold accept. repeat case_match; simpl; set_solver.
  - unfold record_dispatched. repeat case_match; try done. by eapply update_effect_terminal_kept.
  - unfold record_unknown. repeat case_match; try done. by eapply update_effect_terminal_kept.
  - unfold record_terminal. repeat case_match; try done; by eapply update_effect_terminal_kept.
  - rewrite observe_effects. apply list_elem_of_fmap. exists e. split; [|done].
    unfold is_fenced. rewrite Ht. simpl. by rewrite !andb_false_r.
  - unfold reconcile. by repeat case_match.
Qed.

(** ** Theorems *)

(** Every cell the handlers can produce satisfies the checks of
    [validate_invariants]: operation ids are unique, no effect is from a
    future generation, the identity is well formed and a destroyed cell
    carries its tombstone. *)
Theorem reachable_cells_validate c : cell_reachable c → validate_invariants c = Ok ().
Proof.
  intros [[] _]%cell_reachable_inv. unfold validate_invariants.
  rewrite inv_id0, (proj2 (Z.eqb_neq _ _)) by lia.
  rewrite validate_effects_ok by set_solver. simpl.
  rewrite decide_False by naive_solver. done.
Qed.

(** Generation fencing.  In every reachable cell an effect that is still
    outstanding belongs to the cell's current generation, so no handler can
    dispatch, retry or complete work of an older incarnation. *)
Theorem live_effects_current c e :
  cell_reachable c → e ∈ effects c → effect_is_terminal (eff_status e) = false →
  eff_generation e = generation c.
Proof. intros [[] _]%cell_reachable_inv He Hlive. rewrite Forall_forall in inv_fence0. auto. Qed.

(** A terminal effect is final: whatever handlers run afterwards, the
    record (status, terminal code, attempts, binding) stays in the ledger
    unchanged. *)
Theorem terminal_effects_final c c' e :
  rtc cell_step c c' → e ∈ effects c → effect_is_terminal (eff_status e) = true →
  e ∈ effects c'.
Proof. induction 1; eauto using step_terminal_kept. Qed.

(** C15: Exactly-once acceptance.  Once a command was accepted, presenting it
    again at any later cell never creates a second effect: the cell is left
    as it is, and the answer is the recorded status of the one effect, or a
    stale-generation error when the cell has moved to a newer generation. *)
Theorem accepted_once now now' c cmd c1 c2 :
  accept now c cmd = (c1, Ok Accepted) → rtc cell_step c1 c2 →
  (accept now' c2 cmd).1 = c2 ∧
  ((generation c2 = cmd_generation cmd ∧
    ∃ e, e ∈ effects c2 ∧ eff_operation_id e = cmd_operation_id cmd ∧
         (accept now' c2 cmd).2 = Ok (Replayed (eff_status e))) ∨
   (cmd_generation cmd < generation c2 ∧
    (accept now' c2 cmd).2 = Err (StaleGeneration (cmd_generation cmd) (generation c2)))).
Proof.
  intros Hacc (Hpre & Hid & Hgen)%steps_bindings.
  unfold accept in Hacc. repeat case_match; simplify_eq. reflect_bools.
  match goal with Hf : find_first _ (effects c) = None |- _ => rename Hf into Hnone end.
  set (new := Build_EffectRecord _ _ _ _ _ _ _ _ _ _) in *.
  assert (find_first (has_operation (cmd_operation_id cmd)) (effects c ++ [new]) = Some new)
    as Hnew.
  { rewrite find_first_app, Hnone. simpl. unfold has_operation.
    by rewrite bool_decide_eq_true_2. }
  eapply (find_first_prefix effect_binding _ _ (effects c2)) in Hnew as (e & He & Hb);
    [|intros y z Hyz; unfold has_operation; by injection Hyz as ->|done].
  simpl in *. injection Hb as Hop Hhash Hact Heg Hpay.
  apply find_first_Some in He as Hin. destruct Hin as [Hin _].
  unfold accept. rewrite Hid.
  match goal with Hv : command_validate cmd = _ |- _ => rewrite Hv end.
  rewrite decide_False by done.
  destruct (_ <? _) eqn:Hlt; reflect_bools.
  - split; [done|]. right. split; [lia|done].
  - destruct (generation c2 <? _) eqn:Hlt'; reflect_bools; [lia|].
    rewrite He, decide_False by congruence. split; [done|]. left. split; [lia|]. eauto.
Qed.

(** A handler that reports an error leaves the cell exactly as it was. *)
Theorem cell_errors_change_nothing now c c' err :
  (∀ cmd, accept now c cmd = (c', Err err) → c' = c) ∧
  (∀ op m, record_dispatched now c op m = (c', Err err) → c' = c) ∧
  (∀ op r code, record_unknown now c op r code = (c', Err err) → c' = c) ∧
  (∀ op st code, record_terminal now c op st code = (c', Err err) → c' = c) ∧
  (∀ o, observe now c o = (c', Err err) → c' = c).
Proof.
  unfold accept, record_dispatched, record_unknown, record_terminal, observe.
  split_and!; intros *; repeat case_match; intros; by simplify_eq.
Qed.

(** No outstanding effect: every effect of the current generation is done. *)
Lemma no_outstanding c :
  existsb (is_outstanding c) (effects c) = false ↔
  ∀ e, e ∈ effects c → eff_generation e = generation c →
       effect_is_terminal (eff_status e) = true.
Proof.
  rewrite existsb_false. unfold is_outstanding. split; intros Hall e He.
  - intros Hg. specialize (Hall e He). rewrite Hg, Z.eqb_refl in Hall. simpl in Hall.
    by apply negb_false_iff in Hall.
  - destruct (eff_generation e =? _) eqn:?; [|done]. reflect_bools. simpl. by rewrite Hall.
Qed.

Lemma no_outstanding_no_unknown c :
  existsb (is_outstanding c) (effects c) = false →
  existsb (λ e, (eff_generation e =? generation c) &&
                bool_decide (eff_status e = Effect.Unknown)) (effects c) = false.
Proof.
  rewrite !existsb_false. intros Hout e He. specialize (Hout e He).
  unfold is_outstanding in Hout. destruct (_ =? _); [|done]. simpl in *.
  case_bool_decide as Hu; [|done]. by rewrite Hu in Hout.
Qed.

Lemma classify_converged_iff c g :
  (classify c g).1 = Class.Converged ↔
  desired_state c ≠ Lifecycle.Destroyed ∧ generation c = g ∧
  existsb (is_outstanding c) (effects c) = false ∧
  observation_matches_desired (desired_state c) (observation c) = true.
Proof.
  unfold classify. split.
  - repeat case_match; simplify_eq/=; try done; reflect_bools. intros _.
    split_and!; done || lia.
  - intros (Hd & <- & Hout & Hobs). rewrite decide_False, Z.ltb_irrefl by done.
    by rewrite no_outstanding_no_unknown, Hout, Hobs by done.
Qed.

(** [reconcile] reports [Converged] exactly for a cell that is not
    destroyed, is at the management generation, has no outstanding effect of
    that generation and whose observation matches the desired state; and
    reconciling never changes effects, desired state or generation. *)
Theorem reconcile_converged_iff now c g :
  (rr_classification (reconcile now c g).2 = Class.Converged ↔
   desired_state c ≠ Lifecycle.Destroyed ∧ generation c = g ∧
   (∀ e, e ∈ effects c → eff_generation e = generation c →
         effect_is_terminal (eff_status e) = true) ∧
   observation_matches_desired (desired_state c) (observation c) = true) ∧
  effects (reconcile now c g).1 = effects c ∧
  desired_state (reconcile now c g).1 = desired_state c ∧
  generation (reconcile now c g).1 = generation c.
Proof.
  split; [|unfold reconcile; by repeat case_match].
  rewrite <-no_outstanding, <-classify_converged_iff. unfold reconcile.
  by destruct (classify c g).
Qed.

(** The event history is bounded by [MAX_HISTORY] and, as long as the
    [u64] sequence has not saturated, numbers its events consecutively up to
    [history_sequence]: dropping the oldest events never opens a gap. *)
Theorem history_gap_free c :
  cell_reachable c → history_sequence c < u64_max →
  len (history c) <= MAX_HISTORY ∧
  ev_sequence <$> history c =
    seqZ (history_sequence c - len (history c) + 1) (len (history c)).
Proof. intros [_ []]%cell_reachable_inv ?. eauto. Qed.
End cell.

(** ** A sample run

    A cell for instance [i-1]: a provision is accepted, dispatched and
    succeeds; a stop is accepted; a newer generation is then observed. *)

Definition sample_command (op : string) (a : CellAction) : CellCommand :=
  match @command_new sample_env 5 op "i-1" 1 a (JObj []) with
  | Ok cmd => cmd
  | Err _ => Build_CellCommand EmptyString EmptyString EmptyString EmptyString 0 a EmptyString 0 []
  end.

Definition sample_cell_0 : InstanceCell :=
  match cell_new 0 "i-1" 1 with
  | Ok c => c
  | Err _ => Build_InstanceCell EmptyString EmptyString EmptyString 0 Lifecycle.Failed None [] 0 None 0 []
  end.

Definition sample_cell_1 : InstanceCell :=
  (@accept sample_env 10 sample_cell_0 (sample_command "op-1" Action.Provision)).1.
Definition sample_cell_2 : InstanceCell :=
  (@record_terminal sample_env 12
     (@record_dispatched sample_env 11 sample_cell_1 "op-1" None).1
     "op-1" Effect.Succeeded None).1.
Definition sample_cell_3 : InstanceCell :=
  (@accept sample_env 13 sample_cell_2 (sample_command "op-2" Action.Stop)).1.
Definition sample_cell_4 : InstanceCell :=
  (@observe sample_env 14 sample_cell_3
     {| obs_generation := 2; obs_runtime_state := "ready"; obs_agent_state := "ready";
        obs_runtime_id := None; obs_provider := None; obs_observed_at := 14 |}).1.

Lemma sample_steps_1_3 : rtc (@cell_step sample_env) sample_cell_1 sample_cell_3.
Proof.
  unfold sample_cell_3, sample_cell_2.
  do 3 (eapply rtc_r; [|constructor]). apply rtc_refl.
Qed.

Lemma sample_steps_1_4 : rtc (@cell_step sample_env) sample_cell_1 sample_cell_4.
Proof. eapply rtc_r; [apply sample_steps_1_3|constructor]. Qed.

Lemma sample_reachable c :
  rtc (@cell_step sample_env) sample_cell_1 c → @cell_reachable sample_env c.
Proof.
  intros Hs. exists 0, "i-1", 1, sample_cell_0. split; [lia|]. split; [reflexivity|].
  eapply rtc_l; [|exact Hs]. constructor.
Qed.

Lemma reachable_cells_validate_witness :
  @cell_reachable sample_env sample_cell_4 ∧ validate_invariants sample_cell_4 = Ok ().
Proof.
  assert (@cell_reachable sample_env sample_cell_4) as Hr
    by (apply sample_reachable, sample_steps_1_4).
  split; [exact Hr|]. apply (@reachable_cells_validate sample_env sample_cell_4 Hr).
Defined.

(** The pending stop of the sample run, before the newer generation. *)
Definition sample_effect : EffectRecord :=
  match effects sample_cell_3 with
  | [_; e] => e
  | _ => Build_EffectRecord EmptyString EmptyString Action.Observe 0 [] Effect.Pending 0 None None None
  end.

Lemma live_effects_current_witness :
  effect_is_terminal (eff_status sample_effect) = false ∧
  eff_generation sample_effect = generation sample_cell_3.
Proof.
  split; [reflexivity|].
  apply (@live_effects_current sample_env sample_cell_3 sample_effect).
  - apply sample_reachable, sample_steps_1_3.
  - vm_compute. right. left.
  - reflexivity.
Defined.

Definition sample_effect_done : EffectRecord :=
  match effects sample_cell_2 with
  | [e] => e
  | _ => Build_EffectRecord EmptyString EmptyString Action.Observe 0 [] Effect.Pending 0 None None None
  end.

Lemma terminal_effects_final_witness : sample_effect_done ∈ effects sample_cell_4.
Proof.
  apply (@terminal_effects_final sample_env sample_cell_2 sample_cell_4 sample_effect_done).
  - eapply rtc_l; [apply (@step_accept sample_env 13 _ (sample_command "op-2" Action.Stop))|].
    eapply rtc_l; [constructor|apply rtc_refl].
  - vm_compute. left.
  - reflexivity.
Defined.

Lemma accepted_once_witness :
  (@accept sample_env 20 sample_cell_3 (sample_command "op-1" Action.Provision)).1 = sample_cell_3.
Proof.
  apply (@accepted_once sample_env 10 20 sample_cell_0
           (sample_command "op-1" Action.Provision) sample_cell_1 sample_cell_3).
  - vm_compute. reflexivity.
  - apply sample_steps_1_3.
Defined.

Lemma history_gap_free_witness : ev_sequence <$> history sample_cell_4 = [1; 2; 3; 4; 5; 6].
Proof.
  apply (@history_gap_free sample_env sample_cell_4).
  - apply sample_reachable, sample_steps_1_4.
  - vm_compute. reflexivity.
Defined.

(** A destroyed cell is not final: the tombstone stays, but an observation of
    a ready runtime at the same generation moves the cell back to [Ready]. *)
Theorem destroyed_cell_revived :
  ∃ c o, @cell_reachable sample_env c ∧ desired_state c = Lifecycle.Destroyed ∧
         obs_generation o = generation c ∧
         desired_state (@observe sample_env 30 c o).1 = Lifecycle.Ready.
Proof.
  exists (@observe sample_env 20 sample_cell_1
    (Build_ManagementObservation 1 "destroyed" "absent" None None 20)).1,
    (Build_ManagementObservation 1 "ready" "ready" None None 30).
  split; [apply sample_reachable; eapply rtc_once; constructor|].
  by vm_compute.
Qed.
