(* ===== verification/EffectLedger.v ===== *)
(** * The durable effect ledger of the cell daemon

    Models management/src/celld/effect_ledger.rs: the two SQLite tables
    [celld_effects] and [celld_instance_generations] and every statement the
    module runs on them.  A table is a map from its primary key to its row;
    status and action columns are the text the code stores.  A method runs
    under the connection mutex (and, where the source opens one, in an
    immediate transaction), so it is one function of the state; a transaction
    dropped on an error path is rolled back, which is why error results come
    with the unchanged state.  A [u64] parameter above [i64::MAX] is refused by
    the SQL binding ([Database]).  File creation and the column migrations of
    [open] are not modelled; its permission check is. *)

From S2P Require Import Prelude Json InstanceCell.

Local Open Scope string_scope.
Local Open Scope list_scope.
Local Open Scope Z_scope.

(** ** Data *)

Inductive EffectClaim : Type :=
| Acquired
| ClaimReplayed (status : EffectStatus).

Record EffectLedgerRecord : Type := {
  rec_operation_id : string;
  rec_instance_id : string;
  rec_generation : Z;
  rec_action : CellAction;
  rec_status : EffectStatus;
  rec_provider_dispatch_count : Z;
  rec_management_operation_id : option string;
  rec_terminal_code : option string;
  rec_result : option json;
}.

Inductive EffectLedgerError : Type :=
| Database
| Io
| InsecurePermissions
| Collision
| LedgerStaleGeneration (command current : Z)
| LedgerFutureGeneration (command current : Z)
| LedgerUnknownOperation (operation_id : string)
| UnknownInstance (instance_id : string)
| GenerationAdvanceNotAllowed
| ManagementOperationConflict
| CorruptRecord (column : string)
| TerminalConflict (operation_id : string) (existing requested : EffectStatus).

(** A row of [celld_effects] (the key is [operation_id]). *)
Record EffectRow : Type := {
  row_request_hash : string;
  row_instance_id : string;
  row_generation : Z;
  row_action : string;
  row_status : string;
  row_provider_dispatch_count : Z;
  row_management_operation_id : option string;
  row_terminal_code : option string;
  row_result_json : option string;
  row_updated_at : string;
}.

(** A row of [celld_instance_generations] (the key is [instance_id]). *)
Record GenerationRow : Type := {
  gen_generation : Z;
  gen_state : string;
  gen_updated_at : string;
}.

Record EffectLedger : Type := {
  celld_effects : gmap string EffectRow;
  celld_instance_generations : gmap string GenerationRow;
}.

Definition empty_ledger : EffectLedger :=
  {| celld_effects := ∅; celld_instance_generations := ∅ |}.

(** ** Stored names *)

Definition action_name (a : CellAction) : string :=
  match a with
  | Action.Provision => "provision"
  | Action.Start => "start"
  | Action.Stop => "stop"
  | Action.Destroy => "destroy"
  | Action.Observe => "observe"
  | Action.Repair => "repair"
  end.

Definition parse_action (value : string) : option CellAction :=
  if decide (value = "provision") then Some Action.Provision
  else if decide (value = "start") then Some Action.Start
  else if decide (value = "stop") then Some Action.Stop
  else if decide (value = "destroy") then Some Action.Destroy
  else if decide (value = "observe") then Some Action.Observe
  else if decide (value = "repair") then Some Action.Repair
  else None.

Definition status_name (s : EffectStatus) : string :=
  match s with
  | Effect.Pending => "pending"
  | Effect.Dispatched => "dispatched"
  | Effect.Unknown => "unknown"
  | Effect.Succeeded => "succeeded"
  | Effect.Failed => "failed"
  | Effect.Rejected => "rejected"
  end.

Definition parse_status (value : string) : option EffectStatus :=
  if decide (value = "pending") then Some Effect.Pending
  else if decide (value = "dispatched") then Some Effect.Dispatched
  else if decide (value = "unknown") then Some Effect.Unknown
  else if decide (value = "succeeded") then Some Effect.Succeeded
  else if decide (value = "failed") then Some Effect.Failed
  else if decide (value = "rejected") then Some Effect.Rejected
  else None.

(** [verify_existing_permissions] on unix: [None] is a missing file,
    [Some (Err _)] any other failure of [metadata], [Some (Ok mode)] its mode. *)
Definition verify_existing_permissions (metadata : option (result unit Z))
  : result EffectLedgerError unit :=
  match metadata with
  | Some (Ok mode) =>
      if negb (Z.land mode 63 =? 0) then Err InsecurePermissions else Ok ()
  | None => Ok ()
  | Some (Err _) => Err Io
  end.

(** ** Statements *)

(** Binding a [u64] as an SQL integer. *)
Definition bind_u64 (n : Z) : result EffectLedgerError Z :=
  if n <=? i64_max then Ok n else Err Database.

(** [UPDATE celld_effects SET ... WHERE operation_id=?1 AND ...], with the
    number of changed rows (0 or 1, the key being primary). *)
Definition update_effects (l : EffectLedger) (operation_id : string)
    (where_ : EffectRow → bool) (set_ : EffectRow → EffectRow) : EffectLedger * Z :=
  match celld_effects l !! operation_id with
  | Some row =>
      if where_ row
      then (l <| celld_effects ::= <[operation_id := set_ row]> |>, 1)
      else (l, 0)
  | None => (l, 0)
  end.

Section ledger.
Context {H : Env}.
Implicit Types (l : EffectLedger) (now : Z) (cmd : CellCommand).

Definition claim_on_connection now l cmd : EffectLedger * result EffectLedgerError EffectClaim :=
  match bind_u64 (cmd_generation cmd) with
  | Err e => (l, Err e)
  | Ok generation =>
      match celld_effects l !! cmd_operation_id cmd with
      | None =>
          (l <| celld_effects ::= <[cmd_operation_id cmd :=
             {| row_request_hash := cmd_request_hash cmd;
                row_instance_id := cmd_instance_id cmd;
                row_generation := generation;
                row_action := action_name (cmd_action cmd);
                row_status := "pending";
                row_provider_dispatch_count := 0;
                row_management_operation_id := None;
                row_terminal_code := None;
                row_result_json := None;
                row_updated_at := rfc3339 now |}]> |>, Ok Acquired)
      | Some row =>
          if decide (row_request_hash row ≠ cmd_request_hash cmd) then (l, Err Collision)
          else match parse_status (row_status row) with
               | None => (l, Err (CorruptRecord "status"))
               | Some status => (l, Ok (ClaimReplayed status))
               end
      end
  end.

Definition claim now l cmd (management_generation : Z)
  : EffectLedger * result EffectLedgerError EffectClaim :=
  if cmd_generation cmd <? management_generation then
    (l, Err (LedgerStaleGeneration (cmd_generation cmd) management_generation))
  else if management_generation <? cmd_generation cmd then
    (l, Err (LedgerFutureGeneration (cmd_generation cmd) management_generation))
  else claim_on_connection now l cmd.

(** The generation row [claim_managed] leaves for the command's instance. *)
Definition bind_generation now cmd : result EffectLedgerError GenerationRow :=
  generation ← bind_u64 (cmd_generation cmd);
  Ok {| gen_generation := generation; gen_state := "provisioning";
        gen_updated_at := rfc3339 now |}.

Definition managed_generation now cmd (current : option GenerationRow)
  : result EffectLedgerError (option GenerationRow) :=
  match current with
  | None =>
      if decide (cmd_action cmd = Action.Provision)
      then Some <$> bind_generation now cmd
      else Err (UnknownInstance (cmd_instance_id cmd))
  | Some g =>
      if cmd_generation cmd <? gen_generation g then
        Err (LedgerStaleGeneration (cmd_generation cmd) (gen_generation g))
      else if cmd_generation cmd =? gen_generation g then Ok None
      else if bool_decide (cmd_action cmd = Action.Provision)
              && bool_decide (gen_state g = "destroyed")
              && (cmd_generation cmd =? sat_add u64_max (gen_generation g) 1) then
        Some <$> bind_generation now cmd
      else if sat_add u64_max (gen_generation g) 1 <? cmd_generation cmd then
        Err (LedgerFutureGeneration (cmd_generation cmd) (gen_generation g))
      else Err GenerationAdvanceNotAllowed
  end.

Definition claim_managed now l cmd : EffectLedger * result EffectLedgerError EffectClaim :=
  match managed_generation now cmd (celld_instance_generations l !! cmd_instance_id cmd) with
  | Err e => (l, Err e)
  | Ok written =>
      let l1 := match written with
                | Some g => l <| celld_instance_generations ::= <[cmd_instance_id cmd := g]> |>
                | None => l
                end in
      match claim_on_connection now l1 cmd with
      | (l2, Ok c) => (l2, Ok c)
      | (_, Err e) => (l, Err e)
      end
  end.

Definition begin_dispatch now l (operation_id : string)
  : EffectLedger * result EffectLedgerError bool :=
  let (l', changed) := update_effects l operation_id
    (λ row, bool_decide (row_status row = "pending"))
    (λ row, row <| row_status := "dispatched" |>
                <| row_provider_dispatch_count ::= Z.add 1 |>
                <| row_updated_at := rfc3339 now |>) in
  if changed =? 1 then (l', Ok true)
  else match celld_effects l' !! operation_id with
       | None => (l', Err (LedgerUnknownOperation operation_id))
       | Some _ => (l', Ok false)
       end.

Definition parse_result (text : option string) : result EffectLedgerError (option json) :=
  match text with
  | None => Ok None
  | Some value =>
      match json_parse value with
      | Some v => Ok (Some v)
      | None => Err (CorruptRecord "result_json")
      end
  end.

Definition record_locked l (operation_id : string)
  : result EffectLedgerError (option EffectLedgerRecord) :=
  match celld_effects l !! operation_id with
  | None => Ok None
  | Some row =>
      action ← ok_or (parse_action (row_action row)) (CorruptRecord "action");
      status ← ok_or (parse_status (row_status row)) (CorruptRecord "status");
      res ← parse_result (row_result_json row);
      Ok (Some {|
        rec_operation_id := operation_id;
        rec_instance_id := row_instance_id row;
        rec_generation := row_generation row;
        rec_action := action;
        rec_status := status;
        rec_provider_dispatch_count := row_provider_dispatch_count row;
        rec_management_operation_id := row_management_operation_id row;
        rec_terminal_code := row_terminal_code row;
        rec_result := res |})
  end.

(** What [set_management_operation] and [mark_unknown] return after their
    update changed [changed] rows. *)
Definition known_or_changed l (operation_id : string) (changed : Z)
  : result EffectLedgerError unit :=
  if changed =? 0 then
    r ← record_locked l operation_id;
    match r with
    | None => Err (LedgerUnknownOperation operation_id)
    | Some _ => Ok ()
    end
  else Ok ().

Definition set_management_operation now l (operation_id management_operation_id : string)
  : EffectLedger * result EffectLedgerError unit :=
  match record_locked l operation_id with
  | Err e => (l, Err e)
  | Ok r =>
      match r ≫= rec_management_operation_id with
      | Some existing =>
          if decide (existing ≠ management_operation_id)
          then (l, Err ManagementOperationConflict) else (l, Ok ())
      | None =>
          let (l', changed) := update_effects l operation_id
            (λ row, bool_decide (row_status row = "dispatched")
                    || bool_decide (row_status row = "unknown"))
            (λ row, row <| row_management_operation_id :=
                             match row_management_operation_id row with
                             | Some m => Some m
                             | None => Some management_operation_id
                             end |>
                        <| row_updated_at := rfc3339 now |>) in
          (l', known_or_changed l' operation_id changed)
      end
  end.

Definition mark_unknown now l (operation_id : string)
  : EffectLedger * result EffectLedgerError unit :=
  let (l', changed) := update_effects l operation_id
    (λ row, bool_decide (row_status row = "dispatched"))
    (λ row, row <| row_status := "unknown" |> <| row_updated_at := rfc3339 now |>) in
  (l', known_or_changed l' operation_id changed).

Definition record l (operation_id : string) : result EffectLedgerError EffectLedgerRecord :=
  r ← record_locked l operation_id;
  ok_or r (LedgerUnknownOperation operation_id).

Definition current_generation l (instance_id : string) : option Z :=
  gen_generation <$> celld_instance_generations l !! instance_id.

(** The instance state a succeeded action leaves. *)
Definition action_state (action : string) : option string :=
  if decide (action = "destroy") then Some "destroyed"
  else if decide (action = "stop") then Some "stopped"
  else if decide (action = "provision" ∨ action = "start") then Some "active"
  else None.

Definition update_instance_state now l (operation_id : string) (status : EffectStatus)
  : EffectLedger :=
  if decide (status ≠ Effect.Succeeded) then l
  else match celld_effects l !! operation_id with
       | None => l
       | Some row =>
           match action_state (row_action row) with
           | None => l
           | Some state =>
               l <| celld_instance_generations ::=
                 alter (λ g, if gen_generation g =? row_generation row
                             then g <| gen_state := state |> <| gen_updated_at := rfc3339 now |>
                             else g) (row_instance_id row) |>
           end
       end.

(** [status NOT IN ('succeeded','failed','rejected')] *)
Definition not_terminal_name (status : string) : bool :=
  negb (bool_decide (status = "succeeded") || bool_decide (status = "failed")
        || bool_decide (status = "rejected")).

Definition complete_with_code now l (operation_id : string) (status : EffectStatus)
    (terminal_code : option string) (res : option json)
  : EffectLedger * result EffectLedgerError unit :=
  if negb (effect_is_terminal status) then (l, Ok ())
  else
    let result_json := json_text <$> res in
    let (l', changed) := update_effects l operation_id
      (λ row, not_terminal_name (row_status row))
      (λ row, row <| row_status := status_name status |>
                  <| row_terminal_code := terminal_code |>
                  <| row_result_json := result_json |>
                  <| row_updated_at := rfc3339 now |>) in
    if changed =? 0 then
      match celld_effects l' !! operation_id with
      | None => (l, Err (LedgerUnknownOperation operation_id))
      | Some row =>
          match parse_status (row_status row) with
          | None => (l, Err (CorruptRecord "status"))
          | Some existing =>
              if bool_decide (existing ≠ status)
                 || bool_decide (row_terminal_code row ≠ terminal_code)
                 || bool_decide (row_result_json row ≠ result_json)
              then (l, Err (TerminalConflict operation_id existing status))
              else (update_instance_state now l' operation_id status, Ok ())
          end
      end
    else (update_instance_state now l' operation_id status, Ok ()).

Definition complete now l (operation_id : string) (status : EffectStatus) (res : option json)
  : EffectLedger * result EffectLedgerError unit :=
  complete_with_code now l operation_id status None res.

(** ** Runs of the ledger *)

Inductive ledger_step : EffectLedger → EffectLedger → Prop :=
| step_claim now l cmd g : ledger_step l (claim now l cmd g).1
| step_claim_managed now l cmd : ledger_step l (claim_managed now l cmd).1
| step_begin now l op : ledger_step l (begin_dispatch now l op).1
| step_set_operation now l op m : ledger_step l (set_management_operation now l op m).1
| step_mark_unknown now l op : ledger_step l (mark_unknown now l op).1
| step_complete now l op st code res :
    ledger_step l (complete_with_code now l op st code res).1.

Definition ledger_reachable l : Prop := rtc ledger_step empty_ledger l.

(** How one method may change the row of an operation. *)
Record row_evolves (r r' : EffectRow) : Prop := {
  evo_hash : row_request_hash r' = row_request_hash r;
  evo_instance : row_instance_id r' = row_instance_id r;
  evo_generation : row_generation r' = row_generation r;
  evo_action : row_action r' = row_action r;
  evo_operation m :
    row_management_operation_id r = Some m → row_management_operation_id r' = Some m;
  evo_pending : row_status r ≠ "pending" →
    row_status r' ≠ "pending" ∧ row_provider_dispatch_count r' = row_provider_dispatch_count r;
  evo_terminal : not_terminal_name (row_status r) = false →
    row_status r' = row_status r ∧ row_terminal_code r' = row_terminal_code r ∧
    row_result_json r' = row_result_json r;
}.

#[local] Instance row_evolves_refl : Reflexive row_evolves.
Proof. intros r. by constructor. Qed.

#[local] Instance row_evolves_trans : Transitive row_evolves.
Proof.
  intros r1 r2 r3 E1 E2. destruct E1, E2. constructor; try congruence; eauto.
  - intros Hp. destruct (evo_pending0 Hp) as [Hp2 Hc]. destruct (evo_pending1 Hp2). split; congruence.
  - intros Ht. destruct (evo_terminal0 Ht) as (Hs & Hc & Hr). rewrite <-Hs in Ht.
    destruct (evo_terminal1 Ht) as (? & ? & ?). split_and!; congruence.
Qed.

(** The rows of [l] are still there in [l'], each only evolved. *)
Definition effects_evolve l l' : Prop :=
  ∀ op r, celld_effects l !! op = Some r →
    ∃ r', celld_effects l' !! op = Some r' ∧ row_evolves r r'.

#[local] Instance effects_evolve_refl : Reflexive effects_evolve.
Proof. intros l op r Hr. by exists r. Qed.
#[local] Instance effects_evolve_trans : Transitive effects_evolve.
Proof.
  intros l1 l2 l3 E12 E23 op r Hr. apply E12 in Hr as (r2 & Hr & ?).
  apply E23 in Hr as (r3 & ? & ?). exists r3. split; [done|]. by etrans.
Qed.

Lemma update_effects_evolve l op where_ set_ :
  (∀ r, where_ r = true → row_evolves r (set_ r)) →
  effects_evolve l (update_effects l op where_ set_).1.
Proof.
  intros Hset op' r Hr. unfold update_effects.
  destruct (celld_effects l !! op) as [r0|] eqn:Hop; [|by exists r].
  destruct (where_ r0) eqn:Hw; [|by exists r]. simpl.
  destruct (decide (op = op')) as [->|].
  - simplify_map_eq. eauto.
  - exists r. by rewrite lookup_insert_ne.
Qed.

Lemma claim_on_connection_evolve now l cmd :
  effects_evolve l (claim_on_connection now l cmd).1.
Proof.
  unfold claim_on_connection. repeat case_match; simpl; try done.
  intros op r Hr. exists r. split; [|done].
  simpl. by rewrite lookup_insert_ne by congruence.
Qed.

Lemma effects_evolve_same l l' :
  celld_effects l' = celld_effects l → effects_evolve l l'.
Proof. intros Heq op r Hr. exists r. by rewrite Heq. Qed.

Lemma update_instance_state_effects now l op st :
  celld_effects (update_instance_state now l op st) = celld_effects l.
Proof. unfold update_instance_state. by repeat case_match. Qed.

Lemma not_terminal_status_name st : not_terminal_name (status_name st) = negb (effect_is_terminal st).
Proof. by destruct st. Qed.
Lemma parse_status_name st : parse_status (status_name st) = Some st.
Proof. by destruct st. Qed.
Lemma parse_action_name a : parse_action (action_name a) = Some a.
Proof. by destruct a. Qed.

Lemma claim_managed_evolve now l cmd : effects_evolve l (claim_managed now l cmd).1.
Proof.
  unfold claim_managed. destruct (managed_generation _ _ _) as [w|]; [|done].
  set (l1 := match w with Some _ => _ | None => _ end).
  assert (effects_evolve l l1) as H1 by (apply effects_evolve_same; by destruct w).
  pose proof (claim_on_connection_evolve now l1 cmd) as H2.
  destruct (claim_on_connection now l1 cmd) as [l2 []]; simpl in *; [by etrans|done].
Qed.

Lemma begin_dispatch_fst now l op :
  (begin_dispatch now l op).1 = (update_effects l op
    (λ row, bool_decide (row_status row = "pending"))
    (λ row, row <| row_status := "dispatched" |>
                <| row_provider_dispatch_count ::= Z.add 1 |>
                <| row_updated_at := rfc3339 now |>)).1.
Proof. unfold begin_dispatch. destruct (update_effects _ _ _ _). by repeat case_match. Qed.

Lemma complete_evolve now l op st code res :
  effects_evolve l (complete_with_code now l op st code res).1.
Proof.
  unfold complete_with_code. destruct (negb _) eqn:Hst; [done|]. apply negb_false_iff in Hst.
  destruct (update_effects _ _ _ _) as [l' n] eqn:Hu.
  assert (effects_evolve l l') as Hl.
  { change l' with (l', n).1. rewrite <-Hu. apply update_effects_evolve.
    intros r Hr. constructor; simpl; try done.
    - destruct st; simpl; done.
    - congruence. }
  repeat case_match; simpl; try done;
    (etrans; [exact Hl|apply effects_evolve_same, update_instance_state_effects]).
Qed.

Lemma step_effects_evolve l l' : ledger_step l l' → effects_evolve l l'.
Proof.
  intros [].
  - unfold claim. repeat case_match; simpl; try done. apply claim_on_connection_evolve.
  - apply claim_managed_evolve.
  - rewrite begin_dispatch_fst. apply update_effects_evolve. intros r Hr. reflect_bools.
    by constructor; simpl; rewrite ?Hr.
  - unfold set_management_operation. repeat case_match; try done. simplify_eq/=.
    match goal with Hu : update_effects _ _ ?w ?f = _ |- effects_evolve ?l0 _ =>
      pose proof (update_effects_evolve l0 op w f) as Hev; rewrite Hu in Hev end.
    apply Hev. intros r Hr. constructor; simpl; try done. by intros m' ->.
  - unfold mark_unknown. destruct (update_effects _ _ _ _) as [l1 n] eqn:Hu. simpl.
    change l1 with (l1, n).1. rewrite <-Hu. apply update_effects_evolve.
    intros r Hr. reflect_bools. by constructor; simpl; rewrite ?Hr.
  - apply complete_evolve.
Qed.

Lemma steps_effects_evolve l l' : rtc ledger_step l l' → effects_evolve l l'.
Proof. induction 1; [done|]. etrans; [by apply step_effects_evolve|done]. Qed.

(** ** The invariant of reachable ledgers *)

Record row_inv (r : EffectRow) : Prop := {
  rinv_action : ∃ a, row_action r = action_name a;
  rinv_status : ∃ st, row_status r = status_name st;
  rinv_count : 0 <= row_provider_dispatch_count r <= 1;
  rinv_pending : row_status r = "pending" → row_provider_dispatch_count r = 0;
  rinv_result : ∃ v, row_result_json r = json_text <$> (v : option json);
}.

Definition ledger_inv l : Prop :=
  map_Forall (λ _, row_inv) (celld_effects l) ∧
  map_Forall (λ _ g, gen_generation g <= i64_max) (celld_instance_generations l).

Lemma update_effects_inv l op where_ set_ :
  ledger_inv l → (∀ r, row_inv r → where_ r = true → row_inv (set_ r)) →
  ledger_inv (update_effects l op where_ set_).1.
Proof.
  intros [Hr Hg] Hset. unfold update_effects.
  destruct (celld_effects l !! op) as [r0|] eqn:Hop; [|done].
  destruct (where_ r0) eqn:Hw; [|done]. split; simpl; [|done].
  apply map_Forall_insert_2; [|done]. eauto.
Qed.

Lemma claim_on_connection_inv now l cmd :
  ledger_inv l → ledger_inv (claim_on_connection now l cmd).1.
Proof.
  intros [Hr Hg]. unfold claim_on_connection. repeat case_match; simpl; try done.
  split; simpl; [|done]. apply map_Forall_insert_2; [|done].
  constructor; simpl; eauto; [by exists Effect.Pending|lia|by exists None].
Qed.

Lemma managed_generation_bound now cmd current g :
  managed_generation now cmd current = Ok (Some g) →
  gen_generation g = cmd_generation cmd ∧ cmd_generation cmd <= i64_max.
Proof.
  unfold managed_generation, bind_generation, bind_u64.
  intros. repeat case_match; simplify_eq/=; reflect_bools; auto.
Qed.

Lemma claim_managed_inv now l cmd : ledger_inv l → ledger_inv (claim_managed now l cmd).1.
Proof.
  intros Hl. unfold claim_managed.
  destruct (managed_generation _ _ _) as [w|] eqn:Hw; [|done].
  set (l1 := match w with Some _ => _ | None => _ end).
  assert (ledger_inv l1) as Hl1.
  { destruct w as [g|]; [|done]. apply managed_generation_bound in Hw as [Hg Hb].
    destruct Hl as [Hr Hgen]. split; [done|]. apply map_Forall_insert_2; [|done]. lia. }
  pose proof (claim_on_connection_inv now l1 cmd Hl1).
  by destruct (claim_on_connection now l1 cmd) as [l2 []].
Qed.

Lemma update_instance_state_inv now l op st :
  ledger_inv l → ledger_inv (update_instance_state now l op st).
Proof.
  intros Hl. unfold update_instance_state. repeat case_match; try done.
  destruct Hl as [Hr Hg]. split; simpl; [done|]. intros i g.
  rewrite lookup_alter_Some. intros [(_ & g0 & Hi & ->)|[_ Hi]]; apply Hg in Hi; [|done].
  by case_match.
Qed.

Lemma complete_inv now l op st code res :
  ledger_inv l → ledger_inv (complete_with_code now l op st code res).1.
Proof.
  intros Hl. unfold complete_with_code. destruct (negb _) eqn:Hst; [done|].
  apply negb_false_iff in Hst.
  destruct (update_effects _ _ _ _) as [l' n] eqn:Hu.
  assert (ledger_inv l') as Hl'.
  { change l' with (l', n).1. rewrite <-Hu. apply update_effects_inv; [done|].
    intros r [] _. constructor; simpl; eauto. by destruct st. }
  repeat case_match; simpl; try done; by apply update_instance_state_inv.
Qed.

Lemma step_ledger_inv l l' : ledger_step l l' → ledger_inv l → ledger_inv l'.
Proof.
  intros [] Hl.
  - unfold claim. repeat case_match; simpl; try done. by apply claim_on_connection_inv.
  - by apply claim_managed_inv.
  - rewrite begin_dispatch_fst. apply update_effects_inv; [done|].
    intros r [] Hp. reflect_bools. constructor; simpl; eauto; [by exists Effect.Dispatched| |done].
    rewrite rinv_pending0 by done. lia.
  - unfold set_management_operation. repeat case_match; try done. simplify_eq/=.
    match goal with Hu : update_effects _ _ ?w ?f = _ |- _ =>
      pose proof (update_effects_inv l0 op w f Hl) as Hev; rewrite Hu in Hev end.
    apply Hev. intros r [] _. by constructor.
  - unfold mark_unknown. destruct (update_effects _ _ _ _) as [l1 n] eqn:Hu. simpl.
    change l1 with (l1, n).1. rewrite <-Hu. apply update_effects_inv; [done|].
    intros r [] _. constructor; simpl; eauto; [by exists Effect.Unknown|done].
  - by apply complete_inv.
Qed.

Lemma ledger_steps_inv l l' : ledger_inv l → rtc ledger_step l l' → ledger_inv l'.
Proof. induction 2; eauto using step_ledger_inv. Qed.

Lemma ledger_reachable_inv l : ledger_reachable l → ledger_inv l.
Proof. apply ledger_steps_inv. by split; apply map_Forall_empty. Qed.

(** ** Generations *)

Lemma update_effects_generations l op where_ set_ :
  celld_instance_generations (update_effects l op where_ set_).1 = celld_instance_generations l.
Proof. unfold update_effects. by repeat case_match. Qed.

Lemma claim_on_connection_generations now l cmd :
  celld_instance_generations (claim_on_connection now l cmd).1 = celld_instance_generations l.
Proof. unfold claim_on_connection. by repeat case_match. Qed.

(** One method leaves the generation of an instance, or advances a destroyed
    one by one; it never forgets an instance. *)
Definition generations_evolve l l' : Prop :=
  ∀ i g, celld_instance_generations l !! i = Some g →
    ∃ g', celld_instance_generations l' !! i = Some g' ∧
      (gen_generation g' = gen_generation g ∨
       gen_state g = "destroyed" ∧ gen_generation g' = gen_generation g + 1).

Lemma generations_evolve_same l l' :
  celld_instance_generations l' = celld_instance_generations l → generations_evolve l l'.
Proof. intros Heq i g Hg. exists g. rewrite Heq. auto. Qed.

Lemma update_instance_state_generations now l op st :
  generations_evolve l (update_instance_state now l op st).
Proof.
  unfold update_instance_state. repeat case_match; try by apply generations_evolve_same.
  intros i g Hg. simpl. rewrite lookup_alter.
  destruct (decide (row_instance_id _ = i)) as [->|]; [|eauto]. rewrite Hg. eexists. split; [reflexivity|]. left. by case_match.
Qed.

Lemma managed_generation_evolve now cmd g g' :
  gen_generation g <= i64_max →
  managed_generation now cmd (Some g) = Ok (Some g') →
  gen_state g = "destroyed" ∧ gen_generation g' = gen_generation g + 1.
Proof.
  unfold managed_generation, bind_generation, bind_u64, sat_add, u64_max, i64_max.
  intros Hb Hm. repeat case_match; simplify_eq/=; reflect_bools; split; try done; lia.
Qed.

Lemma step_generations_evolve l l' :
  ledger_step l l' → ledger_inv l → generations_evolve l l'.
Proof.
  intros [] Hl.
  - apply generations_evolve_same. unfold claim. repeat case_match; try done.
    apply claim_on_connection_generations.
  - unfold claim_managed.
    destruct (managed_generation _ _ _) as [w|] eqn:Hw; [|by apply generations_evolve_same].
    set (l1 := match w with Some _ => _ | None => _ end).
    pose proof (claim_on_connection_generations now l1 cmd) as Hgen.
    destruct (claim_on_connection now l1 cmd) as [l2 []]; simpl in *;
      [|by apply generations_evolve_same].
    intros i g Hg. rewrite Hgen. subst l1. destruct w as [g'|]; simpl; [|eauto].
    destruct (decide (cmd_instance_id cmd = i)) as [<-|Hne];
      [|exists g; rewrite lookup_insert_ne by done; auto].
    rewrite Hg in Hw. apply managed_generation_evolve in Hw; [|by apply Hl in Hg].
    exists g'. rewrite lookup_insert_eq. auto.
  - rewrite begin_dispatch_fst. apply generations_evolve_same, update_effects_generations.
  - unfold set_management_operation. repeat case_match; try by apply generations_evolve_same.
    simplify_eq/=. apply generations_evolve_same.
    match goal with Hu : update_effects ?l ?o ?w ?f = _ |- _ =>
      pose proof (update_effects_generations l o w f) as Hev; by rewrite Hu in Hev end.
  - unfold mark_unknown. destruct (update_effects _ _ _ _) as [l1 n] eqn:Hu. simpl.
    change l1 with (l1, n).1. rewrite <-Hu.
    apply generations_evolve_same, update_effects_generations.
  - unfold complete_with_code. destruct (negb _); [by apply generations_evolve_same|].
    destruct (update_effects _ _ _ _) as [l1 n] eqn:Hu.
    assert (celld_instance_generations l1 = celld_instance_generations l0) as Hl1.
    { change l1 with (l1, n).1. rewrite <-Hu. apply update_effects_generations. }
    repeat case_match; try (by apply generations_evolve_same);
      intros i g; rewrite <-Hl1; apply update_instance_state_generations.
Qed.

(** ** Theorems *)

(** At most one dispatch.  Once [begin_dispatch] granted an operation,
    it never grants it again, whatever methods run in between (restarts
    included, the ledger being durable): every later call answers [false]
    and changes nothing. *)
Theorem dispatch_granted_once now now' l op l1 l2 :
  begin_dispatch now l op = (l1, Ok true) → rtc ledger_step l1 l2 →
  begin_dispatch now' l2 op = (l2, Ok false).
Proof.
  intros Hb Hsteps%steps_effects_evolve. unfold begin_dispatch, update_effects in Hb.
  repeat case_match; simplify_eq/=.
  edestruct Hsteps as (r & Hr & Hevo); [apply lookup_insert_eq|].
  destruct (evo_pending _ _ Hevo) as [Hp _]; [done|].
  unfold begin_dispatch, update_effects.
  rewrite Hr, bool_decide_eq_false_2 by done. simpl. by rewrite Hr.
Qed.

(** Under the invariant a stored operation reads back. *)
Lemma record_locked_reads l op row :
  json_text_parses H → ledger_inv l → celld_effects l !! op = Some row →
  ∃ r, record_locked l op = Ok (Some r) ∧ rec_operation_id r = op ∧
    status_name (rec_status r) = row_status row ∧
    action_name (rec_action r) = row_action row ∧
    rec_provider_dispatch_count r = row_provider_dispatch_count row ∧
    rec_management_operation_id r = row_management_operation_id row ∧
    rec_terminal_code r = row_terminal_code row ∧
    json_text <$> rec_result r = row_result_json row.
Proof.
  intros Hjson [Hrows _] Hrow.
  destruct (Hrows _ _ Hrow) as [[a Ha] [st Hst] Hc Hp [v Hv]].
  unfold record_locked. rewrite Hrow, Ha, Hst, Hv, parse_action_name, parse_status_name.
  destruct v as [v|]; simpl; rewrite ?Hjson; eexists; (split; [reflexivity|]); simpl;
    split_and!; done.
Qed.

(** In every reachable ledger each stored operation can be read back
    (no corrupt action, status or result), and its durable dispatch count is
    0 or 1, and 0 while the operation is still pending. *)
Theorem records_readable l op row :
  json_text_parses H → ledger_reachable l → celld_effects l !! op = Some row →
  ∃ r, record l op = Ok r ∧ rec_operation_id r = op ∧
    status_name (rec_status r) = row_status row ∧
    action_name (rec_action r) = row_action row ∧
    0 <= rec_provider_dispatch_count r <= 1 ∧
    (rec_status r = Effect.Pending → rec_provider_dispatch_count r = 0).
Proof.
  intros Hjson Hinv%ledger_reachable_inv Hrow.
  destruct (record_locked_reads _ _ _ Hjson Hinv Hrow) as (r & Hr & Hop & Hst & Ha & Hn & _).
  destruct (proj1 Hinv _ _ Hrow) as [_ _ Hc Hp _].
  exists r. unfold record. rewrite Hr. simpl. split_and!; try done; [lia..|].
  intros Hpend. rewrite Hpend in Hst. rewrite Hn. by apply Hp.
Qed.

Lemma parse_status_inv value st : parse_status value = Some st → value = status_name st.
Proof. unfold parse_status. intros Hp. repeat case_match; by simplify_eq. Qed.

(** The row an accepted completion leaves. *)
Lemma complete_ok_row now l op st code res l1 :
  effect_is_terminal st = true → complete_with_code now l op st code res = (l1, Ok ()) →
  ∃ row, celld_effects l1 !! op = Some row ∧ row_status row = status_name st ∧
    row_terminal_code row = code ∧ row_result_json row = json_text <$> res.
Proof.
  intros Hst. unfold complete_with_code. rewrite Hst. simpl. unfold update_effects.
  destruct (celld_effects l !! op) as [row|] eqn:Hrow; simpl; [|by rewrite Hrow].
  destruct (not_terminal_name (row_status row)); simpl.
  - intros [= <-]. rewrite update_instance_state_effects. simpl.
    rewrite lookup_insert_eq. eauto.
  - rewrite Hrow. destruct (parse_status _) as [st'|] eqn:Hp; [|done].
    case_match; [done|]. intros [= <-]. rewrite update_instance_state_effects, Hrow.
    apply parse_status_inv in Hp. reflect_bools. subst. eauto.
Qed.

(** A completion of a finished operation that differs from what is stored. *)
Lemma complete_conflict now l op row st st' code' res' :
  celld_effects l !! op = Some row → row_status row = status_name st →
  effect_is_terminal st = true → effect_is_terminal st' = true →
  st ≠ st' ∨ row_terminal_code row ≠ code' ∨ row_result_json row ≠ json_text <$> res' →
  complete_with_code now l op st' code' res' = (l, Err (TerminalConflict op st st')).
Proof.
  intros Hrow Hs Ht Ht' Hne. unfold complete_with_code, update_effects.
  rewrite Ht', Hrow, Hs, not_terminal_status_name, Ht. simpl.
  rewrite Hrow, Hs, parse_status_name.
  rewrite (proj2 (orb_true_iff _ _)); [done|]. rewrite orb_true_iff, !bool_decide_eq_true.
  naive_solver.
Qed.

Lemma json_text_option_inj (v w : option json) :
  json_text_parses H → json_text <$> v = json_text <$> w → v = w.
Proof.
  intros Hjson Heq. destruct v as [v|], w as [w|]; simplify_eq/=; [|done].
  pose proof (Hjson v) as Hv. pose proof (Hjson w). congruence.
Qed.

(** C14: A completion is final.  After a terminal status with its code and
    result was accepted, every later read of the operation returns exactly
    them, and any differing completion is refused as a conflict and changes
    nothing. *)
Theorem completion_final now l op st code res l1 l2 :
  json_text_parses H → ledger_reachable l → effect_is_terminal st = true →
  complete_with_code now l op st code res = (l1, Ok ()) → rtc ledger_step l1 l2 →
  (∃ r, record l2 op = Ok r ∧ rec_status r = st ∧ rec_terminal_code r = code ∧
        rec_result r = res) ∧
  (∀ now' st' code' res', effect_is_terminal st' = true →
     (st, code, res) ≠ (st', code', res') →
     complete_with_code now' l2 op st' code' res' = (l2, Err (TerminalConflict op st st'))).
Proof.
  intros Hjson Hreach Hst Hc Hsteps.
  assert (ledger_inv l2) as [Hrows _].
  { apply (ledger_steps_inv l1); [|done]. apply (step_ledger_inv l); [|by apply ledger_reachable_inv].
    pose proof (step_complete now l op st code res) as Hs. by rewrite Hc in Hs. }
  destruct (complete_ok_row _ _ _ _ _ _ _ Hst Hc) as (row & Hrow & Hs & Hcode & Hres).
  apply steps_effects_evolve in Hsteps. apply Hsteps in Hrow as (row2 & Hrow2 & Hevo).
  destruct (evo_terminal _ _ Hevo) as (Hs2 & Hcode2 & Hres2).
  { by rewrite Hs, not_terminal_status_name, Hst. }
  split.
  - destruct (Hrows _ _ Hrow2) as [[a Ha] _ _ _ _].
    unfold record, record_locked. rewrite Hrow2, Ha, Hs2, Hs, Hres2, Hres.
    rewrite parse_action_name, parse_status_name.
    destruct res as [v|]; simpl; rewrite ?Hjson; eexists; (split; [reflexivity|]); simpl;
      split_and!; congruence.
  - intros now' st' code' res' Hst' Hne.
    apply (complete_conflict _ _ _ row2); try congruence.
    destruct (decide (st = st')) as [->|]; [|auto].
    destruct (decide (code = code')) as [->|]; [right; right|right; left; congruence].
    intros Heq. apply Hne. f_equal. apply json_text_option_inj; congruence.
Qed.

(** Exactly-once claims.  Once a command acquired its operation, any
    later claim of the same command is answered by a replay of the recorded
    status, a claim of a different request under the same operation id is a
    collision, and neither changes the ledger. *)
Theorem claim_acquired_once now now' l cmd l1 l2 cmd' :
  ledger_reachable l → claim_on_connection now l cmd = (l1, Ok Acquired) →
  rtc ledger_step l1 l2 →
  cmd_operation_id cmd' = cmd_operation_id cmd → cmd_generation cmd' <= i64_max →
  (cmd_request_hash cmd' = cmd_request_hash cmd →
     ∃ st row, celld_effects l2 !! cmd_operation_id cmd = Some row ∧
       row_status row = status_name st ∧
       claim_on_connection now' l2 cmd' = (l2, Ok (ClaimReplayed st))) ∧
  (cmd_request_hash cmd' ≠ cmd_request_hash cmd →
     claim_on_connection now' l2 cmd' = (l2, Err Collision)).
Proof.
  intros Hreach Hc Hsteps Hop Hgen.
  assert (ledger_inv l1) as Hl1.
  { change l1 with (l1, Ok Acquired : result EffectLedgerError EffectClaim).1. rewrite <-Hc.
    by apply claim_on_connection_inv, ledger_reachable_inv. }
  destruct (ledger_steps_inv _ _ Hl1 Hsteps) as [Hrows _].
  apply steps_effects_evolve in Hsteps. unfold claim_on_connection in Hc.
  repeat case_match; simplify_eq/=.
  edestruct Hsteps as (row & Hrow & Hevo); [apply lookup_insert_eq|].
  pose proof (evo_hash _ _ Hevo) as Hhash. simpl in Hhash.
  destruct (Hrows _ _ Hrow) as [_ [st Hst] _ _ _].
  unfold claim_on_connection, bind_u64. rewrite (proj2 (Z.leb_le _ _) Hgen), Hop, Hrow, Hhash.
  split; intros Heq.
  - rewrite decide_False by congruence. rewrite Hst, parse_status_name. eauto.
  - by rewrite decide_True by congruence.
Qed.

(** Generations only move forward.  A method keeps the generation of an
    instance or advances it by exactly one, and the latter only when the
    instance was destroyed; so along any run the generation never decreases
    and the instance is never forgotten. *)
Theorem generations_advance l i g :
  ledger_reachable l → celld_instance_generations l !! i = Some g →
  (∀ l', ledger_step l l' → ∃ g', celld_instance_generations l' !! i = Some g' ∧
     (gen_generation g' = gen_generation g ∨
      gen_state g = "destroyed" ∧ gen_generation g' = gen_generation g + 1)) ∧
  (∀ l', rtc ledger_step l l' → ∃ g', celld_instance_generations l' !! i = Some g' ∧
     gen_generation g <= gen_generation g').
Proof.
  intros Hl%ledger_reachable_inv Hg. split.
  - intros l' Hs. by apply (step_generations_evolve l).
  - intros l' Hs. revert g Hg Hl. induction Hs as [l|l l1 l2 Hstep _ IH]; intros g Hg Hl.
    { exists g. split; [done|lia]. }
    destruct (step_generations_evolve _ _ Hstep Hl _ _ Hg) as (g1 & Hg1 & Hle).
    destruct (IH _ Hg1) as (g2 & ? & ?); [by eapply step_ledger_inv|].
    exists g2. split; [done|lia].
Qed.

(** A managed claim that succeeds is a claim at the generation the ledger
    then holds for the instance: a stale or skipped generation never gets
    an effect. *)
Theorem managed_claim_at_current_generation now l cmd l' c :
  claim_managed now l cmd = (l', Ok c) →
  current_generation l' (cmd_instance_id cmd) = Some (cmd_generation cmd).
Proof.
  unfold claim_managed. destruct (managed_generation _ _ _) as [w|] eqn:Hw; [|done].
  set (l1 := match w with Some _ => _ | None => _ end). intros Hc.
  pose proof (claim_on_connection_generations now l1 cmd) as Hgen.
  destruct (claim_on_connection now l1 cmd) as [l2 []]; simplify_eq/=.
  unfold current_generation. rewrite Hgen. subst l1. destruct w as [g|]; simpl.
  - rewrite lookup_insert_eq. simpl. by apply managed_generation_bound in Hw as [-> _].
  - unfold managed_generation, bind_generation, bind_u64 in Hw.
    repeat case_match; simplify_eq/=; reflect_bools; congruence.
Qed.

Lemma update_effects_unchanged l op where_ set_ l' n :
  update_effects l op where_ set_ = (l', n) → (n =? 0) = true → l' = l.
Proof. unfold update_effects. intros. by repeat case_match; simplify_eq. Qed.

Lemma known_or_changed_err l op n e : known_or_changed l op n = Err e → (n =? 0) = true.
Proof. unfold known_or_changed. by case_match. Qed.

(** Every method that reports an error leaves both tables as they were
    (its transaction rolls back). *)
Theorem ledger_errors_change_nothing now l l' err :
  (∀ cmd g, claim now l cmd g = (l', Err err) → l' = l) ∧
  (∀ cmd, claim_managed now l cmd = (l', Err err) → l' = l) ∧
  (∀ op, begin_dispatch now l op = (l', Err err) → l' = l) ∧
  (∀ op m, set_management_operation now l op m = (l', Err err) → l' = l) ∧
  (∀ op, mark_unknown now l op = (l', Err err) → l' = l) ∧
  (∀ op st code res, complete_with_code now l op st code res = (l', Err err) → l' = l).
Proof.
  split_and!; intros *.
  - unfold claim, claim_on_connection. intros. by repeat case_match; simplify_eq.
  - unfold claim_managed. intros. by repeat case_match; simplify_eq.
  - unfold begin_dispatch, update_effects. intros.
    by repeat case_match; simplify_eq/=.
  - unfold set_management_operation. intros. repeat case_match; simplify_eq/=; try done.
    eauto using update_effects_unchanged, known_or_changed_err.
  - unfold mark_unknown. intros. case_match. simplify_eq/=.
    eauto using update_effects_unchanged, known_or_changed_err.
  - unfold complete_with_code. intros. by repeat case_match; simplify_eq.
Qed.
End ledger.

(** ** A sample run

    Provision of [i-1] (operation [op-1]) dispatched and completed, then a
    destroy ([op-2]) completed, then the first completion delivered again. *)

Definition sample_destroy : CellCommand := sample_command "op-2" Action.Destroy.
Definition ledger_0 : EffectLedger :=
  (@claim_managed sample_env 1 empty_ledger (sample_command "op-1" Action.Provision)).1.
Definition ledger_1 : EffectLedger := (@begin_dispatch sample_env 2 ledger_0 "op-1").1.
Definition ledger_2 : EffectLedger :=
  (@complete_with_code sample_env 3 ledger_1 "op-1" Effect.Succeeded None (Some (JNum 7))).1.
Definition ledger_3 : EffectLedger := (@claim_managed sample_env 4 ledger_2 sample_destroy).1.
Definition ledger_4 : EffectLedger :=
  (@complete_with_code sample_env 5 ledger_3 "op-2" Effect.Succeeded None None).1.
Definition ledger_5 : EffectLedger :=
  (@complete_with_code sample_env 6 ledger_4 "op-1" Effect.Succeeded None (Some (JNum 7))).1.

Lemma ledger_1_reachable : @ledger_reachable sample_env ledger_1.
Proof.
  eapply rtc_l; [apply (@step_claim_managed sample_env 1)|].
  apply rtc_once, (@step_begin sample_env 2).
Qed.

Lemma ledger_run_2 : rtc (@ledger_step sample_env) ledger_2 ledger_4.
Proof.
  eapply rtc_l; [apply (@step_claim_managed sample_env 4 _ sample_destroy)|].
  apply rtc_once, (@step_complete sample_env 5).
Qed.

Lemma ledger_run : rtc (@ledger_step sample_env) ledger_1 ledger_4.
Proof. eapply rtc_l; [apply (@step_complete sample_env 3)|apply ledger_run_2]. Qed.

Lemma ledger_4_reachable : @ledger_reachable sample_env ledger_4.
Proof. unfold ledger_reachable. etrans; [apply ledger_1_reachable|apply ledger_run]. Qed.

Lemma dispatch_granted_once_witness :
  @begin_dispatch sample_env 9 ledger_4 "op-1" = (ledger_4, Ok false).
Proof.
  apply (@dispatch_granted_once sample_env 2 9 ledger_0 "op-1" ledger_1 ledger_4).
  - vm_compute. reflexivity.
  - apply ledger_run.
Defined.

Definition sample_row : EffectRow :=
  default (Build_EffectRow "x" "x" 0 "x" "x" 0 None None None "x") (celld_effects ledger_4 !! "op-1").

Lemma records_readable_witness : ∃ r, @record sample_env ledger_4 "op-1" = Ok r.
Proof.
  destruct (@records_readable sample_env ledger_4 "op-1" sample_row) as (r & Hr & _).
  - apply sample_env_text_parses.
  - apply ledger_4_reachable.
  - vm_compute. reflexivity.
  - exists r. exact Hr.
Defined.

Lemma completion_final_witness :
  @complete_with_code sample_env 9 ledger_4 "op-1" Effect.Failed None None =
  (ledger_4, Err (TerminalConflict "op-1" Effect.Succeeded Effect.Failed)).
Proof.
  apply (@completion_final sample_env 3 ledger_1 "op-1" Effect.Succeeded None (Some (JNum 7))
           ledger_2 ledger_4).
  - apply sample_env_text_parses.
  - apply ledger_1_reachable.
  - reflexivity.
  - vm_compute. reflexivity.
  - apply ledger_run_2.
  - reflexivity.
  - discriminate.
Defined.

(** [op-1] claimed outside [claim_managed], then dispatched. *)
Definition claimed_0 : EffectLedger :=
  (@claim sample_env 1 empty_ledger (sample_command "op-1" Action.Provision) 1).1.
Definition claimed_1 : EffectLedger := (@begin_dispatch sample_env 2 claimed_0 "op-1").1.

Lemma claim_acquired_once_witness :
  @claim_on_connection sample_env 9 claimed_1 (sample_command "op-1" Action.Stop) =
  (claimed_1, Err Collision).
Proof.
  apply (@claim_acquired_once sample_env 1 9 empty_ledger (sample_command "op-1" Action.Provision)
           claimed_0 claimed_1).
  - apply rtc_refl.
  - vm_compute. reflexivity.
  - apply rtc_once, (@step_begin sample_env 2).
  - reflexivity.
  - vm_compute. discriminate.
  - vm_compute. discriminate.
Defined.

Lemma generations_advance_witness :
  ∃ g', celld_instance_generations ledger_4 !! "i-1" = Some g' ∧ 1 <= gen_generation g'.
Proof.
  apply (@generations_advance sample_env ledger_1 "i-1"
           {| gen_generation := 1; gen_state := "provisioning"; gen_updated_at := "1" |}).
  - apply ledger_1_reachable.
  - vm_compute. reflexivity.
  - apply ledger_run.
Defined.

Lemma managed_claim_at_current_generation_witness : current_generation ledger_3 "i-1" = Some 1.
Proof.
  apply (@managed_claim_at_current_generation sample_env 4 ledger_2 sample_destroy ledger_3 Acquired).
  vm_compute. reflexivity.
Defined.

Definition sample_next : CellCommand :=
  match @command_new sample_env 5 "op-3" "i-1" 2 Action.Provision (JObj []) with
  | Ok cmd => cmd
  | Err _ => sample_destroy
  end.

(** An accepted replay is not free of effects: delivering the completed
    provision again, after the destroy of the same generation succeeded,
    marks the instance active, and the provision of the next generation is
    then refused although it was allowed before. *)
Theorem replayed_completion_reactivates :
  (@complete_with_code sample_env 6 ledger_4 "op-1" Effect.Succeeded None (Some (JNum 7))).2
    = Ok () ∧
  gen_state <$> celld_instance_generations ledger_4 !! "i-1" = Some "destroyed" ∧
  gen_state <$> celld_instance_generations ledger_5 !! "i-1" = Some "active" ∧
  (@claim_managed sample_env 7 ledger_4 sample_next).2 = Ok Acquired ∧
  (@claim_managed sample_env 7 ledger_5 sample_next).2 = Err GenerationAdvanceNotAllowed.
Proof. by vm_compute. Qed.
