(* ===== verification/CelldAuth.v ===== *)
(** * Signed requests between management and the cell daemon

    Models management/src/celld/auth.rs: reading key files, signing a request
    ([RequestSigner]), verifying one ([RequestVerifier]) and the nonce cache
    that rejects replays ([NonceCache]).  A [DateTime<Utc>] and a
    [chrono::Duration] are nanoseconds; a byte slice is the string of its
    bytes.  The cache mutex makes one [verify] one function of the cache.
    What comes from third-party crates (SHA-256, HMAC, hex, RFC 3339 text,
    UUIDs) and from the file system is in the classes [AuthEnv] and
    [KeyFiles]. *)

From S2P Require Import Prelude Json.

Local Open Scope string_scope.
Local Open Scope list_scope.
Local Open Scope Z_scope.

(** ** Parameters *)

Class AuthEnv : Type := {
  sha256 : string → string;
  hmac_sha256 : string → string → string;
  hex_encode : string → string;
  hex_decode : string → option string;
  (** [to_rfc3339_opts(Millis, true)] and [parse_from_rfc3339] *)
  to_rfc3339_millis : Z → string;
  parse_from_rfc3339 : string → option Z;
  (** [Uuid::now_v7().simple()], the i-th drawn *)
  uuid_now_v7 : Z → string;
}.

(** What the signer and the verifier rely on together: hex text decodes, and
    RFC 3339 text at millisecond precision parses to the truncated time. *)
Record auth_env_laws (H : AuthEnv) : Prop := {
  hex_decodes : ∀ b, hex_decode (hex_encode b) = Some b;
  millis_parse : ∀ t, parse_from_rfc3339 (to_rfc3339_millis t) = Some (t / 1000000 * 1000000);
}.

(** [fs::metadata(path).permissions().mode()] and [fs::read(path)]; an error
    carries its text. *)
Class KeyFiles : Type := {
  fs_mode : string → result string Z;
  fs_read : string → result string string;
}.

(** ** Data *)

Inductive AuthError : Type :=
| KeyRead (text : string)
| KeyPermissions
| WeakKey
| InvalidSignature
| Stale
| Replay
| InvalidGeneration
| InvalidTimestamp.

#[export] Instance AuthError_eq_dec : EqDecision AuthError.
Proof. solve_decision. Defined.

Record SignedRequest : Type := {
  key_id : string;
  timestamp : string;
  nonce : string;
  generation : Z;
  operation_id : string;
  body_sha256 : string;
  signature : string;
}.

Record RequestSigner : Type := {
  signer_key_id : string;
  signer_key : string;
}.

Record VerificationKey : Type := {
  vk_key_id : string;
  vk_key : string;
  vk_valid_from : option Z;
  vk_valid_until : option Z;
}.

Record PreviousKeyFile : Type := {
  previous_key_id : string;
  previous_path : string;
  previous_valid_from : Z;
  previous_valid_until : Z;
}.

Record NonceCache : Type := {
  seen : gmap string Z;
  expiry_order : list (Z * string);
}.

Record RequestVerifier : Type := {
  keys : list VerificationKey;
  max_skew : Z;
  nonces : NonceCache;
}.

Definition nonce_cache_default : NonceCache := {| seen := ∅; expiry_order := [] |}.

(** ** Key files *)

Definition verify_private_permissions `{KeyFiles} (path : string) : result AuthError () :=
  mode ← map_err KeyRead (fs_mode path);
  if Z.land mode 63 =? 0 then Ok () else Err KeyPermissions.

Definition read_private_key `{KeyFiles} (path : string) : result AuthError string :=
  _ ← verify_private_permissions path;
  key ← map_err KeyRead (fs_read path);
  if str_len key <? 32 then Err WeakKey else Ok key.

Definition signer_from_file `{KeyFiles} (id path : string) : result AuthError RequestSigner :=
  _ ← verify_private_permissions path;
  key ← map_err KeyRead (fs_read path);
  if str_len key <? 32 then Err WeakKey
  else Ok {| signer_key_id := id; signer_key := key |}.

Definition from_files `{KeyFiles} (id path : string) (previous : option PreviousKeyFile)
    (skew : Z) : result AuthError RequestVerifier :=
  key ← read_private_key path;
  let active := {| vk_key_id := id; vk_key := key; vk_valid_from := None;
                   vk_valid_until := None |} in
  ks ← match previous with
       | None => Ok [active]
       | Some p =>
           old ← read_private_key (previous_path p);
           Ok [active; {| vk_key_id := previous_key_id p; vk_key := old;
                          vk_valid_from := Some (previous_valid_from p);
                          vk_valid_until := Some (previous_valid_until p) |}]
       end;
  Ok {| keys := ks; max_skew := skew; nonces := nonce_cache_default |}.

(** ** The signed text *)

Definition ascii_uppercase (a : Ascii.ascii) : Ascii.ascii :=
  let n := byte_val a in
  if (97 <=? n) && (n <=? 122) then Ascii.ascii_of_N (Z.to_N (n - 32)) else a.

Fixpoint to_ascii_uppercase (s : string) : string :=
  match s with
  | String.EmptyString => EmptyString
  | String.String a s' => String.String (ascii_uppercase a) (to_ascii_uppercase s')
  end.

Definition newline : string := String.String (Ascii.ascii_of_N 10) EmptyString.

Definition canonical (method path operation_id : string) (generation : Z)
    (timestamp nonce body_sha256 : string) : string :=
  to_ascii_uppercase method +:+ newline +:+ path +:+ newline +:+ operation_id +:+ newline
    +:+ pretty generation +:+ newline +:+ timestamp +:+ newline +:+ nonce +:+ newline
    +:+ body_sha256.

Definition sign_bytes `{AuthEnv} (key value : string) : string :=
  hex_encode (hmac_sha256 key value).

Definition sign `{AuthEnv} (s : RequestSigner) (method path operation_id : string)
    (generation : Z) (body : string) (now draw : Z) : result AuthError SignedRequest :=
  if generation =? 0 then Err InvalidGeneration
  else
    let timestamp := to_rfc3339_millis now in
    let nonce := uuid_now_v7 draw in
    let body_sha256 := hex_encode (sha256 body) in
    let text := canonical method path operation_id generation timestamp nonce body_sha256 in
    Ok {| key_id := signer_key_id s; timestamp := timestamp; nonce := nonce;
          generation := generation; operation_id := operation_id;
          body_sha256 := body_sha256; signature := sign_bytes (signer_key s) text |}.

(** ** The nonce cache *)

(** The [while] loop of [consume]: expired entries leave from the front. *)
Fixpoint expire (observed_at max_age : Z) (seen : gmap string Z) (order : list (Z * string))
    : gmap string Z * list (Z * string) :=
  match order with
  | [] => (seen, [])
  | (seen_at, expired) :: order' =>
      if max_age <? observed_at - seen_at then
        expire observed_at max_age
          (if decide (seen !! expired = Some seen_at) then delete expired seen else seen) order'
      else (seen, order)
  end.

Definition consume (c : NonceCache) (nonce : string) (observed_at max_age : Z)
    : NonceCache * result AuthError () :=
  let '(sn, order) := expire observed_at max_age (seen c) (expiry_order c) in
  match sn !! nonce with
  | Some _ => ({| seen := sn; expiry_order := order |}, Err Replay)
  | None => ({| seen := <[nonce := observed_at]> sn;
                expiry_order := order ++ [(observed_at, nonce)] |}, Ok ())
  end.

(** ** Verification *)

(** The predicate of [keys.iter().find(..)]. *)
Definition key_applies (id : string) (now : Z) (k : VerificationKey) : bool :=
  bool_decide (vk_key_id k = id)
  && match vk_valid_from k with None => true | Some t => t <=? now end
  && match vk_valid_until k with None => true | Some t => now <=? t end.

(** Every check of [verify] before the nonce cache. *)
Definition authenticate `{AuthEnv} (v : RequestVerifier) (signed : SignedRequest)
    (method path body : string) (now : Z) : result AuthError () :=
  if generation signed =? 0 then Err InvalidGeneration
  else
    ts ← ok_or (parse_from_rfc3339 (timestamp signed)) InvalidTimestamp;
    if max_skew v <? Z.abs (now - ts) then Err Stale
    else
      let digest := hex_encode (sha256 body) in
      if negb (bool_decide (digest = body_sha256 signed)) then Err InvalidSignature
      else
        let text := canonical method path (operation_id signed) (generation signed)
                      (timestamp signed) (nonce signed) (body_sha256 signed) in
        sig ← ok_or (hex_decode (signature signed)) InvalidSignature;
        key ← ok_or (find_first (key_applies (key_id signed) now) (keys v)) InvalidSignature;
        if bool_decide (hmac_sha256 (vk_key key) text = sig) then Ok ()
        else Err InvalidSignature.

Definition verify `{AuthEnv} (v : RequestVerifier) (signed : SignedRequest)
    (method path body : string) (now : Z) : RequestVerifier * result AuthError () :=
  match authenticate v signed method path body now with
  | Err e => (v, Err e)
  | Ok _ =>
      let '(c, r) := consume (nonces v) (nonce signed) now (max_skew v) in
      (v <| nonces := c |>, r)
  end.

(** ** Runs of a verifier

    A verifier with the clock of its last call; calls come in any order and
    from anyone, the clock does not go backwards. *)

Definition fresh_verifier (ks : list VerificationKey) (skew : Z) : RequestVerifier :=
  {| keys := ks; max_skew := skew; nonces := nonce_cache_default |}.

Inductive verify_step `{AuthEnv} : RequestVerifier * Z → RequestVerifier * Z → Prop :=
| step_verify v now signed method path body now' v' r :
    now <= now' → verify v signed method path body now' = (v', r) →
    verify_step (v, now) (v', now').

(** ** The nonce cache invariant *)

Definition earlier (a b : Z * string) : Prop := a.1 <= b.1.

Record cache_ok (sn : gmap string Z) (order : list (Z * string)) (now : Z) : Prop := {
  co_seen : ∀ n t, sn !! n = Some t ↔ (t, n) ∈ order;
  co_nodup : NoDup order.*2;
  co_sorted : StronglySorted earlier order;
  co_past : ∀ e, e ∈ order → e.1 <= now;
}.

Definition verifier_ok (v : RequestVerifier) (now : Z) : Prop :=
  cache_ok (seen (nonces v)) (expiry_order (nonces v)) now.

Lemma cache_ok_later sn order now now' : now <= now' → cache_ok sn order now → cache_ok sn order now'.
Proof. intros Hle [Hs Hn Ho Hp]. split; try done. intros e He. specialize (Hp e He). lia. Qed.

Lemma cache_ok_pop sn t n order now :
  cache_ok sn ((t, n) :: order) now → sn !! n = Some t ∧ cache_ok (delete n sn) order now.
Proof.
  intros [Hs Hn Ho Hp]. csimpl in *. apply NoDup_cons in Hn as [Hnin Hn].
  apply StronglySorted_inv in Ho as [Ho _].
  split; [apply Hs; set_solver|]. split; [|done|done|set_solver].
  intros n' t'. rewrite lookup_delete_Some, Hs, elem_of_cons. split.
  - intros [Hne [?|?]]; [congruence|done].
  - intros Hin. split; [|by right]. intros ->. apply Hnin.
    apply list_elem_of_fmap. by exists (t', n').
Qed.

(** On a cache in order, the loop drops exactly the expired entries. *)
Lemma expire_spec now age sn order clock sn' order' :
  cache_ok sn order clock → expire now age sn order = (sn', order') →
  order' = filter (λ e, now - e.1 <= age) order ∧ cache_ok sn' order' clock.
Proof.
  revert sn. induction order as [|[t n] order IH]; intros sn Hok; simpl.
  { by intros [= <- <-]. }
  destruct (cache_ok_pop _ _ _ _ _ Hok) as [Hsn Hok'].
  rewrite filter_cons. simpl. destruct (age <? now - t) eqn:Ht; reflect_bools.
  - rewrite (decide_False (P := now - t <= age)) by lia.
    rewrite decide_True by done. by apply IH.
  - intros [= <- <-]. split; [|done]. rewrite decide_True by lia. f_equal. symmetry.
    apply filter_all. destruct Hok as [_ _ Ho _].
    apply StronglySorted_inv in Ho as [_ Ho]. eapply Forall_impl; [exact Ho|].
    unfold earlier. simpl. lia.
Qed.

Lemma consume_spec c n now age clock c' r :
  clock <= now → cache_ok (seen c) (expiry_order c) clock → consume c n now age = (c', r) →
  let kept := filter (λ e, now - e.1 <= age) (expiry_order c) in
  cache_ok (seen c') (expiry_order c') now ∧
  (r = Ok () ∧ (n ∉ kept.*2) ∧ expiry_order c' = kept ++ [(now, n)]
   ∨ r = Err Replay ∧ (n ∈ kept.*2) ∧ expiry_order c' = kept).
Proof.
  intros Hle Hok. unfold consume. destruct (expire _ _ _ _) as [sn order] eqn:He.
  destruct (expire_spec _ _ _ _ _ _ _ Hok He) as [Hk Hok']. cbv zeta. rewrite <-Hk.
  apply (cache_ok_later _ _ _ now) in Hok'; [|done]. destruct Hok' as [Hs Hn Ho Hp].
  destruct (sn !! n) as [t|] eqn:Hsn; intros [= <- <-]; simpl.
  - split; [done|]. right. split; [done|]. split; [|done].
    apply list_elem_of_fmap. exists (t, n). by rewrite <-Hs.
  - assert (n ∉ order.*2) as Hnin.
    { intros ([t n'] & -> & Hin)%list_elem_of_fmap. apply Hs in Hin. simpl in *. congruence. }
    split; [|by left]. split; simpl.
    + intros n' t. rewrite elem_of_app, list_elem_of_singleton, <-Hs.
      destruct (decide (n = n')) as [->|Hne];
        [rewrite lookup_insert_eq, Hsn|rewrite lookup_insert_ne by done]; naive_solver.
    + rewrite fmap_app. apply NoDup_app. split_and!; [done| |apply NoDup_singleton].
      csimpl. set_solver.
    + apply StronglySorted_app_2; [|done|by repeat constructor].
      intros x y Hx ->%list_elem_of_singleton. unfold earlier. simpl. auto.
    + intros e [He'| ->%list_elem_of_singleton]%elem_of_app; [auto|simpl; lia].
Qed.

(** ** Invariants of runs *)

Section auth_proofs.
Context {H : AuthEnv}.

Lemma verify_keeps v signed m p b now v' r :
  verify v signed m p b now = (v', r) → keys v' = keys v ∧ max_skew v' = max_skew v.
Proof. unfold verify. intros. split_matches. Qed.

Lemma verify_invariant v signed m p b clock now v' r :
  clock <= now → verifier_ok v clock → verify v signed m p b now = (v', r) → verifier_ok v' now.
Proof.
  unfold verify, verifier_ok. intros Hle Hok. destruct (authenticate _ _ _ _ _ _).
  - destruct (consume _ _ _ _) as [c r'] eqn:Hc. intros [= <- <-].
    by destruct (consume_spec _ _ _ _ _ _ _ Hle Hok Hc).
  - intros [= <- <-]. by eapply cache_ok_later.
Qed.

Lemma steps_invariant (P : RequestVerifier → Z → Prop) x y :
  (∀ v now signed m p b now' v' r, now <= now' → P v now →
     verify v signed m p b now' = (v', r) → P v' now') →
  rtc verify_step x y → P x.1 x.2 → P y.1 y.2 ∧ x.2 <= y.2.
Proof.
  intros Hstep. induction 1 as [x|x y z Hxy _ IH]; [intros; split; [done|lia]|].
  intros HP. destruct Hxy as [v now signed m p b now' v' r Hle Hv]. simpl in *.
  destruct IH as [HPz Hz]; [by eapply Hstep|]. split; [done|lia].
Qed.

Lemma reachable_ok ks skew t0 v now :
  rtc verify_step (fresh_verifier ks skew, t0) (v, now) →
  (keys v = ks ∧ max_skew v = skew) ∧ verifier_ok v now.
Proof.
  intros Hrun. refine (proj1 (steps_invariant (λ v now,
    (keys v = ks ∧ max_skew v = skew) ∧ verifier_ok v now) _ _ _ Hrun _)).
  - intros v1 now1 signed m p b now2 v2 r Hle [[Hk Hs] Hok] Hv.
    destruct (verify_keeps _ _ _ _ _ _ _ _ Hv) as [-> ->].
    split; [done|]. by eapply verify_invariant.
  - split; [done|]. split; simpl; [|constructor..|].
    + intros. rewrite lookup_empty, elem_of_nil. naive_solver.
    + by intros ? ?%elem_of_nil.
Qed.

(** An acceptance: every check passes and the nonce was not observed within
    the skew. *)
Lemma verify_Ok v signed m p b clock now v' :
  clock <= now → verifier_ok v clock → verify v signed m p b now = (v', Ok ()) →
  authenticate v signed m p b now = Ok () ∧
  (now, nonce signed) ∈ expiry_order (nonces v') ∧
  ∀ t, (t, nonce signed) ∈ expiry_order (nonces v) → max_skew v < now - t.
Proof.
  unfold verify, verifier_ok. intros Hle Hok.
  destruct (authenticate _ _ _ _ _ _) as [[]|]; [|done].
  destruct (consume _ _ _ _) as [c r'] eqn:Hc. intros [= <- ->]. split; [done|].
  destruct (consume_spec _ _ _ _ _ _ _ Hle Hok Hc) as [_ [(_ & Hn & Ho)|(? & _)]]; [|done].
  simpl. rewrite Ho. split; [set_solver|]. intros t Hin. apply Z.nle_gt. intros Hage. apply Hn.
  apply list_elem_of_fmap. exists (t, nonce signed).
  by rewrite list_elem_of_filter.
Qed.

(** A nonce once observed stays in the cache until the skew has passed. *)
Lemma nonce_remembered v signed m p b clock now v' r t n :
  clock <= now → verifier_ok v clock → verify v signed m p b now = (v', r) →
  (t, n) ∈ expiry_order (nonces v) →
  (t, n) ∈ expiry_order (nonces v') ∨ max_skew v < now - t.
Proof.
  unfold verify, verifier_ok. intros Hle Hok.
  destruct (authenticate _ _ _ _ _ _); [|intros [= <- <-]; auto].
  destruct (consume _ _ _ _) as [c r'] eqn:Hc. intros [= <- ->] Hin.
  destruct (consume_spec _ _ _ _ _ _ _ Hle Hok Hc) as [_ Hcase].
  destruct (decide (now - t <= max_skew v)) as [Hage|]; [left|right; lia].
  assert ((t, n) ∈ filter (λ e, now - e.1 <= max_skew v) (expiry_order (nonces v)))
    by (by rewrite list_elem_of_filter).
  destruct Hcase as [(_ & _ & Ho)|(_ & _ & Ho)]; simpl; rewrite Ho; set_solver.
Qed.

Lemma nonce_remembered_run v now v' now' t n :
  rtc verify_step (v, now) (v', now') → verifier_ok v now → (t, n) ∈ expiry_order (nonces v) →
  verifier_ok v' now' ∧ max_skew v' = max_skew v ∧
  ((t, n) ∈ expiry_order (nonces v') ∨ max_skew v < now' - t).
Proof.
  intros Hrun Hok Hin. refine (proj1 (steps_invariant (λ w clock, verifier_ok w clock ∧
    max_skew w = max_skew v ∧
    ((t, n) ∈ expiry_order (nonces w) ∨ max_skew v < clock - t)) _ _ _ Hrun _)).
  - intros v1 now1 signed m p b now2 v2 r Hle (Hv & Hsk & Hmem) Hver.
    destruct (verify_keeps _ _ _ _ _ _ _ _ Hver) as [_ ->].
    split_and!; [by eapply verify_invariant|done|].
    destruct Hmem as [Hmem|]; [|right; lia]. rewrite <-Hsk. by eapply nonce_remembered.
  - split_and!; [done|done|by left].
Qed.

Lemma authenticate_fresh v signed m p b now :
  authenticate v signed m p b now = Ok () →
  ∃ ts, parse_from_rfc3339 (timestamp signed) = Some ts ∧ Z.abs (now - ts) <= max_skew v.
Proof.
  unfold authenticate. destruct (_ =? 0); [done|].
  destruct (parse_from_rfc3339 _) as [ts|]; simpl; [|done].
  destruct (_ <? _) eqn:Hs; [done|]. reflect_bools. eauto.
Qed.

(** C2: Replay protection.  In any run of the verifier whose clock does not go
    backwards, two accepted requests with the same nonce are more than the
    freshness window apart; and when the second is a replay of the first (same
    timestamp), the timestamp was ahead of the verifier's clock at the first
    acceptance.  A request stamped by a clock that is not ahead is therefore
    accepted at most once. *)
Theorem accepted_nonce_not_replayed ks skew t0 v1 t1 a ma pa ba ta v2 v3 t3 b mb pb bb tb v4 :
  rtc verify_step (fresh_verifier ks skew, t0) (v1, t1) →
  t1 <= ta → verify v1 a ma pa ba ta = (v2, Ok ()) →
  rtc verify_step (v2, ta) (v3, t3) →
  t3 <= tb → verify v3 b mb pb bb tb = (v4, Ok ()) →
  nonce a = nonce b →
  skew < tb - ta ∧
  (timestamp a = timestamp b →
   ∃ ts, parse_from_rfc3339 (timestamp a) = Some ts ∧ ta < ts).
Proof.
  intros Hrun1 Hta Ha Hrun2 Htb Hb Hn.
  destruct (reachable_ok _ _ _ _ _ Hrun1) as [[Hk Hs] Hok].
  destruct (verify_keeps _ _ _ _ _ _ _ _ Ha) as [Hk2 Hs2].
  destruct (verify_Ok _ _ _ _ _ _ _ _ Hta Hok Ha) as (_ & Hin & _).
  destruct (nonce_remembered_run _ _ _ _ ta (nonce a) Hrun2) as (Hok3 & Hs3 & Hmem);
    [by eapply verify_invariant|done|]. rewrite Hs2, Hs in *.
  destruct (verify_Ok _ _ _ _ _ _ _ _ Htb Hok3 Hb) as (Hauth & _ & Hfar).
  rewrite Hs3 in Hfar. assert (skew < tb - ta) as Hgap.
  { destruct Hmem as [Hmem|]; [|lia]. apply Hfar. by rewrite <-Hn. }
  split; [done|]. intros Hts.
  destruct (authenticate_fresh _ _ _ _ _ _ Hauth) as (ts & Hp & Habs).
  exists ts. rewrite Hts, Hs3 in *. split; [done|lia].
Qed.

Definition unwindowed (k : VerificationKey) : Prop :=
  vk_valid_from k = None ∧ vk_valid_until k = None.

Lemma find_unwindowed ks id now now' :
  Forall unwindowed ks →
  find_first (key_applies id now') ks = find_first (key_applies id now) ks.
Proof.
  induction 1 as [|k ks [Hf Hu] _ IH]; simpl; [done|].
  unfold key_applies at 1 3. by rewrite Hf, Hu, IH.
Qed.

(** Without rotation windows, a request that authenticates keeps doing so while
    it is fresh. *)
Lemma authenticate_later v v' signed m p b now now' ts :
  authenticate v signed m p b now = Ok () →
  keys v' = keys v → max_skew v' = max_skew v → Forall unwindowed (keys v) →
  parse_from_rfc3339 (timestamp signed) = Some ts → Z.abs (now' - ts) <= max_skew v →
  authenticate v' signed m p b now' = Ok ().
Proof.
  unfold authenticate. intros Ha -> -> Hk Hp Hf.
  rewrite (find_unwindowed _ _ now now'), Hp in * by done.
  destruct (_ =? 0); [done|]. simpl in *.
  destruct (_ <? Z.abs (now - ts)); [done|].
  by rewrite (proj2 (Z.ltb_ge _ _)).
Qed.

(** The window a nonce is remembered for starts when it is observed, the
    window a request is fresh in is centred on its timestamp: a request stamped
    ahead of the verifier's clock is still fresh when its nonce has been
    forgotten, and the same bytes are accepted a second time. *)
Theorem ahead_request_accepted_twice ks skew t0 v1 t1 a m p b ta v2 ts :
  rtc verify_step (fresh_verifier ks skew, t0) (v1, t1) →
  Forall unwindowed ks →
  t1 <= ta → verify v1 a m p b ta = (v2, Ok ()) →
  parse_from_rfc3339 (timestamp a) = Some ts → ta < ts →
  (verify v2 a m p b (ta + skew + 1)).2 = Ok ().
Proof.
  intros Hrun Hks Hta Ha Hp Hts.
  destruct (reachable_ok _ _ _ _ _ Hrun) as [[Hk Hs] Hok].
  destruct (verify_keeps _ _ _ _ _ _ _ _ Ha) as [Hk2 Hs2].
  pose proof (verify_invariant _ _ _ _ _ _ _ _ _ Hta Hok Ha) as Hok2.
  destruct (verify_Ok _ _ _ _ _ _ _ _ Hta Hok Ha) as (Hauth & _ & _).
  destruct (authenticate_fresh _ _ _ _ _ _ Hauth) as (ts' & Hp' & Habs).
  rewrite Hp in Hp'. simplify_eq.
  assert (authenticate v2 a m p b (ta + max_skew v1 + 1) = Ok ()) as Hagain.
  { eapply authenticate_later; [done..|lia]. }
  unfold verify. rewrite Hagain.
  destruct (consume _ _ _ _) as [c r] eqn:Hc. simpl.
  assert (ta <= ta + max_skew v1 + 1) as Hle by lia.
  destruct (consume_spec _ _ _ _ _ _ _ Hle Hok2 Hc) as [_ [[-> _]|(_ & Hin & _)]]; [done|].
  apply list_elem_of_fmap in Hin as (e & _ & [Hage Hin]%list_elem_of_filter).
  pose proof (co_past _ _ _ Hok2 _ Hin). rewrite Hs2 in Hage. lia.
Qed.

(** The condition under which a request is accepted. *)
Definition acceptable (v : RequestVerifier) (a : SignedRequest) (m p b : string) (now : Z) : Prop :=
  generation a ≠ 0 ∧
  (∃ ts, parse_from_rfc3339 (timestamp a) = Some ts ∧ Z.abs (now - ts) <= max_skew v) ∧
  hex_encode (sha256 b) = body_sha256 a ∧
  (∃ k, find_first (key_applies (key_id a) now) (keys v) = Some k ∧
        hex_decode (signature a) = Some (hmac_sha256 (vk_key k)
          (canonical m p (operation_id a) (generation a) (timestamp a) (nonce a)
             (body_sha256 a)))) ∧
  ∀ t, (t, nonce a) ∈ expiry_order (nonces v) → max_skew v < now - t.

Lemma verify_acceptable v a m p b clock now :
  clock <= now → verifier_ok v clock →
  (verify v a m p b now).2 = Ok () ↔ acceptable v a m p b now.
Proof.
  intros Hle Hok. split.
  - destruct (verify _ _ _ _ _ _) as [v' r] eqn:Hv. simpl. intros ->.
    destruct (verify_Ok _ _ _ _ _ _ _ _ Hle Hok Hv) as (Ha & _ & Hn).
    unfold authenticate in Ha. unfold acceptable.
    destruct (_ =? 0) eqn:Hg; [done|]. apply bind_Ok in Ha as (ts & Hp%ok_or_Ok & Ha).
    destruct (_ <? _) eqn:Hf; [done|]. destruct (negb _) eqn:Hd; [done|].
    apply bind_Ok in Ha as (sig & Hsig%ok_or_Ok & Ha).
    apply bind_Ok in Ha as (k & Hk%ok_or_Ok & Ha).
    destruct (bool_decide (hmac_sha256 _ _ = _)) eqn:Hm; [|done]. reflect_bools. subst.
    eauto 10.
  - intros (Hg & (ts & Hp & Hf) & Hd & (k & Hk & Hsig) & Hn). unfold verify, authenticate.
    rewrite (proj2 (Z.eqb_neq _ _)) by done. rewrite Hp. simpl.
    rewrite (proj2 (Z.ltb_ge _ _)) by done. rewrite bool_decide_true by done. simpl.
    rewrite Hsig, Hk. simpl. rewrite bool_decide_true by done.
    destruct (consume _ _ _ _) as [c r] eqn:Hc. simpl.
    destruct (consume_spec _ _ _ _ _ _ _ Hle Hok Hc) as [_ [[-> _]|(_ & Hin & _)]]; [done|].
    apply list_elem_of_fmap in Hin as ([t n] & Heq & [Hage Hin]%list_elem_of_filter).
    simpl in *. rewrite <-Heq in Hin. specialize (Hn t Hin). lia.
Qed.

(** Exactly which requests are accepted: positive generation, a timestamp
    within the skew, the digest of this body, a signature that is the HMAC of
    the canonical text under the first key that has the id and is in its
    validity window, and a nonce not observed within the skew. *)
Theorem verify_accepts_iff ks skew t0 v t1 a m p b now :
  rtc verify_step (fresh_verifier ks skew, t0) (v, t1) → t1 <= now →
  keys v = ks ∧ max_skew v = skew ∧
  ((verify v a m p b now).2 = Ok () ↔ acceptable v a m p b now).
Proof.
  intros Hrun Hle. destruct (reachable_ok _ _ _ _ _ Hrun) as [[<- <-] Hok].
  split_and!; [done|done|]. by eapply verify_acceptable.
Qed.

(** A request signed with a key the verifier has is accepted by it: within
    the skew of the signer's (millisecond-truncated) time and with a nonce the
    cache does not hold. *)
Theorem signed_request_accepted ks skew t0 v t1 s m p o g b signed_at draw now k :
  auth_env_laws H →
  rtc verify_step (fresh_verifier ks skew, t0) (v, t1) → t1 <= now → g ≠ 0 →
  Z.abs (now - signed_at / 1000000 * 1000000) <= skew →
  find_first (key_applies (signer_key_id s) now) ks = Some k → vk_key k = signer_key s →
  uuid_now_v7 draw ∉ (expiry_order (nonces v)).*2 →
  ∃ a, sign s m p o g b signed_at draw = Ok a ∧ (verify v a m p b now).2 = Ok ().
Proof.
  intros [Hhex Hts] Hrun Hle Hg Hf Hk Hkey Hn.
  unfold sign. rewrite (proj2 (Z.eqb_neq _ _)) by done. eexists. split; [done|].
  destruct (reachable_ok _ _ _ _ _ Hrun) as [[<- <-] Hok].
  eapply verify_acceptable; [done|done|]. unfold acceptable. simpl. split_and!; [done|eauto|done| |].
  - exists k. split; [done|]. unfold sign_bytes. by rewrite Hhex, Hkey.
  - intros t Hin. destruct Hn. apply list_elem_of_fmap. by exists (t, uuid_now_v7 draw).
Qed.

Definition private_key_file (F : KeyFiles) (path key : string) : Prop :=
  ∃ mode, fs_mode path = Ok mode ∧ Z.land mode 63 = 0 ∧ fs_read path = Ok key ∧
          32 <= str_len key.

Lemma read_private_key_Ok (F : KeyFiles) path key :
  read_private_key path = Ok key ↔ private_key_file F path key.
Proof.
  unfold read_private_key, verify_private_permissions, private_key_file.
  destruct (fs_mode path) as [mode|]; simpl; [|naive_solver].
  destruct (Z.land mode 63 =? 0) eqn:Hm; reflect_bools; simpl; [|naive_solver].
  destruct (fs_read path) as [k|]; simpl; [|naive_solver].
  destruct (str_len k <? 32) eqn:Hl; reflect_bools; [naive_solver lia|naive_solver].
Qed.

(** Keys come from private files only: a verifier is built exactly when
    every key file it names can be read, is closed to group and world, and holds
    at least 32 bytes; its keys are the contents, in order, with the previous
    key confined to its rotation window, and no nonce has been seen. *)
Theorem keys_from_private_files (F : KeyFiles) id path previous skew v :
  from_files id path previous skew = Ok v ↔
  ∃ key, private_key_file F path key ∧ max_skew v = skew ∧ nonces v = nonce_cache_default ∧
  match previous with
  | None => keys v = [{| vk_key_id := id; vk_key := key; vk_valid_from := None;
                         vk_valid_until := None |}]
  | Some p => ∃ old, private_key_file F (previous_path p) old ∧
      keys v = [{| vk_key_id := id; vk_key := key; vk_valid_from := None;
                   vk_valid_until := None |};
                {| vk_key_id := previous_key_id p; vk_key := old;
                   vk_valid_from := Some (previous_valid_from p);
                   vk_valid_until := Some (previous_valid_until p) |}]
  end.
Proof.
  unfold from_files. destruct v as [ks sk nc]. simpl. rewrite bind_Ok.
  setoid_rewrite read_private_key_Ok. destruct previous as [p|]; simpl.
  - split.
    + intros (key & Hkey & Hrest). apply bind_Ok in Hrest as (ks' & Hold & [= <- <- <-]).
      apply bind_Ok in Hold as (old & Hold%read_private_key_Ok & [= <-]). eauto 10.
    + intros (key & Hkey & -> & -> & old & Hold%read_private_key_Ok & ->).
      exists key. split; [done|]. by rewrite Hold.
  - naive_solver.
Qed.
End auth_proofs.

(** ** The canonical text binds every field *)

Definition no_newline (s : string) : bool := string_forallb (λ a, negb (byte_val a =? 10)) s.

Lemma newline_split s1 s2 r1 r2 :
  no_newline s1 = true → no_newline s2 = true →
  s1 +:+ newline +:+ r1 = s2 +:+ newline +:+ r2 → s1 = s2 ∧ r1 = r2.
Proof.
  revert s2. induction s1 as [|a s1 IH]; intros [|c s2] H1 H2 Heq.
  - by injection Heq.
  - injection Heq as <- _. discriminate H2.
  - injection Heq as -> _. discriminate H1.
  - injection Heq as -> Heq. apply andb_true_iff in H1 as [_ H1], H2 as [_ H2].
    by destruct (IH s2 H1 H2 Heq) as [-> ->].
Qed.

Lemma no_newline_uppercase s : no_newline s = true → no_newline (to_ascii_uppercase s) = true.
Proof.
  induction s as [|a s IH]; [done|]. unfold no_newline in *. simpl.
  rewrite !andb_true_iff. intros [Ha Hs]. split; [|auto].
  destruct a as [[] [] [] [] [] [] [] []]; vm_compute in Ha |- *; done.
Qed.

Lemma no_newline_pretty_go x s : no_newline s = true → no_newline (pretty_N_go x s) = true.
Proof.
  revert s. induction (N.lt_wf_0 x) as [x _ IH]; intros s Hs.
  destruct (decide (0 < x)%N) as [Hx|Hx]; cycle 1.
  { replace x with 0%N by lia. by rewrite pretty_N_go_0. }
  rewrite pretty_N_go_step by done. apply IH; [apply N.div_lt; lia|].
  unfold no_newline in *. simpl. rewrite Hs, andb_true_r.
  assert ((x `mod` 10) < 10)%N as Hlt by (apply N.mod_lt; lia).
  remember (x `mod` 10)%N as d. clear -Hlt.
  assert (d = 0 ∨ d = 1 ∨ d = 2 ∨ d = 3 ∨ d = 4 ∨ d = 5 ∨ d = 6 ∨ d = 7 ∨ d = 8 ∨ d = 9)%N
    as Hd by lia.
  by destruct_or!; subst.
Qed.

Lemma no_newline_pretty (g : Z) : no_newline (pretty g) = true.
Proof.
  assert (∀ x : N, no_newline (pretty x) = true) as HN.
  { intros x. unfold pretty, pretty_N. case_decide; [done|]. by apply no_newline_pretty_go. }
  destruct g; [done|exact (HN (Npos p))|].
  change (pretty (Z.neg p)) with ("-" +:+ pretty (Npos p)). unfold no_newline in *. simpl.
  apply HN.
Qed.

(** The signed text binds the request: when no field contains a line break
    (the fields come from a request line and from header values), equal
    canonical texts have equal fields, the method up to ASCII case. *)
Theorem canonical_injective m p o g t n d m' p' o' g' t' n' d' :
  forallb no_newline [m; p; o; t; n; m'; p'; o'; t'; n'] = true →
  canonical m p o g t n d = canonical m' p' o' g' t' n' d' →
  to_ascii_uppercase m = to_ascii_uppercase m' ∧
  (p, o, g, t, n, d) = (p', o', g', t', n', d').
Proof.
  simpl. intros Hall Heq. reflect_bools. unfold canonical in Heq.
  repeat match goal with
  | Heq : _ +:+ newline +:+ _ = _ +:+ newline +:+ _ |- _ =>
      apply newline_split in Heq as [? Heq];
        [|auto using no_newline_uppercase, no_newline_pretty..]
  end.
  assert (g = g') as -> by (by apply (inj pretty)). by subst.
Qed.

(** ** Sample runs *)

#[local] Instance sample_auth : AuthEnv := {|
  sha256 := λ b, b;
  hmac_sha256 := λ k m, k +:+ m;
  hex_encode := λ b, b;
  hex_decode := λ s, Some s;
  to_rfc3339_millis := λ t, bits_text (encode (t / 1000000 * 1000000));
  parse_from_rfc3339 := λ s, decode (text_bits s);
  uuid_now_v7 := λ i, pretty i;
|}.

Lemma sample_auth_laws : auth_env_laws sample_auth.
Proof. split; [done|]. intros t. simpl. by rewrite text_bits_text, decode_encode. Qed.

#[local] Instance sample_files : KeyFiles := {|
  fs_mode := λ _, Ok 384;
  fs_read := λ _, Ok "01234567890123456789012345678901";
|}.

Definition sample_key : VerificationKey :=
  {| vk_key_id := "active"; vk_key := "01234567890123456789012345678901";
     vk_valid_from := None; vk_valid_until := None |}.

Definition sample_signer : RequestSigner :=
  {| signer_key_id := "active"; signer_key := vk_key sample_key |}.

(** A request stamped at 5 ms, posted to "/cell". *)
Definition sample_signed : SignedRequest :=
  match sign sample_signer "POST" "/cell" "op-1" 4 "{}" 5000000 1 with
  | Ok a => a
  | Err _ => {| key_id := "active"; timestamp := EmptyString; nonce := EmptyString;
                generation := 0; operation_id := EmptyString; body_sha256 := EmptyString;
                signature := EmptyString |}
  end.

Definition sample_verifier : RequestVerifier := fresh_verifier [sample_key] 2000000.

Definition sample_verify (v : RequestVerifier) (now : Z) : RequestVerifier * result AuthError () :=
  verify v sample_signed "POST" "/cell" "{}" now.

Lemma accepted_nonce_not_replayed_witness :
  (sample_verify sample_verifier 4000000).2 = Ok () ∧
  2000000 < 6000001 - 4000000 ∧ (∃ ts, parse_from_rfc3339 (timestamp sample_signed) = Some ts ∧ 4000000 < ts).
Proof.
  split; [vm_compute; reflexivity|].
  destruct (accepted_nonce_not_replayed [sample_key] 2000000 0 sample_verifier 0
    sample_signed "POST" "/cell" "{}" 4000000 (sample_verify sample_verifier 4000000).1
    (sample_verify sample_verifier 4000000).1 4000000
    sample_signed "POST" "/cell" "{}" 6000001
    (sample_verify (sample_verify sample_verifier 4000000).1 6000001).1)
    as [Hgap Hts]; try reflexivity; try lia.
  split; [exact Hgap|apply Hts; reflexivity].
Defined.

Lemma ahead_request_accepted_twice_witness :
  (sample_verify (sample_verify sample_verifier 4000000).1 (4000000 + 2000000 + 1)).2 = Ok ().
Proof.
  apply (ahead_request_accepted_twice [sample_key] 2000000 0 sample_verifier 0
    sample_signed "POST" "/cell" "{}" 4000000 (sample_verify sample_verifier 4000000).1 5000000).
  - reflexivity.
  - repeat constructor.
  - lia.
  - vm_compute; reflexivity.
  - vm_compute; reflexivity.
  - lia.
Defined.

Lemma verify_accepts_iff_witness :
  (sample_verify sample_verifier 4000000).2 = Ok () ↔
  acceptable sample_verifier sample_signed "POST" "/cell" "{}" 4000000.
Proof.
  apply (verify_accepts_iff [sample_key] 2000000 0 sample_verifier 0
    sample_signed "POST" "/cell" "{}" 4000000); [reflexivity|lia].
Defined.

Lemma signed_request_accepted_witness :
  ∃ a, sign sample_signer "POST" "/cell" "op-1" 4 "{}" 5000000 1 = Ok a ∧
       (verify sample_verifier a "POST" "/cell" "{}" 5000000).2 = Ok ().
Proof.
  apply (signed_request_accepted [sample_key] 2000000 0 sample_verifier 0 sample_signer
    "POST" "/cell" "op-1" 4 "{}" 5000000 1 5000000 sample_key).
  - exact sample_auth_laws.
  - reflexivity.
  - lia.
  - lia.
  - vm_compute; discriminate.
  - vm_compute; reflexivity.
  - reflexivity.
  - apply not_elem_of_nil.
Defined.

Lemma canonical_injective_witness :
  canonical "post" "/cell" "op-1" 4 "t" "n" "d" = canonical "POST" "/cell" "op-1" 4 "t" "n" "d" ∧
  to_ascii_uppercase "post" = to_ascii_uppercase "POST".
Proof.
  split; [vm_compute; reflexivity|].
  apply (canonical_injective "post" "/cell" "op-1" 4 "t" "n" "d" "POST" "/cell" "op-1" 4 "t" "n" "d");
    vm_compute; reflexivity.
Defined.
