(* ===== verification/EffectCallback.v ===== *)
(** * The effect callback: authentication, claim and dispatch together

    Models the callback half of management/src/http/celld.rs: the handler
    [effect_callback] with [resume_effect], and the responses they give.  The
    handler is asynchronous, many run at once, and between two calls of the
    ledger or the provider another one may run; so it is a program with a
    counter ([Pc]), and [advance] executes it from one shared-state access or
    await point to the next.  The objects behind the [Arc]s (ledger and
    verifier) are shared by all handlers.  The provider behind the trait
    [EffectDispatcher] and the qualification gate, which waits on files, may
    answer anything: their answers come from an [Oracle].  A handler may be
    dropped at an await (the client went away) and the process may restart,
    which keeps the ledger and loses the nonce cache. *)

From S2P Require Import Prelude Http Json InstanceCell EffectLedger CelldAuth.

Local Open Scope string_scope.
Local Open Scope list_scope.
Local Open Scope Z_scope.

Definition EFFECT_CALLBACK_PATH : string := "/api/v2/celld/effects".

(** ** Requests and responses *)

Record Callback : Type := {
  cb_body : string;
  cb_headers : HeaderMap;
  cb_mtls_identity : option string;
}.

Record EffectCallbackRequest : Type := {
  ecr_instance_id : string;
  ecr_generation : Z;
  ecr_effect : EffectRecord;
}.

(** [serde_json::from_slice::<EffectCallbackRequest>] *)
Class CallbackText : Type := { parse_callback : string → option EffectCallbackRequest }.

Record Response : Type := { status_code : Z; response_body : json }.

Definition error (status : Z) (code detail : string) : Response :=
  {| status_code := status;
     response_body := json_obj [("error", json_obj [("code", JStr code); ("detail", JStr detail)])] |}.

Definition auth_error_response (e : AuthError) : Response :=
  let '(status, code) := match e with
    | CelldAuth.Replay => (CONFLICT, "celld.signature_replay")
    | Stale | InvalidTimestamp => (UNAUTHORIZED, "celld.signature_stale")
    | _ => (UNAUTHORIZED, "celld.signature_invalid")
    end in
  error status code "effect callback authentication failed".

Definition ledger_error_response (e : EffectLedgerError) : Response :=
  let '(status, code, pre_provider_rejection) := match e with
    | Collision => (CONFLICT, "celld.operation_collision", false)
    | LedgerStaleGeneration _ _ => (CONFLICT, "celld.stale_generation_fenced", true)
    | LedgerFutureGeneration _ _ | GenerationAdvanceNotAllowed =>
        (CONFLICT, "celld.future_generation_fenced", true)
    | UnknownInstance _ => (CONFLICT, "celld.instance_generation_unknown", true)
    | TerminalConflict _ _ _ => (CONFLICT, "celld.terminal_conflict", false)
    | ManagementOperationConflict => (CONFLICT, "celld.management_operation_collision", false)
    | Database | Io | InsecurePermissions | LedgerUnknownOperation _ | CorruptRecord _ =>
        (INTERNAL_SERVER_ERROR, "celld.effect_ledger_failed", false)
    end in
  if (pre_provider_rejection : bool) then
    {| status_code := status;
       response_body := json_obj [
         ("error", json_obj [("code", JStr code);
            ("detail", JStr "effect callback was rejected before a new provider effect")]);
         ("provider_dispatch_count_delta", JNum 0)] |}
  else error status code "effect callback did not create a new provider effect".

Definition qualification_gate_error_response (detail : string) : Response :=
  error SERVICE_UNAVAILABLE "celld.qualification_dispatch_gate_failed" detail.

Definition json_opt (s : option string) : json := match s with Some s => JStr s | None => JNull end.

Definition effect_response (r : EffectLedgerRecord) (status : Z) : Response :=
  {| status_code := status;
     response_body := json_obj [
       ("operation_id", JStr (rec_operation_id r));
       ("instance_id", JStr (rec_instance_id r));
       ("generation", JNum (rec_generation r));
       ("status", status_json (rec_status r));
       ("provider_dispatch_count", JNum (rec_provider_dispatch_count r));
       ("management_operation_id", json_opt (rec_management_operation_id r));
       ("terminal_code", json_opt (rec_terminal_code r));
       ("result", default JNull (rec_result r))] |}.

(** The status both handlers answer a record with. *)
Definition record_status (r : EffectLedgerRecord) : Z :=
  if effect_is_terminal (rec_status r) then OK else ACCEPTED.

(** [str::parse::<u64>] *)
Fixpoint parse_digits (acc : Z) (s : string) : option Z :=
  match s with
  | String.EmptyString => Some acc
  | String.String a s' =>
      let d := byte_val a - 48 in
      if (0 <=? d) && (d <=? 9) && (acc * 10 + d <=? u64_max)
      then parse_digits (acc * 10 + d) s' else None
  end.

Definition parse_u64 (s : string) : option Z :=
  match s with
  | String.EmptyString => None
  | String.String a s' =>
      if byte_val a =? 43
      then match s' with String.EmptyString => None | _ => parse_digits 0 s' end
      else parse_digits 0 s
  end.

Definition signed_request (headers : HeaderMap) : result Response SignedRequest :=
  let required name := ok_or (header headers name)
    (error UNAUTHORIZED "celld.signature_missing"
       "required callback authentication header is missing") in
  text ← required "x-agentic-generation";
  generation ← ok_or (parse_u64 text)
    (error UNAUTHORIZED "celld.signature_invalid" "callback generation header is invalid");
  key_id ← required "x-agentic-key-id";
  timestamp ← required "x-agentic-timestamp";
  nonce ← required "x-agentic-nonce";
  operation_id ← required "x-agentic-operation-id";
  body_sha256 ← required "x-agentic-body-sha256";
  signature ← required "x-agentic-signature";
  Ok {| key_id := key_id; timestamp := timestamp; nonce := nonce; generation := generation;
        operation_id := operation_id; body_sha256 := body_sha256; signature := signature |}.

(** ** The shared state *)

(** The part of [CelldApiState] the callback uses.  The three [Option<Arc<_>>]
    are flags here, the objects they point to are in [Server]. *)
Record CelldApi : Type := {
  status_unavailable_code : option string;
  has_effect_ledger : bool;
  has_callback_verifier : bool;
  has_effect_dispatcher : bool;
  qualification_dispatch_gate : bool;
  callback_mtls_cn : option string;
}.

Record Server : Type := {
  api : CelldApi;
  ledger : EffectLedger;
  verifier : RequestVerifier;
}.

Record CelldProviderEffect : Type := {
  pe_status : EffectStatus;
  pe_management_operation_id : option string;
  pe_terminal_code : option string;
  pe_result : option json;
}.

(** What the outside answers at one step: the clock, the gate, the provider's
    [dispatch] and its [lookup]. *)
Record Oracle : Type := {
  o_now : Z;
  o_gate : result string bool;
  o_dispatch : CelldProviderEffect;
  o_lookup : string → option CelldProviderEffect;
}.

Definition require_effect_callback (s : Server) : result Response unit :=
  if has_effect_ledger (api s) && has_callback_verifier (api s) && has_effect_dispatcher (api s)
  then Ok ()
  else Err (error SERVICE_UNAVAILABLE
              (default "celld.unavailable" (status_unavailable_code (api s)))
              "Celld effect callback is disabled or invalidly configured").

(** ** The handler *)

(** Where a handler is: about to call the ledger, the gate or the provider, or
    waiting for the provider ([Awaiting]); the [Resume...] points are
    [resume_effect]. *)
Inductive Pc : Type :=
| Claiming (cmd : CellCommand)
| Reading (cmd : CellCommand)
| Beginning (cmd : CellCommand)
| Rereading (cmd : CellCommand)
| GateDuring (cmd : CellCommand)
| Dispatching (cmd : CellCommand)
| Awaiting (cmd : CellCommand)
| Recording (cmd : CellCommand) (effect : CelldProviderEffect)
| Completing (cmd : CellCommand) (effect : CelldProviderEffect)
| Finishing (cmd : CellCommand)
| GateAfter (r : EffectLedgerRecord)
| ResumeObserve (r : EffectLedgerRecord)
| ResumeLookup (r : EffectLedgerRecord) (found : bool)
| ResumeUnknown (r : EffectLedgerRecord) (found : bool)
| ResumeRead (r : EffectLedgerRecord)
| Done (response : Response).

(** The identities that must agree before the ledger is touched. *)
Definition identities_match `{Env} (headers : HeaderMap) (signed : SignedRequest)
    (callback : EffectCallbackRequest) (cmd : CellCommand) : bool :=
  negb (negb (ecr_generation callback =? eff_generation (ecr_effect callback))
        || negb (CelldAuth.generation signed =? ecr_generation callback)
        || negb (bool_decide (CelldAuth.operation_id signed = eff_operation_id (ecr_effect callback)))
        || negb (bool_decide (header headers "idempotency-key"
                              = Some (eff_operation_id (ecr_effect callback))))
        || negb (is_ok (command_validate cmd))).

(** From the arrival of a callback to its claim. *)
Definition receive `{Env, AuthEnv, CallbackText} (now : Z) (s : Server) (req : Callback)
    : Server * Pc :=
  if 1024 * 1024 <? str_len (cb_body req) then
    (s, Done (error PAYLOAD_TOO_LARGE "celld.effect_payload_too_large"
                "effect callback body exceeds 1 MiB"))
  else match require_effect_callback s with
  | Err response => (s, Done response)
  | Ok _ =>
      if match callback_mtls_cn (api s) with
         | Some expected_cn => negb (bool_decide (cb_mtls_identity req = Some expected_cn))
         | None => false
         end
      then (s, Done (error UNAUTHORIZED "celld.callback_mtls_identity_required"
                       "the Celld callback requires its configured mTLS identity"))
      else match signed_request (cb_headers req) with
      | Err response => (s, Done response)
      | Ok signed =>
          let (v, r) := verify (verifier s) signed "POST" EFFECT_CALLBACK_PATH (cb_body req) now in
          let s := s <| verifier := v |> in
          match r with
          | Err e => (s, Done (auth_error_response e))
          | Ok _ =>
              match parse_callback (cb_body req) with
              | None => (s, Done (error BAD_REQUEST "celld.effect_callback_invalid"
                                    "effect callback is not a valid v1 request"))
              | Some callback =>
                  match to_command now (ecr_effect callback) (ecr_instance_id callback) with
                  | Err _ => (s, Done (error CONFLICT "celld.effect_hash_invalid"
                                 "effect request hash does not bind the callback payload"))
                  | Ok cmd =>
                      if negb (identities_match (cb_headers req) signed callback cmd)
                      then (s, Done (error CONFLICT "celld.effect_identity_mismatch"
                              "signed identity, callback identity, and idempotency key must match"))
                      else (s, Claiming cmd)
                  end
              end
          end
      end
  end.

(** A ledger call: its error is the response, its answer picks the next point. *)
Definition ledger_call {A} (s : Server) (call : EffectLedger * result EffectLedgerError A)
    (next : A → Pc) : Server * Pc :=
  (s <| ledger := call.1 |>,
   match call.2 with Ok a => next a | Err e => Done (ledger_error_response e) end).

Definition advance `{Env} (o : Oracle) (s : Server) (pc : Pc) : Server * Pc :=
  let now := o_now o in
  let l := ledger s in
  let gated cmd := if qualification_dispatch_gate (api s) then GateDuring cmd else Dispatching cmd in
  match pc with
  | Claiming cmd => ledger_call s (claim_managed now l cmd) (λ _, Reading cmd)
  | Reading cmd => ledger_call s (l, record l (cmd_operation_id cmd)) (λ r,
      if effect_is_terminal (rec_status r) then Done (effect_response r OK)
      else match rec_status r with
           | Effect.Dispatched | Effect.Unknown => ResumeObserve r
           | _ => Beginning cmd
           end)
  | Beginning cmd => ledger_call s (begin_dispatch now l (cmd_operation_id cmd)) (λ granted,
      if (granted : bool) then gated cmd else Rereading cmd)
  | Rereading cmd => ledger_call s (l, record l (cmd_operation_id cmd)) ResumeObserve
  | GateDuring cmd =>
      (s, match o_gate o with
          | Ok _ => Dispatching cmd
          | Err e => Done (qualification_gate_error_response e)
          end)
  | Dispatching cmd => (s, Awaiting cmd)
  | Awaiting cmd => (s, Recording cmd (o_dispatch o))
  | Recording cmd effect =>
      match pe_management_operation_id effect with
      | Some m => ledger_call s (set_management_operation now l (cmd_operation_id cmd) m)
                    (λ _, Completing cmd effect)
      | None => (s, Completing cmd effect)
      end
  | Completing cmd effect =>
      if effect_is_terminal (pe_status effect) then
        ledger_call s (complete_with_code now l (cmd_operation_id cmd) (pe_status effect)
                         (pe_terminal_code effect) (pe_result effect)) (λ _, Finishing cmd)
      else if bool_decide (pe_status effect = Effect.Unknown) then
        ledger_call s (mark_unknown now l (cmd_operation_id cmd)) (λ _, Finishing cmd)
      else (s, Finishing cmd)
  | Finishing cmd => ledger_call s (l, record l (cmd_operation_id cmd)) (λ r,
      if qualification_dispatch_gate (api s) then GateAfter r
      else Done (effect_response r (record_status r)))
  | GateAfter r =>
      (s, match o_gate o with
          | Ok _ => Done (effect_response r (record_status r))
          | Err e => Done (qualification_gate_error_response e)
          end)
  | ResumeObserve r =>
      if bool_decide (rec_status r = Effect.Dispatched)
         && bool_decide (rec_management_operation_id r = None)
         && bool_decide (rec_action r = Action.Observe) then
        ledger_call s (complete_with_code now l (rec_operation_id r) Effect.Succeeded
                         (Some "celld.observe_no_effect")
                         (Some (json_obj [("effect", JStr "none")])))
          (λ _, ResumeLookup r true)
      else (s, ResumeLookup r false)
  | ResumeLookup r found =>
      match rec_management_operation_id r ≫= o_lookup o with
      | None => (s, ResumeUnknown r found)
      | Some effect =>
          if effect_is_terminal (pe_status effect) then
            ledger_call s (complete_with_code now l (rec_operation_id r) (pe_status effect)
                             (pe_terminal_code effect) (pe_result effect))
              (λ _, ResumeUnknown r true)
          else (s, ResumeUnknown r true)
      end
  | ResumeUnknown r found =>
      if bool_decide (rec_status r = Effect.Dispatched) && negb found then
        ledger_call s (mark_unknown now l (rec_operation_id r)) (λ _, ResumeRead r)
      else (s, ResumeRead r)
  | ResumeRead r => ledger_call s (l, record l (rec_operation_id r)) (λ current,
      Done (effect_response current (record_status current)))
  | Done response => (s, Done response)
  end.

(** ** Many handlers at once *)

Record World : Type := {
  server : Server;
  inflight : list Pc;
  (** every call of [dispatcher.dispatch] made so far, in order *)
  calls : list CellCommand;
}.

Definition calls_of (pc : Pc) : list CellCommand :=
  match pc with Dispatching cmd => [cmd] | _ => [] end.

Definition restart_verifier (v : RequestVerifier) : RequestVerifier :=
  fresh_verifier (keys v) (max_skew v).

Inductive world_step `{Env, AuthEnv, CallbackText} : World → World → Prop :=
| step_receive w now req s' pc :
    receive now (server w) req = (s', pc) →
    world_step w {| server := s'; inflight := inflight w ++ [pc]; calls := calls w |}
| step_advance w i pc o s' pc' :
    inflight w !! i = Some pc → advance o (server w) pc = (s', pc') →
    world_step w {| server := s'; inflight := <[i := pc']> (inflight w);
                    calls := calls w ++ calls_of pc |}
| step_cancel w i pc :
    inflight w !! i = Some pc →
    world_step w (w <| inflight := delete i (inflight w) |>)
| step_restart w :
    world_step w (w <| inflight := [] |>
      <| server := (server w) <| verifier := restart_verifier (verifier (server w)) |> |>).

Definition world_init (a : CelldApi) (ks : list VerificationKey) (skew : Z) : World :=
  {| server := {| api := a; ledger := empty_ledger; verifier := fresh_verifier ks skew |};
     inflight := []; calls := [] |}.

Definition world_reachable `{Env, AuthEnv, CallbackText} a ks skew (w : World) : Prop :=
  rtc world_step (world_init a ks skew) w.

(** ** Which operations a handler holds the right to dispatch *)

Definition pending_calls (pc : Pc) : list CellCommand :=
  match pc with GateDuring cmd | Dispatching cmd => [cmd] | _ => [] end.

Definition granted (w : World) : list CellCommand := calls w ++ (inflight w ≫= pending_calls).

Section callback_proofs.
Context {H : Env} {HA : AuthEnv} {HC : CallbackText}.
Implicit Types (w : World) (s : Server) (pc : Pc) (o : Oracle) (cmd : CellCommand).

Lemma receive_server now s req s' pc :
  receive now s req = (s', pc) →
  ledger s' = ledger s ∧ api s' = api s ∧
  keys (verifier s') = keys (verifier s) ∧ max_skew (verifier s') = max_skew (verifier s) ∧
  pending_calls pc = [].
Proof.
  unfold receive. intros Hr.
  repeat case_match; simplify_eq/=; try done;
    match goal with Hv : verify _ _ _ _ _ _ = _ |- _ =>
      by destruct (verify_keeps _ _ _ _ _ _ _ _ Hv) end.
Qed.

(** The ledger only moves by its own methods. *)
Lemma advance_ledger o s pc s' pc' :
  advance o s pc = (s', pc') →
  (ledger s' = ledger s ∨ ledger_step (ledger s) (ledger s')) ∧
  api s' = api s ∧ verifier s' = verifier s.
Proof.
  unfold advance, ledger_call. intros Ha.
  destruct pc; repeat case_match; simplify_eq/=; split_and!; try done;
    first [by left|right; constructor].
Qed.

Lemma advance_evolves o s pc s' pc' :
  advance o s pc = (s', pc') → effects_evolve (ledger s) (ledger s').
Proof.
  intros Ha. destruct (advance_ledger _ _ _ _ _ Ha) as [[Heq|Hstep] _].
  - apply effects_evolve_same. by rewrite Heq.
  - by apply step_effects_evolve.
Qed.

(** The operation was granted: its row is there and no longer pending. *)
Definition row_granted (l : EffectLedger) cmd : Prop :=
  ∃ row, celld_effects l !! cmd_operation_id cmd = Some row ∧ row_status row ≠ "pending".

Lemma row_granted_evolves l l' cmd : effects_evolve l l' → row_granted l cmd → row_granted l' cmd.
Proof.
  intros Hev (row & Hrow & Hp). destruct (Hev _ _ Hrow) as (row' & Hrow' & Hr).
  exists row'. split; [done|]. by apply (evo_pending _ _ Hr).
Qed.

Lemma begin_dispatch_granted now l l' op :
  begin_dispatch now l op = (l', Ok true) →
  (∃ row, celld_effects l !! op = Some row ∧ row_status row = "pending") ∧
  (∃ row, celld_effects l' !! op = Some row ∧ row_status row ≠ "pending").
Proof.
  unfold begin_dispatch, update_effects. intros Hb. repeat case_match; simplify_eq/=.
  reflect_bools. split; [eauto|]. eexists. split; [apply lookup_insert_eq|done].
Qed.

(** One step hands over, drops or newly acquires the right to dispatch; it is
    acquired from the ledger only, for an operation still pending there. *)
Lemma advance_pending o s pc s' pc' :
  advance o s pc = (s', pc') →
  calls_of pc ++ pending_calls pc' `sublist_of` pending_calls pc ∨
  ∃ cmd, calls_of pc = [] ∧ pending_calls pc = [] ∧ pending_calls pc' = [cmd] ∧
    ¬ row_granted (ledger s) cmd ∧ row_granted (ledger s') cmd.
Proof.
  intros Ha. destruct pc as [| |cmd| | | | | | | | | | | | |]; try (left;
    unfold advance, ledger_call in Ha; repeat case_match; simplify_eq/=;
    repeat constructor; done).
  unfold advance, ledger_call in Ha.
  destruct (begin_dispatch _ _ _) as [l [[]|e]] eqn:Hb; simplify_eq/=;
    [right|left; constructor..].
  apply begin_dispatch_granted in Hb as [(row & Hrow & Hp) Hg].
  exists cmd. split_and!; [done|done|by case_match| |done].
  intros (row' & Hrow' & Hp'). congruence.
Qed.

(** ** At most one dispatch *)

Record dispatch_inv w : Prop := {
  di_once : NoDup (cmd_operation_id <$> granted w);
  di_rows : ∀ cmd, cmd ∈ granted w → row_granted (ledger (server w)) cmd;
}.

(** Replacing the right to dispatch of one handler. *)
Lemma granted_advance w i pc pc' s' :
  inflight w !! i = Some pc →
  ∃ rest, granted w ≡ₚ rest ++ pending_calls pc ∧
    granted {| server := s'; inflight := <[i := pc']> (inflight w);
               calls := calls w ++ calls_of pc |} ≡ₚ rest ++ (calls_of pc ++ pending_calls pc').
Proof.
  intros Hi. exists (calls w ++ (delete i (inflight w) ≫= pending_calls)).
  unfold granted. simpl.
  rewrite (list_insert_Permutation _ _ _ pc' Hi), (delete_Permutation _ _ _ Hi) at 1.
  rewrite !bind_cons. split; solve_Permutation.
Qed.

Lemma granted_cancel w i : granted (w <| inflight := delete i (inflight w) |>) ⊆+ granted w.
Proof.
  unfold granted. simpl. apply submseteq_app; [done|].
  destruct (inflight w !! i) as [pc|] eqn:Hi; cycle 1.
  { rewrite delete_take_drop. apply lookup_ge_None in Hi.
    rewrite take_ge, drop_ge, app_nil_r by lia. done. }
  rewrite (delete_Permutation _ _ _ Hi) at 2. rewrite bind_cons.
  by apply submseteq_inserts_l.
Qed.

Lemma dispatch_inv_shrink w w' :
  granted w' ⊆+ granted w → effects_evolve (ledger (server w)) (ledger (server w')) →
  dispatch_inv w → dispatch_inv w'.
Proof.
  intros Hsub Hev [Honce Hrows]. split.
  - apply submseteq_Permutation in Hsub as [k Hk]. rewrite Hk, fmap_app in Honce.
    by apply NoDup_app in Honce as [? _].
  - intros cmd Hin. eapply row_granted_evolves; [exact Hev|]. apply Hrows.
    by eapply elem_of_submseteq.
Qed.

Lemma step_dispatch_inv w w' : world_step w w' → dispatch_inv w → dispatch_inv w'.
Proof.
  intros Hstep Hinv. destruct Hstep as [w now req s' pc Hr|w i pc o s' pc' Hi Ha|w i pc Hi|w].
  - destruct (receive_server _ _ _ _ _ Hr) as (Hl & _ & _ & _ & Hp).
    eapply dispatch_inv_shrink; [| |exact Hinv].
    + unfold granted. simpl. rewrite bind_app. simpl. by rewrite Hp, !app_nil_r.
    + apply effects_evolve_same. simpl. by rewrite Hl.
  - destruct (granted_advance w i pc pc' s' Hi) as (rest & Hw & Hw').
    pose proof (advance_evolves _ _ _ _ _ Ha) as Hev.
    destruct (advance_pending _ _ _ _ _ Ha) as [Hsub|(cmd & Hc & Hp & Hp' & Hnot & Hg)].
    + eapply dispatch_inv_shrink; [|exact Hev|exact Hinv]. rewrite Hw, Hw'.
      apply submseteq_app; [done|]. by apply sublist_submseteq.
    + rewrite Hc, Hp, Hp', ?app_nil_r in *. simpl in Hw'. destruct Hinv as [Honce Hrows].
      split; simpl.
      * rewrite Hw', fmap_app. apply NoDup_app. rewrite Hw in Honce.
        split_and!; [done| |apply NoDup_singleton]. csimpl.
        intros op (c & -> & Hin)%list_elem_of_fmap Heq%list_elem_of_singleton.
        apply Hnot. destruct (Hrows c) as (row & Hrow & Hst); [by rewrite Hw|].
        rewrite Heq in Hrow. by exists row.
      * intros c. rewrite Hw', elem_of_app, list_elem_of_singleton, <-Hw.
        intros [Hin| ->]; [|done]. eapply row_granted_evolves; eauto.
  - apply (dispatch_inv_shrink w); [apply granted_cancel|by apply effects_evolve_same|done].
  - apply (dispatch_inv_shrink w); [|by apply effects_evolve_same|done].
    unfold granted. simpl. apply submseteq_app; [done|]. apply submseteq_nil_l.
Qed.

(** C1: At most one provider dispatch.  Whatever callbacks arrive, however their
    handlers interleave, are dropped or die with the process, and whatever the
    provider and the gate answer: the provider is asked to dispatch an operation
    at most once. *)
Theorem provider_dispatched_at_most_once a ks skew w :
  world_reachable a ks skew w → NoDup (cmd_operation_id <$> calls w).
Proof.
  intros Hw. destruct (rtc_invariant _ _ _ _ step_dispatch_inv Hw) as [Honce _].
  { split; [constructor|]. by intros cmd ?%elem_of_nil. }
  unfold granted in Honce. rewrite fmap_app in Honce. by apply NoDup_app in Honce as [? _].
Qed.

(** ** Only authenticated commands are dispatched *)

Definition pc_commands pc : list CellCommand :=
  match pc with
  | Claiming cmd | Reading cmd | Beginning cmd | Rereading cmd | GateDuring cmd
  | Dispatching cmd | Awaiting cmd | Recording cmd _ | Completing cmd _ | Finishing cmd => [cmd]
  | _ => []
  end.

(** A request for this command passed every check of the handler. *)
Definition authorised (ks : list VerificationKey) (skew : Z) cmd : Prop :=
  ∃ signed body callback now,
    authenticate (fresh_verifier ks skew) signed "POST" EFFECT_CALLBACK_PATH body now = Ok () ∧
    parse_callback body = Some callback ∧
    to_command now (ecr_effect callback) (ecr_instance_id callback) = Ok cmd ∧
    CelldAuth.generation signed = cmd_generation cmd ∧
    CelldAuth.operation_id signed = cmd_operation_id cmd ∧
    command_validate cmd = Ok ().

Lemma authenticate_ext v ks skew signed m p b now :
  keys v = ks → max_skew v = skew →
  authenticate v signed m p b now = authenticate (fresh_verifier ks skew) signed m p b now.
Proof. unfold authenticate. by intros -> ->. Qed.

Lemma to_command_fields now e i cmd :
  to_command now e i = Ok cmd →
  cmd_operation_id cmd = eff_operation_id e ∧ cmd_generation cmd = eff_generation e.
Proof. unfold to_command. intros Hc. inv_result. done. Qed.

Lemma identities_match_true headers signed callback cmd :
  identities_match headers signed callback cmd = true →
  CelldAuth.generation signed = eff_generation (ecr_effect callback) ∧
  CelldAuth.operation_id signed = eff_operation_id (ecr_effect callback) ∧
  command_validate cmd = Ok ().
Proof.
  unfold identities_match. rewrite negb_true_iff. intros Hm. reflect_bools.
  destruct (command_validate cmd) as [[]|]; [|done]. split_and!; [congruence|done..].
Qed.

Lemma checks_authorise v signed body now v' u callback headers cmd :
  verify v signed "POST" EFFECT_CALLBACK_PATH body now = (v', Ok u) →
  parse_callback body = Some callback →
  to_command now (ecr_effect callback) (ecr_instance_id callback) = Ok cmd →
  identities_match headers signed callback cmd = true →
  authorised (keys v) (max_skew v) cmd.
Proof.
  intros Hv Hp Ht Hm. destruct (identities_match_true _ _ _ _ Hm) as (Hg & Ho & Hc).
  exists signed, body, callback, now. destruct (to_command_fields _ _ _ _ Ht) as [-> ->].
  split_and!; try done. rewrite <-(authenticate_ext v) by done. unfold verify in Hv.
  destruct (authenticate _ _ _ _ _ _) as [[]|]; [done|]. congruence.
Qed.

Lemma receive_authorised now s req s' pc cmd :
  receive now s req = (s', pc) → cmd ∈ pc_commands pc →
  authorised (keys (verifier s)) (max_skew (verifier s)) cmd.
Proof.
  unfold receive. intros Hr Hin.
  repeat case_match; simplify_eq/=; try (by apply elem_of_nil in Hin);
    apply list_elem_of_singleton in Hin as ->; reflect_bools; by eapply checks_authorise.
Qed.

Lemma advance_commands o s pc s' pc' :
  advance o s pc = (s', pc') → pc_commands pc' ⊆ pc_commands pc.
Proof.
  unfold advance, ledger_call. intros Ha. destruct pc; repeat case_match; simplify_eq/=; set_solver.
Qed.

Record authority_inv ks skew w : Prop := {
  ai_keys : keys (verifier (server w)) = ks;
  ai_skew : max_skew (verifier (server w)) = skew;
  ai_inflight : ∀ pc cmd, pc ∈ inflight w → cmd ∈ pc_commands pc → authorised ks skew cmd;
  ai_calls : ∀ cmd, cmd ∈ calls w → authorised ks skew cmd;
}.

Lemma step_authority_inv ks skew w w' :
  world_step w w' → authority_inv ks skew w → authority_inv ks skew w'.
Proof.
  intros Hstep [Hk Hs Hpcs Hcalls].
  destruct Hstep as [w now req s' pc Hr|w i pc o s' pc' Hi Ha|w i pc Hi|w].
  - destruct (receive_server _ _ _ _ _ Hr) as (_ & _ & Hk' & Hs' & _).
    split; simpl; [congruence..| |done].
    intros pc1 cmd [Hin| ->%list_elem_of_singleton]%elem_of_app Hcmd; [by eapply Hpcs|].
    rewrite <-Hk, <-Hs. by eapply receive_authorised.
  - destruct (advance_ledger _ _ _ _ _ Ha) as (_ & _ & Hv).
    pose proof (list_elem_of_lookup_2 _ _ _ Hi) as Hpc.
    split; simpl; [congruence..| |].
    + intros pc1 cmd Hin Hcmd. rewrite (list_insert_Permutation _ _ _ pc' Hi) in Hin.
      apply elem_of_cons in Hin as [->|Hin%elem_of_delete]; [|by eapply Hpcs].
      eapply Hpcs; [exact Hpc|]. by apply (advance_commands _ _ _ _ _ Ha).
    + intros cmd [Hin|Hin]%elem_of_app; [auto|]. apply (Hpcs pc); [done|].
      destruct pc; simpl in *; set_solver.
  - split; simpl; try done. intros pc1 cmd Hin. apply Hpcs.
    by apply elem_of_delete in Hin.
  - split; simpl; try done. by intros pc cmd ?%elem_of_nil.
Qed.


(** ** Every handler answers *)

(** A handler among others: at each of its steps the shared state is whatever
    the others left. *)
Definition run_interleaved (steps : list (Oracle * Server)) pc : Pc :=
  foldl (λ pc step, (advance step.1 step.2 pc).2) pc steps.

Definition steps_left pc : nat :=
  match pc with
  | Claiming _ => 10 | Reading _ => 9 | Beginning _ => 8 | GateDuring _ => 7
  | Dispatching _ => 6 | Awaiting _ => 5 | Recording _ _ => 4 | Completing _ _ => 3
  | Finishing _ => 2 | GateAfter _ => 1
  | Rereading _ => 5 | ResumeObserve _ => 4 | ResumeLookup _ _ => 3 | ResumeUnknown _ _ => 2
  | ResumeRead _ => 1
  | Done _ => 0
  end.

Lemma advance_progress o s pc : (steps_left (advance o s pc).2 ≤ pred (steps_left pc))%nat.
Proof. unfold advance, ledger_call. destruct pc; repeat case_match; simpl; lia. Qed.


(** ** A finished operation *)

Lemma finished_row_kept l l' op row :
  celld_effects l !! op = Some row → not_terminal_name (row_status row) = false →
  rtc ledger_step l l' →
  ∃ row', celld_effects l' !! op = Some row' ∧ row_status row' = row_status row ∧
    row_terminal_code row' = row_terminal_code row ∧ row_result_json row' = row_result_json row.
Proof.
  intros Hrow Ht Hev%steps_effects_evolve. destruct (Hev _ _ Hrow) as (row' & Hrow' & Hr).
  exists row'. split; [done|]. by apply (evo_terminal _ _ Hr).
Qed.

(** A callback for a finished operation is answered from the ledger: however
    much later its handler reads the record, the response is 200 with the stored
    status, code and result, the ledger is unchanged and nothing is dispatched. *)
Theorem finished_operation_answered l l' row st res cmd o a v :
  json_text_parses H → ledger_reachable l →
  celld_effects l !! cmd_operation_id cmd = Some row →
  row_status row = status_name st → effect_is_terminal st = true →
  row_result_json row = json_text <$> res → rtc ledger_step l l' →
  let s := {| api := a; ledger := l'; verifier := v |} in
  ∃ r, advance o s (Reading cmd) = (s, Done (effect_response r OK)) ∧
    rec_operation_id r = cmd_operation_id cmd ∧ rec_status r = st ∧
    rec_terminal_code r = row_terminal_code row ∧ rec_result r = res.
Proof.
  intros Hjson Hl Hrow Hst Ht Hres Hrun s.
  assert (not_terminal_name (row_status row) = false) as Hfin
    by (by rewrite Hst, not_terminal_status_name, Ht).
  destruct (finished_row_kept _ _ _ _ Hrow Hfin Hrun) as (row' & Hrow' & Hst' & Hcode & Hres').
  assert (ledger_inv l') as Hinv by (apply ledger_reachable_inv; unfold ledger_reachable; by etrans).
  destruct (record_locked_reads _ _ _ Hjson Hinv Hrow')
    as (r & Hr & Hop & Hs & _ & _ & _ & Hc & Hj).
  assert (rec_status r = st) as <-.
  { rewrite Hst', Hst in Hs. by apply (inj Some); rewrite <-!parse_status_name, Hs. }
  exists r. unfold advance, ledger_call, record. simpl. rewrite Hr. simpl. rewrite Ht.
  split_and!; [done|done|done|congruence|].
  apply (json_text_option_inj _ _ Hjson). congruence.
Qed.

(** ** Internal errors *)

(** The operation a handler has claimed. *)
Definition claimed_op pc : option string :=
  match pc with
  | Reading cmd | Beginning cmd | Rereading cmd | GateDuring cmd | Dispatching cmd
  | Awaiting cmd | Recording cmd _ | Completing cmd _ | Finishing cmd =>
      Some (cmd_operation_id cmd)
  | ResumeObserve r | ResumeLookup r _ | ResumeUnknown r _ | ResumeRead r =>
      Some (rec_operation_id r)
  | Claiming _ | GateAfter _ | Done _ => None
  end.

Definition has_row (l : EffectLedger) (op : string) : Prop := is_Some (celld_effects l !! op).

Definition internal (e : EffectLedgerError) : Prop :=
  status_code (ledger_error_response e) = INTERNAL_SERVER_ERROR.

Section with_row.
Context (l : EffectLedger) (op : string) (now : Z).
Context (Hjson : json_text_parses H) (Hinv : ledger_inv l) (Hrow : has_row l op).

Lemma record_with_row : ∃ r, record l op = Ok r ∧ rec_operation_id r = op.
Proof using Hjson Hinv Hrow.
  destruct Hrow as [row Hr].
  destruct (record_locked_reads _ _ _ Hjson Hinv Hr) as (r & Hrec & Hop & _).
  exists r. unfold record. by rewrite Hrec.
Qed.

Lemma begin_dispatch_with_row l' e : begin_dispatch now l op = (l', Err e) → False.
Proof using Hinv Hrow.
  destruct Hrow as [row Hr]. unfold begin_dispatch, update_effects. rewrite Hr.
  intros Hb. repeat case_match; simplify_eq/=; congruence.
Qed.

Lemma known_with_row n : known_or_changed l op n = Ok ().
Proof using Hjson Hinv Hrow.
  destruct Hrow as [row Hr].
  destruct (record_locked_reads _ _ _ Hjson Hinv Hr) as (r & Hrec & _).
  unfold known_or_changed. rewrite Hrec. by case_match.
Qed.

Lemma complete_with_row st code res l' e :
  complete_with_code now l op st code res = (l', Err e) → ¬ internal e.
Proof using Hinv Hrow.
  destruct Hrow as [row Hr]. destruct (proj1 Hinv _ _ Hr) as [_ [st' Hst] _ _ _].
  unfold complete_with_code, update_effects. rewrite Hr. intros Hc.
  repeat case_match; simplify_eq/=; try done; rewrite Hst, parse_status_name in *; done.
Qed.
End with_row.

Lemma has_row_evolves l l' op : effects_evolve l l' → has_row l op → has_row l' op.
Proof. intros Hev [row Hr]. destruct (Hev _ _ Hr) as (row' & Hr' & _). by exists row'. Qed.

Lemma mark_unknown_with_row now l op l' e :
  json_text_parses H → ledger_inv l → has_row l op →
  mark_unknown now l op = (l', Err e) → False.
Proof.
  intros Hjson Hinv Hrow Hm. pose proof (step_mark_unknown now l op) as Hstep.
  rewrite Hm in Hstep. simpl in Hstep. unfold mark_unknown in Hm.
  destruct (update_effects _ _ _ _) as [l1 n]. simplify_eq.
  rewrite known_with_row in *; [done|done|by eapply step_ledger_inv|].
  eapply has_row_evolves; [by apply step_effects_evolve|done].
Qed.

Lemma set_operation_with_row now l op m l' e :
  json_text_parses H → ledger_inv l → has_row l op →
  set_management_operation now l op m = (l', Err e) → ¬ internal e.
Proof.
  intros Hjson Hinv Hrow Hm. pose proof (step_set_operation now l op m) as Hstep.
  rewrite Hm in Hstep. simpl in Hstep. unfold set_management_operation in Hm.
  destruct Hrow as [row Hr].
  destruct (record_locked_reads _ _ _ Hjson Hinv Hr) as (r & Hrec & _). rewrite Hrec in Hm.
  simpl in Hm. destruct (rec_management_operation_id r); [case_decide; by simplify_eq|].
  destruct (update_effects _ _ _ _) as [l1 n]. simplify_eq.
  rewrite known_with_row in *; [done|done|by eapply step_ledger_inv|].
  eapply has_row_evolves; [by apply step_effects_evolve|by exists row].
Qed.

Lemma claim_managed_internal now l cmd l' e :
  ledger_inv l → claim_managed now l cmd = (l', Err e) → internal e →
  i64_max < cmd_generation cmd.
Proof.
  intros Hinv. unfold claim_managed, managed_generation, bind_generation, claim_on_connection,
    bind_u64. intros Hc Hi.
  repeat case_match; simplify_eq/=; reflect_bools; try done.
  all: match goal with Hr : celld_effects _ !! _ = Some ?r, Hp : parse_status _ = None |- _ =>
    simpl in Hr; destruct (proj1 Hinv _ _ Hr) as [_ [st Hst] _ _ _];
    by rewrite Hst, parse_status_name in Hp end.
Qed.

Lemma claim_managed_row now l cmd l' c :
  claim_managed now l cmd = (l', Ok c) → has_row l' (cmd_operation_id cmd).
Proof.
  unfold claim_managed, claim_on_connection, has_row. intros Hc.
  repeat case_match; simplify_eq/=; rewrite ?lookup_insert_eq; eauto.
Qed.

Lemma record_operation l op r : record l op = Ok r → rec_operation_id r = op.
Proof. unfold record, record_locked. intros Hr. repeat case_match; inv_result; by simplify_eq/=. Qed.

Lemma advance_claimed o s pc s' pc' op :
  advance o s pc = (s', pc') → claimed_op pc' = Some op →
  claimed_op pc = Some op ∨ has_row (ledger s') op.
Proof.
  intros Ha Hop. destruct pc; try (left;
    unfold advance, ledger_call in Ha; repeat case_match; simplify_eq/=;
    try done; f_equal; symmetry; by eapply record_operation).
  right. unfold advance, ledger_call in Ha. destruct (claim_managed _ _ _) as [l []] eqn:Hc;
    simplify_eq/=. by eapply claim_managed_row.
Qed.

Definition claims_inv w : Prop :=
  ledger_reachable (ledger (server w)) ∧
  ∀ pc op, pc ∈ inflight w → claimed_op pc = Some op → has_row (ledger (server w)) op.

Lemma receive_claimed now s req s' pc : receive now s req = (s', pc) → claimed_op pc = None.
Proof. unfold receive. intros Hr. repeat case_match; by simplify_eq/=. Qed.

Lemma step_claims_inv w w' : world_step w w' → claims_inv w → claims_inv w'.
Proof.
  intros Hstep [Hl Hrows].
  destruct Hstep as [w now req s' pc Hr|w i pc o s' pc' Hi Ha|w i pc Hi|w].
  - destruct (receive_server _ _ _ _ _ Hr) as (Hs & _). unfold claims_inv. simpl. rewrite Hs.
    split; [done|]. intros pc1 op [Hin| ->%list_elem_of_singleton]%elem_of_app Hop; [eauto|].
    by rewrite (receive_claimed _ _ _ _ _ Hr) in Hop.
  - pose proof (advance_evolves _ _ _ _ _ Ha) as Hev.
    pose proof (list_elem_of_lookup_2 _ _ _ Hi) as Hpc. split; simpl.
    + destruct (advance_ledger _ _ _ _ _ Ha) as [[->|Hls] _]; [done|]. by eapply rtc_r.
    + intros pc1 op Hin Hop. rewrite (list_insert_Permutation _ _ _ pc' Hi) in Hin.
      apply elem_of_cons in Hin as [->|Hin%elem_of_delete];
        [|eauto using has_row_evolves].
      destruct (advance_claimed _ _ _ _ _ _ Ha Hop); [|done]. eauto using has_row_evolves.
  - split; [done|]. intros pc1 op Hin%elem_of_delete. by apply Hrows.
  - split; [done|]. by intros pc op ?%elem_of_nil.
Qed.

(** After its claim a handler never fails inside the ledger: in every
    reachable state the only step that answers 500 is the claim of a generation
    too large for the database. *)
Theorem internal_error_only_on_unstorable_generation a ks skew w i pc o s' response :
  json_text_parses H → world_reachable a ks skew w → inflight w !! i = Some pc →
  advance o (server w) pc = (s', Done response) → pc ≠ Done response →
  status_code response = INTERNAL_SERVER_ERROR →
  ∃ cmd, pc = Claiming cmd ∧ i64_max < cmd_generation cmd.
Proof.
  intros Hjson Hw Hi Ha Hne Hst.
  destruct (rtc_invariant _ _ _ _ step_claims_inv Hw) as [Hinv%ledger_reachable_inv Hrows].
  { split; [apply rtc_refl|]. by intros ? ? ?%elem_of_nil. }
  pose proof (λ op, Hrows pc op (list_elem_of_lookup_2 _ _ _ Hi)) as Hrow.
  unfold advance, ledger_call in Ha. destruct pc; simplify_eq/=;
    try specialize (Hrow _ eq_refl).
  all: repeat case_match; simplify_eq/=; try done.
  all: try (match goal with Hr : record _ _ = Err _ |- _ =>
    destruct (record_with_row _ _ Hjson Hinv Hrow) as (r' & Hr' & _); congruence end).
  all: try (unfold record_status in Hst; by case_match).
  all: match goal with Hc : ?call.2 = Err _ |- _ =>
    pose proof (surjective_pairing call) as Hcall; rewrite Hc in Hcall end.
  all: first
    [ by eauto using claim_managed_internal
    | by destruct (begin_dispatch_with_row _ _ _ Hinv Hrow _ _ Hcall)
    | by destruct (set_operation_with_row _ _ _ _ _ _ Hjson Hinv Hrow Hcall)
    | by destruct (complete_with_row _ _ _ Hinv Hrow _ _ _ _ _ Hcall)
    | by destruct (mark_unknown_with_row _ _ _ _ _ Hjson Hinv Hrow Hcall) ].
Qed.

(** Running one arrival or one step of a handler. *)
Definition do_receive now req w : World :=
  let (s', pc) := receive now (server w) req in
  {| server := s'; inflight := inflight w ++ [pc]; calls := calls w |}.

Definition do_advance o (i : nat) w : World :=
  match inflight w !! i with
  | Some pc =>
      let (s', pc') := advance o (server w) pc in
      {| server := s'; inflight := <[i := pc']> (inflight w); calls := calls w ++ calls_of pc |}
  | None => w
  end.

Lemma do_receive_run now req w : rtc world_step w (do_receive now req w).
Proof. unfold do_receive. destruct (receive _ _ _) eqn:Hr. by eapply rtc_once, step_receive. Qed.

Lemma do_advance_run o i w : rtc world_step w (do_advance o i w).
Proof.
  unfold do_advance. destruct (inflight w !! i) eqn:Hi; [|done].
  destruct (advance _ _ _) eqn:Ha. by eapply rtc_once, step_advance.
Qed.

Lemma do_advances_run (js : list nat) o w : rtc world_step w (foldl (λ w i, do_advance o i w) w js).
Proof.
  revert w. induction js as [|i js IH]; intros w; simpl; [done|].
  etrans; [apply do_advance_run|apply IH].
Qed.
End callback_proofs.

(** ** A sample run: the same provision arrives twice, under two nonces, and the
    two handlers interleave *)

#[local] Existing Instance sample_env.
#[local] Existing Instance sample_auth.

Definition sample_effect (g : Z) : EffectRecord :=
  {| eff_operation_id := "op-1";
     eff_request_hash := match canonical_request_hash "op-1" "i-1" g Action.Provision [] with
                         | Ok hash => hash | Err _ => EmptyString end;
     eff_action := Action.Provision; eff_generation := g; eff_payload := [];
     eff_status := Effect.Pending; eff_attempts := 0; eff_retry_at := None;
     eff_terminal_code := None; eff_management_operation_id := None |}.

(** In the sample run the body is the generation. *)
#[local] Instance sample_text : CallbackText := {|
  parse_callback := λ body, g ← parse_u64 body;
    Some {| ecr_instance_id := "i-1"; ecr_generation := g; ecr_effect := sample_effect g |}
|}.

Definition sample_callback (g draw : Z) : Callback :=
  {| cb_body := pretty g; cb_mtls_identity := None;
     cb_headers :=
       match sign sample_signer "POST" EFFECT_CALLBACK_PATH "op-1" g (pretty g) 5000000 draw with
       | Ok a => [("x-agentic-generation", Some (pretty g)); ("x-agentic-key-id", Some (key_id a));
                  ("x-agentic-timestamp", Some (timestamp a)); ("x-agentic-nonce", Some (nonce a));
                  ("x-agentic-operation-id", Some "op-1");
                  ("x-agentic-body-sha256", Some (body_sha256 a));
                  ("x-agentic-signature", Some (signature a)); ("idempotency-key", Some "op-1")]
       | Err _ => []
       end |}.

Definition sample_api : CelldApi :=
  {| status_unavailable_code := None; has_effect_ledger := true; has_callback_verifier := true;
     has_effect_dispatcher := true; qualification_dispatch_gate := false;
     callback_mtls_cn := None |}.

Definition sample_oracle : Oracle :=
  {| o_now := 5000000; o_gate := Ok true; o_lookup := λ _, None;
     o_dispatch := {| pe_status := Effect.Succeeded; pe_management_operation_id := Some "m-1";
                      pe_terminal_code := Some "done"; pe_result := Some (JNum 7) |} |}.

Definition sample_world_0 : World := world_init sample_api [sample_key] 2000000.
Definition sample_world_1 : World :=
  do_receive 5000000 (sample_callback 1 2) (do_receive 5000000 (sample_callback 1 1) sample_world_0).
Definition sample_world_2 : World :=
  foldl (λ w i, do_advance sample_oracle i w) sample_world_1
    [0; 1; 0; 1; 0; 1; 0; 1; 1; 1; 1; 1; 0; 0; 0; 0]%nat.

Lemma sample_world_1_reachable : world_reachable sample_api [sample_key] 2000000 sample_world_1.
Proof. unfold world_reachable. etrans; apply do_receive_run. Qed.

Lemma sample_world_2_reachable : world_reachable sample_api [sample_key] 2000000 sample_world_2.
Proof. unfold world_reachable. etrans; [apply sample_world_1_reachable|apply do_advances_run]. Qed.

Lemma provider_dispatched_at_most_once_witness :
  (cmd_operation_id <$> calls sample_world_2) = ["op-1"] ∧
  NoDup (cmd_operation_id <$> calls sample_world_2).
Proof.
  split; [vm_compute; reflexivity|].
  apply (provider_dispatched_at_most_once sample_api [sample_key] 2000000).
  apply sample_world_2_reachable.
Defined.

Definition sample_cmd : CellCommand :=
  default (sample_command "op-1" Action.Provision) (head (calls sample_world_2)).



Lemma finished_operation_answered_witness :
  ∃ r, (advance sample_oracle {| api := sample_api; ledger := ledger (server sample_world_2);
                                 verifier := sample_verifier |} (Reading sample_cmd)).2
         = Done (effect_response r OK) ∧
       rec_status r = Effect.Succeeded ∧ rec_result r = Some (JNum 7).
Proof.
  destruct (finished_operation_answered (ledger (server sample_world_2))
    (ledger (server sample_world_2))
    (default sample_row (celld_effects (ledger (server sample_world_2)) !! "op-1"))
    Effect.Succeeded (Some (JNum 7)) sample_cmd sample_oracle sample_api sample_verifier)
    as (r & Ha & _ & Hs & _ & Hr).
  - apply sample_env_text_parses.
  - apply (rtc_invariant _ _ _ _ step_claims_inv sample_world_2_reachable).
    split; [apply rtc_refl|]. by intros ? ? ?%elem_of_nil.
  - vm_compute. reflexivity.
  - vm_compute. reflexivity.
  - reflexivity.
  - vm_compute. reflexivity.
  - apply rtc_refl.
  - exists r. rewrite Ha. split; [reflexivity|]. split; [exact Hs|exact Hr].
Defined.

(** A generation of 2^63. *)
Definition sample_world_big : World :=
  do_receive 5000000 (sample_callback (i64_max + 1) 1) sample_world_0.

Lemma internal_error_only_on_unstorable_generation_witness :
  ∃ cmd, head (inflight sample_world_big) = Some (Claiming cmd) ∧ i64_max < cmd_generation cmd.
Proof.
  destruct (internal_error_only_on_unstorable_generation sample_api [sample_key] 2000000
    sample_world_big 0 (default (Finishing sample_cmd) (head (inflight sample_world_big)))
    sample_oracle (server sample_world_big) (ledger_error_response Database)) as (cmd & Hpc & Hg).
  - apply sample_env_text_parses.
  - apply do_receive_run.
  - vm_compute. reflexivity.
  - vm_compute. reflexivity.
  - vm_compute. discriminate.
  - reflexivity.
  - exists cmd. rewrite <-Hpc. split; [vm_compute; reflexivity|exact Hg].
Defined.
