(* ===== verification/FlowGraph.v ===== *)
(** * Flow graph metadata of the executor

    Models management/agentic-sandbox-executor/src/extensions/flow_graph.rs:
    the validation of the graph identity a request carries and the lifecycle
    records written into a task's metadata.  An error is the message the code
    returns, kept as the kind of problem and the field it names.  Assigning
    through [value["key"]] panics on a scalar or an array, which is the [None]
    of [json_index_set]; functions that assign return an option. *)

From S2P Require Import Prelude Json.

Local Open Scope string_scope.
Local Open Scope list_scope.
Local Open Scope Z_scope.

Definition URI : string := "https://aiwg.io/extensions/flow-graph/v1".
Definition EVENT_KEY : string := "flow_graph.event".
Definition RESUME_KEY : string := "flow_graph.resume".

Definition REQUIRED_IDS : list string :=
  ["graph_id"; "graph_version"; "run_id"; "node_id"; "node_run_id"].
Definition OPTIONAL_IDS : list string := ["edge_id"].
Definition FORBIDDEN_KEYS : list string :=
  ["prompt"; "content"; "reasoning"; "credential"; "credentials"; "secret"; "token";
   "raw_output"].

Inductive GraphError : Type :=
| MetadataNotObject
| MissingField (key : string)
| FieldNotString (key : string)
| FieldNotPrintable (key : string)
| UnsupportedField (key : string)
| SensitiveField (key : string)
| ResumeNotObject
| ResumeFieldCount.

(** [value.chars().any(char::is_control)] on the UTF-8 bytes of a string:
    U+0000..U+001F and U+007F are single bytes, U+0080..U+009F are the byte
    0xC2 followed by 0x80..0x9F. *)
Fixpoint any_control (s : string) : bool :=
  match s with
  | EmptyString => false
  | String.String a rest =>
      (byte_val a <? 32) || (byte_val a =? 127)
      || ((byte_val a =? 194) &&
          match rest with
          | String.String b _ => (128 <=? byte_val b) && (byte_val b <? 160)
          | EmptyString => false
          end)
      || any_control rest
  end.

Definition validate_id (object : json_map) (key : string) (required : bool)
  : result GraphError unit :=
  match map_get object key with
  | None => if required then Err (MissingField key) else Ok ()
  | Some value =>
      value ← ok_or (as_str value) (FieldNotString key);
      if bool_decide (value = EmptyString) || (256 <? str_len value) || any_control value
      then Err (FieldNotPrintable key)
      else Ok ()
  end.

Fixpoint validate_ids (object : json_map) (keys : list string) (required : bool)
  : result GraphError unit :=
  match keys with
  | [] => Ok ()
  | key :: keys' =>
      _ ← validate_id object key required;
      validate_ids object keys' required
  end.

(** The loop over [object.keys()]. *)
Fixpoint check_keys (keys : list string) : result GraphError unit :=
  match keys with
  | [] => Ok ()
  | key :: keys' =>
      if bool_decide (key ∉ REQUIRED_IDS) && bool_decide (key ∉ OPTIONAL_IDS)
      then Err (UnsupportedField key)
      else if bool_decide (key ∈ FORBIDDEN_KEYS) then Err (SensitiveField key)
      else check_keys keys'
  end.

(** [body.get("message").get("metadata").get(key)] *)
Definition message_metadata (body : json) (key : string) : option json :=
  message ← json_get body "message";
  metadata ← json_get message "metadata";
  json_get metadata key.

Definition graph_metadata (body : json) : result GraphError (option json) :=
  match message_metadata body URI with
  | None => Ok None
  | Some value =>
      object ← ok_or (as_object value) MetadataNotObject;
      _ ← validate_ids object REQUIRED_IDS true;
      _ ← validate_ids object OPTIONAL_IDS false;
      _ ← check_keys object.*1;
      Ok (Some (JObj object))
  end.

Definition resume_lineage (body : json) : result GraphError (option json) :=
  match message_metadata body RESUME_KEY with
  | None => Ok None
  | Some value =>
      object ← ok_or (as_object value) ResumeNotObject;
      if negb (len object =? 2) then Err ResumeFieldCount
      else
        _ ← validate_id object "replay_of_task_id" true;
        _ ← validate_id object "checkpoint_id" true;
        Ok (Some (JObj object))
  end.

(** What [pre_request] answers; [ctx.activated.contains(URI)] is [activated]. *)
Inductive ExtensionOutcome : Type :=
| Continue
| Reject (status : Z) (body : json)
| Replay (status : Z) (body : json).

Definition reject (detail : string) : ExtensionOutcome :=
  Reject 422 (json_obj [
    ("type", JStr "https://agentic-sandbox.aiwg.io/errors/flow-graph-metadata");
    ("title", JStr "Invalid Flow graph metadata");
    ("status", JNum 422);
    ("code", JStr "flow_graph.invalid_metadata");
    ("detail", JStr detail)]).

Definition error_text (e : GraphError) : string :=
  match e with
  | MetadataNotObject => "flow-graph/v1 metadata must be an object"
  | MissingField key => "missing required flow-graph/v1 field: " +:+ key
  | FieldNotString key => "flow-graph/v1 field " +:+ key +:+ " must be a string"
  | FieldNotPrintable key =>
      "flow-graph/v1 field " +:+ key +:+ " must be 1..256 printable characters"
  | UnsupportedField key => "unsupported flow-graph/v1 field: " +:+ key
  | SensitiveField key => "sensitive field is forbidden in graph metadata: " +:+ key
  | ResumeNotObject => "flow_graph.resume must be an object"
  | ResumeFieldCount => "flow_graph.resume requires only replay_of_task_id and checkpoint_id"
  end.

Definition graph_pre_request (activated : bool) (body : json) : ExtensionOutcome :=
  if negb activated then Continue
  else match graph_metadata body with
       | Ok (Some _) => Continue
       | Ok None => reject "activated flow-graph/v1 requires message.metadata namespace"
       | Err reason => reject (error_text reason)
       end.

(** [object[key] = value] on a value known to be an object. *)
Definition copy_field (from : json) (key : string) (into : json_map) : json_map :=
  match json_get from key with
  | Some value => map_insert into key value
  | None => into
  end.

(** The event record both writers of [EVENT_KEY] build. *)
Definition node_event (metadata task event : json) : json :=
  json_obj [
    ("api_version", JStr "flow.aiwg.io/v1alpha1");
    ("kind", JStr "GraphSandboxNodeEvent");
    ("metadata", metadata);
    ("task", task);
    ("event", event)].

Definition task_object (task_id : string) (session_id : option string)
    (idempotency_key : string) (lineage : option json) : json_map :=
  let task := map_insert (map_insert (map_insert []
                "task_id" (JStr task_id))
                "runtime_binding" (JStr "a2a-sandbox"))
                "idempotency_key" (JStr idempotency_key) in
  let task := match session_id with
              | Some s => map_insert task "session_id" (JStr s)
              | None => task
              end in
  match lineage with
  | Some l => copy_field l "checkpoint_id" (copy_field l "replay_of_task_id" task)
  | None => task
  end.

Definition task_metadata_with_lineage (graph : json) (task_id : string)
    (session_id : option string) (idempotency_key : string) (event : json)
    (lineage : option json) : option json :=
  event_graph ← json_index_set graph "namespace" (JStr URI);
  Some (json_obj [
    (URI, graph);
    (EVENT_KEY, node_event event_graph
       (JObj (task_object task_id session_id idempotency_key lineage)) event)]).

Definition task_metadata (graph : json) (task_id : string) (session_id : option string)
    (idempotency_key : string) (event : json) : option json :=
  task_metadata_with_lineage graph task_id session_id idempotency_key event None.

Section events.
Context {H : Env}.

Definition lifecycle (state : string) (observed_at : Z) : json :=
  json_obj [("type", JStr "lifecycle"); ("state", JStr state);
            ("observed_at", JStr (rfc3339 observed_at))].

(** [num_milliseconds] truncates towards zero. *)
Definition terminal (state : string) (started_at ended_at : Z) (exit evidence : json)
    (termination_reason : option string) : json :=
  let duration_ms := Z.max (Z.quot (ended_at - started_at) 1000000) 0 in
  let event := foldl (λ m kv, map_insert m kv.1 kv.2) [] [
    ("type", JStr "terminal");
    ("state", JStr state);
    ("started_at", JStr (rfc3339 started_at));
    ("ended_at", JStr (rfc3339 ended_at));
    ("duration_ms", JNum duration_ms);
    ("exit", exit);
    ("evidence", evidence)] in
  JObj (match termination_reason with
        | Some reason => map_insert event "termination_reason" (JStr reason)
        | None => event
        end).
End events.

(** [latest_event] on the metadata of a task: [None] is the panic, the inner
    option the column. *)
Definition latest_event (metadata : option json) (event : json) : option (option json) :=
  match metadata with
  | Some (JObj object) =>
      match map_get object URI with
      | None => Some metadata
      | Some graph =>
          graph ← json_index_set graph "namespace" (JStr URI);
          let task := default (JObj [])
                        (v ← map_get object EVENT_KEY; json_get v "task") in
          Some (Some (JObj (map_insert object EVENT_KEY (node_event graph task event))))
      end
  | _ => Some metadata
  end.

(** ** Lemmas *)

(** A printable identifier of the contract. *)
Definition printable_id (v : json) : Prop :=
  ∃ s, v = JStr s ∧ 1 <= str_len s <= 256 ∧ any_control s = false.

(** The identity objects the contract allows: every required id, no key
    outside the contract, every value a printable identifier. *)
Record valid_identity (object : json_map) : Prop := {
  vi_required k : k ∈ REQUIRED_IDS → ∃ v, map_get object k = Some v ∧ printable_id v;
  vi_optional k v : k ∈ OPTIONAL_IDS → map_get object k = Some v → printable_id v;
  vi_closed k : k ∈ object.*1 → k ∈ REQUIRED_IDS ∨ k ∈ OPTIONAL_IDS;
}.

Lemma str_len_pos s : s ≠ EmptyString ↔ 1 <= str_len s.
Proof. unfold str_len. destruct s; simpl; split; intros; done || lia. Qed.

Lemma validate_id_ok object key required :
  validate_id object key required = Ok () ↔
  match map_get object key with
  | None => required = false
  | Some v => printable_id v
  end.
Proof.
  unfold validate_id, printable_id. destruct (map_get object key) as [v|].
  - destruct v; simpl; try (split; [done|intros (? & ? & ?); done]).
    destruct (_ || _) eqn:Hb; split; intros Hx; try done.
    + destruct Hx as (s' & [= <-] & Hl & Hc). rewrite !orb_true_iff in Hb.
      destruct Hb as [[Hb|Hb]|Hb]; reflect_bools; [|lia|congruence].
      apply str_len_pos in Hb; [done|lia].
    + reflect_bools. exists s. rewrite <-str_len_pos. auto.
  - by destruct required.
Qed.

Lemma validate_ids_ok object keys required :
  validate_ids object keys required = Ok () ↔
  ∀ k, k ∈ keys → validate_id object k required = Ok ().
Proof.
  induction keys as [|k keys IH]; simpl; [set_solver|]. rewrite bind_Ok. split.
  - intros ([] & Hk & Hks) k'. rewrite elem_of_cons. intros [->|?]; [done|].
    by apply IH.
  - intros Hall. exists (). split; [apply Hall; set_solver|]. apply IH. set_solver.
Qed.

Lemma check_keys_ok keys :
  check_keys keys = Ok () ↔ ∀ k, k ∈ keys → k ∈ REQUIRED_IDS ∨ k ∈ OPTIONAL_IDS.
Proof.
  assert (∀ k, k ∈ REQUIRED_IDS ∨ k ∈ OPTIONAL_IDS → k ∉ FORBIDDEN_KEYS) as Hdisj.
  { intros k Hk Hf. unfold REQUIRED_IDS, OPTIONAL_IDS, FORBIDDEN_KEYS in *.
    rewrite !elem_of_cons, elem_of_nil in *. naive_solver. }
  induction keys as [|k keys IH]; simpl; [set_solver|].
  destruct (decide (k ∈ REQUIRED_IDS ∨ k ∈ OPTIONAL_IDS)) as [Hin|Hout].
  - rewrite (bool_decide_eq_false_2 (k ∈ FORBIDDEN_KEYS)) by auto.
    replace (bool_decide _ && bool_decide _) with false; [rewrite IH; set_solver|].
    symmetry. apply andb_false_iff. rewrite !bool_decide_eq_false. naive_solver.
  - rewrite !bool_decide_eq_true_2 by naive_solver. simpl. split; [done|].
    intros Hall. destruct Hout. apply Hall. set_solver.
Qed.

Lemma map_get_None_notin (m : json_map) k : map_get m k = None → k ∉ m.*1.
Proof.
  induction m as [|[k' v] m IH]; simpl; [set_solver|]. case_decide; [done|].
  intros Hm. specialize (IH Hm). set_solver.
Qed.

(** The graph metadata a request may carry is exactly the AIWG identity
    contract: [graph_metadata] returns an object if and only if the request
    holds it, all required ids are present, every id is a string of 1 to 256
    bytes without control characters and no other key occurs. *)
Theorem graph_identity_exact body v :
  graph_metadata body = Ok (Some v) ↔
  ∃ object, v = JObj object ∧ message_metadata body URI = Some v ∧ valid_identity object.
Proof.
  unfold graph_metadata. destruct (message_metadata body URI) as [x|]; [|naive_solver].
  split.
  - intros Hx. apply bind_Ok in Hx as (object & Hx & Hr). apply ok_or_Ok in Hx.
    apply bind_Ok in Hr as ([] & Hr & Ho). apply bind_Ok in Ho as ([] & Ho & Hk).
    apply bind_Ok in Hk as ([] & Hk & [= <-]).
    pose proof (proj1 (validate_ids_ok _ _ _) Hr) as Hr'.
    pose proof (proj1 (validate_ids_ok _ _ _) Ho) as Ho'. destruct x; simplify_eq/=. exists object. split_and!; [done..|]. constructor.
    + intros k Hin. specialize (Hr' k Hin). apply validate_id_ok in Hr'. case_match; [eauto|done].
    + intros k v Hin Hg. specialize (Ho' k Hin). apply validate_id_ok in Ho'. by rewrite Hg in Ho'.
    + by apply check_keys_ok.
  - intros (object & -> & [= ->] & [Hr Ho Hk]).
    change (ok_or (as_object (JObj object)) MetadataNotObject) with (Ok object : result GraphError _).
    cbn [mbind result_bind]. rewrite (proj2 (validate_ids_ok object REQUIRED_IDS true)).
    2: { intros k Hin. apply validate_id_ok. by destruct (Hr k Hin) as (v & -> & ?). }
    rewrite (proj2 (validate_ids_ok object OPTIONAL_IDS false)).
    2: { intros k Hin. apply validate_id_ok. case_match; eauto. }
    by rewrite (proj2 (check_keys_ok _) Hk).
Qed.

(** The record [latest_event] writes for a task whose graph is an object. *)
Lemma latest_event_object object g event :
  map_get object URI = Some (JObj g) →
  latest_event (Some (JObj object)) event =
  Some (Some (JObj (map_insert object EVENT_KEY
    (node_event (JObj (map_insert g "namespace" (JStr URI)))
       (default (JObj []) (v ← map_get object EVENT_KEY; json_get v "task")) event)))).
Proof. intros Hg. unfold latest_event. by rewrite Hg. Qed.

(** Recording an event never touches the durable identity: every key but
    the event record keeps its value, the record carries the new event and
    the task part of the previous record, and the call does not panic on a
    graph that passed validation. *)
Theorem latest_event_keeps_identity object g event :
  map_get object URI = Some (JObj g) →
  ∃ object', latest_event (Some (JObj object)) event = Some (Some (JObj object')) ∧
    (∀ k, k ≠ EVENT_KEY → map_get object' k = map_get object k) ∧
    (∃ r, map_get object' EVENT_KEY = Some r ∧ json_get r "event" = Some event ∧
       json_get r "task" =
         Some (default (JObj []) (v ← map_get object EVENT_KEY; json_get v "task"))).
Proof.
  intros Hg. rewrite (latest_event_object _ g) by done. eexists. split; [reflexivity|].
  split; [intros k Hk; by apply map_get_insert_ne|].
  rewrite map_get_insert_eq. eauto.
Qed.

(** Witness for the identity part: the graph of the tests. *)
Lemma latest_event_keeps_identity_witness :
  ∃ object', latest_event (Some (JObj [(URI, JObj [("graph_id", JStr "g")])])) JNull =
    Some (Some (JObj object')) ∧
    map_get object' URI = Some (JObj [("graph_id", JStr "g")]).
Proof.
  destruct (latest_event_keeps_identity [(URI, JObj [("graph_id", JStr "g")])]
              [("graph_id", JStr "g")] JNull) as (object' & He & Hk & _); [reflexivity|].
  exists object'. split; [exact He|]. rewrite Hk by discriminate. reflexivity.
Defined.
