(* ===== verification/TaskStore.v ===== *)
(** * The executor's task store

    Models management/agentic-sandbox-executor/src/store/task_store.rs: the
    five SQLite tables and every method that reads or writes them.  A table
    is a map from its primary key to the columns; state, fail-kind and JSON
    columns hold the text the code writes and the row decoders parse it back.
    Timestamp columns are kept as numbers: [fmt_ts] writes fixed-width
    nanosecond UTC text, whose order and equality are those of the instants
    (for years 0 to 9999).  Methods run one at a time under the connection
    mutex; a failing transaction is rolled back.

    SQL leaves the order of rows open where no ORDER BY decides it, so table
    scans go through the class [TableScan]: every row exactly once, in some
    order.  Foreign keys are ON: an insert of a dependent of a missing task
    and a delete of a referenced task fail. *)

From S2P Require Import Prelude Json FlowGraph.

Local Open Scope string_scope.
Local Open Scope list_scope.
Local Open Scope Z_scope.

(** ** Task states *)

Module Task.
Inductive TaskState : Type :=
| Submitted | Working | Completed | Failed | Canceled | InputRequired | Rejected
| AuthRequired.
End Task.
Abbreviation TaskState := Task.TaskState.
#[export] Instance TaskState_eq_dec : EqDecision TaskState.
Proof. solve_decision. Defined.

Inductive FailKind : Type := Application | Infrastructure.
#[export] Instance FailKind_eq_dec : EqDecision FailKind.
Proof. solve_decision. Defined.

Inductive StoreError : Type :=
| UnknownTaskState (text : string)
| UnknownFailKind (text : string)
| ParsingJson
| NegativeRevision
| ConstraintViolation
| Panicked.

Definition task_state_as_str (s : TaskState) : string :=
  match s with
  | Task.Submitted => "submitted"
  | Task.Working => "working"
  | Task.Completed => "completed"
  | Task.Failed => "failed"
  | Task.Canceled => "canceled"
  | Task.InputRequired => "input-required"
  | Task.Rejected => "rejected"
  | Task.AuthRequired => "auth-required"
  end.

Definition task_is_terminal (s : TaskState) : bool :=
  match s with
  | Task.Completed | Task.Failed | Task.Canceled | Task.Rejected => true
  | _ => false
  end.

Definition task_state_from_str (s : string) : result StoreError TaskState :=
  if decide (s = "submitted") then Ok Task.Submitted
  else if decide (s = "working") then Ok Task.Working
  else if decide (s = "completed") then Ok Task.Completed
  else if decide (s = "failed") then Ok Task.Failed
  else if decide (s = "canceled") then Ok Task.Canceled
  else if decide (s = "input-required") then Ok Task.InputRequired
  else if decide (s = "rejected") then Ok Task.Rejected
  else if decide (s = "auth-required") then Ok Task.AuthRequired
  else Err (UnknownTaskState s).

Definition fail_kind_as_str (k : FailKind) : string :=
  match k with Application => "application" | Infrastructure => "infrastructure" end.

Definition fail_kind_from_str (s : string) : result StoreError FailKind :=
  if decide (s = "application") then Ok Application
  else if decide (s = "infrastructure") then Ok Infrastructure
  else Err (UnknownFailKind s).

(** ** Rows as the callers see them *)

Record TaskRow : Type := {
  t_task_id : string;
  t_context_id : option string;
  t_instance_id : option string;
  t_state : TaskState;
  t_fail_kind : option FailKind;
  t_status_json : json;
  t_metadata_json : option json;
  t_created_at : Z;
  t_updated_at : Z;
  t_terminal_at : option Z;
}.

Record ListFilter : Type := {
  f_state : option TaskState;
  f_limit : option Z;
  f_include_terminal : bool;
  f_instance_id : option string;
}.

Record ArtifactRow : Type := {
  a_artifact_id : string;
  a_task_id : string;
  a_artifact_json : json;
  a_created_at : Z;
}.

Record PushNotificationConfigRow : Type := {
  p_config_id : string;
  p_task_id : string;
  p_url : string;
  p_auth_json : option json;
  p_created_at : Z;
}.

Inductive PushConfigWriteOutcome : Type := Created | Updated | Conflict | LimitReached.

Record IdempotencyEntry : Type := {
  i_message_id : string;
  i_request_hash : string;
  i_response_status : Z;
  i_response_body : json;
  i_created_at : Z;
  i_expires_at : Z;
}.

Record FleetWorkloadRow : Type := {
  w_child_id : string;
  w_idempotency_key : string;
  w_request_hash : string;
  w_target_id : string;
  w_executor_id : string;
  w_workload_kind : string;
  w_observed_state : string;
  w_revision : Z;
  w_last_seen : Z;
  w_record_json : json;
  w_created_at : Z;
  w_updated_at : Z;
}.

Inductive FleetDispatchOutcome : Type :=
| Inserted (row : FleetWorkloadRow)
| DispatchReplay (row : FleetWorkloadRow)
| DispatchCollision.

Inductive FleetObservationOutcome : Type :=
| ObservationUpdated (row : FleetWorkloadRow)
| Missing
| Stale (current_revision : Z).

(** ** Tables *)

Record TaskColumns : Type := {
  tc_context_id : option string;
  tc_instance_id : option string;
  tc_state : string;
  tc_fail_kind : option string;
  tc_status_json : string;
  tc_metadata_json : option string;
  tc_created_at : Z;
  tc_updated_at : Z;
  tc_terminal_at : option Z;
}.

Record ArtifactColumns : Type := {
  ac_task_id : string;
  ac_artifact_json : string;
  ac_created_at : Z;
}.

Record PushColumns : Type := {
  pc_task_id : string;
  pc_url : string;
  pc_auth_json : option string;
  pc_created_at : Z;
}.

Record IdemColumns : Type := {
  ic_request_hash : string;
  ic_response_status : Z;
  ic_response_body : string;
  ic_created_at : Z;
  ic_expires_at : Z;
}.

Record FleetColumns : Type := {
  fc_idempotency_key : string;
  fc_request_hash : string;
  fc_target_id : string;
  fc_executor_id : string;
  fc_workload_kind : string;
  fc_observed_state : string;
  fc_revision : Z;
  fc_last_seen : Z;
  fc_record_json : string;
  fc_created_at : Z;
  fc_updated_at : Z;
}.

Record TaskStore : Type := {
  tasks : gmap string TaskColumns;
  task_artifacts : gmap string ArtifactColumns;
  push_notification_configs : gmap string PushColumns;
  idempotency_cache : gmap string IdemColumns;
  fleet_workloads : gmap string FleetColumns;
}.

(** [open_in_memory]: the bootstrap schema, no rows. *)
Definition open_in_memory : TaskStore :=
  {| tasks := ∅; task_artifacts := ∅; push_notification_configs := ∅;
     idempotency_cache := ∅; fleet_workloads := ∅ |}.

(** The order in which SQLite visits the rows of a table. *)
Class TableScan : Type := {
  scan : ∀ {A}, gmap string A → list (string * A);
  scan_perm : ∀ {A} (m : gmap string A), scan m ≡ₚ map_to_list m;
}.

#[local] Instance sample_scan : TableScan :=
  {| scan := λ A m, map_to_list m; scan_perm := λ A m, Permutation_refl _ |}.

(** [WHERE ...] on a scan, [DELETE ... WHERE], [LIMIT] (negative: no limit). *)
Definition where_ {A} (p : string → A → bool) (rows : list (string * A)) : list (string * A) :=
  filter (λ kv, p kv.1 kv.2 = true) rows.
Definition delete_where {A} (p : string → A → bool) (m : gmap string A) : gmap string A :=
  filter (λ kv, p kv.1 kv.2 = false) m.
Definition limit_rows {A} (n : Z) (rows : list A) : list A :=
  if n <? 0 then rows else take (Z.to_nat n) rows.

(** The casts between [u64] and the [i64] of an INTEGER column. *)
Definition as_i64 (n : Z) : Z := if i64_max <? n then n - (u64_max + 1) else n.
Definition as_u64 (n : Z) : Z := if n <? 0 then n + (u64_max + 1) else n.

Definition key_le {A} (key : A → Z) (x y : string * A) : Prop := key x.2 <= key y.2.
#[export] Instance key_le_dec {A} (key : A → Z) : RelDecision (key_le key).
Proof. intros x y. unfold key_le. apply _. Defined.
#[export] Instance key_le_total {A} (key : A → Z) : Total (key_le key).
Proof. intros x y. unfold key_le. lia. Qed.
#[export] Instance key_le_trans {A} (key : A → Z) : Transitive (key_le key).
Proof. intros x y z. unfold key_le. lia. Qed.

(** [ORDER BY key ASC] and [ORDER BY key DESC] *)
Definition order_by_asc {A} (key : A → Z) (rows : list (string * A)) : list (string * A) :=
  merge_sort (key_le key) rows.
Definition order_by_desc {A} (key : A → Z) (rows : list (string * A)) : list (string * A) :=
  merge_sort (key_le (λ x, - key x)) rows.

(** Collecting the decoded rows, stopping at the first error. *)
Fixpoint collect {A B} (decode : A → result StoreError B) (rows : list A)
  : result StoreError (list B) :=
  match rows with
  | [] => Ok []
  | r :: rows' =>
      x ← decode r;
      xs ← collect decode rows';
      Ok (x :: xs)
  end.

Section store.
Context {E : Env} {Scan : TableScan}.
Implicit Types (s : TaskStore) (now : Z).

(** ** Row decoders *)

Definition parse_json (text : string) : result StoreError json :=
  ok_or (json_parse text) ParsingJson.
Definition parse_opt_json (text : option string) : result StoreError (option json) :=
  match text with
  | Some v => Some <$> parse_json v
  | None => Ok None
  end.

Definition row_to_task (row : string * TaskColumns) : result StoreError TaskRow :=
  let (task_id, c) := row in
  state ← task_state_from_str (tc_state c);
  fail_kind ← match tc_fail_kind c with
              | Some k => Some <$> fail_kind_from_str k
              | None => Ok None
              end;
  status_json ← parse_json (tc_status_json c);
  metadata_json ← parse_opt_json (tc_metadata_json c);
  Ok {| t_task_id := task_id;
        t_context_id := tc_context_id c;
        t_instance_id := tc_instance_id c;
        t_state := state;
        t_fail_kind := fail_kind;
        t_status_json := status_json;
        t_metadata_json := metadata_json;
        t_created_at := tc_created_at c;
        t_updated_at := tc_updated_at c;
        t_terminal_at := tc_terminal_at c |}.

Definition row_to_artifact (row : string * ArtifactColumns) : result StoreError ArtifactRow :=
  let (artifact_id, c) := row in
  artifact_json ← parse_json (ac_artifact_json c);
  Ok {| a_artifact_id := artifact_id; a_task_id := ac_task_id c;
        a_artifact_json := artifact_json; a_created_at := ac_created_at c |}.

Definition row_to_push (row : string * PushColumns)
  : result StoreError PushNotificationConfigRow :=
  let (config_id, c) := row in
  auth_json ← parse_opt_json (pc_auth_json c);
  Ok {| p_config_id := config_id; p_task_id := pc_task_id c; p_url := pc_url c;
        p_auth_json := auth_json; p_created_at := pc_created_at c |}.

Definition row_to_idem (row : string * IdemColumns) : result StoreError IdempotencyEntry :=
  let (message_id, c) := row in
  response_body ← parse_json (ic_response_body c);
  Ok {| i_message_id := message_id; i_request_hash := ic_request_hash c;
        i_response_status := ic_response_status c `mod` (u16_max + 1);
        i_response_body := response_body;
        i_created_at := ic_created_at c; i_expires_at := ic_expires_at c |}.

Definition row_to_fleet (row : string * FleetColumns) : result StoreError FleetWorkloadRow :=
  let (child_id, c) := row in
  revision ← (if fc_revision c <? 0 then Err NegativeRevision else Ok (fc_revision c));
  record_json ← parse_json (fc_record_json c);
  Ok {| w_child_id := child_id;
        w_idempotency_key := fc_idempotency_key c;
        w_request_hash := fc_request_hash c;
        w_target_id := fc_target_id c;
        w_executor_id := fc_executor_id c;
        w_workload_kind := fc_workload_kind c;
        w_observed_state := fc_observed_state c;
        w_revision := revision;
        w_last_seen := fc_last_seen c;
        w_record_json := record_json;
        w_created_at := fc_created_at c;
        w_updated_at := fc_updated_at c |}.

(** [query_row(...).optional()...transpose()] on one key *)
Definition decode_opt {A B} (decode : string * A → result StoreError B) (key : string)
    (columns : option A) : result StoreError (option B) :=
  match columns with
  | Some c => Some <$> decode (key, c)
  | None => Ok None
  end.

(** ** Tasks *)

(** The [terminal_at] an upsert writes. *)
Definition upsert_terminal_at (prior : option Z) (row : TaskRow) : option Z :=
  match prior, t_terminal_at row with
  | Some prior, _ => Some prior
  | None, Some supplied => Some supplied
  | None, None => if task_is_terminal (t_state row) then Some (t_updated_at row) else None
  end.

Definition upsert_task s (row : TaskRow) : TaskStore :=
  let existing := tasks s !! t_task_id row in
  let terminal_at := upsert_terminal_at (existing ≫= tc_terminal_at) row in
  s <| tasks ::= <[t_task_id row :=
    {| tc_context_id := t_context_id row;
       tc_instance_id :=
         match existing ≫= tc_instance_id with
         | Some i => Some i
         | None => t_instance_id row
         end;
       tc_state := task_state_as_str (t_state row);
       tc_fail_kind := fail_kind_as_str <$> t_fail_kind row;
       tc_status_json := json_text (t_status_json row);
       tc_metadata_json := json_text <$> t_metadata_json row;
       tc_created_at :=
         match existing with Some c => tc_created_at c | None => t_created_at row end;
       tc_updated_at := t_updated_at row;
       tc_terminal_at := terminal_at |}]> |>.

Definition get_task s (task_id : string) : result StoreError (option TaskRow) :=
  decode_opt row_to_task task_id (tasks s !! task_id).

Definition get_task_for_instance s (instance_id task_id : string)
  : result StoreError (option TaskRow) :=
  decode_opt row_to_task task_id
    (c ← tasks s !! task_id;
     if decide (tc_instance_id c = Some instance_id) then Some c else None).

Definition filter_matches (f : ListFilter) (c : TaskColumns) : bool :=
  match f_state f with
  | Some state => bool_decide (tc_state c = task_state_as_str state)
  | None => true
  end
  && (f_include_terminal f || bool_decide (tc_terminal_at c = None))
  && match f_instance_id f with
     | Some inst => bool_decide (tc_instance_id c = Some inst)
     | None => true
     end.

Definition list_tasks s (f : ListFilter) : result StoreError (list TaskRow) :=
  let rows := order_by_desc tc_created_at (where_ (λ _, filter_matches f) (scan (tasks s))) in
  collect row_to_task (match f_limit f with Some n => limit_rows n rows | None => rows end).

(** A reference to a task that the delete removes. *)
Definition dangling (before after : gmap string TaskColumns) (task_id : string) : bool :=
  bool_decide (is_Some (before !! task_id) ∧ after !! task_id = None).

(** [DELETE FROM tasks WHERE ...] under the foreign keys. *)
Definition delete_tasks s (p : string → TaskColumns → bool) : result StoreError (TaskStore * Z) :=
  let kept := delete_where p (tasks s) in
  if existsb (λ kv, dangling (tasks s) kept (ac_task_id kv.2)) (map_to_list (task_artifacts s))
     || existsb (λ kv, dangling (tasks s) kept (pc_task_id kv.2))
          (map_to_list (push_notification_configs s))
  then Err ConstraintViolation
  else Ok (s <| tasks := kept |>, Z.of_nat (size (tasks s)) - Z.of_nat (size kept)).

(** Removing the rows that depend on a task. *)
Definition delete_dependents s (task_id : string) : TaskStore :=
  s <| task_artifacts ::= delete_where (λ _ c, bool_decide (ac_task_id c = task_id)) |>
    <| push_notification_configs ::= delete_where (λ _ c, bool_decide (pc_task_id c = task_id)) |>.

Definition delete_task s (task_id : string) : TaskStore * result StoreError bool :=
  match delete_tasks (delete_dependents s task_id) (λ k _, bool_decide (k = task_id)) with
  | Ok (s', n) => (s', Ok (0 <? n))
  | Err e => (s, Err e)
  end.

Definition count_tasks s : Z := Z.of_nat (size (tasks s)).

(** ** Artifacts *)

Definition append_artifact now s (task_id artifact_id : string) (artifact_json : json)
  : TaskStore * result StoreError unit :=
  match task_artifacts s !! artifact_id, tasks s !! task_id with
  | None, Some _ =>
      (s <| task_artifacts ::= <[artifact_id :=
         {| ac_task_id := task_id; ac_artifact_json := json_text artifact_json;
            ac_created_at := now |}]> |>, Ok ())
  | _, _ => (s, Err ConstraintViolation)
  end.

Definition list_artifacts s (task_id : string) : result StoreError (list ArtifactRow) :=
  collect row_to_artifact (order_by_asc ac_created_at
    (where_ (λ _ c, bool_decide (ac_task_id c = task_id)) (scan (task_artifacts s)))).

Definition get_artifact s (task_id artifact_id : string)
  : result StoreError (option ArtifactRow) :=
  decode_opt row_to_artifact artifact_id
    (c ← task_artifacts s !! artifact_id;
     if decide (ac_task_id c = task_id) then Some c else None).

(** ** Push notification configs *)

Definition push_columns (cfg : PushNotificationConfigRow) : PushColumns :=
  {| pc_task_id := p_task_id cfg; pc_url := p_url cfg;
     pc_auth_json := json_text <$> p_auth_json cfg; pc_created_at := p_created_at cfg |}.

Definition put_push_config s (cfg : PushNotificationConfigRow)
  : TaskStore * result StoreError unit :=
  match tasks s !! p_task_id cfg with
  | None => (s, Err ConstraintViolation)
  | Some _ =>
      let columns :=
        match push_notification_configs s !! p_config_id cfg with
        | None => push_columns cfg
        | Some c => (push_columns cfg) <| pc_created_at := pc_created_at c |>
        end in
      (s <| push_notification_configs ::= <[p_config_id cfg := columns]> |>, Ok ())
  end.

(** [SELECT COUNT(1) FROM push_notification_configs WHERE task_id = ?1] *)
Definition count_push_configs s (task_id : string) : Z :=
  Z.of_nat (size (filter (λ kv, pc_task_id kv.2 = task_id) (push_notification_configs s))).

Definition put_push_config_bounded s (cfg : PushNotificationConfigRow) (max_per_task : Z)
  : TaskStore * result StoreError PushConfigWriteOutcome :=
  match push_notification_configs s !! p_config_id cfg with
  | Some c =>
      if decide (pc_task_id c ≠ p_task_id cfg) then (s, Ok Conflict)
      else (s <| push_notification_configs ::= <[p_config_id cfg :=
               c <| pc_url := p_url cfg |>
                 <| pc_auth_json := json_text <$> p_auth_json cfg |>]> |>, Ok Updated)
  | None =>
      if as_i64 max_per_task <=? count_push_configs s (p_task_id cfg) then (s, Ok LimitReached)
      else match tasks s !! p_task_id cfg with
           | None => (s, Err ConstraintViolation)
           | Some _ =>
               (s <| push_notification_configs ::= <[p_config_id cfg := push_columns cfg]> |>,
                Ok Created)
           end
  end.

Definition get_push_config s (config_id : string)
  : result StoreError (option PushNotificationConfigRow) :=
  decode_opt row_to_push config_id (push_notification_configs s !! config_id).

Definition list_push_configs s (task_id : string)
  : result StoreError (list PushNotificationConfigRow) :=
  collect row_to_push (order_by_asc pc_created_at
    (where_ (λ _ c, bool_decide (pc_task_id c = task_id)) (scan (push_notification_configs s)))).

Definition delete_push_config s (config_id : string) : TaskStore * bool :=
  (s <| push_notification_configs ::= delete config_id |>,
   bool_decide (is_Some (push_notification_configs s !! config_id))).

(** ** Retention *)

(** [terminal_at IS NOT NULL AND terminal_at < cutoff] *)
Definition expired (cutoff : Z) (c : TaskColumns) : bool :=
  match tc_terminal_at c with Some t => t <? cutoff | None => false end.

Definition purge_expired now s (terminal_retention : Z) : TaskStore * result StoreError Z :=
  let cutoff := now - terminal_retention in
  let victims := (where_ (λ _, expired cutoff) (scan (tasks s))).*1 in
  match delete_tasks (foldl delete_dependents s victims) (λ _, expired cutoff) with
  | Ok (s', n) => (s', Ok n)
  | Err e => (s, Err e)
  end.

(** ** Idempotency cache *)

Definition idempotency_get s (message_id : string)
  : result StoreError (option IdempotencyEntry) :=
  decode_opt row_to_idem message_id (idempotency_cache s !! message_id).

Definition idempotency_put s (entry : IdempotencyEntry) : TaskStore :=
  s <| idempotency_cache ::= <[i_message_id entry :=
    {| ic_request_hash := i_request_hash entry;
       ic_response_status := i_response_status entry;
       ic_response_body := json_text (i_response_body entry);
       ic_created_at :=
         match idempotency_cache s !! i_message_id entry with
         | Some c => ic_created_at c
         | None => i_created_at entry
         end;
       ic_expires_at := i_expires_at entry |}]> |>.

Definition idempotency_purge_expired now s : TaskStore * Z :=
  let kept := delete_where (λ _ c, ic_expires_at c <? now) (idempotency_cache s) in
  (s <| idempotency_cache := kept |>,
   Z.of_nat (size (idempotency_cache s)) - Z.of_nat (size kept)).

Definition idempotency_count s : Z := Z.of_nat (size (idempotency_cache s)).

Definition idempotency_evict_oldest s (n : Z) : TaskStore * Z :=
  if n =? 0 then (s, 0)
  else
    let oldest := (limit_rows (as_i64 n)
                     (order_by_asc ic_created_at (scan (idempotency_cache s)))).*1 in
    let kept := delete_where (λ k _, bool_decide (k ∈ oldest)) (idempotency_cache s) in
    (s <| idempotency_cache := kept |>,
     Z.of_nat (size (idempotency_cache s)) - Z.of_nat (size kept)).

(** ** Fleet workloads *)

Definition fleet_columns (row : FleetWorkloadRow) : FleetColumns :=
  {| fc_idempotency_key := w_idempotency_key row;
     fc_request_hash := w_request_hash row;
     fc_target_id := w_target_id row;
     fc_executor_id := w_executor_id row;
     fc_workload_kind := w_workload_kind row;
     fc_observed_state := w_observed_state row;
     fc_revision := as_i64 (w_revision row);
     fc_last_seen := w_last_seen row;
     fc_record_json := json_text (w_record_json row);
     fc_created_at := w_created_at row;
     fc_updated_at := w_updated_at row |}.

(** The row the LIMIT 1 query of [fleet_dispatch] finds. *)
Definition fleet_prior s (row : FleetWorkloadRow) : option (string * FleetColumns) :=
  head (where_ (λ k c, bool_decide (fc_idempotency_key c = w_idempotency_key row)
                       || bool_decide (k = w_child_id row)) (scan (fleet_workloads s))).

Definition fleet_dispatch s (row : FleetWorkloadRow)
  : TaskStore * result StoreError FleetDispatchOutcome :=
  match fleet_prior s row with
  | Some found =>
      match row_to_fleet found with
      | Err e => (s, Err e)
      | Ok prior =>
          if bool_decide (w_idempotency_key prior = w_idempotency_key row)
             && bool_decide (w_request_hash prior = w_request_hash row)
          then (s, Ok (DispatchReplay prior))
          else (s, Ok DispatchCollision)
      end
  | None =>
      (s <| fleet_workloads ::= <[w_child_id row := fleet_columns row]> |>, Ok (Inserted row))
  end.

Definition get_fleet_workload s (child_id : string)
  : result StoreError (option FleetWorkloadRow) :=
  decode_opt row_to_fleet child_id (fleet_workloads s !! child_id).

(** [ORDER BY child_id ASC] *)
Definition child_le (x y : string * FleetColumns) : Prop := String.leb x.1 y.1 = true.
#[local] Instance child_le_dec : RelDecision child_le.
Proof. intros x y. unfold child_le. apply _. Defined.

Definition list_fleet_workloads s : result StoreError (list FleetWorkloadRow) :=
  collect row_to_fleet (merge_sort child_le (scan (fleet_workloads s))).

Definition observe_fleet_workload s (child_id : string) (expected_revision : Z)
    (next : FleetWorkloadRow) : TaskStore * result StoreError FleetObservationOutcome :=
  match fleet_workloads s !! child_id with
  | None => (s, Ok Missing)
  | Some c =>
      if negb (as_u64 (fc_revision c) =? expected_revision)
         || (w_revision next <=? expected_revision)
      then (s, Ok (Stale (as_u64 (fc_revision c))))
      else if fc_revision c =? as_i64 expected_revision then
        (s <| fleet_workloads ::= <[child_id :=
           c <| fc_observed_state := w_observed_state next |>
             <| fc_revision := as_i64 (w_revision next) |>
             <| fc_last_seen := w_last_seen next |>
             <| fc_record_json := json_text (w_record_json next) |>
             <| fc_updated_at := w_updated_at next |>]> |>, Ok (ObservationUpdated next))
      else (s, Ok (ObservationUpdated next))
  end.

(** ** Recovery after a restart *)

Definition is_graph_task (row : TaskRow) : bool :=
  bool_decide (is_Some (metadata ← t_metadata_json row; json_get metadata URI)).

(** The failed row recovery writes for a graph task; [None] is a panic. *)
Definition recovered_row (observed_at : Z) (row : TaskRow) : option TaskRow :=
  metadata ← latest_event (t_metadata_json row)
    (terminal "unknown" (t_created_at row) observed_at
       (json_obj [("status", JStr "unknown");
                  ("reason", JStr "no durable process result survived management restart")])
       (JArr [])
       (Some "management restarted before durable terminal observation"));
  Some (row <| t_state := Task.Failed |>
            <| t_fail_kind := Some Infrastructure |>
            <| t_status_json := json_obj [
                 ("state", JStr (task_state_as_str Task.Failed));
                 ("timestamp", JStr (rfc3339 observed_at));
                 ("summary", JStr "management restarted before durable terminal observation");
                 ("terminal_reason", JStr "management_restart_unknown")] |>
            <| t_metadata_json := metadata |>
            <| t_updated_at := observed_at |>
            <| t_terminal_at := Some observed_at |>).

Fixpoint recover_rows s (observed_at : Z) (rows : list TaskRow) (recovered : Z)
  : TaskStore * result StoreError Z :=
  match rows with
  | [] => (s, Ok recovered)
  | row :: rows' =>
      if is_graph_task row then
        match recovered_row observed_at row with
        | None => (s, Err Panicked)
        | Some row' => recover_rows (upsert_task s row') observed_at rows' (recovered + 1)
        end
      else recover_rows s observed_at rows' recovered
  end.

Definition recover_graph_tasks_after_restart s (observed_at : Z)
  : TaskStore * result StoreError Z :=
  match list_tasks s {| f_state := None; f_limit := None; f_include_terminal := false;
                        f_instance_id := None |} with
  | Err e => (s, Err e)
  | Ok rows => recover_rows s observed_at rows 0
  end.

#[local] Arguments row_to_task : simpl never.
#[local] Arguments row_to_fleet : simpl never.

(** ** Table lemmas *)

Lemma lookup_delete_where {A} (p : string → A → bool) m k c :
  delete_where p m !! k = Some c ↔ m !! k = Some c ∧ p k c = false.
Proof. unfold delete_where. by rewrite map_lookup_filter_Some. Qed.

Lemma lookup_delete_where_None {A} (p : string → A → bool) m k :
  delete_where p m !! k = None ↔ ∀ c, m !! k = Some c → p k c = true.
Proof.
  unfold delete_where. rewrite map_lookup_filter_None. simpl. split.
  - intros [Hk|Hk] c Hc; [congruence|]. specialize (Hk c Hc). by destruct (p k c).
  - intros Hall. destruct (m !! k) as [c|]; [right|by left].
    intros c' [= <-]. by rewrite Hall.
Qed.

Lemma elem_of_where_scan {A} (p : string → A → bool) (m : gmap string A) k c :
  (k, c) ∈ where_ p (scan m) ↔ m !! k = Some c ∧ p k c = true.
Proof.
  unfold where_. rewrite list_elem_of_filter, scan_perm, elem_of_map_to_list. naive_solver.
Qed.

Lemma elem_of_order_by_asc {A} (key : A → Z) rows x : x ∈ order_by_asc key rows ↔ x ∈ rows.
Proof. unfold order_by_asc. by rewrite merge_sort_Permutation. Qed.
Lemma elem_of_order_by_desc {A} (key : A → Z) rows x : x ∈ order_by_desc key rows ↔ x ∈ rows.
Proof. unfold order_by_desc. by rewrite merge_sort_Permutation. Qed.

(** Decoding a whole list succeeds when it does on every element, and the
    result decodes the elements in order. *)
Lemma collect_Forall2 {A B} (decode : A → result StoreError B) rows xs :
  collect decode rows = Ok xs ↔ Forall2 (λ r x, decode r = Ok x) rows xs.
Proof.
  revert xs. induction rows as [|r rows IH]; intros xs; simpl.
  - split; [intros [= <-]; constructor|by inversion 1].
  - rewrite bind_Ok. split.
    + intros (x & Hx & Hr). apply bind_Ok in Hr as (ys & Hys & [= <-]).
      constructor; [done|]. by apply IH.
    + inversion 1; subst. eexists. split; [done|]. rewrite bind_Ok.
      eexists. by rewrite IH.
Qed.

(** ** Foreign keys *)

Record foreign_keys s : Prop := {
  fk_artifact a c : task_artifacts s !! a = Some c → is_Some (tasks s !! ac_task_id c);
  fk_push k c : push_notification_configs s !! k = Some c → is_Some (tasks s !! pc_task_id c);
}.

Lemma existsb_map_false {A} (p : A → bool) (m : gmap string A) :
  existsb (λ kv, p kv.2) (map_to_list m) = false ↔ ∀ k c, m !! k = Some c → p c = false.
Proof.
  rewrite existsb_false. split.
  - intros Hall k c Hk. by apply (Hall (k, c)), elem_of_map_to_list.
  - intros Hall [k c] Hin%elem_of_map_to_list. by apply (Hall k).
Qed.

Lemma dangling_kept p m tid :
  (∀ t, m !! tid = Some t → p tid t = false) → dangling m (delete_where p m) tid = false.
Proof.
  intros Hp. apply bool_decide_eq_false. intros [[t Ht] Hn].
  rewrite lookup_delete_where_None in Hn. specialize (Hn t Ht). rewrite Hp in Hn; done.
Qed.

(** Deleting tasks succeeds when no dependent of them is left. *)
Lemma delete_tasks_ok s p :
  foreign_keys s →
  (∀ a c t, task_artifacts s !! a = Some c → tasks s !! ac_task_id c = Some t →
            p (ac_task_id c) t = false) →
  (∀ k c t, push_notification_configs s !! k = Some c → tasks s !! pc_task_id c = Some t →
            p (pc_task_id c) t = false) →
  ∃ n, delete_tasks s p = Ok (s <| tasks := delete_where p (tasks s) |>, n) ∧
    n = Z.of_nat (size (tasks s)) - Z.of_nat (size (delete_where p (tasks s))).
Proof.
  intros [Hfa Hfp] Ha Hp. eexists. split; [|reflexivity]. unfold delete_tasks.
  rewrite (proj2 (existsb_map_false
    (λ c, dangling (tasks s) (delete_where p (tasks s)) (ac_task_id c)) (task_artifacts s))).
  2: { intros a c Hc. apply dangling_kept. eauto. }
  rewrite (proj2 (existsb_map_false
    (λ c, dangling (tasks s) (delete_where p (tasks s)) (pc_task_id c))
    (push_notification_configs s))); [done|].
  intros k c Hc. apply dangling_kept. eauto.
Qed.

Lemma delete_dependents_artifact s tid a c :
  task_artifacts (delete_dependents s tid) !! a = Some c ↔
  task_artifacts s !! a = Some c ∧ ac_task_id c ≠ tid.
Proof. simpl. by rewrite lookup_delete_where, bool_decide_eq_false. Qed.
Lemma delete_dependents_push s tid k c :
  push_notification_configs (delete_dependents s tid) !! k = Some c ↔
  push_notification_configs s !! k = Some c ∧ pc_task_id c ≠ tid.
Proof. simpl. by rewrite lookup_delete_where, bool_decide_eq_false. Qed.

(** Removing the dependents of several tasks. *)
Lemma foldl_delete_dependents tids s :
  let s' := foldl delete_dependents s tids in
  (∀ a c, task_artifacts s' !! a = Some c ↔
          task_artifacts s !! a = Some c ∧ ac_task_id c ∉ tids) ∧
  (∀ k c, push_notification_configs s' !! k = Some c ↔
          push_notification_configs s !! k = Some c ∧ pc_task_id c ∉ tids) ∧
  tasks s' = tasks s ∧ idempotency_cache s' = idempotency_cache s ∧
  fleet_workloads s' = fleet_workloads s.
Proof.
  revert s. induction tids as [|tid tids IH]; intros s; simpl; [set_solver|].
  destruct (IH (delete_dependents s tid)) as (Ha & Hp & Ht & Hi & Hf).
  split_and!; try done; intros.
  - rewrite Ha, delete_dependents_artifact, not_elem_of_cons. tauto.
  - rewrite Hp, delete_dependents_push, not_elem_of_cons. tauto.
Qed.

Lemma foreign_keys_shrink s s' :
  foreign_keys s → (∀ t, is_Some (tasks s !! t) → is_Some (tasks s' !! t)) →
  (∀ a c, task_artifacts s' !! a = Some c → task_artifacts s !! a = Some c) →
  (∀ k c, push_notification_configs s' !! k = Some c → push_notification_configs s !! k = Some c) →
  foreign_keys s'.
Proof. intros [Ha Hp] Ht Hsa Hsp. constructor; eauto. Qed.

(** What removing the tasks that satisfy [p], dependents first, leaves. *)
Record tasks_removed (p : string → TaskColumns → bool) s s' : Prop := {
  rm_tasks t c : tasks s' !! t = Some c ↔ tasks s !! t = Some c ∧ p t c = false;
  rm_artifacts a c : task_artifacts s' !! a = Some c ↔
    task_artifacts s !! a = Some c ∧ is_Some (tasks s' !! ac_task_id c);
  rm_push k c : push_notification_configs s' !! k = Some c ↔
    push_notification_configs s !! k = Some c ∧ is_Some (tasks s' !! pc_task_id c);
  rm_idem : idempotency_cache s' = idempotency_cache s;
  rm_fleet : fleet_workloads s' = fleet_workloads s;
}.

Lemma kept_task_iff p (m : gmap string TaskColumns) (tids : list string) t :
  (∀ t, t ∈ tids ↔ ∃ c, m !! t = Some c ∧ p t c = true) → is_Some (m !! t) →
  t ∉ tids ↔ is_Some (delete_where p m !! t).
Proof.
  intros Htids [c Hc]. rewrite Htids. split.
  - intros Hno. exists c. apply lookup_delete_where. split; [done|].
    destruct (p t c) eqn:?; [|done]. destruct Hno. eauto.
  - intros [c' Hc'%lookup_delete_where] (c'' & Hc'' & Hp). destruct Hc'. congruence.
Qed.

Lemma delete_with_dependents s p (tids : list string) :
  foreign_keys s →
  (∀ t, t ∈ tids ↔ ∃ c, tasks s !! t = Some c ∧ p t c = true) →
  ∃ s', delete_tasks (foldl delete_dependents s tids) p =
          Ok (s', Z.of_nat (size (tasks s)) - Z.of_nat (size (tasks s'))) ∧
    tasks_removed p s s'.
Proof.
  intros Hfk Htids.
  destruct (foldl_delete_dependents tids s) as (Ha & Hp & Ht & Hi & Hf).
  set (s1 := foldl delete_dependents s tids) in *.
  destruct (delete_tasks_ok s1 p) as (n & Hd & ->).
  - apply (foreign_keys_shrink s); [done| |set_solver..]. by rewrite Ht.
  - intros a c t [Hc Hno]%Ha Hct. rewrite Ht in Hct. destruct (p _ t) eqn:?; [|done].
    destruct Hno. apply Htids. eauto.
  - intros k c t [Hc Hno]%Hp Hct. rewrite Ht in Hct. destruct (p _ t) eqn:?; [|done].
    destruct Hno. apply Htids. eauto.
  - exists (s1 <| tasks := delete_where p (tasks s1) |>).
    rewrite Hd. simpl. rewrite Ht. split; [reflexivity|].
    destruct Hfk as [Hfa Hfp]. constructor; simpl; try done.
    + intros. by rewrite lookup_delete_where.
    + intros a c. rewrite Ha. split; intros [Hc Hk]; (split; [done|]);
        by apply (kept_task_iff p (tasks s) tids); eauto.
    + intros k c. rewrite Hp. split; intros [Hc Hk]; (split; [done|]);
        by apply (kept_task_iff p (tasks s) tids); eauto.
Qed.

Lemma purge_expired_removes now s retention :
  foreign_keys s →
  ∃ s', purge_expired now s retention =
          (s', Ok (Z.of_nat (size (tasks s)) - Z.of_nat (size (tasks s')))) ∧
    tasks_removed (λ _, expired (now - retention)) s s'.
Proof.
  intros Hfk. unfold purge_expired.
  destruct (delete_with_dependents s (λ _, expired (now - retention))
    (where_ (λ _, expired (now - retention)) (scan (tasks s))).*1) as (s' & Hd & Hr); [done| |].
  - intros t. rewrite list_elem_of_fmap. split.
    + intros ([k c] & -> & Hin%elem_of_where_scan). eauto.
    + intros (c & Hc). exists (t, c). split; [done|]. by apply elem_of_where_scan.
  - rewrite Hd. eauto.
Qed.

Lemma delete_task_removes s tid :
  foreign_keys s →
  ∃ s', delete_task s tid = (s', Ok (bool_decide (is_Some (tasks s !! tid)))) ∧
    tasks_removed (λ k _, bool_decide (k = tid)) s s'.
Proof.
  intros Hfk. unfold delete_task.
  destruct (decide (is_Some (tasks s !! tid))) as [[c Hc]|Hn].
  - destruct (delete_with_dependents s (λ k _, bool_decide (k = tid)) [tid])
      as (s' & Hd & Hr); [done| |].
    { intros t. rewrite list_elem_of_singleton. setoid_rewrite bool_decide_eq_true.
      naive_solver. }
    exists s'. simpl in Hd. rewrite Hd. split; [|done]. do 2 f_equal.
    rewrite bool_decide_eq_true_2 by done. apply Z.ltb_lt.
    assert (tasks s' = delete tid (tasks s)) as ->.
    { apply map_eq. intros t. apply option_eq. intros c'.
      rewrite (rm_tasks _ _ _ Hr), bool_decide_eq_false, lookup_delete_Some. naive_solver. }
    rewrite map_size_delete_Some by eauto.
    assert (size (tasks s) ≠ 0%nat) by (apply (map_size_ne_0_lookup_2 _ tid); eauto). lia.
  - destruct (delete_with_dependents s (λ k _, bool_decide (k = tid)) [])
      as (s' & Hd & Hr); [done| |].
    { intros t. setoid_rewrite bool_decide_eq_true. set_solver. }
    assert (delete_dependents s tid = s) as ->.
    { destruct s as [ts arts ps ic fw], Hfk as [Ha Hp]. unfold delete_dependents. simpl in *.
      f_equal; apply map_eq; intros k; apply option_eq; intros c;
        rewrite lookup_delete_where, bool_decide_eq_false; naive_solver. }
    exists s'. simpl in Hd. rewrite Hd. split; [|done]. do 2 f_equal.
    rewrite bool_decide_eq_false_2 by done. apply Z.ltb_ge.
    assert (tasks s' = tasks s) as ->; [|lia].
    apply map_eq. intros t. apply option_eq. intros c'.
    rewrite (rm_tasks _ _ _ Hr), bool_decide_eq_false. naive_solver.
Qed.

(** ** Runs of the store *)

Inductive store_step : TaskStore → TaskStore → Prop :=
| step_upsert s row : store_step s (upsert_task s row)
| step_delete s tid : store_step s (delete_task s tid).1
| step_artifact now s tid aid v : store_step s (append_artifact now s tid aid v).1
| step_push s cfg : store_step s (put_push_config s cfg).1
| step_push_bounded s cfg n : store_step s (put_push_config_bounded s cfg n).1
| step_push_delete s k : store_step s (delete_push_config s k).1
| step_purge now s retention : store_step s (purge_expired now s retention).1
| step_idem_put s e : store_step s (idempotency_put s e)
| step_idem_purge now s : store_step s (idempotency_purge_expired now s).1
| step_idem_evict s n : store_step s (idempotency_evict_oldest s n).1
| step_fleet_dispatch s row :
    0 <= w_revision row <= u64_max → store_step s (fleet_dispatch s row).1
| step_fleet_observe s k r next :
    0 <= w_revision next <= u64_max → store_step s (observe_fleet_workload s k r next).1
| step_recover s t : store_step s (recover_graph_tasks_after_restart s t).1.

Definition store_reachable s : Prop := rtc store_step open_in_memory s.

(** Stored task columns decode, and a terminal state has its [terminal_at]. *)
Definition columns_ok (c : TaskColumns) : Prop :=
  ∃ st k v m, tc_state c = task_state_as_str st ∧ tc_fail_kind c = fail_kind_as_str <$> k ∧
    tc_status_json c = json_text v ∧ tc_metadata_json c = json_text <$> (m : option json) ∧
    (task_is_terminal st = true → is_Some (tc_terminal_at c)).

Record store_inv s : Prop := {
  sinv_fk : foreign_keys s;
  sinv_tasks : map_Forall (λ _, columns_ok) (tasks s);
  sinv_keys k1 k2 c1 c2 :
    fleet_workloads s !! k1 = Some c1 → fleet_workloads s !! k2 = Some c2 →
    fc_idempotency_key c1 = fc_idempotency_key c2 → k1 = k2;
  sinv_records : map_Forall (λ _ c, ∃ v, fc_record_json c = json_text v) (fleet_workloads s);
}.

(** What an upsert or a removal may do to a stored task. *)
Record task_evolves (c c' : TaskColumns) : Prop := {
  te_created : tc_created_at c' = tc_created_at c;
  te_instance i : tc_instance_id c = Some i → tc_instance_id c' = Some i;
  te_terminal t : tc_terminal_at c = Some t → tc_terminal_at c' = Some t;
}.

#[local] Instance task_evolves_refl : Reflexive task_evolves.
Proof. by constructor. Qed.
#[local] Instance task_evolves_trans : Transitive task_evolves.
Proof. intros x y z [] []. constructor; [congruence|auto..]. Qed.

Lemma upsert_evolves s row t c :
  tasks s !! t = Some c → ∃ c', tasks (upsert_task s row) !! t = Some c' ∧ task_evolves c c'.
Proof.
  intros Hc. unfold upsert_task. simpl.
  destruct (decide (t_task_id row = t)) as [<-|Hne].
  - rewrite lookup_insert_eq, Hc. eexists. split; [reflexivity|].
    constructor; simpl; [done|by intros ? ->|by intros ? ->].
  - rewrite lookup_insert_ne by done. eauto using task_evolves_refl.
Qed.

Lemma upsert_inv s row : store_inv s → store_inv (upsert_task s row).
Proof.
  intros [Hfk Ht Hk Hj]. constructor; [|simpl|done..].
  - apply (foreign_keys_shrink s); try done. intros t [c Hc].
    destruct (upsert_evolves s row t c Hc) as (c' & -> & _). done.
  - apply map_Forall_insert_2; [|done].
    exists (t_state row), (t_fail_kind row), (t_status_json row), (t_metadata_json row).
    simpl. split_and!; try done. intros Hterm. unfold upsert_terminal_at.
    rewrite Hterm. repeat case_match; eauto.
Qed.

Definition upsert_only s s' : Prop := ∃ row, s' = upsert_task s row.

Lemma recover_rows_upserts observed_at rows s n :
  rtc upsert_only s (recover_rows s observed_at rows n).1.
Proof.
  revert s n. induction rows as [|row rows IH]; intros s n; simpl; [done|].
  destruct (is_graph_task row); [|apply IH].
  destruct (recovered_row observed_at row) as [row'|]; [|done].
  eapply rtc_l; [by exists row'|apply IH].
Qed.

Lemma recover_upserts s t : rtc upsert_only s (recover_graph_tasks_after_restart s t).1.
Proof.
  unfold recover_graph_tasks_after_restart. case_match; [apply recover_rows_upserts|done].
Qed.

Lemma upserts_inv s s' : rtc upsert_only s s' → store_inv s → store_inv s'.
Proof. induction 1 as [|s1 s2 s3 [row ->] _ IH]; [done|]. intros. by apply IH, upsert_inv. Qed.

Lemma upserts_evolve s s' t c :
  rtc upsert_only s s' → tasks s !! t = Some c →
  ∃ c', tasks s' !! t = Some c' ∧ task_evolves c c'.
Proof.
  intros Hs. revert c. induction Hs as [|s1 s2 s3 [row ->] _ IH]; intros c Hc.
  { eauto using task_evolves_refl. }
  destruct (upsert_evolves s1 row t c Hc) as (c1 & Hc1 & Ev1).
  destruct (IH c1 Hc1) as (c2 & Hc2 & Ev2). exists c2. split; [done|]. by etrans.
Qed.

Lemma tasks_removed_inv p s s' : tasks_removed p s s' → store_inv s → store_inv s'.
Proof.
  intros [Ht Ha Hp Hi Hf] [Hfk Hts Hk Hj]. constructor.
  - constructor; [by intros a c [_ ?]%Ha|by intros k c [_ ?]%Hp].
  - intros t c [Hc _]%Ht. by apply Hts in Hc.
  - by rewrite Hf.
  - by rewrite Hf.
Qed.

Lemma fleet_prior_None s row :
  fleet_prior s row = None →
  ∀ k c, fleet_workloads s !! k = Some c →
    fc_idempotency_key c ≠ w_idempotency_key row ∧ k ≠ w_child_id row.
Proof.
  unfold fleet_prior. intros Hnone k c Hc.
  destruct (where_ _ _) as [|x l] eqn:Hw; [|done].
  assert (¬ ((k, c) ∈ where_ (λ k c, bool_decide (fc_idempotency_key c = w_idempotency_key row)
            || bool_decide (k = w_child_id row)) (scan (fleet_workloads s)))) as Hno.
  { rewrite Hw. apply not_elem_of_nil. }
  rewrite elem_of_where_scan, orb_true_iff, !bool_decide_eq_true in Hno. tauto.
Qed.

Lemma fleet_prior_Some s row k c :
  fleet_prior s row = Some (k, c) →
  fleet_workloads s !! k = Some c ∧
  (fc_idempotency_key c = w_idempotency_key row ∨ k = w_child_id row).
Proof.
  unfold fleet_prior. intros Hh. destruct (where_ _ _) as [|x l] eqn:Hw; simplify_eq/=.
  assert ((k, c) ∈ where_ (λ k c, bool_decide (fc_idempotency_key c = w_idempotency_key row)
            || bool_decide (k = w_child_id row)) (scan (fleet_workloads s))) as Hin.
  { rewrite Hw. left. }
  by rewrite elem_of_where_scan, orb_true_iff, !bool_decide_eq_true in Hin.
Qed.

Lemma fleet_dispatch_inv s row : store_inv s → store_inv (fleet_dispatch s row).1.
Proof.
  intros [Hfk Ht Hk Hj]. unfold fleet_dispatch.
  destruct (fleet_prior s row) eqn:Hp; [by repeat case_match|].
  pose proof (fleet_prior_None s row Hp) as Hno. constructor; simpl; [|done|..].
  - by apply (foreign_keys_shrink s).
  - intros k1 k2 c1 c2. rewrite !lookup_insert_Some. intros [[<- <-]|[? H1]] [[<- <-]|[? H2]];
      simpl; try done.
    + intros Heq. destruct (Hno _ _ H2). congruence.
    + intros Heq. destruct (Hno _ _ H1). congruence.
    + by apply (Hk k1 k2 c1 c2).
  - apply map_Forall_insert_2; [by eexists|done].
Qed.

Lemma observe_fleet_inv s k r next : store_inv s → store_inv (observe_fleet_workload s k r next).1.
Proof.
  intros [Hfk Ht Hk Hj]. unfold observe_fleet_workload.
  destruct (fleet_workloads s !! k) as [c|] eqn:Hc; [|done].
  repeat case_match; try done. constructor; simpl; [by apply (foreign_keys_shrink s)|done|..].
  2: { apply map_Forall_insert_2; [by eexists|done]. }
  intros k1 k2 c1 c2. rewrite !lookup_insert_Some.
  intros [[<- <-]|[? Hc1]] [[<- <-]|[? Hc2]]; simpl; try done; eauto.
Qed.

Lemma push_inv s k c :
  store_inv s → is_Some (tasks s !! pc_task_id c) →
  store_inv (s <| push_notification_configs ::= <[k := c]> |>).
Proof.
  intros [[Hfa Hfp] Ht Hk Hj] Hc. constructor; simpl; [|done..]. constructor; simpl; [done|].
  intros k' c'. rewrite lookup_insert_Some. intros [[_ <-]|[_ ?]]; eauto.
Qed.

Lemma store_inv_frame s s' :
  store_inv s → tasks s' = tasks s → task_artifacts s' = task_artifacts s →
  push_notification_configs s' = push_notification_configs s →
  fleet_workloads s' = fleet_workloads s → store_inv s'.
Proof.
  intros [[] Ht Hk Hj] H1 H2 H3 H4. constructor; [constructor|..]; by rewrite ?H1, ?H2, ?H3, ?H4.
Qed.

Lemma step_store_inv s s' : store_step s s' → store_inv s → store_inv s'.
Proof.
  intros [] Hs; try (by apply (store_inv_frame _ _ Hs)).
  - by apply upsert_inv.
  - destruct (delete_task_removes s0 tid) as (s1 & -> & Hr); [by destruct Hs|].
    by eapply tasks_removed_inv.
  - unfold append_artifact. repeat case_match; try done.
    destruct Hs as [[Hfa Hfp] Ht Hk Hj]. constructor; simpl; [|done..]. constructor; simpl; [|done].
    intros a' c'. rewrite lookup_insert_Some. intros [[_ <-]|[_ ?]]; simpl; eauto.
  - unfold put_push_config. destruct (tasks s0 !! _) eqn:Ht; [|done].
    apply push_inv; [done|]. case_match; simpl; eauto.
  - unfold put_push_config_bounded. repeat case_match; try done;
      apply push_inv; simpl; eauto. destruct Hs as [[_ Hfp] _ _ _]. eauto.
  - destruct Hs as [[Hfa Hfp] Ht Hk Hj]. constructor; simpl; [|done..]. constructor; simpl; [done|].
    intros k' c' [_ ?]%lookup_delete_Some. eauto.
  - destruct (purge_expired_removes now s0 retention) as (s1 & -> & Hr); [by destruct Hs|].
    by eapply tasks_removed_inv.
  - unfold idempotency_evict_oldest. case_match; [done|]. by apply (store_inv_frame _ _ Hs).
  - by apply fleet_dispatch_inv.
  - by apply observe_fleet_inv.
  - eapply upserts_inv; [apply recover_upserts|done].
Qed.

Lemma store_steps_inv s s' : store_inv s → rtc store_step s s' → store_inv s'.
Proof. induction 2; eauto using step_store_inv. Qed.

Lemma store_reachable_inv s : store_reachable s → store_inv s.
Proof. apply store_steps_inv. by constructor; [constructor|apply map_Forall_empty|..|apply map_Forall_empty]. Qed.

(** ** Decoding what was stored *)

Lemma task_state_round_trip st : task_state_from_str (task_state_as_str st) = Ok st.
Proof. by destruct st. Qed.
Lemma fail_kind_round_trip k : fail_kind_from_str (fail_kind_as_str k) = Ok k.
Proof. by destruct k. Qed.
Lemma parse_json_text v : json_text_parses E → parse_json (json_text v) = Ok v.
Proof. intros Hj. unfold parse_json. by rewrite Hj. Qed.
Lemma parse_opt_json_text v : json_text_parses E → parse_opt_json (json_text <$> v) = Ok v.
Proof. intros Hj. destruct v; simpl; [|done]. by rewrite parse_json_text. Qed.

Lemma row_to_task_encoded tid c st k v m :
  json_text_parses E →
  tc_state c = task_state_as_str st → tc_fail_kind c = fail_kind_as_str <$> k →
  tc_status_json c = json_text v → tc_metadata_json c = json_text <$> m →
  row_to_task (tid, c) = Ok {| t_task_id := tid; t_context_id := tc_context_id c;
    t_instance_id := tc_instance_id c; t_state := st; t_fail_kind := k; t_status_json := v;
    t_metadata_json := m; t_created_at := tc_created_at c; t_updated_at := tc_updated_at c;
    t_terminal_at := tc_terminal_at c |}.
Proof.
  intros Hj Hs Hk Hv Hm. unfold row_to_task. rewrite Hs, task_state_round_trip, Hk, Hv, Hm. simpl.
  rewrite parse_json_text, parse_opt_json_text by done.
  destruct k as [k|]; simpl; [|done]. by rewrite fail_kind_round_trip.
Qed.

Lemma columns_ok_decode tid c :
  json_text_parses E → columns_ok c → ∃ row, row_to_task (tid, c) = Ok row.
Proof.
  intros Hj (st & k & v & m & Hs & Hk & Hv & Hm & _). eexists. by eapply row_to_task_encoded.
Qed.

(** The columns a decoded row shows. *)
Lemma row_to_task_columns tid c row :
  row_to_task (tid, c) = Ok row →
  t_task_id row = tid ∧ t_instance_id row = tc_instance_id c ∧
  t_created_at row = tc_created_at c ∧ t_terminal_at row = tc_terminal_at c ∧
  tc_state c = task_state_as_str (t_state row).
Proof.
  unfold row_to_task. intros Hr. apply bind_Ok in Hr as (st & Hst & Hr).
  apply bind_Ok in Hr as (k & _ & Hr). apply bind_Ok in Hr as (v & _ & Hr).
  apply bind_Ok in Hr as (m & _ & [= <-]). simpl. split_and!; try done.
  unfold task_state_from_str in Hst. by repeat case_decide; simplify_eq/=.
Qed.

(** The row an upsert stores. *)
Definition stored_row (existing : option TaskColumns) (row : TaskRow) : TaskRow :=
  row <| t_instance_id := match existing ≫= tc_instance_id with
                          | Some i => Some i | None => t_instance_id row end |>
      <| t_created_at := match existing with
                         | Some c => tc_created_at c | None => t_created_at row end |>
      <| t_terminal_at := upsert_terminal_at (existing ≫= tc_terminal_at) row |>.

Lemma upsert_get s row :
  json_text_parses E →
  get_task (upsert_task s row) (t_task_id row) =
  Ok (Some (stored_row (tasks s !! t_task_id row) row)).
Proof.
  intros Hj. unfold get_task, upsert_task. simpl. rewrite lookup_insert_eq.
  unfold decode_opt. erewrite row_to_task_encoded by done. by destruct row.
Qed.

(** An upsert reads back: [get_task] returns the row written, except
    that an instance id and a creation time already stored are kept and
    [terminal_at] is the stored one, else the supplied one, else the update
    time when the state is terminal. *)
Theorem upsert_reads_back s row :
  json_text_parses E →
  get_task (upsert_task s row) (t_task_id row) = Ok (Some
    (row <| t_instance_id := match tasks s !! t_task_id row ≫= tc_instance_id with
                             | Some i => Some i | None => t_instance_id row end |>
         <| t_created_at := match tasks s !! t_task_id row with
                            | Some c => tc_created_at c | None => t_created_at row end |>
         <| t_terminal_at := match tasks s !! t_task_id row ≫= tc_terminal_at, t_terminal_at row with
                             | Some prior, _ => Some prior
                             | None, Some supplied => Some supplied
                             | None, None => if task_is_terminal (t_state row)
                                             then Some (t_updated_at row) else None
                             end |>)).
Proof. apply upsert_get. Qed.

Lemma step_task_evolves s s' t c :
  store_inv s → store_step s s' → tasks s !! t = Some c →
  (∃ c', tasks s' !! t = Some c' ∧ task_evolves c c') ∨
  (tasks s' !! t = None ∧ (is_Some (tc_terminal_at c) ∨ s' = (delete_task s t).1)).
Proof.
  intros Hinv Hstep Hc.
  assert (tasks s' = tasks s → ∃ c', tasks s' !! t = Some c' ∧ task_evolves c c') as Hsame.
  { intros ->. eauto using task_evolves_refl. }
  destruct Hstep; try (left; by apply Hsame).
  - left. by apply upsert_evolves.
  - destruct (delete_task_removes s tid) as (s1 & Hd & [Hrm _ _ _ _]); [by destruct Hinv|].
    destruct (decide (tid = t)) as [->|Hne].
    + right. split; [|by right]. rewrite Hd. simpl. apply eq_None_not_Some.
      intros [c' Hc']. apply Hrm in Hc' as [_ Hb]. by rewrite bool_decide_eq_true_2 in Hb.
    + left. rewrite Hd. exists c. split; [|done]. apply Hrm. split; [done|].
      by apply bool_decide_eq_false_2.
  - left. apply Hsame. unfold append_artifact. by repeat case_match.
  - left. apply Hsame. unfold put_push_config. by repeat case_match.
  - left. apply Hsame. unfold put_push_config_bounded. by repeat case_match.
  - destruct (purge_expired_removes now s retention) as (s1 & -> & [Hrm _ _ _ _]);
      [by destruct Hinv|].
    destruct (expired (now - retention) c) eqn:He.
    + right. split.
      * apply eq_None_not_Some. intros [c' Hc']. simpl in Hc'. apply Hrm in Hc'. destruct Hc'; simplify_eq; congruence.
      * left. unfold expired in He. case_match; [eauto|done].
    + left. exists c. split; [|done]. by apply Hrm.
  - left. apply Hsame. unfold idempotency_evict_oldest. by case_match.
  - left. apply Hsame. unfold fleet_dispatch. by repeat case_match.
  - left. apply Hsame. unfold observe_fleet_workload. by repeat case_match.
  - left. eapply upserts_evolve; [apply recover_upserts|done].
Qed.

(** C10: Ownership and terminal time are write-once.  Whatever method runs, a
    stored task keeps its creation time, its instance once set and its
    [terminal_at] once set, or it is removed; and it is removed only when it
    is terminal or by [delete_task] of that very task. *)
Theorem task_identity_write_once s s' t c :
  store_reachable s → store_step s s' → tasks s !! t = Some c →
  (∃ c', tasks s' !! t = Some c' ∧ tc_created_at c' = tc_created_at c ∧
     (∀ i, tc_instance_id c = Some i → tc_instance_id c' = Some i) ∧
     (∀ at_, tc_terminal_at c = Some at_ → tc_terminal_at c' = Some at_)) ∨
  (tasks s' !! t = None ∧ (is_Some (tc_terminal_at c) ∨ s' = (delete_task s t).1)).
Proof.
  intros Hs%store_reachable_inv Hstep Hc.
  destruct (step_task_evolves s s' t c Hs Hstep Hc) as [(c' & Hc' & [])|]; [|by right].
  left. exists c'. auto.
Qed.

(** Retention.  On a reachable store [purge_expired] always succeeds,
    removes exactly the tasks whose [terminal_at] is before the cutoff,
    together with exactly the artifacts and callback configs of the removed
    tasks, and returns how many tasks it removed; no other table changes. *)
Theorem purge_removes_exactly_expired now s retention :
  store_reachable s →
  ∃ s', purge_expired now s retention =
          (s', Ok (Z.of_nat (size (tasks s)) - Z.of_nat (size (tasks s')))) ∧
    (∀ t c, tasks s' !! t = Some c ↔
       tasks s !! t = Some c ∧
       (∀ at_, tc_terminal_at c = Some at_ → now - retention <= at_)) ∧
    (∀ a c, task_artifacts s' !! a = Some c ↔
       task_artifacts s !! a = Some c ∧ is_Some (tasks s' !! ac_task_id c)) ∧
    (∀ k c, push_notification_configs s' !! k = Some c ↔
       push_notification_configs s !! k = Some c ∧ is_Some (tasks s' !! pc_task_id c)) ∧
    idempotency_cache s' = idempotency_cache s ∧ fleet_workloads s' = fleet_workloads s.
Proof.
  intros [Hfk _ _ _]%store_reachable_inv.
  destruct (purge_expired_removes now s retention Hfk) as (s' & Hp & [Ht Ha Hk Hi Hf]).
  exists s'. split_and!; try done. intros t c. rewrite Ht. unfold expired.
  destruct (tc_terminal_at c) as [u|]; [rewrite Z.ltb_ge|]; naive_solver.
Qed.

(** No orphans: in every reachable store each artifact and each callback
    config belongs to a stored task, every stored task decodes, and a task
    in a terminal state carries its [terminal_at]. *)
Theorem reachable_store_consistent s :
  json_text_parses E → store_reachable s →
  (∀ a c, task_artifacts s !! a = Some c → is_Some (tasks s !! ac_task_id c)) ∧
  (∀ k c, push_notification_configs s !! k = Some c → is_Some (tasks s !! pc_task_id c)) ∧
  (∀ t, is_Some (tasks s !! t) → ∃ row, get_task s t = Ok (Some row) ∧
     (task_is_terminal (t_state row) = true → is_Some (t_terminal_at row))).
Proof.
  intros Hj [[Hfa Hfp] Ht _ _]%store_reachable_inv. split_and!; [done..|].
  intros t [c Hc]. destruct (Ht _ _ Hc) as (st & k & v & m & Hs & Hk & Hv & Hm & Hterm).
  unfold get_task, decode_opt. rewrite Hc. erewrite row_to_task_encoded by done.
  eexists. split; [reflexivity|done].
Qed.

(** ** Instance scoping *)

Lemma get_task_Some s t row :
  get_task s t = Ok (Some row) ↔ ∃ c, tasks s !! t = Some c ∧ row_to_task (t, c) = Ok row.
Proof.
  unfold get_task, decode_opt. destruct (tasks s !! t) as [c|]; [|naive_solver].
  split.
  - destruct (row_to_task (t, c)) eqn:Hr; intros [= <-]. eauto.
  - intros (? & [= <-] & ->). done.
Qed.

Lemma collect_ok {A B} (decode : A → result StoreError B) rows :
  (∀ r, r ∈ rows → ∃ x, decode r = Ok x) → ∃ xs, collect decode rows = Ok xs.
Proof.
  induction rows as [|r rows IH]; intros Hall; [by exists []|].
  destruct (Hall r) as [x Hx]; [left|]. destruct IH as [xs Hxs]; [intros; apply Hall; by right|].
  exists (x :: xs). simpl. by rewrite Hx, Hxs.
Qed.

Lemma collect_elem {A B} (decode : A → result StoreError B) rows xs x :
  collect decode rows = Ok xs → x ∈ xs ↔ ∃ r, r ∈ rows ∧ decode r = Ok x.
Proof.
  rewrite collect_Forall2. induction 1 as [|r y rows xs Hy _ IH]; [set_solver|].
  rewrite elem_of_cons, IH. setoid_rewrite elem_of_cons. split.
  - intros [->|(r' & ? & ?)]; eauto.
  - intros (r' & [->|?] & Hr'); [left; congruence|eauto].
Qed.

(** The rows of [list_tasks] without a limit. *)
Lemma list_tasks_rows s f :
  json_text_parses E → store_inv s → f_limit f = None →
  ∃ rows, list_tasks s f = Ok rows ∧
    (∀ row, row ∈ rows ↔ ∃ t c, tasks s !! t = Some c ∧ filter_matches f c = true ∧
                               row_to_task (t, c) = Ok row).
Proof.
  intros Hj [_ Ht _ _] Hlim. unfold list_tasks. rewrite Hlim.
  set (sel := order_by_desc _ _).
  assert (∀ t c, (t, c) ∈ sel ↔ tasks s !! t = Some c ∧ filter_matches f c = true) as Hsel.
  { intros t c. unfold sel. by rewrite elem_of_order_by_desc, elem_of_where_scan. }
  destruct (collect_ok row_to_task sel) as [rows Hrows].
  { intros [t c] [Hc _]%Hsel. apply columns_ok_decode; [done|]. by apply Ht in Hc. }
  exists rows. split; [done|]. intros row. rewrite (collect_elem _ _ _ row Hrows). split.
  - intros ([t c] & [Hc Hf]%Hsel & Hr). eauto.
  - intros (t & c & Hc & Hf & Hr). exists (t, c). by rewrite Hsel.
Qed.

Lemma decoded_sorted l rows :
  Sorted (key_le (λ c, - tc_created_at c)) l →
  Forall2 (λ r x, row_to_task r = Ok x) l rows →
  StronglySorted (λ x y, t_created_at y <= t_created_at x) rows.
Proof.
  intros Hs%Sorted_StronglySorted; [|apply _]. revert rows.
  induction Hs as [|[t c] l Hs IH Hhd]; intros rows Hd; inversion Hd as [|? x ? xs Hx Hxs]; subst;
    constructor; [by apply IH|].
  apply row_to_task_columns in Hx as (_ & _ & Hx & _).
  clear -Hhd Hxs Hx. induction Hxs as [|[t' c'] y l ys Hy _ IH]; constructor; inversion Hhd; subst.
  - apply row_to_task_columns in Hy as (_ & _ & Hy & _). unfold key_le in *. simpl in *. lia.
  - by apply IH.
Qed.

(** An instance sees its own tasks and nothing else.  A list scoped to an
    instance returns exactly the stored tasks of that instance, newest first;
    a scoped lookup returns a task exactly when it exists and belongs to the
    instance, and otherwise answers as for an unknown task. *)
Theorem instance_scoping s inst :
  json_text_parses E → store_reachable s →
  (∃ rows, list_tasks s {| f_state := None; f_limit := None; f_include_terminal := true;
                           f_instance_id := Some inst |} = Ok rows ∧
     (∀ row, row ∈ rows ↔
        get_task s (t_task_id row) = Ok (Some row) ∧ t_instance_id row = Some inst) ∧
     StronglySorted (λ x y, t_created_at y <= t_created_at x) rows) ∧
  (∀ t row, get_task_for_instance s inst t = Ok (Some row) ↔
     get_task s t = Ok (Some row) ∧ t_instance_id row = Some inst) ∧
  (∀ t, (∃ row, get_task_for_instance s inst t = Ok (Some row)) ∨
        get_task_for_instance s inst t = Ok None).
Proof.
  intros Hj Hs%store_reachable_inv. split.
  - destruct (list_tasks_rows s {| f_state := None; f_limit := None; f_include_terminal := true;
                           f_instance_id := Some inst |}) as (rows & Hl & Hrows); [done..|].
    exists rows. split_and!; [done| |].
    + intros row. rewrite Hrows, get_task_Some. unfold filter_matches. simpl. split.
      * intros (t & c & Hc & Hi & Hr). apply row_to_task_columns in Hr as Hcol.
        destruct Hcol as (<- & -> & _). reflect_bools. eauto.
      * intros ((c & Hc & Hr) & Hi). exists (t_task_id row), c. split_and!; try done.
        apply bool_decide_eq_true_2. by apply row_to_task_columns in Hr as (_ & <- & _).
    + unfold list_tasks in Hl. simpl in Hl. apply collect_Forall2 in Hl.
      eapply decoded_sorted; [|exact Hl]. apply Sorted_merge_sort, _.
  - assert (∀ t c, tasks s !! t = Some c → ∃ row, row_to_task (t, c) = Ok row) as Hdec.
    { intros t c Hc. apply columns_ok_decode; [done|]. by apply (sinv_tasks _ Hs) in Hc. }
    split; intros t.
    + intros row. rewrite get_task_Some. unfold get_task_for_instance, decode_opt.
      destruct (tasks s !! t) as [c|] eqn:Hc; simpl; [|naive_solver].
      destruct (Hdec _ _ Hc) as [row' Hr].
      destruct (row_to_task_columns _ _ _ Hr) as (_ & Hi & _).
      case_decide; [rewrite Hr|]; simpl; (split; [intros [= <-]; eauto with congruence|]);
        intros ((c' & [= <-] & Hr') & ?); congruence.
    + unfold get_task_for_instance, decode_opt.
      destruct (tasks s !! t) as [c|] eqn:Hc; simpl; [|by right].
      destruct (Hdec _ _ Hc) as [row' Hr]. case_decide; [left|by right].
      rewrite Hr. by exists row'.
Qed.

(** ** Bounded registration *)

Lemma count_push_insert s k c t :
  push_notification_configs s !! k = None →
  count_push_configs (s <| push_notification_configs ::= <[k := c]> |>) t =
  count_push_configs s t + (if decide (pc_task_id c = t) then 1 else 0).
Proof.
  intros Hk. unfold count_push_configs. simpl. rewrite map_filter_insert. simpl.
  case_decide.
  - rewrite map_size_insert_None; [lia|]. apply map_lookup_filter_None. by left.
  - rewrite delete_id by done. lia.
Qed.

Lemma count_push_update s k c c' t :
  push_notification_configs s !! k = Some c → pc_task_id c' = pc_task_id c →
  count_push_configs (s <| push_notification_configs ::= <[k := c']> |>) t =
  count_push_configs s t.
Proof.
  intros Hk Heq. unfold count_push_configs. simpl. rewrite map_filter_insert. simpl.
  rewrite Heq. case_decide as Hd.
  - rewrite map_size_insert_Some; [done|]. exists c. by apply map_lookup_filter_Some.
  - rewrite map_filter_delete_not; [done|]. intros y Hy. simplify_eq/=. congruence.
Qed.

(** The registration limit holds.  A bounded write keeps every task within
    its limit if it was (and never adds to another task); it creates a config
    only below the limit, an update keeps the owner, and a conflict, a reached
    limit or an error changes nothing. *)
Theorem push_configs_bounded s cfg limit s' r :
  0 <= limit <= i64_max → put_push_config_bounded s cfg limit = (s', r) →
  (∀ t, count_push_configs s t <= limit → count_push_configs s' t <= limit) ∧
  (∀ t, t ≠ p_task_id cfg → count_push_configs s' t = count_push_configs s t) ∧
  (∀ k c, push_notification_configs s !! k = Some c →
     ∃ c', push_notification_configs s' !! k = Some c' ∧ pc_task_id c' = pc_task_id c) ∧
  (r = Ok Created → count_push_configs s' (p_task_id cfg) =
                    count_push_configs s (p_task_id cfg) + 1) ∧
  (r ≠ Ok Created → r ≠ Ok Updated → s' = s).
Proof.
  intros Hlim. unfold put_push_config_bounded, as_i64.
  rewrite (proj2 (Z.ltb_ge i64_max limit)) by lia. intros Hp.
  destruct (push_notification_configs s !! p_config_id cfg) as [c|] eqn:Hc.
  - destruct (decide (pc_task_id c ≠ p_task_id cfg)); simplify_eq.
    { split_and!; try done. eauto. }
    split_and!; try done; try (intros t; by rewrite (count_push_update _ _ c)).
    intros k c0 Hk. simpl. destruct (decide (p_config_id cfg = k)) as [<-|].
    + rewrite lookup_insert_eq. eexists. split; [done|]. simpl. congruence.
    + rewrite lookup_insert_ne by done. eauto.
  - destruct (limit <=? _) eqn:Hb; simplify_eq; reflect_bools.
    { split_and!; try done. eauto. }
    destruct (tasks s !! p_task_id cfg) as [tc|]; simplify_eq; [|split_and!; try done; eauto].
    split_and!; try done.
    + intros t. rewrite count_push_insert by done. simpl. case_decide; subst; lia.
    + intros t Hne. rewrite count_push_insert by done. simpl. rewrite decide_False by done. lia.
    + intros k c0 Hk. simpl. rewrite lookup_insert_ne by congruence. eauto.
    + intros _. rewrite count_push_insert by done. simpl. by rewrite decide_True.
Qed.

(** ** Fleet workloads *)

Lemma as_u64_i64 n : 0 <= n <= u64_max → as_u64 (as_i64 n) = n.
Proof.
  unfold as_u64, as_i64, i64_max, u64_max. intros.
  destruct (_ <? n) eqn:Hn; reflect_bools; destruct (_ <? 0) eqn:Hm; reflect_bools; lia.
Qed.

Record fleet_evolves (c c' : FleetColumns) : Prop := {
  fe_key : fc_idempotency_key c' = fc_idempotency_key c;
  fe_hash : fc_request_hash c' = fc_request_hash c;
  fe_target : fc_target_id c' = fc_target_id c;
  fe_executor : fc_executor_id c' = fc_executor_id c;
  fe_revision : c' = c ∨ as_u64 (fc_revision c) < as_u64 (fc_revision c');
}.

#[local] Instance fleet_evolves_refl : Reflexive fleet_evolves.
Proof. constructor; auto. Qed.
#[local] Instance fleet_evolves_trans : Transitive fleet_evolves.
Proof.
  intros x y z [] []. constructor; [congruence..|].
  destruct fe_revision0 as [->|]; [done|]. destruct fe_revision1 as [->|]; right; lia.
Qed.

Lemma observe_fleet_evolves s k r next k0 c :
  0 <= w_revision next <= u64_max → fleet_workloads s !! k0 = Some c →
  ∃ c', fleet_workloads (observe_fleet_workload s k r next).1 !! k0 = Some c' ∧ fleet_evolves c c'.
Proof.
  intros Hn Hc. unfold observe_fleet_workload.
  destruct (fleet_workloads s !! k) as [c0|] eqn:Hk; [|by exists c].
  destruct (_ || _) eqn:Hb; [by exists c|]. reflect_bools.
  destruct (_ =? as_i64 _); [|by exists c]. simpl.
  destruct (decide (k = k0)) as [->|Hne]; [|exists c; by rewrite lookup_insert_ne].
  rewrite lookup_insert_eq. simplify_eq. eexists. split; [done|]. constructor; simpl; try done.
  right. rewrite as_u64_i64 by done. lia.
Qed.

Lemma step_fleet_evolves s s' k c :
  store_inv s → store_step s s' → fleet_workloads s !! k = Some c →
  ∃ c', fleet_workloads s' !! k = Some c' ∧ fleet_evolves c c'.
Proof.
  intros Hinv Hstep Hc.
  assert (fleet_workloads s' = fleet_workloads s →
    ∃ c', fleet_workloads s' !! k = Some c' ∧ fleet_evolves c c') as Hsame.
  { intros ->. by exists c. }
  destruct Hstep; try (by apply Hsame).
  - destruct (delete_task_removes s tid) as (s1 & Hd & Hr); [by destruct Hinv|].
    rewrite Hd in *. apply Hsame. by destruct Hr.
  - apply Hsame. unfold append_artifact. by repeat case_match.
  - apply Hsame. unfold put_push_config. by repeat case_match.
  - apply Hsame. unfold put_push_config_bounded. by repeat case_match.
  - destruct (purge_expired_removes now s retention) as (s1 & Hd & Hr); [by destruct Hinv|].
    rewrite Hd in *. apply Hsame. by destruct Hr.
  - apply Hsame. unfold idempotency_evict_oldest. by case_match.
  - unfold fleet_dispatch. destruct (fleet_prior s row) eqn:Hp; [repeat case_match; by exists c|].
    destruct (fleet_prior_None s row Hp k c Hc). exists c. simpl. by rewrite lookup_insert_ne.
  - by apply observe_fleet_evolves.
  - apply Hsame. pose proof (recover_upserts s t) as Hu.
    clear -Hu. induction Hu as [|s1 s2 s3 [row ->] _ IH]; [done|]. by rewrite IH.
Qed.

Lemma steps_fleet_evolve s s' k c :
  store_inv s → rtc store_step s s' → fleet_workloads s !! k = Some c →
  ∃ c', fleet_workloads s' !! k = Some c' ∧ fleet_evolves c c'.
Proof.
  intros Hinv Hs. revert c Hinv. induction Hs as [s|s s1 s2 Hstep _ IH]; intros c Hinv Hc.
  { by exists c. }
  destruct (step_fleet_evolves s s1 k c Hinv Hstep Hc) as (c1 & Hc1 & Ev1).
  destruct (IH c1) as (c2 & Hc2 & Ev2); [by eapply step_store_inv|done|].
  exists c2. split; [done|]. by etrans.
Qed.

(** The only row a dispatch of a known key can find. *)
Lemma fleet_prior_known s row k c :
  store_inv s → fleet_workloads s !! k = Some c →
  fc_idempotency_key c = w_idempotency_key row →
  (w_child_id row = k ∨ fleet_workloads s !! w_child_id row = None) →
  fleet_prior s row = Some (k, c).
Proof.
  intros Hinv Hc Hkey Hchild. destruct (fleet_prior s row) as [[k' c']|] eqn:Hp.
  - apply fleet_prior_Some in Hp as [Hc' Hm].
    assert (k' = k) as ->; [|congruence].
    destruct Hm as [Hm|Hm]; [|naive_solver].
    eapply (sinv_keys _ Hinv); [done..|congruence].
  - destruct (fleet_prior_None s row Hp k c Hc). done.
Qed.

(** A workload is dispatched once.  After a dispatch was admitted, in any
    later store a dispatch with its idempotency key inserts nothing: an equal
    request is answered by the stored workload (as long as its revision is
    readable), a different one is a collision. *)
Theorem fleet_dispatched_once s row s1 s2 row' :
  json_text_parses E → store_reachable s → fleet_dispatch s row = (s1, Ok (Inserted row)) →
  rtc store_step s1 s2 →
  w_idempotency_key row' = w_idempotency_key row →
  w_child_id row' = w_child_id row ∨ fleet_workloads s2 !! w_child_id row' = None →
  ∃ c, fleet_workloads s2 !! w_child_id row = Some c ∧
    (0 <= fc_revision c →
       (w_request_hash row' = w_request_hash row →
          ∃ prior, fleet_dispatch s2 row' = (s2, Ok (DispatchReplay prior)) ∧
            w_child_id prior = w_child_id row ∧ w_target_id prior = w_target_id row) ∧
       (w_request_hash row' ≠ w_request_hash row →
          fleet_dispatch s2 row' = (s2, Ok DispatchCollision))).
Proof.
  intros Hj Hs%store_reachable_inv Hd Hsteps Hkey Hchild.
  pose proof (fleet_dispatch_inv s row Hs) as Hs1. rewrite Hd in Hs1. simpl in Hs1.
  assert (fleet_workloads s1 !! w_child_id row = Some (fleet_columns row)) as Hc1.
  { unfold fleet_dispatch in Hd. repeat case_match; simplify_eq/=. apply lookup_insert_eq. }
  destruct (steps_fleet_evolve s1 s2 _ _ Hs1 Hsteps Hc1) as (c & Hc & [Hk Hh Ht _ _]).
  assert (store_inv s2) as Hs2 by (by eapply store_steps_inv).
  simpl in Hk, Hh, Ht. exists c. split; [done|]. intros Hrev.
  assert (fleet_prior s2 row' = Some (w_child_id row, c)) as Hp.
  { apply fleet_prior_known; [done..|congruence|naive_solver]. }
  destruct (sinv_records _ Hs2 _ _ Hc) as [v Hv]. unfold fleet_dispatch. rewrite Hp.
  unfold row_to_fleet. rewrite (proj2 (Z.ltb_ge _ _)) by lia. rewrite Hv, parse_json_text by done.
  simpl. rewrite (bool_decide_eq_true_2 (fc_idempotency_key c = _)) by congruence. simpl.
  split; intros Hhash.
  - rewrite bool_decide_eq_true_2 by congruence. eexists. split; [reflexivity|]. by simpl.
  - by rewrite bool_decide_eq_false_2 by congruence.
Qed.

(** Revisions only advance.  In any run a stored workload keeps its key,
    request hash and target, and is either untouched or at a strictly larger
    revision: a stale or replayed observation never overwrites a newer one. *)
Theorem fleet_revisions_advance s s' k c :
  store_reachable s → rtc store_step s s' → fleet_workloads s !! k = Some c →
  ∃ c', fleet_workloads s' !! k = Some c' ∧
    fc_idempotency_key c' = fc_idempotency_key c ∧ fc_request_hash c' = fc_request_hash c ∧
    fc_target_id c' = fc_target_id c ∧
    (c' = c ∨ as_u64 (fc_revision c) < as_u64 (fc_revision c')).
Proof.
  intros Hs%store_reachable_inv Hsteps Hc.
  destruct (steps_fleet_evolve s s' k c Hs Hsteps Hc) as (c' & Hc' & []). eauto 10.
Qed.

(** ** Recovery *)

Lemma upsert_lookup_local s1 s2 row :
  tasks s1 !! t_task_id row = tasks s2 !! t_task_id row →
  tasks (upsert_task s1 row) !! t_task_id row = tasks (upsert_task s2 row) !! t_task_id row.
Proof. intros Heq. unfold upsert_task. simpl. by rewrite !lookup_insert_eq, Heq. Qed.

Lemma upsert_lookup_other s row t :
  t_task_id row ≠ t → tasks (upsert_task s row) !! t = tasks s !! t.
Proof. intros. unfold upsert_task. simpl. by rewrite lookup_insert_ne. Qed.

(** A graph task whose graph is an object, as request validation ensures. *)
Definition graph_is_object (row : TaskRow) : Prop :=
  ∃ g, (metadata ← t_metadata_json row; json_get metadata URI) = Some (JObj g).

Lemma recovered_row_some observed_at row :
  graph_is_object row →
  ∃ row', recovered_row observed_at row = Some row' ∧ t_task_id row' = t_task_id row ∧
    t_state row' = Task.Failed ∧ t_fail_kind row' = Some Infrastructure ∧
    t_terminal_at row' = Some observed_at.
Proof.
  intros [g Hg]. unfold recovered_row.
  destruct (t_metadata_json row) as [[]|]; simplify_eq/=. rewrite Hg. simpl. eauto 10.
Qed.

Lemma recover_rows_spec observed_at rows s n :
  NoDup (t_task_id <$> rows) →
  (∀ row, row ∈ rows → is_graph_task row = true → graph_is_object row) →
  ∃ s' n', recover_rows s observed_at rows n = (s', Ok n') ∧
    (∀ t, (∀ row, row ∈ rows → is_graph_task row = true → t_task_id row ≠ t) →
          tasks s' !! t = tasks s !! t) ∧
    (∀ row, row ∈ rows → is_graph_task row = true →
       ∃ row', recovered_row observed_at row = Some row' ∧
         tasks s' !! t_task_id row = tasks (upsert_task s row') !! t_task_id row).
Proof.
  revert s n. induction rows as [|r rows IH]; intros s n Hnd Hobj; simpl.
  { exists s, n. set_solver. }
  apply NoDup_cons in Hnd as [Hnew Hnd].
  destruct (is_graph_task r) eqn:Hg.
  - destruct (recovered_row_some observed_at r) as (r' & Hr' & Hid & _); [set_solver|].
    rewrite Hr'. destruct (IH (upsert_task s r') (n + 1)) as (s' & n' & -> & Hother & Hin);
      [done|set_solver|].
    exists s', n'. split_and!; [done| |].
    + intros t Hno. rewrite Hother by set_solver. apply upsert_lookup_other.
      rewrite Hid. set_solver.
    + intros row [->|Hrow]%elem_of_cons Hgr.
      * exists r'. split; [done|]. rewrite <-Hid. apply Hother. intros row Hrow _ Heq.
        apply Hnew. rewrite <-Hid, <-Heq. by apply list_elem_of_fmap_2.
      * destruct (Hin row Hrow Hgr) as (row' & Hrow' & ->). exists row'. split; [done|].
        destruct (recovered_row_some observed_at row) as (row'' & Hrow'' & Hid' & _);
          [set_solver|]. simplify_eq. rewrite <-Hid'. apply upsert_lookup_local.
        apply upsert_lookup_other. rewrite Hid, Hid'. intros Heq. apply Hnew.
        rewrite Heq. by apply list_elem_of_fmap_2.
  - destruct (IH s n) as (s' & n' & -> & Hother & Hin); [done|set_solver|].
    exists s', n'. split_and!; [done| |].
    + intros t Hno. apply Hother. set_solver.
    + intros row [->|Hrow]%elem_of_cons Hgr; [congruence|]. by apply Hin.
Qed.

Lemma decoded_ids l rows :
  Forall2 (λ r x, row_to_task r = Ok x) l rows → t_task_id <$> rows = l.*1.
Proof.
  induction 1 as [|[t c] x l rows Hx _ IH]; [done|]. csimpl. rewrite IH.
  by apply row_to_task_columns in Hx as [-> _].
Qed.

Lemma list_tasks_ids s f rows :
  f_limit f = None → list_tasks s f = Ok rows → NoDup (t_task_id <$> rows).
Proof.
  intros Hlim Hl. unfold list_tasks in Hl. rewrite Hlim in Hl. apply collect_Forall2 in Hl.
  rewrite (decoded_ids _ _ Hl). unfold order_by_desc. rewrite merge_sort_Permutation.
  unfold where_. apply NoDup_fmap_filter.
  rewrite scan_perm. apply NoDup_fst_map_to_list.
Qed.

Lemma recovered_get s s' observed_at row row' :
  json_text_parses E → get_task s (t_task_id row) = Ok (Some row) → t_terminal_at row = None →
  graph_is_object row → recovered_row observed_at row = Some row' →
  tasks s' !! t_task_id row = tasks (upsert_task s row') !! t_task_id row →
  ∃ row2, get_task s' (t_task_id row) = Ok (Some row2) ∧ t_state row2 = Task.Failed ∧
    t_fail_kind row2 = Some Infrastructure ∧ t_terminal_at row2 = Some observed_at ∧
    t_instance_id row2 = t_instance_id row ∧ t_created_at row2 = t_created_at row.
Proof.
  intros Hj Hget Hterm Hobj Hrow' Heq.
  destruct (recovered_row_some observed_at row Hobj) as (r & Hr & Hid & Hst & Hk & Hat).
  simplify_eq. apply get_task_Some in Hget as (c & Hc & Hdec).
  destruct (row_to_task_columns _ _ _ Hdec) as (_ & Hi & Hcr & Hte & _).
  exists (stored_row (Some c) row'). split.
  - unfold get_task. rewrite Heq, <-Hid. etrans; [apply (upsert_get s row' Hj)|].
    by rewrite Hid, Hc.
  - unfold stored_row, upsert_terminal_at. simpl. rewrite <-Hte, Hterm, Hat, <-Hi, <-Hcr.
    split_and!; try done. unfold recovered_row in Hrow'.
    destruct (latest_event _ _); simplify_eq/=. by destruct (t_instance_id row).
Qed.

(** Recovery after a restart fails closed and touches nothing else.  On a
    reachable store whose open graph tasks carry an object as graph (what
    request validation admits), recovery succeeds; every open graph task
    becomes a failed task with infrastructure fault and the observation time
    as [terminal_at], keeping its instance and creation time; every other
    task is unchanged. *)
Theorem recovery_fails_open_graph_tasks s observed_at :
  json_text_parses E → store_reachable s →
  (∀ t row, get_task s t = Ok (Some row) → t_terminal_at row = None →
     is_graph_task row = true → graph_is_object row) →
  ∃ s' n, recover_graph_tasks_after_restart s observed_at = (s', Ok n) ∧
    ∀ t row, get_task s t = Ok (Some row) →
      (t_terminal_at row = None → is_graph_task row = true →
         ∃ row', get_task s' t = Ok (Some row') ∧ t_state row' = Task.Failed ∧
           t_fail_kind row' = Some Infrastructure ∧ t_terminal_at row' = Some observed_at ∧
           t_instance_id row' = t_instance_id row ∧ t_created_at row' = t_created_at row) ∧
      (is_Some (t_terminal_at row) ∨ is_graph_task row = false →
         get_task s' t = Ok (Some row)).
Proof.
  intros Hj Hs%store_reachable_inv Hobj. unfold recover_graph_tasks_after_restart.
  set (f := {| f_state := None |}).
  destruct (list_tasks_rows s f Hj Hs eq_refl) as (rows & Hl & Hrows).
  rewrite Hl. pose proof (list_tasks_ids s f rows eq_refl Hl) as Hnd.
  assert (∀ row, row ∈ rows ↔
    get_task s (t_task_id row) = Ok (Some row) ∧ t_terminal_at row = None) as Hin.
  { intros row. rewrite Hrows, get_task_Some. unfold filter_matches. simpl.
    setoid_rewrite andb_true_r. setoid_rewrite bool_decide_eq_true. split.
    - intros (t & c & Hc & Ht & Hr). destruct (row_to_task_columns _ _ _ Hr) as (-> & _ & _ & -> & _).
      eauto.
    - intros ((c & Hc & Hr) & Ht). exists (t_task_id row), c. split_and!; try done.
      by destruct (row_to_task_columns _ _ _ Hr) as (_ & _ & _ & <- & _). }
  destruct (recover_rows_spec observed_at rows s 0 Hnd) as (s' & n & Hrec & Hother & Hgraph).
  { intros row [Hget Hterm]%Hin. by apply (Hobj (t_task_id row)). }
  exists s', n. split; [done|]. intros t row Hget.
  assert (t_task_id row = t) as <-.
  { apply get_task_Some in Hget as (c & _ & Hr). by apply row_to_task_columns in Hr as [-> _]. }
  split.
  - intros Hterm Hg. destruct (Hgraph row) as (row' & Hrow' & Heq); [by apply Hin|done|].
    eapply recovered_get; eauto.
  - intros Hno. unfold get_task. rewrite Hother; [done|].
    intros row0 [Hget0 Hterm0]%Hin Hg0 Heq. rewrite Heq in Hget0. simplify_eq.
    destruct Hno as [[? ?]|]; congruence.
Qed.
End store.

(** ** A sample run

    An open graph task [t-1] of instance [i-1] with an artifact, a finished
    task [t-2], and a fleet workload [w-1]. *)

Definition sample_graph : json := JObj [(URI, JObj [("graph_id", JStr "g")])].

Definition sample_task (id : string) (st : TaskState) (at_ : Z) (m : option json) : TaskRow :=
  {| t_task_id := id; t_context_id := None; t_instance_id := Some "i-1"; t_state := st;
     t_fail_kind := None; t_status_json := JNull; t_metadata_json := m;
     t_created_at := at_; t_updated_at := at_; t_terminal_at := None |}.

Definition sample_workload (rev : Z) (hash : string) : FleetWorkloadRow :=
  {| w_child_id := "w-1"; w_idempotency_key := "key"; w_request_hash := hash;
     w_target_id := "target"; w_executor_id := "exec"; w_workload_kind := "task";
     w_observed_state := "admitted"; w_revision := rev; w_last_seen := 1;
     w_record_json := JNull; w_created_at := 1; w_updated_at := 1 |}.

Definition sample_push (config_id : string) : PushNotificationConfigRow :=
  {| p_config_id := config_id; p_task_id := "t-1"; p_url := "https://callback"; p_auth_json := None;
     p_created_at := 4 |}.

Definition task_1 : TaskRow := sample_task "t-1" Task.Working 10 (Some sample_graph).
Definition task_2 : TaskRow := sample_task "t-2" Task.Completed 20 None.

Definition store_1 : TaskStore := @upsert_task sample_env open_in_memory task_1.
Definition store_2 : TaskStore := @upsert_task sample_env store_1 task_2.
Definition store_3 : TaskStore := (@append_artifact sample_env 30 store_2 "t-2" "a-1" JNull).1.
Definition store_4 : TaskStore :=
  (@fleet_dispatch sample_env sample_scan store_3 (sample_workload 1 "hash")).1.
Definition store_5 : TaskStore :=
  (@observe_fleet_workload sample_env store_4 "w-1" 1 (sample_workload 2 "hash")).1.

Lemma store_3_reachable : @store_reachable sample_env sample_scan store_3.
Proof.
  eapply rtc_l; [apply (@step_upsert sample_env sample_scan _ task_1)|].
  eapply rtc_l; [apply (@step_upsert sample_env sample_scan _ task_2)|].
  apply rtc_once, (@step_artifact sample_env sample_scan).
Qed.

Lemma store_4_reachable : @store_reachable sample_env sample_scan store_4.
Proof.
  eapply rtc_r; [apply store_3_reachable|].
  apply (@step_fleet_dispatch sample_env sample_scan). by vm_compute.
Qed.

Lemma store_4_step : @store_step sample_env sample_scan store_4 store_5.
Proof. apply (@step_fleet_observe sample_env sample_scan). by vm_compute. Qed.

Definition sample_columns (s : TaskStore) (t : string) : TaskColumns :=
  default (Build_TaskColumns None None "x" None "x" None 0 0 None) (tasks s !! t).

Lemma upsert_reads_back_witness :
  ∃ row, @get_task sample_env store_2 "t-2" = Ok (Some row) ∧ t_terminal_at row = Some 20.
Proof.
  eexists. split.
  - apply (@upsert_reads_back sample_env store_1 task_2). apply sample_env_text_parses.
  - reflexivity.
Defined.

Lemma task_identity_write_once_witness :
  (∃ c', tasks (@upsert_task sample_env store_4 task_2) !! "t-2" = Some c' ∧
     tc_created_at c' = tc_created_at (sample_columns store_4 "t-2") ∧
     (∀ i, tc_instance_id (sample_columns store_4 "t-2") = Some i → tc_instance_id c' = Some i) ∧
     (∀ at_, tc_terminal_at (sample_columns store_4 "t-2") = Some at_ →
             tc_terminal_at c' = Some at_)) ∨
  (tasks (@upsert_task sample_env store_4 task_2) !! "t-2" = None ∧
   (is_Some (tc_terminal_at (sample_columns store_4 "t-2")) ∨
    @upsert_task sample_env store_4 task_2 = (delete_task store_4 "t-2").1)).
Proof.
  apply (@task_identity_write_once sample_env sample_scan store_4
           (@upsert_task sample_env store_4 task_2)).
  - apply store_4_reachable.
  - apply (@step_upsert sample_env sample_scan store_4 task_2).
  - vm_compute. reflexivity.
Defined.

Lemma purge_removes_exactly_expired_witness :
  ∃ s', @purge_expired sample_scan 100 store_4 50 = (s', Ok (2 - Z.of_nat (size (tasks s')))).
Proof.
  destruct (@purge_removes_exactly_expired sample_env sample_scan 100 store_4 50)
    as (s' & Hp & _); [apply store_4_reachable|].
  exists s'. exact Hp.
Defined.

Lemma reachable_store_consistent_witness : is_Some (tasks store_4 !! "t-2").
Proof.
  apply (@reachable_store_consistent sample_env sample_scan store_4) with
    (a := "a-1")
    (c := {| ac_task_id := "t-2"; ac_artifact_json := @json_text sample_env JNull;
             ac_created_at := 30 |}).
  - apply sample_env_text_parses.
  - apply store_4_reachable.
  - vm_compute. reflexivity.
Defined.

Lemma instance_scoping_witness :
  (∃ row, @get_task_for_instance sample_env store_4 "i-2" "t-1" = Ok (Some row)) ∨
  @get_task_for_instance sample_env store_4 "i-2" "t-1" = Ok None.
Proof.
  apply (@instance_scoping sample_env sample_scan store_4 "i-2").
  - apply sample_env_text_parses.
  - apply store_4_reachable.
Defined.

Lemma push_configs_bounded_witness :
  count_push_configs (@put_push_config_bounded sample_env store_4 (sample_push "p-1") 1).1 "t-1" <= 1.
Proof.
  apply (@push_configs_bounded sample_env store_4 (sample_push "p-1") 1
    (@put_push_config_bounded sample_env store_4 (sample_push "p-1") 1).1
    (@put_push_config_bounded sample_env store_4 (sample_push "p-1") 1).2).
  - vm_compute. split; discriminate.
  - reflexivity.
  - vm_compute. discriminate.
Defined.

Lemma fleet_dispatched_once_witness :
  @fleet_dispatch sample_env sample_scan store_5 (sample_workload 1 "other") =
  (store_5, Ok DispatchCollision).
Proof.
  destruct (@fleet_dispatched_once sample_env sample_scan store_3 (sample_workload 1 "hash")
    store_4 store_5 (sample_workload 1 "other")) as (c & Hc & Hd).
  - apply sample_env_text_parses.
  - apply store_3_reachable.
  - vm_compute. reflexivity.
  - apply rtc_once, store_4_step.
  - reflexivity.
  - left. reflexivity.
  - apply Hd; [|discriminate]. vm_compute in Hc. injection Hc as <-. discriminate.
Defined.

Lemma fleet_revisions_advance_witness :
  ∃ c, fleet_workloads store_5 !! "w-1" = Some c ∧ fc_request_hash c = "hash".
Proof.
  destruct (@fleet_revisions_advance sample_env sample_scan store_4 store_5 "w-1"
    (@fleet_columns sample_env (sample_workload 1 "hash"))) as (c & Hc & _ & Hh & _).
  - apply store_4_reachable.
  - apply rtc_once, store_4_step.
  - vm_compute. reflexivity.
  - exists c. split; [exact Hc|exact Hh].
Defined.

Lemma recovery_fails_open_graph_tasks_witness :
  ∃ s' n, @recover_graph_tasks_after_restart sample_env sample_scan store_4 99 = (s', Ok n).
Proof.
  destruct (@recovery_fails_open_graph_tasks sample_env sample_scan store_4 99)
    as (s' & n & Hr & _).
  - apply sample_env_text_parses.
  - apply store_4_reachable.
  - intros t row Hget Hterm Hg.
    destruct (decide (t = "t-1")) as [->|H1].
    { vm_compute in Hget. injection Hget as <-. exists [("graph_id", JStr "g")]. reflexivity. }
    destruct (decide (t = "t-2")) as [->|H2].
    { vm_compute in Hget. injection Hget as <-. discriminate Hterm. }
    unfold get_task in Hget. replace (tasks store_4 !! t) with (@None TaskColumns) in Hget;
      [discriminate Hget|].
    symmetry. transitivity (tasks store_2 !! t); [reflexivity|].
    unfold store_2, store_1, upsert_task. simpl. rewrite !lookup_insert_ne by congruence. apply lookup_empty.
  - exists s', n. exact Hr.
Defined.

(** The revision column is a signed integer: an observation that carries
    a revision of 2^63 is accepted and reported as updated, but the row can
    then no longer be decoded, and the inventory of all workloads fails. *)
Theorem oversized_revision_breaks_inventory :
  let next := sample_workload (i64_max + 1) "hash" in
  let s' := (@observe_fleet_workload sample_env store_4 "w-1" 1 next).1 in
  (@observe_fleet_workload sample_env store_4 "w-1" 1 next).2 = Ok (ObservationUpdated next) ∧
  is_ok (@list_fleet_workloads sample_env sample_scan store_4) = true ∧
  @list_fleet_workloads sample_env sample_scan s' = Err NegativeRevision ∧
  @get_fleet_workload sample_env s' "w-1" = Err NegativeRevision.
Proof. by vm_compute. Qed.
