(* ===== verification/Idempotency.v ===== *)
(** * The idempotency cache of the executor

    Models management/agentic-sandbox-executor/src/store/idempotency.rs and
    the pre-request hook of src/extensions/idempotency.rs.  The cache is
    written against what it needs of a store: [IdempotencyStore] lists the
    operations, [idempotency_store_laws] what they promise.  The theorems on
    the cache use only those laws; [task_store_laws] proves them of the
    SQLite task store (file TaskStore).  [Utc::now()] is an argument of each
    operation; a method reads it once. *)

From S2P Require Import Prelude Json FlowGraph TaskStore.

Local Open Scope string_scope.
Local Open Scope list_scope.
Local Open Scope Z_scope.

(** ** What the cache needs of a store *)

Class IdempotencyStore (S : Type) : Type := {
  store_get : S → string → result StoreError (option IdempotencyEntry);
  store_put : S → IdempotencyEntry → S;
  store_purge : Z → S → S * Z;
  store_count : S → Z;
  store_evict : S → Z → S * Z;
}.

(** The entry [e] is kept under its message id, up to its creation time. *)
Definition same_entry (e e' : IdempotencyEntry) : Prop :=
  e' = e <| i_created_at := i_created_at e' |>.

Record idempotency_store_laws (S : Type) `{IdempotencyStore S} : Prop := {
  get_put s e :
    0 <= i_response_status e <= u16_max →
    ∃ e', store_get (store_put s e) (i_message_id e) = Ok (Some e') ∧ same_entry e e';
  get_put_other s e k :
    k ≠ i_message_id e → store_get (store_put s e) k = store_get s k;
  get_purge now s k e :
    store_get s k = Ok (Some e) → now <= i_expires_at e →
    store_get (store_purge now s).1 k = Ok (Some e);
  count_nonneg s : 0 <= store_count s;
  count_evict s n :
    0 <= n <= i64_max →
    store_count (store_evict s n).1 = Z.max 0 (store_count s - n) ∧
    (store_evict s n).2 = store_count s - store_count (store_evict s n).1;
  get_evict s n k e :
    store_get (store_evict s n).1 k = Ok (Some e) → store_get s k = Ok (Some e);
}.

(** ** The cache *)

Definition DEFAULT_TTL_SECONDS : Z := 86400.
Definition DEFAULT_MAX_ENTRIES : Z := 100000.

Inductive IdempotencyOutcome : Type :=
| Fresh
| CacheReplay (status : Z) (body : json)
| CacheCollision.

Inductive CacheError : Type :=
| JcsFailed (msg : string)
| StoreFailed (e : StoreError).

Record IdempotencyMetrics : Type := {
  hits : Z;
  misses : Z;
  collisions : Z;
  evictions : Z;
  purged_expired : Z;
  hits_by_op : gmap string Z;
}.

Record IdempotencyCache (S : Type) : Type := {
  cache_store : S;
  cache_ttl : Z;
  cache_max_entries : Z;
  cache_metrics : IdempotencyMetrics;
}.
Arguments cache_store {S} _.
Arguments cache_ttl {S} _.
Arguments cache_max_entries {S} _.
Arguments cache_metrics {S} _.
Arguments Build_IdempotencyCache {S} _ _ _ _.

(** The two in-place edits of a JSON object the code makes. *)
Definition alter_object (key : string) (f : json_map → json_map) (m : json_map) : json_map :=
  match map_get m key with
  | Some (JObj inner) => map_insert m key (JObj (f inner))
  | _ => m
  end.

Definition strip_message_id (v : json) : json :=
  match v with
  | JObj obj =>
      JObj (alter_object "params"
              (alter_object "message" (λ message, map_remove message "messageId"))
              (alter_object "message" (λ message, map_remove message "messageId") obj))
  | _ => v
  end.

Section cache.
Context {E : Env} {S : Type} {St : IdempotencyStore S}.
Implicit Types (c : IdempotencyCache S) (now : Z) (body : json).

Definition hash_request body : result CacheError string :=
  map_err JcsFailed (jcs_sha256 (strip_message_id body)).

Definition cache_new (store : S) : IdempotencyCache S :=
  {| cache_store := store; cache_ttl := DEFAULT_TTL_SECONDS * 1000000000;
     cache_max_entries := DEFAULT_MAX_ENTRIES;
     cache_metrics := {| hits := 0; misses := 0; collisions := 0; evictions := 0;
                         purged_expired := 0; hits_by_op := ∅ |} |}.

Definition with_metrics c (f : IdempotencyMetrics → IdempotencyMetrics) : IdempotencyCache S :=
  Build_IdempotencyCache (cache_store c) (cache_ttl c) (cache_max_entries c) (f (cache_metrics c)).
Definition with_store c (s : S) : IdempotencyCache S :=
  Build_IdempotencyCache s (cache_ttl c) (cache_max_entries c) (cache_metrics c).

Definition record_hit_for_op c (operation : string) : IdempotencyCache S :=
  with_metrics c (λ m, m <| hits_by_op ::=
    <[operation := wrap_add u64_max (default 0 (hits_by_op m !! operation)) 1]> |>).

Definition check now c (message_id : string) body
  : IdempotencyCache S * result CacheError IdempotencyOutcome :=
  match hash_request body with
  | Err e => (c, Err e)
  | Ok hash =>
      match store_get (cache_store c) message_id with
      | Err e => (c, Err (StoreFailed e))
      | Ok None => (with_metrics c (λ m, m <| misses ::= wrap_add u64_max 1 |>), Ok Fresh)
      | Ok (Some entry) =>
          if i_expires_at entry <=? now then
            (with_metrics c (λ m, m <| misses ::= wrap_add u64_max 1 |>), Ok Fresh)
          else if decide (i_request_hash entry = hash) then
            (with_metrics c (λ m, m <| hits ::= wrap_add u64_max 1 |>),
             Ok (CacheReplay (i_response_status entry) (i_response_body entry)))
          else
            (with_metrics c (λ m, m <| collisions ::= wrap_add u64_max 1 |>), Ok CacheCollision)
      end
  end.

Definition record now c (message_id : string) body (status : Z) (response_body : json)
  : IdempotencyCache S * result CacheError unit :=
  match hash_request body with
  | Err e => (c, Err e)
  | Ok hash =>
      (with_store c (store_put (cache_store c)
         {| i_message_id := message_id; i_request_hash := hash; i_response_status := status;
            i_response_body := response_body; i_created_at := now;
            i_expires_at := now + cache_ttl c |}), Ok ())
  end.

Definition sweep_expired now c : IdempotencyCache S * Z :=
  let (s', n) := store_purge now (cache_store c) in
  let c' := with_store c s' in
  (if 0 <? n then with_metrics c' (λ m, m <| purged_expired ::= wrap_add u64_max n |>) else c', n).

Definition evict_to_cap c : IdempotencyCache S * Z :=
  let count := store_count (cache_store c) in
  if count <=? cache_max_entries c then (c, 0)
  else
    let excess := count - cache_max_entries c in
    let (s', removed) := store_evict (cache_store c) excess in
    let c' := with_store c s' in
    (if 0 <? removed
     then with_metrics c' (λ m, m <| evictions ::= wrap_add u64_max removed |>) else c', removed).

(** ** The extension hook *)

Definition versioned_request_body (protocol_version : string) body : json :=
  json_obj [("protocolVersion", JStr protocol_version); ("request", body)].

Definition key_reused : json := json_obj [
  ("type", JStr "https://agentic-sandbox.aiwg.io/errors/idempotency-collision");
  ("title", JStr "Idempotency key reused with different payload");
  ("status", JNum 422);
  ("detail", JStr "The provided messageId was previously used with a different request body");
  ("code", JStr "idempotency.key_reused")].

Definition pre_request now c (activated : bool) (message_id : option string)
    (protocol_version : string) body : IdempotencyCache S * ExtensionOutcome :=
  if negb activated then (c, Continue)
  else match message_id with
       | None => (c, Continue)
       | Some mid =>
           let (c', outcome) := check now c mid (versioned_request_body protocol_version body) in
           (c', match outcome with
                | Ok (CacheReplay status cached) => Replay status cached
                | Ok CacheCollision => Reject 422 key_reused
                | Ok Fresh => Continue
                | Err _ => Continue
                end)
       end.

(** ** Runs that leave one message alone: any checks, records of other
    messages, sweeps no later than the deadline. *)
Inductive quiet_step (mid : string) (deadline : Z)
  : IdempotencyCache S → IdempotencyCache S → Prop :=
| quiet_check now c m b : quiet_step mid deadline c (check now c m b).1
| quiet_record now c m b st r : m ≠ mid → quiet_step mid deadline c (record now c m b st r).1
| quiet_sweep now c : now <= deadline → quiet_step mid deadline c (sweep_expired now c).1
| quiet_hit c op : quiet_step mid deadline c (record_hit_for_op c op).

Context (laws : idempotency_store_laws S).

Lemma check_store now c m b : cache_store (check now c m b).1 = cache_store c.
Proof. unfold check. by repeat case_match. Qed.

Lemma sweep_store now c : cache_store (sweep_expired now c).1 = (store_purge now (cache_store c)).1.
Proof. unfold sweep_expired. destruct (store_purge _ _). by case_match. Qed.

Lemma quiet_keeps mid deadline c c' e :
  quiet_step mid deadline c c' → deadline <= i_expires_at e →
  store_get (cache_store c) mid = Ok (Some e) → store_get (cache_store c') mid = Ok (Some e).
Proof using laws.
  intros [now c0 m b|now c0 m b st r Hne|now c0 Hle|c0 op] He Hget.
  - by rewrite check_store.
  - unfold record. case_match; [|done]. simpl. by rewrite (get_put_other _ laws) by done.
  - rewrite sweep_store. apply (get_purge _ laws); [done|lia].
  - done.
Qed.

Lemma quiets_keep mid deadline c c' e :
  rtc (quiet_step mid deadline) c c' → deadline <= i_expires_at e →
  store_get (cache_store c) mid = Ok (Some e) → store_get (cache_store c') mid = Ok (Some e).
Proof using laws. induction 1; eauto using quiet_keeps. Qed.

Lemma record_get now c mid body st resp c1 :
  0 <= st <= u16_max → record now c mid body st resp = (c1, Ok ()) →
  ∃ e, store_get (cache_store c1) mid = Ok (Some e) ∧
    Ok (i_request_hash e) = hash_request body ∧ i_response_status e = st ∧
    i_response_body e = resp ∧ i_expires_at e = now + cache_ttl c.
Proof using laws.
  unfold record. intros Hst Hr. destruct (hash_request body) as [h|] eqn:Hh; simplify_eq.
  destruct (get_put _ laws (cache_store c)
    {| i_message_id := mid; i_request_hash := h; i_response_status := st;
       i_response_body := resp; i_created_at := now; i_expires_at := now + cache_ttl c |})
    as (e & He & Hsame); [done|].
  exists e. split; [done|]. rewrite Hsame. by simpl.
Qed.

(** A recorded response is what a retry gets.  From the record until its
    expiry, whatever checks, other records and sweeps happen in between, the
    same request is answered with exactly the recorded status and body, a
    request with another digest under the same message id is a collision,
    and from the expiry on the message id is fresh again. *)
Theorem recorded_response_replayed now now' c mid body st resp c1 c2 body' hash' :
  0 <= st <= u16_max → 0 <= cache_ttl c →
  record now c mid body st resp = (c1, Ok ()) →
  rtc (quiet_step mid (now + cache_ttl c)) c1 c2 →
  hash_request body' = Ok hash' →
  (now' < now + cache_ttl c → hash_request body = Ok hash' →
     (check now' c2 mid body').2 = Ok (CacheReplay st resp)) ∧
  (now' < now + cache_ttl c → hash_request body ≠ Ok hash' →
     (check now' c2 mid body').2 = Ok CacheCollision) ∧
  (now + cache_ttl c <= now' → (check now' c2 mid body').2 = Ok Fresh).
Proof using laws.
  intros Hst Httl Hr Hq Hh'.
  destruct (record_get _ _ _ _ _ _ _ Hst Hr) as (e & He & Hh & Hs & Hb & Hx).
  apply (quiets_keep _ _ _ _ e Hq) in He; [|lia].
  unfold check. rewrite Hh', He, Hx. split_and!; intros Hnow; [intros Heq..|].
  - rewrite (proj2 (Z.leb_gt _ _)), decide_True by (lia || congruence). by rewrite Hs, Hb.
  - rewrite (proj2 (Z.leb_gt _ _)), decide_False by (lia || congruence). done.
  - by rewrite (proj2 (Z.leb_le _ _)) by lia.
Qed.

(** Enforcing the cap leaves the smaller of the old count and the cap, and
    returns how many entries it dropped; it invents no entry. *)
Theorem evict_to_cap_bounds c :
  0 <= cache_max_entries c → store_count (cache_store c) <= i64_max →
  store_count (cache_store (evict_to_cap c).1) =
    Z.min (store_count (cache_store c)) (cache_max_entries c) ∧
  (evict_to_cap c).2 =
    store_count (cache_store c) - store_count (cache_store (evict_to_cap c).1) ∧
  (∀ k e, store_get (cache_store (evict_to_cap c).1) k = Ok (Some e) →
          store_get (cache_store c) k = Ok (Some e)).
Proof using laws.
  intros Hcap Hmax. unfold evict_to_cap.
  destruct (_ <=? _) eqn:Hle; reflect_bools; [simpl; split_and!; [lia..|done]|].
  set (n := store_count (cache_store c) - cache_max_entries c).
  destruct (count_evict _ laws (cache_store c) n) as [Hc Hn]; [lia|].
  pose proof (get_evict _ laws (cache_store c) n) as Hg.
  pose proof (count_nonneg _ laws (cache_store c)).
  destruct (store_evict (cache_store c) n) as [s' removed]. simpl in *.
  destruct (0 <? removed); simpl; split_and!; done || lia.
Qed.
End cache.

(** ** Message ids and the digest *)

Lemma strip_bare obj message :
  strip_message_id (JObj (map_insert obj "message" (JObj message))) =
  JObj (alter_object "params" (alter_object "message" (λ m, map_remove m "messageId"))
    (map_insert obj "message" (JObj (map_remove message "messageId")))).
Proof.
  simpl. do 2 f_equal. unfold alter_object. by rewrite map_get_insert_eq, map_insert_insert.
Qed.

(** The message id is not part of the digest of a bare request: bodies
    that differ only in [message.messageId] have the same digest.  The hook,
    however, first wraps the request under a [request] key, and there
    stripping does nothing: the digest covers the message id. *)
Theorem message_id_stripped_only_when_bare {E : Env} obj message v version body :
  sorted_map message →
  hash_request (JObj (map_insert obj "message" (JObj (map_insert message "messageId" v)))) =
    hash_request (JObj (map_insert obj "message" (JObj message))) ∧
  hash_request (versioned_request_body version body) =
    map_err JcsFailed (jcs_sha256 (versioned_request_body version body)).
Proof.
  intros Hs. split; [|done]. unfold hash_request. by rewrite !strip_bare, map_remove_insert.
Qed.

(** ** The task store keeps the promises *)

Section task_store.
Context {E : Env} {Scan : TableScan}.

#[export] Instance task_store_idempotency : IdempotencyStore TaskStore := {|
  store_get := idempotency_get;
  store_put := idempotency_put;
  store_purge := idempotency_purge_expired;
  store_count := idempotency_count;
  store_evict := idempotency_evict_oldest;
|}.

Lemma idempotency_get_put s e :
  json_text_parses E → 0 <= i_response_status e <= u16_max →
  ∃ e', idempotency_get (idempotency_put s e) (i_message_id e) = Ok (Some e') ∧ same_entry e e'.
Proof.
  intros Hj Hst. unfold idempotency_get, idempotency_put. simpl. rewrite lookup_insert_eq.
  unfold decode_opt, row_to_idem. simpl. rewrite parse_json_text by done.
  eexists. split; [reflexivity|]. unfold same_entry. rewrite Z.mod_small by lia. by destruct e.
Qed.

(** Evicting the rows of a duplicate-free list of present keys. *)
Lemma size_delete_where_in {A} (m : gmap string A) (keys : list string) :
  NoDup keys → (∀ k, k ∈ keys → is_Some (m !! k)) →
  (size (delete_where (λ k _, bool_decide (k ∈ keys)) m) + length keys = size m)%nat.
Proof.
  intros Hnd. induction Hnd as [|k keys Hk _ IH]; intros Hin.
  - change (length (@nil string)) with 0%nat. rewrite Nat.add_0_r. f_equal. apply map_eq. intros k. apply option_eq. intros a.
    rewrite lookup_delete_where, bool_decide_eq_false. set_solver.
  - rewrite <-IH by set_solver. rewrite length_cons, Nat.add_succ_r, <-Nat.add_succ_l. f_equal.
    set (m' := delete_where (λ k _, bool_decide (k ∈ keys)) m).
    assert (delete_where (λ k0 _, bool_decide (k0 ∈ k :: keys)) m = delete k m') as ->.
    { apply map_eq. intros k'. apply option_eq. intros a. unfold m'.
      rewrite lookup_delete_Some, !lookup_delete_where, !bool_decide_eq_false. set_solver. }
    destruct (Hin k) as [a Ha]; [set_solver|].
    assert (m' !! k = Some a) as Hm'.
    { apply lookup_delete_where. by rewrite bool_decide_eq_false. }
    rewrite map_size_delete_Some by eauto.
    assert (size m' ≠ 0%nat) by (apply (map_size_ne_0_lookup_2 _ k); eauto). lia.
Qed.

(** The keys an eviction selects. *)
Lemma evicted_keys (m : gmap string IdemColumns) n :
  let keys := (take n (order_by_asc ic_created_at (scan m))).*1 in
  NoDup keys ∧ (∀ k, k ∈ keys → is_Some (m !! k)) ∧ length keys = Nat.min n (size m).
Proof.
  simpl. assert (order_by_asc ic_created_at (scan m) ≡ₚ map_to_list m) as Hp.
  { unfold order_by_asc. by rewrite merge_sort_Permutation, scan_perm. }
  split_and!.
  - rewrite fmap_take. eapply sublist_NoDup; [|apply sublist_take]. rewrite Hp.
    apply NoDup_fst_map_to_list.
  - intros k ([k' c] & -> & Hx)%list_elem_of_fmap. apply elem_of_sublist with (2 := sublist_take _ _) in Hx.
    rewrite Hp, elem_of_map_to_list in Hx. by exists c.
  - by rewrite length_fmap, length_take, Hp, length_map_to_list.
Qed.

Lemma idempotency_evict_count s n :
  0 <= n <= i64_max →
  idempotency_count (idempotency_evict_oldest s n).1 = Z.max 0 (idempotency_count s - n) ∧
  (idempotency_evict_oldest s n).2 =
    idempotency_count s - idempotency_count (idempotency_evict_oldest s n).1.
Proof.
  intros Hn. unfold idempotency_evict_oldest, idempotency_count.
  destruct (n =? 0) eqn:Hz; reflect_bools; simpl; [split; lia|].
  unfold as_i64, limit_rows. rewrite (proj2 (Z.ltb_ge i64_max n)), (proj2 (Z.ltb_ge n 0)) by lia.
  destruct (evicted_keys (idempotency_cache s) (Z.to_nat n)) as (Hnd & Hin & Hlen).
  pose proof (size_delete_where_in _ _ Hnd Hin). split; lia.
Qed.

Lemma task_store_laws : json_text_parses E → idempotency_store_laws TaskStore.
Proof.
  intros Hj. constructor; simpl.
  - intros. by apply idempotency_get_put.
  - intros s e k Hne. unfold idempotency_get, idempotency_put. simpl.
    by rewrite lookup_insert_ne.
  - intros now s k e. unfold idempotency_get, idempotency_purge_expired. simpl.
    destruct (idempotency_cache s !! k) as [c|] eqn:Hc; [|done]. intros Hget Hexp.
    rewrite (proj2 (lookup_delete_where _ _ k c)); [done|]. split; [done|].
    apply Z.ltb_ge. unfold decode_opt, row_to_idem in Hget.
    destruct (parse_json _); simplify_eq/=. done.
  - intros s. unfold idempotency_count. lia.
  - intros. by apply idempotency_evict_count.
  - intros s n k e. unfold idempotency_get, idempotency_evict_oldest.
    destruct (n =? 0); simpl; [done|].
    destruct (delete_where _ _ !! k) as [c|] eqn:Hd; [|done].
    apply lookup_delete_where in Hd as [-> _]. done.
Qed.

(** Eviction takes the oldest: a row that [idempotency_evict_oldest]
    removes was not created later than any row it keeps. *)
Theorem idempotency_evict_oldest_first s n k k' c c' :
  idempotency_cache s !! k = Some c →
  idempotency_cache (idempotency_evict_oldest s n).1 !! k = None →
  idempotency_cache (idempotency_evict_oldest s n).1 !! k' = Some c' →
  ic_created_at c <= ic_created_at c'.
Proof.
  intros Hc. unfold idempotency_evict_oldest. destruct (n =? 0); simpl; [congruence|].
  rewrite lookup_delete_where_None, lookup_delete_where, bool_decide_eq_false.
  intros Hk [Hc' Hk']. specialize (Hk c Hc). apply bool_decide_eq_true in Hk.
  set (rows := order_by_asc ic_created_at (scan (idempotency_cache s))) in *.
  assert (rows ≡ₚ map_to_list (idempotency_cache s)) as Hp.
  { unfold rows, order_by_asc. by rewrite merge_sort_Permutation, scan_perm. }
  assert (∀ k c, (k, c) ∈ rows ↔ idempotency_cache s !! k = Some c) as Hrows.
  { intros. by rewrite Hp, elem_of_map_to_list. }
  unfold limit_rows in *. destruct (as_i64 n <? 0).
  { destruct Hk'. apply list_elem_of_fmap. exists (k', c'). by rewrite Hrows. }
  assert (StronglySorted (key_le ic_created_at) rows) as Hs.
  { apply Sorted_StronglySorted; [apply _|]. apply Sorted_merge_sort, _. }
  rewrite <-(take_drop (Z.to_nat (as_i64 n)) rows) in Hs, Hrows.
  apply list_elem_of_fmap in Hk as ([k0 c0] & -> & Hin).
  assert (c0 = c) as ->.
  { assert (idempotency_cache s !! k0 = Some c0) by (apply Hrows; set_solver). simpl in *. congruence. }
  apply Hrows, elem_of_app in Hc' as [Hc'|Hc'].
  { destruct Hk'. apply list_elem_of_fmap. by exists (k', c'). }
  by apply (StronglySorted_app_1_elem_of _ _ _ _ _ Hs Hin Hc').
Qed.
End task_store.

(** ** A sample run *)

Definition sample_cache : IdempotencyCache TaskStore :=
  @cache_new TaskStore open_in_memory.
Definition sample_request : json := JObj [("message", JObj [("messageId", JStr "m-1")])].
Definition sample_cache_1 : IdempotencyCache TaskStore :=
  (@record sample_env TaskStore (@task_store_idempotency sample_env sample_scan)
     5 sample_cache "m-1" sample_request 202 (JStr "done")).1.
Definition sample_cache_2 : IdempotencyCache TaskStore :=
  (@record sample_env TaskStore (@task_store_idempotency sample_env sample_scan)
     6 sample_cache_1 "m-2" sample_request 500 JNull).1.

Lemma sample_laws :
  @idempotency_store_laws TaskStore (@task_store_idempotency sample_env sample_scan).
Proof. apply task_store_laws, sample_env_text_parses. Qed.

Lemma recorded_response_replayed_witness :
  (@check sample_env TaskStore (@task_store_idempotency sample_env sample_scan)
     7 sample_cache_2 "m-1" sample_request).2 = Ok (CacheReplay 202 (JStr "done")).
Proof.
  apply (@recorded_response_replayed sample_env TaskStore
    (@task_store_idempotency sample_env sample_scan) sample_laws 5 7 sample_cache "m-1"
    sample_request 202 (JStr "done") sample_cache_1 sample_cache_2 sample_request "9").
  - vm_compute. split; discriminate.
  - vm_compute. discriminate.
  - vm_compute. reflexivity.
  - apply rtc_once, (@quiet_record sample_env TaskStore). discriminate.
  - vm_compute. reflexivity.
  - vm_compute. reflexivity.
  - vm_compute. reflexivity.
Defined.

Lemma evict_to_cap_bounds_witness :
  idempotency_count (cache_store (@evict_to_cap TaskStore
    (@task_store_idempotency sample_env sample_scan)
    (Build_IdempotencyCache (cache_store sample_cache_2) 1 1 (cache_metrics sample_cache_2))).1) = 1.
Proof.
  apply (@evict_to_cap_bounds TaskStore
    (@task_store_idempotency sample_env sample_scan) sample_laws
    (Build_IdempotencyCache (cache_store sample_cache_2) 1 1 (cache_metrics sample_cache_2))).
  - vm_compute. discriminate.
  - vm_compute. discriminate.
Defined.

Lemma message_id_stripped_only_when_bare_witness :
  @hash_request sample_env (JObj [("message", JObj [("messageId", JStr "m-1")])]) =
  @hash_request sample_env (JObj [("message", JObj [])]).
Proof.
  apply (@message_id_stripped_only_when_bare sample_env [] [] (JStr "m-1") "1" JNull).
  constructor.
Defined.

Definition sample_idem (k : string) : IdemColumns :=
  default (Build_IdemColumns "x" 0 "x" 0 0) (idempotency_cache (cache_store sample_cache_2) !! k).

Lemma idempotency_evict_oldest_first_witness :
  ic_created_at (sample_idem "m-1") <= ic_created_at (sample_idem "m-2").
Proof.
  apply (@idempotency_evict_oldest_first sample_scan (cache_store sample_cache_2) 1 "m-1" "m-2").
  - vm_compute. reflexivity.
  - vm_compute. reflexivity.
  - vm_compute. reflexivity.
Defined.
