(* ===== verification/PushPolicy.v ===== *)
(** * Push notifications: where callbacks may go, and their delivery

    Models management/agentic-sandbox-executor/src/handlers/
    push_callback_policy.rs and push_delivery.rs.  Callback URLs come from
    clients, so the policy decides which network destinations the executor may
    contact: [validate_callback_url] when a callback is configured and again
    before delivery, [select_public_destination] on the DNS answers of each
    attempt.  [deliver_event] is the worker's handling of one status event:
    the subscribers of the task in batches, each with up to three attempts.

    The URL parser ([url]), DNS and the HTTP client ([reqwest]) are outside the
    sources: the parser is the class [UrlParser]; what an attempt meets (DNS
    answer, whether the client can be built, the clock, the HTTP answer) is an
    [Attempt], and the theorems hold for all of them. *)

From Stdlib Require Import Ascii.
From S2P Require Import Prelude Text Http Net Json CelldAuth Protocol TaskStore.

Local Open Scope string_scope.
Local Open Scope list_scope.
Local Open Scope Z_scope.

Definition MAX_CONFIGS_PER_TASK : Z := 16.
Definition MAX_CONCURRENT_DELIVERIES : Z := 4.
Definition MAX_CALLBACK_URL_BYTES : Z := 2048.

(** [reqwest::Url] through the accessors the policy calls. *)
Record Url : Type := {
  url_scheme : string;
  url_username : string;
  url_password : option string;
  url_fragment : option string;
  url_port : option Z;
  url_host : option string;
  url_text : string;
}.

Class UrlParser : Type := { url_parse : string → option Url }.

Record ValidatedCallbackUrl : Type := {
  vc_url : Url;
  vc_host : string;
  vc_port : Z;
}.

Definition canonical_url (target : ValidatedCallbackUrl) : string := url_text (vc_url target).

Inductive CallbackPolicyError : Type :=
| Malformed
| TooLong
| RequiresHttps
| Credentials
| Fragment
| DisallowedPort
| MissingHost
| ResolutionFailed
| NoAddresses
| NonPublicAddress
| ClientBuild.

Definition policy_error_text (e : CallbackPolicyError) : string :=
  match e with
  | Malformed => "callback URL is malformed"
  | TooLong => "callback URL exceeds the length limit"
  | RequiresHttps => "callback URL must use HTTPS"
  | Credentials => "callback URL must not contain credentials"
  | Fragment => "callback URL must not contain a fragment"
  | DisallowedPort => "callback URL must use port 443"
  | MissingHost => "callback URL must contain an unambiguous host"
  | ResolutionFailed => "callback host did not resolve"
  | NoAddresses => "callback host resolved to no addresses"
  | NonPublicAddress => "callback destination is not a public address"
  | ClientBuild => "callback HTTP client could not be constructed"
  end.

(** ** Public addresses *)

Definition between (lo x hi : Z) : bool := (lo <=? x) && (x <=? hi).

Definition is_public_ipv4 (ip : Ipv4Addr) : bool :=
  let a := oct0 ip in let b := oct1 ip in let c := oct2 ip in
  negb ((a =? 0) || (a =? 10) || (a =? 127)
    || ((a =? 100) && between 64 b 127)
    || ((a =? 172) && between 16 b 31)
    || ((a =? 192) && (b =? 168))
    || ((a =? 169) && (b =? 254))
    || ((a =? 192) && (b =? 0) && (c =? 0))
    || ((a =? 192) && (b =? 0) && (c =? 2))
    || ((a =? 192) && (b =? 88) && (c =? 99))
    || ((a =? 198) && ((b =? 18) || (b =? 19)))
    || ((a =? 198) && (b =? 51) && (c =? 100))
    || ((a =? 203) && (b =? 0) && (c =? 113))
    || (224 <=? a)).

Definition is_public_ipv6 (ip : Ipv6Addr) : bool :=
  match to_ipv4 ip with
  | Some v4 => is_public_ipv4 v4
  | None =>
      let first := seg0 ip in let second := seg1 ip in
      if negb (Z.land first 57344 =? 8192) then false
      else if v6_is_unspecified ip || v6_is_loopback ip || v6_is_multicast ip then false
      else if (first =? 8193) && (second <=? 511) then false
      else if (first =? 8193) && (second =? 3512) then false
      else if first =? 8194 then false
      else true
  end.

Definition is_public_ip (ip : IpAddr) : bool :=
  match ip with V4 ip => is_public_ipv4 ip | V6 ip => is_public_ipv6 ip end.

Definition require_public_ip (ip : IpAddr) : result CallbackPolicyError unit :=
  if is_public_ip ip then Ok () else Err NonPublicAddress.

(** ** Validation *)

Section validation.
Context `{UrlParser}.

Definition validate_callback_url (raw : string) : result CallbackPolicyError ValidatedCallbackUrl :=
  let raw := trim raw in
  if bool_decide (raw = EmptyString) then Err Malformed else
  if MAX_CALLBACK_URL_BYTES <? str_len raw then Err TooLong else
  url ← ok_or (url_parse raw) Malformed;
  if bool_decide (url_scheme url ≠ "https") then Err RequiresHttps else
  if negb (bool_decide (url_username url = EmptyString)) || bool_decide (is_Some (url_password url))
  then Err Credentials else
  if bool_decide (is_Some (url_fragment url)) then Err Fragment else
  if match url_port url with Some port => negb (port =? 443) | None => false end
  then Err DisallowedPort else
  host ← ok_or (host ← url_host url; if bool_decide (host = EmptyString) then None else Some host)
    MissingHost;
  let host := to_ascii_lowercase (trim_end_matches "]"%char (trim_start_matches "["%char host)) in
  _ ← (match parse_ip host with Some ip => require_public_ip ip | None => Ok () end);
  Ok {| vc_url := url; vc_host := host; vc_port := 443 |}.
End validation.

(** ** Choosing a destination *)

(** The key of [sort_unstable_by_key]: the text of the address, then the
    port.  Equal keys may come in any order; here they keep their order. *)
Definition address_le (x y : SocketAddr) : Prop :=
  String.ltb (ip_text (sa_ip x)) (ip_text (sa_ip y)) = true
  ∨ ip_text (sa_ip x) = ip_text (sa_ip y) ∧ sa_port x <= sa_port y.

#[export] Instance address_le_dec x y : Decision (address_le x y).
Proof. unfold address_le. apply _. Defined.

(** [Vec::dedup] *)
Fixpoint dedup (l : list SocketAddr) : list SocketAddr :=
  match l with
  | x :: ((y :: _) as rest) => if decide (x = y) then dedup rest else x :: dedup rest
  | _ => l
  end.

Fixpoint require_all_public (addresses : list SocketAddr) : result CallbackPolicyError unit :=
  match addresses with
  | [] => Ok ()
  | address :: rest => _ ← require_public_ip (sa_ip address); require_all_public rest
  end.

Definition select_public_destination (addresses : list SocketAddr) (attempt : Z)
    : result CallbackPolicyError SocketAddr :=
  if bool_decide (addresses = []) then Err NoAddresses else
  _ ← require_all_public addresses;
  let addresses := dedup (merge_sort address_le addresses) in
  let selected := attempt `mod` len addresses in
  ok_or (addresses !! Z.to_nat selected) NoAddresses.

(** [dns] is the answer of [lookup_host]. *)
Definition resolve_public_destination (target : ValidatedCallbackUrl) (attempt : Z)
    (dns : option (list SocketAddr)) : result CallbackPolicyError SocketAddr :=
  addresses ← (match parse_ip (vc_host target) with
               | Some ip => Ok [socket_addr ip (vc_port target)]
               | None => ok_or dns ResolutionFailed
               end);
  select_public_destination addresses attempt.

(** What the policy sets on the client: the address the host is pinned to,
    if any, and that redirects are not followed. *)
Record PinnedClient : Type := {
  pin : option (string * SocketAddr);
  follows_redirects : bool;
}.

Definition build_pinned_client (target : ValidatedCallbackUrl) (address : SocketAddr) (builds : bool)
    : result CallbackPolicyError PinnedClient :=
  if builds
  then Ok {| pin := match parse_ip (vc_host target) with
                    | Some _ => None
                    | None => Some (vc_host target, address)
                    end;
             follows_redirects := false |}
  else Err ClientBuild.

(** ** Delivery *)

Definition MAX_ATTEMPTS : Z := 3.
Definition BACKOFF_SECS : list Z := [1; 2; 4].
Definition CHANNEL_CAPACITY : Z := 1024.

Record DeliveryEvent : Type := {
  de_task_id : string;
  de_status_event : json;
}.

Definition build_body (ev : DeliveryEvent) : json :=
  let update := map_insert [] "taskId" (JStr (de_task_id ev)) in
  let update := copy_optional update "contextId"
    (JStr <$> (json_get (de_status_event ev) "context_id" ≫= as_str)) in
  let legacy_status := default (de_status_event ev) (json_get (de_status_event ev) "status") in
  let encoded := encode_v1_response (json_obj [("status", legacy_status)]) in
  let update := map_insert update "status" (default JNull (json_get encoded "status")) in
  json_obj [("statusUpdate", JObj update)].

(** [{:02x}] of every byte *)
Fixpoint hex_bytes (s : string) : string :=
  match s with
  | EmptyString => EmptyString
  | String.String a rest =>
      String.String (hex_char (byte_val a / 16)) (String.String (hex_char (byte_val a `mod` 16))
        (hex_bytes rest))
  end.

Section delivery.
Context `{Env, AuthEnv, UrlParser, TableScan}.

Definition sign_v1 (secret body : string) (ts : Z) : string :=
  hex_bytes (hmac_sha256 secret (pretty ts +:+ "." +:+ body)).

Definition decode_auth (auth : option json) : string * option string :=
  match auth with
  | None => ("none", None)
  | Some auth =>
      (default "none" (json_get auth "type" ≫= as_str),
       secret ← json_get auth "secret" ≫= as_str;
       if bool_decide (secret = EmptyString) then None else Some secret)
  end.

(** What one attempt meets outside the program: the DNS answer, whether the
    HTTP client could be built, the clock in seconds, and the status of the
    answer ([None] for a transport error). *)
Record Attempt : Type := {
  at_dns : option (list SocketAddr);
  at_builds : bool;
  at_time : Z;
  at_answer : option Z;
}.

Record Post : Type := {
  post_client : PinnedClient;
  post_target : ValidatedCallbackUrl;
  post_headers : list (string * string);
  post_body : string;
}.

Inductive DeliveryAction : Type :=
| Send (post : Post)
| Sleep (seconds : Z).

Inductive DeliveryOutcome : Type :=
| PolicyRejected (reason : CallbackPolicyError)
| Delivered
| DeadLettered (last_status : option Z).

Definition auth_headers (scheme : string) (secret : option string) (body : string) (ts : Z)
    : list (string * string) :=
  if bool_decide (scheme = "bearer") then
    match secret with Some token => [("authorization", "Bearer " +:+ token)] | None => [] end
  else if bool_decide (scheme = "hmac") then
    match secret with
    | Some s => [("x-aiwg-signature", "t=" +:+ pretty ts +:+ ",v1=" +:+ sign_v1 s body ts)]
    | None => []
    end
  else [].

(** The attempts left, from the oldest; [last_status] is the variable of the
    loop. *)
Fixpoint attempts_from (attempts : list Z) (world : Z → Attempt) (target : ValidatedCallbackUrl)
    (scheme : string) (secret : option string) (body : string) (last_status : option Z)
    : list DeliveryAction * DeliveryOutcome :=
  match attempts with
  | [] => ([], DeadLettered last_status)
  | attempt :: rest =>
      let w := world attempt in
      match (address ← resolve_public_destination target attempt (at_dns w);
             build_pinned_client target address (at_builds w)) with
      | Err reason => ([], PolicyRejected reason)
      | Ok client =>
          let post := Send {| post_client := client; post_target := target;
            post_headers := ("content-type", "application/json")
              :: auth_headers scheme secret body (at_time w);
            post_body := body |} in
          if match at_answer w with Some status => is_success status | None => false end
          then ([post], Delivered)
          else
            let '(actions, outcome) := attempts_from rest world target scheme secret body
              (or_else (at_answer w) last_status) in
            (post :: (if attempt + 1 <? MAX_ATTEMPTS
                      then [Sleep (default 4 (BACKOFF_SECS !! Z.to_nat attempt))] else [])
             ++ actions, outcome)
      end
  end.

Definition deliver_to_subscriber (world : Z → Attempt) (cfg : PushNotificationConfigRow)
    (body : string) : list DeliveryAction * DeliveryOutcome :=
  let '(scheme, secret) := decode_auth (p_auth_json cfg) in
  match validate_callback_url (p_url cfg) with
  | Err reason => ([], PolicyRejected reason)
  | Ok target => attempts_from (seqZ 0 MAX_ATTEMPTS) world target scheme secret body None
  end.

(** [slice.chunks(n)]; every step drops [n] elements, so the length of the
    list is enough fuel for [n > 0]. *)
Fixpoint chunks {A} (fuel n : nat) (l : list A) : list (list A) :=
  match fuel, l with
  | S fuel, _ :: _ => take n l :: chunks fuel n (drop n l)
  | _, _ => []
  end.

(** One event: the batches, each with the actions of its concurrent
    deliveries.  A batch starts when the one before has been joined. *)
Definition deliver_event (world : string → Z → Attempt) (s : TaskStore) (ev : DeliveryEvent)
    : list (list (list DeliveryAction * DeliveryOutcome)) :=
  match list_push_configs s (de_task_id ev) with
  | Err _ => []
  | Ok configs =>
      let configs :=
        if MAX_CONFIGS_PER_TASK <? len configs
        then take (Z.to_nat MAX_CONFIGS_PER_TASK) configs else configs in
      let body := json_text (build_body ev) in
      (λ batch : list _, (λ cfg, deliver_to_subscriber (world (p_config_id cfg)) cfg body) <$> batch)
        <$> chunks (length configs) (Z.to_nat MAX_CONCURRENT_DELIVERIES) configs
  end.
End delivery.

(** ** Public addresses, by address blocks

    The reference: special-purpose blocks in the notation of the registries,
    as a base address and a prefix length, tested on the address as a number. *)

Definition v4_number (ip : Ipv4Addr) : Z :=
  ((oct0 ip * 256 + oct1 ip) * 256 + oct2 ip) * 256 + oct3 ip.

(** The first 32 bits of an IPv6 address, which decide every block used. *)
Definition v6_prefix (ip : Ipv6Addr) : Z := seg0 ip * 65536 + seg1 ip.

Definition in_block (n : Z) (block : Z * Z) : bool :=
  let '(base, prefix) := block in n / 2 ^ (32 - prefix) =? base / 2 ^ (32 - prefix).

Definition v4_block (a b c d prefix : Z) : Z * Z := (v4_number (V4Addr a b c d), prefix).

Definition special_v4_blocks : list (Z * Z) :=
  [v4_block 0 0 0 0 8; v4_block 10 0 0 0 8; v4_block 127 0 0 0 8; v4_block 100 64 0 0 10;
   v4_block 172 16 0 0 12; v4_block 192 168 0 0 16; v4_block 169 254 0 0 16;
   v4_block 192 0 0 0 24; v4_block 192 0 2 0 24; v4_block 192 88 99 0 24; v4_block 198 18 0 0 15;
   v4_block 198 51 100 0 24; v4_block 203 0 113 0 24; v4_block 224 0 0 0 3].

(** 2001::/23, 2001:db8::/32, 2002::/16, by their first 32 bits. *)
Definition special_v6_blocks : list (Z * Z) :=
  [(8193 * 65536, 23); (8193 * 65536 + 3512, 32); (8194 * 65536, 16)].

Definition global_unicast_v6 : Z * Z := (8192 * 65536, 3).

Definition public_by_blocks (ip : IpAddr) : bool :=
  let public_v4 ip := negb (existsb (in_block (v4_number ip)) special_v4_blocks) in
  match ip with
  | V4 ip => public_v4 ip
  | V6 ip =>
      match to_ipv4 ip with
      | Some v4 => public_v4 v4
      | None => in_block (v6_prefix ip) global_unicast_v6
          && negb (existsb (in_block (v6_prefix ip)) special_v6_blocks)
      end
  end.

(** Reduce a boolean identity between block tests and digit tests to linear
    arithmetic with division by constants. *)
Ltac solve_block :=
  apply eq_iff_eq_true;
  rewrite ?andb_true_iff, ?orb_true_iff, ?Z.eqb_eq, ?Z.leb_le;
  Z.to_euclidean_division_equations; lia.

Section v4_blocks.
Context (a b c d : Z).
Hypothesis (Ha : is_u8 a) (Hb : is_u8 b) (Hc : is_u8 c) (Hd : is_u8 d).
Let n : Z := v4_number (V4Addr a b c d).

Lemma block_8 x : is_u8 x → in_block n (v4_block x 0 0 0 8) = (a =? x).
Proof using Ha Hb Hc Hd.
  unfold is_u8 in *. intros Hx. unfold n, in_block, v4_block, v4_number. simpl. solve_block.
Qed.

Lemma block_16 x y : is_u8 x → is_u8 y → in_block n (v4_block x y 0 0 16) = (a =? x) && (b =? y).
Proof using Ha Hb Hc Hd.
  unfold is_u8 in *. intros Hx Hy. unfold n, in_block, v4_block, v4_number. simpl. solve_block.
Qed.

Lemma block_24 x y z : is_u8 x → is_u8 y → is_u8 z →
  in_block n (v4_block x y z 0 24) = (a =? x) && (b =? y) && (c =? z).
Proof using Ha Hb Hc Hd.
  unfold is_u8 in *. intros Hx Hy Hz. unfold n, in_block, v4_block, v4_number. simpl. solve_block.
Qed.

Lemma block_odd :
  in_block n (v4_block 100 64 0 0 10) = (a =? 100) && between 64 b 127 ∧
  in_block n (v4_block 172 16 0 0 12) = (a =? 172) && between 16 b 31 ∧
  in_block n (v4_block 198 18 0 0 15) = (a =? 198) && ((b =? 18) || (b =? 19)) ∧
  in_block n (v4_block 224 0 0 0 3) = (224 <=? a).
Proof using Ha Hb Hc Hd.
  unfold is_u8 in *. unfold n, in_block, v4_block, v4_number, between. simpl.
  split_and!; solve_block.
Qed.
End v4_blocks.

Lemma v4_blocks_spec ip : v4_wf ip →
  negb (existsb (in_block (v4_number ip)) special_v4_blocks) = is_public_ipv4 ip.
Proof.
  destruct ip as [a b c d]. unfold v4_wf. cbn [oct0 oct1 oct2 oct3]. intros (Ha & Hb & Hc & Hd).
  unfold is_public_ipv4, special_v4_blocks. rewrite !existsb_cons. cbn [oct0 oct1 oct2].
  destruct (block_odd a b c d) as (H10 & H12 & H15 & H3); [done..|].
  rewrite H10, H12, H15, H3, !block_8, !block_16, !block_24 by (done || (unfold is_u8; lia)).
  by rewrite orb_false_r, !orb_assoc.
Qed.

(** The mask test for 2000::/3 looks at the three leading bits. *)
Lemma global_unicast_mask s : is_u16 s → (Z.land s 57344 =? 8192) = (s / 8192 =? 1).
Proof.
  unfold is_u16. intros Hs.
  assert (Z.land s 57344 = s / 8192 * 8192) as ->; [|solve_block].
  change 57344 with (Z.shiftl 7 13). change 8192 with (2 ^ 13).
  rewrite <-Z.shiftr_div_pow2, <-Z.shiftl_mul_pow2 by lia.
  assert (Z.land (Z.shiftr s 13) 7 = Z.shiftr s 13) as Hsmall.
  { change 7 with (Z.ones 3). rewrite Z.land_ones by lia. apply Z.mod_small.
    rewrite Z.shiftr_div_pow2 by lia. Z.to_euclidean_division_equations. lia. }
  rewrite <-Hsmall, Z.shiftl_land. apply Z.bits_inj'. intros i Hi. rewrite !Z.land_spec.
  destruct (Z.testbit (Z.shiftl 7 13) i) eqn:E; [|by rewrite !andb_false_r].
  rewrite !andb_true_r. destruct (decide (i < 13)) as [Hlt|Hge].
  - rewrite Z.shiftl_spec_low in E by lia. done.
  - rewrite Z.shiftl_spec, Z.shiftr_spec by lia. f_equal. lia.
Qed.

Lemma v6_blocks_spec ip : v6_wf ip →
  in_block (v6_prefix ip) global_unicast_v6 && negb (existsb (in_block (v6_prefix ip)) special_v6_blocks)
  = (Z.land (seg0 ip) 57344 =? 8192) && negb ((seg0 ip =? 8193) && (seg1 ip <=? 511))
    && negb ((seg0 ip =? 8193) && (seg1 ip =? 3512)) && negb (seg0 ip =? 8194).
Proof.
  unfold v6_wf, segments. intros Hw. apply Forall_cons in Hw as [H0 Hw]. apply Forall_cons in Hw as [H1 _].
  rewrite global_unicast_mask by done. destruct ip as [x y]. cbn [seg0 seg1] in *. unfold is_u16 in *.
  unfold special_v6_blocks, global_unicast_v6. rewrite !existsb_cons.
  unfold in_block, v6_prefix. cbn [seg0 seg1].
  assert ((x * 65536 + y) / 2 ^ (32 - 3) = x / 8192) as -> by (Z.to_euclidean_division_equations; lia).
  assert (((x * 65536 + y) / 2 ^ (32 - 23) =? 8193 * 65536 / 2 ^ (32 - 23))
    = (x =? 8193) && (y <=? 511)) as -> by (simpl; solve_block).
  assert (((x * 65536 + y) / 2 ^ (32 - 32) =? (8193 * 65536 + 3512) / 2 ^ (32 - 32))
    = (x =? 8193) && (y =? 3512)) as -> by (simpl; rewrite !Z.div_1_r; solve_block).
  assert (((x * 65536 + y) / 2 ^ (32 - 16) =? 8194 * 65536 / 2 ^ (32 - 16)) = (x =? 8194)) as ->
    by (simpl; solve_block).
  rewrite orb_false_r, !negb_orb, !andb_assoc. done.
Qed.

Lemma global_not_multicast s : s / 8192 = 1 → (Z.land s 65280 =? 65280) = false.
Proof.
  intros Hs. apply Z.eqb_neq. intros Hm. apply (f_equal (λ x, Z.testbit x 15)) in Hm.
  rewrite Z.land_spec, andb_true_r in Hm. rewrite Z.testbit_odd, Z.shiftr_div_pow2 in Hm by lia.
  assert (s / 2 ^ 15 = 0) as Hz by (Z.to_euclidean_division_equations; lia). by rewrite Hz in Hm.
Qed.

(** An address passes the policy exactly when it is outside the
    special-purpose address blocks: for IPv4 (and IPv4 embedded in IPv6) the
    fourteen blocks from 0.0.0.0/8 to 224.0.0.0/3, for other IPv6 addresses
    inside 2000::/3 and outside 2001::/23, 2001:db8::/32 and 2002::/16. *)
Theorem public_ip_by_blocks ip : ip_wf ip → is_public_ip ip = public_by_blocks ip.
Proof.
  unfold is_public_ip, public_by_blocks, ip_wf.
  destruct ip as [ip|ip]; intros Hw; [by rewrite v4_blocks_spec|].
  unfold is_public_ipv6. destruct (to_ipv4 ip) as [v4|] eqn:H4.
  - rewrite v4_blocks_spec; [done|]. unfold to_ipv4 in H4. case_match; simplify_eq.
    unfold v6_wf, segments in Hw. rewrite !Forall_cons in Hw. destruct Hw as (_&_&_&_&_&_&H6&H7&_).
    unfold v4_wf, embedded_v4, is_u8, is_u16 in *. simpl. Z.to_euclidean_division_equations. lia.
  - rewrite v6_blocks_spec by done.
    destruct (Z.land (seg0 ip) 57344 =? 8192) eqn:Hg; [|done]. cbn [negb andb].
    rewrite global_unicast_mask in Hg by (by inversion Hw). apply Z.eqb_eq in Hg.
    assert (v6_is_unspecified ip || v6_is_loopback ip || v6_is_multicast ip = false) as ->.
    { unfold v6_is_unspecified, v6_is_loopback, v6_is_multicast.
      rewrite !bool_decide_false by (intros ->; done). by rewrite global_not_multicast. }
    by destruct (seg0 ip =? 8193), (seg1 ip <=? 511), (seg1 ip =? 3512), (seg0 ip =? 8194).
Qed.

(** ** Selection *)

Lemma elem_of_dedup l x : x ∈ dedup l ↔ x ∈ l.
Proof.
  induction l as [|y [|z l] IH]; [done..|]. cbn [dedup]. fold (dedup (z :: l)).
  destruct (decide (y = z)) as [->|Hne]; rewrite ?elem_of_cons, IH, ?elem_of_cons; [naive_solver|].
  done.
Qed.

Lemma length_dedup l : (length (dedup l) <= length l)%nat.
Proof.
  induction l as [|y [|z l] IH]; [done..|]. cbn [dedup length] in *. case_decide; simpl in *; lia.
Qed.

Lemma require_all_public_Ok l :
  require_all_public l = Ok () ↔ Forall (λ a, is_public_ip (sa_ip a) = true) l.
Proof.
  induction l as [|a l IH]; simpl; [by split|]. rewrite Forall_cons, <-IH.
  unfold require_public_ip. destruct (is_public_ip (sa_ip a)); simpl; naive_solver.
Qed.

Lemma require_all_public_Err l e : require_all_public l = Err e → e = NonPublicAddress.
Proof.
  induction l as [|a l IH]; simpl; [done|]. unfold require_public_ip.
  destruct (is_public_ip (sa_ip a)); simpl; [auto|by intros [= <-]].
Qed.

Definition candidates (addresses : list SocketAddr) : list SocketAddr :=
  dedup (merge_sort address_le addresses).

Lemma elem_of_candidates l x : x ∈ candidates l ↔ x ∈ l.
Proof. unfold candidates. by rewrite elem_of_dedup, merge_sort_Permutation. Qed.

Lemma length_candidates l : l ≠ [] → 0 < len (candidates l) <= len l.
Proof.
  intros Hl. unfold len, candidates. pose proof (length_dedup (merge_sort address_le l)) as Hd.
  rewrite (Permutation_length (merge_sort_Permutation address_le l)) in Hd. split; [|lia].
  destruct (dedup _) eqn:E; [|simpl; lia]. destruct l as [|x l]; [done|].
  assert (x ∈ candidates (x :: l)) as Hx by (apply elem_of_candidates; set_solver).
  unfold candidates in Hx. rewrite E in Hx. by apply elem_of_nil in Hx.
Qed.

Lemma select_Ok l attempt :
  l ≠ [] → Forall (λ a, is_public_ip (sa_ip a) = true) l →
  ∃ a, select_public_destination l attempt = Ok a ∧
    candidates l !! Z.to_nat (attempt `mod` len (candidates l)) = Some a.
Proof.
  intros Hl Hp. unfold select_public_destination. rewrite bool_decide_false by done.
  apply require_all_public_Ok in Hp. rewrite Hp. simpl. fold (candidates l).
  pose proof (length_candidates l Hl) as [Hlen _].
  destruct (lookup_lt_is_Some_2 (candidates l) (Z.to_nat (attempt `mod` len (candidates l)))) as [a Ha].
  { pose proof (Z.mod_pos_bound attempt _ Hlen). unfold len in *. lia. }
  rewrite Ha. eauto.
Qed.

Lemma select_member l attempt a :
  select_public_destination l attempt = Ok a → a ∈ l ∧ is_public_ip (sa_ip a) = true.
Proof.
  unfold select_public_destination. case_bool_decide; [done|]. intros Hs. inv_result.
  destruct x. apply require_all_public_Ok in H0. rewrite Forall_forall in H0.
  apply list_elem_of_lookup_2 in Hs. apply (proj1 (elem_of_candidates l a)) in Hs. split; [done|by apply H0].
Qed.

(** The selection refuses a DNS answer that holds any non-public address;
    otherwise every attempt gets one of the answers, and as many attempts as
    there are answers try all of them. *)
Theorem selection_rotates (l : list SocketAddr) :
  (Exists (λ a, is_public_ip (sa_ip a) = false) l →
    ∀ attempt, select_public_destination l attempt = Err NonPublicAddress) ∧
  (l ≠ [] → Forall (λ a, is_public_ip (sa_ip a) = true) l →
    (∀ attempt, ∃ a, select_public_destination l attempt = Ok a ∧ a ∈ l) ∧
    ∀ a, a ∈ l → ∃ attempt, 0 <= attempt < len l ∧ select_public_destination l attempt = Ok a).
Proof.
  split.
  - intros Hex attempt. unfold select_public_destination.
    rewrite bool_decide_false by (intros ->; by apply Exists_nil in Hex).
    destruct (require_all_public l) as [[]|e] eqn:E; [|by apply require_all_public_Err in E as ->].
    apply require_all_public_Ok in E. rewrite Forall_forall in E.
    apply Exists_exists in Hex as (a & Ha & Hf). by rewrite E in Hf.
  - intros Hl Hp. split.
    + intros attempt. destruct (select_Ok l attempt Hl Hp) as (a & Hs & _). exists a.
      split; [done|]. by eapply select_member.
    + intros a Ha. apply elem_of_candidates, list_elem_of_lookup in Ha as [i Hi].
      pose proof (length_candidates l Hl) as [Hpos Hle]. pose proof (lookup_lt_Some _ _ _ Hi) as Hlt.
      exists (Z.of_nat i). split; [unfold len in *; lia|].
      destruct (select_Ok l (Z.of_nat i) Hl Hp) as (a' & Hs & Hc).
      rewrite Z.mod_small, Nat2Z.id in Hc by (unfold len; lia). congruence.
Qed.

(** ** Deliveries *)

Section delivery_facts.
Context `{Env, AuthEnv, UrlParser, TableScan}.

(** The address a request connects to: the pinned one for a host name, the
    literal itself for an address. *)
Definition connects_to (post : Post) : option IpAddr :=
  match pin (post_client post) with
  | Some (_, address) => Some (sa_ip address)
  | None => parse_ip (vc_host (post_target post))
  end.

(** A request the policy stands for. *)
Record safe_post (body : string) (post : Post) : Prop := {
  safe_public : ∃ ip, connects_to post = Some ip ∧ is_public_ip ip = true;
  safe_pinned : ∀ host address, pin (post_client post) = Some (host, address) → host = vc_host (post_target post);
  safe_redirects : follows_redirects (post_client post) = false;
  safe_scheme : url_scheme (vc_url (post_target post)) = "https";
  safe_port : url_port (vc_url (post_target post)) = None ∨ url_port (vc_url (post_target post)) = Some 443;
  safe_credentials : url_username (vc_url (post_target post)) = EmptyString ∧ url_password (vc_url (post_target post)) = None;
  safe_body : post_body post = body;
}.

Definition posts (actions : list DeliveryAction) : list Post :=
  omap (λ a, match a with Send post => Some post | Sleep _ => None end) actions.

Definition slept (actions : list DeliveryAction) : Z :=
  sum_with (λ a, match a with Send _ => 0 | Sleep s => s end) actions.

Lemma validated raw target : validate_callback_url raw = Ok target →
  url_scheme (vc_url target) = "https" ∧
  (url_port (vc_url target) = None ∨ url_port (vc_url target) = Some 443) ∧
  url_username (vc_url target) = EmptyString ∧ url_password (vc_url target) = None ∧
  url_fragment (vc_url target) = None ∧ vc_port target = 443 ∧
  ∀ ip, parse_ip (vc_host target) = Some ip → is_public_ip ip = true.
Proof.
  unfold validate_callback_url. intros Hv. case_bool_decide; [done|]. case_match; [done|].
  apply bind_Ok in Hv as (url & _ & Hv).
  case_bool_decide as Hs; [done|].
  destruct (negb _ || _) eqn:Hc; [done|]. apply orb_false_iff in Hc as [Hu Hp]. reflect_bools.
  case_bool_decide as Hf; [done|].
  destruct (match url_port url with Some _ => _ | None => _ end) eqn:Hport; [done|].
  apply bind_Ok in Hv as (host & _ & Hv). apply bind_Ok in Hv as ([] & Hip & [= <-]). simpl.
  split_and!; try done.
  - destruct (url_port url) as [port|]; [right|by left]. reflect_bools. congruence.
  - by apply eq_None_not_Some.
  - by apply eq_None_not_Some.
  - intros ip Hparse. rewrite Hparse in Hip. unfold require_public_ip in Hip.
    by destruct (is_public_ip ip).
Qed.

(** Resolution and pinning together yield a client for a public address. *)
Lemma pinned_public target attempt w client :
  (∀ ip, parse_ip (vc_host target) = Some ip → is_public_ip ip = true) →
  (address ← resolve_public_destination target attempt (at_dns w);
   build_pinned_client target address (at_builds w)) = Ok client →
  follows_redirects client = false ∧
  match pin client with
  | Some (host, address) => host = vc_host target ∧ is_public_ip (sa_ip address) = true
  | None => ∃ ip, parse_ip (vc_host target) = Some ip ∧ is_public_ip ip = true
  end.
Proof.
  intros Hlit Hc. apply bind_Ok in Hc as (address & Hr & Hb).
  unfold build_pinned_client in Hb. destruct (at_builds w); [|done]. injection Hb as <-.
  split; [done|]. simpl. unfold resolve_public_destination in Hr.
  destruct (parse_ip (vc_host target)) as [ip|] eqn:Hip; [eauto|].
  apply bind_Ok in Hr as (addresses & _ & Hsel). split; [done|]. by apply select_member in Hsel as [_ ?].
Qed.

Lemma attempts_safe attempts world target scheme secret body last raw :
  validate_callback_url raw = Ok target →
  Forall (safe_post body) (posts (attempts_from attempts world target scheme secret body last).1).
Proof.
  intros Hval. apply validated in Hval as (Hs & Hport & Hu & Hpw & _ & _ & Hlit). revert last.
  induction attempts as [|attempt rest IH]; intros last; [constructor|]. cbn [attempts_from].
  destruct (_ ≫= _) as [client|reason] eqn:Hc; [|constructor].
  apply pinned_public in Hc as [Hredir Hpin]; [|done].
  assert (∀ post, post_client post = client → post_target post = target → post_body post = body →
    safe_post body post) as Hpost.
  { intros post Hcl Ht Hb. constructor; rewrite ?Hcl, ?Ht; try done.
    - unfold connects_to. rewrite Hcl, Ht. destruct (pin client) as [[host a]|]; [|done]. naive_solver.
    - intros host a Hpn. rewrite Hpn in Hpin. by destruct Hpin. }
  destruct (match at_answer _ with Some _ => _ | None => _ end); simpl.
  { constructor; [by apply Hpost|constructor]. }
  specialize (IH (or_else (at_answer (world attempt)) last)).
  destruct (attempts_from rest _ _ _ _ _ _) as [actions outcome]. simpl in *.
  constructor; [by apply Hpost|]. destruct (_ <? _); exact IH.
Qed.

(** The pause after an attempt. *)
Definition pause (attempt : Z) : Z :=
  if attempt + 1 <? MAX_ATTEMPTS then default 4 (BACKOFF_SECS !! Z.to_nat attempt) else 0.

Lemma pause_nonneg attempt : 0 <= pause attempt.
Proof. unfold pause. destruct (_ <? _); [|done]. by destruct (Z.to_nat attempt) as [|[|[|?]]]. Qed.

Lemma attempts_bounded attempts world target scheme secret body last :
  let actions := (attempts_from attempts world target scheme secret body last).1 in
  (length (posts actions) <= length attempts)%nat ∧ slept actions <= sum_with pause attempts.
Proof.
  revert last. induction attempts as [|attempt rest IH]; intros last; cbn [attempts_from]; [done|].
  cbn [sum_with length]. pose proof (pause_nonneg attempt) as Ha.
  pose proof (sum_with_nonneg pause rest pause_nonneg) as Hr.
  destruct (_ ≫= _) as [client|reason]; [|split; cbn; lia].
  destruct (match at_answer _ with Some _ => _ | None => _ end); [split; cbn; lia|].
  specialize (IH (or_else (at_answer (world attempt)) last)).
  destruct (attempts_from rest _ _ _ _ _ _) as [actions outcome]. cbn [fst] in *. destruct IH as [IH1 IH2].
  unfold pause at 1.
  destruct (attempt + 1 <? MAX_ATTEMPTS); (split; [cbn; fold (posts actions); lia|]).
  - change (0 + (default 4 (BACKOFF_SECS !! Z.to_nat attempt) + slept actions)
      <= default 4 (BACKOFF_SECS !! Z.to_nat attempt) + sum_with pause rest). lia.
  - change (0 + slept actions <= 0 + sum_with pause rest). lia.
Qed.

Lemma elem_of_chunks {A} fuel n (l : list A) batch :
  batch ∈ chunks fuel n l → (length batch <= n)%nat ∧ ∀ x, x ∈ batch → x ∈ l.
Proof.
  revert l. induction fuel as [|fuel IH]; intros [|y l]; simpl; [set_solver..|].
  intros [->|Hin]%elem_of_cons.
  - rewrite length_take. split; [lia|]. intros x Hx.
    rewrite <-(take_drop n (y :: l)). set_solver.
  - apply IH in Hin as [Hlen Hsub]. split; [done|]. intros x Hx%Hsub.
    rewrite <-(take_drop n (y :: l)). set_solver.
Qed.

Lemma concat_chunks {A} fuel n (l : list A) :
  (0 < n)%nat → (length l <= fuel)%nat → concat (chunks fuel n l) = l.
Proof.
  intros Hn. revert l. induction fuel as [|fuel IH]; intros [|y l] Hf; simpl in *; [done|lia|done|].
  destruct n as [|n]; [lia|]. rewrite IH; [apply (take_drop (S n) (y :: l))|].
  simpl. rewrite length_drop. lia.
Qed.

Definition subscribers s ev : list PushNotificationConfigRow :=
  match list_push_configs s (de_task_id ev) with
  | Ok configs => take (Z.to_nat MAX_CONFIGS_PER_TASK) configs
  | Err _ => []
  end.

(** The batches cut the first sixteen subscribers, in order. *)
Lemma deliver_event_batches world s ev : ∃ batches,
  deliver_event world s ev =
    (λ batch : list _, (λ cfg, deliver_to_subscriber (world (p_config_id cfg)) cfg (json_text (build_body ev))) <$> batch)
      <$> batches ∧
  concat batches = subscribers s ev ∧ Forall (λ batch, (length batch <= 4)%nat) batches.
Proof.
  unfold deliver_event, subscribers. destruct (list_push_configs s (de_task_id ev)) as [configs|e].
  2: { exists []. done. }
  replace (if MAX_CONFIGS_PER_TASK <? len configs then _ else configs)
    with (take (Z.to_nat MAX_CONFIGS_PER_TASK) configs).
  2: { destruct (Z.ltb_spec MAX_CONFIGS_PER_TASK (len configs)); [done|].
       rewrite take_ge; [done|]. unfold len, MAX_CONFIGS_PER_TASK in *. lia. }
  eexists. split; [done|]. split; [apply concat_chunks; unfold MAX_CONCURRENT_DELIVERIES; lia|].
  apply Forall_forall. intros batch Hb%elem_of_chunks. unfold MAX_CONCURRENT_DELIVERIES in Hb. naive_solver lia.
Qed.

(** C32: Whatever callbacks clients configured and whatever DNS and the network
    answer, every request the delivery worker sends for an event goes over
    HTTPS on port 443 to a public address that was checked for this attempt,
    without credentials in the URL, without following redirects, and carries
    the body of that event. *)
Theorem deliveries_reach_public_hosts world s ev batch delivery post :
  batch ∈ deliver_event world s ev → delivery ∈ batch → post ∈ posts delivery.1 →
  safe_post (json_text (build_body ev)) post.
Proof.
  intros Hb Hd Hp. destruct (deliver_event_batches world s ev) as (batches & Heq & _ & _).
  rewrite Heq in Hb. apply list_elem_of_fmap in Hb as (cfgs & -> & _).
  apply list_elem_of_fmap in Hd as (cfg & -> & _). unfold deliver_to_subscriber in Hp.
  destruct (decode_auth _) as [scheme secret]. destruct (validate_callback_url _) as [target|e] eqn:Hv.
  - pose proof (attempts_safe (seqZ 0 MAX_ATTEMPTS) (world (p_config_id cfg)) target scheme secret
      (json_text (build_body ev)) None _ Hv) as Hsafe.
    rewrite Forall_forall in Hsafe. by apply Hsafe.
  - by apply elem_of_nil in Hp.
Qed.

(** One event costs a bounded amount of work: at most sixteen subscribers
    (the first of the task in creation order), at most four at a time, each
    with at most three requests and three seconds of waiting. *)
Theorem delivery_bounded world s ev :
  let batches := deliver_event world s ev in
  length (concat batches) = length (subscribers s ev) ∧
  (length (concat batches) <= 16)%nat ∧
  ∀ batch, batch ∈ batches → (length batch <= 4)%nat ∧
    ∀ delivery, delivery ∈ batch → (length (posts delivery.1) <= 3)%nat ∧ slept delivery.1 <= 3.
Proof.
  destruct (deliver_event_batches world s ev) as (batches & Heq & Hcat & Hlen). simpl. rewrite Heq.
  assert (length (concat ((λ batch : list _, (λ cfg, deliver_to_subscriber (world (p_config_id cfg)) cfg
    (json_text (build_body ev))) <$> batch) <$> batches)) = length (subscribers s ev)) as Hn.
  { rewrite <-Hcat. clear. induction batches as [|b bs IH]; csimpl; [done|].
    by rewrite !length_app, IH, length_fmap. }
  split; [done|]. split.
  - rewrite Hn. unfold subscribers. destruct (list_push_configs _ _); [|simpl; lia].
    rewrite length_take. unfold MAX_CONFIGS_PER_TASK. lia.
  - intros batch (cfgs & -> & Hin)%list_elem_of_fmap. rewrite length_fmap.
    rewrite Forall_forall in Hlen. split; [by apply Hlen|].
    intros delivery (cfg & -> & _)%list_elem_of_fmap. unfold deliver_to_subscriber.
    destruct (decode_auth _). destruct (validate_callback_url _) as [target|]; [|split; cbn; lia].
    edestruct (attempts_bounded (seqZ 0 MAX_ATTEMPTS)) as [Hp Hs]. split; [exact Hp|].
    etransitivity; [exact Hs|]. done.
Qed.
End delivery_facts.

(** ** Sample deliveries *)

#[local] Existing Instance sample_env.
#[local] Existing Instance sample_auth.
#[local] Existing Instance sample_scan.

(** A parser for URLs that are a scheme, a host and a path. *)
#[local] Instance sample_url_parser : UrlParser := {|
  url_parse := λ s,
    rest ← strip_prefix s "https://";
    Some {| url_scheme := "https"; url_username := EmptyString; url_password := None;
            url_fragment := None; url_port := None; url_host := head (split_char "/"%char rest);
            url_text := s |}
|}.

Definition sample_world (_ : string) (attempt : Z) : Attempt :=
  {| at_dns := Some [SaV4 (V4Addr 93 184 216 34) 443]; at_builds := true; at_time := 5;
     at_answer := if attempt =? 0 then Some 500 else Some 204 |}.

Definition push_store : TaskStore := (put_push_config store_1 (sample_push "p-1")).1.
Definition push_event : DeliveryEvent :=
  {| de_task_id := "t-1"; de_status_event := json_obj [("status", json_obj [("state", JStr "working")])] |}.

Lemma public_ip_by_blocks_witness :
  is_public_ip (V4 (V4Addr 93 184 216 34)) = public_by_blocks (V4 (V4Addr 93 184 216 34)).
Proof. apply public_ip_by_blocks. repeat split; simpl; lia. Defined.

Definition sample_batch : list (list DeliveryAction * DeliveryOutcome) :=
  default [] (head (deliver_event sample_world push_store push_event)).
Definition sample_delivery : list DeliveryAction * DeliveryOutcome :=
  default ([], Delivered) (head sample_batch).

Lemma deliveries_reach_public_hosts_witness :
  ∃ post, head (posts sample_delivery.1) = Some post ∧ length (posts sample_delivery.1) = 2%nat ∧
    safe_post (json_text (build_body push_event)) post.
Proof.
  eexists. split; [vm_compute; reflexivity|]. split; [vm_compute; reflexivity|].
  apply (deliveries_reach_public_hosts sample_world push_store push_event sample_batch sample_delivery).
  - vm_compute. apply list_elem_of_here.
  - vm_compute. apply list_elem_of_here.
  - vm_compute. apply list_elem_of_here.
Defined.
