(* ===== verification/Extensions.v ===== *)
(** * Server-side A2A extensions

    Models management/agentic-sandbox-executor/src/extensions/mod.rs with the
    handlers of runtime.rs, hitl_prompt.rs, multi_tenant.rs and
    pty_extensions.rs; idempotency.rs and flow_graph.rs are modelled in
    [Idempotency] and [FlowGraph].  A handler is a record of its URI, whether it
    is required, and its two hooks; the registry runs them in order.  Hooks
    that only write to the log are the identity. *)

From Stdlib Require Import Ascii.
From S2P Require Import Prelude Text Http Json FlowGraph TaskStore Idempotency.

Local Open Scope string_scope.
Local Open Scope list_scope.
Local Open Scope Z_scope.

(** ** Instances *)

Inductive RuntimeKind : Type := Vm | Container | Host.

Definition kind_str (k : RuntimeKind) : string :=
  match k with Vm => "vm" | Container => "container" | Host => "host" end.

(** The fields of [InstanceContext] the handlers read. *)
Record InstanceContext : Type := {
  inst_id : string;
  inst_runtime_kind : RuntimeKind;
  inst_host : string;
  inst_runtime_provider : option string;
  inst_runtime_capabilities : list string;
  inst_ready : bool;
}.

(** ** Activated extensions *)

Abbreviation ActivatedExtensions := (list string).

Definition from_headers (headers : HeaderMap) : ActivatedExtensions :=
  filter (λ s, s ≠ EmptyString)
    (trim <$> concat (split_char ","%char <$>
      omap snd (filter (λ h, h.1 = "a2a-extensions") headers))).

Definition activated_contains (activated : ActivatedExtensions) (uri : string) : bool :=
  existsb (λ u, eq_ignore_ascii_case u uri) activated.

(** [to_response_header]: header text is visible ASCII already. *)
Definition to_response_header (activated : ActivatedExtensions) : string :=
  String.concat ", " activated.

(** ** Handlers *)

Record PreRequestCtx : Type := {
  pre_activated : ActivatedExtensions;
  pre_message_id : option string;
  pre_request_body : json;
  pre_protocol_version : string;
}.

Record PostResponseCtx : Type := {
  post_activated : ActivatedExtensions;
  post_task_id : string;
  post_status : Z;
  post_instance : option InstanceContext;
}.

Abbreviation Cache := (IdempotencyCache TaskStore).

(** The hooks of a handler; [pre_request] may touch the idempotency cache. *)
Record ExtensionHandler : Type := {
  ext_uri : string;
  ext_required : bool;
  ext_pre_request : Z → Cache → PreRequestCtx → Cache * ExtensionOutcome;
  ext_post_response : PostResponseCtx → json → json;
}.

Abbreviation ExtensionRegistry := (list ExtensionHandler).

Fixpoint registry_pre_request (handlers : ExtensionRegistry) (now : Z) (c : Cache)
    (ctx : PreRequestCtx) : Cache * ExtensionOutcome :=
  match handlers with
  | [] => (c, Continue)
  | h :: rest =>
      match ext_pre_request h now c ctx with
      | (c, Continue) => registry_pre_request rest now c ctx
      | other => other
      end
  end.

Definition registry_post_response (handlers : ExtensionRegistry) (ctx : PostResponseCtx)
    (response_body : json) : json :=
  foldl (λ body h, ext_post_response h ctx body) response_body handlers.

Definition enforce_required (handlers : ExtensionRegistry) (activated : ActivatedExtensions)
    : result json unit :=
  match find_first (λ h, ext_required h && negb (activated_contains activated (ext_uri h))) handlers with
  | Some h => Err (json_obj [
      ("type", JStr "https://agentic-sandbox.aiwg.io/errors/extension-required");
      ("title", JStr "Required extension not activated");
      ("status", JNum 400);
      ("code", JStr "extension.required_not_activated");
      ("detail", JStr ("Required extension " +:+ ext_uri h +:+ " not in A2A-Extensions header"))])
  | None => Ok ()
  end.

Definition echo_activated (handlers : ExtensionRegistry) (activated : ActivatedExtensions)
    : ActivatedExtensions :=
  filter (λ u, existsb (λ h, eq_ignore_ascii_case (ext_uri h) u) handlers = true) activated.

(** The defaults of the trait. *)
Definition no_pre_request (now : Z) (c : Cache) (ctx : PreRequestCtx) : Cache * ExtensionOutcome :=
  (c, Continue).
Definition no_post_response (ctx : PostResponseCtx) (body : json) : json := body.

(** ** The runtime extension *)

Definition RUNTIME_URI : string := "https://agentic-sandbox.aiwg.io/extensions/runtime/v1".
Definition HITL_PROMPT_URI : string := "https://agentic-sandbox.aiwg.io/extensions/hitl-prompt/v1".
Definition IDEMPOTENCY_URI : string := "https://agentic-sandbox.aiwg.io/extensions/idempotency/v1".
Definition MULTI_TENANT_URI : string := "https://agentic-sandbox.aiwg.io/extensions/multi-tenant/v1".
Definition PTY_URI : string := "https://agentic-sandbox.aiwg.io/extensions/pty-extensions/v1".

Definition runtime_post_response (runtime_kind : RuntimeKind) (host : string)
    (ctx : PostResponseCtx) (body : json) : json :=
  if negb (activated_contains (post_activated ctx) RUNTIME_URI) then body
  else if negb (is_success (post_status ctx)) then body
  else match body with
  | JObj obj =>
      let obj := match map_get obj "metadata" with
        | Some _ => obj
        | None => map_insert obj "metadata" (JObj [])
        end in
      match map_get obj "metadata" with
      | Some (JObj metadata) =>
          let '(kind, host, instance_id, provider, capabilities) :=
            match post_instance ctx with
            | Some inst => (kind_str (inst_runtime_kind inst), inst_host inst, inst_id inst,
                inst_runtime_provider inst, inst_runtime_capabilities inst)
            | None => (kind_str runtime_kind, host, post_task_id ctx, None, [])
            end in
          let metadata := map_insert metadata "runtime.instance_id" (JStr instance_id) in
          let metadata := map_insert metadata "runtime.kind" (JStr kind) in
          let metadata := map_insert metadata "runtime.host" (JStr host) in
          let metadata := match provider with
            | Some provider => map_insert metadata "runtime.provider" (JStr provider)
            | None => metadata
            end in
          let metadata := match capabilities with
            | [] => metadata
            | _ => map_insert metadata "runtime.capabilities" (JArr (JStr <$> capabilities))
            end in
          JObj (map_insert obj "metadata" (JObj metadata))
      | _ => JObj obj
      end
  | _ => body
  end.

(** ** HITL responses *)

Definition as_bool (v : json) : option bool := match v with JBool b => Some b | _ => None end.

(** The type tests of one property; the expected type when one fails. *)
Definition type_mismatch (prop_schema value : json) : option string :=
  t ← json_get prop_schema "type" ≫= as_str;
  if (bool_decide (t = "boolean") && match value with JBool _ => false | _ => true end)
     || (bool_decide (t = "string") && match value with JStr _ => false | _ => true end)
     || (bool_decide (t = "object") && match value with JObj _ => false | _ => true end)
     || (bool_decide (t = "array") && match value with JArr _ => false | _ => true end)
  then Some t else None.

Fixpoint check_required (required : list string) (payload : json_map) : result string unit :=
  match required with
  | [] => Ok ()
  | key :: rest =>
      if contains_key payload key then check_required rest payload
      else Err ("response payload missing required property " +:+ key)
  end.

Fixpoint check_additional (payload properties : json_map) : result string unit :=
  match payload with
  | [] => Ok ()
  | (key, _) :: rest =>
      if contains_key properties key then check_additional rest properties
      else Err ("additional property '" +:+ key +:+ "' is not permitted")
  end.

Fixpoint check_properties (properties payload : json_map) : result string unit :=
  match properties with
  | [] => Ok ()
  | (key, prop_schema) :: rest =>
      match map_get payload key with
      | None => check_properties rest payload
      | Some value =>
          match type_mismatch prop_schema value with
          | Some expected => Err ("expected " +:+ expected +:+ " at /" +:+ key)
          | None => check_properties rest payload
          end
      end
  end.

Definition validate_response_schema (schema payload : json) : result string unit :=
  if bool_decide (json_get schema "type" ≫= as_str ≠ Some "object")
  then Err "response_schema type must be object" else
  payload_obj ← ok_or (as_object payload) "response payload.payload must be an object";
  _ ← (match json_get schema "required" ≫= as_array with
       | Some required => check_required (omap as_str required) payload_obj
       | None => Ok ()
       end);
  let properties := default [] (json_get schema "properties" ≫= as_object) in
  _ ← (if bool_decide (json_get schema "additionalProperties" ≫= as_bool = Some false)
       then check_additional payload_obj properties else Ok ());
  check_properties properties payload_obj.

Definition validate_hitl_response (stored_envelope response_payload : json) : result string unit :=
  env_pid ← ok_or (json_get stored_envelope "prompt_id" ≫= as_str) "stored envelope missing prompt_id";
  resp_obj ← ok_or (as_object response_payload) "response payload must be an object";
  resp_pid ← ok_or (map_get resp_obj "prompt_id" ≫= as_str) "response payload missing prompt_id";
  if bool_decide (env_pid ≠ resp_pid)
  then Err ("prompt_id mismatch: envelope=" +:+ env_pid +:+ ", response=" +:+ resp_pid) else
  payload ← ok_or (map_get resp_obj "payload") "response payload missing payload";
  schema ← ok_or (json_get stored_envelope "response_schema") "stored envelope missing response_schema";
  validate_response_schema schema payload.

(** ** The default registry *)

Section registry.
Context `{Env, TableScan}.

(** [build_default_registry(idem, runtime_kind, loadout, host)] *)
Definition build_default_registry (runtime_kind : RuntimeKind) (host : string) : ExtensionRegistry :=
  [ {| ext_uri := RUNTIME_URI; ext_required := true; ext_pre_request := no_pre_request;
       ext_post_response := runtime_post_response runtime_kind host |};
    {| ext_uri := HITL_PROMPT_URI; ext_required := false; ext_pre_request := no_pre_request;
       ext_post_response := no_post_response |};
    {| ext_uri := IDEMPOTENCY_URI; ext_required := false;
       ext_pre_request := λ now c ctx,
         pre_request now c (activated_contains (pre_activated ctx) IDEMPOTENCY_URI)
           (pre_message_id ctx) (pre_protocol_version ctx) (pre_request_body ctx);
       ext_post_response := no_post_response |};
    {| ext_uri := URI; ext_required := false;
       ext_pre_request := λ _ c ctx,
         (c, graph_pre_request (activated_contains (pre_activated ctx) URI) (pre_request_body ctx));
       ext_post_response := no_post_response |};
    {| ext_uri := MULTI_TENANT_URI; ext_required := false; ext_pre_request := no_pre_request;
       ext_post_response := no_post_response |};
    {| ext_uri := PTY_URI; ext_required := false; ext_pre_request := no_pre_request;
       ext_post_response := no_post_response |} ].
End registry.

(** The middleware of the mutating routes; [conformance] is the environment
    variable that bypasses it. *)
Definition require_extensions_middleware `{Env} {S : Type} (handlers : ExtensionRegistry)
    (conformance : bool) (next : S → Request → S * HttpResponse) (st : S) (req : Request)
    : S * HttpResponse :=
  if conformance then next st req
  else match enforce_required handlers (from_headers (req_headers req)) with
  | Err body => (st, {| resp_status := BAD_REQUEST;
      resp_headers := [("content-type", Some "application/problem+json")];
      resp_body := json_text body |})
  | Ok _ => next st req
  end.

(** ** What an accepted answer satisfies *)

Definition has_type (t : string) (value : json) : Prop :=
  (t = "boolean" → ∃ b, value = JBool b) ∧ (t = "string" → ∃ s, value = JStr s) ∧
  (t = "object" → ∃ m, value = JObj m) ∧ (t = "array" → ∃ l, value = JArr l).

Record conforms (schema : json) (payload : json_map) : Prop := {
  cf_object : json_get schema "type" = Some (JStr "object");
  cf_required required key : json_get schema "required" = Some (JArr required) → JStr key ∈ required →
    is_Some (map_get payload key);
  cf_closed key v : json_get schema "additionalProperties" = Some (JBool false) → (key, v) ∈ payload →
    ∃ properties, json_get schema "properties" = Some (JObj properties) ∧ is_Some (map_get properties key);
  cf_typed properties key s t v : json_get schema "properties" = Some (JObj properties) →
    (key, s) ∈ properties → json_get s "type" = Some (JStr t) → map_get payload key = Some v → has_type t v;
}.

Lemma as_str_Some v s : as_str v = Some s ↔ v = JStr s.
Proof. destruct v; naive_solver. Qed.

Lemma get_str v k s : json_get v k ≫= as_str = Some s ↔ json_get v k = Some (JStr s).
Proof. destruct (json_get v k) as [x|]; simpl; [rewrite as_str_Some; naive_solver|done]. Qed.

Lemma type_mismatch_None s v :
  type_mismatch s v = None ↔ ∀ t, json_get s "type" = Some (JStr t) → has_type t v.
Proof.
  unfold type_mismatch. setoid_rewrite <- get_str. destruct (json_get s "type" ≫= as_str) as [t|]; [|done].
  simpl. unfold has_type. split.
  - intros Hm t' [= <-]. destruct v; repeat case_bool_decide; naive_solver.
  - intros Ht. destruct (Ht t eq_refl) as (H1 & H2 & H3 & H4).
    destruct v; repeat case_bool_decide; simpl; try done; exfalso;
      first [by destruct (H1 ltac:(done))|by destruct (H2 ltac:(done))
            |by destruct (H3 ltac:(done))|by destruct (H4 ltac:(done))].
Qed.

Lemma check_required_Ok required payload :
  check_required required payload = Ok () ↔ ∀ key, key ∈ required → is_Some (map_get payload key).
Proof.
  induction required as [|key rest IH]; simpl; [set_solver|]. destruct (contains_key payload key) eqn:Hk.
  - apply contains_key_true in Hk. rewrite IH. set_solver.
  - split; [done|]. intros Ha. assert (contains_key payload key = true) as Ht; [|congruence].
    apply contains_key_true, Ha. set_solver.
Qed.

Lemma check_additional_Ok payload properties :
  check_additional payload properties = Ok () ↔ ∀ key v, (key, v) ∈ payload → is_Some (map_get properties key).
Proof.
  induction payload as [|[key v] rest IH]; simpl; [set_solver|]. destruct (contains_key properties key) eqn:Hk.
  - apply contains_key_true in Hk. rewrite IH. split; [|set_solver].
    intros Ha k x [[= -> ->]|Hin]%elem_of_cons; [done|by eapply Ha].
  - split; [done|]. intros Ha. assert (contains_key properties key = true) as Ht; [|congruence].
    apply contains_key_true, (Ha key v). set_solver.
Qed.

Lemma check_properties_Ok properties payload :
  check_properties properties payload = Ok () ↔
  ∀ key s v, (key, s) ∈ properties → map_get payload key = Some v → type_mismatch s v = None.
Proof.
  induction properties as [|[key s] rest IH]; simpl; [set_solver|].
  destruct (map_get payload key) as [v|] eqn:Hv; [destruct (type_mismatch s v) eqn:Ht|]; rewrite ?IH.
  - split; [done|]. intros Ha. specialize (Ha key s v ltac:(set_solver) Hv). congruence.
  - split; [|set_solver]. intros Ha k s' v' [[= -> ->]|Hin]%elem_of_cons Hk; [congruence|by eapply Ha].
  - split; [|set_solver]. intros Ha k s' v' [[= -> ->]|Hin]%elem_of_cons Hk; [congruence|by eapply Ha].
Qed.

Lemma validate_response_schema_Ok schema payload :
  validate_response_schema schema payload = Ok () ↔ ∃ obj, payload = JObj obj ∧ conforms schema obj.
Proof.
  unfold validate_response_schema. case_bool_decide as Hobj.
  { split; [done|]. intros (obj & _ & [Ht _ _ _]). by apply get_str in Ht. }
  apply get_str in Hobj.
  destruct payload as [| | | | |obj]; simpl;
    try (split; [done|by intros (? & ? & _)]).
  set (properties := default [] (json_get schema "properties" ≫= as_object)).
  assert (∀ key s, (key, s) ∈ properties ↔
    ∃ m, json_get schema "properties" = Some (JObj m) ∧ (key, s) ∈ m) as Hprops.
  { intros key s. subst properties. destruct (json_get schema "properties") as [[]|]; simpl; set_solver. }
  assert (∀ key, is_Some (map_get properties key) ↔
    ∃ m, json_get schema "properties" = Some (JObj m) ∧ is_Some (map_get m key)) as Hkeys.
  { intros key. subst properties. destruct (json_get schema "properties") as [[]|]; simpl; naive_solver. }
  rewrite bind_Ok. setoid_rewrite bind_Ok. split.
  - intros ([] & Hreq & [] & Hadd & Hty). exists obj. split; [done|]. constructor; [done|..].
    + intros required key Hr Hin. rewrite Hr in Hreq. simpl in Hreq. rewrite check_required_Ok in Hreq.
      apply Hreq. apply list_elem_of_omap. by exists (JStr key).
    + intros key v Hc Hin. rewrite Hc in Hadd. change (check_additional obj properties = Ok ()) in Hadd.
      rewrite check_additional_Ok in Hadd. by eapply Hkeys, Hadd.
    + intros m key s t v Hm Hin Ht Hv. rewrite check_properties_Ok in Hty.
      eapply type_mismatch_None; [|exact Ht]. eapply Hty; [|exact Hv]. apply Hprops. eauto.
  - intros (obj' & [= <-] & [_ Hreq Hadd Hty]). exists (). split; [|exists (); split].
    + destruct (json_get schema "required") as [[]|]; simpl; try done. apply check_required_Ok.
      intros key (v & Hin & ->%as_str_Some)%list_elem_of_omap. by eapply Hreq.
    + case_bool_decide as Hc; [|done]. apply check_additional_Ok. intros key v Hin. apply Hkeys.
      eapply Hadd; [|exact Hin]. destruct (json_get schema "additionalProperties") as [[]|]; naive_solver.
    + apply check_properties_Ok. intros key s v (m & Hm & Hin)%Hprops Hv. apply type_mismatch_None.
      intros t Ht. by eapply Hty.
Qed.

(** A human answer is accepted exactly when it names the stored prompt and its
    payload is an object that conforms to the stored schema: required keys are
    there, no key is outside a closed schema, and typed properties have their
    type. *)
Theorem hitl_answer_accepted_iff envelope response :
  validate_hitl_response envelope response = Ok () ↔
  ∃ pid answer payload schema,
    json_get envelope "prompt_id" = Some (JStr pid) ∧ response = JObj answer ∧
    map_get answer "prompt_id" = Some (JStr pid) ∧ map_get answer "payload" = Some (JObj payload) ∧
    json_get envelope "response_schema" = Some schema ∧ conforms schema payload.
Proof.
  unfold validate_hitl_response. rewrite bind_Ok. setoid_rewrite ok_or_Ok. setoid_rewrite get_str. split.
  - intros (pid & Hpid & Hr). apply bind_Ok in Hr as (answer & Ha & Hr). apply ok_or_Ok in Ha.
    apply bind_Ok in Hr as (pid' & Hp & Hr). apply ok_or_Ok in Hp. case_bool_decide as Heq; [done|].
    subst pid'. apply bind_Ok in Hr as (payload & Hpay & Hr). apply ok_or_Ok in Hpay.
    apply bind_Ok in Hr as (schema & Hsch & Hr). apply ok_or_Ok in Hsch.
    apply validate_response_schema_Ok in Hr as (obj & -> & Hconf).
    destruct response; try done. simpl in Ha. injection Ha as <-.
    exists pid, m, obj, schema. split_and!; try done. by apply (get_str (JObj m)).
  - intros (pid & answer & payload & schema & Hpid & -> & Hp & Hpay & Hsch & Hconf).
    exists pid. split; [done|]. simpl. rewrite Hp. simpl. rewrite bool_decide_false by tauto.
    rewrite Hpay. simpl. rewrite Hsch. simpl. apply validate_response_schema_Ok. eauto.
Qed.
