(* ===== verification/TaskHandlers.v ===== *)
(** * The executor's task handlers

    Models management/agentic-sandbox-executor/src/handlers: mod.rs (the wire
    form of a task), get_task.rs, list_tasks.rs, cancel_task.rs,
    graph_checkpoint.rs, send_message.rs with the HITL responses, and
    push_notification.rs, over the task store and the idempotency cache, which
    share one database.

    A handler takes the shared state and returns it with its response; [None]
    in place of the response is a panic in the handler.  Handlers that read a
    row and write it back later are split there ([cancel_read] and
    [cancel_write], ...), and [send_message] is split at the await on the
    dispatch to the runtime ([send_begin], [send_finish]): between the pieces
    other handlers may run.  Texts of third-party errors, UUIDs and base64 are
    the class [HandlerText]. *)

From Stdlib Require Import Ascii.
From S2P Require Import Prelude Text Http Net Json CelldAuth Protocol FlowGraph TaskStore.
From S2P Require Import Idempotency Extensions PushPolicy.

Local Open Scope string_scope.
Local Open Scope list_scope.
Local Open Scope Z_scope.

Class HandlerText : Type := {
  (** [Display] of a store error and of a JSON parse error of a body *)
  store_error_text : StoreError → string;
  body_error_text : string → string;
  (** [Uuid::now_v7().to_string()], the i-th drawn *)
  uuid_text : Z → string;
  (** [URL_SAFE_NO_PAD] *)
  b64url_encode : string → string;
  b64url_decode : string → option string;
}.

(** The shared state: the cache with the database behind it, and the queue of
    the delivery worker. *)
Record AppState : Type := {
  app_idem : Cache;
  app_delivery : list DeliveryEvent;
  app_extensions : ExtensionRegistry;
}.

Definition app_store (a : AppState) : TaskStore := cache_store (app_idem a).

Definition set_store (a : AppState) (s : TaskStore) : AppState :=
  a <| app_idem ::= λ c, with_store c s |>.

(** [try_send]: refused when the channel is full. *)
Definition try_send (a : AppState) (ev : DeliveryEvent) : AppState :=
  if len (app_delivery a) <? CHANNEL_CAPACITY then a <| app_delivery ::= (.++ [ev]) |> else a.

Abbreviation Answer := (option HttpResponse).

Section handlers.
Context `{Env, TableScan, AuthEnv, UrlParser, HandlerText}.
Implicit Types (a : AppState) (row : TaskRow) (instance_id tid : string).

Definition error_uri (name : string) : string := "https://agentic-sandbox.aiwg.io/errors/" +:+ name.

(** [error_response] of bindings/rest.rs. *)
Definition error_response (status : Z) (type_uri title detail code instance_id : string) : HttpResponse :=
  {| resp_status := status;
     resp_headers := [("content-type", Some "application/problem+json")];
     resp_body := json_text (json_obj [("type", JStr type_uri); ("title", JStr title);
       ("status", JNum status); ("detail", JStr detail); ("code", JStr code);
       ("trace_id", JStr EmptyString); ("instance_id", JStr instance_id)]) |}.

Definition json_response (status : Z) (body : json) : HttpResponse :=
  {| resp_status := status; resp_headers := [("content-type", Some "application/json")];
     resp_body := json_text body |}.

Definition internal_error (detail instance_id : string) : HttpResponse :=
  error_response INTERNAL_SERVER_ERROR (error_uri "internal") "Internal server error" detail
    "internal.error" instance_id.

(** ** The wire form of a task *)

(** [obj.entry(k).or_insert_with(..)] *)
Definition entry_or_insert (m : json_map) (k : string) (v : json) : json_map :=
  match map_get m k with Some _ => m | None => map_insert m k v end.

Definition status_fields row (obj : json_map) : json_map :=
  let obj := copy_optional obj "fail_kind" ((λ k, JStr (fail_kind_as_str k)) <$> t_fail_kind row) in
  copy_optional obj "terminal_at" ((λ t, JStr (rfc3339 t)) <$> t_terminal_at row).

Definition task_status row : json :=
  match t_status_json row with
  | JObj obj =>
      let obj := map_insert obj "state" (JStr (task_state_as_str (t_state row))) in
      let obj := entry_or_insert obj "timestamp" (JStr (rfc3339 (t_updated_at row))) in
      JObj (status_fields row obj)
  | _ =>
      JObj (status_fields row (map_collect [
        ("state", JStr (task_state_as_str (t_state row)));
        ("timestamp", JStr (rfc3339 (t_updated_at row)))]))
  end.

Definition task_row_to_a2a row : json :=
  let task := map_collect [("id", JStr (t_task_id row)); ("kind", JStr "task");
                           ("status", task_status row)] in
  let task := copy_optional task "contextId" (JStr <$> t_context_id row) in
  JObj match t_metadata_json row with
  | None => task
  | Some meta =>
      let '(public_metadata, internal) := match meta with
        | JObj object => (JObj (map_remove object "_a2a"), map_get object "_a2a")
        | _ => (meta, None)
        end in
      let task := match internal with
        | Some internal =>
            copy_optional (copy_optional task "history" (json_get internal "history"))
              "artifacts" (json_get internal "artifacts")
        | None => task
        end in
      match public_metadata with
      | JObj (_ :: _) => map_insert task "metadata" public_metadata
      | _ => task
      end
  end.

(** The query [historyLength]: the newest entries, none of it for 0. *)
Definition limit_history (limit : Z) (task : json) : json :=
  match task with
  | JObj obj =>
      let obj := match map_get obj "history" with
        | Some (JArr history) =>
            map_insert obj "history" (JArr (drop (Z.to_nat (sat_sub (len history) limit)) history))
        | _ => obj
        end in
      JObj (if limit =? 0 then map_remove obj "history" else obj)
  | _ => task
  end.

Definition task_not_found (detail instance_id : string) : HttpResponse :=
  error_response NOT_FOUND (error_uri "task-not-found") "Task not found" detail "task.not_found"
    instance_id.

(** ** tasks/get *)

Definition get_task_handler a instance_id tid (history_length : option Z) : HttpResponse :=
  match get_task_for_instance (app_store a) instance_id tid with
  | Ok (Some row) =>
      let task_json := task_row_to_a2a row in
      json_response OK (match history_length with
        | Some limit => limit_history limit task_json
        | None => task_json
        end)
  | Ok None => task_not_found ("Task '" +:+ tid +:+ "' not found") instance_id
  | Err e => internal_error ("Failed to read task: " +:+ store_error_text e) instance_id
  end.

(** ** tasks/list *)

Definition DEFAULT_LIMIT : Z := 25.
Definition MAX_LIMIT : Z := 100.

Record ListQuery : Type := {
  q_limit : option Z;
  q_cursor : option string;
  q_state : option string;
}.

Definition encode_cursor (ms : Z) : string := b64url_encode (pretty ms).
Definition decode_cursor (s : string) : option Z := bytes ← b64url_decode s; parse_i64 bytes.

Definition timestamp_millis (t : Z) : Z := t / 1000000.

Definition page_limit (q : ListQuery) : Z :=
  Z.max (Z.min (default DEFAULT_LIMIT (q_limit q)) MAX_LIMIT) 1.

(** The rows fetched for a page of [limit]. *)
Definition window (limit : Z) : Z := Z.max (limit * 4) (limit + 10).

Definition invalid_params (detail instance_id : string) : HttpResponse :=
  error_response BAD_REQUEST (error_uri "invalid-params") "Invalid params" detail
    "request.invalid_params" instance_id.

(** The rows of the page, and the cursor of the next. *)
Definition list_page a instance_id (limit : Z) (state_filter : option TaskState)
    (cursor_ms : option Z) : result StoreError (list TaskRow * option string) :=
  rows ← list_tasks (app_store a) {| f_state := state_filter; f_limit := Some (window limit);
    f_include_terminal := true; f_instance_id := Some instance_id |};
  let filtered := match cursor_ms with
    | Some ms => filter (λ r, timestamp_millis (t_created_at r) < ms) rows
    | None => rows
    end in
  let page := take (Z.to_nat limit) filtered in
  let next_cursor :=
    if len page =? limit
    then (λ r, encode_cursor (timestamp_millis (t_created_at r))) <$> last page else None in
  Ok (page, next_cursor).

Definition list_tasks_handler a instance_id (q : ListQuery) : HttpResponse :=
  let limit := page_limit q in
  match (match q_state q with
         | Some s => match task_state_from_str s with
             | Ok st => Ok (Some st)
             | Err _ => Err (invalid_params ("Unknown task state: " +:+ s) instance_id)
             end
         | None => Ok None
         end) with
  | Err response => response
  | Ok state_filter =>
      match (match q_cursor q with
             | Some c => Some <$> ok_or (decode_cursor c)
                 (invalid_params "Cursor must be base64url-encoded epoch milliseconds" instance_id)
             | None => Ok None
             end) with
      | Err response => response
      | Ok cursor_ms =>
          match list_page a instance_id limit state_filter cursor_ms with
          | Err e => internal_error ("Failed to list tasks: " +:+ store_error_text e) instance_id
          | Ok (page, next_cursor) =>
              json_response OK (JObj (copy_optional
                (map_collect [("tasks", JArr (task_row_to_a2a <$> page))])
                "next_cursor" (JStr <$> next_cursor)))
          end
      end
  end.

(** ** tasks/cancel *)

(** The first half: the row to cancel. *)
Definition cancel_read a instance_id tid : result HttpResponse TaskRow :=
  match get_task_for_instance (app_store a) instance_id tid with
  | Ok (Some row) =>
      if task_is_terminal (t_state row)
      then Err (error_response CONFLICT (error_uri "task-not-cancelable") "Task not cancelable"
        ("Task '" +:+ tid +:+ "' is in terminal state '" +:+ task_state_as_str (t_state row) +:+ "'")
        "task.not_cancelable" instance_id)
      else Ok row
  | Ok None => Err (task_not_found ("Task '" +:+ tid +:+ "' not found") instance_id)
  | Err e => Err (internal_error ("Failed to read task: " +:+ store_error_text e) instance_id)
  end.

Definition canceled_row (now : Z) row : option TaskRow :=
  metadata ← latest_event (t_metadata_json row)
    (terminal "canceled" (t_created_at row) now
       (json_obj [("status", JStr "not_applicable"); ("reason", JStr "caller canceled task")])
       (JArr []) (Some "caller_cancellation"));
  Some (row <| t_state := Task.Canceled |> <| t_updated_at := now |> <| t_terminal_at := Some now |>
            <| t_status_json := json_obj [
                 ("state", JStr (task_state_as_str Task.Canceled)); ("timestamp", JStr (rfc3339 now));
                 ("terminal_reason", JStr "caller_cancellation")] |>
            <| t_metadata_json := metadata |>).

(** The second half: the row read before, canceled and written back. *)
Definition cancel_write (now : Z) a row : AppState * Answer :=
  match canceled_row now row with
  | None => (a, None)
  | Some row =>
      let a := set_store a (upsert_task (app_store a) row) in
      let task_json := task_row_to_a2a row in
      let a := try_send a {| de_task_id := t_task_id row; de_status_event := json_obj [
        ("kind", JStr "task_status"); ("task_id", JStr (t_task_id row));
        ("status", default JNull (json_get task_json "status"))] |} in
      (a, Some (json_response OK task_json))
  end.

Definition cancel_handler (now : Z) a instance_id tid : AppState * Answer :=
  match cancel_read a instance_id tid with
  | Err response => (a, Some response)
  | Ok row => cancel_write now a row
  end.

(** ** Graph checkpoints *)

Definition lowercase_hex (c : ascii) : bool := is_ascii_hexdigit c && negb (is_ascii_uppercase c).

Definition sha256_digest (digest : string) : bool :=
  (str_len digest =? 71)
  && match strip_prefix digest "sha256:" with
     | Some rest => forallb lowercase_hex (String.list_ascii_of_string rest)
     | None => false
     end.

Definition non_empty (s : string) : option string :=
  if bool_decide (s = EmptyString) then None else Some s.

Definition checkpoint_event (now : Z) (body : json) : result string json :=
  state ← ok_or (json_get body "state" ≫= as_str) "state is required";
  if negb (among ["created"; "restored"; "restore_failed"] state)
  then Err "state must be created, restored, or restore_failed" else
  resumability ← ok_or (json_get body "resumability" ≫= as_str) "resumability is required";
  if negb (among ["resumable"; "non_resumable"; "unknown"] resumability)
  then Err "invalid resumability" else
  let event := map_collect [("type", JStr "checkpoint"); ("state", JStr state);
    ("observed_at", JStr (rfc3339 now)); ("resumability", JStr resumability)] in
  if bool_decide (state = "restore_failed") then
    reason ← ok_or ((json_get body "reason" ≫= as_str) ≫= non_empty) "restore_failed requires reason";
    Ok (JObj (map_insert event "reason" (JStr reason)))
  else
    checkpoint_id ← ok_or ((json_get body "checkpoint_id" ≫= as_str) ≫= non_empty)
      "checkpoint_id is required";
    digest ← ok_or (json_get body "checkpoint_digest" ≫= as_str) "checkpoint_digest is required";
    if negb (sha256_digest digest)
    then Err "checkpoint_digest must be lowercase sha256:<64 hex>"
    else Ok (JObj (map_insert (map_insert event "checkpoint_id" (JStr checkpoint_id))
                     "checkpoint_digest" (JStr digest))).

Definition invalid_json (detail instance_id : string) : HttpResponse :=
  error_response BAD_REQUEST (error_uri "invalid-json") "Invalid JSON body" detail
    "request.invalid_json" instance_id.

(** The first half: the event and the row it goes to. *)
Definition checkpoint_read (now : Z) a instance_id tid (headers : HeaderMap) (body_bytes : string)
    : result HttpResponse (json * TaskRow) :=
  if negb (activated_contains (from_headers headers) URI)
  then Err (error_response BAD_REQUEST (error_uri "extension-required")
    "Flow graph extension not activated" "checkpoint events require flow-graph/v1 activation"
    "flow_graph.extension_required" instance_id) else
  body ← ok_or (json_parse body_bytes) (invalid_json (body_error_text body_bytes) instance_id);
  event ← map_err (λ detail, error_response UNPROCESSABLE_ENTITY (error_uri "flow-graph-checkpoint")
    "Invalid checkpoint event" detail "flow_graph.invalid_checkpoint" instance_id)
    (checkpoint_event now body);
  match get_task_for_instance (app_store a) instance_id tid with
  | Ok (Some row) =>
      if bool_decide (t_metadata_json row ≫= (λ m, json_get m URI) = None)
      then Err (error_response CONFLICT (error_uri "not-a-graph-task") "Task is not a Flow graph task"
        "checkpoint events cannot be attached to an ordinary A2A task" "flow_graph.not_graph_task"
        instance_id)
      else Ok (event, row)
  | Ok None => Err (task_not_found ("Task " +:+ tid +:+ " not found") instance_id)
  | Err e => Err (internal_error (store_error_text e) instance_id)
  end.

Definition checkpoint_write (now : Z) a (event : json) row : AppState * Answer :=
  match latest_event (t_metadata_json row) event with
  | None => (a, None)
  | Some metadata =>
      let row := row <| t_metadata_json := metadata |> <| t_updated_at := now |> in
      (set_store a (upsert_task (app_store a) row), Some (json_response OK (task_row_to_a2a row)))
  end.

Definition checkpoint_handler (now : Z) a instance_id tid (headers : HeaderMap) (body_bytes : string)
    : AppState * Answer :=
  match checkpoint_read now a instance_id tid headers body_bytes with
  | Err response => (a, Some response)
  | Ok (event, row) => checkpoint_write now a event row
  end.

(** ** Push notification configs *)

(** [v != null && v.as_str() is a non-empty string] *)
Definition has_secret (auth : json) : bool :=
  match json_get auth "secret" with
  | Some (JStr s) => negb (bool_decide (s = EmptyString))
  | _ => false
  end.

Definition config_to_wire (row : PushNotificationConfigRow) : json :=
  let auth_out := match p_auth_json row with
    | Some auth => json_obj [
        ("type", JStr (default "none" (json_get auth "type" ≫= as_str)));
        ("configured", JBool (has_secret auth))]
    | None => json_obj [("type", JStr "none"); ("configured", JBool false)]
    end in
  json_obj [("id", JStr (p_config_id row)); ("task_id", JStr (p_task_id row));
    ("url", JStr (p_url row)); ("created_at", JStr (rfc3339 (p_created_at row)));
    ("auth", auth_out)].

Definition config_to_v1_wire (row : PushNotificationConfigRow) : json :=
  let wire := map_collect [("id", JStr (p_config_id row)); ("taskId", JStr (p_task_id row));
    ("url", JStr (p_url row))] in
  JObj match p_auth_json row ≫= (λ auth, json_get auth "type" ≫= as_str) with
  | Some scheme =>
      if eq_ignore_ascii_case scheme "none" then wire
      else map_insert wire "authentication" (json_obj [("scheme", JStr scheme)])
  | None => wire
  end.

Definition config_to_protocol_wire (row : PushNotificationConfigRow) (version : ProtocolVersion)
    : json :=
  match version with V0_3 => config_to_wire row | V1_0 => config_to_v1_wire row end.

Definition invalid_url (detail instance_id : string) : HttpResponse :=
  error_response BAD_REQUEST (error_uri "push-invalid-url") "Invalid push subscriber URL" detail
    "push.invalid_url" instance_id.

(** The config id, the canonical URL and the auth descriptor of a body;
    [fresh] is the UUID drawn when the body has no id. *)
Definition parse_create_body (fresh : string) (body : json) (instance_id : string)
    : result HttpResponse (string * string * option json) :=
  url ← ok_or ((trim <$> (json_get body "url" ≫= as_str)) ≫= non_empty)
    (invalid_url "Request body must include a non-empty `url` field" instance_id);
  target ← map_err (λ reason, invalid_url (policy_error_text reason) instance_id)
    (validate_callback_url url);
  let config_id := default fresh ((trim <$> (json_get body "id" ≫= as_str)) ≫= non_empty) in
  let auth := match json_get body "authentication" with
    | Some authentication => Some (json_obj [
        ("type", JStr (to_ascii_lowercase
           (default "none" (json_get authentication "scheme" ≫= as_str))));
        ("secret", JStr (default EmptyString (json_get authentication "credentials" ≫= as_str)))])
    | None => json_get body "auth"
    end in
  Ok (config_id, canonical_url target, auth).

Definition persist_bounded_config a instance_id (cfg : PushNotificationConfigRow)
    : AppState * result HttpResponse unit :=
  let (s, outcome) := put_push_config_bounded (app_store a) cfg MAX_CONFIGS_PER_TASK in
  (set_store a s, match outcome with
   | Ok Created => Ok ()
   | Ok Updated => Ok ()
   | Ok Conflict => Err (error_response CONFLICT (error_uri "push-config-conflict")
       "Push notification config conflict" "The supplied config id is unavailable"
       "push.config_conflict" instance_id)
   | Ok LimitReached => Err (error_response TOO_MANY_REQUESTS (error_uri "push-config-limit")
       "Push notification config limit reached"
       ("A task may register at most " +:+ pretty MAX_CONFIGS_PER_TASK +:+ " callback configs")
       "push.config_limit" instance_id)
   | Err e => Err (internal_error ("Failed to persist push config: " +:+ store_error_text e)
       instance_id)
   end).

Definition persist_inline_config (now : Z) (fresh : string) a instance_id tid (body : json)
    : AppState * result HttpResponse unit :=
  match parse_create_body fresh body instance_id with
  | Err response => (a, Err response)
  | Ok (config_id, url, auth_json) =>
      persist_bounded_config a instance_id
        {| p_config_id := config_id; p_task_id := tid; p_url := url; p_auth_json := auth_json;
           p_created_at := now |}
  end.

Definition require_owned_task a instance_id tid : result HttpResponse unit :=
  match get_task_for_instance (app_store a) instance_id tid with
  | Ok (Some _) => Ok ()
  | Ok None => Err (task_not_found ("Task '" +:+ tid +:+ "' not found") instance_id)
  | Err e => Err (internal_error ("Failed to read task: " +:+ store_error_text e) instance_id)
  end.

Definition create_config (now : Z) (fresh : string) a instance_id tid (version : ProtocolVersion)
    (body : option json) : AppState * HttpResponse :=
  match parse_create_body fresh (default JNull body) instance_id with
  | Err response => (a, response)
  | Ok (config_id, url, auth) =>
      match require_owned_task a instance_id tid with
      | Err response => (a, response)
      | Ok _ =>
          let cfg := {| p_config_id := config_id; p_task_id := tid; p_url := url;
                        p_auth_json := auth; p_created_at := now |} in
          match persist_bounded_config a instance_id cfg with
          | (a, Err response) => (a, response)
          | (a, Ok _) => (a, json_response CREATED (config_to_protocol_wire cfg version))
          end
      end
  end.

Definition config_not_found (cid tid instance_id : string) : HttpResponse :=
  error_response NOT_FOUND (error_uri "push-config-not-found") "Push notification config not found"
    ("Config '" +:+ cid +:+ "' not found for task '" +:+ tid +:+ "'") "push.config_not_found"
    instance_id.

Definition get_config a instance_id tid (cid : string) (version : ProtocolVersion) : HttpResponse :=
  match require_owned_task a instance_id tid with
  | Err response => response
  | Ok _ =>
      match get_push_config (app_store a) cid with
      | Ok (Some row) =>
          if bool_decide (p_task_id row = tid)
          then json_response OK (config_to_protocol_wire row version)
          else config_not_found cid tid instance_id
      | Ok None => config_not_found cid tid instance_id
      | Err e => internal_error ("Failed to read push config: " +:+ store_error_text e) instance_id
      end
  end.

Definition list_configs a instance_id tid (version : ProtocolVersion) : HttpResponse :=
  match require_owned_task a instance_id tid with
  | Err response => response
  | Ok _ =>
      match list_push_configs (app_store a) tid with
      | Ok rows => json_response OK (json_obj [("configs",
          JArr ((λ cfg, config_to_protocol_wire cfg version) <$> rows))])
      | Err e => internal_error ("Failed to list push configs: " +:+ store_error_text e) instance_id
      end
  end.

Definition no_content : HttpResponse :=
  {| resp_status := NO_CONTENT; resp_headers := []; resp_body := EmptyString |}.

Definition delete_config a instance_id tid (cid : string) (version : ProtocolVersion)
    : AppState * HttpResponse :=
  match require_owned_task a instance_id tid with
  | Err response => (a, response)
  | Ok _ =>
      match get_push_config (app_store a) cid with
      | Ok (Some row) =>
          if bool_decide (p_task_id row = tid)
          then (set_store a (delete_push_config (app_store a) cid).1, no_content)
          else (a, config_not_found cid tid instance_id)
      | Ok None =>
          (a, match version with
              | V1_0 => no_content
              | V0_3 => config_not_found cid tid instance_id
              end)
      | Err e =>
          (a, internal_error ("Failed to read push config: " +:+ store_error_text e) instance_id)
      end
  end.

(** ** message:send *)

Inductive DispatchError : Type :=
| NotImplemented
| RuntimeUnavailable (instance reason : string)
| DispatchFailed (reason : string).

Definition dispatch_error_text (e : DispatchError) : string :=
  match e with
  | NotImplemented => "message dispatch not wired for this build"
  | RuntimeUnavailable instance reason =>
      "runtime agent for instance " +:+ instance +:+ " is not reachable: " +:+ reason
  | DispatchFailed reason => "dispatch failed: " +:+ reason
  end.

Definition message_field (body : json) (key : string) : option json :=
  json_get body "message" ≫= λ m, json_get m key.

Definition append_protocol_history (metadata : option json) (message : json) : option json :=
  match default (JObj []) metadata with
  | JObj root =>
      let root := entry_or_insert root "_a2a" (JObj []) in
      Some (JObj match map_get root "_a2a" with
      | Some (JObj internal) =>
          let internal := entry_or_insert internal "history" (JArr []) in
          map_insert root "_a2a" (JObj match map_get internal "history" with
          | Some (JArr history) => map_insert internal "history" (JArr (history ++ [message]))
          | _ => internal
          end)
      | _ => root
      end)
  | other => Some other
  end.

Definition internal_response_message row : option json :=
  metadata ← t_metadata_json row;
  internal ← json_get metadata "_a2a";
  json_get internal "responseMessage".

Definition hitl_response_payload (body : json) : option json :=
  message_field body "metadata" ≫= λ m, json_get m "hitl_response_for".

(** [HeaderValue::from_str]: visible ASCII, space, tab and bytes above 127. *)
Definition header_byte (c : ascii) : bool :=
  ((32 <=? byte_val c) && negb (byte_val c =? 127)) || (byte_val c =? 9).
Definition header_text_ok (s : string) : bool :=
  forallb header_byte (String.list_ascii_of_string s).

Definition echo_header (echoed : ActivatedExtensions) : HeaderMap :=
  match echoed with [] => [] | _ => [("a2a-extensions", Some (to_response_header echoed))] end.

Definition build_fresh_response (status : Z) (body : json) (echoed : ActivatedExtensions)
    (location : option string) : HttpResponse :=
  {| resp_status := status;
     resp_headers := [("content-type", Some "application/json")]
       ++ match location with
          | Some loc => if header_text_ok loc then [("location", Some loc)] else []
          | None => []
          end
       ++ echo_header echoed;
     resp_body := json_text body |}.

Definition build_replay_response (status : Z) (body : json) (echoed : ActivatedExtensions)
    : HttpResponse :=
  {| resp_status := status;
     resp_headers := [("content-type", Some "application/json"); ("idempotent-replayed", Some "true")]
       ++ echo_header echoed;
     resp_body := json_text body |}.

(** *** HITL responses *)

Definition hitl_rejected (detail instance_id : string) : HttpResponse :=
  error_response CONFLICT (error_uri "hitl-response") "HITL response rejected" detail
    "hitl_already_answered_or_unknown" instance_id.

Definition hitl_read a instance_id (body response : json) : result HttpResponse TaskRow :=
  task_id ← ok_or (message_field body "taskId" ≫= as_str)
    (error_response BAD_REQUEST (error_uri "invalid-params") "Invalid HITL response"
       "HITL response messages must include message.taskId" "hitl_response.missing_task_id"
       instance_id);
  match get_task_for_instance (app_store a) instance_id task_id with
  | Ok (Some row) =>
      if bool_decide (t_state row ≠ Task.InputRequired)
      then Err (hitl_rejected ("Task '" +:+ task_id +:+ "' is not waiting for HITL input") instance_id)
      else
      stored_envelope ← ok_or
        (m ← json_get (t_status_json row) "message"; m ← json_get m "metadata";
         json_get m HITL_PROMPT_URI)
        (hitl_rejected "Task is input-required but has no stored hitl-prompt envelope" instance_id);
      _ ← map_err (λ detail, error_response UNPROCESSABLE_ENTITY (error_uri "hitl-response-invalid")
            "HITL response invalid" detail "hitl_response_invalid" instance_id)
          (validate_hitl_response stored_envelope response);
      Ok row
  | Ok None => Err (hitl_rejected "HITL prompt is unknown for this instance" instance_id)
  | Err e => Err (internal_error ("Failed to read HITL task: " +:+ store_error_text e) instance_id)
  end.

Definition answered_row (now : Z) (body : json) row : TaskRow :=
  row <| t_state := Task.Working |> <| t_updated_at := now |> <| t_terminal_at := None |>
    <| t_status_json := json_obj [
         ("state", JStr (task_state_as_str Task.Working)); ("timestamp", JStr (rfc3339 now));
         ("message", default JNull (json_get body "message"))] |>.

Definition hitl_write (now : Z) a (body : json) row : AppState * Answer :=
  let row := answered_row now body row in
  (set_store a (upsert_task (app_store a) row),
   Some (build_fresh_response ACCEPTED (task_row_to_a2a row) [] None)).

Definition handle_hitl_response (now : Z) a instance_id (body response : json) : AppState * Answer :=
  match hitl_read a instance_id body response with
  | Err response => (a, Some response)
  | Ok row => hitl_write now a body row
  end.

(** *** Up to the dispatch *)

(** What the handler carries over the await. *)
Record Dispatching : Type := {
  d_instance_id : string;
  d_instance : InstanceContext;
  d_body : json;
  d_activated : ActivatedExtensions;
  d_message_id : option string;
  d_version : ProtocolVersion;
  d_row : TaskRow;
}.

Inductive SendStep : Type :=
| SendDone (answer : Answer)
| SendDispatch (call : Dispatching).

Definition parse_body (body_bytes instance_id : string) : result HttpResponse json :=
  body ← (if bool_decide (body_bytes = EmptyString) then Ok (JObj [])
          else ok_or (json_parse body_bytes)
            (invalid_json ("Failed to parse request body as JSON: " +:+ body_error_text body_bytes)
               instance_id));
  match json_get body "message" with
  | Some (JObj _) => Ok body
  | _ => Err (invalid_params "Request body must be a JSON object with a `message` object" instance_id)
  end.

(** The response to an extension that ends the request. *)
Definition rejected (status : Z) (err_body : json) (instance_id : string) : HttpResponse :=
  let text key d := default d (json_get err_body key ≫= as_str) in
  error_response (if (100 <=? status) && (status <=? 999) then status else UNPROCESSABLE_ENTITY)
    (text "type" (error_uri "extension")) (text "title" "Extension rejected request")
    (text "detail" EmptyString) (text "code" "extension.rejected") instance_id.

(** The task the message continues. *)
Definition referenced_task a instance_id (body : json) : result HttpResponse (option TaskRow) :=
  match (message_field body "taskId" ≫= as_str) ≫= non_empty with
  | None => Ok None
  | Some task_id =>
      match get_task_for_instance (app_store a) instance_id task_id with
      | Ok (Some row) =>
          if task_is_terminal (t_state row)
          then Err (error_response CONFLICT (error_uri "task-terminal") "Task is terminal"
            "Messages cannot be sent to a task that has reached a terminal state" "task.terminal"
            instance_id)
          else Ok (Some row)
      | Ok None => Err (task_not_found "The referenced task does not exist" instance_id)
      | Err e => Err (internal_error ("Failed to read referenced task: " +:+ store_error_text e)
          instance_id)
      end
  end.

Definition check_context (existing : option TaskRow) (supplied : option string) (instance_id : string)
    : result HttpResponse unit :=
  match existing, supplied with
  | Some row, Some ctx =>
      if bool_decide (t_context_id row ≠ Some ctx)
      then Err (error_response BAD_REQUEST (error_uri "invalid-params") "Invalid params"
        "message.contextId does not match the referenced task" "request.context_task_mismatch"
        instance_id)
      else Ok ()
  | _, _ => Ok ()
  end.

(** The metadata of the row; [None] inside is a panic. *)
Definition new_metadata (now : Z) (activated : ActivatedExtensions) (body : json)
    (existing : option TaskRow) (task_id : string) (context_id message_id : option string)
    (instance_id : string) : result HttpResponse (option (option json)) :=
  let graph_identity :=
    if activated_contains activated URI
    then match graph_metadata body with Ok g => g | Err _ => None end else None in
  match graph_identity with
  | None => Ok (Some (append_protocol_history (existing ≫= t_metadata_json)
      (default JNull (json_get body "message"))))
  | Some graph =>
      lineage ← map_err (λ detail, error_response UNPROCESSABLE_ENTITY (error_uri "flow-graph-resume")
        "Invalid Flow graph resume lineage" (error_text detail) "flow_graph.invalid_resume"
        instance_id) (resume_lineage body);
      Ok (metadata ← task_metadata_with_lineage graph task_id context_id (default task_id message_id)
            (lifecycle "queued" now) lineage;
          Some (append_protocol_history (Some metadata) (default JNull (json_get body "message"))))
  end.

(** The row of a new or continued task; [u] numbers the UUIDs drawn. *)
Definition task_submitted (now : Z) instance_id (existing : option TaskRow) (task_id : string)
    (context_id : option string) (task_metadata : option json) : TaskRow :=
  {| t_task_id := task_id; t_context_id := context_id; t_instance_id := Some instance_id;
     t_state := Task.Submitted; t_fail_kind := None;
     t_status_json := json_obj [("state", JStr (task_state_as_str Task.Submitted));
       ("timestamp", JStr (rfc3339 now))];
     t_metadata_json := task_metadata;
     t_created_at := default now (t_created_at <$> existing);
     t_updated_at := now; t_terminal_at := None |}.

Definition submitted_row (now u : Z) a instance_id (activated : ActivatedExtensions) (body : json)
    (message_id : option string) : result HttpResponse (option TaskRow) :=
  match referenced_task a instance_id body with
  | Err response => Err response
  | Ok existing =>
      let supplied_context_id := (message_field body "contextId" ≫= as_str) ≫= non_empty in
      let task_id := default (uuid_text u) (t_task_id <$> existing) in
      let context_id := Some (default (default (uuid_text (u + 1)) supplied_context_id)
                                (existing ≫= t_context_id)) in
      _ ← check_context existing supplied_context_id instance_id;
      option_map (task_submitted now instance_id existing task_id context_id) <$>
        new_metadata now activated body existing task_id context_id message_id instance_id
  end.

(** The row stored and the inline push config registered. *)
Definition persist_submitted (now u : Z) a instance_id (body : json) row
    : AppState * result HttpResponse unit :=
  let a := set_store a (upsert_task (app_store a) row) in
  match json_get body "configuration" ≫= λ c, json_get c "taskPushNotificationConfig" with
  | Some config => persist_inline_config now (uuid_text (u + 2)) a instance_id (t_task_id row) config
  | None => (a, Ok ())
  end.

Definition not_ready (instance_id : string) : HttpResponse :=
  error_response SERVICE_UNAVAILABLE (error_uri "runtime-unavailable") "Runtime not ready"
    ("The backing runtime for this instance is not currently servicing requests. Check the instance "
     +:+ "state in /api/v2/admin/instances; the runtime may have failed to start or has dropped its "
     +:+ "management connection.") "runtime.not_ready" instance_id.

Definition send_begin (now u : Z) a instance_id (inst : InstanceContext) (version : ProtocolVersion)
    (headers : HeaderMap) (body_bytes : string) : AppState * SendStep :=
  match parse_body body_bytes instance_id with
  | Err response => (a, SendDone (Some response))
  | Ok body =>
      if negb (inst_ready inst) then (a, SendDone (Some (not_ready instance_id)))
      else match hitl_response_payload body with
      | Some response =>
          let (a, answer) := handle_hitl_response now a instance_id body response in
          (a, SendDone answer)
      | None =>
          let activated := from_headers headers in
          let echoed := echo_activated (app_extensions a) activated in
          let message_id := message_field body "messageId" ≫= as_str in
          let (c, outcome) := registry_pre_request (app_extensions a) now (app_idem a)
            {| pre_activated := activated; pre_message_id := message_id; pre_request_body := body;
               pre_protocol_version := as_header_value version |} in
          let a := a <| app_idem := c |> in
          match outcome with
          | Replay status cached =>
              (a <| app_idem ::= λ c, record_hit_for_op c "messages:send" |>,
               SendDone (Some (build_replay_response
                 (if (100 <=? status) && (status <=? 999) then status else ACCEPTED) cached echoed)))
          | Reject status err_body => (a, SendDone (Some (rejected status err_body instance_id)))
          | Continue =>
              match submitted_row now u a instance_id activated body message_id with
              | Err response => (a, SendDone (Some response))
              | Ok None => (a, SendDone None)
              | Ok (Some row) =>
                  match persist_submitted now u a instance_id body row with
                  | (a, Err response) => (a, SendDone (Some response))
                  | (a, Ok _) => (a, SendDispatch
                      {| d_instance_id := instance_id; d_instance := inst; d_body := body;
                         d_activated := activated; d_message_id := message_id;
                         d_version := version; d_row := row |})
                  end
              end
          end
      end
  end.

(** *** After the dispatch *)

(** The row after the outcome, written back; [None] is a panic. *)
Definition accepted_row (updated : Z) a (d : Dispatching) : option (AppState * TaskRow) :=
  let row := d_row d in
  let current := match get_task_for_instance (app_store a) (d_instance_id d) (t_task_id row) with
    | Ok (Some current) => current
    | _ => row
    end in
  if bool_decide (t_state current = Task.Submitted) then
    metadata ← latest_event (t_metadata_json row) (lifecycle "running" updated);
    let row := row <| t_state := Task.Working |>
      <| t_status_json := json_obj [("state", JStr (task_state_as_str Task.Working));
           ("timestamp", JStr (rfc3339 updated))] |>
      <| t_metadata_json := metadata |> <| t_updated_at := updated |> in
    Some (set_store a (upsert_task (app_store a) row), row)
  else Some (a, current).

Definition failed_row (updated : Z) a (d : Dispatching) (err : DispatchError)
    : option (AppState * TaskRow) :=
  let row := d_row d in
  metadata ← latest_event (t_metadata_json row)
    (terminal "failed" (t_created_at row) updated
       (json_obj [("status", JStr "unknown"); ("reason", JStr "dispatch did not start")])
       (JArr []) (Some (dispatch_error_text err)));
  let row := row <| t_state := Task.Failed |> <| t_fail_kind := Some Infrastructure |>
    <| t_status_json := json_obj [("state", JStr (task_state_as_str Task.Failed));
         ("timestamp", JStr (rfc3339 updated)); ("error", JStr (dispatch_error_text err))] |>
    <| t_metadata_json := metadata |> <| t_updated_at := updated |>
    <| t_terminal_at := Some updated |> in
  Some (set_store a (upsert_task (app_store a) row), row).

Definition outcome_row (updated : Z) a (d : Dispatching) (outcome : result DispatchError unit)
    : option (AppState * TaskRow) :=
  match outcome with
  | Ok _ => accepted_row updated a d
  | Err err => failed_row updated a d err
  end.

Definition dispatch_status (outcome : result DispatchError unit) : Z :=
  match outcome with
  | Ok _ => ACCEPTED
  | Err (DispatchFailed _) => BAD_GATEWAY
  | Err _ => SERVICE_UNAVAILABLE
  end.

Definition dispatch_error_response (status : Z) (err : DispatchError) (instance_id : string)
    : HttpResponse :=
  let '(code, title) := match err with
    | NotImplemented => ("dispatch.unimplemented", "Runtime dispatch unimplemented")
    | RuntimeUnavailable _ _ => ("runtime.unavailable", "Runtime unavailable")
    | DispatchFailed _ => ("dispatch.failed", "Dispatch failed")
    end in
  error_response status (error_uri "dispatch") title (dispatch_error_text err) code instance_id.

(** The body of the response before the extensions see it. *)
Definition send_body (body : json) row : json :=
  let task_json := match internal_response_message row with
    | Some message => json_obj [("message", message)]
    | None => task_row_to_a2a row
    end in
  match (json_get body "configuration" ≫= λ c, json_get c "historyLength") ≫= json_u64 with
  | Some limit => limit_history limit task_json
  | None => task_json
  end.

Definition record_response (now : Z) a (d : Dispatching) (status : Z) (task_json : json) : AppState :=
  match d_message_id d with
  | Some mid =>
      if activated_contains (d_activated d) IDEMPOTENCY_URI
      then a <| app_idem ::= λ c, (record now c mid
             (versioned_request_body (as_header_value (d_version d)) (d_body d))
             status task_json).1 |>
      else a
  | None => a
  end.

Definition send_finish (updated : Z) a (d : Dispatching) (outcome : result DispatchError unit)
    : AppState * Answer :=
  match outcome_row updated a d outcome with
  | None => (a, None)
  | Some (a, row) =>
      let task_id := t_task_id (d_row d) in
      let status := dispatch_status outcome in
      let task_json := registry_post_response (app_extensions a)
        {| post_activated := d_activated d; post_task_id := task_id; post_status := status;
           post_instance := Some (d_instance d) |} (send_body (d_body d) row) in
      let a := record_response updated a d status task_json in
      let a := try_send a {| de_task_id := task_id; de_status_event := json_obj [
        ("kind", JStr "task_status"); ("task_id", JStr task_id);
        ("context_id", match t_context_id row with Some c => JStr c | None => JNull end);
        ("status", default JNull (json_get task_json "status"))] |} in
      (a, Some match outcome with
        | Err err => dispatch_error_response status err (d_instance_id d)
        | Ok _ => build_fresh_response status task_json
            (echo_activated (app_extensions a) (d_activated d))
            (Some ("/agents/" +:+ d_instance_id d +:+ "/v1/tasks/" +:+ task_id))
        end)
  end.

(** ** Requests in flight

    A world is the shared state with the requests that have read a row (or
    wait for their dispatch) and not yet written it back.  Any number of
    requests may be between their halves, and they finish in any order. *)

Inductive Pending : Type :=
| PCancel (row : TaskRow)
| PCheckpoint (event : json) (row : TaskRow)
| PHitl (body : json) (row : TaskRow)
| PSend (call : Dispatching).

Record World : Type := {
  w_app : AppState;
  w_pending : list Pending;
}.

Definition resume (now : Z) (outcome : result DispatchError unit) a (p : Pending)
    : AppState * Answer :=
  match p with
  | PCancel row => cancel_write now a row
  | PCheckpoint event row => checkpoint_write now a event row
  | PHitl body row => hitl_write now a body row
  | PSend d => send_finish now a d outcome
  end.

(** One step, with the answer it sends, if any. *)
Inductive world_step : World → option Answer → World → Prop :=
| w_cancel a ps i t row :
    cancel_read a i t = Ok row →
    world_step {| w_app := a; w_pending := ps |} None {| w_app := a; w_pending := PCancel row :: ps |}
| w_checkpoint now a ps i t headers bytes event row :
    checkpoint_read now a i t headers bytes = Ok (event, row) →
    world_step {| w_app := a; w_pending := ps |} None
      {| w_app := a; w_pending := PCheckpoint event row :: ps |}
| w_hitl a ps i body response row :
    hitl_read a i body response = Ok row →
    world_step {| w_app := a; w_pending := ps |} None
      {| w_app := a; w_pending := PHitl body row :: ps |}
| w_send now u a ps i inst version headers bytes a' d :
    send_begin now u a i inst version headers bytes = (a', SendDispatch d) →
    world_step {| w_app := a; w_pending := ps |} None {| w_app := a'; w_pending := PSend d :: ps |}
| w_answer now u a ps i inst version headers bytes a' answer :
    send_begin now u a i inst version headers bytes = (a', SendDone answer) →
    world_step {| w_app := a; w_pending := ps |} (Some answer) {| w_app := a'; w_pending := ps |}
| w_resume now outcome a ps1 p ps2 a' answer :
    resume now outcome a p = (a', answer) →
    world_step {| w_app := a; w_pending := ps1 ++ p :: ps2 |} (Some answer)
      {| w_app := a'; w_pending := ps1 ++ ps2 |}
| w_create now fresh a ps i t version body a' response :
    create_config now fresh a i t version body = (a', response) →
    world_step {| w_app := a; w_pending := ps |} (Some (Some response))
      {| w_app := a'; w_pending := ps |}
| w_delete a ps i t cid version a' response :
    delete_config a i t cid version = (a', response) →
    world_step {| w_app := a; w_pending := ps |} (Some (Some response))
      {| w_app := a'; w_pending := ps |}
| w_deliver a ps ev rest :
    app_delivery a = ev :: rest →
    world_step {| w_app := a; w_pending := ps |} None
      {| w_app := a <| app_delivery := rest |>; w_pending := ps |}.

Definition alone a : World := {| w_app := a; w_pending := [] |}.

Definition world_move (w w' : World) : Prop := ∃ answer, world_step w answer w'.

(** ** Rows *)

(** The graph of a task, when it has one, is an object. *)
Definition graph_ok (metadata : option json) : Prop :=
  ∀ o g, metadata = Some (JObj o) → map_get o URI = Some g → ∃ m, g = JObj m.

(** The columns are those of a row whose graph is an object. *)
Definition clean_columns (c : TaskColumns) : Prop :=
  ∃ st k v m, tc_state c = task_state_as_str st ∧ tc_fail_kind c = fail_kind_as_str <$> k ∧
    tc_status_json c = json_text v ∧ tc_metadata_json c = json_text <$> (m : option json) ∧
    graph_ok m ∧ (task_is_terminal st = true → is_Some (tc_terminal_at c)).

Definition valid_callback (url : string) : Prop :=
  ∃ raw target, validate_callback_url raw = Ok target ∧ url = canonical_url target.

Record app_inv a : Prop := {
  ai_tasks : map_Forall (λ _, clean_columns) (tasks (app_store a));
  ai_configs t : count_push_configs (app_store a) t <= MAX_CONFIGS_PER_TASK;
  ai_callbacks : map_Forall (λ _ c, valid_callback (pc_url c)) (push_notification_configs (app_store a));
  ai_queue : len (app_delivery a) <= CHANNEL_CAPACITY;
  ai_registry : ∃ kind host, app_extensions a = build_default_registry kind host;
}.

Definition pending_ok (p : Pending) : Prop :=
  match p with
  | PCancel row | PCheckpoint _ row | PHitl _ row => graph_ok (t_metadata_json row)
  | PSend d => graph_ok (t_metadata_json (d_row d))
  end.

Record world_inv (w : World) : Prop := {
  wi_app : app_inv (w_app w);
  wi_pending : Forall pending_ok (w_pending w);
}.

Lemma owned_row s i t row :
  get_task_for_instance s i t = Ok (Some row) →
  ∃ c, tasks s !! t = Some c ∧ tc_instance_id c = Some i ∧ row_to_task (t, c) = Ok row.
Proof.
  unfold get_task_for_instance, decode_opt. destruct (tasks s !! t) as [c|] eqn:Hc;
    cbn -[row_to_task]; [|done].
  case_decide; [|done]. destruct (row_to_task (t, c)) eqn:Hr; [|done].
  intros [= <-]. eauto.
Qed.

(** What a row decoded from columns the code wrote shows of them. *)
Lemma decoded_row t c st k v m row :
  json_text_parses _ →
  tc_state c = task_state_as_str st → tc_fail_kind c = fail_kind_as_str <$> k →
  tc_status_json c = json_text v → tc_metadata_json c = json_text <$> m →
  row_to_task (t, c) = Ok row →
  t_state row = st ∧ t_fail_kind row = k ∧ t_status_json row = v ∧ t_metadata_json row = m.
Proof.
  intros Hj Hs Hk Hv Hm Hr. rewrite (row_to_task_encoded _ _ _ _ _ _ Hj Hs Hk Hv Hm) in Hr.
  by simplify_eq.
Qed.

Lemma graph_ok_obj o :
  (∀ g, map_get o URI = Some g → ∃ m, g = JObj m) → graph_ok (Some (JObj o)).
Proof. intros Ho o' g [= <-]. apply Ho. Qed.

Lemma latest_event_ok m e : graph_ok m → ∃ m', latest_event m e = Some m' ∧ graph_ok m'.
Proof.
  intros Hm. unfold latest_event.
  destruct m as [[| | | | |o]|]; try (eexists; split; [done|exact Hm]).
  destruct (map_get o URI) as [g|] eqn:Hg; [|by eauto].
  destruct (Hm o g eq_refl Hg) as [g' ->]. simpl. eexists. split; [done|].
  intros o' g0 [= <-]. rewrite map_get_insert_ne by done. rewrite Hg. intros [= <-]. eauto.
Qed.

Lemma entry_or_insert_get m k v k' :
  map_get (entry_or_insert m k v) k' =
  if decide (k = k') then Some (default v (map_get m k)) else map_get m k'.
Proof.
  unfold entry_or_insert. destruct (map_get m k) eqn:Hk; case_decide; subst; simpl;
    rewrite ?map_get_insert_eq, ?map_get_insert_ne by done; done.
Qed.

Lemma append_history_ok m message : graph_ok m → graph_ok (append_protocol_history m message).
Proof.
  intros Hm. unfold append_protocol_history. destruct m as [[| | | | |o]|]; simpl; try done.
  - set (o' := entry_or_insert o "_a2a" (JObj [])).
    assert (∀ g, map_get o' URI = Some g → ∃ m, g = JObj m) as Ho'.
    { intros g. unfold o'. rewrite entry_or_insert_get, decide_False by done. by apply Hm. }
    destruct (map_get o' "_a2a") as [[]|]; intros o1 g [= <-]; try apply Ho'.
    rewrite map_get_insert_ne by done. apply Ho'.
  - intros o1 g [= <-]. done.
Qed.

Lemma graph_metadata_object body g : graph_metadata body = Ok (Some g) → ∃ o, g = JObj o.
Proof.
  unfold graph_metadata. destruct (message_metadata body URI) as [x|]; [|done].
  intros Hx. apply bind_Ok in Hx as (o & Hx & Hr). apply ok_or_Ok in Hx.
  apply bind_Ok in Hr as (? & _ & Hr). apply bind_Ok in Hr as (? & _ & Hr).
  apply bind_Ok in Hr as (? & _ & [= <-]). destruct x; naive_solver.
Qed.

Lemma task_metadata_ok graph o task_id ctx key event lineage :
  graph = JObj o → ∃ m, task_metadata_with_lineage graph task_id ctx key event lineage = Some m ∧
    graph_ok (Some m).
Proof.
  intros ->. unfold task_metadata_with_lineage, json_obj. cbn [json_index_set mbind option_bind foldl fst snd].
  eexists. split; [done|]. apply graph_ok_obj. intros g.
  rewrite map_get_insert_ne, map_get_insert_eq by done. naive_solver.
Qed.

Lemma new_metadata_ok now activated body existing tid ctx mid i x :
  graph_ok (existing ≫= t_metadata_json) →
  new_metadata now activated body existing tid ctx mid i = Ok x →
  ∃ m, x = Some m ∧ graph_ok m.
Proof.
  intros He. unfold new_metadata.
  destruct (if activated_contains _ _ then _ else _) as [graph|] eqn:Hg.
  - intros Hx. apply bind_Ok in Hx as (lineage & _ & [= <-]).
    assert (∃ o, graph = JObj o) as [o Ho].
    { destruct (activated_contains _ _); [|done]. destruct (graph_metadata body) eqn:Hb; [|done].
      subst. by apply graph_metadata_object in Hb. }
    destruct (task_metadata_ok graph o tid ctx (default tid mid) (lifecycle "queued" now) lineage Ho)
      as (m & -> & Hm). simpl. eexists. split; [done|]. by apply append_history_ok.
  - intros [= <-]. eexists. split; [done|]. by apply append_history_ok.
Qed.

(** ** The invariant of the shared state *)

Section invariant.
Hypothesis text_parses : json_text_parses _.

Lemma clean_read a i t row :
  app_inv a → get_task_for_instance (app_store a) i t = Ok (Some row) → graph_ok (t_metadata_json row).
Proof using text_parses.
  intros Ha Hg. apply owned_row in Hg as (c & Hc & _ & Hr).
  destruct (ai_tasks a Ha t c Hc) as (st & k & v & m & Hs & Hk & Hv & Hm & Hok & _).
  by destruct (decoded_row t c st k v m row) as (_ & _ & _ & ->).
Qed.

Lemma app_store_set a s : app_store (set_store a s) = s.
Proof. done. Qed.

(** A change of the store that keeps tasks clean and the configs as they are. *)
Lemma set_store_app a s :
  app_inv a → map_Forall (λ _, clean_columns) (tasks s) →
  push_notification_configs s = push_notification_configs (app_store a) → app_inv (set_store a s).
Proof.
  intros [Ht Hc Hu Hq Hr] Hs Hp. constructor; rewrite ?app_store_set; try done.
  - intros t. specialize (Hc t). unfold count_push_configs in *. by rewrite Hp.
  - by rewrite Hp.
Qed.

Lemma upsert_app a row :
  app_inv a → graph_ok (t_metadata_json row) → app_inv (set_store a (upsert_task (app_store a) row)).
Proof.
  intros Ha Hrow. apply set_store_app; [done| |done]. simpl. apply map_Forall_insert_2; [|by destruct Ha].
  exists (t_state row), (t_fail_kind row), (t_status_json row), (t_metadata_json row).
  split_and!; [done..|]. simpl. unfold upsert_terminal_at. intros ->. repeat case_match; by eauto.
Qed.

Lemma try_send_app a ev : app_inv a → app_inv (try_send a ev).
Proof.
  intros Ha. unfold try_send. destruct (_ <? _) eqn:Hl; [|done]. reflect_bools.
  destruct Ha as [Ht Hc Hu Hq Hr]. constructor; simpl; try done.
  unfold len in *. rewrite length_app. simpl. lia.
Qed.

Lemma cache_app a c :
  app_inv a → tasks (cache_store c) = tasks (app_store a) →
  push_notification_configs (cache_store c) = push_notification_configs (app_store a) →
  app_inv (a <| app_idem := c |>).
Proof.
  intros [Ht Hc Hu Hq Hr] Hts Hp. unfold app_store in *. constructor; unfold app_store; simpl; try done.
  - by rewrite Hts.
  - intros t. specialize (Hc t). unfold count_push_configs in *. by rewrite Hp.
  - by rewrite Hp.
Qed.

Lemma record_response_app now a d status body : app_inv a → app_inv (record_response now a d status body).
Proof.
  intros Ha. unfold record_response. destruct (d_message_id d); [|done].
  case_match; [|done]. apply cache_app; [done|..];
    cbv beta; unfold record; by destruct (hash_request _).
Qed.

Lemma try_send_store a ev : app_store (try_send a ev) = app_store a.
Proof. unfold try_send. by case_match. Qed.

Lemma record_response_tasks now a d status body :
  tasks (app_store (record_response now a d status body)) = tasks (app_store a).
Proof.
  unfold record_response. repeat case_match; try done.
  simpl. unfold app_store, record. simpl. by destruct (hash_request _).
Qed.

Lemma pre_request_store kind host now c ctx :
  cache_store (registry_pre_request (build_default_registry kind host) now c ctx).1 = cache_store c.
Proof.
  unfold build_default_registry. cbn [registry_pre_request ext_pre_request no_pre_request].
  destruct (pre_request now c _ _ _ _) as [c' o] eqn:Hp.
  assert (cache_store c' = cache_store c) as <-.
  { revert Hp. unfold pre_request. destruct (negb _); [by intros [= <- _]|].
    destruct (pre_message_id ctx) as [m|]; [|by intros [= <- _]].
    pose proof (check_store now c m (versioned_request_body (pre_protocol_version ctx)
      (pre_request_body ctx))) as Hs. destruct (check _ _ _ _). by intros [= <- _]. }
  destruct o; [|done..]. by destruct (graph_pre_request _ _).
Qed.

Lemma persist_app a i cfg :
  app_inv a → valid_callback (p_url cfg) → app_inv (persist_bounded_config a i cfg).1.
Proof.
  intros Ha Hv. unfold persist_bounded_config.
  destruct (put_push_config_bounded _ _ _) as [s r] eqn:Hp. simpl.
  destruct (push_configs_bounded (app_store a) cfg MAX_CONFIGS_PER_TASK s r) as (Hcount & _); [done..|].
  destruct Ha as [Ht Hc Hu Hq Hr]. constructor; rewrite ?app_store_set; try done.
  - revert Hp. unfold put_push_config_bounded. repeat case_match; intros; by simplify_eq/=.
  - intros t. by apply Hcount.
  - revert Hp. unfold put_push_config_bounded.
    repeat case_match; intros; simplify_eq/=; try done; by apply map_Forall_insert_2.
Qed.

Lemma parse_create_body_url fresh body i cid url auth :
  parse_create_body fresh body i = Ok (cid, url, auth) → valid_callback url.
Proof.
  unfold parse_create_body. intros Hx. apply bind_Ok in Hx as (raw & _ & Hx).
  apply bind_Ok in Hx as (target & Ht & [= _ <- _]). unfold map_err in Ht. case_match; simplify_eq.
  by exists raw, target.
Qed.

(** *** Each half of a handler *)

Lemma hitl_read_ok a i body response row :
  app_inv a → hitl_read a i body response = Ok row → graph_ok (t_metadata_json row).
Proof using text_parses.
  intros Ha Hr. apply bind_Ok in Hr as (t & _ & Hr).
  destruct (get_task_for_instance _ _ _) as [[row'|]|] eqn:Hg; [|done..].
  apply (clean_read a i t row' Ha) in Hg. case_match; [done|].
  apply bind_Ok in Hr as (? & _ & Hr). apply bind_Ok in Hr as (? & _ & Hr). by simplify_eq.
Qed.

Lemma hitl_ok now a i body response :
  app_inv a → app_inv (handle_hitl_response now a i body response).1 ∧
  is_Some (handle_hitl_response now a i body response).2.
Proof using text_parses.
  intros Ha. unfold handle_hitl_response. destruct (hitl_read _ _ _ _) as [row|] eqn:Hr; [|by eauto].
  split; [|by eauto]. apply upsert_app; [done|]. exact (hitl_read_ok _ _ _ _ _ Ha Hr).
Qed.

Lemma referenced_ok a i body existing :
  app_inv a → referenced_task a i body = Ok existing → graph_ok (existing ≫= t_metadata_json).
Proof using text_parses.
  intros Ha. unfold referenced_task. destruct (_ ≫= non_empty) as [t|]; [|intros [= <-]; done].
  destruct (get_task_for_instance _ _ _) as [[row|]|] eqn:Hg; [|done..].
  case_match; [done|]. intros [= <-]. by eapply clean_read.
Qed.

Lemma submitted_ok now u a i activated body mid x :
  app_inv a → submitted_row now u a i activated body mid = Ok x →
  ∃ row, x = Some row ∧ graph_ok (t_metadata_json row).
Proof using text_parses.
  intros Ha. unfold submitted_row. destruct (referenced_task _ _ _) as [existing|] eqn:He; [|done].
  intros Hx. apply bind_Ok in Hx as (? & _ & Hx).
  destruct (new_metadata _ _ _ _ _ _ _ _) as [y|] eqn:Hn; [|done]. simpl in Hx. simplify_eq.
  apply new_metadata_ok in Hn as (m & -> & Hm); [|by eapply referenced_ok].
  by eexists.
Qed.

Lemma persist_submitted_ok now u a i body row :
  app_inv a → graph_ok (t_metadata_json row) → app_inv (persist_submitted now u a i body row).1.
Proof.
  intros Ha Hrow. unfold persist_submitted. destruct (_ ≫= _) as [config|]; [|by apply upsert_app].
  unfold persist_inline_config.
  destruct (parse_create_body _ _ _) as [[[cid url] auth]|] eqn:Hp; [|by apply upsert_app].
  apply persist_app; [by apply upsert_app|]. by eapply parse_create_body_url.
Qed.

Lemma send_begin_ok now u a i inst version headers bytes a' step :
  app_inv a → send_begin now u a i inst version headers bytes = (a', step) →
  app_inv a' ∧ match step with
               | SendDone answer => is_Some answer
               | SendDispatch d => graph_ok (t_metadata_json (d_row d))
               end.
Proof using text_parses.
  intros Ha. unfold send_begin. destruct (parse_body _ _) as [body|]; [|intros; simplify_eq; eauto].
  destruct (negb _); [intros; simplify_eq; eauto|].
  destruct (hitl_response_payload body) as [response|].
  { pose proof (hitl_ok now a i body response Ha) as Hh.
    destruct (handle_hitl_response _ _ _ _ _). intros; simplify_eq. done. }
  destruct (ai_registry a Ha) as (kind & host & Hr).
  destruct (registry_pre_request _ _ _ _) as [c outcome] eqn:Hp.
  assert (app_inv (a <| app_idem := c |>)) as Hc.
  { rewrite Hr in Hp. pose proof (f_equal (λ x, cache_store x.1) Hp) as Hs. cbv beta in Hs.
    rewrite pre_request_store in Hs. apply cache_app; [done|..]; simpl in Hs; by rewrite <-Hs. }
  destruct outcome; try (intros; simplify_eq; split; [|by eauto]; by apply (cache_app _ _ Hc)).
  destruct (submitted_row _ _ _ _ _ _ _) as [x|] eqn:Hx; [|intros; simplify_eq; eauto].
  apply submitted_ok in Hx as (row & -> & Hrow); [|done].
  pose proof (persist_submitted_ok now u _ i body row Hc Hrow) as Hs.
  destruct (persist_submitted _ _ _ _ _ _) as [a2 [|]]; intros; simplify_eq; eauto.
Qed.

Lemma outcome_row_ok now a d outcome :
  app_inv a → graph_ok (t_metadata_json (d_row d)) →
  ∃ a1 row, outcome_row now a d outcome = Some (a1, row) ∧ app_inv a1.
Proof.
  intros Ha Hd. destruct outcome as [[]|err]; cbn [outcome_row];
    [unfold accepted_row|unfold failed_row]; cbv zeta.
  - case_match; [|by eauto]. edestruct latest_event_ok as (m & -> & Hm); [exact Hd|].
    do 2 eexists. split; [done|]. by apply upsert_app.
  - edestruct latest_event_ok as (m & -> & Hm); [exact Hd|].
    do 2 eexists. split; [done|]. by apply upsert_app.
Qed.

Lemma send_finish_ok now a d outcome :
  app_inv a → graph_ok (t_metadata_json (d_row d)) →
  app_inv (send_finish now a d outcome).1 ∧ is_Some (send_finish now a d outcome).2.
Proof.
  intros Ha Hd. unfold send_finish.
  destruct (outcome_row_ok now a d outcome Ha Hd) as (a1 & row & -> & Ha1).
  split; [|by eauto]. by apply try_send_app, record_response_app.
Qed.

Lemma resume_ok now outcome a p :
  app_inv a → pending_ok p →
  app_inv (resume now outcome a p).1 ∧ is_Some (resume now outcome a p).2.
Proof.
  intros Ha Hp. destruct p as [row|event row|body row|d]; simpl in *.
  - unfold cancel_write, canceled_row. edestruct latest_event_ok as (m & -> & Hm); [exact Hp|]. simpl.
    split; [|by eauto]. apply try_send_app. by apply upsert_app.
  - unfold checkpoint_write. destruct (latest_event_ok _ event Hp) as (m & -> & Hm).
    split; [|by eauto]. by apply upsert_app.
  - split; [|by eauto]. by apply upsert_app.
  - by apply send_finish_ok.
Qed.

Lemma create_config_ok now fresh a i t version body :
  app_inv a → app_inv (create_config now fresh a i t version body).1.
Proof.
  intros Ha. unfold create_config.
  destruct (parse_create_body _ _ _) as [[[cid url] auth]|] eqn:Hp; [|done].
  destruct (require_owned_task _ _ _); [|done]. cbv zeta.
  match goal with |- context [persist_bounded_config a i ?cfg] =>
    pose proof (persist_app a i cfg Ha (parse_create_body_url _ _ _ _ _ _ Hp)) as Hc end.
  by destruct (persist_bounded_config _ _ _) as [a' []].
Qed.

Lemma delete_config_ok a i t cid version : app_inv a → app_inv (delete_config a i t cid version).1.
Proof.
  intros Ha. unfold delete_config. repeat case_match; try done.
  destruct Ha as [Ht Hc Hu Hq Hr]. constructor; rewrite ?app_store_set; try done; simpl.
  - intros t0. specialize (Hc t0). unfold count_push_configs in *. simpl.
    rewrite map_filter_delete. etrans; [|exact Hc]. apply inj_le, map_subseteq_size, delete_subseteq.
  - by apply map_Forall_delete.
Qed.

Lemma world_step_ok w answer w' :
  world_inv w → world_step w answer w' → world_inv w' ∧ answer ≠ Some None.
Proof using text_parses.
  intros [Ha Hp] Hstep. destruct Hstep as
    [a ps i t row Hr|now a ps i t headers bytes event row Hr|a ps i body response row Hr
    |now u a ps i inst version headers bytes a' d Hs|now u a ps i inst version headers bytes a' answer Hs
    |now outcome a ps1 p ps2 a' answer Hs|now fresh a ps i t version body a' response Hs
    |a ps i t cid version a' response Hs|a ps ev rest Hd]; simpl in *.
  - split; [|done]. constructor; [done|]. constructor; [|done]. unfold cancel_read in Hr.
    destruct (get_task_for_instance _ _ _) as [[row'|]|] eqn:Hg; [|done..].
    case_match; simplify_eq. by eapply clean_read.
  - split; [|done]. constructor; [done|]. constructor; [|done]. unfold checkpoint_read in Hr.
    case_match; [done|]. apply bind_Ok in Hr as (? & _ & Hr). apply bind_Ok in Hr as (? & _ & Hr).
    destruct (get_task_for_instance _ _ _) as [[row'|]|] eqn:Hg; [|done..].
    case_match; simplify_eq. by eapply clean_read.
  - split; [|done]. constructor; [done|]. constructor; [|done]. by eapply hitl_read_ok.
  - apply send_begin_ok in Hs as [Ha' Hd]; [|done]. split; [|done]. constructor; [done|by constructor].
  - apply send_begin_ok in Hs as [Ha' [r ->]]; [|done]. done.
  - apply Forall_app in Hp as [Hp1 [Hp Hp2]%Forall_cons].
    destruct (resume_ok now outcome a p Ha Hp) as [Ha' [r Hr]]. rewrite Hs in Ha', Hr. simpl in *. subst.
    split; [|done]. constructor; [done|]. by apply Forall_app.
  - pose proof (create_config_ok now fresh a i t version body Ha) as Ha'. by rewrite Hs in Ha'.
  - pose proof (delete_config_ok a i t cid version Ha) as Ha'. by rewrite Hs in Ha'.
  - split; [|done]. constructor; [|done]. destruct Ha as [Ht Hc Hu Hq Hr]. constructor; try done.
    simpl. rewrite Hd in Hq. unfold len in *. simpl in Hq. lia.
Qed.

Lemma world_moves_ok w w' : world_inv w → rtc world_move w w' → world_inv w'.
Proof using text_parses. induction 2 as [|w w1 w2 [answer Hs] _ IH]; [done|]. apply IH. by eapply world_step_ok. Qed.
End invariant.

(** The state [build_default_registry] is wired into, over an empty store. *)
Definition initial_app (kind : RuntimeKind) (host : string) : AppState :=
  {| app_idem := cache_new open_in_memory; app_delivery := [];
     app_extensions := build_default_registry kind host |}.

Lemma initial_app_ok kind host : app_inv (initial_app kind host).
Proof.
  constructor.
  - apply map_Forall_empty.
  - intros t. unfold count_push_configs. simpl. rewrite map_filter_empty. done.
  - apply map_Forall_empty.
  - done.
  - by do 2 eexists.
Qed.

(** However requests interleave, no handler panics: from an empty store,
    every answer is a response.  In every state reached, each task has at most
    sixteen push configs, each stored callback URL is one the policy
    validated, and the delivery queue stays within its capacity. *)
Theorem handlers_never_panic kind host w answer w' :
  json_text_parses _ →
  rtc world_move (alone (initial_app kind host)) w →
  world_step w answer w' →
  answer ≠ Some None ∧
  (∀ t, count_push_configs (app_store (w_app w')) t <= 16) ∧
  map_Forall (λ _ c, valid_callback (pc_url c)) (push_notification_configs (app_store (w_app w'))) ∧
  len (app_delivery (w_app w')) <= 1024.
Proof.
  intros Hj Hr Hs. destruct (world_step_ok Hj w answer w') as [[[Ht Hc Hu Hq Hx] Hp] Hans]; [|done|done].
  eapply world_moves_ok; [done| |done]. constructor; [apply initial_app_ok|done].
Qed.

(** ** Finished tasks *)

(** One request handled from start to end with no other in between; a UUID
    drawn for a new task is not that of a stored one. *)
Inductive handler_run a : AppState → Prop :=
| run_cancel now i t : handler_run a (cancel_handler now a i t).1
| run_checkpoint now i t headers bytes : handler_run a (checkpoint_handler now a i t headers bytes).1
| run_answer now u i inst version headers bytes a' answer :
    tasks (app_store a) !! uuid_text u = None →
    send_begin now u a i inst version headers bytes = (a', SendDone answer) → handler_run a a'
| run_send now u i inst version headers bytes a' d updated outcome :
    tasks (app_store a) !! uuid_text u = None →
    send_begin now u a i inst version headers bytes = (a', SendDispatch d) →
    handler_run a (send_finish updated a' d outcome).1
| run_create now fresh i t version body : handler_run a (create_config now fresh a i t version body).1
| run_delete i t cid version : handler_run a (delete_config a i t cid version).1.

(** Same columns but for the metadata and the update time. *)
Definition same_outcome (c c' : TaskColumns) : Prop :=
  c' = c <| tc_metadata_json := tc_metadata_json c' |> <| tc_updated_at := tc_updated_at c' |>.

Definition keeps (t : string) (c : TaskColumns) a : Prop :=
  ∃ c', tasks (app_store a) !! t = Some c' ∧ same_outcome c c'.

Definition finished (c : TaskColumns) : Prop :=
  ∃ st, tc_state c = task_state_as_str st ∧ task_is_terminal st = true.

Lemma task_state_as_str_inj st st' : task_state_as_str st = task_state_as_str st' → st = st'.
Proof. by destruct st, st'. Qed.

Section finished.
Context (text_parses : json_text_parses _) (t : string) (c : TaskColumns) (c_finished : finished c).

Lemma keeps_same a a' : tasks (app_store a') = tasks (app_store a) → keeps t c a → keeps t c a'.
Proof. intros Heq (c' & Hc & Hs). exists c'. by rewrite Heq. Qed.

Lemma keeps_upsert a row :
  t_task_id row ≠ t → keeps t c a → keeps t c (set_store a (upsert_task (app_store a) row)).
Proof. intros Hne (c' & Hc & Hs). exists c'. by rewrite app_store_set, upsert_lookup_other. Qed.

(** A row read for [t] shows a terminal state. *)
Lemma finished_read a i t' row :
  keeps t c a → get_task_for_instance (app_store a) i t' = Ok (Some row) →
  t_task_id row = t' ∧ (t' = t → task_is_terminal (t_state row) = true).
Proof using c_finished.
  intros (c' & Hc & Hs) Hg. apply owned_row in Hg as (c0 & Hc0 & _ & Hr).
  apply row_to_task_columns in Hr as (Hid & _ & _ & _ & Hst). split; [done|]. intros ->.
  simplify_eq. rewrite Hs in Hst. simpl in Hst. destruct c_finished as (st & Hst' & Hterm).
  rewrite Hst' in Hst. by apply task_state_as_str_inj in Hst as <-.
Qed.

Lemma keeps_cancel now a i t' : keeps t c a → keeps t c (cancel_handler now a i t').1.
Proof using c_finished.
  intros Hk. unfold cancel_handler, cancel_read.
  destruct (get_task_for_instance _ _ _) as [[row|]|] eqn:Hg; [|done..].
  apply (finished_read _ _ _ _ Hk) in Hg as [Hid Ht].
  destruct (task_is_terminal (t_state row)) eqn:Hterm; [done|].
  unfold cancel_write, canceled_row. destruct (latest_event _ _); [|done]. simpl.
  eapply keeps_same; [|apply keeps_upsert; [|exact Hk]]; [by unfold try_send; case_match|].
  simpl. intros Heq. by specialize (Ht ltac:(congruence)).
Qed.

Lemma keeps_hitl now a i body response : keeps t c a → keeps t c (handle_hitl_response now a i body response).1.
Proof using c_finished.
  intros Hk. unfold handle_hitl_response. destruct (hitl_read _ _ _ _) as [row|] eqn:Hr; [|done].
  apply bind_Ok in Hr as (t' & _ & Hr).
  destruct (get_task_for_instance _ _ _) as [[row'|]|] eqn:Hg; [|done..].
  apply (finished_read _ _ _ _ Hk) in Hg as [Hid Ht]. destruct (bool_decide _) eqn:Hst; [done|].
  apply bind_Ok in Hr as (? & _ & Hr). apply bind_Ok in Hr as (? & _ & Hr). simplify_eq.
  apply keeps_upsert; [|done]. simpl. intros Heq. reflect_bools.
  rewrite Hst in Ht. specialize (Ht ltac:(congruence)). done.
Qed.

(** The checkpoint writes the row back as it was read. *)
Lemma keeps_checkpoint now a i t' headers bytes :
  app_inv a → keeps t c a → keeps t c (checkpoint_handler now a i t' headers bytes).1.
Proof using text_parses c_finished.
  intros Ha Hk. unfold checkpoint_handler. destruct (checkpoint_read _ _ _ _ _ _) as [[event row]|] eqn:Hr; [|done].
  unfold checkpoint_read in Hr. case_match; [done|].
  apply bind_Ok in Hr as (? & _ & Hr). apply bind_Ok in Hr as (? & _ & Hr).
  destruct (get_task_for_instance _ _ _) as [[row'|]|] eqn:Hg; [|done..]. case_match; simplify_eq.
  destruct (finished_read _ _ _ _ Hk Hg) as [Hid _]. apply owned_row in Hg as (c0 & Hc0 & _ & Hrow).
  unfold checkpoint_write. destruct (latest_event _ _) as [m'|]; [|done]. cbn [fst].
  destruct (decide (t' = t)) as [->|Hne]; [|apply keeps_upsert; [simpl; congruence|done]].
  destruct Hk as (c' & Hc' & Hs). simplify_eq.
  destruct (ai_tasks a Ha _ _ Hc') as (st & k & v & m & Hst & Hkd & Hv & Hm & _ & Hterm).
  rewrite (row_to_task_encoded _ c' st k v m text_parses Hst Hkd Hv Hm) in Hrow.
  destruct row. simplify_eq/=. destruct Hterm as [at_ Hat].
  { destruct c_finished as (st' & Hst' & Hterm'). rewrite Hs in Hst. simpl in Hst.
    rewrite Hst' in Hst. by apply task_state_as_str_inj in Hst as <-. }
  eexists. rewrite app_store_set. unfold upsert_task. simpl. rewrite lookup_insert_eq. split; [done|].
  rewrite Hc'. unfold same_outcome in *. simpl. rewrite Hat. simpl. clear c_finished Ha. destruct c', c; simpl in *.
  injection Hs as -> -> Hst0 -> -> -> ->. simplify_eq. by destruct tc_instance_id0.
Qed.


Lemma persist_tasks a i cfg :
  tasks (app_store (persist_bounded_config a i cfg).1) = tasks (app_store a).
Proof.
  unfold persist_bounded_config, put_push_config_bounded. by repeat case_match; simplify_eq/=.
Qed.

Lemma submitted_other now u a i activated body mid row :
  keeps t c a → tasks (app_store a) !! uuid_text u = None →
  submitted_row now u a i activated body mid = Ok (Some row) → t_task_id row ≠ t.
Proof using c_finished.
  intros Hk Hu. unfold submitted_row, referenced_task.
  assert (uuid_text u ≠ t) as Hne by (destruct Hk as (? & ? & _); congruence).
  destruct ((message_field body "taskId" ≫= as_str) ≫= non_empty) as [t'|].
  - destruct (get_task_for_instance _ _ _) as [[row'|]|] eqn:Hg; [|done..].
    apply (finished_read _ _ _ _ Hk) in Hg as [Hid Ht].
    destruct (task_is_terminal (t_state row')) eqn:Hterm; [done|].
    intros Hx. apply bind_Ok in Hx as (? & _ & Hx).
    destruct (new_metadata _ _ _ _ _ _ _ _) as [[m|]|]; simplify_eq/=.
    intros Heq. by specialize (Ht ltac:(congruence)).
  - intros Hx. apply bind_Ok in Hx as (? & _ & Hx).
    destruct (new_metadata _ _ _ _ _ _ _ _) as [[m|]|]; by simplify_eq/=.
Qed.

Lemma keeps_persist now u a i body row :
  keeps t c a → t_task_id row ≠ t → keeps t c (persist_submitted now u a i body row).1.
Proof.
  intros Hk Hne. unfold persist_submitted. destruct (_ ≫= _); [|by apply keeps_upsert].
  unfold persist_inline_config. repeat case_match; try (by apply keeps_upsert).
  eapply keeps_same; [apply persist_tasks|]. by apply keeps_upsert.
Qed.

Lemma keeps_begin now u a i inst version headers bytes a' step :
  app_inv a → keeps t c a → tasks (app_store a) !! uuid_text u = None →
  send_begin now u a i inst version headers bytes = (a', step) →
  keeps t c a' ∧ ∀ d, step = SendDispatch d → t_task_id (d_row d) ≠ t.
Proof using c_finished.
  intros Ha Hk Hu. unfold send_begin. destruct (parse_body _ _) as [body|]; [|intros; by simplify_eq].
  destruct (negb _); [intros; by simplify_eq|].
  destruct (hitl_response_payload body) as [response|].
  { pose proof (keeps_hitl now a i body response Hk) as Hh.
    destruct (handle_hitl_response _ _ _ _ _). intros; by simplify_eq. }
  destruct (ai_registry a Ha) as (kind & host & Hr).
  destruct (registry_pre_request _ _ _ _) as [cc outcome] eqn:Hp.
  assert (app_store (a <| app_idem := cc |>) = app_store a) as Hc.
  { rewrite Hr in Hp. pose proof (f_equal (λ x, cache_store x.1) Hp) as Hs. cbv beta in Hs.
    by rewrite pre_request_store in Hs. }
  assert (keeps t c (a <| app_idem := cc |>)) as Hk'.
  { eapply keeps_same; [|exact Hk]. by rewrite Hc. }
  destruct outcome; try (intros; by simplify_eq).
  destruct (submitted_row _ _ _ _ _ _ _) as [[row|]|] eqn:Hx; try (intros; by simplify_eq).
  apply submitted_other in Hx; [|done|by rewrite Hc].
  pose proof (keeps_persist now u _ i body row Hk' Hx) as Hs.
  destruct (persist_submitted _ _ _ _ _ _) as [a2 [|]]; intros; simplify_eq; (split; [done|naive_solver]).
Qed.

Lemma keeps_finish now a d outcome :
  keeps t c a → t_task_id (d_row d) ≠ t → keeps t c (send_finish now a d outcome).1.
Proof.
  intros Hk Hne. unfold send_finish. destruct (outcome_row _ _ _ _) as [[a1 row]|] eqn:Ho; [|done].
  cbn [fst]. assert (keeps t c a1) as Hk1.
  { destruct outcome; cbn [outcome_row] in Ho; unfold accepted_row, failed_row in Ho; cbv zeta in Ho;
      repeat case_match; simplify_eq/=; try done;
      destruct (latest_event _ _); simplify_eq/=; by apply keeps_upsert. }
  eapply keeps_same; [|exact Hk1]. by rewrite try_send_store, record_response_tasks.
Qed.

Lemma keeps_run a a' : app_inv a → keeps t c a → handler_run a a' → keeps t c a'.
Proof using text_parses c_finished.
  intros Ha Hk []; eauto using keeps_cancel, keeps_checkpoint.
  - edestruct keeps_begin; eauto.
  - edestruct keeps_begin as [? Hd]; eauto. apply keeps_finish; [done|]. by eapply Hd.
  - eapply keeps_same; [|exact Hk]. unfold create_config.
    destruct (parse_create_body _ _ _) as [[[cid url] auth]|]; [|done].
    destruct (require_owned_task _ _ _); [|done]. cbv zeta.
    match goal with |- context [persist_bounded_config a i ?cfg] =>
      pose proof (persist_tasks a i cfg) as Hc end.
    by destruct (persist_bounded_config _ _ _) as [a2 []].
  - eapply keeps_same; [|exact Hk]. unfold delete_config. by repeat case_match.
Qed.
End finished.

(** A request handled alone is one of the interleavings. *)
Lemma run_moves a a' : handler_run a a' → rtc world_move (alone a) (alone a').
Proof.
  assert (∀ now outcome p, rtc world_move {| w_app := a; w_pending := [p] |}
            (alone (resume now outcome a p).1)) as Hresume.
  { intros now outcome p. apply rtc_once. destruct (resume now outcome a p) as [a2 answer] eqn:Hr.
    exists (Some answer). by apply (w_resume now outcome a [] p [] a2 answer). }
  intros [now i t|now i t headers bytes|now u i inst version headers bytes a2 answer _ Hs
    |now u i inst version headers bytes a2 d updated outcome _ Hs
    |now fresh i t version body|i t cid version].
  - unfold cancel_handler. destruct (cancel_read a i t) as [row|] eqn:Hr; [|done].
    eapply rtc_l; [exists None; by eapply w_cancel|]. apply (Hresume now (Ok ()) (PCancel row)).
  - unfold checkpoint_handler. destruct (checkpoint_read _ _ _ _ _ _) as [[event row]|] eqn:Hr; [|done].
    eapply rtc_l; [exists None; by eapply w_checkpoint|]. apply (Hresume now (Ok ()) (PCheckpoint event row)).
  - apply rtc_once. exists (Some answer). by eapply w_answer.
  - eapply rtc_l; [exists None; by eapply w_send|]. apply rtc_once.
    destruct (send_finish updated a2 d outcome) as [a3 answer] eqn:Hf. exists (Some answer).
    by apply (w_resume updated outcome a2 [] (PSend d) [] a3 answer).
  - apply rtc_once. destruct (create_config _ _ _ _ _ _ _) as [a2 r] eqn:Hc. exists (Some (Some r)).
    by eapply w_create.
  - apply rtc_once. destruct (delete_config _ _ _ _ _) as [a2 r] eqn:Hc. exists (Some (Some r)).
    by eapply w_delete.
Qed.

Lemma run_ok a a' : json_text_parses _ → app_inv a → handler_run a a' → app_inv a'.
Proof.
  intros Hj Ha Hr. apply run_moves in Hr. eapply world_moves_ok in Hr; [by destruct Hr|done|].
  by constructor.
Qed.

Lemma reachable_app kind host a ps :
  json_text_parses _ →
  rtc world_move (alone (initial_app kind host)) {| w_app := a; w_pending := ps |} → app_inv a.
Proof.
  intros Hj Hr. eapply world_moves_ok in Hr; [by destruct Hr|done|].
  constructor; [apply initial_app_ok|done].
Qed.

(** C19: Once a task is terminal, requests handled one after the other never
    change what became of it: whatever cancels, messages, HITL responses,
    checkpoints and push-config requests follow, its state, failure kind,
    status, terminal time, owner, context and creation time stay; only the
    metadata and the update time may move. *)
Theorem terminal_tasks_final kind host a ps a' t c :
  json_text_parses _ →
  rtc world_move (alone (initial_app kind host)) {| w_app := a; w_pending := ps |} →
  tasks (app_store a) !! t = Some c → finished c → rtc handler_run a a' →
  ∃ c', tasks (app_store a') !! t = Some c' ∧
    c' = c <| tc_metadata_json := tc_metadata_json c' |> <| tc_updated_at := tc_updated_at c' |>.
Proof.
  intros Hj Hr Hc Hf Hruns. apply reachable_app in Hr; [|done].
  assert (keeps t c a) as Hk by (exists c; split; [done|by destruct c]).
  clear Hc. induction Hruns as [|a a1 a2 Hrun _ IH]; [done|].
  apply IH; [by eapply run_ok|by eapply keeps_run].
Qed.

(** ** What a message does *)

Lemma upsert_owned s i row :
  json_text_parses _ → t_instance_id row = Some i →
  (∀ c, tasks s !! t_task_id row = Some c → tc_instance_id c = Some i) →
  get_task_for_instance (upsert_task s row) i (t_task_id row) =
  Ok (Some (stored_row (tasks s !! t_task_id row) row)).
Proof.
  intros Hj Hi Hc. pose proof (upsert_get s row Hj) as Hg. revert Hg.
  unfold get_task, get_task_for_instance. simpl. rewrite lookup_insert_eq. cbn -[row_to_task stored_row].
  rewrite decide_True; [done|].
  destruct (tasks s !! t_task_id row) as [c|] eqn:Hrow; simpl; [|done].
  by rewrite (Hc c eq_refl).
Qed.

Lemma owned_by_tasks s s' i t :
  tasks s = tasks s' → get_task_for_instance s i t = get_task_for_instance s' i t.
Proof. intros Heq. unfold get_task_for_instance. by rewrite Heq. Qed.

(** The task a dispatched message belongs to is stored, submitted and owned. *)
Lemma submitted_stored now u a i activated body mid row :
  tasks (app_store a) !! uuid_text u = None →
  submitted_row now u a i activated body mid = Ok (Some row) →
  t_state row = Task.Submitted ∧ t_instance_id row = Some i ∧
  ∀ c, tasks (app_store a) !! t_task_id row = Some c → tc_instance_id c = Some i.
Proof.
  intros Hu. unfold submitted_row, referenced_task.
  destruct ((message_field body "taskId" ≫= as_str) ≫= non_empty) as [t'|].
  - destruct (get_task_for_instance _ _ _) as [[row'|]|] eqn:Hg; [|done..].
    apply owned_row in Hg as (c & Hc & Hi & Hr). apply row_to_task_columns in Hr as (Hid & _).
    destruct (task_is_terminal (t_state row')); [done|].
    intros Hx. apply bind_Ok in Hx as (? & _ & Hx).
    destruct (new_metadata _ _ _ _ _ _ _ _) as [[m|]|]; simplify_eq/=. naive_solver.
  - intros Hx. apply bind_Ok in Hx as (? & _ & Hx).
    destruct (new_metadata _ _ _ _ _ _ _ _) as [[m|]|]; simplify_eq/=. naive_solver.
Qed.

Lemma dispatched_stored now u a i inst version headers bytes a' d :
  json_text_parses _ → app_inv a → tasks (app_store a) !! uuid_text u = None →
  send_begin now u a i inst version headers bytes = (a', SendDispatch d) →
  d_instance_id d = i ∧ t_state (d_row d) = Task.Submitted ∧ t_instance_id (d_row d) = Some i ∧
  ∃ row, get_task_for_instance (app_store a') i (t_task_id (d_row d)) = Ok (Some row) ∧
    t_state row = Task.Submitted.
Proof.
  intros Hj Ha Hu. unfold send_begin. destruct (parse_body _ _) as [body|]; [|done].
  destruct (negb _); [done|]. destruct (hitl_response_payload body); [by case_match|].
  destruct (ai_registry a Ha) as (kind & host & Hr).
  destruct (registry_pre_request _ _ _ _) as [cc outcome] eqn:Hp.
  assert (app_store (a <| app_idem := cc |>) = app_store a) as Hc.
  { rewrite Hr in Hp. pose proof (f_equal (λ x, cache_store x.1) Hp) as Hs. cbv beta in Hs.
    by rewrite pre_request_store in Hs. }
  destruct outcome; [|done..].
  destruct (submitted_row _ _ _ _ _ _ _) as [[row|]|] eqn:Hx; [|done..].
  apply submitted_stored in Hx as (Hst & Hi & Hown); [|by rewrite Hc].
  destruct (persist_submitted _ _ _ _ _ _) as [a2 [|]] eqn:Hps; [|done].
  intros [= <- <-]. simpl. split_and!; [done..|].
  exists (stored_row (tasks (app_store a) !! t_task_id row) row). split; [|exact Hst].
  rewrite (owned_by_tasks _ (upsert_task (app_store (a <| app_idem := cc |>)) row)).
  { rewrite upsert_owned by done. by rewrite Hc. }
  revert Hps. unfold persist_submitted, persist_inline_config. intros Hps.
  destruct (json_get body "configuration" ≫= _); [|by simplify_eq].
  destruct (parse_create_body _ _ _) as [[[cid url] auth]|]; [|done].
  apply (f_equal (λ x, tasks (app_store x.1))) in Hps. cbv beta in Hps. simpl in Hps.
  by rewrite <-Hps, persist_tasks.
Qed.

Lemma finish_tasks now a d outcome a1 row :
  outcome_row now a d outcome = Some (a1, row) →
  tasks (app_store (send_finish now a d outcome).1) = tasks (app_store a1).
Proof.
  intros Ho. unfold send_finish. rewrite Ho. cbn [fst].
  by rewrite try_send_store, record_response_tasks.
Qed.

(** A message that reaches the runtime seam never leaves its task
    [submitted].  When the request is handled alone, an accepted dispatch
    leaves the task [working] and is answered 202, and a failed one leaves it
    [failed] for infrastructure reasons with a terminal time and is answered
    502 or 503. *)
Theorem dispatched_message_settles kind host a ps now u i inst version headers bytes a1 d updated outcome :
  json_text_parses _ →
  rtc world_move (alone (initial_app kind host)) {| w_app := a; w_pending := ps |} →
  tasks (app_store a) !! uuid_text u = None →
  send_begin now u a i inst version headers bytes = (a1, SendDispatch d) →
  ∃ a2 r row, send_finish updated a1 d outcome = (a2, Some r) ∧
    get_task_for_instance (app_store a2) i (t_task_id (d_row d)) = Ok (Some row) ∧
    match outcome with
    | Ok _ => t_state row = Task.Working ∧ resp_status r = 202
    | Err err => t_state row = Task.Failed ∧ t_fail_kind row = Some Infrastructure ∧
        is_Some (t_terminal_at row) ∧
        resp_status r = match err with DispatchFailed _ => 502 | _ => 503 end
    end.
Proof.
  intros Hj Hr Hu Hs. apply reachable_app in Hr; [|done].
  destruct (send_begin_ok Hj _ _ _ _ _ _ _ _ _ _ Hr Hs) as [Ha1 Hg].
  destruct (dispatched_stored _ _ _ _ _ _ _ _ _ _ Hj Hr Hu Hs) as (Hi & _ & Hinst & cur & Hcur & Hst).
  destruct (owned_row _ _ _ _ Hcur) as (c & Hc & Hci & _).
  destruct (outcome_row_ok updated a1 d outcome Ha1 Hg) as (a2 & row & Ho & _).
  assert (∀ row0, t_task_id row0 = t_task_id (d_row d) → t_instance_id row0 = Some i →
    a2 = set_store a1 (upsert_task (app_store a1) row0) →
    get_task_for_instance (app_store (send_finish updated a1 d outcome).1) i (t_task_id (d_row d)) =
      Ok (Some (stored_row (Some c) row0))) as Hget.
  { intros row0 Hid Hi0 ->. rewrite (owned_by_tasks _ _ _ _ (finish_tasks _ _ _ _ _ _ Ho)), app_store_set.
    rewrite <-Hid, upsert_owned; [by rewrite Hid, Hc|done..|]. intros c'. rewrite Hid. congruence. }
  assert (∃ r, (send_finish updated a1 d outcome).2 = Some r ∧ resp_status r = dispatch_status outcome)
    as (r & Hans & Hstatus).
  { unfold send_finish. rewrite Ho. eexists. split; [done|]. by destruct outcome as [|[]]. }
  destruct (send_finish updated a1 d outcome) as [a3 ans] eqn:Hf. simpl in Hget, Hans. subst ans.
  destruct outcome as [[]|err]; cbn [outcome_row] in Ho; [unfold accepted_row in Ho|unfold failed_row in Ho];
    cbv zeta in Ho.
  - rewrite Hi, Hcur, bool_decide_true in Ho by done. destruct (latest_event _ _); [|done].
    injection Ho as Ha2 Hrow. rewrite Hrow in Ha2. eexists _, _, _. split; [done|].
    split; [apply (Hget row); [by rewrite <-Hrow..|done]|]. by rewrite <-Hrow.
  - destruct (latest_event _ _); [|done].
    injection Ho as Ha2 Hrow. rewrite Hrow in Ha2. eexists _, _, _. split; [done|].
    split; [apply (Hget row); [by rewrite <-Hrow..|done]|]. rewrite <-Hrow.
    split_and!; [done..| |by rewrite Hstatus; destruct err].
    simpl. unfold upsert_terminal_at. destruct (tc_terminal_at c); by eauto.
Qed.

(** ** Requests that cross *)

(** A HITL answer that crosses a cancel revives the task.  When the
    answer has read its task and the cancel runs to the end before the answer
    writes, the cancel is answered 200, and afterwards the task is stored as
    [working] while its terminal time is still that of the cancel. *)
Theorem hitl_answer_revives_canceled_task a i body response row now now' a1 r :
  json_text_parses _ →
  hitl_read a i body response = Ok row → t_terminal_at row = None →
  cancel_handler now a i (t_task_id row) = (a1, Some r) →
  resp_status r = 200 ∧
  ∃ row', get_task_for_instance (app_store (hitl_write now' a1 body row).1) i (t_task_id row) =
      Ok (Some row') ∧
    t_state row' = Task.Working ∧ t_terminal_at row' = Some now.
Proof.
  intros Hj Hr Hterm Hcancel. apply bind_Ok in Hr as (t & _ & Hr).
  destruct (get_task_for_instance _ _ _) as [[row'|]|] eqn:Hg; [|done..].
  destruct (bool_decide _) eqn:Hst; [done|].
  apply bind_Ok in Hr as (? & _ & Hr). apply bind_Ok in Hr as (? & _ & [= ->]).
  reflect_bools. destruct (owned_row _ _ _ _ Hg) as (c & Hc & Hci & Hrow).
  apply row_to_task_columns in Hrow as (<- & Hi & _ & Hat & _).
  unfold cancel_handler, cancel_read in Hcancel. rewrite Hg, Hst in Hcancel. simpl in Hcancel.
  unfold cancel_write, canceled_row in Hcancel. destruct (latest_event _ _) as [m|]; [|done].
  cbn -[try_send upsert_task] in Hcancel. injection Hcancel as <- <-. split; [done|].
  unfold hitl_write. cbn [fst]. rewrite app_store_set, try_send_store, app_store_set.
  eexists. split.
  - apply (upsert_owned _ i (answered_row now' body row) Hj); [simpl; congruence|].
    simpl. intros c'. rewrite lookup_insert_eq, Hc. intros [= <-]. simpl. by rewrite Hci.
  - simpl. rewrite lookup_insert_eq, Hc. simpl. unfold upsert_terminal_at. simpl.
    rewrite <-Hat, Hterm. done.
Qed.

(** A message whose inline push config is refused is answered with the
    refusal, but its task has been stored before: it stays [submitted] and is
    never dispatched. *)
Theorem refused_push_config_strands_task now u a i activated body mid row a' r :
  json_text_parses _ → tasks (app_store a) !! uuid_text u = None →
  submitted_row now u a i activated body mid = Ok (Some row) →
  persist_submitted now u a i body row = (a', Err r) →
  ∃ row', get_task_for_instance (app_store a') i (t_task_id row) = Ok (Some row') ∧
    t_state row' = Task.Submitted.
Proof.
  intros Hj Hu Hx Hp. apply submitted_stored in Hx as (Hst & Hi & Hown); [|done].
  exists (stored_row (tasks (app_store a) !! t_task_id row) row). split; [|exact Hst].
  rewrite (owned_by_tasks _ (upsert_task (app_store a) row)); [by rewrite upsert_owned|].
  revert Hp. unfold persist_submitted, persist_inline_config. intros Hp.
  destruct (json_get body "configuration" ≫= _); [|done].
  destruct (parse_create_body _ _ _) as [[[cid url] auth]|]; [|by simplify_eq/=].
  apply (f_equal (λ x, tasks (app_store x.1))) in Hp. cbv beta in Hp. simpl in Hp.
  by rewrite <-Hp, persist_tasks.
Qed.

(** ** Wire forms *)

(** What the wire form of a task shows of its metadata: the public keys as
    stored, and never the internal record. *)
Theorem wire_metadata_public row o :
  t_metadata_json row = Some (JObj o) → sorted_map o →
  ∀ m, json_get (task_row_to_a2a row) "metadata" = Some m →
    json_get m "_a2a" = None ∧ ∀ k, k ≠ "_a2a" → json_get m k = map_get o k.
Proof.
  intros Hrow Ho m. unfold task_row_to_a2a. rewrite Hrow. cbn [json_get].
  assert (∀ task : json_map, map_get task "metadata" = None →
    map_get (match JObj (map_remove o "_a2a") with
             | JObj (_ :: _) => map_insert task "metadata" (JObj (map_remove o "_a2a"))
             | _ => task end) "metadata" = Some m →
    json_get m "_a2a" = None ∧ ∀ k, k ≠ "_a2a" → json_get m k = map_get o k) as Hgoal.
  { intros task Ht. destruct (map_remove o "_a2a") as [|kv rest] eqn:Hrm; [by rewrite Ht|].
    rewrite <-Hrm, map_get_insert_eq. intros [= <-]. cbn [json_get]. split.
    - by apply map_get_remove_eq.
    - intros k Hk. by apply map_get_remove_ne. }
  apply Hgoal. clear Hgoal.
  assert (∀ task v, map_get (copy_optional task "history" v) "metadata" = map_get task "metadata") as Hh.
  { intros task [v|]; [by apply map_get_insert_ne|done]. }
  assert (∀ task v, map_get (copy_optional task "artifacts" v) "metadata" = map_get task "metadata") as Ha.
  { intros task [v|]; [by apply map_get_insert_ne|done]. }
  assert (∀ task v, map_get (copy_optional task "contextId" v) "metadata" = map_get task "metadata") as Hc.
  { intros task [v|]; [by apply map_get_insert_ne|done]. }
  destruct (map_get o "_a2a"); by rewrite ?Ha, ?Hh, Hc.
Qed.

(** A stored secret never shows: configs that differ only in the text of
    a configured secret have the same wire form in both protocol versions. *)
Theorem push_secret_redacted (cfg : PushNotificationConfigRow) auth secret secret' version :
  secret ≠ EmptyString → secret' ≠ EmptyString →
  config_to_protocol_wire (cfg <| p_auth_json := Some (JObj (map_insert auth "secret" (JStr secret))) |>)
    version =
  config_to_protocol_wire (cfg <| p_auth_json := Some (JObj (map_insert auth "secret" (JStr secret'))) |>)
    version.
Proof.
  intros Hs Hs'. destruct version; unfold config_to_protocol_wire, config_to_wire, config_to_v1_wire,
    has_secret; simpl; rewrite ?map_get_insert_eq, ?map_get_insert_ne by done; [|done].
  by rewrite !bool_decide_false.
Qed.

(** ** Pages *)

(** A client that follows [next_cursor]; [fuel] bounds the pages fetched. *)
Fixpoint walk (fuel : nat) a instance_id (limit : Z) (st : option TaskState) (cursor : option Z)
    : result StoreError (list TaskRow) :=
  match fuel with
  | O => Ok []
  | S fuel =>
      match list_page a instance_id limit st cursor with
      | Err e => Err e
      | Ok (page, next) =>
          match next ≫= decode_cursor with
          | None => Ok page
          | Some ms => (page ++.) <$> walk fuel a instance_id limit st (Some ms)
          end
      end
  end.

(** Every task of the instance in that state, newest first. *)
Definition all_tasks a instance_id (st : option TaskState) : result StoreError (list TaskRow) :=
  list_tasks (app_store a) {| f_state := st; f_limit := None; f_include_terminal := true;
    f_instance_id := Some instance_id |}.

Definition created_ms row : Z := timestamp_millis (t_created_at row).

Lemma collect_take {A B} (f : A → result StoreError B) n l xs :
  collect f l = Ok xs → collect f (take n l) = Ok (take n xs).
Proof.
  revert n xs. induction l as [|x l IH]; intros n xs Hx; simpl in Hx.
  { simplify_eq. by rewrite !take_nil. }
  apply bind_Ok in Hx as (y & Hy & Hx). apply bind_Ok in Hx as (ys & Hys & [= <-]).
  destruct n as [|n]; [done|]. simpl. rewrite Hy. simpl. by rewrite (IH n ys).
Qed.

Lemma window_nonneg limit : 1 <= limit → 0 < window limit.
Proof. unfold window. lia. Qed.

Lemma window_tasks a i limit st rows :
  1 <= limit → all_tasks a i st = Ok rows →
  list_tasks (app_store a) {| f_state := st; f_limit := Some (window limit);
    f_include_terminal := true; f_instance_id := Some i |} = Ok (take (Z.to_nat (window limit)) rows).
Proof.
  intros Hl Hrows. unfold all_tasks, list_tasks in *. simpl in *. unfold limit_rows.
  pose proof (window_nonneg limit Hl). rewrite (proj2 (Z.ltb_ge _ _)) by lia. by apply collect_take.
Qed.

(** Whatever the page size, state and cursor, a page holds only tasks among
    the newest [max (4 * limit) (limit + 10)] of the instance, so at most 400
    are ever within reach: the cursor is applied after the window is cut. *)
Theorem pages_stay_in_window a i q st cursor rows page next :
  all_tasks a i st = Ok rows →
  list_page a i (page_limit q) st cursor = Ok (page, next) →
  page ⊆ take 400 rows ∧ page ⊆ take (Z.to_nat (window (page_limit q))) rows.
Proof.
  intros Hrows Hp. assert (1 <= page_limit q <= 100) as Hl by (unfold page_limit, MAX_LIMIT; lia).
  unfold list_page in Hp. rewrite (window_tasks a i _ st rows) in Hp by (done || lia).
  cbn [mbind] in Hp. simplify_eq/=.
  assert (∀ row, row ∈ take (Z.to_nat (page_limit q)) (match cursor with
      | Some ms => filter (λ r, timestamp_millis (t_created_at r) < ms)
                     (take (Z.to_nat (window (page_limit q))) rows)
      | None => take (Z.to_nat (window (page_limit q))) rows end) →
    row ∈ take (Z.to_nat (window (page_limit q))) rows) as Hin.
  { intros row Hrow%subseteq_take. destruct cursor; [|done]. by apply list_elem_of_filter in Hrow as [_ ?]. }
  split; intros row Hrow; apply Hin in Hrow; [|done].
  apply elem_of_take in Hrow as (n & Hn & Hlt). apply elem_of_take. exists n. split; [done|].
  unfold window in Hlt. lia.
Qed.

Lemma filter_below {A} (f : A → Z) l j x :
  StronglySorted (λ x y, f y < f x) l → l !! j = Some x →
  filter (λ y, f y < f x) l = drop (S j) l.
Proof.
  intros Hs. revert j. induction Hs as [|y l Hs IH Hall]; intros j Hj; [done|].
  destruct j as [|j]; simpl in *.
  - simplify_eq. rewrite filter_cons_False by lia. rewrite drop_0.
    by apply filter_all.
  - rewrite filter_cons_False; [by apply IH|].
    apply list_elem_of_lookup_2 in Hj. rewrite Forall_forall in Hall. specialize (Hall x Hj). lia.
Qed.

Lemma strictly_newer rows :
  StronglySorted (λ x y, t_created_at y <= t_created_at x) rows → NoDup (created_ms <$> rows) →
  StronglySorted (λ x y, created_ms y < created_ms x) rows.
Proof.
  induction 1 as [|x rows Hs IH Hall]; simpl; [constructor|]. intros [Hx Hnd]%NoDup_cons.
  constructor; [by apply IH|]. rewrite Forall_forall in Hall |- *. intros y Hy.
  assert (created_ms y <= created_ms x).
  { unfold created_ms, timestamp_millis. apply Z.div_le_mono; [lia|by apply Hall]. }
  assert (created_ms y ≠ created_ms x) by (intros Heq; apply Hx; rewrite <-Heq; by apply list_elem_of_fmap_2).
  lia.
Qed.

Section walking.
Context (a : AppState) (i : string) (limit : Z) (st : option TaskState) (rows : list TaskRow).
Hypothesis b64_inverse : ∀ s, b64url_decode (b64url_encode s) = Some s.
Hypothesis limit_range : 1 <= limit.
Hypothesis rows_all : all_tasks a i st = Ok rows.
Hypothesis rows_fit : len rows <= window limit.
Hypothesis rows_distinct : NoDup (created_ms <$> rows).
Hypothesis rows_i64 : Forall (λ r, - (i64_max + 1) <= created_ms r <= i64_max) rows.

Lemma rows_strict : StronglySorted (λ x y, created_ms y < created_ms x) rows.
Proof using rows_all rows_distinct.
  apply strictly_newer; [|done]. unfold all_tasks, list_tasks in rows_all. simpl in rows_all.
  apply collect_Forall2 in rows_all as Hf. eapply decoded_sorted; [|exact Hf]. apply Sorted_merge_sort, _.
Qed.

(** The cursor that stands before row [k]. *)
Definition cursor_at (k : nat) : option Z :=
  match k with O => None | S j => created_ms <$> rows !! j end.

Lemma page_at k :
  (k <= length rows)%nat →
  list_page a i limit st (cursor_at k) =
  Ok (take (Z.to_nat limit) (drop k rows),
      if len (take (Z.to_nat limit) (drop k rows)) =? limit
      then encode_cursor <$> cursor_at (k + Z.to_nat limit) else None).
Proof using limit_range rows_all rows_fit rows_distinct.
  intros Hk. unfold list_page. rewrite (window_tasks a i limit st rows) by done. cbn [mbind result_bind].
  rewrite (take_ge rows (Z.to_nat (window limit))) by (unfold len in rows_fit; lia).
  assert (match cursor_at k with
          | Some ms => filter (λ r, timestamp_millis (t_created_at r) < ms) rows
          | None => rows end = drop k rows) as ->.
  { destruct k as [|j]; [by rewrite drop_0|]. simpl.
    destruct (lookup_lt_is_Some_2 rows j ltac:(lia)) as [r Hr]. rewrite Hr. simpl.
    apply (filter_below created_ms); [apply rows_strict|done]. }
  cbv zeta. do 3 f_equal. destruct (_ =? limit) eqn:Hl; [|done]. reflect_bools.
  assert (k + Z.to_nat limit <= length rows)%nat as Hle.
  { unfold len in Hl. rewrite length_take, length_drop in Hl. lia. }
  destruct (Z.to_nat limit) as [|n] eqn:Hn; [lia|]. rewrite Nat.add_succ_r. simpl.
  rewrite last_lookup, length_take, length_drop. rewrite lookup_take_lt by lia. rewrite lookup_drop.
  replace (k + Init.Nat.pred (S n `min` (length rows - k)))%nat with (k + n)%nat by lia.
  by destruct (rows !! (k + n)%nat).
Qed.

Lemma walk_from fuel k :
  (k <= length rows)%nat → (length rows - k < fuel)%nat →
  walk fuel a i limit st (cursor_at k) = Ok (drop k rows).
Proof using b64_inverse limit_range rows_all rows_fit rows_distinct rows_i64.
  revert k. induction fuel as [|fuel IH]; intros k Hk Hf; [lia|]. cbn [walk]. rewrite page_at by done.
  destruct (len _ =? limit) eqn:Hl; reflect_bools; unfold len in Hl; rewrite length_take, length_drop in Hl.
  - destruct (Z.to_nat limit) as [|n] eqn:Hn; [lia|].
    destruct (lookup_lt_is_Some_2 rows (k + n) ltac:(lia)) as [r Hr].
    rewrite Nat.add_succ_r. simpl cursor_at. rewrite Hr. cbn [fmap option_fmap option_map mbind option_bind].
    unfold encode_cursor, decode_cursor. rewrite b64_inverse. cbn [mbind option_bind].
    rewrite parse_i64_pretty by (by eapply (Forall_lookup_1 _ _ _ _ rows_i64)).
    specialize (IH (S (k + n)) ltac:(lia) ltac:(lia)). simpl cursor_at in IH. rewrite Hr in IH.
    cbn [fmap option_fmap option_map] in IH. rewrite IH. cbn [fmap result_fmap].
    rewrite <-(take_drop (S n) (drop k rows)) at 2. by rewrite drop_drop, Nat.add_succ_r.
  - cbn [mbind option_bind]. by rewrite take_ge by (rewrite length_drop; lia).
Qed.

(** Following the cursors lists every task exactly once, newest first, as
    long as the tasks fit the window of the page size and no two were created
    in the same millisecond. *)
Theorem walk_lists_all fuel :
  (length rows < fuel)%nat → walk fuel a i limit st None = Ok rows.
Proof using b64_inverse limit_range rows_all rows_fit rows_distinct rows_i64.
  intros Hf. rewrite <-(drop_0 rows) at 1. apply (walk_from fuel 0); lia.
Qed.
End walking.
End handlers.

(** ** Sample runs *)

#[local] Existing Instance sample_env.
#[local] Existing Instance sample_auth.
#[local] Existing Instance sample_scan.
#[local] Existing Instance sample_url_parser.

#[local] Instance sample_text : HandlerText := {|
  store_error_text := λ _, "store error";
  body_error_text := λ _, "parse error";
  uuid_text := λ n, "u-" +:+ pretty n;
  b64url_encode := λ s, s;
  b64url_decode := λ s, Some s;
|}.

Definition sample_instance : InstanceContext :=
  {| inst_id := "i-1"; inst_runtime_kind := Vm; inst_host := "h"; inst_runtime_provider := None;
     inst_runtime_capabilities := []; inst_ready := true |}.

Definition sample_headers : HeaderMap := [("a2a-extensions", Some IDEMPOTENCY_URI)].

Definition sample_message : json := json_obj [("message", json_obj [("messageId", JStr "m")])].

Definition sample_begin (now u : Z) (a : AppState) (body : json) : AppState * SendStep :=
  send_begin now u a "i-1" sample_instance V1_0 sample_headers (json_text body).

(** The first message on an empty store, and the row it waits with. *)
Definition app_0 : AppState := initial_app Vm "h".
Definition app_1 : AppState := (sample_begin 10 1 app_0 sample_message).1.
Definition sample_row (now : Z) (t : string) (state : TaskState) (status : json) : TaskRow :=
  {| t_task_id := t; t_context_id := Some "u-2"; t_instance_id := Some "i-1"; t_state := state;
     t_fail_kind := None; t_status_json := status;
     t_metadata_json := Some (json_obj [("_a2a", json_obj [("history",
       JArr [json_obj [("messageId", JStr "m")]])])]);
     t_created_at := now; t_updated_at := now; t_terminal_at := None |}.
Definition call_1 : Dispatching :=
  {| d_instance_id := "i-1"; d_instance := sample_instance; d_body := sample_message;
     d_activated := [IDEMPOTENCY_URI]; d_message_id := Some "m"; d_version := V1_0;
     d_row := sample_row 10 "u-1" Task.Submitted
       (json_obj [("state", JStr "submitted"); ("timestamp", JStr (rfc3339 10))]) |}.

Lemma sample_begin_1 : sample_begin 10 1 app_0 sample_message = (app_1, SendDispatch call_1).
Proof.
  rewrite (surjective_pairing (sample_begin 10 1 app_0 sample_message)). unfold app_1. f_equal.
Qed.

Lemma handlers_never_panic_witness :
  world_step {| w_app := app_1; w_pending := [PSend call_1] |}
    (Some (send_finish 20 app_1 call_1 (Ok ())).2) (alone (send_finish 20 app_1 call_1 (Ok ())).1) ∧
  Some (send_finish 20 app_1 call_1 (Ok ())).2 ≠ Some None.
Proof.
  assert (world_step {| w_app := app_1; w_pending := [PSend call_1] |}
    (Some (send_finish 20 app_1 call_1 (Ok ())).2) (alone (send_finish 20 app_1 call_1 (Ok ())).1)) as Hs.
  { apply (w_resume 20 (Ok ()) app_1 [] (PSend call_1) []), surjective_pairing. }
  split; [exact Hs|].
  apply (handlers_never_panic Vm "h" {| w_app := app_1; w_pending := [PSend call_1] |} _
           (alone (send_finish 20 app_1 call_1 (Ok ())).1) sample_env_text_parses); [|exact Hs].
  apply rtc_once. exists None. eapply w_send. apply sample_begin_1.
Defined.

(** The dispatch of the first message fails. *)
Definition failed_1 : AppState * Answer := send_finish 20 app_1 call_1 (Err NotImplemented).
Definition failed_columns : TaskColumns :=
  default (Build_TaskColumns None None "x" None "x" None 0 0 None) (tasks (app_store failed_1.1) !! "u-1").

Lemma failed_1_reachable : rtc world_move (alone (initial_app Vm "h")) (alone failed_1.1).
Proof.
  eapply rtc_l; [exists None; eapply w_send, sample_begin_1|]. apply rtc_once. exists (Some failed_1.2).
  apply (w_resume 20 (Err NotImplemented) app_1 [] (PSend call_1) []), surjective_pairing.
Qed.

Lemma terminal_tasks_final_witness :
  tc_state failed_columns = "failed" ∧
  ∃ c', tasks (app_store (cancel_handler 30 failed_1.1 "i-1" "u-1").1) !! "u-1" = Some c' ∧
    c' = failed_columns <| tc_metadata_json := tc_metadata_json c' |> <| tc_updated_at := tc_updated_at c' |>.
Proof.
  split; [vm_compute; reflexivity|].
  apply (terminal_tasks_final Vm "h" failed_1.1 [] (cancel_handler 30 failed_1.1 "i-1" "u-1").1
           "u-1" failed_columns sample_env_text_parses failed_1_reachable).
  - vm_compute; reflexivity.
  - exists Task.Failed. split; vm_compute; reflexivity.
  - apply rtc_once. apply run_cancel.
Defined.

Lemma dispatched_message_settles_witness :
  ∃ a2 r row, send_finish 20 app_1 call_1 (Err (DispatchFailed "refused")) = (a2, Some r) ∧
    get_task_for_instance (app_store a2) "i-1" "u-1" = Ok (Some row) ∧
    t_state row = Task.Failed ∧ resp_status r = 502.
Proof.
  destruct (dispatched_message_settles Vm "h" app_0 [] 10 1 "i-1" sample_instance V1_0 sample_headers
    (json_text sample_message) app_1 call_1 20 (Err (DispatchFailed "refused")) sample_env_text_parses)
    as (a2 & r & row & Hf & Hg & Hst & _ & _ & Hr).
  - apply rtc_refl.
  - vm_compute; reflexivity.
  - apply sample_begin_1.
  - exists a2, r, row. exact (conj Hf (conj Hg (conj Hst Hr))).
Defined.

(** A task that waits for an answer to a yes-or-no prompt. *)
Definition prompt_status : json := json_obj [("message", json_obj [("metadata",
  json_obj [(HITL_PROMPT_URI, json_obj [("prompt_id", JStr "p");
    ("response_schema", json_obj [("type", JStr "object")])])])])].
Definition waiting_row : TaskRow := sample_row 10 "u-1" Task.InputRequired prompt_status.
Definition waiting_app : AppState := set_store app_0 (upsert_task open_in_memory waiting_row).
Definition prompt_answer : json := json_obj [("prompt_id", JStr "p"); ("payload", JObj [])].
Definition answer_body : json := json_obj [("message", json_obj [("taskId", JStr "u-1");
  ("metadata", json_obj [("hitl_response_for", prompt_answer)])])].

Lemma hitl_answer_revives_canceled_task_witness :
  ∃ a1 r row', cancel_handler 20 waiting_app "i-1" "u-1" = (a1, Some r) ∧ resp_status r = 200 ∧
    get_task_for_instance (app_store (hitl_write 30 a1 answer_body waiting_row).1) "i-1" "u-1" =
      Ok (Some row') ∧
    t_state row' = Task.Working ∧ t_terminal_at row' = Some 20.
Proof.
  assert (∃ r, (cancel_handler 20 waiting_app "i-1" "u-1").2 = Some r) as [r Hr].
  { vm_compute. eexists. reflexivity. }
  exists (cancel_handler 20 waiting_app "i-1" "u-1").1, r.
  destruct (hitl_answer_revives_canceled_task waiting_app "i-1" answer_body prompt_answer waiting_row 20 30
    (cancel_handler 20 waiting_app "i-1" "u-1").1 r sample_env_text_parses) as (Hs & row' & Hg & Hst & Hat).
  - vm_compute; reflexivity.
  - reflexivity.
  - rewrite <-Hr. apply surjective_pairing.
  - exists row'. rewrite <-Hr. exact (conj (surjective_pairing _) (conj Hs (conj Hg (conj Hst Hat)))).
Defined.

(** A message that asks for notifications over plain HTTP. *)
Definition push_message : json := json_obj [("message", json_obj [("messageId", JStr "m")]);
  ("configuration", json_obj [("taskPushNotificationConfig", json_obj [("url", JStr "http://x")])])].

Lemma refused_push_config_strands_task_witness :
  (∃ r, (sample_begin 10 1 app_0 push_message).2 = SendDone (Some r) ∧ resp_status r = 400) ∧
  ∃ row', get_task_for_instance
      (app_store (persist_submitted 10 1 app_0 "i-1" push_message (d_row call_1)).1) "i-1" "u-1" =
      Ok (Some row') ∧ t_state row' = Task.Submitted.
Proof.
  split; [eexists; split; [vm_compute; reflexivity|reflexivity]|].
  assert (∃ r, (persist_submitted 10 1 app_0 "i-1" push_message (d_row call_1)).2 = Err r) as [r Hr].
  { vm_compute. eexists. reflexivity. }
  apply (refused_push_config_strands_task 10 1 app_0 "i-1" [IDEMPOTENCY_URI] push_message (Some "m")
           (d_row call_1) _ r sample_env_text_parses).
  - vm_compute; reflexivity.
  - vm_compute; reflexivity.
  - rewrite <-Hr. apply surjective_pairing.
Defined.

Lemma push_secret_redacted_witness :
  config_to_protocol_wire ((sample_push "p-1") <| p_auth_json := Some (json_obj [("secret", JStr "s")]) |>)
    V0_3 =
  config_to_protocol_wire ((sample_push "p-1") <| p_auth_json := Some (json_obj [("secret", JStr "t")]) |>)
    V0_3.
Proof. apply (push_secret_redacted (sample_push "p-1") [] "s" "t" V0_3); discriminate. Defined.

(** Two tasks created a millisecond apart, and two in the same one. *)
Definition listed_row (now : Z) (t : string) : TaskRow := sample_row now t Task.Working JNull.
Definition listed_app (rows : list TaskRow) : AppState :=
  set_store app_0 (foldl upsert_task open_in_memory rows).
Definition apart : list TaskRow := [listed_row 2000000 "u-2"; listed_row 1000000 "u-1"].
Definition together : list TaskRow := [listed_row 1000001 "u-2"; listed_row 1000000 "u-1"].
Definition sample_query : ListQuery := {| q_limit := Some 1; q_cursor := None; q_state := None |}.

Lemma pages_stay_in_window_witness :
  page_limit sample_query = 1 ∧ [listed_row 2000000 "u-2"] ⊆ take 400 apart ∧
  [listed_row 2000000 "u-2"] ⊆ take 11 apart.
Proof.
  split; [reflexivity|].
  apply (pages_stay_in_window (listed_app apart) "i-1" sample_query None None apart
    [listed_row 2000000 "u-2"] (Some "2")); vm_compute; reflexivity.
Defined.

Lemma walk_lists_all_witness : walk 3 (listed_app apart) "i-1" 1 None None = Ok apart.
Proof.
  apply (walk_lists_all (listed_app apart) "i-1" 1 None apart).
  - reflexivity.
  - lia.
  - vm_compute; reflexivity.
  - vm_compute. discriminate.
  - apply (bool_decide_unpack _). vm_compute. exact I.
  - repeat constructor; vm_compute; discriminate.
  - simpl. lia.
Defined.

(** A task created in the millisecond of the last row of a page is on no page. *)
Theorem same_millisecond_skipped :
  all_tasks (listed_app together) "i-1" None = Ok together ∧
  walk 3 (listed_app together) "i-1" 1 None None = Ok [listed_row 1000001 "u-2"].
Proof. split; by vm_compute. Qed.

(** The idempotency check and the record are not one step: a resend that
    arrives while the first request waits for its dispatch is dispatched too,
    as a second task. *)
Theorem concurrent_resend_dispatched_twice :
  ∃ d1 d2, (sample_begin 10 1 app_0 sample_message).2 = SendDispatch d1 ∧
    (sample_begin 11 4 app_1 sample_message).2 = SendDispatch d2 ∧
    d_message_id d1 = d_message_id d2 ∧ d_body d1 = d_body d2 ∧
    activated_contains (d_activated d2) IDEMPOTENCY_URI = true ∧
    t_task_id (d_row d1) ≠ t_task_id (d_row d2).
Proof. do 2 eexists. split; [by vm_compute|]. split; [by vm_compute|]. by vm_compute. Qed.

(** A failed dispatch is answered with a problem document, but the task is
    what the idempotency cache records: the resend is answered with the same
    status, another content type and another body, and is not dispatched. *)
Theorem failed_dispatch_replayed_as_task :
  ∃ first second, failed_1.2 = Some first ∧
    (sample_begin 30 4 failed_1.1 sample_message).2 = SendDone (Some second) ∧
    resp_status first = 503 ∧ resp_status second = 503 ∧
    header (resp_headers first) "content-type" = Some "application/problem+json" ∧
    header (resp_headers second) "content-type" = Some "application/json" ∧
    header (resp_headers second) "idempotent-replayed" = Some "true" ∧
    resp_body first ≠ resp_body second.
Proof. do 2 eexists. split; [by vm_compute|]. split; [by vm_compute|]. by vm_compute. Qed.
