(* ===== verification/OperatorAuth.v ===== *)
(** * Operator authentication

    Models management/src/http/operator_auth.rs: the three schemes (client
    certificates, socket peer credentials, bearer tokens), the token file with
    its reload, the middleware that resolves the caller, and the extractor
    that admits administrators.  Request extensions are the fields of
    [AdminRequest].  The TOML parser and the file system are arguments: what
    reading the token file gave.  SHA-256 and hex are those of [AuthEnv]. *)

From Stdlib Require Import Ascii.
From S2P Require Import Prelude Text Http Json CelldAuth.

Local Open Scope string_scope.
Local Open Scope list_scope.
Local Open Scope Z_scope.

Inductive OperatorRole : Type := Admin | Operator.
#[export] Instance OperatorRole_eq_dec : EqDecision OperatorRole.
Proof. solve_decision. Defined.

Record OperatorIdentity : Type := {
  oi_actor : string;
  oi_role : OperatorRole;
}.

Definition role_as_str (r : OperatorRole) : string :=
  match r with Admin => "admin" | Operator => "operator" end.

Definition role_from_str (s : string) : option OperatorRole :=
  let s := to_ascii_lowercase (trim s) in
  if bool_decide (s = "admin") then Some Admin
  else if bool_decide (s = "operator") then Some Operator
  else None.

(** ** Allowlists *)

(** [csv.split(',').map(trim).filter(non-empty)] *)
Definition csv_items (csv : string) : list string :=
  filter (λ s, s ≠ EmptyString) (trim <$> split_char ","%char csv).

Abbreviation MtlsConfig := (list string).

Definition mtls_from_csv (csv : string) : MtlsConfig := csv_items csv.
Definition mtls_from_env (var : option string) : MtlsConfig := mtls_from_csv (default EmptyString var).
Definition mtls_admits (cfg : MtlsConfig) (cn : string) : bool := bool_decide (cn ∈ cfg).

(** [None]: no list configured, every peer of the socket is admitted. *)
Abbreviation UnixPeerCredsConfig := (option (list Z)).

Definition unix_from_csv (csv : string) : UnixPeerCredsConfig :=
  Some (omap (parse_unsigned u32_max) (csv_items csv)).
Definition unix_from_env (var : option string) : UnixPeerCredsConfig := var ≫= unix_from_csv.
Definition unix_admits (cfg : UnixPeerCredsConfig) (uid : Z) : bool :=
  match cfg with None => true | Some uids => bool_decide (uid ∈ uids) end.

(** ** Requests with their extensions *)

Record AdminRequest : Type := {
  ar_request : Request;
  ar_query : option string;
  ar_role : option OperatorRole;
  ar_identity : option OperatorIdentity;
  ar_mtls : option string;
  ar_unix : option Z;
}.

Section auth.
Context `{AuthEnv, Env}.

(** ** Tokens *)

Definition hash_token (token : string) : string := hex_encode (sha256 token).

Record TokenEntry : Type := { te_token : string; te_role : string }.

Record OperatorAuthConfig : Type := {
  oc_hashes : gmap string OperatorRole;
  oc_reload_count : Z;
}.

(** The loop over the entries of the file: unknown roles are skipped, a later
    entry of the same token wins. *)
Definition add_token (hashes : gmap string OperatorRole) (entry : TokenEntry)
    : gmap string OperatorRole :=
  match role_from_str (te_role entry) with
  | Some role => <[hash_token (te_token entry) := role]> hashes
  | None => hashes
  end.

Definition parse_file (contents : result string (list TokenEntry))
    : result string (gmap string OperatorRole) :=
  entries ← contents;
  Ok (foldl add_token ∅ entries).

(** [file] is [None] when the path does not exist. *)
Definition load (file : option (result string (list TokenEntry)))
    : result string (option OperatorAuthConfig) :=
  match file with
  | None => Ok None
  | Some contents =>
      hashes ← parse_file contents;
      Ok (Some {| oc_hashes := hashes; oc_reload_count := 0 |})
  end.

Definition reload (cfg : OperatorAuthConfig) (contents : result string (list TokenEntry))
    : OperatorAuthConfig * result string Z :=
  match parse_file contents with
  | Err e => (cfg, Err e)
  | Ok hashes => ({| oc_hashes := hashes; oc_reload_count := wrap_add u64_max (oc_reload_count cfg) 1 |},
                  Ok (Z.of_nat (size hashes)))
  end.

Definition resolve (cfg : OperatorAuthConfig) (token : string) : option OperatorRole :=
  oc_hashes cfg !! hash_token token.

Definition active_count (cfg : OperatorAuthConfig) : Z := Z.of_nat (size (oc_hashes cfg)).

(** ** The decision *)

Inductive AuthDecision : Type :=
| Granted (role : OperatorRole)
| PassThrough
| Unauthorized
| ForbiddenMtls (cn : string)
| ForbiddenUds (uid : Z).

Definition resolve_auth (mtls_cfg : MtlsConfig) (unix_cfg : UnixPeerCredsConfig)
    (bearer_cfg : option OperatorAuthConfig) (mtls_identity : option string) (unix_creds : option Z)
    (bearer_token : option string) : AuthDecision :=
  match mtls_identity with
  | Some cn => if mtls_admits mtls_cfg cn then Granted Admin else ForbiddenMtls cn
  | None =>
      match unix_creds with
      | Some uid => if unix_admits unix_cfg uid then Granted Admin else ForbiddenUds uid
      | None =>
          match bearer_cfg, bearer_token with
          | None, _ => PassThrough
          | Some _, None => Unauthorized
          | Some cfg, Some token =>
              match resolve cfg (trim token) with
              | Some role => Granted role
              | None => Unauthorized
              end
          end
      end
  end.

Definition operator_identity_for_request (role : OperatorRole) (mtls_cfg : MtlsConfig)
    (unix_cfg : UnixPeerCredsConfig) (bearer_cfg : option OperatorAuthConfig)
    (mtls_identity : option string) (unix_creds : option Z) (bearer_token : option string)
    : option OperatorIdentity :=
  match mtls_identity ≫= (λ cn, if mtls_admits mtls_cfg cn then Some cn else None) with
  | Some cn => Some {| oi_actor := "mtls:" +:+ cn; oi_role := role |}
  | None =>
      match unix_creds ≫= (λ uid, if unix_admits unix_cfg uid then Some uid else None) with
      | Some uid => Some {| oi_actor := "uid:" +:+ pretty uid; oi_role := role |}
      | None =>
          match bearer_cfg, bearer_token with
          | Some cfg, Some token =>
              if bool_decide (is_Some (resolve cfg (trim token)))
              then Some {| oi_actor := "bearer:" +:+ role_as_str role; oi_role := role |} else None
          | _, _ => None
          end
      end
  end.

Definition metadata_paths : list string :=
  ["/health"; "/healthz"; "/healthz/http"; "/healthz/libvirt"; "/readyz"; "/mcp";
   "/api/v1/bootstrap-enrollment/consume"; "/api/v2/celld/effects"].
Definition metadata_suffixes : list string :=
  ["/.well-known/agent-card.json"; "/.well-known/jwks.json"; "/v1/card"; "/v1/extendedAgentCard"].

Definition is_unauthenticated_metadata_path (path : string) : bool :=
  bool_decide (path ∈ metadata_paths) || existsb (ends_with path) metadata_suffixes.

(** ** The middleware and the extractor *)

Definition json_error (status : Z) (headers : HeaderMap) (body : json) : HttpResponse :=
  {| resp_status := status; resp_headers := headers ++ [("content-type", Some "application/json")];
     resp_body := json_text body |}.

Definition unauthorized : HttpResponse :=
  json_error UNAUTHORIZED [("www-authenticate", Some "Bearer")]
    (json_obj [("error", JStr "missing or invalid bearer token")]).
Definition forbidden : HttpResponse :=
  json_error FORBIDDEN [] (json_obj [("error", JStr "this verb requires the `admin` role")]).
Definition forbidden_mtls (cn : string) : HttpResponse :=
  json_error FORBIDDEN [] (json_obj [
    ("error", JStr "mTLS client certificate CN is not in the admin allowlist"); ("cn", JStr cn)]).
Definition forbidden_uds (uid : Z) : HttpResponse :=
  json_error FORBIDDEN [] (json_obj [
    ("error", JStr "unix-socket peer UID is not in the admin allowlist"); ("uid", JNum uid)]).

Definition bearer_token (headers : HeaderMap) : option string :=
  s ← header headers "authorization"; strip_prefix s "Bearer ".

Record AuthState : Type := {
  as_mtls : MtlsConfig;
  as_unix : UnixPeerCredsConfig;
  as_bearer : option OperatorAuthConfig;
}.

Definition auth_middleware {S : Type} (cfg : AuthState)
    (next : S → AdminRequest → S * HttpResponse) (st : S) (req : AdminRequest) : S * HttpResponse :=
  if is_unauthenticated_metadata_path (req_path (ar_request req)) then next st req
  else if bool_decide (is_Some (ar_role req)) then next st req
  else
    let token := bearer_token (req_headers (ar_request req)) in
    match resolve_auth (as_mtls cfg) (as_unix cfg) (as_bearer cfg) (ar_mtls req) (ar_unix req) token with
    | Granted role =>
        let req := req <| ar_role := Some role |> in
        next st (match operator_identity_for_request role (as_mtls cfg) (as_unix cfg) (as_bearer cfg)
                         (ar_mtls req) (ar_unix req) token with
                 | Some who => req <| ar_identity := Some who |>
                 | None => req
                 end)
    | PassThrough => next st req
    | Unauthorized => (st, unauthorized)
    | ForbiddenMtls cn => (st, forbidden_mtls cn)
    | ForbiddenUds uid => (st, forbidden_uds uid)
    end.

(** The extractor in front of a handler. *)
Definition require_admin {S : Type} (handler : S → AdminRequest → S * HttpResponse)
    (st : S) (req : AdminRequest) : S * HttpResponse :=
  match ar_role req with
  | Some Admin => handler st req
  | Some Operator => (st, forbidden)
  | None => handler st req
  end.

(** ** Who gets in *)

(** The credentials of a request entitle it to a role. *)
Definition entitled (cfg : AuthState) (req : AdminRequest) (role : OperatorRole) : Prop :=
  match ar_mtls req, ar_unix req with
  | Some cn, _ => cn ∈ as_mtls cfg ∧ role = Admin
  | None, Some uid => unix_admits (as_unix cfg) uid = true ∧ role = Admin
  | None, None => ∃ tokens token,
      as_bearer cfg = Some tokens ∧ bearer_token (req_headers (ar_request req)) = Some token ∧
      oc_hashes tokens !! hash_token (trim token) = Some role
  end.

Definition refusal (resp : HttpResponse) : Prop := resp_status resp = 401 ∨ resp_status resp = 403.

(** Either the request is refused and runs nothing, or it runs as the caller
    its credentials name. *)
Lemma auth_outcome cfg tokens req :
  as_bearer cfg = Some tokens → is_unauthenticated_metadata_path (req_path (ar_request req)) = false →
  ar_role req = None →
  (∃ role who, entitled cfg req role ∧ oi_role who = role ∧
     ∀ S next (st : S), auth_middleware cfg next st req =
       next st (req <| ar_role := Some role |> <| ar_identity := Some who |>)) ∨
  ((∀ role, ¬ entitled cfg req role) ∧
   ∃ resp, refusal resp ∧ ∀ S next (st : S), auth_middleware cfg next st req = (st, resp)).
Proof.
  intros Hb Hp Hr. unfold auth_middleware, entitled, resolve_auth, operator_identity_for_request, refusal.
  destruct req as [rq q role0 who0 mtls unix]. simpl in *. subst role0. rewrite Hp.
  rewrite bool_decide_false by (by intros [? ?]). destruct mtls as [cn|]; simpl.
  { unfold mtls_admits. destruct (bool_decide_reflect (cn ∈ as_mtls cfg)); simpl.
    - left. by eexists Admin, (Build_OperatorIdentity _ Admin).
    - right. split; [naive_solver|]. eexists. split; [|done]. by right. }
  destruct unix as [uid|]; simpl.
  { destruct (unix_admits (as_unix cfg) uid) eqn:Hu; simpl.
    - left. by eexists Admin, (Build_OperatorIdentity _ Admin).
    - right. split; [naive_solver|]. eexists. split; [|done]. by right. }
  rewrite Hb. destruct (bearer_token _) as [token|]; simpl.
  - unfold resolve. destruct (oc_hashes tokens !! hash_token (trim token)) as [role|] eqn:Ht.
    + left. eexists role, (Build_OperatorIdentity _ role). split; [by eauto|].
      rewrite bool_decide_true by eauto. done.
    + right. split; [naive_solver|]. eexists. split; [|done]. by left.
  - right. split; [naive_solver|]. eexists. split; [|done]. by left.
Qed.

(** C31: With operator tokens configured, an admin route runs its handler for
    exactly the requests whose credentials entitle them to [admin]: an
    allowlisted certificate name, an admitted socket peer or, for a caller with
    neither, a token of the file with that role.  Every other request is
    answered 401 or 403 and changes nothing. *)
Theorem admin_handlers_guarded {S} cfg tokens req (handler : S → AdminRequest → S * HttpResponse) st :
  as_bearer cfg = Some tokens → is_unauthenticated_metadata_path (req_path (ar_request req)) = false →
  ar_role req = None →
  (entitled cfg req Admin →
     ∃ who, oi_role who = Admin ∧ auth_middleware cfg (require_admin handler) st req =
       handler st (req <| ar_role := Some Admin |> <| ar_identity := Some who |>)) ∧
  (¬ entitled cfg req Admin →
     ∃ resp, refusal resp ∧ auth_middleware cfg (require_admin handler) st req = (st, resp)).
Proof.
  intros Hb Hp Hr. destruct (auth_outcome cfg tokens req Hb Hp Hr)
    as [(role & who & He & Hw & Hrun)|[Hno (resp & Hresp & Hrun)]].
  - destruct role.
    + split; [|done]. intros _. exists who. split; [done|]. rewrite Hrun. done.
    + split.
      * intros Ha. exfalso. revert He Ha. unfold entitled. repeat case_match; naive_solver.
      * intros _. exists forbidden. split; [by right|]. rewrite Hrun. done.
  - split; [by intros ?%Hno|]. intros _. exists resp. by rewrite Hrun.
Qed.

(** ** The token file *)

Lemma add_token_lookup hashes entry h :
  add_token hashes entry !! h =
  match role_from_str (te_role entry) with
  | Some role => if decide (hash_token (te_token entry) = h) then Some role else hashes !! h
  | None => hashes !! h
  end.
Proof.
  unfold add_token. case_match; [|done]. case_decide; subst; [by rewrite lookup_insert_eq|].
  by rewrite lookup_insert_ne.
Qed.

(** The roles the file gives to a digest, in order. *)
Definition roles_of (h : string) (entries : list TokenEntry) : list OperatorRole :=
  omap (λ e, if decide (hash_token (te_token e) = h) then role_from_str (te_role e) else None) entries.

Lemma parsed_lookup entries hashes h :
  foldl add_token hashes entries !! h =
  match last (roles_of h entries) with Some role => Some role | None => hashes !! h end.
Proof.
  revert hashes. induction entries as [|e entries IH] using rev_ind; intros hashes; [done|].
  rewrite foldl_app. simpl. rewrite add_token_lookup. unfold roles_of. rewrite omap_app. simpl.
  rewrite (IH hashes).
  destruct (role_from_str (te_role e)) as [role|]; case_decide; simpl;
    by rewrite ?app_nil_r, ?last_snoc.
Qed.

(** Reloading is all or nothing: a file that cannot be read keeps the tokens
    and their count, and a readable one replaces them: afterwards a token has
    the role of its last entry with a known role, and no other token has one. *)
Theorem reload_exact cfg contents cfg' r :
  reload cfg contents = (cfg', r) →
  match contents with
  | Err e => cfg' = cfg ∧ r = Err e
  | Ok entries => r = Ok (active_count cfg') ∧
      ∀ token, resolve cfg' token = last (roles_of (hash_token token) entries)
  end.
Proof.
  unfold reload, parse_file. destruct contents as [entries|e]; simpl; intros; simplify_eq/=; [|done].
  split; [done|]. intros token. unfold resolve. simpl. rewrite parsed_lookup.
  by destruct (last _).
Qed.
End auth.

(** ** Sample requests *)

#[local] Existing Instance sample_env.
#[local] Existing Instance sample_auth.

Definition sample_tokens : OperatorAuthConfig :=
  (reload {| oc_hashes := ∅; oc_reload_count := 0 |}
     (Ok [{| te_token := "root"; te_role := "Admin" |}; {| te_token := "ops"; te_role := "operator" |}])).1.
Definition sample_auth_state : AuthState :=
  {| as_mtls := ["ops.example"]; as_unix := Some [0]; as_bearer := Some sample_tokens |}.

Definition sample_admin_request (path : string) (headers : HeaderMap) : AdminRequest :=
  {| ar_request := {| req_method := "POST"; req_path := path; req_headers := headers;
                      req_body := EmptyString |};
     ar_query := None; ar_role := None; ar_identity := None; ar_mtls := None; ar_unix := None |}.

(** Counts the calls that reach it. *)
Definition counting_handler (st : Z) (_ : AdminRequest) : Z * HttpResponse :=
  (st + 1, {| resp_status := OK; resp_headers := []; resp_body := EmptyString |}).

Definition destroy_request (token : string) : AdminRequest :=
  sample_admin_request "/api/v2/admin/instances/i/destroy" [("authorization", Some ("Bearer " +:+ token))].

Lemma admin_handlers_guarded_witness :
  (auth_middleware sample_auth_state (require_admin counting_handler) 0 (destroy_request "root")).1 = 1 ∧
  ∃ resp, refusal resp ∧
    auth_middleware sample_auth_state (require_admin counting_handler) 0 (destroy_request "ops") = (0, resp).
Proof.
  split.
  - destruct (admin_handlers_guarded sample_auth_state sample_tokens (destroy_request "root")
      counting_handler 0) as [(who & _ & ->) _]; [reflexivity| | | |reflexivity].
    + vm_compute; reflexivity.
    + reflexivity.
    + exists sample_tokens, "root". vm_compute. split_and!; reflexivity.
  - apply (admin_handlers_guarded sample_auth_state sample_tokens (destroy_request "ops")
      counting_handler 0); [reflexivity|vm_compute; reflexivity|reflexivity|].
    intros (tokens & token & [= <-] & Ht & Hr). vm_compute in Ht. injection Ht as <-. vm_compute in Hr.
    discriminate Hr.
Defined.

Lemma reload_exact_witness :
  resolve sample_tokens "ops" = Some Operator ∧ resolve sample_tokens "else" = None.
Proof.
  destruct (reload_exact {| oc_hashes := ∅; oc_reload_count := 0 |}
    (Ok [{| te_token := "root"; te_role := "Admin" |}; {| te_token := "ops"; te_role := "operator" |}])
    sample_tokens (Ok 2)) as [_ Hr]; [vm_compute; reflexivity|].
  rewrite !Hr. split; vm_compute; reflexivity.
Defined.
