(* ===== verification/AdminApi.v ===== *)
(** * The keyed mutations and the storage routes of the admin API

    Models management/src/http/idempotency.rs (the in-memory store of keyed
    requests), the middleware [enforce_idempotency] and the storage handlers of
    management/src/http/admin_v2.rs, and how they sit behind the operator
    authentication of [OperatorAuth].

    The middleware is split at the call of the handler: [enforce_begin] decides
    whether the handler runs, [enforce_finish] records what it answered; other
    requests may run in between, and a request that is dropped never finishes.
    [complete_admin] and [abandon_admin] look the entry up and then write it;
    here that is one step.
    [Instant::now()] is an argument.  The file system is the class
    [FileSystem]; the JSON extractor of [axum], percent decoding, base64,
    MIME types and serde's text of a response are the class [AdminText]. *)

From Stdlib Require Import Ascii.
From S2P Require Import Prelude Text Http Json CelldAuth OperatorAuth.

Local Open Scope string_scope.
Local Open Scope list_scope.
Local Open Scope Z_scope.

(** ** The store of keyed requests *)

Definition MAX_KEY_LENGTH : Z := 255.
(** 24 hours, in nanoseconds. *)
Definition CACHE_TTL : Z := 24 * 60 * 60 * 1000000000.

Record CachedResponse : Type := {
  cr_status : Z;
  cr_body : string;
  cr_created_at : Z;
}.

Record AdminCachedResponse : Type := {
  ac_status : Z;
  ac_headers : HeaderMap;
  ac_body : string;
  ac_fingerprint : string;
  ac_created_at : Z;
}.

Inductive AdminIdempotencyEntry : Type :=
| EntryPending (request_fingerprint : string) (created_at : Z)
| EntryComplete (response : AdminCachedResponse).

Inductive AdminIdempotencyDecision : Type :=
| Execute
| AdminReplay (response : AdminCachedResponse)
| InFlight
| KeyConflict.

Record AdminIdempotencyStore : Type := {
  ids_cache : gmap string CachedResponse;
  ids_admin_cache : gmap string AdminIdempotencyEntry;
}.

Section keyed.
Implicit Types (now : Z) (st : AdminIdempotencyStore) (key fingerprint : string).

(** [created_at.elapsed() > CACHE_TTL] *)
Definition elapsed_over (created_at now : Z) : bool := CACHE_TTL <? now - created_at.

Definition entry_created (e : AdminIdempotencyEntry) : Z :=
  match e with EntryPending _ created_at => created_at | EntryComplete r => ac_created_at r end.
Definition entry_expired (e : AdminIdempotencyEntry) now : bool := elapsed_over (entry_created e) now.
Definition entry_fingerprint (e : AdminIdempotencyEntry) : string :=
  match e with EntryPending f _ => f | EntryComplete r => ac_fingerprint r end.

Definition validate_key (headers : HeaderMap) : result string (option string) :=
  match header_value headers "idempotency-key" with
  | None => Ok None
  | Some None => Err "key must contain visible ASCII"
  | Some (Some value) =>
      if bool_decide (value = EmptyString) then Err "key must not be empty"
      else if MAX_KEY_LENGTH <? str_len value then Err "key exceeds 255 bytes"
      else Ok (Some value)
  end.

Definition extract_key (headers : HeaderMap) : option string :=
  match validate_key headers with Ok key => key | Err _ => None end.

Definition cached_get now st key : AdminIdempotencyStore * option CachedResponse :=
  match ids_cache st !! key with
  | None => (st, None)
  | Some response =>
      if elapsed_over (cr_created_at response) now then (st <| ids_cache ::= delete key |>, None)
      else (st, Some response)
  end.

Definition cached_insert now st key (status : Z) (body : string) : AdminIdempotencyStore :=
  st <| ids_cache ::= <[key := {| cr_status := status; cr_body := body; cr_created_at := now |}]> |>.

(** The loop of [begin_admin]; an expired entry is removed and the entry looked
    up again, so [begin_loop_two] shows that two rounds are enough. *)
Fixpoint begin_loop (fuel : nat) now st key fingerprint
    : option (AdminIdempotencyStore * AdminIdempotencyDecision) :=
  match fuel with
  | O => None
  | S fuel =>
      match ids_admin_cache st !! key with
      | None => Some (st <| ids_admin_cache ::= <[key := EntryPending fingerprint now]> |>, Execute)
      | Some entry =>
          if entry_expired entry now
          then begin_loop fuel now (st <| ids_admin_cache ::= delete key |>) key fingerprint
          else if bool_decide (entry_fingerprint entry ≠ fingerprint) then Some (st, KeyConflict)
          else match entry with
          | EntryPending _ _ => Some (st, InFlight)
          | EntryComplete response => Some (st, AdminReplay response)
          end
      end
  end.

Definition begin_admin now st key fingerprint : AdminIdempotencyStore * AdminIdempotencyDecision :=
  default (st, InFlight) (begin_loop 2 now st key fingerprint).

(** The reservation of this request is the entry of the key. *)
Definition owns_reservation st key fingerprint : bool :=
  match ids_admin_cache st !! key with
  | Some (EntryPending current _) => bool_decide (current = fingerprint)
  | _ => false
  end.

Definition complete_admin now st key fingerprint (status : Z) (headers : HeaderMap) (body : string)
    : AdminIdempotencyStore :=
  if owns_reservation st key fingerprint
  then st <| ids_admin_cache ::= <[key := EntryComplete
         {| ac_status := status; ac_headers := headers; ac_body := body;
            ac_fingerprint := fingerprint; ac_created_at := now |}]> |>
  else st.

Definition abandon_admin st key fingerprint : AdminIdempotencyStore :=
  if owns_reservation st key fingerprint then st <| ids_admin_cache ::= delete key |> else st.

Definition cleanup_expired now st : AdminIdempotencyStore :=
  {| ids_cache := filter (λ kv, elapsed_over (cr_created_at kv.2) now = false) (ids_cache st);
     ids_admin_cache := filter (λ kv, entry_expired kv.2 now = false) (ids_admin_cache st) |}.

Definition stats st : Z := Z.of_nat (size (ids_cache st)) + Z.of_nat (size (ids_admin_cache st)).

(** ** A key is executed once *)

Lemma begin_loop_two now st key fingerprint : is_Some (begin_loop 2 now st key fingerprint).
Proof.
  simpl. destruct (ids_admin_cache st !! key) as [e|]; [|by eauto].
  destruct (entry_expired e now); [|repeat case_match; by eauto].
  simpl. rewrite lookup_delete_eq. by eauto.
Qed.

Lemma begin_admin_fresh now st key fingerprint :
  ids_admin_cache st !! key = None →
  begin_admin now st key fingerprint =
    (st <| ids_admin_cache ::= <[key := EntryPending fingerprint now]> |>, Execute).
Proof. intros Hk. unfold begin_admin. simpl. by rewrite Hk. Qed.

Lemma begin_admin_live now st key fingerprint e :
  ids_admin_cache st !! key = Some e → entry_expired e now = false →
  begin_admin now st key fingerprint =
    (st, if bool_decide (entry_fingerprint e ≠ fingerprint) then KeyConflict
         else match e with EntryPending _ _ => InFlight | EntryComplete r => AdminReplay r end).
Proof.
  intros Hk He. unfold begin_admin. cbn [begin_loop]. rewrite Hk, He. by destruct (bool_decide _), e.
Qed.

Lemma begin_admin_expired now st key fingerprint e :
  ids_admin_cache st !! key = Some e → entry_expired e now = true →
  begin_admin now st key fingerprint =
    (st <| ids_admin_cache ::= delete key |> <| ids_admin_cache ::= <[key := EntryPending fingerprint now]> |>,
     Execute).
Proof.
  intros Hk He. unfold begin_admin. cbn [begin_loop]. rewrite Hk, He. cbn [begin_loop]. simpl.
  by rewrite lookup_delete_eq.
Qed.

(** What may happen to the store while the request holds its key: anything but
    the end of that request, no later than the deadline. *)
Inductive others (key : string) (fingerprint : string) (deadline : Z)
  : AdminIdempotencyStore → AdminIdempotencyStore → Prop :=
| o_begin now st k f : now <= deadline → others key fingerprint deadline st (begin_admin now st k f).1
| o_complete now st k f status headers body :
    k ≠ key ∨ f ≠ fingerprint →
    others key fingerprint deadline st (complete_admin now st k f status headers body)
| o_abandon st k f : k ≠ key ∨ f ≠ fingerprint → others key fingerprint deadline st (abandon_admin st k f)
| o_cleanup now st : now <= deadline → others key fingerprint deadline st (cleanup_expired now st)
| o_get now st k : others key fingerprint deadline st (cached_get now st k).1
| o_insert now st k status body : others key fingerprint deadline st (cached_insert now st k status body).

Lemma live_entry e deadline now :
  deadline <= entry_created e + CACHE_TTL → now <= deadline → entry_expired e now = false.
Proof. intros He Hn. unfold entry_expired, elapsed_over. apply Z.ltb_ge. lia. Qed.

Lemma others_keep key fingerprint deadline st st' e :
  others key fingerprint deadline st st' →
  ids_admin_cache st !! key = Some e → entry_fingerprint e = fingerprint →
  deadline <= entry_created e + CACHE_TTL →
  ids_admin_cache st' !! key = Some e.
Proof.
  intros Ho Hk Hf Hd.
  assert (∀ k f, (k ≠ key ∨ f ≠ fingerprint) → owns_reservation st k f = true → k ≠ key) as Hown.
  { intros k f Hne Ho' ->. unfold owns_reservation in Ho'. rewrite Hk in Ho'.
    destruct e; [|done]. reflect_bools. simpl in Hf. naive_solver. }
  destruct Ho as [now st k f Hn|now st k f status headers body Hne|st k f Hne|now st Hn|now st k|now st k status body].
  - destruct (decide (k = key)) as [->|Hne].
    { rewrite (begin_admin_live now st key f e Hk); [done|by eapply live_entry]. }
    destruct (ids_admin_cache st !! k) as [e'|] eqn:Hk'.
    + destruct (entry_expired e' now) eqn:He.
      * rewrite (begin_admin_expired now st k f e' Hk' He). simpl.
        rewrite lookup_insert_ne, lookup_delete_ne by done. done.
      * by rewrite (begin_admin_live now st k f e' Hk' He).
    + rewrite begin_admin_fresh by done. simpl. by rewrite lookup_insert_ne.
  - unfold complete_admin. destruct (owns_reservation st k f) eqn:Hr; [|done].
    simpl. rewrite lookup_insert_ne; [done|]. by eapply Hown.
  - unfold abandon_admin. destruct (owns_reservation st k f) eqn:Hr; [|done].
    simpl. rewrite lookup_delete_ne; [done|]. by eapply Hown.
  - simpl. apply map_lookup_filter_Some. split; [done|]. simpl. by eapply live_entry.
  - unfold cached_get. by repeat case_match.
  - done.
Qed.

Lemma others_keep_all key fingerprint deadline st st' e :
  rtc (others key fingerprint deadline) st st' →
  ids_admin_cache st !! key = Some e → entry_fingerprint e = fingerprint →
  deadline <= entry_created e + CACHE_TTL →
  ids_admin_cache st' !! key = Some e.
Proof. induction 1; eauto using others_keep. Qed.

Lemma begin_execute now st key fingerprint st' :
  begin_admin now st key fingerprint = (st', Execute) →
  ids_admin_cache st' !! key = Some (EntryPending fingerprint now).
Proof.
  destruct (ids_admin_cache st !! key) as [e|] eqn:Hk.
  - destruct (entry_expired e now) eqn:He.
    + rewrite (begin_admin_expired now st key fingerprint e) by done. intros [= <-]. simpl.
      by rewrite lookup_insert_eq.
    + rewrite (begin_admin_live now st key fingerprint e) by done. by repeat case_match.
  - rewrite begin_admin_fresh by done. intros [= <-]. simpl. by rewrite lookup_insert_eq.
Qed.

(** C30: A keyed mutation runs once.  From the request that is told to execute
    until 24 hours later, whatever other requests and sweeps do, a second
    request with that key never executes: the same request is told it is in
    flight until the first ends and from then on gets exactly the recorded
    response, and a different request under the key is a conflict throughout. *)
Theorem keyed_mutation_executes_once now st key fp st1 st2 :
  begin_admin now st key fp = (st1, Execute) →
  rtc (others key fp (now + CACHE_TTL)) st1 st2 →
  (∀ t fp', t <= now + CACHE_TTL →
     (begin_admin t st2 key fp').2 = if decide (fp' = fp) then InFlight else KeyConflict) ∧
  ∀ done_ status headers body st3,
    rtc (others key fp (done_ + CACHE_TTL)) (complete_admin done_ st2 key fp status headers body) st3 →
    ∀ t fp', t <= done_ + CACHE_TTL →
      (begin_admin t st3 key fp').2 =
        if decide (fp' = fp)
        then AdminReplay {| ac_status := status; ac_headers := headers; ac_body := body;
                            ac_fingerprint := fp; ac_created_at := done_ |}
        else KeyConflict.
Proof.
  intros Hb%begin_execute Ho.
  apply (others_keep_all _ _ _ _ _ _ Ho) in Hb; [|done|simpl; lia]. split.
  - intros t fp' Ht. rewrite (begin_admin_live t st2 key fp' _ Hb) by (eapply live_entry; [|done]; simpl; lia).
    simpl. case_decide; subst; [by rewrite bool_decide_false by naive_solver|].
    by rewrite bool_decide_true by done.
  - intros done_ status headers body st3 Ho3 t fp' Ht.
    set (e := EntryComplete {| ac_status := status; ac_headers := headers; ac_body := body;
                               ac_fingerprint := fp; ac_created_at := done_ |}).
    assert (ids_admin_cache st3 !! key = Some e) as He.
    { eapply others_keep_all; [exact Ho3| |done|simpl; lia]. unfold complete_admin, owns_reservation.
      rewrite Hb, bool_decide_true by done. simpl. by rewrite lookup_insert_eq. }
    rewrite (begin_admin_live t st3 key fp' _ He) by (eapply live_entry; [|done]; simpl; lia).
    simpl. case_decide; subst; [by rewrite bool_decide_false by naive_solver|].
    by rewrite bool_decide_true by done.
Qed.
End keyed.

(** ** The file system and the texts *)

Record Metadata : Type := {
  md_is_dir : bool;
  md_is_file : bool;
  md_len : Z;
  md_modified : option Z;
}.

(** What the handlers do to the file system; an error carries its text. *)
Class FileSystem (F : Type) : Type := {
  fs_metadata : F → string → result string Metadata;
  (** the entries [next_entry] gives, each with its metadata or an error *)
  fs_read_dir : F → string → result string (list (result string (string * option Metadata)));
  fs_read_file : F → string → result string string;
  (** [create_dir_all] of the parent, when the path has one *)
  fs_create_parent : F → string → F * result string unit;
  fs_write : F → string → string → F * result string unit;
  fs_remove_file : F → string → F * result string unit;
}.

Record StorageObject : Type := {
  so_scope : string;
  so_path : string;
  so_media_type : string;
  so_size_bytes : Z;
  so_sha256 : string;
  so_modified_at : Z;
  so_content : option string;
  so_content_base64 : option string;
}.

Record StorageObjectWrite : Type := {
  sw_media_type : option string;
  sw_content : option string;
  sw_content_base64 : option string;
}.

Class AdminText : Type := {
  (** [Json<StorageObjectWrite>] of a request: the body or axum's rejection *)
  extract_write : Request → result HttpResponse StorageObjectWrite;
  (** percent decoding of a captured path segment; [None] is axum's 400 *)
  percent_decode : string → option string;
  base64_encode : string → string;
  base64_decode : string → result string string;
  (** serde's text of a [StorageObject] *)
  storage_object_text : StorageObject → string;
  mime_from_path : string → string;
  valid_utf8 : string → bool;
  (** [Display] of the error of [to_bytes] over the limit *)
  body_limit_text : string;
}.

Section admin.
Context {F : Type} `{FileSystem F, AdminText, AuthEnv, Env}.
Implicit Types (now : Z) (fs : F) (scope path : string).

(** ** Problem documents *)

Definition error_response (status : Z) (code title : string) (detail instance_uri : option string)
    : HttpResponse :=
  let body := [("type", JStr ("https://agentic-sandbox.example/problems/" +:+ dots_to_dashes code));
    ("title", JStr title); ("status", JNum status); ("code", JStr code)]
    ++ match detail with Some d => [("detail", JStr d)] | None => [] end
    ++ match instance_uri with Some uri => [("instance", JStr uri)] | None => [] end in
  {| resp_status := status; resp_headers := [("content-type", Some "application/problem+json")];
     resp_body := json_text (json_obj body) |}.

(** The first letter of an ASCII word in upper case. *)
Definition capitalize (s : string) : string :=
  match s with
  | String.String c s' =>
      if is_ascii_lowercase c
      then String.String (Ascii.ascii_of_N (Ascii.N_of_ascii c - 32)) s' else s
  | EmptyString => EmptyString
  end.

Definition err_not_found (resource id uri : string) : HttpResponse :=
  error_response NOT_FOUND (resource +:+ ".not_found") (capitalize resource +:+ " not found")
    (Some ("No " +:+ resource +:+ " with id '" +:+ id +:+ "' exists.")) (Some uri).
Definition err_validation (detail : string) : HttpResponse :=
  error_response UNPROCESSABLE_ENTITY "validation.failed" "Validation failed" (Some detail) None.
Definition err_bad_request (detail : string) : HttpResponse :=
  error_response BAD_REQUEST "request.malformed" "Malformed request" (Some detail) None.
Definition err_storage_scope_disabled (scope : string) : HttpResponse :=
  error_response FORBIDDEN "storage.scope_disabled" "Storage scope disabled"
    (Some ("Scope '" +:+ scope +:+ "' is read-only; writes and deletes are not permitted.")) None.
Definition err_internal (detail : string) : HttpResponse :=
  error_response INTERNAL_SERVER_ERROR "internal.unavailable" "Internal error" (Some detail) None.
Definition err_service_unavailable (detail : string) : HttpResponse :=
  error_response SERVICE_UNAVAILABLE "storage.unavailable" "Storage unavailable" (Some detail) None.

(** ** Keyed mutations *)

Definition ADMIN_IDEMPOTENCY_BODY_LIMIT : Z := 16 * 1024 * 1024.

Definition role_debug (r : OperatorRole) : string :=
  match r with Admin => "Admin" | Operator => "Operator" end.

(** Who the fingerprint binds the request to. *)
Definition principal (req : AdminRequest) : string :=
  match ar_identity req, ar_unix req, ar_mtls req, ar_role req with
  | Some who, _, _, _ => "actor:" +:+ oi_actor who
  | None, Some uid, _, _ => "uid:" +:+ pretty uid
  | None, None, Some cn, _ => "mtls:" +:+ cn
  | None, None, None, Some role => "role:" +:+ role_debug role
  | None, None, None, None => "actor:trusted-network"
  end.

Definition newline : string := String.String "010"%char EmptyString.

Definition path_and_query (req : AdminRequest) : string :=
  req_path (ar_request req) +:+
  match ar_query req with Some q => "?" +:+ q | None => EmptyString end.

Definition fingerprint (req : AdminRequest) : string :=
  hex_encode (sha256 (req_method (ar_request req) +:+ newline +:+ path_and_query req +:+ newline +:+
    req_body (ar_request req) +:+ newline +:+ principal req)).

Inductive Enforced : Type :=
| Bypassed
| Answered (response : HttpResponse)
| Executing (key fp : string).

(** Up to the handler. *)
Definition enforce_begin now (st : AdminIdempotencyStore) (req : AdminRequest)
    : AdminIdempotencyStore * Enforced :=
  if bool_decide (req_method (ar_request req) ∈ ["GET"; "HEAD"; "OPTIONS"]) then (st, Bypassed)
  else match validate_key (req_headers (ar_request req)) with
  | Ok None => (st, Bypassed)
  | Err detail => (st, Answered (error_response BAD_REQUEST "idempotency.invalid_key"
      "Invalid idempotency key" (Some detail) None))
  | Ok (Some key) =>
      if ADMIN_IDEMPOTENCY_BODY_LIMIT <? str_len (req_body (ar_request req))
      then (st, Answered (error_response PAYLOAD_TOO_LARGE "idempotency.body_unavailable"
        "Request body unavailable" (Some ("cannot fingerprint keyed mutation: " +:+ body_limit_text)) None))
      else
        let fp := fingerprint req in
        let (st, decision) := begin_admin now st key fp in
        (st, match decision with
         | AdminReplay cached => Answered
             {| resp_status := ac_status cached;
                resp_headers := header_insert (ac_headers cached) "idempotency-replayed" "true";
                resp_body := ac_body cached |}
         | KeyConflict => Answered (error_response CONFLICT "idempotency.key_conflict"
             "Idempotency key conflict"
             (Some "this key is already bound to a different method, URI, or payload") None)
         | InFlight =>
             let response := error_response CONFLICT "idempotency.in_progress"
               "Idempotent request in progress"
               (Some "the original keyed mutation has not produced a replayable response yet") None in
             Answered (response <| resp_headers ::= λ h, header_insert h "retry-after" "1" |>)
         | Execute => Executing key fp
         end)
  end.

(** After the handler. *)
Definition enforce_finish now (st : AdminIdempotencyStore) (key fp : string) (response : HttpResponse)
    : AdminIdempotencyStore * HttpResponse :=
  if ADMIN_IDEMPOTENCY_BODY_LIMIT <? str_len (resp_body response)
  then (abandon_admin st key fp,
        err_internal ("cannot retain keyed mutation response: " +:+ body_limit_text))
  else (complete_admin now st key fp (resp_status response) (resp_headers response) (resp_body response),
        response).

Record AdminState : Type := {
  ad_keys : AdminIdempotencyStore;
  ad_fs : F;
}.

Definition enforce_idempotency now now' (next : AdminState → AdminRequest → AdminState * HttpResponse)
    (st : AdminState) (req : AdminRequest) : AdminState * HttpResponse :=
  let (keys, outcome) := enforce_begin now (ad_keys st) req in
  let st := st <| ad_keys := keys |> in
  match outcome with
  | Bypassed => next st req
  | Answered response => (st, response)
  | Executing key fp =>
      let (st, response) := next st req in
      let (keys, response) := enforce_finish now' (ad_keys st) key fp response in
      (st <| ad_keys := keys |>, response)
  end.

(** ** Storage *)

Definition MAX_MANAGEMENT_STORAGE_OBJECT_BYTES : Z := 1024 * 1024.
Definition MAX_MANAGEMENT_STORAGE_BROWSE_ENTRIES : Z := 500.

Record Roots : Type := {
  agentshare_root : option string;
  tasks_root : option string;
}.

(** [Path::join]: an absolute path replaces, anything else is appended. *)
Definition join (base rel : string) : string :=
  if starts_with rel "/" then rel
  else if bool_decide (base = EmptyString) || ends_with base "/" then base +:+ rel
  else base +:+ "/" +:+ rel.

(** The first segment and the rest, as [splitn(2, '/')] gives them. *)
Definition first_segment (rel : string) : string * string :=
  match split_once "/"%char rel with
  | Some (first, tail) => (first, tail)
  | None => (rel, EmptyString)
  end.

Definition resolve_storage_path (roots : Roots) scope (rel : string) : result HttpResponse string :=
  let rel := trim_start_matches "/"%char rel in
  if contains_str rel ".." then Err (err_bad_request "path may not contain '..'")
  else if bool_decide (scope = "global") then
    root ← ok_or (agentshare_root roots) (err_service_unavailable "agentshare root not configured");
    Ok (join (join root "global-ro") rel)
  else if bool_decide (scope = "inbox") then
    root ← ok_or (agentshare_root roots) (err_service_unavailable "agentshare root not configured");
    let (instance, tail) := first_segment rel in
    if bool_decide (instance = EmptyString) || contains_char instance "/"%char || bool_decide (instance = "..")
    then Err (err_bad_request "inbox path must begin with instance id")
    else Ok (join (join root (instance +:+ "-inbox")) tail)
  else if bool_decide (scope = "outbox") then
    root ← ok_or (tasks_root roots) (err_service_unavailable "tasks root not configured");
    let (task, tail) := first_segment rel in
    if bool_decide (task = EmptyString) || contains_char task "/"%char || bool_decide (task = "..")
    then Err (err_bad_request "outbox path must begin with task id")
    else Ok (join (join (join root task) "outbox") tail)
  else Err (err_bad_request ("unknown storage scope: " +:+ scope)).

Definition sha256_hex (bytes : string) : string := hex_encode (sha256 bytes).

Definition object_uri scope path : string := "/api/v2/admin/storage/" +:+ scope +:+ "/" +:+ path.

(** The browse loop: stops at the limit, skips entries without metadata. *)
Fixpoint browse (entries : list (result string (string * option Metadata))) (items : list json)
    : result HttpResponse (list json * bool) :=
  match entries with
  | [] => Ok (items, false)
  | Err error :: _ => Err (err_internal ("directory browse failed: " +:+ error))
  | Ok (name, metadata) :: rest =>
      if len items =? MAX_MANAGEMENT_STORAGE_BROWSE_ENTRIES then Ok (items, true)
      else match metadata with
      | None => browse rest items
      | Some m => browse rest (items ++ [json_obj [("name", JStr name);
          ("kind", JStr (if md_is_dir m then "directory" else "object"));
          ("size_bytes", if md_is_file m then JNum (md_len m) else JNull)]])
      end
  end.

(** [left["name"].as_str().cmp(&right["name"].as_str())] *)
Definition item_name (item : json) : string := default EmptyString (json_get item "name" ≫= as_str).
Definition item_le (x y : json) : Prop := String.leb (item_name x) (item_name y) = true.
#[export] Instance item_le_dec : RelDecision item_le.
Proof. intros x y. unfold item_le. apply _. Defined.

Definition get_storage_object now (roots : Roots) fs scope path : HttpResponse :=
  match resolve_storage_path roots scope path with
  | Err response => response
  | Ok fs_path =>
      match fs_metadata fs fs_path with
      | Err _ => err_not_found "object" path (object_uri scope path)
      | Ok meta =>
          if md_is_dir meta then
            match fs_read_dir fs fs_path with
            | Err error => err_internal ("directory browse failed: " +:+ error)
            | Ok entries =>
                match browse entries [] with
                | Err response => response
                | Ok (items, truncated) =>
                    {| resp_status := OK; resp_headers := [("content-type", Some "application/json")];
                       resp_body := json_text (json_obj [("kind", JStr "directory");
                         ("scope", JStr scope); ("path", JStr path);
                         ("items", JArr (merge_sort item_le items)); ("truncated", JBool truncated);
                         ("limit", JNum MAX_MANAGEMENT_STORAGE_BROWSE_ENTRIES)]) |}
                end
            end
          else if MAX_MANAGEMENT_STORAGE_OBJECT_BYTES <? md_len meta then
            error_response PAYLOAD_TOO_LARGE "storage.object_too_large"
              "Storage object exceeds management UI read limit"
              (Some ("object is " +:+ pretty (md_len meta) +:+ " bytes; maximum is " +:+
                     pretty MAX_MANAGEMENT_STORAGE_OBJECT_BYTES +:+ " bytes")) None
          else match fs_read_file fs fs_path with
          | Err error => err_internal ("read failed: " +:+ error)
          | Ok bytes =>
              let media_type := mime_from_path fs_path in
              let text := valid_utf8 bytes && negb (starts_with media_type "application/octet-stream") in
              {| resp_status := OK; resp_headers := [("content-type", Some "application/json")];
                 resp_body := storage_object_text
                   {| so_scope := scope; so_path := path; so_media_type := media_type;
                      so_size_bytes := str_len bytes; so_sha256 := sha256_hex bytes;
                      so_modified_at := default now (md_modified meta);
                      so_content := if text then Some bytes else None;
                      so_content_base64 := if text then None else Some (base64_encode bytes) |} |}
          end
      end
  end.

(** The bytes of a write. *)
Definition write_bytes (body : StorageObjectWrite) : result HttpResponse string :=
  bytes ← (match sw_content body, sw_content_base64 body with
           | Some s, _ => Ok s
           | None, Some b64 => map_err (λ e, err_validation ("invalid base64: " +:+ e)) (base64_decode b64)
           | None, None => Err (err_validation "body must include 'content' or 'content_base64'")
           end);
  if MAX_MANAGEMENT_STORAGE_OBJECT_BYTES <? str_len bytes
  then Err (err_validation ("storage object exceeds " +:+ pretty MAX_MANAGEMENT_STORAGE_OBJECT_BYTES
                            +:+ " byte management limit"))
  else Ok bytes.

Definition put_storage_object now (roots : Roots) fs scope path (body : StorageObjectWrite)
    : F * HttpResponse :=
  if bool_decide (scope = "global") then (fs, err_storage_scope_disabled scope)
  else match resolve_storage_path roots scope path with
  | Err response => (fs, response)
  | Ok fs_path =>
      match write_bytes body with
      | Err response => (fs, response)
      | Ok bytes =>
          match fs_create_parent fs fs_path with
          | (fs, Err e) => (fs, err_internal ("mkdir failed: " +:+ e))
          | (fs, Ok _) =>
              let existed := match fs_metadata fs fs_path with Ok _ => true | Err _ => false end in
              match fs_write fs fs_path bytes with
              | (fs, Err e) => (fs, err_internal ("write failed: " +:+ e))
              | (fs, Ok _) =>
                  (fs, {| resp_status := if existed then OK else CREATED;
                          resp_headers := [("content-type", Some "application/json")];
                          resp_body := storage_object_text
                            {| so_scope := scope; so_path := path;
                               so_media_type := default "application/octet-stream" (sw_media_type body);
                               so_size_bytes := str_len bytes; so_sha256 := sha256_hex bytes;
                               so_modified_at := now; so_content := None; so_content_base64 := None |} |})
              end
          end
      end
  end.

Definition delete_storage_object (roots : Roots) fs scope path : F * HttpResponse :=
  if bool_decide (scope = "global") then (fs, err_storage_scope_disabled scope)
  else match resolve_storage_path roots scope path with
  | Err response => (fs, response)
  | Ok fs_path =>
      match fs_metadata fs fs_path with
      | Err _ => (fs, err_not_found "object" path (object_uri scope path))
      | Ok _ =>
          match fs_remove_file fs fs_path with
          | (fs, Err e) => (fs, err_internal ("delete failed: " +:+ e))
          | (fs, Ok _) => (fs, {| resp_status := NO_CONTENT; resp_headers := []; resp_body := EmptyString |})
          end
      end
  end.

(** ** The stack *)

(** The route [/api/v2/admin/storage/{scope}/{*path}]. *)
Definition storage_route (path : string) : option (string * string) :=
  rest ← strip_prefix path "/api/v2/admin/storage/";
  '(scope, tail) ← split_once "/"%char rest;
  if bool_decide (scope = EmptyString) || bool_decide (tail = EmptyString) then None
  else Some (scope, tail).

Definition empty_response (status : Z) : HttpResponse :=
  {| resp_status := status; resp_headers := []; resp_body := EmptyString |}.

Definition storage_service now (roots : Roots) (st : AdminState) (req : AdminRequest)
    : AdminState * HttpResponse :=
  match storage_route (req_path (ar_request req)) with
  | None => (st, empty_response NOT_FOUND)
  | Some (scope, tail) =>
      match percent_decode scope, percent_decode tail with
      | Some scope, Some path =>
          let method := req_method (ar_request req) in
          if bool_decide (method = "PUT") then
            match extract_write (ar_request req) with
            | Err rejection => (st, rejection)
            | Ok body =>
                let (fs, response) := put_storage_object now roots (ad_fs st) scope path body in
                (st <| ad_fs := fs |>, response)
            end
          else if bool_decide (method = "DELETE") then
            let (fs, response) := delete_storage_object roots (ad_fs st) scope path in
            (st <| ad_fs := fs |>, response)
          else if bool_decide (method = "GET") then (st, get_storage_object now roots (ad_fs st) scope path)
          else if bool_decide (method = "HEAD")
          then (st, (get_storage_object now roots (ad_fs st) scope path) <| resp_body := EmptyString |>)
          else (st, empty_response 405)
      | _, _ => (st, empty_response BAD_REQUEST)
      end
  end.

(** Authentication around the keyed mutations around the handlers. *)
Definition admin_service now now' (cfg : AuthState) (roots : Roots) (st : AdminState) (req : AdminRequest)
    : AdminState * HttpResponse :=
  auth_middleware cfg (enforce_idempotency now now' (storage_service now roots)) st req.

(** ** Where a storage path leads *)

Lemma trim_slashes_char s : starts_with (trim_start_matches "/"%char s) "/" = false.
Proof.
  induction s as [|c s IH]; [done|]. simpl. destruct (Ascii.eqb_spec c "/"%char) as [->|Hne]; [done|].
  unfold starts_with. simpl. case_match; [congruence|done].
Qed.

Lemma first_segment_tail rel p :
  contains_str rel p = false → p ≠ EmptyString → contains_str (first_segment rel).2 p = false.
Proof.
  intros Hc Hp. unfold first_segment. destruct (split_once _ rel) as [[x y]|] eqn:Hs; simpl.
  - apply split_once_Some in Hs as [-> _]. apply contains_tail in Hc.
    cbn [contains_str] in Hc. by apply orb_false_iff in Hc as [_ ?].
  - unfold starts_with. by destruct p.
Qed.

(** The directory a scope gives access to, with the path of the request in it. *)
Definition scope_dir (roots : Roots) scope (rel : string) : option (string * string) :=
  let (first, tail) := first_segment rel in
  if bool_decide (scope = "global") then (λ root, (join root "global-ro", rel)) <$> agentshare_root roots
  else if bool_decide (scope = "inbox")
  then (λ root, (join root (first +:+ "-inbox"), tail)) <$> agentshare_root roots
  else if bool_decide (scope = "outbox")
  then (λ root, (join (join root first) "outbox", tail)) <$> tasks_root roots
  else None.

Lemma join_shape scope dir tail :
  (starts_with tail "/" = true → scope ≠ "global") →
  if starts_with tail "/" then scope ≠ "global" ∧ join dir tail = tail
  else ∃ sep, join dir tail = dir +:+ sep +:+ tail ∧ (sep = "/" ∨ sep = EmptyString).
Proof.
  intros Hs. unfold join. destruct (starts_with tail "/"); [naive_solver|].
  case_match; [exists EmptyString|exists "/"]; by eauto.
Qed.

(** What a storage path resolves to.  It is the directory of its scope
    followed by the rest of the path, which holds no [..]; unless that rest
    starts with a slash, which a path with a doubled slash after its first
    segment does: then it is that rest alone, wherever it points. *)
Theorem storage_path_shape roots scope path p :
  resolve_storage_path roots scope path = Ok p →
  ∃ dir tail, scope_dir roots scope (trim_start_matches "/"%char path) = Some (dir, tail) ∧
    contains_str tail ".." = false ∧
    if starts_with tail "/" then scope ≠ "global" ∧ p = tail
    else ∃ sep, p = dir +:+ sep +:+ tail ∧ (sep = "/" ∨ sep = EmptyString).
Proof.
  unfold resolve_storage_path, scope_dir. set (rel := trim_start_matches "/"%char path).
  destruct (contains_str rel "..") eqn:Hdots; [done|].
  pose proof (first_segment_tail rel ".." Hdots ltac:(done)) as Htail.
  destruct (first_segment rel) as [first tail] eqn:Hf. simpl in Htail.
  destruct (bool_decide_reflect (scope = "global")) as [->|Hg].
  - intros Hr. apply bind_Ok in Hr as (root & Hroot & [= <-]). apply ok_or_Ok in Hroot. rewrite Hroot.
    eexists _, _. split; [done|]. split; [done|]. apply join_shape. intros Ht.
    pose proof (trim_slashes_char path : starts_with rel "/" = false). congruence.
  - destruct (bool_decide (scope = "inbox")); [|destruct (bool_decide (scope = "outbox")); [|done]];
      intros Hr; apply bind_Ok in Hr as (root & Hroot & Hr); apply ok_or_Ok in Hroot; rewrite Hroot;
      (destruct (_ || _); [done|]); injection Hr as <-;
      (eexists _, _; split; [done|]; split; [done|]; by apply join_shape).
Qed.

(** ** A way around the authentication *)

Definition card_path (dir : string) : string :=
  "/api/v2/admin/storage/inbox/x/" +:+ (dir +:+ "/v1/card").

Lemma card_path_bypasses dir : is_unauthenticated_metadata_path (card_path dir) = true.
Proof.
  unfold is_unauthenticated_metadata_path, card_path. apply orb_true_iff. right.
  apply existsb_exists. exists "/v1/card". split; [simpl; by eauto|]. apply ends_with_app.
  exists ("/api/v2/admin/storage/inbox/x/" +:+ dir). by rewrite append_assoc.
Qed.

(** An absolute path after the first segment is taken as it is. *)
Lemma absolute_tail roots root path :
  agentshare_root roots = Some root → starts_with path "/" = true → contains_str path ".." = false →
  resolve_storage_path roots "inbox" ("x/" +:+ path) = Ok path.
Proof.
  intros Hroot Habs Hdots. unfold resolve_storage_path.
  change (trim_start_matches "/"%char ("x/" +:+ path)) with ("x/" +:+ path).
  change (contains_str ("x/" +:+ path) "..") with (contains_str path "..").
  rewrite Hdots, Hroot. cbn [ok_or mbind].
  change (first_segment ("x/" +:+ path)) with ("x", path). cbn -[join].
  rewrite (bool_decide_false ("inbox" = "global")), (bool_decide_true ("inbox" = "inbox")) by done.
  rewrite (bool_decide_false ("x" = EmptyString)), (bool_decide_false ("x" = "..")) by done. simpl.
  unfold join at 1. by rewrite Habs.
Qed.

(** Anyone can write files of the host.  The middleware takes a path that
    ends in [/v1/card] for agent metadata and lets it through, and a storage
    path with a doubled slash names any file: a [PUT] without credentials or
    key, on the storage route with such a path, writes the caller's bytes to
    [<dir>/v1/card] for any absolute directory, whatever tokens, certificates
    and peers are configured. *)
Theorem unauthenticated_write now now' cfg roots root st req dir body bytes :
  (∀ s, contains_char s "%"%char = false → percent_decode s = Some s) →
  agentshare_root roots = Some root →
  starts_with dir "/" = true → contains_str (dir +:+ "/v1/card") ".." = false →
  contains_char (dir +:+ "/v1/card") "%"%char = false →
  req_method (ar_request req) = "PUT" → req_path (ar_request req) = card_path dir →
  validate_key (req_headers (ar_request req)) = Ok None →
  extract_write (ar_request req) = Ok body → write_bytes body = Ok bytes →
  ∀ fs1 fs2, fs_create_parent (ad_fs st) (dir +:+ "/v1/card") = (fs1, Ok ()) →
    fs_write fs1 (dir +:+ "/v1/card") bytes = (fs2, Ok ()) →
    (admin_service now now' cfg roots st req).1 = st <| ad_fs := fs2 |> ∧
    is_success (resp_status (admin_service now now' cfg roots st req).2) = true.
Proof.
  intros Hdec Hroot Hdir Hdots Hpct Hm Hpath Hkey Hbody Hbytes fs1 fs2 Hmk Hwr.
  unfold admin_service, auth_middleware. rewrite Hpath, card_path_bypasses.
  unfold enforce_idempotency, enforce_begin. rewrite Hm, Hkey. cbn [fst snd].
  rewrite bool_decide_false by (by vm_compute; set_solver).
  assert (st <| ad_keys := ad_keys st |> = st) as -> by (by destruct st).
  unfold storage_service. rewrite Hm, Hpath.
  change (storage_route (card_path dir)) with (Some ("inbox", "x/" +:+ (dir +:+ "/v1/card"))).
  cbv beta iota zeta. rewrite !Hdec by (done || exact Hpct). rewrite bool_decide_true by done. rewrite Hbody.
  unfold put_storage_object. rewrite bool_decide_false by done.
  assert (resolve_storage_path roots "inbox" ("x/" +:+ (dir +:+ "/v1/card")) = Ok (dir +:+ "/v1/card")) as ->.
  { eapply absolute_tail; [done| |done]. apply starts_with_app in Hdir as [r ->]. apply starts_with_app.
    exists (r +:+ "/v1/card"). by rewrite append_assoc. }
  rewrite Hbytes, Hmk. cbn [fst snd]. rewrite Hwr. split; [done|]. by case_match.
Qed.

(** On every other path the routes are closed: a request without the
    credentials of any role is refused and leaves the files and the keys as
    they are. *)
Theorem storage_needs_credentials now now' cfg tokens roots st req :
  as_bearer cfg = Some tokens → is_unauthenticated_metadata_path (req_path (ar_request req)) = false →
  ar_role req = None → (∀ role, ¬ entitled cfg req role) →
  ∃ resp, refusal resp ∧ admin_service now now' cfg roots st req = (st, resp).
Proof.
  intros Hb Hp Hr Hno. destruct (auth_outcome cfg tokens req Hb Hp Hr)
    as [(role & who & He & _)|[_ (resp & Hresp & Hrun)]]; [by destruct (Hno role)|].
  exists resp. split; [done|]. apply Hrun.
Qed.
End admin.

(** ** Sample requests *)

#[local] Existing Instance sample_env.
#[local] Existing Instance sample_auth.

(** Files by path; directories are not kept. *)
#[local] Instance sample_fs : FileSystem (gmap string string) := {|
  fs_metadata := λ fs p, match fs !! p with
    | Some bytes => Ok {| md_is_dir := false; md_is_file := true; md_len := str_len bytes;
                          md_modified := None |}
    | None => Err "not found"
    end;
  fs_read_dir := λ _ _, Ok [];
  fs_read_file := λ fs p, ok_or (fs !! p) "not found";
  fs_create_parent := λ fs _, (fs, Ok ());
  fs_write := λ fs p bytes, (<[p := bytes]> fs, Ok ());
  fs_remove_file := λ fs p, (delete p fs, Ok ());
|}.

#[local] Instance sample_admin_text : AdminText := {|
  extract_write := λ req, Ok {| sw_media_type := None; sw_content := Some (req_body req);
                                sw_content_base64 := None |};
  percent_decode := λ s, Some s;
  base64_encode := λ s, s;
  base64_decode := λ s, Ok s;
  storage_object_text := λ o, so_path o;
  mime_from_path := λ _, "text/plain";
  valid_utf8 := λ _, true;
  body_limit_text := "length limit exceeded";
|}.

Definition empty_keys : AdminIdempotencyStore := {| ids_cache := ∅; ids_admin_cache := ∅ |}.

Lemma keyed_mutation_executes_once_witness :
  (begin_admin 5 (begin_admin 0 empty_keys "k" "f").1 "k" "f").2 = InFlight ∧
  (begin_admin 9 (complete_admin 6 (begin_admin 0 empty_keys "k" "f").1 "k" "f" 201 [] "body") "k" "g").2 =
    KeyConflict.
Proof.
  destruct (keyed_mutation_executes_once 0 empty_keys "k" "f" (begin_admin 0 empty_keys "k" "f").1
    (begin_admin 0 empty_keys "k" "f").1) as [Hfly Hdone]; [reflexivity|apply rtc_refl|].
  split.
  - apply (Hfly 5 "f"). vm_compute. discriminate.
  - apply (Hdone 6 201 [] "body" _ (rtc_refl _ _) 9 "g"). vm_compute. discriminate.
Defined.

Definition sample_roots : Roots := {| agentshare_root := Some "/srv/share"; tasks_root := Some "/srv/tasks" |}.

Lemma storage_path_shape_witness :
  ∃ dir tail, scope_dir sample_roots "inbox" "i-1/notes.txt" = Some (dir, tail) ∧
    contains_str tail ".." = false ∧
    if starts_with tail "/" then "inbox" ≠ "global" ∧ "/srv/share/i-1-inbox/notes.txt" = tail
    else ∃ sep, "/srv/share/i-1-inbox/notes.txt" = dir +:+ sep +:+ tail ∧ (sep = "/" ∨ sep = EmptyString).
Proof.
  apply (storage_path_shape sample_roots "inbox" "/i-1/notes.txt"). vm_compute. reflexivity.
Defined.

Definition intruder_request : AdminRequest :=
  {| ar_request := {| req_method := "PUT"; req_path := card_path "/etc/cron.d"; req_headers := [];
                      req_body := "* * * * * root id" |};
     ar_query := None; ar_role := None; ar_identity := None; ar_mtls := None; ar_unix := None |}.
Definition quiet_host : AdminState (F := gmap string string) := {| ad_keys := empty_keys; ad_fs := ∅ |}.

Lemma unauthenticated_write_witness :
  (admin_service 1 2 sample_auth_state sample_roots quiet_host intruder_request).1 =
    quiet_host <| ad_fs := <["/etc/cron.d/v1/card" := "* * * * * root id"]> ∅ |> ∧
  is_success (resp_status (admin_service 1 2 sample_auth_state sample_roots quiet_host intruder_request).2)
    = true.
Proof.
  apply (unauthenticated_write 1 2 sample_auth_state sample_roots "/srv/share" quiet_host intruder_request
    "/etc/cron.d" {| sw_media_type := None; sw_content := Some "* * * * * root id";
                     sw_content_base64 := None |} "* * * * * root id")
    with (fs1 := ∅); reflexivity.
Defined.

Lemma storage_needs_credentials_witness :
  ∃ resp, refusal resp ∧ admin_service 1 2 sample_auth_state sample_roots quiet_host
    (sample_admin_request "/api/v2/admin/storage/inbox/i-1/notes.txt" []) = (quiet_host, resp).
Proof.
  apply (storage_needs_credentials 1 2 sample_auth_state sample_tokens); [reflexivity..|].
  intros role (tokens & token & _ & Ht & _). discriminate Ht.
Defined.
