(* ===== verification/Dispatcher.v ===== *)
(** * The command dispatcher and the missions it reports on

    Models management/src/dispatch/dispatcher.rs (pending commands, sessions
    and their indexes), the mission store of management/src/aiwg_serve/mod.rs
    and the mission dispatch of management/src/http/dispatch.rs.

    An operation takes the dispatcher and returns it with the list of effects
    it has on the world, in order: messages to agents, output and results to
    callers, calls of the session registry and of the observer, events to
    AIWG.  Whether an agent is connected and takes a message is asked of
    [Link].  [create_session] is split at the await of its send
    ([create_begin], [create_finish]).  Random command and session ids are
    arguments.  The order in which a hash map is iterated is the class
    [MapIter]: every entry once, in some order. *)

From Stdlib Require Import Ascii.
From S2P Require Import Prelude Text.

Local Open Scope string_scope.
Local Open Scope list_scope.
Local Open Scope Z_scope.

#[local] Existing Instance sample_iter.

(** ** Data *)

Inductive SessionType : Type := Interactive | Headless | Background.
#[export] Instance SessionType_eq_dec : EqDecision SessionType.
Proof. solve_decision. Defined.

Record SessionInfo : Type := {
  ses_name : string;
  ses_id : string;
  ses_command_id : string;
  ses_type : SessionType;
  ses_command : string;
  ses_created_at : Z;
}.

Record PendingCommand : Type := {
  pd_agent_id : string;
  pd_command : string;
  pd_started_at : Z;
  pd_timeout : Z;
}.

Record CommandRequest : Type := {
  cq_command_id : string;
  cq_command : string;
  cq_args : list string;
  cq_working_dir : string;
  cq_env : gmap string string;
  cq_timeout_seconds : Z;
  cq_capture_output : bool;
  cq_allocate_pty : bool;
  cq_pty_cols : Z;
  cq_pty_rows : Z;
  cq_pty_term : string;
  cq_session_id : string;
  cq_session_name : string;
}.

Inductive ManagementMessage : Type :=
| MsgCommand (request : CommandRequest)
| MsgResize (command_id : string) (cols rows : Z)
| MsgSignal (command_id : string) (signal_number : Z)
| MsgStdin (command_id data : string).

Record CommandResult : Type := {
  rs_command_id : string;
  rs_exit_code : Z;
  rs_success : bool;
  rs_error : string;
  rs_duration_ms : Z;
}.

Inductive StreamKind : Type := Stdout | Stderr.

Record ExecOutput : Type := {
  eo_stream : option StreamKind;
  eo_data : string;
  eo_exit_code : Z;
  eo_complete : bool;
  eo_error : string;
}.

(** A session as the agent reports it. *)
Record ActiveSession : Type := {
  av_command_id : string;
  av_session_id : string;
  av_session_name : string;
  av_session_type : Z;
  av_command : string;
}.

Inductive DispatchError : Type :=
| AgentNotFound (agent_id : string)
| SendFailed (agent_id : string)
| CommandNotFound (id : string).

(** *** Missions *)

Inductive MissionState : Type :=
| MAssigned | MRunning | MHitlRequired | MSuspended | MQuarantined | MCompleted | MFailed | MAborted.
#[export] Instance MissionState_eq_dec : EqDecision MissionState.
Proof. solve_decision. Defined.

Record MissionCrashLoopConfig : Type := {
  max_consecutive_failures : Z;
  window_minutes : Z;
}.

(** [window_started_at] is RFC 3339 text at millisecond precision: the instant
    it parses back to. *)
Record MissionCrashLoopStatus : Type := {
  cl_consecutive_failures : Z;
  cl_window_started_at : option Z;
  cl_last_failure_reason : option string;
  cl_quarantined_at : option Z;
}.

Record MissionRecord : Type := {
  mi_objective : string;
  mi_completion : string;
  mi_state : MissionState;
  mi_pty_session_id : option string;
  mi_checkpoint_id : option string;
  mi_crash_loop : MissionCrashLoopStatus;
}.

Inductive MissionResumeDecision : Type :=
| Resume
| Quarantine (failure_count : Z) (reason : string).

Inductive MissionEvent : Type :=
| MissionAssigned (mission_id : string)
| MissionStarted (mission_id session_id : string)
| MissionCompleted (mission_id : string) (exit_code : Z)
| MissionFailed (mission_id reason : string) (exit_code : option Z)
| MissionAborted (mission_id : string).

Inductive SandboxEvent : Type :=
| SessionStart (agent_id session_id command : string)
| SessionEnd (agent_id session_id : string) (exit_code : option Z)
| AgentSessions (agent_id : string) (sessions : list SessionInfo).

Inductive Effect : Type :=
| Sent (agent_id : string) (msg : ManagementMessage)
| Output (command_id : string) (output : ExecOutput)
| Completed (command_id : string) (result : CommandResult)
| ObserverOutput (command_id data : string)
| ObserverResult (result : CommandResult)
| ObserverDisconnect (agent_id : string)
| RegistryCreate (session_id agent_id command_id : string) (name : option string)
| RegistryForget (session_id : string)
| RegistryClose (session_id : string) (exit_code : Z)
| RegistryPublish (session_id : string) (stream : StreamKind) (data : string)
| RegistryResize (session_id : string) (cols rows : Z)
| Emitted (event : SandboxEvent)
| EmittedExecutor (event : MissionEvent)
| CommandStarted (agent_id command_id command : string).

(** ** State *)

(** What is wired into the dispatcher: an observer, the session registry, the
    AIWG handle (with the executor id once it is registered), the missions. *)
Record Wiring : Type := {
  wi_observer : bool;
  wi_registry : bool;
  wi_aiwg : option (option string);
  wi_missions : bool;
}.

Record Dispatcher : Type := {
  pending : gmap string PendingCommand;
  active_sessions : gmap string (gmap string SessionInfo);
  command_to_session : gmap string string;
  session_working_dirs : gmap string string;
  ws_pty_ownership : gmap string (gset string);
  missions : gmap string MissionRecord;
  wiring : Wiring;
}.

(** The agent registry and the session registry, as the dispatcher asks them. *)
Record Link : Type := {
  connected : string → bool;
  accepts : string → ManagementMessage → bool;
  registered : string → bool;
}.

Definition seconds (n : Z) : Z := n * 1000000000.

Section dispatcher.
Context `{MapIter}.
Implicit Types (now : Z) (d : Dispatcher) (link : Link).

Definition agent_sessions d (agent_id : string) : gmap string SessionInfo :=
  default ∅ (active_sessions d !! agent_id).

(** ** Missions *)

Definition mission_is_terminal (s : MissionState) : bool :=
  match s with MQuarantined | MCompleted | MFailed | MAborted => true | _ => false end.

Definition update_state d (mission_id : string) (state : MissionState) : Dispatcher :=
  d <| missions ::= alter (λ r, r <| mi_state := state |>) mission_id |>.

Definition set_pty_session d (mission_id session_id : string) : Dispatcher :=
  d <| missions ::= alter (λ r, r <| mi_pty_session_id := Some session_id |>) mission_id |>.

Definition set_checkpoint d (mission_id checkpoint_id : string) : Dispatcher :=
  d <| missions ::= alter (λ r, r <| mi_checkpoint_id := Some checkpoint_id |>) mission_id |>.

Definition resume_reason : string :=
  "repeated reconnect/resume failure; mission preserved for operator review".

Definition millis_text (t : Z) : Z := t / 1000000 * 1000000.

Definition window_expired now (config : MissionCrashLoopConfig) (status : MissionCrashLoopStatus) : bool :=
  match cl_window_started_at status with
  | Some started => seconds (60 * window_minutes config) <? now - started
  | None => true
  end.

(** The status after one more attempt. *)
Definition count_attempt now (config : MissionCrashLoopConfig) (status : MissionCrashLoopStatus)
    : MissionCrashLoopStatus :=
  let status := if window_expired now config status
    then status <| cl_consecutive_failures := 0 |> <| cl_window_started_at := Some (millis_text now) |>
                <| cl_quarantined_at := None |>
    else status in
  status <| cl_consecutive_failures ::= λ n, sat_add u32_max n 1 |>
         <| cl_last_failure_reason := Some resume_reason |>.

Definition record_resume_attempt now d (mission_id : string) (config : MissionCrashLoopConfig)
    : Dispatcher * option MissionResumeDecision :=
  match missions d !! mission_id with
  | None => (d, None)
  | Some rec =>
      if mission_is_terminal (mi_state rec) then
        (d, Some (Quarantine (cl_consecutive_failures (mi_crash_loop rec))
                    (default resume_reason (cl_last_failure_reason (mi_crash_loop rec)))))
      else if bool_decide (mi_state rec = MRunning) then (d, Some Resume)
      else
        let status := count_attempt now config (mi_crash_loop rec) in
        if max_consecutive_failures config <=? cl_consecutive_failures status then
          (d <| missions ::= <[mission_id := rec <| mi_state := MQuarantined |>
                <| mi_crash_loop := status <| cl_quarantined_at := Some (millis_text now) |> |>]> |>,
           Some (Quarantine (cl_consecutive_failures status) resume_reason))
        else (d <| missions ::= <[mission_id := rec <| mi_crash_loop := status |>]> |>, Some Resume)
  end.

Definition active_mission_ids d : list string :=
  (filter (λ kv, mission_is_terminal (mi_state kv.2) = false) (iter (missions d))).*1.

Definition find_by_session d (session_id : string) : option string :=
  fst <$> find_first (λ kv, bool_decide (mi_pty_session_id kv.2 = Some session_id)) (iter (missions d)).

(** The executor id and the missions, when both are there. *)
Definition executor d : option string :=
  if wi_missions (wiring d) then wi_aiwg (wiring d) ≫= id else None.

Definition emit_agent_sessions d (agent_id : string) : list Effect :=
  match wi_aiwg (wiring d) with
  | None => []
  | Some _ => [Emitted (AgentSessions agent_id (iter (agent_sessions d agent_id)).*2)]
  end.

Definition emit_session_end_with_translation d (agent_id session_id : string) (exit_code : option Z)
    (was_killed : bool) : Dispatcher * list Effect :=
  match wi_aiwg (wiring d) with
  | None => (d, [])
  | Some _ =>
      let effects := Emitted (SessionEnd agent_id session_id exit_code) :: emit_agent_sessions d agent_id in
      match executor d, find_by_session d session_id with
      | Some _, Some mission_id =>
          if was_killed
          then (update_state d mission_id MAborted, effects ++ [EmittedExecutor (MissionAborted mission_id)])
          else match exit_code with
          | Some code =>
              if code =? 0
              then (update_state d mission_id MCompleted,
                    effects ++ [EmittedExecutor (MissionCompleted mission_id 0)])
              else (update_state d mission_id MFailed,
                    effects ++ [EmittedExecutor (MissionFailed mission_id "non_zero_exit" (Some code))])
          | None => (update_state d mission_id MCompleted,
                     effects ++ [EmittedExecutor (MissionCompleted mission_id 0)])
          end
      | _, _ => (d, effects)
      end
  end.

(** ** Lookups *)

Definition has_command (command_id : string) (sessions : gmap string SessionInfo) : bool :=
  existsb (λ kv, bool_decide (ses_command_id kv.2 = command_id)) (iter sessions).

(** The agent with a session that runs the command. *)
Definition session_agent d (command_id : string) : option string :=
  fst <$> find_first (λ kv, has_command command_id kv.2) (iter (active_sessions d)).

Definition agent_id_for_command d (command_id : string) : option string :=
  match pending d !! command_id with
  | Some p => Some (pd_agent_id p)
  | None => session_agent d command_id
  end.

(** [map.iter().find(|(_, sid)| sid == session_id)] *)
Definition command_for_session d (session_id : string) : option string :=
  fst <$> find_first (λ kv, bool_decide (kv.2 = session_id)) (iter (command_to_session d)).

Definition session_name_of (command_id : string) (sessions : gmap string SessionInfo) : option string :=
  fst <$> find_first (λ kv, bool_decide (ses_command_id kv.2 = command_id)) (iter sessions).

Definition remove_session d (agent_id name : string) : Dispatcher :=
  d <| active_sessions ::= alter (delete name) agent_id |>.

Definition remove_active_session_by_command d (command_id : string) : Dispatcher :=
  match session_agent d command_id with
  | None => d
  | Some agent_id =>
      match session_name_of command_id (agent_sessions d agent_id) with
      | None => d
      | Some name =>
          match agent_sessions d agent_id !! name with
          | None => d
          | Some removed =>
              (remove_session d agent_id name) <| session_working_dirs ::= delete (ses_id removed) |>
          end
      end
  end.

Definition insert_session d (agent_id : string) (info : SessionInfo) : Dispatcher :=
  d <| active_sessions ::= <[agent_id := <[ses_name info := info]> (agent_sessions d agent_id)]> |>.

Definition registry_create d (session_id agent_id command_id name : string) : list Effect :=
  if wi_registry (wiring d) then [RegistryCreate session_id agent_id command_id (Some name)] else [].

(** ** External sessions *)

Definition register_external_pty_session now d (agent_id session_id command_id : string)
    (session_name : option string) (command : string) : Dispatcher * list Effect :=
  let name := default session_id session_name in
  let d := insert_session d agent_id {| ses_name := name; ses_id := session_id;
    ses_command_id := command_id; ses_type := Interactive; ses_command := command;
    ses_created_at := now |} in
  let d := d <| command_to_session ::= <[command_id := session_id]> |> in
  (d, registry_create d session_id agent_id command_id name).

Definition rollback_external_pty_session d (command_id : string) : Dispatcher * list Effect :=
  let session_id := command_to_session d !! command_id in
  let d := d <| command_to_session ::= delete command_id |> in
  let d := remove_active_session_by_command d command_id in
  (d, match session_id with
      | Some sid => if wi_registry (wiring d) then [RegistryForget sid] else []
      | None => []
      end).

(** ** Commands *)

Definition add_pending now d (command_id agent_id command : string) (timeout_secs : Z) : Dispatcher :=
  d <| pending ::= <[command_id := {| pd_agent_id := agent_id; pd_command := command;
        pd_started_at := now; pd_timeout := seconds timeout_secs |}]> |>.

Definition dispatch now link d (command_id agent_id command : string) (args : list string)
    (working_dir : string) (env : gmap string string) (timeout_secs : Z)
    : Dispatcher * list Effect * result DispatchError string :=
  if negb (connected link agent_id) then (d, [], Err (AgentNotFound agent_id))
  else
    let d := add_pending now d command_id agent_id command timeout_secs in
    let msg := MsgCommand {| cq_command_id := command_id; cq_command := command; cq_args := args;
      cq_working_dir := working_dir; cq_env := env; cq_timeout_seconds := timeout_secs;
      cq_capture_output := true; cq_allocate_pty := false; cq_pty_cols := 0; cq_pty_rows := 0;
      cq_pty_term := EmptyString; cq_session_id := EmptyString; cq_session_name := EmptyString |} in
    if negb (accepts link agent_id msg)
    then (d <| pending ::= delete command_id |>, [], Err (SendFailed agent_id))
    else (d, [Sent agent_id msg; CommandStarted agent_id command_id command], Ok command_id).

(** [handle_stdout] and [handle_stderr], which differ in the stream only. *)
Definition handle_output d (stream : StreamKind) (command_id data : string) : list Effect * bool :=
  let tee := if wi_observer (wiring d) then [ObserverOutput command_id data] else [] in
  let publish := match command_to_session d !! command_id with
    | Some session_id =>
        if wi_registry (wiring d) then [RegistryPublish session_id stream data] else []
    | None => []
    end in
  match pending d !! command_id with
  | Some _ => (tee ++ publish ++ [Output command_id {| eo_stream := Some stream; eo_data := data;
                 eo_exit_code := 0; eo_complete := false; eo_error := EmptyString |}], true)
  | None => (tee ++ publish, false)
  end.

Definition handle_result d (result : CommandResult) : Dispatcher * list Effect :=
  let command_id := rs_command_id result in
  let observed := if wi_observer (wiring d) then [ObserverResult result] else [] in
  let session_id := command_to_session d !! command_id in
  let d := d <| command_to_session ::= delete command_id |> in
  let closed := match session_id with
    | Some sid => if wi_registry (wiring d) then [RegistryClose sid (rs_exit_code result)] else []
    | None => []
    end in
  let '(d, ended) := match session_id with
    | Some sid =>
        match session_agent d command_id with
        | Some agent_id =>
            emit_session_end_with_translation d agent_id sid (Some (rs_exit_code result)) false
        | None => (d, [])
        end
    | None => (d, [])
    end in
  let d := remove_active_session_by_command d command_id in
  match pending d !! command_id with
  | Some _ =>
      (d <| pending ::= delete command_id |>,
       observed ++ closed ++ ended ++
         [Output command_id {| eo_stream := None; eo_data := EmptyString;
            eo_exit_code := rs_exit_code result; eo_complete := true; eo_error := rs_error result |};
          Completed command_id result])
  | None => (d, observed ++ closed ++ ended)
  end.

(** [as_millis() as i64] of the time since the start. *)
Definition millis_since (started_at now : Z) : Z := (now - started_at) / 1000000.

Definition aborted_result now (command_id : string) (p : PendingCommand) (error : string) : CommandResult :=
  {| rs_command_id := command_id; rs_exit_code := -1; rs_success := false; rs_error := error;
     rs_duration_ms := millis_since (pd_started_at p) now |}.

Definition cancel now d (command_id : string) : Dispatcher * list Effect * bool :=
  match pending d !! command_id with
  | Some p => (d <| pending ::= delete command_id |>,
               [Completed command_id (aborted_result now command_id p "Cancelled")], true)
  | None => (d, [], false)
  end.

Definition pending_count d : Z := Z.of_nat (size (pending d)).

Definition is_timed_out now (p : PendingCommand) : bool := pd_timeout p <? now - pd_started_at p.

Definition cleanup_timeouts now d : Dispatcher * list string :=
  (d <| pending ::= filter (λ kv, is_timed_out now kv.2 = false) |>,
   (filter (λ kv, is_timed_out now kv.2 = true) (iter (pending d))).*1).

Definition cleanup_agent now d (agent_id : string) : Dispatcher * list Effect :=
  let observed := if wi_observer (wiring d) then [ObserverDisconnect agent_id] else [] in
  let dirs := (ses_id <$> (iter (agent_sessions d agent_id)).*2) : list string in
  let mine := filter (λ kv, pd_agent_id kv.2 = agent_id) (iter (pending d)) in
  (d <| active_sessions ::= delete agent_id |>
     <| session_working_dirs ::= λ m, foldl (λ m sid, delete sid m) m dirs |>
     <| pending ::= λ m, foldl (λ m kv, delete kv.1 m) m mine |>,
   observed ++ ((λ kv, Completed kv.1 (aborted_result now kv.1 kv.2 "Agent disconnected")) <$> mine)).

(** ** Shell text *)

(** [value.replace('\'', "'\"'\"'")] *)
Definition quote_char : ascii := "'"%char.
Definition dquote_char : ascii := "034"%char.
Definition quoted_quote : string :=
  String.String quote_char (String.String dquote_char (String.String quote_char
    (String.String dquote_char (String.String quote_char EmptyString)))).
Fixpoint replace_quotes (s : string) : string :=
  match s with
  | EmptyString => EmptyString
  | String.String c s' =>
      if Ascii.eqb c quote_char then quoted_quote +:+ replace_quotes s'
      else String.String c (replace_quotes s')
  end.

Definition shell_quote (value : string) : string :=
  if bool_decide (value = EmptyString) then "''"
  else "'" +:+ replace_quotes value +:+ "'".

Definition build_shell_command (command : string) (args : list string) : option string :=
  let command := trim command in
  if bool_decide (command = EmptyString) then None
  else Some (foldl (λ s arg, s +:+ " " +:+ shell_quote arg) command args).

Definition build_interactive_tmux_args (session_name command : string) (args : list string) : list string :=
  ["new-session"; "-A"; "-s"; session_name]
  ++ match build_shell_command command args with Some shell => [shell] | None => [] end
  ++ [";"; "set-option"; "-g"; "window-size"; "largest"].

(** ** Sessions *)

(** What [create_session] carries over the await. *)
Record Creating : Type := {
  cg_agent_id : string;
  cg_info : SessionInfo;
  cg_request : CommandRequest;
}.

Inductive CreateStep : Type :=
| CreateDone (outcome : result DispatchError string)
| CreateSend (creating : Creating).

Definition effective_working_dir (working_dir : option string) : string :=
  match working_dir with
  | None => "/home/agent"
  | Some path =>
      if bool_decide (path = EmptyString) || bool_decide (path = "~") then "/home/agent" else path
  end.

Definition session_command (session_type : SessionType) (session_name command : string)
    (args : list string) : string * list string * bool :=
  match session_type with
  | Interactive => ("tmux", build_interactive_tmux_args session_name command args, true)
  | Headless => (command, args, false)
  | Background => ("tmux", ["new-session"; "-d"; "-s"; session_name; command] ++ args, false)
  end.

Definition create_begin now link d (command_id fresh_session_id agent_id session_name : string)
    (session_type : SessionType) (command : string) (args : list string)
    (working_dir : option string) (env : gmap string string) (cols rows : Z)
    (supplied_session_id : option string) : Dispatcher * list Effect * CreateStep :=
  if negb (connected link agent_id) then (d, [], CreateDone (Err (AgentNotFound agent_id)))
  else
    let existing := agent_sessions d agent_id !! session_name in
    match existing, session_type with
    | Some info, Interactive => (d, [], CreateDone (Ok (ses_command_id info)))
    | Some info, Background => (d, [], CreateDone (Ok (ses_command_id info)))
    | _, _ =>
        let '(d, cancelled) := match existing with
          | Some info =>
              let '(d, effects, _) := cancel now d (ses_command_id info) in
              (d <| pending ::= delete (ses_command_id info) |>, effects)
          | None => (d, [])
          end in
        let session_id := default fresh_session_id supplied_session_id in
        let '(final_command, final_args, allocate_pty) :=
          session_command session_type session_name command args in
        let d := add_pending now d command_id agent_id final_command 0 in
        (d, cancelled, CreateSend {| cg_agent_id := agent_id;
          cg_info := {| ses_name := session_name; ses_id := session_id; ses_command_id := command_id;
                        ses_type := session_type; ses_command := command; ses_created_at := now |};
          cg_request := {| cq_command_id := command_id; cq_command := final_command;
            cq_args := final_args; cq_working_dir := effective_working_dir working_dir; cq_env := env;
            cq_timeout_seconds := 0; cq_capture_output := true; cq_allocate_pty := allocate_pty;
            cq_pty_cols := cols; cq_pty_rows := rows; cq_pty_term := "xterm-256color";
            cq_session_id := session_id; cq_session_name := session_name |} |})
    end.

(** The mission of a session that starts. *)
Definition mission_started d (session_id : string) : Dispatcher * list Effect :=
  match executor d, find_by_session d session_id with
  | Some _, Some mission_id =>
      (update_state d mission_id MRunning, [EmittedExecutor (MissionStarted mission_id session_id)])
  | _, _ => (d, [])
  end.

Definition create_finish now d (c : Creating) (sent : bool)
    : Dispatcher * list Effect * result DispatchError string :=
  let info := (cg_info c) <| ses_created_at := now |> in
  let agent_id := cg_agent_id c in
  let command_id := ses_command_id info in
  if negb sent then (d <| pending ::= delete command_id |>, [], Err (SendFailed agent_id))
  else
    let d := insert_session d agent_id info in
    let d := d <| command_to_session ::= <[command_id := ses_id info]> |>
               <| session_working_dirs ::= <[ses_id info := cq_working_dir (cg_request c)]> |> in
    let created := registry_create d (ses_id info) agent_id command_id (ses_name info) in
    let '(d, announced) := match wi_aiwg (wiring d) with
      | None => (d, [])
      | Some _ =>
          let start := Emitted (SessionStart agent_id (ses_id info) (cq_command (cg_request c)))
                       :: emit_agent_sessions d agent_id in
          let (d, mission) := mission_started d (ses_id info) in
          (d, start ++ mission)
      end in
    (d, Sent agent_id (MsgCommand (cg_request c)) :: created ++ announced, Ok command_id).

(** With nothing between the two halves. *)
Definition create_session_with_env_and_id now link d (command_id fresh_session_id agent_id session_name : string)
    (session_type : SessionType) (command : string) (args : list string)
    (working_dir : option string) (env : gmap string string) (cols rows : Z)
    (supplied_session_id : option string) : Dispatcher * list Effect * result DispatchError string :=
  match create_begin now link d command_id fresh_session_id agent_id session_name session_type command
          args working_dir env cols rows supplied_session_id with
  | (d, effects, CreateDone outcome) => (d, effects, outcome)
  | (d, effects, CreateSend c) =>
      let '(d, more, outcome) :=
        create_finish now d c (accepts link agent_id (MsgCommand (cg_request c))) in
      (d, effects ++ more, outcome)
  end.

Definition dispatch_shell now link d (command_id fresh_session_id agent_id : string)
    (session_name : option string) (cols rows : Z) (ws_id : option string)
    : Dispatcher * list Effect * result DispatchError string :=
  let '(d, effects, outcome) := create_session_with_env_and_id now link d command_id fresh_session_id
    agent_id (default "main" session_name) Interactive EmptyString [] None ∅ cols rows None in
  match outcome, ws_id with
  | Ok command_id, Some ws =>
      (d <| ws_pty_ownership ::= λ m, <[ws := {[command_id]} ∪ default ∅ (m !! ws)]> m |>, effects, outcome)
  | _, _ => (d, effects, outcome)
  end.

(** ** Messages to a running command *)

Definition send_to_command link d (command_id : string) (msg : ManagementMessage)
    : list Effect * result DispatchError string :=
  match agent_id_for_command d command_id with
  | None => ([], Err (CommandNotFound command_id))
  | Some agent_id =>
      if accepts link agent_id msg then ([Sent agent_id msg], Ok agent_id)
      else ([], Err (SendFailed agent_id))
  end.

Definition send_pty_signal link d (command_id : string) (signal_number : Z)
    : list Effect * result DispatchError unit :=
  let (effects, outcome) := send_to_command link d command_id (MsgSignal command_id signal_number) in
  (effects, _ ← outcome; Ok ()).

Definition send_stdin link d (command_id data : string) : list Effect * result DispatchError unit :=
  let (effects, outcome) := send_to_command link d command_id (MsgStdin command_id data) in
  (effects, _ ← outcome; Ok ()).

Definition send_pty_resize link d (command_id : string) (cols rows : Z)
    : list Effect * result DispatchError unit :=
  let (effects, outcome) := send_to_command link d command_id (MsgResize command_id cols rows) in
  match outcome with
  | Err e => (effects, Err e)
  | Ok _ => (effects ++ match command_to_session d !! command_id with
      | Some session_id =>
          if wi_registry (wiring d)
          then [RegistryResize session_id (cols `mod` 65536) (rows `mod` 65536)] else []
      | None => []
      end, Ok ())
  end.

(** By the stable session id. *)
Definition to_session {A} d (session_id : string) (send : string → list Effect * result DispatchError A)
    : list Effect * result DispatchError A :=
  match command_for_session d session_id with
  | Some command_id => send command_id
  | None => ([], Err (CommandNotFound session_id))
  end.

Definition send_stdin_to_session link d (session_id data : string) : list Effect * result DispatchError unit :=
  to_session d session_id (λ cid, send_stdin link d cid data).
Definition send_pty_resize_to_session link d (session_id : string) (cols rows : Z)
    : list Effect * result DispatchError unit :=
  to_session d session_id (λ cid, send_pty_resize link d cid cols rows).
Definition send_pty_signal_to_session link d (session_id : string) (signal_number : Z)
    : list Effect * result DispatchError unit :=
  to_session d session_id (λ cid, send_pty_signal link d cid signal_number).

(** ** Sockets *)

(** The commands of a closed socket that no other socket holds, each hung up
    and forgotten. *)
Definition hang_up link d (command_id : string) : Dispatcher * list Effect :=
  let (effects, _) := send_pty_signal link d command_id 1 in
  (d <| pending ::= delete command_id |> <| command_to_session ::= delete command_id |>, effects).

Fixpoint hang_up_all link d (commands : list string) : Dispatcher * list Effect :=
  match commands with
  | [] => (d, [])
  | c :: rest =>
      let (d, effects) := hang_up link d c in
      let (d, more) := hang_up_all link d rest in
      (d, effects ++ more)
  end.

Definition still_held d : gset string := ⋃ (map_to_list (ws_pty_ownership d)).*2.

(** The order of a hash set is that of [elements]: the commands are told apart
    by their ids, so it does not matter. *)
Definition cleanup_ws_sessions link d (ws_id : string) : Dispatcher * list Effect :=
  let commands := default ∅ (ws_pty_ownership d !! ws_id) in
  let d := d <| ws_pty_ownership ::= delete ws_id |> in
  if bool_decide (commands = ∅) then (d, [])
  else
    let truly_gone := commands ∖ still_held d in
    let (d, effects) := hang_up_all link d (elements truly_gone) in
    (d <| active_sessions ::= fmap (M := gmap string) (filter (λ kv, ses_command_id kv.2 ∉ truly_gone)) |>,
     effects).

(** ** Reconnection *)

Definition get_active_sessions d (agent_id : string) : list SessionInfo :=
  (iter (agent_sessions d agent_id)).*2.

Definition or_default (s d : string) : string := if bool_decide (trim s = EmptyString) then d else s.

(** The values of the protocol's enumeration. *)
Definition reported_type (n : Z) : SessionType :=
  if n =? 2 then Headless else if n =? 3 then Background else Interactive.

Definition imported_info now (r : ActiveSession) : SessionInfo :=
  let command_id := trim (av_command_id r) in
  {| ses_name := or_default (av_session_name r) command_id;
     ses_id := or_default (av_session_id r) command_id;
     ses_command_id := command_id; ses_type := reported_type (av_session_type r);
     ses_command := or_default (av_command r) "tmux"; ses_created_at := now |}.

Definition import_one now link (agent_id : string) (acc : Dispatcher * list Effect * Z)
    (r : ActiveSession) : Dispatcher * list Effect * Z :=
  let '(d, effects, imported) := acc in
  let command_id := trim (av_command_id r) in
  if bool_decide (command_id = EmptyString) then acc
  else if has_command command_id (agent_sessions d agent_id) then acc
  else
    let info := imported_info now r in
    let d := insert_session d agent_id info in
    let d := d <| command_to_session ::= λ m,
      match m !! command_id with Some _ => m | None => <[command_id := ses_id info]> m end |> in
    (d, effects ++ (if registered link command_id then []
                    else registry_create d (ses_id info) agent_id command_id (ses_name info)),
     imported + 1).

Definition import_reported_sessions now link d (agent_id : string) (reported : list ActiveSession)
    : Dispatcher * list Effect * Z :=
  let d := d <| active_sessions ::= <[agent_id := agent_sessions d agent_id]> |> in
  foldl (import_one now link agent_id) (d, [], 0) reported.

(** [if !ids.contains(..) { ids.push(..) }] over a list *)
Definition push_new (ids : list string) (id : string) : list string :=
  if bool_decide (id ∈ ids) then ids else ids ++ [id].

Definition get_known_command_ids d (agent_id : string) : list string :=
  foldl push_new (filter (λ kv, pd_agent_id kv.2 = agent_id) (iter (pending d))).*1
    (ses_command_id <$> get_active_sessions d agent_id).

Definition reconcile_sessions d (agent_id : string) (reported : list string)
    : list string * list string * bool :=
  let known := get_known_command_ids d agent_id in
  (filter (λ c, c ∈ known) reported, filter (λ c, c ∉ known) reported,
   bool_decide (known = []) && negb (bool_decide (reported = []))).

Definition handle_reconcile_ack d (agent_id : string) (killed : list string) : Dispatcher :=
  let gone := filter (λ kv, ses_command_id kv.2 ∈ killed) (iter (agent_sessions d agent_id)) in
  d <| pending ::= λ m, foldl (λ m c, delete c m) m killed |>
    <| active_sessions ::= alter (filter (λ kv, ses_command_id kv.2 ∉ killed)) agent_id |>
    <| session_working_dirs ::= λ m, foldl (λ m kv, delete (ses_id kv.2) m) m gone |>.

(** The session report of an agent, as the stream handler of grpc.rs treats it:
    the sessions are adopted, then the agent is told what to keep and kill. *)
Definition session_report now link d (agent_id : string) (reported : list ActiveSession)
    : Dispatcher * list Effect * (list string * list string * bool) :=
  let '(d, effects, _) := import_reported_sessions now link d agent_id reported in
  (d, effects, reconcile_sessions d agent_id (av_command_id <$> reported)).

(** ** Killing *)

(** What is left to do once the agent has been told. *)
Definition kill_forget d (agent_id session_name : string) (session : option SessionInfo)
    : Dispatcher * list Effect :=
  let '(d, ended) := match session with
    | Some info =>
        let d := remove_session d agent_id session_name in
        let d := d <| session_working_dirs ::= delete (ses_id info) |> in
        emit_session_end_with_translation d agent_id (ses_command_id info) None true
    | None => (d, [])
    end in
  (match session with
   | Some info => d <| pending ::= delete (ses_command_id info) |>
   | None => d
   end, ended).

Definition kill_session now link d (fresh_command_id agent_id session_name : string)
    : Dispatcher * list Effect * result DispatchError unit :=
  let session := agent_sessions d agent_id !! session_name in
  match session with
  | Some {| ses_type := Headless; ses_command_id := command_id |} =>
      match send_pty_signal link d command_id 15 with
      | (effects, Err e) => (d, effects, Err e)
      | (effects, Ok _) =>
          let (d, ended) := kill_forget d agent_id session_name session in
          (d, effects ++ ended, Ok ())
      end
  | _ =>
      let msg := MsgCommand {| cq_command_id := fresh_command_id; cq_command := "tmux";
        cq_args := ["kill-session"; "-t"; session_name]; cq_working_dir := EmptyString; cq_env := ∅;
        cq_timeout_seconds := 10; cq_capture_output := false; cq_allocate_pty := false;
        cq_pty_cols := 0; cq_pty_rows := 0; cq_pty_term := EmptyString;
        cq_session_id := EmptyString; cq_session_name := EmptyString |} in
      let d := add_pending now d fresh_command_id agent_id "tmux kill-session" 10 in
      if negb (accepts link agent_id msg) then (d, [], Err (SendFailed agent_id))
      else
        let signal := match session with
          | Some info => (send_pty_signal link d (ses_command_id info) 9).1
          | None => []
          end in
        let (d, ended) := kill_forget d agent_id session_name session in
        (d, Sent agent_id msg :: signal ++ ended, Ok ())
  end.

(** ** Dispatching a mission *)

(** [&id[..id.len().min(8)]]: [None] when the cut is inside a character. *)
Definition mission_prefix (id : string) : option string :=
  match String.get 8 id with
  | Some c => if (128 <=? byte_val c) && (byte_val c <? 192) then None else Some (String.substring 0 8 id)
  | None => Some id
  end.

Record MissionRequest : Type := {
  mr_mission_id : string;
  mr_objective : string;
  mr_completion : string;
  mr_agent_id : option string;
}.

Definition new_mission (req : MissionRequest) : MissionRecord :=
  {| mi_objective := mr_objective req; mi_completion := mr_completion req; mi_state := MAssigned;
     mi_pty_session_id := None; mi_checkpoint_id := None;
     mi_crash_loop := {| cl_consecutive_failures := 0; cl_window_started_at := None;
       cl_last_failure_reason := None; cl_quarantined_at := None |} |}.

(** [first] is the first agent of the registry; [authorised] the check of the
    bearer token.  The status of the response, [None] for a panic. *)
Definition dispatch_mission now link d (authorised : bool) (first : option string)
    (command_id fresh_session_id hint : string) (req : MissionRequest)
    : Dispatcher * list Effect * option Z :=
  match wi_aiwg (wiring d) with
  | None => (d, [], Some 503)
  | Some executor_id =>
      if negb authorised then (d, [], Some 401)
      else if bool_decide (executor_id = None) then (d, [], Some 503)
      else match (match mr_agent_id req with
                   | Some id => if connected link id then Ok id else Err 404
                   | None => ok_or first 503
                   end) with
      | Err status => (d, [], Some status)
      | Ok agent_id =>
          if negb (wi_missions (wiring d)) then (d, [], Some 503)
          else
            let id := mr_mission_id req in
            let d := d <| missions ::= <[id := new_mission req]> |> in
            let assigned := EmittedExecutor (MissionAssigned id) in
            match mission_prefix id with
            | None => (d, [assigned], None)
            | Some prefix =>
                let env := <["AIWG_MISSION_ID" := id]> (<["AIWG_SESSION_HINT" := hint]> ∅) in
                let '(d, effects, outcome) := create_session_with_env_and_id now link d command_id
                  fresh_session_id agent_id ("mission-" +:+ prefix) Background (mr_objective req) []
                  None env 220 50 None in
                match outcome with
                | Ok pty_session_id => (set_pty_session d id pty_session_id, assigned :: effects, Some 202)
                | Err (AgentNotFound _) =>
                    (update_state d id MFailed, assigned :: effects ++
                       [EmittedExecutor (MissionFailed id "agent_not_connected" None)], Some 503)
                | Err _ =>
                    (update_state d id MFailed, assigned :: effects ++
                       [EmittedExecutor (MissionFailed id "dispatch_error" None)], Some 500)
                end
            end
      end
  end.
End dispatcher.

(** ** What a shell reads

    The part of the POSIX shell grammar that quoted arguments use: words
    separated by spaces, single quotes, and double quotes around characters
    that are not special there.  [None] is text outside that part. *)

Inductive Mode : Type := Plain | Single | Double.

(** Characters with no meaning to the shell outside quotes. *)
Definition plain_char (c : ascii) : bool :=
  is_ascii_uppercase c || is_ascii_lowercase c || is_ascii_digit c
  || existsb (Ascii.eqb c) ["/"; "."; "-"; "_"; ":"; "@"; "%"; "+"; "="; ","]%char.
Definition double_special (c : ascii) : bool :=
  existsb (Ascii.eqb c) ["$"; "`"; "\"; "!"]%char.

Definition push_char (word : option string) (c : ascii) : option string :=
  Some (default EmptyString word +:+ String.String c EmptyString).

Fixpoint lex (mode : Mode) (word : option string) (s : string) : option (list string) :=
  match s with
  | EmptyString =>
      match mode with
      | Plain => Some (match word with Some w => [w] | None => [] end)
      | _ => None
      end
  | String.String c s' =>
      match mode with
      | Plain =>
          if Ascii.eqb c " "%char
          then words ← lex Plain None s'; Some (match word with Some w => w :: words | None => words end)
          else if Ascii.eqb c quote_char then lex Single (Some (default EmptyString word)) s'
          else if Ascii.eqb c dquote_char then lex Double (Some (default EmptyString word)) s'
          else if plain_char c then lex Plain (push_char word c) s'
          else None
      | Single =>
          if Ascii.eqb c quote_char then lex Plain word s' else lex Single (push_char word c) s'
      | Double =>
          if Ascii.eqb c dquote_char then lex Plain word s'
          else if double_special c then None
          else lex Double (push_char word c) s'
      end
  end.

Definition shell_words (s : string) : option (list string) := lex Plain None s.

Definition plain_word (s : string) : bool :=
  negb (bool_decide (s = EmptyString)) && forallb plain_char (String.list_ascii_of_string s).

Lemma lex_quoted w v rest :
  lex Single (Some w) (replace_quotes v +:+ String.String quote_char rest) = lex Plain (Some (w +:+ v)) rest.
Proof.
  revert w. induction v as [|c v IH]; intros w; [simpl; by rewrite append_nil_r|].
  cbn [replace_quotes]. destruct (Ascii.eqb_spec c quote_char) as [->|Hne].
  - rewrite append_assoc.
    transitivity (lex Single (Some (w +:+ String.String quote_char EmptyString))
                    (replace_quotes v +:+ String.String quote_char rest)); [done|].
    rewrite IH, append_assoc. done.
  - change (String.String c (replace_quotes v) +:+ String.String quote_char rest)
      with (String.String c (replace_quotes v +:+ String.String quote_char rest)).
    cbn [lex]. destruct (Ascii.eqb_spec c quote_char); [done|]. unfold push_char. cbn [default].
    rewrite IH, append_assoc. done.
Qed.

(** A quoted argument is one word, whatever follows it. *)
Lemma lex_shell_quote v rest : lex Plain None (shell_quote v +:+ rest) = lex Plain (Some v) rest.
Proof.
  unfold shell_quote. destruct (bool_decide_reflect (v = EmptyString)) as [->|_]; [done|].
  rewrite !append_assoc.
  change (lex Plain None ("'" +:+ (replace_quotes v +:+ ("'" +:+ rest))))
    with (lex Single (Some EmptyString) (replace_quotes v +:+ String.String quote_char rest)).
  by rewrite lex_quoted.
Qed.

(** The quoted arguments after a word. *)
Lemma lex_args w args :
  lex Plain (Some w) (foldr (λ arg s, " " +:+ shell_quote arg +:+ s) EmptyString args) = Some (w :: args).
Proof.
  revert w. induction args as [|a args IH]; intros w; [done|]. cbn [foldr].
  change (lex Plain (Some w) (" " +:+ ?x)) with (words ← lex Plain None x; Some (w :: words)).
  rewrite lex_shell_quote, IH. done.
Qed.

Lemma lex_plain_word w s rest :
  forallb plain_char (String.list_ascii_of_string s) = true →
  lex Plain (Some w) (s +:+ rest) = lex Plain (Some (w +:+ s)) rest.
Proof.
  revert w. induction s as [|c s IH]; intros w Hs; [by rewrite append_nil_r|].
  simpl in Hs. apply andb_true_iff in Hs as [Hc Hs].
  change (String.String c s +:+ rest) with (String.String c (s +:+ rest)). cbn [lex].
  assert (∀ c', plain_char c' = false → Ascii.eqb c c' = false) as Hne.
  { intros c' Hc'. apply Ascii.eqb_neq. intros ->. congruence. }
  rewrite !Hne, Hc by done. unfold push_char. cbn [default]. rewrite IH, append_assoc by done. done.
Qed.

Lemma fold_quoted s args :
  foldl (λ s arg, s +:+ " " +:+ shell_quote arg) s args =
  s +:+ foldr (λ arg t, " " +:+ shell_quote arg +:+ t) EmptyString args.
Proof.
  revert s. induction args as [|a args IH]; intros s; simpl; [by rewrite append_nil_r|].
  rewrite IH. by rewrite !append_assoc.
Qed.

(** Arguments cannot break out of the command line of a session.  The
    shell that reads the line built for a plain command word sees that word
    and exactly the given arguments, whatever quotes, spaces or operators they
    contain. *)
Theorem shell_arguments_preserved command args line :
  plain_word (trim command) = true → build_shell_command command args = Some line →
  shell_words line = Some (trim command :: args).
Proof.
  unfold plain_word, build_shell_command. destruct (trim command) as [|c s]; [done|].
  intros Hp. apply andb_true_iff in Hp as [_ Hp]. rewrite bool_decide_false by done. intros [= <-].
  rewrite fold_quoted. unfold shell_words.
  simpl in Hp. apply andb_true_iff in Hp as [Hc Hp].
  change (String.String c s +:+ ?r) with (String.String c (s +:+ r)). cbn [lex].
  assert (∀ c', plain_char c' = false → Ascii.eqb c c' = false) as Hno.
  { intros c' Hc'. apply Ascii.eqb_neq. intros ->. congruence. }
  rewrite !Hno, Hc by done. unfold push_char. cbn [default].
  rewrite lex_plain_word by done. apply lex_args.
Qed.

Lemma shell_arguments_preserved_witness :
  ∃ line, build_shell_command " claude " ["it's"; "; rm -rf /"; EmptyString] = Some line ∧
    shell_words line = Some ["claude"; "it's"; "; rm -rf /"; EmptyString].
Proof.
  eexists. split; [vm_compute; reflexivity|].
  apply (shell_arguments_preserved " claude "); vm_compute; reflexivity.
Defined.

(** ** Runs *)

Section runs.
Context `{MapIter}.
Implicit Types (d : Dispatcher) (c : string).

(** One call of the dispatcher; the ids drawn for new commands are in [used]
    from then on and were not before. *)
Inductive call (used : gset string) d : gset string → Dispatcher → list Effect → Prop :=
| c_dispatch now link c agent command args dir env timeout d' effects outcome :
    c ∉ used → dispatch now link d c agent command args dir env timeout = (d', effects, outcome) →
    call used d ({[c]} ∪ used) d' effects
| c_create_begin now link c sid agent name ty command args dir env cols rows supplied d' effects step :
    c ∉ used →
    create_begin now link d c sid agent name ty command args dir env cols rows supplied = (d', effects, step) →
    call used d ({[c]} ∪ used) d' effects
| c_create_finish now creating sent d' effects outcome :
    create_finish now d creating sent = (d', effects, outcome) → call used d used d' effects
| c_result r d' effects : handle_result d r = (d', effects) → call used d used d' effects
| c_output stream c data effects forwarded :
    handle_output d stream c data = (effects, forwarded) → call used d used d effects
| c_cancel now c d' effects b : cancel now d c = (d', effects, b) → call used d used d' effects
| c_timeouts now d' ids : cleanup_timeouts now d = (d', ids) → call used d used d' []
| c_agent now agent d' effects : cleanup_agent now d agent = (d', effects) → call used d used d' effects
| c_socket link ws d' effects : cleanup_ws_sessions link d ws = (d', effects) → call used d used d' effects
| c_external now agent sid c name command d' effects :
    register_external_pty_session now d agent sid c name command = (d', effects) →
    call used d used d' effects
| c_rollback c d' effects : rollback_external_pty_session d c = (d', effects) → call used d used d' effects
| c_report now link agent reported d' effects verdict :
    session_report now link d agent reported = (d', effects, verdict) → call used d used d' effects
| c_ack agent killed : call used d used (handle_reconcile_ack d agent killed) []
| c_kill now link c agent name d' effects outcome :
    c ∉ used → kill_session now link d c agent name = (d', effects, outcome) →
    call used d ({[c]} ∪ used) d' effects.

(** A run with its effects, the oldest first. *)
Inductive run : gset string → Dispatcher → list Effect → Prop :=
| run_start wiring_ :
    run ∅ {| pending := ∅; active_sessions := ∅; command_to_session := ∅; session_working_dirs := ∅;
             ws_pty_ownership := ∅; missions := ∅; wiring := wiring_ |} []
| run_call used d log used' d' effects :
    run used d log → call used d used' d' effects → run used' d' (log ++ effects).

(** The commands whose callers got a result. *)
Definition completions (effects : list Effect) : list string :=
  omap (λ e, match e with Completed c _ => Some c | _ => None end) effects.

Lemma completions_app l k : completions (l ++ k) = completions l ++ completions k.
Proof. apply omap_app. Qed.

Lemma silent_cons e l : (∀ c r, e ≠ Completed c r) → completions (e :: l) = completions l.
Proof. destruct e; try done. intros Hf. by destruct (Hf command_id result). Qed.

(** What a call does to the pending commands: it completes some of them once,
    drops them, and adds at most the fresh one. *)
Record pending_change (used used' : gset string) d d' (effects : list Effect) : Prop := {
  pc_used : used ⊆ used';
  pc_pending c : is_Some (pending d' !! c) → is_Some (pending d !! c) ∨ c ∈ used' ∖ used;
  pc_nodup : NoDup (completions effects);
  pc_completed c : c ∈ completions effects → is_Some (pending d !! c) ∧ (c ∉ used' ∖ used → pending d' !! c = None);
}.

Lemma no_completion used used' d d' effects :
  used ⊆ used' → completions effects = [] →
  (∀ c, is_Some (pending d' !! c) → is_Some (pending d !! c) ∨ c ∈ used' ∖ used) →
  pending_change used used' d d' effects.
Proof. intros Hu Hc Hp. constructor; [done|done|rewrite Hc; constructor|rewrite Hc; set_solver]. Qed.

Lemma remove_active_pending d c : pending (remove_active_session_by_command d c) = pending d.
Proof. unfold remove_active_session_by_command. by repeat case_match. Qed.

Lemma end_translation_pending d agent sid code killed :
  pending (emit_session_end_with_translation d agent sid code killed).1 = pending d.
Proof. unfold emit_session_end_with_translation. by repeat case_match. Qed.

Lemma end_translation_silent d agent sid code killed :
  completions (emit_session_end_with_translation d agent sid code killed).2 = [].
Proof.
  unfold emit_session_end_with_translation, emit_agent_sessions.
  repeat case_match; simpl; rewrite ?completions_app; by simpl.
Qed.

Lemma send_signal_silent link d c n : completions (send_pty_signal link d c n).1 = [].
Proof. unfold send_pty_signal, send_to_command. by repeat case_match; simplify_eq/=. Qed.

Lemma hang_up_all_spec link d cs d' effects :
  hang_up_all link d cs = (d', effects) →
  completions effects = [] ∧ ∀ c, is_Some (pending d' !! c) → is_Some (pending d !! c).
Proof.
  revert d d' effects. induction cs as [|c cs IH]; intros d d' effects Hh; simpl in Hh; [by simplify_eq|].
  destruct (hang_up link d c) as [d1 e1] eqn:H1. destruct (hang_up_all link d1 cs) as [d2 e2] eqn:H2.
  simplify_eq. apply IH in H2 as [He Hp]. unfold hang_up in H1.
  pose proof (send_signal_silent link d c 1) as Hs. destruct (send_pty_signal link d c 1). simplify_eq/=.
  rewrite completions_app, Hs, He. split; [done|]. intros k Hk. apply Hp in Hk. simpl in Hk.
  destruct (decide (k = c)) as [->|]; [by rewrite lookup_delete_eq in Hk; destruct Hk|].
  by rewrite lookup_delete_ne in Hk.
Qed.

Lemma foldl_delete_lookup {A B} (f : B → string) (l : list B) (m : gmap string A) k :
  foldl (λ m x, delete (f x) m) m l !! k = if decide (k ∈ f <$> l) then None else m !! k.
Proof.
  revert m. induction l as [|x l IH]; intros m; simpl; [done|]. rewrite IH.
  destruct (decide (k ∈ f <$> l)) as [Hin|Hin].
  { rewrite decide_True by set_solver. done. }
  destruct (decide (k = f x)) as [->|Hne].
  - rewrite decide_True by set_solver. by rewrite lookup_delete_eq.
  - rewrite decide_False by set_solver. by rewrite lookup_delete_ne.
Qed.

Lemma iter_keys_nodup {A} (P : string * A → Prop) `{∀ x, Decision (P x)} (m : gmap string A) :
  NoDup (filter P (iter m)).*1.
Proof.
  assert (NoDup (iter m).*1) as Hn by (rewrite iter_perm; apply NoDup_fst_map_to_list).
  revert Hn. induction (iter m) as [|x l IH]; simpl; [done|]. intros [Hx Hn]%NoDup_cons.
  rewrite filter_cons. case_decide; [|by apply IH]. simpl. apply NoDup_cons. split; [|by apply IH].
  intros Hin. apply Hx. apply list_elem_of_fmap in Hin as (y & -> & [_ Hy]%list_elem_of_filter).
  by apply list_elem_of_fmap_2.
Qed.

(** *** Each call *)

Lemma delete_pending (m : gmap string PendingCommand) k c :
  is_Some (delete k m !! c) → is_Some (m !! c).
Proof. intros [x [_ Hx]%lookup_delete_Some]. by exists x. Qed.

Lemma cancel_change used used' now d c d' effects b :
  used ⊆ used' → cancel now d c = (d', effects, b) → pending_change used used' d d' effects.
Proof.
  unfold cancel. intros Hu Hc. case_match eqn:Hp; simplify_eq.
  - constructor; simpl; [done|intros k Hk%delete_pending; by left|apply NoDup_singleton|].
    intros k ->%list_elem_of_singleton. split; [by eexists|]. intros _. apply lookup_delete_eq.
  - by apply no_completion; [|done|left].
Qed.

Lemma add_pending_change used d d' effects now c agent command timeout :
  c ∉ used → pending_change used ({[c]} ∪ used) d d' effects →
  pending_change used ({[c]} ∪ used) d (add_pending now d' c agent command timeout) effects.
Proof.
  intros Hf [Hu Hp Hn Hc]. constructor; [done| |done|]; simpl.
  - intros k. rewrite lookup_insert_is_Some. intros [<-|[_ Hk]]; [set_solver|by apply Hp].
  - intros k Hk. destruct (Hc k Hk) as [Hs Hd]. split; [done|]. intros Hk'.
    rewrite lookup_insert_ne by set_solver. by apply Hd.
Qed.

Lemma same_pending used used' d d' effects :
  used ⊆ used' → completions effects = [] → pending d' = pending d → pending_change used used' d d' effects.
Proof. intros Hu Hc Hp. apply no_completion; [done|done|]. rewrite Hp. by left. Qed.

Lemma drop_pending used used' d d' d'' effects c :
  pending_change used used' d d' effects → pending d'' = delete c (pending d') →
  pending_change used used' d d'' effects.
Proof.
  intros [Hu Hp Hn Hc] He. constructor; [done| |done|]; rewrite He.
  - intros k Hk%delete_pending. by apply Hp.
  - intros k Hk. destruct (Hc k Hk) as [Hs Hd]. split; [done|]. intros Hk'.
    apply lookup_delete_None. right. by apply Hd.
Qed.

Lemma add_effects used used' d d' effects effects' :
  completions effects' = completions effects →
  pending_change used used' d d' effects → pending_change used used' d d' effects'.
Proof. intros He [Hu Hp Hn Hc]. by constructor; rewrite ?He. Qed.

Lemma dispatch_change used now link d c agent command args dir env timeout d' effects outcome :
  c ∉ used → dispatch now link d c agent command args dir env timeout = (d', effects, outcome) →
  pending_change used ({[c]} ∪ used) d d' effects.
Proof.
  intros Hf. unfold dispatch.
  assert (pending_change used ({[c]} ∪ used) d d []) as Hs by (apply same_pending; set_solver).
  destruct (connected link agent); simpl; [|intros; by simplify_eq].
  eapply add_pending_change in Hs; [|done]. destruct (accepts link agent _); simpl; intros; simplify_eq.
  - eapply add_effects, Hs. done.
  - eapply drop_pending; [exact Hs|done].
Qed.

Lemma create_begin_change used now link d c sid agent name ty command args dir env cols rows supplied d' effects step :
  c ∉ used →
  create_begin now link d c sid agent name ty command args dir env cols rows supplied = (d', effects, step) →
  pending_change used ({[c]} ∪ used) d d' effects.
Proof.
  intros Hf. unfold create_begin.
  assert (pending_change used ({[c]} ∪ used) d d []) as Hs by (apply same_pending; set_solver).
  destruct (connected link agent); simpl; [|intros; by simplify_eq].
  destruct (agent_sessions d agent !! name) as [info|].
  - destruct (cancel now d (ses_command_id info)) as [[d1 e1] b] eqn:Hc.
    eapply (cancel_change used ({[c]} ∪ used)) in Hc; [|set_solver].
    eapply (drop_pending _ _ _ _ (d1 <| pending ::= delete (ses_command_id info) |>)) in Hc; [|done].
    destruct ty; simpl; intros; simplify_eq; [done| |done]. by apply add_pending_change.
  - destruct ty; simpl; intros; simplify_eq; by apply add_pending_change.
Qed.

Lemma mission_started_pending d sid : pending (mission_started d sid).1 = pending d.
Proof. unfold mission_started. by repeat case_match. Qed.

Lemma mission_started_silent d sid : completions (mission_started d sid).2 = [].
Proof. unfold mission_started. by repeat case_match. Qed.

Lemma registry_create_silent d sid agent c name : completions (registry_create d sid agent c name) = [].
Proof. unfold registry_create. by case_match. Qed.

Lemma emit_agent_sessions_silent d agent : completions (emit_agent_sessions d agent) = [].
Proof. unfold emit_agent_sessions. by case_match. Qed.

Lemma create_finish_change used now d creating sent d' effects outcome :
  create_finish now d creating sent = (d', effects, outcome) → pending_change used used d d' effects.
Proof.
  unfold create_finish. destruct sent; simpl.
  2:{ intros; simplify_eq. eapply drop_pending; [by apply same_pending|done]. }
  destruct (wi_aiwg _).
  - match goal with |- context[mission_started ?x ?y] =>
      pose proof (mission_started_pending x y) as Hp; pose proof (mission_started_silent x y) as Hq;
      destruct (mission_started x y) end.
    intros; simplify_eq. apply same_pending; [done| |done].
    rewrite silent_cons, !completions_app, registry_create_silent, silent_cons by done.
    by rewrite completions_app, emit_agent_sessions_silent.
  - intros; simplify_eq. apply same_pending; [done| |done].
    by rewrite silent_cons, !completions_app, registry_create_silent by done.
Qed.

Lemma handle_result_change used d r d' effects :
  handle_result d r = (d', effects) → pending_change used used d d' effects.
Proof.
  unfold handle_result. set (d1 := d <| command_to_session ::= _ |>).
  destruct (match command_to_session d !! rs_command_id r with Some _ => _ | None => (d1, []) end)
    as [d2 ended] eqn:He.
  assert (pending d2 = pending d ∧ completions ended = []) as [Hp Hs].
  { destruct (command_to_session d !! _) as [sid|]; [|by simplify_eq].
    destruct (session_agent d1 _) as [agent|]; [|by simplify_eq].
    pose proof (end_translation_pending d1 agent sid (Some (rs_exit_code r)) false) as H1.
    pose proof (end_translation_silent d1 agent sid (Some (rs_exit_code r)) false) as H2.
    rewrite He in H1, H2. done. }
  clear He.
  rewrite remove_active_pending, Hp.
  set (closed := match command_to_session d !! _ with Some sid => _ | None => [] end).
  set (observed := if wi_observer _ then _ else []).
  assert (completions observed = []) as Ho by (unfold observed; by case_match).
  assert (completions closed = []) as Hcl by (unfold closed; by repeat case_match).
  destruct (pending d !! rs_command_id r) as [p|] eqn:Hpd; intros; simplify_eq.
  2:{ apply same_pending; [done|by rewrite !completions_app, Ho, Hcl, Hs|by rewrite remove_active_pending]. }
  assert (completions (observed ++ closed ++ ended ++ [Output (rs_command_id r) {| eo_stream := None;
    eo_data := EmptyString; eo_exit_code := rs_exit_code r; eo_complete := true; eo_error := rs_error r |};
    Completed (rs_command_id r) r]) = [rs_command_id r]) as Hc
    by (rewrite !completions_app, Ho, Hcl, Hs; done).
  constructor; simpl; rewrite ?Hc, ?remove_active_pending, ?Hp; [done| |apply NoDup_singleton|].
  - intros k Hk%delete_pending. by left.
  - intros k ->%list_elem_of_singleton. split; [by eexists|]. intros _. apply lookup_delete_eq.
Qed.

Lemma completed_list now error (l : list (string * PendingCommand)) :
  completions ((λ kv, Completed kv.1 (aborted_result now kv.1 kv.2 error)) <$> l) = l.*1.
Proof. induction l; csimpl; [done|]. by f_equal. Qed.

Lemma cleanup_agent_change used now d agent d' effects :
  cleanup_agent now d agent = (d', effects) → pending_change used used d d' effects.
Proof.
  unfold cleanup_agent. intros; simplify_eq.
  set (mine := filter _ (iter (pending d))). set (observed := if wi_observer _ then _ else []).
  assert (completions (observed ++ ((λ kv, Completed kv.1
    (aborted_result now kv.1 kv.2 "Agent disconnected")) <$> mine)) = mine.*1) as Hc.
  { rewrite completions_app, completed_list. unfold observed. by case_match. }
  constructor; simpl; [done| |rewrite Hc; apply iter_keys_nodup|]; rewrite ?Hc.
  - intros k. rewrite (foldl_delete_lookup fst). case_decide; [by intros []|by left].
  - intros k Hk. split; [|intros _; rewrite (foldl_delete_lookup fst); by rewrite decide_True].
    apply list_elem_of_fmap in Hk as ([k' p] & -> & [_ Hin]%list_elem_of_filter).
    apply elem_of_iter in Hin. by eexists.
Qed.

Lemma socket_change used link d ws d' effects :
  cleanup_ws_sessions link d ws = (d', effects) → pending_change used used d d' effects.
Proof.
  unfold cleanup_ws_sessions. case_bool_decide; [intros; simplify_eq; by apply same_pending|].
  match goal with |- context[hang_up_all link ?x ?l] => destruct (hang_up_all link x l) as [d2 e2] eqn:Hh end.
  intros; simplify_eq. apply hang_up_all_spec in Hh as [Hs Hp].
  apply no_completion; [done|done|]. intros c Hc. left. by apply Hp.
Qed.

Lemma import_one_spec now link agent d effects n r d' effects' n' :
  import_one now link agent (d, effects, n) r = (d', effects', n') →
  pending d' = pending d ∧ completions effects' = completions effects.
Proof.
  unfold import_one. repeat case_bool_decide || case_match; intros; simplify_eq; try done; simpl;
    (split; [done|]); rewrite completions_app; rewrite ?registry_create_silent; by rewrite app_nil_r.
Qed.

Lemma import_spec now link agent reported d effects n d' effects' n' :
  foldl (import_one now link agent) (d, effects, n) reported = (d', effects', n') →
  pending d' = pending d ∧ completions effects' = completions effects.
Proof.
  revert d effects n. induction reported as [|r l IH]; intros d effects n Hf; cbn [foldl] in Hf; [by simplify_eq|].
  destruct (import_one now link agent (d, effects, n) r) as [[d1 e1] n1] eqn:H1.
  apply import_one_spec in H1 as [<- <-]. by apply IH in Hf.
Qed.

Lemma report_change used now link d agent reported d' effects verdict :
  session_report now link d agent reported = (d', effects, verdict) → pending_change used used d d' effects.
Proof.
  unfold session_report, import_reported_sessions.
  destruct (foldl _ _ reported) as [[d1 e1] n] eqn:Hf. intros; simplify_eq.
  apply import_spec in Hf as [Hp Hs]. by apply same_pending.
Qed.

Lemma kill_forget_spec d agent name session d' ended :
  kill_forget d agent name session = (d', ended) →
  completions ended = [] ∧ ∀ c, is_Some (pending d' !! c) → is_Some (pending d !! c).
Proof.
  unfold kill_forget. destruct session as [info|]; [|intros; by simplify_eq].
  match goal with |- context[emit_session_end_with_translation ?x ?a ?s ?e ?k] =>
    pose proof (end_translation_pending x a s e k) as Hp; pose proof (end_translation_silent x a s e k) as Hs;
    destruct (emit_session_end_with_translation x a s e k) end.
  intros; simplify_eq/=. split; [done|]. intros c Hc%delete_pending. by rewrite Hp in Hc.
Qed.

Lemma kill_change used now link d c agent name d' effects outcome :
  c ∉ used → kill_session now link d c agent name = (d', effects, outcome) →
  pending_change used ({[c]} ∪ used) d d' effects.
Proof.
  intros Hf Hk.
  assert (∀ d1 session d2 ended pre, (∀ k, is_Some (pending d1 !! k) → is_Some (pending d !! k) ∨ k = c) →
    kill_forget d1 agent name session = (d2, ended) → completions pre = [] →
    pending_change used ({[c]} ∪ used) d d2 (pre ++ ended)) as Hforget.
  { intros d1 session d2 ended pre H1 [Hs Hp]%kill_forget_spec Hpre.
    apply no_completion; [set_solver|by rewrite completions_app, Hpre, Hs|].
    intros k [?| ->]%Hp%H1; [by left|right; set_solver]. }
  assert (∀ session (after : list Effect) msg, completions after = [] →
    (let d1 := add_pending now d c agent "tmux kill-session" 10 in
     if negb (accepts link agent msg) then (d1, [], Err (SendFailed agent))
     else let (d2, ended) := kill_forget d1 agent name session in (d2, Sent agent msg :: after ++ ended, Ok ()))
    = (d', effects, outcome) → pending_change used ({[c]} ∪ used) d d' effects) as Htmux.
  { intros session after msg Ha Hr. cbv zeta in Hr.
    assert (∀ k, is_Some (pending (add_pending now d c agent "tmux kill-session" 10) !! k) →
      is_Some (pending d !! k) ∨ k = c) as Hp.
    { intros k. simpl. rewrite lookup_insert_is_Some. intros [->|[_ ?]]; auto. }
    destruct (accepts link agent msg); simpl in Hr.
    - destruct (kill_forget _ agent name session) as [d2 ended] eqn:Hkf. simplify_eq.
      apply (Hforget _ session _ _ (Sent agent msg :: after)) in Hkf; [done|done|by rewrite silent_cons].
    - simplify_eq. apply no_completion; [set_solver|done|]. intros k [?| ->]%Hp; [by left|right; set_solver]. }
  unfold kill_session in Hk. destruct (agent_sessions d agent !! name) as [[nm sid cid ty cmd at_]|].
  2:{ by eapply (Htmux None []) in Hk. }
  destruct ty; [by eapply Htmux in Hk; [|apply send_signal_silent]| |by eapply Htmux in Hk; [|apply send_signal_silent]].
  pose proof (send_signal_silent link d cid 15) as Hs.
  destruct (send_pty_signal link d cid 15) as [e [[]|]]; simpl in Hs.
  - destruct (kill_forget d agent name _) as [d2 ended] eqn:Hkf. simplify_eq.
    eapply Hforget; [|exact Hkf|done]. by left.
  - simplify_eq. by apply same_pending; [set_solver| |].
Qed.

Lemma output_silent d stream c data : completions (handle_output d stream c data).1 = [].
Proof. unfold handle_output. by repeat case_match. Qed.

Lemma handle_output_change used d stream c data effects forwarded :
  handle_output d stream c data = (effects, forwarded) → pending_change used used d d effects.
Proof.
  intros Ho. pose proof (output_silent d stream c data) as Hs. rewrite Ho in Hs. by apply same_pending.
Qed.

Lemma timeouts_change used now d d' ids :
  cleanup_timeouts now d = (d', ids) → pending_change used used d d' [].
Proof.
  unfold cleanup_timeouts. intros; simplify_eq. apply no_completion; [done|done|].
  intros c [p [Hp _]%map_lookup_filter_Some]. left. by exists p.
Qed.

Lemma external_change used now d agent sid c name command d' effects :
  register_external_pty_session now d agent sid c name command = (d', effects) →
  pending_change used used d d' effects.
Proof.
  unfold register_external_pty_session. intros; simplify_eq.
  apply same_pending; [done|apply registry_create_silent|done].
Qed.

Lemma rollback_change used d c d' effects :
  rollback_external_pty_session d c = (d', effects) → pending_change used used d d' effects.
Proof.
  unfold rollback_external_pty_session. intros; simplify_eq.
  apply same_pending; [done|by repeat case_match|by rewrite remove_active_pending].
Qed.

Lemma ack_change used d agent killed : pending_change used used d (handle_reconcile_ack d agent killed) [].
Proof.
  apply no_completion; [done|done|]. intros c. simpl. rewrite (foldl_delete_lookup id).
  case_decide; [by intros []|by left].
Qed.

Lemma call_change used d used' d' effects :
  call used d used' d' effects → pending_change used used' d d' effects.
Proof.
  destruct 1; eauto using dispatch_change, create_begin_change, create_finish_change, handle_result_change,
    handle_output_change, cancel_change, timeouts_change, cleanup_agent_change, socket_change,
    external_change, rollback_change, report_change, ack_change, kill_change.
Qed.

(** however calls of the dispatcher are interleaved, the caller of a
    command gets at most one result: no command is completed twice, a
    completed command is no longer pending, and only a command the dispatcher
    issued completes. *)
Theorem completed_at_most_once used d log :
  run used d log →
  NoDup (completions log) ∧ (∀ c, c ∈ completions log → c ∈ used ∧ pending d !! c = None).
Proof.
  intros Hr. enough ((∀ c, is_Some (pending d !! c) → c ∈ used) ∧ NoDup (completions log) ∧
    (∀ c, c ∈ completions log → c ∈ used ∧ pending d !! c = None)) by tauto.
  induction Hr as [wi|used d log used' d' effects _ (Hu & Hn & Hc) Hcall].
  { split_and!; [intros c []; set_solver|constructor|set_solver]. }
  apply call_change in Hcall as [Hsub Hp Hn' Hc']. split_and!.
  - intros c [?%Hu|?]%Hp; set_solver.
  - rewrite completions_app. apply NoDup_app. split_and!; [done| |done].
    intros c [_ Hnone]%Hc [[p Hs] _]%Hc'. congruence.
  - intros c. rewrite completions_app. intros [Hin|Hin]%elem_of_app.
    + apply Hc in Hin as [Hin Hnone]. split; [set_solver|].
      apply eq_None_not_Some. intros [[]|]%Hp; [congruence|set_solver].
    + destruct (Hc' c Hin) as [Hs Hd]. apply Hu in Hs. split; [set_solver|]. apply Hd. set_solver.
Qed.

Lemma cleanup_agent_spec now d agent d' effects :
  cleanup_agent now d agent = (d', effects) →
  pending d' = filter (λ kv, pd_agent_id kv.2 ≠ agent) (pending d) ∧
  active_sessions d' = delete agent (active_sessions d).
Proof.
  unfold cleanup_agent. intros; simplify_eq/=. split; [|done].
  apply map_eq. intros k. rewrite (foldl_delete_lookup fst), map_lookup_filter. simpl. case_decide as Hk.
  - apply list_elem_of_fmap in Hk as ([k' p] & -> & [Ha Hin%elem_of_iter]%list_elem_of_filter).
    simpl in *. rewrite Hin. simpl. by rewrite option_guard_False by tauto.
  - destruct (pending d !! k) as [p|] eqn:Hp; [|done]. simpl. rewrite option_guard_True; [done|].
    intros Ha. apply Hk. apply list_elem_of_fmap. exists (k, p). split; [done|].
    apply list_elem_of_filter. split; [done|by apply elem_of_iter].
Qed.

(** when an agent disconnects, every command pending on it is answered
    with exit code -1 and "Agent disconnected", exactly once and no other;
    none of its commands stays pending and it has no session; the commands and
    sessions of the other agents are as they were. *)
Theorem agent_cleanup_complete now d agent d' effects :
  cleanup_agent now d agent = (d', effects) →
  (∀ c r, Completed c r ∈ effects ↔
    ∃ p, pending d !! c = Some p ∧ pd_agent_id p = agent ∧ r = aborted_result now c p "Agent disconnected") ∧
  NoDup (completions effects) ∧
  pending d' = filter (λ kv, pd_agent_id kv.2 ≠ agent) (pending d) ∧
  active_sessions d' = delete agent (active_sessions d).
Proof.
  intros Hc. pose proof (pc_nodup _ _ _ _ _ (cleanup_agent_change ∅ _ _ _ _ _ Hc)) as Hn.
  unfold cleanup_agent in Hc. simplify_eq/=. split_and!; [|done| |done].
  - intros c r. rewrite elem_of_app, list_elem_of_fmap. split.
    + intros [Hin|([k p] & Heq & [Ha Hin%elem_of_iter]%list_elem_of_filter)].
      { destruct (wi_observer _); set_solver. }
      simplify_eq/=. by exists p.
    + intros (p & Hp & Ha & ->). right. exists (c, p). split; [done|].
      apply list_elem_of_filter. split; [done|by apply elem_of_iter].
  - by apply (cleanup_agent_spec now d agent _ _ eq_refl).
Qed.

(** *** Sockets *)

Lemma hang_up_keeps link d c d1 effects :
  hang_up link d c = (d1, effects) →
  d1 = d <| pending ::= delete c |> <| command_to_session ::= delete c |> ∧
  effects = (send_pty_signal link d c 1).1.
Proof. unfold hang_up. destruct (send_pty_signal link d c 1). by intros; simplify_eq. Qed.

Lemma signal_sent link d c n e :
  e ∈ (send_pty_signal link d c n).1 ↔
  ∃ agent, e = Sent agent (MsgSignal c n) ∧ agent_id_for_command d c = Some agent ∧
    accepts link agent (MsgSignal c n) = true.
Proof.
  unfold send_pty_signal, send_to_command. destruct (agent_id_for_command d c) as [a|]; simpl.
  2:{ split; [set_solver|]. by intros (? & _ & ? & _). }
  destruct (accepts link a (MsgSignal c n)) eqn:Ha; simpl.
  - rewrite list_elem_of_singleton. split; [intros ->; eauto|]. intros (? & -> & ? & _). by simplify_eq.
  - split; [set_solver|]. intros (? & _ & ? & ?). simplify_eq. congruence.
Qed.

Lemma hang_up_all_exact link cs d d' effects :
  NoDup cs → hang_up_all link d cs = (d', effects) →
  d' = d <| pending := filter (λ kv, kv.1 ∉ cs) (pending d) |>
         <| command_to_session := filter (λ kv, kv.1 ∉ cs) (command_to_session d) |> ∧
  ∀ e, e ∈ effects ↔ ∃ c agent, c ∈ cs ∧ e = Sent agent (MsgSignal c 1) ∧
    agent_id_for_command d c = Some agent ∧ accepts link agent (MsgSignal c 1) = true.
Proof.
  revert d d' effects. induction cs as [|c cs IH]; intros d d' effects Hn Hh; cbn [hang_up_all] in Hh.
  { injection Hh as <- <-. split; [|set_solver]. destruct d as [p ? m]; cbn. f_equal; symmetry;
      apply map_filter_id; set_solver. }
  apply NoDup_cons in Hn as [Hnc Hn].
  destruct (hang_up link d c) as [d1 e1] eqn:H1. destruct (hang_up_all link d1 cs) as [d2 e2] eqn:H2.
  simplify_eq. apply hang_up_keeps in H1 as [-> ->]. apply IH in H2 as [-> He]; [|done]. split.
  - destruct d as [p ? m]; cbn. f_equal; apply map_eq; intros k; rewrite !map_lookup_filter;
      (destruct (decide (k = c)) as [->|]; [rewrite lookup_delete_eq|rewrite lookup_delete_ne by done]);
      (destruct (_ !! _); [|done]); simpl; repeat case_guard; try done; set_solver.
  - intros e. rewrite elem_of_app, signal_sent, He. split.
    + intros [(a & ? & ? & ?)|(c' & a & Hc' & ? & Ha & ?)]; [exists c, a; set_solver|].
      exists c', a. split_and!; [set_solver|done| |done].
      unfold agent_id_for_command in Ha. cbn in Ha. by rewrite lookup_delete_ne in Ha by congruence.
    + intros (c' & a & [->|Hc']%elem_of_cons & ? & Ha & ?); [left; eauto|]. right.
      exists c', a. split_and!; [done|done| |done].
      unfold agent_id_for_command. cbn. by rewrite lookup_delete_ne by congruence.
Qed.

Lemma still_held_spec d c :
  c ∈ still_held d ↔ ∃ ws held, ws_pty_ownership d !! ws = Some held ∧ c ∈ held.
Proof.
  unfold still_held. rewrite elem_of_union_list. setoid_rewrite list_elem_of_fmap. split.
  - intros (held & ([ws h] & -> & Hin%elem_of_map_to_list) & Hc). eauto.
  - intros (ws & held & Hw & Hc). exists held. split; [|done]. exists (ws, held).
    split; [done|by apply elem_of_map_to_list].
Qed.

Lemma agent_sessions_filtered (gone : gset string) d d' agent name info :
  active_sessions d' = filter (λ kv, ses_command_id kv.2 ∉ gone) <$> active_sessions d →
  agent_sessions d' agent !! name = Some info ↔
  agent_sessions d agent !! name = Some info ∧ ses_command_id info ∉ gone.
Proof.
  unfold agent_sessions. intros ->. rewrite lookup_fmap. destruct (active_sessions d !! agent) as [ss|]; cbn.
  - by rewrite map_lookup_filter_Some.
  - rewrite lookup_empty. naive_solver.
Qed.

Lemma map_lookup_filter_key {A} (l : list string) (m : gmap string A) k :
  k ∉ l → filter (λ kv, kv.1 ∉ l) m !! k = m !! k.
Proof.
  intros Hk. rewrite map_lookup_filter. destruct (m !! k); [|done]. cbn. by rewrite option_guard_True.
Qed.

Lemma map_lookup_filter_gone {A} (l : list string) (m : gmap string A) k :
  k ∈ l → filter (λ kv, kv.1 ∉ l) m !! k = None.
Proof. intros Hk. apply map_lookup_filter_None_2. right. intros x _. tauto. Qed.

(** closing a socket hangs up the commands it opened that no other socket
    holds, and those only: each of them is forgotten (pending entry, session
    index, active session) and its agent gets one hang-up signal if it can be
    reached; every other command keeps its entries. *)
Theorem socket_close_exact link d ws d' effects c :
  cleanup_ws_sessions link d ws = (d', effects) →
  let gone := (∃ held, ws_pty_ownership d !! ws = Some held ∧ c ∈ held) ∧
              ∀ ws' held, ws' ≠ ws → ws_pty_ownership d !! ws' = Some held → c ∉ held in
  (gone → pending d' !! c = None ∧ command_to_session d' !! c = None ∧
          ∀ agent name info, agent_sessions d' agent !! name = Some info → ses_command_id info ≠ c) ∧
  (¬ gone → pending d' !! c = pending d !! c ∧ command_to_session d' !! c = command_to_session d !! c ∧
          ∀ agent name info, ses_command_id info = c →
            agent_sessions d' agent !! name = Some info ↔ agent_sessions d agent !! name = Some info) ∧
  (∀ agent msg, Sent agent msg ∈ effects ∧ msg = MsgSignal c 1 ↔
     gone ∧ msg = MsgSignal c 1 ∧ agent_id_for_command d c = Some agent ∧ accepts link agent msg = true).
Proof.
  intros Hc gone. unfold cleanup_ws_sessions in Hc.
  set (d0 := d <| ws_pty_ownership ::= delete ws |>) in *.
  set (cmds := default ∅ (ws_pty_ownership d !! ws)) in *.
  assert (gone ↔ c ∈ cmds ∖ still_held d0) as Hg.
  { rewrite elem_of_difference, still_held_spec. subst gone cmds. cbn. split.
    - intros [(held & -> & Hin) Ho]. split; [done|]. intros (ws' & h & [Hne Hw]%lookup_delete_Some & Hh).
      by eapply Ho.
    - intros [Hin Ho]. split; [destruct (ws_pty_ownership d !! ws); set_solver|].
      intros ws' h Hne Hw Hh. apply Ho. exists ws', h. by rewrite lookup_delete_ne. }
  case_bool_decide as He.
  { simplify_eq. rewrite Hg, He. split_and!; [set_solver|done|]. intros. split; set_solver. }
  destruct (hang_up_all link d0 _) as [d1 e1] eqn:Hh. simplify_eq.
  apply hang_up_all_exact in Hh as [-> Heff]; [|apply NoDup_elements]. split_and!.
  - intros Hin%Hg. split_and!; [apply map_lookup_filter_gone; set_solver..|].
    intros agent name info. rewrite (agent_sessions_filtered (cmds ∖ still_held d0) d) by done. set_solver.
  - intros Hin. rewrite Hg in Hin. split_and!; [apply map_lookup_filter_key; set_solver..|].
    intros agent name info <-. rewrite (agent_sessions_filtered (cmds ∖ still_held d0) d) by done. naive_solver.
  - intros agent msg. rewrite Heff, Hg. setoid_rewrite elem_of_elements. naive_solver.
Qed.

(** *** Reconnection *)

Lemma has_command_spec c ss : has_command c ss = true ↔ ∃ name info, ss !! name = Some info ∧ ses_command_id info = c.
Proof.
  unfold has_command. rewrite existsb_exists. split.
  - intros ([name info] & Hin & Hc%bool_decide_eq_true). exists name, info.
    split; [|done]. by apply elem_of_iter, list_elem_of_In.
  - intros (name & info & Hn & Hc). exists (name, info). split; [|by apply bool_decide_eq_true].
    by apply list_elem_of_In, elem_of_iter.
Qed.

Definition reported_name (r : ActiveSession) : string := or_default (av_session_name r) (trim (av_command_id r)).

(** The sessions of the agent after the import. *)
Lemma import_sessions now link agent l d effects n d' effects' n' :
  foldl (import_one now link agent) (d, effects, n) l = (d', effects', n') →
  NoDup (reported_name <$> l) →
  (∀ name, is_Some (agent_sessions d agent !! name) → name ∉ reported_name <$> l) →
  (∀ c, has_command c (agent_sessions d agent) = true → has_command c (agent_sessions d' agent) = true) ∧
  (∀ r, r ∈ l → trim (av_command_id r) ≠ EmptyString →
    has_command (trim (av_command_id r)) (agent_sessions d' agent) = true).
Proof.
  revert d effects n. induction l as [|r l IH]; intros d effects n Hf Hn Hd.
  { injection Hf as <- <- <-. split; [done|set_solver]. }
  cbn [foldl] in Hf. csimpl in Hn. apply NoDup_cons in Hn as [Hr Hn].
  destruct (import_one now link agent (d, effects, n) r) as [[d1 e1] n1] eqn:H1.
  assert ((∀ c, has_command c (agent_sessions d agent) = true → has_command c (agent_sessions d1 agent) = true) ∧
    (trim (av_command_id r) ≠ EmptyString → has_command (trim (av_command_id r)) (agent_sessions d1 agent) = true) ∧
    (∀ name, is_Some (agent_sessions d1 agent !! name) → name ∉ reported_name <$> l)) as (Hk & Hnew & Hd1).
  { unfold import_one in H1. case_bool_decide as Hempty.
    { simplify_eq. split_and!; [done|done|]. intros name ?%Hd. set_solver. }
    destruct (has_command (trim (av_command_id r)) (agent_sessions d agent)) eqn:Hh.
    { simplify_eq. split_and!; [done|done|]. intros name ?%Hd. set_solver. }
    assert (agent_sessions d1 agent = <[reported_name r := imported_info now r]> (agent_sessions d agent)) as ->.
    { simplify_eq. unfold agent_sessions at 1. cbn. by rewrite lookup_insert_eq. }
    split_and!.
    - intros c (name & info & Hi & Hc)%has_command_spec. apply has_command_spec. exists name, info.
      rewrite lookup_insert_ne; [done|]. intros <-. apply (Hd _ (mk_is_Some _ _ Hi)). set_solver.
    - intros _. apply has_command_spec. eexists _, (imported_info now r). by rewrite lookup_insert_eq.
    - intros name. rewrite lookup_insert_is_Some. intros [<-|[_ ?%Hd]]; [done|set_solver]. }
  edestruct IH as [Hk' Hl]; [exact Hf|done|done|]. split; [by auto|].
  intros r' [->|Hin]%elem_of_cons ?; auto.
Qed.

Lemma push_new_subset l c known :
  c ∈ known ∨ c ∈ l → c ∈ foldl push_new known l.
Proof.
  revert known. induction l as [|x l IH]; intros known Hc; cbn; [set_solver|]. apply IH.
  unfold push_new. case_bool_decide; set_solver.
Qed.

(** an agent the server knows nothing of, as after a restart of the
    server, has every session it reports adopted before the reconciliation, so
    the answer keeps them all and kills none; the comment in
    [reconcile_sessions] has the server tell the agent to kill them. *)
Theorem report_adopts_all now link d agent reported d' effects verdict :
  agent_sessions d agent = ∅ →
  NoDup (reported_name <$> reported) →
  (∀ r, r ∈ reported → trim (av_command_id r) = av_command_id r ∧ av_command_id r ≠ EmptyString) →
  session_report now link d agent reported = (d', effects, verdict) →
  verdict = (av_command_id <$> reported, [], false).
Proof.
  unfold session_report, import_reported_sessions. intros He Hn Ht Hr.
  destruct (foldl _ _ reported) as [[d1 e1] n] eqn:Hf. simplify_eq.
  apply import_sessions in Hf as [_ Hk]; [|done|].
  2:{ intros name Hs. unfold agent_sessions in Hs at 1. cbn in Hs. rewrite lookup_insert_eq in Hs.
      cbn in Hs. rewrite He in Hs. by destruct Hs. }
  assert (∀ c, c ∈ (av_command_id <$> reported : list string) → c ∈ get_known_command_ids d' agent) as Hknown.
  { intros c (r & -> & Hin)%list_elem_of_fmap. destruct (Ht r Hin) as [Hr He'].
    specialize (Hk r Hin). rewrite Hr in Hk. specialize (Hk He').
    apply has_command_spec in Hk as (name & info & Hi & <-). apply push_new_subset. right.
    apply list_elem_of_fmap. exists info. split; [done|]. unfold get_active_sessions.
    apply list_elem_of_fmap. exists (name, info). split; [done|by apply elem_of_iter]. }
  unfold reconcile_sessions. f_equal; [f_equal|].
  - by apply filter_all, Forall_forall.
  - apply elem_of_nil_inv. intros c [Hc Hin]%list_elem_of_filter. by apply Hc, Hknown.
  - apply andb_false_iff. destruct reported as [|r l]; [by right|]. left. apply bool_decide_eq_false.
    intros Hnil. specialize (Hknown (av_command_id r)). rewrite Hnil in Hknown. set_solver.
Qed.

(** *** Interleaved results and missions *)

Lemma handle_result_pending d r : pending (handle_result d r).1 !! rs_command_id r = None.
Proof.
  unfold handle_result. set (d1 := d <| command_to_session ::= _ |>).
  destruct (match command_to_session d !! rs_command_id r with Some _ => _ | None => (d1, []) end) as [d2 ended].
  destruct (pending (remove_active_session_by_command _ _) !! _) eqn:Hp; cbn; [apply lookup_delete_eq|done].
Qed.

Lemma handle_result_completes d r d' effects :
  is_Some (pending d !! rs_command_id r) → handle_result d r = (d', effects) → Completed (rs_command_id r) r ∈ effects.
Proof.
  intros Hsome. unfold handle_result. set (d1 := d <| command_to_session ::= _ |>).
  destruct (match command_to_session d !! rs_command_id r with Some _ => _ | None => (d1, []) end)
    as [d2 ended] eqn:He.
  assert (Hp : pending d2 = pending d).
  { destruct (command_to_session d !! _) as [sid|]; [|by simplify_eq].
    destruct (session_agent d1 _) as [agent|]; [|by simplify_eq].
    pose proof (end_translation_pending d1 agent sid (Some (rs_exit_code r)) false) as H1. rewrite He in H1. done. }
  clear He. rewrite remove_active_pending, Hp. destruct Hsome as [p ->]. intros; simplify_eq.
  rewrite !elem_of_app. right. right. right. right. by left.
Qed.

(** a session whose process ends before [create_session] has recorded it
    stays in the inventory for good: nothing is pending for it, and a later
    request for an interactive or background session of that name is answered
    with the dead command and starts nothing. *)
Theorem early_exit_leaves_ghost now link d c sid agent name ty command args dir env cols rows supplied
    d1 e1 cr r now' d3 e3 outcome :
  create_begin now link d c sid agent name ty command args dir env cols rows supplied = (d1, e1, CreateSend cr) →
  rs_command_id r = c →
  create_finish now' (handle_result d1 r).1 cr true = (d3, e3, outcome) →
  pending d3 !! c = None ∧
  ∀ now2 c2 sid2 ty2 command2 args2 dir2 env2 cols2 rows2 supplied2,
    ty2 ≠ Headless →
    create_session_with_env_and_id now2 link d3 c2 sid2 agent name ty2 command2 args2 dir2 env2 cols2 rows2
      supplied2 = (d3, [], Ok c).
Proof.
  intros Hb Hr Hf.
  assert (connected link agent = true ∧ cg_agent_id cr = agent ∧ ses_name (cg_info cr) = name ∧
    ses_command_id (cg_info cr) = c) as (Hcon & Ha & Hnm & Hc).
  { unfold create_begin in Hb. destruct (connected link agent); [|done]. cbn in Hb.
    destruct (agent_sessions d agent !! name) as [info|].
    - destruct (cancel _ _ _) as [[? ?] ?]. destruct ty; cbn in Hb; by simplify_eq.
    - destruct ty; cbn in Hb; by simplify_eq. }
  pose proof (handle_result_pending d1 r) as Hpend. rewrite Hr in Hpend.
  set (d2 := (handle_result d1 r).1) in *.
  assert (pending d3 = pending d2 ∧
    ∃ info, agent_sessions d3 agent !! name = Some info ∧ ses_command_id info = c) as (Hp & info & Hi & Hic).
  { unfold create_finish in Hf. cbn [negb] in Hf. subst agent name c.
    set (info := (cg_info cr) <| ses_created_at := now' |>) in Hf.
    assert (∀ x y, active_sessions x = active_sessions (insert_session d2 (cg_agent_id cr) y) →
      agent_sessions x (cg_agent_id cr) !! ses_name y = Some y) as Hlook.
    { intros x y Hx. unfold agent_sessions. rewrite Hx. cbn. rewrite lookup_insert_eq. cbn. apply lookup_insert_eq. }
    destruct (wi_aiwg _); unfold mission_started in Hf; repeat case_match; simplify_eq; (split; [done|]);
      (exists info; split; [apply (Hlook _ info); reflexivity|exact Hc]). }
  rewrite Hp. split; [done|]. intros. unfold create_session_with_env_and_id, create_begin.
  rewrite Hcon, Hi. cbn. destruct ty2; [by rewrite Hic|done|by rewrite Hic].
Qed.

Lemma remove_active_missions d c : missions (remove_active_session_by_command d c) = missions d.
Proof. unfold remove_active_session_by_command. by repeat case_match. Qed.

Lemma find_by_session_None d sid :
  find_by_session d sid = None ↔ ∀ id m, missions d !! id = Some m → mi_pty_session_id m ≠ Some sid.
Proof.
  unfold find_by_session. rewrite fmap_None, find_first_None. split.
  - intros Hn id m Hm He. specialize (Hn (id, m)). rewrite elem_of_iter in Hn. specialize (Hn Hm).
    by rewrite bool_decide_true in Hn.
  - intros Hn [id m] Hm%elem_of_iter. apply bool_decide_eq_false. by eapply Hn.
Qed.

(** A result of a session no mission is bound to changes no mission. *)
Lemma result_keeps_missions d r sid :
  command_to_session d !! rs_command_id r = Some sid → find_by_session d sid = None →
  missions (handle_result d r).1 = missions d ∧ ∀ e, EmittedExecutor e ∉ (handle_result d r).2.
Proof.
  intros Hs Hf. unfold handle_result. rewrite Hs. set (d1 := d <| command_to_session ::= _ |>).
  assert (find_by_session d1 sid = None) as Hf1 by done.
  destruct (match session_agent d1 _ with Some _ => _ | None => _ end) as [d2 ended] eqn:He.
  assert (missions d2 = missions d ∧ ∀ e, EmittedExecutor e ∉ ended) as [Hm Hn].
  { destruct (session_agent d1 _) as [a|]; [|simplify_eq; set_solver].
    unfold emit_session_end_with_translation, emit_agent_sessions in He. rewrite Hf1 in He.
    repeat case_match; simplify_eq; set_solver. }
  assert (∀ l, (∀ e, EmittedExecutor e ∉ l) → ∀ e, EmittedExecutor e ∉
    (if wi_observer (wiring d) then [ObserverResult r] else []) ++
    (if wi_registry (wiring d1) then [RegistryClose sid (rs_exit_code r)] else []) ++ ended ++ l) as Heff.
  { intros l Hl e. destruct (wi_observer _), (wi_registry _); set_solver. }
  destruct (pending (remove_active_session_by_command _ _) !! _); cbn; rewrite remove_active_missions, Hm.
  - split; [done|]. apply Heff. set_solver.
  - split; [done|]. intros e. specialize (Heff [] ltac:(set_solver) e). by rewrite app_nil_r in Heff.
Qed.

(** A background session that is started and has no mission of its own. *)
Lemma create_background now link d c sid agent name command args dir env cols rows d' effects outcome :
  create_session_with_env_and_id now link d c sid agent name Background command args dir env cols rows None
    = (d', effects, outcome) →
  find_by_session d sid = None →
  (∃ a m, Sent a m ∈ effects) →
  missions d' = missions d ∧ command_to_session d' !! c = Some sid ∧ outcome = Ok c.
Proof.
  unfold create_session_with_env_and_id, create_begin. intros Hc Hf (a & m & Hsent).
  destruct (connected link agent); cbn in Hc; [|simplify_eq; set_solver].
  destruct (agent_sessions d agent !! name); cbn in Hc; [simplify_eq; set_solver|].
  unfold create_finish, mission_started in Hc. cbn in Hc.
  destruct (accepts link agent _); cbn in Hc; [|simplify_eq; set_solver].
  match type of Hc with context[find_by_session ?x sid] =>
    assert (find_by_session x sid = None) as Hf1 by done; rewrite Hf1 in Hc end.
  repeat case_match; simplify_eq; cbn; (split_and!; [done|apply lookup_insert_eq|done]).
Qed.

(** a mission is bound to the id of the command that runs it, while the
    end of a session is looked up by session id.  So when the session of a
    dispatched mission ends, with whatever exit code, the mission stays
    assigned and no event is sent about it. *)
Theorem mission_result_lost now link d first c sid hint req d' effects r :
  dispatch_mission now link d true first c sid hint req = (d', effects, Some 202) →
  (∃ agent msg, Sent agent msg ∈ effects) →
  sid ≠ c → find_by_session d sid = None → rs_command_id r = c →
  (∃ m, missions (handle_result d' r).1 !! mr_mission_id req = Some m ∧ mi_state m = MAssigned) ∧
  ∀ e, EmittedExecutor e ∉ (handle_result d' r).2.
Proof.
  intros Hd Hs Hne Hf Hr. unfold dispatch_mission in Hd.
  destruct (wi_aiwg (wiring d)) as [ex|]; [|done]. cbn in Hd. case_bool_decide; [done|].
  match type of Hd with match ?x with Err _ => _ | Ok _ => _ end = _ => destruct x as [agent|] end; [|simplify_eq; set_solver].
  destruct (wi_missions (wiring d)); cbn in Hd; [|done].
  destruct (mission_prefix (mr_mission_id req)) as [prefix|]; [|done].
  set (d0 := d <| missions ::= <[mr_mission_id req := new_mission req]> |>) in Hd.
  destruct (create_session_with_env_and_id _ _ _ _ _ _ _ _ _ _ _ _ _ _ _) as [[d1 e1] outcome] eqn:Hc.
  assert (find_by_session d0 sid = None) as Hf0.
  { apply find_by_session_None. intros id m. cbn. rewrite lookup_insert_Some.
    intros [[_ <-]|[_ Hm]]; [done|]. by eapply find_by_session_None. }
  assert (outcome = Ok c ∧ missions d1 = missions d0 ∧ command_to_session d1 !! c = Some sid) as (-> & Hm & Hcs).
  { apply create_background in Hc as (? & ? & ?); [done|done|].
    destruct Hs as (a & m & Hs). exists a, m. repeat case_match; simplify_eq; set_solver. }
  injection Hd as <- <-.
  edestruct (result_keeps_missions (set_pty_session d1 (mr_mission_id req) c) r sid) as [Hk He].
  { by rewrite Hr. }
  { apply find_by_session_None. intros id m. cbn. rewrite Hm, lookup_alter_Some.
    intros [(<- & m' & Hm' & ->)|[_ Hm']]; [cbn; congruence|]. by eapply find_by_session_None. }
  split; [|done]. rewrite Hk. cbn. rewrite Hm. cbn. rewrite lookup_alter_eq, lookup_insert_eq. by eexists.
Qed.
End runs.

(** ** Concrete runs *)

Definition sample_link : Link := {| connected _ := true; accepts _ _ := true; registered _ := false |}.
Definition sample_dispatcher : Dispatcher :=
  {| pending := ∅; active_sessions := ∅; command_to_session := ∅; session_working_dirs := ∅;
     ws_pty_ownership := ∅; missions := ∅;
     wiring := {| wi_observer := true; wi_registry := true; wi_aiwg := Some (Some "ex"); wi_missions := true |} |}.
Definition sample_result (c : string) : CommandResult :=
  {| rs_command_id := c; rs_exit_code := 0; rs_success := true; rs_error := EmptyString; rs_duration_ms := 5 |}.

(** One command, dispatched to agent "a". *)
Definition sample_dispatched : Dispatcher :=
  (dispatch 0 sample_link sample_dispatcher "c1" "a" "ls" [] EmptyString ∅ 30).1.1.

Lemma completed_at_most_once_witness :
  ∃ used d log, run used d log ∧ completions log = ["c1"] ∧
    NoDup (completions log) ∧ (∀ c, c ∈ completions log → c ∈ used ∧ pending d !! c = None).
Proof.
  assert (run ∅ sample_dispatcher []) as H0 by apply run_start.
  pose proof (run_call _ _ _ _ _ _ H0 (c_dispatch ∅ _ 0 sample_link "c1" "a" "ls" [] EmptyString ∅ 30
    _ _ _ (not_elem_of_empty _) eq_refl)) as H1.
  pose proof (run_call _ _ _ _ _ _ H1 (c_result _ _ (sample_result "c1") _ _ (surjective_pairing _))) as H2.
  pose proof (run_call _ _ _ _ _ _ H2 (c_result _ _ (sample_result "c1") _ _ (surjective_pairing _))) as H3.
  eexists _, _, _. split; [exact H3|]. split; [vm_compute; reflexivity|].
  exact (completed_at_most_once _ _ _ H3).
Defined.

Lemma agent_cleanup_complete_witness :
  ∃ d' effects, cleanup_agent 7000000 sample_dispatched "a" = (d', effects) ∧
    completions effects = ["c1"] ∧ pending d' = ∅.
Proof.
  eexists _, _. split; [apply surjective_pairing|]. split; [vm_compute; reflexivity|].
  destruct (agent_cleanup_complete 7000000 sample_dispatched "a" _ _ (surjective_pairing _)) as (_ & _ & -> & _).
  vm_compute. reflexivity.
Defined.

(** A shell opened over two sockets, and another over one of them. *)
Definition sample_shared : Dispatcher :=
  let d := (dispatch_shell 0 sample_link sample_dispatcher "c1" "s1" "a" (Some "one") 80 24 (Some "w1")).1.1 in
  let d := (dispatch_shell 0 sample_link d "c2" "s2" "a" (Some "two") 80 24 (Some "w1")).1.1 in
  (dispatch_shell 0 sample_link d "c3" "s3" "a" (Some "two") 80 24 (Some "w2")).1.1.

Lemma socket_close_exact_witness :
  ∃ d' effects, cleanup_ws_sessions sample_link sample_shared "w1" = (d', effects) ∧
    Sent "a" (MsgSignal "c1" 1) ∈ effects ∧ pending d' !! "c1" = None ∧
    pending d' !! "c2" = pending sample_shared !! "c2".
Proof.
  assert (ws_pty_ownership sample_shared = <["w1" := {["c1"; "c2"]}]> {["w2" := {["c2"]}]}) as Hw
    by (vm_compute; reflexivity).
  destruct (cleanup_ws_sessions sample_link sample_shared "w1") as [d' effects] eqn:Hc.
  exists d', effects. split; [done|].
  destruct (socket_close_exact sample_link sample_shared "w1" d' effects "c1" Hc) as (Hg & _ & Hs).
  destruct (socket_close_exact sample_link sample_shared "w1" d' effects "c2" Hc) as (_ & Hk & _).
  rewrite Hw in Hg, Hs, Hk.
  match type of Hg with ?P → _ => assert P as Hgone end.
  { split; [eexists; split; [reflexivity|set_solver]|]. intros ws' held Hne.
    rewrite lookup_insert_ne, lookup_singleton_Some by done. intros [_ <-]. by rewrite elem_of_singleton. }
  clear Hw. split_and!.
  - apply (Hs "a" (MsgSignal "c1" 1)). split; [exact Hgone|]. split; [reflexivity|]. split; [vm_compute; reflexivity|reflexivity].
  - apply Hg, Hgone.
  - apply Hk. intros [_ Ho]. apply (Ho "w2" {["c2"]}); [done|reflexivity|by apply elem_of_singleton].
Defined.

Definition sample_report : list ActiveSession :=
  [{| av_command_id := "c7"; av_session_id := "s7"; av_session_name := "main"; av_session_type := 1;
      av_command := "bash" |};
   {| av_command_id := "c8"; av_session_id := EmptyString; av_session_name := EmptyString;
      av_session_type := 3; av_command := EmptyString |}].

Lemma report_adopts_all_witness :
  (session_report 0 sample_link sample_dispatcher "a" sample_report).2 = (["c7"; "c8"], [], false).
Proof.
  destruct (session_report 0 sample_link sample_dispatcher "a" sample_report) as [[d' e] v] eqn:Hr.
  apply (report_adopts_all 0 sample_link sample_dispatcher "a" sample_report d' e v);
    [reflexivity|by apply (bool_decide_unpack _); vm_compute| |done].
  unfold sample_report. intros r [->|[->|[]%elem_of_nil]%elem_of_cons]%elem_of_cons;
    (split; [vm_compute; reflexivity|discriminate]).
Defined.

Lemma early_exit_leaves_ghost_witness :
  ∃ d1 cr, create_begin 0 sample_link sample_dispatcher "c1" "s1" "a" "main" Interactive "nope" [] None ∅ 80 24
      None = (d1, [], CreateSend cr) ∧
    let d3 := (create_finish 9 (handle_result d1 (sample_result "c1")).1 cr true).1.1 in
    pending d3 !! "c1" = None ∧
    create_session_with_env_and_id 10 sample_link d3 "c2" "s2" "a" "main" Interactive "bash" [] None ∅ 80 24 None
      = (d3, [], Ok "c1").
Proof.
  destruct (create_begin 0 sample_link sample_dispatcher "c1" "s1" "a" "main" Interactive "nope" [] None ∅ 80 24
    None) as [[d1 e1] [outcome|cr]] eqn:Hb; [discriminate|].
  pose proof (f_equal (λ x, x.1.2) Hb) as He. vm_compute in He. subst e1.
  exists d1, cr. split; [reflexivity|].
  destruct (create_finish 9 (handle_result d1 (sample_result "c1")).1 cr true) as [[d3 e3] outcome] eqn:Hf.
  destruct (early_exit_leaves_ghost _ _ _ _ _ _ _ _ _ _ _ _ _ _ _ _ _ _ (sample_result "c1") _ _ _ _
    Hb eq_refl Hf) as [Hp Hc].
  split; [exact Hp|]. by apply Hc.
Defined.

Definition sample_mission : MissionRequest :=
  {| mr_mission_id := "mission-0001"; mr_objective := "make test"; mr_completion := "tests pass"; mr_agent_id := None |}.

Lemma mission_result_lost_witness :
  ∃ d' effects, dispatch_mission 0 sample_link sample_dispatcher true (Some "a") "c1" "s1" "h" sample_mission
      = (d', effects, Some 202) ∧
    ∃ m, missions (handle_result d' (sample_result "c1")).1 !! "mission-0001" = Some m ∧ mi_state m = MAssigned.
Proof.
  destruct (dispatch_mission 0 sample_link sample_dispatcher true (Some "a") "c1" "s1" "h" sample_mission)
    as [[d' effects] status] eqn:Hd.
  pose proof Hd as Hv. vm_compute in Hv. injection Hv as _ He Hst. subst status. exists d', effects. split; [done|].
  eapply (mission_result_lost 0 sample_link sample_dispatcher (Some "a") "c1" "s1" "h" sample_mission d' effects
    (sample_result "c1") Hd); [|done|reflexivity|reflexivity].
  subst effects. eexists _, _. right. left.
Defined.
