(* ===== verification/Replay.v ===== *)
(** * Session frames and the replay buffer

    Models management/src/session/mod.rs (roles, frames, payloads) and
    management/src/session/replay.rs (the bounded ring of recent frames).
    Raw PTY bytes are strings; the base64 text of the [base64] crate is the
    operation of the class [Base64].  A sequence number is the [u64] the
    session drew for the frame.  The eviction loop of [push_entry] pops the
    front on every round, so it is a structural recursion on the ring. *)

From S2P Require Import Prelude.

Local Open Scope string_scope.
Local Open Scope list_scope.
Local Open Scope Z_scope.

Class Base64 : Type := { b64_encode : string → string }.
#[local] Instance sample_base64 : Base64 := {| b64_encode := λ s, s |}.

(** ** Frames *)

Inductive Role : Type := Controller | Observer.
#[export] Instance Role_eq_dec : EqDecision Role.
Proof. solve_decision. Defined.

Definition role_from_str (s : string) : Role :=
  if decide (s = "controller") then Controller else Observer.
Definition role_to_string (r : Role) : string :=
  match r with Controller => "controller" | Observer => "observer" end.

Inductive StreamKind : Type := Stdout | Stderr | Log.
#[export] Instance StreamKind_eq_dec : EqDecision StreamKind.
Proof. solve_decision. Defined.

Module Payload.
Inductive SessionPayload : Type :=
| Output (stream : StreamKind) (data : string)
| Keyframe (stream : StreamKind) (data : string)
| Resize (cols rows : Z)
| RoleAssigned (role : Role)
| MembershipChanged (controllers observers : list string)
| Closed (exit_code : option Z)
| Error (message : string).
End Payload.
Abbreviation SessionPayload := Payload.SessionPayload.

Record SessionFrame : Type := {
  frame_session_id : string;
  frame_seq : Z;
  frame_ts : Z;
  frame_payload : SessionPayload;
}.

(** ** The ring *)

Definition DEFAULT_VISIBLE_ROWS : Z := 24.
Definition DEFAULT_VISIBLE_COLS : Z := 80.
Definition DEFAULT_HOT_SCREENS : Z := 3.
Definition DEFAULT_MAX_FRAMES : Z := DEFAULT_VISIBLE_ROWS * DEFAULT_HOT_SCREENS.
Definition DEFAULT_MAX_BYTES : Z :=
  DEFAULT_VISIBLE_ROWS * DEFAULT_VISIBLE_COLS * DEFAULT_HOT_SCREENS * 4.

Module Ring.
Inductive RingEntryKind : Type :=
| Output (stream : StreamKind) (data : string)
| Keyframe (stream : StreamKind) (data : string)
| Control (payload : SessionPayload).
End Ring.
Abbreviation RingEntryKind := Ring.RingEntryKind.

Record RingEntry : Type := {
  entry_seq : Z;
  entry_ts : Z;
  entry_kind : RingEntryKind;
}.

Definition to_wire `{Base64} (e : RingEntry) (session_id : string) : SessionFrame :=
  {| frame_session_id := session_id;
     frame_seq := entry_seq e;
     frame_ts := entry_ts e;
     frame_payload :=
       match entry_kind e with
       | Ring.Output stream data => Payload.Output stream (b64_encode data)
       | Ring.Keyframe stream data => Payload.Keyframe stream (b64_encode data)
       | Ring.Control p => p
       end |}.

Definition cost_bytes (e : RingEntry) : Z :=
  match entry_kind e with
  | Ring.Output _ data | Ring.Keyframe _ data => str_len data
  | Ring.Control _ => 64
  end.

Record ReplayBuffer : Type := {
  frames : list RingEntry;
  max_frames : Z;
  max_bytes : Z;
  total_bytes : Z;
  evicted_frames_total : Z;
  evicted_bytes_total : Z;
  last_keyframe_seq : option Z;
}.

Definition with_byte_cap (max_frames max_bytes : Z) : ReplayBuffer :=
  {| frames := []; max_frames := max_frames; max_bytes := max_bytes; total_bytes := 0;
     evicted_frames_total := 0; evicted_bytes_total := 0; last_keyframe_seq := None |}.

Definition buffer_new (max_frames : Z) : ReplayBuffer :=
  with_byte_cap max_frames DEFAULT_MAX_BYTES.

(** One round of the loop body: the front [e] leaves, [rest] stays. *)
Definition evict_front (b : ReplayBuffer) (e : RingEntry) (rest : list RingEntry) : ReplayBuffer :=
  b <| frames := rest |>
    <| total_bytes := sat_sub (total_bytes b) (cost_bytes e) |>
    <| evicted_frames_total := sat_add u64_max (evicted_frames_total b) 1 |>
    <| evicted_bytes_total := sat_add u64_max (evicted_bytes_total b) (cost_bytes e) |>
    <| last_keyframe_seq := if decide (last_keyframe_seq b = Some (entry_seq e))
                            then None else last_keyframe_seq b |>.

(** The loop condition. *)
Definition must_evict (b : ReplayBuffer) (fs : list RingEntry) (cost : Z) : bool :=
  (max_frames b <=? len fs)
  || ((max_bytes b <? total_bytes b + cost) && negb (bool_decide (fs = []))).

Fixpoint evict_loop (fs : list RingEntry) (cost : Z) (b : ReplayBuffer)
  : ReplayBuffer * list RingEntry :=
  match fs with
  | [] => (b, [])
  | e :: rest =>
      if must_evict b fs cost then
        let (b', evicted) := evict_loop rest cost (evict_front b e rest) in
        (b', e :: evicted)
      else (b, [])
  end.

Definition push_entry (b : ReplayBuffer) (e : RingEntry) : ReplayBuffer * list RingEntry :=
  let (b', evicted) := evict_loop (frames b) (cost_bytes e) b in
  (b' <| frames := frames b' ++ [e] |> <| total_bytes := total_bytes b' + cost_bytes e |>, evicted).

Definition push_output (b : ReplayBuffer) (seq ts : Z) (stream : StreamKind) (data : string)
  : ReplayBuffer * list RingEntry :=
  push_entry b {| entry_seq := seq; entry_ts := ts; entry_kind := Ring.Output stream data |}.

Definition push_keyframe (b : ReplayBuffer) (seq ts : Z) (stream : StreamKind) (data : string)
  : ReplayBuffer * list RingEntry :=
  let (b', evicted) :=
    push_entry b {| entry_seq := seq; entry_ts := ts; entry_kind := Ring.Keyframe stream data |} in
  (b' <| last_keyframe_seq := Some seq |>, evicted).

Definition push_control (b : ReplayBuffer) (seq ts : Z) (payload : SessionPayload)
  : ReplayBuffer * list RingEntry :=
  push_entry b {| entry_seq := seq; entry_ts := ts; entry_kind := Ring.Control payload |}.

Definition frames_from (b : ReplayBuffer) (from_seq : Z) : list RingEntry :=
  filter (λ f, from_seq <= entry_seq f) (frames b).
Definition all_frames (b : ReplayBuffer) : list RingEntry := frames b.
Definition oldest_seq (b : ReplayBuffer) : option Z := entry_seq <$> head (frames b).
Definition newest_seq (b : ReplayBuffer) : option Z := entry_seq <$> last (frames b).
Definition buffer_len (b : ReplayBuffer) : Z := len (frames b).

(** ** Specification

    The abstract state of a buffer is the log of everything pushed, split
    into what was handed out as evicted and what is still in the ring. *)

Definition is_keyframe (e : RingEntry) : bool :=
  match entry_kind e with Ring.Keyframe _ _ => true | _ => false end.

(** The sequence number of the last keyframe of a list. *)
Definition last_keyframe (fs : list RingEntry) : option Z :=
  entry_seq <$> last (filter (λ e, is_keyframe e = true) fs).

(** The push the three public operations perform. *)
Definition push (b : ReplayBuffer) (e : RingEntry) : ReplayBuffer * list RingEntry :=
  match entry_kind e with
  | Ring.Output stream data => push_output b (entry_seq e) (entry_ts e) stream data
  | Ring.Keyframe stream data => push_keyframe b (entry_seq e) (entry_ts e) stream data
  | Ring.Control p => push_control b (entry_seq e) (entry_ts e) p
  end.

(** A sequence of pushes, with all the frames they evicted, in order. *)
Fixpoint push_all (b : ReplayBuffer) (es : list RingEntry) : ReplayBuffer * list RingEntry :=
  match es with
  | [] => (b, [])
  | e :: es' =>
      let (b1, evicted) := push b e in
      let (b2, evicted') := push_all b1 es' in
      (b2, evicted ++ evicted')
  end.

(** Sequence numbers are drawn in increasing order. *)
Definition seq_lt (x y : RingEntry) : Prop := entry_seq x < entry_seq y.

(** ** Lemmas *)

Lemma cost_bytes_nonneg e : 0 <= cost_bytes e.
Proof. unfold cost_bytes, str_len. destruct (entry_kind e); lia. Qed.

Record ring_inv (b : ReplayBuffer) : Prop := {
  ri_bytes : total_bytes b = sum_with cost_bytes (frames b);
  ri_sorted : StronglySorted seq_lt (frames b);
  ri_keyframe : last_keyframe_seq b = last_keyframe (frames b);
}.

Lemma last_keyframe_cons e fs :
  last_keyframe (e :: fs) =
  match last_keyframe fs with
  | Some s => Some s
  | None => if is_keyframe e then Some (entry_seq e) else None
  end.
Proof.
  unfold last_keyframe. rewrite filter_cons.
  destruct (is_keyframe e) eqn:Hk; case_decide; try congruence.
  - rewrite last_cons. by destruct (last _).
  - by destruct (last _).
Qed.

Lemma last_keyframe_app fs e :
  last_keyframe (fs ++ [e]) =
  if is_keyframe e then Some (entry_seq e) else last_keyframe fs.
Proof.
  unfold last_keyframe. rewrite filter_app, filter_cons, filter_nil.
  destruct (is_keyframe e) eqn:Hk; case_decide; try congruence.
  - by rewrite last_snoc.
  - by rewrite app_nil_r.
Qed.

Lemma last_keyframe_elem fs s :
  last_keyframe fs = Some s → ∃ e, e ∈ fs ∧ is_keyframe e = true ∧ entry_seq e = s.
Proof.
  unfold last_keyframe. intros (e & He & ->)%fmap_Some. apply last_Some_elem_of in He.
  apply list_elem_of_filter in He as [??]. eauto.
Qed.

Lemma evict_front_inv b e rest :
  ring_inv b → frames b = e :: rest → ring_inv (evict_front b e rest).
Proof.
  intros [Hb Hs Hk] Hf. rewrite Hf in *. apply StronglySorted_inv in Hs as [Hs He].
  constructor; simpl; [|done|].
  - simpl in Hb. unfold sat_sub. pose proof (sum_with_nonneg cost_bytes rest cost_bytes_nonneg). lia.
  - rewrite Hk, last_keyframe_cons. destruct (last_keyframe rest) as [s|] eqn:Hr.
    + rewrite decide_False; [done|]. intros [= ->].
      apply last_keyframe_elem in Hr as (x & Hx & _ & Hseq).
      rewrite Forall_forall in He. specialize (He x Hx). unfold seq_lt in He. lia.
    + destruct (is_keyframe e); by case_decide.
Qed.

(** What the loop guarantees when it stops. *)
Lemma evict_loop_spec fs cost b b' evicted :
  frames b = fs → ring_inv b → evict_loop fs cost b = (b', evicted) →
  ring_inv b' ∧ fs = evicted ++ frames b' ∧ max_frames b' = max_frames b ∧
  max_bytes b' = max_bytes b ∧
  (frames b' = [] ∨
   len (frames b') < max_frames b ∧ total_bytes b' + cost <= max_bytes b) ∧
  evicted_frames_total b' <= evicted_frames_total b + len evicted.
Proof.
  revert b b' evicted. induction fs as [|e rest IH]; intros b b' evicted Hf Hinv; simpl.
  { intros [= <- <-]. simpl. split_and!; try done; [by left|]. unfold len. simpl. lia. }
  destruct (must_evict b (e :: rest) cost) eqn:Hm.
  - destruct (evict_loop rest cost (evict_front b e rest)) as [b1 ev] eqn:Hl. intros [= <- <-].
    destruct (IH (evict_front b e rest) b1 ev eq_refl (evict_front_inv b e rest Hinv Hf) Hl)
      as (Hi & Hr & Hmf & Hmb & Hstop & Hev). simpl in *.
    split_and!; try done.
    + by rewrite Hr at 1.
    + rewrite len_cons. unfold sat_add in Hev. lia.
  - intros [= <- <-]. rewrite Hf. split_and!; try done.
    + right. unfold must_evict in Hm. apply orb_false_iff in Hm as [Hm1 Hm2].
      rewrite bool_decide_eq_false_2 in Hm2 by done. simpl in Hm2. rewrite andb_true_r in Hm2.
      reflect_bools. lia.
    + unfold len. simpl. lia.
Qed.

(** The frame cap holds after a push, whatever the sequence numbers. *)
Lemma evict_loop_len fs cost b :
  frames b = fs →
  max_frames (evict_loop fs cost b).1 = max_frames b ∧
  (frames (evict_loop fs cost b).1 = [] ∨ len (frames (evict_loop fs cost b).1) < max_frames b).
Proof.
  revert b. induction fs as [|e rest IH]; intros b Hf; simpl; [auto|].
  destruct (must_evict b (e :: rest) cost) eqn:Hm.
  - destruct (IH (evict_front b e rest) eq_refl) as [Hmax Hl].
    by destruct (evict_loop rest cost (evict_front b e rest)).
  - split; [done|right]. unfold must_evict in Hm. apply orb_false_iff in Hm as [Hm _].
    reflect_bools. simpl. by rewrite Hf.
Qed.

Lemma push_len b e :
  1 <= max_frames b →
  max_frames (push b e).1 = max_frames b ∧ len (frames (push b e).1) <= max_frames b.
Proof.
  intros Hmf. destruct (evict_loop_len (frames b) (cost_bytes e) b eq_refl) as [Hm Hl].
  unfold push, push_output, push_keyframe, push_control, push_entry.
  destruct e as [sq ts []]; simpl in *; unfold cost_bytes in *; simpl in *;
    destruct (evict_loop _ _ _) as [b1 ev]; simpl in *; rewrite len_app, len_cons, len_nil;
    (split; [done|]); destruct Hl as [->|]; rewrite ?len_nil; lia.
Qed.

Lemma sorted_snoc (fs : list RingEntry) e :
  StronglySorted seq_lt fs → (∀ x, x ∈ fs → seq_lt x e) → StronglySorted seq_lt (fs ++ [e]).
Proof.
  intros Hs Hlt. apply StronglySorted_app_2; [|done|by repeat constructor].
  intros x y Hx Hy%list_elem_of_singleton. subst. auto.
Qed.

(** One push: what leaves is a prefix of the ring, what stays is within the
    bounds, and the keyframe pointer is right. *)
Lemma push_spec b e b' evicted :
  ring_inv b → 1 <= max_frames b → (∀ x, x ∈ frames b → entry_seq x < entry_seq e) →
  push b e = (b', evicted) →
  ring_inv b' ∧ frames b ++ [e] = evicted ++ frames b' ∧
  max_frames b' = max_frames b ∧ max_bytes b' = max_bytes b ∧
  len (frames b') <= max_frames b ∧
  (total_bytes b' <= max_bytes b ∨ frames b' = [e]) ∧ last (frames b') = Some e.
Proof.
  intros Hinv Hmf Hlt Hpush.
  destruct (evict_loop (frames b) (cost_bytes e) b) as [b1 ev] eqn:Hl.
  destruct (evict_loop_spec _ _ _ _ _ eq_refl Hinv Hl) as (Hi & Hsplit & Hm1 & Hm2 & Hstop & _).
  destruct Hi as [Hb Hs Hk].
  assert (Hfr : frames b' = frames b1 ++ [e] ∧ total_bytes b' = total_bytes b1 + cost_bytes e ∧
    max_frames b' = max_frames b1 ∧ max_bytes b' = max_bytes b1 ∧ evicted = ev ∧
    last_keyframe_seq b' =
      if is_keyframe e then Some (entry_seq e) else last_keyframe_seq b1).
  { unfold push, push_output, push_keyframe, push_control, push_entry, is_keyframe,
      cost_bytes in *. destruct e as [sq ts []]; simpl in *; rewrite Hl in Hpush; by simplify_eq/=. }
  destruct Hfr as (Hfr & Htot & Hmf' & Hmb' & -> & Hkf).
  assert (∀ x, x ∈ frames b1 → seq_lt x e) as Hlt1.
  { intros x Hx. apply Hlt. rewrite Hsplit. set_solver. }
  split_and!; try congruence.
  - constructor.
    + rewrite Htot, Hfr, sum_with_app, Hb. simpl. lia.
    + rewrite Hfr. by apply sorted_snoc.
    + by rewrite Hkf, Hfr, last_keyframe_app, Hk.
  - by rewrite Hfr, Hsplit, (assoc_L app).
  - rewrite Hfr, len_app, len_cons, len_nil. destruct Hstop as [->|[? _]]; rewrite ?len_nil; lia.
  - rewrite Htot, Hfr. destruct Hstop as [->|[_ ?]]; [by right|left; lia].
  - rewrite Hfr. apply last_snoc.
Qed.

Lemma filter_nil_iff' {A} (P : A → Prop) `{!∀ x, Decision (P x)} l :
  filter P l = [] ↔ ∀ x, x ∈ l → ¬ P x.
Proof.
  induction l as [|x l IH]; [set_solver|]. rewrite filter_cons. case_decide as Hx.
  - split; [done|]. intros Hall. destruct (Hall x); [left|done].
  - rewrite IH. setoid_rewrite elem_of_cons. naive_solver.
Qed.

(** The bounds of the ring, except that a single frame may exceed them. *)
Definition within_caps (b : ReplayBuffer) : Prop :=
  len (frames b) <= max_frames b ∧
  (total_bytes b <= max_bytes b ∨ len (frames b) <= 1).

Lemma push_all_spec es b b' gone :
  ring_inv b → 1 <= max_frames b → within_caps b →
  StronglySorted seq_lt (frames b ++ es) → push_all b es = (b', gone) →
  ring_inv b' ∧ frames b ++ es = gone ++ frames b' ∧ within_caps b' ∧
  max_frames b' = max_frames b ∧ max_bytes b' = max_bytes b.
Proof.
  revert b b' gone. induction es as [|e es IH]; intros b b' gone Hinv Hmf Hcap Hs; simpl.
  { intros [= <- <-]. by rewrite app_nil_r. }
  destruct (push b e) as [b1 ev] eqn:Hp. destruct (push_all b1 es) as [b2 ev'] eqn:Hpa.
  intros [= <- <-].
  assert (∀ x, x ∈ frames b → entry_seq x < entry_seq e) as Hlt.
  { intros x Hx. apply (StronglySorted_app_1_elem_of _ _ _ x e Hs); [done|left]. }
  destruct (push_spec b e b1 ev Hinv Hmf Hlt Hp) as (Hi & Hsp & Hm1 & Hm2 & Hlen & Htot & _).
  assert (frames b ++ e :: es = ev ++ frames b1 ++ es) as Hall.
  { rewrite (assoc_L app), <-Hsp, <-(assoc_L app). done. }
  destruct (IH b1 b2 ev') as (Hi' & Hsp' & Hcap' & Hm1' & Hm2'); try done; try lia.
  - split; [lia|]. destruct Htot as [?| ->]; [left; lia|right; done].
  - rewrite Hall in Hs. by apply StronglySorted_app_1_r in Hs.
  - split_and!; try done; try congruence. by rewrite Hall, Hsp', (assoc_L app).
Qed.

(** ** Theorems *)

Lemma with_byte_cap_inv mf mb : 0 <= mf → ring_inv (with_byte_cap mf mb) ∧ within_caps (with_byte_cap mf mb).
Proof.
  intros. split; [constructor; simpl; [done|constructor|done]|].
  split; simpl; [unfold len; simpl; lia|]. right. by vm_compute.
Qed.


(** Replay is complete from any retained point.  The frames replayed from
    sequence number [n] are the frames of the log from [n] on that were not
    evicted, and when [n] is not before the oldest retained frame they are
    all frames of the log from [n] on: no gap. *)
Theorem replay_from_complete mf mb es b gone n :
  1 <= mf → StronglySorted seq_lt es → push_all (with_byte_cap mf mb) es = (b, gone) →
  frames_from b n = filter (λ e, n <= entry_seq e) (drop (length gone) es) ∧
  (∀ o, oldest_seq b = Some o → o <= n →
     frames_from b n = filter (λ e, n <= entry_seq e) es).
Proof.
  intros Hmf Hs Hp. destruct (with_byte_cap_inv mf mb) as [Hi Hc]; [lia|].
  destruct (push_all_spec es _ b gone Hi Hmf Hc Hs Hp) as (_ & Hsp & _). simpl in Hsp.
  unfold frames_from. split; [by rewrite Hsp, drop_app_length|].
  intros o Ho Hle. rewrite Hsp, filter_app. rewrite Hsp in Hs.
  unfold oldest_seq in Ho. destruct (frames b) as [|f fs]; simplify_eq/=.
  rewrite (proj2 (filter_nil_iff' _ gone)); [done|].
  intros x Hx. pose proof (StronglySorted_app_1_elem_of _ _ _ x f Hs Hx ltac:(left)) as Hlt.
  unfold seq_lt in Hlt. lia.
Qed.

(** The keyframe pointer is exact: it names the last keyframe still in
    the ring (none if there is none), so a fresh joiner that starts there
    gets a keyframe first. *)
Theorem keyframe_pointer_exact mf mb es b gone :
  1 <= mf → StronglySorted seq_lt es → push_all (with_byte_cap mf mb) es = (b, gone) →
  last_keyframe_seq b = last_keyframe (frames b) ∧
  (∀ s, last_keyframe_seq b = Some s →
     ∃ e, head (frames_from b s) = Some e ∧ is_keyframe e = true ∧ entry_seq e = s).
Proof.
  intros Hmf Hs Hp. destruct (with_byte_cap_inv mf mb) as [Hi Hc]; [lia|].
  destruct (push_all_spec es _ b gone Hi Hmf Hc Hs Hp) as ([_ Hso Hk] & _). split; [done|].
  intros s. rewrite Hk. intros (e & He & Hke & <-)%last_keyframe_elem.
  exists e. split; [|done]. unfold frames_from.
  apply list_elem_of_split in He as (l1 & l2 & Hl). rewrite Hl in Hso |- *.
  rewrite filter_app, filter_cons, decide_True by lia.
  rewrite (proj2 (filter_nil_iff' _ l1)); [done|].
  intros x Hx. pose proof (StronglySorted_app_1_elem_of _ _ _ x e Hso Hx ltac:(left)) as Hlt.
  unfold seq_lt in Hlt. lia.
Qed.

(** ** A sample run: five frames of three bytes, a keyframe in the middle, in
    a ring of three frames and nine bytes. *)

Definition sample_entry (n : Z) : RingEntry :=
  {| entry_seq := n; entry_ts := 0;
     entry_kind := if decide (n = 3) then Ring.Keyframe Stdout "abc" else Ring.Output Stdout "abc" |}.
Definition sample_log : list RingEntry := sample_entry <$> [1; 2; 3; 4; 5].
Definition sample_ring : ReplayBuffer * list RingEntry := push_all (with_byte_cap 3 9) sample_log.

Lemma sample_log_sorted : StronglySorted seq_lt sample_log.
Proof. repeat constructor. Qed.


Lemma replay_from_complete_witness : frames_from sample_ring.1 4 = sample_entry <$> [4; 5].
Proof.
  apply (replay_from_complete 3 9 sample_log sample_ring.1 sample_ring.2 4) with (o := 3).
  - lia.
  - apply sample_log_sorted.
  - vm_compute. reflexivity.
  - vm_compute. reflexivity.
  - lia.
Defined.

Lemma keyframe_pointer_exact_witness :
  ∃ e, head (frames_from sample_ring.1 3) = Some e ∧ is_keyframe e = true ∧ entry_seq e = 3.
Proof.
  apply (keyframe_pointer_exact 3 9 sample_log sample_ring.1 sample_ring.2).
  - lia.
  - apply sample_log_sorted.
  - vm_compute. reflexivity.
  - vm_compute. reflexivity.
Defined.
