(* ===== verification/SessionRegistry.v ===== *)
(** * The session registry

    Models management/src/session/registry.rs: sessions, their attachments,
    the controller lease, publishing and fan-out.  A session sits behind an
    [Arc<Mutex<Session>>] that outlives its entry in the map while a publish
    holds it, so the registry maps a session id to a cell and the cells live
    in a store of their own; a [Sender] (with the lag counter created beside
    it) is likewise an identifier into a store of channels, because the map
    and the fan-out snapshots share it.

    Publishing takes the lock only to number and buffer the frame and to
    snapshot the senders, and fans out after releasing it.  The step relation
    has the two halves as separate steps, with the fan-outs in flight in the
    state, so other handlers can run in between.

    The bounded channel is tokio's: class [Mpsc] has the operations the code
    calls and the documented behaviour they have.  [redact_pty_bytes] (regular
    expressions) is the operation of class [Redaction]. *)

From S2P Require Import Prelude Replay.

Local Open Scope string_scope.
Local Open Scope list_scope.
Local Open Scope Z_scope.

(** ** What the registry uses of its libraries *)

Class Mpsc : Type := {
  mchan : Type;
  channel : Z → mchan;
  is_closed : mchan → bool;
  try_send : SessionFrame → mchan → option mchan;
  (** the frames sent and not yet received, and the bound *)
  queued : mchan → list SessionFrame;
  capacity : mchan → Z;
  channel_fresh n :
    is_closed (channel n) = false ∧ queued (channel n) = [] ∧ capacity (channel n) = n;
  try_send_room f c :
    is_closed c = false → len (queued c) < capacity c →
    ∃ c', try_send f c = Some c';
  try_send_refused f c :
    is_closed c = true ∨ capacity c <= len (queued c) → try_send f c = None;
  try_send_appends f c c' :
    try_send f c = Some c' →
    queued c' = queued c ++ [f] ∧ is_closed c' = is_closed c ∧ capacity c' = capacity c;
}.

Class Redaction : Type := { redact_pty_bytes : string → string }.

(** A concrete channel: a queue, its bound and whether the receiver is gone. *)
Record Queue : Type := { q_frames : list SessionFrame; q_cap : Z; q_closed : bool }.

#[local, refine] Instance sample_mpsc : Mpsc := {|
  mchan := Queue;
  channel := λ n, {| q_frames := []; q_cap := n; q_closed := false |};
  is_closed := q_closed;
  try_send := λ f c,
    if q_closed c || (q_cap c <=? len (q_frames c)) then None
    else Some (c <| q_frames := q_frames c ++ [f] |>);
  queued := q_frames;
  capacity := q_cap;
|}.
Proof.
  - done.
  - intros f c -> Hlen. simpl. rewrite (proj2 (Z.leb_gt _ _)) by lia. eauto.
  - intros f c [->|Hle]; [done|]. by rewrite (proj2 (Z.leb_le _ _)), orb_true_r by done.
  - intros f c c'. case_match; [done|]. by intros [= <-].
Defined.

#[local] Instance sample_redaction : Redaction := {| redact_pty_bytes := λ s, s |}.

(** ** State *)

Definition LAG_EVICT_THRESHOLD : Z := 500.
Definition CHANNEL_CAPACITY : Z := 512.

Record SessionAttachment : Type := {
  att_client_id : string;
  att_role : Role;
  att_tx : nat;
}.

Record Session : Type := {
  s_id : string;
  s_agent_id : string;
  s_command_id : string;
  s_name : option string;
  s_seq : Z;
  s_attachments : gmap string SessionAttachment;
  s_replay : ReplayBuffer;
}.

Section registry.
Context {B : Base64} {M : Mpsc} {R : Redaction}.

Record SessionRegistry : Type := {
  sessions : gmap string nat;
  cells : gmap nat Session;
  next_cell : nat;
  command_index : gmap string string;
  (** each sender with its lag counter *)
  chans : gmap nat (mchan * Z);
  next_chan : nat;
  (** what was handed to the transcript archive *)
  archived : list (string * list RingEntry);
}.

Implicit Types (r : SessionRegistry) (s : Session) (now : Z) (frame : SessionFrame).

Definition registry_new : SessionRegistry :=
  {| sessions := ∅; cells := ∅; next_cell := 0; command_index := ∅; chans := ∅; next_chan := 0;
     archived := [] |}.

Definition set_cell r (cell : nat) s : SessionRegistry := r <| cells ::= <[cell := s]> |>.

(** [att.tx.is_closed()] *)
Definition tx_closed (cs : gmap nat (mchan * Z)) (tx : nat) : bool :=
  match cs !! tx with Some (c, _) => is_closed c | None => true end.

(** ** Sessions *)

(** [make_frame] (and [next_seq], which wraps as [fetch_add] does). *)
Definition next_seq s : Session := s <| s_seq := wrap_add u64_max (s_seq s) 1 |>.
Definition make_frame now s (payload : SessionPayload) : Session * SessionFrame :=
  (next_seq s, {| frame_session_id := s_id s; frame_seq := s_seq s; frame_ts := now;
                  frame_payload := payload |}).

Definition str_le (a b : string) : Prop := String.leb a b = true.
#[local] Instance str_le_dec : RelDecision str_le.
Proof. intros a b. unfold str_le. apply _. Defined.

(** The client ids of a role, sorted. *)
Definition clients_with (role : Role) (atts : gmap string SessionAttachment) : list string :=
  merge_sort str_le
    (att_client_id <$> filter (λ a, att_role a = role) ((map_to_list atts).*2)).

Definition membership_payload s : SessionPayload :=
  Payload.MembershipChanged (clients_with Controller (s_attachments s))
                            (clients_with Observer (s_attachments s)).

Definition grant_role (cs : gmap nat (mchan * Z)) s (requested_role : Role) : Role :=
  match requested_role with
  | Observer => Observer
  | Controller =>
      if existsb (λ a, bool_decide (att_role a = Controller) && negb (tx_closed cs (att_tx a)))
           ((map_to_list (s_attachments s)).*2)
      then Observer else Controller
  end.

Definition reap_closed_attachments (cs : gmap nat (mchan * Z)) s : Session :=
  s <| s_attachments ::= filter (λ kv, tx_closed cs (att_tx kv.2) = false) |>.

(** Sending one frame to one sender: the channels after it, and whether the
    attachment is to be removed. *)
Definition deliver frame (cs : gmap nat (mchan * Z)) (tx : nat) : gmap nat (mchan * Z) * bool :=
  match cs !! tx with
  | None => (cs, true)
  | Some (c, lag) =>
      if is_closed c then (cs, true)
      else match try_send frame c with
           | Some c' => (<[tx := (c', 0)]> cs, false)
           | None =>
               let n := wrap_add u64_max lag 1 in
               (<[tx := (c, n)]> cs, LAG_EVICT_THRESHOLD <=? n)
           end
  end.

(** The loop of [broadcast] and [fan_out] over [(client_id, tx)] pairs. *)
Fixpoint deliver_all frame (cs : gmap nat (mchan * Z)) (senders : list (string * nat))
  : gmap nat (mchan * Z) * list string :=
  match senders with
  | [] => (cs, [])
  | (client_id, tx) :: senders' =>
      let (cs1, evict) := deliver frame cs tx in
      let (cs2, ids) := deliver_all frame cs1 senders' in
      (cs2, if evict then client_id :: ids else ids)
  end.

Definition remove_clients (ids : list string) s : Session :=
  s <| s_attachments ::= (λ m, foldl (λ m id, delete id m) m ids) |>.

Definition broadcast r (cell : nat) s frame : SessionRegistry :=
  let (cs, ids) := deliver_all frame (chans r)
    ((λ kv, (kv.1, att_tx kv.2)) <$> map_to_list (s_attachments s)) in
  set_cell (r <| chans := cs |>) cell (remove_clients ids s).

Definition snapshot_senders (cs : gmap nat (mchan * Z)) s : list (string * nat) :=
  (λ a, (att_client_id a, att_tx a)) <$>
    filter (λ a, tx_closed cs (att_tx a) = false) ((map_to_list (s_attachments s)).*2).

(** ** Lifecycle *)

Definition create r (session_id agent_id command_id : string) (name : option string)
  : SessionRegistry :=
  let s := {| s_id := session_id; s_agent_id := agent_id; s_command_id := command_id;
              s_name := name; s_seq := 0; s_attachments := ∅;
              s_replay := buffer_new DEFAULT_MAX_FRAMES |} in
  r <| command_index ::= <[command_id := session_id]> |>
    <| cells ::= <[next_cell r := s]> |>
    <| sessions ::= <[session_id := next_cell r]> |>
    <| next_cell ::= S |>.

Definition lookup_session r (session_id : string) : option (nat * Session) :=
  cell ← sessions r !! session_id;
  s ← cells r !! cell;
  Some (cell, s).

Definition update_command_id r (session_id new_command_id : string) : SessionRegistry :=
  match lookup_session r session_id with
  | None => r
  | Some (cell, s) =>
      (set_cell r cell (s <| s_command_id := new_command_id |>))
        <| command_index := <[new_command_id := session_id]>
                              (delete (s_command_id s) (command_index r)) |>
  end.

Definition session_id_for_command r (command_id : string) : option string :=
  command_index r !! command_id.

(** [remove]; [locked] says that another task holds the session's lock, which
    makes [try_lock] fail. *)
Definition remove r (locked : bool) (session_id : string) : SessionRegistry :=
  match lookup_session r session_id with
  | None => r
  | Some (_, s) =>
      let r' := r <| sessions ::= delete session_id |> in
      if locked then r' else r' <| command_index ::= delete (s_command_id s) |>
  end.

Definition forget r (locked : bool) (session_id : string) : SessionRegistry :=
  remove r locked session_id.

(** ** Attachment *)

(** Queueing frames on a channel; a refused frame is dropped ([let _ =]). *)
Definition send_or_drop (c : mchan) frame : mchan := default c (try_send frame c).

(** The replay floor: the requested point, else the last keyframe, else the
    oldest retained frame. *)
Definition effective_from (b : ReplayBuffer) (replay_from : option Z) : option Z :=
  match replay_from with
  | Some n => Some n
  | None => match last_keyframe_seq b with
            | Some k => Some k
            | None => oldest_seq b
            end
  end.

Definition replay_frames s (replay_from : option Z) : list SessionFrame :=
  match effective_from (s_replay s) replay_from with
  | Some n => (λ e, to_wire e (s_id s)) <$> frames_from (s_replay s) n
  | None => []
  end.

Definition attach now r (session_id client_id : string) (requested_role : Role)
    (replay_from : option Z) : SessionRegistry * option (nat * Role * Z) :=
  match lookup_session r session_id with
  | None => (r, None)
  | Some (cell, s0) =>
      let tx := next_chan r in
      let current_seq := s_seq s0 in
      let s1 := reap_closed_attachments (chans r) s0 in
      let granted_role := grant_role (chans r) s1 requested_role in
      let c1 := foldl send_or_drop (channel CHANNEL_CAPACITY) (replay_frames s1 replay_from) in
      let (s2, role_frame) := make_frame now s1 (Payload.RoleAssigned granted_role) in
      let c2 := send_or_drop c1 role_frame in
      let s3 := s2 <| s_attachments ::= <[client_id :=
                  {| att_client_id := client_id; att_role := granted_role; att_tx := tx |}]> |> in
      let (s4, frame) := make_frame now s3 (membership_payload s3) in
      let r1 := r <| chans ::= <[tx := (c2, 0)]> |> <| next_chan ::= S |> in
      (broadcast r1 cell s4 frame, Some (tx, granted_role, current_seq))
  end.

Definition detach now r (session_id client_id : string) : SessionRegistry :=
  match lookup_session r session_id with
  | None => r
  | Some (cell, s) =>
      match s_attachments s !! client_id with
      | None => r
      | Some _ =>
          let s1 := s <| s_attachments ::= delete client_id |> in
          let (s2, frame) := make_frame now s1 (membership_payload s1) in
          broadcast r cell s2 frame
      end
  end.

Definition is_controller r (session_id client_id : string) : bool :=
  match lookup_session r session_id with
  | None => false
  | Some (_, s) =>
      match s_attachments s !! client_id with
      | Some a => bool_decide (att_role a = Controller)
      | None => false
      end
  end.

(** ** Publishing *)

(** A fan-out in flight: the cell it holds, the frame, the snapshot, and the
    entries it will archive for the session. *)
Record FanOut : Type := {
  fo_cell : nat;
  fo_session_id : string;
  fo_frame : SessionFrame;
  fo_senders : list (string * nat);
  fo_evicted : list RingEntry;
}.

(** The part under the lock: number the frame, buffer it, snapshot. *)
Definition publish_locked now r (session_id : string)
    (push_ : ReplayBuffer → Z → ReplayBuffer * list RingEntry) (payload : SessionPayload)
  : SessionRegistry * option FanOut :=
  match lookup_session r session_id with
  | None => (r, None)
  | Some (cell, s) =>
      let seq := s_seq s in
      let (replay, evicted) := push_ (s_replay s) seq in
      let s' := (next_seq s) <| s_replay := replay |> in
      (set_cell r cell s',
       Some {| fo_cell := cell; fo_session_id := session_id;
               fo_frame := {| frame_session_id := s_id s; frame_seq := seq; frame_ts := now;
                              frame_payload := payload |};
               fo_senders := snapshot_senders (chans r) s';
               fo_evicted := evicted |})
  end.

Definition publish_output_locked now r (session_id : string) (stream : StreamKind) (data : string)
  : SessionRegistry * option FanOut :=
  let raw := redact_pty_bytes data in
  publish_locked now r session_id (λ b seq, push_output b seq now stream raw)
    (Payload.Output stream (b64_encode raw)).

Definition publish_keyframe_locked now r (session_id : string) (stream : StreamKind) (data : string)
  : SessionRegistry * option FanOut :=
  if decide (data = EmptyString) then (r, None)
  else
    let raw := redact_pty_bytes data in
    publish_locked now r session_id (λ b seq, push_keyframe b seq now stream raw)
      (Payload.Keyframe stream (b64_encode raw)).

Definition publish_resize_locked now r (session_id : string) (cols rows : Z)
  : SessionRegistry * option FanOut :=
  let payload := Payload.Resize cols rows in
  publish_locked now r session_id (λ b seq, push_control b seq now payload) payload.

Definition archive_evicted r (session_id : string) (evicted : list RingEntry) : SessionRegistry :=
  if decide (evicted = []) then r else r <| archived ::= (λ a, a ++ [(session_id, evicted)]) |>.

(** The part after the lock. *)
Definition fan_out r (fo : FanOut) : SessionRegistry :=
  let (cs, ids) := deliver_all (fo_frame fo) (chans r) (fo_senders fo) in
  let r1 := r <| chans := cs |> in
  let r2 := match cells r1 !! fo_cell fo with
            | Some s => if decide (ids = []) then r1
                        else set_cell r1 (fo_cell fo) (remove_clients ids s)
            | None => r1
            end in
  archive_evicted r2 (fo_session_id fo) (fo_evicted fo).

(** A publish nobody interleaves with. *)
Definition publish (x : SessionRegistry * option FanOut) : SessionRegistry :=
  match x.2 with Some fo => fan_out x.1 fo | None => x.1 end.

Definition publish_output now r (session_id : string) (stream : StreamKind) (data : string)
  : SessionRegistry := publish (publish_output_locked now r session_id stream data).
Definition publish_keyframe now r (session_id : string) (stream : StreamKind) (data : string)
  : SessionRegistry := publish (publish_keyframe_locked now r session_id stream data).
Definition publish_resize now r (session_id : string) (cols rows : Z) : SessionRegistry :=
  publish (publish_resize_locked now r session_id cols rows).

Definition close now r (locked : bool) (session_id : string) (exit_code : option Z)
  : SessionRegistry :=
  let r1 := match lookup_session r session_id with
            | None => r
            | Some (cell, s) =>
                let (s1, frame) := make_frame now s (Payload.Closed exit_code) in
                broadcast r cell s1 frame
            end in
  remove r1 locked session_id.

(** [sessions_for_agent]: sessions whose lock is held are skipped; [locked]
    is the set of their ids. *)
Definition sessions_for_agent r (locked : gset string) (agent_id : string) : list string :=
  (map_to_list (filter (λ kv, (kv.1 ∉ locked) ∧
    (s_agent_id <$> cells r !! kv.2) = Some agent_id) (sessions r))).*1.

(** ** Runs

    A state is the registry with the fan-outs in flight.  [step_channel] is
    the receivers' side: a channel may be drained or closed at any time. *)

Inductive registry_step : SessionRegistry * list FanOut → SessionRegistry * list FanOut → Prop :=
| step_create r fos sid agent cmd name : registry_step (r, fos) (create r sid agent cmd name, fos)
| step_update r fos sid cmd : registry_step (r, fos) (update_command_id r sid cmd, fos)
| step_forget r fos l sid : registry_step (r, fos) (forget r l sid, fos)
| step_attach now r fos sid client role from :
    registry_step (r, fos) ((attach now r sid client role from).1, fos)
| step_detach now r fos sid client : registry_step (r, fos) (detach now r sid client, fos)
| step_output now r fos sid stream data r' fo :
    publish_output_locked now r sid stream data = (r', Some fo) →
    registry_step (r, fos) (r', fos ++ [fo])
| step_keyframe now r fos sid stream data r' fo :
    publish_keyframe_locked now r sid stream data = (r', Some fo) →
    registry_step (r, fos) (r', fos ++ [fo])
| step_resize now r fos sid cols rows r' fo :
    publish_resize_locked now r sid cols rows = (r', Some fo) →
    registry_step (r, fos) (r', fos ++ [fo])
| step_fan_out r fos1 fo fos2 :
    registry_step (r, fos1 ++ fo :: fos2) (fan_out r fo, fos1 ++ fos2)
| step_close now r fos l sid code : registry_step (r, fos) (close now r l sid code, fos)
| step_channel r fos tx c c' lag :
    chans r !! tx = Some (c, lag) →
    registry_step (r, fos) (r <| chans ::= <[tx := (c', lag)]> |>, fos).

Definition registry_reachable (x : SessionRegistry * list FanOut) : Prop :=
  rtc registry_step (registry_new, []) x.

(** ** Invariant *)

Record session_inv s : Prop := {
  si_key k a : s_attachments s !! k = Some a → att_client_id a = k;
  si_controller k1 k2 a1 a2 :
    s_attachments s !! k1 = Some a1 → s_attachments s !! k2 = Some a2 →
    att_role a1 = Controller → att_role a2 = Controller → k1 = k2;
  si_max : max_frames (s_replay s) = DEFAULT_MAX_FRAMES;
  si_len : len (frames (s_replay s)) <= DEFAULT_MAX_FRAMES;
}.

Definition registry_inv r : Prop := map_Forall (λ _, session_inv) (cells r).

(** Fewer attachments, same ring. *)
Lemma session_inv_shrink s s' :
  session_inv s → s_replay s' = s_replay s →
  (∀ k a, s_attachments s' !! k = Some a → s_attachments s !! k = Some a) → session_inv s'.
Proof.
  intros [Hk Hc Hm Hl] Hr Hsub. constructor; rewrite ?Hr; eauto.
Qed.

Lemma lookup_foldl_delete (ids : list string) (m : gmap string SessionAttachment) k a :
  foldl (λ m id, delete id m) m ids !! k = Some a ↔ m !! k = Some a ∧ k ∉ ids.
Proof.
  revert m. induction ids as [|id ids IH]; intros m; simpl; [set_solver|].
  rewrite IH, lookup_delete_Some, not_elem_of_cons. naive_solver.
Qed.

Lemma remove_clients_inv ids s : session_inv s → session_inv (remove_clients ids s).
Proof.
  intros Hs. apply (session_inv_shrink s); [done..|]. intros k a. simpl.
  by rewrite lookup_foldl_delete; intros [].
Qed.

Lemma set_cell_inv r cell s : registry_inv r → session_inv s → registry_inv (set_cell r cell s).
Proof. intros Hr Hs. by apply map_Forall_insert_2. Qed.

Lemma broadcast_inv r cell s frame :
  registry_inv r → session_inv s → registry_inv (broadcast r cell s frame).
Proof.
  intros Hr Hs. unfold broadcast. destruct (deliver_all _ _ _).
  apply set_cell_inv; [done|]. by apply remove_clients_inv.
Qed.

Lemma lookup_session_Some r sid cell s :
  lookup_session r sid = Some (cell, s) ↔ sessions r !! sid = Some cell ∧ cells r !! cell = Some s.
Proof.
  unfold lookup_session. destruct (sessions r !! sid) as [c|]; simpl; [|naive_solver].
  destruct (cells r !! c) eqn:Hc; simpl; naive_solver.
Qed.

Lemma lookup_session_inv r sid cell s :
  registry_inv r → lookup_session r sid = Some (cell, s) → session_inv s.
Proof. intros Hr [_ Hc]%lookup_session_Some. by apply Hr in Hc. Qed.

(** A controller is granted only when no attachment holds the lease. *)
Lemma grant_controller cs s k a :
  grant_role cs (reap_closed_attachments cs s) Controller = Controller →
  s_attachments (reap_closed_attachments cs s) !! k = Some a → att_role a ≠ Controller.
Proof.
  unfold grant_role. case_match eqn:Hex; [done|]. intros _ Ha Hrole.
  rewrite existsb_false in Hex. specialize (Hex a).
  rewrite bool_decide_eq_true_2 in Hex by done. simpl in Hex.
  apply map_lookup_filter_Some in Ha as Ha'. destruct Ha' as [_ Hopen]. simpl in Hopen.
  rewrite Hopen in Hex. discriminate Hex.
  apply list_elem_of_fmap. exists (k, a). split; [done|]. by apply elem_of_map_to_list.
Qed.

Lemma grant_role_Controller cs s role : grant_role cs s role = Controller → role = Controller.
Proof. by destruct role. Qed.

Lemma attach_session_inv cs s client role tx :
  session_inv s →
  session_inv ((reap_closed_attachments cs s) <| s_attachments ::= <[client :=
    {| att_client_id := client; att_role := grant_role cs (reap_closed_attachments cs s) role;
       att_tx := tx |}]> |>).
Proof.
  intros Hs. assert (session_inv (reap_closed_attachments cs s)) as [Hk Hc Hm Hl].
  { apply (session_inv_shrink s); [done..|]. intros k a Ha.
    by apply map_lookup_filter_Some in Ha as [? _]. }
  set (s1 := reap_closed_attachments cs s) in *.
  constructor; simpl; try done.
  - intros k a. rewrite lookup_insert_Some. intros [[<- <-]|[_ Ha]]; [done|eauto].
  - intros k1 k2 a1 a2. rewrite !lookup_insert_Some.
    intros [[<- <-]|[? Ha1]] [[<- <-]|[? Ha2]] Hr1 Hr2; simpl in *; try done; [..|eauto].
    + rewrite (grant_role_Controller _ _ _ Hr1) in Hr1. by destruct (grant_controller _ _ _ _ Hr1 Ha2).
    + rewrite (grant_role_Controller _ _ _ Hr2) in Hr2. by destruct (grant_controller _ _ _ _ Hr2 Ha1).
Qed.

Lemma attach_inv now r sid client role from :
  registry_inv r → registry_inv (attach now r sid client role from).1.
Proof.
  intros Hr. unfold attach. destruct (lookup_session r sid) as [[cell s]|] eqn:Hl; [|done].
  simpl. apply broadcast_inv; [done|].
  apply (session_inv_shrink ((reap_closed_attachments (chans r) s) <| s_attachments ::= <[client :=
    {| att_client_id := client;
       att_role := grant_role (chans r) (reap_closed_attachments (chans r) s) role;
       att_tx := next_chan r |}]> |>)); [|done..].
  apply attach_session_inv. by eapply lookup_session_inv.
Qed.

(** The pushes of the three publishers. *)
Definition bounded_push (push_ : ReplayBuffer → Z → ReplayBuffer * list RingEntry) : Prop :=
  ∀ b seq, 1 <= max_frames b →
    max_frames (push_ b seq).1 = max_frames b ∧ len (frames (push_ b seq).1) <= max_frames b.

Lemma publish_locked_inv now r sid push_ payload :
  bounded_push push_ → registry_inv r → registry_inv (publish_locked now r sid push_ payload).1.
Proof.
  intros Hp Hr. unfold publish_locked.
  destruct (lookup_session r sid) as [[cell s]|] eqn:Hl; [|done].
  apply (lookup_session_inv _ _ _ _ Hr) in Hl as [Hk Hc Hm Hlen].
  destruct (Hp (s_replay s) (s_seq s)) as [Hm' Hl']; [by rewrite Hm|].
  destruct (push_ (s_replay s) (s_seq s)) as [b ev]. simpl in *.
  apply set_cell_inv; [done|]. constructor; simpl; try done; [congruence|lia].
Qed.

Lemma push_output_bounded now stream data :
  bounded_push (λ b seq, push_output b seq now stream data).
Proof. intros b seq. apply (push_len b (Build_RingEntry seq now (Ring.Output stream data))). Qed.
Lemma push_keyframe_bounded now stream data :
  bounded_push (λ b seq, push_keyframe b seq now stream data).
Proof. intros b seq. apply (push_len b (Build_RingEntry seq now (Ring.Keyframe stream data))). Qed.
Lemma push_control_bounded now payload :
  bounded_push (λ b seq, push_control b seq now payload).
Proof. intros b seq. apply (push_len b (Build_RingEntry seq now (Ring.Control payload))). Qed.

Lemma remove_cells r locked sid : cells (remove r locked sid) = cells r.
Proof. unfold remove. by repeat case_match. Qed.

Lemma fan_out_inv r fo : registry_inv r → registry_inv (fan_out r fo).
Proof.
  intros Hr. unfold fan_out. destruct (deliver_all _ _ _) as [cs ids]. simpl.
  set (r2 := match cells r !! fo_cell fo with Some _ => _ | None => _ end).
  assert (registry_inv r2) as Hr2.
  { unfold r2. destruct (cells r !! fo_cell fo) as [s|] eqn:Hs; [|done].
    case_decide; [done|]. apply set_cell_inv; [done|]. apply remove_clients_inv.
    by apply Hr in Hs. }
  unfold archive_evicted. by case_decide.
Qed.

Lemma registry_step_inv x y : registry_step x y → registry_inv x.1 → registry_inv y.1.
Proof.
  intros Hstep Hr. destruct Hstep; simpl in *; try done.
  - apply map_Forall_insert_2; [|done]. constructor; simpl;
      [by intros *; rewrite lookup_empty..|done|by vm_compute].
  - unfold update_command_id. destruct (lookup_session r sid) as [[cell s]|] eqn:Hl; [|done].
    apply (set_cell_inv r); [done|]. apply (session_inv_shrink s); [|done..].
    by eapply lookup_session_inv.
  - unfold forget, registry_inv. by rewrite remove_cells.
  - by apply attach_inv.
  - unfold detach. destruct (lookup_session r sid) as [[cell s]|] eqn:Hl; [|done].
    case_match; [|done]. apply broadcast_inv; [done|].
    apply (session_inv_shrink s); [by eapply lookup_session_inv|done|].
    simpl. by intros k a [_ ?]%lookup_delete_Some.
  - pose proof (publish_locked_inv now r sid _ (Payload.Output stream (b64_encode (redact_pty_bytes data)))
      (push_output_bounded now stream (redact_pty_bytes data)) Hr) as Hp.
    unfold publish_output_locked in H. by rewrite H in Hp.
  - unfold publish_keyframe_locked in H. case_decide; [done|].
    pose proof (publish_locked_inv now r sid _ (Payload.Keyframe stream (b64_encode (redact_pty_bytes data)))
      (push_keyframe_bounded now stream (redact_pty_bytes data)) Hr) as Hp. by rewrite H in Hp.
  - pose proof (publish_locked_inv now r sid _ (Payload.Resize cols rows)
      (push_control_bounded now (Payload.Resize cols rows)) Hr) as Hp.
    unfold publish_resize_locked in H. by rewrite H in Hp.
  - by apply fan_out_inv.
  - unfold close, registry_inv. rewrite remove_cells.
    destruct (lookup_session r sid) as [[cell s]|] eqn:Hl; [|done].
    apply broadcast_inv; [done|]. apply (session_inv_shrink s); [|done..].
    by eapply lookup_session_inv.
Qed.

Lemma registry_reachable_inv x : registry_reachable x → registry_inv x.1.
Proof.
  intros Hx. unfold registry_reachable in Hx.
  apply (rtc_ind_r (λ y, registry_inv y.1) (registry_new, [])) in Hx; [done| |].
  - apply map_Forall_empty.
  - intros y z _ Hstep Hy. by eapply registry_step_inv.
Qed.

(** ** Senders *)

(** Every attachment's sender was created by the registry. *)
Definition senders_known r : Prop :=
  ∀ cell s k a, cells r !! cell = Some s → s_attachments s !! k = Some a →
    (att_tx a < next_chan r)%nat.

Lemma senders_known_set r r' cell s' :
  senders_known r → (next_chan r <= next_chan r')%nat → cells r' = <[cell := s']> (cells r) →
  (∀ k a, s_attachments s' !! k = Some a → (att_tx a < next_chan r')%nat) → senders_known r'.
Proof.
  intros Hr Hn Hc Hs cell' s k a. rewrite Hc, lookup_insert_Some.
  intros [[<- <-]|[_ Hs0]] Ha; [eauto|]. specialize (Hr _ _ _ _ Hs0 Ha). lia.
Qed.

Lemma broadcast_senders r cell s frame :
  senders_known r → (∀ k a, s_attachments s !! k = Some a → (att_tx a < next_chan r)%nat) →
  senders_known (broadcast r cell s frame).
Proof.
  intros Hr Hs. unfold broadcast. destruct (deliver_all _ _ _) as [cs ids].
  apply (senders_known_set r _ cell (remove_clients ids s)); try done.
  simpl. intros k a [Ha _]%lookup_foldl_delete. eauto.
Qed.

Lemma publish_locked_senders now r sid push_ payload :
  senders_known r → senders_known (publish_locked now r sid push_ payload).1.
Proof.
  intros Hr. unfold publish_locked. destruct (lookup_session r sid) as [[cell s]|] eqn:Hl; [|done].
  apply lookup_session_Some in Hl as [_ Hs]. destruct (push_ _ _) as [b ev].
  apply (senders_known_set r _ cell ((next_seq s) <| s_replay := b |>)); try done. simpl. eauto.
Qed.

Lemma remove_senders r locked sid : senders_known r → senders_known (remove r locked sid).
Proof. intros Hr. unfold remove. by repeat case_match. Qed.

Lemma fan_out_senders r fo : senders_known r → senders_known (fan_out r fo).
Proof.
  intros Hr. unfold fan_out. destruct (deliver_all _ _ _) as [cs ids]. simpl.
  set (r2 := match cells r !! fo_cell fo with Some _ => _ | None => _ end).
  assert (senders_known r2) as Hr2.
  { unfold r2. destruct (cells r !! fo_cell fo) as [s|] eqn:Hs; [|done].
    case_decide; [done|].
    apply (senders_known_set r _ (fo_cell fo) (remove_clients ids s)); try done.
    simpl. intros k a [Ha _]%lookup_foldl_delete. eauto. }
  unfold archive_evicted. by case_decide.
Qed.

Lemma attach_senders now r sid client role from :
  senders_known r → senders_known (attach now r sid client role from).1.
Proof.
  intros Hr. unfold attach. destruct (lookup_session r sid) as [[cell s]|] eqn:Hl; [|done].
  apply lookup_session_Some in Hl as [_ Hs]. simpl. apply broadcast_senders; simpl.
  - intros cell' s' k a Hs' Ha. specialize (Hr _ _ _ _ Hs' Ha). simpl. lia.
  - intros k a. rewrite lookup_insert_Some. intros [[_ <-]|[_ Ha]]; simpl; [lia|].
    apply map_lookup_filter_Some in Ha as [Ha _]. specialize (Hr _ _ _ _ Hs Ha). lia.
Qed.

Lemma registry_step_senders x y : registry_step x y → senders_known x.1 → senders_known y.1.
Proof.
  intros Hstep Hr. destruct Hstep; simpl in *; try done.
  - by eapply (senders_known_set r).
  - unfold update_command_id. destruct (lookup_session r sid) as [[cell s]|] eqn:Hl; [|done].
    apply lookup_session_Some in Hl as [_ Hs].
    apply (senders_known_set r _ cell (s <| s_command_id := cmd |>)); try done. simpl. eauto.
  - by apply remove_senders.
  - by apply attach_senders.
  - unfold detach. destruct (lookup_session r sid) as [[cell s]|] eqn:Hl; [|done].
    apply lookup_session_Some in Hl as [_ Hs]. case_match; [|done].
    apply broadcast_senders; [done|]. simpl. intros k a [_ Ha]%lookup_delete_Some. eauto.
  - unfold publish_output_locked in H. eapply (f_equal fst) in H. simpl in H. subst.
    by apply publish_locked_senders.
  - unfold publish_keyframe_locked in H. case_decide; [done|]. eapply (f_equal fst) in H.
    simpl in H. subst. by apply publish_locked_senders.
  - unfold publish_resize_locked in H. eapply (f_equal fst) in H. simpl in H. subst.
    by apply publish_locked_senders.
  - by apply fan_out_senders.
  - unfold close. apply remove_senders.
    destruct (lookup_session r sid) as [[cell s]|] eqn:Hl; [|done].
    apply lookup_session_Some in Hl as [_ Hs]. apply broadcast_senders; [done|]. simpl. eauto.
Qed.

Lemma registry_reachable_senders x : registry_reachable x → senders_known x.1.
Proof.
  intros Hx. unfold registry_reachable in Hx.
  apply (rtc_ind_r (λ y, senders_known y.1) (registry_new, [])) in Hx; [done| |].
  - intros cell s k a Hs. simpl in Hs. by rewrite lookup_empty in Hs.
  - intros y z _ Hstep Hy. by eapply registry_step_senders.
Qed.

(** ** Delivery *)

Lemma deliver_other frame cs tx tx' :
  tx' ≠ tx → (deliver frame cs tx).1 !! tx' = cs !! tx'.
Proof. intros. unfold deliver. repeat case_match; simpl; try done; by rewrite lookup_insert_ne. Qed.

Lemma deliver_same frame cs cs' tx :
  cs !! tx = cs' !! tx → (deliver frame cs tx).1 !! tx = (deliver frame cs' tx).1 !! tx.
Proof.
  intros Heq. unfold deliver. rewrite Heq.
  destruct (cs' !! tx) as [[c lag]|] eqn:Hc; [|simpl; congruence].
  destruct (is_closed c); [simpl; congruence|].
  destruct (try_send frame c); simpl; by rewrite !lookup_insert_eq.
Qed.

Lemma deliver_all_other frame senders cs tx :
  tx ∉ senders.*2 → (deliver_all frame cs senders).1 !! tx = cs !! tx.
Proof.
  revert cs. induction senders as [|[id tx'] senders IH]; intros cs Hno; simpl; [done|].
  apply not_elem_of_cons in Hno as [Hne Hno]. simpl in Hne.
  pose proof (deliver_other frame cs tx' tx Hne) as Hd.
  destruct (deliver frame cs tx') as [cs1 ev]. simpl in Hd.
  specialize (IH cs1 Hno). destruct (deliver_all frame cs1 senders). simpl in *. congruence.
Qed.

(** A sender that occurs once gets exactly one delivery. *)
Lemma deliver_all_once frame l1 id tx l2 cs :
  tx ∉ l1.*2 → tx ∉ l2.*2 →
  (deliver_all frame cs (l1 ++ (id, tx) :: l2)).1 !! tx = (deliver frame cs tx).1 !! tx.
Proof.
  revert cs. induction l1 as [|[id' tx'] l1 IH]; intros cs H1 H2; simpl.
  - destruct (deliver frame cs tx) as [cs1 ev] eqn:Hd.
    pose proof (deliver_all_other frame l2 cs1 tx H2).
    destruct (deliver_all frame cs1 l2). simpl in *. done.
  - apply not_elem_of_cons in H1 as [Hne H1]. simpl in Hne.
    pose proof (deliver_other frame cs tx' tx Hne) as Hd.
    destruct (deliver frame cs tx') as [cs1 ev]. simpl in Hd. specialize (IH cs1 H1 H2).
    destruct (deliver_all frame cs1 (l1 ++ (id, tx) :: l2)). simpl in *. rewrite IH.
    by apply deliver_same.
Qed.

(** Filling a fresh channel. *)
Lemma send_or_drop_all fs c :
  is_closed c = false → len (queued c) + len fs <= capacity c →
  queued (foldl send_or_drop c fs) = queued c ++ fs ∧
  is_closed (foldl send_or_drop c fs) = false ∧ capacity (foldl send_or_drop c fs) = capacity c.
Proof.
  revert c. induction fs as [|f fs IH]; intros c Ho Hl; simpl; [by rewrite app_nil_r|].
  rewrite len_cons in Hl. pose proof (len_nonneg fs).
  destruct (try_send_room f c) as [c' Hc']; [done|lia|].
  destruct (try_send_appends f c c' Hc') as (Hq & Ho' & Hcap).
  unfold send_or_drop at 2 4 6. rewrite Hc'. simpl.
  destruct (IH c') as (-> & -> & ->); [congruence|rewrite Hq, len_app, len_cons, len_nil; lia|].
  by rewrite Hq, <-(assoc_L app).
Qed.

(** ** Theorems *)

(** C3: At most one controller.  Whatever interleaving of attaches, detaches,
    publishes with their delayed fan-outs, closes and receiver activity led to
    a registry, two clients that may both write to a session are the same
    client. *)
Theorem single_controller r fos sid c1 c2 :
  registry_reachable (r, fos) →
  is_controller r sid c1 = true → is_controller r sid c2 = true → c1 = c2.
Proof.
  intros Hr%registry_reachable_inv. unfold is_controller.
  destruct (lookup_session r sid) as [[cell s]|] eqn:Hl; [|done].
  apply (lookup_session_inv _ _ _ _ Hr) in Hl as [_ Hc _ _].
  destruct (s_attachments s !! c1) as [a1|] eqn:H1; [|done].
  destruct (s_attachments s !! c2) as [a2|] eqn:H2; [|done].
  intros Hb1 Hb2. reflect_bools. eauto.
Qed.

(** The membership broadcast reaches the channel of the client that joined. *)
Lemma broadcast_new r cell s frame client tx role c :
  s_attachments s !! client =
    Some {| att_client_id := client; att_role := role; att_tx := tx |} →
  (∀ k a, s_attachments s !! k = Some a → k ≠ client → att_tx a ≠ tx) →
  chans r !! tx = Some (c, 0) → is_closed c = false → len (queued c) < capacity c →
  ∃ c', chans (broadcast r cell s frame) !! tx = Some (c', 0) ∧ queued c' = queued c ++ [frame].
Proof.
  intros Hatt Hother Hc Ho Hroom.
  destruct (try_send_room frame c Ho Hroom) as [c' Hc'].
  destruct (try_send_appends frame c c' Hc') as (Hq & _ & _). exists c'. split; [|done].
  unfold broadcast. set (senders := (λ kv, (kv.1, att_tx kv.2)) <$> map_to_list (s_attachments s)).
  assert ((client, tx) ∈ senders) as Hin.
  { apply list_elem_of_fmap.
    exists (client, {| att_client_id := client; att_role := role; att_tx := tx |}).
    split; [done|]. by apply elem_of_map_to_list. }
  assert (NoDup senders.*1) as Hnd.
  { unfold senders. rewrite <-list_fmap_compose. apply NoDup_fst_map_to_list. }
  assert (∀ id, (id, tx) ∈ senders → id = client) as Huniq.
  { intros id ([k a] & [= -> Htx] & Hka%elem_of_map_to_list)%list_elem_of_fmap.
    destruct (decide (k = client)); [done|]. by destruct (Hother k a Hka). }
  apply list_elem_of_split in Hin as (l1 & l2 & Hl).
  assert ((tx ∉ l1.*2) ∧ (tx ∉ l2.*2)) as [Hl1 Hl2].
  { rewrite Hl, fmap_app in Hnd. apply NoDup_app in Hnd as (_ & Hd & Hnd).
    csimpl in *. apply NoDup_cons in Hnd as [Hn _].
    split; intros ([id tx'] & -> & Hin)%list_elem_of_fmap; simpl in *;
      assert (id = client) as -> by (apply Huniq; rewrite Hl; set_solver).
    - apply (Hd client); [|left]. apply list_elem_of_fmap. by exists (client, tx').
    - apply Hn, list_elem_of_fmap. by exists (client, tx'). }
  pose proof (deliver_all_once frame l1 client tx l2 (chans r) Hl1 Hl2) as Hd.
  rewrite Hl. destruct (deliver_all _ _ _) as [cs ids]. simpl in *. rewrite Hd.
  unfold deliver. rewrite Hc, Ho, Hc'. simpl. apply lookup_insert_eq.
Qed.

Lemma elem_of_clients_with role atts k tx :
  atts !! k = Some {| att_client_id := k; att_role := role; att_tx := tx |} →
  k ∈ clients_with role atts.
Proof.
  intros Hk. unfold clients_with. rewrite merge_sort_Permutation. apply list_elem_of_fmap.
  exists {| att_client_id := k; att_role := role; att_tx := tx |}. split; [done|].
  apply list_elem_of_filter. split; [done|]. apply list_elem_of_fmap.
  eexists (k, _). split; [reflexivity|]. by apply elem_of_map_to_list.
Qed.

(** The lease rule on the attachments before the closed ones are reaped. *)
Lemma granted_iff cs s role :
  grant_role cs (reap_closed_attachments cs s) role = Controller ↔
  role = Controller ∧
  ∀ k a, s_attachments s !! k = Some a → att_role a = Controller → tx_closed cs (att_tx a) = true.
Proof.
  split.
  - intros Hg. pose proof (grant_role_Controller _ _ _ Hg) as ->. split; [done|].
    intros k a Ha Hrole. destruct (tx_closed cs (att_tx a)) eqn:Hcl; [done|].
    destruct (grant_controller cs s k a Hg); [|done]. by apply map_lookup_filter_Some.
  - intros [-> Hall]. unfold grant_role.
    rewrite (proj2 (existsb_false _ _)); [done|].
    intros a ([k a'] & -> & Ha%elem_of_map_to_list)%list_elem_of_fmap.
    apply map_lookup_filter_Some in Ha as [Ha Hopen]. simpl in *.
    case_bool_decide as Hrole; [|done]. by rewrite (Hall k a' Ha Hrole) in Hopen.
Qed.

(** What a joining client gets.  On a reachable registry an attach to a
    known session succeeds at the session's current sequence number; the
    client becomes controller exactly when it asked to and no attachment with
    an open channel holds the lease; and its fresh channel holds, in order and
    without loss, every retained frame from the replay floor, its role
    assignment and the new membership. *)
Theorem attach_outcome now r fos sid client role from cell s :
  registry_reachable (r, fos) → lookup_session r sid = Some (cell, s) →
  ∃ r' tx granted c, attach now r sid client role from = (r', Some (tx, granted, s_seq s)) ∧
    (granted = Controller ↔ role = Controller ∧
       ∀ k a, s_attachments s !! k = Some a → att_role a = Controller →
              tx_closed (chans r) (att_tx a) = true) ∧
    chans r' !! tx = Some (c, 0) ∧
    ∃ controllers observers, queued c = replay_frames s from ++
      [{| frame_session_id := s_id s; frame_seq := s_seq s; frame_ts := now;
          frame_payload := Payload.RoleAssigned granted |};
       {| frame_session_id := s_id s; frame_seq := wrap_add u64_max (s_seq s) 1;
          frame_ts := now;
          frame_payload := Payload.MembershipChanged controllers observers |}] ∧
      client ∈ match granted with Controller => controllers | Observer => observers end.
Proof.
  intros Hreach Hl.
  pose proof (registry_reachable_inv _ Hreach) as Hinv. simpl in Hinv.
  pose proof (registry_reachable_senders _ Hreach) as Htx. simpl in Htx.
  pose proof (lookup_session_inv _ _ _ _ Hinv Hl) as [_ _ _ Hlen].
  pose proof Hl as Hl'. apply lookup_session_Some in Hl' as [_ Hs].
  unfold attach. rewrite Hl. simpl.
  set (s1 := reap_closed_attachments (chans r) s).
  set (c1 := foldl send_or_drop (channel CHANNEL_CAPACITY) (replay_frames s1 from)).
  destruct (channel_fresh CHANNEL_CAPACITY) as (Hf1 & Hf2 & Hf3).
  assert (len (replay_frames s1 from) <= DEFAULT_MAX_FRAMES) as Hrl.
  { unfold replay_frames. case_match; [|by vm_compute]. rewrite len_map. etrans; [|exact Hlen].
    unfold frames_from, len. apply inj_le, length_filter. }
  assert (DEFAULT_MAX_FRAMES = 72 ∧ CHANNEL_CAPACITY = 512) as [Hn1 Hn2] by done.
  destruct (send_or_drop_all (replay_frames s1 from) (channel CHANNEL_CAPACITY)) as (Hq & Ho & Hcap);
    [done|rewrite Hf2, Hf3, len_nil; lia|]. fold c1 in Hq, Ho, Hcap.
  rewrite Hf2 in Hq. simpl in Hq. rewrite Hf3 in Hcap.
  set (granted := grant_role (chans r) s1 role).
  set (role_frame := Build_SessionFrame _ _ _ (Payload.RoleAssigned granted)).
  destruct (send_or_drop_all [role_frame] c1) as (Hq2 & Ho2 & Hcap2);
    [done|rewrite Hq, Hcap, len_cons, len_nil; lia|]. simpl in Hq2, Ho2, Hcap2.
  match goal with |- context [broadcast ?r1 cell ?s4 ?f] => set (R1 := r1); set (S4 := s4); set (fr := f) end.
  destruct (broadcast_new R1 cell S4 fr client (next_chan r) granted (send_or_drop c1 role_frame))
    as (c & Hc & Hqc).
  - simpl. apply lookup_insert_eq.
  - intros k a. simpl. rewrite lookup_insert_Some. intros [[<- _]|[_ Ha]] Hne; [done|].
    apply map_lookup_filter_Some in Ha as [Ha _]. specialize (Htx _ _ _ _ Hs Ha). lia.
  - simpl. apply lookup_insert_eq.
  - done.
  - rewrite Hq2, Hq, Hcap2, Hcap, len_app, len_cons, len_nil. lia.
  - eexists _, (next_chan r), granted, c. split; [reflexivity|]. split; [apply granted_iff|].
    split; [done|]. rewrite Hqc, Hq2, Hq, <-(assoc_L app). eexists _, _. split; [reflexivity|].
    by destruct granted; apply (elem_of_clients_with _ _ client (next_chan r)), lookup_insert_eq.
Qed.

Lemma evicted_ids frame senders cs id :
  id ∈ (deliver_all frame cs senders).2 → id ∈ senders.*1.
Proof.
  revert cs. induction senders as [|[id' tx] senders IH]; intros cs; simpl; [set_solver|].
  destruct (deliver frame cs tx) as [cs1 ev]. specialize (IH cs1).
  destruct (deliver_all frame cs1 senders) as [cs2 ids]. simpl in *. destruct ev; set_solver.
Qed.

(** Fan-out.  A fan-out whose snapshot lists each sender once appends the
    frame to every listed open channel that has room and resets its lag, only
    counts the loss on a full one, touches no other channel, and removes from
    the session at most clients of the snapshot, never adding any. *)
Theorem fan_out_delivers r fo :
  NoDup (fo_senders fo).*2 →
  (∀ tx, tx ∉ (fo_senders fo).*2 → chans (fan_out r fo) !! tx = chans r !! tx) ∧
  (∀ id tx c lag, (id, tx) ∈ fo_senders fo → chans r !! tx = Some (c, lag) →
     is_closed c = false →
     (len (queued c) < capacity c →
        ∃ c', chans (fan_out r fo) !! tx = Some (c', 0) ∧ queued c' = queued c ++ [fo_frame fo]) ∧
     (capacity c <= len (queued c) →
        chans (fan_out r fo) !! tx = Some (c, wrap_add u64_max lag 1))) ∧
  (∀ cell s k a, cells r !! cell = Some s → s_attachments s !! k = Some a →
     k ∉ (fo_senders fo).*1 →
     ∃ s', cells (fan_out r fo) !! cell = Some s' ∧ s_attachments s' !! k = Some a).
Proof.
  intros Hnd.
  assert (chans (fan_out r fo) = (deliver_all (fo_frame fo) (chans r) (fo_senders fo)).1) as ->.
  { unfold fan_out, archive_evicted. destruct (deliver_all _ _ _). by repeat case_match. }
  split_and!.
  - intros tx Hno. by apply deliver_all_other.
  - intros id tx c lag (l1 & l2 & Hl)%list_elem_of_split Hc Ho.
    rewrite Hl, fmap_app in Hnd. csimpl in Hnd. apply NoDup_app in Hnd as (_ & Hd & Hnd).
    apply NoDup_cons in Hnd as [Hn _]. rewrite Hl.
    rewrite deliver_all_once by (set_solver || done). unfold deliver. rewrite Hc, Ho. split.
    + intros Hroom. destruct (try_send_room (fo_frame fo) c Ho Hroom) as [c' Hc'].
      destruct (try_send_appends _ _ _ Hc') as (Hq & _ & _). rewrite Hc'. simpl.
      rewrite lookup_insert_eq. eauto.
    + intros Hfull. rewrite try_send_refused by auto. simpl. apply lookup_insert_eq.
  - intros cell s k a Hs Ha Hk. unfold fan_out.
    pose proof (evicted_ids (fo_frame fo) (fo_senders fo) (chans r) k) as Hev.
    destruct (deliver_all _ _ _) as [cs ids]. simpl in *.
    unfold archive_evicted. destruct (cells r !! fo_cell fo) as [s0|] eqn:Hs0;
      [|case_decide; eauto].
    destruct (decide (ids = [])); [case_decide; simpl; eauto|].
    destruct (decide (fo_cell fo = cell)) as [<-|Hne].
    + assert (s0 = s) as -> by congruence. exists (remove_clients ids s).
      split; [case_decide; simpl; by rewrite lookup_insert_eq|].
      simpl. apply lookup_foldl_delete. auto.
    + exists s. split; [|done]. case_decide; simpl; by rewrite lookup_insert_ne.
Qed.
End registry.

(** ** A sample run: session [s-1], client [a] as controller, then one output. *)

Definition reg_0 : @SessionRegistry sample_mpsc :=
  create registry_new "s-1" "agent" "cmd" None.
Definition reg_1 : @SessionRegistry sample_mpsc :=
  (@attach sample_base64 sample_mpsc 1 reg_0 "s-1" "a" Controller None).1.
Definition reg_2 : @SessionRegistry sample_mpsc * option FanOut :=
  @publish_output_locked sample_base64 sample_mpsc sample_redaction 2 reg_1 "s-1" Stdout "x".
Definition sample_fan_out : FanOut :=
  match reg_2.2 with
  | Some fo => fo
  | None => Build_FanOut 0 "none" (Build_SessionFrame "none" 0 0 (Payload.Error "none")) [] []
  end.

Lemma reg_1_reachable :
  @registry_reachable sample_base64 sample_mpsc sample_redaction (reg_1, []).
Proof.
  eapply rtc_l; [apply (@step_create sample_base64 sample_mpsc sample_redaction)|].
  apply rtc_once, (@step_attach sample_base64 sample_mpsc sample_redaction).
Qed.

Lemma single_controller_witness :
  is_controller reg_1 "s-1" "a" = true ∧
  (∀ c, is_controller reg_1 "s-1" c = true → c = "a").
Proof.
  split; [reflexivity|]. intros c Hc.
  apply (@single_controller sample_base64 sample_mpsc sample_redaction reg_1 [] "s-1" c "a").
  - apply reg_1_reachable.
  - exact Hc.
  - vm_compute. reflexivity.
Defined.

Definition sample_session : Session :=
  default (Build_Session "none" "none" "none" None 0 ∅ (buffer_new 1)) (cells reg_1 !! 0%nat).

Lemma attach_outcome_witness :
  ∃ r' tx granted c,
    @attach sample_base64 sample_mpsc 3 reg_1 "s-1" "b" Controller (Some 0) =
      (r', Some (tx, granted, 2)) ∧ chans r' !! tx = Some (c, 0).
Proof.
  destruct (@attach_outcome sample_base64 sample_mpsc sample_redaction 3 reg_1 [] "s-1" "b"
    Controller (Some 0) 0%nat sample_session) as (r' & tx & granted & c & Ha & _ & Hc & _).
  - apply reg_1_reachable.
  - vm_compute. reflexivity.
  - exists r', tx, granted, c. split; [exact Ha|exact Hc].
Defined.

Lemma fan_out_delivers_witness :
  chans (@fan_out sample_mpsc reg_2.1 sample_fan_out) !! 7%nat = chans reg_2.1 !! 7%nat.
Proof.
  apply (@fan_out_delivers sample_mpsc reg_2.1 sample_fan_out).
  - vm_compute. repeat constructor; set_solver.
  - vm_compute. intros Hin. apply list_elem_of_singleton in Hin. discriminate Hin.
Defined.

(** The controller that joins again is downgraded: its own open channel
    counts as the live lease, and the new attachment then replaces it, so the
    session is left without a controller. *)
Theorem controller_rejoin_loses_lease :
  is_controller reg_1 "s-1" "a" = true ∧
  let x := @attach sample_base64 sample_mpsc 3 reg_1 "s-1" "a" Controller None in
  snd <$> (fst <$> x.2) = Some Observer ∧
  (∀ c, is_controller x.1 "s-1" c = false).
Proof.
  split; [reflexivity|]. split; [reflexivity|]. intros c. unfold is_controller.
  destruct (lookup_session _ _) as [[cell s]|] eqn:Hl; [|done].
  vm_compute in Hl. injection Hl as <- <-. simpl.
  destruct (decide (c = "a")) as [->|Hne]; [reflexivity|].
  case_match eqn:Hc; [|done]. exfalso.
  revert Hc. match goal with |- ?m !! c = _ → _ => change m with
    (<["a" := {| att_client_id := "a"; att_role := Observer; att_tx := 1 |}]>
       (∅ : gmap string SessionAttachment)) end.
  rewrite lookup_insert_ne by congruence. by rewrite lookup_empty.
Qed.

(** Frames can reach a client out of sequence order: a fan-out delayed past
    the membership broadcast of another client's attach delivers the older
    output after the newer frame, although clients are told to use the
    sequence number to detect gaps. *)
Theorem delayed_fan_out_reorders :
  let r := (@attach sample_base64 sample_mpsc 3 reg_2.1 "s-1" "b" Observer (Some 0)).1 in
  let r' := @fan_out sample_mpsc r sample_fan_out in
  (λ x : Queue * Z, frame_seq <$> q_frames x.1) <$> chans r' !! 0%nat = Some [0; 1; 4; 2] ∧
  registry_step (B := sample_base64) (R := sample_redaction) (reg_1, []) (reg_2.1, [sample_fan_out]).
Proof.
  split; [vm_compute; reflexivity|].
  apply (@step_output sample_base64 sample_mpsc sample_redaction 2 reg_1 [] "s-1" Stdout "x").
  vm_compute. reflexivity.
Qed.
