(* ===== verification/CircuitBreaker.v ===== *)
(** * The circuit breaker of the orchestrator

    Models management/src/orchestrator/circuit_breaker.rs.  The atomics are the
    fields of a record: [AtomicU32] counters wrap, [last_failure] is in whole
    seconds since the epoch, the state is its [u8].  A method is one function of
    the record (its loads and stores are not interleaved with another thread's);
    the future [execute] awaits is its result, [Err] or [Ok]. *)

From S2P Require Import Prelude.

Local Open Scope string_scope.
Local Open Scope list_scope.
Local Open Scope Z_scope.

(** ** Data *)

Inductive CircuitState : Type := Closed | Open | HalfOpen.

#[export] Instance CircuitState_eq_dec : EqDecision CircuitState.
Proof. solve_decision. Defined.

Definition state_from_u8 (value : Z) : CircuitState :=
  if value =? 0 then Closed else if value =? 1 then Open
  else if value =? 2 then HalfOpen else Closed.

Definition u8_from_state (st : CircuitState) : Z :=
  match st with Closed => 0 | Open => 1 | HalfOpen => 2 end.

(** Durations in whole seconds, as [as_secs] reads them. *)
Record CircuitBreakerConfig : Type := {
  failure_threshold : Z;
  success_threshold : Z;
  timeout : Z;
  failure_window : Z;
}.

Definition config_default : CircuitBreakerConfig :=
  {| failure_threshold := 5; success_threshold := 3; timeout := 30; failure_window := 60 |}.
Definition GITHUB_API : CircuitBreakerConfig :=
  {| failure_threshold := 3; success_threshold := 2; timeout := 30; failure_window := 60 |}.
Definition CLAUDE_API : CircuitBreakerConfig :=
  {| failure_threshold := 5; success_threshold := 3; timeout := 45; failure_window := 90 |}.
Definition VM_PROVISION : CircuitBreakerConfig :=
  {| failure_threshold := 2; success_threshold := 1; timeout := 60; failure_window := 120 |}.

Record CircuitBreaker : Type := {
  name : string;
  state_u8 : Z;
  failure_count : Z;
  success_count : Z;
  last_failure : Z;
  config : CircuitBreakerConfig;
}.

Inductive CircuitBreakerError (E : Type) : Type :=
| CircuitOpen (text : string)
| ServiceError (e : E).
Arguments CircuitOpen {E} text.
Arguments ServiceError {E} e.

(** ** Operations *)

Definition with_config (n : string) (c : CircuitBreakerConfig) : CircuitBreaker :=
  {| name := n; state_u8 := u8_from_state Closed; failure_count := 0; success_count := 0;
     last_failure := 0; config := c |}.

Definition state (b : CircuitBreaker) : CircuitState := state_from_u8 (state_u8 b).

Definition transition_to_open (b : CircuitBreaker) : CircuitBreaker :=
  b <| state_u8 := u8_from_state Open |> <| success_count := 0 |>.

Definition transition_to_half_open (b : CircuitBreaker) : CircuitBreaker :=
  b <| state_u8 := u8_from_state HalfOpen |> <| success_count := 0 |>.

Definition transition_to_closed (b : CircuitBreaker) : CircuitBreaker :=
  b <| state_u8 := u8_from_state Closed |> <| failure_count := 0 |> <| success_count := 0 |>.

Definition can_execute (now : Z) (b : CircuitBreaker) : CircuitBreaker * bool :=
  match state b with
  | Closed => (b, true)
  | Open =>
      let elapsed := sat_sub now (last_failure b) in
      if timeout (config b) <=? elapsed then (transition_to_half_open b, true) else (b, false)
  | HalfOpen => (b, true)
  end.

Definition record_success (b : CircuitBreaker) : CircuitBreaker :=
  match state b with
  | Closed => b <| failure_count := 0 |>
  | HalfOpen =>
      let successes := wrap_add u32_max (success_count b) 1 in
      let b' := b <| success_count := successes |> in
      if success_threshold (config b) <=? successes then transition_to_closed b' else b'
  | Open => b
  end.

Definition record_failure (now : Z) (b : CircuitBreaker) : CircuitBreaker :=
  let counted :=
    if (0 <? last_failure b)
       && (failure_window (config b) <=? sat_sub now (last_failure b))
    then b <| failure_count := 1 |>
    else b <| failure_count ::= λ n, wrap_add u32_max n 1 |> in
  let b' := counted <| last_failure := now |> in
  match state b' with
  | Closed =>
      if failure_threshold (config b') <=? failure_count b' then transition_to_open b' else b'
  | HalfOpen => transition_to_open b'
  | Open => b'
  end.

(** [execute]: the first clock is read by [can_execute], the second when the
    future is done; the flag says whether the future was run. *)
Definition execute {T E} (now done_at : Z) (b : CircuitBreaker) (f : result E T)
    : CircuitBreaker * bool * result (CircuitBreakerError E) T :=
  let (b1, allowed) := can_execute now b in
  if negb allowed then
    (b1, false, Err (CircuitOpen ("Circuit breaker '" +:+ name b +:+ "' is open")))
  else match f with
       | Ok v => (record_success b1, true, Ok v)
       | Err e => (record_failure done_at b1, true, Err (ServiceError e))
       end.

Definition reset (b : CircuitBreaker) : CircuitBreaker :=
  b <| state_u8 := u8_from_state Closed |> <| failure_count := 0 |>
    <| success_count := 0 |> <| last_failure := 0 |>.

(** ** Runs *)

Inductive breaker_step : CircuitBreaker → CircuitBreaker → Prop :=
| step_can_execute now b : breaker_step b (can_execute now b).1
| step_success b : breaker_step b (record_success b)
| step_failure now b : 0 <= now → breaker_step b (record_failure now b)
| step_reset b : breaker_step b (reset b).

Definition breaker_reachable (n : string) (c : CircuitBreakerConfig) (b : CircuitBreaker) : Prop :=
  rtc breaker_step (with_config n c) b.

(** A configuration whose thresholds are positive [u32]s. *)
Definition config_ok (c : CircuitBreakerConfig) : bool :=
  (1 <=? failure_threshold c) && (failure_threshold c <=? u32_max)
  && (1 <=? success_threshold c) && (success_threshold c <=? u32_max).

(** ** The invariant of reachable breakers *)

Record breaker_ok (c : CircuitBreakerConfig) (b : CircuitBreaker) : Prop := {
  bo_config : config b = c;
  bo_state : state_u8 b = u8_from_state (state b);
  bo_failures : 0 <= failure_count b <= u32_max;
  bo_closed : state b = Closed → failure_count b < failure_threshold c;
  bo_successes : 0 <= success_count b < success_threshold c;
  bo_last : 0 <= last_failure b;
}.

Lemma state_u8_state st : state_from_u8 (u8_from_state st) = st.
Proof. by destruct st. Qed.

Lemma record_failure_ok c now b :
  config_ok c = true → 0 <= now → breaker_ok c b → breaker_ok c (record_failure now b).
Proof.
  unfold config_ok. intros Hc Hnow [Hcfg Hst Hf Hcl Hs Hl]. reflect_bools.
  pose proof (wrap_add_range u32_max (failure_count b) 1 ltac:(done)) as Hw.
  unfold record_failure, transition_to_open, state in *.
  destruct ((0 <? last_failure b) && _); simpl;
    destruct (state_from_u8 (state_u8 b)) eqn:Hb; simpl;
    try destruct (failure_threshold (config b) <=? _) eqn:Hthr; reflect_bools;
    constructor; unfold state; simpl; rewrite ?Hb, ?Hcfg in *; try done; try lia;
    unfold u32_max in *; lia.
Qed.

Lemma record_success_ok c b : config_ok c = true → breaker_ok c b → breaker_ok c (record_success b).
Proof.
  unfold config_ok. intros Hc [Hcfg Hst Hf Hcl Hs Hl]. reflect_bools.
  unfold record_success, transition_to_closed, state in *.
  rewrite (wrap_add_small u32_max (success_count b) 1) by lia.
  destruct (state_from_u8 (state_u8 b)) eqn:Hb; simpl;
    try destruct (success_threshold (config b) <=? _) eqn:Hthr; reflect_bools;
    constructor; unfold state; simpl; rewrite ?Hb, ?Hcfg in *; try done; try lia;
    unfold u32_max in *; lia.
Qed.

Lemma step_breaker_ok c b b' :
  config_ok c = true → breaker_step b b' → breaker_ok c b → breaker_ok c b'.
Proof.
  intros Hc [] Hok.
  - unfold can_execute. case_match; try done. case_match; [|done].
    destruct Hok. unfold config_ok in Hc. reflect_bools. constructor; simpl; try done. lia.
  - by apply record_success_ok.
  - by apply record_failure_ok.
  - unfold config_ok in Hc. reflect_bools. destruct Hok.
    constructor; simpl; try done; unfold u32_max in *; lia.
Qed.

(** Under positive thresholds every reachable
    breaker keeps its configuration, holds one of the three states, is closed only
    below the failure threshold and counts fewer successes than the success
    threshold, so neither counter is ever at the wrap-around that matters. *)
Lemma reachable_breaker_ok n c b :
  config_ok c = true → breaker_reachable n c b → breaker_ok c b.
Proof.
  intros Hc Hrun.
  refine (rtc_invariant _ (breaker_ok c) _ _ (λ b b', step_breaker_ok c b b' Hc) Hrun _).
  unfold config_ok in Hc. reflect_bools.
  constructor; simpl; try done; unfold u32_max in *; lia.
Qed.

(** ** Counting failures *)

(** Failures at these times, each less than the window after the one before
    ([0] is no failure yet). *)
Fixpoint within_window (window prev : Z) (ts : list Z) : bool :=
  match ts with
  | [] => true
  | t :: ts' =>
      (0 <? t) && ((prev =? 0) || (sat_sub t prev <? window)) && within_window window t ts'
  end.

Definition fail_at (b : CircuitBreaker) (ts : list Z) : CircuitBreaker :=
  foldl (λ b t, record_failure t b) b ts.

Lemma open_stays_open b ts : state b = Open → state (fail_at b ts) = Open.
Proof.
  revert b. induction ts as [|t ts IH]; intros b Hb; [done|]. apply IH.
  unfold record_failure, state in *. destruct ((0 <? _) && _); simpl; by rewrite Hb.
Qed.

(** One counted failure of a closed breaker. *)
Lemma record_failure_counts c t b :
  config_ok c = true → breaker_ok c b → state b = Closed →
  last_failure b = 0 ∨ sat_sub t (last_failure b) < failure_window c →
  last_failure (record_failure t b) = t ∧
  failure_count (record_failure t b) = failure_count b + 1 ∧
  state (record_failure t b) =
    if failure_threshold c <=? failure_count b + 1 then Open else Closed.
Proof.
  unfold config_ok. intros Hc [Hcfg _ Hf Hcl _ _] Hb Hw. reflect_bools.
  specialize (Hcl Hb). unfold record_failure, state in *.
  rewrite (proj2 (andb_false_iff _ _)); cycle 1.
  { rewrite Hcfg, Z.ltb_ge, Z.leb_gt. lia. }
  simpl. rewrite (wrap_add_small u32_max (failure_count b) 1) by lia.
  rewrite Hb, Hcfg. destruct (failure_threshold c <=? failure_count b + 1); simpl; by rewrite ?Hb.
Qed.

Lemma failures_trip c b ts :
  config_ok c = true → breaker_ok c b → state b = Closed →
  within_window (failure_window c) (last_failure b) ts = true →
  state (fail_at b ts) =
    if failure_threshold c <=? failure_count b + len ts then Open else Closed.
Proof.
  intros Hc. revert b. induction ts as [|t ts IH]; intros b Hok Hb Hw; simpl in *.
  { rewrite (proj2 (Z.leb_gt _ _)); [done|]. destruct Hok as [_ _ _ Hcl _ _].
    rewrite len_nil. specialize (Hcl Hb). lia. }
  apply andb_true_iff in Hw as [[Ht Hgap]%andb_true_iff Hw]. reflect_bools.
  rewrite orb_true_iff, Z.eqb_eq, Z.ltb_lt in Hgap.
  destruct (record_failure_counts c t b Hc Hok Hb Hgap) as (Hlast & Hcount & Hst).
  rewrite len_cons. pose proof (len_nonneg ts).
  destruct (failure_threshold c <=? failure_count b + 1) eqn:Hthr; reflect_bools.
  - rewrite (proj2 (Z.leb_le _ _)) by lia. by apply open_stays_open.
  - rewrite IH; [|by apply record_failure_ok; [|lia|]|done|by rewrite Hlast].
    rewrite Hcount. by replace (failure_count b + 1 + len ts) with (failure_count b + (len ts + 1)) by lia.
Qed.

(** When the breaker trips: on a closed breaker, a run of failures each less
    than the failure window after the one before opens it exactly when the
    failures counted so far and the run together reach the threshold. *)
Theorem breaker_trips_exactly n c b ts :
  config_ok c = true → breaker_reachable n c b → state b = Closed →
  within_window (failure_window c) (last_failure b) ts = true →
  state (fail_at b ts) =
    if failure_threshold c <=? failure_count b + len ts then Open else Closed.
Proof. intros Hc Hrun. apply failures_trip; [done|]. by eapply reachable_breaker_ok. Qed.

(** ** Calls through the breaker *)

(** A sequence of guarded calls: when each starts, when its future is done, and
    what the future returns.  The flags say which futures were run. *)
Fixpoint execute_all {T E} (b : CircuitBreaker) (calls : list (Z * Z * result E T))
    : CircuitBreaker * list bool :=
  match calls with
  | [] => (b, [])
  | (now, done_at, f) :: calls' =>
      let '(b', ran, _) := execute now done_at b f in
      let (b'', rans) := execute_all b' calls' in
      (b'', ran :: rans)
  end.

(** The calls of an outage: the circuit is open and the timeout since the last
    failure has not passed. *)
Lemma execute_all_open {T E} b (calls : list (Z * Z * result E T)) :
  state b = Open →
  Forall (λ k, sat_sub k.1.1 (last_failure b) < timeout (config b)) calls →
  execute_all b calls = (b, replicate (length calls) false).
Proof.
  intros Hb. induction 1 as [|[[now done_at] f] calls Hk _ IH]; simpl in *; [done|].
  unfold execute, can_execute. rewrite Hb, (proj2 (Z.leb_gt _ _)) by done. simpl. by rewrite IH.
Qed.

Lemma record_success_half_open c b :
  config_ok c = true → breaker_ok c b → state b = HalfOpen →
  record_success b =
    let b' := b <| success_count := success_count b + 1 |> in
    if success_threshold c <=? success_count b + 1 then transition_to_closed b' else b'.
Proof.
  unfold config_ok. intros Hc [Hcfg _ _ _ Hs _] Hb. reflect_bools.
  unfold record_success. by rewrite Hb, Hcfg, wrap_add_small by lia.
Qed.

Lemma half_open_successes c b k :
  config_ok c = true → breaker_ok c b → state b = HalfOpen → success_count b = 0 →
  Z.of_nat k < success_threshold c →
  state (Nat.iter k record_success b) = HalfOpen ∧
  success_count (Nat.iter k record_success b) = Z.of_nat k ∧
  breaker_ok c (Nat.iter k record_success b).
Proof.
  intros Hc Hok Hb H0. induction k as [|k IH]; intros Hk; [done|].
  destruct IH as (Hst & Hn & Hok'); [lia|]. simpl Nat.iter.
  pose proof (record_success_ok c _ Hc Hok') as Hok''.
  rewrite (record_success_half_open c) in Hok'' |- * by done. cbv zeta in *.
  rewrite Hn, (proj2 (Z.leb_gt _ _)) in * by lia.
  unfold state in *. simpl. split_and!; [done|lia|done].
Qed.

(** Failing fast and recovering.  From an open breaker: no future runs, and
    nothing changes, in any sequence of calls that start before the timeout since
    the last failure has passed; the first call after it is let through half-open;
    fewer successes than the success threshold keep it half-open, and one failure
    among them opens it again from that moment; the threshold's success closes it
    with both counters cleared. *)
Theorem outage_and_recovery {T E} n c b now (calls : list (Z * Z * result E T)) k t :
  config_ok c = true → breaker_reachable n c b → state b = Open →
  Forall (λ call, sat_sub call.1.1 (last_failure b) < timeout c) calls →
  timeout c <= sat_sub now (last_failure b) → Z.of_nat k + 1 = success_threshold c →
  execute_all b calls = (b, replicate (length calls) false) ∧
  let (b1, allowed) := can_execute now b in
  allowed = true ∧ state b1 = HalfOpen ∧
  (∀ j, (j ≤ k)%nat →
    let bj := Nat.iter j record_success b1 in
    state bj = HalfOpen ∧ state (record_failure t bj) = Open ∧
    last_failure (record_failure t bj) = t) ∧
  let closed := Nat.iter (S k) record_success b1 in
  state closed = Closed ∧ failure_count closed = 0 ∧ success_count closed = 0.
Proof.
  intros Hc Hrun Hb Hcalls Hnow Hk. pose proof (reachable_breaker_ok _ _ _ Hc Hrun) as Hok.
  pose proof (step_breaker_ok c b _ Hc (step_can_execute now b) Hok) as Hok1.
  split; [apply execute_all_open; [done|by rewrite (bo_config _ _ Hok)]|].
  unfold can_execute in *. rewrite Hb, (bo_config _ _ Hok), (proj2 (Z.leb_le _ _)) in * by done.
  simpl in Hok1. cbv beta iota. split; [done|]. split; [done|]. split.
  - intros j Hj. destruct (half_open_successes c (transition_to_half_open b) j) as (Hst & _);
      [done..|lia|]. split; [done|].
    unfold record_failure, state in *.
    by destruct ((0 <? _) && _); simpl; rewrite Hst.
  - destruct (half_open_successes c (transition_to_half_open b) k) as (Hst & Hn & Hok');
      [done..|lia|]. simpl Nat.iter. cbv zeta.
    rewrite (record_success_half_open c), Hn, (proj2 (Z.leb_le _ _)) by (done || lia). done.
Qed.

(** The failure window is measured from the previous failure, not over the
    failures counted: failures 59 seconds apart, five of them over almost four
    minutes, open a breaker whose window is 60 seconds. *)
Theorem spaced_failures_trip :
  failure_window config_default = 60 ∧
  state (fail_at (with_config "github" config_default) [1000; 1059; 1118; 1177; 1236]) = Open.
Proof. by vm_compute. Qed.

(** ** Sample runs *)

Definition sample_breaker : CircuitBreaker := with_config "github" GITHUB_API.
Definition sample_tripped : CircuitBreaker := fail_at sample_breaker [100; 101; 102].

Lemma fail_at_run b ts : Forall (λ t, 0 <= t) ts → rtc breaker_step b (fail_at b ts).
Proof.
  intros Hts. revert b. induction Hts as [|t ts Ht _ IH]; intros b; [apply rtc_refl|].
  eapply rtc_l; [by apply (step_failure t)|apply IH].
Qed.

Lemma breaker_trips_exactly_witness : state sample_tripped = Open.
Proof.
  apply (breaker_trips_exactly "github" GITHUB_API sample_breaker [100; 101; 102]).
  - reflexivity.
  - apply rtc_refl.
  - reflexivity.
  - reflexivity.
Defined.

Definition sample_calls : list (Z * Z * result unit unit) :=
  [(110, 111, Ok ()); (120, 121, Err ())].

Lemma outage_and_recovery_witness :
  execute_all sample_tripped sample_calls
    = (sample_tripped, replicate (length sample_calls) false).
Proof.
  destruct (outage_and_recovery "github" GITHUB_API sample_tripped 140 sample_calls 1 150)
    as [Hopen _].
  - reflexivity.
  - apply fail_at_run. repeat constructor; lia.
  - vm_compute. reflexivity.
  - repeat constructor.
  - vm_compute. discriminate.
  - reflexivity.
  - exact Hopen.
Defined.
