(* ===== verification/VmPool.v ===== *)
(** * The pool of pre-provisioned VMs

    Models management/src/orchestrator/vm_pool.rs: the quota check, [acquire],
    [release] and [maintain].  Each lock is held for one access, and
    [provision_vm] awaits between computing a name and returning the VM, so
    [acquire] is split at that await: [acquire_begin] runs up to it and
    [acquire_provisioned] after it.  [acquire] is the two without anything in
    between.  Timestamps are nanoseconds, durations of the configuration whole
    seconds; [provision_vm] and [destroy_vm] are the bodies in the source, which
    do not fail. *)

From S2P Require Import Prelude.

Local Open Scope string_scope.
Local Open Scope list_scope.
Local Open Scope Z_scope.

(** ** Data *)

Record PoolConfig : Type := {
  min_ready : Z;
  max_size : Z;
  idle_timeout : Z;
  max_per_user : Z;
  max_concurrent : Z;
}.

Definition pool_config_default : PoolConfig :=
  {| min_ready := 2; max_size := 10; idle_timeout := 3600; max_per_user := 3;
     max_concurrent := 0 |}.

Record PooledVm : Type := {
  vm_name : string;
  vm_ip : string;
  vm_created_at : Z;
  vm_last_used : Z;
  vm_assigned_task : option string;
}.

(** What the pool reads of an orchestrator task. *)
Record Task : Type := {
  task_id : string;
  task_labels : gmap string string;
}.

Inductive PoolError : Type :=
| PoolExhausted (size : Z)
| TaskNotFound (task : string)
| NoAvailableVms
| ProvisioningFailed (text : string)
| DestructionFailed (text : string)
| QuotaExceeded (text : string).

Inductive QuotaError : Type :=
| UserQuotaExceeded (user : string) (current max : Z)
| ConcurrentQuotaExceeded (current max : Z).

Record PoolMetrics : Type := {
  total_acquisitions : Z;
  total_releases : Z;
  total_provisioned : Z;
  total_destroyed : Z;
  cache_hits : Z;
  cache_misses : Z;
}.

Record VmPool : Type := {
  available : list PooledVm;
  in_use : gmap string PooledVm;
  config : PoolConfig;
  metrics : PoolMetrics;
}.

Definition pool_new (c : PoolConfig) : VmPool :=
  {| available := []; in_use := ∅; config := c;
     metrics := {| total_acquisitions := 0; total_releases := 0; total_provisioned := 0;
                   total_destroyed := 0; cache_hits := 0; cache_misses := 0 |} |}.

(** ** VMs *)

Definition vm_new (now : Z) (name ip : string) : PooledVm :=
  {| vm_name := name; vm_ip := ip; vm_created_at := now; vm_last_used := now;
     vm_assigned_task := None |}.

Definition is_idle (now timeout : Z) (vm : PooledVm) : bool :=
  timeout <=? Z.quot (now - vm_last_used vm) 1000000000.

Definition assign (now : Z) (task : string) (vm : PooledVm) : PooledVm :=
  vm <| vm_assigned_task := Some task |> <| vm_last_used := now |>.

Definition vm_release (now : Z) (vm : PooledVm) : PooledVm :=
  vm <| vm_assigned_task := None |> <| vm_last_used := now |>.

(** ** Quotas *)

Definition quota_check (c : PoolConfig) (task : Task) (per_user_counts : gmap string Z)
    (in_use_count : Z) : result QuotaError unit :=
  let user := default "unknown" (task_labels task !! "user") in
  let user_count := default 0 (per_user_counts !! user) in
  if (0 <? max_per_user c) && (max_per_user c <=? user_count) then
    Err (UserQuotaExceeded user user_count (max_per_user c))
  else if (0 <? max_concurrent c) && (max_concurrent c <=? in_use_count) then
    Err (ConcurrentQuotaExceeded in_use_count (max_concurrent c))
  else Ok ().

(** [QuotaError]'s [Display] *)
Definition quota_text (e : QuotaError) : string :=
  match e with
  | UserQuotaExceeded user current max =>
      "User " +:+ user +:+ " has " +:+ pretty current +:+ "/" +:+ pretty max
        +:+ " VMs (max per user exceeded)"
  | ConcurrentQuotaExceeded current max =>
      "Pool has " +:+ pretty current +:+ "/" +:+ pretty max
        +:+ " concurrent tasks (max concurrent exceeded)"
  end.

(** ** The pool *)

Definition in_use_count (p : VmPool) : Z := Z.of_nat (size (in_use p)).
Definition total_count (p : VmPool) : Z := len (available p) + in_use_count p.

Definition per_user_counts (p : VmPool) : gmap string Z := ∅.

Definition check_quota (p : VmPool) (task : Task) : result QuotaError unit :=
  quota_check (config p) task (per_user_counts p) (in_use_count p).

(** [format!("agent-pool-{:02}", n)] and the address [provision_vm] gives. *)
Definition pool_vm_name (n : Z) : string :=
  "agent-pool-" +:+ (if n <? 10 then "0" +:+ pretty n else pretty n).
Definition pool_vm_ip (n : Z) : string := "192.168.122." +:+ pretty n.

(** [provision_vm] before its await: the name and address it will return. *)
Definition provision_name (p : VmPool) : string * string :=
  (pool_vm_name (total_count p + 1), pool_vm_ip (100 + total_count p)).

Definition count (f : PoolMetrics → PoolMetrics) (p : VmPool) : VmPool := p <| metrics ::= f |>.
Definition incr (n : Z) : Z := wrap_add u64_max n 1.

(** The end of [acquire]: the VM is tracked under the task. *)
Definition track (task : Task) (vm : PooledVm) (p : VmPool) : VmPool :=
  count (λ m, m <| total_acquisitions ::= incr |>)
    (p <| in_use ::= <[task_id task := vm]> |>).

Inductive Acquiring : Type :=
| Acquired (vm : PooledVm)
| AcquireFailed (e : PoolError)
| Provisioning (name ip : string).

Definition acquire_begin (now : Z) (p : VmPool) (task : Task) : VmPool * Acquiring :=
  match check_quota p task with
  | Err e => (p, AcquireFailed (QuotaExceeded (quota_text e)))
  | Ok _ =>
      match available p with
      | vm :: rest =>
          let vm' := assign now (task_id task) vm in
          let p1 := count (λ m, m <| cache_hits ::= incr |>) (p <| available := rest |>) in
          (track task vm' p1, Acquired vm')
      | [] =>
          if max_size (config p) <=? total_count p
          then (p, AcquireFailed (PoolExhausted (max_size (config p))))
          else let (name, ip) := provision_name p in (p, Provisioning name ip)
      end
  end.

Definition acquire_provisioned (now : Z) (p : VmPool) (task : Task) (name ip : string)
    : VmPool * PooledVm :=
  let vm := assign now (task_id task) (vm_new now name ip) in
  let p1 := count (λ m, m <| cache_misses ::= incr |> <| total_provisioned ::= incr |>) p in
  (track task vm p1, vm).

Definition acquire (now : Z) (p : VmPool) (task : Task) : VmPool * result PoolError PooledVm :=
  let (p1, a) := acquire_begin now p task in
  match a with
  | Acquired vm => (p1, Ok vm)
  | AcquireFailed e => (p1, Err e)
  | Provisioning name ip => let (p2, vm) := acquire_provisioned now p1 task name ip in (p2, Ok vm)
  end.

Definition release (now : Z) (p : VmPool) (task : string) : VmPool * result PoolError unit :=
  match in_use p !! task with
  | None => (p, Err (TaskNotFound task))
  | Some vm =>
      let vm' := vm_release now vm in
      let p1 := count (λ m, m <| total_releases ::= incr |>) (p <| in_use ::= delete task |>) in
      if len (available p1) <? min_ready (config p1)
      then (p1 <| available ::= λ l, l ++ [vm'] |>, Ok ())
      else (count (λ m, m <| total_destroyed ::= incr |>) p1, Ok ())
  end.

Definition cleanup_idle_vms (now : Z) (p : VmPool) : VmPool :=
  let idle := is_idle now (idle_timeout (config p)) in
  let destroyed := filter (λ vm, idle vm = true) (available p) in
  count (λ m, m <| total_destroyed ::= λ n, foldl (λ n _, incr n) n destroyed |>)
    (p <| available ::= filter (λ vm, idle vm = false) |>).

(** The loop of [maintain], [needed] rounds at most. *)
Fixpoint provision_loop (now : Z) (needed : nat) (p : VmPool) : VmPool :=
  match needed with
  | O => p
  | S needed' =>
      if max_size (config p) <=? total_count p then p
      else
        let (name, ip) := provision_name p in
        provision_loop now needed'
          (count (λ m, m <| total_provisioned ::= incr |>)
             (p <| available ::= λ l, l ++ [vm_new now name ip] |>))
  end.

Definition maintain (now : Z) (p : VmPool) : VmPool :=
  let p1 := cleanup_idle_vms now p in
  let needed := sat_sub (min_ready (config p1)) (len (available p1)) in
  provision_loop now (Z.to_nat needed) p1.

(** ** Runs of the pool, one operation at a time *)

Inductive pool_step : VmPool → VmPool → Prop :=
| step_acquire now p task : pool_step p (acquire now p task).1
| step_release now p task : pool_step p (release now p task).1
| step_maintain now p : pool_step p (maintain now p).

Definition pool_reachable (c : PoolConfig) (p : VmPool) : Prop := rtc pool_step (pool_new c) p.

(** ** The invariant *)

Record pool_inv (c : PoolConfig) (p : VmPool) : Prop := {
  pi_config : config p = c;
  pi_total : total_count p <= max_size c;
  pi_concurrent : 0 < max_concurrent c → in_use_count p <= max_concurrent c;
  pi_in_use : map_Forall (λ t vm, vm_assigned_task vm = Some t) (in_use p);
  pi_available : Forall (λ vm, vm_assigned_task vm = None) (available p);
}.

Lemma size_insert_le {A} (m : gmap string A) k v :
  Z.of_nat (size (<[k := v]> m)) <= Z.of_nat (size m) + 1.
Proof. rewrite map_size_insert. destruct (m !! k); simpl; lia. Qed.

Lemma size_delete_present {A} (m : gmap string A) k v :
  m !! k = Some v → Z.of_nat (size (delete k m)) = Z.of_nat (size m) - 1.
Proof.
  intros Hk. pose proof (map_size_ne_0_lookup_2 m k (ex_intro _ _ Hk)).
  rewrite map_size_delete, Hk. simpl. lia.
Qed.

Lemma check_quota_Ok p task :
  check_quota p task = Ok () ↔
  (0 < max_concurrent (config p) → in_use_count p < max_concurrent (config p)).
Proof.
  unfold check_quota, quota_check, per_user_counts. rewrite lookup_empty. simpl.
  destruct (0 <? max_per_user (config p)) eqn:Hu, (max_per_user (config p) <=? 0) eqn:Hu',
    (0 <? max_concurrent (config p)) eqn:Hc, (max_concurrent (config p) <=? in_use_count p) eqn:Hc';
    reflect_bools; simpl; naive_solver lia.
Qed.

Ltac solve_size :=
  match goal with |- context [<[?k := ?v]> ?m] => pose proof (size_insert_le m k v) end;
  lia.

Lemma acquire_inv c now p task : pool_inv c p → pool_inv c (acquire now p task).1.
Proof.
  intros [Hcfg Htot Hcon Huse Hav]. unfold acquire, acquire_begin.
  destruct (check_quota p task) as [[]|] eqn:Hq; [|by constructor].
  rewrite check_quota_Ok, Hcfg in Hq.
  destruct (available p) as [|vm rest] eqn:Ha.
  - destruct (_ <=? _) eqn:Hmax; simpl; [by constructor; rewrite ?Ha|]. reflect_bools.
    constructor; unfold total_count, in_use_count in *; simpl; rewrite ?Ha, ?Hcfg in *;
      try done; try solve_size. by apply map_Forall_insert_2.
  - simpl. apply Forall_cons in Hav as [Hvm Hav].
    constructor; unfold total_count, in_use_count in *; simpl; rewrite ?Ha, ?len_cons in *;
      try done; try solve_size. by apply map_Forall_insert_2.
Qed.

Lemma release_inv c now p task : pool_inv c p → pool_inv c (release now p task).1.
Proof.
  intros [Hcfg Htot Hcon Huse Hav]. unfold release.
  destruct (in_use p !! task) as [vm|] eqn:Hvm; [|by constructor].
  pose proof (size_delete_present _ _ _ Hvm).
  destruct (_ <? _); constructor; unfold count, total_count, in_use_count in *; simpl;
    rewrite ?len_app in *; try done; try (unfold len in *; simpl; lia);
    try (by apply map_Forall_delete).
  apply Forall_app. split; [done|]. by repeat constructor.
Qed.

Lemma len_filter_le {A} (P : A → Prop) `{!∀ x, Decision (P x)} (l : list A) :
  len (filter P l) <= len l.
Proof. unfold len. pose proof (length_filter P l). lia. Qed.

Lemma cleanup_inv c now p : pool_inv c p → pool_inv c (cleanup_idle_vms now p).
Proof.
  intros [Hcfg Htot Hcon Huse Hav]. unfold cleanup_idle_vms.
  pose proof (len_filter_le (λ vm, is_idle now (idle_timeout (config p)) vm = false) (available p)).
  constructor; unfold count, total_count, in_use_count in *; simpl; try done; [lia|].
  rewrite Forall_forall in *. intros vm [_ Hvm]%list_elem_of_filter. auto.
Qed.

Lemma provision_loop_inv c now k p : pool_inv c p → pool_inv c (provision_loop now k p).
Proof.
  revert p. induction k as [|k IH]; intros p Hinv; simpl; [done|].
  destruct (_ <=? _) eqn:Hmax; [done|]. reflect_bools. apply IH.
  destruct Hinv as [Hcfg Htot Hcon Huse Hav]. rewrite Hcfg in Hmax.
  constructor; unfold count, total_count, in_use_count in *; simpl; rewrite ?len_app in *; try done.
  - unfold len in *. simpl. lia.
  - apply Forall_app. split; [done|]. by repeat constructor.
Qed.

Lemma step_pool_inv c p p' : pool_step p p' → pool_inv c p → pool_inv c p'.
Proof.
  intros [] Hinv; [by apply acquire_inv|by apply release_inv|].
  unfold maintain. by apply provision_loop_inv, cleanup_inv.
Qed.

(** The pool stays consistent: with operations running one at a time, the
    VMs in the pool never exceed the maximum size and the VMs in use never exceed
    a positive concurrency quota; a VM in use is assigned to the task it is
    tracked under, a VM in the queue to none. *)
Theorem pool_consistent c p : 0 <= max_size c → pool_reachable c p → pool_inv c p.
Proof.
  intros Hmax Hrun. apply (rtc_invariant _ _ _ _ (step_pool_inv c) Hrun).
  constructor; unfold total_count, in_use_count; simpl; rewrite ?map_size_empty; try done; lia.
Qed.

Lemma provision_loop_count now k p :
  in_use (provision_loop now k p) = in_use p ∧
  take (length (available p)) (available (provision_loop now k p)) = available p ∧
  len (available (provision_loop now k p)) =
    len (available p) + Z.min (Z.of_nat k) (Z.max 0 (max_size (config p) - total_count p)).
Proof.
  revert p. induction k as [|k IH]; intros p; simpl provision_loop.
  { rewrite take_ge by lia. split_and!; [done|done|lia]. }
  destruct (_ <=? _) eqn:Hmax; reflect_bools.
  { rewrite take_ge by lia. split_and!; [done|done|lia]. }
  simpl. match goal with |- context [provision_loop now k ?q] => destruct (IH q) as (Hu & Ht & Hl) end.
  unfold count, total_count, in_use_count in *. simpl in *. rewrite Hu, Hl. split_and!; [done| |].
  - apply (f_equal (take (length (available p)))) in Ht.
    by rewrite take_take, length_app, Nat.min_l, take_app_length in Ht by lia.
  - rewrite len_app in *. unfold len in *. simpl. lia.
Qed.

(** What maintenance achieves: idle VMs leave the queue and the others keep
    their order in front; the queue is then filled up to [min_ready], or as far
    as the maximum size allows, and never shrunk; VMs in use are untouched. *)
Theorem maintain_fills_pool now p :
  let kept := filter (λ vm, is_idle now (idle_timeout (config p)) vm = false) (available p) in
  in_use (maintain now p) = in_use p ∧
  take (length kept) (available (maintain now p)) = kept ∧
  len (available (maintain now p)) =
    Z.max (len kept) (Z.min (min_ready (config p)) (max_size (config p) - in_use_count p)).
Proof.
  cbv zeta. unfold maintain.
  match goal with |- context [provision_loop now ?k ?q] =>
    destruct (provision_loop_count now k q) as (Hu & Ht & Hl) end.
  rewrite Hu, Hl. split_and!; [done|exact Ht|].
  unfold cleanup_idle_vms, count, total_count, in_use_count, sat_sub. simpl. lia.
Qed.

(** ** Where the pool falls short of its description *)

(** The per-user quota never refuses anything: the per-user counts are always
    empty, so an acquisition is the same whatever the quota. *)
Theorem per_user_quota_inert now p task q :
  (acquire now (p <| config ::= λ c, c <| max_per_user := q |> |>) task).2 = (acquire now p task).2.
Proof.
  unfold acquire, acquire_begin.
  assert (∀ p task, check_quota p task =
    quota_check ((config p) <| max_per_user := 0 |>) task ∅ (in_use_count p)) as Hq.
  { clear. intros p task. unfold check_quota, quota_check, per_user_counts. simpl.
    rewrite lookup_empty. simpl. destruct (0 <? max_per_user (config p)) eqn:Hu; [|done].
    reflect_bools. by rewrite (proj2 (Z.leb_gt _ _)). }
  rewrite !Hq. simpl. destruct (quota_check _ _ _ _); [|done].
  destruct (available p) eqn:Ha; [|done]. unfold total_count, in_use_count. simpl. rewrite Ha.
  by destruct (max_size (config p) <=? _).
Qed.

Definition sample_task (id : string) : Task := {| task_id := id; task_labels := ∅ |}.

(** The maximum size is not a hard limit under concurrency: two acquisitions
    that both pass the size check before either VM is tracked leave a pool of
    maximum size 1 with two VMs. *)
Theorem concurrent_acquire_exceeds_max :
  let p0 := pool_new {| min_ready := 0; max_size := 1; idle_timeout := 3600;
                        max_per_user := 0; max_concurrent := 0 |} in
  ∃ name ip name' ip',
    acquire_begin 1 p0 (sample_task "a") = (p0, Provisioning name ip) ∧
    acquire_begin 1 p0 (sample_task "b") = (p0, Provisioning name' ip') ∧
    let p1 := (acquire_provisioned 2 p0 (sample_task "a") name ip).1 in
    let p2 := (acquire_provisioned 2 p1 (sample_task "b") name' ip').1 in
    total_count p2 = 2 ∧ max_size (config p2) = 1 ∧ name = name'.
Proof. cbv zeta. do 4 eexists. by vm_compute. Qed.

Definition sample_pool_0 : VmPool :=
  pool_new {| min_ready := 0; max_size := 5; idle_timeout := 3600; max_per_user := 0;
              max_concurrent := 0 |}.
Definition sample_pool_2 : VmPool :=
  (acquire 2 (acquire 1 sample_pool_0 (sample_task "a")).1 (sample_task "b")).1.
Definition sample_pool_4 : VmPool :=
  (acquire 4 (release 3 sample_pool_2 "a").1 (sample_task "c")).1.

(** VM names are not unique: the name is the number of VMs, so after one of two
    VMs is destroyed the next one provisioned is named like the one still in use. *)
Theorem provisioned_name_collides :
  vm_name <$> in_use sample_pool_4 !! "b" = Some "agent-pool-02" ∧
  vm_name <$> in_use sample_pool_4 !! "c" = Some "agent-pool-02".
Proof. by vm_compute. Qed.

Lemma pool_consistent_witness : pool_inv (config sample_pool_0) sample_pool_4.
Proof.
  apply (pool_consistent (config sample_pool_0) sample_pool_4).
  - vm_compute. discriminate.
  - eapply rtc_l; [apply (step_acquire 1 sample_pool_0 (sample_task "a"))|].
    eapply rtc_l; [apply (step_acquire 2 _ (sample_task "b"))|].
    eapply rtc_l; [apply (step_release 3 _ "a")|].
    apply rtc_once, (step_acquire 4 _ (sample_task "c")).
Defined.
