(* ===== verification/CrashLoop.v ===== *)
(** * Crash loop detection

    Models management/src/crash_loop.rs: the histories of the virtual machines,
    the detector's reaction to lifecycle events, the rebuild it triggers, and
    the counters' reset.

    Events are handled one after the other by one task, which awaits a rebuild
    before it takes the next event; the outcome of the rebuild's three commands
    is an argument ([RebuildRun]).  An event handler reads the clock once. *)

From S2P Require Import Prelude Text.

Local Open Scope string_scope.
Local Open Scope list_scope.
Local Open Scope Z_scope.

Record CrashLoopConfig : Type := {
  max_restarts : Z;
  window_minutes : Z;
  min_uptime_seconds : Z;
  healthy_reset_minutes : Z;
  remediation_enabled : bool;
  max_rebuild_attempts : Z;
  rebuild_cooldown_minutes : Z;
}.

Definition default_crash_config : CrashLoopConfig :=
  {| max_restarts := 5; window_minutes := 10; min_uptime_seconds := 60; healthy_reset_minutes := 5;
     remediation_enabled := true; max_rebuild_attempts := 3; rebuild_cooldown_minutes := 30 |}.

Inductive VmState : Type := Healthy | Recovering | Starting | InCrashLoop | Rebuilding | VmFailed.
#[export] Instance VmState_eq_dec : EqDecision VmState.
Proof. solve_decision. Defined.

Definition vm_state_text (s : VmState) : string :=
  match s with
  | Healthy => "healthy"
  | Recovering => "recovering"
  | Starting => "starting"
  | InCrashLoop => "crash_loop"
  | Rebuilding => "rebuilding"
  | VmFailed => "failed"
  end.

Record CrashEvent : Type := {
  ce_timestamp : Z;
  ce_uptime_seconds : option Z;
  ce_reason : string;
}.

Record VmCrashHistory : Type := {
  vm_name : string;
  vm_state : VmState;
  restart_events : list CrashEvent;
  rebuild_count : Z;
  last_healthy_boot : option Z;
  last_start_time : option Z;
  last_rebuild : option Z;
}.

Definition new_history (name : string) : VmCrashHistory :=
  {| vm_name := name; vm_state := Healthy; restart_events := []; rebuild_count := 0;
     last_healthy_boot := None; last_start_time := None; last_rebuild := None |}.

(** [chrono::Duration::minutes] *)
Definition minutes (n : Z) : Z := n * 60000000000.

Definition restarts_in_window (now : Z) (h : VmCrashHistory) (window : Z) : Z :=
  len (filter (λ e, now - minutes window < ce_timestamp e) (restart_events h)).

Definition should_reset (now : Z) (h : VmCrashHistory) (reset : Z) : bool :=
  match last_healthy_boot h with
  | Some last_healthy =>
      (last_healthy <? now - minutes reset) && bool_decide (vm_state h = Healthy)
  | None => false
  end.

Definition prune_old_events (now : Z) (window : Z) (h : VmCrashHistory) : VmCrashHistory :=
  h <| restart_events ::= filter (λ e, now - minutes (window * 2) < ce_timestamp e) |>.

Record CrashLoopNotification : Type := {
  cl_vm_name : string;
  cl_event_type : string;
  cl_state : VmState;
  cl_restart_count : Z;
  cl_rebuild_count : Z;
  cl_timestamp : Z;
  cl_message : string;
}.

Abbreviation Histories := (gmap string VmCrashHistory).

(** The events of a machine that matter here; the others are [OtherEvent]. *)
Inductive VmEventType : Type := EvStarted | EvCrashed | EvStopped | OtherEvent.

Record VmEvent : Type := {
  ve_vm_name : string;
  ve_type : VmEventType;
  ve_reason : option string;
  ve_uptime_seconds : option Z;
}.

(** What the commands of a rebuild do: [false] for a command that could not be
    run; the provisioning script may also run and fail. *)
Inductive ProvisionRun : Type := Provisioned | ProvisionFailed | ProvisionNotRun.
Record RebuildRun : Type := {
  rr_destroy : bool;
  rr_undefine : bool;
  rr_provision : ProvisionRun;
}.

(** The commands the detector runs. *)
Inductive VmCommand : Type := CmdDestroy (vm : string) | CmdUndefine (vm : string) | CmdProvision (vm : string).

Record Effects : Type := {
  fx_notifications : list CrashLoopNotification;
  fx_commands : list VmCommand;
}.

Definition no_effects : Effects := {| fx_notifications := []; fx_commands := [] |}.

Section detector.
Variable cfg : CrashLoopConfig.
Implicit Types (hs : Histories) (now : Z) (name : string).

(** [entry(..).or_insert_with(..)] *)
Definition history_of hs name : VmCrashHistory := default (new_history name) (hs !! name).

Definition handle_started now hs name : Histories :=
  <[name := (history_of hs name) <| vm_state := Starting |> <| last_start_time := Some now |>]> hs.

Definition is_boot_crash (uptime : option Z) : bool :=
  match uptime with Some u => u <? min_uptime_seconds cfg | None => true end.

Definition loop_notification now name (h : VmCrashHistory) (restarts : Z) (event_type message : string)
    : CrashLoopNotification :=
  {| cl_vm_name := name; cl_event_type := event_type; cl_state := vm_state h; cl_restart_count := restarts;
     cl_rebuild_count := rebuild_count h; cl_timestamp := now; cl_message := message |}.

(** The locked part of the handling of a crash: the new history, the
    notification and whether to rebuild. *)
Definition record_crash now name (h : VmCrashHistory) (uptime : option Z) (reason : string)
    : VmCrashHistory * option CrashLoopNotification * bool :=
  let h := h <| restart_events ::= (.++ [{| ce_timestamp := now; ce_uptime_seconds := uptime; ce_reason := reason |}]) |>
             <| vm_state := Recovering |> in
  let restarts := restarts_in_window now h (window_minutes cfg) in
  let '(h, notification, remediate) :=
    if (max_restarts cfg <=? restarts) && is_boot_crash uptime then
      if max_rebuild_attempts cfg <=? rebuild_count h then
        let h := h <| vm_state := VmFailed |> in
        (h, Some (loop_notification now name h restarts "crash_loop_failed"
               ("VM " +:+ name +:+ " has failed after " +:+ pretty (rebuild_count h) +:+
                " rebuild attempts. Manual intervention required.")), false)
      else
        let h := h <| vm_state := InCrashLoop |> in
        (h, Some (loop_notification now name h restarts "crash_loop_detected"
               ("VM " +:+ name +:+ " is in a crash loop (" +:+ pretty restarts +:+ " restarts in " +:+
                pretty (window_minutes cfg) +:+ " min). Triggering rebuild.")), remediation_enabled cfg)
    else (h, None, false) in
  (prune_old_events now (window_minutes cfg) h, notification, remediate).

(** The state a rebuild starts in. *)
Definition rebuild_begin now hs name : Histories :=
  match hs !! name with
  | Some h => <[name := h <| vm_state := Rebuilding |> <| rebuild_count ::= Z.succ |> <| last_rebuild := Some now |>]> hs
  | None => hs
  end.

Definition mark_failed hs name : Histories :=
  match hs !! name with Some h => <[name := h <| vm_state := VmFailed |>]> hs | None => hs end.

Definition trigger_rebuild now hs name (run : RebuildRun) : Histories * Effects :=
  let hs := rebuild_begin now hs name in
  if negb (rr_destroy run) then (hs, {| fx_notifications := []; fx_commands := [CmdDestroy name] |})
  else if negb (rr_undefine run) then
    (hs, {| fx_notifications := []; fx_commands := [CmdDestroy name; CmdUndefine name] |})
  else
    let commands := [CmdDestroy name; CmdUndefine name; CmdProvision name] in
    match rr_provision run with
    | Provisioned =>
        (hs, {| fx_notifications := [{| cl_vm_name := name; cl_event_type := "vm_rebuilt"; cl_state := Starting;
                  cl_restart_count := 0;
                  cl_rebuild_count := from_option rebuild_count 0 (hs !! name); cl_timestamp := now;
                  cl_message := "VM " +:+ name +:+ " has been rebuilt from base image" |}];
                fx_commands := commands |})
    | ProvisionFailed | ProvisionNotRun =>
        (mark_failed hs name, {| fx_notifications := []; fx_commands := commands |})
    end.

Definition handle_crash now hs name (uptime : option Z) (reason : string) (run : RebuildRun)
    : Histories * Effects :=
  let '(h, notification, remediate) := record_crash now name (history_of hs name) uptime reason in
  let hs := <[name := h]> hs in
  let sent := option_list notification in
  if remediate : bool then
    let '(hs, fx) := trigger_rebuild now hs name run in
    (hs, {| fx_notifications := sent ++ fx_notifications fx; fx_commands := fx_commands fx |})
  else (hs, {| fx_notifications := sent; fx_commands := [] |}).

Definition process_event now hs (event : VmEvent) (run : RebuildRun) : Histories * Effects :=
  let name := ve_vm_name event in
  match ve_type event with
  | EvStarted => (handle_started now hs name, no_effects)
  | EvCrashed => handle_crash now hs name (ve_uptime_seconds event) "crashed" run
  | EvStopped =>
      if bool_decide (ve_reason event = Some "crashed")
      then handle_crash now hs name (ve_uptime_seconds event) "crashed" run else (hs, no_effects)
  | OtherEvent => (hs, no_effects)
  end.

Definition mark_healthy now hs name : Histories :=
  match hs !! name with
  | None => hs
  | Some h =>
      let h := if bool_decide (vm_state h = Starting) || bool_decide (vm_state h = Recovering)
        then h <| vm_state := Healthy |> <| last_healthy_boot := Some now |> else h in
      let h := if should_reset now h (healthy_reset_minutes cfg)
        then h <| restart_events := [] |> <| rebuild_count := 0 |> else h in
      <[name := h]> hs
  end.

Definition get_state hs name : option VmState := vm_state <$> hs !! name.

End detector.

(** ** Runs

    A run is a list of timed events with the outcome of the rebuild each may
    trigger. *)

Section runs.
Variable cfg : CrashLoopConfig.
Implicit Types (hs : Histories) (now : Z) (name : string).

Abbreviation Timed := (Z * (VmEvent * RebuildRun))%type.

Definition step hs (e : Timed) : Histories := (process_event cfg e.1 hs e.2.1 e.2.2).1.
Definition step_effects hs (e : Timed) : Effects := (process_event cfg e.1 hs e.2.1 e.2.2).2.

Definition run_events hs (l : list Timed) : Histories := foldl step hs l.

Fixpoint run_effects hs (l : list Timed) : list Effects :=
  match l with
  | [] => []
  | e :: l' => step_effects hs e :: run_effects (step hs e) l'
  end.

(** An event that counts as a crash of [name]. *)
Definition is_crash (e : VmEvent) : bool :=
  match ve_type e with
  | EvCrashed => true
  | EvStopped => bool_decide (ve_reason e = Some "crashed")
  | _ => false
  end.

Definition crash_of name (e : Timed) : bool := is_crash e.2.1 && bool_decide (ve_vm_name e.2.1 = name).

(** The rebuilds of [name] among some effects: its virsh destroys. *)
Definition is_rebuild name (c : VmCommand) : bool :=
  match c with CmdDestroy vm => bool_decide (vm = name) | _ => false end.
Definition rebuilds name (fxs : list Effects) : Z :=
  sum_with (λ fx, len (filter (λ c, is_rebuild name c = true) (fx_commands fx))) fxs.

(** One event, seen by one machine. *)
Lemma process_event_cases now hs event run :
  process_event cfg now hs event run =
  if is_crash event then handle_crash cfg now hs (ve_vm_name event) (ve_uptime_seconds event) "crashed" run
  else match ve_type event with
    | EvStarted => (handle_started now hs (ve_vm_name event), no_effects)
    | _ => (hs, no_effects)
    end.
Proof. unfold process_event, is_crash. by destruct (ve_type event); [..|case_match|]. Qed.

Lemma trigger_rebuild_other now hs name run other :
  name ≠ other → (trigger_rebuild now hs name run).1 !! other = hs !! other.
Proof.
  intros Hne. assert (Hb : rebuild_begin now hs name !! other = hs !! other).
  { unfold rebuild_begin. case_match; [by rewrite lookup_insert_ne|done]. }
  unfold trigger_rebuild, mark_failed. repeat case_match; cbn [fst]; rewrite ?lookup_insert_ne by done; done.
Qed.

(** An event of one machine leaves the histories of the others. *)
Lemma step_other hs e name : ve_vm_name e.2.1 ≠ name → step hs e !! name = hs !! name.
Proof.
  intros Hne. unfold step. rewrite process_event_cases. destruct (is_crash _).
  - unfold handle_crash. destruct (record_crash _ _ _ _ _ _) as [[h n] []].
    + destruct (trigger_rebuild _ _ _ _) as [hs' fx] eqn:Ht.
      pose proof (f_equal fst Ht) as Hf. cbn [fst] in *. subst hs'.
      by rewrite trigger_rebuild_other, lookup_insert_ne.
    + cbn [fst]. by rewrite lookup_insert_ne.
  - destruct (ve_type _); cbn [fst]; try done. unfold handle_started. by rewrite lookup_insert_ne.
Qed.

Lemma trigger_rebuild_own now hs name run h :
  hs !! name = Some h →
  ∃ st, (trigger_rebuild now hs name run).1 !! name =
    Some (h <| vm_state := st |> <| rebuild_count ::= Z.succ |> <| last_rebuild := Some now |>).
Proof.
  intros Hh. unfold trigger_rebuild, mark_failed, rebuild_begin. rewrite Hh. rewrite lookup_insert_eq.
  repeat case_match; cbn [fst]; rewrite lookup_insert_eq; by eexists.
Qed.

Lemma trigger_rebuild_commands now hs name run other :
  len (filter (λ c, is_rebuild other c = true) (fx_commands (trigger_rebuild now hs name run).2)) =
  if decide (name = other) then 1 else 0.
Proof.
  unfold trigger_rebuild. repeat case_match; cbn [snd fx_commands]; unfold is_rebuild, len;
    rewrite !filter_cons; repeat case_decide; cbn [length filter]; try done;
    repeat match goal with
    | H : bool_decide _ = true |- _ => apply bool_decide_eq_true in H
    | H : ¬ bool_decide _ = true |- _ => rewrite bool_decide_eq_true in H
    end; done.
Qed.

(** *** One machine's history *)

Definition crash_time name (e : Timed) : option Z := if crash_of name e then Some e.1 else None.
Definition crash_times name (l : list Timed) : list Z := omap (crash_time name) l.

Definition after (cut : Z) (ts : list Z) : list Z := filter (λ t, cut < t) ts.

(** Whether a crash at [now] leads to a rebuild. *)
Definition rebuild_due now (h : VmCrashHistory) (uptime : option Z) : bool :=
  (max_restarts cfg <=? len (after (now - minutes (window_minutes cfg)) ((ce_timestamp <$> restart_events h) ++ [now])))
  && is_boot_crash cfg uptime && (rebuild_count h <? max_rebuild_attempts cfg) && remediation_enabled cfg.

Lemma after_timestamps cut (l : list CrashEvent) :
  ce_timestamp <$> filter (λ e, cut < ce_timestamp e) l = after cut (ce_timestamp <$> l).
Proof.
  induction l as [|e l IH]; [done|]. rewrite fmap_cons. unfold after. rewrite !filter_cons.
  case_decide; [rewrite fmap_cons|]; unfold after in IH; by rewrite IH.
Qed.

Lemma len_after cut (l : list CrashEvent) :
  len (filter (λ e, cut < ce_timestamp e) l) = len (after cut (ce_timestamp <$> l)).
Proof. rewrite <-after_timestamps. unfold len. by rewrite length_fmap. Qed.

Section recorded.
Context (now : Z) (h : VmCrashHistory) (uptime : option Z) (reason : string) (st : VmState).

Definition recorded : VmCrashHistory :=
  h <| restart_events ::= (.++ [{| ce_timestamp := now; ce_uptime_seconds := uptime; ce_reason := reason |}]) |>
    <| vm_state := st |>.

Lemma recorded_timestamps : ce_timestamp <$> restart_events recorded = (ce_timestamp <$> restart_events h) ++ [now].
Proof. unfold recorded. simpl. by rewrite fmap_app. Qed.

Lemma recorded_restarts w :
  restarts_in_window now recorded w = len (after (now - minutes w) ((ce_timestamp <$> restart_events h) ++ [now])).
Proof. unfold restarts_in_window. by rewrite len_after, recorded_timestamps. Qed.

Lemma recorded_pruned w :
  rebuild_count (prune_old_events now w recorded) = rebuild_count h ∧
  ce_timestamp <$> restart_events (prune_old_events now w recorded) =
    after (now - minutes (w * 2)) ((ce_timestamp <$> restart_events h) ++ [now]).
Proof.
  split; [done|]. etransitivity; [apply after_timestamps|]. by rewrite recorded_timestamps.
Qed.
End recorded.

Lemma record_crash_spec now name h uptime reason h' n remediate :
  record_crash cfg now name h uptime reason = (h', n, remediate) →
  remediate = rebuild_due now h uptime ∧ rebuild_count h' = rebuild_count h ∧
  ce_timestamp <$> restart_events h' =
    after (now - minutes (window_minutes cfg * 2)) ((ce_timestamp <$> restart_events h) ++ [now]).
Proof.
  unfold record_crash, rebuild_due. cbv zeta. fold (recorded now h uptime reason Recovering).
  rewrite recorded_restarts. set (restarts := len _).
  change (rebuild_count (recorded now h uptime reason Recovering)) with (rebuild_count h).
  destruct (max_restarts cfg <=? restarts), (is_boot_crash cfg uptime); cbn [andb];
    try (intros [= <- <- <-]; split; [done|apply recorded_pruned]).
  destruct (Z.leb_spec (max_rebuild_attempts cfg) (rebuild_count h)) as [Hmax|Hmax]; intros [= <- <- <-].
  - rewrite (proj2 (Z.ltb_ge _ _)) by lia. split; [done|]. exact (recorded_pruned now h uptime reason VmFailed _).
  - rewrite (proj2 (Z.ltb_lt _ _)) by lia. split; [done|]. exact (recorded_pruned now h uptime reason InCrashLoop _).
Qed.

(** The history of the machine an event is about. *)
Lemma step_own hs e :
  let name := ve_vm_name e.2.1 in
  let h := history_of hs name in
  let due := is_crash e.2.1 && rebuild_due e.1 h (ve_uptime_seconds e.2.1) in
  let h' := history_of (step hs e) name in
  rebuild_count h' = rebuild_count h + (if due then 1 else 0) ∧
  ce_timestamp <$> restart_events h' =
    (if is_crash e.2.1
     then after (e.1 - minutes (window_minutes cfg * 2)) ((ce_timestamp <$> restart_events h) ++ [e.1])
     else ce_timestamp <$> restart_events h) ∧
  ∀ other, len (filter (λ c, is_rebuild other c = true) (fx_commands (step_effects hs e))) =
    if due && bool_decide (name = other) then 1 else 0.
Proof.
  intros name h due h'. subst h' due. unfold step, step_effects. rewrite process_event_cases. fold name.
  destruct (is_crash e.2.1); cbn [andb].
  - unfold handle_crash. fold h. destruct (record_crash _ _ _ _ _ _) as [[h1 n] remediate] eqn:Hr.
    apply record_crash_spec in Hr as (-> & Hc & Hts). destruct (rebuild_due _ _ _).
    + destruct (trigger_rebuild _ _ _ _) as [hs' fx] eqn:Ht. cbn [fst snd fx_commands].
      destruct (trigger_rebuild_own e.1 (<[name := h1]> hs) name e.2.2 h1) as [st Hst]; [apply lookup_insert_eq|].
      rewrite Ht in Hst. cbn [fst] in Hst. unfold history_of. rewrite Hst. cbn [default].
      split; [simpl; lia|]. split; [done|]. intros other.
      pose proof (trigger_rebuild_commands e.1 (<[name := h1]> hs) name e.2.2 other) as Hcmd.
      rewrite Ht in Hcmd. cbn [snd] in Hcmd. rewrite Hcmd. cbn [andb].
      destruct (decide (name = other)); [by rewrite bool_decide_eq_true_2|by rewrite bool_decide_eq_false_2].
    + cbn [fst snd fx_commands]. unfold history_of. rewrite lookup_insert_eq. cbn [default].
      split; [simpl; lia|]. split; done.
  - destruct (ve_type e.2.1); cbn [fst snd]; (split; [|split; [|done]]); try (by rewrite Z.add_0_r); try done;
      unfold handle_started, history_of; rewrite lookup_insert_eq; cbn [default]; fold (history_of hs name);
      fold h; simpl; try lia; done.
Qed.

(** *** Runs from an empty detector *)

Lemma run_events_snoc hs l e : run_events hs (l ++ [e]) = step (run_events hs l) e.
Proof. unfold run_events. by rewrite foldl_app. Qed.

Lemma run_effects_snoc hs l e : run_effects hs (l ++ [e]) = run_effects hs l ++ [step_effects (run_events hs l) e].
Proof. revert hs. induction l as [|e' l IH]; intros hs; [done|]. simpl. by rewrite IH. Qed.

Lemma rebuilds_snoc name fxs fx :
  rebuilds name (fxs ++ [fx]) = rebuilds name fxs + len (filter (λ c, is_rebuild name c = true) (fx_commands fx)).
Proof. unfold rebuilds. rewrite sum_with_app. simpl. lia. Qed.

(** The count of rebuilds a history keeps is the number that were triggered,
    and never exceeds the limit. *)
Lemma rebuild_count_exact name l :
  0 ≤ max_rebuild_attempts cfg →
  rebuild_count (history_of (run_events ∅ l) name) = rebuilds name (run_effects ∅ l) ∧
  rebuilds name (run_effects ∅ l) ≤ max_rebuild_attempts cfg.
Proof.
  intros Hmax. induction l as [|e l [IHc IHm]] using rev_ind; [done|].
  rewrite run_events_snoc, run_effects_snoc, rebuilds_snoc.
  pose proof (step_own (run_events ∅ l) e) as (Hc & _ & Hfx). rewrite Hfx.
  destruct (decide (ve_vm_name e.2.1 = name)) as [<-|Hne].
  - rewrite (bool_decide_eq_true_2 (ve_vm_name e.2.1 = _)) by done. rewrite andb_true_r.
    destruct (is_crash _ && _) eqn:Hdue; [|lia]. unfold rebuild_due in Hdue. lia.
  - rewrite (bool_decide_eq_false_2 (ve_vm_name e.2.1 = _)) by done. rewrite andb_false_r, Z.add_0_r.
    unfold history_of. by rewrite step_other.
Qed.

Lemma after_after cut cut' ts : cut' ≤ cut → after cut (after cut' ts) = after cut ts.
Proof.
  intros Hle. unfold after. induction ts as [|t ts IH]; [done|]. rewrite !filter_cons.
  destruct (decide (cut' < t)); [rewrite filter_cons|]; rewrite IH; [done|]. by rewrite decide_False by lia.
Qed.

Lemma after_app cut ts ts' : after cut (ts ++ ts') = after cut ts ++ after cut ts'.
Proof. apply filter_app. Qed.

Lemma crash_times_snoc name l e :
  crash_times name (l ++ [e]) = crash_times name l ++ if crash_of name e then [e.1] else [].
Proof. unfold crash_times. rewrite omap_app. f_equal. simpl. unfold crash_time. by destruct (crash_of name e). Qed.

(** Time does not run backwards. *)
Fixpoint sorted_from (t : Z) (l : list Timed) : Prop :=
  match l with [] => True | e :: l' => t ≤ e.1 ∧ sorted_from e.1 l' end.

Definition last_time (t : Z) (l : list Timed) : Z := from_option fst t (last l).

Lemma sorted_from_snoc t l e : sorted_from t (l ++ [e]) ↔ sorted_from t l ∧ last_time t l ≤ e.1.
Proof.
  revert t. induction l as [|e' l IH]; intros t; [unfold last_time; simpl; tauto|].
  simpl. rewrite IH. assert (Hl : last_time t (e' :: l) = last_time e'.1 l) by (unfold last_time; rewrite last_cons; by case_match).
  rewrite Hl. tauto.
Qed.

Lemma last_time_snoc t l e : last_time t (l ++ [e]) = e.1.
Proof. unfold last_time. by rewrite last_snoc. Qed.

(** Dropping the old restarts loses nothing the window still covers. *)
Lemma pruned_history_exact name t0 l cut :
  0 ≤ window_minutes cfg → sorted_from t0 l →
  last_time t0 l - minutes (window_minutes cfg * 2) ≤ cut →
  after cut (ce_timestamp <$> restart_events (history_of (run_events ∅ l) name)) = after cut (crash_times name l).
Proof.
  intros Hw. revert cut. induction l as [|e l IH] using rev_ind; intros cut; [done|].
  rewrite sorted_from_snoc, last_time_snoc, run_events_snoc. intros [Hs Hle] Hcut.
  specialize (IH cut Hs ltac:(lia)). rewrite crash_times_snoc, after_app, <-IH. unfold crash_of.
  destruct (decide (ve_vm_name e.2.1 = name)) as [<-|Hne].
  - destruct (step_own (run_events ∅ l) e) as (_ & -> & _). rewrite bool_decide_eq_true_2 by done.
    destruct (is_crash e.2.1); cbn [andb].
    + by rewrite after_after, after_app by lia.
    + by rewrite app_nil_r.
  - rewrite bool_decide_eq_false_2 by done. rewrite andb_false_r, app_nil_r. unfold history_of. by rewrite step_other.
Qed.


(** whatever happens to the machines, none is rebuilt more than
    [max_rebuild_attempts] times. *)
Theorem rebuilds_bounded l name :
  0 ≤ max_rebuild_attempts cfg → rebuilds name (run_effects ∅ l) ≤ max_rebuild_attempts cfg.
Proof. intros Hmax. by apply rebuild_count_exact. Qed.

End runs.

(** ** Samples *)

Definition crash_at (t : Z) : Z * (VmEvent * RebuildRun) :=
  (t, ({| ve_vm_name := "vm-1"; ve_type := EvCrashed; ve_reason := None; ve_uptime_seconds := Some 3 |},
       {| rr_destroy := true; rr_undefine := true; rr_provision := Provisioned |})).
Definition started_at (t : Z) : Z * (VmEvent * RebuildRun) :=
  (t, ({| ve_vm_name := "vm-1"; ve_type := EvStarted; ve_reason := None; ve_uptime_seconds := None |},
       {| rr_destroy := true; rr_undefine := true; rr_provision := Provisioned |})).


Lemma rebuilds_bounded_witness :
  rebuilds "vm-1" (run_effects default_crash_config ∅ ((λ n, crash_at (minutes n)) <$> [1; 1; 1; 1; 1; 1; 1; 1; 1; 1])) ≤ 3.
Proof. refine (rebuilds_bounded default_crash_config _ "vm-1" _). by vm_compute. Defined.

(** The cooldown between rebuilds is not consulted: with thirty minutes of it,
    two crashes at the same instant are two rebuilds. *)
Lemma cooldown_not_consulted :
  rebuild_cooldown_minutes default_crash_config = 30 ∧
  rebuilds "vm-1" (run_effects default_crash_config ∅ (crash_at <$> [0; 0; 0; 0; 0; 0])) = 2.
Proof. split; reflexivity. Qed.

(** A machine marked as failed is back in [Starting] when it starts again. *)
Lemma failed_machine_restarts :
  get_state (run_events default_crash_config ∅ (crash_at <$> repeat 0 8)) "vm-1" = Some VmFailed ∧
  get_state (run_events default_crash_config ∅ ((crash_at <$> repeat 0 8) ++ [started_at 1])) "vm-1" = Some Starting.
Proof. split; reflexivity. Qed.
