(* ===== verification/PtySession.v ===== *)
(** * PTY sessions of the pty-ws binding

    Models the shared half of
    management/agentic-sandbox-executor/src/bindings/pty_ws.rs: the scopes and
    tokens of the attach boundary, the roles and the roster of a session, its
    sequence counter, replay buffer, broadcast channel and terminal frame, the
    registry of sessions, and the binary frames; and the data of
    bindings/pty_bridge.rs.  PtyWs.v holds the operations and the connections.

    An instant is a number of nanoseconds.  The broadcast channel is the list
    of everything sent on it; a subscriber is a position in that list.  An
    append reads the clock once.  Sequence numbers are unbounded: no session
    produces 2^64 frames. *)

From S2P Require Import Prelude Text Http Json CelldAuth OperatorAuth.

Local Open Scope string_scope.
Local Open Scope list_scope.
Local Open Scope Z_scope.

(** The [STANDARD] base64 engine; decoding fails with the text of its error. *)
Class StdBase64 : Type := {
  std_encode : string → string;
  std_decode : string → result string string;
}.

(** ** Constants *)

Definition REPLAY_MAX_FRAMES : Z := 1000.
Definition REPLAY_MAX_AGE_HOURS : Z := 24.
Definition BROADCAST_BUFFER : Z := 256.
Definition BINDING_URI : string := "https://agentic-sandbox.aiwg.io/bindings/pty-ws/v1".
Definition SUBPROTOCOL : string := "pty-ws.v1".
Definition SUBPROTOCOL_BINARY : string := "pty-ws.v1.binary".
Definition PTY_EXTENSION_URI : string :=
  "https://agentic-sandbox.aiwg.io/extensions/pty-extensions/v1".
Definition BINARY_OUTPUT_MAGIC : string := "PW1O".
Definition BINARY_INPUT_MAGIC : string := "PW1I".
Definition BINARY_HEADER_LEN : Z := 13.
Definition STREAM_STDOUT : Z := 1.

(** [ChronoDuration::hours] *)
Definition hours (n : Z) : Z := n * 3600000000000.

(** ** Attach scopes *)

Inductive PtyAttachScope : Type := Observe | Control | Admin.
#[export] Instance PtyAttachScope_eq_dec : EqDecision PtyAttachScope.
Proof. solve_decision. Defined.

Definition scope_as_str (s : PtyAttachScope) : string :=
  match s with
  | Observe => "pty:observe"
  | Control => "pty:control"
  | Admin => "pty:admin"
  end.

Definition can_observe (s : PtyAttachScope) : bool :=
  match s with Observe | Control | Admin => true end.
Definition can_control (s : PtyAttachScope) : bool :=
  match s with Control | Admin => true | _ => false end.
Definition can_admin (s : PtyAttachScope) : bool :=
  match s with Admin => true | _ => false end.

(** ** Roles and members *)

Inductive Role : Type := Controller | Observer.
#[export] Instance Role_eq_dec : EqDecision Role.
Proof. solve_decision. Defined.

Definition role_as_str (r : Role) : string :=
  match r with Controller => "controller" | Observer => "observer" end.

(** The role on the bridge's side. *)
Inductive PtySessionRole : Type := BridgeController | BridgeObserver.
#[export] Instance PtySessionRole_eq_dec : EqDecision PtySessionRole.
Proof. solve_decision. Defined.

Definition to_bridge_role (r : Role) : PtySessionRole :=
  match r with Controller => BridgeController | Observer => BridgeObserver end.
Definition from_bridge_role (r : PtySessionRole) : Role :=
  match r with BridgeController => Controller | BridgeObserver => Observer end.

Record Member : Type := {
  mb_client_id : string;
  mb_role : Role;
  mb_joined_at : Z;
}.

(** ** Bridge data *)

Inductive SessionBackend : Type := Native | Screen | Zellij | Tmux.
#[export] Instance SessionBackend_eq_dec : EqDecision SessionBackend.
Proof. solve_decision. Defined.

Inductive SessionClass : Type := Direct | Managed.
#[export] Instance SessionClass_eq_dec : EqDecision SessionClass.
Proof. solve_decision. Defined.

Record SessionHostCapabilities : Type := {
  supported_backends : list SessionBackend;
  default_backend : SessionBackend;
  supported_classes : list SessionClass;
  default_class : SessionClass;
  observe_supported : bool;
  drive_supported : bool;
  reattach_supported : bool;
}.

Definition default_capabilities : SessionHostCapabilities :=
  {| supported_backends := [Native]; default_backend := Native;
     supported_classes := [Direct]; default_class := Direct;
     observe_supported := true; drive_supported := true; reattach_supported := true |}.

Record PtyStartCommand : Type := {
  argv : list string;
  cwd : option string;
  env : list (string * string);
  backend : SessionBackend;
  session_class : SessionClass;
  initial_cols : Z;
  initial_rows : Z;
}.

Definition default_start_command : PtyStartCommand :=
  {| argv := ["/bin/bash"; "-l"]; cwd := None; env := []; backend := Native;
     session_class := Direct; initial_cols := 80; initial_rows := 24 |}.

(** Events of the process side, with the canonical bus's number if it has one. *)
Inductive PtyBridgeEvent : Type :=
| EvOutput (data : string) (seq : option Z)
| EvKeyframe (data : string) (seq : option Z)
| EvResize (cols rows : Z) (seq : option Z)
| EvClosed (exit_code : option Z) (reason : string) (seq : option Z).

(** ** Session state *)

Inductive SessionBroadcast : Type :=
| BJson (seq : Z) (frame : json)
| BOutputBytes (seq : Z) (frame : json) (data : string).

Definition event_seq (e : SessionBroadcast) : Z :=
  match e with BJson seq _ | BOutputBytes seq _ _ => seq end.
Definition event_frame (e : SessionBroadcast) : json :=
  match e with BJson _ frame | BOutputBytes _ frame _ => frame end.

Record SessionState : Type := {
  ss_instance_id : string;
  ss_session_id : string;
  ss_created_at : Z;
  ss_replay : list (Z * json);
  ss_seq : Z;
  ss_members : list Member;
  ss_sent : list SessionBroadcast;
  ss_max_frames : Z;
  ss_retention : Z;
  ss_bridge_started : bool;
  ss_closed : bool;
}.

Definition new_session (now : Z) (instance_id session_id : string) : SessionState :=
  {| ss_instance_id := instance_id; ss_session_id := session_id; ss_created_at := now;
     ss_replay := []; ss_seq := 0; ss_members := []; ss_sent := [];
     ss_max_frames := REPLAY_MAX_FRAMES; ss_retention := hours REPLAY_MAX_AGE_HOURS;
     ss_bridge_started := false; ss_closed := false |}.

Definition try_mark_bridge_started (s : SessionState) : SessionState * bool :=
  (s <| ss_bridge_started := true |>, negb (ss_bridge_started s)).

Definition is_closed (s : SessionState) : bool := ss_closed s.

Section session.
Context `{Env, AuthEnv, StdBase64}.
Implicit Types (s : SessionState) (client_id : string).

(** ** Frames *)

Definition envelope (op : string) (seq : json) (now : Z) (payload : json) : json :=
  json_obj [("op", JStr op); ("seq", seq); ("ts", JStr (rfc3339 now)); ("payload", payload)].

(** The first half of an append: the number of the new frame. *)
Definition fetch_seq s : SessionState * Z := (s <| ss_seq ::= Z.succ |>, ss_seq s + 1).

(** The instant in a frame's [ts], if it parses. *)
Definition frame_time (frame : json) : option Z :=
  (json_get frame "ts" ≫= as_str) ≫= parse_from_rfc3339.

(** A frame past the retention: its [ts] parses and precedes the cutoff. *)
Definition too_old (cutoff : Z) (frame : json) : bool :=
  match frame_time frame with
  | Some t => t <? cutoff
  | None => false
  end.

(** Under the lock: the frame is pushed, the oldest ones beyond the capacity
    are dropped, then the ones past the retention. *)
Definition retain_frame (now : Z) s (seq : Z) (frame : json) : SessionState :=
  let buf := ss_replay s ++ [(seq, frame)] in
  let cutoff := now - ss_retention s in
  let buf := drop (Z.to_nat (len buf - ss_max_frames s)) buf in
  s <| ss_replay := filter (λ f, too_old cutoff f.2 = false) buf |>.

(** [broadcast_tx.send], its error ignored. *)
Definition send_event s (e : SessionBroadcast) : SessionState := s <| ss_sent ::= (.++ [e]) |>.

Definition append_frame (now : Z) s (kind : string) (payload : json) : SessionState :=
  let '(s, seq) := fetch_seq s in
  let frame := envelope kind (JNum seq) now payload in
  send_event (retain_frame now s seq frame) (BJson seq frame).

Definition append_output_bytes (now : Z) s (data : string) : SessionState :=
  let '(s, seq) := fetch_seq s in
  let frame := envelope "output" (JNum seq) now (json_obj [("data", JStr (std_encode data))]) in
  send_event (retain_frame now s seq frame) (BOutputBytes seq frame data).

Definition opt_num (o : option Z) : json := match o with Some n => JNum n | None => JNull end.

(** The flag is swapped: only the first caller appends. *)
Definition append_closed (now : Z) s (exit_code : option Z) (reason : string) : SessionState :=
  if ss_closed s then s
  else append_frame now (s <| ss_closed := true |>) "closed"
         (json_obj [("exit_code", opt_num exit_code); ("reason", JStr reason)]).

Definition replay_from s (since : Z) : list (Z * json) := filter (λ f, since < f.1) (ss_replay s).

Definition oldest_seq s : Z := match ss_replay s with (seq, _) :: _ => seq | [] => 0 end.

(** The check of a client's [replay_from]. *)
Definition out_of_range s (since : Z) : bool :=
  (since <? oldest_seq s) && (0 <? ss_seq s) && (0 <? oldest_seq s).

(** ** The roster *)

Definition is_controller_entry (m : Member) : bool := bool_decide (mb_role m = Controller).
Definition of_client client_id (m : Member) : bool := bool_decide (mb_client_id m = client_id).

Definition has_controller s : bool := existsb is_controller_entry (ss_members s).

Definition assign_role (now : Z) s client_id (may_control : bool) : SessionState * Role :=
  let role := if may_control && negb (has_controller s) then Controller else Observer in
  (s <| ss_members ::= (.++ [{| mb_client_id := client_id; mb_role := role; mb_joined_at := now |}]) |>,
   role).

Definition set_member_role s client_id (role : Role) : SessionState :=
  s <| ss_members ::= update_first (of_client client_id) (λ m, m <| mb_role := role |>) |>.

Definition drop_member s client_id : SessionState :=
  s <| ss_members ::= filter (λ m, of_client client_id m = false) |>.

Definition has_member s client_id : bool := existsb (of_client client_id) (ss_members s).

Definition is_controller s client_id : bool :=
  existsb (λ m, of_client client_id m && is_controller_entry m) (ss_members s).

Definition member_role s client_id : Role :=
  from_option mb_role Observer (find_first (of_client client_id) (ss_members s)).

Definition try_promote_to_controller s client_id (may_control : bool) : SessionState * Role :=
  if negb may_control then (s, Observer)
  else if negb (has_controller s) && has_member s client_id
  then (set_member_role s client_id Controller, Controller)
  else (s, member_role s client_id).

Definition demote_controller s client_id : SessionState :=
  s <| ss_members ::= fmap (λ m : Member,
    if of_client client_id m && is_controller_entry m then m <| mb_role := Observer |> else m) |>.

(** The payload of a [membership_changed] frame. *)
Definition members_json (members : list Member) : json :=
  json_obj [("members", JArr ((λ m : Member,
    json_obj [("client_id", JStr (mb_client_id m)); ("role", JStr (role_as_str (mb_role m)))])
    <$> members))].

Definition append_membership_changed (now : Z) s : SessionState :=
  append_frame now s "membership_changed" (members_json (ss_members s)).

Definition build_join_response (now : Z) s client_id (role : Role) : json :=
  envelope "role_assigned" (JNum (ss_seq s)) now
    (json_obj [("client_id", JStr client_id); ("role", JStr (role_as_str role))]).

Definition build_error_frame (now : Z) (code message : string) (status : Z) : json :=
  envelope "error" JNull now
    (json_obj [("code", JStr code); ("message", JStr message); ("status", JNum status)]).

Definition build_keyframe (now : Z) s : json :=
  envelope "keyframe" (JNum (ss_seq s)) now
    (json_obj [("cursor", JNum (ss_seq s)); ("frames", JArr (snd <$> ss_replay s))]).

(** ** Binary frames *)

Definition byte_of (n : Z) : Ascii.ascii := Ascii.ascii_of_N (Z.to_N (n `mod` 256)).

(** The [n] low bytes of [v], most significant first; [u64::to_be_bytes] is 8
    of them. *)
Fixpoint be_bytes (n : nat) (v : Z) : string :=
  match n with
  | O => EmptyString
  | S n' => String.String (byte_of (Z.shiftr v (8 * Z.of_nat n'))) (be_bytes n' v)
  end.

Definition build_binary_output_frame (seq : Z) (data : string) : string :=
  BINARY_OUTPUT_MAGIC +:+ be_bytes 8 seq +:+ String.String (byte_of STREAM_STDOUT) data.

Definition parse_binary_input_frame (now : Z) (frame : string) : result json string :=
  ok_or (strip_prefix frame BINARY_INPUT_MAGIC)
    (build_error_frame now "request.invalid_params" "Binary PTY input frames must start with PW1I" 400).

(** ** Tokens of the attach boundary *)

Definition hash_token (token : string) : string := hex_encode (sha256 token).

Record PtyAttachAuthConfig : Type := { tokens : gmap string PtyAttachScope }.

Definition new_attach_auth (entries : list (string * PtyAttachScope)) : PtyAttachAuthConfig :=
  {| tokens := foldl (λ m e, <[hash_token e.1 := e.2]> m) ∅ entries |}.

Definition resolve_token (cfg : PtyAttachAuthConfig) (token : string) : option PtyAttachScope :=
  tokens cfg !! hash_token token.

(** The two implementations of [PtyAttachAuthorizer]. *)
Inductive Authorizer : Type :=
| AttachTokens (cfg : PtyAttachAuthConfig)
| OperatorTokens (cfg : OperatorAuthConfig).

Definition operator_pty_scope (cfg : OperatorAuthConfig) (token : string) : option PtyAttachScope :=
  match resolve cfg token with
  | Some OperatorAuth.Admin => Some Admin
  | Some OperatorAuth.Operator => Some Control
  | None => None
  end.

Definition resolve_pty_scope (auth : Authorizer) (token : string) : option PtyAttachScope :=
  match auth with
  | AttachTokens cfg => resolve_token cfg token
  | OperatorTokens cfg => operator_pty_scope cfg token
  end.

Record AttachPrincipal : Type := {
  subject : string;
  scope : PtyAttachScope;
  authenticated : bool;
}.

Definition anonymous_admin : AttachPrincipal :=
  {| subject := "anonymous"; scope := Admin; authenticated := false |}.

Definition resolve_attach_principal (auth : option Authorizer) (bearer : option string)
    : result Z AttachPrincipal :=
  match auth with
  | None => Ok anonymous_admin
  | Some auth =>
      token ← ok_or bearer UNAUTHORIZED;
      sc ← ok_or (resolve_pty_scope auth token) UNAUTHORIZED;
      if negb (can_observe sc) then Err FORBIDDEN
      else Ok {| subject := "bearer:" +:+ String.substring 0 12 (hash_token token);
                 scope := sc; authenticated := true |}
  end.

End session.

(** ** The registry of sessions

    The map holds shared references: a session is a position in [sessions],
    and a reference outlives its key. *)

Record SessionRegistry : Type := {
  inner : gmap (string * string) nat;
  sessions : list SessionState;
}.

Definition new_registry : SessionRegistry := {| inner := ∅; sessions := [] |}.

Definition registry_get (r : SessionRegistry) (instance_id session_id : string) : option nat :=
  inner r !! (instance_id, session_id).

Definition get_or_create (now : Z) (r : SessionRegistry) (instance_id session_id : string)
    : SessionRegistry * nat :=
  match inner r !! (instance_id, session_id) with
  | Some addr => (r, addr)
  | None =>
      let addr := length (sessions r) in
      (r <| inner ::= <[(instance_id, session_id) := addr]> |>
         <| sessions ::= (.++ [new_session now instance_id session_id]) |>, addr)
  end.

Definition registry_close (r : SessionRegistry) (instance_id session_id : string) : SessionRegistry :=
  r <| inner ::= delete (instance_id, session_id) |>.

Definition registry_len (r : SessionRegistry) : Z := Z.of_nat (size (inner r)).

(** ** Appends against the log

    The log of a session is everything it has broadcast.  With a clock that
    does not go back, the replay buffer is a function of the log: the newest
    frames up to the capacity, without those past the retention. *)

Inductive Append : Type :=
| AFrame (kind : string) (payload : json)
| AOutput (data : string)
| AClosed (exit_code : option Z) (reason : string).

(** A property that holds from some element of a list on selects a suffix. *)
Definition upward {A} (P : A → Prop) (l : list A) : Prop :=
  ∀ i j x y, (i ≤ j)%nat → l !! i = Some x → l !! j = Some y → P x → P y.

Lemma upward_cons {A} (P : A → Prop) x l : upward P (x :: l) → upward P l.
Proof. intros Hu i j y z Hij Hy Hz. apply (Hu (S i) (S j)); [lia|done..]. Qed.

Lemma upward_head {A} (P : A → Prop) x l : upward P (x :: l) → P x → Forall P l.
Proof.
  intros Hu Hx. apply Forall_lookup. intros i y Hy. apply (Hu 0%nat (S i) x y); [lia|done..].
Qed.

Lemma filter_upward {A} (P : A → Prop) `{∀ x, Decision (P x)} l :
  upward P l → ∃ k, filter P l = drop k l ∧ Forall (λ x, ¬ P x) (take k l).
Proof.
  induction l as [|x l IH]; intros Hu; [by exists 0%nat|].
  destruct (decide (P x)) as [Hx|Hx].
  - exists 0%nat. split; [|done]. rewrite filter_cons_True by done. change (drop 0 (x :: l)) with (x :: l). f_equal.
    by apply filter_all, (upward_head _ x).
  - destruct IH as (k & Hk & Ht); [by apply (upward_cons _ x)|].
    exists (S k). rewrite filter_cons_False by done. split; [done|]. by constructor.
Qed.

Lemma filter_none {A} (P : A → Prop) `{∀ x, Decision (P x)} l :
  Forall (λ x, ¬ P x) l → filter P l = [].
Proof. induction 1 as [|x l Hx _ IH]; [done|]. by rewrite filter_cons_False. Qed.

(** Dropping more than the bound changes nothing when what is dropped fails. *)
Lemma filter_drop_more {A} (P : A → Prop) `{∀ x, Decision (P x)} (j m : nat) l :
  (∀ i x, (m ≤ i < j)%nat → l !! i = Some x → ¬ P x) →
  filter P (drop (j `max` m) l) = filter P (drop m l).
Proof.
  intros Hf. rewrite <-(take_drop (j - m) (drop m l)).
  rewrite filter_app, (filter_none _ (take (j - m) (drop m l))), drop_drop.
  - simpl. by replace (j `max` m)%nat with (m + (j - m))%nat by lia.
  - apply Forall_lookup. intros i x Hx. apply lookup_take_Some in Hx as [Hx Hi].
    rewrite lookup_drop in Hx. apply (Hf (m + i)%nat); [lia|done].
Qed.

Section appends.
Context `{Env, AuthEnv, StdBase64}.
Hypothesis ts_parses : ∀ t, parse_from_rfc3339 (rfc3339 t) = Some t.
Implicit Types (s : SessionState) (now : Z).

Definition do_append now s (a : Append) : SessionState :=
  match a with
  | AFrame kind payload => append_frame now s kind payload
  | AOutput data => append_output_bytes now s data
  | AClosed exit_code reason => append_closed now s exit_code reason
  end.

Definition appends s (l : list (Z * Append)) : SessionState :=
  foldl (λ s e, do_append e.1 s e.2) s l.

Definition log_of s : list (Z * json) := (λ e, (event_seq e, event_frame e)) <$> ss_sent s.

(** What the buffer of a session is to hold of its log at time [now]. *)
Definition retained now (max : Z) (retention : Z) (log : list (Z * json)) : list (Z * json) :=
  filter (λ f, too_old (now - retention) f.2 = false) (drop (Z.to_nat (len log - max)) log).

(** A frame of number [seq] stamped at [t]. *)
Definition stamped (seq t : Z) (f : Z * json) : Prop := f.1 = seq ∧ frame_time f.2 = Some t.

Lemma envelope_stamped op seq now payload : stamped seq now (seq, envelope op (JNum seq) now payload).
Proof using ts_parses. split; [done|]. apply ts_parses. Qed.
#[local] Hint Resolve envelope_stamped : core.

Lemma stamped_too_old seq t f cutoff : stamped seq t f → too_old cutoff f.2 = (t <? cutoff).
Proof. intros [_ Ht]. unfold too_old. by rewrite Ht. Qed.

(** An append adds at most one frame, the next in number, stamped with the
    time, and retains it. *)
Inductive appended now s : SessionState → Prop :=
| appended_none : appended now s s
| appended_one s' e :
    ss_sent s' = ss_sent s ++ [e] → ss_seq s' = ss_seq s + 1 →
    stamped (ss_seq s + 1) now (event_seq e, event_frame e) →
    ss_replay s' = ss_replay (retain_frame now s (event_seq e) (event_frame e)) →
    ss_max_frames s' = ss_max_frames s → ss_retention s' = ss_retention s →
    appended now s s'.

Lemma do_append_appended now s a : appended now s (do_append now s a).
Proof using ts_parses.
  destruct a as [kind payload|data|exit_code reason]; simpl; [..|unfold append_closed; case_match;
    [constructor|]]; (eapply appended_one; [done|done|apply envelope_stamped|done..]).
Qed.

(** The log is numbered from 1 without gaps, and its stamps do not go back. *)
Record log_ok (last : Z) s : Prop := {
  log_seq : ss_seq s = len (ss_sent s);
  log_stamps : ∀ i f, log_of s !! i = Some f →
    ∃ t, stamped (Z.of_nat i + 1) t f ∧ t ≤ last;
  log_monotone : ∀ i j f g t u, (i ≤ j)%nat → log_of s !! i = Some f → log_of s !! j = Some g →
    frame_time f.2 = Some t → frame_time g.2 = Some u → t ≤ u;
}.

Lemma log_of_snoc s s' e :
  ss_sent s' = ss_sent s ++ [e] → log_of s' = log_of s ++ [(event_seq e, event_frame e)].
Proof. unfold log_of. intros ->. by rewrite fmap_app. Qed.

Lemma len_log s : len (log_of s) = len (ss_sent s).
Proof. unfold len, log_of. by rewrite length_fmap. Qed.

Lemma log_ok_step last now s s' : log_ok last s → last ≤ now → appended now s s' → log_ok now s'.
Proof.
  intros [Hseq Hst Hmono] Hnow [|s1 e Hsent Hseq' He _ _ _].
  - split; [done| |done]. intros i f Hf. destruct (Hst i f Hf) as (t & Ht & ?). exists t. split; [done|lia].
  - pose proof (log_of_snoc _ _ _ Hsent) as Hlog.
    assert (Hlen : Z.of_nat (length (log_of s)) = ss_seq s) by (rewrite Hseq; apply len_log).
    assert (Hall : ∀ i f, log_of s1 !! i = Some f → ∃ t, stamped (Z.of_nat i + 1) t f ∧ t ≤ now ∧
              (log_of s !! i = None → t = now)).
    { intros i f. rewrite Hlog. intros [Hf|[Hge Hf]]%lookup_app_Some.
      - destruct (Hst i f Hf) as (t & Ht & ?). exists t. rewrite Hf. repeat split; [apply Ht..|lia|done].
      - apply list_lookup_singleton_Some in Hf as [Hi <-]. exists now.
        replace (Z.of_nat i + 1) with (ss_seq s + 1) by lia. done. }
    split.
    + rewrite Hseq', Hseq, Hsent. unfold len. rewrite length_app. simpl. lia.
    + intros i f Hf. destruct (Hall i f Hf) as (t & Ht & ? & _). by exists t.
    + intros i j f g t u Hij Hf Hg Ht Hu.
      destruct (Hall i f Hf) as (t' & [_ Ht'] & ? & _), (Hall j g Hg) as (u' & [_ Hu'] & _ & Hlast).
      simplify_eq. destruct (log_of s !! j) as [g'|] eqn:Hj; [|rewrite Hlast; done].
      pose proof (lookup_lt_Some _ _ _ Hj) as Hlt. rewrite Hlog in Hf, Hg.
      rewrite lookup_app_l in Hf, Hg by lia. by apply (Hmono i j f g).
Qed.

(** With the stamps in order, freshness selects a suffix of any part of the log. *)
Lemma fresh_upward last s cutoff m :
  log_ok last s → upward (λ f, too_old cutoff f.2 = false) (drop m (log_of s)).
Proof.
  intros [_ Hst Hmono] i j f g Hij Hf Hg. rewrite lookup_drop in Hf, Hg.
  destruct (Hst _ _ Hf) as (t & Ht & _), (Hst _ _ Hg) as (u & Hu & _).
  rewrite (stamped_too_old _ _ _ _ Ht), (stamped_too_old _ _ _ _ Hu).
  destruct Ht as [_ Ht], Hu as [_ Hu].
  assert (t ≤ u) by (apply (Hmono (m + i)%nat (m + j)%nat f g); [lia|done..]). lia.
Qed.

Lemma retained_step last now max retention s s' e :
  log_ok last s → last ≤ now → ss_sent s' = ss_sent s ++ [e] →
  retained now max retention (retained last max retention (log_of s) ++ [(event_seq e, event_frame e)])
  = retained now max retention (log_of s').
Proof.
  intros Hok Hnow Hsent. pose proof (log_of_snoc _ _ _ Hsent) as Hlog. pose proof Hok as [_ Hst _].
  set (x := (event_seq e, event_frame e)) in *. set (m := Z.to_nat (len (log_of s) - max)).
  destruct (filter_upward (λ f, too_old (last - retention) f.2 = false) (drop m (log_of s)))
    as (k & Hk & Hstale); [by eapply fresh_upward|].
  set (j := ((m + k) `min` length (log_of s))%nat).
  assert (Hold : retained last max retention (log_of s) ++ [x] = drop j (log_of s')).
  { unfold retained. fold m. rewrite Hk, drop_drop, Hlog, drop_app_le by lia. f_equal.
    unfold j. destruct (decide (m + k ≤ length (log_of s))%nat); [f_equal; lia|].
    rewrite !drop_ge by lia. done. }
  rewrite Hold. unfold retained. rewrite drop_drop.
  assert (Hlen : len (log_of s') = len (log_of s) + 1) by (rewrite Hlog; unfold len; rewrite length_app; simpl; lia).
  assert (Hlj : len (drop j (log_of s')) = len (log_of s') - Z.of_nat j).
  { unfold len in *. rewrite length_drop. lia. }
  replace (j + _)%nat with (j `max` Z.to_nat (len (log_of s') - max))%nat by lia.
  apply filter_drop_more. intros i f Hi Hf. rewrite Hlog, lookup_app_l in Hf by lia.
  destruct (Hst i f Hf) as (t & Ht & _). rewrite (stamped_too_old _ _ _ _ Ht).
  rewrite Forall_lookup in Hstale. specialize (Hstale (i - m)%nat f).
  rewrite lookup_take_lt, lookup_drop in Hstale by lia. replace (m + (i - m))%nat with i in Hstale by lia.
  specialize (Hstale Hf). rewrite (stamped_too_old _ _ _ _ Ht) in Hstale.
  apply not_false_iff_true in Hstale. lia.
Qed.

(** The buffer is what the log prescribes, over any number of appends. *)
Record replay_ok (last max retention : Z) s : Prop := {
  ro_log : log_ok last s;
  ro_replay : ss_replay s = retained last max retention (log_of s);
  ro_max : ss_max_frames s = max;
  ro_retention : ss_retention s = retention;
}.

Lemma replay_ok_step last now max retention s s' :
  replay_ok last max retention s → last ≤ now → ss_sent s ≠ ss_sent s' → appended now s s' →
  replay_ok now max retention s'.
Proof.
  intros [Hlog Hr Hm Ht] Hnow Hne Ha. pose proof (log_ok_step _ _ _ _ Hlog Hnow Ha) as Hlog'.
  destruct Ha as [|s1 e Hsent _ _ Hre Hm' Ht']; [done|]. split; [done| |congruence..].
  rewrite Hre, <-(retained_step last now max retention s s1 e), <-Hr by done.
  unfold retain_frame, retained. simpl. by rewrite Hm, Ht.
Qed.

(** The stamp of the newest frame. *)
Definition newest s : Z := default 0 (last (log_of s) ≫= λ f, frame_time f.2).

Definition replay_current (clock max retention : Z) s : Prop :=
  ∃ at_, at_ ≤ clock ∧ replay_ok at_ max retention s ∧ (ss_sent s ≠ [] → newest s = at_).

Lemma replay_current_step clock now max retention s a :
  replay_current clock max retention s → clock ≤ now →
  replay_current now max retention (do_append now s a).
Proof using ts_parses.
  intros (at_ & Hat & Hok & Hnew) Hnow. pose proof (do_append_appended now s a) as Ha.
  destruct Ha as [|s' e Hsent Hseq He Hre Hm Hr]; [exists at_; split; [lia|done]|].
  exists now. split; [done|]. split.
  - apply (replay_ok_step at_ now max retention s); [done|lia| |by eapply appended_one].
    rewrite Hsent. intros Heq%(f_equal length). rewrite length_app in Heq. simpl in Heq. lia.
  - intros _. unfold newest. rewrite (log_of_snoc _ _ _ Hsent), last_snoc. destruct He as [_ He].
    simpl in *. by rewrite He.
Qed.

Lemma appends_current l clock max retention s :
  replay_current clock max retention s → Sorted Z.le (clock :: l.*1) →
  ∃ clock', replay_current clock' max retention (appends s l).
Proof using ts_parses.
  revert clock s. induction l as [|[now a] l IH]; intros clock s Hs Hsort; [by exists clock|].
  apply Sorted_inv in Hsort as [Hsort Hhd]. apply HdRel_inv in Hhd. simpl in *.
  eapply IH; [by eapply replay_current_step|done].
Qed.

Lemma replay_current_new now instance_id session_id :
  replay_current now REPLAY_MAX_FRAMES (hours REPLAY_MAX_AGE_HOURS) (new_session now instance_id session_id).
Proof.
  exists now. repeat split; done.
Qed.

Lemma log_numbers last s : log_ok last s → (log_of s).*1 = seqZ 1 (ss_seq s).
Proof.
  intros [Hseq Hst _]. pose proof (len_log s) as Hl. unfold len in *.
  apply list_eq. intros i. rewrite list_lookup_fmap.
  destruct (log_of s !! i) as [f|] eqn:Hf; simpl.
  - destruct (Hst _ _ Hf) as (t & [Hn _] & _). apply lookup_lt_Some in Hf.
    rewrite lookup_seqZ_lt by lia. f_equal. lia.
  - apply lookup_ge_None in Hf. by rewrite lookup_seqZ_ge by lia.
Qed.

(** The buffer is a suffix of the log that keeps the newest frame. *)
Lemma replay_suffix clock s :
  replay_current clock REPLAY_MAX_FRAMES (hours REPLAY_MAX_AGE_HOURS) s →
  ∃ j, ss_replay s = drop j (log_of s) ∧ (ss_sent s ≠ [] → (j < length (log_of s))%nat).
Proof.
  intros (at_ & _ & [Hlog Hr _ _] & Hnew). set (m := Z.to_nat (len (log_of s) - REPLAY_MAX_FRAMES)).
  destruct (filter_upward (λ f, too_old (at_ - hours REPLAY_MAX_AGE_HOURS) f.2 = false)
              (drop m (log_of s))) as (k & Hk & Hstale); [by eapply fresh_upward|].
  exists (m + k)%nat. split; [by rewrite Hr, <-drop_drop, <-Hk|]. intros Hne. specialize (Hnew Hne).
  destruct (decide (m + k < length (log_of s))%nat) as [|Hge]; [done|exfalso].
  destruct (last (log_of s)) as [f|] eqn:Hl.
  2:{ apply last_None, (f_equal length) in Hl. unfold log_of in Hl. rewrite length_fmap in Hl.
      by apply Hne, nil_length_inv. }
  rewrite last_lookup in Hl. pose proof (lookup_lt_Some _ _ _ Hl) as Hlt.
  assert (Hm : (m ≤ pred (length (log_of s)))%nat) by (unfold m, len, REPLAY_MAX_FRAMES; lia).
  rewrite Forall_lookup in Hstale. apply (Hstale (pred (length (log_of s)) - m)%nat f).
  { rewrite lookup_take_lt, lookup_drop by lia. by replace (m + _)%nat with (pred (length (log_of s))) by lia. }
  destruct (log_stamps _ _ Hlog _ _ Hl) as (t & [_ Ht] & _). unfold too_old. rewrite Ht.
  unfold newest in Hnew. rewrite last_lookup, Hl in Hnew. simpl in Hnew. rewrite Ht in Hnew. simpl in Hnew.
  subst t. unfold hours, REPLAY_MAX_AGE_HOURS. lia.
Qed.

(** The frames of a session are numbered from 1 without gaps, and the replay
    buffer refines the log: over any sequence of appends it holds the newest
    1000 frames, without those more than 24 hours older than the newest. *)
Theorem replay_buffer_refines_log start instance_id session_id l :
  Sorted Z.le (start :: l.*1) →
  let s := appends (new_session start instance_id session_id) l in
  (log_of s).*1 = seqZ 1 (ss_seq s) ∧
  ss_replay s = retained (newest s) REPLAY_MAX_FRAMES (hours REPLAY_MAX_AGE_HOURS) (log_of s).
Proof using ts_parses.
  intros Hsort s.
  destruct (appends_current l start _ _ _ (replay_current_new start instance_id session_id) Hsort)
    as (clock & at_ & _ & [Hlog Hr _ _] & Hnew). fold s in Hlog, Hr, Hnew.
  split; [by eapply log_numbers|]. rewrite Hr.
  destruct (decide (ss_sent s = [])) as [He|He]; [|by rewrite Hnew].
  unfold log_of. by rewrite He.
Qed.

Lemma Sorted_app_l {A} (R : A → A → Prop) l k : Sorted R (l ++ k) → Sorted R l.
Proof.
  induction l as [|x l IH]; simpl; [constructor|]. intros [Hs Hh]%Sorted_inv.
  constructor; [by apply IH|]. destruct l; constructor. by apply HdRel_inv in Hh.
Qed.

(** The number at the head of a suffix of the log. *)
Lemma oldest_of_suffix last s j :
  log_ok last s → ss_replay s = drop j (log_of s) → (j < length (log_of s))%nat →
  oldest_seq s = Z.of_nat j + 1.
Proof.
  intros Hlog Hr Hj. destruct (lookup_lt_is_Some_2 _ _ Hj) as [[n g] Hg].
  unfold oldest_seq. rewrite Hr, (drop_S _ (n, g)) by done.
  by destruct (log_stamps _ _ Hlog _ _ Hg) as (t & [Hn _] & _).
Qed.

Lemma appends_app s l k : appends s (l ++ k) = appends (appends s l) k.
Proof. unfold appends. apply foldl_app. Qed.

Lemma appends_log_prefix s l : log_of s `prefix_of` log_of (appends s l).
Proof using ts_parses.
  revert s. induction l as [|[now a] l IH]; intros s; [done|]. etrans; [|apply IH]. simpl.
  destruct (do_append_appended now s a) as [|s' e Hsent _ _ _ _ _]; [done|].
  rewrite (log_of_snoc _ _ _ Hsent). by exists [(event_seq e, event_frame e)].
Qed.

(** A client that subscribes, then is sent the replay after [since], then
    reads the channel, misses nothing: every frame numbered after [since] is
    among the replayed or the live ones, whatever was appended while it
    attached.  (A frame appended between the subscription and the replay is
    sent twice.) *)
Theorem resume_without_gap start instance_id session_id l0 l1 l2 since f :
  Sorted Z.le (start :: (l0 ++ l1 ++ l2).*1) →
  let subscribed := appends (new_session start instance_id session_id) l0 in
  let replayed := appends subscribed l1 in
  let final := appends replayed l2 in
  out_of_range replayed since = false →
  f ∈ log_of final → since < f.1 →
  f ∈ replay_from replayed since ∨ f ∈ drop (length (ss_sent subscribed)) (log_of final).
Proof using ts_parses.
  intros Hsort s0 s1 s2 Hrange Hf Hsince.
  assert (Hs1 : ∃ clock, replay_current clock REPLAY_MAX_FRAMES (hours REPLAY_MAX_AGE_HOURS) s1).
  { unfold s1, s0. rewrite <-appends_app. eapply appends_current; [apply replay_current_new|].
    rewrite app_assoc, fmap_app in Hsort. by apply (Sorted_app_l Z.le (start :: (l0 ++ l1).*1)) in Hsort. }
  destruct Hs1 as [clock Hs1]. pose proof Hs1 as (at_ & _ & [Hlog _ _ _] & _).
  destruct (replay_suffix clock s1 Hs1) as (j & Hj & Hne).
  apply list_elem_of_lookup in Hf as [i Hi].
  destruct (decide (length (ss_sent s0) ≤ i)%nat) as [Hge|Hlt].
  { right. apply list_elem_of_lookup. exists (i - length (ss_sent s0))%nat. rewrite lookup_drop.
    by replace (_ + _)%nat with i by lia. }
  left. destruct (appends_log_prefix s1 l2) as [k2 Hk2], (appends_log_prefix s0 l1) as [k1 Hk1].
  assert (Hl0 : length (ss_sent s0) = length (log_of s0)) by (unfold log_of; by rewrite length_fmap).
  assert (Hl1 : (i < length (log_of s1))%nat) by (unfold s1; rewrite Hk1, length_app; lia).
  unfold s2 in Hi. rewrite Hk2, lookup_app_l in Hi by done.
  destruct (log_stamps _ _ Hlog _ _ Hi) as (t & [Hn _] & _).
  assert (Hjl : (j < length (log_of s1))%nat).
  { apply Hne. intros He. unfold log_of in Hl1. rewrite He in Hl1. simpl in Hl1. lia. }
  pose proof (oldest_of_suffix _ _ _ Hlog Hj Hjl) as Ho. pose proof (log_seq _ _ Hlog) as Hq.
  rewrite <-len_log in Hq. unfold len in Hq. unfold out_of_range in Hrange. rewrite Ho in Hrange.
  apply list_elem_of_filter. split; [done|]. rewrite Hj. apply list_elem_of_lookup.
  exists (i - j)%nat. rewrite lookup_drop. rewrite <-Hi. f_equal. lia.
Qed.

(** The capacity evicts frames of any age: beyond 1000 frames the first one is
    gone, even when every frame is stamped with the same instant. *)
Lemma capacity_evicts_recent start instance_id session_id l f :
  Sorted Z.le (start :: l.*1) →
  let s := appends (new_session start instance_id session_id) l in
  REPLAY_MAX_FRAMES < ss_seq s → f ∈ ss_replay s → f.1 ≠ 1.
Proof using ts_parses.
  intros Hsort s Hlen Hf Hone.
  destruct (appends_current l start _ _ _ (replay_current_new start instance_id session_id) Hsort)
    as (clock & at_ & _ & [Hlog Hr _ _] & _). fold s in Hlog, Hr.
  rewrite Hr in Hf. apply list_elem_of_filter in Hf as [_ Hf]. apply list_elem_of_lookup in Hf as [i Hi].
  rewrite lookup_drop in Hi. destruct (log_stamps _ _ Hlog _ _ Hi) as (t & [Hn _] & _).
  pose proof (log_seq _ _ Hlog) as Hq. rewrite <-len_log in Hq. lia.
Qed.

End appends.

(** ** Binary frames decode *)

(** [n] bytes as a big-endian number, with what follows. *)
Fixpoint read_be (n : nat) (acc : Z) (s : string) : option (Z * string) :=
  match n with
  | O => Some (acc, s)
  | S n' =>
      match s with
      | EmptyString => None
      | String.String b s' => read_be n' (acc * 256 + byte_val b) s'
      end
  end.

(** What a client reads in a binary output frame: number, stream and data. *)
Definition read_output_frame (frame : string) : option (Z * Z * string) :=
  rest ← strip_prefix frame BINARY_OUTPUT_MAGIC;
  '(seq, rest) ← read_be 8 0 rest;
  '(stream, data) ← read_be 1 0 rest;
  Some (seq, stream, data).

Lemma byte_val_of n : byte_val (byte_of n) = n `mod` 256.
Proof.
  unfold byte_val, byte_of. pose proof (Z.mod_pos_bound n 256). rewrite Ascii.N_ascii_embedding by lia. lia.
Qed.

Lemma read_be_bytes n v acc rest :
  0 ≤ v → read_be n acc (be_bytes n v +:+ rest) =
    Some (acc * 256 ^ Z.of_nat n + v `mod` 256 ^ Z.of_nat n, rest).
Proof.
  intros Hv. revert acc. induction n as [|n IH]; intros acc.
  - simpl. rewrite Z.mod_1_r. do 2 f_equal. lia.
  - change (be_bytes (S n) v) with (String.String (byte_of (Z.shiftr v (8 * Z.of_nat n))) (be_bytes n v)).
    simpl read_be. rewrite IH, byte_val_of. do 2 f_equal.
    rewrite Z.shiftr_div_pow2 by lia. replace (2 ^ (8 * Z.of_nat n)) with (256 ^ Z.of_nat n)
      by (rewrite Z.pow_mul_r by lia; done).
    rewrite Nat2Z.inj_succ, Z.pow_succ_r by lia. set (B := 256 ^ Z.of_nat n).
    assert (0 < B) by (apply Z.pow_pos_nonneg; lia).
    rewrite (Z.mul_comm 256 B), (Z.rem_mul_r v B 256) by lia. lia.
Qed.

(** A binary output frame carries its number, the stream and the data: the
    client's reading of the 13-byte header recovers all three. *)
Theorem output_frame_decodes seq data :
  0 ≤ seq ≤ u64_max →
  read_output_frame (build_binary_output_frame seq data) = Some (seq, STREAM_STDOUT, data).
Proof.
  intros Hseq. unfold read_output_frame, build_binary_output_frame.
  rewrite (proj2 (strip_prefix_Some _ _ (be_bytes 8 seq +:+ String.String (byte_of STREAM_STDOUT) data))) by done.
  cbn [mbind option_bind]. rewrite read_be_bytes by lia. cbn [mbind option_bind].
  replace (0 * 256 ^ Z.of_nat 8 + seq `mod` 256 ^ Z.of_nat 8) with seq.
  - done.
  - rewrite Z.mod_small; [lia|]. unfold u64_max in Hseq. change (256 ^ Z.of_nat 8) with 18446744073709551616. lia.
Qed.

(** ** Concurrent appends

    The number is drawn before the buffer is locked: of two concurrent appends
    the later number may be stored and broadcast first. *)
Section concurrent.
Context `{Env, AuthEnv, StdBase64}.

(** What an append does once it has its number. *)
Definition publish_frame (now : Z) (s : SessionState) (kind : string) (seq : Z) (payload : json)
    : SessionState :=
  let frame := envelope kind (JNum seq) now payload in
  send_event (retain_frame now s seq frame) (BJson seq frame).

Lemma append_frame_split now s kind payload :
  append_frame now s kind payload = publish_frame now (fetch_seq s).1 kind (fetch_seq s).2 payload.
Proof. done. Qed.

Lemma concurrent_appends_reorder now s kind kind' payload payload' :
  let '(s1, first) := fetch_seq s in
  let '(s2, second) := fetch_seq s1 in
  let s3 := publish_frame now s2 kind' second payload' in
  let s4 := publish_frame now s3 kind first payload in
  first < second ∧ event_seq <$> drop (length (ss_sent s)) (ss_sent s4) = [second; first].
Proof.
  cbn [fetch_seq]. split; [simpl; lia|]. simpl. rewrite <-app_assoc. by rewrite drop_app_length.
Qed.

End concurrent.

(** ** Sample runs *)

#[local] Existing Instance sample_auth.
#[local] Instance stamp_env : Env := {|
  rfc3339 := λ t, bits_text (encode t);
  json_text := λ v, bits_text (encode (json_tree v));
  json_parse := λ s, tree_json <$> decode (text_bits s);
  jcs_sha256 := λ v, Ok EmptyString;
  uuid := λ i, EmptyString;
|}.
#[local] Instance sample_std_base64 : StdBase64 := {| std_encode := λ s, s; std_decode := λ s, Ok s |}.

Lemma stamp_parses t : parse_from_rfc3339 (rfc3339 t) = Some t.
Proof. simpl. by rewrite text_bits_text, decode_encode. Qed.

(** Two frames on the first day, two more a day and an hour later. *)
Definition two_days : list (Z * Append) :=
  [(hours 1, AFrame "resize" JNull); (hours 2, AOutput "a"); (hours 26, AOutput "b");
   (hours 26, AClosed None "bridge_eof")].

Lemma two_days_sorted : Sorted Z.le (0 :: two_days.*1).
Proof. repeat constructor; vm_compute; discriminate. Qed.

Lemma replay_buffer_refines_log_witness :
  (ss_replay (appends (new_session 0 "i-1" "s-1") two_days)).*1 = [2; 3; 4] ∧
  ss_replay (appends (new_session 0 "i-1" "s-1") two_days) =
  retained (newest (appends (new_session 0 "i-1" "s-1") two_days)) REPLAY_MAX_FRAMES
    (hours REPLAY_MAX_AGE_HOURS) (log_of (appends (new_session 0 "i-1" "s-1") two_days)).
Proof.
  split; [vm_compute; reflexivity|].
  destruct (replay_buffer_refines_log stamp_parses 0 "i-1" "s-1" two_days two_days_sorted) as [_ Hr]. exact Hr.
Defined.

(** A client subscribes after the first frame; one more is appended before the
    replay after number 1 is sent, and one after. *)
Definition short_log (n : nat) : list (Z * Append) := replicate n (5, AOutput "a").
Definition short_frame : Z * json :=
  (3, envelope "output" (JNum 3) 5 (json_obj [("data", JStr "a")])).

Lemma resume_without_gap_witness :
  let subscribed := appends (new_session 0 "i-1" "s-1") (short_log 1) in
  let replayed := appends subscribed (short_log 1) in
  let final := appends replayed (short_log 1) in
  short_frame ∈ replay_from replayed 1 ∨
  short_frame ∈ drop (length (ss_sent subscribed)) (log_of final).
Proof.
  refine (resume_without_gap stamp_parses 0 "i-1" "s-1" (short_log 1) (short_log 1) (short_log 1) 1
    short_frame _ _ _ _).
  - repeat constructor; vm_compute; discriminate.
  - vm_compute. reflexivity.
  - apply list_elem_of_lookup. exists 2%nat. vm_compute. reflexivity.
  - reflexivity.
Defined.

Lemma output_frame_decodes_witness :
  read_output_frame (build_binary_output_frame 258 "ok") = Some (258, 1, "ok").
Proof. apply output_frame_decodes. vm_compute. split; discriminate. Defined.
