(* ===== verification/PtyWs.v ===== *)
(** * The pty-ws binding

    Models the connections of
    management/agentic-sandbox-executor/src/bindings/pty_ws.rs over the sessions
    of PtySession.v: the upgrade ([ws_handler]), the handshake and the frames a
    connection sends, the operations of a text or binary frame ([dispatch_op],
    [dispatch_join_op], [handle_binary_input_frame]), the reader of the
    process's output and the cleanup of a closed socket.

    An operation that awaits the bridge stops there: it returns the call with
    the continuation ([Await]), and [resume] goes on with the bridge's answer.
    Between the two every other connection may run.  Calls whose answer is only
    logged still end their step.  The world is one session with its
    connections and the readers of its process. *)

From Stdlib Require Import Ascii.
From S2P Require Import Prelude Text Http Net Json CelldAuth Protocol FlowGraph TaskStore.
From S2P Require Import Idempotency Extensions PushPolicy TaskHandlers OperatorAuth PtySession.

Local Open Scope string_scope.
Local Open Scope list_scope.
Local Open Scope Z_scope.

(** The bridge of the deployment, as far as the binding asks it. *)
Record Bridge : Type := {
  is_real : bool;
  capabilities : SessionHostCapabilities;
}.

Definition NoOpPtyBridge : Bridge := {| is_real := false; capabilities := default_capabilities |}.

(** The calls on the bridge; every one carries the ids of the session. *)
Inductive BridgeCall : Type :=
| StartSession (command : PtyStartCommand)
| WriteInput (data : string)
| ResizePty (cols rows : Z)
| CloseSession
| AttachClient (client_id : string) (role : PtySessionRole)
| AttachClientStream (client_id : string) (role : PtySessionRole) (since : option Z)
| DetachClient (client_id : string).

(** [String::from_utf8] of decoded bytes. *)
Class Utf8 : Type := { valid_utf8 : string → bool }.

(** ** The upgrade *)

Section upgrade.
Context `{Env, AuthEnv, HandlerText, Utf8}.
Implicit Types (headers : HeaderMap).

Definition nonempty (s : string) : option string :=
  match s with EmptyString => None | _ => Some s end.

Definition bearer_from_authorization headers : option string :=
  value ← header headers "authorization";
  token ← strip_prefix value "Bearer ";
  nonempty (trim token).

(** The first usable bearer token; one that does not decode ends the search. *)
Fixpoint bearer_of_tokens (offered : list string) : option string :=
  match offered with
  | [] => None
  | token :: rest =>
      match strip_prefix (trim token) "bearer." with
      | None | Some EmptyString => bearer_of_tokens rest
      | Some encoded =>
          decoded ← b64url_decode encoded;
          if negb (valid_utf8 decoded) then None
          else match decoded with EmptyString => bearer_of_tokens rest | _ => Some decoded end
      end
  end.

Definition bearer_from_subprotocol (value : option (option string)) : option string :=
  value ← value;
  header_value ← value;
  bearer_of_tokens (split_char ","%char header_value).

(** [None] without the header, [Some None] when no supported token is offered. *)
Definition requested_subprotocol (value : option (option string)) : option (option string) :=
  match value with
  | None => None
  | Some None => Some None
  | Some (Some s) =>
      let offered := trim <$> split_char ","%char s in
      if decide (SUBPROTOCOL_BINARY ∈ offered) then Some (Some SUBPROTOCOL_BINARY)
      else if decide (SUBPROTOCOL ∈ offered) then Some (Some SUBPROTOCOL)
      else Some None
  end.

Definition selected_subprotocol (value : option (option string)) : option string :=
  match requested_subprotocol value with
  | None => Some SUBPROTOCOL
  | Some selected => selected
  end.

(** What an upgraded connection runs with. *)
Record Attachment : Type := {
  at_session : nat;
  at_principal : AttachPrincipal;
  at_binary_mode : bool;
}.

Definition json_refusal (status : Z) (body : json) : HttpResponse :=
  {| resp_status := status; resp_headers := [("content-type", Some "application/json")];
     resp_body := json_text body |}.

Definition ws_handler (now : Z) (auth : option Authorizer) (registry : SessionRegistry)
    (instance_id session_id : string) headers : SessionRegistry * result HttpResponse Attachment :=
  let subprotocol_header := header_value headers "sec-websocket-protocol" in
  match selected_subprotocol subprotocol_header with
  | None =>
      (registry, Err (json_refusal BAD_REQUEST (json_obj [
         ("error", JStr "unsupported_subprotocol");
         ("supported", JArr [JStr SUBPROTOCOL; JStr SUBPROTOCOL_BINARY])])))
  | Some selected =>
      let bearer := match bearer_from_authorization headers with
        | Some token => Some token
        | None => bearer_from_subprotocol subprotocol_header
        end in
      match resolve_attach_principal auth bearer with
      | Err status =>
          (registry, Err (json_refusal status (json_obj [
             ("error", JStr (if status =? UNAUTHORIZED then "unauthenticated" else "forbidden"));
             ("required", JStr "pty:observe")])))
      | Ok principal =>
          let '(registry, session) := get_or_create now registry instance_id session_id in
          (registry, Ok {| at_session := session; at_principal := principal;
                           at_binary_mode := bool_decide (selected = SUBPROTOCOL_BINARY) |})
      end
  end.

End upgrade.

Section join_command.
Context `{Env}.
Implicit Types (now : Z) (payload : json).

Definition invalid_join now (message : string) : json :=
  build_error_frame now "request.invalid_params" message 400.

Definition backend_of_text (raw : string) : option SessionBackend :=
  match raw with
  | "native" => Some Native
  | "screen" => Some Screen
  | "zellij" => Some Zellij
  | "tmux" => Some Tmux
  | _ => None
  end.

Definition class_of_text (raw : string) : option SessionClass :=
  match raw with "direct" => Some Direct | "managed" => Some Managed | _ => None end.

(** The derived [Serialize] and [Debug] names. *)
Definition backend_text (b : SessionBackend) : string :=
  match b with Native => "native" | Screen => "screen" | Zellij => "zellij" | Tmux => "tmux" end.
Definition class_text (c : SessionClass) : string :=
  match c with Direct => "direct" | Managed => "managed" end.
Definition backend_debug (b : SessionBackend) : string :=
  match b with Native => "Native" | Screen => "Screen" | Zellij => "Zellij" | Tmux => "Tmux" end.
Definition class_debug (c : SessionClass) : string :=
  match c with Direct => "Direct" | Managed => "Managed" end.

Definition parse_session_backend now (value : option json) : result json (option SessionBackend) :=
  match value with
  | None => Ok None
  | Some value =>
      raw ← ok_or (as_str value) (invalid_join now "pty.join_session.backend must be a string");
      Some <$> ok_or (backend_of_text raw)
        (invalid_join now "pty.join_session.backend must be one of native, screen, zellij, tmux")
  end.

Definition parse_session_class now (value : option json) : result json (option SessionClass) :=
  match value with
  | None => Ok None
  | Some value =>
      raw ← ok_or (as_str value) (invalid_join now "pty.join_session.session_class must be a string");
      Some <$> ok_or (class_of_text raw)
        (invalid_join now "pty.join_session.session_class must be one of direct, managed")
  end.

Definition parse_argv now payload : result json (list string) :=
  match json_get payload "argv" with
  | Some value =>
      items ← ok_or (as_array value)
        (invalid_join now "pty.join_session.argv must be an array of strings");
      parsed ← ok_or (mapM as_str items)
        (invalid_join now "pty.join_session.argv must contain only strings");
      match parsed with
      | [] => Err (invalid_join now "pty.join_session.argv must not be empty")
      | _ => Ok parsed
      end
  | None =>
      match json_get payload "command" ≫= as_str with
      | Some command =>
          if decide (trim command = EmptyString)
          then Err (invalid_join now "pty.join_session.command must not be empty")
          else Ok ["/bin/sh"; "-lc"; command]
      | None => Ok (argv default_start_command)
      end
  end.

Definition parse_env now payload : result json (list (string * string)) :=
  match json_get payload "env" with
  | None => Ok []
  | Some value =>
      map ← ok_or (as_object value)
        (invalid_join now "pty.join_session.env must be an object of string values");
      ok_or (mapM (λ kv : string * json, value ← as_str kv.2; Some (kv.1, value)) map)
        (invalid_join now "pty.join_session.env values must be strings")
  end.

Definition is_supported_session_host_pair (b : SessionBackend) (c : SessionClass) : bool :=
  match b, c with
  | Native, Direct | Screen, Managed | Zellij, Managed | Tmux, Managed => true
  | _, _ => false
  end.

(** [value.clamp(1, u16::MAX)] of a size, the default without one. *)
Definition clamped_size (size : option json) (key : string) (dflt : Z) : Z :=
  match (size ≫= λ v, json_get v key) ≫= json_u64 with
  | Some n => Z.max 1 (Z.min n u16_max)
  | None => dflt
  end.

Definition build_join_start_command now payload (caps : SessionHostCapabilities)
    : result json PtyStartCommand :=
  first ← parse_session_backend now (json_get payload "backend");
  b ← (match first with
       | Some b => Ok b
       | None => default (default_backend caps) <$>
           parse_session_backend now (json_get payload "session_backend")
       end);
  if negb (bool_decide (b ∈ supported_backends caps)) then
    Err (build_error_frame now "session_backend.not_implemented"
      ("requested PTY session backend " +:+ backend_debug b +:+ " is not supported by this bridge") 501)
  else
  c ← default (default_class caps) <$> parse_session_class now (json_get payload "session_class");
  if negb (bool_decide (c ∈ supported_classes caps)) then
    Err (build_error_frame now "session_class.not_implemented"
      ("requested PTY session class " +:+ class_debug c +:+ " is not supported by this bridge") 501)
  else if negb (is_supported_session_host_pair b c) then
    Err (build_error_frame now "session_class.not_implemented"
      ("requested PTY session backend/class pair " +:+ backend_debug b +:+ "/" +:+ class_debug c +:+
       " is not supported by this bridge") 501)
  else
  args ← parse_argv now payload;
  vars ← parse_env now payload;
  let dir := match json_get payload "cwd" with
    | Some value => Some value
    | None => json_get payload "working_dir"
    end in
  let size := json_get payload "terminal_size" in
  Ok {| argv := args; cwd := dir ≫= as_str; env := vars; backend := b; session_class := c;
        initial_cols := clamped_size size "cols" (initial_cols default_start_command);
        initial_rows := clamped_size size "rows" (initial_rows default_start_command) |}.

End join_command.

(** ** The A2A operations *)

Section a2a_ops.
Context `{Env, TableScan, AuthEnv, HandlerText}.
Implicit Types (now : Z) (a : AppState) (instance_id : string) (payload : json).

Definition task_frame now (task : json) : json := envelope "task" JNull now task.

Definition handle_message_send now (u : Z) a instance_id payload : AppState * json :=
  match json_get payload "message" with
  | Some (JObj m) =>
      let row := {|
        t_task_id := uuid_text u;
        t_context_id := map_get m "contextId" ≫= as_str;
        t_instance_id := Some instance_id;
        t_state := Task.Submitted;
        t_fail_kind := None;
        t_status_json := json_obj [("state", JStr (task_state_as_str Task.Submitted));
                                   ("timestamp", JStr (rfc3339 now))];
        t_metadata_json := None;
        t_created_at := now;
        t_updated_at := now;
        t_terminal_at := None |} in
      (set_store a (upsert_task (app_store a) row), task_frame now (task_row_to_a2a row))
  | _ => (a, build_error_frame now "request.invalid_params" "payload.message object required" 400)
  end.

Definition payload_task_id now payload : result json string :=
  ok_or (json_get payload "task_id" ≫= as_str)
    (build_error_frame now "request.invalid_params" "payload.task_id required" 400).

(** The row of an operation on one task. *)
Definition read_task now a instance_id (tid : string) : result json TaskRow :=
  match get_task_for_instance (app_store a) instance_id tid with
  | Ok (Some row) => Ok row
  | Ok None => Err (build_error_frame now "task.not_found" ("Task '" +:+ tid +:+ "' not found") 404)
  | Err e => Err (build_error_frame now "internal.error" ("Failed to read task: " +:+ store_error_text e) 500)
  end.

Definition either (r : result json json) : json := match r with Ok v | Err v => v end.

Definition handle_tasks_get now a instance_id payload : json :=
  either (tid ← payload_task_id now payload;
          row ← read_task now a instance_id tid;
          Ok (task_frame now (task_row_to_a2a row))).

Definition handle_tasks_subscribe now a instance_id payload : json :=
  either (tid ← payload_task_id now payload;
          row ← read_task now a instance_id tid;
          Ok (task_frame now (task_row_to_a2a row))).

Definition handle_tasks_list now a instance_id payload : json :=
  let limit := Z.max 1 (Z.min (default 25 (json_get payload "limit" ≫= json_u64)) 100) in
  either (
    state_filter ← (match json_get payload "state" ≫= as_str with
      | None => Ok None
      | Some s => match task_state_from_str s with
          | Ok st => Ok (Some st)
          | Err _ => Err (build_error_frame now "request.invalid_params" ("Unknown task state: " +:+ s) 400)
          end
      end);
    match list_tasks (app_store a) {| f_state := state_filter; f_limit := Some limit;
            f_include_terminal := true; f_instance_id := Some instance_id |} with
    | Ok rows => Ok (envelope "task_list" JNull now
        (json_obj [("tasks", JArr (task_row_to_a2a <$> rows)); ("next_cursor", JNull)]))
    | Err e => Err (build_error_frame now "internal.error" ("Failed to list tasks: " +:+ store_error_text e) 500)
    end).

(** The row is read; [Err] is the answer. *)
Definition ws_cancel_read now a instance_id payload : result json TaskRow :=
  tid ← payload_task_id now payload;
  row ← read_task now a instance_id tid;
  if task_is_terminal (t_state row)
  then Err (build_error_frame now "task.not_cancelable"
    ("Task '" +:+ tid +:+ "' is in terminal state '" +:+ task_state_as_str (t_state row) +:+ "'") 409)
  else Ok row.

(** [None] in place of the frame is a panic. *)
Definition handle_tasks_cancel now a instance_id payload : AppState * option json :=
  match ws_cancel_read now a instance_id payload with
  | Err frame => (a, Some frame)
  | Ok row =>
      let row := row <| t_state := Task.Canceled |> <| t_updated_at := now |>
        <| t_terminal_at := Some now |>
        <| t_status_json := json_obj [("state", JStr (task_state_as_str Task.Canceled));
             ("timestamp", JStr (rfc3339 now)); ("terminal_reason", JStr "caller_cancellation")] |> in
      match latest_event (t_metadata_json row)
              (terminal "canceled" (t_created_at row) now
                 (json_obj [("status", JStr "not_applicable"); ("reason", JStr "caller canceled task")])
                 (JArr []) (Some "caller_cancellation")) with
      | None => (a, None)
      | Some metadata =>
          let row := row <| t_metadata_json := metadata |> in
          (set_store a (upsert_task (app_store a) row), Some (task_frame now (task_row_to_a2a row)))
      end
  end.

End a2a_ops.

(** ** The operations on a session *)

(** Where an operation goes on after the bridge has answered. *)
Inductive Cont : Type :=
| KJoinStarted (role : Role)
| KJoinAttached (role : Role)
| KJoinStream (role : Role)
| KRole (role : Role)
| KInput (terminal_size : option json)
| KResized (cols rows : Z)
| KQuiet
| KCleanup (was_controller : bool).

(** The bridge's answers; [Failed] is an error of any call. *)
Inductive BridgeAnswer : Type :=
| Failed
| Done
| Attached (role : option PtySessionRole)
| Streamed (attachment : option (PtySessionRole * bool)).

(** How a step of a connection's task ends. *)
Inductive Next : Type :=
| Reply (response : option json)
| Await (call : BridgeCall) (k : Cont)
| Panicked
| Ended (closes_session : bool).

Section session_ops.
Context `{Env, TableScan, AuthEnv, HandlerText, StdBase64}.
Variable br : Bridge.
Implicit Types (now : Z) (s : SessionState) (client_id : string) (principal : AttachPrincipal)
  (payload : json).

Definition denied now (message : string) : Next :=
  Reply (Some (build_error_frame now "pty.permission_denied" message 403)).

Definition join_finish now s client_id (role : Role) : SessionState * Next :=
  let role_assigned := build_join_response now s client_id role in
  (append_membership_changed now s, Reply (Some role_assigned)).

(** The attachment on the canonical bus. *)
Definition join_attach now s client_id (role : Role) (since : option Z) : SessionState * Next :=
  if is_real br then
    if ss_bridge_started s
    then (s, Await (AttachClient client_id (to_bridge_role role)) (KJoinAttached role))
    else (s, Await (AttachClientStream client_id (to_bridge_role role) since) (KJoinStream role))
  else join_finish now s client_id role.

Definition dispatch_join_op now s client_id principal (since : option Z) payload
    : SessionState * Next :=
  if is_closed s then
    (s, Reply (Some (build_error_frame now "session.closed"
      "PTY session is closed; reconnect with replay_from to inspect retained frames" 409)))
  else match build_join_start_command now payload (capabilities br) with
  | Err error => (s, Reply (Some error))
  | Ok command =>
      let '(s, role) := assign_role now s client_id (can_control (scope principal)) in
      if bool_decide (role = Controller) && is_real br then
        let '(s, first) := try_mark_bridge_started s in
        if first then (s, Await (StartSession command) (KJoinStarted role))
        else join_attach now s client_id role since
      else join_attach now s client_id role since
  end.

(** [as u16] *)
Definition as_u16 (n : Z) : Z := n `mod` 65536.

Definition size_of (v : json) (key : string) (dflt : Z) : Z :=
  default dflt (json_get v key ≫= json_u64).

(** The resize hint of an input frame. *)
Definition resize_hint (terminal_size : option json) : Next :=
  match terminal_size with
  | Some ts => Await (ResizePty (as_u16 (size_of ts "cols" 80)) (as_u16 (size_of ts "rows" 24))) KQuiet
  | None => Reply None
  end.

Definition bad_base64 now (e : string) : Next :=
  Reply (Some (build_error_frame now "request.invalid_params"
    ("pty.session_input.data must be base64: " +:+ e) 400)).

Definition session_input now s client_id principal payload : SessionState * Next :=
  if negb (is_controller s client_id) then (s, denied now "Only the controller may send PTY input")
  else if negb (can_control (scope principal)) then
    (s, denied now "Bearer scope pty:control is required to send PTY input")
  else
    let data := default JNull (json_get payload "data") in
    let terminal_size := json_get payload "terminal_size" in
    match as_str data with
    | Some text =>
        match std_decode text with
        | Ok bytes =>
            if is_real br then (s, Await (WriteInput bytes) (KInput terminal_size))
            else (append_output_bytes now s bytes, Reply None)
        | Err e => (s, bad_base64 now e)
        end
    | None =>
        if is_real br then (s, resize_hint terminal_size)
        else
          (append_frame now s "output" (json_obj (("data", data) ::
             match terminal_size with Some ts => [("terminal_size", ts)] | None => [] end)),
           Reply None)
    end.

Definition append_resize now s (cols rows : Z) : SessionState :=
  append_frame now s "resize" (json_obj [("cols", JNum cols); ("rows", JNum rows)]).

Definition session_resize now s client_id principal payload : SessionState * Next :=
  if negb (is_controller s client_id) then (s, denied now "Only the controller may resize the PTY")
  else if negb (can_control (scope principal)) then
    (s, denied now "Bearer scope pty:control is required to resize the PTY")
  else
    let cols := size_of payload "cols" 80 in
    let rows := size_of payload "rows" 24 in
    if is_real br then (s, Await (ResizePty (as_u16 cols) (as_u16 rows)) (KResized cols rows))
    else (append_resize now s cols rows, Reply None).

(** The broadcast and the reply after a change of role. *)
Definition role_changed now s client_id (role : Role) : SessionState * Next :=
  let s := append_membership_changed now s in
  (s, Reply (Some (build_join_response now s client_id role))).

Definition mirror_role now s client_id (role : Role) : SessionState * Next :=
  if is_real br
  then (s, Await (AttachClient client_id (to_bridge_role role)) (KRole role))
  else role_changed now s client_id role.

Definition request_role now s client_id principal payload : SessionState * Next :=
  if bool_decide (json_get payload "role" ≫= as_str = Some "controller") then
    if negb (can_control (scope principal)) then
      (s, denied now "Bearer scope pty:control is required to request controller role")
    else
      let '(s, role) := try_promote_to_controller s client_id true in
      mirror_role now s client_id role
  else mirror_role now (demote_controller s client_id) client_id Observer.

Definition release_role now s client_id : SessionState * Next :=
  mirror_role now (demote_controller s client_id) client_id Observer.

Definition leave_session s client_id : SessionState * Next :=
  let s := drop_member s client_id in
  if is_real br then (s, Await (DetachClient client_id) KQuiet) else (s, Reply None).

(** The operations by name. *)
Inductive WsOp : Type :=
| OpMessageSend | OpMessageStream | OpTasksGet | OpTasksList | OpTasksCancel | OpTasksSubscribe
| OpJoin | OpInput | OpResize | OpKeyframe | OpRequestRole | OpReleaseRole | OpLeave.

Definition op_table : list (string * WsOp) :=
  [("message/send", OpMessageSend); ("message/stream", OpMessageStream); ("tasks/get", OpTasksGet);
   ("tasks/list", OpTasksList); ("tasks/cancel", OpTasksCancel);
   ("tasks/subscribe", OpTasksSubscribe); ("pty.join_session", OpJoin);
   ("pty.session_input", OpInput); ("pty.session_resize", OpResize);
   ("pty.request_keyframe", OpKeyframe); ("pty.request_role", OpRequestRole);
   ("pty.release_role", OpReleaseRole); ("pty.leave_session", OpLeave)].

Definition op_of_text (op : string) : option WsOp :=
  snd <$> find_first (λ e, bool_decide (e.1 = op)) op_table.

(** One text operation; [u] numbers the UUID a new task gets. *)
Definition dispatch_op now (u : Z) (a : AppState) s client_id principal (op : string) payload
    : AppState * (SessionState * Next) :=
  let instance_id := ss_instance_id s in
  match op_of_text op with
  | Some (OpMessageSend | OpMessageStream) =>
      let '(a, frame) := handle_message_send now u a instance_id payload in
      (a, (s, Reply (Some frame)))
  | Some OpTasksGet => (a, (s, Reply (Some (handle_tasks_get now a instance_id payload))))
  | Some OpTasksList => (a, (s, Reply (Some (handle_tasks_list now a instance_id payload))))
  | Some OpTasksCancel =>
      let '(a, frame) := handle_tasks_cancel now a instance_id payload in
      (a, (s, match frame with Some frame => Reply (Some frame) | None => Panicked end))
  | Some OpTasksSubscribe => (a, (s, Reply (Some (handle_tasks_subscribe now a instance_id payload))))
  | Some OpJoin => (a, dispatch_join_op now s client_id principal None payload)
  | Some OpInput => (a, session_input now s client_id principal payload)
  | Some OpResize => (a, session_resize now s client_id principal payload)
  | Some OpKeyframe => (a, (s, Reply (Some (build_keyframe now s))))
  | Some OpRequestRole => (a, request_role now s client_id principal payload)
  | Some OpReleaseRole => (a, release_role now s client_id)
  | Some OpLeave => (a, leave_session s client_id)
  | None => (a, (s, Reply (Some (build_error_frame now "request.unsupported_operation"
              ("Unsupported op '" +:+ op +:+ "'") 400))))
  end.

(** A text frame of the client. *)
Definition handle_text now (u : Z) (a : AppState) s client_id principal (since : option Z)
    (text : string) : AppState * (SessionState * Next) :=
  match json_parse text with
  | Some (JObj m) =>
      let op := default EmptyString (map_get m "op" ≫= as_str) in
      let payload := default JNull (map_get m "payload") in
      if bool_decide (op = "pty.join_session")
      then (a, dispatch_join_op now s client_id principal since payload)
      else dispatch_op now u a s client_id principal op payload
  | _ => (a, (s, Reply (Some (build_error_frame now "request.invalid_params"
           "Frame must be a JSON object" 400))))
  end.

Definition handle_binary_input_frame now s client_id principal (binary_mode : bool) (frame : string)
    : SessionState * Next :=
  if negb binary_mode then
    (s, Reply (Some (build_error_frame now "request.invalid_params"
      "Binary frames require Sec-WebSocket-Protocol: pty-ws.v1.binary" 400)))
  else if negb (is_controller s client_id) then (s, denied now "Only the controller may send PTY input")
  else if negb (can_control (scope principal)) then
    (s, denied now "Bearer scope pty:control is required to send PTY input")
  else match parse_binary_input_frame now frame with
  | Err err => (s, Reply (Some err))
  | Ok data =>
      if is_real br then (s, Await (WriteInput data) KQuiet)
      else (append_output_bytes now s data, Reply None)
  end.

(** The end of the cleanup: the roster is announced, and without a real bridge
    the last one out closes the session. *)
Definition cleanup_finish now s (was_controller : bool) : SessionState * Next :=
  let remaining := ss_members s in
  let s := if was_controller || negb (bool_decide (remaining = []))
    then append_frame now s "membership_changed" (members_json remaining) else s in
  if bool_decide (remaining = []) && negb (is_real br)
  then (append_closed now s None "last_member_left", Ended true)
  else (s, Ended false).

Definition cleanup now s client_id : SessionState * Next :=
  let was_attached := has_member s client_id in
  let was_controller := is_controller s client_id in
  let s := drop_member s client_id in
  if is_real br && was_attached then (s, Await (DetachClient client_id) (KCleanup was_controller))
  else cleanup_finish now s was_controller.

(** An operation goes on with the bridge's answer. *)
Definition resume now s client_id (since : option Z) (k : Cont) (answer : BridgeAnswer)
    : SessionState * Next :=
  match k with
  | KJoinStarted role =>
      let s := match answer with
        | Failed => append_closed now s None "bridge_start_failed"
        | _ => s
        end in
      join_attach now s client_id role since
  | KJoinAttached role =>
      match answer with
      | Attached (Some canonical) =>
          let role := from_bridge_role canonical in
          join_finish now (set_member_role s client_id role) client_id role
      | _ => join_finish now s client_id role
      end
  | KJoinStream role =>
      match answer with
      | Streamed (Some (canonical, _)) =>
          let role := from_bridge_role canonical in
          role_changed now (set_member_role s client_id role) client_id role
      | _ => join_finish now s client_id role
      end
  | KRole role =>
      match answer with
      | Attached (Some canonical) =>
          let role := from_bridge_role canonical in
          role_changed now (set_member_role s client_id role) client_id role
      | _ => role_changed now s client_id role
      end
  | KInput terminal_size => (s, resize_hint terminal_size)
  | KResized cols rows => (append_resize now s cols rows, Reply None)
  | KQuiet => (s, Reply None)
  | KCleanup was_controller => cleanup_finish now s was_controller
  end.

(** The reader of the process's events; [false] ends it. *)
Definition reader_event now s (event : PtyBridgeEvent) : SessionState * bool :=
  match event with
  | EvOutput EmptyString _ | EvKeyframe EmptyString _ => (s, true)
  | EvOutput data _ => (append_output_bytes now s data, true)
  | EvKeyframe data _ =>
      (append_frame now s "keyframe" (json_obj [("data", JStr (std_encode data))]), true)
  | EvResize cols rows _ => (append_resize now s cols rows, true)
  | EvClosed exit_code reason _ => (append_closed now s exit_code reason, false)
  end.

Definition reader_eof now s : SessionState := append_closed now s None "bridge_eof".

(** ** What a connection sends *)

Inductive WsMessage : Type :=
| WsText (frame : json)
| WsBinary (bytes : string)
| WsPing.

Definition send_broadcast_event (binary_mode : bool) (event : SessionBroadcast) : WsMessage :=
  match event with
  | BJson _ frame => WsText frame
  | BOutputBytes seq frame data =>
      if binary_mode then WsBinary (build_binary_output_frame seq data) else WsText frame
  end.

Definition send_canonical_bridge_event now (binary_mode : bool) (event : PtyBridgeEvent) : WsMessage :=
  match event with
  | EvOutput data seq =>
      let seq := default 0 seq in
      if binary_mode then WsBinary (build_binary_output_frame seq data)
      else WsText (envelope "output" (JNum seq) now (json_obj [("data", JStr (std_encode data))]))
  | EvKeyframe data seq =>
      WsText (envelope "keyframe" (JNum (default 0 seq)) now (json_obj [("data", JStr (std_encode data))]))
  | EvResize cols rows seq =>
      WsText (envelope "resize" (JNum (default 0 seq)) now
        (json_obj [("cols", JNum cols); ("rows", JNum rows)]))
  | EvClosed exit_code reason seq =>
      WsText (envelope "closed" (JNum (default 0 seq)) now
        (json_obj [("exit_code", opt_num exit_code); ("reason", JStr reason)]))
  end.

Definition supported_operations : list string :=
  ["message/send"; "message/stream"; "tasks/get"; "tasks/list"; "tasks/cancel"; "tasks/subscribe";
   "pty.join_session"; "pty.session_input"; "pty.session_resize"; "pty.request_keyframe";
   "pty.request_role"; "pty.release_role"; "pty.leave_session"].

Definition capabilities_json (c : SessionHostCapabilities) : json :=
  json_obj [
    ("supported_backends", JArr ((λ b, JStr (backend_text b)) <$> supported_backends c));
    ("default_backend", JStr (backend_text (default_backend c)));
    ("supported_classes", JArr ((λ k, JStr (class_text k)) <$> supported_classes c));
    ("default_class", JStr (class_text (default_class c)));
    ("observe_supported", JBool (observe_supported c));
    ("drive_supported", JBool (drive_supported c));
    ("reattach_supported", JBool (reattach_supported c))].

(** [version] is the crate's version. *)
Definition hello_frame now (version : string) s (binary_mode : bool) : json :=
  envelope "binding_hello" (JNum 0) now (json_obj [
    ("binding_uri", JStr BINDING_URI);
    ("binding_version", JStr "1.0.0");
    ("activated_extensions", JArr [JStr PTY_EXTENSION_URI]);
    ("supported_operations", JArr (JStr <$> supported_operations));
    ("session", json_obj [("instance_id", JStr (ss_instance_id s));
       ("session_id", JStr (ss_session_id s)); ("current_sequence", JNum (ss_seq s))]);
    ("session_host", capabilities_json (capabilities br));
    ("server_info", json_obj [("name", JStr "agentic-sandbox-executor"); ("version", JStr version)]);
    ("payload_mode", json_obj [("binary", JBool binary_mode);
       ("binary_subprotocol", JStr SUBPROTOCOL_BINARY); ("json_subprotocol", JStr SUBPROTOCOL)])]).

(** The frames after the hello when the client asks for a replay. *)
Definition replay_frames now s (since : Z) : list json :=
  if out_of_range s since then
    [envelope "error" JNull now (json_obj [("code", JStr "replay.out_of_range");
       ("message", JStr ("replay_from=" +:+ pretty since +:+ " precedes oldest retained seq " +:+
                         pretty (oldest_seq s)));
       ("oldest", JNum (oldest_seq s))]);
     build_keyframe now s]
  else build_keyframe now s :: (snd <$> replay_from s since).

Definition handshake now (version : string) s (binary_mode : bool) (since : option Z) : list WsMessage :=
  WsText <$> hello_frame now version s binary_mode ::
    match since with Some n => replay_frames now s n | None => [] end.

Definition lagged_frame now : json :=
  envelope "error" JNull now (json_obj [("code", JStr "broadcast.lagged");
    ("message", JStr "client lagged broadcast channel; reconnect with replay_from");
    ("status", JNum 200)]).

(** [rx.recv()] of a subscriber at position [pos] that has something to read:
    the new position and what the connection sends. *)
Definition recv_broadcast now s (binary_mode : bool) (pos : nat) : option (nat * WsMessage) :=
  let behind := len (ss_sent s) - Z.of_nat pos in
  if BROADCAST_BUFFER <? behind
  then Some (Z.to_nat (len (ss_sent s) - BROADCAST_BUFFER), WsText (lagged_frame now))
  else event ← ss_sent s !! pos; Some (S pos, send_broadcast_event binary_mode event).

End session_ops.

(** ** Connections *)

(** Where a connection's task is: in its loop, awaiting the bridge, or over. *)
Inductive Pc : Type :=
| PcIdle
| PcWaiting (call : BridgeCall) (k : Cont)
| PcGone.

Record Conn : Type := {
  c_principal : AttachPrincipal;
  c_binary_mode : bool;
  c_replay_from : option Z;
  c_pos : nat;
  c_canonical : bool;
  c_awaiting_pong : option Z;
  c_pc : Pc;
}.

Record World : Type := {
  wd_app : AppState;
  wd_session : SessionState;
  wd_conns : gmap string Conn;
  wd_readers : nat;
}.

(** What can happen next; a client is named by its [client_id], a fresh UUID. *)
Inductive Event : Type :=
| Connect (client : string) (principal : AttachPrincipal) (binary_mode : bool) (since : option Z)
| TextFrame (client text : string)
| BinaryFrame (client bytes : string)
| Recv (client : string)
| CanonicalEvent (client : string) (event : PtyBridgeEvent)
| CanonicalEnd (client : string)
| Tick (client : string)
| Pong (client : string)
| Answered (client : string) (answer : BridgeAnswer)
| Disconnect (client : string)
| ReaderEvent (event : PtyBridgeEvent)
| ReaderEof.

(** What a step shows: the connection, the messages it sends, and the call it
    makes on the bridge. *)
Record Label : Type := {
  l_client : option string;
  l_sent : list WsMessage;
  l_call : option BridgeCall;
}.

Definition quiet : Label := {| l_client := None; l_sent := []; l_call := None |}.

Definition PTY_WS_PONG_TIMEOUT : Z := 90000000000.

Section world.
Context `{Env, TableScan, AuthEnv, HandlerText, StdBase64}.
Variable br : Bridge.
Implicit Types (w : World) (client : string) (c : Conn).

Definition pc_of (n : Next) : Pc :=
  match n with
  | Reply _ => PcIdle
  | Await call k => PcWaiting call k
  | Panicked | Ended _ => PcGone
  end.

Definition label_of client (n : Next) : Label :=
  {| l_client := Some client;
     l_sent := match n with Reply (Some frame) => [WsText frame] | _ => [] end;
     l_call := match n with Await call _ => Some call | Ended true => Some CloseSession | _ => None end |}.

(** The connection's task runs up to [n]. *)
Definition advance w client c (s : SessionState) (n : Next) : World * Label :=
  (w <| wd_session := s |> <| wd_conns ::= <[client := c <| c_pc := pc_of n |>]> |>, label_of client n).

Definition put_conn w client c : World := w <| wd_conns ::= <[client := c]> |>.

Definition sends client (ms : list WsMessage) : Label :=
  {| l_client := Some client; l_sent := ms; l_call := None |}.

Definition idle w client : option Conn :=
  c ← wd_conns w !! client;
  match c_pc c with PcIdle => Some c | _ => None end.

Definition spawns_reader (call : BridgeCall) (answer : BridgeAnswer) : bool :=
  match call, answer with
  | StartSession _, Failed => false
  | StartSession _, _ => true
  | _, _ => false
  end.

Definition takes_stream (k : Cont) (answer : BridgeAnswer) : bool :=
  match k, answer with KJoinStream _, Streamed (Some (_, events)) => events | _, _ => false end.

Definition end_connection (now : Z) w client c : World * Label :=
  let '(s, n) := cleanup br now (wd_session w) client in advance w client c s n.

(** One step at time [now]; [None] when the event cannot happen. *)
Definition world_step (now u : Z) (version : string) w (e : Event) : option (World * Label) :=
  let s := wd_session w in
  match e with
  | Connect client principal binary_mode since =>
      match wd_conns w !! client with
      | Some _ => None
      | None =>
          let c := {| c_principal := principal; c_binary_mode := binary_mode; c_replay_from := since;
                      c_pos := length (ss_sent s); c_canonical := false; c_awaiting_pong := None;
                      c_pc := PcIdle |} in
          Some (put_conn w client c, sends client (handshake br now version s binary_mode since))
      end
  | TextFrame client text =>
      c ← idle w client;
      let '(a, (s, n)) :=
        handle_text br now u (wd_app w) s client (c_principal c) (c_replay_from c) text in
      Some (advance (w <| wd_app := a |>) client c s n)
  | BinaryFrame client bytes =>
      c ← idle w client;
      let '(s, n) := handle_binary_input_frame br now s client (c_principal c) (c_binary_mode c) bytes in
      Some (advance w client c s n)
  | Recv client =>
      c ← idle w client;
      '(pos, message) ← recv_broadcast now s (c_binary_mode c) (c_pos c);
      Some (put_conn w client (c <| c_pos := pos |>), sends client [message])
  | CanonicalEvent client event =>
      c ← idle w client;
      if c_canonical c
      then Some (w, sends client [send_canonical_bridge_event now (c_binary_mode c) event])
      else None
  | CanonicalEnd client =>
      c ← idle w client; Some (put_conn w client (c <| c_canonical := false |>), quiet)
  | Tick client =>
      c ← idle w client;
      match c_awaiting_pong c with
      | Some sent_at =>
          Some (if PTY_WS_PONG_TIMEOUT <=? now - sent_at then end_connection now w client c
                else (w, quiet))
      | None => Some (put_conn w client (c <| c_awaiting_pong := Some now |>), sends client [WsPing])
      end
  | Pong client =>
      c ← idle w client; Some (put_conn w client (c <| c_awaiting_pong := None |>), quiet)
  | Answered client answer =>
      c ← wd_conns w !! client;
      match c_pc c with
      | PcWaiting call k =>
          let '(s, n) := resume br now s client (c_replay_from c) k answer in
          let c := if takes_stream k answer then c <| c_canonical := true |> else c in
          let w := if spawns_reader call answer then w <| wd_readers ::= S |> else w in
          Some (advance w client c s n)
      | _ => None
      end
  | Disconnect client => c ← idle w client; Some (end_connection now w client c)
  | ReaderEvent event =>
      match wd_readers w with
      | O => None
      | S rest =>
          let '(s, continues) := reader_event now s event in
          Some (w <| wd_session := s |> <| wd_readers := if continues then S rest else rest |>, quiet)
      end
  | ReaderEof =>
      match wd_readers w with
      | O => None
      | S rest => Some (w <| wd_session := reader_eof now s |> <| wd_readers := rest |>, quiet)
      end
  end.

(** A run: the events with what each step showed. *)
Inductive run : World → list (Event * Label) → World → Prop :=
| run_nil w : run w [] w
| run_snoc w tr w1 now u version e w2 l :
    run w tr w1 → world_step now u version w1 e = Some (w2, l) → run w (tr ++ [(e, l)]) w2.

(** The run of a list of events, one second apart. *)
Fixpoint exec (now : Z) w (es : list Event) : option (list (Event * Label) * World) :=
  match es with
  | [] => Some ([], w)
  | e :: es' =>
      '(w, l) ← world_step now now "1" w e;
      '(tr, w) ← exec (now + 1000000000) w es';
      Some ((e, l) :: tr, w)
  end.

Definition fresh_world (a : AppState) (now : Z) (instance_id session_id : string) : World :=
  {| wd_app := a; wd_session := new_session now instance_id session_id; wd_conns := ∅; wd_readers := 0 |}.

End world.

(** ** What an operation may do to the session

    Every operation of a client is a sequence of the session's own operations:
    [touch] lists them.  [canonical] allows the one that copies a role the
    bridge has granted. *)

Section touch.
Context `{Env, TableScan, AuthEnv, HandlerText, StdBase64}.
Variable br : Bridge.
Implicit Types (s : SessionState) (client : string) (canonical : bool).

Definition regular (a : Append) : bool :=
  match a with AFrame kind _ => negb (bool_decide (kind = "closed")) | _ => true end.

Inductive touch canonical client : relation SessionState :=
| t_append now s a : regular a = true → touch canonical client s (do_append now s a)
| t_assign now s may : touch canonical client s (assign_role now s client may).1
| t_promote s may : touch canonical client s (try_promote_to_controller s client may).1
| t_demote s : touch canonical client s (demote_controller s client)
| t_drop s : touch canonical client s (drop_member s client)
| t_mark s : touch canonical client s (try_mark_bridge_started s).1
| t_set s role : canonical = true → touch canonical client s (set_member_role s client role).

Abbreviation touches canonical client := (rtc (touch canonical client)).

Lemma touch_frame canonical client now s kind payload :
  bool_decide (kind = "closed") = false → touches canonical client s (append_frame now s kind payload).
Proof. intros Hk. apply rtc_once, (t_append _ _ now s (AFrame kind payload)). simpl. by rewrite Hk. Qed.

Lemma touch_output canonical client now s data :
  touches canonical client s (append_output_bytes now s data).
Proof. by apply rtc_once, (t_append _ _ now s (AOutput data)). Qed.

Lemma touch_closed canonical client now s code reason :
  touches canonical client s (append_closed now s code reason).
Proof. by apply rtc_once, (t_append _ _ now s (AClosed code reason)). Qed.

Lemma touch_set client s role : touches true client s (set_member_role s client role).
Proof. by apply rtc_once, t_set. Qed.

Create HintDb touch discriminated.
#[local] Hint Constants Opaque : touch.
#[local] Hint Variables Opaque : touch.
#[local] Hint Resolve touch_output touch_closed touch_set rtc_refl : touch.
#[local] Hint Extern 1 (rtc (touch _ _) _ (append_frame _ _ _ _)) => (by apply touch_frame) : touch.
#[local] Hint Extern 1 (rtc (touch _ _) _ (append_membership_changed _ _)) => (by apply touch_frame) : touch.
#[local] Hint Extern 1 (rtc (touch _ _) _ (append_resize _ _ _ _)) => (by apply touch_frame) : touch.

Lemma join_finish_touches canonical now s client role :
  touches canonical client s (join_finish now s client role).1.
Proof. cbn [fst join_finish role_changed]. eauto with touch. Qed.

Lemma role_changed_touches canonical now s client role :
  touches canonical client s (role_changed now s client role).1.
Proof. cbn [fst join_finish role_changed]. eauto with touch. Qed.
#[local] Hint Resolve join_finish_touches role_changed_touches : touch.

Lemma join_attach_touches canonical now s client role since :
  touches canonical client s (join_attach br now s client role since).1.
Proof. unfold join_attach. repeat case_match; eauto with touch. Qed.
#[local] Hint Resolve join_attach_touches : touch.

Lemma mirror_role_touches canonical now s client role :
  touches canonical client s (mirror_role br now s client role).1.
Proof. unfold mirror_role. case_match; eauto with touch. Qed.
#[local] Hint Resolve mirror_role_touches : touch.

Lemma dispatch_join_op_touches canonical now s client principal since payload :
  touches canonical client s (dispatch_join_op br now s client principal since payload).1.
Proof.
  unfold dispatch_join_op. case_match; [eauto with touch|]. case_match; [|eauto with touch].
  eapply rtc_l; [apply (t_assign _ _ now _ (can_control (scope principal)))|].
  destruct (assign_role _ _ _ _) as [s1 role]. cbn [fst].
  case_match; [|eauto with touch]. destruct (try_mark_bridge_started s1) as [s2 first] eqn:Hm.
  eapply rtc_l; [apply t_mark|]. rewrite Hm. cbn [fst]. case_match; eauto with touch.
Qed.

Lemma session_input_touches canonical now s client principal payload :
  touches canonical client s (session_input br now s client principal payload).1.
Proof. unfold session_input. repeat case_match; cbn [fst]; eauto with touch. Qed.

Lemma session_resize_touches canonical now s client principal payload :
  touches canonical client s (session_resize br now s client principal payload).1.
Proof. unfold session_resize. repeat case_match; cbn [fst]; eauto with touch. Qed.

Lemma request_role_touches canonical now s client principal payload :
  touches canonical client s (request_role br now s client principal payload).1.
Proof.
  unfold request_role. case_match; [case_match; [eauto with touch|]|].
  - eapply rtc_l; [apply (t_promote _ _ _ true)|].
    destruct (try_promote_to_controller s client true) as [s1 role]. cbn [fst]. eauto with touch.
  - eapply rtc_l; [apply t_demote|]. eauto with touch.
Qed.

Lemma release_role_touches canonical now s client :
  touches canonical client s (release_role br now s client).1.
Proof. unfold release_role. eapply rtc_l; [apply t_demote|]. eauto with touch. Qed.

Lemma leave_session_touches canonical s client :
  touches canonical client s (leave_session br s client).1.
Proof. eapply rtc_l; [apply t_drop|]. unfold leave_session. case_match; apply rtc_refl. Qed.

#[local] Hint Resolve dispatch_join_op_touches session_input_touches session_resize_touches
  request_role_touches release_role_touches leave_session_touches : touch.

Lemma handle_text_touches canonical now u a s client principal since text a' s' n :
  handle_text br now u a s client principal since text = (a', (s', n)) →
  touches canonical client s s'.
Proof.
  intros Heq. assert (Hs : s' = (handle_text br now u a s client principal since text).2.1) by (by rewrite Heq).
  rewrite Hs. clear. unfold handle_text. destruct (json_parse text) as [[]|]; try apply rtc_refl.
  case_match; cbn [fst snd]; [eauto with touch|]. unfold dispatch_op.
  destruct (op_of_text _) as [[]|]; cbn [fst snd]; eauto with touch;
    repeat (case_match; cbn [fst snd]; eauto with touch).
Qed.

Lemma handle_binary_touches canonical now s client principal binary_mode frame s' n :
  handle_binary_input_frame br now s client principal binary_mode frame = (s', n) →
  touches canonical client s s'.
Proof.
  unfold handle_binary_input_frame. intros Heq.
  repeat case_match; injection Heq as <- <-; eauto with touch.
Qed.

Lemma cleanup_finish_touches canonical now s client was_controller :
  touches canonical client s (cleanup_finish br now s was_controller).1.
Proof.
  unfold cleanup_finish.
  set (s1 := if was_controller || _ then _ else _).
  assert (Hs1 : touches canonical client s s1) by (subst s1; case_match; eauto with touch).
  case_match; cbn [fst]; [|done]. etrans; [exact Hs1|]. eauto with touch.
Qed.
#[local] Hint Resolve cleanup_finish_touches : touch.

Lemma cleanup_touches canonical now s client s' n :
  cleanup br now s client = (s', n) → touches canonical client s s'.
Proof.
  intros Heq. assert (Hs : s' = (cleanup br now s client).1) by (by rewrite Heq).
  rewrite Hs. clear. unfold cleanup. eapply rtc_l; [apply t_drop|]. case_match; eauto with touch.
Qed.

Definition canonical_answer (answer : BridgeAnswer) : bool :=
  match answer with Attached (Some _) | Streamed (Some _) => true | _ => false end.

Lemma resume_touches now s client since k answer s' n :
  resume br now s client since k answer = (s', n) →
  touches (canonical_answer answer) client s s'.
Proof.
  intros Heq. assert (Hs : s' = (resume br now s client since k answer).1) by (by rewrite Heq).
  rewrite Hs. clear. unfold resume.
  destruct k, answer as [| |[role'|]|[[role' ev]|]]; cbn [fst canonical_answer]; eauto with touch;
    (etrans; [|solve [eauto with touch]]; eauto with touch).
Qed.

Lemma reader_event_touches canonical client now s event :
  touches canonical client s (reader_event now s event).1.
Proof. unfold reader_event. repeat case_match; cbn [fst]; eauto with touch. Qed.

Lemma reader_eof_touches canonical client now s : touches canonical client s (reader_eof now s).
Proof. unfold reader_eof. eauto with touch. Qed.

(** *** Lifting *)

Lemma touch_mono canonical canonical' client s s' :
  (canonical = true → canonical' = true) → touch canonical client s s' → touch canonical' client s s'.
Proof. intros Hc. destruct 1; [by constructor..|]. apply t_set. auto. Qed.

Lemma touches_invariant canonical client (P : SessionState → Prop) s s' :
  (∀ s1 s2, touch canonical client s1 s2 → P s1 → P s2) → touches canonical client s s' → P s → P s'.
Proof. intros Hstep. induction 1; eauto. Qed.

End touch.

(** ** Invariants of the session *)

Lemma existsb_update_first {A} (p q : A → bool) (f : A → A) l :
  (∀ x, q x = true → p (f x) = p x) → existsb p (update_first q f l) = existsb p l.
Proof.
  intros Hf. induction l as [|x l IH]; simpl; [done|]. destruct (q x) eqn:Hq; simpl; [by rewrite Hf|].
  by rewrite IH.
Qed.

Lemma existsb_fmap {A} (p : A → bool) (f : A → A) l :
  (∀ x, p (f x) = p x) → existsb p (f <$> l) = existsb p l.
Proof. intros Hf. induction l as [|x l IH]; [done|]. rewrite fmap_cons, !existsb_cons. by rewrite Hf, IH. Qed.

Lemma existsb_filter {A} (p q : A → bool) l :
  (∀ x, p x = true → q x = false) → existsb p (filter (λ x, q x = false) l) = existsb p l.
Proof.
  intros Hf. induction l as [|x l IH]; [done|]. rewrite filter_cons. simpl. rewrite <-IH.
  case_decide as Hq; simpl; [done|]. destruct (p x) eqn:Hp; [|done]. by rewrite Hf in Hq.
Qed.

Section invariants.
Context `{Env, TableScan, AuthEnv, HandlerText, StdBase64}.
Implicit Types (s : SessionState) (client : string) (canonical : bool).

Lemma do_append_members now s a : ss_members (do_append now s a) = ss_members s.
Proof. destruct a; [done|done|]. cbn [do_append]. unfold append_closed. by case_match. Qed.

Lemma do_append_started now s a : ss_bridge_started (do_append now s a) = ss_bridge_started s.
Proof. destruct a; [done|done|]. cbn [do_append]. unfold append_closed. by case_match. Qed.

(** *** Controllers *)

Definition controllers s : list Member := filter (λ m, is_controller_entry m = true) (ss_members s).
Definition one_controller s : Prop := (length (controllers s) ≤ 1)%nat.

Lemma has_controller_false s : has_controller s = false → controllers s = [].
Proof.
  unfold has_controller, controllers. rewrite existsb_false. intros Hex. apply filter_none, Forall_forall. intros m Hm.
  by rewrite Hex.
Qed.

Lemma update_first_controllers (q : Member → bool) (f : Member → Member) (l : list Member) :
  (length (filter (λ m, is_controller_entry m = true) (update_first q f l))
   ≤ S (length (filter (λ m, is_controller_entry m = true) l)))%nat.
Proof.
  induction l as [|m l IH]; simpl; [lia|]. destruct (q m); rewrite !filter_cons;
    repeat case_decide; simpl; lia.
Qed.

Lemma one_controller_touch client s1 s2 :
  touch false client s1 s2 → one_controller s1 → one_controller s2.
Proof.
  unfold one_controller. destruct 1 as [now s a _|now s may|s may|s|s|s|s role Hc]; intros Hone.
  - unfold controllers in *. by rewrite do_append_members.
  - unfold assign_role. destruct may; cbn [andb]; [destruct (has_controller s) eqn:Hh|]; cbn [negb fst];
      unfold controllers in *; simpl; rewrite filter_app, length_app; simpl; [lia| |lia].
    apply has_controller_false in Hh. unfold controllers in Hh. rewrite Hh. simpl. lia.
  - unfold try_promote_to_controller. case_match; [done|].
    destruct (negb _ && _) eqn:Hp; [|done]. cbn [fst]. apply andb_true_iff in Hp as [Hh%negb_true_iff _]. apply has_controller_false in Hh.
    unfold controllers in *. simpl. etrans; [apply update_first_controllers|]. rewrite Hh. simpl. lia.
  - etrans; [|exact Hone]. unfold controllers, demote_controller. simpl. generalize (ss_members s). clear.
    intros l. induction l as [|m l IH]; [done|]. rewrite fmap_cons, !filter_cons.
    destruct (of_client client m); simpl; [|repeat case_decide; simpl; lia].
    destruct (is_controller_entry m) eqn:Hm; repeat case_decide; simpl in *; try congruence; lia.
  - etrans; [|exact Hone]. unfold controllers, drop_member. simpl. generalize (ss_members s). clear.
    intros l. induction l as [|m l IH]; [done|]. rewrite !(filter_cons _ m).
    repeat case_decide; rewrite ?filter_cons; repeat case_decide; simpl; try done; lia.
  - done.
  - done.
Qed.

(** An operation of one client leaves the standing of the others. *)
Lemma is_controller_touch canonical client s1 s2 other :
  touch canonical client s1 s2 → other ≠ client → is_controller s2 other = is_controller s1 other.
Proof.
  intros Ht Hne. assert (Hof : ∀ m, of_client client m = true → of_client other m = false).
  { intros m Hm%bool_decide_eq_true. apply bool_decide_eq_false. congruence. }
  assert (Hset : ∀ s role, is_controller (set_member_role s client role) other = is_controller s other).
  { intros s role. apply existsb_update_first. intros m Hm. simpl.
    change (of_client other m && is_controller_entry (m <| mb_role := role |>)
      = of_client other m && is_controller_entry m). by rewrite Hof. }
  unfold is_controller. destruct Ht as [now s a _|now s may|s may|s|s|s|s role Hc]; [..|apply Hset].
  - by rewrite do_append_members.
  - unfold assign_role. cbn [fst]. simpl. rewrite existsb_app. simpl.
    replace (of_client other _) with false; [by rewrite !orb_false_r|]. symmetry. apply Hof. by apply bool_decide_eq_true.
  - unfold try_promote_to_controller. repeat case_match; cbn [fst]; [done|apply Hset|done].
  - apply existsb_fmap. intros m. destruct (of_client client m && is_controller_entry m) eqn:Hm; [|done].
    apply andb_true_iff in Hm as [Hm _].
    change (of_client other m && is_controller_entry (m <| mb_role := Observer |>)
      = of_client other m && is_controller_entry m). by rewrite Hof.
  - apply existsb_filter. intros m [Hm _]%andb_true_iff. apply not_true_iff_false. intros Hc.
    by rewrite Hof in Hm.
  - done.
Qed.

(** *** The terminal frame *)

Definition closed_event (e : SessionBroadcast) : bool :=
  bool_decide (json_get (event_frame e) "op" ≫= as_str = Some "closed").
Definition closed_frames s : list SessionBroadcast := filter (λ e, closed_event e = true) (ss_sent s).

Definition closed_once s : Prop := length (closed_frames s) = if ss_closed s then 1%nat else 0%nat.

Lemma closed_once_touch canonical client s1 s2 :
  touch canonical client s1 s2 → closed_once s1 → closed_once s2.
Proof.
  unfold closed_once, closed_frames.
  destruct 1 as [now s a Hr|now s may|s may|s|s|s|s role Hc]; intros Hone; [|try done..].
  - destruct a as [kind payload|data|code reason]; cbn [do_append] in *.
    + cbn [append_frame fetch_seq send_event]. simpl ss_sent. rewrite filter_app, length_app.
      rewrite (filter_none _ [_]); [simpl; lia|]. constructor; [|done]. unfold closed_event. simpl in Hr |- *.
      apply negb_true_iff, bool_decide_eq_false in Hr. rewrite bool_decide_eq_true. congruence.
    + simpl ss_sent. rewrite filter_app, length_app. simpl. lia.
    + unfold append_closed. destruct (ss_closed s) eqn:Hcl; [by rewrite Hcl|].
      simpl ss_sent. rewrite filter_app, length_app. simpl. lia.
  - unfold try_promote_to_controller. destruct may; [cbn [negb]|done].
    by destruct (negb (has_controller s) && has_member s client).
Qed.

Lemma closed_stays canonical client s1 s2 :
  touch canonical client s1 s2 → ss_closed s1 = true → ss_closed s2 = true.
Proof.
  destruct 1 as [now s a Hr|now s may|s may|s|s|s|s role Hc]; intros Hcl; [|try done..].
  - destruct a; try done. cbn [do_append]. unfold append_closed. by rewrite Hcl.
  - unfold try_promote_to_controller. destruct may; [cbn [negb]|done].
    by destruct (negb (has_controller s) && has_member s client).
Qed.

End invariants.

(** ** Calls on the bridge *)

Section calls.
Context `{Env, TableScan, AuthEnv, HandlerText, StdBase64}.
Variable br : Bridge.
Implicit Types (s : SessionState) (client : string).

(** The calls that drive the terminal, and the continuations that make one. *)
Definition drives (call : BridgeCall) : bool :=
  match call with WriteInput _ | ResizePty _ _ => true | _ => false end.
Definition drives_later (k : Cont) : bool := match k with KInput _ => true | _ => false end.
Definition controls (n : Next) : bool :=
  match n with Await call k => drives call || drives_later k | _ => false end.

Definition is_start (call : BridgeCall) : bool :=
  match call with StartSession _ => true | _ => false end.

(** How an operation may start the process: only by raising the flag. *)
Definition starts_ok s s' (n : Next) : Prop :=
  match n with
  | Await (StartSession _) _ => ss_bridge_started s = false ∧ ss_bridge_started s' = true
  | _ => ss_bridge_started s' = ss_bridge_started s
  end.

Lemma resize_hint_controls s ts :
  starts_ok s s (resize_hint ts).
Proof. by destruct ts. Qed.

Lemma join_attach_quiet now s client role since s' n :
  join_attach br now s client role since = (s', n) → controls n = false ∧ starts_ok s s' n.
Proof. unfold join_attach. intros Heq. repeat case_match; by injection Heq as <- <-. Qed.

Lemma mirror_role_quiet now s client role s' n :
  mirror_role br now s client role = (s', n) → controls n = false ∧ starts_ok s s' n.
Proof. unfold mirror_role. intros Heq. case_match; by injection Heq as <- <-. Qed.

Lemma append_closed_started now s code reason :
  ss_bridge_started (append_closed now s code reason) = ss_bridge_started s.
Proof. unfold append_closed. by case_match. Qed.

Lemma cleanup_finish_quiet now s was_controller s' n :
  cleanup_finish br now s was_controller = (s', n) → controls n = false ∧ starts_ok s s' n.
Proof.
  unfold cleanup_finish. set (s1 := if was_controller || _ then _ else _).
  assert (Hs1 : ss_bridge_started s1 = ss_bridge_started s) by (subst s1; by case_match).
  intros Heq. case_match; injection Heq as <- <-; [|done]. simpl. by rewrite append_closed_started.
Qed.

Lemma cleanup_quiet now s client s' n :
  cleanup br now s client = (s', n) → controls n = false ∧ starts_ok s s' n.
Proof.
  unfold cleanup. intros Heq. case_match; [by injection Heq as <- <-|].
  by apply cleanup_finish_quiet in Heq.
Qed.

Lemma dispatch_join_op_calls now s client principal since payload s' n :
  dispatch_join_op br now s client principal since payload = (s', n) →
  controls n = false ∧ starts_ok s s' n.
Proof.
  unfold dispatch_join_op. intros Heq. case_match; [by injection Heq as <- <-|].
  case_match; [|by injection Heq as <- <-]. destruct (assign_role _ _ _ _) as [s1 role] eqn:Ha.
  assert (Hs1 : ss_bridge_started s1 = ss_bridge_started s) by (by injection Ha as <- _).
  case_match; [|apply join_attach_quiet in Heq; unfold starts_ok in *; by rewrite Hs1 in Heq].
  unfold try_mark_bridge_started in Heq. destruct (ss_bridge_started s1) eqn:Hb; cbn [negb] in Heq.
  - apply join_attach_quiet in Heq. unfold starts_ok in *. simpl in Heq. by rewrite <-Hs1.
  - injection Heq as <- <-. simpl. by rewrite <-Hs1.
Qed.

(** An operation that drives the terminal is the controller's, on a scope that
    allows it, and has not changed the session. *)
Definition driven_ok s s' client principal (n : Next) : Prop :=
  controls n = true →
  is_controller s client = true ∧ can_control (scope principal) = true ∧ s' = s.

Lemma driven_ok_quiet s s' client principal n : controls n = false → driven_ok s s' client principal n.
Proof. unfold driven_ok. congruence. Qed.

Lemma session_input_calls now s client principal payload s' n :
  session_input br now s client principal payload = (s', n) →
  driven_ok s s' client principal n ∧ starts_ok s s' n.
Proof.
  unfold session_input, driven_ok. destruct (is_controller s client); cbn [negb];
    [|intros Heq; by injection Heq as <- <-].
  destruct (can_control (scope principal)); cbn [negb]; [|intros Heq; by injection Heq as <- <-].
  intros Heq. repeat case_match; injection Heq as <- <-; try done. split; [done|].
  apply resize_hint_controls.
Qed.

Lemma session_resize_calls now s client principal payload s' n :
  session_resize br now s client principal payload = (s', n) →
  driven_ok s s' client principal n ∧ starts_ok s s' n.
Proof.
  unfold session_resize, driven_ok. destruct (is_controller s client); cbn [negb];
    [|intros Heq; by injection Heq as <- <-].
  destruct (can_control (scope principal)); cbn [negb]; [|intros Heq; by injection Heq as <- <-].
  intros Heq. case_match; by injection Heq as <- <-.
Qed.

Lemma request_role_calls now s client principal payload s' n :
  request_role br now s client principal payload = (s', n) → controls n = false ∧ starts_ok s s' n.
Proof.
  unfold request_role. intros Heq. case_match.
  - case_match; [by injection Heq as <- <-|].
    destruct (try_promote_to_controller s client true) as [s1 role] eqn:Hp.
    apply mirror_role_quiet in Heq. unfold starts_ok in *.
    replace (ss_bridge_started s) with (ss_bridge_started s1); [done|].
    clear Heq. unfold try_promote_to_controller in Hp. cbn [negb] in Hp.
    destruct (_ && _); by injection Hp as <- _.
  - by apply mirror_role_quiet in Heq.
Qed.

Lemma handle_text_calls now u a s client principal since text a' s' n :
  handle_text br now u a s client principal since text = (a', (s', n)) →
  driven_ok s s' client principal n ∧ starts_ok s s' n.
Proof.
  unfold handle_text. intros Heq.
  destruct (json_parse text) as [[]|]; try (by injection Heq as <- <- <-).
  case_match.
  { injection Heq as _ Heq. apply dispatch_join_op_calls in Heq as [? ?]. split; [by apply driven_ok_quiet|done]. }
  unfold dispatch_op in Heq. destruct (op_of_text _) as [[]|];
    repeat match type of Heq with
    | context [let '(_, _) := ?x in _] => destruct x
    end; first [injection Heq as _ <- <- | injection Heq as _ Heq]; try done.
  - by case_match.
  - apply dispatch_join_op_calls in Heq as [? ?]. split; [by apply driven_ok_quiet|done].
  - by apply session_input_calls in Heq.
  - by apply session_resize_calls in Heq.
  - apply request_role_calls in Heq as [? ?]. split; [by apply driven_ok_quiet|done].
  - apply mirror_role_quiet in Heq as [? ?]. split; [by apply driven_ok_quiet|done].
  - unfold leave_session in Heq. case_match; by injection Heq as <- <-.
Qed.

Lemma handle_binary_calls now s client principal binary_mode frame s' n :
  handle_binary_input_frame br now s client principal binary_mode frame = (s', n) →
  driven_ok s s' client principal n ∧ starts_ok s s' n.
Proof.
  unfold handle_binary_input_frame, driven_ok. destruct binary_mode; cbn [negb];
    [|intros Heq; by injection Heq as <- <-].
  destruct (is_controller s client); cbn [negb]; [|intros Heq; by injection Heq as <- <-].
  destruct (can_control (scope principal)); cbn [negb]; [|intros Heq; by injection Heq as <- <-].
  intros Heq. repeat case_match; by injection Heq as <- <-.
Qed.

(** An answered operation drives the terminal only to pass on a size. *)
Lemma resume_calls now s client since k answer s' n :
  resume br now s client since k answer = (s', n) →
  (controls n = true → drives_later k = true ∧ s' = s) ∧ starts_ok s s' n.
Proof.
  intros Heq. destruct k as [role|role|role|role|ts|cols rows| |was]; cbn [resume] in Heq.
  - apply join_attach_quiet in Heq as [Hc Hs]. split; [congruence|]. unfold starts_ok in *.
    destruct answer; [rewrite append_closed_started in Hs|..]; done.
  - by repeat case_match; injection Heq as <- <-.
  - by repeat case_match; injection Heq as <- <-.
  - by repeat case_match; injection Heq as <- <-.
  - injection Heq as <- <-. split; [done|]. apply resize_hint_controls.
  - by injection Heq as <- <-.
  - by injection Heq as <- <-.
  - apply cleanup_finish_quiet in Heq as [Hc ?]. split; [congruence|done].
Qed.

End calls.

(** ** Runs *)

Section runs.
Context `{Env, TableScan, AuthEnv, HandlerText, StdBase64}.
Variable br : Bridge.
Implicit Types (w : World) (client : string) (c : Conn) (e : Event) (l : Label).

(** The connection an event runs; the readers' events have none. *)
Definition event_client e : option string :=
  match e with
  | Connect client _ _ _ | TextFrame client _ | BinaryFrame client _ | Recv client
  | CanonicalEvent client _ | CanonicalEnd client | Tick client | Pong client
  | Answered client _ | Disconnect client => Some client
  | ReaderEvent _ | ReaderEof => None
  end.

Definition event_canonical e : bool :=
  match e with Answered _ answer => canonical_answer answer | _ => false end.

(** What one step does, seen from outside: the session's own operations; the
    other connections untouched; a terminal driven only by its controller; the
    process started only by raising the flag. *)
Record step_ok w e w' l : Prop := {
  sk_session : ∀ client, default client (event_client e) = client →
    rtc (touch (event_canonical e) client) (wd_session w) (wd_session w');
  sk_others : ∀ other, event_client e ≠ Some other → wd_conns w' !! other = wd_conns w !! other;
  sk_start : match l_call l with
    | Some (StartSession _) =>
        ss_bridge_started (wd_session w) = false ∧ ss_bridge_started (wd_session w') = true
    | _ => ss_bridge_started (wd_session w') = ss_bridge_started (wd_session w)
    end;
  sk_call : ∀ call, l_call l = Some call → drives call = true →
    ∃ client c k, event_client e = Some client ∧ l_client l = Some client ∧
      wd_conns w' !! client = Some c ∧ c_pc c = PcWaiting call k;
}.

(** A connection's authority when its task issues, or is about to issue, a
    call that drives the terminal. *)
Definition authority w client c : Prop :=
  is_controller (wd_session w) client = true ∧ can_control (scope (c_principal c)) = true.

Definition waiting_ok w : Prop := ∀ client c call k,
  wd_conns w !! client = Some c → c_pc c = PcWaiting call k → drives_later k = true →
  authority w client c.

(** The steps that run a connection's task up to [n]. *)
Lemma advance_ok w w0 client c s n e w' l :
  advance w0 client c s n = (w', l) →
  event_client e = Some client →
  wd_session w0 = wd_session w → wd_conns w0 = wd_conns w →
  rtc (touch (event_canonical e) client) (wd_session w) s →
  starts_ok (wd_session w) s n →
  step_ok w e w' l.
Proof.
  intros Ha He Hs Hc Ht Hst. injection Ha as <- <-. split.
  - intros client' Hd. rewrite He in Hd. simpl in Hd. by subst.
  - intros other Hne. simpl. rewrite Hc. rewrite lookup_insert_ne; [done|congruence].
  - unfold starts_ok in Hst. by destruct n as [r|[] k| |[]].
  - intros call Hl Hd. destruct n as [r|call' k| |[]]; simplify_eq/=.
    eexists client, _, k. split; [done|]. split; [done|]. split; [apply lookup_insert_eq|done].
Qed.

Lemma put_conn_ok w w' client e l :
  event_client e = Some client → wd_session w' = wd_session w → l_call l = None →
  (∀ other, client ≠ other → wd_conns w' !! other = wd_conns w !! other) →
  step_ok w e w' l.
Proof.
  intros He Hs Hl Hc. split.
  - intros client' _. by rewrite Hs.
  - intros other Hne. apply Hc. congruence.
  - by rewrite Hl, Hs.
  - by rewrite Hl.
Qed.

Lemma reader_ok w w' e s :
  event_client e = None → wd_conns w' = wd_conns w → wd_session w' = s →
  ss_bridge_started s = ss_bridge_started (wd_session w) →
  (∀ client, rtc (touch (event_canonical e) client) (wd_session w) s) →
  step_ok w e w' quiet.
Proof. intros He Hc <- Hb Ht. split; [by intros client _|by rewrite Hc|done|done]. Qed.

Lemma reader_event_started now s event :
  ss_bridge_started (reader_event now s event).1 = ss_bridge_started s.
Proof. destruct event as [[]|[]| |]; try done. apply append_closed_started. Qed.

Lemma end_connection_ok now w client c e w' l :
  end_connection br now w client c = (w', l) → event_client e = Some client → step_ok w e w' l.
Proof.
  unfold end_connection. destruct (cleanup _ _ _ _) as [s n] eqn:Hcl. intros Ha He.
  apply (advance_ok w _ _ _ _ _ _ _ _ Ha); [done..|by eapply cleanup_touches|by apply cleanup_quiet in Hcl as [_ ?]].
Qed.

Lemma idle_Some w client c : idle w client = Some c → wd_conns w !! client = Some c ∧ c_pc c = PcIdle.
Proof.
  unfold idle. intros Hi. destruct (wd_conns w !! client) as [c0|]; [|done]. simpl in Hi.
  destruct (c_pc c0) eqn:Hp; [by simplify_eq|done..].
Qed.

Lemma pty_world_step_ok now u version w e w' l :
  world_step br now u version w e = Some (w', l) → step_ok w e w' l.
Proof.
  intros Hstep. destruct e; cbn [world_step] in Hstep;
    try (destruct (idle w client) as [c|] eqn:Hi; [|done]; cbn [mbind option_bind] in Hstep).
  - destruct (wd_conns w !! client) eqn:Hc; [done|]. injection Hstep as <- <-.
    apply (put_conn_ok _ _ client); [done..|]. intros other Hne. simpl. by rewrite lookup_insert_ne.
  - destruct (handle_text _ _ _ _ _ _ _ _ _) as [a [s n]] eqn:Ht.
    pose proof (handle_text_calls _ _ _ _ _ _ _ _ _ _ _ _ Ht) as [_ Hs].
    apply (inj Some) in Hstep. apply (advance_ok w _ _ _ _ _ _ _ _ Hstep); [done..|by eapply handle_text_touches|done].
  - destruct (handle_binary_input_frame _ _ _ _ _ _ _) as [s n] eqn:Ht.
    pose proof (handle_binary_calls _ _ _ _ _ _ _ _ _ Ht) as [_ Hs].
    apply (inj Some) in Hstep. apply (advance_ok w _ _ _ _ _ _ _ _ Hstep); [done..|by eapply handle_binary_touches|done].
  - destruct (recv_broadcast _ _ _ _) as [[pos m]|]; [|done]. injection Hstep as <- <-.
    apply (put_conn_ok _ _ client); [done..|]. intros other Hne. simpl. by rewrite lookup_insert_ne.
  - destruct (c_canonical c); [|done]. injection Hstep as <- <-. by apply (put_conn_ok _ _ client).
  - injection Hstep as <- <-.
    apply (put_conn_ok _ _ client); [done..|]. intros other Hne. simpl. by rewrite lookup_insert_ne.
  - destruct (c_awaiting_pong c); [case_match|].
    + apply (inj Some) in Hstep. by apply (end_connection_ok _ _ _ _ _ _ _ Hstep).
    + injection Hstep as <- <-. by apply (put_conn_ok _ _ client).
    + injection Hstep as <- <-.
      apply (put_conn_ok _ _ client); [done..|]. intros other Hne. simpl. by rewrite lookup_insert_ne.
  - injection Hstep as <- <-.
    apply (put_conn_ok _ _ client); [done..|]. intros other Hne. simpl. by rewrite lookup_insert_ne.
  - destruct (wd_conns w !! client) as [c|] eqn:Hc; [|done]. cbn [mbind option_bind] in Hstep.
    destruct (c_pc c) as [|call k|]; [done| |done].
    destruct (resume _ _ _ _ _ _ _) as [s n] eqn:Hr. pose proof (resume_calls _ _ _ _ _ _ _ _ _ Hr) as [_ Hs].
    apply (inj Some) in Hstep. apply (advance_ok w _ _ _ _ _ _ _ _ Hstep); [done|by case_match..|by eapply resume_touches|done].
  - apply (inj Some) in Hstep. by apply (end_connection_ok _ _ _ _ _ _ _ Hstep).
  - destruct (wd_readers w); [done|]. destruct (reader_event _ _ _) as [s b] eqn:Hr. injection Hstep as <- <-.
    apply (reader_ok _ _ _ s); [done..| |]; replace s with (reader_event now (wd_session w) event).1
      by (by rewrite Hr); [apply reader_event_started|intros; apply reader_event_touches].
  - destruct (wd_readers w); [done|]. injection Hstep as <- <-. eapply reader_ok; [done..| |].
    + apply append_closed_started.
    + intros. apply reader_eof_touches.
Qed.

(** The connection that ran: its principal is what it was, and when it now
    waits on a call that drives the terminal, it had the authority for it. *)
Definition driver_ok w e w' l : Prop := ∀ client c call k,
  event_client e = Some client → wd_conns w' !! client = Some c →
  c_pc c = PcWaiting call k → drives call || drives_later k = true →
  wd_session w' = wd_session w ∧
  ∃ c0, wd_conns w !! client = Some c0 ∧ authority w client c0 ∧ c_principal c = c_principal c0.

Lemma advance_driver w w0 client c s n e w' l :
  advance w0 client c s n = (w', l) → event_client e = Some client →
  (controls n = true → s = wd_session w ∧
     ∃ c0, wd_conns w !! client = Some c0 ∧ authority w client c0 ∧ c_principal c = c_principal c0) →
  driver_ok w e w' l.
Proof.
  intros Ha He Hn client' c' call k He' Hc' Hpc Hd. injection Ha as <- <-. simplify_eq.
  simpl in Hc'. rewrite lookup_insert_eq in Hc'. simplify_eq/=.
  destruct n as [r|call' k'| |b]; simplify_eq/=. by apply Hn.
Qed.

Lemma idle_driver w client e w' l c :
  event_client e = Some client → wd_conns w' !! client = Some c → c_pc c = PcIdle → driver_ok w e w' l.
Proof. intros He Hc Hi client' c' call k He' Hc' Hpc _. simplify_eq. congruence. Qed.

Lemma end_connection_driver now w client c e w' l :
  end_connection br now w client c = (w', l) → event_client e = Some client → driver_ok w e w' l.
Proof.
  unfold end_connection. destruct (cleanup _ _ _ _) as [s n] eqn:Hcl. intros Ha He.
  apply (advance_driver w _ _ _ _ _ _ _ _ Ha He). apply cleanup_quiet in Hcl as [Hq _]. congruence.
Qed.

Lemma world_step_driver now u version w e w' l :
  waiting_ok w → world_step br now u version w e = Some (w', l) → driver_ok w e w' l.
Proof.
  intros Hw Hstep. destruct e; cbn [world_step] in Hstep; [|
    try (destruct (idle w client) as [c|] eqn:Hi; [|done]; cbn [mbind option_bind] in Hstep;
         pose proof (idle_Some _ _ _ Hi) as [Hc Hpc])..].
  - destruct (wd_conns w !! client) eqn:Hc; [done|]. injection Hstep as <- <-.
    eapply (idle_driver _ client); [done|apply lookup_insert_eq|done].
  - destruct (handle_text _ _ _ _ _ _ _ _ _) as [a [s n]] eqn:Ht.
    pose proof (handle_text_calls _ _ _ _ _ _ _ _ _ _ _ _ Ht) as [Hd _]. apply (inj Some) in Hstep.
    apply (advance_driver w _ _ _ _ _ _ _ _ Hstep); [done|]. intros (? & ? & ->)%Hd.
    split; [done|]. by exists c.
  - destruct (handle_binary_input_frame _ _ _ _ _ _ _) as [s n] eqn:Ht.
    pose proof (handle_binary_calls _ _ _ _ _ _ _ _ _ Ht) as [Hd _]. apply (inj Some) in Hstep.
    apply (advance_driver w _ _ _ _ _ _ _ _ Hstep); [done|]. intros (? & ? & ->)%Hd.
    split; [done|]. by exists c.
  - destruct (recv_broadcast _ _ _ _) as [[pos m]|]; [|done]. injection Hstep as <- <-.
    eapply (idle_driver _ client); [done|apply lookup_insert_eq|done].
  - destruct (c_canonical c); [|done]. injection Hstep as <- <-. by eapply (idle_driver _ client).
  - injection Hstep as <- <-. eapply (idle_driver _ client); [done|apply lookup_insert_eq|done].
  - destruct (c_awaiting_pong c); [case_match|].
    + apply (inj Some) in Hstep. by apply (end_connection_driver _ _ _ _ _ _ _ Hstep).
    + injection Hstep as <- <-. by eapply (idle_driver _ client).
    + injection Hstep as <- <-. eapply (idle_driver _ client); [done|apply lookup_insert_eq|done].
  - injection Hstep as <- <-. eapply (idle_driver _ client); [done|apply lookup_insert_eq|done].
  - destruct (wd_conns w !! client) as [c|] eqn:Hc; [|done]. cbn [mbind option_bind] in Hstep.
    destruct (c_pc c) as [|call k|] eqn:Hpc; [done| |done].
    destruct (resume _ _ _ _ _ _ _) as [s n] eqn:Hr.
    pose proof (resume_calls _ _ _ _ _ _ _ _ _ Hr) as [Hd _]. apply (inj Some) in Hstep.
    apply (advance_driver w _ _ _ _ _ _ _ _ Hstep); [done|]. intros [Hk ->]%Hd. split; [done|].
    exists c. split; [done|]. split; [by apply (Hw client c call k)|by destruct (takes_stream _ _)].
  - apply (inj Some) in Hstep. by apply (end_connection_driver _ _ _ _ _ _ _ Hstep).
  - by intros client c.
  - by intros client c.
Qed.

Lemma is_controller_touches canonical client s1 s2 other :
  rtc (touch canonical client) s1 s2 → other ≠ client → is_controller s2 other = is_controller s1 other.
Proof.
  intros Ht Hne. apply (touches_invariant canonical client (λ s, is_controller s other = is_controller s1 other) s1 s2); [|done..].
  intros s s' Hs <-. by apply (is_controller_touch canonical client).
Qed.

Lemma waiting_ok_step now u version w e w' l :
  waiting_ok w → world_step br now u version w e = Some (w', l) → waiting_ok w'.
Proof.
  intros Hw Hstep client c call k Hc Hpc Hk.
  pose proof (pty_world_step_ok _ _ _ _ _ _ _ Hstep) as [Hs Ho _ _].
  destruct (decide (event_client e = Some client)) as [He|He].
  - destruct (world_step_driver _ _ _ _ _ _ _ Hw Hstep client c call k) as (Heq & c0 & _ & Ha & Hp);
      [done..|by rewrite Hk, orb_true_r|]. unfold authority in *. by rewrite Heq, Hp.
  - rewrite Ho in Hc by done. destruct (Hw client c call k Hc Hpc Hk) as [Hctl Hscope].
    split; [|done]. destruct (event_client e) as [actor|] eqn:Hact.
    + rewrite (is_controller_touches _ actor _ _ client (Hs actor eq_refl)); [done|congruence].
    + assert (Hfresh : client ≠ String.String "x" client).
      { intros Heq%(f_equal String.length). simpl in Heq. lia. }
      by rewrite (is_controller_touches _ _ _ _ client (Hs (String.String "x" client) eq_refl)).
Qed.

Lemma exec_run es now w tr w' : exec br now w es = Some (tr, w') → run br w tr w'.
Proof.
  assert (Hgen : ∀ w0 tr0, run br w0 tr0 w → ∀ tr' , exec br now w es = Some (tr', w') →
    run br w0 (tr0 ++ tr') w').
  { revert now w. induction es as [|e es IH]; intros now w w0 tr0 Hrun tr' Hex; cbn [exec] in Hex.
    - simplify_eq. by rewrite app_nil_r.
    - destruct (world_step _ _ _ _ w e) as [[w1 l]|] eqn:Hs; [|done]. cbn [mbind option_bind] in Hex.
      destruct (exec br _ w1 es) as [[tr1 w2]|] eqn:He; [|done]. cbn [mbind option_bind] in Hex. simplify_eq.
      change ((e, l) :: tr1) with ([(e, l)] ++ tr1). rewrite app_assoc.
      eapply IH; [by eapply run_snoc|done]. }
  intros Hex. apply (Hgen w [] (run_nil br w) tr Hex).
Qed.

Lemma run_waiting_ok a now instance_id session_id tr w :
  run br (fresh_world a now instance_id session_id) tr w → waiting_ok w.
Proof.
  intros Hrun. remember (fresh_world a now instance_id session_id) as w0 eqn:Hw0.
  induction Hrun as [w|w tr w1 now' u version e w2 l Hrun IH Hstep]; subst.
  - intros client c call k Hc. cbn [fresh_world wd_conns] in Hc. by rewrite lookup_empty in Hc.
  - by eapply waiting_ok_step; [apply IH|].
Qed.

(** A run lifts what every operation of the session keeps; with
    [canonical = false], a run in which the bridge grants no role. *)
Lemma run_session_invariant canonical (P : SessionState → Prop) w tr w' :
  (∀ client s1 s2, touch canonical client s1 s2 → P s1 → P s2) →
  Forall (λ x, event_canonical x.1 = true → canonical = true) tr →
  run br w tr w' → P (wd_session w) → P (wd_session w').
Proof.
  intros HP Hcan Hrun HP0. induction Hrun as [w|w tr w1 now u version e w2 l Hrun IH Hstep]; [done|].
  apply Forall_app in Hcan as [Htr He]. apply Forall_cons in He as [He _]. cbn [fst] in He.
  pose proof (pty_world_step_ok _ _ _ _ _ _ _ Hstep) as [Hs _ _ _].
  destruct (event_client e) as [client|].
  - apply (touches_invariant (event_canonical e) client P (wd_session w1)); [|by apply Hs|by apply IH].
    intros s1 s2 Ht. apply (HP client). by apply (touch_mono (event_canonical e)).
  - apply (touches_invariant (event_canonical e) "x" P (wd_session w1)); [|by apply Hs|by apply IH].
    intros s1 s2 Ht. apply (HP "x"). by apply (touch_mono (event_canonical e)).
Qed.

(** Under any interleaving of connections, frames and answers of a bridge
    that grants no roles of its own (in particular without a real bridge), a
    session never has two controllers. *)
Theorem one_controller_at_a_time a now instance_id session_id tr w :
  run br (fresh_world a now instance_id session_id) tr w →
  Forall (λ x, event_canonical x.1 = false) tr →
  (length (controllers (wd_session w)) ≤ 1)%nat.
Proof.
  intros Hrun Hcan. refine (run_session_invariant false one_controller _ tr _ one_controller_touch _ Hrun _).
  - eapply Forall_impl; [done|]. simpl. congruence.
  - unfold one_controller. simpl. lia.
Qed.

(** C5: Every call that writes to the terminal or resizes it is made by a
    connection whose client is the session's controller at that moment and
    whose token's scope allows control; an input waiting for the bridge keeps
    that standing until its resize hint is passed on. *)
Theorem terminal_driven_by_controller a start instance_id session_id tr w now u version e w' l call :
  run br (fresh_world a start instance_id session_id) tr w →
  world_step br now u version w e = Some (w', l) →
  l_call l = Some call → drives call = true →
  ∃ client c, l_client l = Some client ∧ wd_conns w !! client = Some c ∧
    is_controller (wd_session w) client = true ∧ can_control (scope (c_principal c)) = true.
Proof.
  intros Hrun Hstep Hl Hd. pose proof (run_waiting_ok _ _ _ _ _ _ Hrun) as Hw.
  destruct (sk_call _ _ _ _ (pty_world_step_ok _ _ _ _ _ _ _ Hstep) call Hl Hd)
    as (client & c & k & He & Hlc & Hc & Hpc).
  destruct (world_step_driver _ _ _ _ _ _ _ Hw Hstep client c call k He Hc Hpc) as (_ & c0 & Hc0 & [Ha Hp] & _);
    [by rewrite Hd|]. by exists client, c0.
Qed.

(** The terminal frame of a session is broadcast at most once, exactly when
    the session is closed, whoever closes it: the last member, the process's
    end or a failed start. *)
Theorem closed_frame_once a now instance_id session_id tr w :
  run br (fresh_world a now instance_id session_id) tr w →
  length (closed_frames (wd_session w)) = if ss_closed (wd_session w) then 1%nat else 0%nat.
Proof.
  intros Hrun. refine (run_session_invariant true closed_once _ tr _ (closed_once_touch true) _ Hrun _);
    [by apply Forall_true|done].
Qed.

Definition is_start_label (x : Event * Label) : bool := from_option is_start false (l_call x.2).

(** C20: However many controllers join, and in whatever order the bridge
    answers, the process of a session is started at most once. *)
Theorem process_started_at_most_once a now instance_id session_id tr w :
  run br (fresh_world a now instance_id session_id) tr w →
  length (filter (λ x, is_start_label x = true) tr) =
    if ss_bridge_started (wd_session w) then 1%nat else 0%nat.
Proof.
  intros Hrun. remember (fresh_world a now instance_id session_id) as w0 eqn:Hw0.
  induction Hrun as [w|w tr w1 now' u version e w2 l Hrun IH Hstep]; subst; [done|].
  specialize (IH eq_refl). pose proof (pty_world_step_ok _ _ _ _ _ _ _ Hstep) as [_ _ Hs _].
  rewrite filter_app, length_app, IH. destruct (is_start_label (e, l)) eqn:Hl.
  - rewrite filter_cons_True by done. unfold is_start_label in Hl. cbn [snd] in Hl.
    destruct (l_call l) as [[]|]; try done. by destruct Hs as [-> ->].
  - rewrite filter_cons_False by congruence. unfold is_start_label in Hl. cbn [snd] in Hl.
    simpl. rewrite Nat.add_0_r. destruct (l_call l) as [[]|]; try done; by rewrite Hs.
Qed.

End runs.

(** ** The attach boundary *)

Section attach.
Context `{Env, AuthEnv, HandlerText, Utf8}.

(** With an authorizer configured, a socket is upgraded only for a bearer
    token the authorizer knows, with exactly the scope it gives that token;
    every refusal is a 400 or a 401 and creates no session. *)
Theorem attach_requires_known_token now auth registry instance_id session_id headers :
  match ws_handler now (Some auth) registry instance_id session_id headers with
  | (_, Ok att) => ∃ token,
      (bearer_from_authorization headers = Some token ∨
       bearer_from_authorization headers = None ∧
       bearer_from_subprotocol (header_value headers "sec-websocket-protocol") = Some token) ∧
      resolve_pty_scope auth token = Some (scope (at_principal att)) ∧
      authenticated (at_principal att) = true
  | (registry', Err response) =>
      registry' = registry ∧ (resp_status response = 400 ∨ resp_status response = 401)
  end.
Proof.
  unfold ws_handler. set (sub := header_value _ _). destruct (selected_subprotocol sub) as [sel|]; [|split; [done|left; reflexivity]].
  set (bearer := match bearer_from_authorization headers with Some _ => _ | None => _ end).
  assert (Hb : ∀ token, bearer = Some token →
    bearer_from_authorization headers = Some token ∨
    bearer_from_authorization headers = None ∧ bearer_from_subprotocol sub = Some token).
  { intros token. subst bearer. destruct (bearer_from_authorization headers); auto. }
  destruct bearer as [token|]; [|split; [done|right; reflexivity]]. cbn [resolve_attach_principal ok_or mbind result_bind].
  destruct (resolve_pty_scope auth token) as [sc|] eqn:Hsc; [|split; [done|right; reflexivity]]. cbn [ok_or mbind result_bind].
  destruct sc; cbn [can_observe negb]; destruct (get_or_create _ _ _ _) as [r addr]; exists token; auto.
Qed.

End attach.

(** ** Operations against the task store *)

Section a2a.
Context `{Env, TableScan, AuthEnv, HandlerText}.
Implicit Types (now : Z) (a : AppState).

(** The status of a refused frame. *)
Definition frame_status (frame : json) : option Z :=
  (json_get frame "payload" ≫= λ p, json_get p "status") ≫= json_u64.

(** [tasks/cancel] over the socket does to the task store exactly what the
    REST handler does: the same rows, and the same outcome, a task in the
    answer or the same error status. *)
Theorem ws_cancel_is_rest_cancel now a instance_id payload tid :
  json_get payload "task_id" = Some (JStr tid) →
  let over_socket := handle_tasks_cancel now a instance_id payload in
  let over_rest := cancel_handler now a instance_id tid in
  app_store over_socket.1 = app_store over_rest.1 ∧
  match over_socket.2, over_rest.2 with
  | Some frame, Some response =>
      if resp_status response =? 200
      then ∃ task, frame = task_frame now task ∧ response = json_response OK task
      else frame_status frame = Some (resp_status response)
  | None, None => True
  | _, _ => False
  end.
Proof.
  intros Hp. cbv zeta. unfold handle_tasks_cancel, cancel_handler, ws_cancel_read, payload_task_id, cancel_read, read_task.
  rewrite Hp. cbn [mbind option_bind as_str ok_or result_bind].
  destruct (get_task_for_instance (app_store a) instance_id tid) as [[row|]|e]; cbn [mbind result_bind];
    [|done|done].
  destruct (task_is_terminal (t_state row)); [done|]. unfold cancel_write, canceled_row.
  simpl t_metadata_json. simpl t_created_at.
  destruct (latest_event (t_metadata_json row) _) as [metadata|]; cbn [mbind option_bind]; [|done].
  split; [unfold try_send; by case_match|]. simpl. eexists. split; reflexivity.
Qed.

End a2a.

(** ** Joining, ending and scopes *)

Section ops_facts.
Context `{Env, TableScan, AuthEnv, HandlerText, StdBase64}.
Variable br : Bridge.
Implicit Types (now : Z) (s : SessionState) (client : string).

(** The hello advertises exactly the operations that are dispatched. *)
Lemma advertised_operations op : op ∈ supported_operations ↔ is_Some (op_of_text op).
Proof.
  unfold op_of_text. rewrite fmap_is_Some. split.
  - intros Hop. destruct (find_first _ _) eqn:Hf; [done|]. exfalso.
    rewrite find_first_None in Hf. change supported_operations with (op_table.*1) in Hop.
    apply list_elem_of_fmap in Hop as ([k v] & -> & Hin). specialize (Hf _ Hin).
    by apply bool_decide_eq_false in Hf.
  - intros [[k v] Hf]. apply find_first_Some in Hf as [Hin Hk%bool_decide_eq_true]. simpl in Hk. subst k.
    change supported_operations with (op_table.*1). apply list_elem_of_fmap. by exists (op, v).
Qed.

Lemma clamped_size_range size key dflt :
  1 ≤ dflt ≤ u16_max → 1 ≤ clamped_size size key dflt ≤ u16_max.
Proof. unfold clamped_size, u16_max. intros Hd. case_match; lia. Qed.

Lemma parse_argv_nonempty now payload args : parse_argv now payload = Ok args → args ≠ [].
Proof.
  unfold parse_argv. intros Hp. destruct (json_get payload "argv").
  - apply bind_Ok in Hp as (items & _ & Hp). apply bind_Ok in Hp as (parsed & _ & Hp).
    destruct parsed; by simplify_eq.
  - destruct (json_get payload "command" ≫= as_str); [case_decide|]; by simplify_eq.
Qed.

(** The command a join starts is one the bridge can host: a supported
    backend and class that go together, a program to run, and a window between
    1 and 65535 columns and rows, whatever the client asked for. *)
Theorem join_command_hosted now payload caps command :
  build_join_start_command now payload caps = Ok command →
  backend command ∈ supported_backends caps ∧ session_class command ∈ supported_classes caps ∧
  is_supported_session_host_pair (backend command) (session_class command) = true ∧
  argv command ≠ [] ∧ 1 ≤ initial_cols command ≤ u16_max ∧ 1 ≤ initial_rows command ≤ u16_max.
Proof.
  unfold build_join_start_command. intros Hb.
  apply bind_Ok in Hb as (first & _ & Hb). apply bind_Ok in Hb as (b & _ & Hb).
  destruct (bool_decide (b ∈ _)) eqn:Hbk; [|done]. cbn [negb] in Hb.
  apply bind_Ok in Hb as (c & _ & Hb). destruct (bool_decide (c ∈ _)) eqn:Hck; [|done]. cbn [negb] in Hb.
  destruct (is_supported_session_host_pair b c) eqn:Hpair; [|done]. cbn [negb] in Hb.
  apply bind_Ok in Hb as (args & Hargs & Hb). apply bind_Ok in Hb as (vars & _ & Hb). simplify_eq/=.
  apply bool_decide_eq_true in Hbk, Hck.
  repeat split; try done; try (by eapply parse_argv_nonempty); by apply clamped_size_range.
Qed.

(** An operation with the answers it is given. *)
Fixpoint finish (answers : list BridgeAnswer) now s client since (n : Next) : SessionState * Next :=
  match n, answers with
  | Await _ k, answer :: rest =>
      let '(s, n) := resume br now s client since k answer in finish rest now s client since n
  | _, _ => (s, n)
  end.

Definition awaits (n : Next) : bool := match n with Await _ _ => true | _ => false end.

(** How many answers a continuation can still ask for. *)
Definition rank (n : Next) : nat :=
  match n with
  | Await _ (KJoinStarted _ | KInput _) => 2
  | Await _ _ => 1
  | _ => 0
  end.

Lemma resume_rank now s client since call k answer :
  (rank (resume br now s client since k answer).2 < rank (Await call k))%nat.
Proof.
  destruct k; cbn [resume]; unfold join_attach, resize_hint, cleanup_finish;
    repeat case_match; simpl; lia.
Qed.

(** Whatever the bridge answers, an operation is over after at most two
    answers: the connection is back in its loop, or gone. *)
Theorem operation_settles now s client since n answers :
  (2 ≤ length answers)%nat → awaits (finish answers now s client since n).2 = false.
Proof.
  intros Hl. assert (Hr : (rank n ≤ length answers)%nat) by (destruct n as [|? []| |]; simpl; lia).
  clear Hl. revert s n Hr. induction answers as [|answer rest IH]; intros s n Hr.
  - destruct n as [|? []| |]; simpl in *; [done|lia..|done|done].
  - destruct n as [r|call k| |b]; [done| |done|done]. cbn [finish].
    pose proof (resume_rank now s client since call k answer) as Hlt.
    destruct (resume br now s client since k answer) as [s' n']. simpl in Hlt. apply IH.
    cbn [length] in Hr. simpl in *. lia.
Qed.

(** A closed session takes no more joins. *)
Lemma closed_refuses_join now s client principal since payload :
  is_closed s = true →
  dispatch_join_op br now s client principal since payload =
    (s, Reply (Some (build_error_frame now "session.closed"
      "PTY session is closed; reconnect with replay_from to inspect retained frames" 409))).
Proof. unfold dispatch_join_op. by intros ->. Qed.

Lemma append_closed_closes now s code reason : is_closed (append_closed now s code reason) = true.
Proof. unfold append_closed. by destruct (ss_closed s) eqn:Hc. Qed.

(** Without a real bridge, a socket that never joined closes the session
    when it goes away and no member is attached; from then on every join of
    that session is refused. *)
Theorem unjoined_socket_closes_session now s client later client' principal since payload :
  is_real br = false → ss_members s = [] →
  let s' := (cleanup br now s client).1 in
  is_closed s' = true ∧
  ∃ frame, dispatch_join_op br later s' client' principal since payload = (s', Reply (Some frame)) ∧
    frame_status frame = Some 409.
Proof.
  intros Hr Hm s'. assert (Hc : is_closed s' = true).
  { subst s'. unfold cleanup. rewrite Hr. cbn [andb]. unfold cleanup_finish, drop_member. simpl ss_members.
    rewrite Hm, Hr. simpl filter. rewrite bool_decide_eq_true_2 by done. cbn [andb negb fst].
    apply append_closed_closes. }
  split; [done|]. eexists. split; [by apply closed_refuses_join|done].
Qed.

(** The operations on tasks. *)
Definition task_operation (op : string) : bool :=
  match op_of_text op with
  | Some (OpMessageSend | OpMessageStream | OpTasksGet | OpTasksList | OpTasksCancel | OpTasksSubscribe) => true
  | _ => false
  end.

(** The operations on tasks, [message/send] and [tasks/cancel] included, do
    not look at who is attached: a token whose scope is only to observe
    creates and cancels tasks like any other. *)
Theorem task_operations_ignore_scope now u a s client principal principal' op payload :
  task_operation op = true →
  dispatch_op br now u a s client principal op payload =
  dispatch_op br now u a s client principal' op payload.
Proof.
  unfold task_operation, dispatch_op. intros Hop. by destruct (op_of_text op) as [[]|].
Qed.

End ops_facts.

(** ** Sample runs *)

#[local] Existing Instance sample_auth.
#[local] Existing Instance sample_scan.
#[local] Existing Instance sample_url_parser.
#[local] Existing Instance sample_text.

#[local] Instance pty_env : Env := {|
  rfc3339 := λ t, bits_text (encode t);
  json_text := λ v, bits_text (encode (json_tree v));
  json_parse := λ s, tree_json <$> decode (text_bits s);
  jcs_sha256 := λ v, Ok EmptyString;
  uuid := λ i, pretty i;
|}.

#[local] Instance plain_base64 : StdBase64 := {| std_encode := λ s, s; std_decode := λ s, Ok s |}.

Definition frame_text (op : string) (payload : json) : string :=
  json_text (json_obj [("op", JStr op); ("payload", payload)]).

Definition principal_of (sc : PtyAttachScope) : AttachPrincipal :=
  {| subject := "bearer:x"; scope := sc; authenticated := true |}.

Definition real_bridge : Bridge := {| is_real := true; capabilities := default_capabilities |}.

Definition world_0 : World := fresh_world app_0 0 "i-1" "s-1".

Definition exec_ok (br : Bridge) (es : list Event) : list (Event * Label) * World :=
  default ([], world_0) (exec br 0 world_0 es).

Definition runs_through (br : Bridge) (es : list Event) : bool :=
  match exec br 0 world_0 es with Some _ => true | None => false end.

Lemma exec_ok_run br es : runs_through br es = true → run br world_0 (exec_ok br es).1 (exec_ok br es).2.
Proof.
  unfold runs_through, exec_ok. intros Hr. apply (exec_run _ es 0).
  by destruct (exec br 0 world_0 es) as [[tr w]|].
Qed.

(** Two clients join; the second asks for control in vain. *)
Definition two_clients : list Event :=
  [Connect "c1" (principal_of Control) false None; Connect "c2" (principal_of Admin) true (Some 0);
   TextFrame "c1" (frame_text "pty.join_session" JNull);
   TextFrame "c2" (frame_text "pty.join_session" JNull);
   TextFrame "c2" (frame_text "pty.request_role" (json_obj [("role", JStr "controller")]));
   Recv "c2"; Disconnect "c1"; Disconnect "c2"].

Lemma two_clients_run :
  run NoOpPtyBridge world_0 (exec_ok NoOpPtyBridge two_clients).1 (exec_ok NoOpPtyBridge two_clients).2.
Proof. apply exec_ok_run. vm_compute. reflexivity. Qed.

Lemma no_canonical (tr : list (Event * Label)) :
  forallb (λ x, negb (event_canonical x.1)) tr = true → Forall (λ x, event_canonical x.1 = false) tr.
Proof.
  rewrite forallb_forall, Forall_forall. intros Hall x Hx. apply negb_true_iff, Hall.
  by apply list_elem_of_In.
Qed.

Lemma one_controller_at_a_time_witness :
  length (controllers (wd_session (exec_ok NoOpPtyBridge (take 5 two_clients)).2)) = 1%nat ∧
  (length (controllers (wd_session (exec_ok NoOpPtyBridge (take 5 two_clients)).2)) ≤ 1)%nat.
Proof.
  split; [vm_compute; reflexivity|].
  apply (one_controller_at_a_time NoOpPtyBridge app_0 0 "i-1" "s-1"
           (exec_ok NoOpPtyBridge (take 5 two_clients)).1).
  - apply exec_ok_run. vm_compute. reflexivity.
  - apply no_canonical. vm_compute. reflexivity.
Defined.

Lemma closed_frame_once_witness :
  length (closed_frames (wd_session (exec_ok NoOpPtyBridge two_clients).2)) =
    if ss_closed (wd_session (exec_ok NoOpPtyBridge two_clients).2) then 1%nat else 0%nat.
Proof. apply (closed_frame_once NoOpPtyBridge app_0 0 "i-1" "s-1" _ _ two_clients_run). Defined.

(** A controller joins a real session and types. *)
Definition typing : list Event :=
  [Connect "c1" (principal_of Control) false None;
   TextFrame "c1" (frame_text "pty.join_session" JNull);
   Answered "c1" Done; Answered "c1" (Attached (Some BridgeController));
   ReaderEvent (EvOutput "$ " None); Recv "c1"].

Definition typing_world : World := (exec_ok real_bridge typing).2.

Definition keystroke : Event :=
  TextFrame "c1" (frame_text "pty.session_input" (json_obj [("data", JStr "ls");
    ("terminal_size", json_obj [("cols", JNum 120)])])).

Definition keystroke_step : World * Label :=
  default (world_0, quiet) (world_step real_bridge 9 9 "1" typing_world keystroke).

Lemma typing_run : run real_bridge world_0 (exec_ok real_bridge typing).1 typing_world.
Proof. apply exec_ok_run. vm_compute. reflexivity. Qed.

Lemma keystroke_taken :
  match world_step real_bridge 9 9 "1" typing_world keystroke with Some _ => true | None => false end = true.
Proof. vm_compute. reflexivity. Qed.

Lemma keystroke_steps :
  world_step real_bridge 9 9 "1" typing_world keystroke = Some (keystroke_step.1, keystroke_step.2).
Proof.
  pose proof keystroke_taken as Ht. unfold keystroke_step.
  by destruct (world_step real_bridge 9 9 "1" typing_world keystroke) as [[w l]|].
Qed.

Lemma terminal_driven_by_controller_witness :
  ∃ client c, l_client keystroke_step.2 = Some client ∧ wd_conns typing_world !! client = Some c ∧
    is_controller (wd_session typing_world) client = true ∧ can_control (scope (c_principal c)) = true.
Proof.
  apply (terminal_driven_by_controller real_bridge app_0 0 "i-1" "s-1" _ typing_world 9 9 "1" keystroke
    keystroke_step.1 keystroke_step.2 (WriteInput "ls") typing_run keystroke_steps);
    [vm_compute; reflexivity|reflexivity].
Defined.

Lemma process_started_at_most_once_witness :
  length (filter (λ x, is_start_label x = true) (exec_ok real_bridge typing).1) =
    if ss_bridge_started (wd_session typing_world) then 1%nat else 0%nat.
Proof. apply (process_started_at_most_once real_bridge app_0 0 "i-1" "s-1" _ _ typing_run). Defined.

Lemma ws_cancel_is_rest_cancel_witness :
  app_store (handle_tasks_cancel 20 app_1 "i-1" (json_obj [("task_id", JStr "u-1")])).1 =
  app_store (cancel_handler 20 app_1 "i-1" "u-1").1.
Proof.
  destruct (ws_cancel_is_rest_cancel 20 app_1 "i-1" (json_obj [("task_id", JStr "u-1")]) "u-1" eq_refl)
    as [Hs _]. exact Hs.
Defined.

Definition wide_join : json :=
  json_obj [("command", JStr "ls"); ("terminal_size", json_obj [("cols", JNum 0); ("rows", JNum 70000)])].

Definition wide_command : PtyStartCommand :=
  {| argv := ["/bin/sh"; "-lc"; "ls"]; cwd := None; env := []; backend := Native;
     session_class := Direct; initial_cols := 1; initial_rows := 65535 |}.

Lemma join_command_hosted_witness :
  build_join_start_command 5 wide_join default_capabilities = Ok wide_command ∧
  1 ≤ initial_cols wide_command ≤ u16_max.
Proof.
  assert (Hb : build_join_start_command 5 wide_join default_capabilities = Ok wide_command) by reflexivity.
  split; [exact Hb|]. destruct (join_command_hosted 5 wide_join default_capabilities wide_command Hb)
    as (_ & _ & _ & _ & Hc & _). exact Hc.
Defined.

Lemma operation_settles_witness :
  awaits (finish real_bridge [Failed; Failed] 5 (new_session 0 "i-1" "s-1") "c1" None
            (Await (StartSession wide_command) (KJoinStarted Controller))).2 = false.
Proof. apply (operation_settles real_bridge). simpl. lia. Defined.

Lemma unjoined_socket_closes_session_witness :
  is_closed (cleanup NoOpPtyBridge 5 (new_session 0 "i-1" "s-1") "c1").1 = true.
Proof.
  destruct (unjoined_socket_closes_session NoOpPtyBridge 5 (new_session 0 "i-1" "s-1") "c1" 6 "c2"
    (principal_of Admin) None JNull eq_refl eq_refl) as [Hc _]. exact Hc.
Defined.

Lemma task_operations_ignore_scope_witness :
  task_operation "tasks/cancel" = true ∧
  dispatch_op NoOpPtyBridge 20 3 app_1 (new_session 0 "i-1" "s-1") "c1" (principal_of Observe) "tasks/cancel"
    (json_obj [("task_id", JStr "u-1")]) =
  dispatch_op NoOpPtyBridge 20 3 app_1 (new_session 0 "i-1" "s-1") "c1" (principal_of Admin) "tasks/cancel"
    (json_obj [("task_id", JStr "u-1")]).
Proof. split; [reflexivity|]. apply task_operations_ignore_scope. reflexivity. Defined.
