(* ===== verification/SshGateway.v ===== *)
(** * The SSH gateway

    Models management/src/ssh_gateway.rs (certificate leases),
    management/src/http/ssh_gateway.rs (their HTTP handlers) and
    management/src/ssh_gateway_connector.rs (the byte-stream connector: prelude,
    routing rules, targets and the session's audit trail).

    The certificate signer, the error texts of parsers and sockets, and UUIDs
    are the class [GatewayText] and the argument [signer].  A client's stream is
    the list of the chunks the reader is given, with how it ends. *)

From Stdlib Require Import Ascii.
From S2P Require Import Prelude Text Http Json CelldAuth OperatorAuth.

Local Open Scope string_scope.
Local Open Scope list_scope.
Local Open Scope Z_scope.

(** ** Leases *)

Definition DEFAULT_SSH_LEASE_TTL_SECONDS : Z := 900.
Definition MAX_SSH_LEASE_TTL_SECONDS : Z := 3600.
Definition REVOCATION_EFFECT_METADATA_ONLY : string := "metadata_only_until_certificate_expiry".

Inductive SshGatewayError : Type :=
| MissingField (field : string)
| InvalidTtl
| TtlTooLong (max : Z)
| UnsupportedAccessMode (mode : string)
| UnsupportedPrincipal (principal : string)
| SigningFailed (detail : string)
| LeaseNotFound (id : string).

Definition ssh_error_text (e : SshGatewayError) : string :=
  match e with
  | MissingField field => field +:+ " is required"
  | InvalidTtl => "ttl_seconds must be greater than zero"
  | TtlTooLong max => "ttl_seconds must not exceed " +:+ pretty max
  | UnsupportedAccessMode mode => "unsupported access mode: " +:+ mode
  | UnsupportedPrincipal principal => "unsupported SSH principal: " +:+ principal
  | SigningFailed detail => "ssh certificate signing failed: " +:+ detail
  | LeaseNotFound id => "ssh lease not found: " +:+ id
  end.

Inductive SshLeaseState : Type := LeaseActive | LeaseRevoked | LeaseExpired.
#[export] Instance SshLeaseState_eq_dec : EqDecision SshLeaseState.
Proof. solve_decision. Defined.

Record SshCertificateLease : Type := {
  sl_id : string;
  sl_actor : string;
  sl_instance_id : string;
  sl_principal : string;
  sl_access_mode : string;
  sl_public_key_sha256 : string;
  sl_issued_at : Z;
  sl_expires_at : Z;
  sl_ttl_seconds : Z;
  sl_state : SshLeaseState;
  sl_certificate_key_id : option string;
  sl_certificate_sha256 : option string;
  sl_revoked_at : option Z;
}.

(** [SshCertificateLeaseResponse]: the lease, with the certificate of a lease
    just issued and a note on what revocation means. *)
Record SshCertificateLeaseResponse : Type := {
  sr_lease : SshCertificateLease;
  sr_certificate : option string;
  sr_revocation_effect : string;
}.

Record IssueSshCertificateLeaseRequest : Type := {
  iq_actor : string;
  iq_instance_id : string;
  iq_principal : string;
  iq_access_mode : string;
  iq_public_key : string;
  iq_ttl_seconds : Z;
}.

Record SignedSshCertificate : Type := {
  sc_key_id : string;
  sc_certificate : string;
  sc_certificate_sha256 : string;
}.

(** [sign_user_certificate]: lease id, principal, public key, seconds. *)
Definition Signer : Type := string → string → string → Z → result SshGatewayError SignedSshCertificate.

(** The leases by their id. *)
Definition LeaseStore : Type := gmap string SshCertificateLease.

Class GatewayText : Type := {
  (** [Uuid::now_v7().simple()], the i-th drawn *)
  gw_uuid : Z → string;
  (** [Display] of a serde error of the prelude *)
  prelude_error : string → string;
}.

(** An expired lease is shown as such before the store records it. *)
Definition lease_response (now : Z) (l : SshCertificateLease) : SshCertificateLeaseResponse :=
  {| sr_lease := if bool_decide (sl_state l = LeaseActive) && (sl_expires_at l <=? now)
       then l <| sl_state := LeaseExpired |> else l;
     sr_certificate := None;
     sr_revocation_effect := REVOCATION_EFFECT_METADATA_ONLY |}.

Definition validate_required (field value : string) : result SshGatewayError unit :=
  if decide (trim value = EmptyString) then Err (MissingField field) else Ok ().

Definition validate_ttl (ttl_seconds : Z) : result SshGatewayError unit :=
  if ttl_seconds <=? 0 then Err InvalidTtl
  else if MAX_SSH_LEASE_TTL_SECONDS <? ttl_seconds then Err (TtlTooLong MAX_SSH_LEASE_TTL_SECONDS)
  else Ok ().

Definition validate_access_mode (mode : string) : result SshGatewayError unit :=
  if eq_ignore_ascii_case (trim mode) "ssh" then Ok () else Err (UnsupportedAccessMode mode).

Definition is_principal_char (c : ascii) : bool :=
  is_ascii_alphanumeric c || Ascii.eqb c "_"%char || Ascii.eqb c "-"%char || Ascii.eqb c "."%char.

Definition validate_principal (principal : string) : result SshGatewayError unit :=
  let principal := trim principal in
  if negb (bool_decide (principal = EmptyString)) && string_forallb is_principal_char principal
  then Ok () else Err (UnsupportedPrincipal principal).

(** [chrono::Duration::seconds] *)
Definition seconds (n : Z) : Z := n * 1000000000.

Section leases.
Context `{Env, AuthEnv, GatewayText}.
Variable signer : option Signer.
Implicit Types (store : LeaseStore) (now : Z).

Definition public_key_fingerprint (public_key : string) : string :=
  "sha256:" +:+ hex_encode (sha256 (trim public_key)).

Definition certificate_fingerprint (certificate : string) : string :=
  "sha256:" +:+ hex_encode (sha256 (trim certificate)).

(** The checks of a request, in their order. *)
Definition validate_issue (q : IssueSshCertificateLeaseRequest) : result SshGatewayError unit :=
  _ ← validate_required "actor" (iq_actor q);
  _ ← validate_required "instance_id" (iq_instance_id q);
  _ ← validate_required "principal" (iq_principal q);
  _ ← validate_required "access_mode" (iq_access_mode q);
  _ ← validate_required "public_key" (iq_public_key q);
  _ ← validate_ttl (iq_ttl_seconds q);
  _ ← validate_access_mode (iq_access_mode q);
  validate_principal (iq_principal q).

Definition new_lease now (lease_id : string) (q : IssueSshCertificateLeaseRequest)
    (signed : option SignedSshCertificate) : SshCertificateLease :=
  {| sl_id := lease_id;
     sl_actor := trim (iq_actor q);
     sl_instance_id := trim (iq_instance_id q);
     sl_principal := trim (iq_principal q);
     sl_access_mode := to_ascii_lowercase (trim (iq_access_mode q));
     sl_public_key_sha256 := public_key_fingerprint (iq_public_key q);
     sl_issued_at := now;
     sl_expires_at := now + seconds (iq_ttl_seconds q);
     sl_ttl_seconds := iq_ttl_seconds q;
     sl_state := LeaseActive;
     sl_certificate_key_id := sc_key_id <$> signed;
     sl_certificate_sha256 := sc_certificate_sha256 <$> signed;
     sl_revoked_at := None |}.

(** [u] numbers the UUID of the lease. *)
Definition issue now (u : Z) store (q : IssueSshCertificateLeaseRequest)
    : LeaseStore * result SshGatewayError SshCertificateLeaseResponse :=
  match validate_issue q with
  | Err e => (store, Err e)
  | Ok _ =>
      let lease_id := "sshlease_" +:+ gw_uuid u in
      match (match signer with
             | Some sign => Some <$> sign lease_id (trim (iq_principal q)) (trim (iq_public_key q))
                                          (iq_ttl_seconds q)
             | None => Ok None
             end) with
      | Err e => (store, Err e)
      | Ok signed =>
          let lease := new_lease now lease_id q signed in
          (<[sl_id lease := lease]> store,
           Ok ((lease_response now lease) <| sr_certificate := sc_certificate <$> signed |>))
      end
  end.

(** [list]: the map is ordered by id. *)
Definition list_leases now store : list SshCertificateLeaseResponse :=
  (λ e, lease_response now e.2) <$> merge_sort (λ e1 e2, String.le e1.1 e2.1) (map_to_list store).

Definition get_lease now store (id : string) : result SshGatewayError SshCertificateLeaseResponse :=
  ok_or (lease_response now <$> store !! id) (LeaseNotFound id).

Definition revoke now store (id : string) : LeaseStore * result SshGatewayError SshCertificateLeaseResponse :=
  match store !! id with
  | None => (store, Err (LeaseNotFound id))
  | Some lease =>
      let lease := if decide (sl_state lease = LeaseActive)
        then lease <| sl_state := LeaseRevoked |> <| sl_revoked_at := Some now |> else lease in
      (<[id := lease]> store, Ok (lease_response now lease))
  end.

Definition is_due now (l : SshCertificateLease) : bool :=
  bool_decide (sl_state l = LeaseActive) && (sl_expires_at l <=? now).

Definition expire_active_leases now store : LeaseStore * Z :=
  ((λ l : SshCertificateLease, if is_due now l then l <| sl_state := LeaseExpired |> else l) <$> store,
   Z.of_nat (size (filter (λ e : string * SshCertificateLease, is_due now e.2 = true) store))).

End leases.

(** ** The lease API *)

Inductive AuditOutcome : Type := AuditSuccess | AuditFailure | AuditDenied.

Record AuditEvent : Type := {
  ae_actor : string;
  ae_target : string;
  ae_action : string;
  ae_outcome : AuditOutcome;
  ae_details : json;
}.

Section api.
Context `{Env, AuthEnv, GatewayText}.
Variable signer : option Signer.
Implicit Types (store : LeaseStore) (now : Z) (req : AdminRequest).

Definition opt_field (key : string) (v : option json) : list (string * json) :=
  match v with Some v => [(key, v)] | None => [] end.

Definition state_text (s : SshLeaseState) : string :=
  match s with LeaseActive => "active" | LeaseRevoked => "revoked" | LeaseExpired => "expired" end.

Definition opt_str (o : option string) : json := match o with Some s => JStr s | None => JNull end.
Definition opt_time (o : option Z) : json := match o with Some t => JStr (rfc3339 t) | None => JNull end.

(** [Serialize] of a response. *)
Definition response_json (r : SshCertificateLeaseResponse) : json :=
  let l := sr_lease r in
  json_obj ([("id", JStr (sl_id l)); ("actor", JStr (sl_actor l));
     ("instance_id", JStr (sl_instance_id l)); ("principal", JStr (sl_principal l));
     ("access_mode", JStr (sl_access_mode l)); ("public_key_sha256", JStr (sl_public_key_sha256 l));
     ("issued_at", JStr (rfc3339 (sl_issued_at l))); ("expires_at", JStr (rfc3339 (sl_expires_at l)));
     ("ttl_seconds", JNum (sl_ttl_seconds l)); ("state", JStr (state_text (sl_state l)));
     ("revoked_at", opt_time (sl_revoked_at l)); ("revocation_effect", JStr (sr_revocation_effect r))]
    ++ opt_field "certificate_key_id" (JStr <$> sl_certificate_key_id l)
    ++ opt_field "certificate_sha256" (JStr <$> sl_certificate_sha256 l)
    ++ opt_field "certificate" (JStr <$> sr_certificate r)).

Definition json_reply (status : Z) (body : json) : HttpResponse :=
  {| resp_status := status; resp_headers := [("content-type", Some "application/json")];
     resp_body := json_text body |}.

Definition error_reply (status : Z) (message : string) : HttpResponse :=
  json_reply status (json_obj [("error", JStr message)]).

Definition ssh_gateway_error (err : SshGatewayError) : HttpResponse :=
  error_reply match err with
    | MissingField _ | InvalidTtl | TtlTooLong _ | UnsupportedAccessMode _ | UnsupportedPrincipal _ =>
        BAD_REQUEST
    | SigningFailed _ => INTERNAL_SERVER_ERROR
    | LeaseNotFound _ => NOT_FOUND
    end (ssh_error_text err).

(** [RequireGatewaySshOperator]: the actor of an authenticated operator. *)
Definition require_operator req : result HttpResponse string :=
  match ar_role req, ar_identity req with
  | Some (Admin | Operator), Some identity => Ok (oi_actor identity)
  | _, _ => Err (error_reply UNAUTHORIZED
      "gateway SSH lease API requires authenticated operator identity")
  end.

Definition audit_issued (r : SshCertificateLeaseResponse) : AuditEvent :=
  let l := sr_lease r in
  {| ae_actor := sl_actor l; ae_target := sl_instance_id l; ae_action := "gateway_ssh_lease_issued";
     ae_outcome := AuditSuccess;
     ae_details := json_obj [("lease_id", JStr (sl_id l)); ("principal", JStr (sl_principal l));
       ("access_mode", JStr (sl_access_mode l)); ("ttl_seconds", JNum (sl_ttl_seconds l));
       ("public_key_sha256", JStr (sl_public_key_sha256 l));
       ("certificate_key_id", opt_str (sl_certificate_key_id l));
       ("certificate_sha256", opt_str (sl_certificate_sha256 l));
       ("expires_at", JStr (rfc3339 (sl_expires_at l)))] |}.

Definition audit_refused (q : IssueSshCertificateLeaseRequest) (err : SshGatewayError) : AuditEvent :=
  {| ae_actor := iq_actor q; ae_target := iq_instance_id q; ae_action := "gateway_ssh_lease_denied";
     ae_outcome := AuditDenied;
     ae_details := json_obj [("principal", JStr (iq_principal q)); ("ttl_seconds", JNum (iq_ttl_seconds q));
       ("error", JStr (ssh_error_text err))] |}.

Definition audit_revoked (r : SshCertificateLeaseResponse) : AuditEvent :=
  let l := sr_lease r in
  {| ae_actor := sl_actor l; ae_target := sl_instance_id l; ae_action := "gateway_ssh_lease_revoked";
     ae_outcome := AuditSuccess;
     ae_details := json_obj [("lease_id", JStr (sl_id l)); ("principal", JStr (sl_principal l));
       ("access_mode", JStr (sl_access_mode l)); ("ttl_seconds", JNum (sl_ttl_seconds l));
       ("public_key_sha256", JStr (sl_public_key_sha256 l)); ("revoked_at", opt_time (sl_revoked_at l));
       ("revocation_effect", JStr (sr_revocation_effect r))] |}.

(** The handlers: the store, the audit trail and the response. *)
Definition issue_lease_handler now (u : Z) store req (q : IssueSshCertificateLeaseRequest)
    : LeaseStore * list AuditEvent * HttpResponse :=
  match require_operator req with
  | Err response => (store, [], response)
  | Ok actor =>
      let q := q <| iq_actor := actor |> in
      match issue signer now u store q with
      | (store, Ok response) => (store, [audit_issued response], json_reply CREATED (response_json response))
      | (store, Err err) => (store, [audit_refused q err], ssh_gateway_error err)
      end
  end.

Definition list_leases_handler now store req : HttpResponse :=
  match require_operator req with
  | Err response => response
  | Ok _ => json_reply OK (json_obj [("leases", JArr (response_json <$> list_leases now store))])
  end.

Definition get_lease_handler now store req (id : string) : HttpResponse :=
  match require_operator req with
  | Err response => response
  | Ok _ => match get_lease now store id with
      | Ok response => json_reply OK (response_json response)
      | Err err => ssh_gateway_error err
      end
  end.

Definition revoke_lease_handler now store req (id : string)
    : LeaseStore * list AuditEvent * HttpResponse :=
  match require_operator req with
  | Err response => (store, [], response)
  | Ok _ => match revoke now store id with
      | (store, Ok response) => (store, [audit_revoked response], json_reply OK (response_json response))
      | (store, Err err) => (store, [], ssh_gateway_error err)
      end
  end.

End api.

(** ** The connector *)

Definition MAX_PRELUDE_BYTES : Z := 4096.

Record SshGatewayConnectRequest : Type := {
  cq_actor : string;
  cq_instance_id : string;
  cq_access_mode : string;
}.

Record SshGatewayTarget : Type := {
  tg_instance_id : string;
  tg_host : string;
  tg_port : Z;
}.

Inductive SshGatewayConnectError : Type :=
| InvalidRequest (detail : string)
| AuthorizationDenied
| InstanceNotFound (id : string)
| RuntimeUnreachable (detail : string)
| SshHandshakeFailed (detail : string)
| StreamFailed (detail : string).

Definition connect_error_text (e : SshGatewayConnectError) : string :=
  match e with
  | InvalidRequest d => "invalid request: " +:+ d
  | AuthorizationDenied => "authorization denied"
  | InstanceNotFound id => "instance not found: " +:+ id
  | RuntimeUnreachable d => "runtime unreachable: " +:+ d
  | SshHandshakeFailed d => "ssh handshake failed: " +:+ d
  | StreamFailed d => "ssh stream failed: " +:+ d
  end.

(** *** Rules and targets *)

Abbreviation Rules := (gset (string * string)).
Abbreviation Targets := (gmap string SshGatewayTarget).

Inductive ConfigError : Type :=
| InvalidEntry (entry : string)
| EmptyPart
| BadEndpoint (instance_id : string)
| NoEntries.

Fixpoint fold_entries {A} (f : A → string → result ConfigError A) (acc : A) (entries : list string)
    : result ConfigError A :=
  match entries with
  | [] => Ok acc
  | e :: rest => acc ← f acc e; fold_entries f acc rest
  end.

Definition equals_sign : ascii := "="%char.

(** One [actor=instance] rule. *)
Definition add_rule (rules : Rules) (entry : string) : result ConfigError Rules :=
  '(actor, instance_id) ← ok_or (split_once equals_sign entry) (InvalidEntry entry);
  let actor := trim actor in
  let instance_id := trim instance_id in
  if bool_decide (actor = EmptyString) || bool_decide (instance_id = EmptyString) then Err EmptyPart
  else Ok ({[(actor, instance_id)]} ∪ rules).

(** [from_env] of the authorizer, on the variable's value. *)
Definition rules_from_env (var : option string) : result ConfigError (option Rules) :=
  match var with
  | None => Ok None
  | Some raw =>
      if decide (trim raw = EmptyString) then Ok None
      else
        rules ← fold_entries add_rule ∅ (csv_items raw);
        if decide (rules = ∅) then Err NoEntries else Ok (Some rules)
  end.

Definition allows (rules : Rules) (actor instance_id : string) : bool :=
  let actor := trim actor in
  let instance_id := trim instance_id in
  bool_decide ((actor, instance_id) ∈ rules) || bool_decide ((actor, "*") ∈ rules)
  || bool_decide (("*", instance_id) ∈ rules) || bool_decide (("*", "*") ∈ rules).

Definition parse_host_port (endpoint : string) : option (string * Z) :=
  '(host, port) ← rsplit_once ":"%char (trim endpoint);
  port ← parse_unsigned u16_max port;
  if decide (trim host = EmptyString) then None else Some (host, port).

(** One [instance=host:port] target. *)
Definition add_target (targets : Targets) (entry : string) : result ConfigError Targets :=
  '(instance_id, endpoint) ← ok_or (split_once equals_sign entry) (InvalidEntry entry);
  let instance_id := trim instance_id in
  if decide (instance_id = EmptyString) then Err EmptyPart
  else
    '(host, port) ← ok_or (parse_host_port endpoint) (BadEndpoint instance_id);
    Ok (<[instance_id := {| tg_instance_id := instance_id; tg_host := host; tg_port := port |}]> targets).

Definition targets_from_env (var : option string) : result ConfigError (option Targets) :=
  match var with
  | None => Ok None
  | Some raw =>
      if decide (trim raw = EmptyString) then Ok None
      else
        targets ← fold_entries add_target ∅ (csv_items raw);
        if decide (targets = ∅) then Err NoEntries else Ok (Some targets)
  end.

(** The two authorizers. *)
Inductive SshAuthorizer : Type := AllowAll | StaticRules (rules : Rules).

Record SshGatewayConnector : Type := {
  cn_targets : Targets;
  cn_authorizer : SshAuthorizer;
}.

Definition resolve_target (targets : Targets) (q : SshGatewayConnectRequest)
    : result SshGatewayConnectError SshGatewayTarget :=
  ok_or (targets !! trim (cq_instance_id q)) (InstanceNotFound (cq_instance_id q)).

Definition authorize (auth : SshAuthorizer) (q : SshGatewayConnectRequest)
    : result SshGatewayConnectError unit :=
  match auth with
  | AllowAll => Ok ()
  | StaticRules rules =>
      if allows rules (cq_actor q) (cq_instance_id q) then Ok () else Err AuthorizationDenied
  end.

Definition validate_request (q : SshGatewayConnectRequest) : result SshGatewayConnectError unit :=
  if decide (trim (cq_actor q) = EmptyString) then Err AuthorizationDenied
  else if decide (trim (cq_instance_id q) = EmptyString) then Err (InvalidRequest "instance_id is required")
  else if negb (eq_ignore_ascii_case (trim (cq_access_mode q)) "ssh") then
    Err (InvalidRequest ("unsupported access mode: " +:+ cq_access_mode q))
  else Ok ().

(** *** The prelude *)

Definition newline : ascii := Ascii.ascii_of_nat 10.

(** How the client's stream ends after its last chunk. *)
Inductive StreamEnd : Type := Eof | TimedOut | Broken (detail : string).

(** The position after the first newline. *)
Fixpoint through_newline (s : string) : option (string * string) :=
  match s with
  | EmptyString => None
  | String.String c s' =>
      if Ascii.eqb c newline then Some (String.String c EmptyString, s')
      else match through_newline s' with
        | Some (line, rest) => Some (String.String c line, rest)
        | None => None
        end
  end.

Section connector.
Context `{Env, GatewayText}.
Implicit Types (cn : SshGatewayConnector).

(** The line read so far, and what the reader has buffered after it. *)
Fixpoint read_line (line : string) (chunks : list string) (stream_end : StreamEnd)
    : result SshGatewayConnectError (string * string * list string) :=
  match chunks with
  | [] => Err (InvalidRequest match stream_end with
      | Eof => if decide (line = EmptyString) then "missing prelude" else "unterminated prelude"
      | TimedOut => "prelude timeout"
      | Broken detail => detail
      end)
  | chunk :: rest =>
      match through_newline chunk with
      | Some (head, buffered) =>
          if MAX_PRELUDE_BYTES <? str_len line + str_len head
          then Err (InvalidRequest "prelude too large")
          else Ok (line +:+ head, buffered, rest)
      | None =>
          if MAX_PRELUDE_BYTES <? str_len line + str_len chunk
          then Err (InvalidRequest "prelude too large")
          else read_line (line +:+ chunk) rest stream_end
      end
  end.

(** [Deserialize] of the request: two strings, and the mode with its default. *)
Definition parse_request (text : string) : result SshGatewayConnectError SshGatewayConnectRequest :=
  ok_or
    (v ← json_parse text;
     m ← as_object v;
     actor ← map_get m "actor" ≫= as_str;
     instance_id ← map_get m "instance_id" ≫= as_str;
     mode ← (match map_get m "access_mode" with None => Some "ssh" | Some v => as_str v end);
     Some {| cq_actor := actor; cq_instance_id := instance_id; cq_access_mode := mode |})
    (InvalidRequest (prelude_error text)).

(** The request with the bytes that follow it in the stream. *)
Definition read_prelude (chunks : list string) (stream_end : StreamEnd)
    : result SshGatewayConnectError (SshGatewayConnectRequest * string * list string) :=
  '(line, buffered, rest) ← read_line EmptyString chunks stream_end;
  q ← parse_request line;
  Ok (q, buffered, rest).

(** What the runtime does: it cannot be reached; or the first write of the
    buffered bytes fails; or the streams are copied, failing after [sent] chunks
    or ending with some bytes sent back. *)
Inductive RuntimeRun : Type :=
| Unreachable (detail : string)
| Connected (first_write : option string) (copied : (nat * string) + Z).

(** What a connection did: where it connected and the bytes it sent there
    first, the line it wrote to the client, and its audit trail. *)
Record GatewaySession : Type := {
  sn_target : option SshGatewayTarget;
  sn_forwarded : list string;
  sn_error_line : option string;
  sn_audit : list AuditEvent;
}.

Definition error_line (e : SshGatewayConnectError) : string :=
  "gateway ssh error: " +:+ connect_error_text e +:+ String.String newline EmptyString.

Definition audit_outcome (e : SshGatewayConnectError) : AuditOutcome :=
  match e with AuthorizationDenied => AuditDenied | _ => AuditFailure end.

Definition session_audit (q : SshGatewayConnectRequest) (peer action : string) (outcome : AuditOutcome)
    (details : json) : AuditEvent :=
  {| ae_actor := cq_actor q; ae_target := cq_instance_id q; ae_action := action; ae_outcome := outcome;
     ae_details := json_obj [("instance_id", JStr (cq_instance_id q)); ("peer_addr", JStr peer);
                             ("details", details)] |}.

Definition target_details (q : SshGatewayConnectRequest) (t : SshGatewayTarget) : json :=
  json_obj [("target_host", JStr (tg_host t)); ("target_port", JNum (tg_port t));
            ("access_mode", JStr (cq_access_mode q))].

(** The checks before anything is opened. *)
Definition admit_request cn (q : SshGatewayConnectRequest) : result SshGatewayConnectError SshGatewayTarget :=
  _ ← validate_request q;
  target ← resolve_target (cn_targets cn) q;
  _ ← authorize (cn_authorizer cn) q;
  Ok target.

(** The session after the prelude: what was sent upstream, and its outcome.
    The error of a broken stream is not written to the client. *)
Definition proxy_after_prelude cn (q : SshGatewayConnectRequest) (peer buffered : string)
    (rest : list string) (runtime : RuntimeRun) : GatewaySession * result SshGatewayConnectError unit :=
  match admit_request cn q with
  | Err e =>
      ({| sn_target := None; sn_forwarded := []; sn_error_line := Some (error_line e); sn_audit := [] |}, Err e)
  | Ok target =>
      let started := session_audit q peer "gateway_ssh_session_started" AuditSuccess (target_details q target) in
      let ended := session_audit q peer "gateway_ssh_session_ended" AuditSuccess (target_details q target) in
      let first := if decide (buffered = EmptyString) then [] else [buffered] in
      let session forwarded line audit :=
        {| sn_target := Some target; sn_forwarded := forwarded; sn_error_line := line; sn_audit := audit |} in
      match runtime with
      | Unreachable d =>
          let e := RuntimeUnreachable d in (session [] (Some (error_line e)) [started], Err e)
      | Connected first_write copied =>
          match first, first_write with
          | _ :: _, Some d => (session [] None [started], Err (StreamFailed d))
          | _, _ =>
              match copied with
              | inl (sent, d) => (session (first ++ take sent rest) None [started], Err (StreamFailed d))
              | inr n =>
                  if n =? 0 then
                    let e := SshHandshakeFailed "runtime closed before sending an SSH banner" in
                    (session (first ++ rest) (Some (error_line e)) [started], Err e)
                  else (session (first ++ rest) None [started; ended], Ok ())
              end
          end
      end
  end.

Definition handle_connection cn (peer : string) (chunks : list string) (stream_end : StreamEnd)
    (runtime : RuntimeRun) : GatewaySession * result SshGatewayConnectError unit :=
  match read_prelude chunks stream_end with
  | Err e =>
      ({| sn_target := None; sn_forwarded := []; sn_error_line := Some (error_line e); sn_audit := [] |}, Err e)
  | Ok (q, buffered, rest) =>
      match proxy_after_prelude cn q peer buffered rest runtime with
      | (session, Ok _) => (session, Ok ())
      | (session, Err e) =>
          (session <| sn_audit ::= (.++ [session_audit q peer "gateway_ssh_session_failed" (audit_outcome e)
             (json_obj [("error", JStr (connect_error_text e))])]) |>, Err e)
      end
  end.

End connector.

(** ** Leases under any sequence of calls *)

Section lease_invariants.
Context `{Env, AuthEnv, GatewayText}.
Variable signer : option Signer.
Hypothesis uuid_inj : ∀ u v, gw_uuid u = gw_uuid v → u = v.

(** The store with the number of UUIDs drawn. *)
Abbreviation LeaseWorld := (Z * LeaseStore)%type.

Inductive lease_step : relation LeaseWorld :=
| ls_issue now u store q : lease_step (u, store) (u + 1, (issue signer now u store q).1)
| ls_revoke now u store id : lease_step (u, store) (u, (revoke now store id).1)
| ls_expire now u store : lease_step (u, store) (u, (expire_active_leases now store).1).

Record lease_ok (key : string) (l : SshCertificateLease) : Prop := {
  lo_key : sl_id l = key;
  lo_ttl : 0 < sl_ttl_seconds l ≤ MAX_SSH_LEASE_TTL_SECONDS;
  lo_expiry : sl_expires_at l = sl_issued_at l + seconds (sl_ttl_seconds l);
  lo_principal : sl_principal l ≠ EmptyString ∧ string_forallb is_principal_char (sl_principal l) = true;
  lo_mode : sl_access_mode l = "ssh";
  lo_revoked : sl_state l = LeaseRevoked ↔ is_Some (sl_revoked_at l);
}.

Lemma validate_issue_Ok q :
  validate_issue q = Ok () →
  0 < iq_ttl_seconds q ≤ MAX_SSH_LEASE_TTL_SECONDS ∧
  to_ascii_lowercase (trim (iq_access_mode q)) = "ssh" ∧
  trim (iq_principal q) ≠ EmptyString ∧ string_forallb is_principal_char (trim (iq_principal q)) = true.
Proof.
  unfold validate_issue. intros Hv. do 5 apply bind_Ok in Hv as (? & _ & Hv).
  apply bind_Ok in Hv as (? & Ht & Hv). apply bind_Ok in Hv as (? & Hm & Hp).
  unfold validate_ttl in Ht. repeat (case_match; [done|]).
  unfold validate_access_mode in Hm. destruct (eq_ignore_ascii_case _ _) eqn:Hi; [|done].
  unfold validate_principal in Hp. destruct (_ && _) eqn:Hc; [|done].
  apply andb_true_iff in Hc as [Hne%negb_true_iff%bool_decide_eq_false Hall].
  split; [lia|]. split; [|done]. unfold eq_ignore_ascii_case in Hi. by apply bool_decide_eq_true in Hi.
Qed.

Lemma issue_cases now u store q :
  (∃ e, issue signer now u store q = (store, Err e)) ∨
  (∃ signed, validate_issue q = Ok () ∧
    issue signer now u store q =
      (<["sshlease_" +:+ gw_uuid u := new_lease now ("sshlease_" +:+ gw_uuid u) q signed]> store,
       Ok ((lease_response now (new_lease now ("sshlease_" +:+ gw_uuid u) q signed))
             <| sr_certificate := sc_certificate <$> signed |>))).
Proof.
  unfold issue. destruct (validate_issue q) as [[]|e] eqn:Hv; [|left; by exists e].
  destruct signer as [sign|]; [|right; by exists None].
  destruct (sign _ _ _ _) as [signed|e]; [right; by exists (Some signed)|left; by exists e].
Qed.

Definition store_ok (w : LeaseWorld) : Prop :=
  map_Forall lease_ok w.2 ∧
  ∀ key, is_Some (w.2 !! key) → ∃ v, v < w.1 ∧ key = "sshlease_" +:+ gw_uuid v.

(** Only an active lease changes, and only its state. *)
Definition lease_le (l l' : SshCertificateLease) : Prop :=
  l' = l ∨ sl_state l = LeaseActive ∧ sl_state l' ≠ LeaseActive ∧
    l' <| sl_state := LeaseActive |> <| sl_revoked_at := None |>
    = l <| sl_state := LeaseActive |> <| sl_revoked_at := None |>.

Lemma store_ok_step w w' :
  store_ok w → lease_step w w' →
  store_ok w' ∧ ∀ key l, w.2 !! key = Some l → ∃ l', w'.2 !! key = Some l' ∧ lease_le l l'.
Proof using uuid_inj.
  intros [Hall Hkeys] Hstep. destruct Hstep as [now u store q|now u store id|now u store]; unfold store_ok, LeaseStore in *; cbn [fst snd] in *.
  - destruct (issue_cases now u store q) as [[e ->]|(signed & Hv & ->)]; unfold LeaseStore in *; cbn [fst snd].
    { split; [split; [done|]|].
      - intros key Hk. destruct (Hkeys key Hk) as (v & ? & ->). exists v. split; [simpl; lia|done].
      - intros key l Hl. exists l. split; [done|by left]. }
    destruct (validate_issue_Ok q Hv) as (Httl & Hmode & Hne & Hch). split; [split|].
    + apply map_Forall_insert_2; [|done]. split; try done. split; [done|by intros []].
    + intros key Hk. simpl. destruct (decide (key = "sshlease_" +:+ gw_uuid u)) as [->|Hn].
      * exists u. split; [lia|done].
      * simpl in Hk. rewrite lookup_insert_ne in Hk by done. destruct (Hkeys key Hk) as (v & ? & ->).
        exists v. split; [lia|done].
    + intros key l Hl. simpl. exists l. split; [|by left]. rewrite lookup_insert_ne; [done|].
      intros <-. destruct (Hkeys _ (mk_is_Some _ _ Hl)) as (v & Hlt & Heq).
      apply (inj (String.append "sshlease_")) in Heq. apply uuid_inj in Heq. lia.
  - unfold revoke, LeaseStore. destruct (store !! id) as [l0|] eqn:Hl0; cbn [fst snd];
      [|split; [done|intros key l Hl; exists l; split; [done|by left]]].
    pose proof (map_Forall_lookup_1 _ _ _ _ Hall Hl0) as [Hk Ht He Hp Hm Hr]. split; [split|].
    + apply map_Forall_insert_2; [|done]. case_decide; [|by split]. split; try done.
    + intros key Hs. apply Hkeys. simpl in Hs. destruct (decide (id = key)) as [<-|]; [by exists l0|].
      by rewrite lookup_insert_ne in Hs.
    + intros key l Hl. simpl. destruct (decide (id = key)) as [<-|Hn].
      * rewrite lookup_insert_eq. simplify_eq. eexists. split; [done|].
        case_decide as Hs; [right|by left]. done.
      * rewrite lookup_insert_ne by done. exists l. split; [done|by left].
  - unfold expire_active_leases, LeaseStore. cbn [fst snd]. split; [split|].
    + intros key l. cbn [snd]. rewrite lookup_fmap, fmap_Some. intros (l0 & Hl0 & ->).
      pose proof (map_Forall_lookup_1 _ _ _ _ Hall Hl0) as [Hk Ht He Hp Hm Hr].
      unfold is_due. destruct (bool_decide _ && _) eqn:Hd; [|by split].
      apply andb_true_iff in Hd as [Hs%bool_decide_eq_true _]. split; try done.
      split; [done|]. intros Hso. by apply Hr in Hso; rewrite Hs in Hso.
    + intros key Hs. apply Hkeys. cbn [snd] in Hs. rewrite lookup_fmap in Hs. by apply fmap_is_Some in Hs.
    + intros key l Hl. cbn [snd]. rewrite lookup_fmap, Hl. eexists. split; [done|].
      unfold is_due. destruct (bool_decide _ && _) eqn:Hd; [right|by left].
      apply andb_true_iff in Hd as [Hs%bool_decide_eq_true _]. done.
Qed.

Lemma lease_le_trans l1 l2 l3 : lease_le l1 l2 → lease_le l2 l3 → lease_le l1 l3.
Proof. intros [->|(? & ? & ?)] [->|(? & ? & ?)]; [by left|by right|by right|done]. Qed.

Lemma reachable_store_ok w w' :
  store_ok w → rtc lease_step w w' →
  store_ok w' ∧ ∀ key l, w.2 !! key = Some l → ∃ l', w'.2 !! key = Some l' ∧ lease_le l l'.
Proof using uuid_inj.
  intros Hok Hrun. induction Hrun as [w|w1 w2 w3 Hstep _ IH].
  - split; [done|]. intros key l Hl. exists l. split; [done|by left].
  - destruct (store_ok_step _ _ Hok Hstep) as [Hok2 Hle]. destruct (IH Hok2) as [Hok3 Hle3].
    split; [done|]. intros key l Hl. destruct (Hle key l Hl) as (l2 & Hl2 & Hle12).
    destruct (Hle3 key l2 Hl2) as (l3 & Hl3 & Hle23). exists l3. split; [done|by eapply lease_le_trans].
Qed.

Lemma empty_store_ok : store_ok (0, ∅).
Proof. split; [apply map_Forall_empty|]. intros key [? Hk]. cbn [snd] in Hk. unfold LeaseStore in Hk. by rewrite lookup_empty in Hk. Qed.

(** Every lease in a reachable store lives at most an hour, exactly from its
    issue for its time to live, for one principal made of letters, digits and
    "_-.", in mode ssh, and is marked revoked exactly when it has a time of
    revocation. *)
Theorem leases_wellformed w key l :
  rtc lease_step (0, ∅) w → w.2 !! key = Some l → lease_ok key l.
Proof using uuid_inj.
  intros Hrun Hl. destruct (reachable_store_ok _ _ empty_store_ok Hrun) as [[Hall _] _]. by apply Hall.
Qed.

(** A lease is never forgotten or altered: whatever calls follow, only an
    active one changes, once, to revoked or expired, and keeps everything else. *)
Theorem settled_lease_final w w' key l :
  rtc lease_step (0, ∅) w → rtc lease_step w w' → w.2 !! key = Some l →
  ∃ l', w'.2 !! key = Some l' ∧
    (l' = l ∨ sl_state l = LeaseActive ∧ sl_state l' ≠ LeaseActive ∧ sl_principal l' = sl_principal l ∧
              sl_actor l' = sl_actor l ∧ sl_instance_id l' = sl_instance_id l ∧
              sl_expires_at l' = sl_expires_at l).
Proof using uuid_inj.
  intros Hw Hrun Hl. destruct (reachable_store_ok _ _ empty_store_ok Hw) as [Hok _].
  destruct (reachable_store_ok _ _ Hok Hrun) as [_ Hle]. destruct (Hle key l Hl) as (l' & Hl' & Hcmp).
  exists l'. split; [done|]. destruct Hcmp as [->|(Ha & Hb & Heq)]; [by left|right].
  pose proof (f_equal sl_principal Heq). pose proof (f_equal sl_actor Heq).
  pose proof (f_equal sl_instance_id Heq). pose proof (f_equal sl_expires_at Heq). done.
Qed.

End lease_invariants.

Section reads.
Context `{Env, AuthEnv, GatewayText}.

Lemma response_active now l :
  sl_state (sr_lease (lease_response now l)) = LeaseActive →
  now < sl_expires_at (sr_lease (lease_response now l)).
Proof.
  unfold lease_response. cbn [sr_lease]. destruct (bool_decide _ && _) eqn:Hd; [done|].
  intros Ha. rewrite bool_decide_eq_true_2 in Hd by done. simpl in Hd. lia.
Qed.

(** Neither reading a lease nor listing them shows one as active at or after
    its expiry, also before the store has recorded the expiry. *)
Theorem no_expired_lease_shown_active now store id :
  (∀ r, get_lease now store id = Ok r → sl_state (sr_lease r) = LeaseActive →
     now < sl_expires_at (sr_lease r)) ∧
  (∀ r, r ∈ list_leases now store → sl_state (sr_lease r) = LeaseActive →
     now < sl_expires_at (sr_lease r)).
Proof.
  split.
  - intros r Hg. unfold get_lease in Hg. destruct (store !! id) as [l|]; simplify_eq/=.
    apply response_active.
  - intros r Hr. unfold list_leases in Hr. apply list_elem_of_fmap in Hr as (e & -> & _). apply response_active.
Qed.

(** The audit record of a revocation names the holder of the lease as its
    actor, whoever revoked it. *)
Theorem revocation_audited_as_holder now store req id l store' events response :
  store !! id = Some l →
  revoke_lease_handler now store req id = (store', events, response) →
  ∀ ev, ev ∈ events → ae_actor ev = sl_actor l.
Proof.
  intros Hl. unfold revoke_lease_handler, revoke. rewrite Hl. destruct (require_operator req); intros Heq ev Hev.
  - injection Heq as <- <- <-. apply list_elem_of_singleton in Hev as ->. unfold audit_revoked, lease_response.
    cbn [sr_lease ae_actor]. by repeat case_match.
  - injection Heq as <- <- <-. by apply not_elem_of_nil in Hev.
Qed.

End reads.

(** ** The connector *)

Lemma str_len_app s t : str_len (s +:+ t) = str_len s + str_len t.
Proof.
  unfold str_len. rewrite <-Nat2Z.inj_add. f_equal. induction s as [|c s IH]; simpl; [done|]. by rewrite IH.
Qed.

Lemma through_newline_app s t :
  through_newline s = None →
  through_newline (s +:+ t) =
    match through_newline t with Some (l, r) => Some (s +:+ l, r) | None => None end.
Proof.
  induction s as [|c s IH].
  { change (EmptyString +:+ t) with t. by destruct (through_newline t) as [[]|]. }
  change (String.String c s +:+ t) with (String.String c (s +:+ t)). cbn [through_newline].
  destruct (Ascii.eqb c newline); [done|]. destruct (through_newline s) as [[]|]; [done|].
  intros _. rewrite IH by done. by destruct (through_newline t) as [[]|].
Qed.

Lemma through_newline_head s t l r :
  through_newline s = Some (l, r) → through_newline (s +:+ t) = Some (l, r +:+ t).
Proof.
  revert l. induction s as [|c s IH]; simpl; intros l; [done|].
  destruct (Ascii.eqb c newline); [by intros [= <- <-]|].
  destruct (through_newline s) as [[l' r']|]; [|done]. intros [= <- <-]. by rewrite (IH l').
Qed.

Lemma through_newline_len s l r : through_newline s = Some (l, r) → s = l +:+ r.
Proof.
  revert l. induction s as [|c s IH]; simpl; intros l; [done|].
  destruct (Ascii.eqb c newline); [by intros [= <- <-]|].
  destruct (through_newline s) as [[l' r']|]; [|done]. intros [= <- <-].
  by rewrite (IH l' eq_refl) at 1.
Qed.

Definition bytes (chunks : list string) : string := foldr String.append EmptyString chunks.

(** The prelude of a stream read in one piece. *)
Definition line_of (text : string) (stream_end : StreamEnd)
    : result SshGatewayConnectError (string * string) :=
  match through_newline text with
  | Some (line, rest) =>
      if MAX_PRELUDE_BYTES <? str_len line then Err (InvalidRequest "prelude too large")
      else Ok (line, rest)
  | None =>
      if MAX_PRELUDE_BYTES <? str_len text then Err (InvalidRequest "prelude too large")
      else Err (InvalidRequest match stream_end with
        | Eof => if decide (text = EmptyString) then "missing prelude" else "unterminated prelude"
        | TimedOut => "prelude timeout"
        | Broken detail => detail
        end)
  end.

Lemma read_line_spec line chunks stream_end :
  through_newline line = None → str_len line ≤ MAX_PRELUDE_BYTES →
  match read_line line chunks stream_end with
  | Ok (l, buffered, rest) => Ok (l, buffered +:+ bytes rest)
  | Err e => Err e
  end = line_of (line +:+ bytes chunks) stream_end.
Proof.
  revert line. induction chunks as [|chunk rest IH]; intros line Hn Hl; simpl.
  - unfold line_of. rewrite append_nil_r, Hn. by rewrite (proj2 (Z.ltb_ge _ _) Hl).
  - destruct (through_newline chunk) as [[head buffered]|] eqn:Hc.
    + unfold line_of. rewrite through_newline_app by done. rewrite (through_newline_head _ _ _ _ Hc).
      rewrite str_len_app. by destruct (MAX_PRELUDE_BYTES <? _).
    + destruct (MAX_PRELUDE_BYTES <? str_len line + str_len chunk) eqn:Hbig.
      * unfold line_of. rewrite <-append_assoc.
        assert (Hnn : through_newline (line +:+ chunk) = None) by (rewrite through_newline_app; [by rewrite Hc|done]).
        rewrite through_newline_app by done. pose proof (str_len_app line chunk).
        destruct (through_newline (bytes rest)) as [[l r]|].
        -- rewrite str_len_app. unfold str_len in *. rewrite (proj2 (Z.ltb_lt _ _)) by lia. done.
        -- rewrite str_len_app. unfold str_len in *. rewrite (proj2 (Z.ltb_lt _ _)) by lia. done.
      * rewrite IH; [by rewrite append_assoc| |rewrite str_len_app; lia].
        rewrite through_newline_app by done. by rewrite Hc.
Qed.

(** How the network cuts a client's stream into chunks does not matter: the
    prelude is the line up to the first newline, refused beyond 4096 bytes, and
    what follows it is handed on byte for byte. *)
Theorem prelude_independent_of_chunks chunks stream_end :
  match read_line EmptyString chunks stream_end with
  | Ok (line, buffered, rest) => Ok (line, buffered +:+ bytes rest)
  | Err e => Err e
  end = line_of (bytes chunks) stream_end.
Proof. by apply (read_line_spec EmptyString). Qed.

Section connections.
Context `{Env, GatewayText}.

Lemma bytes_app l k : bytes (l ++ k) = bytes l +:+ bytes k.
Proof. induction l as [|s l IH]; simpl; [done|]. by rewrite IH, append_assoc. Qed.

Lemma proxy_forwards cn q peer buffered rest runtime s o target :
  proxy_after_prelude cn q peer buffered rest runtime = (s, o) → sn_target s = Some target →
  admit_request cn q = Ok target ∧ ∃ tail, buffered +:+ bytes rest = bytes (sn_forwarded s) +:+ tail.
Proof.
  unfold proxy_after_prelude. destruct (admit_request cn q) as [t|e]; [|by intros [= <- <-]].
  set (first := if decide (buffered = EmptyString) then [] else [buffered]).
  assert (Hfirst : bytes first = buffered).
  { subst first. case_decide; simpl; [done|apply append_nil_r]. }
  intros Hp Ht. destruct runtime as [d|first_write copied].
  { simplify_eq/=. split; [done|]. by eexists. }
  assert (Hgen : ∀ n, ∃ tail, buffered +:+ bytes rest = bytes (first ++ take n rest) +:+ tail).
  { intros n. exists (bytes (drop n rest)). rewrite <-(take_drop n rest) at 1. rewrite !bytes_app, Hfirst.
    by rewrite !append_assoc. }
  assert (Hall : ∃ tail, buffered +:+ bytes rest = bytes (first ++ rest) +:+ tail).
  { exists EmptyString. by rewrite append_nil_r, bytes_app, Hfirst. }
  destruct first as [|f fs], first_write as [d|]; [| |simplify_eq/=; split; [done|]; by eexists|];
    (destruct copied as [[sent d']|n]; [|case_match]; simplify_eq/=; (split; [done|]);
     first [apply Hall|apply Hgen]).
Qed.

(** C21: A connection reaches a runtime only when its prelude names the instance
    of a configured target and a rule allows that actor there; what is sent to
    the runtime is then nothing but bytes that followed the prelude, in order. *)
Theorem connection_authorised cn rules peer chunks stream_end runtime session outcome target :
  cn_authorizer cn = StaticRules rules →
  handle_connection cn peer chunks stream_end runtime = (session, outcome) →
  sn_target session = Some target →
  ∃ q line rest tail,
    parse_request line = Ok q ∧ bytes chunks = line +:+ rest ∧
    cn_targets cn !! trim (cq_instance_id q) = Some target ∧
    allows rules (cq_actor q) (cq_instance_id q) = true ∧
    rest = bytes (sn_forwarded session) +:+ tail.
Proof.
  intros Hauth Hh Ht. unfold handle_connection in Hh.
  destruct (read_prelude chunks stream_end) as [[[q buffered] rest]|e] eqn:Hp; [|by simplify_eq].
  unfold read_prelude in Hp. apply bind_Ok in Hp as ([[line b] r] & Hline & Hp).
  apply bind_Ok in Hp as (q' & Hq & Hp). simplify_eq.
  pose proof (prelude_independent_of_chunks chunks stream_end) as Hs. rewrite Hline in Hs.
  unfold line_of in Hs. destruct (through_newline (bytes chunks)) as [[l0 r0]|] eqn:Hn; [|by case_match].
  case_match; [done|]. injection Hs as <- <-. apply through_newline_len in Hn.
  assert (Hprox : ∃ s o, proxy_after_prelude cn q peer buffered rest runtime = (s, o) ∧
    sn_target s = Some target ∧ sn_forwarded session = sn_forwarded s).
  { destruct (proxy_after_prelude _ _ _ _ _ _) as [s [[]|e]]; simplify_eq/=; by eauto. }
  destruct Hprox as (s & o & Hprox & Hst & ->).
  exists q, line, (buffered +:+ bytes rest).
  destruct (proxy_forwards cn q peer buffered rest runtime s o target Hprox Hst) as (Hadmit & tail & Htail).
  exists tail. unfold admit_request in Hadmit. apply bind_Ok in Hadmit as (? & _ & Hadmit).
  apply bind_Ok in Hadmit as (t' & Hres & Hadmit). apply bind_Ok in Hadmit as (? & Hal & Hadmit).
  simplify_eq. unfold resolve_target in Hres. apply ok_or_Ok in Hres.
  rewrite Hauth in Hal. unfold authorize in Hal. destruct (allows _ _ _); [|done]. done.
Qed.

End connections.

(** ** Sample runs *)

(** JSON text in this environment may end in a newline. *)
Definition chomp (s : string) : string := trim s.

#[local] Instance line_env : Env := {|
  rfc3339 := λ t, pretty t;
  json_text := λ v, bits_text (encode (json_tree v));
  json_parse := λ s, tree_json <$> decode (text_bits (chomp s));
  jcs_sha256 := λ v, Ok EmptyString;
  uuid := λ i, pretty i;
|}.
#[local] Existing Instance sample_auth.
#[local] Instance sample_gateway_text : GatewayText := {|
  gw_uuid := λ u, pretty u;
  prelude_error := λ _, "expected value";
|}.

Lemma sample_uuid_inj u v : gw_uuid u = gw_uuid v → u = v.
Proof. simpl. apply (inj pretty). Qed.

Definition sample_request : IssueSshCertificateLeaseRequest :=
  {| iq_actor := "ops@example.test"; iq_instance_id := "agent-01"; iq_principal := " dev "; iq_access_mode := "SSH";
     iq_public_key := "ssh-ed25519 AAAA"; iq_ttl_seconds := 900 |}.

Definition sample_store : LeaseStore := (issue None 5 0 ∅ sample_request).1.
Definition sample_lease : SshCertificateLease := new_lease 5 "sshlease_0" sample_request None.

Lemma sample_store_lease : sample_store !! "sshlease_0" = Some sample_lease.
Proof. vm_compute. reflexivity. Qed.

Lemma sample_issue_run : rtc (lease_step None) (0, ∅) (0 + 1, sample_store).
Proof. exact (rtc_once _ _ (ls_issue None 5 0 ∅ sample_request)). Qed.

Lemma leases_wellformed_witness : lease_ok "sshlease_0" sample_lease.
Proof. apply (leases_wellformed None sample_uuid_inj _ _ _ sample_issue_run sample_store_lease). Defined.

Lemma settled_lease_final_witness :
  ∃ l', (revoke 7 sample_store "sshlease_0").1 !! "sshlease_0" = Some l' ∧
    (l' = sample_lease ∨ sl_state sample_lease = LeaseActive ∧ sl_state l' ≠ LeaseActive ∧
       sl_principal l' = sl_principal sample_lease ∧ sl_actor l' = sl_actor sample_lease ∧
       sl_instance_id l' = sl_instance_id sample_lease ∧ sl_expires_at l' = sl_expires_at sample_lease).
Proof.
  refine (settled_lease_final None sample_uuid_inj _ (0 + 1, (revoke 7 sample_store "sshlease_0").1) _ _
           sample_issue_run (rtc_once _ _ _) sample_store_lease).
  apply ls_revoke.
Defined.

Definition other_operator : AdminRequest :=
  {| ar_request := {| req_method := "DELETE"; req_path := "/leases"; req_headers := []; req_body := EmptyString |};
     ar_query := None; ar_role := Some Admin;
     ar_identity := Some {| oi_actor := "root"; oi_role := Admin |}; ar_mtls := None; ar_unix := None |}.

Lemma revocation_audited_as_holder_witness :
  length (revoke_lease_handler 7 sample_store other_operator "sshlease_0").1.2 = 1%nat ∧
  ∀ ev, ev ∈ (revoke_lease_handler 7 sample_store other_operator "sshlease_0").1.2 →
    ae_actor ev = "ops@example.test".
Proof.
  split; [vm_compute; reflexivity|]. intros ev Hev.
  refine (revocation_audited_as_holder 7 sample_store other_operator "sshlease_0" sample_lease
    (revoke_lease_handler 7 sample_store other_operator "sshlease_0").1.1 _
    (revoke_lease_handler 7 sample_store other_operator "sshlease_0").2 sample_store_lease _ ev Hev).
  by rewrite <-!surjective_pairing.
Defined.

Definition sample_connector : SshGatewayConnector :=
  {| cn_targets := {["agent-01" := {| tg_instance_id := "agent-01"; tg_host := "10.0.0.5"; tg_port := 22 |}]};
     cn_authorizer := StaticRules {[("ops", "*")]} |}.

Definition sample_prelude : string :=
  json_text (json_obj [("actor", JStr "ops"); ("instance_id", JStr "agent-01")]).

Definition sample_session : GatewaySession * result SshGatewayConnectError unit :=
  handle_connection sample_connector "127.0.0.1:9" [sample_prelude; String.String newline "SSH-2.0"; "x"] Eof
    (Connected None (inr 10)).

Definition sample_target : SshGatewayTarget :=
  {| tg_instance_id := "agent-01"; tg_host := "10.0.0.5"; tg_port := 22 |}.

Lemma connection_authorised_witness :
  ∃ q line rest tail,
    parse_request line = Ok q ∧
    bytes [sample_prelude; String.String newline "SSH-2.0"; "x"] = line +:+ rest ∧
    cn_targets sample_connector !! trim (cq_instance_id q) = Some sample_target ∧
    allows {[("ops", "*")]} (cq_actor q) (cq_instance_id q) = true ∧
    rest = bytes (sn_forwarded sample_session.1) +:+ tail.
Proof.
  refine (connection_authorised sample_connector {[("ops", "*")]} "127.0.0.1:9"
    [sample_prelude; String.String newline "SSH-2.0"; "x"] Eof (Connected None (inr 10))
    sample_session.1 sample_session.2 sample_target eq_refl (surjective_pairing _) _).
  vm_compute. reflexivity.
Defined.
