(* ===== verification/TransportIdentity.v ===== *)
(** * Identities of the agents' transports

    Models management/src/transport_identity.rs (trust domains, SPIFFE ids and
    the map from socket peers to instances), the resolver and the
    authentication of management/src/grpc.rs, and the mapping of a provisioned
    VM in management/src/http/admin_v2.rs.

    The resolver's map is behind one lock; every method of it is one step.
    [Uuid::parse_str] is the class [UuidText], the order in which a hash map is
    searched the class [PeerOrder]. *)

From Stdlib Require Import Ascii.
From S2P Require Import Prelude Text Http.

Local Open Scope string_scope.
Local Open Scope list_scope.
Local Open Scope Z_scope.

(** [Uuid::parse_str(s).is_ok()] *)
Class UuidText : Type := { uuid_parses : string → bool }.

(** Every accepted spelling of a UUID has some of its hexadecimal digits, and
    none has a slash. *)
Record uuid_text_laws (U : UuidText) : Prop := {
  uuid_nonempty : uuid_parses EmptyString = false;
  uuid_no_slash : ∀ s, uuid_parses s = true → contains_char s "/"%char = false;
}.

(** The order of a [HashMap<u32, String>]'s iterator: every entry once. *)
Class PeerOrder : Type := {
  peer_iter : gmap Z string → list (Z * string);
  peer_iter_perm : ∀ m, peer_iter m ≡ₚ map_to_list m;
}.

Definition AGENT_PATH_PREFIX : string := "/agent/".

Inductive TransportIdentityError : Type :=
| EmptyTrustDomain
| InvalidTrustDomain (value : string)
| InvalidInstanceId (value : string)
| InvalidScheme
| InvalidAgentPath
| UnknownUdsUid (uid : Z)
| DuplicateUdsUid (uid : Z)
| UnknownVsockCid (cid : Z)
| InvalidVsockCid (cid : Z)
| DuplicateVsockCid (cid : Z)
| DuplicateTransportInstanceId (id : string).

#[export] Instance TransportIdentityError_eq_dec : EqDecision TransportIdentityError.
Proof. solve_decision. Defined.

Definition identity_error_text (e : TransportIdentityError) : string :=
  match e with
  | EmptyTrustDomain => "trust domain is empty"
  | InvalidTrustDomain v => "trust domain contains invalid characters: " +:+ v
  | InvalidInstanceId v => "instance id is not a UUID: " +:+ v
  | InvalidScheme => "SPIFFE id must start with spiffe://"
  | InvalidAgentPath => "SPIFFE id must use /agent/<instance_id> path"
  | UnknownUdsUid uid => "unknown UDS uid: " +:+ pretty uid
  | DuplicateUdsUid uid => "duplicate UDS uid in map: " +:+ pretty uid
  | UnknownVsockCid cid => "unknown vsock CID: " +:+ pretty cid
  | InvalidVsockCid cid => "vsock CID must be a positive integer: " +:+ pretty cid
  | DuplicateVsockCid cid => "duplicate vsock CID in map: " +:+ pretty cid
  | DuplicateTransportInstanceId id => "duplicate instance id in map: " +:+ id
  end.

(** ** Trust domains and SPIFFE ids *)

(** [TrustDomain(String)] *)
Definition TrustDomain : Type := string.

Definition is_domain_byte (c : ascii) : bool :=
  is_ascii_alphanumeric c || Ascii.eqb c "."%char || Ascii.eqb c "-"%char.

Definition trust_domain_new (value : string) : result TransportIdentityError TrustDomain :=
  if decide (value = EmptyString) then Err EmptyTrustDomain
  else if string_forallb is_domain_byte value then Ok value
  else Err (InvalidTrustDomain value).

Record SpiffeId : Type := {
  sp_uri : string;
  sp_trust_domain : TrustDomain;
  sp_instance_id : string;
}.
#[export] Instance SpiffeId_eq_dec : EqDecision SpiffeId.
Proof. solve_decision. Defined.

Section spiffe.
Context `{UuidText}.

Definition local_from_sandbox_identity (sandbox_identity : string) : result TransportIdentityError TrustDomain :=
  if uuid_parses sandbox_identity
  then trust_domain_new ("sandbox-" +:+ sandbox_identity +:+ ".agentic.local")
  else Err (InvalidInstanceId sandbox_identity).

Definition for_agent (trust_domain : TrustDomain) (instance_id : string)
    : result TransportIdentityError SpiffeId :=
  if uuid_parses instance_id then
    Ok {| sp_uri := "spiffe://" +:+ trust_domain +:+ AGENT_PATH_PREFIX +:+ instance_id;
          sp_trust_domain := trust_domain; sp_instance_id := instance_id |}
  else Err (InvalidInstanceId instance_id).

Definition parse_spiffe (uri : string) : result TransportIdentityError SpiffeId :=
  rest ← ok_or (strip_prefix uri "spiffe://") InvalidScheme;
  '(trust_domain, path) ← ok_or (split_once "/"%char rest) InvalidAgentPath;
  instance_id ← ok_or (strip_prefix path "agent/") InvalidAgentPath;
  if bool_decide (instance_id = EmptyString) || contains_char instance_id "/"%char then Err InvalidAgentPath
  else
    trust_domain ← trust_domain_new trust_domain;
    for_agent trust_domain instance_id.

(** ** The map from socket peers to instances *)

Record PeerIdentityMap : Type := {
  uds_uid_to_instance : gmap Z string;
  vsock_cid_to_instance : gmap Z string;
}.

Definition peer_map_new : PeerIdentityMap := {| uds_uid_to_instance := ∅; vsock_cid_to_instance := ∅ |}.

Inductive PeerIdentityEvidence : Type :=
| UdsPeerCred (uid : Z)
| VsockCid (cid : Z)
| MtlsUriSan (uri : string).

(** [values().any(|id| id == &instance_id)] *)
Definition has_instance (m : gmap Z string) (instance_id : string) : bool :=
  existsb (λ kv, bool_decide (kv.2 = instance_id)) (map_to_list m).

Definition register_uds_uid (pm : PeerIdentityMap) (uid : Z) (instance_id : string)
    : result TransportIdentityError PeerIdentityMap :=
  if negb (uuid_parses instance_id) then Err (InvalidInstanceId instance_id)
  else if decide (is_Some (uds_uid_to_instance pm !! uid)) then Err (DuplicateUdsUid uid)
  else if has_instance (uds_uid_to_instance pm) instance_id
  then Err (DuplicateTransportInstanceId instance_id)
  else Ok (pm <| uds_uid_to_instance ::= <[uid := instance_id]> |>).

Definition register_vsock_cid (pm : PeerIdentityMap) (cid : Z) (instance_id : string)
    : result TransportIdentityError PeerIdentityMap :=
  if cid =? 0 then Err (InvalidVsockCid cid)
  else if negb (uuid_parses instance_id) then Err (InvalidInstanceId instance_id)
  else if decide (is_Some (vsock_cid_to_instance pm !! cid)) then Err (DuplicateVsockCid cid)
  else if has_instance (vsock_cid_to_instance pm) instance_id
  then Err (DuplicateTransportInstanceId instance_id)
  else Ok (pm <| vsock_cid_to_instance ::= <[cid := instance_id]> |>).

Definition unregister_uds_uid (pm : PeerIdentityMap) (uid : Z) : PeerIdentityMap * option string :=
  (pm <| uds_uid_to_instance ::= delete uid |>, uds_uid_to_instance pm !! uid).

Definition unregister_vsock_cid (pm : PeerIdentityMap) (cid : Z) : PeerIdentityMap * option string :=
  (pm <| vsock_cid_to_instance ::= delete cid |>, vsock_cid_to_instance pm !! cid).

Definition build_vsock_map (entries : list (Z * string)) : result TransportIdentityError (gmap Z string) :=
  tmp ← foldl (λ tmp entry, tmp ← tmp; register_vsock_cid tmp entry.1 entry.2) (Ok peer_map_new) entries;
  Ok (vsock_cid_to_instance tmp).

Definition replace_vsock_map (pm : PeerIdentityMap) (m : gmap Z string) : PeerIdentityMap :=
  pm <| vsock_cid_to_instance := m |>.

Definition peer_identity (pm : PeerIdentityMap) (evidence : PeerIdentityEvidence) (trust_domain : TrustDomain)
    : result TransportIdentityError SpiffeId :=
  match evidence with
  | UdsPeerCred uid =>
      instance_id ← ok_or (uds_uid_to_instance pm !! uid) (UnknownUdsUid uid);
      for_agent trust_domain instance_id
  | VsockCid cid =>
      instance_id ← ok_or (vsock_cid_to_instance pm !! cid) (UnknownVsockCid cid);
      for_agent trust_domain instance_id
  | MtlsUriSan uri => parse_spiffe uri
  end.

Section order.
Context `{PeerOrder}.

(** The first entry, in the map's order, of an instance. *)
Definition find_peer (m : gmap Z string) (instance_id : string) : option Z :=
  fst <$> find_first (λ kv, bool_decide (kv.2 = instance_id)) (peer_iter m).

Definition unregister_uds_instance (pm : PeerIdentityMap) (instance_id : string) : PeerIdentityMap * option Z :=
  match find_peer (uds_uid_to_instance pm) instance_id with
  | Some uid => (pm <| uds_uid_to_instance ::= delete uid |>, Some uid)
  | None => (pm, None)
  end.

Definition unregister_vsock_instance (pm : PeerIdentityMap) (instance_id : string) : PeerIdentityMap * option Z :=
  match find_peer (vsock_cid_to_instance pm) instance_id with
  | Some cid => (pm <| vsock_cid_to_instance ::= delete cid |>, Some cid)
  | None => (pm, None)
  end.

(** [register_vsock_mapping]: the CID read from the VM's info file. *)
Definition register_vsock_mapping (pm : PeerIdentityMap) (provisioned : option Z) (instance_id : string)
    : PeerIdentityMap * result string unit :=
  match provisioned with
  | None => (pm, Ok ())
  | Some cid =>
      if cid =? 0 then (pm, Ok ())
      else
        let pm := (unregister_vsock_cid pm cid).1 in
        let pm := (unregister_vsock_instance pm instance_id).1 in
        match register_vsock_cid pm cid instance_id with
        | Ok pm => (pm, Ok ())
        | Err e => (pm, Err ("failed to register VSock CID mapping: " +:+ identity_error_text e))
        end
  end.
End order.

(** ** The resolver *)

(** [raw.split([',', '\n'])] *)
Definition split_entries (raw : string) : list string :=
  split_char ","%char raw ≫= split_char "010"%char.

(** An entry of the map file: [cid=instance-id], or the legacy order. *)
Definition parse_vsock_entry (entry : string) : option (Z * string) :=
  '(lhs, rhs) ← split_once "="%char entry;
  let lhs := trim lhs in
  let rhs := trim rhs in
  match parse_unsigned u32_max lhs with
  | Some cid => Some (cid, rhs)
  | None => cid ← parse_unsigned u32_max rhs; Some (cid, lhs)
  end.

(** Entries that cannot be registered are skipped. *)
Definition add_vsock_entry (new_map : PeerIdentityMap) (entry : string) : PeerIdentityMap :=
  match parse_vsock_entry entry with
  | None => new_map
  | Some (cid, instance_id) =>
      match register_vsock_cid new_map cid instance_id with Ok new_map => new_map | Err _ => new_map end
  end.

Definition vsock_map_of_text (raw : string) : gmap Z string :=
  let entries := filter (λ v, v ≠ EmptyString ∧ starts_with v "#" = false) (trim <$> split_entries raw) in
  vsock_cid_to_instance (foldl add_vsock_entry peer_map_new entries).

(** [raw] is what reading the file gave. *)
Definition reload_vsock_map_from_file (pm : PeerIdentityMap) (path : string) (raw : result string string)
    : PeerIdentityMap * result string Z :=
  match raw with
  | Err e => (pm, Err ("failed to read vsock CID map file " +:+ path +:+ ": " +:+ e))
  | Ok raw =>
      let new_map := vsock_map_of_text raw in
      (replace_vsock_map pm new_map, Ok (Z.of_nat (size new_map)))
  end.

Record AgentTransportIdentityResolver : Type := {
  re_trust_domain : TrustDomain;
  re_peer_map : PeerIdentityMap;
}.

(** [Status::unauthenticated(text)] is [Err text]. *)
Definition uds_peer_identity (r : AgentTransportIdentityResolver) (uid : Z) : result string SpiffeId :=
  map_err (λ e, "Invalid UDS peer identity: " +:+ identity_error_text e)
    (peer_identity (re_peer_map r) (UdsPeerCred uid) (re_trust_domain r)).
Definition vsock_peer_identity (r : AgentTransportIdentityResolver) (cid : Z) : result string SpiffeId :=
  map_err (λ e, "Invalid vsock peer identity: " +:+ identity_error_text e)
    (peer_identity (re_peer_map r) (VsockCid cid) (re_trust_domain r)).
Definition mtls_peer_identity (r : AgentTransportIdentityResolver) (uri : string) : result string SpiffeId :=
  map_err (λ e, "Invalid mTLS peer identity: " +:+ identity_error_text e)
    (peer_identity (re_peer_map r) (MtlsUriSan uri) (re_trust_domain r)).

(** ** Authentication of an agent's request *)

Inductive AgentTransportKind : Type := UnknownTransport | Uds | Vsock | Mtls.
#[export] Instance AgentTransportKind_eq_dec : EqDecision AgentTransportKind.
Proof. solve_decision. Defined.

(** The connection's extensions, present or not, each with its evidence. *)
Record AgentRequest : Type := {
  aq_metadata : HeaderMap;
  aq_mtls : option (option string);
  aq_vsock : option (option Z);
  aq_uds : option (option Z);
}.

Record AgentAuthContext : Type := {
  ac_agent_id : string;
  ac_peer_identity : option SpiffeId;
  ac_transport_kind : AgentTransportKind;
}.

Definition peer_identity_for_request (resolver : option AgentTransportIdentityResolver) (q : AgentRequest)
    : result string (option (SpiffeId * AgentTransportKind)) :=
  match resolver with
  | None => Ok None
  | Some r =>
      match aq_mtls q with
      | Some uri_san =>
          uri ← ok_or uri_san "mTLS URI-SAN identity required";
          identity ← mtls_peer_identity r uri;
          Ok (Some (identity, Mtls))
      | None =>
          match aq_vsock q with
          | Some addr =>
              cid ← ok_or addr "vsock peer CID required";
              identity ← vsock_peer_identity r cid;
              Ok (Some (identity, Vsock))
          | None =>
              match aq_uds q with
              | None => Ok None
              | Some cred =>
                  uid ← ok_or cred "UDS peer credentials required";
                  identity ← uds_peer_identity r uid;
                  Ok (Some (identity, Uds))
              end
          end
      end
  end.

Definition authenticate_agent (metadata : HeaderMap) (peer : option (SpiffeId * AgentTransportKind))
    : result string AgentAuthContext :=
  agent_id ← ok_or (header metadata "x-agent-id") "Missing x-agent-id header";
  match peer with
  | Some (identity, kind) =>
      claimed ← ok_or (header metadata "x-agent-instance-id") "Missing x-agent-instance-id for transport identity";
      if decide (claimed = sp_instance_id identity) then
        Ok {| ac_agent_id := agent_id; ac_peer_identity := Some identity; ac_transport_kind := kind |}
      else Err "Transport identity does not match x-agent-instance-id"
  | None => Err "Agent transport identity required"
  end.

(** The first two steps of [connect] and [renew_certificate]. *)
Definition authenticate_request (resolver : option AgentTransportIdentityResolver) (q : AgentRequest)
    : result string AgentAuthContext :=
  peer ← peer_identity_for_request resolver q;
  authenticate_agent (aq_metadata q) peer.

(** ** SPIFFE ids *)

(** The fields of an id agree, and its parts are what they should be. *)
Definition spiffe_wf (id : SpiffeId) : Prop :=
  trust_domain_new (sp_trust_domain id) = Ok (sp_trust_domain id) ∧
  for_agent (sp_trust_domain id) (sp_instance_id id) = Ok id.

Lemma domain_no_slash s : string_forallb is_domain_byte s = true → contains_char s "/"%char = false.
Proof.
  induction s as [|a s IH]; [done|]. simpl. intros [Ha Hs]%andb_prop. rewrite (IH Hs).
  destruct (Ascii.eqb_spec a "/"%char) as [->|]; [discriminate Ha|done].
Qed.

Lemma trust_domain_new_Ok v d :
  trust_domain_new v = Ok d ↔ d = v ∧ v ≠ EmptyString ∧ string_forallb is_domain_byte v = true.
Proof.
  unfold trust_domain_new. case_decide; [naive_solver|]. case_match; naive_solver.
Qed.

(** An agent's URI names its instance. *)
Lemma for_agent_Ok d i id :
  for_agent d i = Ok id ↔
  uuid_parses i = true ∧
  id = {| sp_uri := "spiffe://" +:+ d +:+ AGENT_PATH_PREFIX +:+ i; sp_trust_domain := d; sp_instance_id := i |}.
Proof. unfold for_agent. destruct (uuid_parses i); naive_solver. Qed.

Lemma spiffe_parse_text (laws : uuid_text_laws _) uri id :
  parse_spiffe uri = Ok id ↔ spiffe_wf id ∧ uri = sp_uri id.
Proof.
  unfold parse_spiffe, spiffe_wf. split.
  - intros (rest & Hrest%ok_or_Ok%strip_prefix_Some & Hp)%bind_Ok.
    apply bind_Ok in Hp as ([d path] & [Hs _]%ok_or_Ok%split_once_Some & Hp).
    apply bind_Ok in Hp as (i & Hi%ok_or_Ok%strip_prefix_Some & Hp).
    destruct (_ || _); [done|]. apply bind_Ok in Hp as (d' & Hd & Hf).
    pose proof Hd as (-> & _ & _)%trust_domain_new_Ok. pose proof Hf as [Hu ->]%for_agent_Ok.
    cbn [sp_trust_domain sp_instance_id sp_uri]. split; [done|]. subst. done.
  - intros [[Hd Hf] ->]. apply for_agent_Ok in Hf as [Hu ->]. cbn [sp_uri sp_trust_domain sp_instance_id] in *.
    rewrite strip_prefix_app. cbn [ok_or mbind result_bind].
    pose proof Hd as (_ & _ & Hc)%trust_domain_new_Ok.
    change (AGENT_PATH_PREFIX +:+ sp_instance_id id) with (String.String "/"%char ("agent/" +:+ sp_instance_id id)).
    rewrite split_once_app by by apply domain_no_slash. cbn [ok_or mbind result_bind].
    rewrite strip_prefix_app. cbn [ok_or mbind result_bind].
    rewrite (uuid_no_slash _ laws _ Hu), bool_decide_eq_false_2, Hd; [|intros Hi; rewrite Hi in Hu; by rewrite (uuid_nonempty _ laws) in Hu].
    cbn [orb mbind result_bind]. unfold for_agent. by rewrite Hu.
Qed.

(** reading and printing SPIFFE ids are inverse.  The text [uri] is read as
    [id] exactly when [id] is an agent's id, with a trust domain of the allowed
    characters and a UUID as instance, and [uri] is its text. *)
Theorem spiffe_roundtrip (laws : uuid_text_laws _) uri id :
  parse_spiffe uri = Ok id ↔ spiffe_wf id ∧ uri = sp_uri id.
Proof. by apply spiffe_parse_text. Qed.

(** ** The map stays one-to-one *)

(** No two peers are the same instance, and every instance is a UUID. *)
Record peers_wf (m : gmap Z string) : Prop := {
  peers_injective k k' i : m !! k = Some i → m !! k' = Some i → k = k';
  peers_uuid k i : m !! k = Some i → uuid_parses i = true;
}.

Record map_wf (pm : PeerIdentityMap) : Prop := {
  wf_uds : peers_wf (uds_uid_to_instance pm);
  wf_vsock : peers_wf (vsock_cid_to_instance pm);
  wf_no_zero : vsock_cid_to_instance pm !! 0 = None;
}.

Lemma peers_wf_empty : peers_wf ∅.
Proof. split; intros *; by rewrite lookup_empty. Qed.

Lemma map_wf_new : map_wf peer_map_new.
Proof. split; [apply peers_wf_empty..|done]. Qed.

Lemma has_instance_true m i : has_instance m i = true ↔ ∃ k, m !! k = Some i.
Proof.
  unfold has_instance. rewrite existsb_exists. split.
  - intros ([k i'] & Hin & Heq%bool_decide_eq_true). simpl in Heq. subst i'. exists k.
    by apply elem_of_map_to_list, list_elem_of_In.
  - intros [k Hk]. exists (k, i). split; [by apply list_elem_of_In, elem_of_map_to_list|by apply bool_decide_eq_true].
Qed.

Lemma peers_wf_insert m k i :
  peers_wf m → uuid_parses i = true → has_instance m i = false → peers_wf (<[k := i]> m).
Proof.
  intros [Hinj Huu] Hu Hno. assert (Hfresh : ∀ k', m !! k' ≠ Some i).
  { intros k' Hk'. assert (Ht : has_instance m i = true) by (apply has_instance_true; eauto). congruence. }
  split.
  - intros k1 k2 j. rewrite !lookup_insert_Some. naive_solver.
  - intros k1 j. rewrite lookup_insert_Some. naive_solver.
Qed.

Lemma peers_wf_delete m k : peers_wf m → peers_wf (delete k m).
Proof. intros [Hinj Huu]. split; intros *; rewrite ?lookup_delete_Some; naive_solver. Qed.

Lemma register_uds_wf pm uid i pm' : map_wf pm → register_uds_uid pm uid i = Ok pm' → map_wf pm'.
Proof.
  intros [Hu Hv Hz]. unfold register_uds_uid. destruct (uuid_parses i) eqn:Hi; [|done]. cbn [negb].
  case_decide; [done|]. destruct (has_instance _ _) eqn:Hh; [done|]. intros [= <-].
  split; simpl; [by apply peers_wf_insert|done..].
Qed.

Lemma register_vsock_wf pm cid i pm' : map_wf pm → register_vsock_cid pm cid i = Ok pm' → map_wf pm'.
Proof.
  intros [Hu Hv Hz]. unfold register_vsock_cid. destruct (Z.eqb_spec cid 0) as [|Hne]; [done|].
  destruct (uuid_parses i) eqn:Hi; [|done]. cbn [negb].
  case_decide; [done|]. destruct (has_instance _ _) eqn:Hh; [done|]. intros [= <-].
  split; simpl; [done|by apply peers_wf_insert|by rewrite lookup_insert_ne].
Qed.

Lemma unregister_uds_wf pm uid : map_wf pm → map_wf (pm <| uds_uid_to_instance ::= delete uid |>).
Proof. intros [Hu Hv Hz]. split; simpl; [by apply peers_wf_delete|done..]. Qed.

Lemma unregister_vsock_wf pm cid : map_wf pm → map_wf (pm <| vsock_cid_to_instance ::= delete cid |>).
Proof.
  intros [Hu Hv Hz]. split; simpl; [done|by apply peers_wf_delete|by rewrite lookup_delete_None; right].
Qed.

Lemma add_vsock_entry_wf entries pm : map_wf pm → map_wf (foldl add_vsock_entry pm entries).
Proof.
  revert pm. induction entries as [|e entries IH]; intros pm Hwf; [done|]. simpl. apply IH.
  unfold add_vsock_entry. destruct (parse_vsock_entry e) as [[cid i]|]; [|done].
  destruct (register_vsock_cid pm cid i) eqn:Hr; [|done]. by eapply register_vsock_wf.
Qed.

Lemma reload_wf pm path raw : map_wf pm → map_wf (reload_vsock_map_from_file pm path raw).1.
Proof.
  intros [Hu Hv Hz]. unfold reload_vsock_map_from_file. destruct raw as [raw|e]; [|done].
  destruct (add_vsock_entry_wf (filter (λ v, v ≠ EmptyString ∧ starts_with v "#" = false) (trim <$> split_entries raw))
    peer_map_new map_wf_new) as [_ Hv' Hz']. by split.
Qed.

Section ordered.
Context `{PeerOrder}.

(** Searching by instance finds the one entry there is, in any order. *)
Lemma find_peer_exact m i k : peers_wf m → find_peer m i = Some k ↔ m !! k = Some i.
Proof.
  intros Hwf. unfold find_peer. split.
  - destruct (find_first _ _) as [[k' i']|] eqn:Hf; simpl; [|done]. intros [= ->].
    apply find_first_Some in Hf as [Hin Hi%bool_decide_eq_true]. simpl in Hi. subst.
    rewrite peer_iter_perm in Hin. by apply elem_of_map_to_list in Hin.
  - intros Hk. destruct (find_first _ _) as [[k' i']|] eqn:Hf; simpl.
    + apply find_first_Some in Hf as [Hin Hi%bool_decide_eq_true]. simpl in Hi. subst.
      rewrite peer_iter_perm in Hin. apply elem_of_map_to_list in Hin.
      f_equal. by eapply peers_injective.
    + assert (Hin : (k, i) ∈ peer_iter m) by (rewrite peer_iter_perm; by apply elem_of_map_to_list).
      pose proof (proj1 (find_first_None _ _) Hf _ Hin) as Hfalse. simpl in Hfalse. by rewrite bool_decide_eq_true_2 in Hfalse.
Qed.

(** What management does to the map. *)
Inductive PeerOp : Type :=
| RegUds (uid : Z) (i : string)
| UnregUds (uid : Z)
| UnregUdsInstance (i : string)
| RegVsock (cid : Z) (i : string)
| UnregVsock (cid : Z)
| UnregVsockInstance (i : string)
| Reload (path : string) (raw : result string string)
| MapVm (provisioned : option Z) (i : string).

Definition apply_op (pm : PeerIdentityMap) (op : PeerOp) : PeerIdentityMap :=
  match op with
  | RegUds uid i => match register_uds_uid pm uid i with Ok pm' => pm' | Err _ => pm end
  | UnregUds uid => (unregister_uds_uid pm uid).1
  | UnregUdsInstance i => (unregister_uds_instance pm i).1
  | RegVsock cid i => match register_vsock_cid pm cid i with Ok pm' => pm' | Err _ => pm end
  | UnregVsock cid => (unregister_vsock_cid pm cid).1
  | UnregVsockInstance i => (unregister_vsock_instance pm i).1
  | Reload path raw => (reload_vsock_map_from_file pm path raw).1
  | MapVm provisioned i => (register_vsock_mapping pm provisioned i).1
  end.

Lemma unregister_vsock_instance_wf pm i : map_wf pm → map_wf (unregister_vsock_instance pm i).1.
Proof. intros Hwf. unfold unregister_vsock_instance. case_match; [by apply unregister_vsock_wf|done]. Qed.

Lemma apply_op_wf pm op : map_wf pm → map_wf (apply_op pm op).
Proof.
  intros Hwf. destruct op as [uid i|uid|i|cid i|cid|i|path raw|provisioned i]; cbn [apply_op].
  - destruct (register_uds_uid pm uid i) eqn:Hr; [|done]. by eapply register_uds_wf.
  - by apply unregister_uds_wf.
  - unfold unregister_uds_instance. case_match; [by apply unregister_uds_wf|done].
  - destruct (register_vsock_cid pm cid i) eqn:Hr; [|done]. by eapply register_vsock_wf.
  - by apply unregister_vsock_wf.
  - by apply unregister_vsock_instance_wf.
  - by apply reload_wf.
  - unfold register_vsock_mapping. destruct provisioned as [cid|]; [|done]. destruct (cid =? 0); [done|].
    assert (Hwf' : map_wf (unregister_vsock_instance (unregister_vsock_cid pm cid).1 i).1)
      by by apply unregister_vsock_instance_wf, unregister_vsock_wf.
    destruct (register_vsock_cid _ cid i) eqn:Hr; [|done]. by eapply register_vsock_wf.
Qed.

Lemma run_ops_wf ops : map_wf (foldl apply_op peer_map_new ops).
Proof.
  assert (Hgen : ∀ pm, map_wf pm → map_wf (foldl apply_op pm ops)); [|apply Hgen, map_wf_new].
  induction ops as [|op ops IH]; intros pm Hwf; [done|]. by apply IH, apply_op_wf.
Qed.

(** ** Who an authenticated request speaks for *)

Lemma authenticate_request_Ok r q c :
  authenticate_request (Some r) q = Ok c →
  ∃ id, ac_peer_identity c = Some id ∧
    header (aq_metadata q) "x-agent-instance-id" = Some (sp_instance_id id) ∧
    match ac_transport_kind c with
    | Mtls => ∃ uri, aq_mtls q = Some (Some uri) ∧ parse_spiffe uri = Ok id
    | Vsock => ∃ cid, aq_vsock q = Some (Some cid) ∧
        vsock_cid_to_instance (re_peer_map r) !! cid = Some (sp_instance_id id)
    | Uds => ∃ uid, aq_uds q = Some (Some uid) ∧
        uds_uid_to_instance (re_peer_map r) !! uid = Some (sp_instance_id id)
    | UnknownTransport => False
    end.
Proof.
  unfold authenticate_request. intros (peer & Hp & Ha)%bind_Ok. unfold authenticate_agent in Ha.
  apply bind_Ok in Ha as (agent & _ & Ha). destruct peer as [[id kind]|]; [|done].
  apply bind_Ok in Ha as (claimed & Hclaimed%ok_or_Ok & Ha). case_decide as Heq; [|done].
  injection Ha as <-. subst claimed. exists id. split; [done|]. split; [done|]. cbn [ac_transport_kind].
  unfold peer_identity_for_request in Hp.
  destruct (aq_mtls q) as [san|]; [|destruct (aq_vsock q) as [addr|]; [|destruct (aq_uds q) as [cred|]; [|done]]].
  - apply bind_Ok in Hp as (uri & ->%ok_or_Ok & Hp). apply bind_Ok in Hp as (id' & Hid & [= <- <-]).
    apply map_err_Ok in Hid. eauto.
  - apply bind_Ok in Hp as (cid & ->%ok_or_Ok & Hp). apply bind_Ok in Hp as (id' & Hid & [= <- <-]).
    apply map_err_Ok, bind_Ok in Hid as (i & Hi%ok_or_Ok & [_ ->]%for_agent_Ok). eauto.
  - apply bind_Ok in Hp as (uid & ->%ok_or_Ok & Hp). apply bind_Ok in Hp as (id' & Hid & [= <- <-]).
    apply map_err_Ok, bind_Ok in Hid as (i & Hi%ok_or_Ok & [_ ->]%for_agent_Ok). eauto.
Qed.


(** after any changes to the peer map each instance has at most one user
    and at most one CID, CID 0 has none, and removing an instance removes
    exactly its entry, in whatever order the hash map is searched. *)
Theorem peer_map_one_to_one ops i :
  let pm := foldl apply_op peer_map_new ops in
  map_wf pm ∧
  (∀ uid, uds_uid_to_instance (unregister_uds_instance pm i).1 !! uid =
     if decide (uds_uid_to_instance pm !! uid = Some i) then None else uds_uid_to_instance pm !! uid) ∧
  (∀ cid, vsock_cid_to_instance (unregister_vsock_instance pm i).1 !! cid =
     if decide (vsock_cid_to_instance pm !! cid = Some i) then None else vsock_cid_to_instance pm !! cid).
Proof.
  intros pm. pose proof (run_ops_wf ops) as Hwf. fold pm in Hwf. split; [done|]. destruct Hwf as [Hu Hv _].
  split; intros k.
  - unfold unregister_uds_instance. destruct (find_peer _ i) as [uid|] eqn:Hf; simpl.
    + apply find_peer_exact in Hf; [|done]. case_decide as Hd.
      * by rewrite (peers_injective _ Hu k uid i Hd Hf), lookup_delete_eq.
      * rewrite lookup_delete_ne; [done|]. by intros ->.
    + case_decide as Hd; [|done]. by apply find_peer_exact in Hd; [|done]; congruence.
  - unfold unregister_vsock_instance. destruct (find_peer _ i) as [uid|] eqn:Hf; simpl.
    + apply find_peer_exact in Hf; [|done]. case_decide as Hd.
      * by rewrite (peers_injective _ Hv k uid i Hd Hf), lookup_delete_eq.
      * rewrite lookup_delete_ne; [done|]. by intros ->.
    + case_decide as Hd; [|done]. by apply find_peer_exact in Hd; [|done]; congruence.
Qed.

End ordered.

(** The trust domain of a certificate is not compared with the resolver's. *)
Lemma foreign_trust_domain_accepted (laws : uuid_text_laws _) r d i agent :
  trust_domain_new d = Ok d → uuid_parses i = true →
  let q := {| aq_metadata := [("x-agent-id", Some agent); ("x-agent-instance-id", Some i)];
              aq_mtls := Some (Some ("spiffe://" +:+ d +:+ AGENT_PATH_PREFIX +:+ i)); aq_vsock := None; aq_uds := None |} in
  ∃ id, authenticate_request (Some r) q =
    Ok {| ac_agent_id := agent; ac_peer_identity := Some id; ac_transport_kind := Mtls |} ∧
    sp_instance_id id = i ∧ sp_trust_domain id = d.
Proof.
  intros Hd Hu q. set (id := {| sp_uri := "spiffe://" +:+ d +:+ AGENT_PATH_PREFIX +:+ i; sp_trust_domain := d; sp_instance_id := i |}).
  exists id. split; [|done]. unfold authenticate_request, peer_identity_for_request, mtls_peer_identity, peer_identity.
  cbn [aq_mtls q ok_or mbind result_bind].
  assert (Hp : parse_spiffe ("spiffe://" +:+ d +:+ AGENT_PATH_PREFIX +:+ i) = Ok id).
  { apply (spiffe_parse_text laws). split; [|done]. split; [done|]. by apply for_agent_Ok. }
  rewrite Hp. unfold authenticate_agent. simpl. by rewrite decide_True.
Qed.

End spiffe.

(** ** Samples *)

(** UUIDs here are the texts of 36 characters without a slash. *)
#[local] Instance sample_uuid : UuidText :=
  {| uuid_parses s := (str_len s =? 36) && negb (contains_char s "/"%char) |}.
#[local] Instance sample_order : PeerOrder :=
  {| peer_iter := map_to_list; peer_iter_perm m := Permutation_refl _ |}.

Lemma sample_uuid_laws : uuid_text_laws sample_uuid.
Proof. split; [done|]. intros s. simpl. destruct (contains_char s _); [by rewrite andb_false_r|done]. Qed.

Definition sample_instance : string := "018fb9f1-3291-7a73-b261-c7de8a2af4d1".

Lemma spiffe_roundtrip_witness :
  parse_spiffe ("spiffe://a.local/agent/" +:+ sample_instance) =
    Ok {| sp_uri := "spiffe://a.local/agent/" +:+ sample_instance; sp_trust_domain := "a.local"; sp_instance_id := sample_instance |} ↔
  spiffe_wf {| sp_uri := "spiffe://a.local/agent/" +:+ sample_instance; sp_trust_domain := "a.local"; sp_instance_id := sample_instance |} ∧
  "spiffe://a.local/agent/" +:+ sample_instance = "spiffe://a.local/agent/" +:+ sample_instance.
Proof. refine (spiffe_roundtrip sample_uuid_laws _ _). Defined.

Definition sample_uds_request : AgentRequest :=
  {| aq_metadata := [("x-agent-id", Some "agent-01"); ("x-agent-instance-id", Some sample_instance)];
     aq_mtls := None; aq_vsock := None; aq_uds := Some (Some 1001) |}.

