(* ===== verification/AgentPlane.v ===== *)
(** * The agents' control streams

    Models management/src/registry.rs (the connected agents), heartbeat.rs (the
    reaper of stale ones), the control stream of management/src/grpc.rs
    (connecting, every message of an agent, the clean-up of a stream that
    ends) and the instance registry of agentic-sandbox-executor/src/instance.rs,
    over the identities of [TransportIdentity] and the [Dispatcher].

    A channel to an agent is the number of the stream that made it.  Floating
    point metrics are carried as their bits.  The notifications of
    http/events.rs are not modelled.  Each method of the registry takes a lock
    of its own, so the clean-up of a stream and the reaper's treatment of one
    agent are also given in pieces ([stream_cleanup_begin] and [stream_cleanup_finish],
    [reap_verdict] and [reap_act]) for runs in which others act in between. *)

From Stdlib Require Import Ascii.
From S2P Require Import Prelude Text Http Json FlowGraph TaskStore Idempotency Extensions TransportIdentity Dispatcher.

Local Open Scope string_scope.
Local Open Scope list_scope.
Local Open Scope Z_scope.

Definition HEARTBEAT_TIMEOUT_SECS : Z := 60.
Definition STALE_CLEANUP_SECS : Z := 300.

(** [n as u64] of an [i64], [n as u32] of an [i32] *)
Definition as_u64 (n : Z) : Z := n mod (u64_max + 1).
Definition as_u32 (n : Z) : Z := n mod (u32_max + 1).

(** ** Data *)

Record AgentMetrics : Type := {
  cpu_percent : Z;
  memory_used_bytes : Z;
  memory_total_bytes : Z;
  disk_used_bytes : Z;
  disk_total_bytes : Z;
  load_avg : list Z;
  uptime_seconds : Z;
}.

Definition default_metrics : AgentMetrics :=
  {| cpu_percent := 0; memory_used_bytes := 0; memory_total_bytes := 0; disk_used_bytes := 0;
     disk_total_bytes := 0; load_avg := []; uptime_seconds := 0 |}.

Record AgentSystemInfo : Type := {
  si_os : string;
  si_kernel : string;
  si_cpu_cores : Z;
  si_memory_bytes : Z;
  si_disk_bytes : Z;
}.

Record AiwgFrameworkInfo : Type := { fw_name : string; fw_providers : list string }.

Inductive TransportPostureKind : Type :=
| PostureMtls | PostureUds | PostureVsock | BootstrapPending | PlaintextDev | PostureUnknown.

Record AgentTransportPosture : Type := {
  po_kind : TransportPostureKind;
  po_transport : string;
  po_posture : string;
  po_label : string;
}.

Definition from_agent_transport (kind : AgentTransportKind) : AgentTransportPosture :=
  match kind with
  | UnknownTransport => {| po_kind := PostureUnknown; po_transport := "unknown"; po_posture := "unknown"; po_label := "Missing transport evidence" |}
  | Uds => {| po_kind := PostureUds; po_transport := "uds"; po_posture := "local"; po_label := "Unix domain socket" |}
  | Vsock => {| po_kind := PostureVsock; po_transport := "vsock"; po_posture := "local"; po_label := "AF_VSOCK" |}
  | Mtls => {| po_kind := PostureMtls; po_transport := "mtls"; po_posture := "secure"; po_label := "mTLS" |}
  end.

Inductive AgentStatus : Type :=
| StUnknown | StStarting | StReady | StBusy | StError | StShuttingDown | StStale | StDisconnected | StProvisioning.
#[export] Instance AgentStatus_eq_dec : EqDecision AgentStatus.
Proof. solve_decision. Defined.

(** [AgentStatus::try_from(n).unwrap_or(Unknown)] *)
Definition status_of (n : Z) : AgentStatus :=
  match n with
  | 1 => StStarting | 2 => StReady | 3 => StBusy | 4 => StError | 5 => StShuttingDown
  | 6 => StStale | 7 => StDisconnected | 8 => StProvisioning | _ => StUnknown
  end.

(** The registration message of an agent. *)
Record AgentRegistration : Type := {
  rg_agent_id : string;
  rg_ip_address : string;
  rg_hostname : string;
  rg_profile : string;
  rg_loadout : string;
  rg_system : option AgentSystemInfo;
  rg_frameworks : list AiwgFrameworkInfo;
  rg_instance_id : string;
}.

Record ConnectedAgent : Type := {
  ca_agent_id : string;
  ca_instance_id : string;
  ca_registration : AgentRegistration;
  ca_status : AgentStatus;
  ca_connected_at : Z;
  ca_last_heartbeat : Z;
  ca_command_tx : Z;
  ca_metrics : option AgentMetrics;
  ca_system_info : option AgentSystemInfo;
  ca_setup_status : string;
  ca_setup_progress_json : string;
  ca_frameworks : list AiwgFrameworkInfo;
  ca_transport_kind : AgentTransportKind;
}.

Record AgentSummary : Type := {
  as_id : string;
  as_instance_id : string;
  as_registration : AgentRegistration;
  as_status : AgentStatus;
  as_setup_status : string;
  as_setup_progress_json : string;
  as_connected_at : Z;
  as_last_heartbeat : Z;
  as_metrics : option AgentMetrics;
  as_system_info : option AgentSystemInfo;
  as_frameworks : list AiwgFrameworkInfo;
  as_transport_kind : AgentTransportKind;
}.

(** Events for AIWG. *)
Inductive AgentEvent : Type :=
| AgentConnected (agent_id hostname ip_address loadout instance_id : string)
| NoSessions (agent_id : string)
| AgentDisconnected (agent_id : string)
| AgentReady (agent_id : string)
| AgentProvisioning (agent_id step progress_json : string).

Abbreviation Agents := (gmap string ConnectedAgent).

(** ** The registry *)

Definition connected_agent (now : Z) (fresh : string) (reg : AgentRegistration) (tx : Z) : ConnectedAgent :=
  {| ca_agent_id := rg_agent_id reg;
     ca_instance_id := if decide (rg_instance_id reg = EmptyString) then fresh else rg_instance_id reg;
     ca_registration := reg; ca_status := StStarting; ca_connected_at := now; ca_last_heartbeat := now;
     ca_command_tx := tx; ca_metrics := None;
     ca_system_info := (λ s, {| si_os := si_os s; si_kernel := si_kernel s; si_cpu_cores := as_u32 (si_cpu_cores s);
       si_memory_bytes := as_u64 (si_memory_bytes s); si_disk_bytes := as_u64 (si_disk_bytes s) |}) <$> rg_system reg;
     ca_setup_status := EmptyString; ca_setup_progress_json := EmptyString;
     ca_frameworks := rg_frameworks reg; ca_transport_kind := UnknownTransport |}.

Section registry.
Context `{MapIter}.
Variable aiwg : bool.
Implicit Types (agents : Agents) (now : Z) (agent_id : string).

Definition when_aiwg (events : list AgentEvent) : list AgentEvent := if aiwg then events else [].

Definition register_with_transport now (fresh : string) agents (reg : AgentRegistration) (tx : Z)
    (kind : AgentTransportKind) : Agents * list AgentEvent :=
  let agent_id := rg_agent_id reg in
  let agents := if decide (is_Some (agents !! agent_id)) then delete agent_id agents else agents in
  let agent := (connected_agent now fresh reg tx) <| ca_transport_kind := kind |> in
  (<[agent_id := agent]> agents,
   when_aiwg [AgentConnected agent_id (rg_hostname reg) (rg_ip_address reg) (rg_loadout reg) (ca_instance_id agent);
              NoSessions agent_id]).

Definition unregister agents agent_id : Agents * list AgentEvent :=
  match agents !! agent_id with
  | Some _ => (delete agent_id agents, when_aiwg [AgentDisconnected agent_id])
  | None => (agents, [])
  end.

Definition heartbeat now agents agent_id (status cpu mem uptime : Z) (setup_status setup_progress_json : string)
    : Agents * list AgentEvent * bool :=
  match agents !! agent_id with
  | None => (agents, [], false)
  | Some agent =>
      let new_status := status_of status in
      let metrics := default default_metrics (ca_metrics agent) in
      let agent' := agent <| ca_last_heartbeat := now |> <| ca_status := new_status |>
        <| ca_metrics := Some (metrics <| cpu_percent := cpu |> <| memory_used_bytes := mem |> <| uptime_seconds := uptime |>) |>
        <| ca_setup_status := if decide (setup_status = EmptyString) then ca_setup_status agent else setup_status |>
        <| ca_setup_progress_json := if decide (setup_progress_json = EmptyString) then ca_setup_progress_json agent
             else setup_progress_json |> in
      let became_ready := negb (bool_decide (ca_status agent = StReady)) && bool_decide (new_status = StReady) in
      let setup_changed := negb (bool_decide (setup_status = EmptyString)) && negb (bool_decide (ca_setup_status agent = setup_status)) in
      (<[agent_id := agent']> agents,
       when_aiwg ((if became_ready then [AgentReady agent_id] else []) ++
         (if setup_changed && negb (bool_decide (setup_progress_json = EmptyString))
          then [AgentProvisioning agent_id setup_status setup_progress_json] else [])),
       became_ready)
  end.

(** [m] is the metrics message; its uptime is not reported there. *)
Definition update_metrics agents agent_id (m : AgentMetrics) : Agents :=
  match agents !! agent_id with
  | None => agents
  | Some agent =>
      <[agent_id := agent <| ca_metrics := Some {| cpu_percent := cpu_percent m;
          memory_used_bytes := as_u64 (memory_used_bytes m); memory_total_bytes := as_u64 (memory_total_bytes m);
          disk_used_bytes := as_u64 (disk_used_bytes m); disk_total_bytes := as_u64 (disk_total_bytes m);
          load_avg := load_avg m; uptime_seconds := from_option uptime_seconds 0 (ca_metrics agent) |} |>]> agents
  end.

Definition get_by_instance_id agents (instance_id : string) : option (string * Z) :=
  (λ kv, (ca_agent_id kv.2, ca_command_tx kv.2)) <$>
    find_first (λ kv, bool_decide (ca_instance_id kv.2 = instance_id)) (iter agents).

Definition list_agents agents : list AgentSummary :=
  (λ kv : string * ConnectedAgent, let a := kv.2 in
    {| as_id := ca_agent_id a; as_instance_id := ca_instance_id a; as_registration := ca_registration a;
       as_status := ca_status a; as_setup_status := ca_setup_status a;
       as_setup_progress_json := ca_setup_progress_json a; as_connected_at := ca_connected_at a / 1000000;
       as_last_heartbeat := ca_last_heartbeat a / 1000000; as_metrics := ca_metrics a;
       as_system_info := ca_system_info a; as_frameworks := ca_frameworks a;
       as_transport_kind := ca_transport_kind a |}) <$> iter agents.

Definition command_sender_matches agents agent_id (tx : Z) : bool :=
  match agents !! agent_id with Some a => bool_decide (ca_command_tx a = tx) | None => false end.

(** [is_open tx]: the receiver of the channel is alive. *)
Definition is_stream_connected (is_open : Z → bool) agents agent_id : bool :=
  match agents !! agent_id with Some a => is_open (ca_command_tx a) | None => false end.

(** [send_command], with the stream the message went to. *)
Definition send_command (is_open : Z → bool) agents agent_id : option Z :=
  a ← agents !! agent_id;
  if is_open (ca_command_tx a) then Some (ca_command_tx a) else None.

Definition mark_stale agents agent_id : Agents * bool :=
  match agents !! agent_id with
  | Some a =>
      if negb (bool_decide (ca_status a = StStale)) && negb (bool_decide (ca_status a = StDisconnected))
      then (<[agent_id := a <| ca_status := StStale |>]> agents, true) else (agents, false)
  | None => (agents, false)
  end.

Definition mark_disconnected agents agent_id : Agents * bool :=
  match agents !! agent_id with
  | Some a =>
      if negb (bool_decide (ca_status a = StDisconnected))
      then (<[agent_id := a <| ca_status := StDisconnected |>]> agents, true) else (agents, false)
  | None => (agents, false)
  end.

(** [Duration::num_seconds] *)
Definition num_seconds (d : Z) : Z := Z.quot d 1000000000.

Definition age now (a : ConnectedAgent) : Z := now - ca_last_heartbeat a.

Definition get_stale_agents now agents (timeout_secs : Z) : list (string * Z) :=
  omap (λ kv : string * ConnectedAgent,
    if seconds timeout_secs <? age now kv.2 then Some (ca_agent_id kv.2, num_seconds (age now kv.2)) else None)
    (iter agents).

Definition get_disconnected_agents agents : list string :=
  omap (λ kv : string * ConnectedAgent,
    if bool_decide (ca_status kv.2 = StDisconnected) then Some (ca_agent_id kv.2) else None) (iter agents).

Definition is_agent_alive now agents agent_id (timeout_secs : Z) : bool :=
  match agents !! agent_id with Some a => num_seconds (age now a) <=? timeout_secs | None => false end.

(** ** The heartbeat monitor *)

Record HeartbeatMonitorConfig : Type := {
  stale_timeout_secs : Z;
  disconnect_timeout_secs : Z;
  cleanup_timeout_secs : Z;
}.

Definition default_monitor : HeartbeatMonitorConfig :=
  {| stale_timeout_secs := HEARTBEAT_TIMEOUT_SECS; disconnect_timeout_secs := 120;
     cleanup_timeout_secs := STALE_CLEANUP_SECS |}.

Inductive Verdict : Type := KeepStale | Remove | Disconnect | MarkStale.
#[export] Instance Verdict_eq_dec : EqDecision Verdict.
Proof. solve_decision. Defined.

(** What to do with an agent whose heartbeat is [age_secs] old; the stream is
    looked at here. *)
Definition reap_verdict (cfg : HeartbeatMonitorConfig) (is_open : Z → bool) agents agent_id (age_secs : Z) : Verdict :=
  if (disconnect_timeout_secs cfg <=? age_secs) && is_stream_connected is_open agents agent_id then KeepStale
  else if cleanup_timeout_secs cfg <=? age_secs then Remove
  else if disconnect_timeout_secs cfg <=? age_secs then Disconnect
  else MarkStale.

Definition reap_act agents agent_id (v : Verdict) : Agents * list AgentEvent :=
  match v with
  | KeepStale | MarkStale => ((mark_stale agents agent_id).1, [])
  | Remove => unregister agents agent_id
  | Disconnect => ((mark_disconnected agents agent_id).1, [])
  end.

Definition reap_one (cfg : HeartbeatMonitorConfig) (is_open : Z → bool) (acc : Agents * list AgentEvent)
    (stale : string * Z) : Agents * list AgentEvent :=
  let '(agents, events) := reap_act acc.1 stale.1 (reap_verdict cfg is_open acc.1 stale.1 stale.2) in
  (agents, acc.2 ++ events).

Definition check_agents (cfg : HeartbeatMonitorConfig) (is_open : Z → bool) now agents : Agents * list AgentEvent :=
  foldl (reap_one cfg is_open) (agents, []) (get_stale_agents now agents (stale_timeout_secs cfg)).

End registry.

(** ** Reaping, agent by agent *)

(** Every agent is filed under its own id. *)
Definition keyed (agents : Agents) : Prop := ∀ id a, agents !! id = Some a → ca_agent_id a = id.

(** What one pass does to an agent: [None] when it is removed. *)
Definition reaped (cfg : HeartbeatMonitorConfig) (is_open : Z → bool) (now : Z) (a : ConnectedAgent)
    : option ConnectedAgent :=
  let stale := if decide (ca_status a = StDisconnected) then a else a <| ca_status := StStale |> in
  let age_secs := num_seconds (age now a) in
  if age now a <=? seconds (stale_timeout_secs cfg) then Some a
  else if (disconnect_timeout_secs cfg <=? age_secs) && is_open (ca_command_tx a) then Some stale
  else if cleanup_timeout_secs cfg <=? age_secs then None
  else if disconnect_timeout_secs cfg <=? age_secs then Some (a <| ca_status := StDisconnected |>)
  else Some stale.

Lemma status_id (a : ConnectedAgent) s : ca_status a = s → a <| ca_status := s |> = a.
Proof. intros <-. by destruct a. Qed.

Section reaping.
Context `{MapIter}.
Variable aiwg : bool.
Variable cfg : HeartbeatMonitorConfig.
Variable is_open : Z → bool.
Implicit Types (agents : Agents) (now : Z).

Lemma mark_stale_lookup agents id a id' :
  agents !! id = Some a →
  (mark_stale agents id).1 !! id' =
  if decide (id = id') then Some (if decide (ca_status a = StDisconnected) then a else a <| ca_status := StStale |>)
  else agents !! id'.
Proof.
  intros Ha. unfold mark_stale. rewrite Ha. case_decide as Hid.
  - subst id'. case_decide as Hd.
    + rewrite (bool_decide_eq_true_2 (ca_status a = StDisconnected)) by done. by rewrite andb_false_r.
    + rewrite (bool_decide_eq_false_2 (ca_status a = StDisconnected)) by done. rewrite andb_true_r.
      case_bool_decide as Hs; cbn [negb fst]; [by rewrite Ha, status_id|by rewrite lookup_insert_eq].
  - case_match; simpl; [by rewrite lookup_insert_ne|done].
Qed.

Lemma mark_disconnected_lookup agents id a id' :
  agents !! id = Some a →
  (mark_disconnected agents id).1 !! id' =
  if decide (id = id') then Some (a <| ca_status := StDisconnected |>) else agents !! id'.
Proof.
  intros Ha. unfold mark_disconnected. rewrite Ha. case_decide as Hid.
  - subst id'. case_bool_decide as Hs; cbn [negb fst]; [by rewrite Ha, status_id|by rewrite lookup_insert_eq].
  - case_match; simpl; [by rewrite lookup_insert_ne|done].
Qed.

(** One agent of the pass. *)
Lemma reap_one_lookup now agents events id a id' :
  agents !! id = Some a → seconds (stale_timeout_secs cfg) < age now a →
  (reap_one aiwg cfg is_open (agents, events) (id, num_seconds (age now a))).1 !! id' =
  if decide (id = id') then reaped cfg is_open now a else agents !! id'.
Proof.
  intros Ha Hage. unfold reap_one, reap_verdict, is_stream_connected, reaped. cbn [fst snd]. rewrite Ha.
  rewrite (proj2 (Z.leb_gt (age now a) _)) by lia.
  destruct ((_ <=? _) && is_open _); [by cbn; apply mark_stale_lookup|].
  destruct (cleanup_timeout_secs cfg <=? _); cbn [reap_act].
  { unfold unregister. rewrite Ha. cbn [fst]. case_decide as Hid; [subst; apply lookup_delete_eq|by apply lookup_delete_ne]. }
  destruct (disconnect_timeout_secs cfg <=? _); cbn [reap_act fst snd];
    [by apply mark_disconnected_lookup|by apply mark_stale_lookup].
Qed.

Lemma stale_agents_spec now agents :
  keyed agents →
  NoDup (get_stale_agents now agents (stale_timeout_secs cfg)).*1 ∧
  ∀ id s, (id, s) ∈ get_stale_agents now agents (stale_timeout_secs cfg) ↔
    ∃ a, agents !! id = Some a ∧ seconds (stale_timeout_secs cfg) < age now a ∧ s = num_seconds (age now a).
Proof.
  intros Hk. unfold get_stale_agents. split.
  - assert (Hsub : ∀ l : list (string * ConnectedAgent), (∀ kv, kv ∈ l → ca_agent_id kv.2 = kv.1) → NoDup l.*1 →
      NoDup (omap (λ kv : string * ConnectedAgent, if seconds (stale_timeout_secs cfg) <? age now kv.2
        then Some (ca_agent_id kv.2, num_seconds (age now kv.2)) else None) l).*1).
    { induction l as [|[k a] l IH]; [by intros; constructor|]. rewrite fmap_cons, NoDup_cons. intros Hkey [Hnin Hnd].
      assert (Hrest : ∀ kv, kv ∈ l → ca_agent_id kv.2 = kv.1) by (intros kv Hkv; apply Hkey; by right).
      cbn [omap list_omap snd]. destruct (_ <? _); [|by apply IH]. rewrite fmap_cons, NoDup_cons. split; [|by apply IH].
      pose proof (Hkey (k, a) ltac:(by left)) as Hka. cbn [fst snd] in Hka. cbn [fst snd]. rewrite Hka. intros ([k' s'] & -> & Hin)%list_elem_of_fmap.
      apply list_elem_of_omap in Hin as ([k'' a''] & Hin'' & Heq). destruct (_ <? _); [|done].
      injection Heq as Heq _. apply Hnin. apply list_elem_of_fmap. exists (k'', a''). split; [|done].
      pose proof (Hrest _ Hin''). simpl in *. congruence. }
    apply Hsub.
    + intros [k a] Hin. rewrite iter_perm in Hin. apply elem_of_map_to_list in Hin. by apply Hk.
    + rewrite iter_perm. apply NoDup_fst_map_to_list.
  - intros id s. rewrite list_elem_of_omap. split.
    + intros ([k a] & Hin & Heq). rewrite iter_perm in Hin. apply elem_of_map_to_list in Hin.
      cbn [snd] in Heq. destruct (Z.ltb_spec (seconds (stale_timeout_secs cfg)) (age now a)); [|done].
      injection Heq as <- <-. exists a. by rewrite (Hk _ _ Hin).
    + intros (a & Ha & Hage & ->). exists (id, a). rewrite iter_perm. split; [by apply elem_of_map_to_list|].
      cbn [snd]. rewrite (proj2 (Z.ltb_lt _ _)) by done. by rewrite (Hk _ _ Ha).
Qed.

Lemma reap_fold now stale agents events :
  NoDup stale.*1 →
  (∀ id s, (id, s) ∈ stale → ∃ a, agents !! id = Some a ∧ seconds (stale_timeout_secs cfg) < age now a ∧
     s = num_seconds (age now a)) →
  ∀ id, (foldl (reap_one aiwg cfg is_open) (agents, events) stale).1 !! id =
    if decide (id ∈ stale.*1) then agents !! id ≫= reaped cfg is_open now else agents !! id.
Proof.
  revert agents events. induction stale as [|[k s] stale IH]; intros agents events Hnd Hst id.
  { cbn. by rewrite decide_False by apply not_elem_of_nil. }
  rewrite fmap_cons, NoDup_cons in Hnd. destruct Hnd as [Hnin Hnd]. cbn [foldl fst] in *.
  destruct (Hst k s) as (a & Ha & Hage & ->); [by left|].
  pose proof (λ i, reap_one_lookup now agents events k a i Ha Hage) as Hone.
  destruct (reap_one _ _ _ _ _) as [agents1 events1]. cbn [fst] in Hone. rewrite IH; [|done|].
  - rewrite fmap_cons, Hone. cbn [fst]. destruct (decide (k = id)) as [<-|Hne].
    + rewrite decide_False by done. rewrite decide_True by by left. by rewrite Ha.
    + destruct (decide (id ∈ stale.*1)) as [Hin|Hin]; [by rewrite decide_True by by right|].
      rewrite decide_False; [done|]. by intros [|]%elem_of_cons.
  - intros i s' Hin. destruct (Hst i s') as (a' & Ha' & H' & ->); [by right|]. exists a'. split; [|done].
    rewrite Hone, decide_False; [done|]. intros ->. apply Hnin. apply list_elem_of_fmap. by exists (i, num_seconds (age now a')).
Qed.


End reaping.

(** ** Streams and instances *)

(** A control stream: the agent id it was opened under, its transport, whether
    its clean-up has run, and whether the agent still reads it. *)
Record Stream : Type := {
  st_agent_id : string;
  st_kind : AgentTransportKind;
  st_cleaned : bool;
  st_open : bool;
}.

Record Plane : Type := {
  pl_agents : Agents;
  pl_streams : gmap Z Stream;
  pl_dispatcher : Dispatcher;
  pl_instances : option (gmap string InstanceContext);
  pl_aiwg : bool;
}.

Inductive ServerMessage : Type :=
| RegistrationAck
| SessionQuery
| SessionReconcile (keep kill : list string) (kill_unrecognized : bool).

Inductive OutputKind : Type := OutStdout | OutStderr | OutLog.

Inductive PlaneEffect : Type :=
| FxDispatcher (e : Dispatcher.Effect)
| FxAiwg (e : AgentEvent)
| FxTo (stream : Z) (m : ServerMessage)
| FxOutput (agent_id stream_id : string) (kind : OutputKind) (data : string)
| FxMetrics (agent_id : string) (m : AgentMetrics)
| FxBridge (agent_id instance_id loadout : string)
| FxStartup (agent_id instance_id loadout : string).

Inductive AgentPayload : Type :=
| PRegistration (reg : AgentRegistration)
| PHeartbeat (status cpu mem uptime : Z) (setup_status setup_progress_json : string)
| PStdout (stream_id data : string)
| PStderr (stream_id data : string)
| PLog (stream_id data : string)
| PCommandResult (result : CommandResult)
| PMetrics (m : AgentMetrics)
| PSessionReport (sessions : list ActiveSession)
| PSessionReconcileAck (killed kept failed : list string)
| PEmpty.

Definition is_open (p : Plane) (tx : Z) : bool :=
  match pl_streams p !! tx with Some s => st_open s | None => false end.

(** The dispatcher's view of the agents; [sessions] is the session registry's. *)
Definition link_of (p : Plane) (sessions : string → bool) : Link :=
  {| connected id := bool_decide (is_Some (pl_agents p !! id));
     accepts id _ := bool_decide (is_Some (send_command (is_open p) (pl_agents p) id));
     registered := sessions |}.

(** [classify_registered_runtime] *)
Definition classify_registered_runtime (agent_id loadout : string) : RuntimeKind :=
  if starts_with agent_id "host-" then Host
  else if decide (loadout = EmptyString) then Container else Vm.

(** [tx.send(..).await?] of a list of messages, up to the first that fails. *)
Definition send_all (p : Plane) (tx : Z) (ms : list ServerMessage) : list PlaneEffect :=
  if is_open p tx then FxTo tx <$> ms else [].

Section plane.
Context `{UuidText, MapIter}.
(** [vm_runtime_context_metadata]: the provider and capabilities of a VM, from
    its files. *)
Variable vm_metadata : string → option string * list string.
Implicit Types (p : Plane) (now : Z) (agent_id : string).

(** [connect]: the stream's number is fresh. *)
Definition connect p (resolver : option AgentTransportIdentityResolver) (q : AgentRequest) (sid : Z)
    : Plane * result string unit :=
  match authenticate_request resolver q with
  | Err e => (p, Err e)
  | Ok auth =>
      (p <| pl_streams ::= <[sid := {| st_agent_id := ac_agent_id auth; st_kind := ac_transport_kind auth;
              st_cleaned := false; st_open := true |}]> |>, Ok ())
  end.

(** [bridge_register_instance], run by a task of its own; [keys]: the signing
    key of the instance could be read or made. *)
Definition bridge_register_instance p agent_id (instance_id loadout : string) (keys : bool) : Plane :=
  match pl_instances p with
  | None => p
  | Some insts =>
      match insts !! instance_id with
      | Some _ => p
      | None =>
          if keys then
            let kind := classify_registered_runtime agent_id loadout in
            let '(provider, capabilities) := match kind with Vm => vm_metadata agent_id | _ => (None, []) end in
            let ctx := {| inst_id := instance_id; inst_runtime_kind := kind; inst_host := "executor.local";
              inst_runtime_provider := match provider with
                | Some v => if trim_is_empty v then None else Some v | None => None end;
              inst_runtime_capabilities := capabilities; inst_ready := true |} in
            p <| pl_instances := Some (<[instance_id := ctx]> insts) |>
          else p
      end
  end.

Definition mark_registered_instance_ready p (instance_id : string) : Plane :=
  p <| pl_instances ::= fmap (alter (λ c, c <| inst_ready := true |>) instance_id) |>.

Definition handle_registration now (fresh : string) p (sid : Z) agent_id (kind : AgentTransportKind)
    (reg : AgentRegistration) : Plane * list PlaneEffect :=
  let '(agents, events) := register_with_transport (pl_aiwg p) now fresh (pl_agents p) reg sid kind in
  let p := p <| pl_agents := agents |> in
  let bridge := match pl_instances p, pl_agents p !! agent_id with
    | Some _, Some a => [FxBridge agent_id (ca_instance_id a) (rg_loadout reg)]
    | _, _ => []
    end in
  (p, (FxAiwg <$> events) ++ bridge ++ send_all p sid [RegistrationAck; SessionQuery]).

Definition handle_heartbeat now p agent_id (status cpu mem uptime : Z) (setup_status setup_progress_json : string)
    : Plane * list PlaneEffect :=
  let '(agents, events, became_ready) := heartbeat (pl_aiwg p) now (pl_agents p) agent_id status cpu
    (as_u64 mem) (as_u64 uptime) setup_status setup_progress_json in
  let p := p <| pl_agents := agents |> in
  match became_ready, pl_agents p !! agent_id with
  | true, Some a =>
      (mark_registered_instance_ready p (ca_instance_id a),
       (FxAiwg <$> events) ++ [FxStartup agent_id (ca_instance_id a) (rg_loadout (ca_registration a))])
  | _, _ => (p, FxAiwg <$> events)
  end.

Definition handle_agent_message now (fresh : string) (sessions : string → bool) p (sid : Z) agent_id
    (kind : AgentTransportKind) (msg : AgentPayload) : Plane * list PlaneEffect :=
  match msg with
  | PRegistration reg => handle_registration now fresh p sid agent_id kind reg
  | PHeartbeat status cpu mem uptime setup_status setup_json =>
      handle_heartbeat now p agent_id status cpu mem uptime setup_status setup_json
  | PStdout stream_id data =>
      let '(effects, broadcast) := handle_output (pl_dispatcher p) Stdout stream_id data in
      (p, (FxDispatcher <$> effects) ++ if broadcast then [FxOutput agent_id stream_id OutStdout data] else [])
  | PStderr stream_id data =>
      let '(effects, broadcast) := handle_output (pl_dispatcher p) Stderr stream_id data in
      (p, (FxDispatcher <$> effects) ++ if broadcast then [FxOutput agent_id stream_id OutStderr data] else [])
  | PLog stream_id data => (p, [FxOutput agent_id stream_id OutLog data])
  | PCommandResult result =>
      let '(d, effects) := handle_result (pl_dispatcher p) result in
      (p <| pl_dispatcher := d |>, FxDispatcher <$> effects)
  | PMetrics m => (p <| pl_agents ::= λ agents, update_metrics agents agent_id m |>, [FxMetrics agent_id m])
  | PSessionReport reported =>
      let '(d, effects, (keep, kill, kill_unrecognized)) :=
        session_report now (link_of p sessions) (pl_dispatcher p) agent_id reported in
      let p := p <| pl_dispatcher := d |> in
      (p, (FxDispatcher <$> effects) ++ send_all p sid [SessionReconcile keep kill kill_unrecognized])
  | PSessionReconcileAck killed kept failed =>
      (p <| pl_dispatcher ::= λ d, handle_reconcile_ack d agent_id killed |>, [])
  | PEmpty => (p, [])
  end.

(** ** The end of a stream *)

(** [cleanup] up to the check that the registry still holds this stream. *)
Definition stream_cleanup_begin p (sid : Z) : Plane * option string :=
  match pl_streams p !! sid with
  | None => (p, None)
  | Some s =>
      if st_cleaned s then (p, None)
      else
        let p := p <| pl_streams ::= <[sid := s <| st_cleaned := true |>]> |> in
        if command_sender_matches (pl_agents p) (st_agent_id s) sid then (p, Some (st_agent_id s)) else (p, None)
  end.

Definition cleanup_disconnected_agent_context p agent_id : Plane * list PlaneEffect :=
  let removed_instance_id := ca_instance_id <$> pl_agents p !! agent_id in
  let '(agents, events) := unregister (pl_aiwg p) (pl_agents p) agent_id in
  let p := p <| pl_agents := agents |> in
  (match removed_instance_id, pl_instances p with
   | Some instance_id, Some insts =>
       match insts !! instance_id with
       | None => p
       | Some ctx =>
           match inst_runtime_kind ctx with
           | Vm | Host => p <| pl_instances := Some (<[instance_id := ctx <| inst_ready := false |>]> insts) |>
           | Container => p <| pl_instances := Some (delete instance_id insts) |>
           end
       end
   | _, _ => p
   end, FxAiwg <$> events).

(** The rest of [cleanup], for the agent the check admitted. *)
Definition stream_cleanup_finish now p agent_id : Plane * list PlaneEffect :=
  let '(d, effects) := cleanup_agent now (pl_dispatcher p) agent_id in
  let '(p, events) := cleanup_disconnected_agent_context (p <| pl_dispatcher := d |>) agent_id in
  (p, (FxDispatcher <$> effects) ++ events).

Definition stream_cleanup now p (sid : Z) : Plane * list PlaneEffect :=
  match stream_cleanup_begin p sid with
  | (p, None) => (p, [])
  | (p, Some agent_id) => stream_cleanup_finish now p agent_id
  end.

(** The agent stops reading: the receiver of the channel is dropped. *)
Definition close_stream p (sid : Z) : Plane :=
  p <| pl_streams ::= alter (λ s, s <| st_open := false |>) sid |>.

End plane.

(** ** What the plane guarantees *)

Section guarantees.
Context `{UuidText, MapIter}.
Variable vm_metadata : string → option string * list string.
Implicit Types (p : Plane) (now : Z) (agent_id : string).

(** What can happen next.  A clean-up may be finished, and a verdict of the
    reaper carried out, at any later time; other components use the dispatcher. *)
Inductive plane_step : Plane → Plane → Prop :=
| ps_connect p resolver q sid :
    pl_streams p !! sid = None → plane_step p (connect p resolver q sid).1
| ps_message p now fresh sessions sid s msg :
    pl_streams p !! sid = Some s →
    plane_step p (handle_agent_message now fresh sessions p sid (st_agent_id s) (st_kind s) msg).1
| ps_bridge p agent_id instance_id loadout keys :
    plane_step p (bridge_register_instance vm_metadata p agent_id instance_id loadout keys)
| ps_cleanup_begin p sid : plane_step p (stream_cleanup_begin p sid).1
| ps_cleanup_finish p now agent_id : plane_step p (stream_cleanup_finish now p agent_id).1
| ps_close p sid : plane_step p (close_stream p sid)
| ps_reap p agent_id v : plane_step p (p <| pl_agents := (reap_act (pl_aiwg p) (pl_agents p) agent_id v).1 |>)
| ps_dispatcher p d : plane_step p (p <| pl_dispatcher := d |>).

Definition plane_start (d : Dispatcher) (aiwg executor : bool) : Plane :=
  {| pl_agents := ∅; pl_streams := ∅; pl_dispatcher := d; pl_instances := if executor then Some ∅ else None;
     pl_aiwg := aiwg |}.

Definition agent_ok (streams : gmap Z Stream) (id : string) (a : ConnectedAgent) : Prop :=
  ca_agent_id a = id ∧ rg_agent_id (ca_registration a) = id ∧ is_Some (streams !! ca_command_tx a).

Record plane_ok p : Prop := {
  ok_agents : map_Forall (agent_ok (pl_streams p)) (pl_agents p);
  ok_instances insts : pl_instances p = Some insts → map_Forall (λ i c, inst_id c = i) insts;
}.

Lemma agents_ok_weaken streams streams' (agents : Agents) :
  (∀ k, is_Some (streams !! k) → is_Some (streams' !! k)) →
  map_Forall (agent_ok streams) agents → map_Forall (agent_ok streams') agents.
Proof. intros Hsub Hall id a Ha. destruct (Hall id a Ha) as (? & ? & ?). repeat split; auto. Qed.

Lemma agents_ok_insert streams (agents : Agents) id a :
  map_Forall (agent_ok streams) agents → agent_ok streams id a → map_Forall (agent_ok streams) (<[id := a]> agents).
Proof. intros. by apply map_Forall_insert_2. Qed.

(** A change of an agent that keeps who it is and its stream. *)
Lemma agents_ok_update streams (agents : Agents) id a f :
  map_Forall (agent_ok streams) agents → agents !! id = Some a →
  ca_agent_id (f a) = ca_agent_id a → ca_registration (f a) = ca_registration a → ca_command_tx (f a) = ca_command_tx a →
  map_Forall (agent_ok streams) (<[id := f a]> agents).
Proof.
  intros Hall Ha H1 H2 H3. apply agents_ok_insert; [done|]. destruct (Hall id a Ha) as (? & ? & ?).
  unfold agent_ok. by rewrite H1, H2, H3.
Qed.

Lemma unregister_ok streams aiwg (agents : Agents) id :
  map_Forall (agent_ok streams) agents → map_Forall (agent_ok streams) (unregister aiwg agents id).1.
Proof. intros Hall. unfold unregister. case_match; [by apply map_Forall_delete|done]. Qed.

Lemma reap_act_ok streams aiwg (agents : Agents) id v :
  map_Forall (agent_ok streams) agents → map_Forall (agent_ok streams) (reap_act aiwg agents id v).1.
Proof.
  intros Hall. destruct v; cbn [reap_act fst]; [| by apply unregister_ok | |].
  all: unfold mark_stale, mark_disconnected; destruct (agents !! id) as [a|] eqn:Ha; [|done];
    case_match; cbn [fst]; [|done].
  all: by eapply (agents_ok_update _ _ _ a (λ a, a <| ca_status := _ |>)).
Qed.

Lemma register_ok streams aiwg now fresh (agents : Agents) reg sid kind :
  map_Forall (agent_ok streams) agents → is_Some (streams !! sid) →
  map_Forall (agent_ok streams) (register_with_transport aiwg now fresh agents reg sid kind).1.
Proof.
  intros Hall Hs. unfold register_with_transport. cbn [fst]. apply agents_ok_insert; [|done].
  case_decide; [by apply map_Forall_delete|done].
Qed.

Lemma heartbeat_ok streams aiwg now (agents : Agents) id status cpu mem uptime s j :
  map_Forall (agent_ok streams) agents →
  map_Forall (agent_ok streams) (heartbeat aiwg now agents id status cpu mem uptime s j).1.1.
Proof.
  intros Hall. unfold heartbeat. destruct (agents !! id) as [a|] eqn:Ha; [|done]. cbn [fst].
  apply agents_ok_insert; [done|]. by destruct (Hall id a Ha).
Qed.

Lemma alter_instances_ok (insts : gmap string InstanceContext) f i :
  (∀ c, inst_id (f c) = inst_id c) → map_Forall (λ i c, inst_id c = i) insts →
  map_Forall (λ i c, inst_id c = i) (alter f i insts).
Proof.
  intros Hf Hall j c. rewrite lookup_alter. case_decide; [|apply Hall]. subst.
  destruct (insts !! j) as [c'|] eqn:Hj; [|done]. intros [= <-]. rewrite Hf. by apply Hall.
Qed.

Lemma message_ok p now fresh sessions sid s msg :
  plane_ok p → pl_streams p !! sid = Some s →
  plane_ok (handle_agent_message now fresh sessions p sid (st_agent_id s) (st_kind s) msg).1.
Proof.
  intros [Ha Hi] Hs. destruct msg as [reg|status cpu mem uptime ss sj| | | |r|m|reported|k1 k2 k3|]; cbn [handle_agent_message].
  - unfold handle_registration. destruct (register_with_transport _ _ _ _ _ _ _) as [agents events] eqn:Hr.
    cbn [fst]. split; [|done]. change agents with ((agents, events).1). rewrite <-Hr. by apply register_ok.
  - unfold handle_heartbeat. destruct (heartbeat _ _ _ _ _ _ _ _ _ _) as [[agents events] ready] eqn:Hh.
    assert (Hok : map_Forall (agent_ok (pl_streams p)) agents)
      by (change agents with ((agents, events, ready).1.1); rewrite <-Hh; by apply heartbeat_ok).
    destruct ready; [|by split]. simpl. destruct (agents !! st_agent_id s); [|by split].
    split; [done|]. simpl. destruct (pl_instances p) as [insts|]; [|done]. intros ? [= <-].
    apply alter_instances_ok; [done|]. by apply Hi.
  - by destruct (handle_output _ _ _ _).
  - by destruct (handle_output _ _ _ _).
  - done.
  - by destruct (handle_result _ _).
  - split; [|done]. cbn. unfold update_metrics. destruct (pl_agents p !! _) as [a|] eqn:Hl; [|done].
    apply agents_ok_insert; [done|]. by destruct (Ha _ a Hl).
  - by destruct (session_report _ _ _ _ _) as [[d effects] [[? ?] ?]].
  - done.
  - done.
Qed.

Lemma context_ok p agent_id : plane_ok p → plane_ok (cleanup_disconnected_agent_context p agent_id).1.
Proof.
  intros [Ha Hi]. unfold cleanup_disconnected_agent_context.
  destruct (unregister _ _ _) as [agents events] eqn:Hu.
  assert (Hok : map_Forall (agent_ok (pl_streams p)) agents)
    by (change agents with ((agents, events).1); rewrite <-Hu; by apply unregister_ok).
  cbn [fst]. destruct (ca_instance_id <$> _) as [i|]; [|by split]. simpl.
  destruct (pl_instances p) as [insts|] eqn:Hp; [|by split].
  specialize (Hi insts eq_refl). destruct (insts !! i) as [ctx|] eqn:Hc; [|split; [done|]; simpl; by intros ? [= <-]].
  destruct (inst_runtime_kind ctx); (split; [done|]); simpl; intros ? [= <-].
  1, 3: apply map_Forall_insert_2; [exact (Hi i ctx Hc)|done].
  by apply map_Forall_delete.
Qed.

Lemma plane_step_ok p p' : plane_ok p → plane_step p p' → plane_ok p'.
Proof.
  intros Hok Hstep. pose proof Hok as [Ha Hi].
  destruct Hstep as [p resolver q sid Hf|p now fresh sessions sid s msg Hs|p agent i loadout keys|p sid|p now agent|p sid|p agent v|p d].
  - unfold connect. destruct (authenticate_request resolver q); [|done]. split; [|done]. simpl.
    eapply agents_ok_weaken; [|done]. intros k Hk. rewrite lookup_insert_is_Some. destruct (decide (sid = k)); eauto.
  - by apply message_ok.
  - unfold bridge_register_instance. destruct (pl_instances p) as [insts|] eqn:Hp; [|done].
    destruct (insts !! i); [done|]. destruct keys; [|done]. destruct (match _ with Vm => _ | _ => _ end).
    split; [done|]. simpl. intros ? [= <-]. apply map_Forall_insert_2; [done|by apply Hi].
  - unfold stream_cleanup_begin. destruct (pl_streams p !! sid) as [s|] eqn:Hs; [|done]. destruct (st_cleaned s); [done|].
    assert (Hok' : plane_ok (p <| pl_streams ::= <[sid := s <| st_cleaned := true |>]> |>)).
    { split; [|done]. simpl. eapply agents_ok_weaken; [|done]. intros k Hk. rewrite lookup_insert_is_Some.
      destruct (decide (sid = k)); eauto. }
    by case_match.
  - unfold stream_cleanup_finish. destruct (cleanup_agent _ _ _) as [d effects].
    pose proof (context_ok (p <| pl_dispatcher := d |>) agent ltac:(by split)) as Hc. by destruct (cleanup_disconnected_agent_context _ _).
  - split; [|done]. simpl. eapply agents_ok_weaken; [|done]. intros k Hk. rewrite lookup_alter. case_decide; [subst; by apply fmap_is_Some|done].
  - split; [|done]. simpl. by apply reap_act_ok.
  - by split.
Qed.

(** under any interleaving every agent is filed under the id it registered
    with, holds a stream that was accepted, and every instance context is filed
    under its own id.  So the monitor's pass ([reaper_exact]) always applies. *)
Theorem plane_consistent d aiwg executor p :
  rtc plane_step (plane_start d aiwg executor) p → plane_ok p ∧ keyed (pl_agents p).
Proof.
  intros Hr. assert (Hok : plane_ok p).
  { revert Hr. apply (rtc_ind_r (λ q, plane_ok q)).
    - split; [done|]. simpl. destruct executor; [|done]. intros ? [= <-]. apply map_Forall_empty.
    - intros q q' _ Hstep IH. by eapply plane_step_ok. }
  split; [done|]. intros id a Ha. by destruct (ok_agents _ Hok id a Ha).
Qed.

(** The instance contexts once the agent of [i] has gone. *)
Definition without_agent (insts : gmap string InstanceContext) (i : string) : gmap string InstanceContext :=
  partial_alter (λ c, c ← c; match inst_runtime_kind c with
    | Container => None | Vm | Host => Some (c <| inst_ready := false |>) end) i insts.

Lemma context_exact p agent_id a :
  pl_agents p !! agent_id = Some a →
  let p' := (cleanup_disconnected_agent_context p agent_id).1 in
  pl_agents p' = delete agent_id (pl_agents p) ∧ pl_dispatcher p' = pl_dispatcher p ∧
  pl_streams p' = pl_streams p ∧
  pl_instances p' = (λ insts, without_agent insts (ca_instance_id a)) <$> pl_instances p.
Proof.
  intros Ha. unfold cleanup_disconnected_agent_context, unregister, without_agent. rewrite Ha. simpl.
  destruct (pl_instances p) as [insts|]; simpl; [|done].
  destruct (insts !! ca_instance_id a) as [c|] eqn:Hc; simpl.
  - destruct (inst_runtime_kind c) eqn:Hk; simpl; repeat split; f_equal; apply map_eq; intros j;
      rewrite lookup_partial_alter; (case_decide; [subst j; rewrite Hc; simpl; rewrite Hk|]);
      rewrite ?lookup_insert_eq, ?lookup_delete_eq, ?lookup_insert_ne, ?lookup_delete_ne by done; done.
  - repeat split. f_equal. apply map_eq. intros j. rewrite lookup_partial_alter. case_decide; [|done].
    subst j. by rewrite Hc.
Qed.

Lemma stream_end_lemma now p sid s :
  pl_streams p !! sid = Some s →
  let p' := (stream_cleanup now p sid).1 in
  if negb (st_cleaned s) && command_sender_matches (pl_agents p) (st_agent_id s) sid then
    ∃ a, pl_agents p !! st_agent_id s = Some a ∧ ca_command_tx a = sid ∧
      pl_agents p' = delete (st_agent_id s) (pl_agents p) ∧
      pending (pl_dispatcher p') = filter (λ kv, pd_agent_id kv.2 ≠ st_agent_id s) (pending (pl_dispatcher p)) ∧
      active_sessions (pl_dispatcher p') = delete (st_agent_id s) (active_sessions (pl_dispatcher p)) ∧
      pl_instances p' = (λ insts, without_agent insts (ca_instance_id a)) <$> pl_instances p
  else pl_agents p' = pl_agents p ∧ pl_dispatcher p' = pl_dispatcher p ∧ pl_instances p' = pl_instances p.
Proof.
  intros Hs. unfold stream_cleanup, stream_cleanup_begin. rewrite Hs. destruct (st_cleaned s); [done|]. cbn [negb andb].
  change (pl_agents (p <| pl_streams ::= _ |>)) with (pl_agents p).
  destruct (command_sender_matches _ _ _) eqn:Hm; [|done].
  unfold command_sender_matches in Hm. destruct (pl_agents p !! st_agent_id s) as [a|] eqn:Ha; [|done].
  apply bool_decide_eq_true in Hm. exists a. split; [done|]. split; [done|]. unfold stream_cleanup_finish.
  destruct (cleanup_agent _ _ _) as [d effects] eqn:Hd.
  destruct (cleanup_agent_spec _ _ _ _ _ Hd) as [Hp Hses].
  set (q := p <| pl_streams ::= _ |> <| pl_dispatcher := d |>).
  pose proof (context_exact q (st_agent_id s) a Ha) as (H1 & H2 & _ & H4).
  destruct (cleanup_disconnected_agent_context q (st_agent_id s)) as [p' events]. cbn [fst] in *.
  rewrite H1, H2, H4. done.
Qed.

(** the end of a control stream, exactly.  A stream the registry no longer
    holds for its agent ends without touching the agents, the dispatcher or the
    instances, and so does a stream whose clean-up has run.  Otherwise its agent
    is unregistered, its pending commands are taken from the dispatcher, the
    instance of a VM or of the host stays but is not ready, the instance of a
    container is removed, and every other agent and instance is as it was. *)
Theorem stream_end_exact now p sid s :
  pl_streams p !! sid = Some s →
  let p' := (stream_cleanup now p sid).1 in
  if negb (st_cleaned s) && command_sender_matches (pl_agents p) (st_agent_id s) sid then
    ∃ a, pl_agents p !! st_agent_id s = Some a ∧ ca_command_tx a = sid ∧
      pl_agents p' = delete (st_agent_id s) (pl_agents p) ∧
      pending (pl_dispatcher p') = filter (λ kv, pd_agent_id kv.2 ≠ st_agent_id s) (pending (pl_dispatcher p)) ∧
      active_sessions (pl_dispatcher p') = delete (st_agent_id s) (active_sessions (pl_dispatcher p)) ∧
      pl_instances p' = (λ insts, without_agent insts (ca_instance_id a)) <$> pl_instances p
  else pl_agents p' = pl_agents p ∧ pl_dispatcher p' = pl_dispatcher p ∧ pl_instances p' = pl_instances p.
Proof. apply stream_end_lemma. Qed.

(** the registration message is not bound to the identity of the stream.
    Whoever opened the stream [sid], and under whatever name, a registration it
    sends for [agent_id] puts that agent's commands on [sid], with the instance
    id the message claims; and when the names differ the end of the stream
    leaves the entry behind. *)
Theorem registration_not_bound_to_identity now fresh sessions p sid s reg :
  pl_streams p !! sid = Some s → st_open s = true →
  let p' := (handle_agent_message now fresh sessions p sid (st_agent_id s) (st_kind s) (PRegistration reg)).1 in
  send_command (is_open p') (pl_agents p') (rg_agent_id reg) = Some sid ∧
  (rg_instance_id reg ≠ EmptyString →
     ca_instance_id <$> pl_agents p' !! rg_agent_id reg = Some (rg_instance_id reg)) ∧
  (st_agent_id s ≠ rg_agent_id reg →
     send_command (is_open p') (pl_agents (stream_cleanup now p' sid).1) (rg_agent_id reg) = Some sid).
Proof.
  intros Hs Hopen p'. set (a := (connected_agent now fresh reg sid) <| ca_transport_kind := st_kind s |>).
  assert (Hag : pl_agents p' !! rg_agent_id reg = Some a)
    by apply lookup_insert_eq.
  assert (Hst : pl_streams p' = pl_streams p) by done.
  assert (Ho : is_open p' sid = true) by (unfold is_open; by rewrite Hst, Hs).
  unfold send_command. rewrite Hag. split; [by simpl; rewrite Ho|]. split.
  { intros Hne. simpl. by rewrite decide_False. }
  intros Hne. pose proof (stream_end_lemma now p' sid s ltac:(by rewrite Hst)) as Hend.
  destruct (negb _ && _).
  - destruct Hend as (a' & _ & _ & -> & _). rewrite lookup_delete_ne by done. rewrite Hag. by simpl; rewrite Ho.
  - destruct Hend as (-> & _). rewrite Hag. by simpl; rewrite Ho.
Qed.

(** A result is accepted from any stream: the agent the command was sent to is
    not compared with the one that answers. *)
Lemma result_of_another_agent_accepted now fresh sessions p sid s result :
  is_Some (pending (pl_dispatcher p) !! rs_command_id result) →
  FxDispatcher (Completed (rs_command_id result) result) ∈
    (handle_agent_message now fresh sessions p sid (st_agent_id s) (st_kind s) (PCommandResult result)).2.
Proof.
  intros Hp. cbn [handle_agent_message]. destruct (handle_result _ _) as [d effects] eqn:Hr. cbn [snd].
  apply list_elem_of_fmap. eexists. split; [done|]. exact (handle_result_completes _ _ _ _ Hp Hr).
Qed.

End guarantees.

(** ** Samples *)

#[local] Instance plane_uuid : UuidText :=
  {| uuid_parses s := (str_len s =? 36) && negb (contains_char s "/"%char) |}.
#[local] Existing Instance sample_iter.

Definition sample_registration (agent_id instance_id : string) : AgentRegistration :=
  {| rg_agent_id := agent_id; rg_ip_address := "10.0.0.2"; rg_hostname := agent_id; rg_profile := "basic";
     rg_loadout := EmptyString; rg_system := None; rg_frameworks := []; rg_instance_id := instance_id |}.

Definition sample_stream (agent_id : string) : Stream :=
  {| st_agent_id := agent_id; st_kind := Uds; st_cleaned := false; st_open := true |}.

(** Agents "a" and "b" on the streams 1 and 2, and a second stream of "a". *)
Definition sample_plane : Plane :=
  let p := (plane_start sample_dispatched true true)
    <| pl_streams := {[1 := sample_stream "a"; 2 := sample_stream "b"; 3 := sample_stream "a"]} |> in
  let p := (handle_agent_message 0 "i-0" (λ _, false) p 1 "a" Uds (PRegistration (sample_registration "a" "i-a"))).1 in
  let p := bridge_register_instance (λ _, (None, [])) p "a" "i-a" EmptyString true in
  (handle_agent_message 0 "i-0" (λ _, false) p 2 "b" Uds (PRegistration (sample_registration "b" "i-b"))).1.


Definition sample_ended_plane : Plane := (stream_cleanup 7 sample_plane 1).1.

Lemma stream_end_exact_witness :
  ∃ a, pl_agents sample_plane !! "a" = Some a ∧ ca_command_tx a = 1 ∧
    pl_agents sample_ended_plane = delete "a" (pl_agents sample_plane) ∧
    pending (pl_dispatcher sample_ended_plane) = filter (λ kv, pd_agent_id kv.2 ≠ "a") (pending (pl_dispatcher sample_plane)) ∧
    active_sessions (pl_dispatcher sample_ended_plane) = delete "a" (active_sessions (pl_dispatcher sample_plane)) ∧
    pl_instances sample_ended_plane = (λ insts, without_agent insts (ca_instance_id a)) <$> pl_instances sample_plane.
Proof. exact (stream_end_exact 7 sample_plane 1 (sample_stream "a") eq_refl). Defined.

Lemma plane_consistent_witness :
  let p := (connect (plane_start sample_dispatched true true) None
    {| aq_metadata := []; aq_mtls := None; aq_vsock := None; aq_uds := None |} 1).1 in
  plane_ok p ∧ keyed (pl_agents p).
Proof.
  exact (plane_consistent (λ _, (None, [])) sample_dispatched true true _
    (rtc_once _ _ (ps_connect (λ _, (None, [])) (plane_start sample_dispatched true true) None
      {| aq_metadata := []; aq_mtls := None; aq_vsock := None; aq_uds := None |} 1 eq_refl))).
Defined.

(** The agent on stream 2 takes the commands of "a". *)
Lemma registration_not_bound_to_identity_witness :
  let p' := (handle_agent_message 5 "i-0" (λ _, false) sample_plane 2 "b" Uds (PRegistration (sample_registration "a" "i-a"))).1 in
  send_command (is_open p') (pl_agents p') "a" = Some 2.
Proof.
  destruct (registration_not_bound_to_identity 5 "i-0" (λ _, false) sample_plane 2 (sample_stream "b")
    (sample_registration "a" "i-a") eq_refl eq_refl) as [Hs _]. exact Hs.
Defined.

(** The old stream of "a" ends; between the check and the rest of its clean-up
    the agent has registered again on stream 3, and is unregistered. *)
Lemma reconnect_lost_by_old_cleanup :
  let '(p, admitted) := stream_cleanup_begin sample_plane 1 in
  let p := (handle_agent_message 5 "i-0" (λ _, false) p 3 "a" Uds (PRegistration (sample_registration "a" "i-a"))).1 in
  admitted = Some "a" ∧ send_command (is_open p) (pl_agents p) "a" = Some 3 ∧
  send_command (is_open p) (pl_agents (stream_cleanup_finish 6 p "a").1) "a" = None.
Proof. vm_compute. done. Qed.

(** The monitor decides to remove "a", whose stream is closed; the agent
    registers again before it does, and is removed although its stream is open. *)
Lemma reconnect_lost_by_reaper :
  let p := close_stream sample_plane 1 in
  let v := reap_verdict default_monitor (is_open p) (pl_agents p) "a" 1000 in
  let p' := (handle_agent_message (seconds 1000) "i-0" (λ _, false) p 3 "a" Uds
    (PRegistration (sample_registration "a" "i-a"))).1 in
  v = Remove ∧ send_command (is_open p') (pl_agents p') "a" = Some 3 ∧
  send_command (is_open p') (reap_act true (pl_agents p') "a" v).1 "a" = None.
Proof. vm_compute. done. Qed.
