(* ===== verification/MessageDispatch.v ===== *)
(** * Messages forwarded to agents

    Models management/src/agent_message_dispatch.rs: how a message becomes a
    command for the agent of its instance, and the observer that turns the
    command's output into artifacts and its end into the task's outcome.  It
    joins [TaskHandlers] (whose send handler calls [dispatch_message]),
    [AgentPlane] (the registry), [Dispatcher] and [TaskStore].

    The observer handles one output at a time; between two of them anything may
    happen to the store. *)

From Stdlib Require Import Ascii.
From S2P Require Import Prelude Text Http Json FlowGraph TaskStore Idempotency PushPolicy Extensions TaskHandlers TransportIdentity CelldAuth Dispatcher AgentPlane.

Local Open Scope string_scope.
Local Open Scope list_scope.
Local Open Scope Z_scope.

Definition ADAPTER_COMMAND_URI : string := "https://agentic-sandbox.aiwg.io/extensions/adapter-command/v1".
Definition SANDBOX_AGENT_RUNNER : string := ".aiwg/ops/adapters/sandbox-agent-runner/runner.mjs".
Definition SANDBOX_AGENT_RUNNER_MODES : list string := ["plan"; "assess"].

Record DispatchCommand : Type := {
  dc_command : string;
  dc_args : list string;
  dc_working_dir : string;
  dc_env : gmap string string;
  dc_timeout_secs : Z;
}.

(** ** The command of a message *)

Definition push_line (out t : string) : string :=
  if decide (out = EmptyString) then t else out +:+ String.String "010"%char t.

Definition extract_text (body : json) : string :=
  match (json_get body "message" ≫= λ m, json_get m "parts") ≫= as_array with
  | None => EmptyString
  | Some parts => foldl (λ out p, match json_get p "text" ≫= as_str with
      | Some t => push_line out t
      | None => out end) EmptyString parts
  end.

Definition adapter_command_envelope (body : json) : option json :=
  match (json_get body "message" ≫= λ m, json_get m "metadata") ≫= λ m, json_get m ADAPTER_COMMAND_URI with
  | Some e => Some e
  | None => json_get body "metadata" ≫= λ m, json_get m ADAPTER_COMMAND_URI
  end.

Definition bad_adapter_command (message : string) : TaskHandlers.DispatchError :=
  DispatchFailed ("adapter-command/v1 rejected: " +:+ message).

Definition nul : ascii := "000"%char.

Definition validate_relative_path (path label : string) : result TaskHandlers.DispatchError unit :=
  if bool_decide (path = EmptyString) || starts_with path "/" || contains_char path "\"%char
     || existsb (λ part, bool_decide (part = "..")) (split_char "/"%char path) || contains_char path nul
  then Err (bad_adapter_command (label +:+ " is not allowed"))
  else if negb (starts_with path ".aiwg/ops/adapters/sandbox-agent-runner/") && negb (starts_with path ".aiwg/ops/runs/")
  then Err (bad_adapter_command (label +:+
    " must stay under .aiwg/ops/adapters/sandbox-agent-runner/ or .aiwg/ops/runs/"))
  else Ok ().

Definition validate_runner_command (command : list string) : result TaskHandlers.DispatchError unit :=
  match command with
  | [a; b; c; path] =>
      if negb (bool_decide (a = "node")) || negb (bool_decide (b = SANDBOX_AGENT_RUNNER)) || negb (bool_decide (c = "--request"))
      then Err (bad_adapter_command "unsupported sandbox-agent-runner command")
      else validate_relative_path path "request path"
  | _ => Err (bad_adapter_command "sandbox-agent-runner command must be: node <runner> --request <path>")
  end.

(** [iter().map(..).collect::<Result<_, _>>()] *)
Fixpoint command_strings (vs : list json) : result TaskHandlers.DispatchError (list string) :=
  match vs with
  | [] => Ok []
  | v :: vs =>
      s ← ok_or (as_str v) (bad_adapter_command "command entries must be strings");
      rest ← command_strings vs;
      Ok (s :: rest)
  end.

Definition str_field (obj : json_map) (key : string) : string := default EmptyString (map_get obj key ≫= as_str).

Definition build_adapter_command (envelope : json) (env : gmap string string)
    : result TaskHandlers.DispatchError DispatchCommand :=
  obj ← ok_or (as_object envelope) (bad_adapter_command "adapter-command/v1 metadata must be an object");
  let adapter := str_field obj "adapter" in
  let mode := str_field obj "mode" in
  if negb (bool_decide (adapter = "sandbox-agent-runner")) || negb (bool_decide (mode ∈ SANDBOX_AGENT_RUNNER_MODES))
  then Err (bad_adapter_command "only adapter=sandbox-agent-runner modes plan, assess are supported")
  else
    values ← ok_or (map_get obj "command" ≫= as_array) (bad_adapter_command "command must be an array of strings");
    line ← command_strings values;
    _ ← validate_runner_command line;
    timeout ← match map_get obj "timeout_seconds" ≫= json_u64 with
      | Some n => if (1 <=? n) && (n <=? 900) then Ok n
                  else Err (bad_adapter_command "timeout_seconds must be between 1 and 900")
      | None => Ok 300
      end;
    let working_dir := str_field obj "working_dir" in
    if contains_char working_dir nul then Err (bad_adapter_command "working_dir contains NUL")
    else
      let env := <["AIWG_A2A_ADAPTER_MODE" := mode]> (<["AIWG_A2A_ADAPTER" := adapter]> env) in
      match line with
      | command :: args => Ok {| dc_command := command; dc_args := args; dc_working_dir := working_dir; dc_env := env;
                                 dc_timeout_secs := timeout |}
      | [] => Err (bad_adapter_command EmptyString)
      end.

Definition message_env (text task_id instance_id : string) : gmap string string :=
  <["AIWG_MISSION_ID" := task_id]> (<["AIWG_A2A_INSTANCE_ID" := instance_id]>
    (<["AIWG_A2A_TASK_ID" := task_id]> {["AIWG_A2A_MESSAGE" := text]})).

(** The script is the text between the quotes of the source. *)
Definition echo_script : string :=
  "printf '%s\n' " +:+ String.String "034"%char ("$AIWG_A2A_MESSAGE" +:+ String.String "034"%char EmptyString).

Definition build_dispatch_command (message : json) (task_id instance_id : string)
    : result TaskHandlers.DispatchError DispatchCommand :=
  let text := extract_text message in
  if decide (text = EmptyString) then
    Err (DispatchFailed "A2A message has no text parts; this dispatch only forwards text")
  else
    let env := message_env text task_id instance_id in
    match adapter_command_envelope message with
    | None => Ok {| dc_command := "sh"; dc_args := ["-c"; echo_script]; dc_working_dir := EmptyString; dc_env := env;
                    dc_timeout_secs := 300 |}
    | Some envelope => build_adapter_command envelope env
    end.

(** ** The observer *)

Record Observer : Type := {
  ob_task_id : string;
  ob_command_id : string;
  ob_seq : Z;
  ob_evidence : list json;
}.

(** Zeros in front up to four characters: [{:04}]. *)
Definition pad4 (n : Z) : string :=
  let s := pretty n in
  match String.length s with
  | 1%nat => "000" +:+ s
  | 2%nat => "00" +:+ s
  | 3%nat => "0" +:+ s
  | _ => s
  end.

Definition stream_name (s : option StreamKind) : string :=
  match s with Some Stdout => "stdout" | Some Stderr => "stderr" | None => "unknown" end.

Definition artifact_id (task_id stream : string) (seq : Z) : string :=
  task_id +:+ "-" +:+ stream +:+ "-" +:+ pad4 seq.

(** [utf8_lossy]: [String::from_utf8_lossy]. *)
Section observer.
Context `{Env, AuthEnv}.
Variable utf8_lossy : string → string.
Implicit Types (s : TaskStore) (ob : Observer) (now : Z).

Definition output_evidence_ref (stream id task_id digest : string) (persisted : bool) : json :=
  let kind := if bool_decide (stream = "stdout") || bool_decide (stream = "stderr") then stream else "log" in
  if persisted then
    json_obj [("kind", JStr kind); ("availability", JStr "available");
      ("uri", JStr ("sandbox://tasks/" +:+ task_id +:+ "/artifacts/" +:+ id));
      ("digest", JStr digest); ("redaction_status", JStr "unknown")]
  else json_obj [("kind", JStr kind); ("availability", JStr "missing"); ("redaction_status", JStr "unknown")].

Definition chunk_digest (data : string) : string := "sha256:" +:+ hex_encode (sha256 data).

Definition chunk_artifact ob (stream : string) (seq : Z) (data : string) : json :=
  json_obj [("kind", JStr "output_chunk"); ("stream", JStr stream); ("data", JStr (utf8_lossy data));
    ("command_id", JStr (ob_command_id ob)); ("seq", JNum seq); ("mission_id", JStr (ob_task_id ob));
    ("task_id", JStr (ob_task_id ob)); ("digest", JStr (chunk_digest data)); ("redaction_status", JStr "unknown")].

(** An output that is not the last. *)
Definition observe_output now s ob (chunk : ExecOutput) : TaskStore * Observer :=
  if decide (eo_data chunk = EmptyString) then (s, ob)
  else
    let seq := sat_add u64_max (ob_seq ob) 1 in
    let stream := stream_name (eo_stream chunk) in
    let id := artifact_id (ob_task_id ob) stream seq in
    let '(s, saved) := append_artifact now s (ob_task_id ob) id (chunk_artifact ob stream seq (eo_data chunk)) in
    let persisted := match saved with Ok _ => true | Err _ => false end in
    (s, ob <| ob_seq := seq |> <| ob_evidence ::= λ ev, ev ++
          [output_evidence_ref stream id (ob_task_id ob) (chunk_digest (eo_data chunk)) persisted] |>).

(** What the last output says. *)
Definition chunk_outcome ob (chunk : ExecOutput) : TaskState * option FailKind * string :=
  if negb (bool_decide (eo_error chunk = EmptyString)) then (Task.Failed, Some Infrastructure, eo_error chunk)
  else if eo_exit_code chunk =? 0 then
    (Task.Completed, None, "command " +:+ ob_command_id ob +:+ " exited 0")
  else (Task.Failed, Some Application, "command " +:+ ob_command_id ob +:+ " exited " +:+ pretty (eo_exit_code chunk)).

Definition chunk_graph_state (chunk : ExecOutput) (state : TaskState) : string :=
  if negb (bool_decide (eo_error chunk = EmptyString)) && contains_str (to_ascii_lowercase (eo_error chunk)) "timed out"
  then "timed_out"
  else if bool_decide (state = Task.Completed) then "succeeded" else "failed".

(** The row the observer writes for the last output; [None] is a panic. *)
Definition finished_row now ob (chunk : ExecOutput) (row : TaskRow) : option TaskRow :=
  let '(state, fail_kind, summary) := chunk_outcome ob chunk in
  let no_error := bool_decide (eo_error chunk = EmptyString) in
  let exit := if no_error then json_obj [("status", JStr "code"); ("code", JNum (eo_exit_code chunk))]
    else json_obj [("status", JStr "unknown"); ("reason", JStr (eo_error chunk))] in
  metadata ← latest_event (t_metadata_json row)
    (terminal (chunk_graph_state chunk state) (t_created_at row) now exit (JArr (ob_evidence ob))
       (if no_error then None else Some summary));
  Some (row <| t_state := state |> <| t_fail_kind := fail_kind |>
    <| t_status_json := json_obj [("state", JStr (task_state_as_str state)); ("timestamp", JStr (rfc3339 now));
         ("mission_id", JStr (ob_task_id ob)); ("task_id", JStr (ob_task_id ob)); ("summary", JStr summary);
         ("exit_code", JNum (eo_exit_code chunk))] |>
    <| t_metadata_json := metadata |> <| t_updated_at := now |> <| t_terminal_at := Some now |>).

(** The last output: the task is read and written back; the loop ends. *)
Definition observe_complete now s ob (chunk : ExecOutput) : TaskStore :=
  match get_task s (ob_task_id ob) with
  | Ok (Some row) => match finished_row now ob chunk row with Some row => upsert_task s row | None => s end
  | _ => s
  end.

Definition disconnected_row now ob (row : TaskRow) : option TaskRow :=
  metadata ← latest_event (t_metadata_json row)
    (terminal "unknown" (t_created_at row) now
       (json_obj [("status", JStr "unknown"); ("reason", JStr "no durable process result")]) (JArr (ob_evidence ob))
       (Some "worker disconnected before durable terminal observation"));
  Some (row <| t_state := Task.Failed |> <| t_fail_kind := Some Infrastructure |>
    <| t_status_json := json_obj [("state", JStr "failed"); ("timestamp", JStr (rfc3339 now));
         ("summary", JStr "output channel closed before durable terminal observation");
         ("terminal_reason", JStr "worker_disconnect_unknown")] |>
    <| t_updated_at := now |> <| t_terminal_at := Some now |> <| t_metadata_json := metadata |>).

(** The channel closed without a last output. *)
Definition observe_closed now s ob : TaskStore :=
  match get_task s (ob_task_id ob) with
  | Ok (Some row) =>
      if task_is_terminal (t_state row) then s
      else match disconnected_row now ob row with Some row => upsert_task s row | None => s end
  | _ => s
  end.

(** The observer's task over everything its channel gives, each with the time
    it is handled at; [closed] is when the channel's end is seen. *)
Fixpoint run_observer (closed : Z) s ob (chunks : list (Z * ExecOutput)) : TaskStore :=
  match chunks with
  | [] => observe_closed closed s ob
  | (now, chunk) :: chunks =>
      if eo_complete chunk then observe_complete now s ob chunk
      else let '(s, ob) := observe_output now s ob chunk in run_observer closed s ob chunks
  end.

Definition new_observer (task_id command_id : string) : Observer :=
  {| ob_task_id := task_id; ob_command_id := command_id; ob_seq := 0; ob_evidence := [] |}.

(** ** The dispatch *)

Definition exec_error_text (e : Dispatcher.DispatchError) : string :=
  match e with
  | AgentNotFound a => "Agent not found: " +:+ a
  | SendFailed a => "Failed to send command to agent: " +:+ a
  | CommandNotFound c => "Command not found: " +:+ c
  end.

(** [command_id]: the fresh id; [link]: what the agents' channels accept. *)
Definition dispatch_message `{MapIter} now (link : Link) (agents : Agents) (d : Dispatcher)
    (command_id instance_id task_id : string) (message : json)
    : Dispatcher * list Effect * result TaskHandlers.DispatchError Observer :=
  match get_by_instance_id agents instance_id with
  | None => (d, [], Err (RuntimeUnavailable instance_id "no agent registered for this instance_id"))
  | Some (agent_id, _) =>
      match build_dispatch_command message task_id instance_id with
      | Err e => (d, [], Err e)
      | Ok c =>
          match dispatch now link d command_id agent_id (dc_command c) (dc_args c) (dc_working_dir c) (dc_env c)
                  (dc_timeout_secs c) with
          | (d, effects, Ok command_id) => (d, effects, Ok (new_observer task_id command_id))
          | (d, effects, Err (AgentNotFound _)) => (d, effects, Err (RuntimeUnavailable instance_id
              ("agent " +:+ agent_id +:+ " disappeared between lookup and dispatch")))
          | (d, effects, Err (SendFailed _)) => (d, effects, Err (RuntimeUnavailable instance_id
              ("send to agent " +:+ agent_id +:+ " failed: gRPC channel closed")))
          | (d, effects, Err e) => (d, effects, Err (DispatchFailed
              ("CommandDispatcher rejected the message: " +:+ exec_error_text e)))
          end
      end
  end.

End observer.

(** ** Artifact names *)

Lemma pad4_decimal n : 0 <= n → digits_from 0 (pad4 n) = Some n.
Proof.
  intros Hn. pose proof (digits_from_pretty (Z.to_N n)) as Hd.
  assert (pretty n = pretty (Z.to_N n)) as E by (destruct n; [done..|lia]).
  rewrite Z2N.id in Hd by done. unfold pad4. rewrite E. cbv zeta.
  assert (digits_from 0 (pretty (Z.to_N n)) = Some n) as Hp by (destruct (pretty (Z.to_N n)); done).
  by repeat case_match.
Qed.

Lemma artifact_id_inj t stream stream' seq seq' :
  0 <= seq → 0 <= seq' →
  artifact_id t (stream_name stream) seq = artifact_id t (stream_name stream') seq' → stream = stream' ∧ seq = seq'.
Proof.
  intros Hs Hs' Heq%append_inj_l%append_inj_l.
  assert (∀ a b, pad4 a = pad4 b → 0 <= a → 0 <= b → a = b) as Hinj.
  { intros a b Hab Ha Hb. apply (f_equal (digits_from 0)) in Hab. rewrite !pad4_decimal in Hab by done. by injection Hab. }
  destruct stream as [[]|], stream' as [[]|]; cbn in Heq; try discriminate Heq;
    (split; [done|]); by simplify_eq; apply Hinj.
Qed.

(** ** Commands *)

Lemma command_strings_Ok vs line : command_strings vs = Ok line → vs = JStr <$> line.
Proof.
  revert line. induction vs as [|v vs IH]; intros line; cbn [command_strings]; [by intros [= <-]|].
  intros (x & Hx%ok_or_Ok & Hr)%bind_Ok. apply bind_Ok in Hr as (rest & Hrest & [= <-]).
  destruct v; try done. injection Hx as ->. cbn. f_equal. by apply IH.
Qed.

(** A request path stays under the adapter's or the runs' directory. *)
Definition confined_path (path : string) : Prop :=
  (starts_with path ".aiwg/ops/adapters/sandbox-agent-runner/" = true ∨ starts_with path ".aiwg/ops/runs/" = true) ∧
  ¬ (".." ∈ split_char "/"%char path) ∧ contains_char path "\"%char = false ∧ contains_char path nul = false.

Lemma validate_relative_path_Ok path label : validate_relative_path path label = Ok () → confined_path path.
Proof.
  unfold validate_relative_path, confined_path. destruct (_ || _ || _ || _ || _) eqn:Hbad; [done|].
  destruct (_ && _) eqn:Hdir; [done|]. intros _. apply orb_false_iff in Hbad as [Hbad Hnul].
  apply orb_false_iff in Hbad as [Hbad Hup]. apply orb_false_iff in Hbad as [_ Hback]. split_and!; try done.
  - apply andb_false_iff in Hdir as [Hd|Hd]; apply negb_false_iff in Hd; auto.
  - intros Hin. apply not_true_iff_false in Hup. apply Hup. apply existsb_exists. exists "..".
    split; [by apply list_elem_of_In|done].
Qed.

Lemma validate_runner_Ok line :
  validate_runner_command line = Ok () → ∃ path, line = ["node"; SANDBOX_AGENT_RUNNER; "--request"; path] ∧ confined_path path.
Proof.
  destruct line as [|a [|b [|c [|path [|]]]]]; try done. cbn [validate_runner_command].
  destruct (_ || _ || _) eqn:Hb; [done|]. intros Hp%validate_relative_path_Ok. exists path. split; [|done].
  apply orb_false_iff in Hb as [Hb Hc]. apply orb_false_iff in Hb as [Ha Hb].
  by apply negb_false_iff, bool_decide_eq_true in Ha as ->, Hb as ->, Hc as ->.
Qed.

(** What a message can make an agent run. *)
Definition permitted_command (c : DispatchCommand) : Prop :=
  (dc_command c = "sh" ∧ dc_args c = ["-c"; echo_script]) ∨
  (∃ path, dc_command c = "node" ∧ dc_args c = [SANDBOX_AGENT_RUNNER; "--request"; path] ∧ confined_path path).

(** C22: what a message can make an agent run.  Whatever the message, the command
    is the fixed echo script or the adapter's runner on a request file under
    the adapter's or the runs' directory; it runs for at most fifteen minutes,
    and the message's text is in the environment only. *)
Theorem message_command_confined message task_id instance_id c :
  build_dispatch_command message task_id instance_id = Ok c →
  permitted_command c ∧ 1 <= dc_timeout_secs c <= 900 ∧
  dc_env c !! "AIWG_A2A_MESSAGE" = Some (extract_text message) ∧
  dc_env c !! "AIWG_A2A_TASK_ID" = Some task_id ∧ dc_env c !! "AIWG_A2A_INSTANCE_ID" = Some instance_id.
Proof.
  unfold build_dispatch_command. case_decide; [done|]. destruct (adapter_command_envelope message) as [env|].
  2: { intros [= <-]. split_and!; [by left|done..]. }
  intros (obj & _ & Hc)%bind_Ok. cbv zeta in Hc. destruct (_ || _); [done|].
  apply bind_Ok in Hc as (values & _ & Hc). apply bind_Ok in Hc as (line & _ & Hc).
  apply bind_Ok in Hc as ([] & Hline & Hc). apply bind_Ok in Hc as (timeout & Ht & Hc).
  apply validate_runner_Ok in Hline as (path & -> & Hpath). destruct (contains_char _ nul); [done|]. injection Hc as <-.
  assert (Htimeout : 1 <= timeout <= 900).
  { destruct (_ ≫= json_u64) as [n|]; [|injection Ht as <-; lia]. destruct (_ && _) eqn:Hn; [|done]. injection Ht as <-. lia. }
  split_and!; try (by apply Htimeout); [right; by exists path| |..]; cbn [dc_env]; unfold message_env; by simplify_map_eq.
Qed.

(** ** Outcomes *)

Section outcomes.
Context `{Env, AuthEnv}.
Variable utf8_lossy : string → string.
Hypothesis text_parses : json_text_parses _.
Implicit Types (s : TaskStore) (ob : Observer) (now : Z).
Abbreviation observe_output := (observe_output utf8_lossy).
Abbreviation run_observer := (run_observer utf8_lossy).

Lemma clean_get s t c :
  tasks s !! t = Some c → clean_columns c →
  ∃ row, get_task s t = Ok (Some row) ∧ t_task_id row = t ∧ graph_ok (t_metadata_json row) ∧
    tc_state c = task_state_as_str (t_state row) ∧ (task_is_terminal (t_state row) = true → is_Some (tc_terminal_at c)).
Proof using text_parses.
  intros Hc (st & k & v & m & Hs & Hk & Hv & Hm & Hg & Ht). unfold get_task, decode_opt. rewrite Hc.
  rewrite (row_to_task_encoded t c st k v m text_parses Hs Hk Hv Hm). eexists. split; [reflexivity|]. by cbn.
Qed.

(** The columns an upsert of the row leaves. *)
Definition columns_of (c : TaskColumns) (row : TaskRow) (c' : TaskColumns) : Prop :=
  tc_state c' = task_state_as_str (t_state row) ∧ tc_fail_kind c' = fail_kind_as_str <$> t_fail_kind row ∧
  is_Some (tc_terminal_at c') ∧ clean_columns c' ∧
  (∀ t, tc_terminal_at c = Some t → tc_terminal_at c' = Some t).

Lemma upsert_columns s t c row :
  tasks s !! t = Some c → t_task_id row = t → graph_ok (t_metadata_json row) → is_Some (t_terminal_at row) →
  ∃ c', tasks (upsert_task s row) !! t = Some c' ∧ columns_of c row c'.
Proof.
  intros Hc <- Hg [at_ Hat]. unfold upsert_task. cbn [tasks]. eexists. split; [apply lookup_insert_eq|].
  rewrite Hc. cbn [mbind option_bind]. unfold columns_of. cbn. unfold upsert_terminal_at. rewrite Hat.
  split_and!; [done..| | |].
  - by destruct (tc_terminal_at c).
  - exists (t_state row), (t_fail_kind row), (t_status_json row), (t_metadata_json row).
    split_and!; [done..|]. intros _. by destruct (tc_terminal_at c).
  - by intros t ->.
Qed.

Lemma finished_row_ok now ob chunk row :
  graph_ok (t_metadata_json row) →
  ∃ row', finished_row now ob chunk row = Some row' ∧ t_task_id row' = t_task_id row ∧ graph_ok (t_metadata_json row') ∧
    t_terminal_at row' = Some now ∧ t_state row' = (chunk_outcome ob chunk).1.1 ∧ t_fail_kind row' = (chunk_outcome ob chunk).1.2.
Proof.
  intros Hg. unfold finished_row. destruct (chunk_outcome ob chunk) as [[st fk] summary].
  edestruct (latest_event_ok (t_metadata_json row)) as (m & Hm & Hok); [done|]. rewrite Hm. cbn. eexists. split; [reflexivity|]. by cbn.
Qed.

Lemma disconnected_row_ok now ob row :
  graph_ok (t_metadata_json row) →
  ∃ row', disconnected_row now ob row = Some row' ∧ t_task_id row' = t_task_id row ∧ graph_ok (t_metadata_json row') ∧
    t_terminal_at row' = Some now ∧ t_state row' = Task.Failed ∧ t_fail_kind row' = Some Infrastructure.
Proof.
  intros Hg. unfold disconnected_row.
  edestruct (latest_event_ok (t_metadata_json row)) as (m & Hm & Hok); [done|]. rewrite Hm. cbn. eexists. split; [reflexivity|]. by cbn.
Qed.

Lemma observe_output_tasks now s ob chunk :
  tasks (observe_output now s ob chunk).1 = tasks s ∧
  ob_task_id (observe_output now s ob chunk).2 = ob_task_id ob ∧
  ob_command_id (observe_output now s ob chunk).2 = ob_command_id ob.
Proof.
  unfold MessageDispatch.observe_output. case_decide; [done|]. unfold append_artifact.
  repeat case_match; simplify_eq/=; done.
Qed.

(** The last output is written over whatever the task was. *)
Lemma complete_settles now s ob chunk c :
  tasks s !! ob_task_id ob = Some c → clean_columns c →
  ∃ c', tasks (observe_complete now s ob chunk) !! ob_task_id ob = Some c' ∧ clean_columns c' ∧ is_Some (tc_terminal_at c') ∧
    tc_state c' = task_state_as_str (chunk_outcome ob chunk).1.1 ∧
    tc_fail_kind c' = fail_kind_as_str <$> (chunk_outcome ob chunk).1.2 ∧
    (∀ t, tc_terminal_at c = Some t → tc_terminal_at c' = Some t).
Proof using text_parses.
  intros Hc Hcl. destruct (clean_get s _ c Hc Hcl) as (row & Hrow & Hid & Hg & Hst & Hterm). unfold observe_complete. rewrite Hrow.
  destruct (finished_row_ok now ob chunk row Hg) as (row' & -> & Hid' & Hg' & Hat & Hst' & Hfk).
  destruct (upsert_columns s (ob_task_id ob) c row' Hc ltac:(congruence) Hg' ltac:(by rewrite Hat)) as (c' & Hc' & Hs & Hf & Hi & Hcl' & Hk).
  exists c'. split_and!; try done; congruence.
Qed.

(** The first last output of the channel, if there is one. *)
Fixpoint last_output (chunks : list (Z * ExecOutput)) : option ExecOutput :=
  match chunks with
  | [] => None
  | (_, chunk) :: chunks => if eo_complete chunk then Some chunk else last_output chunks
  end.


(** a canceled task can come back as completed.  The observer writes the
    command's end without looking at the task's state: a task that was canceled
    while its command ran is completed or failed when the command ends, and
    keeps the time it was canceled at. *)
Theorem completion_overwrites_canceled_task now s ob chunk c t :
  tasks s !! ob_task_id ob = Some c → clean_columns c →
  tc_state c = task_state_as_str Task.Canceled → tc_terminal_at c = Some t →
  eo_error chunk = EmptyString → eo_exit_code chunk = 0 →
  ∃ c', tasks (observe_complete now s ob chunk) !! ob_task_id ob = Some c' ∧
    tc_state c' = task_state_as_str Task.Completed ∧ tc_terminal_at c' = Some t.
Proof using text_parses.
  intros Hc Hcl _ Ht Herr Hexit. destruct (complete_settles now s ob chunk c Hc Hcl) as (c' & Hc' & _ & _ & Hs & _ & Hk).
  exists c'. split_and!; [done| |by apply Hk]. rewrite Hs. unfold chunk_outcome. by rewrite Herr, Hexit.
Qed.

(** ** Artifacts *)

(** The outputs the observer stores: those before the last one that are not
    empty. *)
Fixpoint stored_outputs (chunks : list (Z * ExecOutput)) : list (Z * ExecOutput) :=
  match chunks with
  | [] => []
  | (now, chunk) :: chunks =>
      if eo_complete chunk then []
      else if decide (eo_data chunk = EmptyString) then stored_outputs chunks
      else (now, chunk) :: stored_outputs chunks
  end.

(** The artifact of an output with its number. *)
Definition output_columns ob (seq now : Z) (chunk : ExecOutput) : ArtifactColumns :=
  {| ac_task_id := ob_task_id ob;
     ac_artifact_json := json_text (chunk_artifact utf8_lossy ob (stream_name (eo_stream chunk)) seq (eo_data chunk));
     ac_created_at := now |}.

Lemma complete_artifacts now s ob chunk : task_artifacts (observe_complete now s ob chunk) = task_artifacts s.
Proof. unfold observe_complete. by repeat case_match. Qed.

Lemma closed_artifacts now s ob : task_artifacts (observe_closed now s ob) = task_artifacts s.
Proof. unfold observe_closed. by repeat case_match. Qed.

Lemma observe_output_artifacts now s ob chunk c :
  tasks s !! ob_task_id ob = Some c → eo_data chunk ≠ EmptyString → ob_seq ob + 1 <= u64_max →
  task_artifacts s !! artifact_id (ob_task_id ob) (stream_name (eo_stream chunk)) (ob_seq ob + 1) = None →
  task_artifacts (observe_output now s ob chunk).1 =
    <[artifact_id (ob_task_id ob) (stream_name (eo_stream chunk)) (ob_seq ob + 1) :=
      output_columns ob (ob_seq ob + 1) now chunk]> (task_artifacts s) ∧
  ob_seq (observe_output now s ob chunk).2 = ob_seq ob + 1.
Proof.
  intros Hc Hd Hq Hfresh. unfold MessageDispatch.observe_output. rewrite decide_False by done. cbv zeta.
  rewrite sat_add_small by done. unfold append_artifact. by rewrite Hfresh, Hc.
Qed.

Lemma output_columns_observer ob ob' seq now chunk :
  ob_task_id ob' = ob_task_id ob → ob_command_id ob' = ob_command_id ob →
  output_columns ob' seq now chunk = output_columns ob seq now chunk.
Proof. intros Ht Hc. unfold output_columns, chunk_artifact. by rewrite Ht, Hc. Qed.

(** The observer's outputs, from any point of its run. *)
Lemma outputs_kept_from closed s ob chunks c :
  tasks s !! ob_task_id ob = Some c → 0 <= ob_seq ob → ob_seq ob + Z.of_nat (length (stored_outputs chunks)) <= u64_max →
  (∀ stream seq, ob_seq ob < seq → task_artifacts s !! artifact_id (ob_task_id ob) (stream_name stream) seq = None) →
  task_artifacts s ⊆ task_artifacts (run_observer closed s ob chunks) ∧
  ∀ k now chunk, stored_outputs chunks !! k = Some (now, chunk) →
    task_artifacts (run_observer closed s ob chunks) !!
      artifact_id (ob_task_id ob) (stream_name (eo_stream chunk)) (ob_seq ob + Z.of_nat k + 1) =
    Some (output_columns ob (ob_seq ob + Z.of_nat k + 1) now chunk).
Proof.
  revert s ob. induction chunks as [|[now chunk] chunks IH]; intros s ob Hc Hq Hmax Hfresh;
    cbn [MessageDispatch.run_observer stored_outputs] in *; [by rewrite closed_artifacts|].
  destruct (eo_complete chunk); [by rewrite complete_artifacts|].
  destruct (observe_output_tasks now s ob chunk) as (Ht & Hid & Hcmd).
  destruct (decide (eo_data chunk = EmptyString)) as [Hd|Hd].
  { unfold MessageDispatch.observe_output. rewrite decide_True by done. by apply IH. }
  cbn [length] in Hmax.
  destruct (observe_output_artifacts now s ob chunk c Hc Hd ltac:(lia) (Hfresh _ (ob_seq ob + 1) ltac:(lia))) as [Ha Hseq].
  destruct (observe_output now s ob chunk) as [s' ob']. cbn [fst snd] in *.
  destruct (IH s' ob') as [Hsub Hall]; [congruence|lia|lia| |].
  { intros stream seq Hlt. rewrite Hid, Ha, lookup_insert_ne.
    - apply Hfresh. lia.
    - intros [_ Heq]%artifact_id_inj; lia. }
  rewrite Ha in Hsub. split.
  { etrans; [|exact Hsub]. apply insert_subseteq, Hfresh. lia. }
  intros [|k] now' chunk' Hk; cbn in Hk.
  - simplify_eq. rewrite Z.add_0_r. eapply lookup_weaken; [apply lookup_insert_eq|exact Hsub].
  - apply Hall in Hk. rewrite Hid, Hseq, (output_columns_observer ob ob') in Hk by done.
    by replace (ob_seq ob + Z.of_nat (S k) + 1) with (ob_seq ob + 1 + Z.of_nat k + 1) by lia.
Qed.

(** no output of a task's first command is lost.  Every output with data up
    to the command's end is stored as an artifact of the task, under its own
    number, with its stream, text and digest; earlier artifacts of the store
    are kept. *)
Theorem outputs_kept closed s task_id command_id chunks c :
  tasks s !! task_id = Some c → Z.of_nat (length (stored_outputs chunks)) <= u64_max →
  (∀ stream seq, task_artifacts s !! artifact_id task_id (stream_name stream) seq = None) →
  task_artifacts s ⊆ task_artifacts (run_observer closed s (new_observer task_id command_id) chunks) ∧
  ∀ k now chunk, stored_outputs chunks !! k = Some (now, chunk) →
    task_artifacts (run_observer closed s (new_observer task_id command_id) chunks) !!
      artifact_id task_id (stream_name (eo_stream chunk)) (Z.of_nat k + 1) =
    Some (output_columns (new_observer task_id command_id) (Z.of_nat k + 1) now chunk).
Proof.
  intros Hc Hmax Hfresh.
  apply (outputs_kept_from closed s (new_observer task_id command_id) chunks c); cbn; [done|lia|lia|by intros].
Qed.

(** output of a later command of the task is lost.  Every observer numbers
    from one, so an output whose stream and number an earlier command of the
    same task used is not stored: the store stays as it is, and the evidence
    says the output is missing. *)
Theorem later_output_lost now s ob chunk a :
  eo_data chunk ≠ EmptyString →
  task_artifacts s !! artifact_id (ob_task_id ob) (stream_name (eo_stream chunk)) (sat_add u64_max (ob_seq ob) 1) = Some a →
  (observe_output now s ob chunk).1 = s ∧
  ∃ missing, last (ob_evidence (observe_output now s ob chunk).2) = Some missing ∧
    json_get missing "availability" = Some (JStr "missing").
Proof.
  intros Hd Ha. unfold MessageDispatch.observe_output. rewrite decide_False by done. cbv zeta.
  unfold append_artifact. rewrite Ha. split; [done|]. cbn. rewrite last_snoc. by eexists.
Qed.

End outcomes.

(** ** From the message to the task's end *)

Section forwarding.
Context `{Env, AuthEnv, MapIter}.
Hypothesis text_parses : json_text_parses _.
Implicit Types (d : Dispatcher) (agents : Agents).

Definition command_request (command_id : string) (c : DispatchCommand) : CommandRequest :=
  {| cq_command_id := command_id; cq_command := dc_command c; cq_args := dc_args c; cq_working_dir := dc_working_dir c;
     cq_env := dc_env c; cq_timeout_seconds := dc_timeout_secs c; cq_capture_output := true; cq_allocate_pty := false;
     cq_pty_cols := 0; cq_pty_rows := 0; cq_pty_term := EmptyString; cq_session_id := EmptyString;
     cq_session_name := EmptyString |}.

(** a message reaches the agent of its instance and no other.  An accepted
    message sends one command, built from the message, to an agent registered
    for the instance, and waits for its result; a refused one sends nothing and
    leaves no command waiting. *)
Theorem message_reaches_instance_agent now link agents d command_id instance_id task_id message d' effects r :
  pending d !! command_id = None →
  dispatch_message now link agents d command_id instance_id task_id message = (d', effects, r) →
  match r with
  | Ok ob => ∃ key a c, agents !! key = Some a ∧ ca_instance_id a = instance_id ∧ connected link (ca_agent_id a) = true ∧
      build_dispatch_command message task_id instance_id = Ok c ∧
      effects = [Sent (ca_agent_id a) (MsgCommand (command_request command_id c));
                 CommandStarted (ca_agent_id a) command_id (dc_command c)] ∧
      pending d' !! command_id = Some {| pd_agent_id := ca_agent_id a; pd_command := dc_command c; pd_started_at := now;
        pd_timeout := seconds (dc_timeout_secs c) |} ∧
      ob = new_observer task_id command_id
  | Err _ => effects = [] ∧ pending d' = pending d
  end.
Proof.
  intros Hfresh. unfold dispatch_message, get_by_instance_id.
  destruct (find_first _ _) as [[key a]|] eqn:Hf; cbn [fmap option_fmap option_map]; [|by intros [= <- <- <-]].
  apply find_first_Some in Hf as [Hin%elem_of_iter Hi%bool_decide_eq_true].
  destruct (build_dispatch_command _ _ _) as [c|] eqn:Hc; [|by intros [= <- <- <-]].
  unfold dispatch. destruct (connected _ _) eqn:Hconn; cbn [negb]; [|by intros [= <- <- <-]]. cbv zeta.
  destruct (accepts _ _ _); cbn [negb]; intros [= <- <- <-].
  - exists key, a, c. split_and!; try done. cbn. by rewrite lookup_insert_eq.
  - split; [done|]. cbn. by rewrite delete_insert_id.
Qed.

(** The last output of a command that waits for its result. *)
Lemma handle_result_output d result p :
  pending d !! rs_command_id result = Some p →
  Output (rs_command_id result) {| eo_stream := None; eo_data := EmptyString; eo_exit_code := rs_exit_code result;
    eo_complete := true; eo_error := rs_error result |} ∈ (handle_result d result).2.
Proof.
  intros Hp. unfold handle_result. set (d1 := d <| command_to_session ::= _ |>).
  destruct (match command_to_session d !! rs_command_id result with Some _ => _ | None => (d1, []) end) as [d2 ended] eqn:He.
  assert (pending d2 = pending d) as Hd2.
  { destruct (command_to_session d !! _) as [sid|]; [|by simplify_eq]. destruct (session_agent d1 _) as [agent|]; [|by simplify_eq].
    pose proof (end_translation_pending d1 agent sid (Some (rs_exit_code result)) false) as Hd1. by rewrite He in Hd1. }
  rewrite remove_active_pending, Hd2, Hp. cbn [snd]. rewrite !elem_of_app. right. right. right. by left.
Qed.

(** a result reported for a message's command settles the message's task.
    The result is passed to the observer as the last output, and the task is
    then completed or failed as the result says. *)
Theorem reported_result_settles_task now d s ob p c result :
  pending d !! rs_command_id result = Some p → rs_command_id result = ob_command_id ob →
  tasks s !! ob_task_id ob = Some c → clean_columns c →
  ∃ chunk c', Output (ob_command_id ob) chunk ∈ (handle_result d result).2 ∧ eo_complete chunk = true ∧
    tasks (observe_complete now s ob chunk) !! ob_task_id ob = Some c' ∧ is_Some (tc_terminal_at c') ∧
    tc_state c' = task_state_as_str (if bool_decide (rs_error result = EmptyString) && (rs_exit_code result =? 0)
                                     then Task.Completed else Task.Failed).
Proof using text_parses.
  intros Hp Hid Hc Hcl.
  set (chunk := {| eo_stream := None; eo_data := EmptyString; eo_exit_code := rs_exit_code result; eo_complete := true;
                   eo_error := rs_error result |}).
  destruct (complete_settles text_parses now s ob chunk c Hc Hcl) as (c' & Hc' & _ & Hi & Hs & _).
  exists chunk, c'. split_and!; [|done..|].
  - rewrite <-Hid. by eapply handle_result_output.
  - rewrite Hs. unfold chunk_outcome. cbn. by destruct (bool_decide (rs_error result = EmptyString)), (rs_exit_code result =? 0).
Qed.

End forwarding.

(** ** A message followed through

    A message is sent, its dispatch accepted, the task canceled, and then the
    command ends with exit code 0. *)

Section runs.
#[local] Existing Instance sample_env.
#[local] Existing Instance sample_auth.
#[local] Existing Instance sample_text.
#[local] Existing Instance sample_scan.
#[local] Existing Instance sample_iter.
#[local] Existing Instance sample_url_parser.

Definition ended (code : Z) : ExecOutput :=
  {| eo_stream := None; eo_data := EmptyString; eo_exit_code := code; eo_complete := true; eo_error := EmptyString |}.
Definition output (data : string) : ExecOutput :=
  {| eo_stream := Some Stdout; eo_data := data; eo_exit_code := 0; eo_complete := false; eo_error := EmptyString |}.

Definition working_app : AppState := (send_finish 20 app_1 call_1 (Ok ())).1.
Definition canceled_app : AppState := (cancel_handler 30 working_app "i-1" "u-1").1.
Definition observer_1 : Observer := new_observer "u-1" "cmd".

Definition state_of (s : TaskStore) (t : string) : option string := tc_state <$> tasks s !! t.

Lemma working_app_reachable : rtc world_move (alone (initial_app Vm "h")) (alone working_app).
Proof.
  eapply rtc_l; [exists None; eapply w_send, sample_begin_1|]. apply rtc_once. exists (Some (send_finish 20 app_1 call_1 (Ok ())).2).
  apply (w_resume 20 (Ok ()) app_1 [] (PSend call_1) []), surjective_pairing.
Qed.

Lemma working_app_ok : app_inv working_app.
Proof. exact (reachable_app _ _ _ _ sample_env_text_parses working_app_reachable). Qed.

Lemma canceled_app_ok : app_inv canceled_app.
Proof. apply (run_ok working_app); [exact sample_env_text_parses|exact working_app_ok|apply run_cancel]. Qed.

(** The columns of the task in a store that has it. *)
Definition columns (s : TaskStore) (t : string) : TaskColumns :=
  default (Build_TaskColumns None None "x" None "x" None 0 0 None) (tasks s !! t).

Lemma working_task : tasks (app_store working_app) !! "u-1" = Some (columns (app_store working_app) "u-1").
Proof. by vm_compute. Qed.

Lemma canceled_task : tasks (app_store canceled_app) !! "u-1" = Some (columns (app_store canceled_app) "u-1").
Proof. by vm_compute. Qed.

Lemma message_command_confined_witness :
  permitted_command {| dc_command := "sh"; dc_args := ["-c"; echo_script]; dc_working_dir := EmptyString;
    dc_env := message_env "hello" "t" "i-1"; dc_timeout_secs := 300 |}.
Proof.
  apply (message_command_confined (json_obj [("message", json_obj [("parts", JArr [json_obj [("text", JStr "hello")]])])]) "t" "i-1").
  reflexivity.
Defined.


Lemma completion_overwrites_canceled_task_witness :
  state_of (app_store canceled_app) "u-1" = Some "canceled" ∧
  ∃ c', tasks (observe_complete 40 (app_store canceled_app) observer_1 (ended 0)) !! "u-1" = Some c' ∧
    tc_state c' = "completed" ∧ tc_terminal_at c' = Some 30.
Proof.
  split; [by vm_compute|].
  apply (completion_overwrites_canceled_task sample_env_text_parses 40 (app_store canceled_app) observer_1 (ended 0)
    (columns (app_store canceled_app) "u-1") 30); [exact canceled_task| |by vm_compute..].
  exact (ai_tasks _ canceled_app_ok "u-1" _ canceled_task).
Defined.

Lemma no_artifacts : task_artifacts (app_store working_app) = ∅.
Proof. by vm_compute. Qed.

Lemma outputs_kept_witness :
  task_artifacts (run_observer id 40 (app_store working_app) observer_1 [(35, output "a"); (36, output "b"); (37, ended 0)])
    !! artifact_id "u-1" "stdout" (Z.of_nat 1 + 1) = Some (output_columns id observer_1 (Z.of_nat 1 + 1) 36 (output "b")).
Proof.
  destruct (outputs_kept id 40 (app_store working_app) "u-1" "cmd" [(35, output "a"); (36, output "b"); (37, ended 0)]
    (columns (app_store working_app) "u-1") working_task) as [_ Hall]; [done|intros stream seq; by rewrite no_artifacts|].
  exact (Hall 1%nat 36 (output "b") eq_refl).
Defined.

Definition observed_app : TaskStore := (observe_output id 35 (app_store working_app) observer_1 (output "a")).1.

Lemma later_output_lost_witness :
  (observe_output id 45 observed_app (new_observer "u-1" "second") (output "b")).1 = observed_app.
Proof.
  apply (later_output_lost id 45 observed_app (new_observer "u-1" "second") (output "b")
    (output_columns id observer_1 1 35 (output "a"))); [done|by vm_compute].
Defined.

Definition text_message (text : string) : json :=
  json_obj [("message", json_obj [("parts", JArr [json_obj [("text", JStr text)]])])].

Definition forwarded : Dispatcher * list Effect * result TaskHandlers.DispatchError Observer :=
  dispatch_message 20 sample_link (pl_agents sample_plane) sample_dispatcher "cmd" "i-b" "u-1" (text_message "hello").

Lemma forwarded_Ok : forwarded = (forwarded.1.1, forwarded.1.2, Ok observer_1).
Proof. assert (forwarded.2 = Ok observer_1) as <- by (by vm_compute). by destruct forwarded as [[]]. Qed.

Lemma message_reaches_instance_agent_witness :
  ∃ key a, pl_agents sample_plane !! key = Some a ∧ ca_instance_id a = "i-b" ∧ is_Some (pending forwarded.1.1 !! "cmd").
Proof.
  destruct (message_reaches_instance_agent 20 sample_link (pl_agents sample_plane) sample_dispatcher "cmd" "i-b" "u-1"
    (text_message "hello") forwarded.1.1 forwarded.1.2 (Ok observer_1)) as (key & a & c & Ha & Hi & _ & _ & _ & Hp & _);
    [by vm_compute|exact forwarded_Ok|]. by exists key, a.
Defined.

Lemma reported_result_settles_task_witness :
  ∃ chunk c', eo_complete chunk = true ∧
    tasks (observe_complete 40 (app_store working_app) observer_1 chunk) !! "u-1" = Some c' ∧ tc_state c' = "completed".
Proof.
  destruct (pending forwarded.1.1 !! "cmd") as [p|] eqn:Hp; [|by vm_compute in Hp].
  destruct (reported_result_settles_task sample_env_text_parses 40 forwarded.1.1 (app_store working_app) observer_1 p
    (columns (app_store working_app) "u-1")
    {| rs_command_id := "cmd"; rs_exit_code := 0; rs_success := true; rs_error := EmptyString; rs_duration_ms := 1 |}
    Hp eq_refl working_task (ai_tasks _ working_app_ok "u-1" _ working_task)) as (chunk & c' & _ & Hc & Hc' & _ & Hs).
  exists chunk, c'. split; [exact Hc|split; [exact Hc'|exact Hs]].
Defined.

End runs.
