(* ===== verification/Disk.v ===== *)
(** * Paths, files and directories

    The part of the file system the orchestrator uses: paths as their resolved
    components (no symbolic links), files with their content, and the set of
    directories.  [PathBuf::join], [create_dir_all], [File::create], [rename],
    [remove_file], [remove_dir_all] and [read_dir] of the standard library; an
    operation that the system refuses is [None]. *)

From Stdlib Require Import Ascii.
From S2P Require Import Prelude Text.

Local Open Scope string_scope.
Local Open Scope list_scope.
Local Open Scope Z_scope.

(** ** Paths *)

Definition Path : Type := list string.

Definition slash : ascii := "/"%char.

(** One component of a path, as the system resolves it. *)
Definition enter (p : Path) (c : string) : Path :=
  if decide (c = EmptyString ∨ c = ".") then p
  else if decide (c = "..") then List.removelast p
  else p ++ [c].

Definition resolve (p : Path) (s : string) : Path := foldl enter p (split_char slash s).

(** [p.join(s)]: an absolute [s] replaces [p]. *)
Definition join_path (p : Path) (s : string) : Path :=
  resolve (if starts_with s "/" then [] else p) s.

Definition parent (p : Path) : Path := List.removelast p.

(** [file_name] *)
Definition base_name (p : Path) : string := default EmptyString (last p).

(** [q] is [p] or below it. *)
Definition below (p q : Path) : bool := bool_decide (p `prefix_of` q).

(** A name that is a single component. *)
Definition plain (s : string) : bool :=
  negb (contains_char s slash) && negb (bool_decide (s = EmptyString)) && negb (bool_decide (s = "."))
  && negb (bool_decide (s = "..")).

(** ** The disk *)

Record Disk : Type := {
  files : gmap Path string;
  dirs : gset Path;
}.

Definition is_file (d : Disk) (p : Path) : bool := bool_decide (is_Some (files d !! p)).
Definition is_dir (d : Disk) (p : Path) : bool := bool_decide (p = []) || bool_decide (p ∈ dirs d).
Definition path_exists (d : Disk) (p : Path) : bool := is_file d p || is_dir d p.

(** The path and the directories above it, the root left out. *)
Fixpoint ancestors_from (above p : Path) : list Path :=
  match p with
  | [] => []
  | c :: p => (above ++ [c]) :: ancestors_from (above ++ [c]) p
  end.
Definition ancestors (p : Path) : list Path := ancestors_from [] p.

Definition create_dir_all (d : Disk) (p : Path) : option Disk :=
  if existsb (is_file d) (ancestors p) then None
  else Some (d <| dirs ::= λ ds, list_to_set (ancestors p) ∪ ds |>).

(** [File::create]: an empty file, also where there was one. *)
Definition create_file (d : Disk) (p : Path) : option Disk :=
  if is_dir d p || negb (is_dir d (parent p)) then None
  else Some (d <| files ::= <[p := EmptyString]> |>).

(** [write_all] on an open file, and [fs::write]. *)
Definition write_all (d : Disk) (p : Path) (data : string) : Disk := d <| files ::= <[p := data]> |>.
Definition write_file (d : Disk) (p : Path) (data : string) : option Disk :=
  d ← create_file d p; Some (write_all d p data).

Definition rename (d : Disk) (p q : Path) : option Disk :=
  data ← files d !! p;
  if is_dir d q || negb (is_dir d (parent q)) then None
  else Some (d <| files ::= λ fs, <[q := data]> (delete p fs) |>).

Definition remove_file (d : Disk) (p : Path) : option Disk :=
  if is_file d p then Some (d <| files ::= delete p |>) else None.

Definition remove_dir_all (d : Disk) (p : Path) : option Disk :=
  if is_dir d p
  then Some {| files := filter (λ kv, below p kv.1 = false) (files d);
               dirs := filter (λ q, below p q = false) (dirs d) |}
  else None.

(** The names in a directory; the order is not specified. *)
Definition child_name (p q : Path) : option string :=
  if decide (parent q = p ∧ q ≠ []) then last q else None.
Definition read_dir (d : Disk) (p : Path) : option (list string) :=
  if is_dir d p
  then Some (omap (child_name p) ((map_to_list (files d)).*1 ++ elements (dirs d)))
  else None.

(** ** Paths of plain names *)

Lemma plain_spec s :
  plain s = true ↔ contains_char s slash = false ∧ s ≠ EmptyString ∧ s ≠ "." ∧ s ≠ "..".
Proof. unfold plain. rewrite !andb_true_iff, !negb_true_iff, !bool_decide_eq_false. tauto. Qed.

Lemma join_plain p s : plain s = true → join_path p s = p ++ [s].
Proof.
  intros (Hc & Hne & Hd & Hdd)%plain_spec. unfold join_path, resolve.
  assert (starts_with s "/" = false) as ->.
  { destruct s as [|a s]; [done|]. apply not_true_iff_false. intros (r & Hr)%starts_with_app.
    injection Hr as -> _. done. }
  rewrite split_char_absent by done. cbn. unfold enter. rewrite decide_False by naive_solver.
  by rewrite decide_False.
Qed.

(** A plain name with a longer suffix stays plain. *)
Lemma plain_append s t :
  contains_char s slash = false → contains_char t slash = false → (2 < String.length t)%nat → plain (s +:+ t) = true.
Proof.
  intros Hs Ht Hl. apply plain_spec. rewrite contains_char_append, Hs, Ht.
  assert (∀ u, (String.length u ≤ 2)%nat → s +:+ t ≠ u) as Hne.
  { intros u Hu <-. rewrite length_append in Hu. lia. }
  split; [done|]. split_and!; apply Hne; cbn; lia.
Qed.

Lemma append_inj_r (s t u : string) : s +:+ u = t +:+ u → s = t.
Proof.
  intros Heq. apply (f_equal str_rev) in Heq. rewrite !str_rev_append in Heq. apply append_inj_l in Heq.
  apply (f_equal str_rev) in Heq. by rewrite !str_rev_involutive in Heq.
Qed.

Lemma parent_snoc p s : parent (p ++ [s]) = p.
Proof. unfold parent. by rewrite List.removelast_app, app_nil_r. Qed.

Lemma child_name_Some p q s : child_name p q = Some s ↔ q = p ++ [s].
Proof.
  unfold child_name. split.
  - case_decide as Hq; [|done]. destruct Hq as [Hp Hne]. intros Hl. subst p. unfold parent.
    destruct q as [|x q _] using rev_ind; [done|]. rewrite last_snoc in Hl. injection Hl as ->.
    by rewrite List.removelast_app, app_nil_r.
  - intros ->. rewrite decide_True, last_snoc; [done|]. split; [apply parent_snoc|]. by destruct p.
Qed.

Lemma elem_of_read_dir d p names s :
  read_dir d p = Some names → s ∈ names ↔ is_Some (files d !! (p ++ [s])) ∨ p ++ [s] ∈ dirs d.
Proof.
  unfold read_dir. case_match; [|done]. intros [= <-]. rewrite list_elem_of_omap. split.
  - intros (q & Hin & ->%child_name_Some). rewrite elem_of_app, elem_of_elements, list_elem_of_fmap in Hin.
    destruct Hin as [([q data] & -> & Hq%elem_of_map_to_list)|Hq]; [left|right]; naive_solver.
  - intros Hs. exists (p ++ [s]). split; [|by apply child_name_Some]. apply elem_of_app.
    destruct Hs as [[data Hd]|Hd]; [left|right; by apply elem_of_elements].
    apply list_elem_of_fmap. exists (p ++ [s], data). split; [done|]. by apply elem_of_map_to_list.
Qed.

Lemma create_file_Some d p d' :
  create_file d p = Some d' →
  is_dir d p = false ∧ is_dir d (parent p) = true ∧ d' = d <| files ::= <[p := EmptyString]> |>.
Proof.
  unfold create_file. destruct (_ || _) eqn:Hb; [done|]. intros [= <-]. apply orb_false_iff in Hb as [H1 H2].
  apply negb_false_iff in H2. done.
Qed.

Lemma create_file_ok d p :
  is_dir d p = false → is_dir d (parent p) = true → create_file d p = Some (d <| files ::= <[p := EmptyString]> |>).
Proof. intros H1 H2. unfold create_file. by rewrite H1, H2. Qed.

Lemma rename_written d p q data :
  rename (write_all d p data) p q =
    (if is_dir d q || negb (is_dir d (parent q)) then None
     else Some (d <| files ::= λ fs, <[q := data]> (delete p fs) |>)).
Proof.
  unfold rename. assert (files (write_all d p data) !! p = Some data) as -> by apply lookup_insert_eq. cbn [mbind option_bind].
  unfold is_dir. cbn. destruct (_ || _); [done|]. by rewrite delete_insert_eq.
Qed.

Lemma elem_of_ancestors_from above p q :
  q ∈ ancestors_from above p ↔ ∃ r, r ≠ [] ∧ r `prefix_of` p ∧ q = above ++ r.
Proof.
  revert above. induction p as [|c p IH]; intros above; cbn.
  - rewrite elem_of_nil. split; [done|]. intros (r & Hr & Hp & _). by apply prefix_nil_inv in Hp.
  - rewrite elem_of_cons, IH. split.
    + intros [->|(r & Hr & Hp & ->)]; [exists [c]|exists (c :: r)]; (split; [done|]).
      * split; [|done]. by exists p.
      * split; [by apply prefix_cons|]. by rewrite <-app_assoc.
    + intros ([|c' r] & Hr & Hp & ->); [done|]. pose proof (prefix_cons_inv_1 _ _ _ _ Hp) as ->.
      apply prefix_cons_inv_2 in Hp. destruct r as [|c' r]; [by left|right]. exists (c' :: r).
      by rewrite <-app_assoc.
Qed.

Lemma elem_of_ancestors p q : q ∈ ancestors p ↔ q ≠ [] ∧ q `prefix_of` p.
Proof.
  unfold ancestors. rewrite elem_of_ancestors_from. split.
  - by intros (r & ? & ? & ->).
  - intros [? ?]. by exists q.
Qed.

Lemma create_dir_all_Some d p d' :
  create_dir_all d p = Some d' → files d' = files d ∧ ∀ q, is_dir d' q = is_dir d q || bool_decide (q ≠ [] ∧ q `prefix_of` p).
Proof.
  unfold create_dir_all. case_match; [done|]. intros [= <-]. split; [done|]. intros q. unfold is_dir. cbn.
  apply eq_bool_prop_intro. rewrite !orb_True, !bool_decide_spec, elem_of_union, elem_of_list_to_set, elem_of_ancestors. tauto.
Qed.
