(* ===== verification/OrchTask.v ===== *)
(** * Orchestrated tasks: state machine, manifests and checkpoints

    Models management/src/orchestrator/task.rs, manifest.rs and checkpoint.rs:
    the states of a task and how they follow each other, what a manifest must
    say to be accepted, and the checkpoint files that carry tasks over a
    restart.

    The JSON text of a task is the parameter [TaskCodec], with the law that it
    reads back.  Saving a checkpoint is the sequence of its file operations; a
    [SaveFault] is where the operation fails or the process stops. *)

From Stdlib Require Import Ascii.
From S2P Require Import Prelude Text Json Disk.

Local Open Scope string_scope.
Local Open Scope list_scope.
Local Open Scope Z_scope.

(** ** States *)

Inductive TaskState : Type :=
| Pending | Staging | Provisioning | Ready | Running | Completing
| Completed | Failed | FailedPreserved | Cancelled.

#[export] Instance task_state_eq_dec : EqDecision TaskState.
Proof. solve_decision. Defined.

Definition can_transition_to (from next : TaskState) : bool :=
  match from, next with
  | Pending, Staging => true
  | Staging, Provisioning => true
  | Provisioning, Ready => true
  | Ready, Running => true
  | Running, Completing => true
  | Completing, Completed => true
  | Staging, Failed => true
  | Provisioning, Failed => true
  | Ready, Failed => true
  | Running, Failed => true
  | Running, FailedPreserved => true
  | Completing, Failed => true
  | Pending, Cancelled => true
  | Staging, Cancelled => true
  | Provisioning, Cancelled => true
  | Ready, Cancelled => true
  | Running, Cancelled => true
  | Completing, Cancelled => true
  | _, _ => false
  end.

Definition is_terminal (st : TaskState) : bool :=
  match st with Completed | Failed | FailedPreserved | Cancelled => true | _ => false end.

Definition to_proto (st : TaskState) : Z :=
  match st with
  | Pending => 1 | Staging => 2 | Provisioning => 3 | Ready => 4 | Running => 5
  | Completing => 6 | Completed => 7 | Failed => 8 | FailedPreserved => 9 | Cancelled => 10
  end.

(** [Display] *)
Definition state_name (st : TaskState) : string :=
  match st with
  | Pending => "pending" | Staging => "staging" | Provisioning => "provisioning" | Ready => "ready"
  | Running => "running" | Completing => "completing" | Completed => "completed" | Failed => "failed"
  | FailedPreserved => "failed_preserved" | Cancelled => "cancelled"
  end.

(** ** Configuration *)

Record RepositoryConfig : Type := {
  rc_url : string;
  rc_branch : string;
  rc_commit : option string;
  rc_subpath : option string;
}.

Record TaskConfig : Type := {
  cf_provider : string;
  cf_prompt : string;
  cf_headless : bool;
  cf_skip_permissions : bool;
  cf_output_format : string;
  cf_model : string;
  cf_allowed_tools : list string;
  cf_mcp_config : option json;
  cf_max_turns : option Z;
}.

Inductive NetworkMode : Type := Isolated | Outbound | Full.

Record VmConfig : Type := {
  vc_profile : string;
  vc_cpus : Z;
  vc_memory : string;
  vc_disk : string;
  vc_network_mode : NetworkMode;
  vc_allowed_hosts : list string;
}.

Record SecretRef : Type := {
  sr_name : string;
  sr_source : string;
  sr_key : string;
}.

Record LifecycleConfig : Type := {
  lc_timeout : string;
  lc_failure_action : string;
  lc_artifact_patterns : list string;
}.

(** [ChildrenConfig] of multi_agent.rs. *)
Record ChildrenConfig : Type := {
  cc_max_concurrent : option Z;
  cc_wait_for_children : bool;
  cc_aggregate_artifacts : bool;
}.

Definition default_vm : VmConfig :=
  {| vc_profile := "agentic-dev"; vc_cpus := 4; vc_memory := "8G"; vc_disk := "40G"; vc_network_mode := Isolated;
     vc_allowed_hosts := [] |}.
Definition default_lifecycle : LifecycleConfig :=
  {| lc_timeout := "24h"; lc_failure_action := "destroy"; lc_artifact_patterns := [] |}.
Definition default_children : ChildrenConfig :=
  {| cc_max_concurrent := None; cc_wait_for_children := false; cc_aggregate_artifacts := false |}.

Record TaskProgress : Type := {
  pg_output_bytes : Z;
  pg_tool_calls : Z;
  pg_current_tool : option string;
  pg_last_activity_at : option Z;
}.

Record OTask : Type := {
  o_id : string;
  o_name : string;
  o_labels : gmap string string;
  o_repository : RepositoryConfig;
  o_task : TaskConfig;
  o_vm : VmConfig;
  o_secrets : list SecretRef;
  o_lifecycle : LifecycleConfig;
  o_parent_id : option string;
  o_children : ChildrenConfig;
  o_state : TaskState;
  o_created_at : Z;
  o_started_at : option Z;
  o_state_changed_at : Z;
  o_state_message : option string;
  o_vm_name : option string;
  o_vm_ip : option string;
  o_exit_code : option Z;
  o_error : option string;
  o_progress : TaskProgress;
}.

(** ** Manifests *)

Record TaskManifest : Type := {
  m_version : string;
  m_kind : string;
  m_id : string;
  m_name : string;
  m_labels : gmap string string;
  m_repository : RepositoryConfig;
  m_task : TaskConfig;
  m_vm : VmConfig;
  m_secrets : list SecretRef;
  m_lifecycle : LifecycleConfig;
  m_parent_id : option string;
  m_children : ChildrenConfig;
}.

Inductive ManifestError : Type :=
| ParseError (e : string)
| JsonParseError (e : string)
| UnsupportedVersion (v : string)
| InvalidKind (k : string)
| MissingField (f : string)
| InvalidField (f why : string).

Definition empty (s : string) : bool := bool_decide (s = EmptyString).

(** [{:?}] of an array of words. *)
Definition debug_word (s : string) : string := String.String "034"%char (s +:+ String.String "034"%char EmptyString).
Definition debug_words (ws : list string) : string := "[" +:+ String.concat ", " (debug_word <$> ws) +:+ "]".

Definition valid_actions : list string := ["destroy"; "preserve"].
Definition valid_sources : list string := ["env"; "vault"; "file"].

Definition validate_secret (s : SecretRef) : result ManifestError unit :=
  _ ← ensure (negb (empty (sr_name s))) (MissingField "secrets[].name");
  _ ← ensure (negb (empty (sr_source s))) (MissingField "secrets[].source");
  ensure (bool_decide (sr_source s ∈ valid_sources))
    (InvalidField ("secrets[" +:+ sr_name s +:+ "].source") ("Must be one of: " +:+ debug_words valid_sources)).

Fixpoint validate_secrets (l : list SecretRef) : result ManifestError unit :=
  match l with
  | [] => Ok ()
  | s :: l => _ ← validate_secret s; validate_secrets l
  end.

Definition validate (m : TaskManifest) : result ManifestError unit :=
  _ ← ensure (bool_decide (m_version m = "1")) (UnsupportedVersion (m_version m));
  _ ← ensure (bool_decide (m_kind m = "Task")) (InvalidKind (m_kind m));
  _ ← ensure (negb (empty (m_id m))) (MissingField "metadata.id");
  _ ← ensure (negb (empty (m_name m))) (MissingField "metadata.name");
  _ ← ensure (negb (empty (rc_url (m_repository m)))) (MissingField "repository.url");
  _ ← ensure (negb (empty (rc_branch (m_repository m)))) (MissingField "repository.branch");
  _ ← ensure (negb (empty (cf_prompt (m_task m)))) (MissingField "task.prompt");
  let url := rc_url (m_repository m) in
  _ ← ensure (starts_with url "git@" || starts_with url "https://" || starts_with url "http://")
        (InvalidField "repository.url" "Must be a valid git URL (https:// or git@)");
  _ ← ensure (negb (vc_cpus (m_vm m) =? 0)) (InvalidField "vm.cpus" "Must be at least 1");
  _ ← ensure (ends_with (vc_memory (m_vm m)) "G" || ends_with (vc_memory (m_vm m)) "M")
        (InvalidField "vm.memory" "Must end with G or M (e.g., 8G, 4096M)");
  let timeout := lc_timeout (m_lifecycle m) in
  _ ← ensure (empty timeout || ends_with timeout "h" || ends_with timeout "m" || ends_with timeout "s")
        (InvalidField "lifecycle.timeout" "Must end with h, m, or s (e.g., 24h, 30m)");
  _ ← ensure (bool_decide (lc_failure_action (m_lifecycle m) ∈ valid_actions))
        (InvalidField "lifecycle.failure_action" ("Must be one of: " +:+ debug_words valid_actions));
  validate_secrets (m_secrets m).

(** [fresh]: the generated id. *)
Definition with_generated_id (fresh : string) (m : TaskManifest) : TaskManifest :=
  if empty (m_id m) then m <| m_id := fresh |> else m.

(** ** Tasks *)

(** [OrchestratorError] with the errors of the components it wraps as text. *)
Inductive OrchestratorError : Type :=
| TaskNotFound (id : string)
| InvalidTransition (from next : string)
| ManifestErr (e : ManifestError)
| StorageErr (e : string)
| CheckpointErr (e : string)
| ExecutorErr (e : string)
| CollectorErr (e : string).

Definition no_progress : TaskProgress :=
  {| pg_output_bytes := 0; pg_tool_calls := 0; pg_current_tool := None; pg_last_activity_at := None |}.

Definition from_manifest (now : Z) (m : TaskManifest) : OTask :=
  {| o_id := m_id m; o_name := m_name m; o_labels := m_labels m; o_repository := m_repository m; o_task := m_task m;
     o_vm := m_vm m; o_secrets := m_secrets m; o_lifecycle := m_lifecycle m; o_parent_id := m_parent_id m;
     o_children := m_children m; o_state := Pending; o_created_at := now; o_started_at := None;
     o_state_changed_at := now; o_state_message := None; o_vm_name := None; o_vm_ip := None; o_exit_code := None;
     o_error := None; o_progress := no_progress |}.

Definition transition_message (next : TaskState) : string :=
  match next with
  | Pending => "Waiting to start"
  | Staging => "Cloning repository and preparing workspace"
  | Provisioning => "Creating VM"
  | Ready => "VM ready, starting execution"
  | Running => "Task provider executing"
  | Completing => "Collecting artifacts"
  | Completed => "Task completed successfully"
  | Failed => "Task failed"
  | FailedPreserved => "Task failed, VM preserved for debugging"
  | Cancelled => "Task cancelled"
  end.

Definition transition_to (now : Z) (next : TaskState) (t : OTask) : result OrchestratorError OTask :=
  if can_transition_to (o_state t) next then
    let t := t <| o_state := next |> <| o_state_changed_at := now |> in
    let t := if bool_decide (o_started_at t = None) && negb (bool_decide (next = Pending))
             then t <| o_started_at := Some now |> else t in
    Ok (t <| o_state_message := Some (transition_message next) |>)
  else Err (InvalidTransition (state_name (o_state t)) (state_name next)).

(** The sum of the output wraps in the release build. *)
Definition update_progress (now bytes : Z) (tool_calls : option Z) (current_tool : option string) (t : OTask) : OTask :=
  let p := o_progress t in
  t <| o_progress := {| pg_output_bytes := wrap_add u64_max (pg_output_bytes p) bytes;
        pg_tool_calls := default (pg_tool_calls p) tool_calls; pg_current_tool := current_tool;
        pg_last_activity_at := Some now |} |>.

(** ** Checkpoints *)

Inductive CheckpointError : Type :=
| CkIo
| CkDeserialization (task_id : string).

(** Where the save of a checkpoint fails, or the process stops: before the
    temporary file is there, while it is written, or before the rename. *)
Inductive SaveFault : Type := AtCreate | AtWrite (written : string) | AtRename.

(** [serde_json::to_string_pretty] and [from_str] for a task. *)
Class TaskCodec : Type := {
  task_text : OTask → string;
  task_parse : string → option OTask;
  task_text_parses t : task_parse (task_text t) = Some t;
}.

(** [s.trim_end_matches(p)] for a non-empty [p]. *)
Fixpoint trim_start_str (n : nat) (s p : string) : string :=
  match n with
  | O => s
  | S n => match strip_prefix s p with Some r => trim_start_str n r p | None => s end
  end.
Definition trim_end_str (s p : string) : string :=
  str_rev (trim_start_str (String.length s) (str_rev s) (str_rev p)).

Definition checkpoint_suffix : string := ".checkpoint.json".

Section checkpoints.
Context `{TaskCodec}.
Variable checkpoint_dir : Path.
Implicit Types (d : Disk) (t : OTask).

Definition initialize d : option Disk := create_dir_all d checkpoint_dir.

Definition checkpoint_path (task_id : string) : Path := join_path checkpoint_dir (task_id +:+ checkpoint_suffix).
Definition temp_checkpoint_path (task_id : string) : Path := join_path checkpoint_dir (task_id +:+ ".checkpoint.tmp").

Definition save (fault : option SaveFault) d t : Disk * result CheckpointError unit :=
  let temp := temp_checkpoint_path (o_id t) in
  match fault with
  | Some AtCreate => (d, Err CkIo)
  | _ =>
      match create_file d temp with
      | None => (d, Err CkIo)
      | Some d =>
          match fault with
          | Some (AtWrite written) => (write_all d temp written, Err CkIo)
          | _ =>
              let d := write_all d temp (task_text t) in
              match fault with
              | None => match rename d temp (checkpoint_path (o_id t)) with
                        | Some d => (d, Ok ())
                        | None => (d, Err CkIo)
                        end
              | _ => (d, Err CkIo)
              end
          end
      end
  end.

Definition load d (task_id : string) : result CheckpointError (option OTask) :=
  let path := checkpoint_path task_id in
  if negb (path_exists d path) then Ok None
  else match files d !! path with
    | None => Err CkIo
    | Some text => t ← ok_or (task_parse text) (CkDeserialization task_id); Ok (Some t)
    end.

(** The task id a file name stands for. *)
Definition checkpoint_id (name : string) : option string :=
  if ends_with name checkpoint_suffix then Some (trim_end_str name checkpoint_suffix) else None.

Definition list_checkpoints d : result CheckpointError (list string) :=
  if negb (path_exists d checkpoint_dir) then Ok []
  else names ← ok_or (read_dir d checkpoint_dir) CkIo; Ok (merge_sort string_le (omap checkpoint_id names)).

(** The result of removing the temporary file is ignored. *)
Definition delete_checkpoint d (task_id : string) : Disk * result CheckpointError unit :=
  let path := checkpoint_path task_id in
  match (if path_exists d path then remove_file d path else Some d) with
  | None => (d, Err CkIo)
  | Some d => (default d (remove_file d (temp_checkpoint_path task_id)), Ok ())
  end.

Definition delete_all d : Disk * result CheckpointError Z :=
  match list_checkpoints d with
  | Err e => (d, Err e)
  | Ok ids =>
      let fix go d l := match l with
        | [] => (d, Ok (len ids))
        | id :: l => match delete_checkpoint d id with
            | (d, Ok _) => go d l
            | (d, Err e) => (d, Err e)
            end
        end in
      go d ids
  end.

Definition checkpoint_exists d (task_id : string) : bool := path_exists d (checkpoint_path task_id).

(** [dir_len]: the size the system reports for a directory. *)
Definition checkpoint_size (dir_len : Z) d (task_id : string) : result CheckpointError (option Z) :=
  let path := checkpoint_path task_id in
  if negb (path_exists d path) then Ok None
  else match files d !! path with
    | Some text => Ok (Some (Z.of_nat (String.length text)))
    | None => Ok (Some dir_len)
    end.

End checkpoints.

(** ** The state machine *)

(** How far a task has come. *)
Definition rank (st : TaskState) : Z :=
  match st with
  | Pending => 0 | Staging => 1 | Provisioning => 2 | Ready => 3 | Running => 4 | Completing => 5 | _ => 6
  end.

Lemma transition_rank st next : can_transition_to st next = true → rank st < rank next.
Proof. by destruct st, next. Qed.

Lemma terminal_no_transition st next : is_terminal st = true → can_transition_to st next = false.
Proof. by destruct st, next. Qed.

Lemma transition_Ok now next t t' :
  transition_to now next t = Ok t' →
  can_transition_to (o_state t) next = true ∧ o_state t' = next ∧ o_state_changed_at t' = now ∧ o_id t' = o_id t ∧
  o_vm_name t' = o_vm_name t ∧ o_exit_code t' = o_exit_code t ∧ o_error t' = o_error t ∧
  o_lifecycle t' = o_lifecycle t ∧ is_Some (o_started_at t').
Proof.
  unfold transition_to. destruct (can_transition_to _ _) eqn:Hc; [|done]. cbv zeta.
  destruct (_ && _) eqn:Hb; intros [= <-]; split_and!; try done. cbn. cbn in Hb.
  apply andb_false_iff in Hb as [Hb%bool_decide_eq_false|Hb%negb_false_iff%bool_decide_eq_true].
  - by destruct (o_started_at t).
  - subst. by destruct (o_state t).
Qed.

(** Successive states of a task. *)
Fixpoint states_path (st : TaskState) (l : list TaskState) : Prop :=
  match l with [] => True | next :: l => can_transition_to st next = true ∧ states_path next l end.

(** A task makes at most six transitions from any state, and none after a
    terminal one. *)
Lemma states_path_bounded st l : states_path st l → len l + rank st <= 6.
Proof.
  revert st. induction l as [|next l IH]; intros st; [intros _; rewrite len_nil; destruct st; cbn; lia|].
  intros [Hc Hp]. apply IH in Hp. apply transition_rank in Hc. rewrite len_cons. lia.
Qed.

Definition reachable_state (st : TaskState) : Prop := rtc (λ a b, can_transition_to a b = true) Pending st.

(** ** Manifests *)

(** What [validate] asks of a manifest. *)
Definition good_secret (s : SecretRef) : Prop := sr_name s ≠ EmptyString ∧ sr_source s ∈ valid_sources.

Record good_manifest (m : TaskManifest) : Prop := {
  gm_version : m_version m = "1";
  gm_kind : m_kind m = "Task";
  gm_id : m_id m ≠ EmptyString;
  gm_name : m_name m ≠ EmptyString;
  gm_branch : rc_branch (m_repository m) ≠ EmptyString;
  gm_prompt : cf_prompt (m_task m) ≠ EmptyString;
  gm_url : Exists (λ p, starts_with (rc_url (m_repository m)) p = true) ["git@"; "https://"; "http://"];
  gm_cpus : vc_cpus (m_vm m) ≠ 0;
  gm_memory : Exists (λ p, ends_with (vc_memory (m_vm m)) p = true) ["G"; "M"];
  gm_timeout : lc_timeout (m_lifecycle m) = EmptyString ∨
    Exists (λ p, ends_with (lc_timeout (m_lifecycle m)) p = true) ["h"; "m"; "s"];
  gm_action : lc_failure_action (m_lifecycle m) ∈ valid_actions;
  gm_secrets : Forall good_secret (m_secrets m);
}.

Lemma empty_false s : negb (empty s) = true ↔ s ≠ EmptyString.
Proof. unfold empty. by rewrite negb_true_iff, bool_decide_eq_false. Qed.

Lemma validate_secrets_Ok l : validate_secrets l = Ok () ↔ Forall good_secret l.
Proof.
  induction l as [|s l IH]; [done|]. cbn [validate_secrets]. rewrite bind_Ok, Forall_cons, <-IH. split.
  - intros ([] & Hs & Hl). split; [|done]. unfold validate_secret in Hs. apply bind_Ok in Hs as ([] & H1 & Hs).
    apply bind_Ok in Hs as ([] & _ & Hs). apply ensure_Ok, empty_false in H1. apply ensure_Ok, bool_decide_eq_true in Hs. done.
  - intros [[Hn Hs] Hl]. exists (). split; [|done]. unfold validate_secret.
    assert (sr_source s ≠ EmptyString) as He. { intros He. rewrite He in Hs. repeat (apply elem_of_cons in Hs as [Hs|Hs]; [done|]). by apply elem_of_nil in Hs. }
    unfold ensure. by rewrite !(proj2 (empty_false _)), bool_decide_eq_true_2.
Qed.

Lemma ensure_bind {E A} b (e : E) (r : result E A) x : (ensure b e ≫= λ _, r) = Ok x ↔ b = true ∧ r = Ok x.
Proof. destruct b; cbn; naive_solver. Qed.


(** ** Checkpoint files *)

Section trimming.
Variable p : string.
Hypothesis p_nonempty : p ≠ EmptyString.

Lemma strip_prefix_shorter s r : strip_prefix s p = Some r → (String.length r < String.length s)%nat.
Proof using p_nonempty.
  intros ->%strip_prefix_Some. rewrite length_append. destruct p; [done|]. cbn. lia.
Qed.

Lemma trim_start_str_clean n s : (String.length s ≤ n)%nat → strip_prefix (trim_start_str n s p) p = None.
Proof using p_nonempty.
  revert s. induction n as [|n IH]; intros s Hn; cbn.
  - destruct s; [|cbn in Hn; lia]. by destruct p.
  - destruct (strip_prefix s p) as [r|] eqn:Hr; [|done]. apply IH. apply strip_prefix_shorter in Hr. lia.
Qed.

Lemma trim_start_str_none n s : strip_prefix s p = None → trim_start_str n s p = s.
Proof. intros Hs. destruct n; cbn; [done|]. by rewrite Hs. Qed.

End trimming.

Lemma length_str_rev s : String.length (str_rev s) = String.length s.
Proof.
  induction s as [|a s IH]; [done|]. change (String.String a s) with (String.String a EmptyString +:+ s).
  rewrite str_rev_append, !length_append, IH. cbn. lia.
Qed.

Lemma ends_with_strip s p : ends_with s p = true ↔ is_Some (strip_prefix (str_rev s) (str_rev p)).
Proof.
  unfold ends_with. fold (starts_with (str_rev s) (str_rev p)). rewrite starts_with_app. split.
  - intros [r Hr]. exists r. by apply strip_prefix_Some.
  - intros [r Hr]. exists r. by apply strip_prefix_Some.
Qed.

(** A task id whose checkpoint file carries its name. *)
Definition tidy (id : string) : bool := negb (contains_char id slash) && negb (ends_with id checkpoint_suffix).

Lemma tidy_spec id : tidy id = true ↔ contains_char id slash = false ∧ ends_with id checkpoint_suffix = false.
Proof. unfold tidy. by rewrite andb_true_iff, !negb_true_iff. Qed.

Lemma trim_end_clean s : ends_with (trim_end_str s checkpoint_suffix) checkpoint_suffix = false.
Proof.
  apply not_true_iff_false. intros [r Hr]%ends_with_strip. unfold trim_end_str in Hr. rewrite str_rev_involutive in Hr.
  rewrite trim_start_str_clean in Hr; [done|done|]. by rewrite length_str_rev.
Qed.

Lemma checkpoint_id_saved id : ends_with id checkpoint_suffix = false → checkpoint_id (id +:+ checkpoint_suffix) = Some id.
Proof.
  intros Hid. unfold checkpoint_id. rewrite (proj2 (ends_with_app _ _)) by eauto. f_equal. unfold trim_end_str.
  rewrite str_rev_append, length_append.
  replace (String.length id + String.length checkpoint_suffix)%nat with (S (String.length id + 15)) by (cbn; lia).
  cbn [trim_start_str]. rewrite strip_prefix_app, trim_start_str_none; [apply str_rev_involutive|].
  apply eq_None_not_Some. intros Hs%ends_with_strip. congruence.
Qed.

Section checkpoint_laws.
Context `{TaskCodec}.
Variable dir : Path.
Implicit Types (d : Disk) (t : OTask).
Abbreviation checkpoint_path := (checkpoint_path dir).
Abbreviation temp_checkpoint_path := (temp_checkpoint_path dir).
Abbreviation save := (save dir).
Abbreviation load := (load dir).

Lemma checkpoint_path_plain id :
  contains_char id slash = false → checkpoint_path id = dir ++ [id +:+ checkpoint_suffix].
Proof. intros Hid. apply join_plain, plain_append; [done|done|]. cbn. lia. Qed.

Lemma temp_path_plain id :
  contains_char id slash = false → temp_checkpoint_path id = dir ++ [id +:+ ".checkpoint.tmp"].
Proof. intros Hid. apply join_plain, plain_append; [done|done|]. cbn. lia. Qed.

Lemma checkpoint_path_inj id id' :
  contains_char id slash = false → contains_char id' slash = false → checkpoint_path id = checkpoint_path id' → id = id'.
Proof. intros Hi Hi'. rewrite !checkpoint_path_plain by done. intros [_ [= Heq]]%app_inj_2; [by eapply append_inj_r|done]. Qed.

Lemma temp_not_checkpoint id id' :
  contains_char id slash = false → contains_char id' slash = false → temp_checkpoint_path id ≠ checkpoint_path id'.
Proof.
  intros Hi Hi'. rewrite checkpoint_path_plain, temp_path_plain by done. intros [_ [= Heq]]%app_inj_2; [|done].
  apply (f_equal str_rev) in Heq. rewrite !str_rev_append in Heq. by vm_compute in Heq.
Qed.

Lemma load_ext d d' id :
  files d !! checkpoint_path id = files d' !! checkpoint_path id → dirs d = dirs d' → load d id = load d' id.
Proof. intros Hf Hd. unfold OrchTask.load, path_exists, is_file, is_dir. by rewrite Hf, Hd. Qed.

Lemma load_text d id t :
  files d !! checkpoint_path id = Some (task_text t) → load d id = Ok (Some t).
Proof.
  intros Hf. unfold OrchTask.load, path_exists, is_file. rewrite Hf, bool_decide_eq_true_2 by done. cbn.
  by rewrite task_text_parses.
Qed.

Lemma checkpoint_save_spec fault d t :
  contains_char (o_id t) slash = false →
  dirs (save fault d t).1 = dirs d ∧
  (∀ p, p ≠ temp_checkpoint_path (o_id t) → p ≠ checkpoint_path (o_id t) → files (save fault d t).1 !! p = files d !! p) ∧
  match (save fault d t).2 with
  | Ok _ => files (save fault d t).1 !! checkpoint_path (o_id t) = Some (task_text t)
  | Err _ => files (save fault d t).1 !! checkpoint_path (o_id t) = files d !! checkpoint_path (o_id t)
  end.
Proof.
  intros Hid. pose proof (temp_not_checkpoint _ _ Hid Hid) as Hne. unfold OrchTask.save. cbv zeta.
  destruct fault as [[|written|]|]; [done|..]; destruct (create_file d _) as [d1|] eqn:Hc; try done;
    apply create_file_Some in Hc as (_ & _ & ->).
  1,2: split_and!; [done|intros q Hq1 Hq2; cbn; by rewrite !lookup_insert_ne|cbn; by rewrite !lookup_insert_ne].
  rewrite rename_written. destruct (is_dir _ (checkpoint_path _) || _); cbn.
  - split_and!; [done|intros q Hq1 Hq2; by rewrite !lookup_insert_ne|by rewrite !lookup_insert_ne].
  - split_and!; [done| |by rewrite lookup_insert_eq].
    intros q Hq1 Hq2. by rewrite lookup_insert_ne, lookup_delete_ne, lookup_insert_ne.
Qed.


Lemma listed_tidy d ids id : list_checkpoints dir d = Ok ids → id ∈ ids → ends_with id checkpoint_suffix = false.
Proof.
  unfold list_checkpoints. destruct (path_exists d dir); cbn [negb]; [|by intros [= <-] ?%elem_of_nil].
  intros (names & _ & [= <-])%bind_Ok Hin. rewrite merge_sort_Permutation in Hin.
  apply list_elem_of_omap in Hin as (name & _ & Hn). unfold checkpoint_id in Hn. case_match; [|done].
  injection Hn as <-. apply trim_end_clean.
Qed.

Lemma listed_saved d ids id data :
  tidy id = true → is_dir d dir = true → list_checkpoints dir d = Ok ids →
  files d !! checkpoint_path id = Some data → id ∈ ids.
Proof.
  intros [Hs He]%tidy_spec Hdir. unfold list_checkpoints, path_exists. rewrite Hdir, orb_true_r. cbn [negb].
  intros (names & Hnames%ok_or_Ok & [= <-])%bind_Ok Hf. rewrite merge_sort_Permutation. apply list_elem_of_omap.
  exists (id +:+ checkpoint_suffix). split; [|by apply checkpoint_id_saved].
  apply (elem_of_read_dir _ _ _ _ Hnames). left. rewrite <-checkpoint_path_plain by done. by eexists.
Qed.

(** a saved task is found again.  After a save that succeeded, the ids of
    the checkpoints contain the task's, and its checkpoint reads back as the
    task. *)
Theorem saved_task_restored d t :
  tidy (o_id t) = true → is_dir d dir = true → (save None d t).2 = Ok () →
  ∃ ids, list_checkpoints dir (save None d t).1 = Ok ids ∧ o_id t ∈ ids ∧
    load (save None d t).1 (o_id t) = Ok (Some t).
Proof.
  intros Htidy Hdir Hok. pose proof Htidy as [Hs _]%tidy_spec. destruct (checkpoint_save_spec None d t Hs) as (Hd & _ & Hr).
  rewrite Hok in Hr. assert (is_dir (save None d t).1 dir = true) as Hdir' by (unfold is_dir; by rewrite Hd).
  destruct (list_checkpoints dir (save None d t).1) as [ids|e] eqn:Hl.
  - exists ids. split_and!; [done| |by apply load_text]. by eapply listed_saved.
  - unfold list_checkpoints, path_exists, read_dir in Hl. by rewrite Hdir', orb_true_r in Hl.
Qed.

(** a task whose id ends like a checkpoint file is not found again.  The
    listing cuts the ending off as often as it occurs, so the id is never
    listed, whatever is saved. *)
Theorem suffixed_task_not_listed d ids id :
  list_checkpoints dir d = Ok ids → id +:+ checkpoint_suffix ∉ ids.
Proof.
  intros Hl Hin. apply (listed_tidy _ _ _ Hl) in Hin. apply not_true_iff_false in Hin. apply Hin, ends_with_app. eauto.
Qed.

End checkpoint_laws.

(** ** A text of tasks

    Tasks are countable, field by field; the number of a task written out is a
    text that reads back, so the law of [TaskCodec] can hold. *)

#[local] Instance json_countable : Countable json := inj_countable' json_tree tree_json tree_json_tree.

#[local] Instance task_state_countable : Countable TaskState.
Proof.
  refine (inj_countable to_proto (λ z, match z with
    | 1 => Some Pending | 2 => Some Staging | 3 => Some Provisioning | 4 => Some Ready | 5 => Some Running
    | 6 => Some Completing | 7 => Some Completed | 8 => Some Failed | 9 => Some FailedPreserved | 10 => Some Cancelled
    | _ => None end) _). by intros [].
Defined.

#[local] Instance NetworkMode_eq_dec : EqDecision NetworkMode.
Proof. solve_decision. Defined.
#[local] Instance NetworkMode_countable : Countable NetworkMode.
Proof.
  refine (inj_countable (λ n, match n with Isolated => 0 | Outbound => 1 | Full => 2 end)
    (λ z, match z with 0 => Some Isolated | 1 => Some Outbound | 2 => Some Full | _ => None end) _). by intros [].
Defined.

#[local] Instance RepositoryConfig_eq_dec : EqDecision RepositoryConfig.
Proof. solve_decision. Defined.
#[local] Instance RepositoryConfig_countable : Countable RepositoryConfig.
Proof.
  refine (inj_countable
    (λ r, [encode (rc_url r); encode (rc_branch r); encode (rc_commit r); encode (rc_subpath r)])
    (λ l, match l with [x0; x1; x2; x3] =>
        x0 ← decode x0; x1 ← decode x1; x2 ← decode x2; x3 ← decode x3;
        Some {| rc_url := x0; rc_branch := x1; rc_commit := x2; rc_subpath := x3 |}
    | _ => None end) _).
  intros []. cbn. by rewrite !decode_encode.
Defined.

#[local] Instance TaskConfig_eq_dec : EqDecision TaskConfig.
Proof. solve_decision. Defined.
#[local] Instance TaskConfig_countable : Countable TaskConfig.
Proof.
  refine (inj_countable
    (λ r, [encode (cf_provider r); encode (cf_prompt r); encode (cf_headless r);
       encode (cf_skip_permissions r); encode (cf_output_format r); encode (cf_model r);
       encode (cf_allowed_tools r); encode (cf_mcp_config r); encode (cf_max_turns r)])
    (λ l, match l with [x0; x1; x2; x3; x4; x5; x6; x7; x8] =>
        x0 ← decode x0; x1 ← decode x1; x2 ← decode x2; x3 ← decode x3; x4 ← decode x4; x5 ← decode x5;
        x6 ← decode x6; x7 ← decode x7; x8 ← decode x8;
        Some {| cf_provider := x0; cf_prompt := x1; cf_headless := x2; cf_skip_permissions := x3;
          cf_output_format := x4; cf_model := x5; cf_allowed_tools := x6; cf_mcp_config := x7;
          cf_max_turns := x8 |}
    | _ => None end) _).
  intros []. cbn. by rewrite !decode_encode.
Defined.

#[local] Instance VmConfig_eq_dec : EqDecision VmConfig.
Proof. solve_decision. Defined.
#[local] Instance VmConfig_countable : Countable VmConfig.
Proof.
  refine (inj_countable
    (λ r, [encode (vc_profile r); encode (vc_cpus r); encode (vc_memory r); encode (vc_disk r);
       encode (vc_network_mode r); encode (vc_allowed_hosts r)])
    (λ l, match l with [x0; x1; x2; x3; x4; x5] =>
        x0 ← decode x0; x1 ← decode x1; x2 ← decode x2; x3 ← decode x3; x4 ← decode x4; x5 ← decode x5;
        Some {| vc_profile := x0; vc_cpus := x1; vc_memory := x2; vc_disk := x3; vc_network_mode := x4;
          vc_allowed_hosts := x5 |}
    | _ => None end) _).
  intros []. cbn. by rewrite !decode_encode.
Defined.

#[local] Instance SecretRef_eq_dec : EqDecision SecretRef.
Proof. solve_decision. Defined.
#[local] Instance SecretRef_countable : Countable SecretRef.
Proof.
  refine (inj_countable
    (λ r, [encode (sr_name r); encode (sr_source r); encode (sr_key r)])
    (λ l, match l with [x0; x1; x2] =>
        x0 ← decode x0; x1 ← decode x1; x2 ← decode x2;
        Some {| sr_name := x0; sr_source := x1; sr_key := x2 |}
    | _ => None end) _).
  intros []. cbn. by rewrite !decode_encode.
Defined.

#[local] Instance LifecycleConfig_eq_dec : EqDecision LifecycleConfig.
Proof. solve_decision. Defined.
#[local] Instance LifecycleConfig_countable : Countable LifecycleConfig.
Proof.
  refine (inj_countable
    (λ r, [encode (lc_timeout r); encode (lc_failure_action r); encode (lc_artifact_patterns r)])
    (λ l, match l with [x0; x1; x2] =>
        x0 ← decode x0; x1 ← decode x1; x2 ← decode x2;
        Some {| lc_timeout := x0; lc_failure_action := x1; lc_artifact_patterns := x2 |}
    | _ => None end) _).
  intros []. cbn. by rewrite !decode_encode.
Defined.

#[local] Instance ChildrenConfig_eq_dec : EqDecision ChildrenConfig.
Proof. solve_decision. Defined.
#[local] Instance ChildrenConfig_countable : Countable ChildrenConfig.
Proof.
  refine (inj_countable
    (λ r, [encode (cc_max_concurrent r); encode (cc_wait_for_children r); encode (cc_aggregate_artifacts r)])
    (λ l, match l with [x0; x1; x2] =>
        x0 ← decode x0; x1 ← decode x1; x2 ← decode x2;
        Some {| cc_max_concurrent := x0; cc_wait_for_children := x1; cc_aggregate_artifacts := x2 |}
    | _ => None end) _).
  intros []. cbn. by rewrite !decode_encode.
Defined.

#[local] Instance TaskProgress_eq_dec : EqDecision TaskProgress.
Proof. solve_decision. Defined.
#[local] Instance TaskProgress_countable : Countable TaskProgress.
Proof.
  refine (inj_countable
    (λ r, [encode (pg_output_bytes r); encode (pg_tool_calls r); encode (pg_current_tool r);
       encode (pg_last_activity_at r)])
    (λ l, match l with [x0; x1; x2; x3] =>
        x0 ← decode x0; x1 ← decode x1; x2 ← decode x2; x3 ← decode x3;
        Some {| pg_output_bytes := x0; pg_tool_calls := x1; pg_current_tool := x2; pg_last_activity_at := x3 |}
    | _ => None end) _).
  intros []. cbn. by rewrite !decode_encode.
Defined.

#[local] Instance OTask_eq_dec : EqDecision OTask.
Proof. solve_decision. Defined.
#[local] Instance OTask_countable : Countable OTask.
Proof.
  refine (inj_countable
    (λ r, [encode (o_id r); encode (o_name r); encode (o_labels r); encode (o_repository r); encode (o_task r);
       encode (o_vm r); encode (o_secrets r); encode (o_lifecycle r); encode (o_parent_id r);
       encode (o_children r); encode (o_state r); encode (o_created_at r); encode (o_started_at r);
       encode (o_state_changed_at r); encode (o_state_message r); encode (o_vm_name r); encode (o_vm_ip r);
       encode (o_exit_code r); encode (o_error r); encode (o_progress r)])
    (λ l, match l with [x0; x1; x2; x3; x4; x5; x6; x7; x8; x9; x10; x11; x12; x13; x14; x15; x16; x17; x18;
       x19] =>
        x0 ← decode x0; x1 ← decode x1; x2 ← decode x2; x3 ← decode x3; x4 ← decode x4; x5 ← decode x5;
        x6 ← decode x6; x7 ← decode x7; x8 ← decode x8; x9 ← decode x9; x10 ← decode x10; x11 ← decode x11;
        x12 ← decode x12; x13 ← decode x13; x14 ← decode x14; x15 ← decode x15; x16 ← decode x16;
        x17 ← decode x17; x18 ← decode x18; x19 ← decode x19;
        Some {| o_id := x0; o_name := x1; o_labels := x2; o_repository := x3; o_task := x4; o_vm := x5;
          o_secrets := x6; o_lifecycle := x7; o_parent_id := x8; o_children := x9; o_state := x10;
          o_created_at := x11; o_started_at := x12; o_state_changed_at := x13; o_state_message := x14;
          o_vm_name := x15; o_vm_ip := x16; o_exit_code := x17; o_error := x18; o_progress := x19 |}
    | _ => None end) _).
  intros []. cbn. by rewrite !decode_encode.
Defined.

#[local] Instance sample_codec : TaskCodec.
Proof.
  refine {| task_text t := bits_text (encode t); task_parse s := decode (text_bits s) |}.
  intros t. by rewrite text_bits_text, decode_encode.
Defined.

(** ** Examples *)

Definition sample_manifest (id : string) : TaskManifest :=
  {| m_version := "1"; m_kind := "Task"; m_id := id; m_name := "fix the build"; m_labels := ∅;
     m_repository := {| rc_url := "https://example.org/r.git"; rc_branch := "main"; rc_commit := None; rc_subpath := None |};
     m_task := {| cf_provider := "claude"; cf_prompt := "Fix the build"; cf_headless := true; cf_skip_permissions := true;
       cf_output_format := "stream-json"; cf_model := "m"; cf_allowed_tools := []; cf_mcp_config := None; cf_max_turns := None |};
     m_vm := default_vm; m_secrets := [{| sr_name := "TOKEN"; sr_source := "env"; sr_key := "T" |}];
     m_lifecycle := default_lifecycle; m_parent_id := None; m_children := default_children |}.

Lemma sample_manifest_good : validate (sample_manifest "t1") = Ok ().
Proof. reflexivity. Qed.

Definition sample_task (id : string) : OTask := from_manifest 5 (sample_manifest id).

Definition sample_checkpoints : Path := ["srv"; "tasks"; "checkpoints"].
Definition sample_disk : Disk := {| files := ∅; dirs := {[ ["srv"]; ["srv"; "tasks"]; sample_checkpoints ]} |}.

Lemma sample_saved : (save sample_checkpoints None sample_disk (sample_task "t1")).2 = Ok ().
Proof. vm_compute. reflexivity. Qed.


Lemma saved_task_restored_witness :
  ∃ ids, list_checkpoints sample_checkpoints (save sample_checkpoints None sample_disk (sample_task "t1")).1 = Ok ids ∧ "t1" ∈ ids.
Proof.
  destruct (saved_task_restored sample_checkpoints sample_disk (sample_task "t1") eq_refl eq_refl sample_saved)
    as (ids & Hids & Hin & _). exact (ex_intro _ ids (conj Hids Hin)).
Defined.

Lemma suffixed_task_not_listed_witness :
  list_checkpoints sample_checkpoints sample_disk = Ok [] ∧ ("a" +:+ checkpoint_suffix) ∉ ([] : list string).
Proof.
  assert (list_checkpoints sample_checkpoints sample_disk = Ok []) as Hl by reflexivity.
  split; [exact Hl|]. exact (suffixed_task_not_listed sample_checkpoints sample_disk [] "a" Hl).
Defined.
