(* ===== verification/Lifecycle.v ===== *)
(** * The orchestrator: running a task in a virtual machine

    Models management/src/orchestrator/mod.rs, executor.rs and the handlers of
    management/src/http/tasks.rs: submitting a task, the background run that
    takes it through its states, cancelling, restoring after a restart.

    Tasks are shared: the index maps an id to a handle, and the background run
    of a task, a request that cancels it and the readers all use what the
    handle points to ([heap]).  A run is a program counter; every lock section
    and every call of an external program is one step, and steps of different
    runs and requests interleave in any order.

    Git, the provisioning and destroying scripts, ssh and the artifact
    collector are outside: what they answer is the [Io] of the step.  What they
    do to the host is kept as the set of virtual machines. *)

From Stdlib Require Import Ascii.
From S2P Require Import Prelude Text Json Dispatcher Disk OrchTask.

Local Open Scope string_scope.
Local Open Scope list_scope.
Local Open Scope Z_scope.

(** ** Errors *)

Inductive ExecutorError : Type :=
| UnknownProvider (name : string)
| CommandFailed (e : string)
| ProvisionFailed (e : string)
| VmNotReady
| StorageError (e : string)
| SecretError (e : string).

Definition executor_error_text (e : ExecutorError) : string :=
  match e with
  | UnknownProvider n => "Unknown task provider: " +:+ n
  | CommandFailed e => "Command failed: " +:+ e
  | ProvisionFailed e => "VM provisioning failed: " +:+ e
  | VmNotReady => "VM not ready - no IP assigned"
  | StorageError e => "Storage error: " +:+ e
  | SecretError e => "Secret resolution failed: " +:+ e
  end.

Definition manifest_error_text (e : ManifestError) : string :=
  match e with
  | ParseError e => "Failed to parse YAML: " +:+ e
  | JsonParseError e => "Failed to parse JSON: " +:+ e
  | UnsupportedVersion v => "Unsupported manifest version: " +:+ v
  | InvalidKind k => "Invalid manifest kind: " +:+ k
  | MissingField f => "Missing required field: " +:+ f
  | InvalidField f why => "Invalid field " +:+ f +:+ ": " +:+ why
  end.

Definition orchestrator_error_text (e : OrchestratorError) : string :=
  match e with
  | TaskNotFound id => "Task not found: " +:+ id
  | InvalidTransition a b => "Invalid state transition: " +:+ a +:+ " -> " +:+ b
  | ManifestErr e => "Manifest error: " +:+ manifest_error_text e
  | StorageErr e => "Storage error: " +:+ e
  | CheckpointErr e => "Checkpoint error: " +:+ e
  | ExecutorErr e => "Executor error: " +:+ e
  | CollectorErr e => "Collector error: " +:+ e
  end.

Definition checkpoint_error (e : CheckpointError) : OrchestratorError :=
  CheckpointErr match e with
  | CkIo => "IO error"
  | CkDeserialization id => "Deserialization error for task " +:+ id
  end.

Definition executor_error (e : ExecutorError) : OrchestratorError := ExecutorErr (executor_error_text e).

(** ** Storage *)

Section storage.
Variable tasks_root : Path.

Definition task_dir (task_id : string) : Path := join_path tasks_root task_id.
Definition inbox_path (task_id : string) : Path := join_path (task_dir task_id) "inbox".
Definition outbox_path (task_id : string) : Path := join_path (task_dir task_id) "outbox".
Definition progress_path (task_id : string) : Path := join_path (outbox_path task_id) "progress".
Definition artifacts_path (task_id : string) : Path := join_path (outbox_path task_id) "artifacts".

(** The operations in order, up to the first that fails. *)
Fixpoint run_ops (d : Disk) (ops : list (Disk → option Disk)) : Disk * bool :=
  match ops with
  | [] => (d, true)
  | op :: ops => match op d with Some d => run_ops d ops | None => (d, false) end
  end.

Definition create_task_directory (d : Disk) (task_id : string) : Disk * bool :=
  let progress := progress_path task_id in
  run_ops d [(λ d, create_dir_all d (task_dir task_id)); (λ d, create_dir_all d (inbox_path task_id));
    (λ d, create_dir_all d (outbox_path task_id)); (λ d, create_dir_all d progress);
    (λ d, create_dir_all d (artifacts_path task_id)); (λ d, create_file d (join_path progress "stdout.log"));
    (λ d, create_file d (join_path progress "stderr.log")); (λ d, create_file d (join_path progress "events.jsonl"))].

Definition newline : string := String.String "010"%char EmptyString.

Definition prompt_text (prompt : string) : string :=
  "# Task Instructions" +:+ newline +:+ newline +:+ prompt +:+ newline +:+ newline +:+ "---" +:+ newline +:+
  "*This file was generated by agentic-sandbox task orchestration.*" +:+ newline.

Definition write_task_prompt (d : Disk) (task_id prompt : string) : option Disk :=
  write_file d (join_path (inbox_path task_id) "TASK.md") (prompt_text prompt).

(** [cleanup_task]: nothing where there is no directory. *)
Definition cleanup_task (d : Disk) (task_id : string) : option Disk :=
  if path_exists d (task_dir task_id) then remove_dir_all d (task_dir task_id) else Some d.

Definition task_exists (d : Disk) (task_id : string) : bool := path_exists d (task_dir task_id).

End storage.

(** ** External programs *)

(** A child process: it cannot be started, or it ends. *)
Inductive Exec : Type :=
| SpawnFailed (e : string)
| Exited (success : bool) (stderr : string).

Record VmInfo : Type := {
  vi_name : string;
  vi_ip : string;
  vi_ssh_key_path : string;
}.

(** [pi_created]: whether the machine is there afterwards; [pi_info]: the file
    with the machine's data, or why it cannot be read. *)
Record ProvisionIo : Type := {
  pi_script : Exec;
  pi_created : bool;
  pi_info : result string string;
}.

Record StageIo : Type := {
  si_clone : Exec;
  si_checkout : Exec;
}.

(** ssh cannot be started, cannot be waited for, or ends, by a signal when
    there is no code. *)
Inductive SshEnd : Type :=
| SshSpawnFailed (e : string)
| SshWaitFailed (e : string)
| SshExited (code : option Z).

Record Io : Type := {
  io_now : Z;
  io_fault : option SaveFault;
  io_stage : StageIo;
  io_provision : ProvisionIo;
  io_ssh : SshEnd;
  io_collect : result string unit;
  io_destroy : Exec;
  io_destroyed : bool;
}.

(** ** The executor *)

(** [&task_id[..8]]: a panic when the id is shorter or the cut is inside a
    character. *)
Definition id_prefix (id : string) : option string :=
  if (String.length id <? 8)%nat then None
  else match String.get 8 id with
    | Some c => if (128 <=? byte_val c) && (byte_val c <? 192) then None else Some (String.substring 0 8 id)
    | None => Some id
    end.

Definition clone_args (t : OTask) (inbox : string) : list string :=
  ["clone"; "--depth"; "1"; "--branch"; rc_branch (o_repository t); rc_url (o_repository t); inbox].

(** The repository itself is written by git; a failed checkout is ignored. *)
Definition stage_task (tasks_root : Path) (io : StageIo) (d : Disk) (t : OTask) : Disk * result ExecutorError unit :=
  match si_clone io with
  | SpawnFailed e => (d, Err (CommandFailed ("git clone: " +:+ e)))
  | Exited false stderr => (d, Err (CommandFailed ("git clone failed: " +:+ stderr)))
  | Exited true _ =>
      match rc_commit (o_repository t), si_checkout io with
      | Some _, SpawnFailed e => (d, Err (CommandFailed ("git checkout: " +:+ e)))
      | _, _ =>
          match write_task_prompt tasks_root d (o_id t) (cf_prompt (o_task t)) with
          | Some d => (d, Ok ())
          | None => (d, Err (StorageError "IO error"))
          end
      end
  end.

Definition provision_args (t : OTask) (vm_name : string) : list string :=
  ["--profile"; vc_profile (o_vm t); "--cpus"; pretty (vc_cpus (o_vm t)); "--memory"; vc_memory (o_vm t);
   "--task-id"; o_id t; "--start"; "--wait"; vm_name].

Section executor.
Context `{Env, MapIter}.

(** [None] is a panic. *)
Definition provision_vm (io : ProvisionIo) (vms : gset string) (t : OTask)
    : gset string * option (result ExecutorError VmInfo) :=
  match id_prefix (o_id t) with
  | None => (vms, None)
  | Some prefix =>
      let vm_name := "task-" +:+ prefix in
      let vms := if pi_created io then {[vm_name]} ∪ vms else vms in
      (vms, Some match pi_script io with
        | SpawnFailed e => Err (CommandFailed ("provision-vm.sh: " +:+ e))
        | Exited false stderr => Err (ProvisionFailed ("VM provisioning failed: " +:+ stderr))
        | Exited true _ =>
            text ← map_err (λ e, CommandFailed ("Failed to read vm-info.json: " +:+ e)) (pi_info io);
            info ← ok_or (json_parse text) (CommandFailed "Failed to parse vm-info.json");
            ip ← ok_or (json_get info "ip" ≫= as_str) (CommandFailed "No IP in vm-info.json");
            key ← ok_or ((json_get info "management" ≫= λ m, json_get m "ssh_key_path") ≫= as_str)
                    (CommandFailed "No ssh_key_path in vm-info.json");
            Ok {| vi_name := vm_name; vi_ip := ip; vi_ssh_key_path := key |}
        end)
  end.

(** The command-line arguments of the two providers. *)
Definition claude_args (c : TaskConfig) : list string :=
  ["--print"] ++ (if cf_skip_permissions c then ["--dangerously-skip-permissions"] else []) ++
  (if bool_decide (cf_output_format c = "stream-json") then ["--output-format"; "stream-json"] else []) ++
  (match cf_max_turns c with Some n => ["--max-turns"; pretty n] | None => [] end) ++
  (cf_allowed_tools c ≫= λ tool, ["--allowedTools"; tool]) ++
  ["--prompt"; "Read TASK.md for your instructions"].

Definition dsh_args : list string := ["--profile"; "headless"; "Read TASK.md for your instructions"].

(** The executable and arguments of a provider. *)
Definition provider_executor (c : TaskConfig) : result ExecutorError (string * list string) :=
  if decide (cf_provider c = "claude") then Ok ("claude", claude_args c)
  else if decide (cf_provider c = "dsh") then Ok ("dsh", dsh_args)
  else Err (UnknownProvider (cf_provider c)).

(** The secrets that resolve, by name. *)
Definition resolved_secrets (resolve : SecretRef → option string) (l : list SecretRef) : gmap string string :=
  foldl (λ m s, match resolve s with Some v => <[sr_name s := v]> m | None => m end) ∅ l.

(** [v.replace("'", "'\\''")] *)
Fixpoint escape_quotes (s : string) : string :=
  match s with
  | EmptyString => EmptyString
  | String.String c s =>
      if Ascii.eqb c quote_char then "'\''" +:+ escape_quotes s else String.String c (escape_quotes s)
  end.

Definition export_line (kv : string * string) : string :=
  "export " +:+ kv.1 +:+ "='" +:+ escape_quotes kv.2 +:+ "'".

Definition remote_cmd (resolve : SecretRef → option string) (t : OTask) (executable : string) (args : list string) : string :=
  let env_cmd := String.concat " && " (export_line <$> iter (resolved_secrets resolve (o_secrets t))) in
  "cd ~/workspace && " +:+ (if decide (env_cmd = EmptyString) then "true" else env_cmd) +:+ " && " +:+ executable +:+ " " +:+
  String.concat " " args.

(** The result of ssh; the command it runs is [remote_cmd].  [None] is a
    panic. *)
Definition execute_provider (ssh : SshEnd) (t : OTask) : option (result ExecutorError Z) :=
  match o_vm_ip t with
  | None => Some (Err VmNotReady)
  | Some _ =>
      match provider_executor (o_task t) with
      | Err e => Some (Err e)
      | Ok _ =>
          match id_prefix (o_id t) with
          | None => None
          | Some _ => Some match ssh with
              | SshSpawnFailed e => Err (CommandFailed ("SSH spawn failed: " +:+ e))
              | SshWaitFailed e => Err (CommandFailed ("SSH wait failed: " +:+ e))
              | SshExited code => Ok (default (-1) code)
              end
          end
      end
  end.

End executor.

(** ** Runs *)

(** Where the background run of a task is.  [PTo..] waits for the lock. *)
Inductive Pc : Type :=
| PToStaging | PStage | PToProvisioning | PProvision | PToReady (vm : VmInfo) | PToRunning | PExecute
| PToCompleting (code : Z) | PCollect (code : Z) | PToCompleted (code : Z) | PCleanup
| PToFailed (error : string) | PCleanupFailed.

Inductive RunEnd : Type :=
| Finished
| Aborted (e : OrchestratorError)
| Panicked.

(** [w_tasks]: the index; [w_heap]: the tasks behind the handles; [w_cancels]:
    the handles whose cancellation waits for its clean-up. *)
Record Orchestrator : Type := {
  w_tasks : gmap string Z;
  w_heap : gmap Z OTask;
  w_next : Z;
  w_runs : gmap Z Pc;
  w_cancels : list Z;
  w_monitors : gset string;
  w_disk : Disk;
  w_vms : gset string;
}.

Section orchestrator.
Context `{Env, TaskCodec}.
Variable tasks_root : Path.
Implicit Types (w : Orchestrator) (h : Z) (io : Io) (t : OTask).

Definition checkpoint_dir : Path := join_path tasks_root "checkpoints".

(** A section under the write lock: [f], a transition, a checkpoint.  What [f]
    did stays when the transition is refused. *)
Definition locked_transition io (f : OTask → OTask) (next : TaskState) w h : Orchestrator * result OrchestratorError unit :=
  match w_heap w !! h with
  | None => (w, Err (TaskNotFound EmptyString))
  | Some t =>
      let t := f t in
      match transition_to (io_now io) next t with
      | Err e => (w <| w_heap ::= <[h := t]> |>, Err e)
      | Ok t =>
          let '(d, saved) := save checkpoint_dir (io_fault io) (w_disk w) t in
          (w <| w_heap ::= <[h := t]> |> <| w_disk := d |>, map_err checkpoint_error saved)
      end
  end.

Definition cleanup_vm io w h : Orchestrator * result ExecutorError unit :=
  match w_heap w !! h ≫= o_vm_name with
  | None => (w, Ok ())
  | Some name =>
      match io_destroy io with
      | SpawnFailed e => (w, Err (CommandFailed ("destroy-vm.sh: " +:+ e)))
      | Exited _ _ => (if io_destroyed io then w <| w_vms ::= λ vms, vms ∖ {[name]} |> else w, Ok ())
      end
  end.

Definition start_monitoring w (task_id : string) : Orchestrator := w <| w_monitors ::= λ m, {[task_id]} ∪ m |>.
Definition stop_monitoring w (task_id : string) : Orchestrator := w <| w_monitors ::= λ m, m ∖ {[task_id]} |>.

Definition collect_artifacts io t : result OrchestratorError unit :=
  if decide (lc_artifact_patterns (o_lifecycle t) = []) then Ok () else map_err CollectorErr (io_collect io).

(** Where the run goes after a lock section. *)
Definition continue (pc : Pc) (r : Orchestrator * result OrchestratorError unit) : Orchestrator * (Pc + RunEnd) :=
  match r with
  | (w, Ok _) => (w, inl pc)
  | (w, Err e) => (w, inr (Aborted e))
  end.

(** One step of [execute_task_lifecycle]. *)
Definition run_step io w h t (pc : Pc) : Orchestrator * (Pc + RunEnd) :=
  match pc with
  | PToStaging => continue PStage (locked_transition io id Staging w h)
  | PStage =>
      let '(d, r) := stage_task tasks_root (io_stage io) (w_disk w) t in
      (w <| w_disk := d |>, match r with Ok _ => inl PToProvisioning | Err e => inr (Aborted (executor_error e)) end)
  | PToProvisioning => continue PProvision (locked_transition io id Provisioning w h)
  | PProvision =>
      let '(vms, r) := provision_vm (io_provision io) (w_vms w) t in
      (w <| w_vms := vms |>, match r with
        | Some (Ok vm) => inl (PToReady vm)
        | Some (Err e) => inr (Aborted (executor_error e))
        | None => inr Panicked
        end)
  | PToReady vm =>
      continue PToRunning (locked_transition io
        (λ t, t <| o_vm_name := Some (vi_name vm) |> <| o_vm_ip := Some (vi_ip vm) |>) Ready w h)
  | PToRunning => continue PExecute (locked_transition io id Running w h)
  | PExecute =>
      let w := start_monitoring w (o_id t) in
      match execute_provider (io_ssh io) t with
      | Some (Ok code) => (stop_monitoring w (o_id t), inl (PToCompleting code))
      | Some (Err e) => (stop_monitoring w (o_id t), inl (PToFailed (executor_error_text e)))
      | None => (w, inr Panicked)
      end
  | PToCompleting code => continue (PCollect code) (locked_transition io id Completing w h)
  | PCollect code =>
      (w, match collect_artifacts io t with Ok _ => inl (PToCompleted code) | Err e => inr (Aborted e) end)
  | PToCompleted code => continue PCleanup (locked_transition io (λ t, t <| o_exit_code := Some code |>) Completed w h)
  | PCleanup =>
      let '(w, r) := cleanup_vm io w h in
      (w, inr (match r with Ok _ => Finished | Err e => Aborted (executor_error e) end))
  | PToFailed e =>
      if decide (lc_failure_action (o_lifecycle t) = "preserve") then
        let '(w, r) := locked_transition io (λ t, t <| o_error := Some e |>) FailedPreserved w h in
        (w, inr (match r with Ok _ => Finished | Err e => Aborted e end))
      else continue PCleanupFailed (locked_transition io (λ t, t <| o_error := Some e |>) Failed w h)
  | PCleanupFailed => ((cleanup_vm io w h).1, inr Finished)
  end.

(** A step of the run of a handle; a run that ends is gone. *)
Definition advance_run io w h : Orchestrator * option RunEnd :=
  match w_runs w !! h, w_heap w !! h with
  | Some pc, Some t =>
      match run_step io w h t pc with
      | (w, inl pc) => (w <| w_runs ::= <[h := pc]> |>, None)
      | (w, inr e) => (w <| w_runs ::= delete h |>, Some e)
      end
  | _, _ => (w, None)
  end.

(** ** Requests *)

Definition submit_task io w (m : TaskManifest) : Orchestrator * result OrchestratorError string :=
  match validate m with
  | Err e => (w, Err (ManifestErr e))
  | Ok _ =>
      let t := from_manifest (io_now io) m in
      match create_task_directory tasks_root (w_disk w) (o_id t) with
      | (d, false) => (w <| w_disk := d |>, Err (StorageErr "IO error"))
      | (d, true) =>
          match save checkpoint_dir (io_fault io) d t with
          | (d, Err e) => (w <| w_disk := d |>, Err (checkpoint_error e))
          | (d, Ok _) =>
              (w <| w_disk := d |> <| w_tasks ::= <[o_id t := w_next w]> |> <| w_heap ::= <[w_next w := t]> |>
                 <| w_runs ::= <[w_next w := PToStaging]> |> <| w_next ::= Z.add 1 |>, Ok (o_id t))
          end
      end
  end.

(** [RwLock::blocking_read] panics inside a runtime. *)
Definition blocking_read (in_runtime : bool) t : option OTask := if in_runtime then None else Some t.

(** [None] is a panic. *)
Definition get_task (in_runtime : bool) w (task_id : string) : option (option OTask) :=
  match w_tasks w !! task_id ≫= λ h, w_heap w !! h with
  | None => Some None
  | Some t => Some <$> blocking_read in_runtime t
  end.

Definition state_matches (filter : option (list TaskState)) t : bool :=
  match filter with None => true | Some states => bool_decide (o_state t ∈ states) end.

Definition list_tasks `{MapIter} (in_runtime : bool) w (filter : option (list TaskState)) : option (list OTask) :=
  ts ← mapM (blocking_read in_runtime) (omap (λ kv : string * Z, w_heap w !! kv.2) (iter (w_tasks w)));
  Some (List.filter (state_matches filter) ts).

(** The first half of [cancel_task], up to the clean-up. *)
Definition cancel_begin io w (task_id reason : string) : Orchestrator * result OrchestratorError unit :=
  match w_tasks w !! task_id with
  | None => (w, Err (TaskNotFound task_id))
  | Some h =>
      match locked_transition io (λ t, t <| o_error := Some ("Cancelled: " +:+ reason) |>) Cancelled w h with
      | (w, Ok _) => (w <| w_cancels ::= λ l, l ++ [h] |>, Ok ())
      | (w, Err e) => (w, Err e)
      end
  end.

Definition cancel_finish io w h : Orchestrator * result OrchestratorError unit :=
  let '(w, r) := cleanup_vm io w h in (w, map_err executor_error r).

(** Restoring puts every task that loads behind a fresh handle; an error ends
    it. *)
Fixpoint restore_all w (ids : list string) (count : Z) : Orchestrator * result OrchestratorError Z :=
  match ids with
  | [] => (w, Ok count)
  | id :: ids =>
      match load checkpoint_dir (w_disk w) id with
      | Err e => (w, Err (checkpoint_error e))
      | Ok None => restore_all w ids count
      | Ok (Some t) =>
          restore_all (w <| w_tasks ::= <[id := w_next w]> |> <| w_heap ::= <[w_next w := t]> |> <| w_next ::= Z.add 1 |>)
            ids (count + 1)
      end
  end.

Definition restore_from_checkpoints w : Orchestrator * result OrchestratorError Z :=
  match list_checkpoints checkpoint_dir (w_disk w) with
  | Err e => (w, Err (checkpoint_error e))
  | Ok ids => restore_all w ids 0
  end.

(** What a restart of the process leaves. *)
Definition restarted w : Orchestrator :=
  {| w_tasks := ∅; w_heap := ∅; w_next := w_next w; w_runs := ∅; w_cancels := []; w_monitors := ∅;
     w_disk := w_disk w; w_vms := w_vms w |}.

(** ** Steps *)

Inductive orch_step : Orchestrator → Orchestrator → Prop :=
| os_submit io w m : orch_step w (submit_task io w m).1
| os_run io w h : orch_step w (advance_run io w h).1
| os_cancel io w id reason : orch_step w (cancel_begin io w id reason).1
| os_cleanup io w l1 h l2 :
    w_cancels w = l1 ++ h :: l2 →
    orch_step w (cancel_finish io (w <| w_cancels := l1 ++ l2 |>) h).1.

Definition empty_orchestrator (d : Disk) : Orchestrator :=
  {| w_tasks := ∅; w_heap := ∅; w_next := 0; w_runs := ∅; w_cancels := []; w_monitors := ∅; w_disk := d; w_vms := ∅ |}.

End orchestrator.

(** ** The HTTP interface

    [rt_orchestrator]: the orchestrator of the application, if it has one.
    Handlers run inside the runtime. *)

Record SubmitTaskResponse : Type := {
  sub_task_id : string;
  sub_accepted : bool;
  sub_error : option string;
}.

Record TaskStatusResponse : Type := {
  ts_id : string;
  ts_name : string;
  ts_state : string;
  ts_state_message : option string;
  ts_created_at : string;
  ts_started_at : option string;
  ts_state_changed_at : string;
  ts_vm_name : option string;
  ts_vm_ip : option string;
  ts_exit_code : option Z;
  ts_error : option string;
  ts_output_bytes : Z;
  ts_tool_calls : Z;
  ts_current_tool : option string;
  ts_last_activity_at : option string;
}.

Section handlers.
Context `{Env, TaskCodec, MapIter}.
Variable tasks_root : Path.
Implicit Types (w : Orchestrator) (io : Io) (t : OTask).

Definition task_to_response t : TaskStatusResponse :=
  {| ts_id := o_id t; ts_name := o_name t; ts_state := state_name (o_state t); ts_state_message := o_state_message t;
     ts_created_at := rfc3339 (o_created_at t); ts_started_at := rfc3339 <$> o_started_at t;
     ts_state_changed_at := rfc3339 (o_state_changed_at t); ts_vm_name := o_vm_name t; ts_vm_ip := o_vm_ip t;
     ts_exit_code := o_exit_code t; ts_error := o_error t; ts_output_bytes := pg_output_bytes (o_progress t);
     ts_tool_calls := pg_tool_calls (o_progress t); ts_current_tool := pg_current_tool (o_progress t);
     ts_last_activity_at := rfc3339 <$> pg_last_activity_at (o_progress t) |}.

(** What the request carries, already decoded: YAML first, then JSON. *)
Inductive SubmittedManifest : Type :=
| SmYaml (m : result string TaskManifest)
| SmJson (m : result string TaskManifest)
| SmNone.

Definition refused (error : string) : SubmitTaskResponse :=
  {| sub_task_id := EmptyString; sub_accepted := false; sub_error := Some error |}.

Definition submit_handler io (fresh : string) (ow : option Orchestrator) (body : SubmittedManifest)
    : option Orchestrator * (Z * SubmitTaskResponse) :=
  match ow with
  | None => (None, (503, refused "Orchestrator not initialized"))
  | Some w =>
      match body with
      | SmYaml (Err e) => (Some w, (400, refused ("Invalid YAML manifest: " +:+ e)))
      | SmJson (Err e) => (Some w, (400, refused ("Invalid JSON manifest: " +:+ e)))
      | SmNone => (Some w, (400, refused "Either manifest_yaml or manifest required"))
      | SmYaml (Ok m) | SmJson (Ok m) =>
          match submit_task tasks_root io w (with_generated_id fresh m) with
          | (w, Ok id) => (Some w, (202, {| sub_task_id := id; sub_accepted := true; sub_error := None |}))
          | (w, Err e) => (Some w, (400, refused (orchestrator_error_text e)))
          end
      end
  end.

Definition parse_state (s : string) : option TaskState :=
  find_first (λ st, bool_decide (state_name st = trim s))
    [Pending; Staging; Provisioning; Ready; Running; Completing; Completed; Failed; FailedPreserved; Cancelled].

Definition state_filter (query : option string) : option (list TaskState) :=
  omap parse_state ∘ split_char ","%char <$> query.

(** [None] is a panic. *)
Definition list_handler (ow : option Orchestrator) (query : option string) (offset limit : Z)
    : option (Z * (list TaskStatusResponse * Z)) :=
  match ow with
  | None => Some (503, ([], 0))
  | Some w =>
      ts ← list_tasks true w (state_filter query);
      Some (200, (task_to_response <$> take (Z.to_nat limit) (drop (Z.to_nat offset) ts), len ts))
  end.

Definition get_handler (ow : option Orchestrator) (task_id : string) : option (Z * option TaskStatusResponse) :=
  match ow with
  | None => Some (503, None)
  | Some w =>
      r ← get_task true w task_id;
      Some match r with Some t => (200, Some (task_to_response t)) | None => (404, None) end
  end.

Definition cancel_status (e : OrchestratorError) : Z := match e with TaskNotFound _ => 404 | _ => 400 end.

(** The first half; the answer to an error, or nothing while the clean-up is to
    come. *)
Definition cancel_handler io w (task_id : string) (reason : option string) : Orchestrator * option Z :=
  match cancel_begin tasks_root io w task_id (default "User requested cancellation" reason) with
  | (w, Ok _) => (w, None)
  | (w, Err e) => (w, Some (cancel_status e))
  end.

(** The file's content with a 200. *)
Definition download_artifact (ow : option Orchestrator) (task_id artifact_name : string) : Z * option string :=
  match ow with
  | None => (503, None)
  | Some w =>
      let path := join_path (artifacts_path tasks_root task_id) artifact_name in
      if negb (path_exists (w_disk w) path) then (404, None)
      else match files (w_disk w) !! path with Some content => (200, Some content) | None => (500, None) end
  end.

End handlers.

(** ** Sections and steps *)

Section laws.
Context `{Env, TaskCodec}.
Variable tasks_root : Path.
Implicit Types (w : Orchestrator) (h : Z) (io : Io) (t : OTask) (f : OTask → OTask).
Abbreviation locked_transition := (locked_transition tasks_root).
Abbreviation run_step := (run_step tasks_root).
Abbreviation advance_run := (advance_run tasks_root).
Abbreviation submit_task := (submit_task tasks_root).
Abbreviation cancel_begin := (cancel_begin tasks_root).
Abbreviation orch_step := (orch_step tasks_root).

(** What the sections do besides the transition. *)
Definition quiet f : Prop := ∀ t, o_state (f t) = o_state t ∧ o_id (f t) = o_id t ∧ o_lifecycle (f t) = o_lifecycle t.

(** A task after a step: the same task, in the same state or a permitted one. *)
Definition moved t t' : Prop :=
  o_id t' = o_id t ∧ o_lifecycle t' = o_lifecycle t ∧
  (o_state t' = o_state t ∨ can_transition_to (o_state t) (o_state t') = true).

Lemma locked_spec io f next w h t :
  quiet f → w_heap w !! h = Some t →
  ∃ t' d r, locked_transition io f next w h = (w <| w_heap ::= <[h := t']> |> <| w_disk := d |>, r) ∧ moved t t' ∧
    match r with
    | Ok _ => o_state t' = next ∧ can_transition_to (o_state t) next = true ∧ o_vm_name t' = o_vm_name (f t)
    | Err (InvalidTransition a b) => t' = f t ∧ d = w_disk w ∧ can_transition_to (o_state t) next = false ∧ a = state_name (o_state t)
    | Err e => o_state t' = next ∧ ∃ c, e = checkpoint_error c
    end.
Proof.
  intros Hf Hh. unfold Lifecycle.locked_transition. rewrite Hh. destruct (Hf t) as (Hs & Hi & Hl).
  destruct (transition_to (io_now io) next (f t)) as [t'|e] eqn:Ht.
  - pose proof (transition_Ok _ _ _ _ Ht) as (Hc & Hs' & _ & Hi' & Hv & _ & _ & Hl' & _).
    assert (moved t t') as Hm. { split_and!; [congruence..|]. right. by rewrite Hs', <-Hs. }
    destruct (save _ _ _ _) as [d [[]|c]]; cbn [map_err]; exists t', d; eexists; (split; [reflexivity|]); (split; [done|]); cbn.
    + by rewrite <-Hs.
    + destruct c; (split; [done|]); by eexists.
  - unfold transition_to in Ht. destruct (can_transition_to _ _) eqn:Hc; [done|]. injection Ht as <-.
    exists (f t), (w_disk w); eexists; split; [|split; [by split_and!; auto|]].
    + by destruct w.
    + cbn. by rewrite <-Hs.
Qed.

(** The state a run expects where it is; a cancelled task stays cancelled. *)
Definition pc_state (pc : Pc) : TaskState :=
  match pc with
  | PToStaging => Pending
  | PStage | PToProvisioning => Staging
  | PProvision | PToReady _ => Provisioning
  | PToRunning => Ready
  | PExecute | PToCompleting _ | PToFailed _ => Running
  | PCollect _ | PToCompleted _ => Completing
  | PCleanup => Completed
  | PCleanupFailed => Failed
  end.

Definition at_pc (pc : Pc) (st : TaskState) : Prop :=
  st = pc_state pc ∨ (st = Cancelled ∧ is_terminal (pc_state pc) = false).

(** How many steps a run has left at most. *)
Definition pc_left (pc : Pc) : nat :=
  match pc with
  | PToStaging => 11 | PStage => 10 | PToProvisioning => 9 | PProvision => 8 | PToReady _ => 7 | PToRunning => 6
  | PExecute => 5 | PToCompleting _ => 4 | PCollect _ => 3 | PToCompleted _ => 2 | PCleanup => 1
  | PToFailed _ => 2 | PCleanupFailed => 1
  end.

(** Everything but the tasks, the disk, the monitors and the machines. *)
Definition same_requests w w' : Prop :=
  w_tasks w' = w_tasks w ∧ w_next w' = w_next w ∧ w_runs w' = w_runs w ∧ w_cancels w' = w_cancels w.

Definition step_ok t (pc : Pc) t' (r : Pc + RunEnd) : Prop :=
  match r with
  | inl pc' => (pc_left pc' < pc_left pc)%nat ∧ (at_pc pc (o_state t) → at_pc pc' (o_state t'))
  | inr Finished => at_pc pc (o_state t) → is_terminal (o_state t') = true
  | inr (Aborted (InvalidTransition a _)) => at_pc pc (o_state t) → a = "cancelled"
  | _ => True
  end.

Lemma moved_refl t : moved t t.
Proof. split_and!; auto. Qed.

Lemma continue_spec io f next w h t pc pc' w' r :
  quiet f → w_heap w !! h = Some t → (pc_left pc' < pc_left pc)%nat → can_transition_to (pc_state pc) next = true →
  pc_state pc' = next →
  continue pc' (locked_transition io f next w h) = (w', r) →
  ∃ t', w_heap w' = <[h := t']> (w_heap w) ∧ moved t t' ∧ same_requests w w' ∧ step_ok t pc t' r.
Proof.
  intros Hf Hh Hlt Hcan Hpc. destruct (locked_spec io f next w h t Hf Hh) as (t' & d & lr & -> & Hm & Hr).
  unfold continue. destruct lr as [[]|e]; intros [= <- <-]; exists t'; (split; [done|]); (split; [done|]); (split; [done|]); cbn.
  - destruct Hr as (Hs & _ & _). split; [done|]. intros _. left. by rewrite Hpc.
  - destruct e; try done. destruct Hr as (_ & _ & Hc & ->). intros [Hst|[-> _]]; [congruence|done].
Qed.

Lemma cleanup_spec io w h w' r :
  cleanup_vm io w h = (w', r) → w_heap w' = w_heap w ∧ same_requests w w' ∧ w_disk w' = w_disk w.
Proof. unfold cleanup_vm. repeat case_match; intros [= <- <-]; done. Qed.

Lemma run_step_spec io w h t pc w' r :
  w_heap w !! h = Some t → run_step io w h t pc = (w', r) →
  ∃ t', w_heap w' = <[h := t']> (w_heap w) ∧ moved t t' ∧ same_requests w w' ∧ step_ok t pc t' r.
Proof.
  intros Hh. assert (∀ w1 r1, w_heap w1 = w_heap w → same_requests w w1 → step_ok t pc t r1 →
    ∃ t', w_heap w1 = <[h := t']> (w_heap w) ∧ moved t t' ∧ same_requests w w1 ∧ step_ok t pc t' r1) as Hsame.
  { intros w1 r1 Hw Hs Hok. exists t. rewrite Hw, insert_id by done. split_and!; auto using moved_refl. }
  destruct pc; cbn [Lifecycle.run_step].
  1,3,5,6,8,10: by apply continue_spec; try done; cbn; lia.
  - destruct (stage_task _ _ _ _) as [d [[]|e]]; intros [= <- <-]; apply Hsame; try done; cbn; split; [lia|auto].
  - destruct (provision_vm _ _ _) as [vms [[vm|e]|]]; intros [= <- <-]; apply Hsame; try done; cbn; split; [lia|auto].
  - destruct (execute_provider _ _) as [[code|e]|]; intros [= <- <-]; apply Hsame; try done; cbn; (split; [lia|auto]).
  - intros [= <- <-]. apply Hsame; [done..|]. unfold collect_artifacts.
    case_decide; [cbn; split; [lia|auto]|]. destruct (io_collect io); cbn; [split; [lia|auto]|done].
  - destruct (cleanup_vm io w h) as [w1 lr] eqn:Hc. apply cleanup_spec in Hc as (Hw & Hs & _). intros [= <- <-].
    apply Hsame; [done..|]. destruct lr; cbn; [|done]. by intros [->|[_ ?]].
  - case_decide.
    + destruct (locked_transition _ _ _ _ _) as [w1 lr] eqn:Hl.
      edestruct (locked_spec io (λ t, t <| o_error := Some error |>) FailedPreserved w h t) as (t' & d & lr' & Hl' & Hm & Hr);
        [done|done|]. rewrite Hl' in Hl. injection Hl as <- <-. intros [= <- <-]. exists t'. split_and!; try done.
      destruct lr' as [[]|e]; cbn; [by destruct Hr as (-> & _)|]. destruct e; try done.
      destruct Hr as (_ & _ & Hc & ->). intros [Hst|[-> _]]; [by rewrite Hst in Hc|done].
    + apply continue_spec; try done; cbn; lia.
  - destruct (cleanup_vm io w h) as [w1 lr] eqn:Hc. apply cleanup_spec in Hc as (Hw & Hs & _). intros [= <- <-].
    apply Hsame; [done..|]. cbn. by intros [->|[_ ?]].
Qed.

(** ** Invariant *)

Record orch_inv w : Prop := {
  oi_fresh h t : w_heap w !! h = Some t → h < w_next w;
  oi_runs h pc : w_runs w !! h = Some pc → ∃ t, w_heap w !! h = Some t ∧ at_pc pc (o_state t);
  oi_index id h : w_tasks w !! id = Some h → is_Some (w_heap w !! h);
}.

Lemma empty_inv d : orch_inv (empty_orchestrator d).
Proof. constructor; intros; cbn in *; simplify_map_eq. Qed.

(** A step on a handle keeps every task, moved or not. *)
Definition kept w w' : Prop := ∀ h t, w_heap w !! h = Some t → ∃ t', w_heap w' !! h = Some t' ∧ moved t t'.

Lemma kept_refl w : kept w w.
Proof. intros h t Hh. exists t. auto using moved_refl. Qed.

Lemma kept_insert w w' h t t' :
  w_heap w !! h = Some t → w_heap w' = <[h := t']> (w_heap w) → moved t t' → kept w w'.
Proof.
  intros Hh Hw Hm h' t1 Hh'. rewrite Hw. destruct (decide (h' = h)) as [->|Hne].
  - simplify_eq. exists t'. by rewrite lookup_insert_eq.
  - exists t1. rewrite lookup_insert_ne by done. auto using moved_refl.
Qed.

(** A task that moves to a terminal state only by being cancelled, or does not
    move, is where its run expects it. *)
Lemma at_pc_moved pc t t' :
  at_pc pc (o_state t) → moved t t' → (o_state t' = o_state t ∨ o_state t' = Cancelled) → at_pc pc (o_state t').
Proof.
  intros Hat (_ & _ & Hm) [Heq|Heq]; [by rewrite Heq|]. rewrite Heq in *. destruct Hm as [Hm|Hm].
  - by rewrite Hm.
  - right. split; [done|]. destruct Hat as [Hat|[_ Hat]]; [|done]. rewrite Hat in Hm.
    apply not_true_iff_false. intros Ht. by rewrite (terminal_no_transition _ Cancelled Ht) in Hm.
Qed.

Lemma advance_spec io w h :
  orch_inv w → orch_inv (advance_run io w h).1 ∧ kept w (advance_run io w h).1.
Proof.
  intros [Hf Hr Hi]. unfold Lifecycle.advance_run. destruct (w_runs w !! h) as [pc|] eqn:Hpc; [|split; [by constructor|apply kept_refl]].
  destruct (Hr h pc Hpc) as (t & Hh & Hat). rewrite Hh.
  destruct (run_step io w h t pc) as [w' r] eqn:Hs. apply run_step_spec in Hs as (t' & Hw & Hm & (Ht & Hn & Hrs & _) & Hok); [|done].
  assert (∀ h1 t1, w_heap w' !! h1 = Some t1 → h1 < w_next w') as Hf'.
  { intros h1 t1. rewrite Hw, Hn, lookup_insert_Some. intros [[<- _]|[_ ?]]; [by eapply Hf|by eapply Hf]. }
  assert (∀ id h1, w_tasks w' !! id = Some h1 → is_Some (w_heap w' !! h1)) as Hi'.
  { intros id h1. rewrite Ht, Hw, lookup_insert_is_Some'. intros ?%Hi. by right. }
  assert (∀ h1 pc1, h1 ≠ h → w_runs w' !! h1 = Some pc1 → ∃ t1, w_heap w' !! h1 = Some t1 ∧ at_pc pc1 (o_state t1)) as Hr'.
  { intros h1 pc1 Hne. rewrite Hrs, Hw, lookup_insert_ne by done. apply Hr. }
  destruct r as [pc'|e]; cbn [fst]; (split; [|by eapply kept_insert]); constructor; cbn; try done.
  - intros h1 pc1. rewrite lookup_insert_Some. intros [[<- <-]|[Hne ?]]; [|by apply Hr'].
    exists t'. rewrite Hw, lookup_insert_eq. split; [done|]. by apply Hok.
  - intros h1 pc1. rewrite lookup_delete_Some. intros [Hne ?]. by apply Hr'.
Qed.

Lemma submit_spec io w m : orch_inv w → orch_inv (submit_task io w m).1 ∧ kept w (submit_task io w m).1.
Proof.
  intros [Hf Hr Hi]. unfold Lifecycle.submit_task. destruct (validate m); [|by auto using kept_refl, Build_orch_inv].
  destruct (create_task_directory _ _ _) as [d1 []]; [|split; [by constructor|intros ???; by eauto using moved_refl]].
  destruct (save _ _ _ _) as [d2 [[]|e]]; [|split; [by constructor|intros ???; by eauto using moved_refl]]. cbn [fst].
  assert (∀ h t, w_heap w !! h = Some t → h ≠ w_next w) as Hne by (intros h t Hh%Hf; lia).
  split; [constructor; cbn|].
  - intros h t. rewrite lookup_insert_Some. intros [[<- _]|[_ Hh%Hf]]; lia.
  - intros h pc. rewrite lookup_insert_Some. intros [[<- <-]|[_ (t & Hh & Hat)%Hr]].
    + exists (from_manifest (io_now io) m). rewrite lookup_insert_eq. split; [done|]. by left.
    + exists t. rewrite lookup_insert_ne by (intros <-; by eapply Hne). done.
  - intros id h. rewrite lookup_insert_Some. intros [[_ <-]|[_ ?%Hi]]; [by rewrite lookup_insert_eq|].
    rewrite lookup_insert_is_Some'. by right.
  - intros h t Hh. exists t. cbn. rewrite lookup_insert_ne by (intros <-; by eapply Hne). auto using moved_refl.
Qed.

Lemma cancel_spec io w id reason : orch_inv w → orch_inv (cancel_begin io w id reason).1 ∧ kept w (cancel_begin io w id reason).1.
Proof.
  intros [Hf Hr Hi]. unfold Lifecycle.cancel_begin. destruct (w_tasks w !! id) as [h|] eqn:Hid; [|by auto using kept_refl, Build_orch_inv].
  destruct (Hi _ _ Hid) as [t Hh].
  destruct (locked_spec io (λ t, t <| o_error := Some ("Cancelled: " +:+ reason) |>) Cancelled w h t) as (t' & d & r & -> & Hm & Hr');
    [done|done|].
  assert (o_state t' = o_state t ∨ o_state t' = Cancelled) as Hst.
  { destruct r as [[]|e]; [right; by destruct Hr'|]. destruct e; try (right; by destruct Hr'). left. by destruct Hr' as [-> _]. }
  assert (∀ w1, w_heap w1 = <[h := t']> (w_heap w) → w_runs w1 = w_runs w → w_tasks w1 = w_tasks w → w_next w1 = w_next w →
    orch_inv w1 ∧ kept w w1) as Hall.
  { intros w1 Hw Hrs Ht Hn. split; [constructor|by eapply kept_insert].
    - intros h1 t1. rewrite Hw, Hn, lookup_insert_Some. intros [[<- _]|[_ ?]]; by eapply Hf.
    - intros h1 pc1. rewrite Hrs, Hw. intros (t1 & Hh1 & Hat)%Hr. destruct (decide (h1 = h)) as [->|Hne].
      + simplify_eq. exists t'. rewrite lookup_insert_eq. split; [done|]. by eapply at_pc_moved.
      + exists t1. by rewrite lookup_insert_ne.
    - intros id1 h1. rewrite Ht, Hw, lookup_insert_is_Some'. intros ?%Hi. by right. }
  destruct r as [[]|e]; by apply Hall.
Qed.

Lemma finish_spec io w l h :
  orch_inv w → orch_inv (cancel_finish io (w <| w_cancels := l |>) h).1 ∧ kept w (cancel_finish io (w <| w_cancels := l |>) h).1.
Proof.
  intros [Hf Hr Hi]. unfold cancel_finish. destruct (cleanup_vm _ _ _) as [w1 r] eqn:Hc.
  apply cleanup_spec in Hc as (Hw & (Ht & Hn & Hrs & _) & _). cbn in *. split.
  - constructor; rewrite ?Hw, ?Ht, ?Hn, ?Hrs; done.
  - intros h1 t1 Hh. exists t1. rewrite Hw. auto using moved_refl.
Qed.

Lemma orch_step_spec w w' : orch_inv w → orch_step w w' → orch_inv w' ∧ kept w w'.
Proof.
  intros Hi Hs. destruct Hs; [by apply submit_spec|by apply advance_spec|by apply cancel_spec|by apply finish_spec].
Qed.

Lemma reachable_inv d w : rtc orch_step (empty_orchestrator d) w → orch_inv w.
Proof.
  intros Hr. eapply rtc_invariant; [|exact Hr|apply empty_inv]. intros a b Hs Ha. by eapply orch_step_spec.
Qed.

(** ** What runs guarantee *)


(** A run on its own, one [Io] per step. *)
Fixpoint drive (ios : list Io) w h : Orchestrator * option RunEnd :=
  match ios with
  | [] => (w, None)
  | io :: ios => match advance_run io w h with (w, Some e) => (w, Some e) | (w, None) => drive ios w h end
  end.

(** every run ends.  Whatever git, the scripts, ssh, the collector and the
    disk do, the run of a submitted task is over after at most eleven steps. *)
Theorem every_run_ends ios w h pc t :
  w_runs w !! h = Some pc → w_heap w !! h = Some t → (pc_left pc <= length ios)%nat →
  ∃ e, (drive ios w h).2 = Some e ∧ w_runs (drive ios w h).1 !! h = None.
Proof.
  revert w pc t. induction ios as [|io ios IH]; intros w pc t Hpc Hh Hl; [by destruct pc; cbn in Hl; lia|].
  cbn [drive]. unfold Lifecycle.advance_run. rewrite Hpc, Hh.
  destruct (run_step io w h t pc) as [w' r] eqn:Hs.
  apply run_step_spec in Hs as (t' & Hw & _ & (_ & _ & Hrs & _) & Hok); [|done]. destruct r as [pc'|e].
  - destruct Hok as [Hlt _]. apply (IH _ pc' t'); cbn; [by rewrite lookup_insert_eq|by rewrite Hw, lookup_insert_eq|].
    cbn [length] in Hl. lia.
  - exists e. split; [done|]. cbn. apply lookup_delete_eq.
Qed.

(** how a run ends.  A run that finishes leaves its task finished; one that
    is refused a transition found its task cancelled. *)
Theorem ended_run_settles d w io h w' e :
  rtc orch_step (empty_orchestrator d) w → advance_run io w h = (w', Some e) →
  match e with
  | Finished => ∃ t, w_heap w' !! h = Some t ∧ is_terminal (o_state t) = true
  | Aborted (InvalidTransition a _) => a = state_name Cancelled
  | _ => True
  end.
Proof.
  intros [Hf Hr _]%reachable_inv. unfold Lifecycle.advance_run. destruct (w_runs w !! h) as [pc|] eqn:Hpc; [|done].
  destruct (Hr h pc Hpc) as (t & Hh & Hat). rewrite Hh. destruct (run_step io w h t pc) as [w1 [pc'|e']] eqn:Hs; [done|].
  apply run_step_spec in Hs as (t' & Hw & _ & _ & Hok); [|done]. intros [= <- <-]. cbn in Hok.
  destruct e' as [|[]|]; try done; [|by apply Hok]. exists t'. cbn. rewrite Hw, lookup_insert_eq. split; [done|]. by apply Hok.
Qed.

(** A run that cleans up destroys the machine of its task, if the script does. *)
Lemma cleanup_destroys io w h t name :
  w_heap w !! h = Some t → o_vm_name t = Some name → (∃ ok e, io_destroy io = Exited ok e) → io_destroyed io = true →
  name ∉ w_vms (cleanup_vm io w h).1.
Proof.
  intros Hh Hn (ok & e & Hd) Hdd. unfold cleanup_vm. rewrite Hh. cbn [mbind option_bind]. rewrite Hn, Hd, Hdd. cbn. set_solver.
Qed.

(** ** What goes wrong *)

Lemma advance_at io w h pc t :
  w_runs w !! h = Some pc → w_heap w !! h = Some t →
  advance_run io w h = match run_step io w h t pc with
    | (w, inl pc) => (w <| w_runs ::= <[h := pc]> |>, None)
    | (w, inr e) => (w <| w_runs ::= delete h |>, Some e)
    end.
Proof. intros Hpc Hh. unfold Lifecycle.advance_run. by rewrite Hpc, Hh. Qed.

(** a task whose staging or provisioning fails is never reported as failed.
    The run ends with the error, and the task stays as it was, without an
    error, with nothing left to move it. *)
Theorem early_failure_strands_task io w h pc t e :
  w_runs w !! h = Some pc → w_heap w !! h = Some t →
  match pc with
  | PStage => (stage_task tasks_root (io_stage io) (w_disk w) t).2 = Err e
  | PProvision => (provision_vm (io_provision io) (w_vms w) t).2 = Some (Err e)
  | _ => False
  end →
  ∃ w', advance_run io w h = (w', Some (Aborted (executor_error e))) ∧ w_heap w' !! h = Some t ∧ w_runs w' !! h = None.
Proof.
  intros Hpc Hh Hio. unfold Lifecycle.advance_run. rewrite Hpc, Hh. destruct pc; try done; cbn [Lifecycle.run_step].
  - destruct (stage_task _ _ _ _) as [d r]. cbn in Hio. subst r. eexists. split; [done|]. cbn. by rewrite lookup_delete_eq.
  - destruct (provision_vm _ _ _) as [vms r]. cbn in Hio. subst r. eexists. split; [done|]. cbn. by rewrite lookup_delete_eq.
Qed.

(** a short id stops its run.  A manifest may carry any id; one of fewer
    than eight bytes panics when the machine is provisioned, and the task stays
    provisioning. *)
Theorem short_id_panics io w h t :
  w_runs w !! h = Some PProvision → w_heap w !! h = Some t → (String.length (o_id t) < 8)%nat →
  ∃ w', advance_run io w h = (w', Some Panicked) ∧ w_heap w' !! h = Some t ∧ w_runs w' !! h = None.
Proof.
  intros Hpc Hh Hl. unfold Lifecycle.advance_run. rewrite Hpc, Hh. cbn [Lifecycle.run_step]. unfold provision_vm, id_prefix.
  rewrite (proj2 (Nat.ltb_lt _ _) Hl). eexists. split; [done|]. cbn. by rewrite lookup_delete_eq.
Qed.

(** C40: cancelling during provisioning leaks the machine.  The clean-up of the
    cancellation finds no machine; when the script then succeeds the run is
    refused the next state and ends without destroying what it made. *)
Theorem cancelled_provisioning_leaks_vm io io' w h t vm :
  w_runs w !! h = Some PProvision → w_heap w !! h = Some t → o_state t = Cancelled → o_vm_name t = None →
  (provision_vm (io_provision io) (w_vms w) t).2 = Some (Ok vm) → pi_created (io_provision io) = true →
  (cancel_finish io w h).1 = w ∧
  ∃ w1 w2 a b, advance_run io w h = (w1, None) ∧ advance_run io' w1 h = (w2, Some (Aborted (InvalidTransition a b))) ∧
    w_runs w2 !! h = None ∧ w_cancels w2 = w_cancels w ∧ vi_name vm ∈ w_vms w2.
Proof.
  intros Hpc Hh Hst Hvm Hp Hcr. split; [unfold cancel_finish, cleanup_vm; by rewrite Hh; cbn; rewrite Hvm|].
  unfold Lifecycle.advance_run at 1. rewrite Hpc, Hh. cbn [Lifecycle.run_step].
  destruct (provision_vm _ _ _) as [vms r] eqn:Hpv. cbn in Hp. subst r.
  assert (vi_name vm ∈ vms) as Hin.
  { unfold provision_vm in Hpv. destruct (id_prefix (o_id t)) as [prefix|]; [|done]. rewrite Hcr in Hpv.
    injection Hpv as <- Hr. destruct (pi_script _) as [|[]]; try done. apply bind_Ok in Hr as (text & _ & Hr).
    apply bind_Ok in Hr as (info & _ & Hr). apply bind_Ok in Hr as (ip & _ & Hr). apply bind_Ok in Hr as (key & _ & [= <-]).
    cbn. set_solver. }
  eexists _, _, _, _. split; [reflexivity|].
  rewrite (advance_at io' _ h (PToReady vm) t); [|apply lookup_insert_eq|exact Hh]. cbn [Lifecycle.run_step].
  unfold Lifecycle.locked_transition. cbn. rewrite Hh. unfold transition_to. cbn. rewrite Hst. cbn.
  split; [reflexivity|]. cbn. by rewrite lookup_delete_eq.
Qed.

(** a provider that fails is reported as success.  Whatever the exit code
    of the provider, the run goes on to [Completed], with the message that the
    task completed successfully. *)
Theorem failed_provider_completes io w h t code :
  w_runs w !! h = Some (PToCompleted code) → w_heap w !! h = Some t → o_state t = Completing →
  ∃ t', w_heap (advance_run io w h).1 !! h = Some t' ∧ o_state t' = Completed ∧
    o_exit_code t' = Some code ∧ o_error t' = o_error t ∧ o_state_message t' = Some "Task completed successfully".
Proof.
  intros Hpc Hh Hst. rewrite (advance_at io w h _ t Hpc Hh). cbn [Lifecycle.run_step].
  unfold Lifecycle.locked_transition. rewrite Hh.
  destruct (transition_to (io_now io) Completed (t <| o_exit_code := Some code |>)) as [t'|e] eqn:Ht.
  2: { unfold transition_to in Ht. cbn in Ht. by rewrite Hst in Ht. }
  pose proof (transition_Ok _ _ _ _ Ht) as (_ & Hs & _ & _ & _ & Hx & He & _).
  assert (o_state_message t' = Some "Task completed successfully") as Hmsg.
  { unfold transition_to in Ht. destruct (can_transition_to _ _); [|done]. by injection Ht as <-. }
  destruct (save _ _ _ _) as [d [[]|c]]; exists t'; cbn; (rewrite lookup_insert_eq; done).
Qed.

(** cancelling a finished task changes what it reports.  The request is
    refused, but the reason has been written over the task's error. *)
Theorem refused_cancel_overwrites_error io w id reason h t :
  w_tasks w !! id = Some h → w_heap w !! h = Some t → is_terminal (o_state t) = true →
  ∃ w' e, cancel_begin io w id reason = (w', Err e) ∧
    w_heap w' !! h = Some (t <| o_error := Some ("Cancelled: " +:+ reason) |>).
Proof.
  intros Hid Hh Ht. unfold Lifecycle.cancel_begin, Lifecycle.locked_transition. rewrite Hid, Hh. unfold transition_to. cbn.
  rewrite (terminal_no_transition _ _ Ht). eexists _, _. split; [reflexivity|]. cbn. by rewrite lookup_insert_eq.
Qed.

(** reading a task panics.  Both readers block on the task's lock, which
    the runtime refuses: the handler answers only for ids it does not know. *)
Theorem get_task_answers_unknown_only w id r :
  get_handler (Some w) id = Some r → r = (404, None) ∧ w_tasks w !! id ≫= (λ h, w_heap w !! h) = None.
Proof.
  unfold get_handler, get_task. destruct (w_tasks w !! id ≫= _) as [t|] eqn:Ht; cbn; [done|]. by intros [= <-].
Qed.

(** an artifact can be any file.  A name that is an absolute path replaces
    the directory of the artifacts, and the task need not exist. *)
Theorem download_reads_any_file w task_id s content :
  files (w_disk w) !! resolve [] ("/" +:+ s) = Some content →
  download_artifact tasks_root (Some w) task_id ("/" +:+ s) = (200, Some content).
Proof.
  intros Hf. unfold download_artifact. assert (join_path (artifacts_path tasks_root task_id) ("/" +:+ s) = resolve [] ("/" +:+ s)) as ->.
  { unfold join_path. by rewrite (proj2 (starts_with_app _ _)) by eauto. }
  unfold path_exists, is_file. rewrite Hf, bool_decide_eq_true_2 by done. done.
Qed.

(** the provider does not get its prompt.  The arguments are joined with
    spaces and read by the shell of the machine: the prompt is its first word,
    and the others are further arguments. *)
Theorem prompt_split_by_shell c exe args :
  cf_provider c = "claude" → cf_allowed_tools c = [] → cf_max_turns c = None → provider_executor c = Ok (exe, args) →
  List.last args EmptyString = "Read TASK.md for your instructions" ∧
  shell_words (exe +:+ " " +:+ String.concat " " args) =
    Some (exe :: List.removelast args ++ ["Read"; "TASK.md"; "for"; "your"; "instructions"]).
Proof.
  intros Hp Ht Hm. unfold provider_executor. rewrite decide_True by done. intros [= <- <-].
  unfold claude_args. rewrite Ht, Hm. destruct (cf_skip_permissions c), (bool_decide _); split; reflexivity.
Qed.

(** ** Submitting *)

Lemma run_ops_invariant (P : Disk → Prop) d ops :
  P d → Forall (λ op : Disk → option Disk, ∀ d d', P d → op d = Some d' → P d') ops → P (run_ops d ops).1.
Proof.
  intros Hd Hops. revert d Hd. induction Hops as [|op ops Hop _ IH]; intros d Hd; cbn; [done|].
  destruct (op d) as [d'|] eqn:Ho; [|done]. apply IH. by eapply Hop.
Qed.

(** The paths a task's directory is made of. *)
Definition task_path (id : string) (p : Path) : Prop :=
  ∃ rest, p = tasks_root ++ id :: rest ∧ match rest with [] => True | c :: _ => c = "inbox" ∨ c = "outbox" end.

Lemma task_directory_invariant (P : Disk → Prop) d id :
  plain id = true → P d →
  (∀ d p d', task_path id p → P d → create_dir_all d p = Some d' → P d') →
  (∀ d p d', task_path id p → P d → create_file d p = Some d' → P d') →
  P (create_task_directory tasks_root d id).1.
Proof.
  intros Hid Hd Hdir Hfile. unfold create_task_directory, progress_path, artifacts_path, outbox_path, inbox_path, task_dir.
  rewrite (join_plain tasks_root id Hid), !(join_plain _ "inbox"), !(join_plain _ "outbox"), !(join_plain _ "progress"),
    !(join_plain _ "artifacts"), !(join_plain _ "stdout.log"), !(join_plain _ "stderr.log"), !(join_plain _ "events.jsonl") by done.
  rewrite <-!app_assoc. cbn [app].
  apply run_ops_invariant; [done|]. repeat (apply Forall_cons; split); [..|by apply Forall_nil];
    intros d1 d2 Hd1 Hop; first [eapply Hdir; [|exact Hd1|exact Hop]|eapply Hfile; [|exact Hd1|exact Hop]];
    eexists; (split; [reflexivity|]); cbn; auto.
Qed.

Lemma checkpoint_dir_plain : checkpoint_dir tasks_root = tasks_root ++ ["checkpoints"].
Proof. by apply join_plain. Qed.

(** no task is accepted until the directory of the checkpoints is there.
    Neither the orchestrator nor a submission creates it, so every submission
    fails and leaves it missing (but for a task named like the directory). *)
Theorem submission_needs_checkpoint_directory io w m :
  plain (m_id m) = true → m_id m ≠ "checkpoints" → is_dir (w_disk w) (checkpoint_dir tasks_root) = false →
  is_ok (submit_task io w m).2 = false ∧ w_heap (submit_task io w m).1 = w_heap w ∧
  w_tasks (submit_task io w m).1 = w_tasks w ∧ is_dir (w_disk (submit_task io w m).1) (checkpoint_dir tasks_root) = false.
Proof.
  intros Hp Hne Hdir. unfold Lifecycle.submit_task. destruct (validate m); [|done]. cbn [o_id from_manifest].
  assert (is_dir (create_task_directory tasks_root (w_disk w) (m_id m)).1 (checkpoint_dir tasks_root) = false) as Hd.
  { apply task_directory_invariant; [done|done| |].
    - intros d p d' (rest & -> & _) Hd (_ & ->)%create_dir_all_Some. rewrite Hd. apply bool_decide_eq_false. intros [_ Hpre].
      rewrite checkpoint_dir_plain in Hpre. apply prefix_app_inv in Hpre. by apply prefix_cons_inv_1 in Hpre.
    - intros d p d' _ Hd (_ & _ & ->)%create_file_Some. done. }
  destruct (create_task_directory _ _ _) as [d1 []]; [|done]. cbn [fst] in Hd.
  assert (save (checkpoint_dir tasks_root) (io_fault io) d1 (from_manifest (io_now io) m) = (d1, Err CkIo)) as ->; [|done].
  assert (create_file d1 (temp_checkpoint_path (checkpoint_dir tasks_root) (m_id m)) = None) as Hc.
  { apply plain_spec in Hp as [Hp _]. unfold create_file. rewrite temp_path_plain, parent_snoc, Hd by done. by rewrite orb_true_r. }
  unfold save. cbn [o_id from_manifest]. rewrite Hc. by destruct (io_fault io) as [[]|].
Qed.

(** ** Checkpoints and tasks agree *)

Abbreviation dir := (checkpoint_dir tasks_root).

(** A file of the checkpoints' directory that a save may write. *)
Definition checkpoint_file (p : Path) : Prop :=
  ∃ id, contains_char id slash = false ∧ (p = checkpoint_path dir id ∨ p = temp_checkpoint_path dir id).

Definition disk_ok (d : Disk) : Prop := is_dir d dir = true ∧ ∀ p, checkpoint_file p → is_dir d p = false.

(** The checkpoints read the same. *)
Definition same_checkpoints (d d' : Disk) : Prop := ∀ p, checkpoint_file p → files d' !! p = files d !! p.

Lemma task_path_not_checkpoint id p q :
  task_path id p → q `prefix_of` p → checkpoint_file q → False.
Proof.
  intros (rest & -> & Hrest) Hpre (x & Hx & Hq).
  assert (∃ name, q = tasks_root ++ ["checkpoints"; name] ∧ (name = x +:+ checkpoint_suffix ∨ name = x +:+ ".checkpoint.tmp"))
    as (name & -> & Hname).
  { destruct Hq as [->| ->]; [rewrite checkpoint_path_plain by done|rewrite temp_path_plain by done];
      rewrite checkpoint_dir_plain, <-app_assoc; cbn; eauto. }
  apply prefix_app_inv, prefix_cons_inv_2 in Hpre. destruct rest as [|c rest]; [by apply prefix_nil_inv in Hpre|].
  apply prefix_cons_inv_1 in Hpre as <-.
  assert (∀ a b, a +:+ b = "inbox" ∨ a +:+ b = "outbox" → (6 < String.length b)%nat → False) as Hlen.
  { intros a b Hab Hb. assert (String.length (a +:+ b) <= 6)%nat as Hl by (by destruct Hab as [->| ->]; cbn; lia).
    rewrite length_append in Hl. lia. }
  destruct Hname as [->| ->]; (eapply Hlen; [exact Hrest|cbn; lia]).
Qed.

Lemma directory_keeps d id :
  plain id = true → disk_ok d →
  disk_ok (create_task_directory tasks_root d id).1 ∧ same_checkpoints d (create_task_directory tasks_root d id).1.
Proof.
  intros Hid Hd. apply (task_directory_invariant (λ d', disk_ok d' ∧ same_checkpoints d d')); [done|by split| |].
  - intros d1 p d2 Hp [[Hd1 Hf1] Hs1] [Hfs Hds]%create_dir_all_Some. split; [split|].
    + by rewrite Hds, Hd1.
    + intros q Hq. rewrite Hds, Hf1 by done. apply bool_decide_eq_false. intros [_ Hpre]. by eapply task_path_not_checkpoint.
    + intros q Hq. rewrite Hfs. by apply Hs1.
  - intros d1 p d2 Hp [[Hd1 Hf1] Hs1] (_ & _ & ->)%create_file_Some. split; [done|].
    intros q Hq. cbn. rewrite lookup_insert_ne; [by apply Hs1|]. intros ->. eapply task_path_not_checkpoint; [exact Hp|done|done].
Qed.

Lemma stage_keeps (io : StageIo) d t :
  plain (o_id t) = true → disk_ok d →
  disk_ok (stage_task tasks_root io d t).1 ∧ same_checkpoints d (stage_task tasks_root io d t).1.
Proof.
  intros Hid Hd. assert (disk_ok d ∧ same_checkpoints d d) as Hsame by done. unfold stage_task.
  destruct (si_clone io) as [|[]]; try done.
  assert (∀ d', write_task_prompt tasks_root d (o_id t) (cf_prompt (o_task t)) = Some d' → disk_ok d' ∧ same_checkpoints d d') as Hw.
  { unfold write_task_prompt, write_file, inbox_path, task_dir.
    rewrite (join_plain tasks_root _ Hid), (join_plain _ "inbox"), (join_plain _ "TASK.md") by done. rewrite <-!app_assoc. cbn [app].
    intros d' (d1 & (_ & _ & ->)%create_file_Some & [= <-])%bind_Some. split; [done|]. intros q Hq. cbn. rewrite !lookup_insert_ne; [done|..]; intros <-;
      (eapply task_path_not_checkpoint; [|reflexivity|exact Hq]; eexists; split; [reflexivity|]; cbn; auto). }
  destruct (write_task_prompt _ _ _ _) as [d'|]; [specialize (Hw d' eq_refl)|]; by repeat case_match.
Qed.

Lemma save_ok d t :
  plain (o_id t) = true → disk_ok d →
  ∃ d', save dir None d t = (d', Ok ()) ∧ disk_ok d' ∧ load dir d' (o_id t) = Ok (Some t) ∧
    ∀ id, plain id = true → id ≠ o_id t → load dir d' id = load dir d id.
Proof.
  intros [Hid _]%plain_spec [Hdir Hf]. assert ((save dir None d t).2 = Ok ()) as Hok.
  { unfold save. rewrite create_file_ok.
    - assert (∀ g p, is_dir (d <| files ::= g |>) p = is_dir d p) as Hdd by done.
      rewrite rename_written, !Hdd, Hf by (exists (o_id t); auto). by rewrite checkpoint_path_plain, parent_snoc, Hdir.
    - apply Hf. exists (o_id t). auto.
    - by rewrite temp_path_plain, parent_snoc. }
  destruct (checkpoint_save_spec dir None d t Hid) as (Hds & Hother & Hnew). rewrite Hok in Hnew.
  exists (save dir None d t).1. split; [by rewrite <-Hok, <-surjective_pairing|]. split; [|split].
  - split; unfold is_dir; rewrite Hds; [exact Hdir|exact Hf].
  - by apply load_text.
  - intros id [Hi _]%plain_spec Hne. apply load_ext; [|done]. apply Hother.
    + intros Heq. by apply (temp_not_checkpoint dir (o_id t) id).
    + intros Heq. apply Hne. by eapply checkpoint_path_inj.
Qed.

Lemma load_same d d' id : disk_ok d → disk_ok d' → same_checkpoints d d' → plain id = true → load dir d' id = load dir d id.
Proof.
  intros [_ Hd] [_ Hd'] Hs [Hi _]%plain_spec. assert (checkpoint_file (checkpoint_path dir id)) as Hc by (exists id; auto).
  unfold load, path_exists, is_file. by rewrite (Hs _ Hc), (Hd _ Hc), (Hd' _ Hc).
Qed.

(** Steps that submit under fresh plain ids and whose saves do not fail. *)
Inductive clean_step : Orchestrator → Orchestrator → Prop :=
| cs_submit io w m :
    io_fault io = None → plain (m_id m) = true → w_tasks w !! m_id m = None → clean_step w (submit_task io w m).1
| cs_run io w h : io_fault io = None → clean_step w (advance_run io w h).1
| cs_cancel io w id reason : io_fault io = None → clean_step w (cancel_begin io w id reason).1
| cs_cleanup io w l1 h l2 :
    w_cancels w = l1 ++ h :: l2 → clean_step w (cancel_finish io (w <| w_cancels := l1 ++ l2 |>) h).1.

Definition tracks w h t : Prop :=
  plain (o_id t) = true ∧ w_tasks w !! o_id t = Some h ∧
  ∃ t', load dir (w_disk w) (o_id t) = Ok (Some t') ∧ o_state t' = o_state t.

Record tracked w : Prop := {
  tr_inv : orch_inv w;
  tr_disk : disk_ok (w_disk w);
  tr_tasks h t : w_heap w !! h = Some t → tracks w h t;
}.

(** A lock section with a working disk. *)
Lemma locked_tracks io f next w h t :
  io_fault io = None → quiet f → tracked w → w_heap w !! h = Some t →
  disk_ok (w_disk (locked_transition io f next w h).1) ∧
  ∀ h1 t1, w_heap (locked_transition io f next w h).1 !! h1 = Some t1 → tracks (locked_transition io f next w h).1 h1 t1.
Proof.
  intros Hio Hf [_ Hd Ht] Hh. unfold Lifecycle.locked_transition. rewrite Hh, Hio. destruct (Hf t) as (Hs & Hi & _).
  destruct (Ht _ _ Hh) as (Hp & Hix & t0 & Hl0 & Hs0).
  destruct (transition_to (io_now io) next (f t)) as [t'|e] eqn:Htr; cbn [fst].
  - pose proof (transition_Ok _ _ _ _ Htr) as (_ & _ & _ & Hi' & _).
    destruct (save_ok (w_disk w) t') as (d' & -> & Hd' & Hload & Hother); [by rewrite Hi', Hi|done|]. cbn. split; [done|].
    intros h1 t1. rewrite lookup_insert_Some. unfold tracks. cbn. intros [[<- <-]|[Hne Hh1]].
    + rewrite Hi' in *. rewrite Hi in *. split_and!; [done..|]. by exists t'.
    + destruct (Ht _ _ Hh1) as (Hp1 & Hix1 & t2 & Hl2 & Hs2). split_and!; [done..|]. exists t2. split; [|done].
      rewrite Hother; [done|done|]. intros Heq. rewrite Heq, Hi', Hi in Hix1. congruence.
  - split; [done|]. intros h1 t1. cbn. rewrite lookup_insert_Some. unfold tracks. cbn. intros [[<- <-]|[Hne Hh1]].
    + rewrite Hi, Hs. split_and!; [done..|]. by exists t0.
    + by apply Ht.
Qed.

(** Steps that leave the checkpoints and the tasks alone. *)
Lemma tracks_ext w w' h t :
  w_tasks w' = w_tasks w → disk_ok (w_disk w) → disk_ok (w_disk w') → same_checkpoints (w_disk w) (w_disk w') →
  tracks w h t → tracks w' h t.
Proof.
  intros Ht Hd Hd' Hs (Hp & Hix & t' & Hl & Hst). unfold tracks. rewrite Ht. split_and!; [done..|]. exists t'.
  by rewrite (load_same (w_disk w)).
Qed.

Definition all_tracked w : Prop := disk_ok (w_disk w) ∧ ∀ h t, w_heap w !! h = Some t → tracks w h t.

Lemma continue_tracks io f next w h t pc :
  io_fault io = None → quiet f → tracked w → w_heap w !! h = Some t →
  all_tracked (continue pc (locked_transition io f next w h)).1.
Proof.
  intros Hio Hf Hw Hh. pose proof (locked_tracks io f next w h t Hio Hf Hw Hh) as Hl. unfold continue.
  by destruct (locked_transition io f next w h) as [w1 []].
Qed.

Lemma same_tracks w w' :
  tracked w → w_tasks w' = w_tasks w → w_heap w' = w_heap w → disk_ok (w_disk w') → same_checkpoints (w_disk w) (w_disk w') →
  all_tracked w'.
Proof.
  intros [_ Hd Ht] Hts Hh Hd' Hs. split; [done|]. intros h t. rewrite Hh. intros Hht. eapply tracks_ext; eauto.
Qed.

Lemma cleanup_tracks io w h w' r : tracked w → cleanup_vm io w h = (w', r) → all_tracked w'.
Proof.
  intros Hw (Hh & (Ht & _) & Hd)%cleanup_spec. apply (same_tracks w); [done..| |]; rewrite Hd; [by apply tr_disk|done].
Qed.

Lemma run_step_tracks io w h t pc :
  io_fault io = None → tracked w → w_heap w !! h = Some t → all_tracked (run_step io w h t pc).1.
Proof.
  intros Hio Hw Hh. destruct (tr_tasks _ Hw _ _ Hh) as (Hp & _). pose proof (tr_disk _ Hw) as Hd.
  destruct pc; cbn [Lifecycle.run_step].
  1,3,5,6,8,10: by eapply continue_tracks.
  - destruct (stage_keeps (io_stage io) (w_disk w) t Hp Hd) as [Hd' Hs]. destruct (stage_task _ _ _ _) as [d r].
    cbn in *. by apply (same_tracks w).
  - destruct (provision_vm _ _ _) as [vms r]. by apply (same_tracks w).
  - destruct (execute_provider _ _) as [[|]|]; by apply (same_tracks w).
  - by apply (same_tracks w).
  - destruct (cleanup_vm io w h) as [w1 r] eqn:Hc. by eapply cleanup_tracks.
  - case_decide; [|by eapply continue_tracks].
    pose proof (locked_tracks io (λ t, t <| o_error := Some error |>) FailedPreserved w h t Hio ltac:(done) Hw Hh) as Hl.
    destruct (locked_transition _ _ _ _ _) as [w1 r]. exact Hl.
  - destruct (cleanup_vm io w h) as [w1 r] eqn:Hc. by eapply cleanup_tracks.
Qed.

Lemma submit_tracks io w m :
  io_fault io = None → plain (m_id m) = true → w_tasks w !! m_id m = None → tracked w → all_tracked (submit_task io w m).1.
Proof.
  intros Hio Hp Hnew Hw. unfold Lifecycle.submit_task. rewrite Hio. destruct (validate m); [|by apply (same_tracks w); [done..|apply Hw|]].
  cbn [o_id from_manifest]. destruct (directory_keeps (w_disk w) (m_id m) Hp (tr_disk _ Hw)) as [Hd Hs].
  destruct (create_task_directory _ _ _) as [d1 []]; cbn [fst] in *; [|by apply (same_tracks w)].
  destruct (save_ok d1 (from_manifest (io_now io) m) Hp Hd) as (d2 & -> & Hd2 & Hload & Hother). split; [done|]. cbn [fst].
  intros h t. cbn. rewrite lookup_insert_Some. unfold tracks. cbn. intros [[<- <-]|[Hne Hh]].
  - rewrite lookup_insert_eq. split_and!; [done..|]. by exists (from_manifest (io_now io) m).
  - destruct (tr_tasks _ Hw _ _ Hh) as (Hp1 & Hix & t2 & Hl2 & Hs2).
    assert (o_id t ≠ m_id m) as Hid by (intros Heq; congruence). rewrite lookup_insert_ne by done. split_and!; [done..|].
    exists t2. split; [|done]. rewrite Hother by done. by rewrite (load_same (w_disk w) d1 _ (tr_disk _ Hw)).
Qed.

Lemma clean_is_step w w' : clean_step w w' → orch_step w w'.
Proof. intros Hs. destruct Hs; by constructor. Qed.

Lemma clean_step_tracked w w' : clean_step w w' → tracked w → tracked w'.
Proof.
  intros Hs Hw. assert (all_tracked w') as [Hd Ht].
  { destruct Hs as [io w m Hio Hp Hn|io w h Hio|io w id reason Hio|io w l1 h l2 Hc].
    - by apply submit_tracks.
    - unfold Lifecycle.advance_run. destruct (w_runs w !! h) as [pc|]; [|by split; [apply Hw|apply Hw]].
      destruct (w_heap w !! h) as [t|] eqn:Hh; [|by split; [apply Hw|apply Hw]].
      pose proof (run_step_tracks io w h t pc Hio Hw Hh) as Hr. by destruct (run_step io w h t pc) as [w1 [|]].
    - unfold Lifecycle.cancel_begin. destruct (w_tasks w !! id) as [h|] eqn:Hid; [|by split; [apply Hw|apply Hw]].
      destruct (oi_index _ (tr_inv _ Hw) _ _ Hid) as [t Hh].
      pose proof (locked_tracks io (λ t, t <| o_error := Some ("Cancelled: " +:+ reason) |>) Cancelled w h t Hio ltac:(done) Hw Hh) as Hl.
      by destruct (locked_transition _ _ _ _ _) as [w1 []].
    - unfold cancel_finish. destruct (cleanup_vm _ _ _) as [w1 r] eqn:Hcl. eapply (cleanup_tracks _ (w <| w_cancels := l1 ++ l2 |>)); [|exact Hcl].
      destruct Hw as [Hi Hd Ht]. by constructor; [destruct Hi|..]. }
  constructor; [|done|done]. eapply orch_step_spec; [by apply Hw|by apply clean_is_step].
Qed.


End laws.

(** ** Examples *)

Section examples.
#[local] Existing Instance sample_env.
#[local] Existing Instance sample_codec.

Definition sample_root : Path := ["srv"; "tasks"].

Definition vm_info_text : string :=
  json_text (json_obj [("ip", JStr "10.0.0.5"); ("management", json_obj [("ssh_key_path", JStr "/k")])]).

(** Everything works. *)
Definition good_io (now : Z) : Io :=
  {| io_now := now; io_fault := None; io_stage := {| si_clone := Exited true EmptyString; si_checkout := Exited true EmptyString |};
     io_provision := {| pi_script := Exited true EmptyString; pi_created := true; pi_info := Ok vm_info_text |};
     io_ssh := SshExited (Some 0); io_collect := Ok (); io_destroy := Exited true EmptyString; io_destroyed := true |}.

Definition world_0 : Orchestrator := empty_orchestrator sample_disk.
Definition world_1 : Orchestrator := (submit_task sample_root (good_io 10) world_0 (sample_manifest "job-00000001")).1.
Definition world_2 : Orchestrator := (cancel_begin sample_root (good_io 11) world_1 "job-00000001" "stop").1.
Definition task_1 : OTask := from_manifest 10 (sample_manifest "job-00000001").

(** A world with one task, at a point of its run. *)
Definition world_at (t : OTask) (pc : Pc) : Orchestrator :=
  {| w_tasks := {[o_id t := 0]}; w_heap := {[0 := t]}; w_next := 1; w_runs := {[0 := pc]}; w_cancels := [];
     w_monitors := ∅; w_disk := sample_disk; w_vms := ∅ |}.

Lemma world_1_reachable : rtc (orch_step sample_root) (empty_orchestrator sample_disk) world_1.
Proof. apply rtc_once. apply os_submit. Qed.

Lemma world_1_task : w_heap world_1 !! 0 = Some task_1.
Proof. vm_compute. reflexivity. Qed.


Lemma world_1_run : w_runs world_1 !! 0 = Some PToStaging.
Proof. vm_compute. reflexivity. Qed.

Lemma every_run_ends_witness : ∃ e, (drive sample_root (replicate 11 (good_io 20)) world_1 0).2 = Some e.
Proof.
  destruct (every_run_ends sample_root (replicate 11 (good_io 20)) world_1 0 PToStaging task_1 world_1_run world_1_task (le_n _))
    as (e & He & _). exact (ex_intro _ e He).
Defined.

(** The run after the cancellation is refused its first state. *)
Definition world_3 : Orchestrator * option RunEnd := advance_run sample_root (good_io 12) world_2 0.
Lemma world_3_end : world_3.2 = Some (Aborted (InvalidTransition "cancelled" "staging")).
Proof. vm_compute. reflexivity. Qed.

Lemma ended_run_settles_witness : "cancelled" = state_name Cancelled ∧ w_runs world_3.1 !! 0 = None.
Proof.
  split; [|vm_compute; reflexivity].
  apply (ended_run_settles sample_root sample_disk world_2 (good_io 12) 0 world_3.1
    (Aborted (InvalidTransition "cancelled" "staging"))).
  - eapply rtc_r; [exact world_1_reachable|apply os_cancel].
  - rewrite <-world_3_end. apply surjective_pairing.
Defined.

Definition bad_clone (now : Z) : Io := (good_io now) <| io_stage := {| si_clone := Exited false "no such branch"; si_checkout := Exited true EmptyString |} |>.

Lemma early_failure_strands_task_witness :
  ∃ w', advance_run sample_root (bad_clone 20) (world_at (task_1 <| o_state := Staging |>) PStage) 0 =
      (w', Some (Aborted (ExecutorErr "Command failed: git clone failed: no such branch"))) ∧
    w_heap w' !! 0 = Some (task_1 <| o_state := Staging |>) ∧ w_runs w' !! 0 = None.
Proof.
  exact (early_failure_strands_task sample_root (bad_clone 20) (world_at (task_1 <| o_state := Staging |>) PStage) 0 PStage
    (task_1 <| o_state := Staging |>) (CommandFailed "git clone failed: no such branch") eq_refl eq_refl eq_refl).
Defined.

Definition short_task : OTask := (from_manifest 10 (sample_manifest "t1")) <| o_state := Provisioning |>.

Lemma short_id_panics_witness :
  validate (sample_manifest "t1") = Ok () ∧
  ∃ w', advance_run sample_root (good_io 20) (world_at short_task PProvision) 0 = (w', Some Panicked) ∧
    w_heap w' !! 0 = Some short_task ∧ w_runs w' !! 0 = None.
Proof.
  split; [exact sample_manifest_good|].
  apply (short_id_panics sample_root (good_io 20) (world_at short_task PProvision) 0 short_task eq_refl eq_refl).
  cbn. lia.
Defined.

Definition cancelled_task : OTask := task_1 <| o_state := Cancelled |>.
Definition made_vm : VmInfo := {| vi_name := "task-job-0000"; vi_ip := "10.0.0.5"; vi_ssh_key_path := "/k" |}.

Lemma made_vm_info : (provision_vm (io_provision (good_io 20)) ∅ cancelled_task).2 = Some (Ok made_vm).
Proof. vm_compute. reflexivity. Qed.

Lemma cancelled_provisioning_leaks_vm_witness :
  ∃ w2 w1 a b, advance_run sample_root (good_io 20) (world_at cancelled_task PProvision) 0 = (w1, None) ∧
    advance_run sample_root (good_io 21) w1 0 = (w2, Some (Aborted (InvalidTransition a b))) ∧ "task-job-0000" ∈ w_vms w2.
Proof.
  destruct (cancelled_provisioning_leaks_vm sample_root (good_io 20) (good_io 21) (world_at cancelled_task PProvision) 0
    cancelled_task made_vm eq_refl eq_refl eq_refl eq_refl made_vm_info eq_refl) as (_ & w1 & w2 & a & b & H1 & H2 & _ & _ & Hin).
  exact (ex_intro _ w2 (ex_intro _ w1 (ex_intro _ a (ex_intro _ b (conj H1 (conj H2 Hin)))))).
Defined.

Definition completing_task : OTask := task_1 <| o_state := Completing |>.

Lemma failed_provider_completes_witness :
  ∃ t', w_heap (advance_run sample_root (good_io 20) (world_at completing_task (PToCompleted 1)) 0).1 !! 0 = Some t' ∧
    o_state t' = Completed ∧ o_exit_code t' = Some 1.
Proof.
  destruct (failed_provider_completes sample_root (good_io 20) (world_at completing_task (PToCompleted 1)) 0 completing_task 1
    eq_refl eq_refl eq_refl) as (t' & Hh & Hs & Hx & _). exact (ex_intro _ t' (conj Hh (conj Hs Hx))).
Defined.

Definition completed_task : OTask := task_1 <| o_state := Completed |>.

Lemma refused_cancel_overwrites_error_witness :
  ∃ w' e, cancel_begin sample_root (good_io 20) (world_at completed_task PCleanup) "job-00000001" "late" = (w', Err e) ∧
    w_heap w' !! 0 = Some (completed_task <| o_error := Some "Cancelled: late" |>).
Proof.
  exact (refused_cancel_overwrites_error sample_root (good_io 20) (world_at completed_task PCleanup) "job-00000001" "late" 0
    completed_task eq_refl eq_refl eq_refl).
Defined.

Lemma get_task_answers_unknown_only_witness :
  get_handler (Some world_0) "x" = Some (404, None) ∧ (404, None) = (404, None : option TaskStatusResponse).
Proof.
  assert (get_handler (Some world_0) "x" = Some (404, None)) as Hg by reflexivity. split; [exact Hg|].
  destruct (get_task_answers_unknown_only world_0 "x" (404, None) Hg) as [Hr _]. exact Hr.
Defined.

Definition passwd_disk : Disk := {| files := {[ ["etc"; "passwd"] := "root" ]}; dirs := ∅ |}.

Lemma download_reads_any_file_witness :
  download_artifact sample_root (Some (empty_orchestrator passwd_disk)) "none" "/etc/passwd" = (200, Some "root").
Proof. exact (download_reads_any_file sample_root (empty_orchestrator passwd_disk) "none" "etc/passwd" "root" eq_refl). Defined.

Lemma prompt_split_by_shell_witness :
  shell_words ("claude" +:+ " " +:+ String.concat " " (claude_args (m_task (sample_manifest "t1")))) =
    Some ("claude" :: List.removelast (claude_args (m_task (sample_manifest "t1"))) ++ ["Read"; "TASK.md"; "for"; "your"; "instructions"]).
Proof.
  exact (proj2 (prompt_split_by_shell (m_task (sample_manifest "t1")) "claude" (claude_args (m_task (sample_manifest "t1")))
    eq_refl eq_refl eq_refl eq_refl)).
Defined.

Lemma submission_needs_checkpoint_directory_witness :
  is_ok (submit_task sample_root (good_io 10) (empty_orchestrator {| files := ∅; dirs := ∅ |}) (sample_manifest "job-00000001")).2 = false.
Proof.
  exact (proj1 (submission_needs_checkpoint_directory sample_root (good_io 10) (empty_orchestrator {| files := ∅; dirs := ∅ |})
    (sample_manifest "job-00000001") eq_refl (ltac:(discriminate)) eq_refl)).
Defined.

Lemma sample_disk_ok : disk_ok sample_root sample_disk.
Proof.
  split; [reflexivity|]. intros p (id & Hid & Hp).
  assert (∃ name, p = ["srv"; "tasks"; "checkpoints"; name]) as [name ->].
  { destruct Hp as [->| ->]; [rewrite checkpoint_path_plain by done|rewrite temp_path_plain by done]; cbn; eauto. }
  unfold is_dir, sample_disk. cbn [dirs]. apply orb_false_iff. split; [done|]. apply bool_decide_eq_false. set_solver.
Qed.


End examples.
