(* ===== verification/Reconcile.v ===== *)
(** * Reconciliation, parents and children, clean-up of tasks

    Models management/src/orchestrator/reconciliation.rs, multi_agent.rs and
    cleanup.rs: the passes that compare the checkpoints with the virtual
    machines of the host and remove what is left over, and the tracker of child
    tasks.

    The checkpoints are the disk of [OrchTask] and [Disk]; the machines are a
    set of names.  What [virsh] lists and what the scripts do is given by the
    pass's [ReconIo]. *)

From Stdlib Require Import Ascii.
From S2P Require Import Prelude Text Json Dispatcher Disk OrchTask Lifecycle.

Local Open Scope string_scope.
Local Open Scope list_scope.
Local Open Scope Z_scope.

(** ** Reconciliation *)

Inductive ReconciliationFinding : Type :=
| OrphanedVm (vm_name : string)
| OrphanedTask (task_id expected_vm : string)
| StaleCheckpoint (task_id : string) (age_days : Z).

Inductive ReconciliationAction : Type :=
| CleanupVm (vm_name : string)
| FailTask (task_id reason : string)
| DeleteCheckpoint (task_id : string).

#[export] Instance ReconciliationFinding_eq_dec : EqDecision ReconciliationFinding.
Proof. solve_decision. Defined.

Inductive ReconciliationError : Type :=
| RcCheckpoint (e : CheckpointError)
| RcIo
| VirshFailed (stderr : string)
| CleanupFailed (vm_name stderr : string)
| RcTaskNotFound (task_id : string)
| StateTransition (e : string).

Record ActionResult : Type := {
  ar_action : ReconciliationAction;
  ar_success : bool;
  ar_error : option ReconciliationError;
}.

Record ReconciliationReport : Type := {
  rr_run_at : Z;
  rr_findings : list ReconciliationFinding;
  rr_actions_taken : list ActionResult;
  rr_dry_run : bool;
}.

Definition is_orphaned_vm (f : ReconciliationFinding) : bool := match f with OrphanedVm _ => true | _ => false end.
Definition is_orphaned_task (f : ReconciliationFinding) : bool := match f with OrphanedTask _ _ => true | _ => false end.
Definition is_stale_checkpoint (f : ReconciliationFinding) : bool := match f with StaleCheckpoint _ _ => true | _ => false end.

Definition orphaned_vm_count (r : ReconciliationReport) : Z := len (List.filter is_orphaned_vm (rr_findings r)).
Definition orphaned_task_count (r : ReconciliationReport) : Z := len (List.filter is_orphaned_task (rr_findings r)).
Definition stale_checkpoint_count (r : ReconciliationReport) : Z := len (List.filter is_stale_checkpoint (rr_findings r)).
Definition successful_actions (r : ReconciliationReport) : Z := len (List.filter ar_success (rr_actions_taken r)).
Definition failed_actions (r : ReconciliationReport) : Z := len (List.filter (λ a, negb (ar_success a)) (rr_actions_taken r)).

Record ReconciliationConfig : Type := {
  rcf_interval : Z;
  rcf_checkpoint_retention_days : Z;
  rcf_managed_vm_prefix : string;
}.

Definition default_reconciliation : ReconciliationConfig :=
  {| rcf_interval := seconds 300; rcf_checkpoint_retention_days := 7; rcf_managed_vm_prefix := "task-" |}.

(** [virsh list]: it cannot be started, or it ends with its output. *)
Inductive Virsh : Type :=
| VirshSpawnFailed
| VirshExited (success : bool) (stdout stderr : string).

(** [ri_destroy]: what the script answers for a machine, and whether the
    machine is gone; [ri_fault]: the save of a failed task. *)
Record ReconIo : Type := {
  ri_now : Z;
  ri_virsh : Virsh;
  ri_destroy : string → Exec * bool;
  ri_fault : string → option SaveFault;
}.

Definition day : Z := seconds 86400.

(** [num_days() as u64] *)
Definition age_days (now changed : Z) : Z := Z.quot (now - changed) day `mod` (u64_max + 1).

(** The lines of a listing that are names of managed machines. *)
Definition managed_names (prefix stdout : string) : list string :=
  List.filter (λ s, starts_with s prefix) (List.filter (λ s, negb (empty s)) (trim <$> split_char "010"%char stdout)).

Section reconciler.
Context `{TaskCodec}.
Variable dir : Path.
Variable cfg : ReconciliationConfig.
Implicit Types (d : Disk) (vms : gset string) (io : ReconIo) (t : OTask).

Fixpoint load_tasks d (ids : list string) : result ReconciliationError (list OTask) :=
  match ids with
  | [] => Ok []
  | id :: ids =>
      found ← map_err RcCheckpoint (load dir d id);
      rest ← load_tasks d ids;
      Ok (match found with Some t => t :: rest | None => rest end)
  end.

Definition load_all_tasks d : result ReconciliationError (list OTask) :=
  ids ← map_err RcCheckpoint (list_checkpoints dir d); load_tasks d ids.

Definition list_managed_vms io : result ReconciliationError (list string) :=
  match ri_virsh io with
  | VirshSpawnFailed => Err RcIo
  | VirshExited false _ stderr => Err (VirshFailed stderr)
  | VirshExited true stdout _ =>
      let prefix := trim (rcf_managed_vm_prefix cfg) in
      Ok (if empty prefix then [] else managed_names prefix stdout)
  end.

Definition should_have_vm (st : TaskState) : bool :=
  match st with Ready | Running | FailedPreserved => true | _ => false end.
Definition needs_vm (st : TaskState) : bool := match st with Ready | Running => true | _ => false end.

Definition expected_vm t : option string := if should_have_vm (o_state t) then o_vm_name t else None.

Definition vm_findings (ts : list OTask) (vms : list string) : list ReconciliationFinding :=
  omap (λ v, if bool_decide (v ∈ omap expected_vm ts) then None else Some (OrphanedVm v)) vms.

Definition task_finding (vms : list string) t : option ReconciliationFinding :=
  v ← o_vm_name t;
  if needs_vm (o_state t) && negb (bool_decide (v ∈ vms)) then Some (OrphanedTask (o_id t) v) else None.

Definition stale_finding (now : Z) t : option ReconciliationFinding :=
  if is_terminal (o_state t) && (rcf_checkpoint_retention_days cfg <? age_days now (o_state_changed_at t))
  then Some (StaleCheckpoint (o_id t) (age_days now (o_state_changed_at t))) else None.

Definition find_all (now : Z) (ts : list OTask) (vms : list string) : list ReconciliationFinding :=
  vm_findings ts vms ++ omap (task_finding vms) ts ++ omap (stale_finding now) ts.

Definition plan_action (f : ReconciliationFinding) : ReconciliationAction :=
  match f with
  | OrphanedVm v => CleanupVm v
  | OrphanedTask id v => FailTask id ("VM " +:+ v +:+ " not found")
  | StaleCheckpoint id _ => DeleteCheckpoint id
  end.
Definition plan_actions (fs : list ReconciliationFinding) : list ReconciliationAction := plan_action <$> fs.

Definition destroy_vm io vms (v : string) : gset string * result ReconciliationError unit :=
  let '(e, gone) := ri_destroy io v in
  let vms := if gone then vms ∖ {[v]} else vms in
  (vms, match e with
    | SpawnFailed _ => Err RcIo
    | Exited false stderr => Err (CleanupFailed v stderr)
    | Exited true _ => Ok ()
    end).

Definition fail_task io d (task_id reason : string) : Disk * result ReconciliationError unit :=
  match load dir d task_id with
  | Err e => (d, Err (RcCheckpoint e))
  | Ok None => (d, Err (RcTaskNotFound task_id))
  | Ok (Some t) =>
      match transition_to (ri_now io) Failed (t <| o_error := Some ("Reconciliation: " +:+ reason) |>) with
      | Err e => (d, Err (StateTransition (orchestrator_error_text e)))
      | Ok t => let '(d, r) := save dir (ri_fault io task_id) d t in (d, map_err RcCheckpoint r)
      end
  end.

Definition execute_action io (s : Disk * gset string) (a : ReconciliationAction)
    : (Disk * gset string) * result ReconciliationError unit :=
  let '(d, vms) := s in
  match a with
  | CleanupVm v => let '(vms, r) := destroy_vm io vms v in ((d, vms), r)
  | FailTask id reason => let '(d, r) := fail_task io d id reason in ((d, vms), r)
  | DeleteCheckpoint id => let '(d, r) := delete_checkpoint dir d id in ((d, vms), map_err RcCheckpoint r)
  end.

Definition action_result (a : ReconciliationAction) (r : result ReconciliationError unit) : ActionResult :=
  match r with
  | Ok _ => {| ar_action := a; ar_success := true; ar_error := None |}
  | Err e => {| ar_action := a; ar_success := false; ar_error := Some e |}
  end.

Fixpoint execute_actions io (s : Disk * gset string) (l : list ReconciliationAction)
    : (Disk * gset string) * list ActionResult :=
  match l with
  | [] => (s, [])
  | a :: l =>
      let '(s, r) := execute_action io s a in
      let '(s, rs) := execute_actions io s l in
      (s, action_result a r :: rs)
  end.

Definition reconcile io (dry_run : bool) d vms : (Disk * gset string) * result ReconciliationError ReconciliationReport :=
  match load_all_tasks d with
  | Err e => ((d, vms), Err e)
  | Ok ts =>
      match list_managed_vms io with
      | Err e => ((d, vms), Err e)
      | Ok names =>
          let fs := find_all (ri_now io) ts names in
          let actions := plan_actions fs in
          let '(s, taken) := if dry_run then ((d, vms), (λ a, action_result a (Ok ())) <$> actions)
                             else execute_actions io (d, vms) actions in
          (s, Ok {| rr_run_at := ri_now io; rr_findings := fs; rr_actions_taken := taken; rr_dry_run := dry_run |})
      end
  end.

End reconciler.

(** ** Parents and children *)

Record Tracker : Type := {
  children_map : gmap string (list string);
  parent_map : gmap string string;
}.

Definition new_tracker : Tracker := {| children_map := ∅; parent_map := ∅ |}.

Definition register_child (tr : Tracker) (parent_id child_id : string) : Tracker :=
  {| children_map := <[parent_id := default [] (children_map tr !! parent_id) ++ [child_id]]> (children_map tr);
     parent_map := <[child_id := parent_id]> (parent_map tr) |}.

Definition get_children (tr : Tracker) (parent_id : string) : list string := default [] (children_map tr !! parent_id).
Definition get_parent (tr : Tracker) (child_id : string) : option string := parent_map tr !! child_id.

Definition unregister_child (tr : Tracker) (child_id : string) : Tracker :=
  match parent_map tr !! child_id with
  | None => tr
  | Some parent_id =>
      {| children_map := match children_map tr !! parent_id with
           | None => children_map tr
           | Some l =>
               let l := List.filter (λ c, negb (bool_decide (c = child_id))) l in
               if decide (l = []) then delete parent_id (children_map tr) else <[parent_id := l]> (children_map tr)
           end;
         parent_map := delete child_id (parent_map tr) |}
  end.

Record ChildrenStatus : Type := {
  cs_total : Z;
  cs_pending : Z;
  cs_running : Z;
  cs_completed : Z;
  cs_failed : Z;
  cs_cancelled : Z;
}.

Definition no_children : ChildrenStatus :=
  {| cs_total := 0; cs_pending := 0; cs_running := 0; cs_completed := 0; cs_failed := 0; cs_cancelled := 0 |}.

Definition all_terminal (s : ChildrenStatus) : bool := (cs_pending s =? 0) && (cs_running s =? 0).
Definition has_failures (s : ChildrenStatus) : bool := 0 <? cs_failed s.

Definition count_child (s : ChildrenStatus) (st : TaskState) : ChildrenStatus :=
  match st with
  | Pending | Staging | Provisioning | Ready => s <| cs_pending ::= Z.add 1 |>
  | Running | Completing => s <| cs_running ::= Z.add 1 |>
  | Completed => s <| cs_completed ::= Z.add 1 |>
  | Failed | FailedPreserved => s <| cs_failed ::= Z.add 1 |>
  | Cancelled => s <| cs_cancelled ::= Z.add 1 |>
  end.

Section children.
Context `{TaskCodec}.
Variable dir : Path.
Implicit Types (d : Disk) (tr : Tracker).

(** One round of the wait: [None] is another round after five seconds. *)
Fixpoint poll_children d (ids : list string) : result CheckpointError (option (list OTask)) :=
  match ids with
  | [] => Ok (Some [])
  | id :: ids =>
      found ← load dir d id;
      rest ← poll_children d ids;
      Ok (match found with
        | Some t => if is_terminal (o_state t) then (λ ts, t :: ts) <$> rest else None
        | None => None
        end)
  end.

(** [wait_for_children] with the disk at every round; [None] while it waits. *)
Fixpoint wait_for_children (rounds : list Disk) tr (parent_id : string) : option (result CheckpointError (list OTask)) :=
  if decide (get_children tr parent_id = []) then Some (Ok [])
  else match rounds with
    | [] => None
    | d :: rounds =>
        match poll_children d (get_children tr parent_id) with
        | Err e => Some (Err e)
        | Ok (Some ts) => Some (Ok ts)
        | Ok None => wait_for_children rounds tr parent_id
        end
    end.

Fixpoint count_children d (ids : list string) (s : ChildrenStatus) : result CheckpointError ChildrenStatus :=
  match ids with
  | [] => Ok s
  | id :: ids =>
      found ← load dir d id;
      count_children d ids (match found with Some t => count_child s (o_state t) | None => s end)
  end.

Definition get_children_status d tr (parent_id : string) : result CheckpointError ChildrenStatus :=
  let ids := get_children tr parent_id in
  if decide (ids = []) then Ok no_children else count_children d ids (no_children <| cs_total := len ids |>).

(** Every checkpoint is read, and nothing is registered. *)
Fixpoint scan_checkpoints d (ids : list string) : result CheckpointError unit :=
  match ids with [] => Ok () | id :: ids => _ ← load dir d id; scan_checkpoints d ids end.
Definition rebuild_from_checkpoints d tr : Tracker * result CheckpointError Z :=
  (tr, ids ← list_checkpoints dir d; _ ← scan_checkpoints d ids; Ok 0).

End children.

(** ** Clean-up *)

Record RetentionPolicy : Type := {
  rp_completed_days : Z;
  rp_failed_days : Z;
  rp_cancelled_days : Z;
  rp_artifact_days : Z;
  rp_cleanup_orphaned_vms : bool;
  rp_managed_vm_prefix : string;
  rp_cleanup_orphaned_checkpoints : bool;
}.

Definition default_policy : RetentionPolicy :=
  {| rp_completed_days := 7; rp_failed_days := 14; rp_cancelled_days := 3; rp_artifact_days := 30;
     rp_cleanup_orphaned_vms := false; rp_managed_vm_prefix := "task-"; rp_cleanup_orphaned_checkpoints := true |}.

Inductive CleanupSchedule : Type := Hourly | Daily | Custom (secs : Z).
Definition to_duration (s : CleanupSchedule) : Z :=
  match s with Hourly => seconds 3600 | Daily => seconds 86400 | Custom secs => seconds secs end.

Record CleanupResult : Type := {
  cl_tasks_deleted : Z;
  cl_items_deleted : Z;
  cl_bytes_freed : Z;
}.
Definition nothing_cleaned : CleanupResult := {| cl_tasks_deleted := 0; cl_items_deleted := 0; cl_bytes_freed := 0 |}.

Record CleanupMetrics : Type := {
  cm_tasks_deleted : Z;
  cm_artifacts_deleted : Z;
  cm_checkpoints_deleted : Z;
  cm_vms_destroyed : Z;
  cm_bytes_freed : Z;
}.

Inductive CleanupError : Type :=
| ClIo
| ClCheckpoint (e : CheckpointError)
| VmCommand (e : string).

(** [ci_mtime]: when a file was last written; [ci_undefine]: whether a machine
    is undefined, [None] when [virsh] cannot be started. *)
Record CleanIo : Type := {
  ci_now : Z;
  ci_mtime : Path → Z;
  ci_virsh : Virsh;
  ci_undefine : string → option bool;
}.

Section cleanup.
Context `{TaskCodec}.
Variable tasks_root : Path.
Implicit Types (d : Disk) (vms : gset string) (io : CleanIo).
Abbreviation dir := (checkpoint_dir tasks_root).

(** The bytes of the files below a directory. *)
Definition dir_size d (p : Path) : Z :=
  sum_with (λ kv : Path * string, Z.of_nat (String.length kv.2)) (List.filter (λ kv, below p kv.1) (map_to_list (files d))).
Definition calculate_task_size d (task_id : string) : Z :=
  if path_exists d (task_dir tasks_root task_id) then dir_size d (task_dir tasks_root task_id) else 0.

(** One task: its directory, then its checkpoint; errors are only logged. *)
Definition cleanup_one d (r : CleanupResult) (task_id : string) : Disk * CleanupResult :=
  let r := r <| cl_bytes_freed ::= Z.add (calculate_task_size d task_id) |> in
  let '(d, r) := match cleanup_task tasks_root d task_id with
    | Some d => (d, r <| cl_tasks_deleted ::= Z.add 1 |>)
    | None => (d, r)
    end in
  ((delete_checkpoint dir d task_id).1, r).

Fixpoint cleanup_ids (state : TaskState) (cutoff : Z) d (r : CleanupResult) (ids : list string)
    : Disk * result CleanupError CleanupResult :=
  match ids with
  | [] => (d, Ok r)
  | id :: ids =>
      match load dir d id with
      | Err e => (d, Err (ClCheckpoint e))
      | Ok (Some t) =>
          if bool_decide (o_state t = state) && (o_state_changed_at t <? cutoff)
          then let '(d, r) := cleanup_one d r id in cleanup_ids state cutoff d r ids
          else cleanup_ids state cutoff d r ids
      | Ok None => cleanup_ids state cutoff d r ids
      end
  end.

Definition cleanup_old_tasks (now : Z) d (state : TaskState) (days : Z) : Disk * result CleanupError CleanupResult :=
  match list_checkpoints dir d with
  | Err e => (d, Err (ClCheckpoint e))
  | Ok ids => cleanup_ids state (now - days * day) d nothing_cleaned ids
  end.

Definition cleanup_old_files_in_dir io d (p : Path) (cutoff : Z) : Disk * result CleanupError CleanupResult :=
  match read_dir d p with
  | None => (d, Err ClIo)
  | Some names =>
      let '(d, r) := foldl (λ '(d, r) name,
        let q := p ++ [name] in
        match files d !! q with
        | Some data =>
            if ci_mtime io q <? cutoff
            then (default d (remove_file d q), r <| cl_bytes_freed ::= Z.add (Z.of_nat (String.length data)) |>
                                                 <| cl_items_deleted ::= Z.add 1 |>)
            else (d, r)
        | None => (d, r)
        end) (d, nothing_cleaned) names in
      (d, Ok r)
  end.

Fixpoint cleanup_artifact_dirs io (cutoff : Z) d (r : CleanupResult) (names : list string)
    : Disk * result CleanupError CleanupResult :=
  match names with
  | [] => (d, Ok r)
  | name :: names =>
      let artifacts := tasks_root ++ [name; "outbox"; "artifacts"] in
      if is_dir d (tasks_root ++ [name]) && path_exists d artifacts then
        match cleanup_old_files_in_dir io d artifacts cutoff with
        | (d, Err e) => (d, Err e)
        | (d, Ok c) => cleanup_artifact_dirs io cutoff d
            (r <| cl_items_deleted ::= Z.add (cl_items_deleted c) |> <| cl_bytes_freed ::= Z.add (cl_bytes_freed c) |>) names
        end
      else cleanup_artifact_dirs io cutoff d r names
  end.

Definition cleanup_old_artifacts io d (days : Z) : Disk * result CleanupError CleanupResult :=
  if negb (path_exists d tasks_root) then (d, Ok nothing_cleaned)
  else match read_dir d tasks_root with
    | None => (d, Err ClIo)
    | Some names => cleanup_artifact_dirs io (ci_now io - days * day) d nothing_cleaned names
    end.

Definition cleanup_orphaned_checkpoints (dir_len : Z) d : Disk * result CleanupError CleanupResult :=
  match list_checkpoints dir d with
  | Err e => (d, Err (ClCheckpoint e))
  | Ok ids =>
      let '(d, r) := foldl (λ '(d, r) id,
        if task_exists tasks_root d id then (d, r)
        else
          let r := match checkpoint_size dir dir_len d id with
            | Ok (Some size) => r <| cl_bytes_freed ::= Z.add size |>
            | _ => r
            end in
          match delete_checkpoint dir d id with
          | (d, Ok _) => (d, r <| cl_items_deleted ::= Z.add 1 |>)
          | (d, Err _) => (d, r)
          end) (d, nothing_cleaned) ids in
      (d, Ok r)
  end.

(** Whether a checkpoint names the machine; the first that does ends the
    search. *)
Fixpoint has_task d (ids : list string) (vm_name : string) : result CheckpointError bool :=
  match ids with
  | [] => Ok false
  | id :: ids =>
      found ← load dir d id;
      if bool_decide (found ≫= o_vm_name = Some vm_name) then Ok true else has_task d ids vm_name
  end.

Fixpoint cleanup_vms io d (ids : list string) vms (r : CleanupResult) (names : list string)
    : gset string * result CleanupError CleanupResult :=
  match names with
  | [] => (vms, Ok r)
  | v :: names =>
      match has_task d ids v with
      | Err e => (vms, Err (ClCheckpoint e))
      | Ok true => cleanup_vms io d ids vms r names
      | Ok false =>
          match ci_undefine io v with
          | None => (vms, Err ClIo)
          | Some true => cleanup_vms io d ids (vms ∖ {[v]}) (r <| cl_items_deleted ::= Z.add 1 |>) names
          | Some false => cleanup_vms io d ids vms r names
          end
      end
  end.

Definition cleanup_orphaned_vms io (policy : RetentionPolicy) d vms : gset string * result CleanupError CleanupResult :=
  let prefix := trim (rp_managed_vm_prefix policy) in
  if empty prefix then (vms, Ok nothing_cleaned)
  else match ci_virsh io with
    | VirshSpawnFailed => (vms, Err ClIo)
    | VirshExited false _ _ => (vms, Err (VmCommand "Failed to list VMs"))
    | VirshExited true stdout _ =>
        match list_checkpoints dir d with
        | Err e => (vms, Err (ClCheckpoint e))
        | Ok ids => cleanup_vms io d ids vms nothing_cleaned (managed_names prefix stdout)
        end
    end.

(** A pass: the first error ends it. *)
Definition run_cleanup io (dir_len : Z) (policy : RetentionPolicy) d vms
    : (Disk * gset string) * result CleanupError CleanupMetrics :=
  match cleanup_old_tasks (ci_now io) d Completed (rp_completed_days policy) with
  | (d, Err e) => ((d, vms), Err e)
  | (d, Ok r1) =>
  match cleanup_old_tasks (ci_now io) d Failed (rp_failed_days policy) with
  | (d, Err e) => ((d, vms), Err e)
  | (d, Ok r2) =>
  match cleanup_old_tasks (ci_now io) d Cancelled (rp_cancelled_days policy) with
  | (d, Err e) => ((d, vms), Err e)
  | (d, Ok r3) =>
  match cleanup_old_artifacts io d (rp_artifact_days policy) with
  | (d, Err e) => ((d, vms), Err e)
  | (d, Ok r4) =>
  match (if rp_cleanup_orphaned_checkpoints policy then cleanup_orphaned_checkpoints dir_len d else (d, Ok nothing_cleaned)) with
  | (d, Err e) => ((d, vms), Err e)
  | (d, Ok r5) =>
  match (if rp_cleanup_orphaned_vms policy then cleanup_orphaned_vms io policy d vms else (vms, Ok nothing_cleaned)) with
  | (vms, Err e) => ((d, vms), Err e)
  | (vms, Ok r6) =>
      ((d, vms), Ok {| cm_tasks_deleted := cl_tasks_deleted r1 + cl_tasks_deleted r2 + cl_tasks_deleted r3;
        cm_artifacts_deleted := cl_items_deleted r4; cm_checkpoints_deleted := cl_items_deleted r5;
        cm_vms_destroyed := cl_items_deleted r6;
        cm_bytes_freed := cl_bytes_freed r1 + cl_bytes_freed r2 + cl_bytes_freed r3 + cl_bytes_freed r4 + cl_bytes_freed r5 |})
  end end end end end end.

End cleanup.

(** ** What a reconciliation pass does *)

Section reconciler_laws.
Context `{TaskCodec}.
Variable dir : Path.
Variable cfg : ReconciliationConfig.
Implicit Types (d : Disk) (vms : gset string) (io : ReconIo) (t : OTask).
Abbreviation reconcile := (reconcile dir cfg).
Abbreviation load := (load dir).

Lemma elem_of_vm_findings ts names v :
  OrphanedVm v ∈ vm_findings ts names ↔
  v ∈ names ∧ ∀ t, t ∈ ts → should_have_vm (o_state t) = true → o_vm_name t ≠ Some v.
Proof.
  unfold vm_findings. rewrite list_elem_of_omap. split.
  - intros (x & Hx & Hf). case_bool_decide as He; [done|]. injection Hf as ->. split; [done|].
    intros t Ht Hs Hv. apply He, list_elem_of_omap. exists t. split; [done|]. unfold expected_vm. by rewrite Hs.
  - intros [Hv Hno]. exists v. split; [done|]. rewrite bool_decide_eq_false_2; [done|].
    intros (t & Ht & He)%list_elem_of_omap. unfold expected_vm in He. destruct (should_have_vm (o_state t)) eqn:Hs; [|done]. by apply (Hno t).
Qed.

Lemma elem_of_find_all now ts names f :
  f ∈ find_all cfg now ts names ↔
  f ∈ vm_findings ts names ∨ (∃ t, t ∈ ts ∧ task_finding names t = Some f) ∨ (∃ t, t ∈ ts ∧ stale_finding cfg now t = Some f).
Proof. unfold find_all. by rewrite !elem_of_app, !list_elem_of_omap. Qed.

Lemma task_finding_Some names t f :
  task_finding names t = Some f ↔
  ∃ v, f = OrphanedTask (o_id t) v ∧ o_vm_name t = Some v ∧ needs_vm (o_state t) = true ∧ v ∉ names.
Proof.
  unfold task_finding. destruct (o_vm_name t) as [v|]; cbn; [|naive_solver].
  destruct (needs_vm (o_state t)); cbn; [|naive_solver]. case_bool_decide; cbn; naive_solver.
Qed.

Lemma stale_finding_Some now t f :
  stale_finding cfg now t = Some f ↔
  f = StaleCheckpoint (o_id t) (age_days now (o_state_changed_at t)) ∧ is_terminal (o_state t) = true ∧
  rcf_checkpoint_retention_days cfg < age_days now (o_state_changed_at t).
Proof.
  unfold stale_finding. destruct (is_terminal _); cbn; [|naive_solver]. destruct (_ <? _) eqn:Hlt; [|naive_solver lia].
  apply Z.ltb_lt in Hlt. naive_solver.
Qed.

Lemma not_vm_finding ts names f : f ∈ vm_findings ts names → ∃ v, f = OrphanedVm v.
Proof. unfold vm_findings. intros (x & _ & Hf)%list_elem_of_omap. case_match; [done|]. injection Hf as <-. eauto. Qed.

(** what a pass finds.  A machine is orphaned exactly when it is managed
    and no ready, running or preserved task names it; a task exactly when it is
    ready or running on a machine that is not there; a checkpoint is stale
    exactly when its task finished longer ago than the retention. *)
Theorem reconcile_findings_exact io dry d vms s rep :
  reconcile io dry d vms = (s, Ok rep) →
  ∃ ts names, load_all_tasks dir d = Ok ts ∧ list_managed_vms cfg io = Ok names ∧
    (∀ v, OrphanedVm v ∈ rr_findings rep ↔
       v ∈ names ∧ ∀ t, t ∈ ts → should_have_vm (o_state t) = true → o_vm_name t ≠ Some v) ∧
    (∀ id v, OrphanedTask id v ∈ rr_findings rep ↔
       ∃ t, t ∈ ts ∧ o_id t = id ∧ o_vm_name t = Some v ∧ needs_vm (o_state t) = true ∧ v ∉ names) ∧
    (∀ id age, StaleCheckpoint id age ∈ rr_findings rep ↔
       ∃ t, t ∈ ts ∧ o_id t = id ∧ age = age_days (ri_now io) (o_state_changed_at t) ∧ is_terminal (o_state t) = true ∧
         rcf_checkpoint_retention_days cfg < age).
Proof.
  unfold Reconcile.reconcile. destruct (load_all_tasks dir d) as [ts|]; [|done].
  destruct (list_managed_vms cfg io) as [names|]; [|done]. cbv zeta.
  destruct (if dry then _ else _) as [s' taken]. intros [= <- <-]. exists ts, names. cbn [rr_findings]. split_and!; [done..| | |].
  - intros v. rewrite elem_of_find_all, elem_of_vm_findings. split; [|by left].
    intros [Hv|[(t & _ & (? & ? & _)%task_finding_Some)|(t & _ & (? & _)%stale_finding_Some)]]; done.
  - intros id v. rewrite elem_of_find_all. split.
    + intros [[? ?]%not_vm_finding|[(t & Ht & (v' & Hf & Hv & Hn & Hno)%task_finding_Some)|(t & _ & (? & _)%stale_finding_Some)]]; try done.
      injection Hf as -> ->. by exists t.
    + intros (t & Ht & <- & Hv & Hn & Hno). right. left. exists t. split; [done|]. apply task_finding_Some. by exists v.
  - intros id age. rewrite elem_of_find_all. split.
    + intros [[? ?]%not_vm_finding|[(t & _ & (? & ? & _)%task_finding_Some)|(t & Ht & (Hf & Hterm & Hage)%stale_finding_Some)]]; try done.
      injection Hf as -> ->. by exists t.
    + intros (t & Ht & <- & -> & Hterm & Hage). right. right. exists t. split; [done|]. by apply stale_finding_Some.
Qed.

(** *** Machines *)

Lemma execute_action_vms io s a v :
  v ∈ s.2 → v ∉ (execute_action dir io s a).1.2 → a = CleanupVm v.
Proof.
  destruct s as [d vms]. unfold execute_action. cbn [snd]. intros Hin. destruct a as [v'|id reason|id].
  - unfold destroy_vm. destruct (ri_destroy io v') as [e []]; cbn; [|done]. intros Hout. destruct (decide (v' = v)) as [->|Hne]; [done|].
    exfalso. apply Hout. set_solver.
  - by destruct (fail_task _ _ _ _ _).
  - by destruct (delete_checkpoint _ _ _).
Qed.

Lemma execute_actions_vms io s l v :
  v ∈ s.2 → v ∉ (execute_actions dir io s l).1.2 → CleanupVm v ∈ l.
Proof.
  revert s. induction l as [|a l IH]; intros s Hin; [done|]. cbn [execute_actions].
  pose proof (execute_action_vms io s a v Hin) as Ha. destruct (execute_action dir io s a) as [s1 r]. cbn [fst] in Ha.
  specialize (IH s1). destruct (execute_actions dir io s1 l) as [s2 rs]. cbn [fst] in *. intros Hout.
  destruct (decide (v ∈ s1.2)) as [H1|H1]; [right; auto|]. rewrite (Ha H1). left.
Qed.

Lemma execute_actions_gone io s l v :
  (ri_destroy io v).2 = true → CleanupVm v ∈ l ∨ v ∉ s.2 → v ∉ (execute_actions dir io s l).1.2.
Proof.
  intros Hgone. revert s. induction l as [|a l IH]; intros s Hl; cbn [execute_actions].
  { destruct Hl as [Hl|Hl]; [by apply elem_of_nil in Hl|done]. }
  assert (CleanupVm v ∈ l ∨ v ∉ (execute_action dir io s a).1.2) as Hl'.
  { destruct s as [d vms]. unfold execute_action. destruct Hl as [[<-|Hl]%elem_of_cons|Hl]; [|by left|]; right.
    - unfold destroy_vm. destruct (ri_destroy io v) as [e g]. cbn in *. subst g. cbn. set_solver.
    - cbn [snd] in Hl. destruct a as [v'|id reason|id].
      + unfold destroy_vm. destruct (ri_destroy io v') as [e []]; cbn; set_solver.
      + by destruct (fail_task _ _ _ _ _).
      + by destruct (delete_checkpoint _ _ _). }
  specialize (IH _ Hl'). destruct (execute_action dir io s a) as [s1 r]. cbn [fst] in IH. destruct (execute_actions dir io s1 l). exact IH.
Qed.

(** C23: a pass destroys orphans only.  A machine that is gone after a pass was
    listed, carries the managed prefix, and no ready, running or preserved task
    names it. *)
Theorem reconcile_destroys_only_orphans io dry d vms d' vms' r v :
  reconcile io dry d vms = ((d', vms'), r) → v ∈ vms → v ∉ vms' →
  ∃ ts names, load_all_tasks dir d = Ok ts ∧ list_managed_vms cfg io = Ok names ∧ v ∈ names ∧
    starts_with v (trim (rcf_managed_vm_prefix cfg)) = true ∧ trim (rcf_managed_vm_prefix cfg) ≠ EmptyString ∧
    ∀ t, t ∈ ts → should_have_vm (o_state t) = true → o_vm_name t ≠ Some v.
Proof.
  unfold Reconcile.reconcile. destruct (load_all_tasks dir d) as [ts|]; [|by intros [= -> -> <-]].
  destruct (list_managed_vms cfg io) as [names|] eqn:Hn; [|by intros [= -> -> <-]]. cbv zeta.
  destruct dry; [by intros [= -> -> <-]|]. pose proof (execute_actions_vms io (d, vms) (plan_actions (find_all cfg (ri_now io) ts names)) v) as He.
  destruct (execute_actions _ _ _ _) as [[d1 vms1] taken]. intros [= -> -> <-] Hin Hout. cbn in He. specialize (He Hin Hout).
  apply list_elem_of_fmap in He as (f & Hf & Hfs). destruct f; try done. injection Hf as <-.
  apply elem_of_find_all in Hfs as [Hv|[(t & _ & (? & ? & _)%task_finding_Some)|(t & _ & (? & _)%stale_finding_Some)]]; try done.
  apply elem_of_vm_findings in Hv as [Hv Hno]. exists ts, names. split_and!; try done;
    unfold list_managed_vms in Hn; destruct (ri_virsh io) as [|[] stdout stderr]; try done; injection Hn as <-;
    destruct (empty _) eqn:Hemp; try (by apply elem_of_nil in Hv).
  - unfold managed_names in Hv. apply list_elem_of_In, List.filter_In in Hv as [_ Hs]. done.
  - intros He. unfold empty in Hemp. by rewrite He in Hemp.
Qed.

(** a leaked machine is reclaimed.  A managed machine that no ready,
    running or preserved task names is gone after a pass whose script destroys
    it, whatever left it behind. *)
Theorem reconcile_reclaims_leaked_vm io d vms s rep ts names v :
  reconcile io false d vms = (s, Ok rep) → load_all_tasks dir d = Ok ts → list_managed_vms cfg io = Ok names →
  v ∈ names → (∀ t, t ∈ ts → o_vm_name t = Some v → should_have_vm (o_state t) = false) →
  (ri_destroy io v).2 = true → v ∉ s.2.
Proof.
  unfold Reconcile.reconcile. intros Hr Hts Hn Hv Hno Hgone. rewrite Hts, Hn in Hr. cbv zeta in Hr.
  pose proof (execute_actions_gone io (d, vms) (plan_actions (find_all cfg (ri_now io) ts names)) v Hgone) as He.
  destruct (execute_actions _ _ _ _) as [s1 taken]. injection Hr as <- <-. cbn in He. apply He. left.
  apply list_elem_of_fmap. exists (OrphanedVm v). split; [done|]. apply elem_of_find_all. left. apply elem_of_vm_findings.
  split; [done|]. intros t Ht Hs Hvm. by rewrite (Hno t Ht Hvm) in Hs.
Qed.

(** *** Checkpoints *)

Lemma delete_spec d id :
  contains_char id slash = false →
  dirs (delete_checkpoint dir d id).1 = dirs d ∧
  ∀ id', contains_char id' slash = false → id' ≠ id →
    files (delete_checkpoint dir d id).1 !! checkpoint_path dir id' = files d !! checkpoint_path dir id'.
Proof.
  intros Hid.
  assert (∀ d p d1, remove_file d p = Some d1 → d1 = d <| files ::= delete p |>) as Hrm.
  { intros d0 p d1. unfold remove_file. case_match; [by intros [= <-]|done]. }
  assert (∀ d id', contains_char id' slash = false → id' ≠ id →
    dirs (default d (remove_file d (temp_checkpoint_path dir id))) = dirs d ∧
    files (default d (remove_file d (temp_checkpoint_path dir id))) !! checkpoint_path dir id' = files d !! checkpoint_path dir id') as Ht.
  { intros d0 id' Hid' Hne. destruct (remove_file d0 _) as [d1|] eqn:Hr; [|done]. apply Hrm in Hr as ->. cbn. split; [done|].
    rewrite lookup_delete_ne; [done|]. by apply temp_not_checkpoint. }
  unfold delete_checkpoint. destruct (path_exists d (checkpoint_path dir id)).
  - destruct (remove_file d _) as [d1|] eqn:Hr; [|done]. apply Hrm in Hr as ->. cbn [fst]. split.
    + destruct (remove_file _ _) as [d2|] eqn:Hr2; [|done]. by apply Hrm in Hr2 as ->.
    + intros id' Hid' Hne. destruct (Ht (d <| files ::= delete (checkpoint_path dir id) |>) id' Hid' Hne) as [_ ->]. cbn.
      rewrite lookup_delete_ne; [done|]. intros Heq. apply Hne. symmetry. by eapply checkpoint_path_inj.
  - cbn [fst]. split; [|intros id' Hid' Hne; by apply Ht].
    destruct (remove_file _ _) as [d2|] eqn:Hr2; [|done]. by apply Hrm in Hr2 as ->.
Qed.

Lemma delete_other d id id' :
  contains_char id slash = false → contains_char id' slash = false → id' ≠ id →
  load (delete_checkpoint dir d id).1 id' = load d id'.
Proof. intros Hid Hid' Hne. destruct (delete_spec d id Hid) as [Hd Hf]. apply load_ext; [by apply Hf|done]. Qed.

(** A store as the orchestrator writes it: files are named after their tasks. *)
Definition store_ok d : Prop :=
  ∀ ids id t, list_checkpoints dir d = Ok ids → id ∈ ids → load d id = Ok (Some t) → o_id t = id ∧ contains_char id slash = false.

Lemma load_tasks_elem d ids ts t :
  load_tasks dir d ids = Ok ts → t ∈ ts → ∃ id, id ∈ ids ∧ load d id = Ok (Some t).
Proof.
  revert ts. induction ids as [|id ids IH]; intros ts; cbn [load_tasks]; [by intros [= <-] ?%elem_of_nil|].
  intros (found & Hf%map_err_Ok & Hr)%bind_Ok. apply bind_Ok in Hr as (rest & Hrest & [= <-]). intros Hin.
  destruct found as [t0|]; [apply elem_of_cons in Hin as [->|Hin]|]; [exists id; split; [left|done]|..];
    destruct (IH _ Hrest Hin) as (id' & Hin' & Hl); exists id'; (split; [by right|done]).
Qed.

(** An action that leaves the checkpoint of a task alone. *)
Definition spares (id : string) (a : ReconciliationAction) : Prop :=
  match a with
  | CleanupVm _ => True
  | FailTask id' _ | DeleteCheckpoint id' => id' ≠ id ∧ contains_char id' slash = false
  end.

Lemma fail_task_other io d id id' reason :
  contains_char id slash = false → contains_char id' slash = false → id' ≠ id →
  (∀ t, load d id = Ok (Some t) → o_id t = id) → load (fail_task dir io d id reason).1 id' = load d id'.
Proof.
  intros Hid Hid' Hne Hown. unfold fail_task. destruct (load d id) as [[t|]|]; try done. specialize (Hown t eq_refl).
  destruct (transition_to _ _ _) as [t'|] eqn:Ht; [|done]. apply transition_Ok in Ht as (_ & _ & _ & Hi & _). cbn in Hi.
  destruct (save dir (ri_fault io id) d t') as [d1 r] eqn:Hs. cbn.
  destruct (checkpoint_save_spec dir (ri_fault io id) d t') as (Hd & Hf & _); [by rewrite Hi, Hown|]. rewrite Hs in *. cbn in *.
  rewrite Hi, Hown in Hf. apply load_ext; [|done]. apply Hf.
  - intros Heq. by apply (temp_not_checkpoint dir id id').
  - intros Heq. apply Hne. by eapply checkpoint_path_inj.
Qed.

(** The plain ids of a set read back as tasks of that name. *)
Definition owns (X : list string) d : Prop :=
  ∀ id t, id ∈ X → load d id = Ok (Some t) → o_id t = id.

Lemma fail_task_owns io d id reason X :
  id ∈ X → Forall (λ x, contains_char x slash = false) X → owns X d → owns X (fail_task dir io d id reason).1.
Proof.
  intros Hin Hall Hown x t Hx. rewrite Forall_forall in Hall.
  destruct (decide (x = id)) as [->|Hne].
  2: { rewrite fail_task_other; [by apply Hown|by apply Hall|by apply Hall|done|]. intros t0. by apply Hown. }
  unfold fail_task. destruct (load d id) as [[t0|]|] eqn:Hl; [|cbn [fst]; by rewrite Hl..]. pose proof (Hown _ _ Hin Hl) as Hid.
  destruct (transition_to _ _ _) as [t'|] eqn:Ht; [|cbn [fst]; rewrite Hl; by intros [= <-]].
  apply transition_Ok in Ht as (_ & _ & _ & Hi & _). cbn in Hi.
  destruct (save dir (ri_fault io id) d t') as [d1 r] eqn:Hs. cbn [fst].
  destruct (checkpoint_save_spec dir (ri_fault io id) d t') as (Hd & _ & Hr); [rewrite Hi, Hid; by apply Hall|].
  rewrite Hs in Hd, Hr. cbn [fst snd] in Hd, Hr. rewrite Hi, Hid in Hr. destruct r as [[]|e].
  - rewrite (load_text dir d1 id t' Hr). intros [= <-]. by rewrite Hi.
  - rewrite (load_ext dir d1 d id Hr Hd), Hl. by intros [= <-].
Qed.

Lemma delete_owns d id X :
  id ∈ X → Forall (λ x, contains_char x slash = false) X → owns X d → owns X (delete_checkpoint dir d id).1.
Proof.
  intros Hin Hall Hown x t Hx. rewrite Forall_forall in Hall. destruct (decide (x = id)) as [->|Hne].
  2: { rewrite delete_other; [by apply Hown|by apply Hall|by apply Hall|done]. }
  intros Hl. apply (Hown id t Hx). revert Hl. unfold delete_checkpoint.
  assert (∀ d0, load (default d0 (remove_file d0 (temp_checkpoint_path dir id))) id = load d0 id) as Htmp.
  { intros d0. destruct (remove_file d0 _) as [d1|] eqn:Hr; [|done]. unfold remove_file in Hr. case_match; [|done].
    injection Hr as <-. apply load_ext; [|done]. cbn. rewrite lookup_delete_ne; [done|]. apply temp_not_checkpoint; by apply Hall. }
  destruct (path_exists d (checkpoint_path dir id)) eqn:Hp; [|cbn; by rewrite Htmp].
  destruct (remove_file d _) as [d1|] eqn:Hr; [|done]. cbn. rewrite Htmp. unfold remove_file in Hr. case_match; [|done].
  injection Hr as <-. unfold OrchTask.load. cbn. rewrite lookup_delete_eq. by case_match.
Qed.

Lemma execute_actions_spare io l X s id :
  Forall (λ x, contains_char x slash = false) X → owns X s.1 → contains_char id slash = false →
  Forall (λ a, spares id a ∧ match a with CleanupVm _ => True | FailTask x _ | DeleteCheckpoint x => x ∈ X end) l →
  load (execute_actions dir io s l).1.1 id = load s.1 id.
Proof.
  intros Hall Hown Hid Hl. revert s Hown. induction Hl as [|a l [Hs Hx] _ IH]; intros [d vms] Hown; [done|]. cbn [execute_actions].
  assert (owns X (execute_action dir io (d, vms) a).1.1 ∧ load (execute_action dir io (d, vms) a).1.1 id = load d id) as [Hown1 Hsame].
  { cbn [fst] in Hown. destruct a as [v|id' reason|id']; cbn [execute_action].
    - by destruct (destroy_vm io vms v).
    - pose proof (fail_task_owns io d id' reason X Hx Hall Hown) as Ho. destruct Hs as [Hne Hp].
      pose proof (fail_task_other io d id' id reason Hp Hid ltac:(done) (λ t, Hown id' t Hx)) as Hf.
      by destruct (fail_task dir io d id' reason).
    - pose proof (delete_owns d id' X Hx Hall Hown) as Ho. destruct Hs as [Hne Hp].
      pose proof (delete_other d id' id Hp Hid ltac:(done)) as Hf. by destruct (delete_checkpoint dir d id'). }
  destruct (execute_action dir io (d, vms) a) as [s1 r]. cbn [fst] in *. specialize (IH s1 Hown1).
  destruct (execute_actions dir io s1 l) as [s2 rs]. cbn [fst] in *. congruence.
Qed.

(** a pass leaves healthy tasks alone.  The checkpoint of a task that is
    not finished, and whose machine, if it needs one, is listed, reads the same
    after the pass. *)
Theorem reconcile_keeps_healthy_tasks io dry d vms s r ids id t :
  store_ok d → list_checkpoints dir d = Ok ids → id ∈ ids → load d id = Ok (Some t) →
  is_terminal (o_state t) = false →
  (∀ names v, list_managed_vms cfg io = Ok names → o_vm_name t = Some v → needs_vm (o_state t) = true → v ∈ names) →
  reconcile io dry d vms = (s, r) → load s.1 id = Ok (Some t).
Proof.
  intros Hok Hids Hin Hl Hterm Hvm. unfold Reconcile.reconcile.
  destruct (load_all_tasks dir d) as [ts|] eqn:Hts; [|by intros [= <- <-]].
  destruct (list_managed_vms cfg io) as [names|] eqn:Hn; [|by intros [= <- <-]]. cbv zeta. destruct dry; [by intros [= <- <-]|].
  assert (∀ t', t' ∈ ts → ∃ id', id' ∈ ids ∧ load d id' = Ok (Some t') ∧ o_id t' = id' ∧ contains_char id' slash = false) as Hload.
  { intros t' Ht'. unfold load_all_tasks in Hts. rewrite Hids in Hts. cbn in Hts.
    destruct (load_tasks_elem _ _ _ _ Hts Ht') as (id' & Hin' & Hl'). exists id'. split; [done|]. split; [done|]. by eapply Hok. }
  assert (∀ t', t' ∈ ts → o_id t' = id → t' = t) as Hsame.
  { intros t' (id' & _ & Hl' & Hi & _)%Hload Hid. congruence. }
  pose proof (execute_actions_spare io (plan_actions (find_all cfg (ri_now io) ts names)) (o_id <$> ts) (d, vms) id) as He.
  destruct (execute_actions _ _ _ _) as [s1 taken]. intros [= <- <-]. cbn [fst] in He. rewrite He; [done|..].
  - apply Forall_fmap, Forall_forall. intros t' (id' & _ & _ & <- & Hp)%Hload. exact Hp.
  - intros x t0 (t' & -> & Ht')%list_elem_of_fmap Hl0. destruct (Hload t' Ht') as (id' & _ & Hl' & Hi & _). congruence.
  - by eapply Hok.
  - unfold plan_actions. apply Forall_fmap, Forall_forall. intros f Hf. apply elem_of_find_all in Hf.
    destruct Hf as [[v ->]%not_vm_finding|[(t' & Ht' & (v & -> & Hv & Hneed & Hno)%task_finding_Some)|(t' & Ht' & (-> & Hterm' & _)%stale_finding_Some)]];
      cbn; [done|..]; destruct (Hload t' Ht') as (id' & _ & _ & Hi & Hp); rewrite Hi in *;
      (split; [split; [|done]|rewrite <-Hi; by apply list_elem_of_fmap_2]); intros ->;
      pose proof (Hsame t' Ht' Hi) as ->; [by eapply Hno, Hvm|congruence].
Qed.

End reconciler_laws.

Section reconciler_findings.
Context `{TaskCodec}.
Variable dir : Path.
Variable cfg : ReconciliationConfig.

(** a pass destroys the machine of a task that is still collecting its
    artifacts.  A completing task does not count as having a machine, so its
    machine is found orphaned and destroyed before the task is finished. *)
Theorem reconcile_destroys_completing_vm io d vms s rep ts names t v :
  reconcile dir cfg io false d vms = (s, Ok rep) → load_all_tasks dir d = Ok ts → list_managed_vms cfg io = Ok names →
  v ∈ names → t ∈ ts → o_state t = Completing → o_vm_name t = Some v →
  (∀ t', t' ∈ ts → o_vm_name t' = Some v → t' = t) →
  (ri_destroy io v).2 = true → OrphanedVm v ∈ rr_findings rep ∧ v ∉ s.2.
Proof.
  unfold reconcile. intros Hr Hts Hn Hv Ht Hst Hvm Huniq Hgone. rewrite Hts, Hn in Hr. cbv zeta in Hr.
  assert (OrphanedVm v ∈ find_all cfg (ri_now io) ts names) as Hf.
  { apply elem_of_find_all. left. apply elem_of_vm_findings. split; [done|]. intros t' Ht' Hs Hvm'.
    rewrite (Huniq t' Ht' Hvm'), Hst in Hs. done. }
  pose proof (execute_actions_gone dir io (d, vms) (plan_actions (find_all cfg (ri_now io) ts names)) v Hgone) as He.
  destruct (execute_actions _ _ _ _) as [s1 taken]. injection Hr as <- <-. split; [done|]. cbn in He. apply He. left.
  by apply (list_elem_of_fmap_2 plan_action) in Hf.
Qed.

End reconciler_findings.

(** ** Parents and children *)

(** Registered and unregistered in any order. *)
Inductive tracker_step : Tracker → Tracker → Prop :=
| ts_register tr p c : tracker_step tr (register_child tr p c)
| ts_unregister tr c : tracker_step tr (unregister_child tr c).

(** Every child with a parent is among its children; no list is empty. *)
Definition tracker_ok (tr : Tracker) : Prop :=
  (∀ c p, parent_map tr !! c = Some p → c ∈ get_children tr p) ∧ (∀ p, children_map tr !! p ≠ Some []).

Lemma register_children tr p c p' :
  get_children (register_child tr p c) p' = if decide (p' = p) then get_children tr p ++ [c] else get_children tr p'.
Proof.
  unfold get_children, register_child. cbn. case_decide; subst; [by rewrite lookup_insert_eq|by rewrite lookup_insert_ne].
Qed.

Lemma unregister_children tr c p p' :
  parent_map tr !! c = Some p →
  get_children (unregister_child tr c) p' =
    (if decide (p' = p) then List.filter (λ x, negb (bool_decide (x = c))) (get_children tr p) else get_children tr p').
Proof.
  intros Hp. unfold get_children, unregister_child. rewrite Hp. cbn.
  destruct (children_map tr !! p) as [l|] eqn:Hl; cbn; [|case_decide; subst; by rewrite ?Hl].
  case_decide as He; case_decide; subst; rewrite ?lookup_delete_eq, ?lookup_insert_eq; cbn; try done.
  - by rewrite lookup_delete_ne.
  - by rewrite lookup_insert_ne.
Qed.

Lemma elem_of_filter_out (x c : string) l : x ∈ List.filter (λ y, negb (bool_decide (y = c))) l ↔ x ∈ l ∧ x ≠ c.
Proof. rewrite !list_elem_of_In, List.filter_In, negb_true_iff, bool_decide_eq_false. done. Qed.

(** children find their parent.  Whatever was registered and unregistered,
    a child with a parent is among the parent's children, and no parent is kept
    without children. *)
Theorem tracker_consistent tr : rtc tracker_step new_tracker tr → tracker_ok tr.
Proof.
  intros Hr. eapply (rtc_invariant _ tracker_ok); [|exact Hr|]; [|split; intros; cbn in *; by simplify_map_eq].
  clear tr Hr. intros tr tr' Hs [Hp Hne]. destruct Hs as [tr p c|tr c].
  - split.
    + intros c' p'. rewrite register_children. cbn. rewrite lookup_insert_Some.
      intros [[-> ->]|[Hcc Hpp]]; [rewrite decide_True by done; set_solver|]. apply Hp in Hpp. case_decide; subst; set_solver.
    + intros p'. cbn. rewrite lookup_insert_Some. intros [[_ Hl]|[_ Hl]]; [by apply app_eq_nil in Hl as [_ ?]|by eapply Hne].
  - destruct (parent_map tr !! c) as [p|] eqn:Hc; [|by unfold unregister_child; rewrite Hc]. split.
    + intros c' p'. rewrite (unregister_children tr c p) by done. unfold unregister_child. rewrite Hc. cbn.
      rewrite lookup_delete_Some. intros [Hcc Hpp%Hp]. case_decide; subst; [|done]. by apply elem_of_filter_out.
    + intros p'. unfold unregister_child. rewrite Hc. cbn. destruct (children_map tr !! p) as [l|]; [|by apply Hne].
      case_decide as He; [rewrite lookup_delete_Some|rewrite lookup_insert_Some]; [intros [_ ?]; by eapply Hne|].
      intros [[_ ?]|[_ ?]]; [done|by eapply Hne].
Qed.

(** a child that changes its parent is never released by the first.  After
    it is registered under a second parent and unregistered, the first parent
    still has it. *)
Theorem moved_child_not_released tr p1 p2 c :
  p1 ≠ p2 →
  let tr' := unregister_child (register_child (register_child tr p1 c) p2 c) c in
  get_parent tr' c = None ∧ c ∈ get_children tr' p1.
Proof.
  intros Hne. cbv zeta. set (tr2 := register_child (register_child tr p1 c) p2 c).
  assert (parent_map tr2 !! c = Some p2) as Hp by apply lookup_insert_eq. split.
  - unfold get_parent, unregister_child. rewrite Hp. apply lookup_delete_eq.
  - rewrite (unregister_children tr2 c p2) by done. rewrite decide_False by done. unfold tr2.
    rewrite !register_children, decide_False, decide_True by done. set_solver.
Qed.

Section children_laws.
Context `{TaskCodec}.
Variable dir : Path.
Implicit Types (d : Disk) (tr : Tracker).

Lemma poll_children_done d ids ts :
  poll_children dir d ids = Ok (Some ts) ↔
  Forall2 (λ id t, load dir d id = Ok (Some t) ∧ is_terminal (o_state t) = true) ids ts.
Proof.
  revert ts. induction ids as [|id ids IH]; intros ts; cbn [poll_children].
  { split; [intros [= <-]; constructor|]. intros Hf. by inversion Hf. }
  rewrite bind_Ok. split.
  - intros (found & Hf & (rest & Hrest & Hres)%bind_Ok). destruct found as [t|]; [|done].
    destruct (is_terminal (o_state t)) eqn:Ht; [|done]. destruct rest as [l|]; [|done]. injection Hres as <-.
    constructor; [done|]. by apply IH.
  - intros Hf. inversion Hf as [|? t ? l [Hl Ht] Hr]; subst. apply IH in Hr. exists (Some t). split; [done|].
    rewrite Hr. cbn. by rewrite Ht.
Qed.

Lemma count_children_total d ids s s' :
  count_children dir d ids s = Ok s' → cs_total s' = cs_total s ∧ cs_pending s <= cs_pending s' ∧ cs_running s <= cs_running s'.
Proof.
  revert s. induction ids as [|id ids IH]; intros s; cbn [count_children]; [intros [= <-]; lia|].
  intros (found & _ & Hc)%bind_Ok. apply IH in Hc as (Ht & Hp & Hr). destruct found as [t|]; [|done].
  destruct (o_state t); cbn in *; lia.
Qed.

Lemma count_terminal d ids s s' :
  count_children dir d ids s = Ok s' → cs_pending s' = cs_pending s → cs_running s' = cs_running s →
  ∀ id t, id ∈ ids → load dir d id = Ok (Some t) → is_terminal (o_state t) = true.
Proof.
  revert s. induction ids as [|x ids IH]; intros s; cbn [count_children]; [by intros _ _ _ id t ?%elem_of_nil|].
  intros (found & Hf & Hc)%bind_Ok Hp Hr id t. pose proof (count_children_total _ _ _ _ Hc) as (_ & Hp' & Hr').
  destruct found as [t0|].
  - assert (is_terminal (o_state t0) = true ∧ cs_pending (count_child s (o_state t0)) = cs_pending s ∧
      cs_running (count_child s (o_state t0)) = cs_running s) as (Ht0 & Hps & Hrs).
    { destruct (o_state t0); cbn in *; (split; [done||lia|]); lia. }
    rewrite elem_of_cons. intros [->|Hin] Hl; [congruence|]. eapply (IH _ Hc); [congruence|congruence|exact Hin|exact Hl].
  - rewrite elem_of_cons. intros [->|Hin] Hl; [congruence|]. by eapply (IH _ Hc).
Qed.

Lemma count_terminal_none d ids s s' :
  count_children dir d ids s = Ok s' →
  (∀ id t, id ∈ ids → load dir d id = Ok (Some t) → is_terminal (o_state t) = true) →
  cs_pending s' = cs_pending s ∧ cs_running s' = cs_running s.
Proof.
  revert s. induction ids as [|x ids IH]; intros s; cbn [count_children]; [by intros [= <-]|].
  intros (found & Hf & Hc)%bind_Ok Hall. apply IH in Hc as [Hp Hr]; [|intros id t Hin; apply Hall; by right].
  destruct found as [t0|]; [|done]. pose proof (Hall x t0 ltac:(left) Hf) as Ht. by destruct (o_state t0).
Qed.

Lemma poll_total d ids s s' :
  count_children dir d ids s = Ok s' →
  (∀ id, id ∈ ids → ∃ t, load dir d id = Ok (Some t) ∧ is_terminal (o_state t) = true) →
  ∃ ts, poll_children dir d ids = Ok (Some ts).
Proof.
  intros _ Hall. assert (∃ ts, Forall2 (λ id t, load dir d id = Ok (Some t) ∧ is_terminal (o_state t) = true) ids ts) as [ts Hts].
  { induction ids as [|id ids IH]; [by exists []|]. destruct (Hall id ltac:(left)) as [t Ht].
    destruct IH as [ts Hts]; [intros x Hx; apply Hall; by right|]. exists (t :: ts). by constructor. }
  exists ts. by apply poll_children_done.
Qed.

Lemma count_loads d ids s s' id : count_children dir d ids s = Ok s' → id ∈ ids → ∃ o, load dir d id = Ok o.
Proof.
  revert s. induction ids as [|x ids IH]; intros s; cbn [count_children]; [by intros _ ?%elem_of_nil|].
  intros (found & Hf & Hc)%bind_Ok. rewrite elem_of_cons. intros [->|Hin]; [by eexists|by eapply IH].
Qed.

(** when the wait for children ends.  A round ends it exactly when the
    status of the children says that all are terminal and every child has a
    checkpoint. *)
Theorem children_wait_exact d tr p s :
  get_children_status dir d tr p = Ok s →
  (∃ ts, poll_children dir d (get_children tr p) = Ok (Some ts)) ↔
  all_terminal s = true ∧ ∀ c, c ∈ get_children tr p → load dir d c ≠ Ok None.
Proof.
  unfold get_children_status. case_decide as Hn.
  { rewrite Hn. intros [= <-]. split; [intros _; split; [done|by intros c ?%elem_of_nil]|intros _; by exists []]. }
  intros Hc. unfold all_terminal. rewrite andb_true_iff, !Z.eqb_eq. split.
  - intros [ts Hts]. apply poll_children_done in Hts.
    assert (∀ c, c ∈ get_children tr p → ∃ t, load dir d c = Ok (Some t) ∧ is_terminal (o_state t) = true) as Hall.
    { intros c [i Hi]%list_elem_of_lookup. destruct (Forall2_lookup_l _ _ _ _ _ Hts Hi) as (t & _ & Ht). eauto. }
    split; [|intros c (t & Ht & _)%Hall; congruence]. apply (count_terminal_none _ _ _ _ Hc).
    intros id t (t' & Ht' & Hterm)%Hall Hl. congruence.
  - intros [[Hp Hr] Hload]. apply (poll_total _ _ _ _ Hc). intros c Hin.
    destruct (count_loads _ _ _ _ _ Hc Hin) as [[t|] Ho]; [|by destruct (Hload c Hin)]. exists t. split; [done|].
    by eapply (count_terminal _ _ _ _ Hc).
Qed.

(** a child without a checkpoint holds its parent up for ever, while the
    status counts it as finished.  However many rounds pass, the wait does not
    end; the status of the children says that all are terminal as soon as the
    others are. *)
Theorem missing_child_blocks_parent rounds tr p c :
  c ∈ get_children tr p → Forall (λ d, load dir d c = Ok None ∧ ∃ r, poll_children dir d (get_children tr p) = Ok r) rounds →
  wait_for_children dir rounds tr p = None.
Proof.
  intros Hc Hall. assert (get_children tr p ≠ []) as Hne by (by intros Hn; rewrite Hn in Hc; apply elem_of_nil in Hc).
  induction Hall as [|d rounds [Hl [r Hr]] _ IH]; cbn [wait_for_children]; rewrite decide_False by done; [done|].
  rewrite Hr. destruct r as [ts|]; [|done]. apply poll_children_done in Hr.
  apply list_elem_of_lookup in Hc as [i Hi]. destruct (Forall2_lookup_l _ _ _ _ _ Hr Hi) as (t & _ & Ht & _). congruence.
Qed.

End children_laws.

(** ** What a clean-up pass keeps *)

Section cleanup_laws.
Context `{TaskCodec}.
Variable tasks_root : Path.
Implicit Types (d : Disk) (vms : gset string) (io : CleanIo) (t : OTask).
Abbreviation dir := (checkpoint_dir tasks_root).

(** Only removed from. *)
Definition shrinks d d' : Prop := files d' ⊆ files d ∧ dirs d' ⊆ dirs d.

Lemma shrinks_refl d : shrinks d d.
Proof. done. Qed.
Lemma shrinks_trans d1 d2 d3 : shrinks d1 d2 → shrinks d2 d3 → shrinks d1 d3.
Proof. intros [? ?] [? ?]. split; by etrans. Qed.

Lemma remove_file_shrinks d p d' : remove_file d p = Some d' → shrinks d d' ∧ dirs d' = dirs d ∧ files d' = delete p (files d).
Proof. unfold remove_file. case_match; [|done]. intros [= <-]. split; [|done]. split; [apply delete_subseteq|done]. Qed.

Lemma remove_dir_shrinks d p d' :
  remove_dir_all d p = Some d' →
  shrinks d d' ∧ (∀ q, below p q = false → files d' !! q = files d !! q) ∧ (∀ q, below p q = false → is_dir d' q = is_dir d q).
Proof.
  unfold remove_dir_all. case_match; [|done]. intros [= <-]. split_and!.
  - split; cbn; [apply map_filter_subseteq|set_solver].
  - intros q Hq. cbn. apply option_eq. intros x. rewrite map_lookup_filter_Some. cbn. naive_solver.
  - intros q Hq. unfold is_dir. cbn. f_equal. apply bool_decide_ext. rewrite elem_of_filter. naive_solver.
Qed.

Lemma delete_shrinks d id : shrinks d (delete_checkpoint dir d id).1.
Proof.
  unfold delete_checkpoint. destruct (if path_exists d _ then remove_file d _ else Some d) as [d1|] eqn:H1; [|apply shrinks_refl].
  assert (shrinks d d1) as Hd1. { case_match; [by apply remove_file_shrinks in H1 as [? _]|]. injection H1 as <-. apply shrinks_refl. }
  cbn. destruct (remove_file d1 _) as [d2|] eqn:H2; [|done]. apply remove_file_shrinks in H2 as [Hs _]. by eapply shrinks_trans.
Qed.

(** The names in the directory of the checkpoints stand for plain ids, none of
    them the name of that directory. *)
Definition names_ok d : Prop :=
  ∀ name id, is_Some (files d !! (dir ++ [name])) ∨ dir ++ [name] ∈ dirs d → checkpoint_id name = Some id →
    plain id = true ∧ id ≠ "checkpoints".

Lemma names_ok_shrinks d d' : shrinks d d' → names_ok d → names_ok d'.
Proof.
  intros [Hf Hd] Hok name id [[x Hx]|Hx] Hc; (eapply Hok; [|exact Hc]); [left|right; set_solver]. exists x. by eapply lookup_weaken.
Qed.

Lemma listed_ok d ids id : names_ok d → list_checkpoints dir d = Ok ids → id ∈ ids → plain id = true ∧ id ≠ "checkpoints".
Proof.
  intros Hok. unfold list_checkpoints. destruct (path_exists d dir); cbn [negb]; [|by intros [= <-] ?%elem_of_nil].
  intros (names & Hn%ok_or_Ok & [= <-])%bind_Ok Hin. rewrite merge_sort_Permutation in Hin.
  apply list_elem_of_omap in Hin as (name & Hname & Hid). apply (elem_of_read_dir _ _ _ _ Hn) in Hname. by eapply Hok.
Qed.

(** The task under watch. *)
Variable id : string.
Variable t : OTask.
Hypothesis id_plain : plain id = true.

Record watched d : Prop := {
  wa_load : load dir d id = Ok (Some t);
  wa_dir : is_dir d (task_dir tasks_root id) = true;
  wa_names : names_ok d;
}.

Lemma task_dir_plain x : plain x = true → task_dir tasks_root x = tasks_root ++ [x].
Proof. apply join_plain. Qed.

Lemma checkpoint_not_below x p :
  plain x = true → x ≠ "checkpoints" → contains_char p slash = false → below (tasks_root ++ [x]) (checkpoint_path dir p) = false.
Proof.
  intros Hx Hne Hp. rewrite checkpoint_path_plain, checkpoint_dir_plain, <-app_assoc by done. apply bool_decide_eq_false.
  intros Hpre%prefix_app_inv. by apply prefix_cons_inv_1 in Hpre.
Qed.

Lemma cleanup_task_watched d d' x :
  watched d → plain x = true → x ≠ "checkpoints" → x ≠ id → cleanup_task tasks_root d x = Some d' → watched d'.
Proof using id_plain.
  intros [Hl Hd Hn] Hx Hxc Hxi. unfold cleanup_task. rewrite (task_dir_plain x Hx).
  destruct (path_exists d _); [|by intros [= <-]; constructor]. intros (Hs & Hf & Hds)%remove_dir_shrinks.
  pose proof (checkpoint_not_below x id Hx Hxc (proj1 (proj1 (plain_spec id) id_plain))) as Hb. constructor.
  - unfold load, path_exists, is_file. rewrite (Hf _ Hb), (Hds _ Hb). exact Hl.
  - rewrite Hds; [done|]. rewrite task_dir_plain by done. apply bool_decide_eq_false.
    intros Hpre%prefix_app_inv. by apply prefix_cons_inv_1 in Hpre.
  - by eapply names_ok_shrinks.
Qed.

Lemma delete_watched d x : watched d → plain x = true → x ≠ id → watched (delete_checkpoint dir d x).1.
Proof using id_plain.
  intros [Hl Hd Hn] [Hx _]%plain_spec Hne. pose proof id_plain as [Hi _]%plain_spec. constructor.
  - by rewrite delete_other.
  - destruct (delete_spec dir d x Hx) as [Hds _]. unfold is_dir. by rewrite Hds.
  - eapply names_ok_shrinks; [apply delete_shrinks|done].
Qed.

Lemma cleanup_ids_watched state cutoff d r ids :
  watched d → o_state t ≠ state → (∀ x, x ∈ ids → plain x = true ∧ x ≠ "checkpoints") →
  watched (cleanup_ids tasks_root state cutoff d r ids).1.
Proof using id_plain.
  intros Hw Hst. revert d r Hw. induction ids as [|x ids IH]; intros d r Hw Hids; [done|]. cbn [cleanup_ids].
  assert (∀ y, y ∈ ids → plain y = true ∧ y ≠ "checkpoints") as Hids' by (intros y Hy; apply Hids; by right).
  destruct (Hids x ltac:(left)) as [Hx Hxc]. destruct (load dir d x) as [[t'|]|] eqn:Hl; [|by apply IH|done].
  destruct (bool_decide _ && _) eqn:Hb; [|by apply IH].
  assert (x ≠ id) as Hne.
  { intros ->. rewrite (wa_load _ Hw) in Hl. injection Hl as <-. apply andb_true_iff in Hb as [Hb%bool_decide_eq_true _]. done. }
  unfold cleanup_one. destruct (cleanup_task tasks_root d x) as [d1|] eqn:Hc; cbn.
  - apply IH; [|done]. apply delete_watched; [|done|done]. by eapply cleanup_task_watched.
  - apply IH; [|done]. by apply delete_watched.
Qed.

Lemma cleanup_old_tasks_watched now d state days :
  watched d → o_state t ≠ state → watched (cleanup_old_tasks tasks_root now d state days).1.
Proof using id_plain.
  intros Hw Hst. unfold cleanup_old_tasks. destruct (list_checkpoints dir d) as [ids|] eqn:Hl; [|done].
  apply cleanup_ids_watched; [done|done|]. intros x Hx. by eapply listed_ok; [apply Hw|..].
Qed.

Lemma artifact_files_watched io d p cutoff :
  (∃ name, p = tasks_root ++ [name; "outbox"; "artifacts"]) → watched d →
  watched (cleanup_old_files_in_dir io d p cutoff).1.
Proof using id_plain.
  intros [x ->] Hw. unfold cleanup_old_files_in_dir. destruct (read_dir d _) as [names|]; [|done].
  match goal with |- watched (let '(d, r) := foldl ?f _ names in _).1 => set (step := f) end.
  assert (∀ l d0 r0, watched d0 → watched (foldl step (d0, r0) l).1) as Hfold.
  { intros l. induction l as [|name l IH]; intros d0 r0 Hw0; [done|]. cbn [foldl].
    assert (watched (step (d0, r0) name).1) as Hstep; [|by destruct (step (d0, r0) name); apply IH].
    unfold step. destruct (files d0 !! _) as [data|]; [|done]. destruct (_ <? _); [|done].
    destruct (remove_file d0 _) as [d1|] eqn:Hr; [|done]. apply remove_file_shrinks in Hr as (Hs & Hds & Hfs).
    destruct Hw0 as [Hl Hd Hn]. change (watched d1). constructor; [|unfold is_dir; by rewrite Hds|by eapply names_ok_shrinks].
    pose proof id_plain as [Hi _]%plain_spec.
    assert (files d1 !! checkpoint_path dir id = files d0 !! checkpoint_path dir id) as Hsame.
    { rewrite Hfs. apply lookup_delete_ne. rewrite checkpoint_path_plain, checkpoint_dir_plain, <-!app_assoc by done.
      intros Heq%app_inv_head. done. }
    unfold load, path_exists, is_file, is_dir. rewrite Hsame, Hds. exact Hl. }
  specialize (Hfold names d nothing_cleaned Hw). by destruct (foldl step _ _).
Qed.

Lemma cleanup_artifacts_watched io d days : watched d → watched (cleanup_old_artifacts tasks_root io d days).1.
Proof using id_plain.
  intros Hw. unfold cleanup_old_artifacts. destruct (path_exists d tasks_root); [|done]. cbn [negb].
  destruct (read_dir d tasks_root) as [names|]; [|done]. generalize (ci_now io - days * day), nothing_cleaned. revert d Hw.
  induction names as [|name names IH]; intros d Hw cutoff r; [done|]. cbn [cleanup_artifact_dirs].
  destruct (_ && _); [|by apply IH].
  pose proof (artifact_files_watched io d (tasks_root ++ [name; "outbox"; "artifacts"]) cutoff ltac:(eauto) Hw) as Hc.
  destruct (cleanup_old_files_in_dir _ _ _ _) as [d1 [c|e]]; [by apply IH|done].
Qed.

Lemma orphaned_checkpoints_watched dir_len d : watched d → watched (cleanup_orphaned_checkpoints tasks_root dir_len d).1.
Proof using id_plain.
  intros Hw. unfold cleanup_orphaned_checkpoints. destruct (list_checkpoints dir d) as [ids|] eqn:Hl; [|done].
  assert (∀ x, x ∈ ids → plain x = true) as Hids by (intros x Hx; by eapply listed_ok; [apply Hw|..]).
  match goal with |- watched (let '(d, r) := foldl ?f _ ids in _).1 => set (step := f) end.
  assert (∀ l d0 r0, (∀ x, x ∈ l → plain x = true) → watched d0 → watched (foldl step (d0, r0) l).1) as Hfold.
  { intros l. induction l as [|x l IH]; intros d0 r0 Hl0 Hw0; [done|]. cbn [foldl].
    assert (watched (step (d0, r0) x).1) as Hstep.
    { unfold step. destruct (task_exists tasks_root d0 x) eqn:He; [done|].
      assert (x ≠ id) as Hne.
      { intros ->. unfold task_exists, path_exists in He. by rewrite (wa_dir _ Hw0), orb_true_r in He. }
      pose proof (delete_watched d0 x Hw0 (Hl0 x ltac:(left)) Hne) as Hd.
      by destruct (delete_checkpoint dir d0 x) as [d1 [|]]. }
    destruct (step (d0, r0) x) as [d1 r1]. apply IH; [|done]. intros y Hy. apply Hl0. by right. }
  specialize (Hfold ids d nothing_cleaned Hids Hw). by destruct (foldl step _ _).
Qed.

End cleanup_laws.


(** cleaning up a task named like the directory of the checkpoints removes
    every checkpoint.  Its task directory is that directory. *)
Theorem cleanup_of_checkpoints_task `{TaskCodec} tasks_root d d' :
  is_dir d (checkpoint_dir tasks_root) = true → cleanup_task tasks_root d "checkpoints" = Some d' →
  ∀ id, contains_char id slash = false → load (checkpoint_dir tasks_root) d' id = Ok None.
Proof.
  intros Hd Hc id Hid. unfold cleanup_task, task_dir, path_exists in Hc.
  change (join_path tasks_root "checkpoints") with (checkpoint_dir tasks_root) in Hc. rewrite Hd, orb_true_r in Hc.
  unfold remove_dir_all in Hc. rewrite Hd in Hc. injection Hc as <-.
  assert (below (checkpoint_dir tasks_root) (checkpoint_path (checkpoint_dir tasks_root) id) = true) as Hb.
  { rewrite checkpoint_path_plain by done. apply bool_decide_eq_true. by apply prefix_app_r. }
  unfold load, path_exists, is_file, is_dir. revert Hb. generalize (checkpoint_dir tasks_root). intros dir Hb. cbn [files dirs].
  rewrite !bool_decide_eq_false_2; [done|..].
  - rewrite elem_of_filter. intros [Hf _]. congruence.
  - rewrite checkpoint_path_plain by done. by destruct dir.
  - intros [x [_ Hf]%map_lookup_filter_Some]. cbn in Hf. congruence.
Qed.

(** ** Examples *)

#[local] Existing Instance sample_codec.

Definition sample_tasks_root : Path := ["srv"; "tasks"].
Definition running_task : OTask :=
  (from_manifest 5 (sample_manifest "job-1")) <| o_state := Running |> <| o_vm_name := Some "task-a" |>.

Definition saved_on (t : OTask) : Disk :=
  {| files := {[ sample_checkpoints ++ ["job-1.checkpoint.json"] := task_text t ]};
     dirs := {[ sample_tasks_root ++ ["job-1"] ]} ∪ dirs sample_disk |}.

Definition recon_io : ReconIo :=
  {| ri_now := 100; ri_virsh := VirshExited true (String.concat (String.String "010" EmptyString) ["task-a"; "task-b"; "web"]) EmptyString;
     ri_destroy _ := (Exited true EmptyString, true); ri_fault _ := None |}.

Definition pass (t : OTask) : (Disk * gset string) * result ReconciliationError ReconciliationReport :=
  reconcile sample_checkpoints default_reconciliation recon_io false (saved_on t) {[ "task-a"; "task-b"; "web" ]}.
Definition pass_report (t : OTask) : ReconciliationReport :=
  match (pass t).2 with
  | Ok rep => rep
  | Err _ => {| rr_run_at := 0; rr_findings := []; rr_actions_taken := []; rr_dry_run := true |}
  end.

Lemma pass_ok t : match (pass t).2 with Ok _ => true | Err _ => false end = true → pass t = ((pass t).1, Ok (pass_report t)).
Proof. unfold pass_report. by destruct (pass t) as [s [rep|e]]. Qed.
Lemma running_pass : pass running_task = ((pass running_task).1, Ok (pass_report running_task)).
Proof. apply pass_ok. vm_cast_no_check (eq_refl true). Qed.
Lemma running_pass_pair : pass running_task = (((pass running_task).1.1, (pass running_task).1.2), Ok (pass_report running_task)).
Proof. rewrite running_pass at 1. by destruct (pass running_task).1. Qed.

Lemma saved_list st : list_checkpoints sample_checkpoints (saved_on (running_task <| o_state := st |>)) = Ok ["job-1"].
Proof. by destruct st; vm_compute. Qed.
Lemma saved_load st :
  load sample_checkpoints (saved_on (running_task <| o_state := st |>)) "job-1" = Ok (Some (running_task <| o_state := st |>)).
Proof. by destruct st; vm_compute. Qed.

Lemma reconcile_findings_exact_witness : OrphanedVm "task-a" ∉ rr_findings (pass_report running_task).
Proof.
  destruct (reconcile_findings_exact sample_checkpoints default_reconciliation recon_io false (saved_on running_task) _ _ _ running_pass)
    as (ts & names & Hts & _ & Hvm & _). intros [_ Hno]%Hvm.
  apply (Hno running_task); [|reflexivity|reflexivity].
  unfold load_all_tasks in Hts. rewrite (saved_list Running : list_checkpoints sample_checkpoints (saved_on running_task) = _) in Hts.
  cbn in Hts. rewrite (saved_load Running : load sample_checkpoints (saved_on running_task) "job-1" = _) in Hts.
  injection Hts as <-. left.
Defined.

Lemma reconcile_destroys_only_orphans_witness : "web" ∈ (pass running_task).1.2.
Proof.
  destruct (decide ("web" ∈ (pass running_task).1.2)) as [Hin|Hout]; [exact Hin|exfalso].
  destruct (reconcile_destroys_only_orphans sample_checkpoints default_reconciliation recon_io false (saved_on running_task) _
    (pass running_task).1.1 (pass running_task).1.2 _ "web" running_pass_pair ltac:(set_solver) Hout) as (ts & names & _ & _ & _ & Hpre & _).
  discriminate Hpre.
Defined.

Lemma reconcile_reclaims_leaked_vm_witness : "task-b" ∉ (pass running_task).1.2.
Proof.
  apply (reconcile_reclaims_leaked_vm sample_checkpoints default_reconciliation recon_io (saved_on running_task) _
    (pass running_task).1 (pass_report running_task) [running_task] ["task-a"; "task-b"] "task-b" running_pass).
  - vm_compute. reflexivity.
  - reflexivity.
  - right. left.
  - intros t Ht%list_elem_of_singleton Hvm. subst t. discriminate Hvm.
  - reflexivity.
Defined.

Lemma reconcile_keeps_healthy_tasks_witness :
  load sample_checkpoints (pass running_task).1.1 "job-1" = Ok (Some running_task).
Proof.
  apply (reconcile_keeps_healthy_tasks sample_checkpoints default_reconciliation recon_io false (saved_on running_task)
    {[ "task-a"; "task-b"; "web" ]} (pass running_task).1 (Ok (pass_report running_task)) ["job-1"] "job-1" running_task).
  - intros ids id t Hids Hin Hl. rewrite (saved_list Running : list_checkpoints sample_checkpoints (saved_on running_task) = _) in Hids.
    injection Hids as <-. apply list_elem_of_singleton in Hin as ->.
    rewrite (saved_load Running : load sample_checkpoints (saved_on running_task) "job-1" = _) in Hl. injection Hl as <-. split; reflexivity.
  - exact (saved_list Running).
  - left.
  - exact (saved_load Running).
  - reflexivity.
  - intros names v [= <-] [= <-] _. left.
  - exact running_pass.
Defined.

Definition completing_vm_task : OTask := running_task <| o_state := Completing |>.
Lemma completing_pass : pass completing_vm_task = ((pass completing_vm_task).1, Ok (pass_report completing_vm_task)).
Proof. apply pass_ok. vm_cast_no_check (eq_refl true). Qed.

Lemma reconcile_destroys_completing_vm_witness :
  OrphanedVm "task-a" ∈ rr_findings (pass_report completing_vm_task) ∧ "task-a" ∉ (pass completing_vm_task).1.2.
Proof.
  apply (reconcile_destroys_completing_vm sample_checkpoints default_reconciliation recon_io (saved_on completing_vm_task) _
    (pass completing_vm_task).1 (pass_report completing_vm_task) [completing_vm_task] ["task-a"; "task-b"] completing_vm_task "task-a" completing_pass).
  - vm_compute. reflexivity.
  - reflexivity.
  - left.
  - left.
  - reflexivity.
  - reflexivity.
  - intros t Ht%list_elem_of_singleton _. exact Ht.
  - reflexivity.
Defined.

Definition family : Tracker := register_child (register_child new_tracker "p" "job-1") "p" "gone".

Lemma tracker_consistent_witness : tracker_ok family.
Proof.
  apply tracker_consistent. exact (rtc_l _ _ _ _ (ts_register new_tracker "p" "job-1") (rtc_once _ _ (ts_register _ "p" "gone"))).
Defined.

Lemma moved_child_not_released_witness :
  "c" ∈ get_children (unregister_child (register_child (register_child new_tracker "p" "c") "q" "c") "c") "p".
Proof. destruct (moved_child_not_released new_tracker "p" "q" "c" ltac:(discriminate)) as [_ Hin]. exact Hin. Defined.

Definition child_done : OTask := running_task <| o_state := Completed |>.
Definition child_status : ChildrenStatus :=
  match get_children_status sample_checkpoints (saved_on child_done) family "p" with Ok s => s | Err _ => no_children end.

Lemma child_status_eq : get_children_status sample_checkpoints (saved_on child_done) family "p" = Ok child_status.
Proof. vm_compute. reflexivity. Qed.

Lemma children_wait_exact_witness :
  ¬ (∃ ts, poll_children sample_checkpoints (saved_on child_done) (get_children family "p") = Ok (Some ts)).
Proof.
  intros Hts. destruct (proj1 (children_wait_exact sample_checkpoints (saved_on child_done) family "p" child_status child_status_eq) Hts)
    as [_ Hno]. apply (Hno "gone"); [right; left|vm_compute; reflexivity].
Defined.

Lemma missing_child_blocks_parent_witness : wait_for_children sample_checkpoints (replicate 3 (saved_on child_done)) family "p" = None.
Proof.
  apply (missing_child_blocks_parent sample_checkpoints (replicate 3 (saved_on child_done)) family "p" "gone"); [right; left|].
  apply Forall_replicate. split; [vm_compute; reflexivity|exact (ex_intro _ None eq_refl)].
Defined.

Definition clean_io : CleanIo :=
  {| ci_now := 100 * day; ci_mtime _ := 0; ci_virsh := VirshSpawnFailed; ci_undefine _ := None |}.

Lemma saved_names_ok : names_ok sample_tasks_root (saved_on running_task).
Proof.
  intros name id [Hf|Hd] Hc.
  - destruct Hf as [x Hx]. cbn [saved_on files] in Hx. apply lookup_singleton_Some in Hx as [Heq _].
    change (sample_checkpoints ++ ["job-1.checkpoint.json"] = sample_checkpoints ++ [name]) in Heq.
    apply app_inj_2 in Heq as [_ [= <-]]; [|done]. injection Hc as <-. done.
  - change (sample_checkpoints ++ [name] ∈ ({[ sample_tasks_root ++ ["job-1"] ]} ∪ dirs sample_disk : gset Path)) in Hd.
    cbn [sample_disk dirs] in Hd. rewrite !elem_of_union, !elem_of_singleton in Hd.
    by destruct Hd as [Hd|[[Hd|Hd]|Hd]].
Qed.

Lemma saved_running : load sample_checkpoints (saved_on running_task) "job-1" = Ok (Some running_task).
Proof. exact (saved_load Running). Qed.
Lemma saved_dir : is_dir (saved_on running_task) (task_dir sample_tasks_root "job-1") = true.
Proof. vm_compute. reflexivity. Qed.
Lemma running_unfinished : o_state running_task ∉ [Completed; Failed; Cancelled].
Proof. by apply (bool_decide_unpack _). Qed.

Definition cleaned : (Disk * gset string) * result CleanupError CleanupMetrics :=
  run_cleanup sample_tasks_root clean_io 4096 default_policy (saved_on running_task) ∅.


Lemma cleanup_of_checkpoints_task_witness :
  ∃ d', cleanup_task sample_tasks_root (saved_on running_task) "checkpoints" = Some d' ∧ load sample_checkpoints d' "job-1" = Ok None.
Proof.
  destruct (cleanup_task sample_tasks_root (saved_on running_task) "checkpoints") as [d'|] eqn:Hc;
    [|vm_compute in Hc; discriminate Hc].
  exact (ex_intro _ d' (conj eq_refl (cleanup_of_checkpoints_task sample_tasks_root (saved_on running_task) d' ltac:(reflexivity) Hc "job-1" eq_refl))).
Defined.
