(* ===== verification/Operations.v ===== *)
(** * Tracked operations

    Models management/src/http/operations.rs: the in-memory store of the
    long-running operations of the management API, its periodic clean-up and
    the handler that reports an operation.

    The store is a concurrent map; each method holds the entry it changes, so a
    method is one step.  [find_active_by_target] visits the entries in the order
    of the map, which is not specified ([MapIter]). *)

From S2P Require Import Prelude Json Http.

Local Open Scope string_scope.
Local Open Scope list_scope.
Local Open Scope Z_scope.

Inductive OperationType : Type :=
| VmCreate | VmDelete | VmRestart | VmSnapshot | VmRestore | VmFork | VmWarmPool | FleetReconcile.
#[export] Instance OperationType_eq_dec : EqDecision OperationType.
Proof. solve_decision. Defined.

Inductive OperationState : Type :=
| OpPending
| OpRunning
| OpCompleted
| OpFailed (error : string).
#[export] Instance OperationState_eq_dec : EqDecision OperationState.
Proof. solve_decision. Defined.

Record Operation : Type := {
  op_id : string;
  op_type : OperationType;
  op_state : OperationState;
  op_target : string;
  op_created_at : Z;
  op_completed_at : option Z;
  op_progress_percent : Z;
  op_result : option json;
}.

Abbreviation OperationStore := (gmap string Operation).

Definition new_operation (id : string) (now : Z) (type : OperationType) (target : string) : Operation :=
  {| op_id := id; op_type := type; op_state := OpPending; op_target := target; op_created_at := now;
     op_completed_at := None; op_progress_percent := 0; op_result := None |}.

Definition insert_operation (ops : OperationStore) (o : Operation) : OperationStore * string :=
  (<[op_id o := o]> ops, op_id o).

Definition get_operation (ops : OperationStore) (id : string) : option Operation := ops !! id.

Definition in_flight (s : OperationState) : bool := match s with OpPending | OpRunning => true | _ => false end.

Definition find_active_by_target `{MapIter} (ops : OperationStore) (target : string) (type : OperationType)
    : option Operation :=
  snd <$> find_first (λ kv, bool_decide (op_target kv.2 = target) && bool_decide (op_type kv.2 = type)
    && in_flight (op_state kv.2)) (iter ops).

Definition finished (s : OperationState) : bool := match s with OpCompleted | OpFailed _ => true | _ => false end.

Definition update_state (now : Z) (ops : OperationStore) (id : string) (s : OperationState) : OperationStore :=
  alter (λ o, (if finished s then o <| op_completed_at := Some now |> else o) <| op_state := s |>) id ops.

Definition update_operation_progress (ops : OperationStore) (id : string) (progress : Z) : OperationStore :=
  alter (λ o, o <| op_progress_percent := progress |>) id ops.

Definition mark_failed (now : Z) (ops : OperationStore) (id error : string) : OperationStore :=
  alter (λ o, o <| op_state := OpFailed error |> <| op_completed_at := Some now |>) id ops.

Definition mark_completed (now : Z) (ops : OperationStore) (id : string) (r : option json) : OperationStore :=
  alter (λ o, o <| op_state := OpCompleted |> <| op_completed_at := Some now |> <| op_progress_percent := 100 |>
                <| op_result := r |>) id ops.

Definition an_hour : Z := 3600 * 1000000000.

Definition is_expired (now : Z) (o : Operation) : bool :=
  match op_completed_at o with Some t => t <? now - an_hour | None => false end.

Definition cleanup_expired (now : Z) (ops : OperationStore) : OperationStore :=
  filter (λ kv, is_expired now kv.2 = false) ops.

(** The serde names of a state and a type; the state is flattened into the
    response. *)
Definition type_name (t : OperationType) : string :=
  match t with
  | VmCreate => "vm_create" | VmDelete => "vm_delete" | VmRestart => "vm_restart" | VmSnapshot => "vm_snapshot"
  | VmRestore => "vm_restore" | VmFork => "vm_fork" | VmWarmPool => "vm_warm_pool" | FleetReconcile => "fleet_reconcile"
  end.

Definition state_fields (s : OperationState) : list (string * json) :=
  match s with
  | OpPending => [("status", JStr "pending")]
  | OpRunning => [("status", JStr "running")]
  | OpCompleted => [("status", JStr "completed")]
  | OpFailed e => [("status", JStr "failed"); ("error", JStr e)]
  end.

Definition operation_response `{Env} (o : Operation) : json :=
  json_obj ([("id", JStr (op_id o)); ("type", JStr (type_name (op_type o)))] ++ state_fields (op_state o) ++
    [("target", JStr (op_target o)); ("created_at", JStr (rfc3339 (op_created_at o)))] ++
    from_option (λ t, [("completed_at", JStr (rfc3339 t))]) [] (op_completed_at o) ++
    [("progress_percent", JNum (op_progress_percent o))] ++
    from_option (λ r, [("result", r)]) [] (op_result o)).

Definition operation_not_found (id : string) : json :=
  json_obj [("error", json_obj [("code", JStr "OPERATION_NOT_FOUND"); ("message", JStr ("Operation not found: " +:+ id))])].

Definition get_operation_handler `{Env} (ops : option OperationStore) (id : string) : Z * json :=
  match ops ≫= λ ops, get_operation ops id with
  | None => (NOT_FOUND, operation_not_found id)
  | Some o => (OK, operation_response o)
  end.

(** ** What the store promises *)

Inductive ops_step : OperationStore → OperationStore → Prop :=
| os_insert ops o : (finished (op_state o) = true → is_Some (op_completed_at o)) → ops_step ops (insert_operation ops o).1
| os_state now ops id st : ops_step ops (update_state now ops id st)
| os_progress ops id n : ops_step ops (update_operation_progress ops id n)
| os_failed now ops id e : ops_step ops (mark_failed now ops id e)
| os_completed now ops id r : ops_step ops (mark_completed now ops id r)
| os_cleanup now ops : ops_step ops (cleanup_expired now ops).

(** A finished operation has the time it finished at. *)
Definition timed (o : Operation) : Prop := finished (op_state o) = true → is_Some (op_completed_at o).

Lemma alter_timed (f : Operation → Operation) id (ops : OperationStore) :
  (∀ o, timed o → timed (f o)) → map_Forall (λ _, timed) ops → map_Forall (λ _, timed) (alter f id ops).
Proof.
  intros Hf Hall k o. rewrite lookup_alter_Some. intros [(-> & o' & Ho & ->)|[_ Ho]]; [eapply Hf, Hall, Ho|by eapply Hall].
Qed.

Lemma ops_step_timed ops ops' : ops_step ops ops' → map_Forall (λ _, timed) ops → map_Forall (λ _, timed) ops'.
Proof.
  intros [ops0 o Hs|now ops0 id st|ops0 id n|now ops0 id e|now ops0 id r|now ops0] Hall; try (apply alter_timed; [|done]).
  - by apply map_Forall_insert_2.
  - intros o Ho. unfold timed. destruct (finished st) eqn:Hf; cbn; [by eauto|by rewrite Hf].
  - done.
  - intros o _ _. by eexists.
  - intros o _ _. by eexists.
  - intros k o [Ho _]%map_lookup_filter_Some. by eapply Hall.
Qed.

(** A clean-up keeps every operation that has not finished, as long as it never
    went back from finished, and every one that finished within the hour, and
    removes the others that finished; what it keeps is unchanged. *)
Theorem cleanup_expired_exact ops now id o :
  rtc ops_step ∅ ops → ops !! id = Some o →
  (cleanup_expired now ops !! id = Some o ∨ cleanup_expired now ops !! id = None) ∧
  (op_completed_at o = None → finished (op_state o) = false ∧ cleanup_expired now ops !! id = Some o) ∧
  (∀ t, op_completed_at o = Some t → cleanup_expired now ops !! id = Some o ↔ now - an_hour <= t).
Proof.
  intros Hr Ho. assert (map_Forall (λ _, timed) ops) as Hall.
  { eapply (rtc_invariant _ (map_Forall (λ _, timed))); [apply ops_step_timed|done|apply map_Forall_empty]. }
  unfold cleanup_expired. split_and!.
  - destruct (is_expired now o) eqn:He; [right|left].
    + apply map_lookup_filter_None. right. intros x Hx. simplify_eq. cbn. by rewrite He.
    + by apply map_lookup_filter_Some_2.
  - intros Hc. split.
    + destruct (finished (op_state o)) eqn:Hf; [|done]. destruct (Hall id o Ho Hf) as [t Ht]. congruence.
    + apply map_lookup_filter_Some_2; [done|]. cbn. unfold is_expired. by rewrite Hc.
  - intros t Ht. rewrite map_lookup_filter_Some. cbn. unfold is_expired. rewrite Ht, Z.ltb_ge. intuition lia.
Qed.

(** An operation that is found in flight is one: it has the target and type
    asked for and has not finished; none is found only when there is none. *)
Theorem find_active_exact `{MapIter} ops target type :
  match find_active_by_target ops target type with
  | Some o => (∃ id, ops !! id = Some o) ∧ op_target o = target ∧ op_type o = type ∧ finished (op_state o) = false
  | None => ∀ id o, ops !! id = Some o → op_target o = target → op_type o = type → finished (op_state o) = true
  end.
Proof.
  unfold find_active_by_target. set (p := λ kv : string * Operation, _).
  assert (∀ kv, p kv = true ↔ op_target kv.2 = target ∧ op_type kv.2 = type ∧ finished (op_state kv.2) = false) as Hp.
  { intros kv. unfold p. rewrite !andb_true_iff, !bool_decide_eq_true. destruct (op_state kv.2); cbn; intuition done. }
  destruct (find_first p (iter ops)) as [[id o]|] eqn:Hf; cbn.
  - apply find_first_Some in Hf as [Hin Hh]. apply Hp in Hh. split; [|done]. exists id.
    by rewrite iter_perm, elem_of_map_to_list in Hin.
  - intros id o Ho Ht Hty. destruct (finished (op_state o)) eqn:Hfin; [done|]. exfalso.
    assert ((id, o) ∈ iter ops) as Hin by (by rewrite iter_perm, elem_of_map_to_list).
    eapply find_first_None in Hf; [|exact Hin]. assert (p (id, o) = true) as Ht' by (by apply Hp). congruence.
Qed.

(** ** Examples *)

Definition sample_ops : OperationStore :=
  mark_completed 7 (insert_operation (insert_operation ∅ (new_operation "a" 5 VmCreate "vm")).1 (new_operation "b" 6 VmDelete "vm")).1 "a" None.

Lemma sample_ops_reachable : rtc ops_step ∅ sample_ops.
Proof.
  eapply rtc_l; [apply (os_insert ∅ (new_operation "a" 5 VmCreate "vm")); done|].
  eapply rtc_l; [apply (os_insert _ (new_operation "b" 6 VmDelete "vm")); done|]. apply rtc_once, os_completed.
Qed.

Lemma cleanup_expired_exact_witness :
  cleanup_expired (2 * an_hour) sample_ops !! "b" = Some (new_operation "b" 6 VmDelete "vm").
Proof.
  destruct (cleanup_expired_exact sample_ops (2 * an_hour) "b" (new_operation "b" 6 VmDelete "vm") sample_ops_reachable eq_refl) as (_ & Hkept & _).
  exact (proj2 (Hkept eq_refl)).
Defined.
