(* ===== verification/Fleet.v ===== *)
(** * Fleet workloads

    Models management/src/http/fleet.rs: the routes through which an
    orchestrator dispatches workloads, reports observations of them, lists them
    and reconciles its plan with them.  The records are JSON; they are kept in
    the table of [TaskStore], whose methods the handlers call.

    Each call of the store is one step.  A handler that reads a workload and
    later writes it can be interleaved with others: it is split into the part
    that reads and computes and the part that writes, and [fleet_step] runs the
    parts of any handlers in any order.  A panic is [None]. *)

From Stdlib Require Import Ascii.
From S2P Require Import Prelude Text Json Http FlowGraph TaskStore Operations.

Local Open Scope string_scope.
Local Open Scope list_scope.
Local Open Scope Z_scope.

(** ** Values *)

(** [value[k1][k2] = x] *)
Definition json_index_set2 (v : json) (k1 k2 : string) (x : json) : option json :=
  inner ← json_index_set (json_index v k1) k2 x; json_index_set v k1 inner.

Definition is_array (v : json) : bool := match v with JArr _ => true | _ => false end.
Definition is_object (v : json) : bool := match v with JObj _ => true | _ => false end.

(** [DateTime::from_str] *)
Class TimeText : Type := { parse_time : string → option Z }.

Definition API_VERSION : string := "agentic-orchestration/v1".

(** ** Validation *)

Definition reject_unknown_keys (value : json) (path : string) (allowed : list string) : result string unit :=
  match as_object value with
  | None => Err (path +:+ " must be an object")
  | Some object =>
      match find_first (λ k, negb (bool_decide (k ∈ allowed))) object.*1 with
      | Some key => Err ("unknown contract field at " +:+ path +:+ "/" +:+ key)
      | None => Ok ()
      end
  end.

Definition required_string (value : json) (p : string) : result string string :=
  match pointer value p ≫= as_str with
  | Some s => if bool_decide (s = EmptyString) then Err (p +:+ " must be a non-empty string") else Ok s
  | None => Err (p +:+ " must be a non-empty string")
  end.

Definition optional_nullable_string (value : json) (p : string) : result string unit :=
  match pointer value p with
  | None | Some JNull => Ok ()
  | Some (JStr s) => if bool_decide (s = EmptyString) then Err (p +:+ " must be null or a non-empty string") else Ok ()
  | _ => Err (p +:+ " must be null or a non-empty string")
  end.

Definition forbidden_key (key : string) : bool :=
  let lower := to_ascii_lowercase key in
  negb (bool_decide (lower ∈ ["credential_policy_ref"; "network_policy_ref"])) &&
  bool_decide (lower ∈ ["credential"; "credentials"; "secret"; "secrets"; "password"; "token"; "private_key"; "access_key";
                        "api_key"]).

Fixpoint reject_secret_material (value : json) (path : string) : result string unit :=
  match value with
  | JObj m =>
      (fix go (m : json_map) : result string unit :=
         match m with
         | [] => Ok ()
         | (key, child) :: m =>
             if forbidden_key key then Err ("credential material is forbidden at " +:+ path +:+ "/" +:+ key)
             else _ ← reject_secret_material child (path +:+ "/" +:+ key); go m
         end) m
  | JArr values =>
      (fix go (index : Z) (l : list json) : result string unit :=
         match l with
         | [] => Ok ()
         | child :: l => _ ← reject_secret_material child (path +:+ "/" +:+ pretty.pretty index); go (index + 1) l
         end) 0 values
  | _ => Ok ()
  end.

Definition record_keys : list string := ["document_type"; "api_version"; "kind"; "lineage"; "spec"; "status"].
Definition lineage_keys : list string :=
  ["orchestrator_id"; "mission_id"; "dispatch_id"; "idempotency_key"; "parent_id"; "child_id"; "target_id"; "executor_id";
   "runtime_id"; "session_id"; "task_id"; "command_id"].
Definition spec_keys : list string :=
  ["desired_state"; "capabilities"; "policy"; "budgets"; "schedule"; "orchestrator_metadata"].
Definition status_keys : list string :=
  ["observed_state"; "revision"; "last_seen"; "health"; "backpressure"; "artifacts"; "exit_classification"; "error_code"].
Definition workload_kinds : list string := ["persistent-agent"; "daemon"; "scheduled-collector"; "one-shot-command"].
Definition required_lineage : list string :=
  ["/lineage/orchestrator_id"; "/lineage/mission_id"; "/lineage/dispatch_id"; "/lineage/idempotency_key"; "/lineage/child_id";
   "/lineage/target_id"; "/lineage/executor_id"; "/lineage/runtime_id"].

Fixpoint require_all (f : string → result string unit) (l : list string) : result string unit :=
  match l with [] => Ok () | p :: l => _ ← f p; require_all f l end.

Definition validate_dispatch_record (record : json) : result string unit :=
  _ ← reject_unknown_keys record EmptyString record_keys;
  _ ← reject_unknown_keys (json_index record "lineage") "/lineage" lineage_keys;
  _ ← reject_unknown_keys (json_index record "spec") "/spec" spec_keys;
  _ ← reject_unknown_keys (json_index record "status") "/status" status_keys;
  _ ← ensure (bool_decide (json_index record "document_type" = JStr "workload") &&
              bool_decide (json_index record "api_version" = JStr API_VERSION))
        "record must be a workload using agentic-orchestration/v1";
  kind ← required_string record "/kind";
  _ ← ensure (bool_decide (kind ∈ workload_kinds)) "kind is not a supported fleet workload kind";
  _ ← require_all (λ p, _ ← required_string record p; Ok ()) required_lineage;
  _ ← require_all (optional_nullable_string record) ["/lineage/session_id"; "/lineage/task_id"; "/lineage/command_id"];
  _ ← ensure (bool_decide (pointer record "/status/revision" ≫= json_u64 = Some 0) &&
              bool_decide (pointer record "/status/observed_state" ≫= as_str = Some "pending"))
        "new workloads must start at pending revision 0";
  _ ← required_string record "/status/last_seen";
  _ ← ensure (is_array (json_index (json_index record "spec") "capabilities") &&
              is_object (json_index (json_index record "spec") "policy") &&
              is_object (json_index (json_index record "spec") "budgets") &&
              is_array (json_index (json_index record "status") "artifacts"))
        "spec capabilities/policy/budgets and status.artifacts are required";
  _ ← required_string record "/spec/desired_state";
  _ ← (if bool_decide (kind = "scheduled-collector") then _ ← required_string record "/spec/schedule"; Ok () else Ok ());
  _ ← ensure (negb (bool_decide (kind = "daemon") && bool_decide (pointer record "/status/health" ≫= as_str = None)))
        "daemon workloads require status.health";
  reject_secret_material record EmptyString.

Definition observed_states : list string :=
  ["pending"; "admitted"; "starting"; "running"; "blocked"; "detached"; "retained"; "healthy"; "degraded"; "restarting";
   "scheduled"; "missed"; "catching-up"; "stopping"; "succeeded"; "failed"; "cancelled"; "timed-out"; "unknown";
   "operator-review-required"].

(** [expected_revision + 1] wraps in the release build. *)
Definition next_revision (n : Z) : Z := wrap_add u64_max n 1.

Definition validate_status (status : json) (expected_revision : Z) : result string unit :=
  _ ← reject_unknown_keys status "/status" status_keys;
  revision ← ok_or (json_u64 (json_index status "revision")) "status.revision must be an integer";
  _ ← ensure (revision =? next_revision expected_revision) "status.revision must advance expected_revision by exactly one";
  observed ← ok_or (as_str (json_index status "observed_state")) "status.observed_state is required";
  _ ← ensure (bool_decide (observed ∈ observed_states)) "status.observed_state is invalid";
  _ ← required_string status "/last_seen";
  _ ← ensure (is_array (json_index status "artifacts")) "status.artifacts must be an array";
  reject_secret_material status "/status".

Section fleet.
Context {E : Env} {Scan : TableScan} {TT : TimeText}.
Implicit Types (s : TaskStore) (now : Z) (record : json).

(** ** Dispatch *)

(** The hash of a dispatch leaves [status.last_seen] out. *)
Definition dispatch_intent record : json :=
  match record with
  | JObj m =>
      match map_get m "status" with
      | Some (JObj status) => JObj (map_insert m "status" (JObj (map_remove status "last_seen")))
      | _ => record
      end
  | _ => record
  end.
Definition dispatch_request_hash record : result string string := jcs_sha256 (dispatch_intent record).

Record Reply : Type := {
  rp_status : Z;
  rp_headers : HeaderMap;
  rp_body : json;
}.
Definition reply (status : Z) (body : json) : Reply := {| rp_status := status; rp_headers := []; rp_body := body |}.
Definition error (status : Z) (code message : string) : Reply :=
  reply status (json_obj [("error", JStr code); ("message", JStr message)]).
Definition internal (code : string) : Reply := error INTERNAL_SERVER_ERROR code "fleet workload operation failed".
Definition store_unavailable : Reply :=
  error SERVICE_UNAVAILABLE "fleet.store_unavailable" "executor store is not mounted".

Definition lineage_str record (field : string) : option string := as_str (json_index (json_index record "lineage") field).

(** The row a dispatch stores. *)
Definition admitted_row now (request_hash : string) record : option FleetWorkloadRow :=
  child_id ← lineage_str record "child_id";
  idempotency_key ← lineage_str record "idempotency_key";
  target_id ← lineage_str record "target_id";
  executor_id ← lineage_str record "executor_id";
  workload_kind ← as_str (json_index record "kind");
  record ← json_index_set2 record "status" "observed_state" (JStr "admitted");
  record ← json_index_set2 record "status" "revision" (JNum 1);
  record ← json_index_set2 record "status" "last_seen" (JStr (rfc3339 now));
  Some {| w_child_id := child_id; w_idempotency_key := idempotency_key; w_request_hash := request_hash;
          w_target_id := target_id; w_executor_id := executor_id; w_workload_kind := workload_kind;
          w_observed_state := "admitted"; w_revision := 1; w_last_seen := now; w_record_json := record;
          w_created_at := now; w_updated_at := now |}.

Definition dispatch_reply (outcome : result StoreError FleetDispatchOutcome) : Reply :=
  match outcome with
  | Ok (Inserted row) => reply ACCEPTED (json_obj [("replayed", JBool false); ("workload", w_record_json row)])
  | Ok (DispatchReplay row) => reply OK (json_obj [("replayed", JBool true); ("workload", w_record_json row)])
  | Ok DispatchCollision => error UNPROCESSABLE_ENTITY "fleet.idempotency_collision"
      "idempotency key or child id was reused with a different payload"
  | Err _ => internal "fleet.dispatch_failed"
  end.

Definition dispatch now s record : TaskStore * option Reply :=
  match validate_dispatch_record record with
  | Err message => (s, Some (error BAD_REQUEST "fleet.invalid_record" message))
  | Ok _ =>
      match dispatch_request_hash record with
      | Err message => (s, Some (error BAD_REQUEST "fleet.invalid_record" message))
      | Ok hash =>
          match admitted_row now hash record with
          | None => (s, None)
          | Some row => let '(s, outcome) := fleet_dispatch s row in (s, Some (dispatch_reply outcome))
          end
      end
  end.

(** ** The projection of a task *)

Definition terminal_observed : list string := ["succeeded"; "failed"; "cancelled"; "timed-out"].

Record TaskView : Type := {
  tv_observed : string;
  tv_health : option string;
  tv_exit : option string;
  tv_error : option string;
}.

Definition when_daemon (kind health : string) : option string := if bool_decide (kind = "daemon") then Some health else None.

Definition task_view (kind : string) (st : TaskStore.TaskState) : TaskView :=
  match st with
  | Task.Submitted => {| tv_observed := "starting"; tv_health := when_daemon kind "unknown"; tv_exit := None; tv_error := None |}
  | Task.Working =>
      if bool_decide (kind = "daemon")
      then {| tv_observed := "healthy"; tv_health := Some "healthy"; tv_exit := None; tv_error := None |}
      else if bool_decide (kind = "scheduled-collector")
      then {| tv_observed := "catching-up"; tv_health := None; tv_exit := None; tv_error := None |}
      else {| tv_observed := "running"; tv_health := None; tv_exit := None; tv_error := None |}
  | Task.Completed =>
      if bool_decide (kind = "persistent-agent")
      then {| tv_observed := "retained"; tv_health := None; tv_exit := Some "success"; tv_error := None |}
      else if bool_decide (kind = "daemon")
      then {| tv_observed := "operator-review-required"; tv_health := Some "unknown"; tv_exit := Some "unknown";
              tv_error := Some "fleet.daemon_task_exited" |}
      else if bool_decide (kind = "scheduled-collector")
      then {| tv_observed := "scheduled"; tv_health := None; tv_exit := Some "success"; tv_error := None |}
      else {| tv_observed := "succeeded"; tv_health := None; tv_exit := Some "success"; tv_error := None |}
  | Task.Failed | Task.Rejected =>
      {| tv_observed := "failed"; tv_health := when_daemon kind "unhealthy"; tv_exit := Some "failure";
         tv_error := Some "fleet.task_failed" |}
  | Task.Canceled =>
      {| tv_observed := "cancelled"; tv_health := when_daemon kind "unknown"; tv_exit := Some "cancelled"; tv_error := None |}
  | Task.InputRequired =>
      {| tv_observed := "blocked"; tv_health := when_daemon kind "unknown"; tv_exit := None; tv_error := None |}
  | Task.AuthRequired =>
      {| tv_observed := "blocked"; tv_health := when_daemon kind "unknown"; tv_exit := None;
         tv_error := Some "fleet.task_auth_required" |}
  end.

(** [canonical_hash(v).unwrap_or_else(|_| "0".repeat(64))] *)
Definition hash_or_zero (v : json) : string :=
  match jcs_sha256 v with Ok h => h | Err _ => String.concat EmptyString (replicate 64 "0") end.

Definition artifact_entry (task_id : string) (a : ArtifactRow) : json :=
  json_obj [("kind", JStr "log"); ("uri", JStr ("sandbox://tasks/" +:+ task_id +:+ "/artifacts/" +:+ a_artifact_id a));
            ("sha256", JStr (hash_or_zero (a_artifact_json a)))].

Definition artifact_entries (task : TaskRow) (artifacts : list ArtifactRow) : list json :=
  (artifact_entry (t_task_id task) <$> artifacts) ++
  (if bool_decide (t_state task = Task.Completed)
   then [json_obj [("kind", JStr "result"); ("uri", JStr ("sandbox://tasks/" +:+ t_task_id task +:+ "/status"));
                   ("sha256", JStr (hash_or_zero (t_status_json task)))]]
   else []).

Definition backpressure (st : TaskStore.TaskState) : option json :=
  match st with
  | Task.InputRequired => Some (json_obj [("reason", JStr "approval"); ("retryable", JBool false)])
  | Task.AuthRequired => Some (json_obj [("reason", JStr "policy"); ("retryable", JBool false)])
  | _ => None
  end.

Definition set_opt (k : string) (x : option json) (m : json_map) : json_map :=
  match x with Some x => map_insert m k x | None => m end.

Definition projected_last_seen (task : TaskRow) (artifacts : list ArtifactRow) : Z :=
  foldl Z.max (t_updated_at task) (a_created_at <$> artifacts).

Definition projected_status (current : FleetWorkloadRow) (task : TaskRow) (artifacts : list ArtifactRow) : json_map :=
  let v := task_view (w_workload_kind current) (t_state task) in
  let status := map_collect [("observed_state", JStr (tv_observed v)); ("revision", JNum (next_revision (w_revision current)));
    ("last_seen", JStr (rfc3339 (projected_last_seen task artifacts))); ("artifacts", JArr (artifact_entries task artifacts))] in
  let status := set_opt "health" (JStr <$> tv_health v) status in
  let status := set_opt "backpressure" (backpressure (t_state task)) status in
  let status := set_opt "exit_classification" (JStr <$> tv_exit v) status in
  set_opt "error_code" (JStr <$> tv_error v) status.

Definition compared_fields : list string :=
  ["observed_state"; "health"; "backpressure"; "artifacts"; "exit_classification"; "error_code"].

Definition same_projection (current_status status : json) : bool :=
  forallb (λ k, bool_decide (json_index current_status k = json_index status k)) compared_fields.

(** [Some None]: nothing to write. *)
Definition project_task_observation now (current : FleetWorkloadRow) (task : TaskRow) (artifacts : list ArtifactRow)
    : option (option FleetWorkloadRow) :=
  if bool_decide (w_observed_state current ∈ terminal_observed) then Some None
  else
    let status := JObj (projected_status current task artifacts) in
    if same_projection (json_index (w_record_json current) "status") status then Some None
    else
      record ← json_index_set (w_record_json current) "status" status;
      record ← (if bool_decide (json_index (json_index record "lineage") "command_id" = JNull)
                then match head (omap (λ a, as_str (json_index (a_artifact_json a) "command_id")) artifacts) with
                     | Some command_id => json_index_set2 record "lineage" "command_id" (JStr command_id)
                     | None => Some record
                     end
                else Some record);
      Some (Some (current <| w_observed_state := tv_observed (task_view (w_workload_kind current) (t_state task)) |>
                          <| w_revision := next_revision (w_revision current) |>
                          <| w_last_seen := projected_last_seen task artifacts |>
                          <| w_updated_at := now |> <| w_record_json := record |>)).

(** ** Reading workloads *)

(** What a refresh computes before it writes; the task and its artifacts are
    read in two calls.  [Some None]: the row is returned as it is. *)
Definition refresh_prepare now s1 s2 (current : FleetWorkloadRow) : option (option FleetWorkloadRow) :=
  match pointer (w_record_json current) "/lineage/task_id" ≫= as_str with
  | None => Some None
  | Some task_id =>
      match get_task s1 task_id with
      | Ok (Some task) =>
          let artifacts := match list_artifacts s2 task_id with Ok l => l | Err _ => [] end in
          project_task_observation now current task artifacts
      | _ => Some None
      end
  end.

Definition refresh_commit s (current next : FleetWorkloadRow) : TaskStore * FleetWorkloadRow :=
  match observe_fleet_workload s (w_child_id current) (w_revision current) next with
  | (s, Ok (ObservationUpdated row)) => (s, row)
  | (s, Ok (Stale _)) =>
      (s, match get_fleet_workload s (w_child_id current) with Ok (Some row) => row | _ => current end)
  | (s, _) => (s, current)
  end.

Definition refresh_from_task_store now s (current : FleetWorkloadRow) : TaskStore * option FleetWorkloadRow :=
  match refresh_prepare now s s current with
  | None => (s, None)
  | Some None => (s, Some current)
  | Some (Some next) => let '(s, row) := refresh_commit s current next in (s, Some row)
  end.

Definition get_workload now s (child_id : string) : TaskStore * option Reply :=
  match get_fleet_workload s child_id with
  | Ok (Some row) =>
      let '(s, row) := refresh_from_task_store now s row in (s, (λ row, reply OK (w_record_json row)) <$> row)
  | Ok None => (s, Some (error NOT_FOUND "fleet.workload_not_found" "workload was not found"))
  | Err _ => (s, Some (internal "fleet.inventory_failed"))
  end.

Fixpoint refresh_all now s (rows : list FleetWorkloadRow) : TaskStore * option (list FleetWorkloadRow) :=
  match rows with
  | [] => (s, Some [])
  | row :: rows =>
      match refresh_from_task_store now s row with
      | (s, None) => (s, None)
      | (s, Some row) => let '(s, rest) := refresh_all now s rows in (s, (row ::.) <$> rest)
      end
  end.

(** The number of rows and their revisions, saturating. *)
Definition inventory_revision (rows : list FleetWorkloadRow) : Z :=
  foldl (λ sum row, sat_add u64_max sum (w_revision row)) (len rows) rows.

Definition inventory now s : TaskStore * option Reply :=
  match list_fleet_workloads s with
  | Err _ => (s, Some (internal "fleet.inventory_failed"))
  | Ok rows =>
      let '(s, rows) := refresh_all now s rows in
      (s, (λ rows, reply OK (json_obj [("document_type", JStr "inventory"); ("api_version", JStr API_VERSION);
        ("inventory_revision", JNum (inventory_revision rows)); ("generated_at", JStr (rfc3339 now));
        ("records", JArr (w_record_json <$> rows))])) <$> rows)
  end.

(** ** Observations *)

Record RuntimeIdentityRequest : Type := {
  ri_session_id : option string;
  ri_task_id : option string;
  ri_command_id : option string;
}.

Record ObservationRequest : Type := {
  oq_expected_revision : Z;
  oq_status : json;
  oq_runtime_identity : option RuntimeIdentityRequest;
}.

Inductive RuntimeIdentityError : Type :=
| IdentityInvalid (message : string)
| IdentityImmutable (message : string)
| IdentityPanic.

Fixpoint assign_identities record (fields : list (string * option string)) : result RuntimeIdentityError json :=
  match fields with
  | [] => Ok record
  | (field, None) :: fields => assign_identities record fields
  | (field, Some candidate) :: fields =>
      if bool_decide (candidate = EmptyString) then Err (IdentityInvalid "runtime identities must be non-empty strings")
      else
        match lineage_str record field with
        | Some current =>
            if bool_decide (current ≠ candidate) then Err (IdentityImmutable "assigned runtime identities cannot be changed")
            else record ← ok_or (json_index_set2 record "lineage" field (JStr candidate)) IdentityPanic; assign_identities record fields
        | None => record ← ok_or (json_index_set2 record "lineage" field (JStr candidate)) IdentityPanic; assign_identities record fields
        end
  end.

Definition identity_fields (i : RuntimeIdentityRequest) : list (string * option string) :=
  [("session_id", ri_session_id i); ("task_id", ri_task_id i); ("command_id", ri_command_id i)].

Definition apply_runtime_identity record (identity : option RuntimeIdentityRequest) : result RuntimeIdentityError json :=
  match identity with
  | None => Ok record
  | Some i =>
      match ri_session_id i, ri_task_id i, ri_command_id i with
      | None, None, None => Err (IdentityInvalid "runtime_identity must assign at least one identity")
      | _, _, _ => assign_identities record (identity_fields i)
      end
  end.

Definition healths : list string := ["healthy"; "degraded"; "unhealthy"; "unknown"].

Definition valid_health (v : option string) : bool := match v with Some h => bool_decide (h ∈ healths) | None => false end.

(** An observation up to its write: the row read and the row to write, or the
    answer. *)
Definition observe_prepare now s (child_id : string) (q : ObservationRequest)
    : option (result Reply (FleetWorkloadRow * FleetWorkloadRow)) :=
  match validate_status (oq_status q) (oq_expected_revision q) with
  | Err message => Some (Err (error BAD_REQUEST "fleet.invalid_observation" message))
  | Ok _ =>
      match get_fleet_workload s child_id with
      | Ok None => Some (Err (error NOT_FOUND "fleet.workload_not_found" "workload was not found"))
      | Err _ => Some (Err (internal "fleet.observation_failed"))
      | Ok (Some current) =>
          if bool_decide (w_workload_kind current = "daemon") && negb (valid_health (as_str (json_index (oq_status q) "health")))
          then Some (Err (error BAD_REQUEST "fleet.invalid_observation" "daemon observations require a valid status.health"))
          else
            revision ← json_u64 (json_index (oq_status q) "revision");
            observed ← as_str (json_index (oq_status q) "observed_state");
            seen ← as_str (json_index (oq_status q) "last_seen");
            match parse_time seen with
            | None => Some (Err (error BAD_REQUEST "fleet.invalid_observation" "status.last_seen must be an RFC3339 timestamp"))
            | Some last_seen =>
                match apply_runtime_identity (w_record_json current) (oq_runtime_identity q) with
                | Err (IdentityInvalid m) => Some (Err (error BAD_REQUEST "fleet.invalid_runtime_identity" m))
                | Err (IdentityImmutable m) => Some (Err (error CONFLICT "fleet.runtime_identity_immutable" m))
                | Err IdentityPanic => None
                | Ok record =>
                    record ← json_index_set record "status" (oq_status q);
                    Some (Ok (current, current <| w_revision := revision |> <| w_observed_state := observed |>
                                  <| w_last_seen := last_seen |> <| w_updated_at := now |> <| w_record_json := record |>))
                end
            end
      end
  end.

Definition observe_commit s (child_id : string) (expected_revision : Z) (next : FleetWorkloadRow) : TaskStore * Reply :=
  match observe_fleet_workload s child_id expected_revision next with
  | (s, Ok (ObservationUpdated row)) => (s, reply OK (w_record_json row))
  | (s, Ok Missing) => (s, error NOT_FOUND "fleet.workload_not_found" "workload was not found")
  | (s, Ok (Stale current_revision)) => (s, reply CONFLICT (json_obj [("error", JStr "fleet.stale_revision");
      ("message", JStr "observation did not advance the current revision"); ("current_revision", JNum current_revision)]))
  | (s, Err _) => (s, internal "fleet.observation_failed")
  end.

Definition observe_workload now s (child_id : string) (q : ObservationRequest) : TaskStore * option Reply :=
  match observe_prepare now s child_id q with
  | None => (s, None)
  | Some (Err answer) => (s, Some answer)
  | Some (Ok (_, next)) => let '(s, answer) := observe_commit s child_id (oq_expected_revision q) next in (s, Some answer)
  end.

(** ** Reconciliation *)

Record ReconcileRequest : Type := {
  rq_before_revision : Z;
  rq_child_ids : list string;
}.

Definition classification (observed_state : string) : string :=
  if bool_decide (observed_state = "succeeded") then "terminal"
  else if bool_decide (observed_state ∈ ["failed"; "cancelled"; "timed-out"]) then "failed-or-aborted"
  else if bool_decide (observed_state ∈ ["unknown"; "operator-review-required"]) then "operator-review-required"
  else "re-adopted".

Definition reconcile_row (rows : list FleetWorkloadRow) (child_id : string) : json :=
  match find_first (λ row, bool_decide (w_child_id row = child_id)) rows with
  | None => json_obj [("child_id", JStr child_id); ("classification", JStr "unknown"); ("observed_state", JStr "unknown");
      ("revision", JNum 0); ("reason", JStr "expected workload is absent from durable inventory")]
  | Some row => json_obj [("child_id", JStr child_id); ("classification", JStr (classification (w_observed_state row)));
      ("observed_state", JStr (w_observed_state row)); ("revision", JNum (w_revision row));
      ("reason", JStr "classification derived from durable workload inventory")]
  end.

Definition reconciliation_revision_is_stale (reviewed current : Z) : bool := negb (reviewed =? current).

(** The stores as the handlers find them mounted. *)
Record FleetApp : Type := {
  fa_store : option TaskStore;
  fa_ops : option OperationStore;
}.

(** [op_id]: the id the new operation draws. *)
Definition reconcile_fleet now (new_op_id : string) (app : FleetApp) (q : ReconcileRequest) : FleetApp * Reply :=
  match rq_child_ids q with
  | [] => (app, error BAD_REQUEST "fleet.empty_reconciliation" "child_ids must contain at least one workload")
  | ids =>
      match fa_store app with
      | None => (app, store_unavailable)
      | Some s =>
          match list_fleet_workloads s with
          | Err _ => (app, internal "fleet.reconciliation_failed")
          | Ok rows =>
              let after_revision := inventory_revision rows in
              if reconciliation_revision_is_stale (rq_before_revision q) after_revision then
                (app, reply CONFLICT (json_obj [("error", JStr "fleet.stale_inventory_revision");
                   ("message", JStr "fleet inventory changed after the reviewed reconciliation plan");
                   ("expected_revision", JNum (rq_before_revision q)); ("current_revision", JNum after_revision)]))
              else
                let result := json_obj [("document_type", JStr "reconciliation"); ("api_version", JStr API_VERSION);
                  ("generated_at", JStr (rfc3339 now)); ("before_revision", JNum (rq_before_revision q));
                  ("after_revision", JNum after_revision); ("rows", JArr (reconcile_row rows <$> ids))] in
                match fa_ops app with
                | None => (app, error SERVICE_UNAVAILABLE "fleet.operation_store_unavailable"
                    "management operation store is not mounted")
                | Some ops =>
                    let o := (new_operation new_op_id now FleetReconcile "fleet") <| op_state := OpCompleted |>
                               <| op_completed_at := Some now |> <| op_progress_percent := 100 |> <| op_result := Some result |> in
                    let '(ops, id) := insert_operation ops o in
                    (app <| fa_ops := Some ops |>,
                     {| rp_status := OK; rp_headers := [("location", Some ("/api/v2/admin/operations/" +:+ id));
                        ("operation-id", Some id)]; rp_body := result |})
                end
          end
      end
  end.

(** The routes; all of them require an administrator. *)
Inductive FleetRoute : Type :=
| Dispatch (record : json)
| Inventory
| GetWorkload (child_id : string)
| Observe (child_id : string) (q : ObservationRequest)
| ReconcilePlan (q : ReconcileRequest).

Definition on_store (f : TaskStore → TaskStore * option Reply) (app : FleetApp) : FleetApp * option Reply :=
  match fa_store app with
  | None => (app, Some store_unavailable)
  | Some s => let '(s, r) := f s in (app <| fa_store := Some s |>, r)
  end.

Definition fleet_route now (new_op_id : string) (route : FleetRoute) (app : FleetApp) : FleetApp * option Reply :=
  match route with
  | Dispatch record => on_store (λ s, dispatch now s record) app
  | Inventory => on_store (inventory now) app
  | GetWorkload child_id => on_store (λ s, get_workload now s child_id) app
  | Observe child_id q => on_store (λ s, observe_workload now s child_id q) app
  | ReconcilePlan q => let '(app, r) := reconcile_fleet now new_op_id app q in (app, Some r)
  end.

(** ** Interleaved handlers *)

(** A write in the hands of a handler: the row it read, the revision it
    expects, the row it will write. *)
Record PendingWrite : Type := {
  pw_read : FleetWorkloadRow;
  pw_expected : Z;
  pw_next : FleetWorkloadRow;
}.

Record FleetWorld : Type := {
  fl_store : TaskStore;
  fl_writes : list PendingWrite;
}.

Inductive fleet_step : FleetWorld → FleetWorld → Prop :=
| fl_dispatch now w record : fleet_step w (w <| fl_store := (dispatch now (fl_store w) record).1 |>)
| fl_observe now w child_id q current next :
    observe_prepare now (fl_store w) child_id q = Some (Ok (current, next)) →
    fleet_step w (w <| fl_writes ::= cons {| pw_read := current; pw_expected := oq_expected_revision q; pw_next := next |} |>)
| fl_refresh now w s1 s2 child_id current next :
    get_fleet_workload (fl_store w) child_id = Ok (Some current) → refresh_prepare now s1 s2 current = Some (Some next) →
    fleet_step w (w <| fl_writes ::= cons {| pw_read := current; pw_expected := w_revision current; pw_next := next |} |>)
| fl_write w p before after :
    fl_writes w = before ++ p :: after →
    fleet_step w {| fl_store := (observe_fleet_workload (fl_store w) (w_child_id (pw_read p)) (pw_expected p) (pw_next p)).1;
                    fl_writes := before ++ after |}
| fl_other w s : fleet_workloads s = fleet_workloads (fl_store w) → fleet_step w (w <| fl_store := s |>).

Definition fleet_start (w : FleetWorld) : Prop := fleet_workloads (fl_store w) = ∅ ∧ fl_writes w = [].

End fleet.

(** ** No secret material *)

(** A key occurs somewhere in a value. *)
Inductive key_in (k : string) : json → Prop :=
| ki_here m x : (k, x) ∈ m → key_in k (JObj m)
| ki_member m k' x : (k', x) ∈ m → key_in k x → key_in k (JObj m)
| ki_element l x : x ∈ l → key_in k x → key_in k (JArr l).

Fixpoint no_secret (v : json) : bool :=
  match v with
  | JObj m => forallb (λ kv, negb (forbidden_key kv.1) && no_secret kv.2) m
  | JArr l => forallb no_secret l
  | _ => true
  end.

Lemma no_secret_obj m : no_secret (JObj m) = true ↔ Forall (λ kv, forbidden_key kv.1 = false ∧ no_secret kv.2 = true) m.
Proof.
  cbn [no_secret]. rewrite <-Is_true_true, forallb_True. apply Forall_proper; [|done].
  intros [k x]. by rewrite Is_true_true, andb_true_iff, negb_true_iff.
Qed.
Lemma no_secret_arr l : no_secret (JArr l) = true ↔ Forall (λ x, no_secret x = true) l.
Proof. cbn [no_secret]. rewrite <-Is_true_true, forallb_True. apply Forall_proper; [|done]. intros x. by rewrite Is_true_true. Qed.

Lemma reject_secret_ok v path : reject_secret_material v path = Ok () → no_secret v = true.
Proof.
  revert path. induction v as [| | | |l IH|m IH] using json_nested_ind; intros path; [done..| |].
  - intros H. apply no_secret_arr. cbn [reject_secret_material] in H. revert H. generalize 0.
    induction IH as [|x l Hx _ IHl]; intros i; [constructor|]. intros ([] & Hc & Hr)%bind_Ok. constructor; [by eapply Hx|by eapply IHl].
  - intros H. apply no_secret_obj. cbn [reject_secret_material] in H. revert H.
    induction IH as [|[k x] m Hx _ IHm]; [constructor|]. destruct (forbidden_key k) eqn:Hk; [done|].
    intros ([] & Hc & Hr)%bind_Ok. constructor; [split; [done|by eapply Hx]|by eapply IHm].
Qed.

Lemma no_secret_key v k : no_secret v = true → key_in k v → forbidden_key k = false.
Proof.
  intros Hv Hk. revert Hv. induction Hk as [m x Hin|m k' x Hin _ IH|l x Hin _ IH].
  - intros Hm%no_secret_obj. rewrite Forall_forall in Hm. by apply (Hm _ Hin).
  - intros Hm%no_secret_obj. rewrite Forall_forall in Hm. apply IH. by apply (Hm _ Hin).
  - intros Hl%no_secret_arr. rewrite Forall_forall in Hl. by apply IH, Hl.
Qed.

Lemma map_insert_elem m k v kv : kv ∈ map_insert m k v → kv = (k, v) ∨ kv ∈ m.
Proof.
  induction m as [|[k' v'] m IH]; cbn [map_insert]; [set_solver|]. repeat case_match; set_solver.
Qed.

Lemma no_secret_insert m k x :
  no_secret (JObj m) = true → forbidden_key k = false → no_secret x = true → no_secret (JObj (map_insert m k x)) = true.
Proof.
  rewrite !no_secret_obj, !Forall_forall. intros Hm Hk Hx kv [->|Hin]%map_insert_elem; [done|by apply Hm].
Qed.

Lemma no_secret_index_set v k x v' :
  no_secret v = true → forbidden_key k = false → no_secret x = true → json_index_set v k x = Some v' → no_secret v' = true.
Proof.
  intros Hv Hk Hx. destruct v as [| | | | |m]; try done; cbn.
  - intros [= <-]. apply no_secret_obj. by repeat constructor.
  - intros [= <-]. by apply no_secret_insert.
Qed.

Lemma no_secret_index v k : no_secret v = true → no_secret (json_index v k) = true.
Proof.
  intros Hv. unfold json_index. destruct (json_get v k) as [x|] eqn:Hg; [|done]. destruct v as [| | | | |m]; try done.
  cbn in Hg. apply map_get_elem in Hg. apply no_secret_obj in Hv. rewrite Forall_forall in Hv. by apply (Hv _ Hg).
Qed.

Lemma no_secret_set2 v k1 k2 x v' :
  no_secret v = true → forbidden_key k1 = false → forbidden_key k2 = false → no_secret x = true →
  json_index_set2 v k1 k2 x = Some v' → no_secret v' = true.
Proof.
  intros Hv H1 H2 Hx. unfold json_index_set2. destruct (json_index_set _ k2 x) as [inner|] eqn:Hi; [|done]. cbn. intros Hs.
  eapply (no_secret_index_set v k1 inner); [done|done| |done]. eapply (no_secret_index_set (json_index v k1)); [|done..].
  by apply no_secret_index.
Qed.

Lemma no_secret_collect kvs :
  Forall (λ kv, forbidden_key kv.1 = false ∧ no_secret kv.2 = true) kvs → no_secret (JObj (map_collect kvs)) = true.
Proof.
  unfold map_collect. assert (no_secret (JObj []) = true) as H by done. revert H. generalize (@nil (string * json)).
  intros m Hm Hall. revert m Hm. induction Hall as [|[k x] kvs [Hk Hx] _ IH]; intros m Hm; [done|]. cbn. by apply IH, no_secret_insert.
Qed.

(** ** Stored records *)

Section records.
Context {E : Env} {Scan : TableScan} {TT : TimeText}.

(** What every stored record is: an object with an object as its lineage, and
    without secret material. *)
Record good_record (record : json) : Prop := {
  gr_lineage : ∃ m l, record = JObj m ∧ map_get m "lineage" = Some (JObj l);
  gr_secret : no_secret record = true;
}.

Definition identity_names : list string := ["session_id"; "task_id"; "command_id"].

Lemma index_set2_lineage record field x :
  good_record record → no_secret x = true → forbidden_key field = false →
  ∃ record', json_index_set2 record "lineage" field x = Some record' ∧ good_record record' ∧
    (∀ f, lineage_str record' f = if decide (f = field) then as_str x else lineage_str record f) ∧
    json_index record' "status" = json_index record "status".
Proof.
  intros [(m & l & -> & Hl) Hs] Hx Hf.
  assert (json_index_set2 (JObj m) "lineage" field x = Some (JObj (map_insert m "lineage" (JObj (map_insert l field x))))) as Hset.
  { unfold json_index_set2, json_index. cbn. by rewrite Hl. }
  exists (JObj (map_insert m "lineage" (JObj (map_insert l field x)))). split; [done|]. split_and!.
  - split; [eexists _, _; split; [done|apply map_get_insert_eq]|]. by eapply no_secret_set2; [exact Hs| | | |exact Hset].
  - intros f. unfold lineage_str, json_index. cbn. rewrite map_get_insert_eq, Hl. cbn. case_decide as Hff.
    + subst. by rewrite map_get_insert_eq.
    + by rewrite map_get_insert_ne.
  - unfold json_index. cbn. by rewrite map_get_insert_ne.
Qed.

Lemma index_set_status record x :
  good_record record → no_secret x = true →
  ∃ record', json_index_set record "status" x = Some record' ∧ good_record record' ∧
    (∀ f, lineage_str record' f = lineage_str record f) ∧ json_index record' "status" = x.
Proof.
  intros [(m & l & -> & Hl) Hs] Hx. exists (JObj (map_insert m "status" x)). split; [done|]. split_and!.
  - split; [eexists _, _; split; [done|by rewrite map_get_insert_ne]|]. by apply no_secret_insert.
  - intros f. unfold lineage_str, json_index. cbn. by rewrite map_get_insert_ne.
  - unfold json_index. cbn. by rewrite map_get_insert_eq.
Qed.

(** Every assigned identity of a record stays in another. *)
Definition keeps_identities (record record' : json) : Prop :=
  ∀ f x, f ∈ identity_names → lineage_str record f = Some x → lineage_str record' f = Some x.

#[local] Instance keeps_identities_refl : Reflexive keeps_identities.
Proof. by intros record f x. Qed.
#[local] Instance keeps_identities_trans : Transitive keeps_identities.
Proof. intros a b c Hab Hbc f x Hf Hx. by apply Hbc, Hab. Qed.

Lemma assign_identities_ok record fields record' :
  good_record record → Forall (λ fx, forbidden_key fx.1 = false) fields →
  assign_identities record fields = Ok record' → good_record record' ∧ keeps_identities record record'.
Proof.
  intros Hg Hall. revert record Hg. induction Hall as [|[field [x|]] fields Hf _ IH]; intros record Hg; cbn [assign_identities].
  - intros [= <-]. done.
  - case_bool_decide; [done|]. destruct (index_set2_lineage record field (JStr x) Hg eq_refl Hf) as (r1 & -> & Hg1 & Hl & _).
    cbn [ok_or mbind result_bind].
    assert (lineage_str record field = None ∨ lineage_str record field = Some x → keeps_identities record r1) as Hkeep.
    { intros Hold f y _ Hy. rewrite Hl. case_decide as Hff; [subst; destruct Hold; [congruence|by simplify_eq]|done]. }
    destruct (lineage_str record field) as [cur|] eqn:Hcur.
    + case_bool_decide as Hne; [done|]. subst cur. intros Hr. destruct (IH r1 Hg1 Hr) as [Hg2 Hk].
      split; [done|]. etransitivity; [apply Hkeep; by right|done].
    + intros Hr. destruct (IH r1 Hg1 Hr) as [Hg2 Hk]. split; [done|]. etransitivity; [apply Hkeep; by left|done].
  - by apply IH.
Qed.

Lemma assign_identities_no_panic record fields :
  good_record record → Forall (λ fx, forbidden_key fx.1 = false) fields → assign_identities record fields ≠ Err IdentityPanic.
Proof.
  intros Hg Hall. revert record Hg. induction Hall as [|[field [x|]] fields Hf _ IH]; intros record Hg; cbn [assign_identities].
  - done.
  - case_bool_decide; [done|]. destruct (index_set2_lineage record field (JStr x) Hg eq_refl Hf) as (r1 & -> & Hg1 & _).
    cbn [ok_or mbind result_bind]. destruct (lineage_str record field); [case_bool_decide; [done|]|]; by apply IH.
  - by apply IH.
Qed.

Lemma identity_fields_allowed i : Forall (λ fx, forbidden_key fx.1 = false) (identity_fields i).
Proof. by repeat constructor. Qed.

Lemma apply_identity_ok record i record' :
  good_record record → apply_runtime_identity record i = Ok record' → good_record record' ∧ keeps_identities record record'.
Proof.
  intros Hg. unfold apply_runtime_identity. destruct i as [i|]; [|by intros [= <-]].
  pose proof (assign_identities_ok record (identity_fields i) record' Hg (identity_fields_allowed i)) as Ha.
  destruct (ri_session_id i), (ri_task_id i), (ri_command_id i); done.
Qed.

Lemma apply_identity_no_panic record i : good_record record → apply_runtime_identity record i ≠ Err IdentityPanic.
Proof.
  intros Hg. unfold apply_runtime_identity. destruct i as [i|]; [|done].
  pose proof (assign_identities_no_panic record (identity_fields i) Hg (identity_fields_allowed i)) as Ha.
  destruct (ri_session_id i), (ri_task_id i), (ri_command_id i); done.
Qed.

(** *** What is written is good *)

Lemma set_opt_no_secret k x m :
  no_secret (JObj m) = true → forbidden_key k = false → (∀ v, x = Some v → no_secret v = true) →
  no_secret (JObj (set_opt k x m)) = true.
Proof. intros Hm Hk Hx. destruct x as [v|]; [|done]. apply no_secret_insert; [done|done|]. by apply Hx. Qed.

Lemma projected_status_no_secret current task artifacts : no_secret (JObj (projected_status current task artifacts)) = true.
Proof.
  unfold projected_status. repeat apply set_opt_no_secret; try done.
  - apply no_secret_collect. repeat constructor. cbn [snd]. apply no_secret_arr. unfold artifact_entries.
    apply Forall_app. split; [|by case_bool_decide; repeat constructor]. apply Forall_fmap, Forall_true. done.
  - by intros v (h & _ & ->)%fmap_Some.
  - by intros v; destruct (t_state task); intros [= <-].
  - by intros v (h & _ & ->)%fmap_Some.
  - by intros v (h & _ & ->)%fmap_Some.
Qed.

Lemma project_ok now current task artifacts next :
  good_record (w_record_json current) → project_task_observation now current task artifacts = Some (Some next) →
  good_record (w_record_json next) ∧ keeps_identities (w_record_json current) (w_record_json next) ∧
  w_revision next = next_revision (w_revision current) ∧ w_child_id next = w_child_id current.
Proof.
  intros Hg. unfold project_task_observation. case_bool_decide; [done|]. case_match; [done|].
  destruct (index_set_status _ (JObj (projected_status current task artifacts)) Hg (projected_status_no_secret _ _ _))
    as (r1 & -> & Hg1 & Hl1 & _). cbn [mbind option_bind].
  assert (keeps_identities (w_record_json current) r1) as Hk1 by (intros f x _; by rewrite Hl1).
  case_bool_decide as Hnull; [|intros [= <-]; done].
  destruct (head _) as [c|]; [|intros [= <-]; done].
  destruct (index_set2_lineage r1 "command_id" (JStr c) Hg1 eq_refl eq_refl) as (r2 & -> & Hg2 & Hl2 & _). cbn [mbind option_bind].
  intros [= <-]. split_and!; [done| |done|done]. etransitivity; [exact Hk1|]. intros f x _ Hx. cbn [w_record_json]. rewrite Hl2.
  case_decide as Hf; [|done]. subst f. unfold lineage_str in Hx. rewrite Hnull in Hx. done.
Qed.

Lemma project_no_panic now current task artifacts :
  good_record (w_record_json current) → is_Some (project_task_observation now current task artifacts).
Proof.
  intros Hg. unfold project_task_observation. case_bool_decide; [by eexists|]. case_match; [by eexists|].
  destruct (index_set_status _ (JObj (projected_status current task artifacts)) Hg (projected_status_no_secret _ _ _))
    as (r1 & -> & Hg1 & Hl1 & _). cbn [mbind option_bind]. case_bool_decide; [|by eexists].
  destruct (head _) as [c|]; [|by eexists].
  destruct (index_set2_lineage r1 "command_id" (JStr c) Hg1 eq_refl eq_refl) as (r2 & -> & _). by eexists.
Qed.

Lemma refresh_ok now s1 s2 current next :
  good_record (w_record_json current) → refresh_prepare now s1 s2 current = Some (Some next) →
  good_record (w_record_json next) ∧ keeps_identities (w_record_json current) (w_record_json next) ∧
  w_revision next = next_revision (w_revision current) ∧ w_child_id next = w_child_id current.
Proof.
  intros Hg. unfold refresh_prepare. destruct (_ ≫= as_str) as [id|]; [|done].
  destruct (get_task s1 id) as [[task|]|]; [|done..]. by apply project_ok.
Qed.

(** *** Dispatch *)

Lemma reject_unknown_ok v path allowed : reject_unknown_keys v path allowed = Ok () → ∃ m, v = JObj m.
Proof. unfold reject_unknown_keys. destruct v; try done. by eexists. Qed.

Lemma required_string_Ok v p x : required_string v p = Ok x → pointer v p ≫= as_str = Some x ∧ x ≠ EmptyString.
Proof. unfold required_string. destruct (_ ≫= as_str); [|done]. case_bool_decide; [done|]. by intros [= ->]. Qed.

Lemma require_all_Ok f l p : require_all f l = Ok () → p ∈ l → f p = Ok ().
Proof.
  induction l as [|q l IH]; cbn [require_all]; [by intros _ ?%elem_of_nil|].
  intros ([] & Hq & Hl)%bind_Ok [->|Hp]%elem_of_cons; [done|by apply IH].
Qed.

Record valid_record (record : json) : Prop := {
  vr_lineage : ∃ m l st, record = JObj m ∧ map_get m "lineage" = Some (JObj l) ∧ map_get m "status" = Some (JObj st);
  vr_child : ∃ x, lineage_str record "child_id" = Some x;
  vr_key : ∃ x, lineage_str record "idempotency_key" = Some x;
  vr_target : ∃ x, lineage_str record "target_id" = Some x;
  vr_executor : ∃ x, lineage_str record "executor_id" = Some x;
  vr_kind : ∃ x, as_str (json_index record "kind") = Some x;
  vr_secret : no_secret record = true;
}.

Lemma index_obj v k m : json_index v k = JObj m → ∃ o, v = JObj o ∧ map_get o k = Some (JObj m).
Proof.
  unfold json_index. destruct v as [| | | | |o]; try done. cbn. destruct (map_get o k) eqn:Hg; [|done]. cbn. intros ->. by exists o.
Qed.

Lemma pointer_lineage v f x :
  (json_get v "lineage" ≫= λ l, json_get l f) ≫= as_str = Some x → lineage_str v f = Some x.
Proof. unfold lineage_str, json_index. destruct (json_get v "lineage") as [l|]; [|done]. cbn. by destruct (json_get l f). Qed.

Lemma validate_dispatch_valid record : validate_dispatch_record record = Ok () → valid_record record.
Proof.
  unfold validate_dispatch_record.
  intros ([] & H0 & ([] & Hl%reject_unknown_ok & ([] & _ & ([] & Hs%reject_unknown_ok & ([] & _ &
    (kind & Hk%required_string_Ok & ([] & _ & ([] & Hreq & H)%bind_Ok)%bind_Ok)%bind_Ok)%bind_Ok)%bind_Ok)%bind_Ok)%bind_Ok)%bind_Ok.
  do 7 (apply bind_Ok in H as (? & _ & H)). apply reject_secret_ok in H.
  destruct Hl as [l Hl], Hs as [st Hst]. apply index_obj in Hl as (m & -> & Hl).
  apply index_obj in Hst as (m' & [= <-] & Hst).
  assert (∀ p f, p ∈ required_lineage → pointer (JObj m) p = (json_get (JObj m) "lineage" ≫= λ l, json_get l f) →
    ∃ x, lineage_str (JObj m) f = Some x) as Hfield.
  { intros p f Hp Heq. apply (require_all_Ok _ _ p Hreq) in Hp as (y & Hx%required_string_Ok & _)%bind_Ok. exists y.
    apply pointer_lineage. rewrite <-Heq. apply Hx. }
  constructor.
  - by exists m, l, st.
  - apply (Hfield "/lineage/child_id"); [by apply (bool_decide_unpack _)|reflexivity].
  - apply (Hfield "/lineage/idempotency_key"); [by apply (bool_decide_unpack _)|reflexivity].
  - apply (Hfield "/lineage/target_id"); [by apply (bool_decide_unpack _)|reflexivity].
  - apply (Hfield "/lineage/executor_id"); [by apply (bool_decide_unpack _)|reflexivity].
  - exists kind. destruct Hk as [Hk _]. change (pointer (JObj m) "/kind") with (json_get (JObj m) "kind") in Hk.
    unfold json_index. by destruct (json_get (JObj m) "kind").
  - done.
Qed.

Lemma set_status_field m st l k x :
  map_get m "status" = Some (JObj st) → map_get m "lineage" = Some (JObj l) →
  ∃ m' st', json_index_set2 (JObj m) "status" k x = Some (JObj m') ∧ map_get m' "status" = Some (JObj st') ∧
    map_get m' "lineage" = Some (JObj l).
Proof.
  intros Hst Hl. exists (map_insert m "status" (JObj (map_insert st k x))), (map_insert st k x).
  unfold json_index_set2, json_index. cbn. rewrite Hst. cbn. by rewrite map_get_insert_eq, map_get_insert_ne.
Qed.

Lemma admitted_row_ok now hash record :
  valid_record record → ∃ row, admitted_row now hash record = Some row ∧ good_record (w_record_json row) ∧
    w_revision row = 1 ∧ w_request_hash row = hash ∧ Some (w_child_id row) = lineage_str record "child_id" ∧
    Some (w_idempotency_key row) = lineage_str record "idempotency_key".
Proof.
  intros [(m & l & st & -> & Hl & Hst) [c Hc] [k Hk] [t Ht] [e He] [kd Hkd] Hs]. unfold admitted_row. rewrite Hc, Hk, Ht, He, Hkd.
  cbn [mbind option_bind].
  destruct (set_status_field m st l "observed_state" (JStr "admitted") Hst Hl) as (m1 & st1 & H1 & Hst1 & Hl1). rewrite H1.
  cbn [mbind option_bind]. destruct (set_status_field m1 st1 l "revision" (JNum 1) Hst1 Hl1) as (m2 & st2 & H2 & Hst2 & Hl2).
  rewrite H2. cbn [mbind option_bind].
  destruct (set_status_field m2 st2 l "last_seen" (JStr (rfc3339 now)) Hst2 Hl2) as (m3 & st3 & H3 & Hst3 & Hl3). rewrite H3.
  eexists. split; [reflexivity|]. split_and!; try done. split; [by exists m3, l|].
  apply no_secret_set2 in H1; [|done..]. apply no_secret_set2 in H2; [|done..]. by apply no_secret_set2 in H3.
Qed.

(** *** Observations *)

Lemma validate_status_valid status n :
  validate_status status n = Ok () →
  json_u64 (json_index status "revision") = Some (next_revision n) ∧ is_Some (as_str (json_index status "observed_state")) ∧
  is_Some (as_str (json_index status "last_seen")) ∧ no_secret status = true.
Proof.
  unfold validate_status. intros ([] & _ & (r & Hr%ok_or_Ok & ([] & Hn%ensure_Ok & (o & Ho%ok_or_Ok & H)%bind_Ok)%bind_Ok)%bind_Ok)%bind_Ok.
  apply bind_Ok in H as ([] & _ & H). apply bind_Ok in H as (x & [Hx _]%required_string_Ok & H). apply bind_Ok in H as ([] & _ & H).
  apply Z.eqb_eq in Hn as ->. split; [done|]. split; [by eexists|]. split; [|by eapply reject_secret_ok].
  change (pointer status "/last_seen") with (json_get status "last_seen") in Hx. unfold json_index.
  destruct (json_get status "last_seen") as [v|]; [|done]. by eexists.
Qed.

Lemma observe_prepare_no_panic now s child_id q :
  (∀ current, get_fleet_workload s child_id = Ok (Some current) → good_record (w_record_json current)) →
  is_Some (observe_prepare now s child_id q).
Proof.
  intros Hgood. unfold observe_prepare. destruct (validate_status _ _) as [[]|] eqn:Hv; [|by eexists].
  apply validate_status_valid in Hv as (Hr & [o Ho] & [ls Hls] & Hns).
  destruct (get_fleet_workload s child_id) as [[current|]|]; [|by eexists..]. specialize (Hgood current eq_refl).
  destruct (_ && _); [by eexists|]. rewrite Hr, Ho, Hls. cbn [mbind option_bind]. destruct (parse_time ls); [|by eexists].
  pose proof (apply_identity_no_panic _ (oq_runtime_identity q) Hgood) as Hnp.
  destruct (apply_runtime_identity _ _) as [record|[m|m|]] eqn:Ha; [|by eexists..|done].
  destruct (apply_identity_ok _ _ _ Hgood Ha) as [Hg _].
  destruct (index_set_status record (oq_status q) Hg Hns) as (r1 & -> & _). by eexists.
Qed.

Lemma observe_prepare_ok now s child_id q current next :
  observe_prepare now s child_id q = Some (Ok (current, next)) →
  get_fleet_workload s child_id = Ok (Some current) ∧ w_revision next = next_revision (oq_expected_revision q) ∧
  w_child_id next = w_child_id current ∧
  (good_record (w_record_json current) → good_record (w_record_json next) ∧
     keeps_identities (w_record_json current) (w_record_json next) ∧ json_index (w_record_json next) "status" = oq_status q).
Proof.
  unfold observe_prepare. destruct (validate_status _ _) as [[]|] eqn:Hv; [|done].
  apply validate_status_valid in Hv as (Hr & [o Ho] & [ls Hls] & Hns).
  destruct (get_fleet_workload s child_id) as [[cur|]|]; [|done..].
  destruct (_ && _); [done|]. rewrite Hr, Ho, Hls. cbn [mbind option_bind]. destruct (parse_time ls); [|done].
  destruct (apply_runtime_identity _ _) as [record|[m|m|]] eqn:Ha; [|done..].
  destruct (json_index_set record "status" (oq_status q)) as [r1|] eqn:Hset; [|done]. cbn [mbind option_bind].
  intros [= -> <-]. split_and!; [done..|]. intros Hgood. destruct (apply_identity_ok _ _ _ Hgood Ha) as [Hg Hk].
  destruct (index_set_status record (oq_status q) Hg Hns) as (r2 & Hr2 & Hg2 & Hl2 & Hs2). rewrite Hset in Hr2. simplify_eq.
  split_and!; [done| |done]. etransitivity; [exact Hk|]. intros f x _. cbn. by rewrite Hl2.
Qed.

(** *** The invariant *)

Lemma get_fleet_Some s k row :
  get_fleet_workload s k = Ok (Some row) → ∃ c, fleet_workloads s !! k = Some c ∧ row_to_fleet (k, c) = Ok row.
Proof.
  unfold get_fleet_workload, decode_opt. destruct (fleet_workloads s !! k) as [c|]; [|done].
  destruct (row_to_fleet (k, c)) as [r|] eqn:Hr; [|done]. cbn. intros [= <-]. by exists c.
Qed.

Lemma row_to_fleet_Ok k c row :
  row_to_fleet (k, c) = Ok row →
  w_child_id row = k ∧ w_revision row = fc_revision c ∧ 0 <= fc_revision c ∧ json_parse (fc_record_json c) = Some (w_record_json row) ∧
  w_idempotency_key row = fc_idempotency_key c ∧ w_request_hash row = fc_request_hash c ∧ w_target_id row = fc_target_id c ∧
  w_executor_id row = fc_executor_id c ∧ w_workload_kind row = fc_workload_kind c ∧ w_observed_state row = fc_observed_state c ∧
  w_last_seen row = fc_last_seen c ∧ w_created_at row = fc_created_at c ∧ w_updated_at row = fc_updated_at c.
Proof.
  unfold row_to_fleet. destruct (fc_revision c <? 0) eqn:Hn; [done|]. apply Z.ltb_ge in Hn. unfold parse_json.
  destruct (json_parse (fc_record_json c)) as [v|]; [|done]. cbn. intros [= <-]. done.
Qed.

Definition good_columns (c : FleetColumns) : Prop := ∃ record, fc_record_json c = json_text record ∧ good_record record.

Definition sound_write (p : PendingWrite) : Prop :=
  good_record (w_record_json (pw_next p)) ∧ 0 <= w_revision (pw_next p) <= u64_max.

Record fleet_inv (w : FleetWorld) : Prop := {
  fi_store : map_Forall (λ _, good_columns) (fleet_workloads (fl_store w));
  fi_writes : Forall sound_write (fl_writes w);
}.

Lemma next_revision_range n : 0 <= next_revision n <= u64_max.
Proof. unfold next_revision, wrap_add. pose proof (Z.mod_pos_bound (n + 1) (u64_max + 1) ltac:(done)). lia. Qed.

Hypothesis parses : json_text_parses E.

Lemma get_good s k row :
  map_Forall (λ _, good_columns) (fleet_workloads s) → get_fleet_workload s k = Ok (Some row) → good_record (w_record_json row).
Proof using parses.
  intros Hall (c & Hc & Hr)%get_fleet_Some. destruct (Hall k c Hc) as (record & Heq & Hg).
  apply row_to_fleet_Ok in Hr as (_ & _ & _ & Hp & _). rewrite Heq, parses in Hp. by simplify_eq.
Qed.

Lemma dispatch_outcome now s record :
  (dispatch now s record).1 = s ∨
  ∃ hash row, validate_dispatch_record record = Ok () ∧ dispatch_request_hash record = Ok hash ∧
    admitted_row now hash record = Some row ∧ (dispatch now s record).1 = (fleet_dispatch s row).1.
Proof.
  unfold dispatch. destruct (validate_dispatch_record record) as [[]|]; [|by left].
  destruct (dispatch_request_hash record) as [h|]; [|by left]. destruct (admitted_row now h record) as [row|] eqn:Hr; [|by left].
  right. exists h, row. split_and!; try done. by destruct (fleet_dispatch s row).
Qed.

Lemma fleet_dispatch_store s row :
  (fleet_dispatch s row).1 = s ∨
  fleet_workloads s !! w_child_id row = None ∧
  (fleet_dispatch s row).1 = s <| fleet_workloads ::= <[w_child_id row := fleet_columns row]> |>.
Proof.
  unfold fleet_dispatch. destruct (fleet_prior s row) eqn:Hp; [left; repeat case_match; done|]. right. split; [|done].
  destruct (fleet_workloads s !! w_child_id row) eqn:Hc; [|done]. by destruct (fleet_prior_None s row Hp _ _ Hc).
Qed.

Lemma observe_store s k expected next :
  (observe_fleet_workload s k expected next).1 = s ∨
  ∃ c, fleet_workloads s !! k = Some c ∧ as_u64 (fc_revision c) = expected ∧ expected < w_revision next ∧
    (observe_fleet_workload s k expected next).1 = s <| fleet_workloads ::= <[k :=
       c <| fc_observed_state := w_observed_state next |> <| fc_revision := as_i64 (w_revision next) |>
         <| fc_last_seen := w_last_seen next |> <| fc_record_json := json_text (w_record_json next) |>
         <| fc_updated_at := w_updated_at next |>]> |>.
Proof.
  unfold observe_fleet_workload. destruct (fleet_workloads s !! k) as [c|]; [|by left].
  destruct (_ || _) eqn:Hb; [by left|]. apply orb_false_iff in Hb as [H1%negb_false_iff%Z.eqb_eq H2%Z.leb_gt].
  destruct (_ =? as_i64 _); [|by left]. right. by exists c.
Qed.

Lemma fleet_step_inv w w' : fleet_step w w' → fleet_inv w → fleet_inv w'.
Proof using parses.
  intros Hstep [Hs Hw]. destruct Hstep as [now w record|now w child_id q current next Hp|now w s1 s2 child_id current next Hg Hr
    |w p before after Hsplit|w s Hsame]; constructor; cbn [fl_store fl_writes]; try done.
  - destruct (dispatch_outcome now (fl_store w) record) as [->|(h & row & Hv%validate_dispatch_valid & _ & Ha & ->)]; [done|].
    destruct (admitted_row_ok now h record Hv) as (row' & Ha' & Hgood & _). simplify_eq.
    destruct (fleet_dispatch_store (fl_store w) row) as [->|[_ ->]]; [done|].
    apply map_Forall_insert_2; [|done]. by eexists.
  - constructor; [|done]. apply observe_prepare_ok in Hp as (Hg & Hrev & _ & Hok). split; cbn.
    + by eapply Hok, get_good.
    + rewrite Hrev. apply next_revision_range.
  - constructor; [|done]. apply refresh_ok in Hr as (Hgood & _ & Hrev & _); [|by eapply get_good]. split; [done|].
    cbn. rewrite Hrev. apply next_revision_range.
  - rewrite Hsplit, Forall_app, Forall_cons in Hw. destruct Hw as (_ & [Hgood _] & _).
    destruct (observe_store (fl_store w) (w_child_id (pw_read p)) (pw_expected p) (pw_next p)) as [->|(c & Hc & _ & _ & ->)]; [done|].
    apply map_Forall_insert_2; [|done]. by eexists.
  - rewrite Hsplit, Forall_app, Forall_cons in Hw. rewrite Forall_app. tauto.
  - change (map_Forall (λ _, good_columns) (fleet_workloads s)). by rewrite Hsame.
Qed.

Lemma fleet_reachable_inv w0 w : fleet_start w0 → rtc fleet_step w0 w → fleet_inv w.
Proof using parses.
  intros [Hs Hw] Hr. eapply (rtc_invariant _ fleet_inv); [apply fleet_step_inv|done|]. constructor.
  - rewrite Hs. apply map_Forall_empty.
  - rewrite Hw. constructor.
Qed.

(** C35: no credential is ever stored with a workload.  However dispatches,
    observations and projections are interleaved, no key at any depth of a
    stored record is one of the forbidden ones. *)
Theorem stored_workloads_carry_no_secrets w0 w k c record key :
  fleet_start w0 → rtc fleet_step w0 w → fleet_workloads (fl_store w) !! k = Some c →
  json_parse (fc_record_json c) = Some record → key_in key record → forbidden_key key = false.
Proof using parses.
  intros H0 Hr Hc Hp Hk. destruct (fleet_reachable_inv w0 w H0 Hr) as [Hs _]. destruct (Hs k c Hc) as (r & Heq & [_ Hn]).
  rewrite Heq, parses in Hp. simplify_eq. by eapply no_secret_key.
Qed.

(** *** Panics *)

Lemma refresh_from_ok now s current :
  map_Forall (λ _, good_columns) (fleet_workloads s) → good_record (w_record_json current) →
  ∃ s' row, refresh_from_task_store now s current = (s', Some row) ∧
    map_Forall (λ _, good_columns) (fleet_workloads s') ∧ good_record (w_record_json row).
Proof using parses.
  intros Hs Hg. unfold refresh_from_task_store.
  assert (is_Some (refresh_prepare now s s current)) as [next Hp].
  { unfold refresh_prepare. destruct (_ ≫= as_str) as [id|]; [|by eexists].
    destruct (get_task s id) as [[task|]|]; [|by eexists..]. by apply project_no_panic. }
  rewrite Hp. destruct next as [next|]; [|by exists s, current]. destruct (refresh_ok _ _ _ _ _ Hg Hp) as (Hgn & _).
  unfold refresh_commit.
  assert (map_Forall (λ _, good_columns) (fleet_workloads (observe_fleet_workload s (w_child_id current) (w_revision current) next).1)) as Hs'.
  { destruct (observe_store s (w_child_id current) (w_revision current) next) as [->|(c & _ & _ & _ & ->)]; [done|].
    apply map_Forall_insert_2; [|done]. by eexists. }
  destruct (observe_fleet_workload _ _ _ _) as [s1 [[row| |r]|]] eqn:Ho; cbn [fst] in Hs'; eexists _, _; (split; [reflexivity|]); split; try done.
  - assert (row = next) as -> by (unfold observe_fleet_workload in Ho; repeat case_match; by simplify_eq). done.
  - destruct (get_fleet_workload s1 (w_child_id current)) as [[row|]|] eqn:Hget; [|done..]. by eapply get_good.
Qed.

Lemma refresh_all_ok now s rows :
  map_Forall (λ _, good_columns) (fleet_workloads s) → Forall (λ row, good_record (w_record_json row)) rows →
  is_Some (refresh_all now s rows).2.
Proof using parses.
  intros Hs Hall. revert s Hs. induction Hall as [|row rows Hg _ IH]; intros s Hs; [by eexists|]. cbn [refresh_all].
  destruct (refresh_from_ok now s row Hs Hg) as (s1 & row1 & -> & Hs1 & _). destruct (IH s1 Hs1) as [rest Hrest].
  destruct (refresh_all now s1 rows) as [s2 r]. cbn in Hrest. rewrite Hrest. by eexists.
Qed.

Lemma listed_row s rows row :
  list_fleet_workloads s = Ok rows → row ∈ rows → get_fleet_workload s (w_child_id row) = Ok (Some row).
Proof.
  intros Hl Hin. destruct (proj1 (collect_elem _ _ _ _ Hl) Hin) as ([k c] & Hkc & Hr). rewrite merge_sort_Permutation, scan_perm in Hkc.
  apply elem_of_map_to_list in Hkc. unfold get_fleet_workload, decode_opt.
  pose proof (row_to_fleet_Ok _ _ _ Hr) as (-> & _). by rewrite Hkc, Hr.
Qed.

(** the handlers never panic.  In any state that interleaved handlers lead
    to, every route of the fleet API answers. *)
Theorem fleet_handlers_never_panic w0 w now op route ops :
  fleet_start w0 → rtc fleet_step w0 w →
  is_Some (fleet_route now op route {| fa_store := Some (fl_store w); fa_ops := ops |}).2.
Proof using parses.
  intros H0 Hr. destruct (fleet_reachable_inv w0 w H0 Hr) as [Hs _]. set (s := fl_store w) in *. clearbody s.
  unfold fleet_route, on_store. cbn [fa_store]. destruct route as [record| |k|k q|q].
  - unfold dispatch. destruct (validate_dispatch_record record) as [[]|] eqn:Hv; [|by eexists].
    destruct (dispatch_request_hash record) as [h|]; [|by eexists].
    destruct (admitted_row_ok now h record (validate_dispatch_valid _ Hv)) as (row & -> & _).
    destruct (fleet_dispatch s row). by eexists.
  - unfold inventory. destruct (list_fleet_workloads s) as [rows|] eqn:Hl; [|by eexists].
    assert (Forall (λ row, good_record (w_record_json row)) rows) as Hall.
    { apply Forall_forall. intros row Hin. by eapply get_good, listed_row. }
    destruct (refresh_all_ok now s rows Hs Hall) as [rows' Hrows']. destruct (refresh_all now s rows) as [s' r].
    cbn in Hrows'. rewrite Hrows'. by eexists.
  - unfold get_workload. destruct (get_fleet_workload s k) as [[row|]|] eqn:Hg; [|by eexists..].
    destruct (refresh_from_ok now s row Hs (get_good s k row Hs Hg)) as (s1 & row1 & -> & _). by eexists.
  - unfold observe_workload. destruct (observe_prepare_no_panic now s k q (λ current, get_good s k current Hs)) as [[[cur next]|r] ->]; [|by eexists].
    destruct (observe_commit s k (oq_expected_revision q) next). by eexists.
  - destruct (reconcile_fleet now op _ q). by eexists.
Qed.

(** *** Revisions *)

Lemma evolves_refl c : fleet_evolves c c.
Proof. constructor; auto. Qed.
Lemma evolves_trans c1 c2 c3 : fleet_evolves c1 c2 → fleet_evolves c2 c3 → fleet_evolves c1 c3.
Proof.
  intros [] []. constructor; [congruence..|]. destruct fe_revision as [->|]; [done|]. destruct fe_revision0 as [->|]; right; lia.
Qed.

Lemma fleet_step_evolves w w' k c :
  fleet_inv w → fleet_step w w' → fleet_workloads (fl_store w) !! k = Some c →
  ∃ c', fleet_workloads (fl_store w') !! k = Some c' ∧ fleet_evolves c c'.
Proof.
  intros [_ Hw] Hstep Hc.
  assert (fleet_workloads (fl_store w') = fleet_workloads (fl_store w) →
    ∃ c', fleet_workloads (fl_store w') !! k = Some c' ∧ fleet_evolves c c') as Hsame.
  { intros ->. exists c. split; [done|apply evolves_refl]. }
  destruct Hstep as [now w record|now w child_id q current next Hp|now w s1 s2 child_id current next Hg Hr|w p before after Hsplit|w s Heq];
    try (by apply Hsame).
  - destruct (dispatch_outcome now (fl_store w) record) as [Heq|(h & row & _ & _ & _ & Heq)]; [apply Hsame; cbn; by rewrite Heq|].
    destruct (fleet_dispatch_store (fl_store w) row) as [Heq'|[Hnew Heq']]; [apply Hsame; cbn; by rewrite Heq, Heq'|].
    exists c. split; [|apply evolves_refl]. cbn. rewrite Heq, Heq'. cbn. rewrite lookup_insert_ne; congruence.
  - rewrite Hsplit, Forall_app, Forall_cons in Hw. destruct Hw as (_ & [_ Hrange] & _). by apply observe_fleet_evolves.
Qed.

Lemma fleet_steps_evolve w w' k c :
  fleet_inv w → rtc fleet_step w w' → fleet_workloads (fl_store w) !! k = Some c →
  ∃ c', fleet_workloads (fl_store w') !! k = Some c' ∧ fleet_evolves c c'.
Proof using parses.
  intros Hi Hr. revert Hi c. induction Hr as [w|w w1 w2 Hs _ IH]; intros Hi c Hc; [exists c; split; [done|apply evolves_refl]|].
  destruct (fleet_step_evolves w w1 k c Hi Hs Hc) as (c1 & Hc1 & E1).
  destruct (IH (fleet_step_inv _ _ Hs Hi) c1 Hc1) as (c2 & Hc2 & E2). exists c2. split; [done|]. by eapply evolves_trans.
Qed.

(** *** Runtime identities *)

(** A handler whose request expects the revision it reads. *)
Definition in_step (p : PendingWrite) : Prop := pw_expected p = w_revision (pw_read p).

Definition steady (w w' : FleetWorld) : Prop := fleet_step w w' ∧ Forall in_step (fl_writes w').

(** The row a pending write read was stored, and what is stored now evolved
    from it. *)
Definition traced (s : TaskStore) (p : PendingWrite) : Prop :=
  keeps_identities (w_record_json (pw_read p)) (w_record_json (pw_next p)) ∧
  ∃ c0 c, row_to_fleet (w_child_id (pw_read p), c0) = Ok (pw_read p) ∧
    fleet_workloads s !! w_child_id (pw_read p) = Some c ∧ fleet_evolves c0 c.

Lemma read_traced w k current next expected :
  fleet_inv w → get_fleet_workload (fl_store w) k = Ok (Some current) →
  keeps_identities (w_record_json current) (w_record_json next) →
  traced (fl_store w) {| pw_read := current; pw_expected := expected; pw_next := next |}.
Proof.
  intros Hi Hg Hk. split; [done|]. apply get_fleet_Some in Hg as (c & Hc & Hr). pose proof (row_to_fleet_Ok _ _ _ Hr) as (Hk' & _).
  cbn. exists c, c. rewrite Hk'. split_and!; [done|done|apply evolves_refl].
Qed.

Lemma steady_traced w w' :
  fleet_inv w → fleet_step w w' → Forall (traced (fl_store w)) (fl_writes w) → Forall (traced (fl_store w')) (fl_writes w').
Proof using parses.
  intros Hi Hstep Ht.
  assert (Forall (traced (fl_store w')) (fl_writes w)) as Hold.
  { eapply Forall_impl; [exact Ht|]. intros p [Hk (c0 & c & Hr & Hc & Hev)]. split; [done|].
    destruct (fleet_step_evolves w w' _ c Hi Hstep Hc) as (c' & Hc' & Hev'). exists c0, c'. split_and!; [done|done|by eapply evolves_trans]. }
  destruct Hstep as [now w record|now w child_id q current next Hp|now w s1 s2 child_id current next Hg Hr|w p before after Hsplit|w s Heq];
    cbn [fl_store fl_writes] in *; try done.
  - constructor; [|done]. apply observe_prepare_ok in Hp as (Hg & _ & _ & Hok). eapply (read_traced w); [done|done|].
    eapply Hok, get_good; [apply Hi|done].
  - constructor; [|done]. eapply (read_traced w); [done|done|]. eapply refresh_ok; [|done]. eapply get_good; [apply Hi|done].
  - rewrite Hsplit, Forall_app, Forall_cons in Hold. rewrite Forall_app. tauto.
Qed.

Lemma as_u64_nonneg n : 0 <= n → as_u64 n = n.
Proof. unfold as_u64. intros Hn. by rewrite (proj2 (Z.ltb_ge _ _)). Qed.

Lemma steady_keeps w w' k c record :
  fleet_inv w → Forall (traced (fl_store w)) (fl_writes w) → Forall in_step (fl_writes w) → fleet_step w w' →
  fleet_workloads (fl_store w) !! k = Some c → json_parse (fc_record_json c) = Some record →
  ∃ c' record', fleet_workloads (fl_store w') !! k = Some c' ∧ json_parse (fc_record_json c') = Some record' ∧
    keeps_identities record record'.
Proof using parses.
  intros Hi Ht Hin Hstep Hc Hp.
  assert (fleet_workloads (fl_store w') !! k = Some c → ∃ c' record', fleet_workloads (fl_store w') !! k = Some c' ∧
    json_parse (fc_record_json c') = Some record' ∧ keeps_identities record record') as Hsame by (intros ?; by exists c, record).
  destruct Hstep as [now w rec|now w child_id q current next Hpr|now w s1 s2 child_id current next Hg Hr|w p before after Hsplit|w s Heq];
    try (by apply Hsame).
  - apply Hsame. destruct (dispatch_outcome now (fl_store w) rec) as [Heq|(h & row & _ & _ & _ & Heq)]; cbn; rewrite Heq; [done|].
    destruct (fleet_dispatch_store (fl_store w) row) as [->|[Hnew ->]]; [done|]. cbn. rewrite lookup_insert_ne; congruence.
  - rewrite Hsplit, Forall_app, Forall_cons in Ht, Hin. destruct Ht as (_ & [Hk (c0 & c1 & Hr & Hc1 & Hev)] & _), Hin as (_ & Hexp & _).
    destruct (observe_store (fl_store w) (w_child_id (pw_read p)) (pw_expected p) (pw_next p)) as [Heq|(c2 & Hc2 & Hrev & _ & Heq)];
      cbn [fl_store] in *; rewrite Heq in *; [by apply Hsame|]. cbn [fleet_workloads] in *.
    destruct (decide (k = w_child_id (pw_read p))) as [->|Hne]; [|apply Hsame; cbn; by rewrite lookup_insert_ne].
    simplify_eq. pose proof (row_to_fleet_Ok _ _ _ Hr) as (_ & Hrd & Hpos & Hpar & _).
    assert (c1 = c0) as -> .
    { destruct (fe_revision _ _ Hev) as [|Hlt]; [done|]. unfold in_step in Hexp. rewrite as_u64_nonneg in Hlt by done. lia. }
    rewrite Hp in Hpar. injection Hpar as ->. eexists _, (w_record_json (pw_next p)). split; [apply lookup_insert_eq|]. by split; [apply parses|].
  - apply Hsame. change (fleet_workloads s !! k = Some c). by rewrite Heq.
Qed.

(** an assigned runtime identity never changes.  When every observation
    expects the revision it reads, the session, task and command of a workload,
    once assigned, stay as they are, whatever else is interleaved. *)
Theorem assigned_identity_kept w0 w w' k c record f x :
  fleet_start w0 → rtc steady w0 w → rtc steady w w' → fleet_workloads (fl_store w) !! k = Some c →
  json_parse (fc_record_json c) = Some record → f ∈ identity_names → lineage_str record f = Some x →
  ∃ c' record', fleet_workloads (fl_store w') !! k = Some c' ∧ json_parse (fc_record_json c') = Some record' ∧
    lineage_str record' f = Some x.
Proof using parses.
  intros [Hs0 Hw0] Hr Hr' Hc Hp Hf Hx.
  set (I := λ w, fleet_inv w ∧ Forall (traced (fl_store w)) (fl_writes w) ∧ Forall in_step (fl_writes w)).
  assert (∀ a b, steady a b → I a → I b) as Hpres.
  { intros a b [Hs Hin] (Hi & Ht & _). split_and!; [by eapply fleet_step_inv|by eapply steady_traced|done]. }
  assert (I w) as HI.
  { eapply (rtc_invariant _ I); [exact Hpres|exact Hr|]. unfold I. rewrite Hw0. split; [|done]. constructor; [rewrite Hs0; apply map_Forall_empty|by rewrite Hw0]. }
  assert (∃ c' record', fleet_workloads (fl_store w') !! k = Some c' ∧ json_parse (fc_record_json c') = Some record' ∧
    keeps_identities record record') as (c' & record' & Hc' & Hp' & Hk).
  { clear Hf Hx Hr. revert HI c record Hc Hp. induction Hr' as [w|w w1 w2 Hs _ IH]; intros HI c record Hc Hp; [by exists c, record|].
    destruct Hs as [Hs Hin]. destruct HI as (Hi & Ht & Hi'). destruct (steady_keeps w w1 k c record Hi Ht Hi' Hs Hc Hp) as (c1 & r1 & Hc1 & Hp1 & Hk1).
    assert (I w1) as HI1 by (apply (Hpres w w1); done). destruct (IH HI1 c1 r1 Hc1 Hp1) as (c2 & r2 & Hc2 & Hp2 & Hk2).
    exists c2, r2. split_and!; [done|done|]. by etransitivity. }
  exists c', record'. split_and!; [done|done|]. by apply Hk.
Qed.

(** *** Exactly one admission *)

Definition keys_unique (m : gmap string FleetColumns) : Prop :=
  ∀ k1 k2 c1 c2, m !! k1 = Some c1 → m !! k2 = Some c2 → fc_idempotency_key c1 = fc_idempotency_key c2 → k1 = k2.

Lemma keys_unique_insert m k c :
  keys_unique m → (∀ k' c', k' ≠ k → m !! k' = Some c' → fc_idempotency_key c' ≠ fc_idempotency_key c) → keys_unique (<[k := c]> m).
Proof.
  intros Hu Hk k1 k2 c1 c2. rewrite !lookup_insert_Some. intros [[<- <-]|[H1 L1]] [[<- <-]|[H2 L2]] Heq; [done| | |by eapply Hu].
  - by destruct (Hk k2 c2 (not_eq_sym H2) L2).
  - by destruct (Hk k1 c1 (not_eq_sym H1) L1).
Qed.

Lemma fleet_step_keys w w' :
  fleet_step w w' → keys_unique (fleet_workloads (fl_store w)) → keys_unique (fleet_workloads (fl_store w')).
Proof.
  intros Hstep Hu. destruct Hstep as [now w record|now w child_id q current next Hpr|now w s1 s2 child_id current next Hg Hr
    |w p before after Hsplit|w s Heq]; try done.
  - cbn. destruct (dispatch_outcome now (fl_store w) record) as [->|(h & row & _ & _ & _ & ->)]; [done|].
    unfold fleet_dispatch. destruct (fleet_prior (fl_store w) row) eqn:Hp; [by repeat case_match|]. cbn.
    apply keys_unique_insert; [done|]. intros k' c' _ Hc'. cbn. by apply (fleet_prior_None _ _ Hp k' c').
  - cbn. destruct (observe_store (fl_store w) (w_child_id (pw_read p)) (pw_expected p) (pw_next p)) as [->|(c & Hc & _ & _ & ->)]; [done|].
    cbn. apply keys_unique_insert; [done|]. cbn. intros k' c' Hne Hc' Heq. by eapply Hne, Hu.
  - change (keys_unique (fleet_workloads s)). by rewrite Heq.
Qed.

Lemma prior_known s row c :
  keys_unique (fleet_workloads s) → fleet_workloads s !! w_child_id row = Some c → fc_idempotency_key c = w_idempotency_key row →
  fleet_prior s row = Some (w_child_id row, c).
Proof.
  intros Hu Hc Hkey. destruct (fleet_prior s row) as [[k' c']|] eqn:Hp.
  - apply fleet_prior_Some in Hp as [Hc' Hm]. assert (k' = w_child_id row) as ->; [|congruence].
    destruct Hm as [Hm|Hm]; [|done]. eapply Hu; [done..|congruence].
  - by destruct (fleet_prior_None s row Hp _ c Hc).
Qed.

Lemma intent_lineage record record' f :
  valid_record record → valid_record record' → dispatch_intent record' = dispatch_intent record →
  lineage_str record' f = lineage_str record f.
Proof.
  intros [(m & l & st & -> & Hl & Hst) _ _ _ _ _ _] [(m' & l' & st' & -> & Hl' & Hst') _ _ _ _ _ _]. cbn. rewrite Hst, Hst'.
  intros [= Heq]. unfold lineage_str, json_index. cbn.
  assert (map_get m' "lineage" = map_get m "lineage") as ->; [|done].
  rewrite <-(map_get_insert_ne m "status" "lineage" (JObj (map_remove st "last_seen"))), <-Heq by done. by rewrite map_get_insert_ne.
Qed.

(** C37: a workload is admitted once.  After a dispatch was answered 202, the
    same dispatch, sent again at any later time and with any time in
    [status.last_seen], changes nothing and is answered 200 with the stored
    record; handlers interleaved in between make no difference. *)
Theorem dispatch_retry_replayed w0 w now s1 r w2 now' record record' :
  fleet_start w0 → rtc fleet_step w0 w → dispatch now (fl_store w) record = (s1, Some r) → rp_status r = ACCEPTED →
  rtc fleet_step {| fl_store := s1; fl_writes := fl_writes w |} w2 →
  validate_dispatch_record record' = Ok () → dispatch_intent record' = dispatch_intent record →
  ∃ k c, lineage_str record "child_id" = Some k ∧ fleet_workloads (fl_store w2) !! k = Some c ∧
    (0 <= fc_revision c → ∃ stored, json_parse (fc_record_json c) = Some stored ∧
      dispatch now' (fl_store w2) record' =
        (fl_store w2, Some (reply OK (json_obj [("replayed", JBool true); ("workload", stored)])))).
Proof using parses.
  intros H0 Hr Hd Hacc Hr2 Hv' Hint. pose proof (fleet_reachable_inv w0 w H0 Hr) as Hi.
  assert (s1 = (dispatch now (fl_store w) record).1) as Hs1 by (by rewrite Hd).
  assert (fleet_step w {| fl_store := s1; fl_writes := fl_writes w |}) as Hstep by (rewrite Hs1; apply (fl_dispatch now w record)).
  assert (keys_unique (fleet_workloads (fl_store w2))) as Hu.
  { eapply (rtc_invariant _ (λ w, keys_unique (fleet_workloads (fl_store w)))); [apply fleet_step_keys|etransitivity; [exact Hr|by eapply rtc_l]|].
    destruct H0 as [-> _]. intros k1 k2 c1 c2 Hk. by rewrite lookup_empty in Hk. }
  unfold dispatch in Hd. destruct (validate_dispatch_record record) as [[]|] eqn:Hv; [|by simplify_eq].
  apply validate_dispatch_valid in Hv. pose proof (validate_dispatch_valid _ Hv') as Hvr'.
  destruct (dispatch_request_hash record) as [h|] eqn:Hh; [|by simplify_eq].
  destruct (admitted_row_ok now h record Hv) as (row & Ha & _ & _ & Hhash & Hchild & Hkey). rewrite Ha in Hd.
  destruct (fleet_dispatch (fl_store w) row) as [s out] eqn:Hfd. injection Hd as -> <-.
  destruct out as [[row'|row'|]|e]; [|done..]. clear Hacc Hs1.
  assert (row' = row ∧ s1 = (fl_store w) <| fleet_workloads ::= <[w_child_id row := fleet_columns row]> |>) as [-> ->].
  { unfold fleet_dispatch in Hfd. repeat case_match; by simplify_eq. }
  destruct (fleet_steps_evolve _ w2 (w_child_id row) (fleet_columns row) (fleet_step_inv _ _ Hstep Hi) Hr2) as (c & Hc & [Ek Eh _ _ _]).
  { apply lookup_insert_eq. }
  exists (w_child_id row), c. split; [done|]. split; [done|]. intros Hpos.
  destruct (admitted_row_ok now' h record' Hvr') as (row' & Ha' & _ & _ & Hhash' & Hchild' & Hkey').
  rewrite (intent_lineage record record') in Hchild', Hkey' by done. rewrite <-Hchild in Hchild'. rewrite <-Hkey in Hkey'.
  injection Hchild' as Hchild'. injection Hkey' as Hkey'.
  assert (∃ stored, json_parse (fc_record_json c) = Some stored) as [stored Hst].
  { destruct (fi_store _ (rtc_invariant _ fleet_inv _ _ fleet_step_inv Hr2 (fleet_step_inv _ _ Hstep Hi)) _ _ Hc) as (x & -> & _).
    exists x. apply parses. }
  exists stored. split; [done|]. unfold dispatch. rewrite Hv'. unfold dispatch_request_hash in *. rewrite Hint, Hh, Ha'.
  unfold fleet_dispatch. rewrite (prior_known _ row' c Hu); [|congruence|cbn in Ek; congruence].
  unfold row_to_fleet. rewrite (proj2 (Z.ltb_ge _ _)) by lia. unfold parse_json. rewrite Hst. cbn [ok_or mbind result_bind w_idempotency_key w_request_hash].
  cbn in Ek, Eh. rewrite !bool_decide_eq_true_2 by congruence. done.
Qed.

(** *** The revision of the inventory *)

Definition weight (m : gmap string FleetColumns) : Z := sum_with (λ kc, 1 + fc_revision kc.2) (map_to_list m).

Lemma weight_insert m k c : m !! k = None → weight (<[k := c]> m) = 1 + fc_revision c + weight m.
Proof. intros Hk. unfold weight. rewrite (sum_with_perm _ _ _ (map_to_list_insert m k c Hk)). done. Qed.

Lemma weight_nonneg m : map_Forall (λ _ c, 0 <= fc_revision c) m → 0 <= weight m.
Proof.
  intros Hall. unfold weight.
  assert (∀ kc, kc ∈ map_to_list m → 0 <= fc_revision kc.2) as Hin by (intros [k c] Hc%elem_of_map_to_list; by apply (Hall k c)).
  revert Hin. induction (map_to_list m) as [|kc l IH]; intros Hin; cbn; [lia|].
  pose proof (Hin kc ltac:(left)). specialize (IH (λ x Hx, Hin x (list_elem_of_further _ _ _ Hx))). lia.
Qed.

(** Every row of one table is in another, the same or at a larger revision. *)
Definition table_evolves (m m' : gmap string FleetColumns) : Prop :=
  ∀ k c, m !! k = Some c → ∃ c', m' !! k = Some c' ∧ (c' = c ∨ fc_revision c < fc_revision c').

Lemma weight_evolves m m' :
  table_evolves m m' → map_Forall (λ _ c, 0 <= fc_revision c) m' → weight m <= weight m' ∧ (weight m = weight m' → m = m').
Proof.
  revert m'. induction m as [|k c m Hk IH] using map_ind; intros m' Hev Hpos.
  - split; [by apply weight_nonneg|]. destruct m' as [|k c m' Hk _] using map_ind; [done|]. rewrite weight_insert by done.
    apply map_Forall_insert in Hpos as [Hc Hpos]; [|done]. pose proof (weight_nonneg m' Hpos). change (weight ∅) with 0. cbn in Hc. lia.
  - destruct (Hev k c (lookup_insert_eq _ _ _)) as (c' & Hc' & Hcc).
    assert (table_evolves m (delete k m')) as Hev'.
    { intros k1 c1 Hc1. destruct (decide (k1 = k)) as [->|Hne]; [congruence|].
      destruct (Hev k1 c1) as (c2 & Hc2 & H2); [by rewrite lookup_insert_ne|]. exists c2. by rewrite lookup_delete_ne. }
    destruct (IH (delete k m') Hev') as [Hle Heq]; [by apply map_Forall_delete|].
    rewrite weight_insert by done. rewrite <-(insert_id m' k c' Hc'), <-insert_delete_eq, weight_insert by apply lookup_delete_eq.
    split; [destruct Hcc as [->|]; lia|]. intros Hw. destruct Hcc as [->|]; [|lia]. f_equal. apply Heq. lia.
Qed.

Lemma sat_sum_exact (rows : list FleetWorkloadRow) a :
  (∀ row, row ∈ rows → 0 <= w_revision row) →
  foldl (λ sum row, sat_add u64_max sum (w_revision row)) a rows < u64_max →
  foldl (λ sum row, sat_add u64_max sum (w_revision row)) a rows = a + sum_with w_revision rows.
Proof.
  revert a. induction rows as [|row rows IH]; intros a Hpos Hlt; cbn in *; [lia|].
  assert (∀ r, r ∈ rows → 0 <= w_revision r) as Hpos' by (intros r Hr; apply Hpos; by right).
  rewrite IH in Hlt |- * by done. unfold sat_add in *. assert (0 <= sum_with w_revision rows).
  { clear -Hpos'. induction rows as [|r rows IH]; cbn; [lia|]. pose proof (Hpos' r ltac:(left)).
    specialize (IH (λ x Hx, Hpos' x (list_elem_of_further _ _ _ Hx))). lia. }
  lia.
Qed.

Lemma collect_weights l rows :
  collect row_to_fleet l = Ok rows →
  len rows + sum_with w_revision rows = sum_with (λ kc, 1 + fc_revision kc.2) l ∧ ∀ kc, kc ∈ l → 0 <= fc_revision kc.2.
Proof.
  revert rows. induction l as [|[k c] l IH]; intros rows; cbn [collect]; [intros [= <-]; split; [done|by intros ? ?%elem_of_nil]|].
  intros (row & Hr & (rest & Hrest & [= <-])%bind_Ok)%bind_Ok. destruct (IH rest Hrest) as [Hsum Hpos].
  apply row_to_fleet_Ok in Hr as (_ & Hrev & Hc & _). split.
  - unfold len in *. cbn. rewrite Hrev. lia.
  - intros kc [->|Hin]%elem_of_cons; [done|by apply Hpos].
Qed.

Lemma inventory_weight s rows :
  list_fleet_workloads s = Ok rows →
  map_Forall (λ _ c, 0 <= fc_revision c) (fleet_workloads s) ∧
  (inventory_revision rows < u64_max → inventory_revision rows = weight (fleet_workloads s)).
Proof.
  unfold list_fleet_workloads. intros Hl. destruct (collect_weights _ _ Hl) as [Hsum Hpos].
  match type of Hl with collect _ ?l = _ =>
    assert (l ≡ₚ map_to_list (fleet_workloads s)) as Hperm by (by rewrite merge_sort_Permutation, scan_perm) end.
  split.
  - intros k c Hc. apply (Hpos (k, c)). by rewrite Hperm, elem_of_map_to_list.
  - intros Hlt. unfold inventory_revision in *. rewrite sat_sum_exact; [|..|done].
    + rewrite Hsum. unfold weight. by apply sum_with_perm.
    + intros row Hin. destruct (proj1 (collect_elem _ _ _ _ Hl) Hin) as ([k c] & Hkc & Hr).
      apply row_to_fleet_Ok in Hr as (_ & -> & Hc & _). done.
Qed.

(** a plan is reconciled only against the inventory it was made from.  If
    the inventory had the reviewed revision when it was read and the plan is
    accepted later, then no workload was added or changed in between, as long
    as the sum of the revisions does not saturate. *)
Theorem accepted_plan_is_current w0 w w' now op ops q rows app r :
  fleet_start w0 → rtc fleet_step w0 w → rtc fleet_step w w' →
  list_fleet_workloads (fl_store w) = Ok rows → rq_before_revision q = inventory_revision rows → inventory_revision rows < u64_max →
  reconcile_fleet now op {| fa_store := Some (fl_store w'); fa_ops := ops |} q = (app, r) → rp_status r = OK →
  fleet_workloads (fl_store w') = fleet_workloads (fl_store w).
Proof using parses.
  intros H0 Hr Hr' Hl Hq Hlt Hrec Hok. unfold reconcile_fleet in Hrec. cbn [fa_store] in Hrec.
  destruct (rq_child_ids q); [by simplify_eq|].
  destruct (list_fleet_workloads (fl_store w')) as [rows'|] eqn:Hl'; [|by simplify_eq]. cbv zeta in Hrec.
  destruct (reconciliation_revision_is_stale _ _) eqn:Hst; [by simplify_eq|]. clear Hrec Hok.
  apply negb_false_iff, Z.eqb_eq in Hst. rewrite Hq in Hst.
  destruct (inventory_weight _ _ Hl) as [Hpos Hw], (inventory_weight _ _ Hl') as [Hpos' Hw'].
  specialize (Hw Hlt). rewrite Hst in Hlt. specialize (Hw' Hlt). symmetry.
  apply weight_evolves; [|done|congruence]. intros k c Hc.
  destruct (fleet_steps_evolve w w' k c (fleet_reachable_inv w0 w H0 Hr) Hr' Hc) as (c' & Hc' & [_ _ _ _ Hrev]). exists c'.
  split; [done|]. destruct Hrev as [->|Hrev]; [by left|right]. rewrite !as_u64_nonneg in Hrev; [done|by apply (Hpos' k c')|by apply (Hpos k c)].
Qed.

(** *** Observations and refreshes *)

Lemma as_i64_small n : n <= i64_max → as_i64 n = n.
Proof. unfold as_i64. intros Hn. by rewrite (proj2 (Z.ltb_ge _ _)). Qed.

Lemma next_revision_small n : 0 <= n < i64_max → next_revision n = n + 1.
Proof. unfold next_revision, wrap_add, i64_max, u64_max. intros. apply Z.mod_small. lia. Qed.

(** A write at the stored revision goes through. *)
Lemma observe_current s k c next :
  fleet_workloads s !! k = Some c → 0 <= fc_revision c <= i64_max → fc_revision c < w_revision next →
  observe_fleet_workload s k (fc_revision c) next =
    (s <| fleet_workloads ::= <[k := c <| fc_observed_state := w_observed_state next |> <| fc_revision := as_i64 (w_revision next) |>
         <| fc_last_seen := w_last_seen next |> <| fc_record_json := json_text (w_record_json next) |>
         <| fc_updated_at := w_updated_at next |>]> |>, Ok (ObservationUpdated next)).
Proof.
  intros Hc Hr Hn. unfold observe_fleet_workload. rewrite Hc, as_u64_nonneg, Z.eqb_refl, as_i64_small, Z.eqb_refl by lia. cbn [negb orb].
  by rewrite (proj2 (Z.leb_gt _ _)).
Qed.

Lemma refused_status now s k q x : observe_prepare now s k q = Some (Err x) → rp_status x ≠ OK.
Proof.
  unfold observe_prepare. destruct (validate_status _ _) as [[]|]; [|by intros [= <-]].
  destruct (get_fleet_workload s k) as [[current|]|]; [|by intros [= <-]..]. destruct (_ && _); [by intros [= <-]|].
  destruct (json_u64 _); [|done]. destruct (as_str (json_index _ "observed_state")); [|done].
  destruct (as_str (json_index _ "last_seen")) as [t|]; [|done]. cbn [mbind option_bind]. destruct (parse_time t); [|by intros [= <-]].
  destruct (apply_runtime_identity _ _) as [record|[]]; [|by intros [= <-]..|done]. by destruct (json_index_set _ _ _).
Qed.

(** an accepted observation is applied exactly.  It is answered 200 only
    when the workload was stored at the revision it expects; the workload is
    then stored with the status of the request at the next revision and no
    other row changes.  Any other answer leaves the store as it was. *)
Theorem observation_applied w0 w now k q s r :
  fleet_start w0 → rtc fleet_step w0 w → observe_workload now (fl_store w) k q = (s, Some r) → oq_expected_revision q < i64_max →
  (rp_status r ≠ OK → s = fl_store w) ∧
  (rp_status r = OK →
     ∃ c c' record, fleet_workloads (fl_store w) !! k = Some c ∧ fc_revision c = oq_expected_revision q ∧
       fleet_workloads s = <[k := c']> (fleet_workloads (fl_store w)) ∧ fc_revision c' = oq_expected_revision q + 1 ∧
       json_parse (fc_record_json c') = Some record ∧ json_index record "status" = oq_status q ∧ rp_body r = record).
Proof using parses.
  intros H0 Hr Ho Hlt. destruct (fleet_reachable_inv w0 w H0 Hr) as [Hs _]. unfold observe_workload in Ho.
  destruct (observe_prepare now (fl_store w) k q) as [[[current next]|x]|] eqn:Hp; [|injection Ho as <- <-|done].
  2: { split; [done|]. intros Hok. by destruct (refused_status _ _ _ _ _ Hp). }
  apply observe_prepare_ok in Hp as (Hg & Hrev & Hkn & Hok).
  pose proof (get_good _ _ _ Hs Hg) as Hgood. destruct (Hok Hgood) as (_ & _ & Hst).
  apply get_fleet_Some in Hg as (c & Hc & Hdec). pose proof (row_to_fleet_Ok _ _ _ Hdec) as (_ & _ & Hpos & _).
  unfold observe_commit in Ho. destruct (decide (fc_revision c = oq_expected_revision q)) as [Heq|Hne].
  - rewrite <-Heq in *. rewrite next_revision_small in Hrev by lia.
    rewrite (observe_current _ k c next) in Ho by (try done; lia). injection Ho as <- <-. split; [done|]. intros _.
    eexists c, _, (w_record_json next). split_and!; try done.
    + cbn. rewrite Hrev, as_i64_small by lia. done.
    + apply parses.
  - unfold observe_fleet_workload in Ho. rewrite Hc, as_u64_nonneg, (proj2 (Z.eqb_neq _ _)) in Ho by done. cbn [negb orb] in Ho.
    by injection Ho as <- <-.
Qed.

Lemma map_get_set_opt k k' x m :
  map_get (set_opt k x m) k' = if decide (k' = k) then match x with Some v => Some v | None => map_get m k' end else map_get m k'.
Proof.
  unfold set_opt. destruct x as [v|]; case_decide as Hk; try done.
  - subst. apply map_get_insert_eq.
  - by apply map_get_insert_ne.
Qed.

(** The compared fields do not depend on the revision. *)
Lemma projected_same current next task artifacts k :
  w_workload_kind next = w_workload_kind current → k ≠ "revision" →
  map_get (projected_status next task artifacts) k = map_get (projected_status current task artifacts) k.
Proof.
  intros Hkind Hk. unfold projected_status. rewrite Hkind, !map_get_set_opt.
  set (v := task_view _ _).
  assert (∀ r, map_get (map_collect [("observed_state", JStr (tv_observed v)); ("revision", JNum r);
      ("last_seen", JStr (rfc3339 (projected_last_seen task artifacts))); ("artifacts", JArr (artifact_entries task artifacts))]) k =
    map_get (map_collect [("observed_state", JStr (tv_observed v));
      ("last_seen", JStr (rfc3339 (projected_last_seen task artifacts))); ("artifacts", JArr (artifact_entries task artifacts))]) k) as Hbase.
  { intros r. unfold map_collect. cbn [foldl fst snd].
    destruct (decide (k = "artifacts")) as [->|H1]; [by rewrite !map_get_insert_eq|]. rewrite !(map_get_insert_ne _ "artifacts") by done.
    destruct (decide (k = "last_seen")) as [->|H2]; [by rewrite !map_get_insert_eq|]. rewrite !(map_get_insert_ne _ "last_seen") by done.
    by rewrite map_get_insert_ne. }
  by rewrite !Hbase.
Qed.

Lemma same_projection_self current next task artifacts :
  w_workload_kind next = w_workload_kind current →
  same_projection (JObj (projected_status current task artifacts)) (JObj (projected_status next task artifacts)) = true.
Proof.
  intros Hkind. apply forallb_forall. intros k Hk%list_elem_of_In. apply bool_decide_eq_true. unfold json_index. cbn.
  rewrite (projected_same current next task artifacts k Hkind); [done|]. intros ->. revert Hk. by apply (bool_decide_unpack _).
Qed.

Lemma project_again now now' current task artifacts next :
  good_record (w_record_json current) → project_task_observation now current task artifacts = Some (Some next) →
  project_task_observation now' next task artifacts = Some None.
Proof.
  intros Hg. unfold project_task_observation at 1. case_bool_decide; [done|]. case_match; [done|].
  destruct (index_set_status _ (JObj (projected_status current task artifacts)) Hg (projected_status_no_secret _ _ _))
    as (r1 & -> & Hg1 & _ & Hs1). cbn [mbind option_bind]. intros Hn.
  assert (json_index (w_record_json next) "status" = JObj (projected_status current task artifacts) ∧
    w_workload_kind next = w_workload_kind current) as [Hst Hkind].
  { case_bool_decide; [|by injection Hn as <-]. destruct (head _) as [c|]; [|by injection Hn as <-].
    destruct (index_set2_lineage r1 "command_id" (JStr c) Hg1 eq_refl eq_refl) as (r2 & Hr2 & _ & _ & Hs2). rewrite Hr2 in Hn.
    injection Hn as <-. cbn [w_record_json w_workload_kind]. split; [|done]. etransitivity; [exact Hs2|exact Hs1]. }
  clear Hn. unfold project_task_observation. destruct (bool_decide (w_observed_state next ∈ _)); [done|].
  by rewrite Hst, (same_projection_self current next task artifacts Hkind).
Qed.

Lemma project_none now now' current task artifacts :
  project_task_observation now current task artifacts = Some None → project_task_observation now' current task artifacts = Some None.
Proof.
  unfold project_task_observation. case_bool_decide; [done|]. case_match; [done|].
  destruct (json_index_set _ _ _) as [r|]; [|done]. cbn [mbind option_bind]. by destruct (if bool_decide _ then _ else _).
Qed.

Lemma pointer_task_id record x : pointer record "/lineage/task_id" ≫= as_str = Some x ↔ lineage_str record "task_id" = Some x.
Proof.
  change (pointer record "/lineage/task_id") with (json_get record "lineage" ≫= λ l, json_get l "task_id").
  unfold lineage_str, json_index. destruct (json_get record "lineage") as [l|]; [|done]. cbn. by destruct (json_get l "task_id").
Qed.

(** refreshing settles.  Refreshing a stored workload from its task leaves
    it stored as it is answered, and refreshing it again, with the task
    unchanged, writes nothing. *)
Theorem refresh_settles w0 w now now' k current s row :
  fleet_start w0 → rtc fleet_step w0 w → get_fleet_workload (fl_store w) k = Ok (Some current) → w_revision current < i64_max →
  refresh_from_task_store now (fl_store w) current = (s, Some row) →
  get_fleet_workload s k = Ok (Some row) ∧ refresh_from_task_store now' s row = (s, Some row).
Proof using parses.
  intros H0 Hr Hg Hlt Href. destruct (fleet_reachable_inv w0 w H0 Hr) as [Hs _]. pose proof (get_good _ _ _ Hs Hg) as Hgood.
  unfold refresh_from_task_store in Href. destruct (refresh_prepare now _ _ current) as [[next|]|] eqn:Hp; [| |done].
  2: { injection Href as <- <-. split; [done|]. unfold refresh_from_task_store. revert Hp. unfold refresh_prepare.
       destruct (_ ≫= as_str) as [id|]; [|done]. destruct (get_task _ id) as [[task|]|]; [|done..]. intros Hp. by rewrite (project_none now now' _ _ _ Hp). }
  destruct (refresh_ok _ _ _ _ _ Hgood Hp) as (Hgn & Hkeep & Hrev & Hkid).
  destruct (get_fleet_Some _ _ _ Hg) as (c & Hc & Hdec).
  pose proof (row_to_fleet_Ok _ _ _ Hdec) as (Hk & Hcr & Hpos & _ & D1 & D2 & D3 & D4 & D5 & _ & _ & D8 & _).
  unfold refresh_commit in Href. rewrite Hk, Hcr in Href. rewrite Hcr in Hlt. rewrite Hcr, next_revision_small in Hrev by lia.
  rewrite (observe_current _ k c next) in Href by (try done; lia). injection Href as <- <-.
  assert (∃ task artifacts, refresh_prepare now (fl_store w) (fl_store w) current = project_task_observation now current task artifacts ∧
    refresh_prepare now' (fl_store w) (fl_store w) next = project_task_observation now' next task artifacts) as (task & artifacts & P1 & P2).
  { unfold refresh_prepare in Hp |- *. destruct (pointer (w_record_json current) _ ≫= as_str) as [id|] eqn:Hid; [|done].
    apply pointer_task_id in Hid. apply Hkeep in Hid; [|by apply (bool_decide_unpack _)]. apply pointer_task_id in Hid. rewrite Hid.
    destruct (get_task _ id) as [[task|]|]; [|done..]. by eexists _, _. }
  assert (w_idempotency_key next = w_idempotency_key current ∧ w_request_hash next = w_request_hash current ∧
    w_target_id next = w_target_id current ∧ w_executor_id next = w_executor_id current ∧ w_workload_kind next = w_workload_kind current ∧
    w_created_at next = w_created_at current) as (N1 & N2 & N3 & N4 & N5 & N6).
  { rewrite Hp in P1. symmetry in P1. unfold project_task_observation in P1. case_bool_decide; [done|]. case_match; [done|]. by simplify_option_eq. }
  split.
  - unfold get_fleet_workload, decode_opt. cbn. rewrite lookup_insert_eq. unfold row_to_fleet. cbn.
    rewrite as_i64_small, (proj2 (Z.ltb_ge _ _)) by lia. unfold parse_json. rewrite parses. cbn.
    rewrite <-D1, <-D2, <-D3, <-D4, <-D5, <-D8, <-N1, <-N2, <-N3, <-N4, <-N5, <-N6, <-Hk, <-Hkid. by destruct next.
  - unfold refresh_from_task_store. change (refresh_prepare now' _ _ next) with (refresh_prepare now' (fl_store w) (fl_store w) next).
    rewrite P2. rewrite Hp in P1. by rewrite (project_again now now' _ _ _ _ Hgood (eq_sym P1)).
Qed.

End records.

Section pipelining.
Context {E : Env} {Scan : TableScan} {TT : TimeText}.

Lemma set_status_lineage record x record' f : json_index_set record "status" x = Some record' → lineage_str record' f = lineage_str record f.
Proof.
  destruct record as [| | | | |m]; try done; intros [= <-]; [done|]. unfold lineage_str, json_index. cbn. by rewrite map_get_insert_ne.
Qed.

Lemma prepare_without_identity now s k q current next f :
  observe_prepare now s k q = Some (Ok (current, next)) → oq_runtime_identity q = None →
  lineage_str (w_record_json next) f = lineage_str (w_record_json current) f.
Proof.
  unfold observe_prepare. destruct (validate_status _ _) as [[]|]; [|done].
  destruct (get_fleet_workload s k) as [[cur|]|]; [|done..]. destruct (_ && _); [done|].
  destruct (json_u64 _); [|done]. destruct (as_str (json_index _ "observed_state")); [|done].
  destruct (as_str (json_index _ "last_seen")) as [t|]; [|done]. cbn [mbind option_bind]. destruct (parse_time t); [|done].
  intros Hp Hq. rewrite Hq in Hp. cbn [apply_runtime_identity] in Hp.
  destruct (json_index_set _ _ _) as [r|] eqn:Hset; [|done]. cbn in Hp. injection Hp as -> <-. cbn [w_record_json].
  by eapply set_status_lineage.
Qed.

(** pipelined observations lose identities.  When a second observation,
    which expects the revision the first one leads to, reads the workload before
    the first one writes it, both are accepted, and the identity the first one
    assigned is gone. *)
Theorem pipelined_observation_drops_identity now s k qa qb current current' na nb f x :
  json_text_parses E →
  observe_prepare now s k qa = Some (Ok (current, na)) → observe_prepare now s k qb = Some (Ok (current', nb)) →
  w_revision current = oq_expected_revision qa → oq_expected_revision qb = oq_expected_revision qa + 1 →
  oq_expected_revision qb < i64_max → lineage_str (w_record_json current) f = None → lineage_str (w_record_json na) f = Some x →
  oq_runtime_identity qb = None →
  let '(s1, ra) := observe_commit s k (oq_expected_revision qa) na in
  let '(s2, rb) := observe_commit s1 k (oq_expected_revision qb) nb in
  rp_status ra = OK ∧ lineage_str (rp_body ra) f = Some x ∧ rp_status rb = OK ∧
  ∃ c record, fleet_workloads s2 !! k = Some c ∧ json_parse (fc_record_json c) = Some record ∧ lineage_str record f = None.
Proof.
  intros parses Ha Hb Hexp Hnext Hlt Hnone Hset Hid. pose proof (prepare_without_identity _ _ _ _ _ _ f Hb Hid) as Hlb.
  apply observe_prepare_ok in Ha as (Hg & Hra & _ & _), Hb as (Hg' & Hrb & _ & _). rewrite Hg in Hg'. injection Hg' as <-.
  apply get_fleet_Some in Hg as (c & Hc & Hd). apply row_to_fleet_Ok in Hd as (_ & Hcr & Hpos & _).
  assert (oq_expected_revision qa = fc_revision c) as Heq by congruence. rewrite Heq in *. rewrite next_revision_small in Hra by lia.
  rewrite Hnext, next_revision_small in Hrb by lia.
  unfold observe_commit at 1. rewrite (observe_current s k c na) by (try done; lia).
  set (c1 := c <| fc_observed_state := w_observed_state na |> <| fc_revision := as_i64 (w_revision na) |>
    <| fc_last_seen := w_last_seen na |> <| fc_record_json := json_text (w_record_json na) |> <| fc_updated_at := w_updated_at na |>).
  assert (fc_revision c1 = fc_revision c + 1) as Hc1 by (cbn; rewrite Hra; apply as_i64_small; lia).
  unfold observe_commit. rewrite Hnext, <-Hc1, (observe_current _ k c1 nb); [|apply lookup_insert_eq|lia|lia].
  split_and!; try done. eexists _, (w_record_json nb). split; [apply lookup_insert_eq|]. split; [apply parses|]. congruence.
Qed.

End pipelining.

(** ** Examples *)

#[local] Existing Instance sample_env.
#[local] Existing Instance sample_scan.
#[local] Instance sample_times : TimeText := {| parse_time s := Some (Z.of_nat (String.length s)) |}.

Definition workload_record (last_seen : string) : json :=
  json_obj [("document_type", JStr "workload"); ("api_version", JStr API_VERSION); ("kind", JStr "one-shot-command");
    ("lineage", json_obj [("orchestrator_id", JStr "o"); ("mission_id", JStr "m"); ("dispatch_id", JStr "d");
       ("idempotency_key", JStr "i"); ("child_id", JStr "w-1"); ("target_id", JStr "t"); ("executor_id", JStr "e");
       ("runtime_id", JStr "r")]);
    ("spec", json_obj [("desired_state", JStr "running"); ("capabilities", JArr []); ("policy", json_obj []); ("budgets", json_obj [])]);
    ("status", json_obj [("observed_state", JStr "pending"); ("revision", JNum 0); ("last_seen", JStr last_seen);
       ("artifacts", JArr [])])].

Definition running_report (revision : Z) (task : option string) : ObservationRequest :=
  {| oq_expected_revision := revision - 1;
     oq_status := json_obj [("observed_state", JStr "running"); ("revision", JNum revision); ("last_seen", JStr "now");
       ("artifacts", JArr [])];
     oq_runtime_identity := (λ t, {| ri_session_id := None; ri_task_id := Some t; ri_command_id := None |}) <$> task |}.

Definition fleet_0 : FleetWorld := {| fl_store := open_in_memory; fl_writes := [] |}.
Definition admitted : TaskStore * option Reply := dispatch 10 open_in_memory (workload_record "then").
Definition fleet_1 : FleetWorld := {| fl_store := admitted.1; fl_writes := [] |}.
Definition prepared (q : ObservationRequest) : FleetWorkloadRow * FleetWorkloadRow :=
  match observe_prepare 20 admitted.1 "w-1" q with
  | Some (Ok p) => p
  | _ => (sample_workload 1 "none", sample_workload 1 "none")
  end.
Definition pending_1 : PendingWrite :=
  {| pw_read := (prepared (running_report 2 (Some "t-1"))).1; pw_expected := 1; pw_next := (prepared (running_report 2 (Some "t-1"))).2 |}.
Definition fleet_2 : FleetWorld := {| fl_store := admitted.1; fl_writes := [pending_1] |}.
Definition fleet_3 : FleetWorld :=
  {| fl_store := (observe_fleet_workload admitted.1 (w_child_id (pw_read pending_1)) 1 (pw_next pending_1)).1; fl_writes := [] |}.

Lemma fleet_0_start : fleet_start fleet_0.
Proof. done. Qed.
Lemma prepared_1 : observe_prepare 20 admitted.1 "w-1" (running_report 2 (Some "t-1")) = Some (Ok (prepared (running_report 2 (Some "t-1")))).
Proof. vm_compute. reflexivity. Qed.
Lemma prepared_2 : observe_prepare 20 admitted.1 "w-1" (running_report 3 None) = Some (Ok (prepared (running_report 3 None))).
Proof. vm_compute. reflexivity. Qed.

Lemma step_01 : fleet_step fleet_0 fleet_1.
Proof. exact (fl_dispatch 10 fleet_0 (workload_record "then")). Qed.
Lemma step_12 : fleet_step fleet_1 fleet_2.
Proof.
  apply (fl_observe 20 fleet_1 "w-1" (running_report 2 (Some "t-1")) (pw_read pending_1) (pw_next pending_1)).
  etransitivity; [exact prepared_1|]. cbn [pending_1 pw_read pw_next]. by destruct (prepared _).
Qed.
Lemma step_23 : fleet_step fleet_2 fleet_3.
Proof. exact (fl_write fleet_2 pending_1 [] [] eq_refl). Qed.
Lemma steady_01 : steady fleet_0 fleet_1.
Proof. split; [exact step_01|constructor]. Qed.
Lemma steady_12 : steady fleet_1 fleet_2.
Proof. split; [exact step_12|]. repeat constructor. Qed.
Lemma steady_23 : steady fleet_2 fleet_3.
Proof. split; [exact step_23|constructor]. Qed.

Definition stored_in (w : FleetWorld) : FleetColumns :=
  default (fleet_columns (sample_workload 1 "none")) (fleet_workloads (fl_store w) !! "w-1").
Definition record_in (w : FleetWorld) : json := default JNull (json_parse (fc_record_json (stored_in w))).

Lemma stored_in_1 : fleet_workloads (fl_store fleet_1) !! "w-1" = Some (stored_in fleet_1).
Proof. vm_compute. reflexivity. Qed.
Lemma record_in_1 : json_parse (fc_record_json (stored_in fleet_1)) = Some (record_in fleet_1).
Proof. vm_compute. reflexivity. Qed.
Lemma stored_in_3 : fleet_workloads (fl_store fleet_3) !! "w-1" = Some (stored_in fleet_3).
Proof. vm_compute. reflexivity. Qed.
Lemma record_in_3 : json_parse (fc_record_json (stored_in fleet_3)) = Some (record_in fleet_3).
Proof. vm_compute. reflexivity. Qed.

Lemma kind_in_record : key_in "kind" (record_in fleet_1).
Proof.
  assert (∃ m, record_in fleet_1 = JObj m ∧ ("kind", JStr "one-shot-command") ∈ m) as (m & -> & Hin); [|by eapply ki_here].
  eexists. split; [vm_compute; reflexivity|]. do 2 right. left.
Qed.

Lemma stored_workloads_carry_no_secrets_witness : forbidden_key "kind" = false.
Proof.
  exact (stored_workloads_carry_no_secrets sample_env_text_parses fleet_0 fleet_1 "w-1" (stored_in fleet_1) (record_in fleet_1) "kind"
    fleet_0_start (rtc_once _ _ step_01) stored_in_1 record_in_1 kind_in_record).
Defined.

Lemma fleet_handlers_never_panic_witness :
  is_Some (fleet_route 30 "op" Inventory {| fa_store := Some (fl_store fleet_1); fa_ops := None |}).2.
Proof. exact (fleet_handlers_never_panic sample_env_text_parses fleet_0 fleet_1 30 "op" Inventory None fleet_0_start (rtc_once _ _ step_01)). Defined.

Definition fleet_4 : FleetWorld := fleet_3 <| fl_store := (dispatch 40 (fl_store fleet_3) (workload_record "later")).1 |>.
Lemma steady_34 : steady fleet_3 fleet_4.
Proof. split; [exact (fl_dispatch 40 fleet_3 (workload_record "later"))|constructor]. Qed.
Lemma task_in_3 : lineage_str (record_in fleet_3) "task_id" = Some "t-1".
Proof. vm_compute. reflexivity. Qed.

Lemma assigned_identity_kept_witness :
  ∃ c record, fleet_workloads (fl_store fleet_4) !! "w-1" = Some c ∧
    json_parse (fc_record_json c) = Some record ∧ lineage_str record "task_id" = Some "t-1".
Proof.
  exact (assigned_identity_kept sample_env_text_parses fleet_0 fleet_3 fleet_4 "w-1" (stored_in fleet_3) (record_in fleet_3)
    "task_id" "t-1" fleet_0_start (rtc_l _ _ _ _ steady_01 (rtc_l _ _ _ _ steady_12 (rtc_once _ _ steady_23))) (rtc_once _ _ steady_34)
    stored_in_3 record_in_3 (list_elem_of_further _ _ _ (list_elem_of_here _ _)) task_in_3).
Defined.

Lemma admitted_accepted : match admitted.2 with Some r => rp_status r | None => 0 end = ACCEPTED.
Proof. vm_compute. reflexivity. Qed.

Lemma dispatch_retry_replayed_witness :
  ∃ k c, lineage_str (workload_record "then") "child_id" = Some k ∧ fleet_workloads (fl_store fleet_1) !! k = Some c.
Proof.
  destruct (dispatch 10 (fl_store fleet_0) (workload_record "then")) as [s [r|]] eqn:Hd; [|vm_compute in Hd; discriminate Hd].
  assert (rp_status r = ACCEPTED) as Hr by (pose proof admitted_accepted as Ha; unfold admitted in Ha; cbn [fl_store fleet_0] in Hd; rewrite Hd in Ha; exact Ha).
  assert (s = admitted.1) as -> by (unfold admitted; cbn [fl_store fleet_0] in Hd; rewrite Hd; reflexivity).
  destruct (dispatch_retry_replayed sample_env_text_parses fleet_0 fleet_0 10 admitted.1 r fleet_1 50 (workload_record "then") (workload_record "later")
    fleet_0_start (rtc_refl _ _) Hd Hr (rtc_refl _ _) ltac:(vm_compute; reflexivity) ltac:(vm_compute; reflexivity)) as (k & c & Hk & Hc & _).
  exact (ex_intro _ k (ex_intro _ c (conj Hk Hc))).
Defined.

Definition listed_1 : list FleetWorkloadRow := match list_fleet_workloads (fl_store fleet_1) with Ok rows => rows | Err _ => [] end.
Definition plan_1 : ReconcileRequest := {| rq_before_revision := 2; rq_child_ids := ["w-1"] |}.

Lemma accepted_plan_is_current_witness :
  fleet_workloads (fl_store fleet_2) = fleet_workloads (fl_store fleet_1).
Proof.
  destruct (reconcile_fleet 60 "op" {| fa_store := Some (fl_store fleet_2); fa_ops := Some ∅ |} plan_1) as [app r] eqn:Hrec.
  apply (accepted_plan_is_current sample_env_text_parses fleet_0 fleet_1 fleet_2 60 "op" (Some ∅) plan_1 listed_1 app r fleet_0_start
    (rtc_once _ _ step_01) (rtc_once _ _ step_12)).
  - vm_compute. reflexivity.
  - vm_compute. reflexivity.
  - vm_compute. reflexivity.
  - exact Hrec.
  - change r with (app, r).2. rewrite <-Hrec. vm_compute. reflexivity.
Defined.

Lemma observation_applied_witness :
  ∃ c, fleet_workloads (observe_workload 20 (fl_store fleet_1) "w-1" (running_report 2 None)).1 !! "w-1" = Some c ∧ fc_revision c = 2.
Proof.
  destruct (observe_workload 20 (fl_store fleet_1) "w-1" (running_report 2 None)) as [s [r|]] eqn:Ho; [|vm_compute in Ho; discriminate Ho].
  assert (rp_status r = OK) as Hok.
  { change (default 0 (rp_status <$> (s, Some r).2) = OK). rewrite <-Ho. vm_compute. reflexivity. }
  destruct (observation_applied sample_env_text_parses fleet_0 fleet_1 20 "w-1" (running_report 2 None) s r fleet_0_start (rtc_once _ _ step_01) Ho
    ltac:(reflexivity)) as [_ Hap]. destruct (Hap Hok) as (c & c' & record & _ & _ & Hs & Hrev & _).
  exists c'. cbn [fst]. rewrite Hs. split; [apply lookup_insert_eq|exact Hrev].
Defined.

Lemma refresh_settles_witness :
  ∃ row s, refresh_from_task_store 30 (fl_store fleet_1) (pw_read pending_1) = (s, Some row) ∧ get_fleet_workload s "w-1" = Ok (Some row).
Proof.
  destruct (refresh_from_task_store 30 (fl_store fleet_1) (pw_read pending_1)) as [s [row|]] eqn:Hr; [|vm_compute in Hr; discriminate Hr].
  destruct (refresh_settles sample_env_text_parses fleet_0 fleet_1 30 31 "w-1" (pw_read pending_1) s row fleet_0_start (rtc_once _ _ step_01)
    ltac:(vm_compute; reflexivity) ltac:(vm_compute; reflexivity) Hr) as [Hg _].
  exact (ex_intro _ row (ex_intro _ s (conj eq_refl Hg))).
Defined.

Definition first : FleetWorkloadRow * FleetWorkloadRow := prepared (running_report 2 (Some "t-1")).
Definition second : FleetWorkloadRow * FleetWorkloadRow := prepared (running_report 3 None).
Lemma first_prepared : observe_prepare 20 admitted.1 "w-1" (running_report 2 (Some "t-1")) = Some (Ok (first.1, first.2)).
Proof. rewrite prepared_1. unfold first. by destruct (prepared _). Qed.
Lemma second_prepared : observe_prepare 20 admitted.1 "w-1" (running_report 3 None) = Some (Ok (second.1, second.2)).
Proof. rewrite prepared_2. unfold second. by destruct (prepared _). Qed.
Lemma first_facts :
  w_revision first.1 = 1 ∧ lineage_str (w_record_json first.1) "task_id" = None ∧ lineage_str (w_record_json first.2) "task_id" = Some "t-1".
Proof. vm_compute. done. Qed.

Lemma pipelined_observation_drops_identity_witness :
  rp_status (observe_commit (observe_commit admitted.1 "w-1" 1 first.2).1 "w-1" 2 second.2).2 = OK.
Proof.
  destruct first_facts as (Hrev & Hnone & Hset).
  pose proof (pipelined_observation_drops_identity 20 admitted.1 "w-1" (running_report 2 (Some "t-1")) (running_report 3 None)
    first.1 second.1 first.2 second.2 "task_id" "t-1" sample_env_text_parses first_prepared second_prepared Hrev eq_refl eq_refl Hnone Hset eq_refl) as H.
  change (oq_expected_revision (running_report 2 (Some "t-1"))) with 1 in H. change (oq_expected_revision (running_report 3 None)) with 2 in H.
  destruct (observe_commit admitted.1 "w-1" 1 first.2) as [s1 ra]. cbn [fst].
  destruct (observe_commit s1 "w-1" 2 second.2) as [s2 rb]. destruct H as (_ & _ & Hok & _). exact Hok.
Defined.
