(* ===== verification/Events.v ===== *)
(** * Events and logs

    Models management/src/http/events.rs, management/src/telemetry/log_buffer.rs
    and the streams of management/src/http/admin_v2.rs that serve them: the hot
    window of events with its archive, the ring of log entries, and the
    snapshots and streams a client resumes by a cursor.

    [add_event] takes its locks one after another, so it is split into the steps
    between them: the id is drawn, the event is put into the window of its
    source, evicted events are written to the archive, each as its text and the
    end of its line, the event is sent to the subscribers.  [event_step] interleaves the steps of any number of
    calls.  The log ring is changed under one lock. *)

From S2P Require Import EffectCallback Prelude Text Json Http.

Local Open Scope string_scope.
Local Open Scope list_scope.
Local Open Scope Z_scope.

(** ** Events *)

Inductive VmEventType : Type :=
| Started | Stopped | Crashed | Shutdown | Rebooted | Suspended | Resumed | Defined | Undefined | PmSuspended
| AgentConnected | AgentDisconnected | AgentRegistered | AgentHeartbeat | CommandStarted | CommandCompleted | PtyCreated
| PtyClosed | SessionQuerySent | SessionReportReceived | SessionReconcileStarted | SessionReconcileComplete | SessionKilled
| SessionPreserved | SessionReconcileFailed | OperatorTokensReloaded | ContainerStarted | ContainerStopped
| ContainerCreated | ContainerRemoved | Unknown.
#[export] Instance VmEventType_eq_dec : EqDecision VmEventType.
Proof. solve_decision. Defined.

(** [Display] *)
Definition event_type_name (t : VmEventType) : string :=
  match t with
  | Started => "vm.started" | Stopped => "vm.stopped" | Crashed => "vm.crashed" | Shutdown => "vm.shutdown"
  | Rebooted => "vm.rebooted" | Suspended => "vm.suspended" | Resumed => "vm.resumed" | Defined => "vm.defined"
  | Undefined => "vm.undefined" | PmSuspended => "vm.pmsuspended" | AgentConnected => "agent.connected"
  | AgentDisconnected => "agent.disconnected" | AgentRegistered => "agent.registered" | AgentHeartbeat => "agent.heartbeat"
  | CommandStarted => "agent.command.started" | CommandCompleted => "agent.command.completed"
  | PtyCreated => "agent.pty.created" | PtyClosed => "agent.pty.closed" | SessionQuerySent => "session.query_sent"
  | SessionReportReceived => "session.report_received" | SessionReconcileStarted => "session.reconcile_started"
  | SessionReconcileComplete => "session.reconcile_complete" | SessionKilled => "session.killed"
  | SessionPreserved => "session.preserved" | SessionReconcileFailed => "session.reconcile_failed"
  | OperatorTokensReloaded => "operator.tokens_reloaded" | ContainerStarted => "container.started"
  | ContainerStopped => "container.stopped" | ContainerCreated => "container.created"
  | ContainerRemoved => "container.removed" | Unknown => "unknown"
  end.

Definition parsed_types : list VmEventType :=
  [Started; Stopped; Crashed; Shutdown; Rebooted; Suspended; Resumed; Defined; Undefined; PmSuspended; AgentConnected;
   AgentDisconnected; AgentRegistered; AgentHeartbeat; CommandStarted; CommandCompleted; PtyCreated; PtyClosed; SessionQuerySent;
   SessionReportReceived; SessionReconcileStarted; SessionReconcileComplete; SessionKilled; SessionPreserved;
   SessionReconcileFailed; ContainerStarted; ContainerStopped; ContainerCreated; ContainerRemoved].

Definition parse_event_type (s : string) : VmEventType :=
  default Unknown (find_first (λ t, bool_decide (event_type_name t = s)) parsed_types).

Record VmEventDetails : Type := {
  vd_reason : option string;
  vd_uptime_seconds : option Z;
  vd_exit_status : option Z;
  vd_ip_address : option string;
  vd_hostname : option string;
  vd_session_id : option string;
  vd_command : option string;
  vd_duration_ms : option Z;
  vd_session_count : option Z;
  vd_keep_count : option Z;
  vd_kill_count : option Z;
  vd_failed_count : option Z;
  vd_report_all : option bool;
  vd_session_ids : option (list string);
}.

Definition no_details : VmEventDetails :=
  {| vd_reason := None; vd_uptime_seconds := None; vd_exit_status := None; vd_ip_address := None; vd_hostname := None;
     vd_session_id := None; vd_command := None; vd_duration_ms := None; vd_session_count := None; vd_keep_count := None;
     vd_kill_count := None; vd_failed_count := None; vd_report_all := None; vd_session_ids := None |}.

Record VmEvent : Type := {
  ev_type : VmEventType;
  ev_vm_name : string;
  ev_timestamp : Z;
  ev_details : VmEventDetails;
  ev_agent_id : option string;
  ev_trace_id : option string;
}.

Record SequencedVmEvent : Type := {
  sq_id : Z;
  sq_event : VmEvent;
}.

Definition MAX_EVENTS_PER_SOURCE : nat := 100.

(** The source of an event: its agent, or its machine. *)
Definition event_source (e : VmEvent) : string := default (ev_vm_name e) (ev_agent_id e).

(** ** The archive *)

(** Lines of a JSONL file: an event, or text that does not parse.  [ar_torn]:
    the last line has no end yet. *)
Record Archive : Type := {
  ar_lines : list (option VmEvent);
  ar_torn : bool;
}.

(** The writes of an append: the text of an event, the end of its line. *)
Inductive ArchiveWrite : Type :=
| WriteText (e : VmEvent)
| WriteEnd.

(** Text after a line that is not ended is part of that line, which no longer
    parses; the end of an ended line is an empty line. *)
Definition archive_write (a : Archive) (w : ArchiveWrite) : Archive :=
  match w with
  | WriteText e =>
      {| ar_lines := if ar_torn a then removelast (ar_lines a) ++ [None] else ar_lines a ++ [Some e]; ar_torn := true |}
  | WriteEnd => {| ar_lines := if ar_torn a then ar_lines a else ar_lines a ++ [None]; ar_torn := false |}
  end.

(** Some of the text of an event. *)
Definition archive_write_part (a : Archive) : Archive :=
  {| ar_lines := (if ar_torn a then removelast (ar_lines a) else ar_lines a) ++ [None]; ar_torn := true |}.

Fixpoint writes (events : list VmEvent) : list ArchiveWrite :=
  match events with
  | [] => []
  | e :: events => WriteText e :: WriteEnd :: writes events
  end.

(** How an append ends: all written, or a failure after [n] writes, with some
    of the next text written or none. *)
Inductive AppendEnd : Type :=
| AppendDone
| AppendFailed (n : nat) (part : bool).

Definition fail_write (a : Archive) (next : list ArchiveWrite) (part : bool) : Archive :=
  match next with WriteText _ :: _ => if part then archive_write_part a else a | _ => a end.

Definition append_many (io : AppendEnd) (a : Archive) (events : list VmEvent) : Archive * bool :=
  match io with
  | AppendDone => (foldl archive_write a (writes events), true)
  | AppendFailed n part => (fail_write (foldl archive_write a (take n (writes events))) (drop n (writes events)) part, false)
  end.

Record EventFilter : Type := {
  ef_since : option Z;
  ef_source : option string;
  ef_event_type : option string;
}.

Definition matches (f : EventFilter) (e : VmEvent) : bool :=
  match ef_since f with Some since => since <? ev_timestamp e | None => true end &&
  match ef_source f with Some s => bool_decide (event_source e = s) | None => true end &&
  match ef_event_type f with Some t => bool_decide (event_type_name (ev_type e) = t) | None => true end.

Definition archive_query (f : EventFilter) (a : Archive) : list VmEvent :=
  List.filter (matches f) (omap id (ar_lines a)).

(** ** The store *)

Record EventStore : Type := {
  es_events : gmap string (list SequencedVmEvent);
  es_archive : option Archive;
  es_total : Z;
  es_evicted : Z;
  es_archived : Z;
  es_failures : Z;
  es_last_id : Z;
  es_sent : list SequencedVmEvent;
}.

Definition empty_store : EventStore :=
  {| es_events := ∅; es_archive := None; es_total := 0; es_evicted := 0; es_archived := 0; es_failures := 0; es_last_id := 0;
     es_sent := [] |}.

Definition set_archive (a : Archive) (s : EventStore) : EventStore := s <| es_archive := Some a |>.

(** The steps of [add_event]. *)
Definition draw_id (s : EventStore) : EventStore * Z := (s <| es_last_id ::= Z.add 1 |>, es_last_id s + 1).

Definition window (s : EventStore) (source : string) : list SequencedVmEvent := default [] (es_events s !! source).

Definition insert_event (s : EventStore) (e : SequencedVmEvent) : EventStore * list SequencedVmEvent :=
  let source := event_source (sq_event e) in
  let all := e :: window s source in
  let evicted := drop MAX_EVENTS_PER_SOURCE all in
  (s <| es_events ::= <[source := take MAX_EVENTS_PER_SOURCE all]> |> <| es_evicted ::= Z.add (len evicted) |>
     <| es_total ::= Z.add 1 |>, evicted).

Definition archive_events (io : AppendEnd) (s : EventStore) (evicted : list SequencedVmEvent) : EventStore :=
  match evicted, es_archive s with
  | _ :: _, Some a =>
      match append_many io a (sq_event <$> evicted) with
      | (a, true) => s <| es_archive := Some a |> <| es_archived ::= Z.add (len evicted) |>
      | (a, false) => s <| es_archive := Some a |> <| es_failures ::= Z.add 1 |>
      end
  | _, _ => s
  end.

Definition send (s : EventStore) (e : SequencedVmEvent) : EventStore := s <| es_sent ::= λ l, l ++ [e] |>.

(** A call on its own. *)
Definition add_event (io : AppendEnd) (s : EventStore) (event : VmEvent) : EventStore :=
  let '(s, id) := draw_id s in
  let e := {| sq_id := id; sq_event := event |} in
  let '(s, evicted) := insert_event s e in
  send (archive_events io s evicted) e.

(** *** Reading *)

Section reading.
Context {It : MapIter}.
Implicit Types (s : EventStore).

(** [events.values().flatten()] *)
Definition all_events s : list SequencedVmEvent := concat ((iter (es_events s)).*2).

Definition id_le (x y : SequencedVmEvent) : Prop := sq_id x <= sq_id y.
#[export] Instance id_le_dec : RelDecision id_le.
Proof. intros x y. unfold id_le. apply _. Defined.
#[export] Instance id_le_total : Total id_le.
Proof. intros x y. unfold id_le. lia. Qed.
#[export] Instance id_le_trans : Transitive id_le.
Proof. intros x y z. unfold id_le. lia. Qed.
Definition id_ge (x y : SequencedVmEvent) : Prop := sq_id y <= sq_id x.
#[export] Instance id_ge_dec : RelDecision id_ge.
Proof. intros x y. unfold id_ge. apply _. Defined.

Definition time_le (x y : VmEvent) : Prop := ev_timestamp x <= ev_timestamp y.
#[export] Instance time_le_dec : RelDecision time_le.
Proof. intros x y. unfold time_le. apply _. Defined.
Definition time_ge (x y : VmEvent) : Prop := ev_timestamp y <= ev_timestamp x.
#[export] Instance time_ge_dec : RelDecision time_ge.
Proof. intros x y. unfold time_ge. apply _. Defined.

Definition get_events_since s (since : Z) : list VmEvent :=
  merge_sort time_le (sq_event <$> List.filter (λ e, since <? ev_timestamp (sq_event e)) (all_events s)).

Definition get_vm_events s (vm_name : string) (limit : nat) : list VmEvent :=
  sq_event <$> take limit (window s vm_name).

Definition get_all_events s (limit : nat) : list VmEvent :=
  take limit (merge_sort time_ge (sq_event <$> all_events s)).

Definition get_all_sequenced_events s (limit : nat) : list SequencedVmEvent :=
  take limit (merge_sort id_ge (all_events s)).

Definition get_sequenced_events_after s (cursor : Z) (limit : nat) : list SequencedVmEvent * bool :=
  let all := merge_sort id_le (all_events s) in
  let gap := match head all with Some e => sat_add u64_max cursor 1 <? sq_id e | None => false end in
  (take limit (List.filter (λ e, cursor <? sq_id e) all), gap).

(** [archive]: the archive that is read, after the hot window; [None] when it
    cannot be read. *)
Definition query_events s (archive : option Archive) (f : EventFilter) (limit : nat) (include_archived : bool) : list VmEvent :=
  let hot := List.filter (matches f) (sq_event <$> all_events s) in
  let archived := if include_archived then from_option (archive_query f) [] archive else [] in
  take limit (merge_sort time_ge (hot ++ archived)).

Record EventStoreMetrics : Type := {
  em_in_memory_count : Z;
  em_source_count : Z;
  em_max_events_per_source : Z;
  em_total_count : Z;
  em_evicted_count : Z;
  em_archived_count : Z;
  em_archive_write_failures : Z;
}.

Definition metrics_snapshot s : EventStoreMetrics :=
  {| em_in_memory_count := sum_with (λ kv, len kv.2) (iter (es_events s)); em_source_count := len (iter (es_events s));
     em_max_events_per_source := Z.of_nat MAX_EVENTS_PER_SOURCE; em_total_count := es_total s; em_evicted_count := es_evicted s;
     em_archived_count := es_archived s; em_archive_write_failures := es_failures s |}.

End reading.

(** *** Receiving *)

Record IncomingVmEvent : Type := {
  ie_event_type : string;
  ie_vm_name : string;
  ie_timestamp : string;
  ie_details : json_map;
  ie_agent_id : option string;
  ie_trace_id : option string;
}.

(** [as_i64] and [as i32] *)
Definition json_i64 (v : json) : option Z :=
  match v with JNum n => if (- (i64_max + 1) <=? n) && (n <=? i64_max) then Some n else None | _ => None end.
Definition as_i32 (n : Z) : Z := (n + 2147483648) `mod` 4294967296 - 2147483648.

(** [parsed]: the time in the event, when it parses. *)
Definition incoming_event (now : Z) (parsed : option Z) (i : IncomingVmEvent) : VmEvent :=
  {| ev_type := parse_event_type (ie_event_type i); ev_vm_name := ie_vm_name i; ev_timestamp := default now parsed;
     ev_details := no_details <| vd_reason := map_get (ie_details i) "reason" ≫= as_str |>
       <| vd_uptime_seconds := map_get (ie_details i) "uptime_seconds" ≫= json_i64 |>
       <| vd_exit_status := as_i32 <$> (map_get (ie_details i) "exit_status" ≫= json_i64) |>;
     ev_agent_id := ie_agent_id i; ev_trace_id := ie_trace_id i |}.

Definition receive_event (io : AppendEnd) (now : Z) (parsed : option Z) (s : EventStore) (i : IncomingVmEvent) : EventStore :=
  add_event io s (incoming_event now parsed i).

Definition libvirt_event (event_type vm_name : string) (timestamp : Z) (reason : option string) (uptime : option Z) : VmEvent :=
  {| ev_type := parse_event_type event_type; ev_vm_name := vm_name; ev_timestamp := timestamp;
     ev_details := no_details <| vd_reason := reason |> <| vd_uptime_seconds := uptime |>;
     ev_agent_id := Some vm_name; ev_trace_id := None |}.

Definition agent_event (now : Z) (t : VmEventType) (agent_id : string) (details : VmEventDetails) : VmEvent :=
  {| ev_type := t; ev_vm_name := agent_id; ev_timestamp := now; ev_details := details; ev_agent_id := Some agent_id;
     ev_trace_id := None |}.

Definition container_event (now : Z) (event_type container : string) : VmEvent :=
  {| ev_type := parse_event_type event_type; ev_vm_name := container; ev_timestamp := now; ev_details := no_details;
     ev_agent_id := Some container; ev_trace_id := None |}.

(** The events of the [emit_] functions. *)
Definition emit_agent_connected now agent_id ip_address : VmEvent :=
  agent_event now AgentConnected agent_id (no_details <| vd_ip_address := Some ip_address |>).
Definition emit_agent_registered now agent_id hostname ip_address : VmEvent :=
  agent_event now AgentRegistered agent_id (no_details <| vd_hostname := Some hostname |> <| vd_ip_address := Some ip_address |>).
Definition emit_agent_disconnected now agent_id reason : VmEvent :=
  agent_event now AgentDisconnected agent_id (no_details <| vd_reason := reason |>).
Definition emit_command_started now agent_id session_id command : VmEvent :=
  agent_event now CommandStarted agent_id (no_details <| vd_session_id := Some session_id |> <| vd_command := Some command |>).
Definition emit_pty_created now agent_id session_id : VmEvent :=
  agent_event now PtyCreated agent_id (no_details <| vd_session_id := Some session_id |>).
Definition emit_session_query_sent now agent_id report_all : VmEvent :=
  agent_event now SessionQuerySent agent_id (no_details <| vd_report_all := Some report_all |>).
Definition emit_session_report_received now agent_id session_count : VmEvent :=
  agent_event now SessionReportReceived agent_id (no_details <| vd_session_count := Some session_count |>).
Definition emit_session_reconcile_started now agent_id keep_count kill_count : VmEvent :=
  agent_event now SessionReconcileStarted agent_id (no_details <| vd_keep_count := Some keep_count |> <| vd_kill_count := Some kill_count |>).
Definition emit_session_reconcile_complete now agent_id kept_count killed_count failed_count : VmEvent :=
  agent_event now SessionReconcileComplete agent_id
    (no_details <| vd_keep_count := Some kept_count |> <| vd_kill_count := Some killed_count |> <| vd_failed_count := Some failed_count |>).
Definition emit_operator_tokens_reloaded now count (success : bool) : VmEvent :=
  agent_event now OperatorTokensReloaded "operator-auth"
    (no_details <| vd_session_count := Some count |> <| vd_reason := Some (if success then "ok" else "error") |>).
Definition emit_session_killed now agent_id session_id : VmEvent :=
  agent_event now SessionKilled agent_id (no_details <| vd_session_id := Some session_id |>).
Definition emit_session_preserved now agent_id session_id : VmEvent :=
  agent_event now SessionPreserved agent_id (no_details <| vd_session_id := Some session_id |>).
Definition emit_session_reconcile_failed now agent_id session_id reason : VmEvent :=
  agent_event now SessionReconcileFailed agent_id (no_details <| vd_session_id := Some session_id |> <| vd_reason := Some reason |>).

(** ** The ring of log entries *)

Record LogEntry : Type := {
  le_id : Z;
  le_timestamp : Z;
  le_level : string;
  le_target : string;
  le_message : string;
}.

Record LogBuffer : Type := {
  lb_entries : list LogEntry;
  lb_capacity : nat;
  lb_last_id : Z;
}.

Definition DEFAULT_CAPACITY : nat := 2000.
Definition empty_log : LogBuffer := {| lb_entries := []; lb_capacity := DEFAULT_CAPACITY; lb_last_id := 0 |}.

Definition push (b : LogBuffer) (e : LogEntry) : LogBuffer :=
  let kept := if bool_decide (length (lb_entries b) = lb_capacity b) then tail (lb_entries b) else lb_entries b in
  b <| lb_last_id := lb_last_id b + 1 |> <| lb_entries := kept ++ [e <| le_id := lb_last_id b + 1 |>] |>.

Definition snapshot (b : LogBuffer) (limit : nat) : list LogEntry := take limit (reverse (lb_entries b)).

Definition snapshot_since (b : LogBuffer) (since : Z) (limit : nat) : list LogEntry :=
  take limit (List.filter (λ e, since <? le_timestamp e) (reverse (lb_entries b))).

Definition snapshot_after (b : LogBuffer) (cursor : Z) (limit : nat) : list LogEntry * bool * Z :=
  let gap := match head (lb_entries b) with Some e => sat_add u64_max cursor 1 <? le_id e | None => false end in
  (take limit (List.filter (λ e, cursor <? le_id e) (lb_entries b)), gap, lb_last_id b).

(** ** Snapshots and streams *)

Section streams.
Context {It : MapIter}.

(** [s.strip_suffix(p)] *)
Definition strip_suffix (s p : string) : option string := str_rev <$> strip_prefix (str_rev s) (str_rev p).

Definition event_cursor (value : string) : option Z :=
  parse_u64 (default value (match strip_prefix value "ev_" with Some v => Some v | None => strip_prefix value "log_" end)).

(** [None]: the cursor is refused. *)
Definition stream_resume_cursor (query_cursor : option string) (headers : HeaderMap) : option (option Z) :=
  match header_value headers "last-event-id" with
  | Some None => None
  | Some (Some value) => Some <$> event_cursor value
  | None => match query_cursor with Some c => Some <$> event_cursor c | None => Some None end
  end.

Definition event_matches_kind (wanted : option string) (e : VmEvent) : bool :=
  match wanted with
  | None => true
  | Some w =>
      match strip_suffix w ".*" with
      | Some prefix => starts_with (event_type_name (ev_type e)) prefix
      | None => bool_decide (event_type_name (ev_type e) = w)
      end
  end.

Record StreamQuery : Type := {
  stq_follow : bool;
  stq_level : option string;
  stq_target : option string;
  stq_kind : option string;
  stq_limit : option nat;
  stq_cursor : option string;
}.

Definition stream_limit (q : StreamQuery) : nat := Nat.min (default 200%nat (stq_limit q)) 5000.

(** What a snapshot answers: the items, the cursor to go on from, whether there
    is a gap. *)
Record Snapshot (A : Type) : Type := {
  sn_items : list A;
  sn_cursor : Z;
  sn_gap : bool;
}.
#[global] Arguments sn_items {_} _.
#[global] Arguments sn_cursor {_} _.
#[global] Arguments sn_gap {_} _.

(** The items are read from [s]; the cursor by a later call, from [s']. *)
Definition events_snapshot (s s' : EventStore) (q : StreamQuery) (cursor : option Z) : Snapshot SequencedVmEvent :=
  let '(all, gap) := match cursor with
    | Some c => get_sequenced_events_after s c (stream_limit q)
    | None => (get_all_sequenced_events s (stream_limit q), false)
    end in
  {| sn_items := List.filter (λ e, event_matches_kind (stq_kind q) (sq_event e)) all; sn_cursor := es_last_id s'; sn_gap := gap |}.

Inductive Frame (A : Type) : Type :=
| FItem (id : Z) (item : A)
| FResync (cursor : Z)
| FLagged (missed : Z)
| FClosed.
#[global] Arguments FItem {_} _ _.
#[global] Arguments FResync {_} _.
#[global] Arguments FLagged {_} _.
#[global] Arguments FClosed {_}.

(** What a subscriber receives. *)
Inductive Received : Type :=
| RItem (e : SequencedVmEvent)
| RLagged (missed : Z)
| RClosed.

Definition event_frames (kind : option string) (l : list SequencedVmEvent) : list (Frame VmEvent) :=
  omap (λ e, if event_matches_kind kind (sq_event e) then Some (FItem (sq_id e) (sq_event e)) else None) l.

Fixpoint live_frames (kind : option string) (l : list Received) : list (Frame VmEvent) :=
  match l with
  | [] => []
  | RItem e :: l => event_frames kind [e] ++ live_frames kind l
  | RLagged n :: l => FLagged n :: live_frames kind l
  | RClosed :: _ => [FClosed]
  end.

(** The stream of a follower: the replay read from the store [s] after it
    subscribed, then what it received. *)
Definition follow_events (s : EventStore) (q : StreamQuery) (cursor : option Z) (received : list Received) : list (Frame VmEvent) :=
  let '(replay, gap) := match cursor with
    | Some c => get_sequenced_events_after s c (stream_limit q)
    | None => ([], false)
    end in
  (if gap then [FResync (default 0 cursor)] else []) ++ event_frames (stq_kind q) replay ++ live_frames (stq_kind q) received.

(** *** [list_events] *)

Record EventQuery : Type := {
  eq_follow : option bool;
  eq_since : option Z;
  eq_source : option string;
  eq_event_type : option string;
  eq_include_archived : bool;
  eq_limit : option nat;
}.

Record EventListResponse : Type := {
  el_events : list VmEvent;
  el_total_count : Z;
  el_last_event_id : Z;
}.

Inductive ListFrame : Type :=
| LEvent (e : VmEvent)
| LLagged (missed : Z).

Inductive ListedEvents : Type :=
| EventList (r : EventListResponse)
| EventSse (frames : list ListFrame).

Definition query_filter (q : EventQuery) : EventFilter :=
  {| ef_since := eq_since q; ef_source := eq_source q; ef_event_type := eq_event_type q |}.

Fixpoint listed_live (f : EventFilter) (l : list Received) : list ListFrame :=
  match l with
  | [] => []
  | RItem e :: l => if matches f (sq_event e) then LEvent (sq_event e) :: listed_live f l else listed_live f l
  | RLagged n :: l => LLagged n :: listed_live f l
  | RClosed :: _ => []
  end.

(** [s], [s1], [s2]: the store at the three calls of a snapshot, [archive] the
    archive the first of them reads; [received]: what
    a follower receives after it subscribed. *)
Definition list_events (s s1 s2 : EventStore) (archive : option Archive) (q : EventQuery) (received : list Received) : ListedEvents :=
  if default false (eq_follow q) then
    let initial := match eq_since q with
      | Some ts => List.filter (matches (query_filter q)) (get_events_since s ts)
      | None => []
      end in
    EventSse ((LEvent <$> initial) ++ listed_live (query_filter q) received)
  else
    EventList {| el_events := query_events s archive (query_filter q) (Nat.min (default 100%nat (eq_limit q)) 5000) (eq_include_archived q);
                 el_total_count := es_total s1; el_last_event_id := es_last_id s2 |}.

Definition log_matches (q : StreamQuery) (e : LogEntry) : bool :=
  match stq_level q with Some l => bool_decide (to_ascii_lowercase (le_level e) = to_ascii_lowercase l) | None => true end &&
  match stq_target q with Some t => contains_str (le_target e) t | None => true end.

Definition logs_snapshot (b : LogBuffer) (q : StreamQuery) (cursor : option Z) : Snapshot LogEntry :=
  let '(entries, gap, latest) := match cursor with
    | Some c => snapshot_after b c (stream_limit q)
    | None => (snapshot b (stream_limit q), false, lb_last_id b)
    end in
  {| sn_items := List.filter (log_matches q) entries; sn_cursor := latest; sn_gap := gap |}.

(** One tick of a follower of the logs. *)
Definition log_tick (q : StreamQuery) (b : LogBuffer) (cursor : Z) : list (Frame LogEntry) * Z :=
  let '(entries, gap, latest) := snapshot_after b cursor 5000 in
  ((if gap then [FResync cursor] else []) ++
     omap (λ e, if log_matches q e then Some (FItem (le_id e) e) else None) entries,
   Z.max (foldl (λ c e, Z.max c (le_id e)) cursor entries) latest).

(** The buffers the ticks find. *)
Fixpoint log_ticks (q : StreamQuery) (bs : list LogBuffer) (cursor : Z) : list (Frame LogEntry) * Z :=
  match bs with
  | [] => ([], cursor)
  | b :: bs =>
      let '(frames, cursor) := log_tick q b cursor in
      let '(rest, cursor) := log_ticks q bs cursor in (frames ++ rest, cursor)
  end.

End streams.

(** ** Interleaved calls *)

(** Where a call of [add_event] is. *)
Inductive AddPc : Type :=
| Drawn (e : SequencedVmEvent)
| Inserted (e : SequencedVmEvent) (evicted : list SequencedVmEvent)
| Appending (e : SequencedVmEvent) (n : Z) (todo : list ArchiveWrite)
| Stored (e : SequencedVmEvent).

(** [ew_log]: the events inserted so far, the newest first. *)
Record EventWorld : Type := {
  ew_store : EventStore;
  ew_adds : list AddPc;
  ew_log : list SequencedVmEvent;
}.

(** What a call does to the archive, between the locks of the store. *)
Inductive append_step (s : EventStore) : AddPc → EventStore → AddPc → Prop :=
| as_nothing e evicted : evicted = [] ∨ es_archive s = None → append_step s (Inserted e evicted) s (Stored e)
| as_open e evicted a : evicted ≠ [] → es_archive s = Some a →
    append_step s (Inserted e evicted) s (Appending e (len evicted) (writes (sq_event <$> evicted)))
| as_write e n x todo a : es_archive s = Some a →
    append_step s (Appending e n (x :: todo)) (set_archive (archive_write a x) s) (Appending e n todo)
| as_done e n : append_step s (Appending e n []) (s <| es_archived ::= Z.add n |>) (Stored e)
| as_failed e n todo part a : es_archive s = Some a →
    append_step s (Appending e n todo) ((set_archive (fail_write a todo part) s) <| es_failures ::= Z.add 1 |>) (Stored e).

Inductive event_step : EventWorld → EventWorld → Prop :=
| es_draw w event s id : draw_id (ew_store w) = (s, id) →
    event_step w (w <| ew_store := s |> <| ew_adds ::= cons (Drawn {| sq_id := id; sq_event := event |}) |>)
| es_insert w before e after s evicted : ew_adds w = before ++ Drawn e :: after → insert_event (ew_store w) e = (s, evicted) →
    event_step w {| ew_store := s; ew_adds := before ++ Inserted e evicted :: after; ew_log := e :: ew_log w |}
| es_append w before p after s p' : ew_adds w = before ++ p :: after → append_step (ew_store w) p s p' →
    event_step w {| ew_store := s; ew_adds := before ++ p' :: after; ew_log := ew_log w |}
| es_send w before e after : ew_adds w = before ++ Stored e :: after →
    event_step w (w <| ew_store := send (ew_store w) e |> <| ew_adds := before ++ after |>).

Definition event_start (archive : option Archive) : EventWorld :=
  {| ew_store := empty_store <| es_archive := archive |>; ew_adds := []; ew_log := [] |}.

Definition of_source (source : string) (l : list SequencedVmEvent) : list SequencedVmEvent :=
  List.filter (λ e, bool_decide (event_source (sq_event e) = source)) l.

Definition drawn_ids (l : list AddPc) : list Z := omap (λ p, match p with Drawn e => Some (sq_id e) | _ => None end) l.

Record event_inv (w : EventWorld) : Prop := {
  ei_window : ∀ source, window (ew_store w) source = take MAX_EVENTS_PER_SOURCE (of_source source (ew_log w));
  ei_ids : NoDup ((sq_id <$> ew_log w) ++ drawn_ids (ew_adds w));
  ei_range : ∀ i, i ∈ (sq_id <$> ew_log w) ++ drawn_ids (ew_adds w) → 0 < i <= es_last_id (ew_store w);
  ei_keys : ∀ source l, es_events (ew_store w) !! source = Some l → l ≠ [];
  ei_total : es_total (ew_store w) = len (ew_log w);
  ei_last : 0 <= es_last_id (ew_store w);
}.

Lemma insert_event_eq s e s' evicted :
  insert_event s e = (s', evicted) →
  es_events s' = <[event_source (sq_event e) := take MAX_EVENTS_PER_SOURCE (e :: window s (event_source (sq_event e)))]> (es_events s) ∧
  evicted = drop MAX_EVENTS_PER_SOURCE (e :: window s (event_source (sq_event e))) ∧ es_archive s' = es_archive s ∧
  es_last_id s' = es_last_id s ∧ es_total s' = 1 + es_total s ∧ es_evicted s' = len evicted + es_evicted s ∧ es_failures s' = es_failures s.
Proof. unfold insert_event. intros [= <- <-]. done. Qed.

Lemma append_step_eq s p s' p' :
  append_step s p s' p' →
  es_events s' = es_events s ∧ es_last_id s' = es_last_id s ∧ es_total s' = es_total s ∧ drawn_ids [p] = [] ∧ drawn_ids [p'] = [].
Proof. by destruct 1. Qed.

Lemma drawn_ids_app l k : drawn_ids (l ++ k) = drawn_ids l ++ drawn_ids k.
Proof. apply omap_app. Qed.

Lemma take_cons_take {A} n (x : A) l : take n (x :: take n l) = take n (x :: l).
Proof. destruct n; [done|]. cbn. f_equal. by rewrite take_take, Nat.min_l by lia. Qed.

Lemma insert_ids_perm before e evicted after (log : list SequencedVmEvent) :
  (sq_id <$> e :: log) ++ drawn_ids (before ++ Inserted e evicted :: after) ≡ₚ
  (sq_id <$> log) ++ drawn_ids (before ++ Drawn e :: after).
Proof.
  rewrite !drawn_ids_app. change (drawn_ids (Inserted e evicted :: after)) with (drawn_ids after).
  change (drawn_ids (Drawn e :: after)) with (sq_id e :: drawn_ids after). cbn [fmap list_fmap]. solve_Permutation.
Qed.

Lemma of_source_cons source e l :
  of_source source (e :: l) = if bool_decide (event_source (sq_event e) = source) then e :: of_source source l else of_source source l.
Proof. unfold of_source. cbn [List.filter]. by case_bool_decide. Qed.

Lemma event_step_inv w w' : event_step w w' → event_inv w → event_inv w'.
Proof.
  intros Hstep [Hwin Hids Hrange Hkeys Htot Hlast]. destruct Hstep as [w event s id Hd|w before e after s evicted Hsplit Hi
    |w before p after s p' Hsplit Ha|w before e after Hsplit].
  - injection Hd as <- <-.
    assert ((sq_id <$> ew_log w) ++ (es_last_id (ew_store w) + 1) :: drawn_ids (ew_adds w) ≡ₚ
      (es_last_id (ew_store w) + 1) :: (sq_id <$> ew_log w) ++ drawn_ids (ew_adds w)) as Hp by solve_Permutation.
    constructor; cbn [ew_store ew_adds ew_log]; try done.
    + change (NoDup ((sq_id <$> ew_log w) ++ (es_last_id (ew_store w) + 1) :: drawn_ids (ew_adds w))). rewrite Hp.
      apply NoDup_cons. split; [|done]. intros Hin%Hrange. lia.
    + intros i. change (i ∈ (sq_id <$> ew_log w) ++ (es_last_id (ew_store w) + 1) :: drawn_ids (ew_adds w) →
        0 < i <= 1 + es_last_id (ew_store w)). rewrite Hp, elem_of_cons. intros [->|Hin%Hrange]; lia.
    + change (0 <= 1 + es_last_id (ew_store w)). lia.
  - apply insert_event_eq in Hi as (Hev & _ & _ & Hid & Ht & _). rewrite Hsplit in *. constructor; cbn [ew_store ew_adds ew_log].
    + intros source. rewrite of_source_cons. unfold window at 1. rewrite Hev. case_bool_decide as Hs.
      * subst source. rewrite lookup_insert_eq. cbn [default]. by rewrite Hwin, take_cons_take.
      * rewrite lookup_insert_ne by done. apply Hwin.
    + by rewrite insert_ids_perm.
    + intros i. rewrite insert_ids_perm, Hid. apply Hrange.
    + intros source l. rewrite Hev, lookup_insert_Some. intros [[_ <-]|[_ Hl]]; [done|by eapply Hkeys].
    + unfold len in *. cbn [length]. lia.
    + lia.
  - apply append_step_eq in Ha as (H1 & H2 & H3 & Hp & Hp'). rewrite Hsplit in *.
    assert (drawn_ids (before ++ p' :: after) = drawn_ids (before ++ p :: after)) as Hd.
    { change (p' :: after) with ([p'] ++ after). change (p :: after) with ([p] ++ after). by rewrite !drawn_ids_app, Hp, Hp'. }
    constructor; cbn [ew_store ew_adds ew_log]; rewrite ?Hd, ?H2, ?H3; try done.
    + intros source. unfold window. rewrite H1. apply Hwin.
    + intros source l. rewrite H1. apply Hkeys.
  - rewrite Hsplit, drawn_ids_app in *. constructor; cbn [ew_store ew_adds ew_log]; try done.
    + change (NoDup ((sq_id <$> ew_log w) ++ drawn_ids (before ++ after))). rewrite drawn_ids_app. exact Hids.
    + intros i. change (i ∈ (sq_id <$> ew_log w) ++ drawn_ids (before ++ after) → 0 < i <= es_last_id (ew_store w)).
      rewrite drawn_ids_app. apply Hrange.
Qed.

Lemma event_reachable_inv a w : rtc event_step (event_start a) w → event_inv w.
Proof.
  intros Hr. eapply (rtc_invariant _ event_inv); [apply event_step_inv|exact Hr|]. constructor; cbn; try done.
  - constructor.
  - by intros i ?%elem_of_nil.
Qed.

Lemma hot_window a w source :
  rtc event_step (event_start a) w → window (ew_store w) source = take MAX_EVENTS_PER_SOURCE (of_source source (ew_log w)).
Proof. intros Hr. apply event_reachable_inv in Hr as []. done. Qed.

(** the hot window is the newest events of each source.  However calls of
    [add_event] are interleaved, the events kept for a source are the latest
    hundred inserted for it, the latest first. *)
Theorem hot_window_refines_log a w source :
  rtc event_step (event_start a) w → window (ew_store w) source = take MAX_EVENTS_PER_SOURCE (of_source source (ew_log w)).
Proof. apply hot_window. Qed.

(** *** Nothing is lost *)

(** The texts a call has still to write. *)
Definition texts (l : list ArchiveWrite) : list VmEvent := omap (λ x, match x with WriteText e => Some e | WriteEnd => None end) l.

Definition held_by (p : AddPc) : list VmEvent :=
  match p with Inserted _ evicted => sq_event <$> evicted | Appending _ _ todo => texts todo | _ => [] end.

Definition held (l : list AddPc) : list VmEvent := l ≫= held_by.

Definition kept (w : EventWorld) (a : Archive) (e : SequencedVmEvent) : Prop :=
  e ∈ window (ew_store w) (event_source (sq_event e)) ∨ sq_event e ∈ held (ew_adds w) ∨ Some (sq_event e) ∈ ar_lines a.

(** The appends under way. *)
Definition appending (l : list AddPc) : list (list ArchiveWrite) := omap (λ p, match p with Appending _ _ todo => Some todo | _ => None end) l.

(** Steps with at most one append under way. *)
Definition exclusive_step (w w' : EventWorld) : Prop := event_step w w' ∧ (length (appending (ew_adds w')) <= 1)%nat.

(** Whether the line being written has its text: the writes left end it first. *)
Definition line_open (l : list (list ArchiveWrite)) : bool := match l with (WriteEnd :: _) :: _ => true | _ => false end.

(** The writes left are those of whole events, after the end of a line or not. *)
Definition well_left (todo : list ArchiveWrite) : Prop := ∃ events, todo = writes events ∨ todo = WriteEnd :: writes events.

Definition archive_inv (w : EventWorld) : Prop :=
  0 <= es_failures (ew_store w) ∧ (length (appending (ew_adds w)) <= 1)%nat ∧ Forall well_left (appending (ew_adds w)) ∧
  (es_failures (ew_store w) = 0 →
     ∃ a, es_archive (ew_store w) = Some a ∧ ar_torn a = line_open (appending (ew_adds w)) ∧ ∀ e, e ∈ ew_log w → kept w a e).

Lemma held_app l k : held (l ++ k) = held l ++ held k.
Proof. apply bind_app. Qed.
Lemma appending_app l k : appending (l ++ k) = appending l ++ appending k.
Proof. apply omap_app. Qed.
Lemma texts_writes events : texts (writes events) = events.
Proof. induction events as [|e events IH]; [done|]. change (e :: texts (writes events) = e :: events). by rewrite IH. Qed.

Lemma elem_of_held_split before p after e : e ∈ held (before ++ p :: after) ↔ e ∈ held_by p ∨ e ∈ held (before ++ after).
Proof. change (p :: after) with ([p] ++ after). rewrite !held_app, !elem_of_app. cbn. rewrite app_nil_r. tauto. Qed.

(** An event put into a window stays there, or is evicted by the call. *)
Lemma insert_kept w before e after s evicted a x :
  ew_adds w = before ++ Drawn e :: after → insert_event (ew_store w) e = (s, evicted) →
  x = e ∨ kept w a x → kept {| ew_store := s; ew_adds := before ++ Inserted e evicted :: after; ew_log := e :: ew_log w |} a x.
Proof.
  intros Hsplit (Hev & Hevicted & _)%insert_event_eq Hx.
  assert (∀ y, y ∈ e :: window (ew_store w) (event_source (sq_event e)) → event_source (sq_event y) = event_source (sq_event e) →
    kept {| ew_store := s; ew_adds := before ++ Inserted e evicted :: after; ew_log := e :: ew_log w |} a y) as Hnew.
  { intros y Hy Hs. unfold kept. cbn [ew_store ew_adds]. rewrite Hs. unfold window at 1. rewrite Hev, lookup_insert_eq. cbn [default].
    rewrite <-(take_drop MAX_EVENTS_PER_SOURCE (e :: _)), elem_of_app, <-Hevicted in Hy. destruct Hy as [Hy|Hy]; [by left|].
    right. left. apply elem_of_held_split. left. by apply list_elem_of_fmap_2. }
  destruct Hx as [->|[Hx|[Hx|Hx]]]; [by apply Hnew; [left|]|..|by right; right].
  - destruct (decide (event_source (sq_event x) = event_source (sq_event e))) as [Hs|Hs].
    + apply Hnew; [|done]. rewrite Hs in Hx. by right.
    + left. cbn [ew_store]. unfold window. by rewrite Hev, lookup_insert_ne by done.
  - right. left. rewrite Hsplit in Hx. apply elem_of_held_split in Hx as [Hx%elem_of_nil|Hx]; [done|]. apply elem_of_held_split. by right.
Qed.

(** What a call did with the archive leaves the events kept, provided it wrote
    or still holds what it held. *)
Lemma append_kept w before p after s p' a a' x :
  ew_adds w = before ++ p :: after → append_step (ew_store w) p s p' → 
  (∀ e, Some e ∈ ar_lines a → Some e ∈ ar_lines a') → (∀ e, e ∈ held_by p → e ∈ held_by p' ∨ Some e ∈ ar_lines a') → kept w a x →
  kept {| ew_store := s; ew_adds := before ++ p' :: after; ew_log := ew_log w |} a' x.
Proof.
  intros Hsplit (Hev & _)%append_step_eq Hlines Hheld [Hx|[Hx|Hx]].
  - left. unfold window. cbn [ew_store]. by rewrite Hev.
  - rewrite Hsplit in Hx. apply elem_of_held_split in Hx as [[Hx|Hx]%Hheld|Hx]; [|by right; right|]; right; left; apply elem_of_held_split; auto.
  - right. right. auto.
Qed.

Lemma appending_split before p after :
  appending (before ++ p :: after) = match p with Appending _ _ todo => appending before ++ todo :: appending after | _ => appending (before ++ after) end.
Proof. rewrite !appending_app. by destruct p. Qed.

Lemma appending_sole before e n todo after :
  (length (appending (before ++ Appending e n todo :: after)) <= 1)%nat → appending before = [] ∧ appending after = [].
Proof. rewrite appending_split, length_app. cbn [length]. destruct (appending before), (appending after); cbn; auto with lia. Qed.

Lemma append_step_archive w before p after s p' :
  let w' := {| ew_store := s; ew_adds := before ++ p' :: after; ew_log := ew_log w |} in
  ew_adds w = before ++ p :: after → append_step (ew_store w) p s p' → (length (appending (ew_adds w')) <= 1)%nat →
  archive_inv w → archive_inv w'.
Proof.
  intros w' Hsplit Hstep Hone (Hpos & Hle & Hleft & Hkept). unfold archive_inv, w' in *. cbn [ew_store ew_adds ew_log] in *.
  rewrite Hsplit in *. pose proof (append_kept w before p after s p') as Hnext. pose proof Hstep as Hs.
  destruct Hstep as [e evicted Hno|e evicted a Hev Ha|e n x todo a Ha|e n|e n todo part a Ha].
  - rewrite appending_split in *. split_and!; [done..|]. intros H0. destruct (Hkept H0) as (a & Ha & Ht & Hk). exists a. split_and!; [done..|].
    intros y Hy%Hk. apply (Hnext a a); [done|done|done| |done]. destruct Hno as [->|]; [|congruence]. by intros z ?%elem_of_nil.
  - destruct (appending_sole _ _ _ _ _ Hone) as [Hb Haf]. rewrite !appending_split, appending_app, Hb, Haf in *. cbn [app] in *.
    split_and!; [done..| |]. { apply Forall_singleton. eexists. by left. }
    intros H0. destruct (Hkept H0) as (a' & Ha' & Ht & Hk). exists a'. split_and!; [done|by destruct evicted|].
    intros y Hy%Hk. apply (Hnext a' a'); [done|done|done| |done]. intros z. cbn [held_by]. rewrite texts_writes. auto.
  - destruct (appending_sole _ _ _ _ _ Hle) as [Hb Haf]. rewrite !appending_split, Hb, Haf in *. cbn [app] in *.
    apply Forall_singleton in Hleft as (events & Hx).
    assert ((∃ e' rest, x = WriteText e' ∧ todo = WriteEnd :: writes rest) ∨ x = WriteEnd ∧ todo = writes events) as Hcase.
    { destruct Hx as [Hx|[= -> ->]]; [|by right]. destruct events as [|e' rest]; [done|]. injection Hx as -> ->. left. by exists e', rest. }
    clear Hx. split_and!; [done..| |].
    { apply Forall_singleton. destruct Hcase as [(e' & rest & -> & ->)|[-> ->]]; eexists; eauto. }
    intros H0. destruct (Hkept H0) as (a' & Ha' & Ht & Hk). rewrite Ha in Ha'. injection Ha' as <-. exists (archive_write a x).
    destruct Hcase as [(e' & rest & -> & ->)|[-> ->]]; cbn [line_open] in Ht; (split_and!; [done| |]).
    + done.
    + intros y Hy%Hk. apply (Hnext a _); [done|done|..|done]; cbn [archive_write ar_lines held_by]; rewrite Ht.
      * intros z Hz. apply elem_of_app. by left.
      * intros z. change (texts (WriteText e' :: WriteEnd :: writes rest)) with (e' :: texts (WriteEnd :: writes rest)).
        rewrite elem_of_cons. intros [->|Hz]; [right|by left]. apply elem_of_app. right. left.
    + by destruct events.
    + intros y Hy%Hk. apply (Hnext a _); [done|done|..|done]; cbn [archive_write ar_lines held_by]; rewrite Ht; auto.
  - destruct (appending_sole _ _ _ _ _ Hle) as [Hb Haf]. rewrite !appending_split, ?appending_app, Hb, Haf in *. cbn [app] in *.
    split_and!; [done..|]. intros H0. destruct (Hkept H0) as (a & Ha & Ht & Hk). exists a. split_and!; [done..|].
    intros y Hy%Hk. apply (Hnext a a); [done|done|done| |done]. by intros z ?%elem_of_nil.
  - destruct (appending_sole _ _ _ _ _ Hle) as [Hb Haf]. rewrite !appending_split, ?appending_app, Hb, Haf in *.
    split_and!; [cbn; lia|done|constructor|]. cbn. intros H0. lia.
Qed.

Lemma exclusive_step_archive w w' : exclusive_step w w' → archive_inv w → archive_inv w'.
Proof.
  intros [Hstep Hone] Hinv. destruct Hstep as [w event s id Hd|w before e after s evicted Hsplit Hi
    |w before p after s p' Hsplit Ha|w before e after Hsplit]; [| |by eapply append_step_archive|]; destruct Hinv as (Hpos & Hle & Hleft & Hkept).
  - injection Hd as <- <-. split_and!; [done..|]. intros H0. destruct (Hkept H0) as (a & Ha & Ht & Hk). exists a. by split_and!.
  - pose proof (insert_event_eq _ _ _ _ Hi) as (_ & _ & Ha & _ & _ & _ & Hf). unfold archive_inv in *. cbn [ew_store ew_adds ew_log] in *.
    rewrite Hf, Ha. rewrite Hsplit, appending_split in *. split_and!; [done..|]. intros H0.
    destruct (Hkept H0) as (a & Harch & Ht & Hk). exists a. split_and!; [done..|]. intros x [->|Hx%Hk]%elem_of_cons; eapply insert_kept; eauto.
  - unfold archive_inv in *.
    change (ew_adds (w <| ew_store := send (ew_store w) e |> <| ew_adds := before ++ after |>)) with (before ++ after) in *.
    rewrite Hsplit, appending_split in *. split_and!; [done..|]. intros H0. destruct (Hkept H0) as (a & Ha & Ht & Hk). exists a.
    split_and!; [done..|]. intros x [Hx|[Hx|Hx]]%Hk; [by left| |by right; right]. right. left. rewrite Hsplit in Hx.
    by apply elem_of_held_split in Hx as [?%elem_of_nil|].
Qed.

(** C17: events are not lost.  With an archive whose last line is ended, while
    no append has failed and no two overlap, each event inserted is in the hot
    window of its source, in the archive, or held by a call that has still to
    write it, however calls are interleaved. *)
Theorem events_not_lost a w e :
  ar_torn a = false → rtc exclusive_step (event_start (Some a)) w → es_failures (ew_store w) = 0 → e ∈ ew_log w →
  ∃ a', es_archive (ew_store w) = Some a' ∧ kept w a' e.
Proof.
  intros Ht Hr H0 He. assert (archive_inv w) as (_ & _ & _ & Hinv).
  { eapply (rtc_invariant _ archive_inv); [apply exclusive_step_archive|exact Hr|]. split_and!; [done|apply Nat.le_0_l|constructor|].
    intros _. exists a. split_and!; [done..|]. by intros x ?%elem_of_nil. }
  destruct (Hinv H0) as (a' & Ha' & _ & Hk). eauto.
Qed.

(** *** A call on its own *)

Lemma sole_append s p s' p' log :
  append_step s p s' p' → event_step {| ew_store := s; ew_adds := [p]; ew_log := log |} {| ew_store := s'; ew_adds := [p']; ew_log := log |}.
Proof. intros Hs. by apply (es_append {| ew_store := s; ew_adds := [p]; ew_log := log |} [] p [] s' p'). Qed.

Lemma writes_run s e n log done_ todo a :
  es_archive s = Some a →
  rtc event_step {| ew_store := s; ew_adds := [Appending e n (done_ ++ todo)]; ew_log := log |}
    {| ew_store := set_archive (foldl archive_write a done_) s; ew_adds := [Appending e n todo]; ew_log := log |}.
Proof.
  revert s a. induction done_ as [|x done_ IH]; intros s a Ha.
  { replace (set_archive (foldl archive_write a []) s) with s; [apply rtc_refl|]. destruct s. cbn in Ha. by rewrite Ha. }
  eapply rtc_l; [by apply sole_append, as_write|].
  apply (IH (set_archive (archive_write a x) s) (archive_write a x) eq_refl).
Qed.

Lemma archive_run io s e evicted log :
  rtc event_step {| ew_store := s; ew_adds := [Inserted e evicted]; ew_log := log |}
    {| ew_store := archive_events io s evicted; ew_adds := [Stored e]; ew_log := log |}.
Proof.
  destruct (decide (evicted = [] ∨ es_archive s = None)) as [Hno|Hyes].
  { replace (archive_events io s evicted) with s; [by apply rtc_once, sole_append, as_nothing|].
    unfold archive_events. destruct Hno as [->|Hno]; [done|]. rewrite Hno. by destruct evicted. }
  assert (evicted ≠ [] ∧ ∃ a, es_archive s = Some a) as (Hev & a & Ha) by (destruct evicted, (es_archive s); naive_solver).
  eapply rtc_l; [by eapply sole_append, as_open|].
  set (ws := writes (sq_event <$> evicted)). unfold archive_events. destruct evicted as [|x evicted]; [done|]. rewrite Ha. destruct io as [|n part].
  - eapply rtc_r; [pose proof (writes_run s e (len (x :: evicted)) log ws [] a Ha) as Hr; rewrite app_nil_r in Hr; exact Hr|].
    apply sole_append, as_done.
  - eapply rtc_r; [pose proof (writes_run s e (len (x :: evicted)) log (take n ws) (drop n ws) a Ha) as Hr; rewrite take_drop in Hr; exact Hr|].
    by apply sole_append, (as_failed (set_archive (foldl archive_write a (take n ws)) s) e _ (drop n ws) part).
Qed.

(** A call that no other one overlaps is [add_event]. *)
Lemma add_event_run io s event log :
  rtc event_step {| ew_store := s; ew_adds := []; ew_log := log |}
    {| ew_store := add_event io s event; ew_adds := []; ew_log := {| sq_id := es_last_id s + 1; sq_event := event |} :: log |}.
Proof.
  set (e := {| sq_id := es_last_id s + 1; sq_event := event |}).
  destruct (insert_event (s <| es_last_id ::= Z.add 1 |>) e) as [s2 evicted] eqn:Hi.
  assert (add_event io s event = send (archive_events io s2 evicted) e) as ->.
  { unfold add_event. cbn [draw_id]. change {| sq_id := es_last_id s + 1; sq_event := event |} with e. by rewrite Hi. }
  eapply rtc_l; [by apply (es_draw _ event)|]. eapply rtc_l; [by apply (es_insert _ [] e [] s2 evicted)|].
  eapply rtc_r; [apply (archive_run io)|].
  by apply (es_send {| ew_store := archive_events io s2 evicted; ew_adds := [Stored e]; ew_log := e :: log |} [] e []).
Qed.

Lemma add_events_run io s events log :
  ∃ log', rtc event_step {| ew_store := s; ew_adds := []; ew_log := log |}
    {| ew_store := foldl (add_event io) s events; ew_adds := []; ew_log := log' ++ log |}.
Proof.
  revert s log. induction events as [|e events IH]; intros s log; [exists []; apply rtc_refl|].
  destruct (IH (add_event io s e) ({| sq_id := es_last_id s + 1; sq_event := e |} :: log)) as [log' Hr]. exists (log' ++ [{| sq_id := es_last_id s + 1; sq_event := e |}]).
  rewrite <-app_assoc. etrans; [apply add_event_run|exact Hr].
Qed.

(** *** Replay *)

(** the type of an event survives its text, but for one: the text of
    [OperatorTokensReloaded] is read back as [Unknown]. *)
Theorem event_type_roundtrip t :
  parse_event_type (event_type_name t) = if bool_decide (t = OperatorTokensReloaded) then Unknown else t.
Proof. by destruct t. Qed.

Lemma elem_of_concat {A} (l : list (list A)) x : x ∈ concat l ↔ ∃ k, x ∈ k ∧ k ∈ l.
Proof. rewrite list_elem_of_In, in_concat. setoid_rewrite list_elem_of_In. firstorder. Qed.

Section replay.
Context {It : MapIter}.

Lemma elem_of_all_events s e : e ∈ all_events s ↔ ∃ source l, es_events s !! source = Some l ∧ e ∈ l.
Proof.
  unfold all_events. rewrite elem_of_concat. split.
  - intros (l & He & ([source l'] & -> & Hin)%list_elem_of_fmap). rewrite iter_perm in Hin. apply elem_of_map_to_list in Hin.
    by exists source, l'.
  - intros (source & l & Hl & He). exists l. split; [done|]. apply list_elem_of_fmap. exists (source, l). split; [done|].
    rewrite iter_perm. by apply elem_of_map_to_list.
Qed.

Lemma elem_of_windows s e : e ∈ all_events s ↔ ∃ source, e ∈ window s source.
Proof.
  rewrite elem_of_all_events. unfold window. split.
  - intros (source & l & Hl & He). exists source. by rewrite Hl.
  - intros (source & He). destruct (es_events s !! source) as [l|] eqn:Hl; [eauto|]. by apply elem_of_nil in He.
Qed.

Lemma elem_of_filter_list {A} (p : A → bool) l x : x ∈ List.filter p l ↔ p x = true ∧ x ∈ l.
Proof. rewrite !list_elem_of_In, filter_In. tauto. Qed.

Lemma sorted_filter {A} (R : relation A) (p : A → bool) l : StronglySorted R l → StronglySorted R (List.filter p l).
Proof.
  induction 1 as [|x l Hl IH Hx]; cbn; [constructor|]. destruct (p x); [|done]. constructor; [done|].
  apply Forall_forall. intros y (_ & Hy)%elem_of_filter_list. by eapply Forall_forall in Hx.
Qed.

Lemma sorted_take {A} (R : relation A) n (l : list A) : StronglySorted R l → StronglySorted R (take n l).
Proof.
  intros Hl. revert n. induction Hl as [|x l Hl IH Hx]; intros [|n]; cbn; try constructor; [done|]. by apply Forall_take.
Qed.

(** The events of the store after a cursor, in the order of their ids. *)
Definition after_cursor (s : EventStore) (cursor : Z) : list SequencedVmEvent :=
  List.filter (λ e, cursor <? sq_id e) (merge_sort id_le (all_events s)).

Lemma elem_of_after_cursor s cursor e : e ∈ after_cursor s cursor ↔ cursor < sq_id e ∧ ∃ source, e ∈ window s source.
Proof. unfold after_cursor. rewrite elem_of_filter_list, merge_sort_Permutation, elem_of_windows, Z.ltb_lt. done. Qed.

(** replay gives the kept events after the cursor, in order.  It answers
    kept events later than the cursor by ascending id, and when it answers
    fewer than its limit, all of them. *)
Theorem replay_exact s cursor limit :
  let replay := (get_sequenced_events_after s cursor limit).1 in
  StronglySorted id_le replay ∧
  (∀ e, e ∈ replay → cursor < sq_id e ∧ ∃ source, e ∈ window s source) ∧
  ((length replay < limit)%nat → ∀ source e, e ∈ window s source → cursor < sq_id e → e ∈ replay).
Proof.
  change (get_sequenced_events_after s cursor limit).1 with (take limit (after_cursor s cursor)). intros replay. unfold replay. split_and!.
  - apply sorted_take, sorted_filter, (StronglySorted_merge_sort id_le).
  - intros e He. apply elem_of_after_cursor. by eapply elem_of_take in He as (? & ?%list_elem_of_lookup_2 & _).
  - rewrite length_take. intros Hl source e He Hc. rewrite take_ge by lia. apply elem_of_after_cursor. eauto.
Qed.

(** a query answers the matching events.  The snapshot of [list_events]
    holds matching events of the hot window, and of the archive when it is asked
    for and can be read; when it holds fewer than its limit, it holds all of them. *)
Theorem query_exact s archive f limit include_archived :
  let answer := query_events s archive f limit include_archived in
  let stored e := (∃ source x, x ∈ window s source ∧ e = sq_event x) ∨
    (include_archived = true ∧ ∃ a, archive = Some a ∧ Some e ∈ ar_lines a) in
  (∀ e, e ∈ answer → matches f e = true ∧ stored e) ∧
  ((length answer < limit)%nat → ∀ e, matches f e = true → stored e → e ∈ answer).
Proof.
  intros answer stored. set (all := List.filter (matches f) (sq_event <$> all_events s) ++
    (if include_archived then from_option (archive_query f) [] archive else [])).
  assert (∀ e, e ∈ all ↔ matches f e = true ∧ stored e) as Hall.
  { intros e. unfold all, stored. rewrite elem_of_app, elem_of_filter_list, list_elem_of_fmap. setoid_rewrite elem_of_windows.
    assert (e ∈ (if include_archived then from_option (archive_query f) [] archive else []) ↔
      matches f e = true ∧ include_archived = true ∧ ∃ a, archive = Some a ∧ Some e ∈ ar_lines a) as ->; [|naive_solver].
    destruct include_archived; [|split; [by intros ?%elem_of_nil|naive_solver]].
    destruct archive as [a|]; cbn [from_option]; [|split; [by intros ?%elem_of_nil|naive_solver]].
    unfold archive_query. rewrite elem_of_filter_list, list_elem_of_omap. naive_solver. }
  change answer with (take limit (merge_sort time_ge all)). split.
  - intros e He. apply Hall. eapply elem_of_take in He as (? & He%list_elem_of_lookup_2 & _). by rewrite merge_sort_Permutation in He.
  - rewrite length_take. intros Hl e Hm Hs. rewrite take_ge by lia. rewrite merge_sort_Permutation. by apply Hall.
Qed.

(** a client that pages by the cursor of a snapshot gets one page.  Whatever
    the limit left out, a snapshot taken from the cursor another one answered
    has only events drawn after it. *)
Theorem snapshot_cursor_skips s later q q' a w cursor :
  rtc event_step (event_start a) w →
  sn_items (events_snapshot (ew_store w) later q' (Some (sn_cursor (events_snapshot s (ew_store w) q cursor)))) = [].
Proof.
  intros Hr. apply event_reachable_inv in Hr as [Hwin _ Hrange _ _ _].
  assert (sn_cursor (events_snapshot s (ew_store w) q cursor) = es_last_id (ew_store w)) as ->.
  { unfold events_snapshot. by destruct cursor. }
  unfold events_snapshot. cbn [sn_items get_sequenced_events_after].
  assert (after_cursor (ew_store w) (es_last_id (ew_store w)) = []) as Hnil.
  { destruct (after_cursor _ _) as [|e l] eqn:Heq; [done|]. exfalso.
    assert (e ∈ after_cursor (ew_store w) (es_last_id (ew_store w))) as He by (rewrite Heq; left).
    apply elem_of_after_cursor in He as (Hlt & source & He). rewrite Hwin in He.
    eapply elem_of_take in He as (i & He%list_elem_of_lookup_2 & _). apply elem_of_filter_list in He as (_ & He).
    assert (0 < sq_id e <= es_last_id (ew_store w)); [|lia]. apply Hrange, elem_of_app. left. by apply list_elem_of_fmap_2. }
  unfold after_cursor in Hnil. unfold get_sequenced_events_after. rewrite Hnil. by rewrite take_nil.
Qed.

End replay.

(** ** The log ring and its followers *)

(** The buffer after the entries of [h] were pushed. *)
Definition log_of (h : list LogEntry) : LogBuffer := foldl push empty_log h.

(** The entries with the ids they are given, the first one [from + 1]. *)
Definition numbered (from : nat) (h : list LogEntry) : list LogEntry := imap (λ i e, e <| le_id := Z.of_nat (from + i) + 1 |>) h.

Lemma numbered_cons from e h : numbered from (e :: h) = e <| le_id := Z.of_nat from + 1 |> :: numbered (S from) h.
Proof.
  unfold numbered. cbn [imap]. rewrite Nat.add_0_r. f_equal. apply imap_ext. intros i x _. unfold compose. by rewrite Nat.add_succ_comm.
Qed.

Lemma numbered_app from h k : numbered from (h ++ k) = numbered from h ++ numbered (from + length h) k.
Proof. unfold numbered. rewrite imap_app. f_equal. apply imap_ext. intros i x _. unfold compose. by rewrite Nat.add_assoc. Qed.

Lemma length_numbered from h : length (numbered from h) = length h.
Proof. apply length_imap. Qed.

Lemma drop_numbered n from h : drop n (numbered from h) = numbered (from + n) (drop n h).
Proof.
  revert n from. induction h as [|e h IH]; intros [|n] from; rewrite ?drop_0, ?Nat.add_0_r; [done..|]. rewrite numbered_cons.
  cbn [drop]. rewrite IH. f_equal. lia.
Qed.

Lemma numbered_ids from h e : e ∈ numbered from h → Z.of_nat from < le_id e <= Z.of_nat (from + length h).
Proof.
  revert from. induction h as [|x h IH]; intros from; [by intros ?%elem_of_nil|]. rewrite numbered_cons, elem_of_cons. cbn [length].
  intros [->|He%IH]; [cbn|]; lia.
Qed.

Lemma filter_numbered n from h : List.filter (λ e, Z.of_nat n <? le_id e) (numbered from h) = drop (n - from) (numbered from h).
Proof.
  revert from. induction h as [|e h IH]; intros from; [by destruct (n - from)%nat|]. rewrite numbered_cons. cbn [List.filter].
  change (le_id (e <| le_id := Z.of_nat from + 1 |>)) with (Z.of_nat from + 1). rewrite IH. destruct (Z.ltb_spec (Z.of_nat n) (Z.of_nat from + 1)).
  - by replace (n - from)%nat with 0%nat by lia; replace (n - S from)%nat with 0%nat by lia.
  - by replace (n - from)%nat with (S (n - S from)) by lia.
Qed.

Lemma log_of_eq h :
  log_of h = {| lb_entries := drop (length h - DEFAULT_CAPACITY) (numbered 0 h); lb_capacity := DEFAULT_CAPACITY; lb_last_id := len h |}.
Proof.
  induction h as [|e h IH] using rev_ind; [done|]. unfold log_of in *. rewrite foldl_app, IH. cbn [foldl]. unfold push.
  cbn [lb_entries lb_capacity lb_last_id]. rewrite length_drop, length_numbered, numbered_app, length_app, Nat.add_0_l. cbn [length].
  assert (0 < DEFAULT_CAPACITY)%nat as Hcap by (apply Nat.ltb_lt; vm_compute; reflexivity). generalize dependent DEFAULT_CAPACITY.
  intros cap _ Hcap.
  assert (len (h ++ [e]) = len h + 1) as -> by (unfold len; rewrite length_app; cbn [length]; lia).
  assert (e <| le_id := len h + 1 |> = e <| le_id := Z.of_nat (length h) + 1 |>) as He by done.
  assert (numbered (length h) [e] = [e <| le_id := len h + 1 |>]) as -> by (by rewrite numbered_cons).
  case_bool_decide as Hl.
  - rewrite (drop_app_le _ _ (length h + 1 - cap)) by (rewrite length_numbered; lia).
    replace (length h + 1 - cap)%nat with (1 + (length h - cap))%nat by lia. rewrite Nat.add_comm, <-drop_drop. by destruct (drop _ (numbered 0 h)).
  - replace (length h + 1 - cap)%nat with 0%nat by lia. by replace (length h - cap)%nat with 0%nat by lia.
Qed.

Definition log_frames (q : StreamQuery) (l : list LogEntry) : list (Frame LogEntry) :=
  omap (λ e, if log_matches q e then Some (FItem (le_id e) e) else None) l.

Lemma foldl_max_ids l c m : c <= m → (∀ e, e ∈ l → le_id e <= m) → foldl (λ c e, Z.max c (le_id e)) c l <= m.
Proof.
  revert c. induction l as [|e l IH]; intros c Hc Hl; [done|]. apply IH; [|intros; apply Hl; by right].
  specialize (Hl e ltac:(left)). lia.
Qed.

(** A tick from a cursor of the ring: the resync frame when entries after the
    cursor have left the ring, then the ones that have not. *)
Lemma log_tick_eq q h b :
  len (h ++ b) <= u64_max →
  log_tick q (log_of (h ++ b)) (len h) =
    ((if (DEFAULT_CAPACITY <? length b)%nat then [FResync (len h)] else []) ++
       log_frames q (drop (length b - DEFAULT_CAPACITY) (numbered (length h) b)), len (h ++ b)).
Proof.
  intros Hmax. unfold log_tick, snapshot_after. rewrite log_of_eq. cbn [lb_entries lb_last_id].
  assert (0 < DEFAULT_CAPACITY ∧ DEFAULT_CAPACITY <= 5000)%nat as Hcap
    by (split; [apply Nat.ltb_lt|apply Nat.leb_le]; vm_compute; reflexivity).
  generalize 5000%nat as limit, DEFAULT_CAPACITY as cap, Hcap. clear Hcap. intros limit cap Hcap.
  rewrite (drop_numbered _ 0), Nat.add_0_l. change (λ e, len h <? le_id e) with (λ e, Z.of_nat (length h) <? le_id e). rewrite filter_numbered, drop_numbered, drop_drop, length_app.
  set (k := (length h + length b - cap)%nat).
  assert (k + (length h - k) = length h + (length b - cap) ∨ length b - cap = 0 ∧ k + (length h - k) = length h)%nat as Hk by (unfold k; lia).
  assert (numbered (k + (length h - k)) (drop (k + (length h - k)) (h ++ b)) = drop (length b - cap) (numbered (length h) b)) as ->.
  { rewrite drop_numbered. replace (k + (length h - k))%nat with (length h + (length b - cap))%nat by lia.
    by rewrite <-drop_drop, drop_app_length. }
  rewrite (take_ge _ limit) by (rewrite length_drop, length_numbered; unfold k in Hk; lia). f_equal.
  - f_equal. assert (match head (numbered k (drop k (h ++ b))) with Some e => sat_add u64_max (len h) 1 <? le_id e | None => false end =
      (cap <? length b)%nat) as ->; [|done].
    destruct (drop k (h ++ b)) as [|e l] eqn:Hd.
    + apply (f_equal length) in Hd. rewrite length_drop, length_app in Hd. cbn in Hd. symmetry. apply Nat.ltb_ge. unfold k in Hd. lia.
    + rewrite numbered_cons. cbn [head]. change (le_id (e <| le_id := Z.of_nat k + 1 |>)) with (Z.of_nat k + 1).
      unfold len in *. rewrite length_app in Hmax. assert (1 <= u64_max) by done. unfold sat_add, k in *.
      destruct (Nat.ltb_spec cap (length b)); [apply Z.ltb_lt|apply Z.ltb_ge]; lia.
  - unfold len. rewrite length_app. apply Z.max_r, foldl_max_ids; [lia|]. intros e He.
    rewrite drop_numbered in He. apply numbered_ids in He. rewrite length_drop in He. lia.
Qed.

(** The buffers at the ticks, [hs] the entries pushed before each of them. *)
Fixpoint tick_buffers (h : list LogEntry) (hs : list (list LogEntry)) : list LogBuffer :=
  match hs with
  | [] => []
  | b :: hs => log_of (h ++ b) :: tick_buffers (h ++ b) hs
  end.

(** a follower of the logs gets each entry once.  While no more entries are
    pushed between two ticks than the ring holds, its frames are the entries
    pushed since it started that match its filter, each once and in order. *)
Theorem log_follow_exact q h hs :
  len (h ++ concat hs) <= u64_max → Forall (λ b, length b <= DEFAULT_CAPACITY)%nat hs →
  log_ticks q (tick_buffers h hs) (len h) = (log_frames q (numbered (length h) (concat hs)), len (h ++ concat hs)).
Proof.
  intros Hmax Hb. revert h Hmax. induction Hb as [|b hs Hb Hhs IH]; intros h Hmax; cbn [tick_buffers log_ticks concat].
  { by rewrite app_nil_r. }
  cbn [concat] in Hmax. rewrite app_assoc in Hmax |- *.
  assert (len (h ++ b) <= u64_max) by (unfold len in *; rewrite !length_app in *; lia).
  rewrite log_tick_eq, IH by done. replace (length b - DEFAULT_CAPACITY)%nat with 0%nat by lia. apply Nat.ltb_ge in Hb. rewrite Hb.
  cbn [app drop]. f_equal. rewrite numbered_app, length_app. symmetry. apply omap_app.
Qed.

(** a gap in the logs is reported.  A tick tells its client to fetch a
    snapshot exactly when more entries were pushed since the last tick than the
    ring holds. *)
Theorem log_gap_exact q h b :
  len (h ++ b) <= u64_max →
  FResync (len h) ∈ (log_tick q (log_of (h ++ b)) (len h)).1 ↔ (DEFAULT_CAPACITY < length b)%nat.
Proof.
  intros Hmax. rewrite log_tick_eq by done. cbn [fst]. rewrite elem_of_app.
  assert (FResync (len h) ∉ log_frames q (drop (length b - DEFAULT_CAPACITY) (numbered (length h) b))) as Hno.
  { intros (e & _ & He)%list_elem_of_omap. by destruct (log_matches q e). }
  destruct (Nat.ltb_spec DEFAULT_CAPACITY (length b)).
  - split; [done|]. left. left.
  - split; [|lia]. by intros [?%elem_of_nil|].
Qed.

(** ** Examples *)

Section examples.
#[local] Existing Instance sample_iter.

Definition event_of (source : string) : VmEvent := agent_event 0 AgentConnected source no_details.
Definition numbered_event (id : Z) (source : string) : SequencedVmEvent := {| sq_id := id; sq_event := event_of source |}.
Definition no_query : StreamQuery :=
  {| stq_follow := false; stq_level := None; stq_target := None; stq_kind := None; stq_limit := None; stq_cursor := None |}.

(** One event of a quiet agent, then 101 of a busy one. *)
Definition uneven_store : EventStore :=
  foldl (add_event AppendDone) empty_store (event_of "quiet" :: replicate 101 (event_of "busy")).

(** a lost event is not reported as a gap.  Events are evicted by source,
    but the gap is computed from the oldest id of all sources: with one old
    event of a quiet source kept, a client that resumes after it is told there
    is no gap, though the next event has been evicted. *)
Theorem evicted_event_unreported :
  es_last_id uneven_store = 102 ∧ (get_sequenced_events_after uneven_store 1 200).2 = false ∧
  Forall (λ e, sq_id e ≠ 2) (get_sequenced_events_after uneven_store 1 200).1.
Proof. split_and!; [by vm_compute..|]. apply (bool_decide_unpack _). by vm_compute. Qed.

Definition late_store : EventStore := (empty_store <| es_last_id := 2 |>).

Definition late_seen : EventWorld :=
  {| ew_store := send (insert_event late_store (numbered_event 2 "b")).1 (numbered_event 2 "b");
     ew_adds := [Drawn (numbered_event 1 "a")]; ew_log := [numbered_event 2 "b"] |}.

Definition late_done : EventWorld :=
  {| ew_store := (insert_event (ew_store late_seen) (numbered_event 1 "a")).1;
     ew_adds := [Inserted (numbered_event 1 "a") []]; ew_log := [numbered_event 1 "a"; numbered_event 2 "b"] |}.

Lemma late_seen_reachable : rtc event_step (event_start None) late_seen.
Proof.
  eapply rtc_l; [by apply (es_draw _ (event_of "a"))|]. eapply rtc_l; [by apply (es_draw _ (event_of "b"))|].
  eapply rtc_l; [by apply (es_insert _ [] (numbered_event 2 "b") [Drawn (numbered_event 1 "a")])|].
  eapply rtc_l; [eapply (es_append _ [] (Inserted (numbered_event 2 "b") []) [Drawn (numbered_event 1 "a")]); [done|apply as_nothing; by left]|].
  eapply rtc_l; [by apply (es_send _ [] (numbered_event 2 "b") [Drawn (numbered_event 1 "a")])|]. apply rtc_refl.
Qed.

Lemma late_done_reachable : rtc event_step late_seen late_done.
Proof. apply rtc_once. by apply (es_insert late_seen [] (numbered_event 1 "a") []). Qed.

(** *** Overlapping appends *)

(** Two calls that each write one evicted event: both texts, then both ends. *)
Lemma overlap_run s ea eb x y log a :
  es_archive s = Some a → ar_torn a = false →
  rtc event_step {| ew_store := s; ew_adds := [Inserted eb [y]; Inserted ea [x]]; ew_log := log |}
    {| ew_store := (set_archive {| ar_lines := ar_lines a ++ [None; None]; ar_torn := false |} s) <| es_archived ::= λ n, 1 + (1 + n) |>;
       ew_adds := [Stored eb; Stored ea]; ew_log := log |}.
Proof.
  intros Ha Ht.
  assert (archive_write (archive_write (archive_write (archive_write a (WriteText (sq_event x))) (WriteText (sq_event y))) WriteEnd) WriteEnd =
    {| ar_lines := ar_lines a ++ [None; None]; ar_torn := false |}) as <-.
  { unfold archive_write. cbn [ar_lines ar_torn]. rewrite Ht, removelast_last, <-app_assoc. done. }
  assert (∀ s p1 p2 s' p1', append_step s p1 s' p1' → event_step {| ew_store := s; ew_adds := [p1; p2]; ew_log := log |}
    {| ew_store := s'; ew_adds := [p1'; p2]; ew_log := log |}) as Hl.
  { intros s1 p1 p2 s' p1' Hs. by apply (es_append {| ew_store := s1; ew_adds := [p1; p2]; ew_log := log |} [] p1 [p2]). }
  assert (∀ s p1 p2 s' p2', append_step s p2 s' p2' → event_step {| ew_store := s; ew_adds := [p1; p2]; ew_log := log |}
    {| ew_store := s'; ew_adds := [p1; p2']; ew_log := log |}) as Hr.
  { intros s1 p1 p2 s' p2' Hs. by apply (es_append {| ew_store := s1; ew_adds := [p1; p2]; ew_log := log |} [p1] p2 []). }
  eapply rtc_l; [by eapply Hr, as_open|]. eapply rtc_l; [by eapply Hl, as_open|].
  eapply rtc_l; [by apply Hr, as_write|]. eapply rtc_l; [by apply Hl, as_write|].
  eapply rtc_l; [by apply Hr, as_write|]. eapply rtc_l; [by apply Hl, as_write|].
  eapply rtc_l; [by apply Hr, as_done|]. eapply rtc_l; [by apply Hl, as_done|]. apply rtc_refl.
Qed.

(** Two calls that draw their ids and insert their events. *)
Lemma two_inserts_run s log :
  es_last_id s = 200 →
  let first := insert_event (draw_id (draw_id s).1).1 (numbered_event 201 "a") in
  let second := insert_event first.1 (numbered_event 202 "b") in
  rtc event_step {| ew_store := s; ew_adds := []; ew_log := log |}
    {| ew_store := second.1; ew_adds := [Inserted (numbered_event 202 "b") second.2; Inserted (numbered_event 201 "a") first.2];
       ew_log := numbered_event 202 "b" :: numbered_event 201 "a" :: log |}.
Proof.
  intros Hid first second.
  eapply rtc_l; [apply (es_draw _ (event_of "a") (draw_id s).1 201); cbn [ew_store]; unfold draw_id; by rewrite Hid|].
  eapply rtc_l; [apply (es_draw _ (event_of "b") (draw_id (draw_id s).1).1 202); cbn; by rewrite Hid|].
  eapply rtc_l; [apply (es_insert _ [Drawn (numbered_event 202 "b")] (numbered_event 201 "a") [] first.1 first.2); [done|]; apply surjective_pairing|].
  eapply rtc_l; [apply (es_insert _ [] (numbered_event 202 "b") [Inserted (numbered_event 201 "a") first.2] second.1 second.2); [done|]; apply surjective_pairing|].
  apply rtc_refl.
Qed.

(** A hundred events of each of two sources. *)
Definition full_store : EventStore :=
  foldl (add_event AppendDone) (empty_store <| es_archive := Some {| ar_lines := []; ar_torn := false |} |>)
    (replicate 100 (event_of "a") ++ replicate 100 (event_of "b")).

Definition full_drawn : EventStore := (draw_id (draw_id full_store).1).1.
Definition full_inserted : EventStore * list SequencedVmEvent := insert_event full_drawn (numbered_event 201 "a").
Definition full_both : EventStore * list SequencedVmEvent := insert_event full_inserted.1 (numbered_event 202 "b").

Lemma full_facts :
  full_inserted.2 = [numbered_event 1 "a"] ∧ full_both.2 = [numbered_event 101 "b"] ∧ es_last_id full_store = 200 ∧
  es_archive full_both.1 = Some {| ar_lines := []; ar_torn := false |} ∧ es_failures full_both.1 = 0 ∧ es_archived full_both.1 = 0.
Proof. split_and!; vm_compute; reflexivity. Qed.

Lemma full_window : last (window full_store "a") = Some (numbered_event 1 "a") ∧
  Forall (λ e, sq_id e ≠ 1) (window full_both.1 "a").
Proof. split; [by vm_compute|]. apply (bool_decide_unpack _). by vm_compute. Qed.

Lemma full_reachable : ∃ log, numbered_event 1 "a" ∈ log ∧
  rtc event_step (event_start (Some {| ar_lines := []; ar_torn := false |}))
    {| ew_store := full_both.1; ew_adds := [Inserted (numbered_event 202 "b") full_both.2; Inserted (numbered_event 201 "a") full_inserted.2];
       ew_log := log |}.
Proof.
  destruct (add_events_run AppendDone (empty_store <| es_archive := Some {| ar_lines := []; ar_torn := false |} |>)
    (replicate 100 (event_of "a") ++ replicate 100 (event_of "b")) []) as [log Hr]. fold full_store in Hr. rewrite app_nil_r in Hr.
  exists (numbered_event 202 "b" :: numbered_event 201 "a" :: log). split.
  - do 2 right. destruct full_window as [Hl _]. pose proof (hot_window _ _ "a" Hr) as Hw. cbn [ew_store ew_log] in Hw.
    apply last_Some_elem_of in Hl. rewrite Hw in Hl. eapply elem_of_take in Hl as (? & Hl%list_elem_of_lookup_2 & _).
    by apply elem_of_filter_list in Hl as [_ Hl].
  - etrans; [exact Hr|]. destruct full_facts as (_ & _ & Hid & _). exact (two_inserts_run full_store log Hid).
Qed.

(** overlapping appends lose events.  The text of an event and the end of
    its line are separate writes, and no lock is held: two calls that evict at
    the same time can merge their lines, and both events are lost, though both
    are counted as archived and no failure is. *)
Theorem overlapping_appends_lose_events :
  ∃ w a e, rtc event_step (event_start (Some {| ar_lines := []; ar_torn := false |})) w ∧ e ∈ ew_log w ∧
    es_failures (ew_store w) = 0 ∧ es_archived (ew_store w) = 2 ∧ es_archive (ew_store w) = Some a ∧ ¬ kept w a e.
Proof.
  destruct full_reachable as (log & He & Hr). destruct full_facts as (H1 & H2 & _ & Ha & Hf & Hn). destruct full_window as [_ Hno].
  rewrite H1, H2 in Hr. clear H1 H2. revert Hr Ha Hf Hn Hno. generalize full_both.1. intros s Hr Ha Hf Hn Hno.
  pose proof (overlap_run s (numbered_event 201 "a") (numbered_event 202 "b") (numbered_event 1 "a") (numbered_event 101 "b") log _ Ha eq_refl) as Ho.
  eexists _, _, (numbered_event 1 "a"). split; [by etrans; [exact Hr|exact Ho]|]. split; [exact He|]. split; [exact Hf|].
  split; [cbn; by rewrite Hn|]. split; [done|]. intros [Hw|[Hw|Hw]].
  - eapply Forall_forall in Hno; [|exact Hw]. done.
  - by apply elem_of_nil in Hw.
  - cbn in Hw. rewrite !elem_of_cons in Hw. by destruct Hw as [[=]|[[=]|?%elem_of_nil]].
Qed.

(** an event can become visible behind a client's cursor.  Ids are drawn
    before events are inserted: a client that has seen event 2 and resumes
    after it is never given event 1, inserted later, and no gap is reported. *)
Theorem late_event_skipped limit :
  rtc event_step (event_start None) late_seen ∧ rtc event_step late_seen late_done ∧
  es_sent (ew_store late_seen) = [numbered_event 2 "b"] ∧ window (ew_store late_done) "a" = [numbered_event 1 "a"] ∧
  get_sequenced_events_after (ew_store late_done) 2 limit = ([], false).
Proof.
  split_and!; [apply late_seen_reachable|apply late_done_reachable|done|done|].
  unfold get_sequenced_events_after. f_equal.
  assert (List.filter (λ e, 2 <? sq_id e) (merge_sort id_le (all_events (ew_store late_done))) = []) as -> by by vm_compute. apply take_nil.
Qed.

Lemma hot_window_refines_log_witness :
  window (ew_store late_seen) "b" = take MAX_EVENTS_PER_SOURCE (of_source "b" (ew_log late_seen)).
Proof. exact (hot_window_refines_log None late_seen "b" late_seen_reachable). Defined.

Definition archived_start : EventWorld := event_start (Some {| ar_lines := []; ar_torn := false |}).
Definition archived_seen : EventWorld :=
  {| ew_store := (insert_event ((ew_store archived_start) <| es_last_id := 1 |>) (numbered_event 1 "a")).1;
     ew_adds := [Inserted (numbered_event 1 "a") []]; ew_log := [numbered_event 1 "a"] |}.

Lemma archived_seen_reachable : rtc exclusive_step archived_start archived_seen.
Proof.
  eapply rtc_l; [split; [by apply (es_draw _ (event_of "a"))|apply Nat.le_0_l]|].
  eapply rtc_l; [split; [by apply (es_insert _ [] (numbered_event 1 "a") [])|apply Nat.le_0_l]|]. apply rtc_refl.
Qed.

Lemma events_not_lost_witness :
  ∃ a', es_archive (ew_store archived_seen) = Some a' ∧ kept archived_seen a' (numbered_event 1 "a").
Proof.
  apply (events_not_lost {| ar_lines := []; ar_torn := false |} archived_seen (numbered_event 1 "a") eq_refl archived_seen_reachable eq_refl).
  left.
Defined.

Lemma snapshot_cursor_skips_witness :
  sn_items (events_snapshot empty_store (ew_store late_seen) (no_query <| stq_limit := Some 0%nat |>) None) = [] ∧
  window (ew_store late_seen) "b" ≠ [] ∧
  sn_items (events_snapshot (ew_store late_seen) (ew_store late_seen) no_query
    (Some (sn_cursor (events_snapshot empty_store (ew_store late_seen) no_query None)))) = [].
Proof.
  split_and!; [done|done|]. exact (snapshot_cursor_skips empty_store (ew_store late_seen) no_query no_query None late_seen None late_seen_reachable).
Defined.

Definition sample_entry (message : string) : LogEntry :=
  {| le_id := 0; le_timestamp := 0; le_level := "INFO"; le_target := "m"; le_message := message |}.

Lemma small_batches : Forall (λ b, length b <= DEFAULT_CAPACITY)%nat [[sample_entry "b"]; []; [sample_entry "c"]].
Proof. apply (bool_decide_unpack _). vm_compute. exact I. Qed.

Lemma log_follow_exact_witness :
  log_ticks no_query (tick_buffers [sample_entry "a"] [[sample_entry "b"]; []; [sample_entry "c"]]) 1 =
    ([FItem 2 ((sample_entry "b") <| le_id := 2 |>); FItem 3 ((sample_entry "c") <| le_id := 3 |>)], 3).
Proof.
  apply (log_follow_exact no_query [sample_entry "a"] [[sample_entry "b"]; []; [sample_entry "c"]]); [done|].
  exact small_batches.
Defined.

Lemma log_gap_exact_witness :
  FResync 1 ∈ (log_tick no_query (log_of ([sample_entry "a"] ++ [sample_entry "b"])) 1).1 ↔ (DEFAULT_CAPACITY < 1)%nat.
Proof. exact (log_gap_exact no_query [sample_entry "a"] [sample_entry "b"] ltac:(done)). Defined.

End examples.
