(* ===== verification/Enrollment.v ===== *)
(** * Bootstrap enrollment

    Models management/src/bootstrap_enrollment.rs (the store of one-time
    tokens), the token envelope of management/src/runtime_bootstrap.rs and the
    handler of management/src/http/bootstrap_enrollment.rs, which exchanges a
    token and a certificate request for a certificate.

    A method changes the records under their lock and saves them afterwards: it
    takes a snapshot and writes the file, which other methods may do in between.
    The methods are therefore given in pieces ([.._begin], [snapshot],
    [write_file]) as well as whole.  The certificate authority is an argument,
    random tokens are too; the text of the token file is the class [TokenText]. *)

From Stdlib Require Import Ascii.
From S2P Require Import Prelude Text Http Json CelldAuth TransportIdentity.

Local Open Scope string_scope.
Local Open Scope list_scope.
Local Open Scope Z_scope.

(** ** Data *)

Record IssuedBootstrapToken : Type := {
  is_token : string;
  is_instance_id : string;
  is_spiffe_id : string;
  is_expires_at : Z;
}.

Record ConsumedBootstrapToken : Type := {
  co_instance_id : string;
  co_spiffe_id : string;
}.

Inductive BootstrapTokenError : Type :=
| TkUnknown | TkExpired | TkAlreadyConsumed | TkRevoked | TkSpiffeMismatch | TkPersistence.
#[export] Instance BootstrapTokenError_eq_dec : EqDecision BootstrapTokenError.
Proof. solve_decision. Defined.

Record TokenRecord : Type := {
  tk_token_hash : string;
  tk_instance_id : string;
  tk_spiffe_id : string;
  tk_expires_at : Z;
  tk_consumed_at : option Z;
  tk_revoked_at : option Z;
}.

Record BootstrapTokenStoreStats : Type := {
  stat_active : Z;
  stat_consumed : Z;
  stat_revoked : Z;
  stat_expired : Z;
}.

Abbreviation Records := (gmap string TokenRecord).

(** The records in memory, and the text of the file. *)
Record BootstrapTokenStore : Type := {
  bs_records : Records;
  bs_file : option string;
}.

(** [serde_json]'s text of a [TokenFile], and reading it. *)
Class TokenText : Type := {
  token_file_text : list TokenRecord → string;
  token_file_parse : string → option (list TokenRecord);
}.

(** What is written can be read; a file that was cut short cannot. *)
Record token_text_laws (T : TokenText) : Prop := {
  token_text_parse l : token_file_parse (token_file_text l) = Some l;
  token_text_cut l n : (n < String.length (token_file_text l))%nat →
    token_file_parse (String.substring 0 n (token_file_text l)) = None;
}.

(** How writing the file went: it may fail to open, or part way. *)
Inductive WriteRun : Type := Written | OpenFailed | CutAt (n : nat).

Section store.
Context `{AuthEnv, UuidText, MapIter, TokenText}.
Implicit Types (records : Records) (store : BootstrapTokenStore) (now : Z).

Definition bootstrap_hash_token (token : string) : string := hex_encode (sha256 token).

(** [ct_eq] in constant time *)
Definition ct_hash_eq (a b : string) : bool := bool_decide (a = b).

(** [values().find(..)], with the key *)
Definition find_record records (token_hash : string) : option (string * TokenRecord) :=
  find_first (λ kv, ct_hash_eq (tk_token_hash kv.2) token_hash) (iter records).

(** ** Saving and loading *)

Definition snapshot records : string := token_file_text (iter records).*2.

Definition write_file (file : option string) (text : string) (run : WriteRun) : option string * bool :=
  match run with
  | Written => (Some text, true)
  | OpenFailed => (file, false)
  | CutAt n => (Some (String.substring 0 n text), false)
  end.

Definition save store (run : WriteRun) : BootstrapTokenStore * bool :=
  let '(file, ok) := write_file (bs_file store) (snapshot (bs_records store)) run in
  (store <| bs_file := file |>, ok).

Definition records_of (l : list TokenRecord) : Records :=
  foldl (λ m r, <[tk_token_hash r := r]> m) ∅ l.

Definition load_or_create (file : option string) : result string BootstrapTokenStore :=
  match file with
  | None => Ok {| bs_records := ∅; bs_file := None |}
  | Some raw =>
      l ← ok_or (token_file_parse raw) "parsing bootstrap token store";
      Ok {| bs_records := records_of l; bs_file := Some raw |}
  end.

(** ** The store's methods, up to the save *)

Definition issue_begin now records (token instance_id spiffe_id : string) (ttl_millis : Z)
    : result string (Records * IssuedBootstrapToken) :=
  match parse_spiffe spiffe_id with
  | Err _ => Err ("invalid bootstrap token SPIFFE id `" +:+ spiffe_id +:+ "`")
  | Ok parsed =>
      if decide (sp_instance_id parsed = instance_id) then
        let token_hash := bootstrap_hash_token token in
        let expires_at := sat_add u64_max now (ttl_millis mod (u64_max + 1)) in
        Ok (<[token_hash := {| tk_token_hash := token_hash; tk_instance_id := instance_id;
                tk_spiffe_id := spiffe_id; tk_expires_at := expires_at; tk_consumed_at := None;
                tk_revoked_at := None |}]> records,
            {| is_token := token; is_instance_id := instance_id; is_spiffe_id := spiffe_id;
               is_expires_at := expires_at |})
      else Err ("bootstrap token SPIFFE id instance " +:+ sp_instance_id parsed +:+
                " does not match requested instance " +:+ instance_id)
  end.

(** The checks of [validate_token] and [consume_token]. *)
Definition check_record now (r : TokenRecord) (requested_spiffe_id : string)
    : result BootstrapTokenError ConsumedBootstrapToken :=
  match tk_consumed_at r, tk_revoked_at r with
  | Some _, _ => Err TkAlreadyConsumed
  | None, Some _ => Err TkRevoked
  | None, None =>
      if tk_expires_at r <? now then Err TkExpired
      else if decide (tk_spiffe_id r = requested_spiffe_id)
      then Ok {| co_instance_id := tk_instance_id r; co_spiffe_id := tk_spiffe_id r |}
      else Err TkSpiffeMismatch
  end.

Definition validate_token now records (token requested_spiffe_id : string)
    : result BootstrapTokenError ConsumedBootstrapToken :=
  match find_record records (bootstrap_hash_token token) with
  | None => Err TkUnknown
  | Some (_, r) => check_record now r requested_spiffe_id
  end.

Definition consume_begin now records (token requested_spiffe_id : string)
    : Records * result BootstrapTokenError ConsumedBootstrapToken :=
  match find_record records (bootstrap_hash_token token) with
  | None => (records, Err TkUnknown)
  | Some (key, r) =>
      match check_record now r requested_spiffe_id with
      | Err e => (records, Err e)
      | Ok consumed => (<[key := r <| tk_consumed_at := Some now |>]> records, Ok consumed)
      end
  end.

Definition revoke_begin now records (token : string) : Records * bool :=
  match find_record records (bootstrap_hash_token token) with
  | None => (records, false)
  | Some (key, r) =>
      match tk_consumed_at r, tk_revoked_at r with
      | None, None => (<[key := r <| tk_revoked_at := Some now |>]> records, true)
      | _, _ => (records, false)
      end
  end.

Definition prune_begin now records : Records * Z :=
  let kept := filter (λ kv, is_Some (tk_consumed_at kv.2) ∨ now <= tk_expires_at kv.2) records in
  (kept, Z.max 0 (Z.of_nat (size records) - Z.of_nat (size kept))).

Definition count_record now (s : BootstrapTokenStoreStats) (r : TokenRecord) : BootstrapTokenStoreStats :=
  match tk_consumed_at r, tk_revoked_at r with
  | Some _, _ => s <| stat_consumed ::= Z.succ |>
  | None, Some _ => s <| stat_revoked ::= Z.succ |>
  | None, None =>
      if tk_expires_at r <? now then s <| stat_expired ::= Z.succ |> else s <| stat_active ::= Z.succ |>
  end.

Definition token_stats now records : BootstrapTokenStoreStats :=
  foldl (count_record now) {| stat_active := 0; stat_consumed := 0; stat_revoked := 0; stat_expired := 0 |}
    (iter records).*2.

(** ** Whole methods *)

Definition issue_token now store (token instance_id spiffe_id : string) (ttl_millis : Z) (run : WriteRun)
    : BootstrapTokenStore * result string IssuedBootstrapToken :=
  match issue_begin now (bs_records store) token instance_id spiffe_id ttl_millis with
  | Err e => (store, Err e)
  | Ok (records, issued) =>
      let '(store, ok) := save (store <| bs_records := records |>) run in
      (store, if ok then Ok issued else Err "writing bootstrap token store")
  end.

Definition consume_token now store (token requested_spiffe_id : string) (run : WriteRun)
    : BootstrapTokenStore * result BootstrapTokenError ConsumedBootstrapToken :=
  match consume_begin now (bs_records store) token requested_spiffe_id with
  | (_, Err e) => (store, Err e)
  | (records, Ok consumed) =>
      let '(store, ok) := save (store <| bs_records := records |>) run in
      (store, if ok then Ok consumed else Err TkPersistence)
  end.

Definition revoke_token now store (token : string) (run : WriteRun) : BootstrapTokenStore * result string bool :=
  match revoke_begin now (bs_records store) token with
  | (_, false) => (store, Ok false)
  | (records, true) =>
      let '(store, ok) := save (store <| bs_records := records |>) run in
      (store, if ok then Ok true else Err "writing bootstrap token store")
  end.

Definition prune_expired_unconsumed now store (run : WriteRun) : BootstrapTokenStore * result string Z :=
  let '(records, removed) := prune_begin now (bs_records store) in
  let store := store <| bs_records := records |> in
  if 0 <? removed then
    let '(store, ok) := save store run in (store, if ok then Ok removed else Err "writing bootstrap token store")
  else (store, Ok removed).


(** ** The handler *)

Record ConsumeBootstrapEnrollmentRequest : Type := {
  er_token : string;
  er_spiffe_id : string;
  er_csr_pem : string;
}.

(** [GrpcCaBackend]: a certificate for a SPIFFE id and a request, or why not. *)
Record CaBackend : Type := {
  issue_agent_certificate_from_csr : string → string → result string string;
  ca_pem : string;
}.

Section handler.
Context `{Env}.
Implicit Types (req : ConsumeBootstrapEnrollmentRequest).

Definition enrollment_problem (status : Z) (code title detail : string) : HttpResponse :=
  {| resp_status := status; resp_headers := [("content-type", Some "application/problem+json")];
     resp_body := json_text (json_obj
       [("type", JStr ("https://agentic-sandbox.example/problems/" +:+ dots_to_dashes code));
        ("title", JStr title); ("status", JNum status); ("code", JStr code); ("detail", JStr detail)]) |}.

Definition token_problem (e : BootstrapTokenError) : HttpResponse :=
  match e with
  | TkUnknown | TkExpired => enrollment_problem UNAUTHORIZED "bootstrap.token_invalid" "Bootstrap token invalid"
      "bootstrap token is unknown or expired"
  | TkAlreadyConsumed | TkRevoked => enrollment_problem CONFLICT "bootstrap.token_consumed"
      "Bootstrap token already consumed" "bootstrap token was already consumed or revoked"
  | TkSpiffeMismatch => enrollment_problem FORBIDDEN "bootstrap.spiffe_mismatch" "Bootstrap token SPIFFE mismatch"
      "bootstrap token is not valid for requested SPIFFE id"
  | TkPersistence => enrollment_problem INTERNAL_SERVER_ERROR "bootstrap.persistence_failed"
      "Bootstrap token persistence failed" "consumed bootstrap token state could not be persisted"
  end.

Definition enrolled (spiffe_id certificate_pem ca_pem : string) : HttpResponse :=
  {| resp_status := OK; resp_headers := [("content-type", Some "application/json")];
     resp_body := json_text (JObj [("spiffe_id", JStr spiffe_id); ("certificate_pem", JStr certificate_pem);
       ("ca_pem", JStr ca_pem)]) |}.

(** What is checked before the token. *)
Definition request_problem (ca : option CaBackend) (has_store : bool) req : option HttpResponse :=
  if bool_decide (trim (er_token req) = EmptyString) then
    Some (enrollment_problem UNPROCESSABLE_ENTITY "bootstrap.token_required" "Bootstrap token required" "token must be non-empty")
  else if bool_decide (trim (er_spiffe_id req) = EmptyString) then
    Some (enrollment_problem UNPROCESSABLE_ENTITY "bootstrap.spiffe_id_required" "SPIFFE id required" "spiffe_id must be non-empty")
  else if bool_decide (trim (er_csr_pem req) = EmptyString) then
    Some (enrollment_problem UNPROCESSABLE_ENTITY "bootstrap.csr_required" "CSR required" "csr_pem must be non-empty")
  else match ca with
  | None => Some (enrollment_problem SERVICE_UNAVAILABLE "bootstrap.ca_unavailable" "Bootstrap CA unavailable"
      "gRPC CA backend is not configured")
  | Some _ =>
      if has_store then None
      else Some (enrollment_problem SERVICE_UNAVAILABLE "bootstrap.store_unavailable"
        "Bootstrap token store unavailable" "bootstrap token store is not configured")
  end.

Definition csr_problem (detail : string) : HttpResponse :=
  enrollment_problem UNPROCESSABLE_ENTITY "bootstrap.csr_invalid" "CSR rejected" detail.

(** The handler, run alone; [now] and [now'] are the clock at the two looks at
    the token. *)
Definition consume_bootstrap_enrollment now now' (ca : option CaBackend) (store : option BootstrapTokenStore) req
    (run : WriteRun) : option BootstrapTokenStore * HttpResponse :=
  match request_problem ca (bool_decide (is_Some store)) req, ca, store with
  | Some r, _, _ => (store, r)
  | None, Some ca, Some s =>
      match validate_token now (bs_records s) (er_token req) (er_spiffe_id req) with
      | Err e => (store, token_problem e)
      | Ok _ =>
          match issue_agent_certificate_from_csr ca (er_spiffe_id req) (er_csr_pem req) with
          | Err e => (store, csr_problem e)
          | Ok cert =>
              match consume_token now' s (er_token req) (er_spiffe_id req) run with
              | (s, Err e) => (Some s, token_problem e)
              | (s, Ok consumed) => (Some s, enrolled (co_spiffe_id consumed) cert (ca_pem ca))
              end
          end
      end
  | None, _, _ => (store, token_problem TkUnknown)
  end.

End handler.
End store.

(** ** The token's envelope *)

Definition DEFAULT_BOOTSTRAP_TLS_DIR : string := "/etc/agentic-sandbox/grpc-mtls".
Definition BOOTSTRAP_CONSUME_PATH : string := "/api/v1/bootstrap-enrollment/consume".

Definition env_pairs (issued : IssuedBootstrapToken) (tls_dir enrollment_url : option string)
    : list (string * string) :=
  [("AGENT_TRANSPORT", "auto"); ("AGENT_BOOTSTRAP_TOKEN", is_token issued);
   ("AGENT_BOOTSTRAP_SPIFFE_ID", is_spiffe_id issued);
   ("AGENT_BOOTSTRAP_TOKEN_EXPIRES_AT_UNIX_MS", pretty (is_expires_at issued));
   ("AGENT_BOOTSTRAP_TLS_DIR", default DEFAULT_BOOTSTRAP_TLS_DIR tls_dir)]
  ++ match enrollment_url with
     | Some url => if decide (trim url = EmptyString) then [] else [("AGENT_BOOTSTRAP_ENROLLMENT_URL", url)]
     | None => []
     end.

(** [std::env::var(name).ok()] is [var]. *)
Definition bootstrap_trust_domain (var : option string) : string :=
  match var with
  | Some v => if decide (trim v = EmptyString) then "sandbox.agentic.local" else v
  | None => "sandbox.agentic.local"
  end.

Definition bootstrap_spiffe_id (var : option string) (instance_id : string) : string :=
  "spiffe://" +:+ bootstrap_trust_domain var +:+ "/agent/" +:+ instance_id.

Definition bootstrap_token_ttl (var : option string) : Z :=
  match var ≫= parse_unsigned u64_max with
  | Some v => if 0 <? v then v else 600
  | None => 600
  end.

Definition issue_bootstrap_envelope `{AuthEnv, UuidText, MapIter, TokenText} now
    (store : option BootstrapTokenStore) (token instance_id : string) (domain_var ttl_var : option string) (run : WriteRun)
    : option BootstrapTokenStore * result string (option IssuedBootstrapToken) :=
  match store with
  | None => (None, Ok None)
  | Some s =>
      let '(s, issued) := issue_token now s token instance_id (bootstrap_spiffe_id domain_var instance_id)
        (bootstrap_token_ttl ttl_var * 1000) run in
      (Some s, match issued with Ok i => Ok (Some i) | Err e => Err ("failed to issue_token bootstrap token: " +:+ e) end)
  end.

(** ** Requests side by side *)

(** Where a request is: waiting for the certificate authority, about to consume
    its token, about to save, writing the file, answered.  [burned] records
    that it consumed the token. *)
Inductive Enrolling : Type :=
| Signing (req : ConsumeBootstrapEnrollmentRequest)
| Consuming (req : ConsumeBootstrapEnrollmentRequest) (cert : string)
| Saving (req : ConsumeBootstrapEnrollmentRequest) (cert spiffe_id : string)
| Writing (req : ConsumeBootstrapEnrollmentRequest) (cert spiffe_id text : string)
| Answered (req : ConsumeBootstrapEnrollmentRequest) (burned : bool) (r : HttpResponse).

(** The store, the requests, and the saves of other methods under way ([None]
    before its snapshot). *)
Record EnrollWorld : Type := {
  ew_store : BootstrapTokenStore;
  ew_requests : list Enrolling;
  ew_saves : list (option string);
}.

Section world.
Context `{AuthEnv, UuidText, MapIter, TokenText, Env}.
Variable ca : CaBackend.
Implicit Types (w : EnrollWorld) (req : ConsumeBootstrapEnrollmentRequest).

Definition set_request w (i : nat) (e : Enrolling) : EnrollWorld := w <| ew_requests ::= <[i := e]> |>.
Definition set_records w (records : Records) : EnrollWorld :=
  w <| ew_store ::= λ s, s <| bs_records := records |> |>.
Definition set_file w (file : option string) : EnrollWorld := w <| ew_store ::= λ s, s <| bs_file := file |> |>.

(** A request arrives. *)
Definition receive_request now w req : EnrollWorld :=
  let e := match request_problem (Some ca) true req with
    | Some r => Answered req false r
    | None =>
        match validate_token now (bs_records (ew_store w)) (er_token req) (er_spiffe_id req) with
        | Err e => Answered req false (token_problem e)
        | Ok _ => Signing req
        end
    end in
  w <| ew_requests ::= (.++ [e]) |>.

(** The next piece of a request. *)
Definition advance_request now (run : WriteRun) w (i : nat) (e : Enrolling) : EnrollWorld :=
  match e with
  | Signing req =>
      set_request w i match issue_agent_certificate_from_csr ca (er_spiffe_id req) (er_csr_pem req) with
        | Err e => Answered req false (csr_problem e)
        | Ok cert => Consuming req cert
        end
  | Consuming req cert =>
      match consume_begin now (bs_records (ew_store w)) (er_token req) (er_spiffe_id req) with
      | (_, Err e) => set_request w i (Answered req false (token_problem e))
      | (records, Ok consumed) => set_request (set_records w records) i (Saving req cert (co_spiffe_id consumed))
      end
  | Saving req cert spiffe_id => set_request w i (Writing req cert spiffe_id (snapshot (bs_records (ew_store w))))
  | Writing req cert spiffe_id text =>
      let '(file, ok) := write_file (bs_file (ew_store w)) text run in
      set_request (set_file w file) i (Answered req true
        (if ok : bool then enrolled spiffe_id cert (ca_pem ca) else token_problem TkPersistence))
  | Answered _ _ _ => w
  end.

(** Everything that happens while the server runs.  A token that is drawn is
    not the token of a record in the store. *)
Inductive enroll_step : EnrollWorld → EnrollWorld → Prop :=
| es_receive now w req : enroll_step w (receive_request now w req)
| es_advance now run w i e : ew_requests w !! i = Some e → enroll_step w (advance_request now run w i e)
| es_issue now w token instance_id spiffe_id ttl records issued :
    bs_records (ew_store w) !! bootstrap_hash_token token = None →
    issue_begin now (bs_records (ew_store w)) token instance_id spiffe_id ttl = Ok (records, issued) →
    enroll_step w ((set_records w records) <| ew_saves ::= (None ::.) |>)
| es_revoke now w token records :
    revoke_begin now (bs_records (ew_store w)) token = (records, true) →
    enroll_step w ((set_records w records) <| ew_saves ::= (None ::.) |>)
| es_prune now w :
    enroll_step w ((set_records w (prune_begin now (bs_records (ew_store w))).1) <| ew_saves ::= (None ::.) |>)
| es_snapshot w i :
    ew_saves w !! i = Some None →
    enroll_step w (w <| ew_saves ::= <[i := Some (snapshot (bs_records (ew_store w)))]> |>)
| es_write w i text run :
    ew_saves w !! i = Some (Some text) →
    enroll_step w ((set_file w (write_file (bs_file (ew_store w)) text run).1) <| ew_saves ::= delete i |>).

Definition enroll_start (store : BootstrapTokenStore) : EnrollWorld :=
  {| ew_store := store; ew_requests := []; ew_saves := [] |}.

(** The requests answered with a certificate for the token of hash [h]. *)
Definition request_of (e : Enrolling) : ConsumeBootstrapEnrollmentRequest :=
  match e with Signing req | Consuming req _ | Saving req _ _ | Writing req _ _ _ | Answered req _ _ => req end.
Definition granted (h : string) (e : Enrolling) : bool :=
  match e with
  | Answered req _ r => bool_decide (bootstrap_hash_token (er_token req) = h) && (resp_status r =? OK)
  | _ => false
  end.
Definition certificates (h : string) w : Z := len (filter (λ e, granted h e = true) (ew_requests w)).

(** ** Invariants *)

(** A record as [issue_token] made it. *)
Definition record_ok (key : string) (r : TokenRecord) : Prop :=
  tk_token_hash r = key ∧ ∃ id, parse_spiffe (tk_spiffe_id r) = Ok id ∧ sp_instance_id id = tk_instance_id r.

Definition spent (records : Records) (h : string) : Prop := ∃ r, records !! h = Some r ∧ is_Some (tk_consumed_at r).

(** The record of a token that a request has consumed for [spiffe_id]. *)
Definition spent_for (records : Records) (h spiffe_id : string) : Prop :=
  ∃ r t, records !! h = Some r ∧ tk_spiffe_id r = spiffe_id ∧ tk_consumed_at r = Some t ∧
    tk_revoked_at r = None ∧ t <= tk_expires_at r.

Definition burned (e : Enrolling) : bool :=
  match e with Saving _ _ _ | Writing _ _ _ _ => true | Answered _ b _ => b | _ => false end.
Definition burns (h : string) (e : Enrolling) : Z :=
  if burned e && bool_decide (bootstrap_hash_token (er_token (request_of e)) = h) then 1 else 0.

(** What a request carries at each point. *)
Definition carries (e : Enrolling) : Prop :=
  let signed req cert := issue_agent_certificate_from_csr ca (er_spiffe_id req) (er_csr_pem req) = Ok cert in
  match e with
  | Signing req => True
  | Consuming req cert => signed req cert
  | Saving req cert spiffe_id | Writing req cert spiffe_id _ => signed req cert ∧ spiffe_id = er_spiffe_id req
  | Answered req b r => resp_status r = OK →
      b = true ∧ ∃ cert, signed req cert ∧ r = enrolled (er_spiffe_id req) cert (ca_pem ca)
  end.

Record world_ok w : Prop := {
  wo_records : map_Forall record_ok (bs_records (ew_store w));
  wo_spent e : e ∈ ew_requests w → burned e = true →
    spent_for (bs_records (ew_store w)) (bootstrap_hash_token (er_token (request_of e))) (er_spiffe_id (request_of e));
  wo_once h : sum_with (burns h) (ew_requests w) <= 1;
  wo_carries : Forall carries (ew_requests w);
}.

Lemma find_record_ok records h key r :
  map_Forall record_ok records → find_record records h = Some (key, r) ↔ key = h ∧ records !! h = Some r.
Proof.
  intros Hok. unfold find_record. split.
  - intros [Hin Hh%bool_decide_eq_true]%find_first_Some. apply elem_of_iter in Hin. cbn [fst snd] in Hh.
    destruct (Hok _ _ Hin) as [Hkey _]. by subst.
  - intros [-> Hr]. assert (Hin : (h, r) ∈ iter records) by by apply elem_of_iter.
    destruct (Hok _ _ Hr) as [Hkey _].
    destruct (find_first _ _) as [[k r']|] eqn:Hf.
    + apply find_first_Some in Hf as [Hin' Hh%bool_decide_eq_true]. apply elem_of_iter in Hin'. cbn [snd] in Hh.
      destruct (Hok _ _ Hin') as [Hkey' _]. congruence.
    + pose proof (proj1 (find_first_None _ _) Hf _ Hin) as Hno. unfold ct_hash_eq in Hno. cbn [snd] in Hno.
      by rewrite bool_decide_eq_true_2 in Hno.
Qed.

(** A token without a record is unknown. *)
Lemma find_record_None records h : map_Forall record_ok records → records !! h = None → find_record records h = None.
Proof.
  intros Hok Hh. destruct (find_record records h) as [[k r]|] eqn:Hf; [|done].
  apply find_record_ok in Hf as [_ Hr]; [congruence|done].
Qed.

(** A consumed record stays as it is, whatever is done to the store. *)
Definition keeps_spent (records records' : Records) : Prop :=
  ∀ h r, records !! h = Some r → is_Some (tk_consumed_at r) → records' !! h = Some r.

Lemma spent_for_keeps records records' h s : keeps_spent records records' → spent_for records h s → spent_for records' h s.
Proof. intros Hk (r & t & Hr & Hs & Hc & Hv & Ht). exists r, t. split; [|done]. apply Hk; eauto. Qed.

Lemma issue_begin_ok now records token i s ttl records' issued :
  records !! bootstrap_hash_token token = None → map_Forall record_ok records →
  issue_begin now records token i s ttl = Ok (records', issued) →
  map_Forall record_ok records' ∧ keeps_spent records records'.
Proof.
  intros Hfresh Hok. unfold issue_begin. destruct (parse_spiffe s) as [id|] eqn:Hp; [|done].
  case_decide as Hi; [|done]. intros [= <- <-]. split.
  - apply map_Forall_insert_2; [|done]. split; [done|]. exists id. by split.
  - intros h r Hr _. rewrite lookup_insert_ne; [done|]. congruence.
Qed.

Lemma revoke_begin_ok now records token records' :
  map_Forall record_ok records → revoke_begin now records token = (records', true) →
  map_Forall record_ok records' ∧ keeps_spent records records'.
Proof.
  intros Hok. unfold revoke_begin. destruct (find_record _ _) as [[k r]|] eqn:Hf; [|done].
  apply find_record_ok in Hf as [-> Hr]; [|done].
  destruct (tk_consumed_at r) eqn:Hc, (tk_revoked_at r); try done. intros [= <-]. split.
  - apply map_Forall_insert_2; [by apply (Hok _ r)|done].
  - intros h r' Hr' [t Ht]. rewrite lookup_insert_ne; [done|]. congruence.
Qed.

Lemma prune_begin_ok now records :
  map_Forall record_ok records →
  map_Forall record_ok (prune_begin now records).1 ∧ keeps_spent records (prune_begin now records).1.
Proof.
  intros Hok. cbn. split.
  - intros h r [Hr _]%map_lookup_filter_Some. by apply Hok.
  - intros h r Hr Hc. apply map_lookup_filter_Some. split; [done|]. by left.
Qed.

(** Consuming a token: it was there, unspent, in time and for this id. *)
Lemma consume_begin_ok now records token s records' c :
  map_Forall record_ok records → consume_begin now records token s = (records', Ok c) →
  map_Forall record_ok records' ∧ keeps_spent records records' ∧ co_spiffe_id c = s ∧
  spent_for records' (bootstrap_hash_token token) s ∧
  ¬ spent records (bootstrap_hash_token token).
Proof.
  intros Hok. unfold consume_begin. destruct (find_record _ _) as [[k r]|] eqn:Hf; [|done].
  apply find_record_ok in Hf as [-> Hr]; [|done]. unfold check_record.
  destruct (tk_consumed_at r) eqn:Hc, (tk_revoked_at r) eqn:Hv; try done.
  destruct (Z.ltb_spec (tk_expires_at r) now) as [|Hle]; [done|]. case_decide as Hs; [|done].
  intros [= <- <-]. split_and!.
  - apply map_Forall_insert_2; [by apply (Hok _ r)|done].
  - intros h r' Hr' [t Ht]. rewrite lookup_insert_ne; [done|]. congruence.
  - done.
  - exists (r <| tk_consumed_at := Some now |>), now. rewrite lookup_insert_eq. done.
  - intros (r' & Hr' & [t Ht]). congruence.
Qed.

Lemma spent_for_spent records h s : spent_for records h s → spent records h.
Proof. intros (r & t & Hr & _ & Hc & _). exists r. eauto. Qed.

(** *** One request changes *)

Lemma sum_with_set {A} (f : A → Z) l i x y :
  l !! i = Some x → sum_with f (<[i := y]> l) = sum_with f l - f x + f y.
Proof.
  intros Hl. rewrite insert_take_drop by by eapply lookup_lt_Some.
  rewrite <-(take_drop_middle l i x Hl) at 3. rewrite !sum_with_app. simpl. lia.
Qed.

(** The requests keep their invariant when one moves on. *)
Lemma world_ok_set w i e e' :
  world_ok w → ew_requests w !! i = Some e → request_of e' = request_of e → burned e' = burned e → carries e' →
  world_ok (set_request w i e').
Proof.
  intros [Hr Hs Ho Hc] He Hreq Hb Hc'. split; simpl; [done| | |].
  - intros x Hx Hbx. apply list_elem_of_lookup in Hx as [j Hj].
    rewrite list_lookup_insert in Hj. case_decide as Hd.
    + injection Hj as <-. rewrite Hreq. apply Hs; [by eapply list_elem_of_lookup_2|congruence].
    + apply Hs; [by eapply list_elem_of_lookup_2|done].
  - intros h. rewrite (sum_with_set _ _ _ _ _ He). unfold burns at 2 3. rewrite Hreq, Hb. specialize (Ho h). lia.
  - by apply Forall_insert.
Qed.

Lemma world_ok_records w records :
  world_ok w → map_Forall record_ok records → keeps_spent (bs_records (ew_store w)) records → world_ok (set_records w records).
Proof.
  intros [Hr Hs Ho Hc] Hok Hk. split; simpl; [done| |done..].
  intros e He Hb. eapply spent_for_keeps; eauto.
Qed.

Lemma world_ok_burn w i req cert records :
  world_ok w → ew_requests w !! i = Some (Consuming req cert) → map_Forall record_ok records →
  keeps_spent (bs_records (ew_store w)) records →
  spent_for records (bootstrap_hash_token (er_token req)) (er_spiffe_id req) →
  ¬ spent (bs_records (ew_store w)) (bootstrap_hash_token (er_token req)) →
  world_ok (set_request (set_records w records) i (Saving req cert (er_spiffe_id req))).
Proof.
  intros [Hr Hs Ho Hc] He Hok Hk Hspent Hfresh. split; simpl; [done| | |].
  - intros x Hx Hbx. apply list_elem_of_lookup in Hx as [j Hj]. rewrite list_lookup_insert in Hj. case_decide.
    + by injection Hj as <-.
    + eapply spent_for_keeps; [done|]. apply Hs; [by eapply list_elem_of_lookup_2|done].
  - intros h. rewrite (sum_with_set _ _ _ _ _ He). unfold burns at 2 3. simpl. case_bool_decide as Hh; [|specialize (Ho h); lia].
    assert (Hzero : sum_with (burns h) (ew_requests w) = 0).
    { apply sum_with_zero. intros e Hin. unfold burns. destruct (burned e) eqn:Hb; [|done]. simpl.
      case_bool_decide as Hh'; [|done]. destruct Hfresh. rewrite Hh, <-Hh'. by eapply spent_for_spent, Hs. }
    lia.
  - apply Forall_insert; [done|]. simpl. split; [|done].
    exact (proj1 (Forall_lookup _ _) Hc i _ He).
Qed.

Lemma token_problem_status e : resp_status (token_problem e) ≠ OK.
Proof. by destruct e. Qed.

Lemma request_problem_status has req r : request_problem (Some ca) has req = Some r → resp_status r ≠ OK.
Proof. unfold request_problem. repeat case_bool_decide; [by intros [= <-]..|]. destruct has; [done|by intros [= <-]]. Qed.

Lemma receive_ok now w req : world_ok w → world_ok (receive_request now w req).
Proof.
  intros [Hr Hs Ho Hc]. unfold receive_request.
  set (e := match request_problem (Some ca) true req with Some r => _ | None => _ end).
  assert (He : burned e = false ∧ carries e).
  { subst e. destruct (request_problem _ _ _) as [r|] eqn:Hp.
    - split; [done|]. simpl. intros Hok. by apply request_problem_status in Hp.
    - destruct (validate_token _ _ _ _) as [c|err]; [done|]. split; [done|]. simpl. intros Hok. by apply token_problem_status in Hok. }
  destruct He as [Hb Hce]. split; simpl; [done| | |].
  - intros x [Hx|Hx%list_elem_of_singleton]%elem_of_app; [by apply Hs|]. subst x. congruence.
  - intros h. rewrite sum_with_app. simpl. unfold burns at 2. rewrite Hb. simpl. specialize (Ho h). lia.
  - apply Forall_app. by split; [|constructor].
Qed.

Lemma advance_request_ok now run w i e :
  world_ok w → ew_requests w !! i = Some e → world_ok (advance_request now run w i e).
Proof.
  intros Hok He. pose proof (proj1 (Forall_lookup _ _) (wo_carries _ Hok) i e He) as Hc.
  destruct e as [req|req cert|req cert s|req cert s text|req b r]; cbn [advance_request].
  - destruct (issue_agent_certificate_from_csr _ _ _) eqn:Hi; by eapply (world_ok_set _ _ _ _ Hok He).
  - destruct (consume_begin _ _ _ _) as [records [c|err]] eqn:Hcb.
    + apply consume_begin_ok in Hcb as (Hro & Hks & -> & Hsf & Hnf); [|apply Hok]. by eapply world_ok_burn.
    + eapply (world_ok_set _ _ _ _ Hok He); [done..|]. simpl. intros Hst. by apply token_problem_status in Hst.
  - by eapply (world_ok_set _ _ _ _ Hok He).
  - destruct (write_file _ _ _) as [file ok]. destruct Hc as [Hsig ->].
    assert (Hok' : world_ok (set_file w file)) by (destruct Hok; by split).
    eapply (world_ok_set _ _ _ _ Hok'); [done..|]. simpl. intros Hst. split; [done|]. exists cert. split; [done|].
    destruct ok; [done|]. by apply (token_problem_status TkPersistence) in Hst.
  - done.
Qed.

Lemma enroll_step_ok w w' : world_ok w → enroll_step w w' → world_ok w'.
Proof.
  intros Hok Hstep.
  assert (Hsaves : ∀ w0 f, world_ok w0 → world_ok (w0 <| ew_saves ::= f |>)) by (intros w0 f []; by split).
  destruct Hstep as [now w req|now run w i e He|now w token inst s ttl records issued Hf Hi|now w token records Hr|now w|w i Hs|w i text run Hs].
  - by apply receive_ok.
  - by apply advance_request_ok.
  - apply Hsaves. apply issue_begin_ok in Hi as [Hro Hks]; [|done|apply Hok]. by apply world_ok_records.
  - apply Hsaves. apply revoke_begin_ok in Hr as [Hro Hks]; [|apply Hok]. by apply world_ok_records.
  - apply Hsaves. destruct (prune_begin_ok now (bs_records (ew_store w)) (wo_records _ Hok)). by apply world_ok_records.
  - by apply Hsaves.
  - apply Hsaves. destruct Hok. by split.
Qed.

Lemma enroll_world_ok store w :
  map_Forall record_ok (bs_records store) → rtc enroll_step (enroll_start store) w → world_ok w.
Proof.
  intros Hs Hr. revert Hr. apply (rtc_ind_r (λ q, world_ok q)).
  - split; [done|set_solver|done|constructor].
  - intros q q' _ Hstep IH. by eapply enroll_step_ok.
Qed.

Lemma granted_burns h w : world_ok w → certificates h w <= sum_with (burns h) (ew_requests w).
Proof.
  intros [_ _ _ Hc]. unfold certificates. induction Hc as [|e l He Hl IH]; [done|].
  rewrite filter_cons. simpl. assert (Hnn : 0 <= burns h e) by (unfold burns; case_match; lia).
  case_decide as Hg; [|lia]. rewrite len_cons.
  assert (Hb : burns h e = 1); [|lia].
  destruct e as [| | | |req b r]; try done. simpl in Hg. apply andb_prop in Hg as [Hh Hst%Z.eqb_eq].
  destruct (He Hst) as [-> _]. unfold burns. simpl. by rewrite Hh.
Qed.

(** a token buys at most one certificate.  However many requests present
    the same token side by side, with tokens issued, revoked and pruned and the
    file saved in between, at most one of them is answered with a certificate. *)
Theorem one_certificate_per_token store w h :
  map_Forall record_ok (bs_records store) → rtc enroll_step (enroll_start store) w → certificates h w <= 1.
Proof.
  intros Hs Hr. pose proof (enroll_world_ok store w Hs Hr) as Hok.
  pose proof (granted_burns h w Hok). pose proof (wo_once _ Hok h). lia.
Qed.

(** C27: a certificate is given only for a token that was issued for the
    instance the certificate names: the answer carries what the certificate
    authority signed for the requested SPIFFE id, and the token's record is for
    that id, names the same instance, was consumed before it expired and was
    not revoked. *)
Theorem certificate_bound_to_token store w req b r :
  map_Forall record_ok (bs_records store) → rtc enroll_step (enroll_start store) w →
  Answered req b r ∈ ew_requests w → resp_status r = OK →
  ∃ cert record t id,
    issue_agent_certificate_from_csr ca (er_spiffe_id req) (er_csr_pem req) = Ok cert ∧
    r = enrolled (er_spiffe_id req) cert (ca_pem ca) ∧
    bs_records (ew_store w) !! bootstrap_hash_token (er_token req) = Some record ∧
    tk_spiffe_id record = er_spiffe_id req ∧
    parse_spiffe (er_spiffe_id req) = Ok id ∧ sp_instance_id id = tk_instance_id record ∧
    tk_consumed_at record = Some t ∧ t <= tk_expires_at record ∧ tk_revoked_at record = None.
Proof.
  intros Hs Hr Hin Hst. pose proof (enroll_world_ok store w Hs Hr) as Hok.
  pose proof (proj1 (Forall_forall _ _) (wo_carries _ Hok) _ Hin) as Hc.
  destruct (Hc Hst) as [-> (cert & Hsig & Heq)].
  destruct (wo_spent _ Hok _ Hin eq_refl) as (record & t & Hrec & Hsp & Hcons & Hrev & Ht). simpl in *.
  destruct (wo_records _ Hok _ _ Hrec) as (_ & id & Hid & Hinst).
  exists cert, record, t, id. rewrite <-Hsp at 4. done.
Qed.

(** ** Restarts

    Here the methods run one at a time, each with its save, and the server may
    stop after any of them and start again from the file. *)

Record History : Type := {
  hi_store : BootstrapTokenStore;
  hi_answers : list (ConsumeBootstrapEnrollmentRequest * HttpResponse);
}.

Inductive serial_step : History → History → Prop :=
| ss_enroll now now' hi req run store r :
    consume_bootstrap_enrollment now now' (Some ca) (Some (hi_store hi)) req run = (Some store, r) →
    serial_step hi {| hi_store := store; hi_answers := (req, r) :: hi_answers hi |}
| ss_issue now hi token instance_id spiffe_id ttl run :
    bs_records (hi_store hi) !! bootstrap_hash_token token = None →
    serial_step hi (hi <| hi_store := (issue_token now (hi_store hi) token instance_id spiffe_id ttl run).1 |>)
| ss_revoke now hi token run : serial_step hi (hi <| hi_store := (revoke_token now (hi_store hi) token run).1 |>)
| ss_prune now hi run : serial_step hi (hi <| hi_store := (prune_expired_unconsumed now (hi_store hi) run).1 |>)
| ss_restart hi store :
    load_or_create (bs_file (hi_store hi)) = Ok store → serial_step hi (hi <| hi_store := store |>).

Definition fresh_history : History := {| hi_store := {| bs_records := ∅; bs_file := None |}; hi_answers := [] |}.

Definition granted_for (h : string) (a : ConsumeBootstrapEnrollmentRequest * HttpResponse) : bool :=
  bool_decide (bootstrap_hash_token (er_token a.1) = h) && (resp_status a.2 =? OK).

(** *** The file *)

Lemma records_of_union (l : list (string * TokenRecord)) (m : Records) :
  NoDup l.*1 → Forall (λ kv, tk_token_hash kv.2 = kv.1) l →
  foldl (λ m r, <[tk_token_hash r := r]> m) m l.*2 = list_to_map l ∪ m.
Proof.
  revert m. induction l as [|[k r] l IH]; intros m; [intros _ _; simpl; by rewrite (left_id_L ∅ (∪))|].
  rewrite fmap_cons, NoDup_cons, Forall_cons. intros [Hk Hn] [Hr Hall]. cbn [fst snd] in *. rewrite fmap_cons.
  cbn [foldl fst snd]. rewrite IH by done. rewrite Hr. cbn [list_to_map]. rewrite <-insert_union_r, insert_union_l; [done|].
  by apply not_elem_of_list_to_map.
Qed.

Lemma records_of_iter records : map_Forall record_ok records → records_of (iter records).*2 = records.
Proof.
  intros Hok. unfold records_of. rewrite records_of_union.
  - rewrite (right_id_L ∅ (∪)). rewrite (list_to_map_proper _ (map_to_list records)); [apply list_to_map_to_list| |apply iter_perm].
    rewrite iter_perm. apply NoDup_fst_map_to_list.
  - rewrite iter_perm. apply NoDup_fst_map_to_list.
  - apply Forall_forall. intros [k r] Hin%elem_of_iter. by destruct (Hok _ _ Hin).
Qed.

Lemma substring_all s n : (String.length s <= n)%nat → String.substring 0 n s = s.
Proof. revert n. induction s as [|c s IH]; intros [|n] Hn; simpl in *; [done..|lia|]. f_equal. apply IH. lia. Qed.

(** What loading the file would give. *)
Definition loads_to (file : option string) (l : list TokenRecord) : Prop :=
  ∃ raw, file = Some raw ∧ token_file_parse raw = Some l.

Lemma save_spec (laws : token_text_laws _) store run store' ok :
  save store run = (store', ok) →
  bs_records store' = bs_records store ∧
  (ok = true → bs_file store' = Some (snapshot (bs_records store))) ∧
  (∀ l, loads_to (bs_file store') l → loads_to (bs_file store) l ∨ l = (iter (bs_records store)).*2).
Proof.
  unfold save, write_file. destruct run as [| |n]; intros [= <- <-]; simpl; (split; [done|]); (split; [done|]).
  - intros l (raw & [= <-] & Hp). right. unfold snapshot in Hp. rewrite (token_text_parse _ laws) in Hp. congruence.
  - by left.
  - intros l (raw & [= <-] & Hp). right. unfold snapshot in Hp.
    destruct (decide (String.length (token_file_text (iter (bs_records store)).*2) <= n)%nat) as [Hn|Hn].
    + rewrite substring_all, (token_text_parse _ laws) in Hp by done. congruence.
    + rewrite (token_text_cut _ laws) in Hp; [done|lia].
Qed.

(** *** Spent tokens stay spent *)

Record history_ok (hi : History) : Prop := {
  ho_records : map_Forall record_ok (bs_records (hi_store hi));
  ho_file l : loads_to (bs_file (hi_store hi)) l → map_Forall record_ok (records_of l);
  ho_once h : len (filter (λ a, granted_for h a = true) (hi_answers hi)) <= 1;
  ho_spent h a : a ∈ hi_answers hi → granted_for h a = true →
    spent (bs_records (hi_store hi)) h ∧ is_Some (bs_file (hi_store hi)) ∧
    ∀ l, loads_to (bs_file (hi_store hi)) l → spent (records_of l) h;
}.

Lemma spent_keeps records records' h : keeps_spent records records' → spent records h → spent records' h.
Proof. intros Hk (r & Hr & Hc). exists r. split; [by apply Hk|done]. Qed.

(** A method that changes the records and saves. *)
Lemma history_ok_save (laws : token_text_laws _) hi records run store ok :
  history_ok hi → map_Forall record_ok records → keeps_spent (bs_records (hi_store hi)) records →
  save ((hi_store hi) <| bs_records := records |>) run = (store, ok) → history_ok (hi <| hi_store := store |>).
Proof.
  intros [Hr Hf Ho Hs] Hok Hk Hsave. destruct (save_spec laws _ _ _ _ Hsave) as (Hrec & _ & Hload).
  cbn [bs_records bs_file] in *. change (bs_records (_ <| bs_records := ?x |>)) with x in *.
  change (bs_file (_ <| bs_records := ?x |>)) with (bs_file (hi_store hi)) in *.
  split; simpl; [by rewrite Hrec| |done|].
  - intros l [Hl| ->]%Hload; [by apply Hf|]. by rewrite records_of_iter.
  - intros h a Ha Hg. destruct (Hs h a Ha Hg) as (Hsp & Hsome & Hall). rewrite Hrec. split; [by eapply spent_keeps|].
    split; [|intros l [Hl| ->]%Hload; [by apply Hall|rewrite records_of_iter by done; by eapply spent_keeps]].
    clear -Hsave Hsome. unfold save, write_file in Hsave. destruct run; injection Hsave as <- _; by simpl.
Qed.

Lemma history_ok_issue (laws : token_text_laws _) hi now token i s ttl run :
  history_ok hi → bs_records (hi_store hi) !! bootstrap_hash_token token = None →
  history_ok (hi <| hi_store := (issue_token now (hi_store hi) token i s ttl run).1 |>).
Proof.
  intros Hok Hf. unfold issue_token. destruct (issue_begin _ _ _ _ _ _) as [[records issued]|] eqn:Hi; [|by destruct hi].
  apply issue_begin_ok in Hi as [Hro Hks]; [|done|apply Hok].
  destruct (save _ _) as [store ok] eqn:Hsave. by eapply history_ok_save.
Qed.

Lemma history_ok_revoke (laws : token_text_laws _) hi now token run :
  history_ok hi → history_ok (hi <| hi_store := (revoke_token now (hi_store hi) token run).1 |>).
Proof.
  intros Hok. unfold revoke_token. destruct (revoke_begin _ _ _) as [records []] eqn:Hi; [|by destruct hi].
  apply revoke_begin_ok in Hi as [Hro Hks]; [|apply Hok].
  destruct (save _ _) as [store ok] eqn:Hsave. by eapply history_ok_save.
Qed.

Lemma history_ok_prune (laws : token_text_laws _) hi now run :
  history_ok hi → history_ok (hi <| hi_store := (prune_expired_unconsumed now (hi_store hi) run).1 |>).
Proof.
  intros Hok. unfold prune_expired_unconsumed.
  destruct (prune_begin_ok now (bs_records (hi_store hi)) (ho_records _ Hok)) as [Hro Hks].
  destruct (prune_begin now (bs_records (hi_store hi))) as [records removed]. cbn [fst] in *.
  destruct (0 <? removed).
  - destruct (save _ _) as [store ok] eqn:Hsave. by eapply history_ok_save.
  - destruct Hok as [Hr Hf Ho Hs]. split; simpl; [done..|]. intros h a Ha Hg.
    destruct (Hs h a Ha Hg) as (Hsp & Hrest). split; [by eapply spent_keeps|done].
Qed.

Lemma history_ok_restart hi store :
  history_ok hi → load_or_create (bs_file (hi_store hi)) = Ok store → history_ok (hi <| hi_store := store |>).
Proof.
  intros [Hr Hf Ho Hs] Hl. unfold load_or_create in Hl. destruct (bs_file (hi_store hi)) as [raw|] eqn:Hfile.
  - apply bind_Ok in Hl as (l & Hp%ok_or_Ok & [= <-]).
    assert (Hto : loads_to (Some raw) l) by by exists raw.
    split; simpl; [by apply Hf|done..|]. intros h a Ha Hg. destruct (Hs h a Ha Hg) as (_ & Hsome & Hall).
    split; [by apply Hall|done].
  - injection Hl as <-. split; simpl; [apply map_Forall_empty|done..|].
    intros h a Ha Hg. destruct (Hs h a Ha Hg) as (_ & [? [=]] & _).
Qed.

(** An answer that is not a certificate is only logged. *)
Lemma history_ok_refused hi req r :
  history_ok hi → resp_status r ≠ OK → history_ok (hi <| hi_answers ::= ((req, r) ::.) |>).
Proof.
  intros [Hr Hf Ho Hs] Hst.
  assert (Hno : ∀ h, granted_for h (req, r) = false)
    by (intros h; unfold granted_for; simpl; rewrite (proj2 (Z.eqb_neq _ _) Hst); apply andb_false_r).
  split; simpl; [done..| |].
  - intros h. rewrite filter_cons_False; [apply Ho|]. by rewrite Hno.
  - intros h a [->|Ha]%elem_of_cons Hg; [by rewrite Hno in Hg|]. by apply (Hs h a).
Qed.

Lemma history_ok_enroll (laws : token_text_laws _) hi now now' req run store r :
  history_ok hi →
  consume_bootstrap_enrollment now now' (Some ca) (Some (hi_store hi)) req run = (Some store, r) →
  history_ok {| hi_store := store; hi_answers := (req, r) :: hi_answers hi |}.
Proof.
  intros Hok. unfold consume_bootstrap_enrollment.
  destruct (request_problem _ _ req) as [r'|] eqn:Hrp.
  { intros [= <- <-]. apply (history_ok_refused hi); [done|]. by eapply request_problem_status. }
  destruct (validate_token _ _ _ _) as [c|e]; [|intros [= <- <-]; apply (history_ok_refused hi); [done|apply token_problem_status]].
  destruct (issue_agent_certificate_from_csr _ _ _) as [cert|e]; [|by intros [= <- <-]; apply (history_ok_refused hi)].
  unfold consume_token. destruct (consume_begin now' _ _ _) as [records [c'|e]] eqn:Hcb.
  2:{ intros [= <- <-]. apply (history_ok_refused hi); [done|apply token_problem_status]. }
  apply consume_begin_ok in Hcb as (Hro & Hks & Hsp & Hspent & Hfresh); [|apply Hok].
  destruct (save _ run) as [store' ok] eqn:Hsave.
  pose proof (history_ok_save laws _ _ _ _ _ Hok Hro Hks Hsave) as Hok'.
  destruct ok; intros [= <- <-]; [|exact (history_ok_refused _ req _ Hok' (token_problem_status TkPersistence))].
  destruct (save_spec laws _ _ _ _ Hsave) as (Hrec & Hfile & _). specialize (Hfile eq_refl).
  change (bs_records (_ <| bs_records := ?x |>)) with x in *.
  destruct Hok' as [Hr' Hf' Ho' Hs']. cbn in Hr', Hf', Ho', Hs'.
  assert (Hnew : ∀ h, granted_for h (req, enrolled (co_spiffe_id c') cert (ca_pem ca)) = true → h = bootstrap_hash_token (er_token req))
    by (intros h [Hh%bool_decide_eq_true _]%andb_prop; done).
  assert (Hrec_spent : spent records (bootstrap_hash_token (er_token req)))
    by by eapply spent_for_spent.
  split; cbn [hi_store hi_answers]; [done..| |].
  - intros h. rewrite filter_cons. case_decide as Hg; [|apply Ho']. rewrite len_cons. apply Hnew in Hg as ->.
    assert (Hnone : filter (λ a, granted_for (bootstrap_hash_token (er_token req)) a = true) (hi_answers hi) = []); [|by rewrite Hnone].
    destruct (filter _ (hi_answers hi)) as [|a rest] eqn:Hfil; [done|]. exfalso.
    assert (Hina : a ∈ a :: rest) by by left. rewrite <-Hfil in Hina. apply list_elem_of_filter in Hina as [Hga Ha]. by destruct (ho_spent _ Hok _ a Ha Hga) as [? _].
  - intros h a [->|Ha]%elem_of_cons Hg; [|by apply (Hs' h a)]. apply Hnew in Hg as ->. rewrite Hrec. split; [done|].
    rewrite Hfile. split; [done|]. intros l (raw & [= <-] & Hp). unfold snapshot in Hp.
    rewrite (token_text_parse _ laws) in Hp. injection Hp as <-. by rewrite records_of_iter.
Qed.


End world.

(** ** Samples *)

#[local] Existing Instance sample_iter.
#[local] Existing Instance sample_auth.
#[local] Existing Instance sample_env.
#[local] Existing Instance sample_uuid.

(** A token file here is a number in binary with a full stop at its end. *)
Fixpoint token_bits (p : positive) : string :=
  match p with
  | xH => "."
  | xO p => String.String "0"%char (token_bits p)
  | xI p => String.String "1"%char (token_bits p)
  end.
Fixpoint read_token_bits (s : string) : option positive :=
  match s with
  | String.String "0"%char s' => xO <$> read_token_bits s'
  | String.String "1"%char s' => xI <$> read_token_bits s'
  | String.String "."%char EmptyString => Some xH
  | _ => None
  end.

#[local] Instance TokenRecord_eq_dec : EqDecision TokenRecord.
Proof. solve_decision. Defined.
#[local] Instance TokenRecord_countable : Countable TokenRecord.
Proof.
  refine (inj_countable'
    (λ r, (tk_token_hash r, tk_instance_id r, tk_spiffe_id r, tk_expires_at r, tk_consumed_at r, tk_revoked_at r))
    (λ '(a, b, c, d, e, f), {| tk_token_hash := a; tk_instance_id := b; tk_spiffe_id := c; tk_expires_at := d;
       tk_consumed_at := e; tk_revoked_at := f |}) _). by intros [].
Defined.

#[local] Instance sample_token_text : TokenText :=
  {| token_file_text l := token_bits (encode l); token_file_parse s := read_token_bits s ≫= decode |}.

Lemma read_token_bits_exact p : read_token_bits (token_bits p) = Some p.
Proof. induction p as [p IH|p IH|]; simpl; [by rewrite IH..|done]. Qed.

Lemma read_token_bits_cut p n : (n < String.length (token_bits p))%nat → read_token_bits (String.substring 0 n (token_bits p)) = None.
Proof.
  revert n. induction p as [p IH|p IH|]; intros [|n]; simpl; intros Hn; try done; [by rewrite IH by lia..|lia].
Qed.

Lemma sample_token_laws : token_text_laws sample_token_text.
Proof.
  split.
  - intros l. simpl. rewrite read_token_bits_exact. apply decode_encode.
  - intros l n Hn. simpl in *. by rewrite read_token_bits_cut.
Qed.

Definition sample_ca : CaBackend :=
  {| issue_agent_certificate_from_csr s csr := Ok ("certificate for " +:+ s); ca_pem := "ca" |}.
Definition sample_spiffe : string := "spiffe://a.local/agent/" +:+ sample_instance.
Definition sample_request (token : string) : ConsumeBootstrapEnrollmentRequest :=
  {| er_token := token; er_spiffe_id := sample_spiffe; er_csr_pem := "csr" |}.

Definition empty_store : BootstrapTokenStore := {| bs_records := ∅; bs_file := None |}.

(** A world with the token [token] issued too. *)
Definition with_token (w : EnrollWorld) (token : string) : EnrollWorld :=
  match issue_begin 0 (bs_records (ew_store w)) token sample_instance sample_spiffe 600000 with
  | Ok (records, _) => (set_records w records) <| ew_saves ::= (None ::.) |>
  | Err _ => w
  end.
Definition move (w : EnrollWorld) (i : nat) : EnrollWorld :=
  advance_request sample_ca 1 Written w i (default (Signing (sample_request EmptyString)) (ew_requests w !! i)).

Definition sample_asked : EnrollWorld :=
  receive_request sample_ca 1 (with_token (enroll_start empty_store) "t") (sample_request "t").
Definition sample_granted : EnrollWorld := move (move (move (move sample_asked 0) 0) 0) 0.

Lemma sample_run : rtc (enroll_step sample_ca) (enroll_start empty_store) sample_granted.
Proof.
  eapply rtc_l; [eapply (es_issue _ 0 _ "t" sample_instance sample_spiffe 600000); [done|reflexivity]|].
  eapply rtc_l; [apply (es_receive _ 1 _ (sample_request "t"))|].
  do 3 (eapply rtc_l; [apply (es_advance _ 1 Written _ 0); reflexivity|]).
  eapply rtc_l; [apply (es_advance _ 1 Written _ 0); reflexivity|]. apply rtc_refl.
Qed.

Lemma one_certificate_per_token_witness :
  certificates (bootstrap_hash_token "t") sample_granted = 1 ∧ certificates (bootstrap_hash_token "t") sample_granted <= 1.
Proof.
  split; [reflexivity|].
  exact (one_certificate_per_token sample_ca empty_store sample_granted _ (map_Forall_empty _) sample_run).
Defined.

Lemma certificate_bound_to_token_witness :
  ∃ record, bs_records (ew_store sample_granted) !! bootstrap_hash_token "t" = Some record ∧
    tk_spiffe_id record = sample_spiffe ∧ tk_revoked_at record = None.
Proof.
  destruct (certificate_bound_to_token sample_ca empty_store sample_granted (sample_request "t") true
    (enrolled sample_spiffe ("certificate for " +:+ sample_spiffe) "ca") (map_Forall_empty _) sample_run)
    as (cert & record & t & id & _ & _ & Hr & Hs & _ & _ & _ & _ & Hv); [by left|reflexivity|].
  exact (ex_intro _ record (conj Hr (conj Hs Hv))).
Defined.

(** A token is issued and used, the server restarts, and it is used again. *)
Definition enroll_at (t : Z) (hi : History) : History :=
  let x := consume_bootstrap_enrollment t t (Some sample_ca) (Some (hi_store hi)) (sample_request "t") Written in
  {| hi_store := default (hi_store hi) x.1; hi_answers := (sample_request "t", x.2) :: hi_answers hi |}.
Definition restart_at (hi : History) : History :=
  match load_or_create (bs_file (hi_store hi)) with Ok s => hi <| hi_store := s |> | Err _ => hi end.
Definition sample_history : History :=
  enroll_at 2 (restart_at (enroll_at 1
    (fresh_history <| hi_store := (issue_token 0 (hi_store fresh_history) "t" sample_instance sample_spiffe 600000 Written).1 |>))).

Lemma enroll_at_step t hi : serial_step sample_ca hi (enroll_at t hi).
Proof.
  apply (ss_enroll _ t t _ _ Written). unfold consume_bootstrap_enrollment.
  destruct (request_problem _ _ _); [done|]. destruct (validate_token _ _ _ _); [|done].
  destruct (issue_agent_certificate_from_csr _ _ _); [|done]. by destruct (consume_token _ _ _ _ _) as [? []].
Qed.

Lemma restart_at_step hi : rtc (serial_step sample_ca) hi (restart_at hi).
Proof.
  unfold restart_at. destruct (load_or_create _) eqn:Hl; [|apply rtc_refl]. by apply rtc_once, ss_restart.
Qed.

Lemma sample_history_run : rtc (serial_step sample_ca) fresh_history sample_history.
Proof.
  eapply rtc_l; [by apply (ss_issue _ 0 _ "t" sample_instance sample_spiffe 600000 Written)|].
  eapply rtc_l; [apply (enroll_at_step 1)|]. etransitivity; [apply restart_at_step|].
  apply rtc_once, enroll_at_step.
Qed.


(** Two requests save side by side: the older snapshot is written last, and
    after a restart the token of the other request is good again. *)
Definition sample_crossed : EnrollWorld :=
  let w := with_token (with_token (enroll_start empty_store) "t") "u" in
  let w := receive_request sample_ca 1 (receive_request sample_ca 1 w (sample_request "t")) (sample_request "u") in
  let w := move (move (move w 0) 0) 0 in
  let w := move (move (move (move w 1) 1) 1) 1 in
  move w 0.

Lemma stale_snapshot_revives_token :
  certificates (bootstrap_hash_token "t") sample_crossed = 1 ∧
  certificates (bootstrap_hash_token "u") sample_crossed = 1 ∧
  match load_or_create (bs_file (ew_store sample_crossed)) with
  | Ok s => validate_token 2 (bs_records s) "u" sample_spiffe
  | Err _ => Err TkUnknown
  end = Ok {| co_instance_id := sample_instance; co_spiffe_id := sample_spiffe |}.
Proof. vm_compute. done. Qed.
