(* ===== verification/AuditLog.v ===== *)
(** * The security audit log

    Models management/src/audit/audit.rs: events, the daily log files with the
    hash chain, the rate limiter, the integrity check, queries and retention,
    and the helpers that log the common events.

    The files are the bytes written.  [tokio::io::BufWriter] is modelled with
    its buffer, since a failed flush keeps the bytes for the next one.  The
    text of an event, its parser and dates are the class [AuditText]; SHA-256
    and hex are those of [AuthEnv]. *)

From Stdlib Require Import Ascii.
From S2P Require Import Prelude Text Json CelldAuth.

Local Open Scope string_scope.
Local Open Scope list_scope.
Local Open Scope Z_scope.

(** ** Events *)

Inductive AuditEventType : Type :=
| TaskSubmission | TaskCancellation | TaskStateChange | VmProvision | VmDestroy | VmAccess | PtyAccess
| TranscriptAccess | SecretAccess | SecretRotation | GatewaySshLease | GatewaySshSession | ConfigChange
| AuthenticationAttempt | AuthorizationFailure | ApiAccess | SystemLifecycle | PolicyViolation.
#[export] Instance AuditEventType_eq_dec : EqDecision AuditEventType.
Proof. solve_decision. Defined.

Definition event_type_text (t : AuditEventType) : string :=
  match t with
  | TaskSubmission => "task_submission" | TaskCancellation => "task_cancellation"
  | TaskStateChange => "task_state_change" | VmProvision => "vm_provision" | VmDestroy => "vm_destroy"
  | VmAccess => "vm_access" | PtyAccess => "pty_access" | TranscriptAccess => "transcript_access"
  | SecretAccess => "secret_access" | SecretRotation => "secret_rotation"
  | GatewaySshLease => "gateway_ssh_lease" | GatewaySshSession => "gateway_ssh_session"
  | ConfigChange => "config_change" | AuthenticationAttempt => "authentication_attempt"
  | AuthorizationFailure => "authorization_failure" | ApiAccess => "api_access"
  | SystemLifecycle => "system_lifecycle" | PolicyViolation => "policy_violation"
  end.

Inductive AuditOutcome : Type := OutcomeSuccess | OutcomeFailure | OutcomeDenied.
#[export] Instance AuditOutcome_eq_dec : EqDecision AuditOutcome.
Proof. solve_decision. Defined.

Definition outcome_text (o : AuditOutcome) : string :=
  match o with OutcomeSuccess => "success" | OutcomeFailure => "failure" | OutcomeDenied => "denied" end.

Record AuditEvent : Type := {
  ev_id : string;
  ev_sequence : Z;
  ev_timestamp : Z;
  ev_type : AuditEventType;
  ev_actor : string;
  ev_resource : string;
  ev_action : string;
  ev_outcome : AuditOutcome;
  ev_details : json;
  ev_trace_id : option string;
  ev_source_ip : option string;
  ev_user_agent : option string;
  ev_prev_hash : option string;
}.

(** [AuditEvent::new], with the id and the time it draws. *)
Definition new_event (id : string) (now : Z) (t : AuditEventType) (actor resource action : string)
    (outcome : AuditOutcome) : AuditEvent :=
  {| ev_id := id; ev_sequence := 0; ev_timestamp := now; ev_type := t; ev_actor := actor;
     ev_resource := resource; ev_action := action; ev_outcome := outcome; ev_details := JNull;
     ev_trace_id := None; ev_source_ip := None; ev_user_agent := None; ev_prev_hash := None |}.

Definition with_details (e : AuditEvent) (details : json) : AuditEvent := e <| ev_details := details |>.
Definition with_trace_id (e : AuditEvent) (id : string) : AuditEvent := e <| ev_trace_id := Some id |>.
Definition with_source_ip (e : AuditEvent) (ip : string) : AuditEvent := e <| ev_source_ip := Some ip |>.
Definition with_user_agent (e : AuditEvent) (ua : string) : AuditEvent := e <| ev_user_agent := Some ua |>.

Record AuditConfig : Type := {
  retention_days : Z;
  enable_integrity_chain : bool;
  max_events_per_second : Z;
  buffer_size : Z;
}.

Definition default_audit_config : AuditConfig :=
  {| retention_days := 90; enable_integrity_chain := true; max_events_per_second := 1000; buffer_size := 8192 |}.

Inductive AuditError : Type :=
| AuIo (detail : string)
| AuJson
| AuNoCurrentFile
| AuInvalidRetention
| AuInvalidDatetime
| AuLogNotFound (date : string)
| AuRateLimited.
#[export] Instance AuditError_eq_dec : EqDecision AuditError.
Proof. solve_decision. Defined.

(** The text of an event ([serde_json], one line), [format("%Y-%m-%d")] of a
    time and the midnight a date names. *)
Class AuditText : Type := {
  event_line : AuditEvent → string;
  parse_line : string → option AuditEvent;
  format_date : Z → string;
  date_midnight : string → option Z;
}.

Definition newline : ascii := "010"%char.
Definition carriage : ascii := "013"%char.

(** What the log relies on: an event's text is one line that parses back. *)
Record audit_text_laws `{AuditText} : Prop := {
  line_parses : ∀ e, parse_line (event_line e) = Some e;
  line_single : ∀ e, contains_char (event_line e) newline = false;
  line_no_carriage : ∀ e, contains_char (event_line e) carriage = false;
  line_nonempty : ∀ e, event_line e ≠ EmptyString;
}.
Arguments audit_text_laws _ : clear implicits.

(** ** The rate limiter *)

Record AuditRateLimiter : Type := { rl_window_start : Z; rl_count : Z; rl_max : Z }.

Definition check_and_increment (now : Z) (r : AuditRateLimiter) : AuditRateLimiter * bool :=
  if rl_max r =? 0 then (r, true)
  else if 1 <=? Z.quot (now - rl_window_start r) 1000000000 then
    (r <| rl_window_start := now |> <| rl_count := 1 |>, true)
  else if rl_count r <? rl_max r then (r <| rl_count ::= λ n, n + 1 |>, true)
  else (r, false).

(** ** Files *)

(** The directory: file names and contents. *)
Abbreviation AuditDir := (gmap string string).

(** [reader.lines()]: the newline, and a carriage return before it, are cut;
    what follows the last newline is a line when it is not empty. *)
Definition cut_carriage (s : string) : string :=
  match str_rev s with
  | String.String c r => if Ascii.eqb c carriage then str_rev r else s
  | EmptyString => s
  end.

Fixpoint lines_of (segments : list string) : list string :=
  match segments with
  | [] => []
  | [last] => if decide (last = EmptyString) then [] else [last]
  | s :: segments => cut_carriage s :: lines_of segments
  end.
Definition file_lines (contents : string) : list string := lines_of (split_char newline contents).

(** The first [n] bytes, and the rest. *)
Fixpoint str_split (n : nat) (s : string) : string * string :=
  match n, s with
  | S n, String.String c s => let '(a, b) := str_split n s in (String.String c a, b)
  | _, _ => (EmptyString, s)
  end.

(** [BufWriter::flush_buf] and direct writes: the file takes the bytes in order;
    [fault] is the number it takes before it fails, if it does.  The bytes
    written, those left and the bytes it still takes; [None] when it failed. *)
Definition deliver_bytes (fault : option nat) (bytes : string) : string * string * option (option nat) :=
  match fault with
  | None => (bytes, EmptyString, Some None)
  | Some n =>
      if decide (String.length bytes ≤ n)%nat then (bytes, EmptyString, Some (Some (n - String.length bytes)%nat))
      else let '(written, rest) := str_split n bytes in (written, rest, None)
  end.

(** [write_all(line)] then [flush()] of a [BufWriter] of capacity [cap]: the
    bytes that reached the file, the buffer, and whether both succeeded. *)
Definition write_line (cap : Z) (fault : option nat) (buffer line : string) : string * string * bool :=
  let flushed := if cap <? str_len buffer + str_len line then deliver_bytes fault buffer else (EmptyString, buffer, Some fault) in
  match flushed with
  | (written, rest, None) => (written, rest, false)
  | (written, rest, Some fault) =>
      let direct := if cap <=? str_len line then
          match deliver_bytes fault line with
          | (w, _, f) => (w, rest, f)
          end
        else (EmptyString, rest +:+ line, Some fault) in
      match direct with
      | (w, rest, None) => (written +:+ w, rest, false)
      | (w, rest, Some fault) =>
          match deliver_bytes fault rest with
          | (w', rest, None) => (written +:+ w +:+ w', rest, false)
          | (w', rest, Some _) => (written +:+ w +:+ w', rest, true)
          end
      end
  end.

(** ** The logger *)

Record CurrentLogFile : Type := {
  lf_date : string;
  lf_last_hash : option string;
  lf_buffer : string;
}.

Record AuditLogger : Type := {
  al_current : option CurrentLogFile;
  al_sequence : Z;
  al_limiter : AuditRateLimiter;
  al_logged : Z;
  al_dropped : Z;
}.

Record AuditStats : Type := { st_logged : Z; st_dropped : Z; st_sequence : Z }.

Record IntegrityReport : Type := {
  ir_date : string;
  ir_total_events : Z;
  ir_valid_events : Z;
  ir_integrity_valid : bool;
  ir_broken_chain_at : option Z;
}.

Record AuditQueryFilter : Type := {
  qf_event_type : option AuditEventType;
  qf_actor : option string;
  qf_resource : option string;
  qf_outcome : option AuditOutcome;
  qf_limit : option Z;
}.

Record CleanupResult : Type := { cu_files_deleted : Z; cu_bytes_freed : Z }.

Definition log_name (date : string) : string := "audit-" +:+ date +:+ ".jsonl".

Section audit.
Context `{MapIter, Env, AuthEnv, AuditText}.
Variable cfg : AuditConfig.
Implicit Types (lg : AuditLogger) (dir : AuditDir) (e : AuditEvent).

Definition compute_hash e : string :=
  hex_encode (sha256 (ev_id e +:+ rfc3339 (ev_timestamp e) +:+ event_type_text (ev_type e) +:+ ev_actor e
    +:+ ev_resource e +:+ ev_action e +:+ outcome_text (ev_outcome e) +:+ json_text (ev_details e))).

(** [get_last_hash_from_file], with [.ok().flatten()]. *)
Definition get_last_hash_from_file (contents : option string) : option string :=
  contents ← contents;
  line ← last (filter (λ l, l ≠ EmptyString) (file_lines contents));
  compute_hash <$> parse_line line.

(** [open_fault]: the error of opening the file, if any. *)
Definition rotate_if_needed (now : Z) (open_fault : option string) dir lg
    : AuditDir * AuditLogger * result AuditError unit :=
  let today := format_date now in
  if bool_decide (lf_date <$> al_current lg = Some today) then (dir, lg, Ok ())
  else
    let lg := lg <| al_current := None |> <| al_sequence := 0 |> in
    match open_fault with
    | Some err => (dir, lg, Err (AuIo err))
    | None =>
        let dir := partial_alter (λ o, Some (default EmptyString o)) (log_name today) dir in
        let last_hash := if enable_integrity_chain cfg then get_last_hash_from_file (dir !! log_name today) else None in
        (dir, lg <| al_current := Some {| lf_date := today; lf_last_hash := last_hash; lf_buffer := EmptyString |} |>, Ok ())
    end.

(** [AuditLogger::new]; creating the directory is done. *)
Definition new_logger (now : Z) (open_fault : option string) dir : AuditDir * AuditLogger * result AuditError unit :=
  rotate_if_needed now open_fault dir
    {| al_current := None; al_sequence := 0;
       al_limiter := {| rl_window_start := now; rl_count := 0; rl_max := max_events_per_second cfg |};
       al_logged := 0; al_dropped := 0 |}.

(** [log] has four atomic parts: the rate limit, the rotation, the sequence
    number, and the write under the file's lock. *)
Definition log_limit (now : Z) lg : AuditLogger * result AuditError unit :=
  let '(limiter, admitted) := check_and_increment now (al_limiter lg) in
  let lg := lg <| al_limiter := limiter |> in
  if admitted then (lg, Ok ()) else (lg <| al_dropped ::= λ n, n + 1 |>, Err AuRateLimited).

Definition log_sequence lg e : AuditLogger * AuditEvent :=
  (lg <| al_sequence ::= wrap_add u64_max 1 |>, e <| ev_sequence := al_sequence lg |>).

Definition link_event (last : option string) e : AuditEvent :=
  if enable_integrity_chain cfg then e <| ev_prev_hash := last |> else e.

Definition log_write (fault : option nat) dir lg e : AuditDir * AuditLogger * result AuditError unit :=
  match al_current lg with
  | None => (dir, lg, Err AuNoCurrentFile)
  | Some f =>
      let e := link_event (lf_last_hash f) e in
      let last_hash := if enable_integrity_chain cfg then Some (compute_hash e) else lf_last_hash f in
      let line := event_line e +:+ String.String newline EmptyString in
      let '(written, buffer, ok) := write_line (buffer_size cfg) fault (lf_buffer f) line in
      let dir := partial_alter (λ o, Some (default EmptyString o +:+ written)) (log_name (lf_date f)) dir in
      let lg := lg <| al_current := Some (f <| lf_last_hash := last_hash |> <| lf_buffer := buffer |>) |> in
      if ok then (dir, lg <| al_logged ::= λ n, n + 1 |>, Ok ()) else (dir, lg, Err (AuIo "write"))
  end.

(** [log], run to its end. *)
Definition log_event (now now' : Z) (open_fault : option string) (fault : option nat) dir lg e
    : AuditDir * AuditLogger * result AuditError unit :=
  match log_limit now lg with
  | (lg, Err err) => (dir, lg, Err err)
  | (lg, Ok _) =>
      match rotate_if_needed now' open_fault dir lg with
      | (dir, lg, Err err) => (dir, lg, Err err)
      | (dir, lg, Ok _) => let '(lg, e) := log_sequence lg e in log_write fault dir lg e
      end
  end.

Definition audit_stats lg : AuditStats :=
  {| st_logged := al_logged lg; st_dropped := al_dropped lg; st_sequence := al_sequence lg |}.

(** ** The integrity check *)

Record VerifyState : Type := {
  vs_total : Z;
  vs_valid : Z;
  vs_broken : option Z;
  vs_prev : option string;
}.

Definition mark_broken (v : VerifyState) : VerifyState :=
  v <| vs_broken ::= λ o, match o with Some n => Some n | None => Some (vs_total v) end |>.

Definition verify_line (v : VerifyState) (line : string) : VerifyState :=
  if decide (line = EmptyString) then v
  else
    let v := v <| vs_total ::= λ n, n + 1 |> in
    match parse_line line with
    | None => mark_broken v
    | Some e =>
        let v :=
          if enable_integrity_chain cfg && (1 <? vs_total v) then
            match ev_prev_hash e, vs_prev v with
            | Some event_prev, Some actual_prev =>
                if bool_decide (event_prev = actual_prev) then v <| vs_valid ::= λ n, n + 1 |> else mark_broken v
            | _, _ => mark_broken v
            end
          else v <| vs_valid ::= λ n, n + 1 |> in
        v <| vs_prev := Some (compute_hash e) |>
    end.

Definition verify_start : VerifyState := {| vs_total := 0; vs_valid := 0; vs_broken := None; vs_prev := None |}.

Definition verify_integrity dir (date : string) : result AuditError IntegrityReport :=
  contents ← ok_or (dir !! log_name date) (AuLogNotFound date);
  let v := foldl verify_line verify_start (file_lines contents) in
  Ok {| ir_date := date; ir_total_events := vs_total v; ir_valid_events := vs_valid v;
        ir_integrity_valid := bool_decide (vs_broken v = None); ir_broken_chain_at := vs_broken v |}.

(** ** Queries *)

Definition event_matches (f : AuditQueryFilter) e : bool :=
  match qf_event_type f with Some t => bool_decide (ev_type e = t) | None => true end
  && match qf_actor f with Some a => contains_str (ev_actor e) a | None => true end
  && match qf_resource f with Some r => contains_str (ev_resource e) r | None => true end
  && match qf_outcome f with Some o => bool_decide (ev_outcome e = o) | None => true end.

(** The loop of [query] over the lines, with the events found so far. *)
Fixpoint query_lines (f : option AuditQueryFilter) (found : list AuditEvent) (lines : list string)
    : result AuditError (list AuditEvent) :=
  match lines with
  | [] => Ok found
  | line :: lines =>
      if decide (line = EmptyString) then query_lines f found lines
      else
        e ← ok_or (parse_line line) AuJson;
        match f with
        | None => query_lines f (found ++ [e]) lines
        | Some f' =>
            if negb (event_matches f' e) then query_lines f found lines
            else if match qf_limit f' with Some n => n <=? Z.of_nat (length found) | None => false end then Ok found
            else query_lines f (found ++ [e]) lines
        end
  end.

Definition query dir (date : string) (f : option AuditQueryFilter) : result AuditError (list AuditEvent) :=
  contents ← ok_or (dir !! log_name date) (AuLogNotFound date);
  query_lines f [] (file_lines contents).

(** ** Retention *)

(** A byte that cannot start a character: slicing there panics. *)
Definition inside_char (s : string) (i : nat) : bool :=
  match String.get i s with
  | Some c => (128 <=? byte_val c) && (byte_val c <=? 191)
  | None => false
  end.

Inductive NameDate : Type := NotALog | SlicePanics | Dated (midnight : Z).

Definition log_file_date (filename : string) : NameDate :=
  if negb (starts_with filename "audit-") || negb (ends_with filename ".jsonl") then NotALog
  else if str_len filename <? 16 then NotALog
  else if inside_char filename 6 || inside_char filename 16 then SlicePanics
  else match date_midnight (String.substring 6 10 filename) with
  | Some t => Dated t
  | None => NotALog
  end.

(** The loop over the directory's files; [remove]: the error of removing a
    file, if any.  [None] when it panics. *)
Fixpoint cleanup_files (cutoff : Z) (remove : string → option string) (files : list (string * string)) dir
    (done : CleanupResult) : option (AuditDir * result AuditError CleanupResult) :=
  match files with
  | [] => Some (dir, Ok done)
  | (name, contents) :: files =>
      match log_file_date name with
      | SlicePanics => None
      | NotALog => cleanup_files cutoff remove files dir done
      | Dated t =>
          if t <? cutoff then
            match remove name with
            | Some err => Some (dir, Err (AuIo err))
            | None => cleanup_files cutoff remove files (delete name dir)
                {| cu_files_deleted := cu_files_deleted done + 1;
                   cu_bytes_freed := cu_bytes_freed done + str_len contents |}
            end
          else cleanup_files cutoff remove files dir done
      end
  end.

Definition cleanup_old_logs (now : Z) (remove : string → option string) dir
    : option (AuditDir * result AuditError CleanupResult) :=
  if retention_days cfg =? 0 then Some (dir, Ok {| cu_files_deleted := 0; cu_bytes_freed := 0 |})
  else cleanup_files (now - retention_days cfg * 86400000000000) remove (iter dir) dir
         {| cu_files_deleted := 0; cu_bytes_freed := 0 |}.

End audit.

(** ** The common events *)

Section events.
Variables (id : string) (now : Z).
Abbreviation event := (new_event id now).

Definition from_ip (source_ip : option string) (e : AuditEvent) : AuditEvent :=
  match source_ip with Some ip => with_source_ip e ip | None => e end.

Definition task_submission_event (task_id actor task_name : string) (outcome : AuditOutcome) : AuditEvent :=
  with_details (event TaskSubmission actor task_id ("Submit task '" +:+ task_name +:+ "'") outcome)
    (json_obj [("task_name", JStr task_name)]).

Definition task_cancellation_event (task_id actor reason : string) (outcome : AuditOutcome) : AuditEvent :=
  with_details (event TaskCancellation actor task_id "Cancel task" outcome) (json_obj [("reason", JStr reason)]).

Definition vm_access_event (vm_name actor access_type : string) (outcome : AuditOutcome) (source_ip : option string)
    : AuditEvent :=
  from_ip source_ip (with_details (event VmAccess actor vm_name ("Access VM via " +:+ access_type) outcome)
    (json_obj [("access_type", JStr access_type)])).

Definition secret_access_event (secret_name actor operation : string) (outcome : AuditOutcome) : AuditEvent :=
  with_details (event SecretAccess actor secret_name ("Secret " +:+ operation) outcome)
    (json_obj [("operation", JStr operation)]).

Definition secret_rotation_event (secret_name rotation_type : string) (outcome : AuditOutcome) (details : option json)
    : AuditEvent :=
  let e := event SecretRotation "system" secret_name ("Rotate secret (" +:+ rotation_type +:+ ")") outcome in
  match details with Some d => with_details e d | None => e end.

Definition authentication_event (actor auth_method : string) (outcome : AuditOutcome) (source_ip : option string)
    : AuditEvent :=
  from_ip source_ip (with_details
    (event AuthenticationAttempt actor auth_method ("Authentication via " +:+ auth_method) outcome)
    (json_obj [("auth_method", JStr auth_method)])).

Definition authorization_failure_event (actor resource attempted_action reason : string) (source_ip : option string)
    : AuditEvent :=
  from_ip source_ip (with_details
    (event AuthorizationFailure actor resource ("Denied: " +:+ attempted_action) OutcomeDenied)
    (json_obj [("attempted_action", JStr attempted_action); ("reason", JStr reason)])).

Definition policy_violation_event (actor resource policy : string) (details : json) : AuditEvent :=
  with_details (event PolicyViolation actor resource ("Policy violation: " +:+ policy) OutcomeDenied)
    (json_obj [("policy", JStr policy); ("violation_details", details)]).

Definition system_lifecycle_event (event_name : string) (details : json) : AuditEvent :=
  with_details (event SystemLifecycle "system" "management-server" event_name OutcomeSuccess) details.

End events.

(** ** The text of a log *)

Lemma str_split_app n s : (str_split n s).1 +:+ (str_split n s).2 = s.
Proof.
  revert n. induction s as [|c s IH]; intros [|n]; try done. cbn [str_split]. specialize (IH n).
  destruct (str_split n s) as [a b]. cbn in *. by rewrite <- IH.
Qed.

Lemma deliver_bytes_app fault bytes : (deliver_bytes fault bytes).1.1 +:+ (deliver_bytes fault bytes).1.2 = bytes.
Proof.
  unfold deliver_bytes. destruct fault as [n|]; [|apply append_nil_r]. case_decide; [apply append_nil_r|].
  pose proof (str_split_app n bytes) as Hs. by destruct (str_split n bytes).
Qed.

Lemma deliver_bytes_ok fault bytes w r f : deliver_bytes fault bytes = (w, r, Some f) → r = EmptyString.
Proof.
  unfold deliver_bytes. destruct fault as [n|]; [|by intros [= <- <- <-]]. case_decide; [by intros [= <- <- <-]|].
  by destruct (str_split n bytes).
Qed.

(** The line reaches the file or the buffer: no write fails, or it fits the
    buffer. *)
Definition line_kept (cap : Z) (fault : option nat) (buffer line : string) : Prop :=
  fault = None ∨ (str_len buffer + str_len line <= cap ∧ str_len line < cap).

Lemma write_line_kept cap fault buffer line :
  line_kept cap fault buffer line →
  let '(written, rest, ok) := write_line cap fault buffer line in
  written +:+ rest = buffer +:+ line ∧ (ok = true → rest = EmptyString).
Proof.
  unfold write_line. intros [->|[Hfit Hlt]].
  - destruct (cap <? _) eqn:Hf; cbn [deliver_bytes]; destruct (cap <=? _) eqn:Hd; cbn [deliver_bytes]; (split; [|done]);
      rewrite ?append_nil_r; try reflexivity.
    destruct buffer as [|c buffer]; [by rewrite append_nil_r|]. reflect_bools. unfold str_len in *. cbn in *. lia.
  - rewrite (proj2 (Z.ltb_ge _ _)) by lia. rewrite (proj2 (Z.leb_gt _ _)) by lia.
    pose proof (deliver_bytes_app fault (buffer +:+ line)) as Ha. pose proof (deliver_bytes_ok fault (buffer +:+ line)) as Ho.
    destruct (deliver_bytes fault (buffer +:+ line)) as [[w r] [f|]]; cbn in *; (split; [done|]); [|done].
    intros _. by apply (Ho w r f).
Qed.

Lemma write_line_ok cap fault buffer line w r :
  write_line cap fault buffer line = (w, r, true) → w +:+ r = buffer +:+ line ∧ r = EmptyString.
Proof.
  assert (Hdel : ∀ f b w' r' f', deliver_bytes f b = (w', r', Some f') → w' = b ∧ r' = EmptyString).
  { intros f b w' r' f' Hd. pose proof (deliver_bytes_ok _ _ _ _ _ Hd) as ->. pose proof (deliver_bytes_app f b) as Ha.
    rewrite Hd in Ha. cbn in Ha. by rewrite append_nil_r in Ha. }
  unfold write_line. destruct (cap <? _) eqn:Hf.
  - destruct (deliver_bytes fault buffer) as [[w1 r1] [f1|]] eqn:Hw1; [|done]. apply Hdel in Hw1 as [-> ->].
    destruct (cap <=? _).
    + destruct (deliver_bytes f1 line) as [[w2 r2] [f2|]] eqn:Hw2; [|done]. apply Hdel in Hw2 as [-> ->].
      destruct (deliver_bytes f2 EmptyString) as [[w3 r3] [f3|]] eqn:Hw3; [|done]. apply Hdel in Hw3 as [-> ->].
      intros [= <- <-]. by rewrite !append_nil_r.
    + destruct (deliver_bytes f1 (EmptyString +:+ line)) as [[w3 r3] [f3|]] eqn:Hw3; [|done]. apply Hdel in Hw3 as [-> ->].
      intros [= <- <-]. by rewrite !append_nil_r.
  - destruct (cap <=? _) eqn:Hd.
    + assert (buffer = EmptyString) as ->.
      { destruct buffer as [|c b]; [done|]. reflect_bools. unfold str_len in *. cbn in *. lia. }
      destruct (deliver_bytes fault line) as [[w2 r2] [f2|]] eqn:Hw2; [|done]. apply Hdel in Hw2 as [-> ->].
      destruct (deliver_bytes f2 EmptyString) as [[w3 r3] [f3|]] eqn:Hw3; [|done]. apply Hdel in Hw3 as [-> ->].
      intros [= <- <-]. by rewrite !append_nil_r.
    + destruct (deliver_bytes fault (buffer +:+ line)) as [[w3 r3] [f3|]] eqn:Hw3; [|done]. apply Hdel in Hw3 as [-> ->].
      intros [= <- <-]. by rewrite !append_nil_r.
Qed.

Lemma cut_carriage_none x : contains_char x carriage = false → cut_carriage x = x.
Proof.
  intros Hx. unfold cut_carriage. destruct (str_rev x) as [|c r] eqn:Hr; [done|].
  destruct (Ascii.eqb c carriage) eqn:Hc; [|done]. apply Ascii.eqb_eq in Hc as ->.
  rewrite <- (str_rev_involutive x), Hr in Hx. change (String.String carriage r) with (String.String carriage EmptyString +:+ r) in Hx.
  rewrite str_rev_append, contains_char_append in Hx. apply orb_false_iff in Hx as [_ Hx]. done.
Qed.

(** ** The chain *)

Section chain.
Context `{MapIter, Env, AuthEnv, AuditText}.
Hypothesis laws : audit_text_laws _.
Variable cfg : AuditConfig.
Implicit Types (lg : AuditLogger) (dir : AuditDir) (e : AuditEvent).

(** Every event after the first names the hash of the one before it. *)
Fixpoint links (h : string) (evs : list AuditEvent) : Prop :=
  match evs with
  | [] => True
  | e :: evs => ev_prev_hash e = Some h ∧ links (compute_hash e) evs
  end.
Definition chained (evs : list AuditEvent) : Prop :=
  match evs with [] => True | e :: evs => links (compute_hash e) evs end.

(** The file the events make. *)
Fixpoint render (evs : list AuditEvent) : string :=
  match evs with
  | [] => EmptyString
  | e :: evs => event_line e +:+ String.String newline (render evs)
  end.

Lemma render_app evs evs' : render (evs ++ evs') = render evs +:+ render evs'.
Proof. induction evs as [|e evs IH]; [done|]. cbn [render app]. rewrite IH, append_assoc. done. Qed.

Lemma links_snoc h evs e :
  links h (evs ++ [e]) ↔ links h evs ∧ ev_prev_hash e = Some (default h (compute_hash <$> last evs)).
Proof.
  revert h. induction evs as [|x evs IH]; intros h; [cbn; tauto|]. cbn [links app]. rewrite IH, last_cons.
  destruct (last evs); cbn; tauto.
Qed.

Lemma chained_snoc evs e :
  chained (evs ++ [e]) ↔ chained evs ∧ (evs = [] ∨ ev_prev_hash e = compute_hash <$> last evs).
Proof.
  destruct evs as [|x evs]; [cbn; tauto|]. cbn [chained app]. rewrite links_snoc, last_cons.
  destruct (last evs); cbn; naive_solver.
Qed.

Lemma render_lines evs : file_lines (render evs) = event_line <$> evs.
Proof using laws.
  unfold file_lines. induction evs as [|e evs IH]; [done|]. cbn [render fmap list_fmap].
  rewrite split_char_app by apply (line_single laws). rewrite <- IH.
  destruct (split_char newline (render evs)) as [|s ss] eqn:Hs; [by apply split_char_nonempty in Hs|].
  cbn [lines_of]. by rewrite cut_carriage_none by apply (line_no_carriage laws).
Qed.

Lemma lines_nonempty (evs : list AuditEvent) : filter (λ l, l ≠ EmptyString) (event_line <$> evs) = event_line <$> evs.
Proof using laws.
  induction evs as [|e evs IH]; [done|]. cbn [fmap list_fmap]. rewrite filter_cons_True by apply (line_nonempty laws).
  f_equal. exact IH.
Qed.

(** What the events of a file's lines are, when each line is one. *)
Definition parsed (lines : list string) : option (list AuditEvent) :=
  mapM parse_line (filter (λ l, l ≠ EmptyString) lines).

Lemma parsed_render evs : parsed (file_lines (render evs)) = Some evs.
Proof using laws.
  rewrite render_lines. unfold parsed. rewrite lines_nonempty. apply mapM_Some.
  induction evs as [|e evs IH]; cbn [fmap list_fmap]; constructor; [apply (line_parses laws)|done].
Qed.

(** *** The check *)

Lemma verify_sticky v line : vs_broken v ≠ None → vs_broken (verify_line cfg v line) ≠ None.
Proof.
  intros Hv. unfold verify_line, mark_broken. cbv zeta.
  repeat case_match; cbn; try done; by destruct (vs_broken v).
Qed.

Lemma verify_all_sticky v lines : vs_broken v ≠ None → vs_broken (foldl (verify_line cfg) v lines) ≠ None.
Proof. revert v. induction lines as [|l lines IH]; intros v Hv; [done|]. cbn. by apply IH, verify_sticky. Qed.

(** A line after the first: it has to be an event that names the hash. *)
Lemma verify_next v h line :
  vs_broken v = None → vs_prev v = Some h → 1 <= vs_total v → line ≠ EmptyString →
  match parse_line line with
  | Some e =>
      if decide (enable_integrity_chain cfg = true → ev_prev_hash e = Some h) then
        verify_line cfg v line = {| vs_total := vs_total v + 1; vs_valid := vs_valid v + 1; vs_broken := None;
                                    vs_prev := Some (compute_hash e) |}
      else vs_broken (verify_line cfg v line) ≠ None
  | None => vs_broken (verify_line cfg v line) ≠ None
  end.
Proof.
  intros Hb Hp Ht Hl. unfold verify_line. rewrite decide_False by done. destruct v as [n m br pr]. cbn in *. subst.
  destruct (parse_line line) as [e|]; [|done]. rewrite (proj2 (Z.ltb_lt _ _)) by lia. rewrite andb_true_r.
  destruct (enable_integrity_chain cfg); cbn; [|by rewrite decide_True].
  destruct (ev_prev_hash e) as [p|]; cbn.
  - case_bool_decide as Hph; [subst p; by rewrite decide_True|].
    rewrite decide_False by naive_solver. done.
  - rewrite decide_False by naive_solver. done.
Qed.

Definition links_if (h : string) (evs : list AuditEvent) : Prop := enable_integrity_chain cfg = true → links h evs.

Lemma verify_rest v h lines :
  vs_broken v = None → vs_prev v = Some h → 1 <= vs_total v →
  vs_broken (foldl (verify_line cfg) v lines) = None ↔ ∃ evs, parsed lines = Some evs ∧ links_if h evs.
Proof.
  unfold parsed, links_if. revert v h. induction lines as [|line lines IH]; intros v h Hb Hp Ht.
  { cbn. split; [|done]. intros _. by exists []. }
  cbn [foldl]. destruct (decide (line = EmptyString)) as [->|Hl].
  { rewrite filter_cons_False by naive_solver. unfold verify_line at 2. rewrite decide_True by done. by apply IH. }
  rewrite filter_cons_True by done. pose proof (verify_next v h line Hb Hp Ht Hl) as Hn. cbn [mapM].
  destruct (parse_line line) as [e|]; cbn [mbind option_bind].
  2: { split; [|by intros (? & ? & _)]. intros Hv. by apply (verify_all_sticky _ lines) in Hn. }
  case_decide as Hd.
  - rewrite Hn, (IH _ (compute_hash e)) by (cbn; first [done|lia]). split.
    + intros (evs & -> & Hlink). exists (e :: evs). cbn. naive_solver.
    + intros (evs & Hm & Hlink). destruct (mapM _ _) as [evs'|]; [|done]. injection Hm as <-.
      exists evs'. split; [done|]. intros Hc. by apply Hlink.
  - split; [intros Hv; by apply (verify_all_sticky _ lines) in Hn|].
    intros (evs & Hm & Hlink). destruct (mapM _ _) as [evs'|]; [|done]. injection Hm as <-.
    exfalso. apply Hd. intros Hc. by apply Hlink.
Qed.

Definition chained_if (evs : list AuditEvent) : Prop := enable_integrity_chain cfg = true → chained evs.

Lemma verify_all lines :
  vs_broken (foldl (verify_line cfg) verify_start lines) = None ↔ ∃ evs, parsed lines = Some evs ∧ chained_if evs.
Proof.
  unfold chained_if. induction lines as [|line lines IH].
  { cbn. split; [|done]. intros _. by exists []. }
  destruct (decide (line = EmptyString)) as [->|Hl].
  { unfold parsed. rewrite filter_cons_False by naive_solver. exact IH. }
  cbn [foldl]. unfold parsed. rewrite filter_cons_True by done. cbn [mapM]. unfold verify_line at 2.
  rewrite decide_False by done. destruct (parse_line line) as [e|]; cbn [mbind option_bind].
  2: { split; [|by intros (? & ? & _)]. intros Hv. by destruct (verify_all_sticky (mark_broken (verify_start <| vs_total ::= λ n, n + 1 |>)) lines). }
  change (1 <? vs_total _) with false. rewrite andb_false_r.
  rewrite (verify_rest _ (compute_hash e)) by (cbn; first [done|lia]). unfold links_if, parsed. split.
  - intros (evs & -> & Hlink). by exists (e :: evs).
  - intros (evs & Hm & Hlink). destruct (mapM _ _) as [evs'|]; [|done]. injection Hm as <-. by exists evs'.
Qed.

Lemma verify_line_counts v line :
  vs_broken (verify_line cfg v line) = None → vs_total v = vs_valid v →
  vs_total (verify_line cfg v line) = vs_total v + (if decide (line = EmptyString) then 0 else 1) ∧
  vs_total (verify_line cfg v line) = vs_valid (verify_line cfg v line).
Proof.
  unfold verify_line, mark_broken. cbv zeta. repeat case_match; cbn; try lia; by destruct (vs_broken v).
Qed.

Lemma verify_counts v lines :
  vs_broken (foldl (verify_line cfg) v lines) = None → vs_total v = vs_valid v →
  vs_total (foldl (verify_line cfg) v lines) = vs_total v + Z.of_nat (length (filter (λ l, l ≠ EmptyString) lines)) ∧
  vs_total (foldl (verify_line cfg) v lines) = vs_valid (foldl (verify_line cfg) v lines).
Proof.
  revert v. induction lines as [|line lines IH]; intros v Hb Hv; [cbn; lia|]. cbn [foldl] in *.
  assert (Hb' : vs_broken (verify_line cfg v line) = None).
  { destruct (vs_broken (verify_line cfg v line)) eqn:Hx; [|done].
    by destruct (verify_all_sticky (verify_line cfg v line) lines); [rewrite Hx|]. }
  destruct (verify_line_counts v line Hb' Hv) as [Ht Hv']. destruct (IH _ Hb Hv') as [Ht2 Hv2].
  split; [|done]. rewrite Ht2, Ht, filter_cons. repeat case_decide; try done; cbn [length]; lia.
Qed.

(** what the integrity check certifies.  It reports a log as valid exactly
    when every line that is not empty is an event and, with the chain enabled,
    every event after the first names the hash of the one before it; it then
    counts every line as a valid event. *)
Theorem integrity_exact dir date report :
  verify_integrity cfg dir date = Ok report →
  ∃ contents, dir !! log_name date = Some contents ∧
    (ir_integrity_valid report = true ↔
      ∃ evs, parsed (file_lines contents) = Some evs ∧ (enable_integrity_chain cfg = true → chained evs)) ∧
    (ir_integrity_valid report = true →
      ir_valid_events report = ir_total_events report ∧
      ir_total_events report = Z.of_nat (length (filter (λ l, l ≠ EmptyString) (file_lines contents)))).
Proof.
  intros (contents & Hc%ok_or_Ok & [= <-])%bind_Ok. exists contents. split; [done|]. cbn [ir_integrity_valid ir_valid_events ir_total_events].
  rewrite bool_decide_eq_true, verify_all. split; [done|]. intros Hv. apply verify_all in Hv.
  destruct (verify_counts verify_start _ Hv eq_refl) as [Ht Hv']. cbn in Ht. by rewrite <- Hv', Ht.
Qed.

(** *** The log *)

Definition no_pending lg : Prop := ∀ f, al_current lg = Some f → lf_buffer f = EmptyString.
Definition log_line e : string := event_line e +:+ String.String newline EmptyString.

(** The atomic parts of the logger's calls, in any order: the calls of any
    number of tasks interleave.  A write that fails keeps its line in the
    buffer, a file is left and a logger restarted with nothing pending. *)
Inductive audit_step : AuditDir * AuditLogger → AuditDir * AuditLogger → Prop :=
| step_limit now dir lg : audit_step (dir, lg) (dir, (log_limit now lg).1)
| step_rotate now open_fault dir lg :
    no_pending lg → audit_step (dir, lg) (rotate_if_needed cfg now open_fault dir lg).1
| step_sequence e dir lg : audit_step (dir, lg) (dir, (log_sequence lg e).1)
| step_write fault e dir lg :
    (∀ f, al_current lg = Some f →
       line_kept (buffer_size cfg) fault (lf_buffer f) (log_line (link_event cfg (lf_last_hash f) e))) →
    audit_step (dir, lg) (log_write cfg fault dir lg e).1
| step_restart now open_fault dir lg :
    no_pending lg → audit_step (dir, lg) (new_logger cfg now open_fault dir).1.

(** The file, with what is pending, is the text of a chain whose last hash the
    logger holds; every other file is the text of a chain. *)
Definition file_ok (contents : string) : Prop := ∃ evs, contents = render evs ∧ chained_if evs.
Definition current_ok dir (f : CurrentLogFile) : Prop :=
  ∃ contents evs, dir !! log_name (lf_date f) = Some contents ∧ contents +:+ lf_buffer f = render evs ∧ chained_if evs ∧
    (enable_integrity_chain cfg = true → lf_last_hash f = compute_hash <$> last evs).
Definition log_inv (s : AuditDir * AuditLogger) : Prop :=
  match al_current s.2 with
  | None => map_Forall (λ _ c, file_ok c) s.1
  | Some f => current_ok s.1 f ∧ map_Forall (λ n c, n ≠ log_name (lf_date f) → file_ok c) s.1
  end.

Lemma log_inv_idle dir lg : log_inv (dir, lg) → no_pending lg → map_Forall (λ _ c, file_ok c) dir.
Proof.
  unfold log_inv, no_pending. cbn [fst snd]. destruct (al_current lg) as [f|]; [|done].
  intros [(c & evs & Hc & Hr & Hch & _) Ho] Hp n c' Hc'. rewrite (Hp f eq_refl), append_nil_r in Hr. subst c.
  destruct (decide (n = log_name (lf_date f))) as [->|Hne]; [|by apply (Ho n)].
  rewrite Hc in Hc'. injection Hc' as <-. by exists evs.
Qed.

Lemma last_hash_render evs : get_last_hash_from_file (Some (render evs)) = compute_hash <$> last evs.
Proof using laws.
  unfold get_last_hash_from_file. cbn [mbind option_bind]. rewrite render_lines.
  rewrite lines_nonempty, fmap_last. destruct (last evs) as [e|]; [|done]. cbn. by rewrite (line_parses laws).
Qed.

Lemma rotate_inv now open_fault dir lg :
  map_Forall (λ _ c, file_ok c) dir → lf_date <$> al_current lg ≠ Some (format_date now) →
  log_inv (rotate_if_needed cfg now open_fault dir lg).1.
Proof using laws.
  intros Hd Hne. unfold rotate_if_needed. rewrite bool_decide_eq_false_2 by done. destruct open_fault; [done|].
  set (name := log_name _). set (dir' := partial_alter _ _ _).
  assert (Hn : ∃ evs, dir' !! name = Some (render evs) ∧ chained_if evs).
  { unfold dir'. rewrite lookup_partial_alter_eq. destruct (dir !! name) as [c|] eqn:Hc; cbn.
    - destruct (Hd name c Hc) as (evs & -> & Hch). by exists evs.
    - exists []. split; [done|]. by intros _. }
  destruct Hn as (evs & Hn & Hch). unfold log_inv. cbn. split.
  - exists (render evs), evs. cbn. rewrite append_nil_r. split_and!; [done..|].
    intros ->. by rewrite Hn, last_hash_render.
  - intros n c Hc Hn'. apply (Hd n). unfold dir' in Hc. by rewrite lookup_partial_alter_ne in Hc by done.
Qed.

(** The write of an event whose line is not lost. *)
Lemma write_inv fault e dir lg f :
  log_inv (dir, lg) → al_current lg = Some f →
  (let '(w, r, _) := write_line (buffer_size cfg) fault (lf_buffer f) (log_line (link_event cfg (lf_last_hash f) e)) in
   w +:+ r = lf_buffer f +:+ log_line (link_event cfg (lf_last_hash f) e)) →
  log_inv (log_write cfg fault dir lg e).1.
Proof.
  unfold log_write, log_inv at 1. cbn [fst snd]. intros Hinv Hf Hw. rewrite Hf in Hinv |- *.
  destruct Hinv as [(c & evs & Hc & Hr & Hch & Hh) Ho]. fold (log_line (link_event cfg (lf_last_hash f) e)).
  set (e' := link_event cfg (lf_last_hash f) e) in *. fold (log_line e').
  destruct (write_line _ _ _ _) as [[w r] ok].
  set (dir' := partial_alter _ _ _). set (h' := if enable_integrity_chain cfg then _ else _).
  set (f' := f <| lf_last_hash := h' |> <| lf_buffer := r |>).
  assert (Hgoal : current_ok dir' f' ∧ map_Forall (λ n c, n ≠ log_name (lf_date f) → file_ok c) dir').
  { split.
    - exists (c +:+ w), (evs ++ [e']). unfold dir', f'. cbn. rewrite lookup_partial_alter_eq, Hc. cbn. split_and!; [done| | |].
      + rewrite append_assoc, Hw, <- append_assoc, Hr, render_app. done.
      + intros Hen. apply chained_snoc. split; [by apply Hch|]. right. unfold e', link_event. rewrite Hen. by apply Hh.
      + intros Hen. unfold h'. rewrite Hen, last_snoc. done.
    - intros n c' Hc' Hn. apply (Ho n); [|done]. unfold dir' in Hc'. by rewrite lookup_partial_alter_ne in Hc' by done. }
  destruct ok; exact Hgoal.
Qed.

Lemma rotate_if_needed_inv now open_fault dir lg :
  log_inv (dir, lg) → no_pending lg → log_inv (rotate_if_needed cfg now open_fault dir lg).1.
Proof using laws.
  intros Hinv Hp. destruct (decide (lf_date <$> al_current lg = Some (format_date now))) as [Heq|Hne].
  - unfold rotate_if_needed. by rewrite bool_decide_eq_true_2.
  - apply rotate_inv; [|done]. by eapply log_inv_idle.
Qed.

Lemma audit_step_inv s s' : log_inv s → audit_step s s' → log_inv s'.
Proof using laws.
  intros Hinv Hs. destruct Hs as [now dir lg|now open_fault dir lg Hp|e dir lg|fault e dir lg Hk|now open_fault dir lg Hp].
  - unfold log_limit. destruct (check_and_increment _ _) as [lim []]; exact Hinv.
  - by apply rotate_if_needed_inv.
  - exact Hinv.
  - destruct (al_current lg) as [f|] eqn:Hf; [|unfold log_write; by rewrite Hf].
    apply (write_inv _ _ _ _ f); [done|done|]. specialize (Hk f eq_refl). apply write_line_kept in Hk.
    destruct (write_line _ _ _ _) as [[w r] ok]. apply Hk.
  - apply rotate_inv; [|done]. by eapply log_inv_idle.
Qed.

(** Files only grow. *)
Definition grows dir dir' : Prop :=
  ∀ n c, dir !! n = Some c → ∃ t, dir' !! n = Some (c +:+ t).

Lemma grows_refl dir : grows dir dir.
Proof. intros n c Hc. exists EmptyString. by rewrite append_nil_r. Qed.

Lemma grows_alter dir name w :
  grows dir (partial_alter (λ o, Some (default EmptyString o +:+ w)) name dir).
Proof.
  intros n c Hc. destruct (decide (n = name)) as [->|Hne].
  - exists w. by rewrite lookup_partial_alter_eq, Hc.
  - exists EmptyString. by rewrite lookup_partial_alter_ne, append_nil_r.
Qed.

Lemma rotate_grows now open_fault dir lg : grows dir (rotate_if_needed cfg now open_fault dir lg).1.1.
Proof.
  unfold rotate_if_needed. case_bool_decide; [apply grows_refl|]. destruct open_fault; [apply grows_refl|]. cbn.
  intros n c Hc. exists EmptyString. rewrite append_nil_r. destruct (decide (n = log_name (format_date now))) as [->|Hne].
  - by rewrite lookup_partial_alter_eq, Hc.
  - by rewrite lookup_partial_alter_ne.
Qed.

Lemma audit_step_grows s s' : audit_step s s' → grows s.1 s'.1.
Proof.
  intros Hs. destruct Hs as [now dir lg|now open_fault dir lg Hp|e dir lg|fault e dir lg Hk|now open_fault dir lg Hp]; cbn [fst].
  - apply grows_refl.
  - apply rotate_grows.
  - apply grows_refl.
  - unfold log_write. destruct (al_current lg); [|apply grows_refl].
    destruct (write_line _ _ _ _) as [[w r] []]; apply grows_alter.
  - apply rotate_grows.
Qed.

Lemma audit_run_ok s s' : log_inv s → rtc audit_step s s' → log_inv s' ∧ grows s.1 s'.1.
Proof using laws.
  intros Hinv Hr. induction Hr as [s|s1 s2 s3 Hs Hr IH]; [split; [done|apply grows_refl]|].
  pose proof (audit_step_inv _ _ Hinv Hs) as Hinv'. destruct (IH Hinv') as [Hi Hg]. split; [done|].
  intros n c Hc. destruct (audit_step_grows _ _ Hs n c Hc) as [t Ht]. destruct (Hg n _ Ht) as [t' Ht'].
  exists (t +:+ t'). by rewrite <- append_assoc.
Qed.

Lemma render_prefix evs t evs' : render evs +:+ t = render evs' → ∃ evs'', evs' = evs ++ evs''.
Proof using laws.
  revert evs'. induction evs as [|e evs IH]; intros evs' Hr; [by exists evs'|].
  destruct evs' as [|e' evs']; cbn [render] in Hr.
  - destruct (event_line e) eqn:He; [by apply (line_nonempty laws) in He|done].
  - rewrite append_assoc in Hr. change (String.String newline ?x +:+ t) with (String.String newline (x +:+ t)) in Hr.
    apply (f_equal (split_once newline)) in Hr. rewrite !split_once_app in Hr by apply (line_single laws).
    injection Hr as Hl Hr. destruct (IH _ Hr) as [evs'' ->]. exists evs''.
    apply (f_equal parse_line) in Hl. rewrite !(line_parses laws) in Hl. by injection Hl as ->.
Qed.

Lemma query_all found evs : query_lines None found (event_line <$> evs) = Ok (found ++ evs).
Proof using laws.
  revert found. induction evs as [|e evs IH]; intros found; [by rewrite app_nil_r|]. cbn [fmap list_fmap query_lines].
  rewrite decide_False by apply (line_nonempty laws). rewrite (line_parses laws). cbn. rewrite IH.
  by rewrite <- app_assoc.
Qed.

Lemma verify_render dir date evs :
  dir !! log_name date = Some (render evs) → chained_if evs →
  ∃ r, verify_integrity cfg dir date = Ok r ∧ ir_integrity_valid r = true.
Proof using laws.
  intros Hd Hch. unfold verify_integrity. rewrite Hd. cbn [ok_or mbind]. eexists. split; [reflexivity|].
  cbn [ir_integrity_valid]. apply bool_decide_eq_true. apply verify_all. exists evs. split; [apply parsed_render|done].
Qed.

(** A write that succeeds leaves the event at the end of the file. *)
Lemma write_appends fault e dir lg dir1 lg1 :
  log_inv (dir, lg) → log_write cfg fault dir lg e = (dir1, lg1, Ok ()) →
  ∃ f evs, al_current lg = Some f ∧ log_inv (dir1, lg1) ∧
    dir1 !! log_name (lf_date f) = Some (render (evs ++ [link_event cfg (lf_last_hash f) e])).
Proof.
  intros Hinv Hw. destruct (al_current lg) as [f|] eqn:Hf; [|unfold log_write in Hw; by rewrite Hf in Hw].
  set (e' := link_event cfg (lf_last_hash f) e).
  assert (Hok : write_line (buffer_size cfg) fault (lf_buffer f) (log_line e') =
    (lf_buffer f +:+ log_line e', EmptyString, true)).
  { unfold log_write in Hw. rewrite Hf in Hw. fold e' in Hw. fold (log_line e') in Hw.
    destruct (write_line _ _ _ _) as [[w r] []] eqn:Hwl; [|done].
    apply write_line_ok in Hwl as [Ha ->]. rewrite append_nil_r in Ha. by rewrite Ha. }
  pose proof Hinv as Hi. unfold log_inv in Hi. cbn in Hi. rewrite Hf in Hi. destruct Hi as [(c & evs & Hc & Hr & _) _].
  exists f, evs. split_and!; [done| |].
  - replace (dir1, lg1) with (log_write cfg fault dir lg e).1 by (by rewrite Hw).
    apply (write_inv _ _ _ _ f); [done..|]. fold e'. by rewrite Hok, append_nil_r.
  - unfold log_write in Hw. rewrite Hf in Hw. fold e' in Hw. fold (log_line e') in Hw. rewrite Hok in Hw.
    injection Hw as <- _. rewrite lookup_partial_alter_eq, Hc. cbn. by rewrite <- append_assoc, Hr, render_app.
Qed.


(** *** Tampering *)

Lemma links_app h pre x post :
  links h (pre ++ x :: post) ↔
  links h pre ∧ ev_prev_hash x = Some (default h (compute_hash <$> last pre)) ∧ links (compute_hash x) post.
Proof.
  revert h. induction pre as [|y pre IH]; intros h; [cbn; tauto|]. cbn [links app]. rewrite IH, last_cons.
  destruct (last pre); cbn; tauto.
Qed.

Lemma chained_app pre x post :
  chained (pre ++ x :: post) ↔
  chained pre ∧ (pre = [] ∨ ev_prev_hash x = compute_hash <$> last pre) ∧ links (compute_hash x) post.
Proof.
  destruct pre as [|y pre]; [cbn; tauto|]. cbn [chained app]. rewrite links_app, last_cons.
  destruct (last pre); cbn; naive_solver.
Qed.

Lemma verify_not_chained dir date evs report :
  enable_integrity_chain cfg = true → dir !! log_name date = Some (render evs) → ¬ chained evs →
  verify_integrity cfg dir date = Ok report → ir_integrity_valid report = false.
Proof using laws.
  intros Hen Hd Hch (c & Hc%ok_or_Ok & [= <-])%bind_Ok. cbn [ir_integrity_valid]. rewrite Hd in Hc. injection Hc as <-.
  apply bool_decide_eq_false. intros (evs' & Hp & Hch')%verify_all. rewrite parsed_render in Hp. injection Hp as <-.
  by apply Hch, Hch'.
Qed.

(** an edit of one line is detected.  In a log that checks, putting another
    event in the place of any event but the last, or taking any event but the
    first and the last out, makes the check fail, unless the event put there
    (the event before the one taken out) has the same hash. *)
Theorem single_edit_detected dir date pre e next post report :
  enable_integrity_chain cfg = true → chained (pre ++ e :: next :: post) →
  verify_integrity cfg dir date = Ok report →
  (∀ e', dir !! log_name date = Some (render (pre ++ e' :: next :: post)) →
     compute_hash e' ≠ compute_hash e → ir_integrity_valid report = false) ∧
  (∀ before, last pre = Some before → dir !! log_name date = Some (render (pre ++ next :: post)) →
     compute_hash before ≠ compute_hash e → ir_integrity_valid report = false).
Proof using laws.
  intros Hen (Hpre & _ & Hnext)%chained_app Hv. cbn [links] in Hnext. destruct Hnext as [Hnext Hpost]. split.
  - intros e' Hd Hne. apply (verify_not_chained dir date _ report Hen Hd); [|done].
    rewrite chained_app. cbn [links]. intros (_ & _ & Hn & _). congruence.
  - intros before Hl Hd Hne. apply (verify_not_chained dir date _ report Hen Hd); [|done].
    rewrite chained_app, Hl. intros (_ & [->|Hn] & _); [done|]. cbn in Hn. congruence.
Qed.

(** the chain does not bind the past.  The hash of an event does not cover
    its own link, so in a log that checks any event but the last can be
    replaced by any other with the same link, when the link of the next line is
    set to match: no later line has to change, and the check reports the forged
    log as valid. *)
Theorem forged_event_passes dir date pre e next post e' :
  chained (pre ++ e :: next :: post) → ev_prev_hash e' = ev_prev_hash e →
  dir !! log_name date =
    Some (render (pre ++ e' :: next <| ev_prev_hash := Some (compute_hash e') |> :: post)) →
  ∃ report, verify_integrity cfg dir date = Ok report ∧ ir_integrity_valid report = true.
Proof using laws.
  intros (Hpre & He & Hnext)%chained_app Hl Hd. apply (verify_render _ _ _ Hd). intros _.
  apply chained_app. rewrite Hl. cbn [links] in *. by destruct Hnext.
Qed.

(** The first events and the last ones can be taken away. *)
Lemma truncated_log_passes dir date pre mid post :
  chained (pre ++ mid ++ post) → dir !! log_name date = Some (render mid) →
  ∃ report, verify_integrity cfg dir date = Ok report ∧ ir_integrity_valid report = true.
Proof using laws.
  intros Hch Hd. apply (verify_render _ _ _ Hd). intros _. destruct mid as [|m mid]; [done|].
  cbn [app] in Hch. apply chained_app in Hch as (_ & _ & Hl). cbn [chained]. clear Hd. revert Hl.
  generalize (compute_hash m). induction mid as [|x mid IH]; intros h; [done|]. cbn [app links]. intros [? ?]. split; [done|by apply IH].
Qed.

(** *** Queries *)

Lemma query_limit n found evs :
  query_lines (Some {| qf_event_type := None; qf_actor := None; qf_resource := None; qf_outcome := None; qf_limit := Some n |})
    found (event_line <$> evs) = Ok (found ++ take (Z.to_nat (n - Z.of_nat (length found))) evs).
Proof using laws.
  revert found. induction evs as [|e evs IH]; intros found; [by rewrite take_nil, app_nil_r|].
  cbn [fmap list_fmap query_lines]. rewrite decide_False by apply (line_nonempty laws). rewrite (line_parses laws).
  cbv [ok_or mbind result_bind]. cbn [event_matches qf_event_type qf_actor qf_resource qf_outcome qf_limit andb negb].
  destruct (n <=? _) eqn:Hn; reflect_bools.
  - replace (Z.to_nat (n - Z.of_nat (length found))) with 0%nat by lia. cbn. by rewrite app_nil_r.
  - rewrite IH, length_app. cbn [length].
    replace (Z.to_nat (n - Z.of_nat (length found))) with (S (Z.to_nat (n - Z.of_nat (length found + 1)))) by lia.
    cbn [take]. by rewrite <- app_assoc.
Qed.

End chain.

(** ** Retention *)

Section retention.
Context `{MapIter, AuditText}.
Variable cfg : AuditConfig.
Implicit Types dir : AuditDir.

Definition due (cutoff : Z) (name : string) : bool :=
  match log_file_date name with Dated t => t <? cutoff | _ => false end.

Lemma cleanup_files_exact cutoff remove files dir acc dir' r :
  NoDup files.*1 → (∀ n c, (n, c) ∈ files → dir !! n = Some c) →
  cleanup_files cutoff remove files dir acc = Some (dir', Ok r) →
  (∀ n, dir' !! n = if bool_decide (n ∈ files.*1) && due cutoff n then None else dir !! n) ∧
  cu_files_deleted r = cu_files_deleted acc + Z.of_nat (length (filter (λ f, due cutoff f.1 = true) files)).
Proof.
  revert dir acc. induction files as [|[name c] files IH]; intros dir acc Hnd Hin Hc.
  { injection Hc as <- <-. split; [done|]. cbn. lia. }
  change (((name, c) :: files).*1) with (name :: files.*1) in *. apply NoDup_cons in Hnd as [Hfresh Hnd]. cbn [cleanup_files] in Hc.
  assert (Hrest : ∀ n c, (n, c) ∈ files → dir !! n = Some c) by (intros; apply Hin; by right).
  assert (Hkeep : due cutoff name = false → cleanup_files cutoff remove files dir acc = Some (dir', Ok r) →
    (∀ n, dir' !! n = if bool_decide (n ∈ name :: files.*1) && due cutoff n then None else dir !! n) ∧
    cu_files_deleted r = cu_files_deleted acc + Z.of_nat (length (filter (λ f, due cutoff f.1 = true) ((name, c) :: files)))).
  { intros Hd [Hl Hn]%IH; [|done..]. split.
    - intros n. rewrite Hl. destruct (decide (n = name)) as [->|Hne]; [by rewrite Hd, !andb_false_r|].
      erewrite (bool_decide_ext (n ∈ files.*1) (n ∈ name :: files.*1)); [done|]. rewrite elem_of_cons. naive_solver.
    - rewrite filter_cons_False; [done|]. cbn. by rewrite Hd. }
  destruct (log_file_date name) as [| |t] eqn:Hname; [apply Hkeep; [unfold due; by rewrite Hname|done]|done|].
  destruct (t <? cutoff) eqn:Ht; [|apply Hkeep; [unfold due; by rewrite Hname|done]].
  destruct (remove name); [done|]. apply IH in Hc as [Hl Hn]; [|done|].
  - assert (Hd : due cutoff name = true) by (unfold due; by rewrite Hname). split.
    + intros n. rewrite Hl. destruct (decide (n = name)) as [->|Hne].
      * rewrite (bool_decide_eq_true_2 (name ∈ name :: _)) by (by left). rewrite Hd, lookup_delete_eq. by destruct (_ && _).
      * rewrite lookup_delete_ne by done. erewrite (bool_decide_ext (n ∈ files.*1) (n ∈ name :: files.*1)); [done|].
        rewrite elem_of_cons. naive_solver.
    + rewrite Hn, filter_cons_True by done. cbn [length cu_files_deleted]. lia.
  - intros n c' Hn. rewrite lookup_delete_ne; [by apply Hrest|]. intros <-. apply Hfresh.
    apply list_elem_of_fmap. by exists (name, c').
Qed.

(** retention deletes the old logs and nothing else.  A cleanup that
    succeeds leaves every file of the directory but the audit logs whose day
    began before the retention period, and reports how many it deleted. *)
Theorem cleanup_exact now remove dir dir' r :
  retention_days cfg ≠ 0 → cleanup_old_logs cfg now remove dir = Some (dir', Ok r) →
  dir' = filter (λ f, due (now - retention_days cfg * 86400000000000) f.1 = false) dir ∧
  cu_files_deleted r = Z.of_nat (size (filter (λ f, due (now - retention_days cfg * 86400000000000) f.1 = true) dir)).
Proof.
  intros Hd. unfold cleanup_old_logs. rewrite (proj2 (Z.eqb_neq _ _)) by done. set (cutoff := now - _). intros Hc.
  assert (Hnd : NoDup (iter dir).*1) by (rewrite iter_perm; apply NoDup_fst_map_to_list).
  apply cleanup_files_exact in Hc as [Hl Hn]; [|done|by intros n c ?%elem_of_iter].
  assert (Hdir : dir' = filter (λ f, due cutoff f.1 = false) dir).
  { apply map_eq. intros n. rewrite Hl, map_lookup_filter. destruct (dir !! n) as [c|] eqn:Hc'; cbn.
    - rewrite bool_decide_eq_true_2.
      + cbn. destruct (due cutoff n) eqn:Hdue; [by rewrite option_guard_False|by rewrite option_guard_True].
      + apply list_elem_of_fmap. exists (n, c). split; [done|]. by apply elem_of_iter.
    - by destruct (_ && _). }
  split; [done|]. rewrite Hn. cbn [cu_files_deleted]. rewrite Z.add_0_l. f_equal.
  rewrite <- length_map_to_list, map_filter_alt, map_to_list_to_map, iter_perm; [done|].
  apply (sublist_NoDup _ (map_to_list dir).*1); [apply NoDup_fst_map_to_list|]. apply fmap_sublist, sublist_filter.
Qed.

End retention.

(** ** Sample runs *)

#[local] Existing Instance sample_env.
#[local] Existing Instance sample_auth.
#[local] Existing Instance sample_iter.

Definition all_event_types : list AuditEventType :=
  [TaskSubmission; TaskCancellation; TaskStateChange; VmProvision; VmDestroy; VmAccess; PtyAccess;
   TranscriptAccess; SecretAccess; SecretRotation; GatewaySshLease; GatewaySshSession; ConfigChange;
   AuthenticationAttempt; AuthorizationFailure; ApiAccess; SystemLifecycle; PolicyViolation].
Definition event_type_parse (s : string) : option AuditEventType :=
  find_first (λ t, bool_decide (event_type_text t = s)) all_event_types.
Definition outcome_parse (s : string) : option AuditOutcome :=
  find_first (λ o, bool_decide (outcome_text o = s)) [OutcomeSuccess; OutcomeFailure; OutcomeDenied].

(** An event as a tuple, and back. *)
Definition event_tuple (e : AuditEvent) :=
  ((ev_id e, ev_sequence e, ev_timestamp e, event_type_text (ev_type e)),
   (ev_actor e, ev_resource e, ev_action e, outcome_text (ev_outcome e)), json_tree (ev_details e),
   (ev_trace_id e, ev_source_ip e, ev_user_agent e, ev_prev_hash e)).
Definition tuple_event (t : (string * Z * Z * string) * (string * string * string * string)
    * gen_tree (bool + Z + string) * (option string * option string * option string * option string))
    : option AuditEvent :=
  let '((id, seq, ts, ty), (actor, resource, action, outcome), details, (trace, ip, ua, prev)) := t in
  ty ← event_type_parse ty;
  outcome ← outcome_parse outcome;
  Some {| ev_id := id; ev_sequence := seq; ev_timestamp := ts; ev_type := ty; ev_actor := actor;
          ev_resource := resource; ev_action := action; ev_outcome := outcome; ev_details := tree_json details;
          ev_trace_id := trace; ev_source_ip := ip; ev_user_agent := ua; ev_prev_hash := prev |}.

(** The text is the tuple as a number, in binary, after a mark. *)
#[local] Instance sample_audit_text : AuditText := {|
  event_line := λ e, String.String "e"%char (bits_text (encode (event_tuple e)));
  parse_line := λ s, match s with
    | String.String _ s => t ← decode (text_bits s); tuple_event t
    | EmptyString => None
    end;
  format_date := λ t, pretty (t / 86400000000000);
  date_midnight := λ s, Z.mul 86400000000000 <$> decimal s;
|}.

Lemma bits_text_digits p c :
  Ascii.eqb (bit_char false) c = false → Ascii.eqb (bit_char true) c = false → contains_char (bits_text p) c = false.
Proof. intros Hf Ht. induction p; cbn [bits_text contains_char]; rewrite ?Hf, ?Ht; done. Qed.

Lemma sample_audit_laws : audit_text_laws sample_audit_text.
Proof.
  split; intros e; cbn [event_line parse_line sample_audit_text].
  - rewrite text_bits_text, decode_encode. cbn [mbind option_bind]. unfold event_tuple, tuple_event.
    destruct e as [id seq ts ty actor resource action outcome details trace ip ua prev]. cbn.
    rewrite tree_json_tree. by destruct ty, outcome.
  - cbn [contains_char]. by rewrite bits_text_digits.
  - cbn [contains_char]. by rewrite bits_text_digits.
  - done.
Qed.

Definition sample_logger : AuditLogger :=
  {| al_current := None; al_sequence := 0; al_limiter := {| rl_window_start := 0; rl_count := 0; rl_max := 0 |};
     al_logged := 0; al_dropped := 0 |}.
Definition sample_event (id : string) : AuditEvent := secret_access_event id 5 "key" "alice" "read" OutcomeSuccess.

(** A day's file with one event, and a second one written. *)
Definition sample_opened := (rotate_if_needed default_audit_config 0 None ∅ sample_logger).1.
Definition sample_first := (log_write default_audit_config None sample_opened.1 sample_opened.2 (sample_event "1")).1.

Lemma sample_first_reached : rtc (audit_step default_audit_config) (∅, sample_logger) sample_first.
Proof.
  eapply rtc_l; [apply (step_rotate _ 0 None); by intros f|].
  eapply rtc_l; [|apply rtc_refl]. unfold sample_first.
  change (rotate_if_needed default_audit_config 0 None ∅ sample_logger).1 with sample_opened.
  destruct sample_opened as [dir lg]. apply (step_write _ None). intros f _. by left.
Qed.


(** Three linked events and a directory with one file. *)
Definition linked_event (id : string) (prev : option string) : AuditEvent :=
  (sample_event id) <| ev_prev_hash := prev |>.
Definition sample_chain : list AuditEvent :=
  let e1 := linked_event "1" None in
  let e2 := linked_event "2" (Some (compute_hash e1)) in
  [e1; e2; linked_event "3" (Some (compute_hash e2))].
Definition one_log (evs : list AuditEvent) : AuditDir := {[log_name "0" := render evs]}.

Lemma sample_chain_chained : chained sample_chain.
Proof. cbn. by split. Qed.

Lemma integrity_exact_witness :
  ∃ report contents, verify_integrity default_audit_config (one_log sample_chain) "0" = Ok report ∧
    one_log sample_chain !! log_name "0" = Some contents ∧
    (ir_integrity_valid report = true ↔ ∃ evs, parsed (file_lines contents) = Some evs ∧ (true = true → chained evs)).
Proof.
  eexists. eexists. split; [reflexivity|].
  destruct (integrity_exact default_audit_config (one_log sample_chain) "0" _ eq_refl) as (c & Hc & Hv & _).
  assert (c = render sample_chain) as -> by (cbn in Hc; by injection Hc as <-).
  split; [exact Hc|exact Hv].
Defined.

Definition edited_log : AuditDir :=
  one_log ([linked_event "1" None] ++ linked_event "x" None :: drop 2 sample_chain).

Lemma single_edit_detected_witness :
  ∃ report, verify_integrity default_audit_config edited_log "0" = Ok report ∧ ir_integrity_valid report = false.
Proof.
  destruct (verify_integrity default_audit_config edited_log "0") as [report|err] eqn:Hv; [|discriminate Hv].
  exists report. split; [reflexivity|].
  refine (proj1 (single_edit_detected sample_audit_laws default_audit_config edited_log "0" [linked_event "1" None]
    (linked_event "2" (Some (compute_hash (linked_event "1" None)))) _ [] report eq_refl sample_chain_chained Hv)
    (linked_event "x" None) _ _); [reflexivity|vm_compute; discriminate].
Defined.

Lemma forged_event_passes_witness :
  ∃ report, verify_integrity default_audit_config
    (one_log [linked_event "forged" None; linked_event "2" (Some (compute_hash (linked_event "forged" None)));
              linked_event "3" (Some (compute_hash (linked_event "2" None)))]) "0" = Ok report ∧
    ir_integrity_valid report = true.
Proof.
  refine (forged_event_passes sample_audit_laws default_audit_config _ "0" [] _ _ _ (linked_event "forged" None)
    sample_chain_chained _ _); reflexivity.
Defined.

Definition sample_dir : AuditDir :=
  {["audit-0000000009.jsonl" := "a"; "audit-0000000010.jsonl" := "b"; "notes" := "c"]}.
Definition cleaned_dir : AuditDir := {["audit-0000000010.jsonl" := "b"; "notes" := "c"]}.

Lemma sample_cleanup :
  cleanup_old_logs default_audit_config (100 * 86400000000000) (λ _, None) sample_dir
  = Some (cleaned_dir, Ok {| cu_files_deleted := 1; cu_bytes_freed := 1 |}).
Proof. reflexivity. Qed.

Lemma cleanup_exact_witness :
  cleaned_dir = filter (λ f, due (100 * 86400000000000 - 90 * 86400000000000) f.1 = false) sample_dir.
Proof.
  exact (proj1 (cleanup_exact default_audit_config (100 * 86400000000000) (λ _, None) sample_dir cleaned_dir
    {| cu_files_deleted := 1; cu_bytes_freed := 1 |} ltac:(discriminate) sample_cleanup)).
Defined.

(** ** What the numbers and the buffer do over a restart *)

Definition restarted := (new_logger default_audit_config 0 None sample_first.1).1.
Definition sequences (dir : AuditDir) : list Z :=
  match query dir "0" None with Ok evs => ev_sequence <$> evs | Err _ => [] end.

(** A logger that restarts numbers from 0 again, in the same file. *)
Lemma sequence_restarts :
  sequences (log_event default_audit_config 0 0 None None restarted.1 restarted.2 (sample_event "2")).1.1 = [0; 0].
Proof. vm_compute. reflexivity. Qed.

(** A flush that fails after 5 bytes, then a restart: the next event is
    written on the torn line, and the day can no longer be queried. *)
Definition torn := (log_write default_audit_config (Some 5%nat) sample_first.1 sample_first.2 (sample_event "2")).1.
Definition after_torn := (new_logger default_audit_config 0 None torn.1).1.
Lemma torn_line_ends_queries :
  query (log_event default_audit_config 0 0 None None after_torn.1 after_torn.2 (sample_event "3")).1.1 "0" None = Err AuJson.
Proof. vm_compute. reflexivity. Qed.
