(* ===== verification/Credentials.v ===== *)
(** * Workload credentials and the credential proxy

    Models management/src/credentials.rs (credential metadata, secrets, leases),
    management/src/http/credentials.rs (their HTTP handlers) and
    management/src/http/credential_proxy.rs (requests made on behalf of a
    workload, with the secret added on the way out and removed on the way
    back).

    Whether the store file could be written, what reading a backend file gave,
    the URL parser and what the upstream server answered are arguments or the
    class [ProxyText].  The file of the store is the list of credentials and
    leases it is written from. *)

From Stdlib Require Import Ascii.
From S2P Require Import Prelude Text Http Json CelldAuth OperatorAuth SshGateway AuditLog.

Local Open Scope string_scope.
Local Open Scope list_scope.
Local Open Scope Z_scope.

Definition MAX_CREDENTIAL_LEASE_TTL_SECONDS : Z := 3600.

(** ** Data *)

Inductive CredentialError : Type :=
| CrMissingId
| CrMissingProvider
| CrMissingType
| CrAlreadyExists (id : string)
| CrNotFound (id : string)
| CrNotConfigured (id : string)
| CrLeaseDenied (detail : string)
| CrLeaseNotFound (id : string)
| CrProxyDenied (detail : string)
| CrProxyRateLimited (retry_after_seconds : Z)
| CrProxyPolicyMissing (id : string)
| CrUnsupportedBackend (kind : string)
| CrBackendRead (kind reference source : string)
| CrPersistence (detail : string)
| CrSerialization (detail : string).
#[export] Instance CredentialError_eq_dec : EqDecision CredentialError.
Proof. solve_decision. Defined.

Definition credential_error_text (e : CredentialError) : string :=
  match e with
  | CrMissingId => "credential id is required"
  | CrMissingProvider => "credential provider is required"
  | CrMissingType => "credential type is required"
  | CrAlreadyExists id => "credential already exists: " +:+ id
  | CrNotFound id => "credential not found: " +:+ id
  | CrNotConfigured id => "credential is not configured: " +:+ id
  | CrLeaseDenied d => "credential lease denied: " +:+ d
  | CrLeaseNotFound id => "credential lease not found: " +:+ id
  | CrProxyDenied d => "credential proxy denied: " +:+ d
  | CrProxyRateLimited n => "credential proxy rate limit exceeded; retry after " +:+ pretty n +:+ "s"
  | CrProxyPolicyMissing id => "credential proxy policy is missing for lease: " +:+ id
  | CrUnsupportedBackend k => "credential backend is not supported for local materialization: " +:+ k
  | CrBackendRead k r s => "credential backend read failed for " +:+ k +:+ " reference " +:+ r +:+ ": " +:+ s
  | CrPersistence d => "credential persistence failed: " +:+ d
  | CrSerialization d => "credential serialization failed: " +:+ d
  end.

Record CredentialBackendRef : Type := { be_kind : string; be_reference : string }.

Record CredentialSet : Type := {
  cr_id : string;
  cr_provider : string;
  cr_type : string;
  cr_owner : option string;
  cr_scopes : list string;
  cr_allowed_uses : list string;
  cr_backend : option CredentialBackendRef;
  cr_created_at : Z;
  cr_updated_at : Z;
  cr_last_rotated_at : option Z;
}.

(** [CredentialMetadataResponse]: every field of the set, and whether it can be
    used. *)
Record CredentialMetadataResponse : Type := {
  mr_credential : CredentialSet;
  mr_configured : bool;
}.

Record CredentialValueInput : Type := { vi_kind : string; vi_plaintext : option string }.

Record UpsertCredentialRequest : Type := {
  uq_id : string;
  uq_provider : string;
  uq_type : string;
  uq_owner : option string;
  uq_scopes : list string;
  uq_allowed_uses : list string;
  uq_backend : option CredentialBackendRef;
  uq_value : option CredentialValueInput;
}.

Record CredentialProxyInjectedHeader : Type := { ih_name : string; ih_value_prefix : string }.

Record CredentialProxyPolicy : Type := {
  allowed_hosts : list string;
  allowed_path_prefixes : list string;
  allowed_methods : list string;
  allowed_headers : list string;
  injected_header : option CredentialProxyInjectedHeader;
  rate_limit_per_minute : option Z;
}.

Inductive CredentialLeaseState : Type := CrActive | CrRevoked.
#[export] Instance CredentialLeaseState_eq_dec : EqDecision CredentialLeaseState.
Proof. solve_decision. Defined.

(** A lease; [CredentialLeaseResponse] has the same fields. *)
Record CredentialLease : Type := {
  cl_id : string;
  cl_credential_id : string;
  cl_agent_id : string;
  cl_instance_id : string;
  cl_session_id : string;
  cl_provider : string;
  cl_allowed_use : string;
  cl_issued_at : Z;
  cl_expires_at : Z;
  cl_state : CredentialLeaseState;
  cl_revoked_at : option Z;
  cl_proxy_policy : option CredentialProxyPolicy;
}.

Record IssueCredentialLeaseRequest : Type := {
  lq_agent_id : string;
  lq_instance_id : string;
  lq_session_id : string;
  lq_provider : string;
  lq_allowed_use : string;
  lq_ttl_seconds : Z;
  lq_proxy_policy : option CredentialProxyPolicy;
}.

Record CredentialProxyMaterial : Type := {
  ma_lease_id : string;
  ma_credential_id : string;
  ma_provider : string;
  ma_agent_id : string;
  ma_instance_id : string;
  ma_session_id : string;
  ma_expires_at : Z;
  ma_secret : string;
  ma_policy : CredentialProxyPolicy;
}.

(** [CredentialBrokerInner] with the contents of the store's file. *)
Record CredentialBroker : Type := {
  br_credentials : gmap string CredentialSet;
  br_plaintext_values : gmap string string;
  br_leases : gmap string CredentialLease;
  br_file : option (list CredentialSet * list CredentialLease);
}.

(** [persist]: [None] when the file was written (or there is none to write),
    else the error. *)
Abbreviation PersistRun := (option string).

Section broker.
Context `{MapIter}.
Implicit Types (b : CredentialBroker) (now : Z) (run : PersistRun).

(** Whether the broker has a store path. *)
Variable stored : bool.

Definition persist b run : CredentialBroker * result CredentialError unit :=
  if stored then
    match run with
    | None => (b <| br_file := Some ((iter (br_credentials b)).*2, (iter (br_leases b)).*2) |>, Ok ())
    | Some e => (b, Err (CrPersistence e))
    end
  else (b, Ok ()).

(** [open]: the secrets are not in the file. *)
Definition open_broker b : CredentialBroker :=
  match br_file b with
  | Some (credentials, leases) =>
      {| br_credentials := foldl (λ m c, <[cr_id c := c]> m) ∅ credentials; br_plaintext_values := ∅;
         br_leases := foldl (λ m l, <[cl_id l := l]> m) ∅ leases; br_file := br_file b |}
  | None => {| br_credentials := ∅; br_plaintext_values := ∅; br_leases := ∅; br_file := None |}
  end.

Definition validate_credential_request (q : UpsertCredentialRequest) : result CredentialError unit :=
  if decide (trim (uq_id q) = EmptyString) then Err CrMissingId
  else if decide (trim (uq_provider q) = EmptyString) then Err CrMissingProvider
  else if decide (trim (uq_type q) = EmptyString) then Err CrMissingType
  else Ok ().

Definition secret_plaintext (q : UpsertCredentialRequest) : option string :=
  v ← uq_value q; if decide (vi_kind v = "write_only") then vi_plaintext v else None.

(** [backend.is_some() || plaintext_values.contains_key(id)] *)
Definition is_configured b (c : CredentialSet) (id : string) : bool :=
  bool_decide (is_Some (cr_backend c)) || bool_decide (is_Some (br_plaintext_values b !! id)).

Definition create_cred now b (q : UpsertCredentialRequest) run
    : CredentialBroker * result CredentialError CredentialMetadataResponse :=
  match validate_credential_request q with
  | Err e => (b, Err e)
  | Ok _ =>
      let plaintext := secret_plaintext q in
      let credential := {| cr_id := uq_id q; cr_provider := uq_provider q; cr_type := uq_type q;
        cr_owner := uq_owner q; cr_scopes := uq_scopes q; cr_allowed_uses := uq_allowed_uses q;
        cr_backend := uq_backend q; cr_created_at := now; cr_updated_at := now;
        cr_last_rotated_at := (λ _, now) <$> plaintext |} in
      if decide (is_Some (br_credentials b !! uq_id q)) then (b, Err (CrAlreadyExists (uq_id q)))
      else
        let configured := bool_decide (is_Some (uq_backend q)) || bool_decide (is_Some plaintext) in
        let b := match plaintext with
          | Some v => b <| br_plaintext_values ::= <[uq_id q := v]> |> | None => b end in
        let b := b <| br_credentials ::= <[uq_id q := credential]> |> in
        let '(b, saved) := persist b run in
        (b, _ ← saved; Ok {| mr_credential := credential; mr_configured := configured |})
  end.

Definition update_cred now b (id : string) (q : UpsertCredentialRequest) run
    : CredentialBroker * result CredentialError CredentialMetadataResponse :=
  if negb (bool_decide (id = uq_id q)) then (b, Err (CrNotFound id))
  else match validate_credential_request q with
  | Err e => (b, Err e)
  | Ok _ =>
      let plaintext := secret_plaintext q in
      match br_credentials b !! id with
      | None => (b, Err (CrNotFound id))
      | Some existing =>
          let b := match plaintext with
            | Some v => b <| br_plaintext_values ::= <[uq_id q := v]> |> | None => b end in
          let updated := {| cr_id := uq_id q; cr_provider := uq_provider q; cr_type := uq_type q;
            cr_owner := uq_owner q; cr_scopes := uq_scopes q; cr_allowed_uses := uq_allowed_uses q;
            cr_backend := uq_backend q; cr_created_at := cr_created_at existing; cr_updated_at := now;
            cr_last_rotated_at := match plaintext with Some _ => Some now | None => cr_last_rotated_at existing end |} in
          let configured := is_configured b updated id in
          let b := b <| br_credentials ::= <[id := updated]> |> in
          let '(b, saved) := persist b run in
          (b, _ ← saved; Ok {| mr_credential := updated; mr_configured := configured |})
      end
  end.

Definition list_creds b : list CredentialMetadataResponse :=
  (λ kv : string * CredentialSet, {| mr_credential := kv.2; mr_configured := is_configured b kv.2 (cr_id kv.2) |})
    <$> iter (br_credentials b).

Definition get_cred b (id : string) : result CredentialError CredentialMetadataResponse :=
  match br_credentials b !! id with
  | None => Err (CrNotFound id)
  | Some c => Ok {| mr_credential := c; mr_configured := is_configured b c id |}
  end.

Definition revoke_if now (p : CredentialLease → bool) (l : CredentialLease) : CredentialLease :=
  if p l && bool_decide (cl_state l = CrActive)
  then l <| cl_state := CrRevoked |> <| cl_revoked_at := Some now |> else l.

Definition delete_cred now b (id : string) run : CredentialBroker * result CredentialError unit :=
  match br_credentials b !! id with
  | None => (b, Err (CrNotFound id))
  | Some _ =>
      persist (b <| br_credentials ::= delete id |> <| br_plaintext_values ::= delete id |>
                 <| br_leases ::= fmap (revoke_if now (λ l, bool_decide (cl_credential_id l = id))) |>) run
  end.

(** ** Leases *)

Definition lease_fields (q : IssueCredentialLeaseRequest) : list (string * string) :=
  [("agent_id", lq_agent_id q); ("instance_id", lq_instance_id q); ("session_id", lq_session_id q);
   ("provider", lq_provider q); ("allowed_use", lq_allowed_use q)].

Definition validate_lease_request (q : IssueCredentialLeaseRequest) : result CredentialError unit :=
  match find_first (λ fv, bool_decide (trim fv.2 = EmptyString)) (lease_fields q) with
  | Some (field, _) => Err (CrLeaseDenied (field +:+ " is required"))
  | None => Ok ()
  end.

(** [id]: the fresh lease id. *)
Definition issue_cred_lease now b (lease_id credential_id : string) (q : IssueCredentialLeaseRequest) run
    : CredentialBroker * result CredentialError CredentialLease :=
  match validate_lease_request q with
  | Err e => (b, Err e)
  | Ok _ =>
      if lq_ttl_seconds q <=? 0 then (b, Err (CrLeaseDenied "ttl_seconds must be greater than zero"))
      else if MAX_CREDENTIAL_LEASE_TTL_SECONDS <? lq_ttl_seconds q then
        (b, Err (CrLeaseDenied ("ttl_seconds must not exceed " +:+ pretty MAX_CREDENTIAL_LEASE_TTL_SECONDS)))
      else match br_credentials b !! credential_id with
      | None => (b, Err (CrNotFound credential_id))
      | Some c =>
          if negb (is_configured b c credential_id) then (b, Err (CrNotConfigured credential_id))
          else if negb (bool_decide (cr_provider c = lq_provider q)) then
            (b, Err (CrLeaseDenied ("provider mismatch for credential " +:+ credential_id)))
          else if negb (bool_decide (cr_allowed_uses c = [])) && negb (bool_decide (lq_allowed_use q ∈ cr_allowed_uses c)) then
            (b, Err (CrLeaseDenied ("use " +:+ lq_allowed_use q +:+ " is not allowed for credential " +:+ credential_id)))
          else
            let lease := {| cl_id := lease_id; cl_credential_id := credential_id; cl_agent_id := lq_agent_id q;
              cl_instance_id := lq_instance_id q; cl_session_id := lq_session_id q; cl_provider := lq_provider q;
              cl_allowed_use := lq_allowed_use q; cl_issued_at := now;
              cl_expires_at := now + lq_ttl_seconds q * 1000000000; cl_state := CrActive; cl_revoked_at := None;
              cl_proxy_policy := lq_proxy_policy q |} in
            let '(b, saved) := persist (b <| br_leases ::= <[lease_id := lease]> |>) run in
            (b, _ ← saved; Ok lease)
      end
  end.

Definition list_cred_leases b : list CredentialLease := (iter (br_leases b)).*2.

Definition get_cred_lease b (id : string) : result CredentialError CredentialLease :=
  ok_or (br_leases b !! id) (CrLeaseNotFound id).

Definition revoke_cred_lease now b (id : string) run : CredentialBroker * result CredentialError CredentialLease :=
  match br_leases b !! id with
  | None => (b, Err (CrLeaseNotFound id))
  | Some l =>
      let l := revoke_if now (λ _, true) l in
      let '(b, saved) := persist (b <| br_leases ::= <[id := l]> |>) run in
      (b, _ ← saved; Ok l)
  end.

Definition revoke_leases_for_session now b (session_id : string) run
    : CredentialBroker * result CredentialError (list CredentialLease) :=
  let of_session := λ l, bool_decide (cl_session_id l = session_id) in
  let revoked := (λ kv : string * CredentialLease, revoke_if now of_session kv.2) <$>
    filter (λ kv, of_session kv.2 && bool_decide (cl_state kv.2 = CrActive) = true) (iter (br_leases b)) in
  let '(b, saved) := persist (b <| br_leases ::= fmap (revoke_if now of_session) |>) run in
  (b, _ ← saved; Ok revoked).

(** ** The secret of a lease *)

Definition is_absolute (path : string) : bool := starts_with path "/".

(** [read path]: what reading the file gives. *)
Definition resolve_backend_plaintext (read : string → result string string) (backend : CredentialBackendRef)
    : result CredentialError string :=
  if bool_decide (be_kind backend = "file") || bool_decide (be_kind backend = "local_file") then
    if negb (is_absolute (be_reference backend)) then
      Err (CrLeaseDenied "file credential backend references must be absolute paths")
    else map_err (CrBackendRead (be_kind backend) (be_reference backend)) (read (be_reference backend))
  else Err (CrUnsupportedBackend (be_kind backend)).

(** The lease, when it is active at [now]. *)
Definition active_lease now b (lease_id : string) : result CredentialError CredentialLease :=
  l ← ok_or (br_leases b !! lease_id) (CrLeaseNotFound lease_id);
  if negb (bool_decide (cl_state l = CrActive)) || (cl_expires_at l <=? now)
  then Err (CrLeaseDenied ("lease " +:+ lease_id +:+ " is not active")) else Ok l.

Definition plaintext_for_active_lease (read : string → result string string) now b
    (lease_id agent_id instance_id session_id : string) : result CredentialError string :=
  l ← active_lease now b lease_id;
  if negb (bool_decide (cl_agent_id l = agent_id)) || negb (bool_decide (cl_instance_id l = instance_id))
     || negb (bool_decide (cl_session_id l = session_id))
  then Err (CrLeaseDenied ("lease " +:+ lease_id +:+ " scope mismatch"))
  else match br_plaintext_values b !! cl_credential_id l with
  | Some v => Ok v
  | None =>
      c ← ok_or (br_credentials b !! cl_credential_id l) (CrNotFound (cl_credential_id l));
      backend ← ok_or (cr_backend c) (CrNotConfigured (cl_credential_id l));
      resolve_backend_plaintext read backend
  end.

(** [now] and [now'], [b] and [b']: the lock is taken twice. *)
Definition proxy_material_for_active_lease (read : string → result string string) now now' b b'
    (lease_id agent_id instance_id session_id : string) : result CredentialError CredentialProxyMaterial :=
  secret ← plaintext_for_active_lease read now b lease_id agent_id instance_id session_id;
  l ← active_lease now' b' lease_id;
  policy ← ok_or (cl_proxy_policy l) (CrProxyPolicyMissing lease_id);
  Ok {| ma_lease_id := cl_id l; ma_credential_id := cl_credential_id l; ma_provider := cl_provider l;
        ma_agent_id := cl_agent_id l; ma_instance_id := cl_instance_id l; ma_session_id := cl_session_id l;
        ma_expires_at := cl_expires_at l; ma_secret := secret; ma_policy := policy |}.

End broker.

(** ** The proxy *)

Definition MAX_PROXY_BODY_BYTES : Z := 1024 * 1024.
Definition PROXY_RATE_LIMIT_WINDOW : Z := 60 * 1000000000.

Record ProxyHttpRequest : Type := {
  pq_lease_id : string;
  pq_agent_id : string;
  pq_instance_id : string;
  pq_session_id : string;
  pq_method : string;
  pq_url : string;
  pq_headers : gmap string string;
  pq_body : option string;
}.

Record ProxyHttpResponse : Type := {
  pr_status : Z;
  pr_headers : gmap string string;
  pr_body : string;
}.

(** What the code asks of a parsed [Url]: [host_str], [port], [path]. *)
Record ProxyUrl : Type := {
  pu_host : option string;
  pu_port : option Z;
  pu_path : string;
}.

(** Parts of [url], [http] and [std]: parsing URLs, methods and header names
    (in lower case), valid header values, and lossy UTF-8. *)
Class ProxyText : Type := {
  proxy_url : string → option ProxyUrl;
  method_parse : string → option string;
  header_name : string → option string;
  header_value_ok : string → bool;
  utf8_lossy : string → string;
}.

(** The request that leaves, and what came back. *)
Record OutboundRequest : Type := {
  ob_method : string;
  ob_url : string;
  ob_headers : HeaderMap;
  ob_body : option string;
}.
Record UpstreamResponse : Type := {
  ur_status : Z;
  ur_headers : HeaderMap;
  ur_body : result string string;
}.

Definition is_host_allowed (host host_with_port : string) (hosts : list string) : bool :=
  existsb (λ allowed,
    let allowed := trim allowed in
    if decide (allowed = EmptyString) then false
    else match strip_prefix allowed "*." with
    | Some suffix => bool_decide (host = suffix) || ends_with host ("." +:+ suffix)
    | None => eq_ignore_ascii_case host allowed || eq_ignore_ascii_case host_with_port allowed
    end) hosts.

Definition host_with_port (host : string) (u : ProxyUrl) : string :=
  match pu_port u with Some port => host +:+ ":" +:+ pretty port | None => host end.

Definition authorize_proxy_request (policy : CredentialProxyPolicy) (q : ProxyHttpRequest) (u : ProxyUrl)
    : result CredentialError unit :=
  host ← ok_or (pu_host u) (CrProxyDenied "target URL host is required");
  if negb (is_host_allowed host (host_with_port host u) (allowed_hosts policy)) then
    Err (CrProxyDenied ("target host " +:+ host_with_port host u +:+ " is not allowed"))
  else if negb (bool_decide (allowed_path_prefixes policy = []))
          && negb (existsb (starts_with (pu_path u)) (allowed_path_prefixes policy)) then
    Err (CrProxyDenied ("target path " +:+ pu_path u +:+ " is not allowed"))
  else if negb (bool_decide (allowed_methods policy = []))
          && negb (existsb (λ m, eq_ignore_ascii_case m (pq_method q)) (allowed_methods policy)) then
    Err (CrProxyDenied ("HTTP method " +:+ pq_method q +:+ " is not allowed"))
  else Ok ().

(** *** The rate limiter *)

(** Lease, agent, instance and session. *)
Abbreviation RateLimitKey := (string * string * string * string)%type.

Record RateLimitBucket : Type := {
  bu_window_started : Z;
  bu_count : Z;
  bu_expires_at : Z;
}.

Abbreviation RateLimiter := (gmap RateLimitKey RateLimitBucket).

Definition rate_key (m : CredentialProxyMaterial) : RateLimitKey :=
  (ma_lease_id m, ma_agent_id m, ma_instance_id m, ma_session_id m).

(** [now_utc] and [now]: the wall clock and the monotonic one. *)
Definition check_rate (now_utc now : Z) (buckets : RateLimiter) (m : CredentialProxyMaterial)
    : RateLimiter * result CredentialError unit :=
  match rate_limit_per_minute (ma_policy m) with
  | None => (buckets, Ok ())
  | Some limit =>
      let buckets := filter (λ kv, now_utc < bu_expires_at kv.2) buckets in
      let bucket := default {| bu_window_started := now; bu_count := 0; bu_expires_at := ma_expires_at m |}
        (buckets !! rate_key m) in
      let bucket := bucket <| bu_expires_at := ma_expires_at m |> in
      let bucket := if PROXY_RATE_LIMIT_WINDOW <=? now - bu_window_started bucket
        then bucket <| bu_window_started := now |> <| bu_count := 0 |> else bucket in
      if limit <=? bu_count bucket then
        let elapsed := now - bu_window_started bucket in
        let retry_after := Z.max 1 ((if elapsed <=? PROXY_RATE_LIMIT_WINDOW then PROXY_RATE_LIMIT_WINDOW - elapsed
          else 1000000000) / 1000000000) in
        (<[rate_key m := bucket]> buckets, Err (CrProxyRateLimited retry_after))
      else (<[rate_key m := bucket <| bu_count ::= λ n, sat_add u32_max n 1 |>]> buckets, Ok ())
  end.

(** *** Headers and redaction *)

Definition redact_secret (value secret : string) : string :=
  if decide (secret = EmptyString) then value else replace_from secret "[REDACTED_CREDENTIAL]" 0 value.

Section proxy.
Context `{MapIter, ProxyText}.

Definition filter_header (policy : CredentialProxyPolicy) (out : result CredentialError HeaderMap)
    (nv : string * string) : result CredentialError HeaderMap :=
  out ← out;
  let '(name, value) := nv in
  if negb (existsb (λ allowed, eq_ignore_ascii_case allowed name) (allowed_headers policy)) then
    Err (CrProxyDenied ("header " +:+ name +:+ " is not allowed"))
  else
    n ← ok_or (header_name name) (CrProxyDenied ("header " +:+ name +:+ " is invalid"));
    if negb (header_value_ok value) then Err (CrProxyDenied ("header " +:+ name +:+ " contains invalid characters"))
    else Ok (header_insert out n value).

Definition filtered_headers (policy : CredentialProxyPolicy) (headers : gmap string string)
    : result CredentialError HeaderMap :=
  foldl (filter_header policy) (Ok []) (iter headers).

Definition default_injected : CredentialProxyInjectedHeader :=
  {| ih_name := "authorization"; ih_value_prefix := "Bearer " |}.

Definition inject_header (headers : HeaderMap) (m : CredentialProxyMaterial) : result CredentialError HeaderMap :=
  let configured := default default_injected (injected_header (ma_policy m)) in
  name ← ok_or (header_name (ih_name configured)) (CrProxyDenied "proxy injected header name is invalid");
  let headers := filter (λ h, h.1 ≠ name) headers in
  let value := ih_value_prefix configured +:+ ma_secret m in
  if header_value_ok value then Ok (header_insert headers name value)
  else Err (CrProxyDenied "proxy credential value is not valid for header injection").

Definition redact_header (secret : string) (out : gmap string string) (h : string * option string) : gmap string string :=
  match h.2 with
  | None => out
  | Some value =>
      let value := redact_secret value secret in
      if decide (value = EmptyString) then out else <[h.1 := value]> out
  end.

Definition response_headers (headers : HeaderMap) (secret : string) : gmap string string :=
  foldl (redact_header secret) ∅ headers.

(** The request as it would leave. *)
Definition proxy_outbound (m : CredentialProxyMaterial) (q : ProxyHttpRequest) : result CredentialError OutboundRequest :=
  method ← ok_or (method_parse (pq_method q)) (CrProxyDenied "HTTP method is invalid");
  headers ← filtered_headers (ma_policy m) (pq_headers q);
  headers ← inject_header headers m;
  Ok {| ob_method := method; ob_url := pq_url q; ob_headers := headers; ob_body := pq_body q |}.

(** What the caller is given of the answer. *)
Definition proxy_answer (m : CredentialProxyMaterial) (answer : result string UpstreamResponse)
    : result CredentialError ProxyHttpResponse :=
  response ← map_err (λ e, CrProxyDenied ("upstream request failed: " +:+ e)) answer;
  bytes ← map_err (λ e, CrProxyDenied ("upstream response failed: " +:+ e)) (ur_body response);
  if MAX_PROXY_BODY_BYTES <? str_len bytes then
    Err (CrProxyDenied "upstream response body exceeded proxy limit")
  else Ok {| pr_status := ur_status response; pr_headers := response_headers (ur_headers response) (ma_secret m);
             pr_body := redact_secret (utf8_lossy bytes) (ma_secret m) |}.

(** [client]: the error of building the client, if any; [upstream]: the answer
    to a request.  The request that left is returned too. *)
Definition proxy_http_inner (read : string → result string string) (client : option string)
    (upstream : OutboundRequest → result string UpstreamResponse) (now now' utc inst : Z)
    (b b' : CredentialBroker) (limiter : RateLimiter) (q : ProxyHttpRequest)
    : RateLimiter * option OutboundRequest * result CredentialError ProxyHttpResponse :=
  let prepared :=
    material ← proxy_material_for_active_lease read now now' b b' (pq_lease_id q) (pq_agent_id q)
      (pq_instance_id q) (pq_session_id q);
    url ← ok_or (proxy_url (pq_url q)) (CrProxyDenied "target URL is invalid");
    _ ← authorize_proxy_request (ma_policy material) q url;
    Ok material in
  match prepared with
  | Err e => (limiter, None, Err e)
  | Ok material =>
      match check_rate utc inst limiter material with
      | (limiter, Err e) => (limiter, None, Err e)
      | (limiter, Ok _) =>
          match proxy_outbound material q, client with
          | Err e, _ => (limiter, None, Err e)
          | Ok _, Some e => (limiter, None, Err (CrProxyDenied ("proxy client unavailable: " +:+ e)))
          | Ok out, None => (limiter, Some out, proxy_answer material (upstream out))
          end
      end
  end.

End proxy.

(** ** The HTTP API *)

(** What the handlers work on: the broker and the audit trail, newest last;
    [None] without an audit logger. *)
Record CredentialApi : Type := {
  ca_broker : CredentialBroker;
  ca_audit : option (list AuditEvent);
}.

Section handlers.
Context `{MapIter, Env, AuthEnv}.
Variable stored : bool.
Implicit Types (st : CredentialApi) (req : AdminRequest).

Definition credential_error_status (e : CredentialError) : Z :=
  match e with
  | CrMissingId | CrMissingProvider | CrMissingType => BAD_REQUEST
  | CrAlreadyExists _ => CONFLICT
  | CrNotFound _ | CrLeaseNotFound _ => NOT_FOUND
  | CrNotConfigured _ | CrLeaseDenied _ | CrUnsupportedBackend _ | CrProxyDenied _ | CrProxyPolicyMissing _ => FORBIDDEN
  | CrProxyRateLimited _ => TOO_MANY_REQUESTS
  | CrPersistence _ | CrSerialization _ | CrBackendRead _ _ _ => INTERNAL_SERVER_ERROR
  end.
Definition credential_error (e : CredentialError) : HttpResponse :=
  error_reply (credential_error_status e) (credential_error_text e).

(** [proxy_error]: the statuses differ for the errors of the metadata. *)
Definition proxy_error (e : CredentialError) : HttpResponse :=
  let status := match e with
    | CrLeaseNotFound _ | CrNotFound _ => NOT_FOUND
    | CrProxyDenied _ | CrProxyPolicyMissing _ | CrLeaseDenied _ | CrNotConfigured _ | CrUnsupportedBackend _ => FORBIDDEN
    | CrProxyRateLimited _ => TOO_MANY_REQUESTS
    | CrMissingId | CrMissingProvider | CrMissingType | CrAlreadyExists _ => BAD_REQUEST
    | CrPersistence _ | CrSerialization _ | CrBackendRead _ _ _ => INTERNAL_SERVER_ERROR
    end in
  let response := error_reply status (credential_error_text e) in
  match e with
  | CrProxyRateLimited n => response <| resp_headers ::= λ h, header_insert h "retry-after" (pretty n) |>
  | _ => response
  end.

Definition request_actor req : string :=
  match ar_identity req with Some who => oi_actor who | None => "local-trusted-network" end.

(** [append_access_audit]; [id] and [now] are drawn by [AuditEvent::new].  A
    failure of the logger is only warned of. *)
Definition append_access_audit (id : string) (now : Z) req (t : AuditEventType) (resource action : string)
    (outcome : AuditOutcome) st : CredentialApi :=
  st <| ca_audit ::= fmap (λ trail, trail ++
    [with_details (new_event id now t (request_actor req) resource action outcome)
       (json_obj [("metadata_only", JBool true)])]) |>.

Definition str_list (l : list string) : json := JArr (JStr <$> l).
Definition opt_num (o : option Z) : json := match o with Some n => JNum n | None => JNull end.

Definition backend_json (b : option CredentialBackendRef) : json :=
  match b with
  | Some b => json_obj [("kind", JStr (be_kind b)); ("ref", JStr (be_reference b))]
  | None => JNull
  end.
Definition metadata_json (m : CredentialMetadataResponse) : json :=
  let c := mr_credential m in
  json_obj [("id", JStr (cr_id c)); ("provider", JStr (cr_provider c)); ("type", JStr (cr_type c));
    ("owner", opt_str (cr_owner c)); ("scopes", str_list (cr_scopes c));
    ("allowed_uses", str_list (cr_allowed_uses c)); ("backend", backend_json (cr_backend c));
    ("configured", JBool (mr_configured m)); ("created_at", JStr (rfc3339 (cr_created_at c)));
    ("updated_at", JStr (rfc3339 (cr_updated_at c))); ("last_rotated_at", opt_time (cr_last_rotated_at c))].
Definition policy_json (p : CredentialProxyPolicy) : json :=
  json_obj [("allowed_hosts", str_list (allowed_hosts p)); ("allowed_path_prefixes", str_list (allowed_path_prefixes p));
    ("allowed_methods", str_list (allowed_methods p)); ("allowed_headers", str_list (allowed_headers p));
    ("injected_header", match injected_header p with
       | Some h => json_obj [("name", JStr (ih_name h)); ("value_prefix", JStr (ih_value_prefix h))]
       | None => JNull end);
    ("rate_limit_per_minute", opt_num (rate_limit_per_minute p))].
Definition lease_json (l : CredentialLease) : json :=
  json_obj [("id", JStr (cl_id l)); ("credential_id", JStr (cl_credential_id l)); ("agent_id", JStr (cl_agent_id l));
    ("instance_id", JStr (cl_instance_id l)); ("session_id", JStr (cl_session_id l)); ("provider", JStr (cl_provider l));
    ("allowed_use", JStr (cl_allowed_use l)); ("issued_at", JStr (rfc3339 (cl_issued_at l)));
    ("expires_at", JStr (rfc3339 (cl_expires_at l)));
    ("state", JStr match cl_state l with CrActive => "active" | CrRevoked => "revoked" end);
    ("revoked_at", opt_time (cl_revoked_at l));
    ("proxy_policy", match cl_proxy_policy l with Some p => policy_json p | None => JNull end)].

(** What a request draws from the world: the clock of the broker, the fresh
    lease id, how the write of the store file went, and the id and time of the
    audit event. *)
Record HandlerRun : Type := {
  hr_now : Z;
  hr_lease_id : string;
  hr_persist : PersistRun;
  hr_event_id : string;
  hr_event_now : Z;
}.
Variable r : HandlerRun.

(** The handlers that change the broker answer and leave one event. *)
Definition audited {A} (t : AuditEventType) (done denied : string) (resource : string) (done_resource : A → string)
    (reply : A → HttpResponse) st req (outcome : CredentialBroker * result CredentialError A)
    : CredentialApi * HttpResponse :=
  let st := st <| ca_broker := outcome.1 |> in
  match outcome.2 with
  | Ok a => (append_access_audit (hr_event_id r) (hr_event_now r) req t (done_resource a) done OutcomeSuccess st, reply a)
  | Err e => (append_access_audit (hr_event_id r) (hr_event_now r) req t resource denied OutcomeDenied st, credential_error e)
  end.

Definition create_credential (q : UpsertCredentialRequest) st req : CredentialApi * HttpResponse :=
  audited ConfigChange "credential_created" "credential_create_denied" (uq_id q) (λ _, uq_id q)
    (λ m, json_reply CREATED (metadata_json m)) st req (create_cred stored (hr_now r) (ca_broker st) q (hr_persist r)).

Definition update_credential (id : string) (q : UpsertCredentialRequest) st req : CredentialApi * HttpResponse :=
  audited ConfigChange "credential_updated" "credential_update_denied" id (λ _, id)
    (λ m, json_reply OK (metadata_json m)) st req (update_cred stored (hr_now r) (ca_broker st) id q (hr_persist r)).

Definition delete_credential (id : string) st req : CredentialApi * HttpResponse :=
  audited ConfigChange "credential_deleted" "credential_delete_denied" id (λ _, id)
    (λ _, {| resp_status := NO_CONTENT; resp_headers := []; resp_body := EmptyString |}) st req
    (delete_cred stored (hr_now r) (ca_broker st) id (hr_persist r)).

Definition issue_lease (id : string) (q : IssueCredentialLeaseRequest) st req : CredentialApi * HttpResponse :=
  audited SecretAccess "credential_lease_issued" "credential_lease_issue_denied" id cl_id
    (λ l, json_reply CREATED (lease_json l)) st req
    (issue_cred_lease stored (hr_now r) (ca_broker st) (hr_lease_id r) id q (hr_persist r)).

Definition revoke_lease (id : string) st req : CredentialApi * HttpResponse :=
  audited SecretAccess "credential_lease_revoked" "credential_lease_revoke_denied" id (λ _, id)
    (λ l, json_reply OK (lease_json l)) st req (revoke_cred_lease stored (hr_now r) (ca_broker st) id (hr_persist r)).

Definition list_credentials st : HttpResponse :=
  json_reply OK (json_obj [("credentials", JArr (metadata_json <$> list_creds (ca_broker st)))]).

Definition get_credential (id : string) st : HttpResponse :=
  match get_cred (ca_broker st) id with
  | Ok m => json_reply OK (metadata_json m)
  | Err e => credential_error e
  end.

Definition leases_json (ls : list CredentialLease) : json := json_obj [("leases", JArr (lease_json <$> ls))].

Definition list_credential_leases st : HttpResponse := json_reply OK (leases_json (list_cred_leases (ca_broker st))).

Definition list_leases_for_credential (id : string) st : HttpResponse :=
  json_reply OK (leases_json (filter (λ l, cl_credential_id l = id) (list_cred_leases (ca_broker st)))).

Definition get_credential_lease (id : string) st : HttpResponse :=
  match get_cred_lease (ca_broker st) id with
  | Ok l => json_reply OK (lease_json l)
  | Err e => credential_error e
  end.

(** [get_access_authority] *)
Definition get_access_authority (cfg : AuthState) req : HttpResponse :=
  let explicitly_configured := bool_decide (is_Some (as_bearer cfg)) || negb (bool_decide (as_mtls cfg = []))
    || bool_decide (is_Some (as_unix cfg)) in
  let effective_role := match ar_role req with
    | Some role => Some role
    | None => if explicitly_configured then None else Some Admin end in
  let permissions :=
    (if bool_decide (is_Some effective_role) then ["credential.read"; "credential_lease.read"; "access_audit.read"] else [])
    ++ match effective_role with
       | Some Admin => ["credential.create"; "credential.update"; "credential.delete"; "credential_lease.issue";
                        "credential_lease.revoke"]
       | Some Operator => ["credential_lease.issue"; "credential_lease.revoke"]
       | None => [] end
    ++ (if bool_decide (is_Some (ar_identity req)) && bool_decide (is_Some effective_role)
        then ["ssh_lease.read"; "ssh_lease.issue"; "ssh_lease.revoke"] else []) in
  json_reply OK (json_obj [("schema_version", JStr "management.access-authority/v1");
    ("mode", JStr (if bool_decide (is_Some (ar_identity req)) then "authenticated_operator"
                   else if explicitly_configured then "unresolved" else "trusted_local_listener"));
    ("actor", match ar_identity req with
       | Some who => JStr (oi_actor who)
       | None => if explicitly_configured then JNull else JStr "local-trusted-network" end);
    ("role", opt_str (role_as_str <$> effective_role)); ("permissions", str_list permissions)]).

(** [list_access_audit]: the events of the day that concern access. *)
Definition is_access_event (e : AuditEvent) : bool :=
  match ev_type e with
  | SecretAccess | SecretRotation | GatewaySshLease => true
  | ConfigChange => starts_with (ev_action e) "credential_"
  | _ => false
  end.

Definition newer_first (a b : AuditEvent) : Prop := ev_sequence b <= ev_sequence a.
#[global] Instance newer_first_dec : RelDecision newer_first := λ a b, decide (ev_sequence b <= ev_sequence a).

Definition access_limit : AuditQueryFilter :=
  {| qf_event_type := None; qf_actor := None; qf_resource := None; qf_outcome := None; qf_limit := Some 1000 |}.

Definition projected_events (events : list AuditEvent) : list AuditEvent :=
  take 200 (merge_sort newer_first (filter (λ e, is_access_event e = true) events)).

Definition access_event_json (e : AuditEvent) : json :=
  json_obj [("id", JStr (ev_id e)); ("sequence", JNum (ev_sequence e)); ("timestamp", JStr (rfc3339 (ev_timestamp e)));
    ("event_type", JStr (event_type_text (ev_type e))); ("actor", JStr (ev_actor e)); ("resource", JStr (ev_resource e));
    ("correlation_id", opt_str (json_get (ev_details e) "lease_id" ≫= as_str)); ("action", JStr (ev_action e));
    ("outcome", JStr (outcome_text (ev_outcome e))); ("trace_id", opt_str (ev_trace_id e))].

Definition list_access_audit `{AuditText} (now : Z) (dir : option AuditDir) (date : option string) : HttpResponse :=
  let date := default (format_date now) date in
  match date_midnight date with
  | None => error_reply BAD_REQUEST "date must use YYYY-MM-DD"
  | Some _ =>
      match dir with
      | None => json_reply OK (json_obj [("available", JBool false);
          ("reason", JStr "security audit logger is not configured"); ("date", JStr date); ("events", JArr [])])
      | Some dir =>
          match query dir date (Some access_limit) with
          | Err (AuLogNotFound _) => json_reply OK (json_obj [("available", JBool true); ("date", JStr date); ("events", JArr [])])
          | Err _ => error_reply SERVICE_UNAVAILABLE "audit query unavailable"
          | Ok events => json_reply OK (json_obj [("available", JBool true); ("date", JStr date);
              ("events", JArr (access_event_json <$> projected_events events))])
          end
      end
  end.

(** The routes. *)
Inductive CredentialRoute : Type :=
| ListCredentials
| CreateCredential (q : UpsertCredentialRequest)
| ListLeases
| GetLease (id : string)
| RevokeLease (id : string)
| LeasesFor (id : string)
| IssueLease (id : string) (q : IssueCredentialLeaseRequest)
| GetCredential (id : string)
| UpdateCredential (id : string) (q : UpsertCredentialRequest)
| DeleteCredential (id : string).

Definition credential_route (route : CredentialRoute) st req : CredentialApi * HttpResponse :=
  match route with
  | ListCredentials => (st, list_credentials st)
  | CreateCredential q => require_admin (create_credential q) st req
  | ListLeases => (st, list_credential_leases st)
  | GetLease id => (st, get_credential_lease id st)
  | RevokeLease id => revoke_lease id st req
  | LeasesFor id => (st, list_leases_for_credential id st)
  | IssueLease id q => issue_lease id q st req
  | GetCredential id => (st, get_credential id st)
  | UpdateCredential id q => require_admin (update_credential id q) st req
  | DeleteCredential id => require_admin (delete_credential id) st req
  end.

(** [proxy_http] *)
Definition proxy_http `{ProxyText} (read : string → result string string) (client : option string)
    (upstream : OutboundRequest → result string UpstreamResponse) (now now' utc inst : Z)
    (b b' : CredentialBroker) (limiter : RateLimiter) (q : ProxyHttpRequest)
    : RateLimiter * option OutboundRequest * HttpResponse :=
  let '(limiter, out, answer) := proxy_http_inner read client upstream now now' utc inst b b' limiter q in
  (limiter, out, match answer with
     | Ok p => json_reply OK (json_obj [("status", JNum (pr_status p)); ("headers", json_obj (prod_map Datatypes.id JStr <$> iter (pr_headers p)));
                                        ("body", JStr (pr_body p))])
     | Err e => proxy_error e
     end).

End handlers.

(** ** Redaction *)

(** The marker is safe for a secret without brackets that is no part of the
    words between them. *)
Definition redactable (secret : string) : bool :=
  negb (contains_char secret "["%char) && negb (contains_char secret "]"%char)
  && negb (contains_str "REDACTED_CREDENTIAL" secret).

Abbreviation redacted secret s := (replace_from secret "[REDACTED_CREDENTIAL]" 0 s).

Lemma starts_with_empty p : starts_with EmptyString p = true → p = EmptyString.
Proof. by destruct p. Qed.

Section redaction.
Variable secret : string.
Hypothesis nonempty : secret ≠ EmptyString.
Hypothesis no_open : contains_char secret "["%char = false.
Hypothesis no_close : contains_char secret "]"%char = false.
Hypothesis not_inside : contains_str "REDACTED_CREDENTIAL" secret = false.

(** What begins the redacted text begins the text. *)
Lemma redacted_starts p t :
  contains_char p "["%char = false → starts_with (redacted secret t) p = true → starts_with t p = true.
Proof.
  revert t. induction p as [|c p IH]; intros t Hp Hs; [by destruct t|].
  simpl in Hp. apply orb_false_iff in Hp as [Hc Hp].
  destruct t as [|a t]; [done|]. cbn [replace_from] in Hs. destruct (starts_with (String.String a t) secret).
  - unfold starts_with in Hs. simpl in Hs. destruct (ascii_dec c "["%char) as [->|]; done.
  - unfold starts_with in *. simpl in *. destruct (ascii_dec c a); [|done]. by apply IH.
Qed.

Lemma starts_before c w x p :
  contains_char p c = false → starts_with (w +:+ String.String c x) p = true → starts_with w p = true.
Proof.
  revert w. induction p as [|a p IH]; intros w Hp Hs; [by destruct w|].
  simpl in Hp. apply orb_false_iff in Hp as [Ha Hp]. unfold starts_with in *. destruct w as [|b w]; simpl in *.
  - destruct (ascii_dec a c) as [->|]; [|done]. by rewrite Ascii.eqb_refl in Ha.
  - destruct (ascii_dec a b); [|done]. by apply IH.
Qed.

Lemma starts_other c x : contains_char secret c = false → starts_with (String.String c x) secret = false.
Proof using nonempty.
  intros Hc. destruct (starts_with _ _) eqn:Hs; [|done].
  by apply (starts_before c EmptyString x secret Hc), starts_with_empty in Hs.
Qed.

Lemma contains_before w x :
  contains_str w secret = false → contains_str x secret = false →
  contains_str (w +:+ String.String "]"%char x) secret = false.
Proof using nonempty no_close.
  intros Hw Hx. induction w as [|a w IH].
  - change (EmptyString +:+ String.String "]"%char x) with (String.String "]"%char x). cbn [contains_str].
    rewrite (starts_other _ _ no_close). exact Hx.
  - cbn [contains_str] in Hw. apply orb_false_iff in Hw as [Hs Hw].
    change (String.String a w +:+ String.String "]"%char x) with (String.String a (w +:+ String.String "]"%char x)).
    cbn [contains_str]. rewrite IH by done. rewrite orb_false_r.
    apply not_true_is_false. intros Hst. apply (starts_before "]"%char (String.String a w) x secret no_close) in Hst. congruence.
Qed.

Lemma redacted_clean n s : contains_str (replace_from secret "[REDACTED_CREDENTIAL]" n s) secret = false.
Proof using nonempty no_open no_close not_inside.
  revert n. induction s as [|a s IH]; intros n.
  - cbn [replace_from contains_str]. rewrite orb_false_r. apply not_true_is_false. intros Hs.
    by apply starts_with_empty in Hs.
  - destruct n as [|n]; [|apply IH]. cbn [replace_from]. destruct (starts_with (String.String a s) secret) eqn:Hs.
    + change ("[REDACTED_CREDENTIAL]" +:+ ?x) with (String.String "["%char ("REDACTED_CREDENTIAL" +:+ String.String "]"%char x)).
      cbn [contains_str]. rewrite (starts_other _ _ no_open). by apply contains_before.
    + cbn [contains_str]. rewrite IH, orb_false_r. apply not_true_is_false. intros Hst.
      assert (Hr : starts_with (redacted secret (String.String a s)) secret = true)
        by (cbn [replace_from]; rewrite Hs; exact Hst).
      apply redacted_starts in Hr; [congruence|done].
Qed.

End redaction.

Lemma redact_secret_clean value secret :
  secret ≠ EmptyString → redactable secret = true → contains_str (redact_secret value secret) secret = false.
Proof.
  unfold redactable, redact_secret. intros Hne Hr. rewrite decide_False by done. reflect_bools.
  by apply redacted_clean.
Qed.

(** A secret that ends like the marker can come back. *)
Lemma redaction_recreates_secret : contains_str (redact_secret "L]abcabc" "L]abc") "L]abc" = true.
Proof. reflexivity. Qed.

(** ** Where a secret goes *)

Section confinement.
Context `{MapIter, ProxyText}.
Implicit Types (q : ProxyHttpRequest) (policy : CredentialProxyPolicy).

(** The policy lets the request go to its target. *)
Definition target_permitted policy q : Prop :=
  ∃ u host, proxy_url (pq_url q) = Some u ∧ pu_host u = Some host ∧
    is_host_allowed host (host_with_port host u) (allowed_hosts policy) = true ∧
    (allowed_path_prefixes policy = [] ∨ ∃ p, p ∈ allowed_path_prefixes policy ∧ starts_with (pu_path u) p = true) ∧
    (allowed_methods policy = [] ∨ ∃ m, m ∈ allowed_methods policy ∧ eq_ignore_ascii_case m (pq_method q) = true).

Lemma existsb_elem {A} (f : A → bool) l : existsb f l = true → ∃ x, x ∈ l ∧ f x = true.
Proof. intros (x & Hx & Hf)%existsb_exists. exists x. split; [by apply list_elem_of_In|done]. Qed.

Lemma authorize_permitted policy q u :
  proxy_url (pq_url q) = Some u → authorize_proxy_request policy q u = Ok () → target_permitted policy q.
Proof.
  intros Hu (host & Hhost%ok_or_Ok & Ha)%bind_Ok.
  destruct (is_host_allowed _ _ _) eqn:Hh; [|done]. cbn [negb] in Ha.
  destruct (negb (bool_decide (allowed_path_prefixes policy = [])) && _) eqn:Hp; [done|].
  destruct (negb (bool_decide (allowed_methods policy = [])) && _) eqn:Hm; [done|].
  exists u, host. split_and!; [done..| |].
  - apply andb_false_iff in Hp as [Hp|Hp]; apply negb_false_iff in Hp; [left; by apply bool_decide_eq_true in Hp|].
    right. by apply existsb_elem in Hp.
  - apply andb_false_iff in Hm as [Hm|Hm]; apply negb_false_iff in Hm; [left; by apply bool_decide_eq_true in Hm|].
    right. by apply existsb_elem in Hm.
Qed.

(** A header of the request that the policy lists. *)
Definition allowed_from policy q (h : string * option string) : Prop :=
  ∃ name value, pq_headers q !! name = Some value ∧ header_name name = Some h.1 ∧ h.2 = Some value ∧
    existsb (λ allowed, eq_ignore_ascii_case allowed name) (allowed_headers policy) = true.

Lemma header_insert_Forall (P : string * option string → Prop) headers n v :
  Forall P headers → P (n, Some v) → Forall P (header_insert headers n v).
Proof. intros Hf Hp. apply Forall_app. split; [|by constructor].
  apply Forall_forall. intros h [_ Hin]%list_elem_of_filter. by apply (proj1 (Forall_forall _ _) Hf).
Qed.

Lemma filtered_headers_allowed policy q headers :
  filtered_headers policy (pq_headers q) = Ok headers → Forall (allowed_from policy q) headers.
Proof.
  unfold filtered_headers.
  assert (Hgen : ∀ l acc, (∀ nv, nv ∈ l → pq_headers q !! nv.1 = Some nv.2) →
    (∀ hs, acc = Ok hs → Forall (allowed_from policy q) hs) →
    ∀ hs, foldl (filter_header policy) acc l = Ok hs → Forall (allowed_from policy q) hs).
  { induction l as [|[name value] l IH]; intros acc Hl Hacc hs; [apply Hacc|]. cbn [foldl]. apply IH.
    { intros nv Hnv. apply Hl. by right. }
    intros hs' (out & -> & Hf)%bind_Ok. specialize (Hacc out eq_refl).
    destruct (existsb _ (allowed_headers policy)) eqn:Hal; [|done]. cbn [negb] in Hf.
    apply bind_Ok in Hf as (n & Hn%ok_or_Ok & Hf). destruct (header_value_ok value); [|done]. injection Hf as <-.
    apply header_insert_Forall; [done|]. exists name, value. cbn [fst snd]. split_and!; [|done..].
    apply (Hl (name, value)). by left. }
  apply Hgen.
  - intros [name value] Hin. by apply elem_of_iter in Hin.
  - intros hs [= <-]. constructor.
Qed.

(** The request that leaves: the secret is in one header, the others are the
    workload's own and allowed. *)
Definition carries_secret (policy : CredentialProxyPolicy) q (secret : string) (out : OutboundRequest) : Prop :=
  let inj := default default_injected (injected_header policy) in
  ∃ name others, header_name (ih_name inj) = Some name ∧
    ob_headers out = others ++ [(name, Some (ih_value_prefix inj +:+ secret))] ∧
    Forall (λ h, h.1 ≠ name ∧ allowed_from policy q h) others ∧ ob_url out = pq_url q ∧ ob_body out = pq_body q.

Lemma outbound_carries m q out :
  proxy_outbound m q = Ok out → carries_secret (ma_policy m) q (ma_secret m) out.
Proof.
  intros (method & _ & Ho)%bind_Ok. apply bind_Ok in Ho as (headers & Hh & Ho).
  apply filtered_headers_allowed in Hh. apply bind_Ok in Ho as (headers' & Hi & [= <-]).
  unfold inject_header in Hi. apply bind_Ok in Hi as (name & Hn%ok_or_Ok & Hi).
  destruct (header_value_ok _); [|done]. injection Hi as <-.
  eexists name, _. split_and!; [done|reflexivity| |done..].
  apply Forall_forall. intros h [Hne [_ Hin]%list_elem_of_filter]%list_elem_of_filter.
  split; [done|]. by apply (proj1 (Forall_forall _ _) Hh).
Qed.

Lemma response_headers_clean headers secret :
  secret ≠ EmptyString → redactable secret = true →
  map_Forall (λ _ v, contains_str v secret = false) (response_headers headers secret).
Proof.
  intros Hne Hr. unfold response_headers.
  assert (Hgen : ∀ acc : gmap string string, map_Forall (λ _ v, contains_str v secret = false) acc →
    map_Forall (λ _ v, contains_str v secret = false) (foldl (redact_header secret) acc headers)); [|apply Hgen, map_Forall_empty].
  induction headers as [|[n v] headers IH]; intros acc Hacc; [done|]. cbn [foldl]. apply IH.
  unfold redact_header. cbn [fst snd]. destruct v as [v|]; [|done]. case_decide; [done|].
  apply map_Forall_insert_2; [by apply redact_secret_clean|done].
Qed.

Lemma active_lease_Ok now b id l :
  active_lease now b id = Ok l ↔ br_leases b !! id = Some l ∧ cl_state l = CrActive ∧ now < cl_expires_at l.
Proof.
  unfold active_lease. split.
  - intros (l' & Hl%ok_or_Ok & Ha)%bind_Ok. destruct (_ || _) eqn:Ho; [done|]. injection Ha as ->. reflect_bools. done.
  - intros (Hl & Hs & He). rewrite Hl. cbn. rewrite bool_decide_eq_true_2 by done. cbn [negb orb].
    by rewrite (proj2 (Z.leb_gt _ _)).
Qed.


End confinement.

(** ** The broker over a run *)

(** The operations of the broker, with their clock and what the write of the
    store file gave; [OReopen] restarts the server. *)
Inductive CredOp : Type :=
| OCreate (now : Z) (q : UpsertCredentialRequest) (run : PersistRun)
| OUpdate (now : Z) (id : string) (q : UpsertCredentialRequest) (run : PersistRun)
| OList
| OGet (id : string)
| ODelete (now : Z) (id : string) (run : PersistRun)
| OIssue (now : Z) (lease_id credential_id : string) (q : IssueCredentialLeaseRequest) (run : PersistRun)
| OListLeases
| OGetLease (id : string)
| ORevoke (now : Z) (id : string) (run : PersistRun)
| ORevokeSession (now : Z) (session_id : string) (run : PersistRun)
| OReopen.

Inductive CredReply : Type :=
| RMeta (r : result CredentialError CredentialMetadataResponse)
| RMetas (r : list CredentialMetadataResponse)
| RUnit (r : result CredentialError unit)
| RLease (r : result CredentialError CredentialLease)
| RLeases (r : result CredentialError (list CredentialLease)).

Section run.
Context `{MapIter}.
Variable stored : bool.
Implicit Types (b : CredentialBroker) (op : CredOp).

Definition cred_step b op : CredentialBroker * CredReply :=
  match op with
  | OCreate now q run => prod_map id RMeta (create_cred stored now b q run)
  | OUpdate now i q run => prod_map id RMeta (update_cred stored now b i q run)
  | OList => (b, RMetas (list_creds b))
  | OGet i => (b, RMeta (get_cred b i))
  | ODelete now i run => prod_map id RUnit (delete_cred stored now b i run)
  | OIssue now l i q run => prod_map id RLease (issue_cred_lease stored now b l i q run)
  | OListLeases => (b, RLeases (Ok (list_cred_leases b)))
  | OGetLease i => (b, RLease (get_cred_lease b i))
  | ORevoke now i run => prod_map id RLease (revoke_cred_lease stored now b i run)
  | ORevokeSession now s run => prod_map id RLeases (revoke_leases_for_session stored now b s run)
  | OReopen => (open_broker b, RUnit (Ok ()))
  end.

Fixpoint cred_run b (ops : list CredOp) : CredentialBroker * list CredReply :=
  match ops with
  | [] => (b, [])
  | op :: ops => let '(b, r) := cred_step b op in let '(b, rs) := cred_run b ops in (b, r :: rs)
  end.

(** *** Secrets are not observable *)

(** The operation and the state without the secrets. *)
Definition hide_request (q : UpsertCredentialRequest) : UpsertCredentialRequest :=
  q <| uq_value ::= fmap (λ v, v <| vi_plaintext ::= fmap (λ _, EmptyString) |>) |>.
Definition hide_op op : CredOp :=
  match op with
  | OCreate now q run => OCreate now (hide_request q) run
  | OUpdate now i q run => OUpdate now i (hide_request q) run
  | _ => op
  end.
Definition hide b : CredentialBroker := b <| br_plaintext_values ::= fmap (λ _, EmptyString) |>.

Lemma hide_configured b c i : is_configured (hide b) c i = is_configured b c i.
Proof.
  unfold is_configured, hide. cbn. f_equal. apply bool_decide_ext. rewrite lookup_fmap. apply fmap_is_Some.
Qed.

Lemma hide_persist b run : persist stored (hide b) run = prod_map hide id (persist stored b run).
Proof. unfold persist. by destruct stored, run. Qed.

Lemma hide_plaintext q : secret_plaintext (hide_request q) = (λ _, EmptyString) <$> secret_plaintext q.
Proof. destruct q as [i p t o sc al be [[k pl]|]]; [|done]. unfold secret_plaintext. cbn. by destruct (decide (k = _)). Qed.

Lemma hide_insert b i v :
  (hide b) <| br_plaintext_values ::= <[i := EmptyString]> |> = hide (b <| br_plaintext_values ::= <[i := v]> |>).
Proof. unfold hide. cbn. by rewrite fmap_insert. Qed.

Lemma hide_delete b i :
  (hide b) <| br_plaintext_values ::= delete i |> = hide (b <| br_plaintext_values ::= delete i |>).
Proof. unfold hide. cbn. by rewrite fmap_delete. Qed.

Lemma hide_list b : list_creds (hide b) = list_creds b.
Proof. unfold list_creds. apply list_fmap_ext. intros k [n c] _. by rewrite hide_configured. Qed.

(** Both sides write the store file last. *)
Ltac hide_saved :=
  match goal with |- context [persist stored ?x ?r] =>
    match goal with |- context [prod_map hide _ ?t] =>
      match t with context [persist stored ?y r] =>
        let E := fresh in
        assert (E : x = hide y); [try reflexivity|
          rewrite E, hide_persist; destruct (persist stored y r) as [? [[]|]]; reflexivity]
      end end end.

Lemma hide_create now b q run :
  create_cred stored now (hide b) (hide_request q) run = prod_map hide Datatypes.id (create_cred stored now b q run).
Proof.
  unfold create_cred. change (validate_credential_request (hide_request q)) with (validate_credential_request q).
  destruct (validate_credential_request q); [|done]. rewrite hide_plaintext.
  change (br_credentials (hide b)) with (br_credentials b). change (uq_id (hide_request q)) with (uq_id q).
  case_decide; [done|]. destruct (secret_plaintext q) as [v|]; cbn [fmap option_fmap option_map].
  - rewrite (hide_insert b _ v). hide_saved.
  - hide_saved.
Qed.

Lemma hide_update now b i q run :
  update_cred stored now (hide b) i (hide_request q) run = prod_map hide Datatypes.id (update_cred stored now b i q run).
Proof.
  unfold update_cred. change (validate_credential_request (hide_request q)) with (validate_credential_request q).
  change (uq_id (hide_request q)) with (uq_id q). destruct (negb _); [done|].
  destruct (validate_credential_request q); [|done]. rewrite hide_plaintext.
  change (br_credentials (hide b)) with (br_credentials b). destruct (br_credentials b !! i); [|done].
  destruct (secret_plaintext q) as [v|]; cbn [fmap option_fmap option_map].
  - rewrite (hide_insert b _ v), hide_configured. hide_saved.
  - rewrite hide_configured. hide_saved.
Qed.

Lemma hide_issue now b l i q run :
  issue_cred_lease stored now (hide b) l i q run = prod_map hide Datatypes.id (issue_cred_lease stored now b l i q run).
Proof.
  unfold issue_cred_lease. destruct (validate_lease_request q); [|done]. destruct (_ <=? _); [done|].
  destruct (_ <? _); [done|]. change (br_credentials (hide b)) with (br_credentials b).
  destruct (br_credentials b !! i); [|done]. rewrite hide_configured.
  destruct (negb _); [done|]. destruct (negb _); [done|]. destruct (_ && _); [done|]. hide_saved.
Qed.

Lemma hide_step b op : cred_step (hide b) (hide_op op) = prod_map hide Datatypes.id (cred_step b op).
Proof.
  destruct op; cbn [cred_step hide_op].
  - rewrite hide_create. by destruct (create_cred _ _ _ _ _).
  - rewrite hide_update. by destruct (update_cred _ _ _ _ _ _).
  - by rewrite hide_list.
  - unfold get_cred. change (br_credentials (hide b)) with (br_credentials b).
    destruct (br_credentials b !! id); [by rewrite hide_configured|done].
  - unfold delete_cred. change (br_credentials (hide b)) with (br_credentials b).
    destruct (br_credentials b !! id); [|done]. destruct b as [cr pl le fi]. unfold hide. cbn.
    unfold prod_map. destruct stored, run; cbn; by rewrite fmap_delete.
  - rewrite hide_issue. by destruct (issue_cred_lease _ _ _ _ _ _ _).
  - done.
  - done.
  - unfold revoke_cred_lease. change (br_leases (hide b)) with (br_leases b).
    destruct (br_leases b !! id); [|done]. unfold persist. by destruct stored, run.
  - unfold revoke_leases_for_session, persist. by destruct stored, run.
  - unfold open_broker. change (br_file (hide b)) with (br_file b). destruct (br_file b) as [[cs ls]|]; cbn.
    all: unfold hide, prod_map; cbn; by rewrite fmap_empty.
Qed.

Lemma hide_run b ops : cred_run (hide b) (hide_op <$> ops) = prod_map hide Datatypes.id (cred_run b ops).
Proof.
  revert b. induction ops as [|op ops IH]; intros b; [done|]. cbn [cred_run fmap list_fmap].
  rewrite hide_step. destruct (cred_step b op) as [b' r]. cbn [prod_map fst snd]. unfold prod_map at 1. cbn [fst snd].
  rewrite IH. by destruct (cred_run b' ops).
Qed.

(** C7: secrets are not observable.  Two runs of the broker that differ only in
    the secrets given (and in the secrets held at the start) answer every
    request alike and leave the same store file: no answer, no listing and no
    file carries a secret. *)
Theorem secrets_not_observable b1 b2 ops1 ops2 :
  hide b1 = hide b2 → hide_op <$> ops1 = hide_op <$> ops2 →
  (cred_run b1 ops1).2 = (cred_run b2 ops2).2 ∧
  br_file (cred_run b1 ops1).1 = br_file (cred_run b2 ops2).1.
Proof.
  intros Hb Ho. pose proof (hide_run b1 ops1) as H1. rewrite Hb, Ho, hide_run in H1. unfold prod_map in H1.
  injection H1 as _ _ Hf Hr. done.
Qed.

(** *** Leases *)

(** A lease is filed under its id and lives at most an hour. *)
Definition lease_ok (k : string) (l : CredentialLease) : Prop :=
  cl_id l = k ∧ cl_expires_at l <= cl_issued_at l + MAX_CREDENTIAL_LEASE_TTL_SECONDS * 1000000000.
Definition issued_id op : option string :=
  match op with OIssue _ l _ _ _ => Some l | _ => None end.

(** What every operation does to the leases and the file: the leases are
    those of before, some of them revoked, possibly with one issued; the file
    is that of before or written from the new state. *)
Definition lease_grows (new : option string) (ls ls' : gmap string CredentialLease) : Prop :=
  ∀ k l', ls' !! k = Some l' →
    (∃ l, ls !! k = Some l ∧ (l' = l ∨ ∃ t, l' = l <| cl_state := CrRevoked |> <| cl_revoked_at := Some t |>)) ∨
    (new = Some k ∧ lease_ok k l').
Definition file_follows b b' : Prop :=
  br_file b' = br_file b ∨ br_file b' = Some ((iter (br_credentials b')).*2, (iter (br_leases b')).*2).
Definition lease_step (new : option string) b b' : Prop :=
  lease_grows new (br_leases b) (br_leases b') ∧ file_follows b b'.

Lemma lease_grows_refl new ls : lease_grows new ls ls.
Proof. intros k l' Hl. left. eauto. Qed.

Lemma revoke_if_cases now p l :
  revoke_if now p l = l ∨ ∃ t, revoke_if now p l = l <| cl_state := CrRevoked |> <| cl_revoked_at := Some t |>.
Proof. unfold revoke_if. destruct (_ && _); eauto. Qed.

Lemma revoke_grows now p ls : lease_grows None ls (revoke_if now p <$> ls).
Proof.
  intros k l' (l & <- & Hl)%lookup_fmap_Some. left. exists l. split; [done|]. apply revoke_if_cases.
Qed.

Lemma insert_grows new ls k l' :
  (∃ l, ls !! k = Some l ∧ (l' = l ∨ ∃ t, l' = l <| cl_state := CrRevoked |> <| cl_revoked_at := Some t |>)) ∨
    (new = Some k ∧ lease_ok k l') → lease_grows new ls (<[k := l']> ls).
Proof. intros Hl j l0 [[<- <-]|[_ Hj]]%lookup_insert_Some; [done|left; eauto]. Qed.

Lemma persist_follows new b b0 run :
  br_file b = br_file b0 → lease_grows new (br_leases b0) (br_leases b) → lease_step new b0 (persist stored b run).1.
Proof.
  unfold persist, lease_step, file_follows. intros Hf Hg.
  destruct stored; [destruct run|]; cbn; eauto.
Qed.

Lemma saved_lease_step {A} new b0 b run (f : result CredentialError unit → A) :
  br_file b = br_file b0 → lease_grows new (br_leases b0) (br_leases b) →
  lease_step new b0 (let '(b, saved) := persist stored b run in (b, f saved)).1.
Proof.
  intros Hf Hg. pose proof (persist_follows new b b0 run Hf Hg) as Hp. by destruct (persist stored b run).
Qed.

Lemma lease_step_refl new b : lease_step new b b.
Proof. split; [apply lease_grows_refl|by left]. Qed.

Lemma issue_lease_step now b l i q run : lease_step (Some l) b (issue_cred_lease stored now b l i q run).1.
Proof.
  unfold issue_cred_lease. destruct (validate_lease_request q); [|apply lease_step_refl].
  destruct (_ <=? _) eqn:Hlo; [apply lease_step_refl|]. destruct (_ <? _) eqn:Hhi; [apply lease_step_refl|].
  destruct (br_credentials b !! i); [|apply lease_step_refl].
  repeat (case_match; [apply lease_step_refl|]). apply saved_lease_step; [done|].
  apply insert_grows. right. split; [done|]. unfold lease_ok. cbn. apply Z.ltb_ge in Hhi. split; [done|lia].
Qed.

Lemma cred_lease_step b op : op ≠ OReopen → lease_step (issued_id op) b (cred_step b op).1.
Proof.
  intros Hop. destruct op; cbn [cred_step issued_id prod_map fst Datatypes.id]; try apply lease_step_refl; try done.
  - unfold create_cred. repeat (case_match; try apply lease_step_refl).
    all: match goal with E : persist stored ?x ?r = (?c, _) |- _ =>
      pose proof (persist_follows None x b r eq_refl (lease_grows_refl _ _)) as Hp; by rewrite E in Hp end.
  - unfold update_cred. repeat (case_match; try apply lease_step_refl).
    all: match goal with E : persist stored ?x ?r = (?c, _) |- _ =>
      pose proof (persist_follows None x b r eq_refl (lease_grows_refl _ _)) as Hp; by rewrite E in Hp end.
  - unfold delete_cred. destruct (_ !! _); [|apply lease_step_refl]. apply persist_follows; [done|apply revoke_grows].
  - apply issue_lease_step.
  - unfold revoke_cred_lease. destruct (br_leases b !! id) as [l|] eqn:Hl; [|apply lease_step_refl].
    apply saved_lease_step; [done|]. apply insert_grows. left. exists l. split; [done|]. apply revoke_if_cases.
  - apply saved_lease_step; [done|]. apply revoke_grows.
Qed.

(** A property of leases that revoking keeps holds of every lease after the
    step, in memory and in the file. *)
Definition all_leases (P : CredentialLease → Prop) b : Prop :=
  map_Forall (λ k l, cl_id l = k ∧ P l) (br_leases b) ∧
  ∀ cs ls, br_file b = Some (cs, ls) → Forall P ls.

Lemma loaded_lease ls k l :
  foldl (λ m l, <[cl_id l := l]> m) (∅ : gmap string CredentialLease) ls !! k = Some l → cl_id l = k ∧ l ∈ ls.
Proof.
  assert (Hgen : ∀ m : gmap string CredentialLease, foldl (λ m l, <[cl_id l := l]> m) m ls !! k = Some l → (cl_id l = k ∧ l ∈ ls) ∨ m !! k = Some l).
  { induction ls as [|x ls IH]; intros m Hl; [by right|]. cbn [foldl] in Hl. apply IH in Hl as [[? ?]|Hl].
    - left. split; [done|]. by right.
    - apply lookup_insert_Some in Hl as [[<- <-]|[_ Hl]]; [left|by right]. split; [done|]. by left. }
  intros [Hl|Hl]%Hgen; [done|]. by rewrite lookup_empty in Hl.
Qed.

Lemma all_leases_step (P : CredentialLease → Prop) b op :
  (∀ l t, P l → P (l <| cl_state := CrRevoked |> <| cl_revoked_at := Some t |>)) →
  (∀ k l, issued_id op = Some k → lease_ok k l → P l) →
  all_leases P b → all_leases P (cred_step b op).1.
Proof.
  intros Hrev Hnew [Hm Hf].
  assert (op = OReopen ∨ op ≠ OReopen) as [->|Hop] by (destruct op; (left; reflexivity) || (right; discriminate)).
  - cbn [cred_step fst]. unfold open_broker. destruct (br_file b) as [[cs ls]|] eqn:Hfile.
    + specialize (Hf _ _ eq_refl). split; cbn.
      * intros k l [Hk Hin]%loaded_lease. split; [done|]. by apply (proj1 (Forall_forall _ _) Hf).
      * by intros ?? [= <- <-].
    + split; [by apply map_Forall_empty|done].
  - pose proof (cred_lease_step b op Hop) as [Hg Hfol]. destruct (cred_step b op) as [b' r]. cbn [fst] in *.
    assert (Hm' : map_Forall (λ k l, cl_id l = k ∧ P l) (br_leases b')).
    { intros k l' Hl'. destruct (Hg k l' Hl') as [(l & Hl & [->|[t ->]])|[Hi Ho]].
      - by apply Hm.
      - destruct (Hm k l Hl). split; [done|]. by apply Hrev.
      - split; [apply Ho|]. by apply (Hnew k). }
    split; [done|]. intros cs ls Hfile. destruct Hfol as [Hfol|Hfol]; rewrite Hfol in Hfile; [by apply (Hf cs)|].
    injection Hfile as <- <-. apply Forall_forall. intros l ([k l'] & -> & Hin)%list_elem_of_fmap.
    apply elem_of_iter in Hin. by apply (Hm' k).
Qed.

Lemma all_leases_run (P : CredentialLease → Prop) b ops :
  (∀ l t, P l → P (l <| cl_state := CrRevoked |> <| cl_revoked_at := Some t |>)) →
  Forall (λ op, ∀ k l, issued_id op = Some k → lease_ok k l → P l) ops →
  all_leases P b → all_leases P (cred_run b ops).1.
Proof.
  intros Hrev Hops. revert b. induction Hops as [|op ops Hop Hops IH]; intros b Hb; [done|]. cbn [cred_run].
  pose proof (all_leases_step P b op Hrev Hop Hb) as Hs. destruct (cred_step b op) as [b' r]. cbn [fst] in Hs.
  specialize (IH b' Hs). by destruct (cred_run b' ops).
Qed.

(** The operation is meant to end the lease: it names it, its credential or its
    session. *)
Definition ends_lease b (i : string) op : bool :=
  match op with
  | ORevoke _ j _ => bool_decide (j = i)
  | ODelete _ c _ => bool_decide (cl_credential_id <$> br_leases b !! i = Some c)
  | ORevokeSession _ s _ => bool_decide (cl_session_id <$> br_leases b !! i = Some s)
  | _ => false
  end.

Definition ok_reply (r : CredReply) : bool :=
  match r with
  | RMeta (Ok _) | RMetas _ | RUnit (Ok _) | RLease (Ok _) | RLeases (Ok _) => true
  | _ => false
  end.

Definition empty_broker : CredentialBroker :=
  {| br_credentials := ∅; br_plaintext_values := ∅; br_leases := ∅; br_file := None |}.

Lemma all_leases_empty P : all_leases P empty_broker.
Proof. split; [apply map_Forall_empty|done]. Qed.

Lemma revoke_if_dead now p l : p l = true → cl_state (revoke_if now p l) = CrRevoked.
Proof. unfold revoke_if. intros ->. cbn [andb]. case_bool_decide as Hs; [done|]. by destruct (cl_state l). Qed.

Lemma persist_written b run r c :
  stored = true → persist stored b run = (c, r) → r = Ok () →
  br_leases c = br_leases b ∧ ∃ cs, br_file c = Some (cs, (iter (br_leases b)).*2).
Proof. unfold persist. intros -> Hp ->. destruct run; [done|]. injection Hp as <-. cbn. eauto. Qed.

(** After an operation that ends the lease it is revoked in memory, and the
    file is written from that. *)
Lemma ended_lease b i op b' r :
  stored = true → ends_lease b i op = true → cred_step b op = (b', r) → ok_reply r = true →
  (∀ l, br_leases b' !! i = Some l → cl_state l = CrRevoked) ∧
  ∃ cs, br_file b' = Some (cs, (iter (br_leases b')).*2).
Proof.
  intros Hst Hends Hs Hr. destruct op; try done; cbn [ends_lease cred_step] in *; apply bool_decide_eq_true in Hends.
  - unfold delete_cred in Hs. destruct (br_credentials b !! id); [|by injection Hs as <- <-].
    destruct (persist stored _ run) as [b1 [[]|]] eqn:Hp; injection Hs as <- <-; [|done].
    apply persist_written in Hp as [Hl Hf]; [|done..]. rewrite Hl. split; [|done].
    intros l' (l & <- & Hi)%lookup_fmap_Some. change (br_leases b !! i = Some l) in Hi. rewrite Hi in Hends. injection Hends as Hc.
    apply revoke_if_dead. by apply bool_decide_eq_true.
  - subst id. unfold revoke_cred_lease in Hs. destruct (br_leases b !! i) as [l0|]; [|by injection Hs as <- <-].
    destruct (persist stored _ run) as [b1 [[]|]] eqn:Hp; injection Hs as <- <-; [|done].
    apply persist_written in Hp as [Hl Hf]; [|done..]. rewrite Hl. split; [|done].
    intros l'. cbn. rewrite lookup_insert_eq. intros [= <-]. by apply revoke_if_dead.
  - unfold revoke_leases_for_session in Hs.
    destruct (persist stored _ run) as [b1 [[]|]] eqn:Hp; injection Hs as <- <-; [|done].
    apply persist_written in Hp as [Hl Hf]; [|done..]. rewrite Hl. split; [|done].
    intros l' (l & <- & Hi)%lookup_fmap_Some. change (br_leases b !! i = Some l) in Hi. rewrite Hi in Hends. injection Hends as Hc.
    apply revoke_if_dead. by apply bool_decide_eq_true.
Qed.

(** C18: a lease that was ended is ended for good.  In a store with a file, once
    revoking the lease, deleting its credential or revoking its session was
    answered with success, the lease gives no secret ever again: whatever the
    broker is asked later, also when later writes of the file fail and the
    server restarts, provided lease ids are not issued twice. *)
Theorem ended_lease_final before i op b' r after t :
  stored = true →
  ends_lease (cred_run empty_broker before).1 i op = true →
  cred_step (cred_run empty_broker before).1 op = (b', r) → ok_reply r = true →
  Forall (λ op, issued_id op ≠ Some i) after →
  ∀ l, active_lease t (cred_run b' after).1 i ≠ Ok l.
Proof.
  intros Hst Hends Hs Hr Hafter l [Hl [Hact _]]%active_lease_Ok.
  destruct (ended_lease _ _ _ _ _ Hst Hends Hs Hr) as [Hdead [cs Hfile]].
  assert (Hkey : all_leases (λ _, True) b').
  { replace b' with (cred_step (cred_run empty_broker before).1 op).1 by (by rewrite Hs).
    apply all_leases_step; [done..|]. apply all_leases_run; [done| |apply all_leases_empty]. by apply Forall_true. }
  assert (Hall : all_leases (λ l, cl_id l = i → cl_state l = CrRevoked) b').
  { destruct Hkey as [Hkey _]. split.
    - intros k l' Hl'. destruct (Hkey k l' Hl') as [<- _]. split; [done|]. intros <-. by apply Hdead.
    - intros cs' ls Hf. rewrite Hfile in Hf. injection Hf as _ <-.
      apply Forall_forall. intros l' ([k l0] & -> & Hin)%list_elem_of_fmap. cbn. apply elem_of_iter in Hin.
      intros Hi. destruct (Hkey k l0 Hin) as [Hk _]. apply Hdead. by rewrite <- Hi, Hk. }
  apply (all_leases_run _ _ after) in Hall as [Hall _]; [|done|].
  - destruct (Hall i l Hl) as [Hi Hd]. rewrite (Hd Hi) in Hact. done.
  - eapply Forall_impl; [exact Hafter|]. cbn. intros o Ho k l' Hk [Hid _] Hi. congruence.
Qed.

(** A lease of the broker lives at most an hour. *)
Lemma lease_ttl_bounded ops i l :
  br_leases (cred_run empty_broker ops).1 !! i = Some l →
  cl_expires_at l <= cl_issued_at l + MAX_CREDENTIAL_LEASE_TTL_SECONDS * 1000000000.
Proof.
  intros Hl.
  assert (Ha : all_leases (λ l, lease_ok (cl_id l) l) (cred_run empty_broker ops).1).
  { apply all_leases_run; [|apply Forall_true|apply all_leases_empty].
    - intros l' t [_ Ho]. split; [done|exact Ho].
    - intros op k l' _ [Hk Ho]. split; [done|exact Ho]. }
  by destruct (proj1 Ha i l Hl) as [_ [_ Ho]].
Qed.

End run.

(** ** The rate limit *)

(** A call of the limiter: the wall clock, the monotonic clock, the lease's
    material. *)
Record RateCall : Type := { rc_utc : Z; rc_now : Z; rc_material : CredentialProxyMaterial }.

(** When the calls of a key were accepted. *)
Fixpoint accepted_at (k : RateLimitKey) (buckets : RateLimiter) (calls : list RateCall) : list Z :=
  match calls with
  | [] => []
  | c :: calls =>
      let '(buckets, r) := check_rate (rc_utc c) (rc_now c) buckets (rc_material c) in
      (if bool_decide (rate_key (rc_material c) = k) && bool_decide (r = Ok ()) then [rc_now c] else [])
      ++ accepted_at k buckets calls
  end.

(** How many of the times are in [lo, hi). *)
Definition count_in (lo hi : Z) (ts : list Z) : Z := Z.of_nat (length (filter (λ t, lo <= t < hi) ts)).

Lemma count_in_app lo hi ts us : count_in lo hi (ts ++ us) = count_in lo hi ts + count_in lo hi us.
Proof. unfold count_in. rewrite filter_app, length_app. lia. Qed.

Lemma count_in_one lo hi t : count_in lo hi [t] = if decide (lo <= t < hi) then 1 else 0.
Proof. unfold count_in. cbn. unfold filter. cbn. by case_decide. Qed.

Lemma count_in_le lo hi lo' hi' ts :
  (∀ t, t ∈ ts → lo <= t < hi → lo' <= t < hi') → count_in lo hi ts <= count_in lo' hi' ts.
Proof.
  intros Hts. induction ts as [|t ts IH]; [done|].
  change (t :: ts) with ([t] ++ ts). rewrite !count_in_app, !count_in_one.
  specialize (IH (λ t Ht, Hts t (list_elem_of_further _ _ _ Ht))).
  pose proof (Hts t (list_elem_of_here _ _)). repeat case_decide; try lia; tauto.
Qed.

Lemma count_in_split lo mid hi ts : lo <= mid <= hi → count_in lo hi ts = count_in lo mid ts + count_in mid hi ts.
Proof.
  intros Hmid. induction ts as [|t ts IH]; [done|].
  change (t :: ts) with ([t] ++ ts). rewrite !count_in_app, !count_in_one. repeat case_decide; lia.
Qed.

Lemma count_in_none lo hi ts : (∀ t, t ∈ ts → ¬ lo <= t < hi) → count_in lo hi ts = 0.
Proof.
  intros Hts. assert (count_in lo hi ts <= count_in 0 0 ts) as Hle.
  { apply count_in_le. intros t Ht Hin. by destruct (Hts t Ht). }
  pose proof (count_in_split 0 0 0 ts). unfold count_in in *. lia.
Qed.

Lemma count_in_nonneg lo hi ts : 0 <= count_in lo hi ts.
Proof. unfold count_in. lia. Qed.

Section rate.
Variable k : RateLimitKey.
Variables limit expires : Z.
Hypothesis limit_ok : 0 <= limit <= u32_max.
Local Abbreviation W := PROXY_RATE_LIMIT_WINDOW.

(** A call while the lease lives; those of the key have its limit and expiry. *)
Definition call_ok (c : RateCall) : Prop :=
  rc_utc c < expires ∧
  (rate_key (rc_material c) = k →
   rate_limit_per_minute (ma_policy (rc_material c)) = Some limit ∧ ma_expires_at (rc_material c) = expires).

(** The bucket agrees with the times accepted so far: it counts those of its
    window, and the window before it held at most the limit. *)
Definition bucket_ok (now : Z) (ts : list Z) (bu : RateLimitBucket) : Prop :=
  bu_expires_at bu = expires ∧ bu_window_started bu <= now ∧
  bu_count bu = count_in (bu_window_started bu) (bu_window_started bu + W) ts ∧ bu_count bu <= limit ∧
  count_in (bu_window_started bu - W) (bu_window_started bu) ts <= limit ∧
  Forall (λ t, t < bu_window_started bu + W) ts.
Definition rate_inv (now : Z) (ts : list Z) (buckets : RateLimiter) : Prop :=
  (∀ t, count_in t (t + W) ts <= 2 * limit) ∧
  match buckets !! k with None => ts = [] | Some bu => bucket_ok now ts bu end.

Lemma rate_inv_later now now' ts buckets : now <= now' → rate_inv now ts buckets → rate_inv now' ts buckets.
Proof.
  intros Hle [Hc Hb]. split; [done|]. destruct (buckets !! k) as [bu|]; [|done].
  destruct Hb as (? & ? & ?). split_and!; [done|lia|apply H1..].
Qed.

(** Dropping the buckets of expired leases keeps the one of the key. *)
Lemma rate_inv_retain utc now ts buckets :
  utc < expires → rate_inv now ts buckets → rate_inv now ts (filter (λ kv, utc < bu_expires_at kv.2) buckets).
Proof.
  intros Hutc [Hc Hb]. split; [done|]. destruct (buckets !! k) as [bu|] eqn:Hk.
  - rewrite (proj2 (map_lookup_filter_Some _ _ _ bu)); [done|]. split; [done|]. cbn. destruct Hb as [-> _]. done.
  - rewrite (proj2 (map_lookup_filter_None _ _ _)); [done|]. by left.
Qed.

(** The bucket the call works on. *)
Definition fresh_bucket now (bu : RateLimitBucket) : RateLimitBucket :=
  if W <=? now - bu_window_started bu then bu <| bu_window_started := now |> <| bu_count := 0 |> else bu.

Lemma fresh_bucket_ok now ts bu :
  bucket_ok now ts bu → bucket_ok now ts (fresh_bucket now bu) ∧ now < bu_window_started (fresh_bucket now bu) + W.
Proof using limit_ok.
  assert (HW : 0 < W) by (vm_compute; done).
  intros (He & Hws & Hcount & Hle & Hprev & Hall). unfold fresh_bucket.
  destruct (_ <=? _) eqn:Hw; [apply Z.leb_le in Hw|apply Z.leb_gt in Hw]; [|split; [|lia]; by split_and!].
  split; [|cbn; lia]. unfold bucket_ok. cbn. split_and!; try done; try lia.
  - symmetry. apply count_in_none. intros t Ht. apply (proj1 (Forall_forall _ _) Hall) in Ht. lia.
  - etransitivity; [|exact Hle]. rewrite Hcount. apply count_in_le.
    intros t Ht ?. apply (proj1 (Forall_forall _ _) Hall) in Ht. lia.
  - eapply Forall_impl; [exact Hall|]. cbn. lia.
Qed.

(** Accepting a call below the limit. *)
Lemma accept_ok now ts bu :
  (∀ t, count_in t (t + W) ts <= 2 * limit) → bucket_ok now ts bu → now < bu_window_started bu + W →
  bu_count bu < limit →
  (∀ t, count_in t (t + W) (ts ++ [now]) <= 2 * limit) ∧
  bucket_ok now (ts ++ [now]) (bu <| bu_count ::= λ n, sat_add u32_max n 1 |>).
Proof using limit_ok.
  intros Hc (He & Hws & Hcount & Hle & Hprev & Hall) Hnow Hlt. set (ws := bu_window_started bu) in *.
  assert (Hall' : Forall (λ t, t < ws + W) (ts ++ [now])) by (apply Forall_app; split; [done|by constructor]).
  assert (Hnew : count_in ws (ws + W) (ts ++ [now]) = bu_count bu + 1).
  { rewrite count_in_app, count_in_one, Hcount, decide_True by lia. done. }
  assert (Hprev' : count_in (ws - W) ws (ts ++ [now]) <= limit).
  { rewrite count_in_app, count_in_one, decide_False by lia. lia. }
  pose proof (proj1 (Forall_forall _ _) Hall') as Hin. split.
  - intros t. destruct (decide (t + W <= now)).
    { rewrite count_in_app, count_in_one, decide_False by lia. specialize (Hc t). lia. }
    destruct (decide (ws <= t)).
    + transitivity (count_in ws (ws + W) (ts ++ [now])); [|lia].
      apply count_in_le. intros u Hu%Hin ?. lia.
    + rewrite (count_in_split t ws (t + W)) by lia.
      assert (count_in t ws (ts ++ [now]) <= count_in (ws - W) ws (ts ++ [now])) by (apply count_in_le; lia).
      assert (count_in ws (t + W) (ts ++ [now]) <= count_in ws (ws + W) (ts ++ [now])) by (apply count_in_le; lia).
      lia.
  - pose proof (count_in_nonneg ws (ws + W) ts). unfold bucket_ok. cbn. fold ws.
    assert (Hsat : sat_add u32_max (bu_count bu) 1 = bu_count bu + 1) by (unfold sat_add; lia).
    rewrite Hsat, Hnew. split_and!; try done; lia.
Qed.

(** The bucket before the call, and what the call does to it. *)
Definition bucket_before (c : RateCall) (buckets : RateLimiter) : RateLimitBucket :=
  fresh_bucket (rc_now c)
    ((default {| bu_window_started := rc_now c; bu_count := 0; bu_expires_at := expires |} (buckets !! k))
       <| bu_expires_at := expires |>).

Lemma bucket_before_ok c ts buckets :
  rate_inv (rc_now c) ts buckets →
  bucket_ok (rc_now c) ts (bucket_before c buckets) ∧ rc_now c < bu_window_started (bucket_before c buckets) + W.
Proof using limit_ok.
  intros [_ Hb]. apply fresh_bucket_ok. destruct (buckets !! k) as [bu|]; cbn [default from_option Datatypes.id].
  - destruct Hb as (He & Hb). by split.
  - subst ts. unfold bucket_ok. cbn. split_and!; try done; try lia. change (0 <= limit). lia.
Qed.

Lemma check_rate_inv c ts buckets :
  call_ok c → rate_inv (rc_now c) ts buckets →
  let '(buckets', r) := check_rate (rc_utc c) (rc_now c) buckets (rc_material c) in
  rate_inv (rc_now c)
    (ts ++ if bool_decide (rate_key (rc_material c) = k) && bool_decide (r = Ok ()) then [rc_now c] else []) buckets'.
Proof using limit_ok.
  intros [Hutc Hk] Hinv. unfold check_rate. destruct (decide (rate_key (rc_material c) = k)) as [Heq|Hne].
  - destruct (Hk Heq) as [-> ->]. rewrite Heq. rewrite bool_decide_eq_true_2 by done. cbn [andb].
    apply (rate_inv_retain (rc_utc c)) in Hinv; [|done]. set (bs := filter _ buckets) in *.
    change (if PROXY_RATE_LIMIT_WINDOW <=? _ then _ else _) with (bucket_before c bs).
    destruct (bucket_before_ok c ts bs Hinv) as [Hok Hw]. set (bu := bucket_before c bs) in *.
    destruct (limit <=? bu_count bu) eqn:Hl.
    + rewrite app_nil_r. split; [apply Hinv|]. by rewrite lookup_insert_eq.
    + apply Z.leb_gt in Hl. rewrite bool_decide_eq_true_2 by done.
      destruct (accept_ok _ _ _ (proj1 Hinv) Hok Hw Hl) as [Hc Hb]. split; [done|]. by rewrite lookup_insert_eq.
  - destruct (rate_limit_per_minute _) as [lim|].
    + apply (rate_inv_retain (rc_utc c)) in Hinv; [|done]. rewrite (bool_decide_eq_false_2 (_ = k)) by done.
      destruct (lim <=? _); cbn [andb]; rewrite app_nil_r; destruct Hinv as [Hc Hb];
        (split; [done|by rewrite lookup_insert_ne]).
    + rewrite (bool_decide_eq_false_2 (_ = k)) by done. cbn [andb]. by rewrite app_nil_r.
Qed.

Lemma accepted_bounded calls now ts buckets :
  Sorted Z.le (now :: (rc_now <$> calls)) → Forall call_ok calls → rate_inv now ts buckets →
  ∀ t, count_in t (t + W) (ts ++ accepted_at k buckets calls) <= 2 * limit.
Proof using limit_ok.
  revert now ts buckets. induction calls as [|c calls IH]; intros now ts buckets Hs Hok Hinv t.
  { cbn. rewrite app_nil_r. apply Hinv. }
  apply Sorted_inv in Hs as [Hs Hhd]. apply HdRel_inv in Hhd. apply Forall_cons in Hok as [Hc Hok].
  apply (rate_inv_later now (rc_now c)) in Hinv; [|done]. cbn [accepted_at].
  pose proof (check_rate_inv c ts buckets Hc Hinv) as Hnext.
  destruct (check_rate _ _ _ _) as [buckets' r]. rewrite app_assoc. by apply (IH (rc_now c)).
Qed.

End rate.

(** C36: the rate limit.  While a lease lives, the limiter accepts at most twice
    the limit of its policy in any interval of a minute, for any sequence of
    calls, those of other leases between them.  A window starts at its first
    call, so two windows can meet in a minute and let more than the limit pass:
    [two_windows_meet]. *)
Theorem rate_limit_bounded k limit expires calls t :
  0 <= limit <= u32_max → Sorted Z.le (rc_now <$> calls) → Forall (call_ok k limit expires) calls →
  count_in t (t + PROXY_RATE_LIMIT_WINDOW) (accepted_at k ∅ calls) <= 2 * limit.
Proof.
  intros Hl Hs Hok. change (accepted_at k ∅ calls) with ([] ++ accepted_at k ∅ calls).
  destruct calls as [|c calls]; [change (0 <= 2 * limit); lia|].
  apply (accepted_bounded _ _ expires Hl _ (rc_now c)); [by constructor; [|constructor]|done|].
  split; [intros u; change (0 <= 2 * limit); lia|done].
Qed.

(** ** The HTTP API *)

Section api_theorems.
Context `{MapIter, Env, AuthEnv}.
Variables (stored : bool) (r : HandlerRun).
Implicit Types (st : CredentialApi) (req : AdminRequest).

(** The requests that reach a handler which changes the broker. *)
Definition runs_change (route : CredentialRoute) req : bool :=
  match route with
  | CreateCredential _ | UpdateCredential _ _ | DeleteCredential _ => negb (bool_decide (ar_role req = Some Operator))
  | RevokeLease _ | IssueLease _ _ => true
  | _ => false
  end.

Lemma credential_error_refused e : is_success (resp_status (credential_error e)) = false.
Proof. by destruct e. Qed.

(** One event was appended, with the caller as its actor, and it says whether
    the request succeeded. *)
Definition one_event_appended req (trail : list AuditEvent) (out : CredentialApi * HttpResponse) : Prop :=
  ∃ e, ca_audit out.1 = Some (trail ++ [e]) ∧ ev_actor e = request_actor req ∧
    ev_outcome e = (if is_success (resp_status out.2) then OutcomeSuccess else OutcomeDenied).

Lemma audited_appends {A} t ok_text denied resource f (reply : A → HttpResponse) st req outcome trail :
  (∀ a, is_success (resp_status (reply a)) = true) → ca_audit st = Some trail →
  one_event_appended req trail (audited r t ok_text denied resource f reply st req outcome).
Proof.
  intros Hr Ht. unfold audited, append_access_audit. destruct outcome as [b [a|e]]; cbn -[credential_error is_success]; rewrite Ht.
  - eexists. cbn -[is_success]. split_and!; [done..|]. by rewrite Hr.
  - eexists. cbn -[credential_error is_success]. split_and!; [done..|]. by rewrite credential_error_refused.
Qed.

(** every change of the credentials is audited.  A request that reaches a
    handler which changes credentials or leases appends exactly one event to
    the audit trail, with the caller as its actor and the outcome of the answer
    given; every other request, an operator's for an admin route too, changes
    neither the broker nor the trail. *)
Theorem credential_changes_audited route st req trail :
  ca_audit st = Some trail →
  if runs_change route req then one_event_appended req trail (credential_route stored r route st req)
  else (credential_route stored r route st req).1 = st.
Proof.
  intros Ht. destruct route; cbn [runs_change credential_route]; try done; unfold require_admin;
    try (destruct (ar_role req) as [[]|]; cbn [negb bool_decide decide]); try done; by apply audited_appends.
Qed.

(** The listing of access events looks at the first thousand events of the day
    only: an event after them is not shown. *)
Lemma late_access_events_hidden `{AuditText} (laws : audit_text_laws _) dir date evs events e :
  dir !! log_name date = Some (render evs) → query dir date (Some access_limit) = Ok events →
  e ∈ projected_events events → e ∈ take 1000 evs.
Proof.
  unfold query. intros -> Hq. cbv [ok_or mbind result_bind] in Hq. rewrite (render_lines laws) in Hq.
  unfold access_limit in Hq. rewrite (query_limit laws) in Hq. injection Hq as <-.
  unfold projected_events. intros Hin%elem_of_take. destruct Hin as (i & Hi & _).
  apply list_elem_of_lookup_2 in Hi. rewrite merge_sort_Permutation in Hi. by apply list_elem_of_filter in Hi as [_ Hi].
Qed.

End api_theorems.

(** ** Sample runs *)

#[local] Existing Instance sample_env.
#[local] Existing Instance sample_auth.
#[local] Existing Instance sample_iter.

#[local] Instance sample_proxy_text : ProxyText := {|
  proxy_url := λ s, Some {| pu_host := Some "api.example"; pu_port := None; pu_path := "/v1/x" |};
  method_parse := λ s, Some s;
  header_name := λ s, Some (to_ascii_lowercase s);
  header_value_ok := λ _, true;
  utf8_lossy := λ s, s;
|}.

Definition sample_policy : CredentialProxyPolicy :=
  {| allowed_hosts := ["api.example"]; allowed_path_prefixes := ["/v1/"]; allowed_methods := ["GET"];
     allowed_headers := ["x-trace"]; injected_header := None; rate_limit_per_minute := Some 2 |}.
Definition sample_upsert (secret : string) : UpsertCredentialRequest :=
  {| uq_id := "c"; uq_provider := "p"; uq_type := "api_key"; uq_owner := None; uq_scopes := [];
     uq_allowed_uses := []; uq_backend := None;
     uq_value := Some {| vi_kind := "write_only"; vi_plaintext := Some secret |} |}.
Definition sample_lease_request : IssueCredentialLeaseRequest :=
  {| lq_agent_id := "a"; lq_instance_id := "i"; lq_session_id := "s"; lq_provider := "p"; lq_allowed_use := "u";
     lq_ttl_seconds := 60; lq_proxy_policy := Some sample_policy |}.
Definition sample_cred_ops (secret : string) : list CredOp :=
  [OCreate 0 (sample_upsert secret) None; OIssue 1 "lease" "c" sample_lease_request None; OList].
Definition sample_broker : CredentialBroker := (cred_run true empty_broker (sample_cred_ops "hunter")).1.

Definition sample_proxy_request : ProxyHttpRequest :=
  {| pq_lease_id := "lease"; pq_agent_id := "a"; pq_instance_id := "i"; pq_session_id := "s"; pq_method := "GET";
     pq_url := "https://api.example/v1/x"; pq_headers := {["X-Trace" := "t"]}; pq_body := None |}.
(** A server that answers with the headers it was sent. *)
Definition echo_server (out : OutboundRequest) : result string UpstreamResponse :=
  Ok {| ur_status := 200; ur_headers := ob_headers out; ur_body := Ok "hello hunter" |}.
Definition sample_proxied :=
  proxy_http_inner (λ _, Err "no file") None echo_server 2 2 2 2 sample_broker sample_broker ∅ sample_proxy_request.

Lemma sample_proxied_sent : match sample_proxied with (_, Some _, Ok _) => true | _ => false end = true.
Proof. vm_compute. reflexivity. Qed.
Lemma sample_secret :
  plaintext_for_active_lease (λ _, Err "no file") 2 sample_broker "lease" "a" "i" "s" = Ok "hunter".
Proof. vm_compute. reflexivity. Qed.


Lemma secrets_not_observable_witness :
  (cred_run true empty_broker (sample_cred_ops "hunter")).2 = (cred_run true empty_broker (sample_cred_ops "other")).2.
Proof.
  exact (proj1 (secrets_not_observable true empty_broker empty_broker (sample_cred_ops "hunter") (sample_cred_ops "other")
    eq_refl eq_refl)).
Defined.

Definition sample_revoked := cred_step true sample_broker (ORevoke 5 "lease" None).

Lemma ended_lease_final_witness :
  match active_lease 6 (cred_run true sample_revoked.1 [OReopen; OListLeases]).1 "lease" with
  | Ok _ => False | Err _ => True end.
Proof.
  destruct (active_lease 6 _ "lease") as [l|e] eqn:Hl; [|exact I].
  refine (ended_lease_final true (sample_cred_ops "hunter") "lease" (ORevoke 5 "lease" None) sample_revoked.1
    sample_revoked.2 [OReopen; OListLeases] 6 eq_refl eq_refl _ _ _ l Hl).
  - reflexivity.
  - reflexivity.
  - repeat constructor; discriminate.
Defined.

(** Calls of one lease, which allows two a minute. *)
Definition sample_material : CredentialProxyMaterial :=
  {| ma_lease_id := "lease"; ma_credential_id := "c"; ma_provider := "p"; ma_agent_id := "a"; ma_instance_id := "i";
     ma_session_id := "s"; ma_expires_at := 3600000000000; ma_secret := "hunter"; ma_policy := sample_policy |}.
Definition sample_calls : list RateCall :=
  (λ t, {| rc_utc := t; rc_now := t; rc_material := sample_material |})
    <$> [0; 59000000000; 59500000000; 60000000000; 60500000000; 61000000000].

Lemma sample_calls_ok : Forall (call_ok (rate_key sample_material) 2 3600000000000) sample_calls.
Proof. repeat constructor. Qed.
Lemma sample_calls_sorted : Sorted Z.le (rc_now <$> sample_calls).
Proof. repeat constructor; vm_compute; discriminate. Qed.

Lemma rate_limit_bounded_witness :
  count_in 59000000000 (59000000000 + PROXY_RATE_LIMIT_WINDOW) (accepted_at (rate_key sample_material) ∅ sample_calls) <= 4.
Proof.
  apply (rate_limit_bounded (rate_key sample_material) 2 3600000000000 sample_calls 59000000000);
    [vm_compute; split; discriminate|exact sample_calls_sorted|exact sample_calls_ok].
Defined.

(** Of the calls at 59 s, 60 s and 60.5 s all are accepted: three in two seconds
    with a limit of two a minute. *)
Lemma two_windows_meet : accepted_at (rate_key sample_material) ∅ sample_calls = [0; 59000000000; 60000000000; 60500000000].
Proof. vm_compute. reflexivity. Qed.

Definition sample_handler_run : HandlerRun :=
  {| hr_now := 1; hr_lease_id := "lease"; hr_persist := None; hr_event_id := "e"; hr_event_now := 1 |}.
Definition sample_api : CredentialApi := {| ca_broker := empty_broker; ca_audit := Some [] |}.

Lemma credential_changes_audited_witness :
  one_event_appended (sample_admin_request "/api/v2/credentials" []) []
    (credential_route true sample_handler_run (CreateCredential (sample_upsert "hunter")) sample_api
       (sample_admin_request "/api/v2/credentials" [])).
Proof.
  exact (credential_changes_audited true sample_handler_run (CreateCredential (sample_upsert "hunter")) sample_api
    (sample_admin_request "/api/v2/credentials" []) [] eq_refl).
Defined.
