(* ===== verification/SecretsRotation.v ===== *)
(** * Rotation of secrets

    Models management/src/audit/secrets_rotation.rs: the secrets under
    management, their rotation, the grace period, revocation and the rotation
    cycle; and the background task of management/src/audit/mod.rs that logs
    what a cycle did.

    The files are a map from paths to contents.  Removing a file succeeds;
    whether a write succeeds, and what [ssh-keygen] does, are arguments.  Time
    is in nanoseconds; random secrets are arguments. *)

From Stdlib Require Import Ascii.
From S2P Require Import Prelude Text Json CelldAuth AuditLog.

Local Open Scope string_scope.
Local Open Scope list_scope.
Local Open Scope Z_scope.

Record RotationConfig : Type := {
  vm_secret_rotation_hours : Z;
  ssh_key_rotation_days : Z;
  grace_period_minutes : Z;
  secrets_dir : string;
  ssh_keys_dir : string;
  max_retained_versions : Z;
}.

Definition default_rotation_config : RotationConfig :=
  {| vm_secret_rotation_hours := 24; ssh_key_rotation_days := 30; grace_period_minutes := 15;
     secrets_dir := "/var/lib/agentic-sandbox/secrets"; ssh_keys_dir := "/var/lib/agentic-sandbox/ssh-keys";
     max_retained_versions := 3 |}.

Inductive SecretState : Type := SActive | SRotating | SGracePeriod | SRevoked.
#[export] Instance SecretState_eq_dec : EqDecision SecretState.
Proof. solve_decision. Defined.

Record SecretMetadata : Type := {
  sm_secret_id : string;
  sm_secret_type : string;
  sm_resource : string;
  sm_created_at : Z;
  sm_last_rotated : Z;
  sm_next_rotation : Z;
  sm_state : SecretState;
  sm_version : Z;
  sm_hash : string;
}.

Record RotationResult : Type := {
  rr_secret_id : string;
  rr_success : bool;
  rr_previous_version : Z;
  rr_new_version : Z;
  rr_rotated_at : Z;
  rr_grace_period_ends : Z;
  rr_error : option string;
}.

Inductive RotationError : Type :=
| RoIo (detail : string)
| RoJson
| RoSecretNotFound (id : string)
| RoAlreadyRotating (id : string)
| RoKeyGenerationFailed (stderr : string)
| RoSecretRevoked (id : string)
| RoInvalidStateTransition.

(** [SecretMetadataSerde] *)
Record SecretMetadataSerde : Type := {
  ss_secret_type : string;
  ss_resource : string;
  ss_created_at : string;
  ss_last_rotated : string;
  ss_next_rotation : string;
  ss_state : string;
  ss_version : Z;
  ss_hash : string;
}.

(** The rotator with the files it keeps and what its metadata file holds. *)
Record SecretsRotator : Type := {
  ro_secrets : gmap string SecretMetadata;
  ro_pending : gmap string RotationResult;
  ro_history : list RotationResult;
  ro_files : gmap string string;
  ro_saved : option (gmap string SecretMetadataSerde);
}.

Record RotationCycleResult : Type := {
  cy_rotated : list RotationResult;
  cy_failed : list (string * string);
  cy_grace_periods_completed : Z;
}.

Definition state_str (s : SecretState) : string :=
  match s with
  | SActive => "active" | SRotating => "rotating" | SGracePeriod => "grace_period" | SRevoked => "revoked"
  end.
Definition state_of_str (s : string) : SecretState :=
  if decide (s = "active") then SActive
  else if decide (s = "rotating") then SRotating
  else if decide (s = "grace_period") then SGracePeriod
  else if decide (s = "revoked") then SRevoked
  else SActive.

Definition hour : Z := 3600 * 1000000000.
Definition minute : Z := 60 * 1000000000.

(** [Path::with_extension] on the file name: the text after the last dot is
    replaced, unless the dot begins the name. *)
Definition with_extension (name ext : string) : string :=
  match rsplit_once "."%char name with
  | Some (stem, _) => (if decide (stem = EmptyString) then name else stem) +:+ "." +:+ ext
  | None => name +:+ "." +:+ ext
  end.

(** [dir.join(name)] *)
Definition path_join (dir name : string) : string := dir +:+ "/" +:+ name.

Definition rotation_error_text (e : RotationError) : string :=
  match e with
  | RoIo d => "IO error: " +:+ d
  | RoJson => "JSON error"
  | RoSecretNotFound id => "Secret not found: " +:+ id
  | RoAlreadyRotating id => "Secret already in rotation: " +:+ id
  | RoKeyGenerationFailed d => "Key generation failed: " +:+ d
  | RoSecretRevoked id => "Secret revoked: " +:+ id
  | RoInvalidStateTransition => "Invalid state transition"
  end.

(** What a call meets: the error of writing a path or of setting its
    permissions, and of running [ssh-keygen -f path]; else the key pair. *)
Record RotationIo : Type := {
  io_write : string → option string;
  io_permissions : string → option string;
  io_keygen : string → result RotationError (string * string);
}.

Section rotation.
Context `{MapIter, Env, AuthEnv}.
Variable cfg : RotationConfig.
Implicit Types (ro : SecretsRotator) (io : RotationIo) (now : Z).

Definition hash_secret (secret : string) : string := hex_encode (sha256 secret).

Definition from_metadata (m : SecretMetadata) : SecretMetadataSerde :=
  {| ss_secret_type := sm_secret_type m; ss_resource := sm_resource m; ss_created_at := rfc3339 (sm_created_at m);
     ss_last_rotated := rfc3339 (sm_last_rotated m); ss_next_rotation := rfc3339 (sm_next_rotation m);
     ss_state := state_str (sm_state m); ss_version := sm_version m; ss_hash := sm_hash m |}.

(** [now]: what [Utc::now()] gives where a time does not parse. *)
Definition into_metadata now (s : SecretMetadataSerde) (id : string) : SecretMetadata :=
  let time t := default now (parse_from_rfc3339 t) in
  {| sm_secret_id := id; sm_secret_type := ss_secret_type s; sm_resource := ss_resource s;
     sm_created_at := time (ss_created_at s); sm_last_rotated := time (ss_last_rotated s);
     sm_next_rotation := time (ss_next_rotation s); sm_state := state_of_str (ss_state s);
     sm_version := ss_version s; sm_hash := ss_hash s |}.

Definition metadata_path : string := path_join (secrets_dir cfg) "rotation-metadata.json".

(** [new] with [load_metadata], from the files of [ro]. *)
Definition load_rotator now ro : SecretsRotator :=
  {| ro_secrets := match ro_saved ro with
       | Some m => map_imap (λ id s, Some (into_metadata now s id)) m
       | None => ∅ end;
     ro_pending := ∅; ro_history := []; ro_files := ro_files ro; ro_saved := ro_saved ro |}.

Definition save_metadata io ro : SecretsRotator * result RotationError unit :=
  match io_write io metadata_path with
  | Some err => (ro, Err (RoIo err))
  | None => (ro <| ro_saved := Some (from_metadata <$> ro_secrets ro) |>, Ok ())
  end.

Definition fresh_metadata now (id ty resource : string) (interval : Z) : SecretMetadata :=
  {| sm_secret_id := id; sm_secret_type := ty; sm_resource := resource; sm_created_at := now; sm_last_rotated := now;
     sm_next_rotation := now + interval; sm_state := SActive; sm_version := 1; sm_hash := EmptyString |}.

Definition register_secret now io (id ty resource : string) (interval : Z) ro
    : SecretsRotator * result RotationError unit :=
  save_metadata io (ro <| ro_secrets ::= <[id := fresh_metadata now id ty resource interval]> |>).

Definition secret_due now (m : SecretMetadata) : bool :=
  bool_decide (sm_state m = SActive) && (sm_next_rotation m <=? now).

Definition should_rotate now ro (id : string) : bool :=
  match ro_secrets ro !! id with Some m => secret_due now m | None => false end.

Definition get_due_rotations now ro : list string :=
  (filter (λ kv, secret_due now kv.2 = true) (iter (ro_secrets ro))).*1.

(** The version a rotation starts from; a secret not known is registered. *)
Definition previous_version now io (id ty vm_name : string) (interval : Z) ro
    : SecretsRotator * result RotationError Z :=
  match ro_secrets ro !! id with
  | Some m => (ro, Ok (sm_version m))
  | None => let '(ro, res) := register_secret now io id ty vm_name interval ro in (ro, _ ← res; Ok 0)
  end.

(** The metadata after a rotation. *)
Definition rotated_metadata now (interval version : Z) (hash : string) (m : SecretMetadata) : SecretMetadata :=
  m <| sm_last_rotated := now |> <| sm_next_rotation := now + interval |> <| sm_state := SGracePeriod |>
    <| sm_version := version |> <| sm_hash := hash |>.

Definition rotation_result now (id : string) (previous : Z) : RotationResult :=
  {| rr_secret_id := id; rr_success := true; rr_previous_version := previous; rr_new_version := previous + 1;
     rr_rotated_at := now; rr_grace_period_ends := now + grace_period_minutes cfg * minute; rr_error := None |}.

(** Metadata, save, and the pending rotation. *)
Definition record_rotation now io (id : string) (previous interval : Z) (hash : string) ro
    : SecretsRotator * result RotationError RotationResult :=
  let ro := ro <| ro_secrets ::= alter (rotated_metadata now interval (previous + 1) hash) id |> in
  match save_metadata io ro with
  | (ro, Err e) => (ro, Err e)
  | (ro, Ok _) =>
      let r := rotation_result now id previous in
      (ro <| ro_pending ::= <[id := r]> |>, Ok r)
  end.

(** [secret]: what [generate_secure_secret] draws. *)
Definition rotate_vm_secret now now' io (secret vm_name : string) ro
    : SecretsRotator * result RotationError RotationResult :=
  let id := "vm-secret-" +:+ vm_name in
  let interval := vm_secret_rotation_hours cfg * hour in
  match previous_version now io id "vm_secret" vm_name interval ro with
  | (ro, Err e) => (ro, Err e)
  | (ro, Ok previous) =>
      let path := path_join (secrets_dir cfg) (vm_name +:+ ".secret") in
      let ro := ro <| ro_files ::= delete path |> in
      match io_write io path with
      | Some err => (ro, Err (RoIo err))
      | None =>
          let ro := ro <| ro_files ::= <[path := secret]> |> in
          match io_permissions io path with
          | Some err => (ro, Err (RoIo err))
          | None => record_rotation now' io id previous interval (hash_secret secret) ro
          end
      end
  end.

Definition key_base (vm_name : string) (version : Z) : string := vm_name +:+ "-v" +:+ pretty version.
Definition private_key_path (vm_name : string) (version : Z) : string :=
  path_join (ssh_keys_dir cfg) (with_extension (key_base vm_name version) "key").
Definition public_key_path (vm_name : string) (version : Z) : string :=
  path_join (ssh_keys_dir cfg) (with_extension (key_base vm_name version) "pub").

(** Removing the key files of the versions [from .. from + n - 1]. *)
Fixpoint remove_keys (vm_name : string) (from : Z) (n : nat) (files : gmap string string) : gmap string string :=
  match n with
  | O => files
  | S n => remove_keys vm_name (from + 1) n
             (delete (public_key_path vm_name from) (delete (private_key_path vm_name from) files))
  end.

Definition cleanup_old_ssh_keys (vm_name : string) (current : Z) ro : SecretsRotator :=
  if current <=? max_retained_versions cfg then ro
  else ro <| ro_files ::= remove_keys vm_name 1 (Z.to_nat (current - max_retained_versions cfg)) |>.

(** [ssh-keygen -f path] writes the pair to [path] and [path.pub]. *)
Definition keygen io (path : string) ro : SecretsRotator * result RotationError unit :=
  match io_keygen io path with
  | Err e => (ro, Err e)
  | Ok (private, public) => (ro <| ro_files ::= λ f, <[path +:+ ".pub" := public]> (<[path := private]> f) |>, Ok ())
  end.

Definition rotate_ssh_keys now now' io (vm_name : string) ro : SecretsRotator * result RotationError RotationResult :=
  let id := "ssh-key-" +:+ vm_name in
  let interval := ssh_key_rotation_days cfg * 24 * hour in
  match previous_version now io id "ssh_key" vm_name interval ro with
  | (ro, Err e) => (ro, Err e)
  | (ro, Ok previous) =>
      let version := previous + 1 in
      let private := private_key_path vm_name version in
      let public := public_key_path vm_name version in
      let ro := ro <| ro_files ::= λ f, delete public (delete private f) |> in
      match keygen io private ro with
      | (ro, Err e) => (ro, Err e)
      | (ro, Ok _) =>
          match ro_files ro !! public with
          | None => (ro, Err (RoIo "No such file or directory"))
          | Some key =>
              match record_rotation now' io id previous interval (hash_secret key) ro with
              | (ro, Err e) => (ro, Err e)
              | (ro, Ok r) => (cleanup_old_ssh_keys vm_name version ro, Ok r)
              end
          end
      end
  end.

Definition trim_history (h : list RotationResult) : list RotationResult :=
  if 1000 <? Z.of_nat (length h) then drop 100 h else h.

Definition complete_rotation io (id : string) ro : SecretsRotator * result RotationError unit :=
  match ro_pending ro !! id with
  | None => (ro, Ok ())
  | Some r =>
      save_metadata io (ro <| ro_pending ::= delete id |> <| ro_history ::= λ h, trim_history (h ++ [r]) |>
                           <| ro_secrets ::= alter (λ m, m <| sm_state := SActive |>) id |>)
  end.

Fixpoint complete_all io (ids : list string) (completed : Z) ro : SecretsRotator * result RotationError Z :=
  match ids with
  | [] => (ro, Ok completed)
  | id :: ids =>
      match complete_rotation io id ro with
      | (ro, Err e) => (ro, Err e)
      | (ro, Ok _) => complete_all io ids (completed + 1) ro
      end
  end.

Definition ended_graces now ro : list string :=
  (filter (λ kv, rr_grace_period_ends kv.2 <= now) (iter (ro_pending ro))).*1.

Definition process_pending_rotations now io ro : SecretsRotator * result RotationError Z :=
  complete_all io (ended_graces now ro) 0 ro.

Definition revoke_secret io (id : string) ro : SecretsRotator * result RotationError unit :=
  match ro_secrets ro !! id with
  | None => (ro, Ok ())
  | Some m =>
      let files := λ f : gmap string string,
        if decide (sm_secret_type m = "vm_secret") then delete (path_join (secrets_dir cfg) (sm_resource m +:+ ".secret")) f
        else if decide (sm_secret_type m = "ssh_key") then remove_keys (sm_resource m) 1 (Z.to_nat (sm_version m)) f
        else f in
      save_metadata io (ro <| ro_secrets ::= <[id := m <| sm_state := SRevoked |>]> |> <| ro_files ::= files |>)
  end.

Definition list_secrets ro : list SecretMetadata := (iter (ro_secrets ro)).*2.
Definition get_pending_rotations ro : list RotationResult := (iter (ro_pending ro)).*2.
Definition get_rotation_history ro (limit : option nat) : list RotationResult :=
  match limit with Some n => take n (reverse (ro_history ro)) | None => ro_history ro end.

(** [secret id]: what is drawn for a VM secret. *)
Fixpoint rotate_due now now' io (secret : string → string) (ids : list string) (acc : RotationCycleResult) ro
    : SecretsRotator * RotationCycleResult :=
  match ids with
  | [] => (ro, acc)
  | id :: ids =>
      let result := m ← ro_secrets ro !! id;
        if decide (sm_secret_type m = "vm_secret") then Some (rotate_vm_secret now now' io (secret id) (sm_resource m) ro)
        else if decide (sm_secret_type m = "ssh_key") then Some (rotate_ssh_keys now now' io (sm_resource m) ro)
        else None in
      match result with
      | None => rotate_due now now' io secret ids acc ro
      | Some (ro, Ok r) => rotate_due now now' io secret ids (acc <| cy_rotated ::= λ l, l ++ [r] |>) ro
      | Some (ro, Err e) =>
          rotate_due now now' io secret ids (acc <| cy_failed ::= λ l, l ++ [(id, rotation_error_text e)] |>) ro
      end
  end.

Definition run_rotation_cycle now now' now'' io (secret : string → string) ro
    : SecretsRotator * result RotationError RotationCycleResult :=
  let '(ro, cycle) := rotate_due now now' io secret (get_due_rotations now ro)
    {| cy_rotated := []; cy_failed := []; cy_grace_periods_completed := 0 |} ro in
  let '(ro, completed) := process_pending_rotations now'' io ro in
  (ro, n ← completed; Ok (cycle <| cy_grace_periods_completed := n |>)).

Definition verify_secret_hash ro (id provided : string) : bool :=
  match ro_secrets ro !! id with
  | Some m => negb (bool_decide (sm_state m = SRevoked)) && bool_decide (sm_hash m = provided)
  | None => false
  end.

(** *** The background task *)

(** The audit events of a cycle; [draw] gives each its id and time. *)
Definition cycle_events (draw : nat → string * Z) (c : RotationCycleResult) : list AuditEvent :=
  imap (λ i r, secret_rotation_event (draw i).1 (draw i).2 (rr_secret_id r) "scheduled" OutcomeSuccess
      (Some (json_obj [("previous_version", JNum (rr_previous_version r)); ("new_version", JNum (rr_new_version r))])))
    (cy_rotated c)
  ++ imap (λ i f, let i := (i + length (cy_rotated c))%nat in
      secret_rotation_event (draw i).1 (draw i).2 f.1 "scheduled" OutcomeFailure (Some (json_obj [("error", JStr f.2)])))
    (cy_failed c).

End rotation.

(** ** Theorems *)

Section theorems.
Context `{MapIter, Env, AuthEnv}.
Variable cfg : RotationConfig.
Implicit Types (ro : SecretsRotator) (io : RotationIo) (now : Z) (id : string).

Lemma save_metadata_Ok io ro ro' :
  save_metadata cfg io ro = (ro', Ok ()) → ro' = ro <| ro_saved := Some (from_metadata <$> ro_secrets ro) |>.
Proof. unfold save_metadata. destruct (io_write io _); [done|]. by intros [= <-]. Qed.

(** A save changes neither the secrets, the pending rotations nor the files. *)
Lemma save_metadata_keeps io ro :
  ro_secrets (save_metadata cfg io ro).1 = ro_secrets ro ∧ ro_pending (save_metadata cfg io ro).1 = ro_pending ro ∧
  ro_files (save_metadata cfg io ro).1 = ro_files ro.
Proof. unfold save_metadata. by destruct (io_write io _). Qed.

Lemma record_rotation_Ok now io id previous interval hash ro ro' r :
  record_rotation cfg now io id previous interval hash ro = (ro', Ok r) →
  ro_secrets ro' = alter (rotated_metadata now interval (previous + 1) hash) id (ro_secrets ro) ∧
  ro_pending ro' = <[id := r]> (ro_pending ro) ∧ ro_files ro' = ro_files ro ∧
  ro_saved ro' = Some (from_metadata <$> ro_secrets ro') ∧ r = rotation_result cfg now id previous.
Proof.
  unfold record_rotation. destruct (save_metadata cfg io _) as [ro1 [[]|e]] eqn:Hs; [|done].
  apply save_metadata_Ok in Hs as ->. by intros [= <- <-].
Qed.

Lemma previous_version_Ok now io id ty vm interval ro ro' v :
  previous_version cfg now io id ty vm interval ro = (ro', Ok v) →
  ∃ m, ro_secrets ro' !! id = Some m ∧
    ((ro_secrets ro !! id = Some m ∧ v = sm_version m ∧ ro' = ro) ∨ (ro_secrets ro !! id = None ∧ v = 0)).
Proof.
  unfold previous_version. destruct (ro_secrets ro !! id) as [m|] eqn:Hm.
  - intros [= <- <-]. exists m. split; [done|]. by left.
  - unfold register_secret. destruct (save_metadata cfg io _) as [ro1 [[]|e]] eqn:Hs; [|done]. intros [= <- <-].
    apply save_metadata_Ok in Hs as ->. cbn. rewrite lookup_insert_eq. eexists. split; [done|]. by right.
Qed.

(** what a rotation of a VM's secret leaves.  The file holds the new secret
    and its hash is the one in the metadata, on disk too; the version is one
    more; the secret is in its grace period, pending until it ends.  From then
    on the new secret is the only one the hash check accepts: the old one is
    refused during the grace period. *)
Theorem rotation_replaces_secret now now' io secret vm ro ro' r :
  rotate_vm_secret cfg now now' io secret vm ro = (ro', Ok r) →
  let id := "vm-secret-" +:+ vm in
  let previous := default 0 (sm_version <$> ro_secrets ro !! id) in
  ro_files ro' !! path_join (secrets_dir cfg) (vm +:+ ".secret") = Some secret ∧
  (∃ m, ro_secrets ro' !! id = Some m ∧ sm_state m = SGracePeriod ∧ sm_version m = previous + 1 ∧
        ro_saved ro' = Some (from_metadata <$> ro_secrets ro')) ∧
  ro_pending ro' !! id = Some r ∧ rr_grace_period_ends r = now' + grace_period_minutes cfg * minute ∧
  ∀ h, verify_secret_hash ro' id h = bool_decide (h = hash_secret secret).
Proof.
  unfold rotate_vm_secret. cbv zeta. set (id := "vm-secret-" +:+ vm).
  destruct (previous_version _ _ _ _ _ _ _ _) as [ro1 [v|e]] eqn:Hv; [|done].
  destruct (io_write io _); [done|]. destruct (io_permissions io _); [done|].
  intros (Hs & Hp & Hf & Hsv & Hr)%record_rotation_Ok. apply previous_version_Ok in Hv as (m & Hm & Hv).
  assert (Hprev : v = default 0 (sm_version <$> ro_secrets ro !! id)).
  { destruct Hv as [(-> & -> & _)|[-> ->]]; done. }
  assert (Hm' : ro_secrets ro' !! id = Some (rotated_metadata now' (vm_secret_rotation_hours cfg * hour) (v + 1) (hash_secret secret) m)).
  { rewrite Hs. cbn. by rewrite lookup_alter_eq, Hm. }
  split_and!.
  - rewrite Hf. cbn. by rewrite lookup_insert_eq.
  - eexists. split; [exact Hm'|]. cbn. by rewrite <- Hprev.
  - rewrite Hp. by rewrite lookup_insert_eq.
  - by rewrite Hr.
  - intros h. unfold verify_secret_hash. rewrite Hm'. cbn. by apply bool_decide_ext.
Qed.

(** *** Ending the grace period *)

Lemma complete_rotation_Ok io id ro ro' :
  complete_rotation cfg io id ro = (ro', Ok ()) →
  ro_pending ro' = delete id (ro_pending ro) ∧
  ro_secrets ro' = match ro_pending ro !! id with
    | Some _ => alter (λ m, m <| sm_state := SActive |>) id (ro_secrets ro)
    | None => ro_secrets ro end.
Proof.
  unfold complete_rotation. destruct (ro_pending ro !! id) eqn:Hp.
  - intros ->%save_metadata_Ok. done.
  - intros [= <-]. by rewrite delete_id.
Qed.

Lemma complete_all_Ok io ids n ro ro' k :
  complete_all cfg io ids n ro = (ro', Ok k) → NoDup ids → Forall (λ id, is_Some (ro_pending ro !! id)) ids →
  (∀ id, id ∈ ids → ro_pending ro' !! id = None ∧
     ro_secrets ro' !! id = (λ m, m <| sm_state := SActive |>) <$> ro_secrets ro !! id) ∧
  (∀ id, id ∉ ids → ro_pending ro' !! id = ro_pending ro !! id ∧ ro_secrets ro' !! id = ro_secrets ro !! id).
Proof.
  revert n ro. induction ids as [|i ids IH]; intros n ro; cbn [complete_all].
  { intros [= <- _] _ _. split; [by intros id ?%elem_of_nil|done]. }
  destruct (complete_rotation cfg io i ro) as [ro1 [[]|e]] eqn:Hc; [|done].
  intros Hall [Hi Hnd]%NoDup_cons [[r Hr] Hp]%Forall_cons. apply complete_rotation_Ok in Hc as [Hp1 Hs1]. rewrite Hr in Hs1.
  apply IH in Hall as [Hin Hout]; [|done|].
  2: { apply Forall_forall. intros j Hj. rewrite Hp1, lookup_delete_ne by (intros <-; done). by apply (proj1 (Forall_forall _ _) Hp). }
  split.
  - intros id [->|Hid]%elem_of_cons.
    + destruct (Hout i Hi) as [-> ->]. rewrite Hp1, Hs1, lookup_delete_eq, lookup_alter_eq. done.
    + destruct (Hin id Hid) as [-> ->]. split; [done|]. rewrite Hs1, lookup_alter_ne by (intros <-; done). done.
  - intros id [Hne Hid]%not_elem_of_cons. destruct (Hout id Hid) as [-> ->].
    rewrite Hp1, Hs1, lookup_delete_ne, lookup_alter_ne by done. done.
Qed.

Lemma elem_of_ended_graces now ro id :
  id ∈ ended_graces now ro ↔ ∃ r, ro_pending ro !! id = Some r ∧ rr_grace_period_ends r <= now.
Proof.
  unfold ended_graces. rewrite list_elem_of_fmap. split.
  - intros ([i r] & -> & [Hr Hin]%list_elem_of_filter). apply elem_of_iter in Hin. eauto.
  - intros (r & Hr & Hle). exists (id, r). split; [done|]. apply list_elem_of_filter. split; [done|]. by apply elem_of_iter.
Qed.

Lemma process_pending_Ok now io ro ro' n :
  process_pending_rotations cfg now io ro = (ro', Ok n) →
  ∀ id, if decide (id ∈ ended_graces now ro)
    then ro_pending ro' !! id = None ∧ ro_secrets ro' !! id = (λ m, m <| sm_state := SActive |>) <$> ro_secrets ro !! id
    else ro_pending ro' !! id = ro_pending ro !! id ∧ ro_secrets ro' !! id = ro_secrets ro !! id.
Proof.
  intros Hp id. apply complete_all_Ok in Hp as [Hin Hout].
  - case_decide; [by apply Hin|by apply Hout].
  - unfold ended_graces. eapply sublist_NoDup; [|apply fmap_sublist, sublist_filter]. rewrite iter_perm. apply NoDup_fst_map_to_list.
  - apply Forall_forall. intros i (r & Hr & _)%elem_of_ended_graces. by exists r.
Qed.

(** C39: a revoked secret comes back.  Revoking a secret in its grace period
    leaves the pending rotation, and when the grace period ends the secret is
    active again: the hash that was revoked is accepted. *)
Theorem revoked_secret_revived io io' now id r m ro ro1 ro2 n :
  ro_pending ro !! id = Some r → ro_secrets ro !! id = Some m → rr_grace_period_ends r <= now →
  revoke_secret cfg io id ro = (ro1, Ok ()) → process_pending_rotations cfg now io' ro1 = (ro2, Ok n) →
  verify_secret_hash ro1 id (sm_hash m) = false ∧ verify_secret_hash ro2 id (sm_hash m) = true.
Proof.
  intros Hp Hm Hle Hr Hpp. unfold revoke_secret in Hr. rewrite Hm in Hr. apply save_metadata_Ok in Hr.
  assert (Hs1 : ro_secrets ro1 !! id = Some (m <| sm_state := SRevoked |>)) by (rewrite Hr; cbn; by rewrite lookup_insert_eq).
  assert (Hp1 : ro_pending ro1 !! id = Some r) by (by rewrite Hr). clear Hr.
  split; [unfold verify_secret_hash; by rewrite Hs1|].
  pose proof (process_pending_Ok _ _ _ _ _ Hpp id) as Hd. rewrite decide_True in Hd by (apply elem_of_ended_graces; by exists r).
  destruct Hd as [_ Hs2]. unfold verify_secret_hash. rewrite Hs2, Hs1. cbn. by apply bool_decide_eq_true.
Qed.

(** *** SSH keys *)

Lemma with_extension_stem name : ∃ stem, ∀ ext, with_extension name ext = stem +:+ "." +:+ ext.
Proof.
  unfold with_extension. destruct (rsplit_once _ _) as [[stem rest]|]; [|by exists name].
  exists (if decide (stem = EmptyString) then name else stem). by intros ext.
Qed.

(** the rotation of SSH keys never succeeds.  [ssh-keygen] writes the public
    key next to the private one as [<name>.key.pub], and the rotator reads
    [<name>.pub], which it has just removed: whatever the state of the rotator
    and the outcome of its writes, the call returns an error. *)
Theorem ssh_rotation_never_succeeds now now' io vm ro ro' res :
  rotate_ssh_keys cfg now now' io vm ro = (ro', res) → ∃ e, res = Err e.
Proof.
  unfold rotate_ssh_keys. cbv zeta. destruct (previous_version _ _ _ _ _ _ _ _) as [ro1 [v|e]]; [|intros [= <- <-]; eauto].
  unfold keygen. destruct (io_keygen io _) as [[private public]|e]; [|intros [= <- <-]; eauto]. cbn.
  destruct (with_extension_stem (key_base vm (v + 1))) as [stem Hst]. unfold private_key_path, public_key_path, path_join.
  rewrite !Hst. rewrite lookup_insert_ne.
  2: { rewrite !append_assoc. intros Heq. by do 4 apply append_inj_l in Heq. }
  rewrite lookup_insert_ne.
  2: { intros Heq. by do 4 apply append_inj_l in Heq. }
  rewrite lookup_delete_eq. intros [= <- <-]. eauto.
Qed.

(** A dot in the VM's name: the versions share their key files. *)
Lemma dotted_name_shares_keys : private_key_path cfg "web.prod" 1 = private_key_path cfg "web.prod" 2.
Proof. reflexivity. Qed.

(** *** Restarts *)

(** [chrono]: a time's text parses back. *)
Definition rfc3339_parses : Prop := ∀ t, parse_from_rfc3339 (rfc3339 t) = Some t.

(** the metadata survives a restart.  Loading what was saved gives the
    secrets back, every field of them, when the text of times parses back. *)
Theorem metadata_roundtrip io now ro ro' :
  rfc3339_parses → map_Forall (λ id m, sm_secret_id m = id) (ro_secrets ro) →
  save_metadata cfg io ro = (ro', Ok ()) → ro_secrets (load_rotator now ro') = ro_secrets ro.
Proof.
  intros Hparse Hid ->%save_metadata_Ok. unfold load_rotator. cbn. apply map_eq. intros id.
  rewrite map_lookup_imap, lookup_fmap. destruct (ro_secrets ro !! id) as [m|] eqn:Hm; [|done]. cbn. f_equal.
  pose proof (Hid id m Hm) as Hi. destruct m as [i ty res c l n st v h]. cbn in *. subst i.
  unfold into_metadata, from_metadata. cbn. rewrite !Hparse. by destruct st.
Qed.

(** The types and resources of the secrets; and that the secrets are filed under
    the names the rotations use. *)
Definition names ro : gmap string (string * string) := (λ m, (sm_secret_type m, sm_resource m)) <$> ro_secrets ro.
Definition well_named ro : Prop := map_Forall (λ id n,
  (n.1 = "vm_secret" → id = "vm-secret-" +:+ n.2) ∧ (n.1 = "ssh_key" → id = "ssh-key-" +:+ n.2)) (names ro).

(** What a call may do when it is about [i]: the names stay, and so does every
    other secret. *)
Definition only_touches (i : string) ro ro' : Prop :=
  names ro' = names ro ∧
  ∀ j, j ≠ i → ro_secrets ro' !! j = ro_secrets ro !! j ∧ ro_pending ro' !! j = ro_pending ro !! j.

Lemma only_touches_refl i ro : only_touches i ro ro.
Proof. done. Qed.

Lemma only_touches_trans i ro1 ro2 ro3 : only_touches i ro1 ro2 → only_touches i ro2 ro3 → only_touches i ro1 ro3.
Proof.
  intros [Hn Hj] [Hn' Hj']. split; [by rewrite Hn'|]. intros j Hne. destruct (Hj' j Hne) as [-> ->]. by apply Hj.
Qed.

Lemma only_touches_save i io ro ro0 :
  only_touches i ro0 ro → only_touches i ro0 (save_metadata cfg io ro).1.
Proof.
  intros [Hn Hj]. destruct (save_metadata_keeps io ro) as (Hs & Hp & _). unfold only_touches, names. rewrite Hs, Hp. done.
Qed.

Lemma only_touches_alter i ro f :
  (∀ m, (sm_secret_type (f m), sm_resource (f m)) = (sm_secret_type m, sm_resource m)) →
  only_touches i ro (ro <| ro_secrets ::= alter f i |>).
Proof.
  intros Hf. split.
  - unfold names. cbn. apply map_eq. intros j. rewrite !lookup_fmap. destruct (decide (j = i)) as [->|Hne].
    + rewrite lookup_alter_eq. destruct (ro_secrets ro !! i) as [m|]; [|done]. cbn. by rewrite Hf.
    + by rewrite lookup_alter_ne.
  - intros j Hne. cbn. by rewrite lookup_alter_ne.
Qed.

Lemma record_rotation_touches now io i previous interval hash ro :
  only_touches i ro (record_rotation cfg now io i previous interval hash ro).1.
Proof.
  unfold record_rotation. set (ro1 := ro <| ro_secrets ::= _ |>).
  assert (Ht : only_touches i ro ro1) by (by apply only_touches_alter).
  apply (only_touches_save i io) in Ht. destruct (save_metadata cfg io ro1) as [ro2 [[]|e]]; cbn [fst] in *; [|done].
  destruct Ht as [Hn Hj]. split; [done|]. intros j Hne. cbn. rewrite lookup_insert_ne by done. by apply Hj.
Qed.

Lemma rotate_vm_touches now now' io secret vm ro :
  is_Some (ro_secrets ro !! ("vm-secret-" +:+ vm)) →
  only_touches ("vm-secret-" +:+ vm) ro (rotate_vm_secret cfg now now' io secret vm ro).1.
Proof.
  intros [m Hm]. unfold rotate_vm_secret, previous_version. cbv zeta. rewrite Hm.
  destruct (io_write io _); [done|]. destruct (io_permissions io _); [done|].
  eapply only_touches_trans; [|apply record_rotation_touches]. done.
Qed.

Lemma rotate_ssh_touches now now' io vm ro :
  is_Some (ro_secrets ro !! ("ssh-key-" +:+ vm)) →
  only_touches ("ssh-key-" +:+ vm) ro (rotate_ssh_keys cfg now now' io vm ro).1.
Proof.
  intros [m Hm]. unfold rotate_ssh_keys, previous_version. cbv zeta. rewrite Hm. unfold keygen.
  destruct (io_keygen io _) as [[private public]|e]; [|done].
  set (ro1 := ro <| ro_files ::= _ |> <| ro_files ::= _ |>). cbv beta iota. destruct (ro_files ro1 !! _) as [key|]; [|done].
  match goal with |- context [record_rotation cfg ?a ?b ?c ?d ?f ?g ?x] =>
    pose proof (record_rotation_touches a b c d f g x) as Ht; destruct (record_rotation cfg a b c d f g x) as [ro2 [r|e]] end.
  - cbn [fst] in *. unfold cleanup_old_ssh_keys. destruct (_ <=? _); exact Ht.
  - exact Ht.
Qed.

(** Rotating due secrets leaves a secret that is not due. *)
Lemma rotate_due_other now now' io secret ids acc ro id :
  well_named ro → id ∉ ids →
  let ro' := (rotate_due cfg now now' io secret ids acc ro).1 in
  names ro' = names ro ∧ ro_secrets ro' !! id = ro_secrets ro !! id ∧ ro_pending ro' !! id = ro_pending ro !! id.
Proof.
  cbv zeta. revert acc ro. induction ids as [|i ids IH]; intros acc ro Hw Hid; [done|].
  apply not_elem_of_cons in Hid as [Hne Hid]. cbn [rotate_due].
  destruct (ro_secrets ro !! i) as [m|] eqn:Hm; cbn [mbind option_bind]; [|by apply IH].
  assert (Hn : names ro !! i = Some (sm_secret_type m, sm_resource m)) by (unfold names; by rewrite lookup_fmap, Hm).
  destruct (Hw i _ Hn) as [Hvm Hssh]. cbn [fst snd] in *.
  assert (Hstep : ∀ ro1, only_touches i ro ro1 → ∀ acc,
    let ro' := (rotate_due cfg now now' io secret ids acc ro1).1 in
    names ro' = names ro ∧ ro_secrets ro' !! id = ro_secrets ro !! id ∧ ro_pending ro' !! id = ro_pending ro !! id).
  { intros ro1 [Hn1 Hj] acc'. cbv zeta. destruct (Hj id Hne) as [<- <-]. rewrite <- Hn1. apply IH; [|done].
    unfold well_named. by rewrite Hn1. }
  case_decide as Ht; [|case_decide as Ht'; [|by apply IH]].
  - pose proof (rotate_vm_touches now now' io (secret i) (sm_resource m) ro) as Hr. rewrite <- (Hvm Ht) in Hr.
    specialize (Hr (ex_intro _ m Hm)). destruct (rotate_vm_secret _ _ _ _ _ _ _) as [ro1 [r|e]]; by apply Hstep.
  - pose proof (rotate_ssh_touches now now' io (sm_resource m) ro) as Hr. rewrite <- (Hssh Ht') in Hr.
    specialize (Hr (ex_intro _ m Hm)). destruct (rotate_ssh_keys _ _ _ _ _ _) as [ro1 [r|e]]; by apply Hstep.
Qed.

Lemma complete_rotation_touches io i ro : only_touches i ro (complete_rotation cfg io i ro).1.
Proof.
  unfold complete_rotation. destruct (ro_pending ro !! i); [|done]. apply only_touches_save.
  destruct (only_touches_alter i ro (λ m, m <| sm_state := SActive |>) ltac:(done)) as [Hn Hj].
  split; [exact Hn|]. intros j Hne. cbn. rewrite lookup_delete_ne by done. split; [by apply Hj|done].
Qed.

Lemma complete_all_other io ids n ro id :
  id ∉ ids → let ro' := (complete_all cfg io ids n ro).1 in
  names ro' = names ro ∧ ro_secrets ro' !! id = ro_secrets ro !! id ∧ ro_pending ro' !! id = ro_pending ro !! id.
Proof.
  cbv zeta. revert n ro. induction ids as [|i ids IH]; intros n ro Hid; [done|].
  apply not_elem_of_cons in Hid as [Hne Hid]. cbn [complete_all].
  destruct (complete_rotation_touches io i ro) as [Hn Hj]. destruct (Hj id Hne) as [Hs Hp].
  destruct (complete_rotation cfg io i ro) as [ro1 [[]|e]]; cbn [fst] in *; [|done].
  destruct (IH (n + 1) ro1 Hid) as (-> & -> & ->). done.
Qed.

(** A secret in its grace period with no rotation pending. *)
Definition stuck ro id (m : SecretMetadata) : Prop :=
  well_named ro ∧ ro_secrets ro !! id = Some m ∧ sm_state m = SGracePeriod ∧ ro_pending ro !! id = None.

Lemma cycle_stuck now now' now'' io secret ro id m :
  stuck ro id m → stuck (run_rotation_cycle cfg now now' now'' io secret ro).1 id m.
Proof.
  intros (Hw & Hm & Hst & Hp). unfold run_rotation_cycle. set (acc := {| cy_rotated := [] |}).
  assert (Hdue : id ∉ get_due_rotations now ro).
  { unfold get_due_rotations. intros ([i m'] & Hi & [Hd Hin]%list_elem_of_filter)%list_elem_of_fmap. cbn in Hi, Hd. subst i.
    apply elem_of_iter in Hin. rewrite Hm in Hin. injection Hin as <-. unfold secret_due in Hd. by rewrite Hst in Hd. }
  destruct (rotate_due_other now now' io secret _ acc ro id Hw Hdue) as (Hn & Hs & Hpd).
  destruct (rotate_due _ _ _ _ _ _ _ _) as [ro1 cycle]. cbn [fst] in *.
  assert (Hend : id ∉ ended_graces now'' ro1).
  { intros (r & Hr & _)%elem_of_ended_graces. by rewrite Hpd, Hp in Hr. }
  pose proof (complete_all_other io _ 0 ro1 id Hend) as (Hn2 & Hs2 & Hp2). unfold process_pending_rotations.
  destruct (complete_all _ _ _ _ _) as [ro2 res]. cbn [fst] in *.
  split_and!; [unfold well_named; by rewrite Hn2, Hn|congruence|done|congruence].
Qed.

(** The rotator after a number of cycles, each with its times, writes and
    random secrets. *)
Fixpoint run_cycles (cycles : list (Z * Z * Z * RotationIo * (string → string))) ro : SecretsRotator :=
  match cycles with
  | [] => ro
  | (now, now', now'', io, secret) :: cycles => run_cycles cycles (run_rotation_cycle cfg now now' now'' io secret ro).1
  end.

(** a restart in a grace period ends the rotation of the secret.  The
    pending rotations are not saved: a secret that was in its grace period when
    the server stopped stays in it, unchanged, however many rotation cycles run
    afterwards, and is not rotated by them again. *)
Theorem grace_never_ends_after_restart now0 ro0 id m cycles :
  well_named (load_rotator now0 ro0) → ro_secrets (load_rotator now0 ro0) !! id = Some m → sm_state m = SGracePeriod →
  ro_secrets (run_cycles cycles (load_rotator now0 ro0)) !! id = Some m.
Proof.
  intros Hw Hm Hst. assert (Hs : stuck (load_rotator now0 ro0) id m) by (split_and!; try done; apply lookup_empty).
  clear Hw Hm. revert Hs. generalize (load_rotator now0 ro0). induction cycles as [|c cycles IH]; intros ro Hs; [apply Hs|].
  destruct c as [[[[now now'] now''] io] secret]. cbn [run_cycles]. by apply IH, cycle_stuck.
Qed.

End theorems.

(** ** Sample runs *)

#[local] Existing Instance sample_auth.
#[local] Existing Instance sample_iter.

(** Times are written the way [sample_auth] reads them. *)
#[local] Instance rotation_env : Env := {|
  rfc3339 := λ t, bits_text (encode t);
  json_text := λ v, bits_text (encode (json_tree v));
  json_parse := λ s, tree_json <$> decode (text_bits s);
  jcs_sha256 := λ v, Ok (pretty (json_size v));
  uuid := λ i, pretty i;
|}.

Lemma rotation_env_parses : rfc3339_parses.
Proof. intros t. cbn. by rewrite text_bits_text, decode_encode. Qed.

Definition sample_io : RotationIo :=
  {| io_write := λ _, None; io_permissions := λ _, None; io_keygen := λ _, Ok ("private", "public") |}.
Definition empty_rotator : SecretsRotator :=
  {| ro_secrets := ∅; ro_pending := ∅; ro_history := []; ro_files := ∅; ro_saved := None |}.
Definition sample_cfg : RotationConfig := default_rotation_config.
Definition sample_rotated := rotate_vm_secret sample_cfg 0 0 sample_io "s1" "web" empty_rotator.
Definition sample_meta : SecretMetadata :=
  rotated_metadata 0 (24 * hour) 1 "s1" (fresh_metadata 0 "vm-secret-web" "vm_secret" "web" (24 * hour)).
Definition sample_result : RotationResult := rotation_result sample_cfg 0 "vm-secret-web" 0.

Lemma sample_rotated_ok : sample_rotated = (sample_rotated.1, Ok sample_result).
Proof. reflexivity. Qed.

Lemma rotation_replaces_secret_witness :
  verify_secret_hash sample_rotated.1 "vm-secret-web" "s1" = true ∧
  verify_secret_hash sample_rotated.1 "vm-secret-web" "s0" = false.
Proof.
  destruct (rotation_replaces_secret sample_cfg 0 0 sample_io "s1" "web" empty_rotator sample_rotated.1 sample_result
    sample_rotated_ok) as (_ & _ & _ & _ & Hv).
  split; [exact (Hv "s1")|exact (Hv "s0")].
Defined.

Definition sample_revoked := revoke_secret sample_cfg sample_io "vm-secret-web" sample_rotated.1.
Definition sample_ended := process_pending_rotations sample_cfg (15 * minute) sample_io sample_revoked.1.

Lemma sample_revoked_ok : match sample_revoked with (_, Ok _) => true | _ => false end = true.
Proof. vm_compute. reflexivity. Qed.
Lemma sample_ended_ok : match sample_ended with (_, Ok _) => true | _ => false end = true.
Proof. vm_compute. reflexivity. Qed.
Lemma sample_pending : ro_pending sample_rotated.1 !! "vm-secret-web" = Some sample_result.
Proof. vm_compute. reflexivity. Qed.
Lemma sample_secret_meta : ro_secrets sample_rotated.1 !! "vm-secret-web" = Some sample_meta.
Proof. vm_compute. reflexivity. Qed.

Lemma revoked_secret_revived_witness : verify_secret_hash sample_ended.1 "vm-secret-web" "s1" = true.
Proof.
  pose proof sample_revoked_ok as Hr. destruct sample_revoked as [ro1 [[]|e]] eqn:Hro1; [|discriminate Hr].
  pose proof sample_ended_ok as He. destruct sample_ended as [ro2 [n|e]] eqn:Hro2; [|discriminate He].
  unfold sample_ended in Hro2. rewrite Hro1 in Hro2.
  refine (proj2 (revoked_secret_revived sample_cfg sample_io sample_io (15 * minute) "vm-secret-web" sample_result sample_meta
    sample_rotated.1 ro1 ro2 n sample_pending sample_secret_meta _ Hro1 Hro2)).
  vm_compute. discriminate.
Defined.

Lemma ssh_rotation_never_succeeds_witness :
  ∃ e, (rotate_ssh_keys sample_cfg 0 0 sample_io "web" empty_rotator).2 = Err e.
Proof.
  refine (ssh_rotation_never_succeeds sample_cfg 0 0 sample_io "web" empty_rotator
    (rotate_ssh_keys sample_cfg 0 0 sample_io "web" empty_rotator).1 _ _). reflexivity.
Defined.

Lemma sample_well_identified : map_Forall (λ id m, sm_secret_id m = id) (ro_secrets sample_rotated.1).
Proof. change (ro_secrets sample_rotated.1) with ({["vm-secret-web" := sample_meta]} : gmap string SecretMetadata). by apply map_Forall_singleton. Qed.

Lemma metadata_roundtrip_witness :
  ro_secrets (load_rotator 9 (save_metadata sample_cfg sample_io sample_rotated.1).1) = ro_secrets sample_rotated.1.
Proof.
  refine (metadata_roundtrip sample_cfg sample_io 9 sample_rotated.1 _ rotation_env_parses sample_well_identified _). reflexivity.
Defined.

Lemma sample_loaded : ro_secrets (load_rotator 9 sample_rotated.1) = {["vm-secret-web" := sample_meta]}.
Proof.
  transitivity (ro_secrets (load_rotator 9 (save_metadata sample_cfg sample_io sample_rotated.1).1)); [reflexivity|].
  etransitivity; [|reflexivity]. vm_compute. reflexivity.
Qed.

Lemma grace_never_ends_after_restart_witness :
  ro_secrets (run_cycles sample_cfg [(100 * hour, 100 * hour, 100 * hour, sample_io, λ _, "s2")]
    (load_rotator 9 sample_rotated.1)) !! "vm-secret-web" = Some sample_meta.
Proof.
  refine (grace_never_ends_after_restart sample_cfg 9 sample_rotated.1 "vm-secret-web" sample_meta
    [(100 * hour, 100 * hour, 100 * hour, sample_io, λ _, "s2")] _ _ _).
  - unfold well_named, names. rewrite sample_loaded. rewrite map_fmap_singleton. apply map_Forall_singleton. by split.
  - rewrite sample_loaded. apply lookup_singleton_eq.
  - reflexivity.
Defined.
